(* ===== verification/_CoqProject ===== *)
-Q . S2P
Prelude.v
BTree.v
SseAdmission.v
Reconciliation.v
Bytes.v
SshFrame.v
SshStream.v
SshTransport.v
SshCalls.v
Utf8.v
SseDecoder.v
Text.v
Goal.v
Schedule.v
PatchCommon.v
PatchSeek.v
PatchUpdate.v
PatchParser.v
ToolOrigin.v
TurnFacts.v
TurnState.v
TurnRules.v
TurnSafety.v
TurnReplay.v
CompositionOrder.v
OutputCache.v
Mailbox.v
MailboxInvariant.v
QueueMutation.v
PatchDisk.v
PatchDiskRules.v
PatchApply.v
PatchCommit.v
PatchPreflight.v
PatchQuiet.v
PatchReads.v
PatchSuccess.v
TextMap.v
ContextMessage.v
ContextPruning.v
ContextOutcomes.v
ContextFold.v
ContextTurn.v
ContextFoldRules.v
ContextRequest.v
ContextProjection.v
SortedSet.v
MessageAdmission.v
MessageAdmissionRules.v
MessageAdmissionSafety.v
MessageAdmissionHistory.v
MessageAdmissionProgress.v
HostLedger.v
CatalogHistory.v
CapTable.v
CapTableRules.v
CapTableSpec.v
CapTableSlots.v
CapTableHistory.v
Editor.v
EditorRules.v
EditorHistory.v
