(* ===== verification/Prelude.v ===== *)
(** * RSIversi: a verification library for the agentic harness

    RSIversi is a modular harness for software agents: a Kernel records the life of every
    agent Turn as durable Facts, domains (Goals, Schedules) start automatic rounds, the Meta
    runtime reconciles plug-in Fibers, and transports move provider streams and remote
    processes. This library models the parts of it that keep state of their own or transform
    data, as executable definitions close to the Rust code, and proves them correct.

    ** The parts and where they are

    - The Turn state machine of the Kernel ([crates/rsi-agent/kernel/src]):
      ToolOrigin ([tool_origin.rs], which calls a model response authorises, over shared
      argument buffers), TurnFacts (the Facts, from [rsi-agent/session-protocol]), TurnState
      ([turn_state.rs], with the admission of [execution.rs] and the structured conclusions
      of [structured.rs]), TurnRules (what an accepted Fact implies), TurnSafety (scheduling
      of effects, single use of calls, numbering of program calls) and TurnReplay (the life
      cycle, truthful terminal Facts, recovery gives the live Turn back).  TurnState calls
      [ToolSource]'s operations; the executor and recovery call TurnState.
    - The context of a model ([crates/rsi-agent/context/src]): ContextMessage (messages and
      requests, [rsi-ai/protocol/src/semantic.rs]), ContextPruning ([pruning.rs], the units of
      a conversation and the pruning of long results), ContextOutcomes ([outcomes.rs], the
      calls of model responses and the view that answers them) and ContextFold ([lib.rs] and
      the rest of [outcomes.rs]: the fold over Facts, its retention and its projections).
      ContextTurn has what a Turn keeps and how its view follows from it, ContextFoldRules
      that every operation keeps the fold consistent, ContextRequest what a semantic request
      says and ContextProjection what a plain projection drops.
    - The automatic-round domains: Goal ([rsi-agent/goal]) and Schedule
      ([rsi-agent/schedule]) over Text (identities and frozen inputs of
      [session-protocol/src/lib.rs] and [continuation.rs]).  Their rounds enter the Kernel as
      accepted Turns whose settlement is reported back to [settle].
    - The Meta runtime ([crates/rsi-meta/core/src/runtime]): Reconciliation
      ([reconciliation_queue.rs]: Module Frontier, the ready queue with lazy deletion, and
      Module Progress, the revision and ticket ledger) and CompositionOrder
      ([composition_order.rs], the shared positions of child Fibers and their order).
    - The messages between its Services ([crates/rsi-meta/core/src/service]):
      MessageAdmission ([message_scheduler.rs], [message_waiter.rs], [message_admission.rs]:
      who may hold budget, and in which order waiting sends are served), over the ordered
      sets and maps of SortedSet.  MessageAdmissionRules and MessageAdmissionSafety have what
      every operation keeps, MessageAdmissionHistory the waiters and their grants over
      histories, MessageAdmissionProgress that they are all served.
    - What the host keeps for native plug-ins ([crates/rsi-meta/native-loader/src/native],
      [rsi-meta/native/src/wire.rs]): HostLedger (checked counters of the catalog's
      resources, [catalog_resources.rs]), CatalogHistory (the ledger over histories),
      CapTable ([cap_table.rs]: slots of capabilities named by index, epoch, kind and rights,
      with their leases), CapTableRules (its invariant), CapTableSpec (names as a partial map, and what
      each operation does to it), CapTableSlots (the accounting of slots) and CapTableHistory.
      CapTable charges and refunds HostLedger.
    - The terminal editor ([crates/rsi/terminal-ui/src/editor.rs] and [editor/journal.rs]):
      Editor (the text, the cursor and the journal of changes), EditorRules (its invariant)
      and EditorHistory (undo, redo and the bounds).
    - The mailbox of a Session: Mailbox (messages, queue slots and receipts as the Store
      projects them from control records: [session-protocol/src/queue.rs],
      [store-protocol/src/queue.rs], [testkit/src/memory_store.rs]), MailboxInvariant (what
      every history of commits keeps) and QueueMutation (the Kernel's edits of pending
      messages, [kernel/src/queue_mutation.rs], which commits to Mailbox).
    - Patches ([crates/rsi-apply-patch/core/src/patch_engine]): PatchCommon (paths and
      failures), PatchParser ([parser.rs]), PatchSeek (the Knuth-Morris-Pratt search) and
      PatchUpdate ([file_update.rs], locating hunks and splicing) prepare a patch; PatchDisk
      ([Root] of [patch_engine.rs] over system calls that may fail) and PatchApply
      ([preflight.rs], [commit] and the response) apply it.  PatchDiskRules has the program
      logic of PatchDisk, PatchCommit and PatchPreflight what a commit and a preflight do,
      PatchQuiet, PatchReads and PatchSuccess what a patch does to a workspace that nothing
      else touches.
    - Provider streams ([crates/rsi-ai/transport/src/sse.rs]): SseAdmission (the process-wide
      admission pool) and SseDecoder (the cross-chunk decoder), which reaches the pool through
      the class [FrameAdmissionApi].
    - SSH helper connections ([crates/rsi-ssh]): SshFrame (the codec of [protocol/src/frame.rs]),
      SshStream (credit flow control, [transport/src/stream.rs]), SshTransport (the connection
      state of [state.rs], [request.rs], [wire.rs], [budget.rs]) and SshCalls (whole histories
      of calls).
    - Process output ([crates/rsi-process/local/src/output_cache.rs]): OutputCache (the
      worker that keeps the output of processes in files within a quota, with failing
      file-system calls, and the pages it serves).
    - Shared: this file (machine integers, fallible computations, tactics, hints), BTree
      ([BTreeMap]), SortedSet ([BTreeSet] and [BTreeMap] with integer keys), TextMap (the same with text keys), Bytes and Utf8.

    ** What the theorems show

    Safety of histories: the effects and calls of a Turn, the flow of a stream, the calls of
    a connection, the firing of reminders and the evidence of a completed Goal are stated
    over every sequence of operations from the initial state. Refinements: the chunk buffers
    refine byte strings, the ready queue a FIFO, the stream a list of chunks, the patch
    splice a list edit, a patch its operations on the files, a Turn its life cycle, the
    order of child Fibers a list of children per parent, the edit of a queue what its
    receipt says. Equivalences: recovery and live staging, the chunked and the whole
    decoding, the completed response and the calls it authorises. Round trips of the frame
    codec, of written patches and of event streams. Errors: the parser on every document,
    terminal Facts; liveness: the admission pool never deadlocks, a drained stream has
    credit, the frontier does not starve a Fiber, every waiting send between Services is
    served when the permits before it are dropped, after a bounded number of overtaking ones. Resources: positions of Fibers live
    exactly as long as something refers to them, process output stays within its quota
    whichever file-system calls fail, and what is read back is what was written, the budget
    of messages is neither lost nor exceeded, the slots and counters of native plug-ins are
    those of the capabilities they hold.  The name of a capability resolves to what was
    issued under it until it is given up, and never to anything else.  Undo and redo of
    the editor restore the text they left, within its limits of size. A patch
    changes the tree by exactly the effects it reports, whatever fails and whatever happens
    between its operations, and when nothing does it is applied completely or not at all. A
    queue slot is consumed at most once, whatever edits, claims and promotions meet, and a
    repeated edit is answered by its first receipt. The context of a model stays consistent
    whatever Facts it ingests; what it sends to a provider is the conversation with every call
    answered once, a result too long for it shortened to its edges, and where whole Turns are
    dropped, the fewest.

    ** Conventions

    Integers are [Z] in the range of their Rust type, arithmetic that is checked or saturates
    in the code is [checked_add] and so on.  A string is its list of Unicode scalar values
    ([text]) or its bytes; a [BTreeMap] with integer keys is an ordered association list, other maps are
    [gmap].  [Ok], [Err] and [Panic] are the two sides of a [Result] and an unwinding
    panic; where a failed call leaves changed state behind, the state is returned beside the
    result.  Loops are structural where the code iterates over data.  Where it loops on a
    condition the definition has fuel computed from its input (the bytes that are left, the
    live entries, the waiters), running out of it is a panic, and a theorem or lemma of the
    file excludes it ([push_chunks_spec], [schedule_waiters_terminates], [parse_patch_sound], [schedule_spec],
    [trim_spec]).

    Parameters stand for code outside the sources: serde's JSON values and parser and the
    SHA-256 fingerprint ([Json]), compiled JSON schemas ([Contracts]), request digests of
    Goals and Schedules, the JSON control messages of the SSH helper, the encoded lengths and
    request digests of control records ([Wire]), the texts of system errors, the encoded
    length of a patch response, the encoded length of a message, the mode of new files, Unicode tables of text validation, the grapheme
    segmentation of the editor's text.

    ** Not modelled

    Asynchrony is modelled as its sequence of critical sections: wake-ups, timeouts and task
    cancellation are steps of a history, not a scheduler.  Of a [TurnControl] the claim, the
    execution lease, the tree lane and the cancellation token are left out, as are the prices,
    sizes and payload checks that only refuse more Facts.  Of a context the byte credits and
    the result of the language assembler are given with each Fact; the conversion of claimed
    inputs, compaction plans, installed summaries, Fact digests and checkpoints are left out.  Of the admission of messages the
    counters of rejections and the clock of deadlines are left out, of native plug-ins the
    table of outputs and the library calls.  The registrations of plug-ins, the
    TOML and JSON codecs, databases, processes, user interfaces and provider translations are not modelled, nor is
    the evidence attached to a patch response; the manifest lists them.  The file systems of
    PatchDisk and OutputCache are trees of nodes whose calls may fail. *)

From stdpp Require Export base numbers list sorting gmap strings pretty.
From Stdlib Require Export Sorting.Sorted.
From Stdlib Require Export ZArith Lia ZifyBool.

#[global] Open Scope Z_scope.

(** ** Machine integers

    Rust's [u64] and (on the supported 64-bit targets) [usize] are integers of
    [Z] in the range [0 .. 2^64 - 1]; [u32] in [0 .. 2^32 - 1]. *)
Definition u64_max : Z := 18446744073709551615.
Definition usize_max : Z := 18446744073709551615.
Definition u32_max : Z := 4294967295.

(** [checked_add], [checked_sub], [checked_mul] at a width with maximum [w]. *)
Definition checked_add (w a b : Z) : option Z :=
  if a + b <=? w then Some (a + b) else None.
Definition checked_sub (a b : Z) : option Z :=
  if b <=? a then Some (a - b) else None.
Definition checked_mul (w a b : Z) : option Z :=
  if a * b <=? w then Some (a * b) else None.
Definition saturating_add (w a b : Z) : Z := Z.min w (a + b).
Definition saturating_sub (a b : Z) : Z := Z.max 0 (a - b).
Definition saturating_mul (w a b : Z) : Z := Z.min w (a * b).

(** The length of a collection as a [usize]. *)
Definition len {A} (l : list A) : Z := Z.of_nat (length l).

(** ** Fallible computations

    [Ok] and [Err] are the two sides of a Rust [Result]; [Panic] is a failed
    [expect], [assert!], index or [unreachable!], which unwinds. *)
Inductive outcome (E A : Type) : Type :=
| Ok (a : A)
| Err (e : E)
| Panic.
Arguments Ok {E A} a.
Arguments Err {E A} e.
Arguments Panic {E A}.

Definition obind {E A B} (m : outcome E A) (k : A → outcome E B) : outcome E B :=
  match m with
  | Ok a => k a
  | Err e => Err e
  | Panic => Panic
  end.

(** [ok_or o e] is [Option::ok_or], [expect o] is [Option::expect]. *)
Definition ok_or {E A} (o : option A) (e : E) : outcome E A :=
  match o with Some a => Ok a | None => Err e end.
Definition expect {E A} (o : option A) : outcome E A :=
  match o with Some a => Ok a | None => Panic end.

Declare Scope outcome_scope.
Delimit Scope outcome_scope with outcome.
Notation "'let?' x := m 'in' k" := (obind m (λ x, k))
  (at level 10, x pattern, m at level 100, k at level 200)
  : outcome_scope.
Notation "'guard?' b 'else' e ';' k" := (if b then k else Err e)
  (at level 10, b at level 100, e at level 100, k at level 200)
  : outcome_scope.

Definition is_ok {E A} (m : outcome E A) : bool :=
  match m with Ok _ => true | _ => false end.
Definition is_panic {E A} (m : outcome E A) : bool :=
  match m with Panic => true | _ => false end.

Section outcome_lemmas.
Context {E A B : Type}.
Implicit Types (m : outcome E A) (k : A → outcome E B).

Lemma obind_ok m k b : obind m k = Ok b ↔ ∃ a, m = Ok a ∧ k a = Ok b.
Proof. destruct m; naive_solver. Qed.

Lemma obind_no_panic m k :
  m ≠ Panic → (∀ a, m = Ok a → k a ≠ Panic) → obind m k ≠ Panic.
Proof. destruct m; naive_solver. Qed.

Lemma ok_or_ok (o : option A) (e : E) a : ok_or o e = Ok a ↔ o = Some a.
Proof. destruct o; naive_solver. Qed.

Lemma expect_ok (o : option A) a : expect (E:=E) o = Ok a ↔ o = Some a.
Proof. destruct o; naive_solver. Qed.
End outcome_lemmas.

(** ** Arithmetic lemmas *)
Lemma checked_add_Some w a b c : checked_add w a b = Some c ↔ c = a + b ∧ a + b ≤ w.
Proof. unfold checked_add. case_match; split; intros; simplify_eq; naive_solver lia. Qed.

Lemma checked_sub_Some a b c : checked_sub a b = Some c ↔ c = a - b ∧ b ≤ a.
Proof. unfold checked_sub. case_match; split; intros; simplify_eq; naive_solver lia. Qed.

Lemma checked_mul_Some w a b c : checked_mul w a b = Some c ↔ c = a * b ∧ a * b ≤ w.
Proof. unfold checked_mul. case_match; split; intros; simplify_eq; naive_solver lia. Qed.

Lemma checked_add_fits w a b : a + b ≤ w → checked_add w a b = Some (a + b).
Proof. rewrite checked_add_Some. lia. Qed.

Lemma checked_mul_fits w a b : a * b ≤ w → checked_mul w a b = Some (a * b).
Proof. rewrite checked_mul_Some. lia. Qed.

Lemma checked_sub_fits a b : b ≤ a → checked_sub a b = Some (a - b).
Proof. rewrite checked_sub_Some. lia. Qed.

(** ** List lemmas shared by the components *)
Definition zsum (l : list Z) : Z := foldr Z.add 0 l.
#[global] Arguments zsum : simpl never.

Section list_lemmas.
Context {A : Type}.
Implicit Types l : list A.

Lemma len_nonneg l : 0 ≤ len l.
Proof. unfold len. lia. Qed.
Lemma len_app l k : len (l ++ k) = len l + len k.
Proof. unfold len. rewrite length_app. lia. Qed.
Lemma len_cons x l : len (x :: l) = 1 + len l.
Proof. unfold len. simpl. lia. Qed.
Lemma len_nil : len (@nil A) = 0.
Proof. done. Qed.

Lemma filter_all (P : A → Prop) `{∀ x, Decision (P x)} l :
  Forall P l → filter P l = l.
Proof. induction 1; [done|]. rewrite filter_cons_True by done. congruence. Qed.

Lemma Forall_keep (P Q : A → Prop) `{∀ x, Decision (Q x)} l :
  Forall P l → Forall P (filter Q l).
Proof.
  rewrite !Forall_forall. intros HP x [_ Hx]%list_elem_of_filter. auto.
Qed.

Lemma zsum_cons z (l : list Z) : zsum (z :: l) = z + zsum l.
Proof. done. Qed.
Lemma zsum_nil : zsum [] = 0.
Proof. done. Qed.
Lemma zsum_app (k l : list Z) : zsum (k ++ l) = zsum k + zsum l.
Proof. induction k; simpl; rewrite ?zsum_cons, ?zsum_nil; lia. Qed.
#[global] Instance zsum_Permutation : Proper ((≡ₚ) ==> (=)) zsum.
Proof. induction 1; rewrite ?zsum_cons; lia. Qed.
Lemma zsum_nonneg (l : list Z) : Forall (λ z, 0 ≤ z) l → 0 ≤ zsum l.
Proof. induction 1; rewrite ?zsum_cons, ?zsum_nil; lia. Qed.
Lemma zsum_insert (g : A → Z) l n x y :
  l !! n = Some x → zsum (g <$> <[n := y]> l) = zsum (g <$> l) - g x + g y.
Proof.
  revert n. induction l as [|a l IH]; intros [|n] H; try done.
  - injection H as ->. change (<[0%nat := y]> (x :: l)) with (y :: l).
    rewrite !fmap_cons, !zsum_cons. lia.
  - change (<[S n := y]> (a :: l)) with (a :: <[n := y]> l).
    rewrite !fmap_cons, !zsum_cons, (IH n) by done. lia.
Qed.
End list_lemmas.

(** ** Automation *)

(** Turns boolean tests of the code into arithmetic facts and solves with [lia]. *)
Ltac blia := repeat case_match; simplify_eq/=; lia.

(** A bound on every element from a stronger one in the context. *)
Ltac forall_lia :=
  match goal with
  | H : Forall ?P ?l |- Forall ?Q ?l =>
      solve [eapply Forall_impl; [exact H|]; let e := fresh in let He := fresh in
             intros e He; cbn beta in *; lia]
  end.

(** Takes apart the equation of an [Ok] result of a composed computation. *)
Ltac inv_outcome :=
  repeat match goal with
  | H : obind _ _ = Ok _ |- _ => apply obind_ok in H as (? & ? & ?)
  | H : ok_or _ _ = Ok _ |- _ => apply ok_or_ok in H
  | H : expect _ = Ok _ |- _ => apply expect_ok in H
  | H : checked_add _ _ _ = Some _ |- _ => apply checked_add_Some in H as [-> ?]
  | H : checked_sub _ _ = Some _ |- _ => apply checked_sub_Some in H as [-> ?]
  | H : checked_mul _ _ _ = Some _ |- _ => apply checked_mul_Some in H as [-> ?]
  | H : Ok _ = Ok _ |- _ => injection H as H
  | H : Err _ = Ok _ |- _ => discriminate H
  | H : Panic = Ok _ |- _ => discriminate H
  | H : (if _ then _ else _) = Ok _ |- _ => case_match
  end; simplify_eq/=.

Create HintDb rsi.
Create Rewrite HintDb rsi.
#[export] Hint Resolve len_nonneg zsum_nonneg : rsi.
#[export] Hint Rewrite @len_app @len_cons @len_nil : rsi.
