(* ===== verification/BTree.v ===== *)
(** * Ordered maps with integer keys

    The model of [BTreeMap<u64, V>]: a list of bindings in strictly increasing
    key order, so that iteration visits the keys the way the code does.  The
    lookup equations hold on any list; the order invariant [bt_wf] gives the
    membership, permutation and sum lemmas the components use. *)

From S2P Require Import Prelude.

Abbreviation bmap V := (list (Z * V)).

Section btree.
Context {V : Type}.
Implicit Types (m : bmap V) (k j : Z) (v w : V).

Fixpoint bt_get k m : option V :=
  match m with
  | [] => None
  | (k', v) :: r => if k =? k' then Some v else bt_get k r
  end.

Fixpoint bt_insert k v m : bmap V :=
  match m with
  | [] => [(k, v)]
  | (k', v') :: r =>
      if k <? k' then (k, v) :: m
      else if k =? k' then (k, v) :: r
      else (k', v') :: bt_insert k v r
  end.

Definition bt_remove k m : bmap V := filter (λ p, p.1 ≠ k) m.

Definition bt_contains k m : bool := match bt_get k m with Some _ => true | None => false end.

(** Rust's [get_mut] followed by an assignment through the reference. *)
Definition bt_update k (f : V → V) m : bmap V :=
  match bt_get k m with
  | Some v => bt_insert k (f v) m
  | None => m
  end.

Definition bt_sum (f : V → Z) m : Z := zsum ((λ p, f p.2) <$> m).

Definition bt_wf m : Prop := StronglySorted Z.lt m.*1.

Lemma bt_get_insert k j v m :
  bt_get j (bt_insert k v m) = if j =? k then Some v else bt_get j m.
Proof.
  induction m as [|[k' v'] m IH]; simpl; [done|].
  repeat (case_match; simpl); simplify_eq; try done; try lia.
Qed.

Lemma bt_get_insert_eq k v m : bt_get k (bt_insert k v m) = Some v.
Proof. by rewrite bt_get_insert, Z.eqb_refl. Qed.

Lemma bt_get_insert_ne k j v m : j ≠ k → bt_get j (bt_insert k v m) = bt_get j m.
Proof. intros. rewrite bt_get_insert. case_match; [lia|done]. Qed.

Lemma bt_get_remove k j m :
  bt_get j (bt_remove k m) = if j =? k then None else bt_get j m.
Proof.
  unfold bt_remove. induction m as [|[k' v'] m IH]; [by case_match|].
  rewrite filter_cons. simpl. case_decide as Hk; simpl; rewrite ?IH.
  - repeat case_match; try done; lia.
  - repeat case_match; try done; lia.
Qed.

Lemma bt_get_remove_ne k j m : j ≠ k → bt_get j (bt_remove k m) = bt_get j m.
Proof. intros. rewrite bt_get_remove. case_match; [lia|done]. Qed.

Lemma bt_get_remove_eq k m : bt_get k (bt_remove k m) = None.
Proof. by rewrite bt_get_remove, Z.eqb_refl. Qed.

Lemma bt_get_elem k v m : bt_get k m = Some v → (k, v) ∈ m.
Proof.
  induction m as [|[k' v'] m IH]; simpl; [done|].
  case_match; intros; simplify_eq.
  - assert (k = k') as -> by lia. apply list_elem_of_here.
  - apply list_elem_of_further; auto.
Qed.

Lemma bt_get_None k m : bt_get k m = None ↔ k ∉ m.*1.
Proof.
  induction m as [|[k' v'] m IH]; simpl; [set_solver|].
  rewrite not_elem_of_cons. case_match.
  - split; [done|]. intros [? _]. lia.
  - rewrite IH. split; [|tauto]. intros. split; [lia|done].
Qed.

Lemma bt_wf_cons k v m :
  bt_wf ((k, v) :: m) ↔ Forall (λ p, k < p.1) m ∧ bt_wf m.
Proof.
  unfold bt_wf. simpl. split.
  - intros H. apply StronglySorted_inv in H as [? H].
    split; [|done]. by rewrite Forall_fmap in H.
  - intros [H ?]. constructor; [done|]. by rewrite Forall_fmap.
Qed.

Lemma bt_wf_NoDup m : bt_wf m → NoDup m.*1.
Proof.
  induction m as [|[k v] m IH]; [constructor|].
  rewrite bt_wf_cons. intros [Hk Hm]. simpl. constructor; [|auto].
  rewrite list_elem_of_fmap. intros ([k' v'] & -> & Hin).
  rewrite Forall_forall in Hk. specialize (Hk _ Hin). simpl in Hk. lia.
Qed.

Lemma bt_elem_get k v m : bt_wf m → (k, v) ∈ m → bt_get k m = Some v.
Proof.
  induction m as [|[k' v'] m IH]; [set_solver|].
  rewrite bt_wf_cons. intros [Hk Hm] Hin. simpl.
  apply elem_of_cons in Hin as [?|Hin]; simplify_eq.
  - by rewrite Z.eqb_refl.
  - rewrite Forall_forall in Hk. specialize (Hk _ Hin). simpl in Hk.
    case_match; [lia|auto].
Qed.

Lemma bt_insert_Forall (P : Z * V → Prop) k v m :
  P (k, v) → Forall P m → Forall P (bt_insert k v m).
Proof.
  intros Hk. induction m as [|[k' v'] m IH]; intros HP; simpl; [by constructor|].
  apply Forall_cons in HP as [? ?]. repeat case_match; repeat constructor; auto.
Qed.

Lemma bt_wf_insert k v m : bt_wf m → bt_wf (bt_insert k v m).
Proof.
  induction m as [|[k' v'] m IH]; simpl.
  - intros _. apply bt_wf_cons. split; [constructor|constructor].
  - rewrite bt_wf_cons. intros [Hk Hm]. case_match; [|case_match].
    + apply bt_wf_cons. split; [|by apply bt_wf_cons].
      constructor; simpl; [lia|]. eapply Forall_impl; [done|]. simpl. lia.
    + assert (k = k') as -> by lia. by apply bt_wf_cons.
    + apply bt_wf_cons. split; [|auto]. apply bt_insert_Forall; [simpl; lia|done].
Qed.

Lemma bt_wf_filter (P : Z * V → Prop) `{∀ x, Decision (P x)} m :
  bt_wf m → bt_wf (filter P m).
Proof.
  induction m as [|[k v] m IH]; [done|].
  rewrite bt_wf_cons. intros [Hk Hm]. rewrite filter_cons. case_decide; [|auto].
  apply bt_wf_cons. split; [|auto]. rewrite Forall_forall in *.
  intros x [_ Hx]%list_elem_of_filter. auto.
Qed.

Lemma bt_wf_remove k m : bt_wf m → bt_wf (bt_remove k m).
Proof. apply bt_wf_filter. Qed.

Lemma bt_remove_absent k m : bt_get k m = None → bt_remove k m = m.
Proof.
  intros Hk%bt_get_None. unfold bt_remove.
  apply filter_all. apply Forall_forall. intros [j w] Hin Heq. simpl in *. subst.
  apply Hk. apply list_elem_of_fmap. by exists (k, w).
Qed.

Lemma bt_remove_insert k v m : bt_remove k (bt_insert k v m) = bt_remove k m.
Proof.
  unfold bt_remove. induction m as [|[j w] m IH]; simpl.
  { by rewrite filter_cons_False by (simpl; tauto). }
  repeat case_match; rewrite !filter_cons; simpl; repeat case_decide;
    try done; try lia; by rewrite IH.
Qed.

Lemma bt_insert_perm k v m :
  bt_wf m → bt_insert k v m ≡ₚ (k, v) :: bt_remove k m.
Proof.
  induction m as [|[k' v'] m IH]; [done|].
  rewrite bt_wf_cons. intros [Hk Hm]. unfold bt_remove. rewrite filter_cons.
  simpl. fold (bt_remove k m).
  assert (k ≤ k' → k' ≠ k ∨ bt_get k m = None) as Hne.
  { intros. destruct (decide (k' = k)) as [->|]; [right|by left].
    apply bt_get_None. intros ([j w] & ? & Hin)%list_elem_of_fmap. simpl in *; subst.
    rewrite Forall_forall in Hk. specialize (Hk _ Hin). simpl in Hk. lia. }
  case_match; [|case_match].
  - rewrite decide_True by lia. rewrite (bt_remove_absent k m); [done|].
    apply bt_get_None. intros ([j w] & ? & Hin)%list_elem_of_fmap. simpl in *; subst.
    rewrite Forall_forall in Hk. specialize (Hk _ Hin). simpl in Hk. lia.
  - assert (k = k') as -> by lia. rewrite decide_False by tauto.
    destruct Hne; [lia|lia|]. by rewrite (bt_remove_absent k' m).
  - rewrite decide_True by lia. rewrite IH by done. constructor.
Qed.

Lemma bt_remove_perm k v m :
  bt_wf m → bt_get k m = Some v → m ≡ₚ (k, v) :: bt_remove k m.
Proof.
  induction m as [|[k' v'] m IH]; [done|].
  rewrite bt_wf_cons. intros [Hk Hm]. unfold bt_remove. rewrite filter_cons.
  fold (bt_remove k m). simpl. case_match; intros; simplify_eq.
  - assert (k = k') as -> by lia. rewrite decide_False by tauto.
    rewrite bt_remove_absent; [done|]. apply bt_get_None.
    intros ([j w] & ? & Hin)%list_elem_of_fmap. simpl in *; subst.
    rewrite Forall_forall in Hk. specialize (Hk _ Hin). simpl in Hk. lia.
  - rewrite decide_True by lia. rewrite IH at 1 by done. constructor.
Qed.

Lemma bt_sum_remove f k v m :
  bt_wf m → bt_get k m = Some v → bt_sum f m = f v + bt_sum f (bt_remove k m).
Proof. intros. unfold bt_sum. by rewrite (bt_remove_perm k v m) at 1. Qed.

Lemma bt_sum_insert_new f k v m :
  bt_wf m → bt_get k m = None → bt_sum f (bt_insert k v m) = f v + bt_sum f m.
Proof.
  intros. unfold bt_sum. rewrite bt_insert_perm by done. by rewrite bt_remove_absent.
Qed.

Lemma bt_sum_insert_old f k v w m :
  bt_wf m → bt_get k m = Some w → bt_sum f (bt_insert k v m) = f v - f w + bt_sum f m.
Proof.
  intros Hm Hk. pose proof (bt_sum_remove f k w m Hm Hk) as ->.
  unfold bt_sum. rewrite bt_insert_perm by done. rewrite fmap_cons, zsum_cons. simpl. lia.
Qed.

Lemma bt_insert_gt k v m : Forall (λ e, e.1 < k) m → bt_insert k v m = m ++ [(k, v)].
Proof.
  induction 1 as [|[j w] m Hj Hm IH]; [done|]. simpl in *.
  case_match; [lia|]. case_match; [lia|]. by rewrite IH.
Qed.

Lemma bt_insert_app k v m m' :
  Forall (λ e, e.1 < k) m → bt_insert k v (m ++ m') = m ++ bt_insert k v m'.
Proof.
  induction 1 as [|[j w] m Hj Hm IH]; [done|]. simpl in *.
  case_match; [lia|]. case_match; [lia|]. by rewrite IH.
Qed.

Lemma bt_get_app_lt k m m' : Forall (λ e, e.1 < k) m → bt_get k (m ++ m') = bt_get k m'.
Proof.
  induction 1 as [|[j w] m Hj Hm IH]; [done|]. simpl in *. case_match; [lia|done].
Qed.

Lemma bt_wf_app m m' : bt_wf (m ++ m') → bt_wf m ∧ bt_wf m'.
Proof.
  induction m as [|[k v] m IH]; [by repeat constructor|]. simpl. rewrite !bt_wf_cons.
  intros [Hk Hm]. apply Forall_app in Hk as [? _]. naive_solver.
Qed.

(** The greatest key is the last one. *)
Lemma bt_get_last k m :
  bt_wf m → Forall (λ e, e.1 ≤ k) m →
  match bt_get k m with
  | None => Forall (λ e, e.1 < k) m
  | Some v => ∃ m0, m = m0 ++ [(k, v)] ∧ Forall (λ e, e.1 < k) m0
  end.
Proof.
  induction m as [|[j w] m IH]; [constructor|].
  rewrite bt_wf_cons. intros [Hj Hm] [Hle Hall]%Forall_cons. simpl in *.
  destruct (k =? j) eqn:He.
  - assert (k = j) as -> by lia. exists []. split; [|constructor].
    destruct m as [|[i u] m]; [done|]. apply Forall_cons in Hj as [? _].
    apply Forall_cons in Hall as [? _]. simpl in *. lia.
  - specialize (IH Hm Hall). case_match.
    + destruct IH as (m0 & -> & ?). exists ((j, w) :: m0). split; [done|].
      constructor; [simpl; lia|done].
    + constructor; [simpl; lia|done].
Qed.

Lemma bt_elem_filter_get (P : Z * V → Prop) `{∀ x, Decision (P x)} k v m :
  bt_wf m → bt_get k (filter P m) = Some v ↔ bt_get k m = Some v ∧ P (k, v).
Proof.
  intros Hm. split.
  - intros [? Hin]%bt_get_elem%list_elem_of_filter. split; [|done]. by apply bt_elem_get.
  - intros [Hin%bt_get_elem ?]. apply bt_elem_get; [by apply bt_wf_filter|].
    by apply list_elem_of_filter.
Qed.
(** Replacing a value that a view does not see leaves the view alone. *)
Lemma bt_insert_view {B} (g : Z * V → B) k v w m :
  bt_wf m → bt_get k m = Some w → g (k, v) = g (k, w) → g <$> bt_insert k v m = g <$> m.
Proof.
  induction m as [|[j u] m IH]; [done|]. rewrite bt_wf_cons. intros [Hj Hm]. simpl.
  destruct (k =? j) eqn:Hkj; intros Hk Hg.
  - simplify_eq. replace (k <? j) with false by lia. csimpl.
    assert (k = j) as -> by lia. by rewrite Hg.
  - destruct (k <? j) eqn:Hlt.
    + exfalso. apply bt_get_elem in Hk. rewrite Forall_forall in Hj.
      apply Hj in Hk. simpl in Hk. lia.
    + csimpl. by rewrite IH.
Qed.

End btree.

#[export] Hint Resolve bt_wf_insert bt_wf_remove bt_wf_filter : rsi.
#[export] Hint Rewrite @bt_get_insert_eq @bt_get_remove_eq : rsi.
