(* ===== verification/SseAdmission.v ===== *)
(** * Byte admission of provider SSE frames

    Model of the process-wide [AdmissionPool] of
    [crates/rsi-ai/transport/src/sse.rs]: unfinished frames declare a maximum
    number of admission units and grow towards it; delivered frames keep a fixed
    lease.  Grants are made one at a time, under the pool's lock, and only when a
    completion order for every unfinished frame remains (a banker's algorithm).

    Every critical section of the code is one definition here; [schedule_waiters]
    releases the lock between grants, so the interleavings of the process are the
    sequences of [pool_step].  A [None] result is a panic ([expect], [assert!]). *)

From S2P Require Import Prelude BTree.

Definition MAX_PROVIDER_SSE_FRAME_BYTES : Z := 384 * 1024 * 1024.
Definition ADMISSION_UNIT_BYTES : Z := 256 * 1024.
Definition MAXIMUM_ADMISSION_UNITS : Z := MAX_PROVIDER_SSE_FRAME_BYTES / ADMISSION_UNIT_BYTES.
Definition MAXIMUM_ADMISSION_CLAIMS : Z := 1024.

Record TransportError := transport_error { te_code : string; te_message : string }.

Record AdmissionPool := { unit_bytes : Z; total_units : Z }.

Definition FRAME_ADMISSION : AdmissionPool :=
  {| unit_bytes := ADMISSION_UNIT_BYTES; total_units := MAXIMUM_ADMISSION_UNITS |}.

Record Claim := { maximum_units : Z; allocated_units : Z }.

Inductive WaitKind := Growth | Begin.

#[export] Instance WaitKind_eq_dec : EqDecision WaitKind.
Proof. solve_decision. Defined.

(** The waiter's [Notify] is identified by its ticket; a grant reports the ticket. *)
Record Waiter := { w_claim : Z; target_units : Z; kind : WaitKind }.

Record AdmissionState := {
  next_claim : Z;
  next_ticket : Z;
  fixed_units : Z;
  declared_maximum_units : Z;
  claims : bmap Claim;
  waiters : bmap Waiter;
}.

Definition admission_state_default : AdmissionState :=
  {| next_claim := 0; next_ticket := 0; fixed_units := 0;
     declared_maximum_units := 0; claims := []; waiters := [] |}.

Definition set_claims (st : AdmissionState) (cs : bmap Claim) : AdmissionState :=
  {| next_claim := next_claim st; next_ticket := next_ticket st;
     fixed_units := fixed_units st; declared_maximum_units := declared_maximum_units st;
     claims := cs; waiters := waiters st |}.
Definition set_waiters (st : AdmissionState) (ws : bmap Waiter) : AdmissionState :=
  {| next_claim := next_claim st; next_ticket := next_ticket st;
     fixed_units := fixed_units st; declared_maximum_units := declared_maximum_units st;
     claims := claims st; waiters := ws |}.
Definition set_declared (st : AdmissionState) (d : Z) : AdmissionState :=
  {| next_claim := next_claim st; next_ticket := next_ticket st;
     fixed_units := fixed_units st; declared_maximum_units := d;
     claims := claims st; waiters := waiters st |}.
Definition set_fixed (st : AdmissionState) (f : Z) : AdmissionState :=
  {| next_claim := next_claim st; next_ticket := next_ticket st;
     fixed_units := f; declared_maximum_units := declared_maximum_units st;
     claims := claims st; waiters := waiters st |}.
Definition set_next_claim (st : AdmissionState) (n : Z) : AdmissionState :=
  {| next_claim := n; next_ticket := next_ticket st;
     fixed_units := fixed_units st; declared_maximum_units := declared_maximum_units st;
     claims := claims st; waiters := waiters st |}.
Definition set_next_ticket (st : AdmissionState) (n : Z) : AdmissionState :=
  {| next_claim := next_claim st; next_ticket := n;
     fixed_units := fixed_units st; declared_maximum_units := declared_maximum_units st;
     claims := claims st; waiters := waiters st |}.

Definition units_for_bytes (p : AdmissionPool) (bytes : Z) : Z :=
  saturating_add usize_max bytes (unit_bytes p - 1) / unit_bytes p.

(** ** The safety test *)

(** [used], and the claims with a nonzero allocation as
    (remaining demand, allocation, identity), sorted. *)
Record SafetySimulation := { used : Z; sim_claims : list (Z * Z * Z) }.

Definition claim_le (x y : Z * Z * Z) : Prop :=
  let '(r1, a1, i1) := x in
  let '(r2, a2, i2) := y in
  r1 < r2 ∨ (r1 = r2 ∧ (a1 < a2 ∨ (a1 = a2 ∧ i1 ≤ i2))).

#[export] Instance claim_le_dec : RelDecision claim_le.
Proof. intros [[r1 a1] i1] [[r2 a2] i2]. unfold claim_le. apply _. Defined.

Fixpoint capture_claims (u : Z) (m : bmap Claim) : option (Z * list (Z * Z * Z)) :=
  match m with
  | [] => Some (u, [])
  | (id, c) :: rest =>
      if maximum_units c <? allocated_units c then None
      else
        match checked_add usize_max u (allocated_units c) with
        | None => None
        | Some u' =>
            match capture_claims u' rest with
            | None => None
            | Some (total, cs) =>
                Some (total,
                  if allocated_units c =? 0 then cs
                  else (maximum_units c - allocated_units c, allocated_units c, id) :: cs)
            end
        end
  end.

Definition capture (st : AdmissionState) : option SafetySimulation :=
  match capture_claims (fixed_units st) (claims st) with
  | None => None
  | Some (u, cs) => Some {| used := u; sim_claims := merge_sort claim_le cs |}
  end.

(** The loop of [permits] once the waiter's own row has been inserted. *)
Fixpoint permits_rest (work : Z) (existing : list (Z * Z * Z)) : option bool :=
  match existing with
  | [] => Some true
  | (remaining, allocated, _) :: rest =>
      if work <? remaining then Some false
      else
        match checked_add usize_max work allocated with
        | None => None
        | Some work' => permits_rest work' rest
        end
  end.

(** The loop of [permits] while the waiter's row [(remaining, target)] is still to
    be inserted in front of the first claim that needs at least as much. *)
Fixpoint permits_loop (remaining target work : Z) (existing : list (Z * Z * Z))
  : option bool :=
  let insert_here :=
    if work <? remaining then Some false
    else
      match checked_add usize_max work target with
      | None => None
      | Some work' => permits_rest work' existing
      end in
  match existing with
  | [] => insert_here
  | (remaining', allocated, _) :: rest =>
      if remaining <=? remaining' then insert_here
      else if work <? remaining' then Some false
      else
        match checked_add usize_max work allocated with
        | None => None
        | Some work' => permits_loop remaining target work' rest
        end
  end.

Definition permits (sim : SafetySimulation) (w : Waiter) (current : Claim) (total : Z)
  : option bool :=
  match checked_add usize_max (used sim) (target_units w - allocated_units current) with
  | None => Some false
  | Some u =>
      match checked_sub total u with
      | None => Some false
      | Some work =>
          permits_loop (maximum_units current - target_units w) (target_units w) work
            (filter (λ c, c.2 ≠ w_claim w) (sim_claims sim))
      end
  end.

(** [simulation] is the lazily initialised [OnceCell]: its value, when forced. *)
Definition safe_with_simulation (st : AdmissionState) (w : Waiter) (total : Z)
    (simulation : option SafetySimulation) : option bool :=
  match bt_get (w_claim w) (claims st) with
  | None => Some false
  | Some current =>
      if (target_units w <=? allocated_units current)
         || (maximum_units current <? target_units w)
      then Some false
      else if match checked_add usize_max (fixed_units st) (declared_maximum_units st) with
              | Some declared => declared <=? total
              | None => false
              end
      then Some true
      else match simulation with
           | None => Some false
           | Some sim => permits sim w current total
           end
  end.

(** ** Selection and grants *)

(** One pass of the loop over the waiters of one kind, with the shapes already
    refused; [Some (rejected, Some ticket)] stops at the first safe waiter. *)
Fixpoint select_pass (st : AdmissionState) (total : Z) (sim : option SafetySimulation)
    (k : WaitKind) (rejected : gset (Z * Z * Z)) (ws : bmap Waiter)
  : option (gset (Z * Z * Z) * option Z) :=
  match ws with
  | [] => Some (rejected, None)
  | (ticket, w) :: rest =>
      if decide (kind w = k) then
        match bt_get (w_claim w) (claims st) with
        | None => select_pass st total sim k rejected rest
        | Some c =>
            let shape := (maximum_units c, allocated_units c, target_units w) in
            if decide (shape ∈ rejected) then select_pass st total sim k rejected rest
            else
              match safe_with_simulation st w total sim with
              | None => None
              | Some true => Some (rejected, Some ticket)
              | Some false => select_pass st total sim k ({[shape]} ∪ rejected) rest
              end
        end
      else select_pass st total sim k rejected rest
  end.

Definition select_waiter (st : AdmissionState) (total : Z) : option (option Z) :=
  let sim := capture st in
  match select_pass st total sim Growth ∅ (waiters st) with
  | None => None
  | Some (_, Some ticket) => Some (Some ticket)
  | Some (rejected, None) =>
      match select_pass st total sim Begin rejected (waiters st) with
      | None => None
      | Some (_, found) => Some found
      end
  end.

(** The critical section of one iteration of [schedule_waiters]. *)
Definition grant_one (p : AdmissionPool) (st : AdmissionState)
  : option (option (Z * AdmissionState)) :=
  match select_waiter st (total_units p) with
  | None => None
  | Some None => Some None
  | Some (Some ticket) =>
      match bt_get ticket (waiters st) with
      | None => None
      | Some w =>
          match bt_get (w_claim w) (claims st) with
          | None => None
          | Some c =>
              Some (Some (ticket,
                set_claims (set_waiters st (bt_remove ticket (waiters st)))
                  (bt_insert (w_claim w)
                    {| maximum_units := maximum_units c;
                       allocated_units := target_units w |} (claims st))))
          end
      end
  end.

(** [schedule_waiters]: grants until none is selected; returns the notified tickets.
    Each grant removes a waiter, so [length (waiters st)] rounds are enough. *)
Fixpoint schedule_loop (fuel : nat) (p : AdmissionPool) (st : AdmissionState)
  : option (AdmissionState * list Z) :=
  match grant_one p st with
  | None => None
  | Some None => Some (st, [])
  | Some (Some (ticket, st')) =>
      match fuel with
      | O => None
      | S fuel' =>
          match schedule_loop fuel' p st' with
          | None => None
          | Some (st'', granted) => Some (st'', ticket :: granted)
          end
      end
  end.

Definition schedule_waiters (p : AdmissionPool) (st : AdmissionState)
  : option (AdmissionState * list Z) :=
  schedule_loop (length (waiters st)) p st.

(** ** The pool's other critical sections *)

Definition invalid_claim : TransportError :=
  transport_error "sse.invalid_frame_limit"
    "SSE frame admission claim exceeds the process budget".

Definition register_claim (p : AdmissionPool) (st : AdmissionState) (maximum : Z)
  : AdmissionState * outcome TransportError Z :=
  if (maximum =? 0) || (total_units p <? maximum) then (st, Err invalid_claim)
  else if MAXIMUM_ADMISSION_CLAIMS <=? len (claims st) then
    (st, Err (transport_error "sse.admission_capacity"
                "SSE unfinished-frame admission capacity is exhausted"))
  else
    match checked_add u64_max (next_claim st) 1 with
    | None =>
        (st, Err (transport_error "sse.admission_exhausted"
                    "SSE frame admission identity space is exhausted"))
    | Some claim =>
        let st1 := set_next_claim st claim in
        match checked_add usize_max (declared_maximum_units st1) maximum with
        | None =>
            (st1, Err (transport_error "sse.admission_exhausted"
                         "SSE frame admission declaration space is exhausted"))
        | Some declared =>
            (set_claims (set_declared st1 declared)
               (bt_insert claim {| maximum_units := maximum; allocated_units := 0 |}
                  (claims st1)),
             Ok claim)
        end
    end.

(** The locked prefix of [wait_for]: validates the target and queues a ticket. *)
Definition wait_for_enqueue (st : AdmissionState) (claim target : Z) (k : WaitKind)
  : AdmissionState * outcome TransportError Z :=
  match bt_get claim (claims st) with
  | None =>
      (st, Err (transport_error "sse.admission_closed"
                  "SSE frame admission claim is absent"))
  | Some current =>
      if (target <=? allocated_units current) || (maximum_units current <? target) then
        (st, Err (transport_error "sse.invalid_frame_limit"
                    "SSE frame admission target is outside its declared claim"))
      else
        match checked_add u64_max (next_ticket st) 1 with
        | None =>
            (st, Err (transport_error "sse.admission_exhausted"
                        "SSE frame admission ticket space is exhausted"))
        | Some ticket =>
            (set_waiters (set_next_ticket st ticket)
               (bt_insert ticket {| w_claim := claim; target_units := target; kind := k |}
                  (waiters st)),
             Ok ticket)
        end
  end.

(** [remove_waiter] up to its [schedule_waiters]; the flag says whether it is called. *)
Definition remove_waiter (st : AdmissionState) (ticket : Z) : AdmissionState * bool :=
  (set_waiters st (bt_remove ticket (waiters st)), bt_contains ticket (waiters st)).

(** [remove_claim] up to its [schedule_waiters]. *)
Definition remove_claim (st : AdmissionState) (claim : Z) : option (AdmissionState * bool) :=
  let drop_waiters s := set_waiters s (filter (λ x, w_claim x.2 ≠ claim) (waiters s)) in
  match bt_get claim (claims st) with
  | None => Some (drop_waiters st, false)
  | Some removed =>
      match checked_sub (declared_maximum_units st) (maximum_units removed) with
      | None => None
      | Some declared =>
          Some (drop_waiters (set_declared (set_claims st (bt_remove claim (claims st)))
                                declared), true)
      end
  end.

(** [seal_claim] up to its [schedule_waiters]. *)
Definition seal_claim (st : AdmissionState) (claim actual_units : Z) : option AdmissionState :=
  match bt_get claim (claims st) with
  | None => None
  | Some current =>
      match checked_sub (declared_maximum_units st) (maximum_units current) with
      | None => None
      | Some declared =>
          if (0 <? actual_units) && (actual_units <=? allocated_units current) then
            match checked_add usize_max (fixed_units st) actual_units with
            | None => None
            | Some fixed =>
                Some (set_fixed (set_declared (set_claims st (bt_remove claim (claims st)))
                                   declared) fixed)
            end
          else None
      end
  end.

(** [release_fixed] up to its [schedule_waiters]. *)
Definition release_fixed (st : AdmissionState) (units : Z) : option AdmissionState :=
  match checked_sub (fixed_units st) units with
  | None => None
  | Some fixed => Some (set_fixed st fixed)
  end.

(** ** Specification: completion orders

    A row is (remaining demand, allocation).  [runs work order] says that frames
    can finish in that order: each one's remaining demand fits in the free units,
    and finishing returns what it held. *)
Fixpoint runs (work : Z) (order : list (Z * Z)) : bool :=
  match order with
  | [] => true
  | (remaining, allocated) :: rest => (remaining <=? work) && runs (work + allocated) rest
  end.

Definition completable (work : Z) (rows : list (Z * Z)) : Prop :=
  ∃ order, order ≡ₚ rows ∧ runs work order = true.

(** The unfinished frames that hold something. *)
Definition row_of (c : Claim) : Z * Z :=
  (maximum_units c - allocated_units c, allocated_units c).
Definition pending (m : bmap Claim) : list (Z * Z) :=
  row_of <$> filter (λ c, allocated_units c ≠ 0) (m.*2).
Definition allocated_total (m : bmap Claim) : Z := bt_sum allocated_units m.

Definition row_le (x y : Z * Z) : Prop := x.1 ≤ y.1.
Definition rows_ok (l : list (Z * Z)) : Prop := Forall (λ x, 0 ≤ x.2) l.

Section orders.
Implicit Types (l k : list (Z * Z)) (x y : Z * Z).

Lemma runs_mono w w' l : w ≤ w' → runs w l = true → runs w' l = true.
Proof.
  revert w w'. induction l as [|[r a] l IH]; intros w w' Hw; simpl; [done|].
  rewrite !andb_true_iff. intros [? Hl]. split; [lia|]. eapply IH; [|done]. lia.
Qed.

Lemma runs_front w l x k :
  rows_ok l → 0 ≤ x.2 → x.1 ≤ w →
  runs w (l ++ x :: k) = true → runs w (x :: l ++ k) = true.
Proof.
  destruct x as [r a]. simpl. intros Hl Ha Hr H.
  apply andb_true_iff. split; [lia|]. clear Hr.
  revert w H. induction Hl as [|[r' a'] l Ha' Hl IH]; intros w; simpl.
  - by intros [_ H]%andb_true_iff.
  - rewrite !andb_true_iff. intros [? H]. split; [simpl in *; lia|].
    replace (w + a + a') with (w + a' + a) by lia. auto.
Qed.

(** The greedy order is complete: if any order works, the sorted one does. *)
Lemma completable_sorted w l :
  rows_ok l → StronglySorted row_le l → completable w l ↔ runs w l = true.
Proof.
  intros Hok Hs. split; [|by exists l].
  revert w Hok. induction Hs as [|x l Hs IH Hx]; intros w Hok (o & Ho & Hr); [done|].
  apply Forall_cons in Hok as [Hx0 Hok].
  assert (∃ l1 l2, o = l1 ++ x :: l2) as (l1 & l2 & ->).
  { apply list_elem_of_split. rewrite Ho. apply list_elem_of_here. }
  assert (l1 ++ l2 ≡ₚ l) as Hp.
  { apply (Permutation.Permutation_cons_inv (a:=x)). rewrite <- Ho. by rewrite Permutation_middle. }
  assert (x.1 ≤ w) as Hxw.
  { destruct l1 as [|y l1]; simpl in Hr; [destruct x; simpl in *; lia|].
    destruct y as [r a]. apply andb_true_iff in Hr as [Hr _].
    assert ((r, a) ∈ l) as Hin by (rewrite <- Hp; apply list_elem_of_here).
    rewrite Forall_forall in Hx. specialize (Hx _ Hin). unfold row_le in Hx. simpl in *. lia. }
  assert (rows_ok l1) as Hok1.
  { unfold rows_ok in Hok. rewrite <- Hp in Hok. by apply Forall_app in Hok as [? _]. }
  apply runs_front in Hr; [|done..].
  destruct x as [r a]. simpl in *. apply andb_true_iff in Hr as [? Hr].
  apply andb_true_iff. split; [lia|]. apply IH; [done|]. by exists (l1 ++ l2).
Qed.

Lemma completable_mono w w' l : w ≤ w' → completable w l → completable w' l.
Proof. intros ? (o & ? & ?). exists o. eauto using runs_mono. Qed.

#[global] Instance completable_perm w : Proper ((≡ₚ) ==> iff) (completable w).
Proof. intros l k Hlk. unfold completable. by setoid_rewrite Hlk. Qed.

(** A finished frame returns its allocation. *)
Lemma completable_finish w x l :
  rows_ok (x :: l) → completable w (x :: l) → completable (w + x.2) l.
Proof.
  intros [Hx Hok]%Forall_cons (o & Ho & Hr).
  assert (∃ l1 l2, o = l1 ++ x :: l2) as (l1 & l2 & ->).
  { apply list_elem_of_split. rewrite Ho. apply list_elem_of_here. }
  assert (l1 ++ l2 ≡ₚ l) as Hp.
  { apply (Permutation.Permutation_cons_inv (a:=x)). rewrite <- Ho. by rewrite Permutation_middle. }
  exists (l1 ++ l2). split; [done|]. clear Hp Ho Hok. destruct x as [r a]; simpl in *.
  revert w Hr. induction l1 as [|[r' a'] l1 IH]; intros w; simpl.
  - by intros [_ H]%andb_true_iff.
  - rewrite !andb_true_iff. intros [? H]. split; [lia|].
    replace (w + a + a') with (w + a' + a) by lia. auto.
Qed.

(** If everything fits at once, any order works. *)
Lemma completable_fits w l :
  rows_ok l → Forall (λ x, 0 ≤ x.1) l → zsum (fst <$> l) ≤ w → completable w l.
Proof.
  intros Hok H0 Hw. exists l. split; [done|]. revert w Hw.
  induction Hok as [|[r a] l Ha Hok IH]; intros w; [done|].
  apply Forall_cons in H0 as [Hr H0]. rewrite fmap_cons, zsum_cons. intros Hw.
  assert (0 ≤ zsum (l.*1)) by (apply zsum_nonneg, Forall_fmap; done).
  cbn [fst snd] in *. cbn [runs]. apply andb_true_iff.
  split; [lia|]. apply IH; [done|]. lia.
Qed.
End orders.

(** ** The code against the specification *)

(** A claim is well formed under a budget of [total] units. *)
Definition claim_ok (total : Z) (c : Claim) : Prop :=
  0 < maximum_units c ≤ total ∧ 0 ≤ allocated_units c ≤ maximum_units c.
Definition claims_ok (total : Z) (m : bmap Claim) : Prop :=
  Forall (λ x, claim_ok total x.2) m.

(** The accounting part of the pool's invariant. *)
Record pool_ok (p : AdmissionPool) (st : AdmissionState) : Prop := {
  ok_total : total_units p ≤ usize_max;
  ok_claims_wf : bt_wf (claims st);
  ok_waiters_wf : bt_wf (waiters st);
  ok_claims : claims_ok (total_units p) (claims st);
  ok_declared : declared_maximum_units st = bt_sum maximum_units (claims st);
  ok_fixed : 0 ≤ fixed_units st;
  ok_budget : fixed_units st + allocated_total (claims st) ≤ total_units p;
}.

(** The claims once waiter [w] has its target, and what a safe grant means: the
    budget holds and every unfinished frame can still reach its maximum. *)
Definition after_grant (c : Claim) (w : Waiter) : Claim :=
  {| maximum_units := maximum_units c; allocated_units := target_units w |}.

Definition grant_safe (total : Z) (st : AdmissionState) (w : Waiter) : Prop :=
  ∃ c, bt_get (w_claim w) (claims st) = Some c ∧
    allocated_units c < target_units w ≤ maximum_units c ∧
    let m := bt_insert (w_claim w) (after_grant c w) (claims st) in
    fixed_units st + allocated_total m ≤ total ∧
    completable (total - fixed_units st - allocated_total m) (pending m).

Definition triples (m : bmap Claim) : list (Z * Z * Z) :=
  (λ x, (row_of x.2, x.1)) <$> filter (λ x, allocated_units x.2 ≠ 0) m.

Fixpoint ins (x : Z * Z) (l : list (Z * Z)) : list (Z * Z) :=
  match l with
  | [] => [x]
  | y :: l' => if x.1 <=? y.1 then x :: l else y :: ins x l'
  end.

Section code_rows.
Implicit Types (m : bmap Claim) (l : list (Z * Z * Z)).

#[global] Instance pending_perm : Proper ((≡ₚ) ==> (≡ₚ)) pending.
Proof. intros m m' H. unfold pending. by rewrite H. Qed.

Lemma pending_cons k c m :
  pending ((k, c) :: m) =
    if decide (allocated_units c ≠ 0) then row_of c :: pending m else pending m.
Proof. unfold pending. csimpl. rewrite filter_cons. by case_decide. Qed.

Lemma pending_rows_ok total m : claims_ok total m → rows_ok (pending m).
Proof.
  intros H. apply Forall_fmap. apply Forall_forall.
  intros c [_ ([k c'] & -> & Hin)%list_elem_of_fmap]%list_elem_of_filter.
  unfold claims_ok in H. rewrite Forall_forall in H. specialize (H _ Hin). simpl in *.
  unfold row_of, claim_ok in *. simpl. lia.
Qed.

Lemma pending_remaining total m :
  claims_ok total m →
  Forall (λ x, 0 ≤ x.1) (pending m) ∧
  zsum ((pending m).*1) ≤ bt_sum maximum_units m - allocated_total m.
Proof.
  unfold allocated_total, bt_sum.
  induction 1 as [|[k c] m Hc Hm [IH0 IH]]; [done|].
  rewrite pending_cons. rewrite !fmap_cons, !zsum_cons. unfold claim_ok in Hc. cbn [snd] in *.
  case_decide; [rewrite fmap_cons, zsum_cons|]; unfold row_of in *; cbn [fst] in *.
  - split; [constructor; [simpl; lia|done]|lia].
  - split; [done|lia].
Qed.

Lemma pending_allocated total m :
  claims_ok total m → zsum ((pending m).*2) = allocated_total m.
Proof.
  unfold allocated_total, bt_sum.
  induction 1 as [|[k c] m Hc Hm IH]; [done|].
  rewrite pending_cons. rewrite fmap_cons, zsum_cons. cbn [snd].
  case_decide; rewrite ?fmap_cons, ?zsum_cons; simpl; lia.
Qed.

Lemma rows_triples m : (triples m).*1 = pending m.
Proof.
  unfold triples, pending. induction m as [|[k c] m IH]; [done|].
  csimpl. rewrite !filter_cons. simpl. case_decide; csimpl; congruence.
Qed.

Lemma filter_triples k m :
  filter (λ c, c.2 ≠ k) (triples m) = triples (bt_remove k m).
Proof.
  unfold triples, bt_remove. induction m as [|[j c] m IH]; [done|].
  rewrite (filter_cons (λ p : Z * Claim, p.1 ≠ k)), filter_cons.
  simpl. case_decide; csimpl; repeat (rewrite ?filter_cons; simpl; try case_decide; csimpl);
    simplify_eq; try tauto; congruence.
Qed.

Lemma capture_claims_spec u m :
  claims_ok usize_max m → 0 ≤ u → u + allocated_total m ≤ usize_max →
  capture_claims u m = Some (u + allocated_total m, triples m).
Proof.
  unfold allocated_total, bt_sum, triples. intros Hm. revert u.
  induction Hm as [|[k c] m Hc Hm IH]; intros u Hu Hle; cbn [capture_claims].
  - f_equal. f_equal. rewrite fmap_nil, zsum_nil. lia.
  - unfold claim_ok in Hc. rewrite fmap_cons, zsum_cons in *. cbn [snd] in *.
    assert (0 ≤ zsum ((λ p, allocated_units p.2) <$> m)).
    { apply zsum_nonneg, Forall_fmap. eapply Forall_impl; [done|].
      unfold claim_ok. simpl. lia. }
    case_match; [lia|]. rewrite checked_add_fits by lia. rewrite IH by lia.
    rewrite filter_cons. cbn [snd]. do 2 f_equal; [lia|].
    case_match; case_decide; try lia; csimpl; done.
Qed.

Lemma permits_rest_spec w l :
  rows_ok (l.*1) → w + zsum ((l.*1).*2) ≤ usize_max →
  permits_rest w l = Some (runs w (l.*1)).
Proof.
  revert w. induction l as [|[[r a] i] l IH]; intros w; [done|].
  csimpl. rewrite zsum_cons. intros [Ha Hl]%Forall_cons Hw. simpl in *.
  assert (0 ≤ zsum ((l.*1).*2)) by (apply zsum_nonneg, Forall_fmap; done).
  case_match; [by replace (r <=? w) with false by lia|].
  replace (r <=? w) with true by lia. rewrite checked_add_fits by lia.
  simpl. apply IH; [done|lia].
Qed.

Lemma permits_loop_spec r t w l :
  0 ≤ t → rows_ok (l.*1) → w + t + zsum ((l.*1).*2) ≤ usize_max →
  permits_loop r t w l = Some (runs w (ins (r, t) (l.*1))).
Proof.
  intros Ht. revert w.
  assert (∀ w k, rows_ok (k.*1) → w + t + zsum ((k.*1).*2) ≤ usize_max →
    (if w <? r then Some false else
     match checked_add usize_max w t with
     | Some work' => permits_rest work' k | None => None end)
    = Some (runs w ((r, t) :: k.*1))) as Hins.
  { intros w k Hk Hw. simpl.
    assert (0 ≤ zsum ((k.*1).*2)) by (apply zsum_nonneg, Forall_fmap; done).
    case_match; [by replace (r <=? w) with false by lia|].
    replace (r <=? w) with true by lia. rewrite checked_add_fits by lia.
    apply permits_rest_spec; [done|lia]. }
  induction l as [|[[r' a] i] l IH]; intros w Hl Hw; [by apply (Hins w [])|].
  simpl permits_loop. csimpl. simpl. destruct (r <=? r') eqn:Hr.
  - apply (Hins w ((r', a, i) :: l)); done.
  - csimpl in Hw. rewrite zsum_cons in Hw. apply Forall_cons in Hl as [Ha Hl]. simpl in *.
    assert (0 ≤ zsum ((l.*1).*2)) by (apply zsum_nonneg, Forall_fmap; done).
    case_match; [by replace (r' <=? w) with false by lia|].
    replace (r' <=? w) with true by lia. rewrite checked_add_fits by lia.
    simpl. apply IH; [done|lia].
Qed.

Lemma ins_perm x (l : list (Z * Z)) : ins x l ≡ₚ x :: l.
Proof.
  induction l as [|y l IH]; simpl; [done|]. case_match; [done|].
  rewrite IH. constructor.
Qed.

Lemma ins_sorted x (l : list (Z * Z)) : StronglySorted row_le l → StronglySorted row_le (ins x l).
Proof.
  induction 1 as [|y l Hl IH Hy]; simpl; [repeat constructor|].
  case_match.
  - constructor; [by constructor|]. constructor; [unfold row_le; lia|].
    eapply Forall_impl; [done|]. unfold row_le. simpl. lia.
  - constructor; [done|]. rewrite ins_perm. constructor; [unfold row_le; lia|done].
Qed.

Lemma sorted_rows l : StronglySorted row_le ((merge_sort claim_le l).*1).
Proof.
  assert (StronglySorted claim_le (merge_sort claim_le l)) as H.
  { apply StronglySorted_merge_sort.
    - intros [[r1 a1] i1] [[r2 a2] i2] [[r3 a3] i3]. simpl. lia.
    - intros [[r1 a1] i1] [[r2 a2] i2]. simpl. lia. }
  induction H as [|[[r a] i] k Hk IH Hx]; csimpl; constructor; [done|].
  apply Forall_fmap. eapply Forall_impl; [done|].
  intros [[r' a'] i']. unfold row_le. simpl. lia.
Qed.

Lemma sorted_filter_rows (P : Z * Z * Z → Prop) `{∀ x, Decision (P x)} l :
  StronglySorted row_le (l.*1) → StronglySorted row_le ((filter P l).*1).
Proof.
  induction l as [|x l IH]; [done|]. csimpl. intros [Hl Hx]%StronglySorted_inv.
  rewrite filter_cons. case_decide; [|auto]. csimpl. constructor; [auto|].
  rewrite Forall_forall in *. intros y (z & -> & [_ Hz]%list_elem_of_filter)%list_elem_of_fmap.
  apply Hx. apply list_elem_of_fmap. eauto.
Qed.
End code_rows.

Lemma claims_ok_mono total total' m : total ≤ total' → claims_ok total m → claims_ok total' m.
Proof.
  intros ? H. eapply Forall_impl; [exact H|]. unfold claim_ok. simpl. lia.
Qed.

Lemma claims_ok_get total k c m : claims_ok total m → bt_get k m = Some c → claim_ok total c.
Proof.
  intros H Hk%bt_get_elem. unfold claims_ok in H. rewrite Forall_forall in H.
  by apply (H (k, c)).
Qed.

Lemma claims_ok_insert total k c m :
  claims_ok total m → claim_ok total c → claims_ok total (bt_insert k c m).
Proof. intros. by apply bt_insert_Forall. Qed.

Lemma claims_ok_remove total k m : claims_ok total m → claims_ok total (bt_remove k m).
Proof.
  unfold claims_ok. rewrite !Forall_forall.
  intros H x [_ Hx]%list_elem_of_filter. auto.
Qed.

Lemma allocated_nonneg total m : claims_ok total m → 0 ≤ allocated_total m.
Proof.
  intros H. apply zsum_nonneg, Forall_fmap. eapply Forall_impl; [exact H|].
  unfold claim_ok. simpl. lia.
Qed.

#[export] Hint Resolve claims_ok_get claims_ok_insert claims_ok_remove allocated_nonneg : rsi.

Lemma pending_after_grant m k c w :
  bt_wf m → 0 < target_units w →
  pending (bt_insert k (after_grant c w) m)
    ≡ₚ (maximum_units c - target_units w, target_units w) :: pending (bt_remove k m).
Proof.
  intros Hm Ht. rewrite (bt_insert_perm k) by done. rewrite pending_cons.
  simpl. case_decide; [done|lia].
Qed.

Lemma allocated_after_grant m k c w :
  bt_wf m → allocated_total (bt_insert k (after_grant c w) m)
    = target_units w + allocated_total (bt_remove k m).
Proof.
  intros Hm. unfold allocated_total, bt_sum. rewrite (bt_insert_perm k) by done.
  by rewrite fmap_cons, zsum_cons.
Qed.

Lemma filtered_rows k m :
  (filter (λ c, c.2 ≠ k) (merge_sort claim_le (triples m))).*1 ≡ₚ pending (bt_remove k m).
Proof. by rewrite merge_sort_Permutation, filter_triples, rows_triples. Qed.

(** The incremental simulation decides exactly the existence of a completion order. *)
Lemma permits_exact p st w c :
  pool_ok p st → bt_get (w_claim w) (claims st) = Some c →
  allocated_units c < target_units w ≤ maximum_units c →
  let m := bt_insert (w_claim w) (after_grant c w) (claims st) in
  ∃ b, permits {| used := fixed_units st + allocated_total (claims st);
                  sim_claims := merge_sort claim_le (triples (claims st)) |}
         w c (total_units p) = Some b ∧
    (b = true ↔ fixed_units st + allocated_total m ≤ total_units p ∧
       completable (total_units p - fixed_units st - allocated_total m) (pending m)).
Proof.
  intros [Htot Hwf _ Hok _ Hfix Hbud] Hc Ht m.
  set (k := w_claim w) in *.
  assert (claim_ok (total_units p) c) as [Hmax Hal] by eauto with rsi.
  assert (allocated_total m = target_units w + allocated_total (bt_remove k (claims st))) as Hm
    by by apply allocated_after_grant.
  assert (allocated_total (claims st) = allocated_units c + allocated_total (bt_remove k (claims st)))
    as Hm0 by by apply bt_sum_remove.
  assert (claims_ok (total_units p) (bt_remove k (claims st))) as Hrem by eauto with rsi.
  pose proof (filtered_rows k (claims st)) as Hrows.
  pose proof (pending_rows_ok _ _ Hrem) as Hrok.
  pose proof (pending_allocated _ _ Hrem) as Hsum.
  unfold permits. simpl. fold k.
  destruct (checked_add _ _ _) as [u|] eqn:Hu;
    [apply checked_add_Some in Hu as [-> ?]
    |exists false; split; [done|]; unfold checked_add in Hu; case_match; [done|lia]].
  destruct (checked_sub _ _) as [work|] eqn:Hwork;
    [apply checked_sub_Some in Hwork as [-> ?]
    |exists false; split; [done|]; unfold checked_sub in Hwork; case_match; [done|lia]].
  rewrite permits_loop_spec;
    [|lia|unfold rows_ok in *; by rewrite Hrows
     |rewrite (fmap_Permutation snd _ _ Hrows); lia].
  eexists; split; [done|]. set (F := (filter _ _).*1) in *.
  assert (ins (maximum_units c - target_units w, target_units w) F ≡ₚ pending m) as Hins.
  { rewrite ins_perm, Hrows. symmetry. apply pending_after_grant; [done|lia]. }
  rewrite <- completable_sorted;
    [|unfold rows_ok; rewrite Hins; eapply pending_rows_ok; apply claims_ok_insert; [done|];
      split; simpl; lia
     |apply ins_sorted, sorted_filter_rows, sorted_rows].
  rewrite Hins. rewrite Hm. 
  replace (total_units p - (fixed_units st + allocated_total (claims st)
             + (target_units w - allocated_units c)))
    with (total_units p - fixed_units st - (target_units w + allocated_total (bt_remove k (claims st))))
    by lia.
  split; [intros; split; [lia|done]|by intros [_ ?]].
Qed.

(** If all declared maxima fit, a grant is safe: the code's quick path. *)
Lemma declared_fits_safe p st w c :
  pool_ok p st → bt_get (w_claim w) (claims st) = Some c →
  allocated_units c < target_units w ≤ maximum_units c →
  fixed_units st + declared_maximum_units st ≤ total_units p →
  grant_safe (total_units p) st w.
Proof.
  intros [Htot Hwf _ Hok Hdecl Hfix Hbud] Hc Ht Hfit. exists c. split_and!; [done|lia|lia|].
  intros m.
  assert (claim_ok (total_units p) c) as [Hmax Hal] by eauto with rsi.
  assert (claims_ok (total_units p) m) as Hm by (apply claims_ok_insert; [done|split; simpl; lia]).
  destruct (pending_remaining _ _ Hm) as [Hrem Hsum].
  assert (bt_sum maximum_units m = declared_maximum_units st) as Hmx.
  { unfold m. rewrite (bt_sum_insert_old _ _ _ c) by done. simpl. lia. }
  assert (0 ≤ zsum (pending m).*1) by (apply zsum_nonneg, Forall_fmap; done).
  split; [lia|]. apply completable_fits; [by eapply pending_rows_ok|done|lia].
Qed.

Lemma capture_spec p st :
  pool_ok p st →
  capture st = Some {| used := fixed_units st + allocated_total (claims st);
                       sim_claims := merge_sort claim_le (triples (claims st)) |}.
Proof.
  intros [Htot Hwf _ Hok _ Hfix Hbud]. unfold capture.
  rewrite capture_claims_spec; [done|by eapply claims_ok_mono|done|lia].
Qed.

(** The whole test agrees with the specification and never panics. *)
Lemma safe_exact p st w :
  pool_ok p st →
  ∃ b, safe_with_simulation st w (total_units p) (capture st) = Some b ∧
       (b = true ↔ grant_safe (total_units p) st w).
Proof.
  intros Hp. unfold safe_with_simulation.
  destruct (bt_get (w_claim w) (claims st)) as [c|] eqn:Hc;
    [|exists false; split; [done|]; split; [done|intros (c & ? & _); congruence]].
  destruct ((target_units w <=? allocated_units c) || _) eqn:Hrange.
  { exists false; split; [done|]; split; [done|]. intros (c' & Hc' & ? & _).
    rewrite Hc in Hc'. simplify_eq. lia. }
  assert (allocated_units c < target_units w ≤ maximum_units c) as Ht by lia.
  destruct (match checked_add _ _ _ with Some _ => _ | None => _ end) eqn:Hq.
  { exists true; split; [done|]; split; [intros _|done].
    destruct (checked_add _ _ _) eqn:Ha; [|done]. apply checked_add_Some in Ha as [-> ?].
    eapply declared_fits_safe; [done..|lia]. }
  rewrite (capture_spec p) by done.
  destruct (permits_exact p st w c Hp Hc Ht) as (b & -> & Hb).
  exists b. split; [done|]. rewrite Hb. split.
  - intros. exists c. split_and!; [done|lia|lia|done].
  - intros (c' & Hc' & _ & ?). by rewrite Hc in Hc'; simplify_eq.
Qed.

(** ** Selection *)

Definition safe_now (p : AdmissionPool) (st : AdmissionState) (w : Waiter) : bool :=
  match safe_with_simulation st w (total_units p) (capture st) with
  | Some b => b
  | None => false
  end.

(** The oldest safe waiter of a kind, without memoised refusals. *)
Definition first_safe (p : AdmissionPool) (st : AdmissionState) (k : WaitKind)
    (ws : bmap Waiter) : option Z :=
  fst <$> head (filter (λ x, kind x.2 = k ∧ safe_now p st x.2 = true) ws).

Definition shape_of (st : AdmissionState) (w : Waiter) : option (Z * Z * Z) :=
  match bt_get (w_claim w) (claims st) with
  | Some c => Some (maximum_units c, allocated_units c, target_units w)
  | None => None
  end.

Lemma safe_now_spec p st w :
  pool_ok p st → safe_now p st w = true ↔ grant_safe (total_units p) st w.
Proof.
  intros Hp. unfold safe_now. by destruct (safe_exact p st w Hp) as (b & -> & ?).
Qed.

(** Safety depends only on the shape, which is why refusals may be memoised. *)
Lemma grant_safe_shape p st w w' s :
  pool_ok p st → shape_of st w = Some s → shape_of st w' = Some s →
  grant_safe (total_units p) st w → grant_safe (total_units p) st w'.
Proof.
  intros [_ Hwf _ Hok _ _ _] Hs Hs' (c & Hc & Ht & Hb & Hcomp). unfold shape_of in *.
  rewrite Hc in Hs. destruct (bt_get (w_claim w') _) as [c'|] eqn:Hc'; [|done].
  simplify_eq. exists c'. split; [done|]. split; [lia|]. cbv zeta.
  assert (claim_ok (total_units p) c) as [? ?] by eauto with rsi.
  rewrite allocated_after_grant in Hb by done.
  rewrite allocated_after_grant, pending_after_grant in Hcomp by (done || lia).
  rewrite allocated_after_grant, pending_after_grant by (done || lia).
  assert (allocated_total (bt_remove (w_claim w) (claims st))
        = allocated_total (bt_remove (w_claim w') (claims st))) as He.
  { pose proof (bt_sum_remove allocated_units _ _ _ Hwf Hc).
    pose proof (bt_sum_remove allocated_units _ _ _ Hwf Hc').
    unfold allocated_total. lia. }
  assert (pending (bt_remove (w_claim w) (claims st))
       ≡ₚ pending (bt_remove (w_claim w') (claims st))) as Hpp.
  { pose proof (bt_remove_perm _ _ _ Hwf Hc) as Hp1%pending_perm.
    pose proof (bt_remove_perm _ _ _ Hwf Hc') as Hp2%pending_perm.
    rewrite pending_cons in Hp1, Hp2. rewrite Hp1 in Hp2. clear Hp1.
    assert (row_of c' = row_of c) as Hrow by (unfold row_of; congruence).
    rewrite Hrow in Hp2. repeat case_decide; try congruence.
    by apply (Permutation.Permutation_cons_inv (a:=row_of c)). }
  replace (maximum_units c') with (maximum_units c) by congruence.
  replace (target_units w') with (target_units w) by congruence.
  rewrite <- Hpp, <- He. split; [lia|done].
Qed.

Lemma select_pass_spec p st k rejected ws :
  pool_ok p st →
  (∀ w s, s ∈ rejected → shape_of st w = Some s → safe_now p st w = false) →
  ∃ rejected', select_pass st (total_units p) (capture st) k rejected ws
      = Some (rejected', first_safe p st k ws) ∧
    (first_safe p st k ws = None →
     ∀ w s, s ∈ rejected' → shape_of st w = Some s → safe_now p st w = false).
Proof.
  intros Hp. revert rejected. induction ws as [|[ticket w] ws IH]; intros rejected Hrej.
  { exists rejected. split; [done|]. auto. }
  simpl. unfold first_safe in *. rewrite filter_cons. simpl.
  destruct (decide (kind w = k)) as [Hk|Hk]; [|rewrite decide_False by tauto; auto].
  destruct (safe_exact p st w Hp) as (b & Hb & Hiff).
  assert (safe_now p st w = b) as Hnow by (unfold safe_now; by rewrite Hb).
  destruct (bt_get (w_claim w) (claims st)) as [c|] eqn:Hc.
  2: { rewrite decide_False; [auto|]. intros [_ Hs]. apply safe_now_spec in Hs; [|done].
       destruct Hs as (c & ? & _). congruence. }
  set (shape := (maximum_units c, allocated_units c, target_units w)).
  assert (shape_of st w = Some shape) as Hshape by (unfold shape_of; by rewrite Hc).
  case_decide as Hin.
  { rewrite decide_False; [auto|]. intros [_ Hs]. rewrite (Hrej w shape) in Hs; done. }
  rewrite Hb. destruct b.
  - rewrite decide_True by done. exists rejected. split; [done|]. done.
  - rewrite decide_False by (intros [_ ?]; congruence).
    apply IH. intros w' s [->%elem_of_singleton|?]%elem_of_union Hs; [|eauto].
    destruct (safe_now p st w') eqn:Hs'; [|done].
    apply safe_now_spec in Hs'; [|done].
    exfalso. cut (safe_now p st w = true); [congruence|]. apply safe_now_spec; [done|].
    eapply (grant_safe_shape p st w' w); done.
Qed.

Lemma select_waiter_first p st :
  pool_ok p st →
  select_waiter st (total_units p) =
    Some (match first_safe p st Growth (waiters st) with
          | Some t => Some t
          | None => first_safe p st Begin (waiters st)
          end).
Proof.
  intros Hp. unfold select_waiter.
  destruct (select_pass_spec p st Growth ∅ (waiters st) Hp) as (r & -> & Hr); [set_solver|].
  destruct (first_safe p st Growth (waiters st)); [done|].
  destruct (select_pass_spec p st Begin r (waiters st) Hp) as (r' & -> & _); [exact (Hr eq_refl)|done].
Qed.

Lemma first_safe_Some p st k t :
  pool_ok p st → first_safe p st k (waiters st) = Some t →
  ∃ w, bt_get t (waiters st) = Some w ∧ kind w = k ∧ grant_safe (total_units p) st w.
Proof.
  intros Hp. unfold first_safe.
  destruct (head _) as [[t' w]|] eqn:Hh; [|done]. intros [= <-].
  apply head_Some_elem_of in Hh. apply list_elem_of_filter in Hh as [[Hk Hs] Hin].
  exists w. split_and!; [|done|by apply safe_now_spec].
  apply bt_elem_get; [apply Hp|done].
Qed.

Lemma first_safe_None p st k t w :
  pool_ok p st → first_safe p st k (waiters st) = None →
  bt_get t (waiters st) = Some w → kind w = k → ¬ grant_safe (total_units p) st w.
Proof.
  intros Hp Hf Hw%bt_get_elem Hk Hs. unfold first_safe in Hf.
  apply fmap_None, head_None in Hf.
  eapply (filter_nil_not_elem_of _ _ (t, w)); [exact Hf| |done].
  simpl. split; [done|]. by apply safe_now_spec.
Qed.

Lemma select_waiter_safe p st t :
  pool_ok p st → select_waiter st (total_units p) = Some (Some t) →
  ∃ w, bt_get t (waiters st) = Some w ∧ grant_safe (total_units p) st w.
Proof.
  intros Hp. rewrite select_waiter_first by done. intros [= H].
  destruct (first_safe p st Growth (waiters st)) as [t'|] eqn:Hg; simplify_eq.
  - apply first_safe_Some in Hg as (w & ? & _ & ?); eauto.
  - apply first_safe_Some in H as (w & ? & _ & ?); eauto.
Qed.

(** ** The pool as a transition system

    A state is the pool and the units of the leases handed to consumers.  Every
    constructor is one critical section of the code, run by any task; [Panic]s of
    the code are [None] results, so a step is a critical section that returns. *)
Inductive pool_step (p : AdmissionPool)
  : AdmissionState * list Z → AdmissionState * list Z → Prop :=
| step_register st L maximum st' r :
    0 ≤ maximum → register_claim p st maximum = (st', r) → pool_step p (st, L) (st', L)
| step_enqueue st L claim target k st' r :
    0 ≤ target → wait_for_enqueue st claim target k = (st', r) →
    pool_step p (st, L) (st', L)
| step_grant st L ticket st' :
    grant_one p st = Some (Some (ticket, st')) → pool_step p (st, L) (st', L)
| step_remove_waiter st L ticket st' b :
    remove_waiter st ticket = (st', b) → pool_step p (st, L) (st', L)
| step_remove_claim st L claim st' b :
    remove_claim st claim = Some (st', b) → pool_step p (st, L) (st', L)
| step_seal st L claim units st' :
    seal_claim st claim units = Some st' → pool_step p (st, L) (st', units :: L)
| step_release st L L' units st' :
    L ≡ₚ units :: L' → release_fixed st units = Some st' → pool_step p (st, L) (st', L').

Definition waiter_ok (next : Z) (m : bmap Claim) (w : Waiter) : Prop :=
  0 < target_units w ∧ w_claim w ≤ next ∧
  ∀ c, bt_get (w_claim w) m = Some c → target_units w ≤ maximum_units c.

Record pool_inv (p : AdmissionPool) (s : AdmissionState * list Z) : Prop := {
  inv_ok : pool_ok p s.1;
  inv_leases : Forall (λ u, 0 < u) s.2;
  inv_fixed : fixed_units s.1 = zsum s.2;
  inv_fresh_claim : Forall (λ x, x.1 ≤ next_claim s.1) (claims s.1);
  inv_fresh_ticket : Forall (λ x, x.1 ≤ next_ticket s.1) (waiters s.1);
  inv_waiters : Forall (λ x, waiter_ok (next_claim s.1) (claims s.1) x.2) (waiters s.1);
  (** once the delivered leases are dropped, every frame can reach its maximum *)
  inv_completable :
    completable (total_units p - allocated_total (claims s.1)) (pending (claims s.1));
}.

Lemma Forall_bt_remove {V} (P : Z * V → Prop) k (m : bmap V) :
  Forall P m → Forall P (bt_remove k m).
Proof. rewrite !Forall_forall. intros H x [_ ?]%list_elem_of_filter. auto. Qed.

Lemma fresh_get_None {V} k n (m : bmap V) :
  Forall (λ x, x.1 ≤ n) m → n < k → bt_get k m = None.
Proof.
  intros H ?. apply bt_get_None. intros ([j v] & -> & Hin)%list_elem_of_fmap.
  rewrite Forall_forall in H. specialize (H _ Hin). simpl in *. lia.
Qed.

#[export] Hint Resolve Forall_bt_remove : rsi.

Lemma pending_remove k c m :
  bt_wf m → bt_get k m = Some c →
  pending m ≡ₚ (if decide (allocated_units c ≠ 0) then row_of c :: pending (bt_remove k m)
                else pending (bt_remove k m)).
Proof.
  intros Hm Hc. rewrite <- (pending_cons k). apply pending_perm. by apply bt_remove_perm.
Qed.

(** Dropping or delivering a frame frees its allocation. *)
Lemma completable_remove total w k c m :
  claims_ok total m → bt_wf m → bt_get k m = Some c →
  completable (w - allocated_total m) (pending m) →
  completable (w - allocated_total (bt_remove k m)) (pending (bt_remove k m)).
Proof.
  intros Hok Hm Hc. pose proof (bt_sum_remove allocated_units k c m Hm Hc) as Hs.
  rewrite (pending_remove k c m) by done. unfold allocated_total in *.
  assert (rows_ok (pending m)) as Hr by (by eapply pending_rows_ok).
  unfold rows_ok in Hr. rewrite (pending_remove k c m) in Hr by done.
  case_decide as Hz; intros H.
  - apply completable_finish in H; [|done]. eapply completable_mono; [|exact H].
    unfold row_of. simpl. lia.
  - eapply completable_mono; [|exact H]. lia.
Qed.

Lemma register_inv p st L maximum st' r :
  0 ≤ maximum → pool_inv p (st, L) → register_claim p st maximum = (st', r) →
  pool_inv p (st', L).
Proof.
  intros Hmax [[Ht Hcw Hww Hco Hd Hf Hb] Hl Hfx Hfc Hft Hw Hcomp]. unfold register_claim.
  simpl in *. case_match; [intros; simplify_eq; by repeat constructor|].
  case_match; [intros; simplify_eq; by repeat constructor|].
  destruct (checked_add u64_max _ _) as [claim|] eqn:Hn;
    [apply checked_add_Some in Hn as [-> ?]|intros; simplify_eq; by repeat constructor].
  destruct (checked_add usize_max _ _) as [declared|] eqn:Hde;
    intros; simplify_eq; simpl in *.
  2: { repeat constructor; try done; simpl in *.
       - eapply Forall_impl; [exact Hfc|]. simpl. lia.
       - eapply Forall_impl; [exact Hw|]. intros x (? & ? & ?). repeat split; [done|lia|done]. }
  apply checked_add_Some in Hde as [-> ?].
  set (c := {| maximum_units := maximum; allocated_units := 0 |}).
  assert (bt_get (next_claim st + 1) (claims st) = None) as Hnew by (eapply fresh_get_None; [done|lia]).
  assert (bt_insert (next_claim st + 1) c (claims st) ≡ₚ (next_claim st + 1, c) :: claims st) as Hp.
  { rewrite bt_insert_perm by done. by rewrite bt_remove_absent. }
  assert (allocated_total (bt_insert (next_claim st + 1) c (claims st))
          = allocated_total (claims st)) as Ha.
  { unfold allocated_total. rewrite bt_sum_insert_new by done. simpl. lia. }
  split; simpl; try done.
  - split; simpl; auto with rsi.
    + apply claims_ok_insert; [done|]. split; simpl; lia.
    + rewrite bt_sum_insert_new by done. simpl. lia.
    + rewrite Ha. lia.
  - apply bt_insert_Forall; [simpl; lia|]. eapply Forall_impl; [exact Hfc|]. simpl. lia.
  - eapply Forall_impl; [exact Hw|]. intros [t w] (? & ? & Hc'). simpl in *.
    split_and!; simpl; [done|lia|]. intros c'. rewrite bt_get_insert. case_match; [lia|auto].
  - rewrite Ha. rewrite Hp, pending_cons. by rewrite decide_False by (simpl; tauto).
Qed.

Lemma enqueue_inv p st L claim target k st' r :
  0 ≤ target → pool_inv p (st, L) → wait_for_enqueue st claim target k = (st', r) →
  pool_inv p (st', L).
Proof.
  intros Htg [[Ht Hcw Hww Hco Hd Hf Hb] Hl Hfx Hfc Hft Hw Hcomp]. unfold wait_for_enqueue.
  destruct (bt_get claim (claims st)) as [c|] eqn:Hc;
    [|intros; simplify_eq; by repeat constructor].
  case_match eqn:Hr; [intros; simplify_eq; by repeat constructor|].
  destruct (checked_add _ _ _) as [ticket|] eqn:Hn;
    intros; simplify_eq; [|by repeat constructor].
  apply checked_add_Some in Hn as [-> ?].
  assert (claim_ok (total_units p) c) as [? ?] by (simpl in *; eauto with rsi).
  split; simpl in *; try done.
  - split; simpl; auto with rsi.
  - apply bt_insert_Forall; [simpl; lia|]. eapply Forall_impl; [exact Hft|]. simpl. lia.
  - apply bt_insert_Forall; [|done]. split_and!; simpl; [lia| |intros; simplify_eq; lia].
    apply bt_get_elem in Hc. rewrite Forall_forall in Hfc. by apply (Hfc (claim, c)).
Qed.

Lemma grant_inv p st L ticket st' :
  pool_inv p (st, L) → grant_one p st = Some (Some (ticket, st')) → pool_inv p (st', L).
Proof.
  intros [Hok Hl Hfx Hfc Hft Hw Hcomp]. unfold grant_one. simpl in *.
  destruct (select_waiter _ _) as [[t|]|] eqn:Hs; [|done..].
  apply select_waiter_safe in Hs as (w & Hwt & c & Hc & Hrng & Hbud & Hsafe); [|done].
  rewrite Hwt, Hc. intros; simplify_eq.
  destruct Hok as [Ht Hcw Hww Hco Hd Hf Hb].
  fold (after_grant c w). assert (claim_ok (total_units p) c) as [? ?] by eauto with rsi.
  split; simpl; auto with rsi.
  - split; simpl; auto with rsi.
    + apply claims_ok_insert; [done|]. split; simpl; lia.
    + rewrite (bt_sum_insert_old _ _ _ c) by done. simpl. lia.
  - apply bt_insert_Forall; [|done]. apply bt_get_elem in Hc.
    rewrite Forall_forall in Hfc. by apply (Hfc (w_claim w, c)).
  - apply Forall_bt_remove. eapply Forall_impl; [exact Hw|].
    intros [t' w'] (? & ? & Hc'). split_and!; [done..|]. simpl in *. intros c'.
    rewrite bt_get_insert. case_match; [|auto]. intros [= <-]. simpl.
    apply Hc'. by replace (w_claim w') with (w_claim w) by lia.
  - eapply completable_mono; [|exact Hsafe]. lia.
Qed.

Lemma remove_waiter_inv p st L ticket st' b :
  pool_inv p (st, L) → remove_waiter st ticket = (st', b) → pool_inv p (st', L).
Proof.
  intros [[Ht Hcw Hww Hco Hd Hf Hb] Hl Hfx Hfc Hft Hw Hcomp] [= <- <-].
  split; simpl in *; auto with rsi. split; simpl; auto with rsi.
Qed.

Lemma waiters_after_remove n k m (ws : bmap Waiter) :
  Forall (λ x, waiter_ok n m x.2) ws → Forall (λ x, waiter_ok n (bt_remove k m) x.2) ws.
Proof.
  intros H. eapply Forall_impl; [exact H|]. intros x (? & ? & Hc). split_and!; [done..|].
  intros c. rewrite bt_get_remove. case_match; [done|auto].
Qed.

Lemma Forall_filter_bmap {V} (Q P : Z * V → Prop) `{∀ x, Decision (P x)} (m : bmap V) :
  Forall Q m → Forall Q (filter P m).
Proof. rewrite !Forall_forall. intros HQ x [_ ?]%list_elem_of_filter. auto. Qed.

#[export] Hint Resolve waiters_after_remove Forall_filter_bmap : rsi.

Lemma remove_claim_inv p st L claim st' b :
  pool_inv p (st, L) → remove_claim st claim = Some (st', b) → pool_inv p (st', L).
Proof.
  intros [[Ht Hcw Hww Hco Hd Hf Hb] Hl Hfx Hfc Hft Hw Hcomp]. unfold remove_claim. simpl in *.
  destruct (bt_get claim (claims st)) as [c|] eqn:Hc.
  - destruct (checked_sub _ _) as [declared|] eqn:Hs; intros; simplify_eq.
    apply checked_sub_Some in Hs as [-> ?].
    assert (claim_ok (total_units p) c) as [? ?] by eauto with rsi.
    pose proof (bt_sum_remove allocated_units _ _ _ Hcw Hc).
    pose proof (bt_sum_remove maximum_units _ _ _ Hcw Hc).
    split; simpl; auto with rsi.
    + split; simpl; auto with rsi; [lia|]. unfold allocated_total in *. lia.
    + by eapply completable_remove.
  - intros; simplify_eq. split; simpl; auto with rsi. split; simpl; auto with rsi.
Qed.

Lemma seal_inv p st L claim units st' :
  pool_inv p (st, L) → seal_claim st claim units = Some st' → pool_inv p (st', units :: L).
Proof.
  intros [[Ht Hcw Hww Hco Hd Hf Hb] Hl Hfx Hfc Hft Hw Hcomp]. unfold seal_claim. simpl in *.
  destruct (bt_get claim (claims st)) as [c|] eqn:Hc; [|done].
  destruct (checked_sub _ _) as [declared|] eqn:Hs; [|done].
  apply checked_sub_Some in Hs as [-> ?]. case_match; [|done].
  destruct (checked_add _ _ _) as [fixed|] eqn:Ha; [|done].
  apply checked_add_Some in Ha as [-> ?]. intros; simplify_eq.
  pose proof (bt_sum_remove allocated_units _ _ _ Hcw Hc).
  pose proof (bt_sum_remove maximum_units _ _ _ Hcw Hc).
  split; simpl; auto with rsi.
  - split; simpl; auto with rsi; unfold allocated_total in *; lia.
  - constructor; [lia|done].
  - rewrite zsum_cons. lia.
  - by eapply completable_remove.
Qed.

Lemma release_inv p st L L' units st' :
  pool_inv p (st, L) → L ≡ₚ units :: L' → release_fixed st units = Some st' →
  pool_inv p (st', L').
Proof.
  intros [[Ht Hcw Hww Hco Hd Hf Hb] Hl Hfx Hfc Hft Hw Hcomp] HL. unfold release_fixed.
  simpl in *. destruct (checked_sub _ _) as [fixed|] eqn:Hs; [|done].
  apply checked_sub_Some in Hs as [-> ?]. intros; simplify_eq.
  rewrite HL in Hl, Hfx. rewrite zsum_cons in Hfx. apply Forall_cons in Hl as [? Hl].
  split; simpl; auto with rsi; [|lia]. split; simpl; auto with rsi; lia.
Qed.

Lemma pool_step_inv p s s' : pool_step p s s' → pool_inv p s → pool_inv p s'.
Proof.
  destruct 1; intros Hinv; eauto using register_inv, enqueue_inv, grant_inv,
    remove_waiter_inv, remove_claim_inv, seal_inv, release_inv.
Qed.

Lemma pool_inv_init p :
  0 < total_units p ≤ usize_max → pool_inv p (admission_state_default, []).
Proof.
  intros Hp. split; simpl; try by constructor.
  - split; simpl; try by constructor.
    all: unfold allocated_total, bt_sum; rewrite ?fmap_nil, ?zsum_nil; lia.
  - by exists [].
Qed.

Lemma pool_reachable_inv p s :
  0 < total_units p ≤ usize_max →
  rtc (pool_step p) (admission_state_default, []) s → pool_inv p s.
Proof.
  intros Hp Hr. assert (pool_inv p (admission_state_default, [])) as Hi
    by by apply pool_inv_init.
  clear Hp. induction Hr; eauto using pool_step_inv.
Qed.

(** ** Frame admissions: the pool's client API

    [wait_for] runs its locked prefix and [schedule_waiters]; the future is then
    either granted or suspended on its ticket.  A suspended future that is dropped
    runs [WaitRegistration::drop]. *)
Inductive wait := Granted | Suspended (ticket : Z).

Definition then_schedule (p : AdmissionPool) (s : AdmissionState * bool)
  : option AdmissionState :=
  if s.2 then fst <$> schedule_waiters p s.1 else Some s.1.

Definition wait_for (p : AdmissionPool) (st : AdmissionState) (claim target : Z)
    (k : WaitKind) : option (AdmissionState * outcome TransportError wait) :=
  match wait_for_enqueue st claim target k with
  | (st', Ok ticket) =>
      match schedule_waiters p st' with
      | None => None
      | Some (st'', _) =>
          Some (st'', Ok (if bt_contains ticket (waiters st'') then Suspended ticket
                          else Granted))
      end
  | (st', Err e) => Some (st', Err e)
  | (_, Panic) => None
  end.

Definition drop_wait_registration (p : AdmissionPool) (st : AdmissionState) (ticket : Z)
  : option AdmissionState := then_schedule p (remove_waiter st ticket).

(** [ClaimRegistration::drop] and [FrameAdmission::drop] of a live claim. *)
Definition drop_claim (p : AdmissionPool) (st : AdmissionState) (claim : Z)
  : option AdmissionState :=
  match remove_claim st claim with
  | None => None
  | Some s => then_schedule p s
  end.

Record FrameAdmission := { fa_claim : option Z; fa_allocated_units : Z }.

(** [FrameAdmission::begin]: the admission it returns, at once or when the ticket
    is granted. *)
Definition frame_begin (p : AdmissionPool) (st : AdmissionState) (maximum_frame_bytes : Z)
  : option (AdmissionState * outcome TransportError (FrameAdmission * wait)) :=
  let maximum := units_for_bytes p maximum_frame_bytes in
  match register_claim p st maximum with
  | (st1, Err e) => Some (st1, Err e)
  | (_, Panic) => None
  | (st1, Ok claim) =>
      match wait_for p st1 claim 1 Begin with
      | None => None
      | Some (st2, Ok w) =>
          Some (st2, Ok ({| fa_claim := Some claim; fa_allocated_units := 1 |}, w))
      | Some (st2, Err e) =>
          match drop_claim p st2 claim with
          | None => None
          | Some st3 => Some (st3, Err e)
          end
      | Some (_, Panic) => None
      end
  end.

Definition frame_ensure_bytes (p : AdmissionPool) (st : AdmissionState) (fa : FrameAdmission)
    (bytes : Z) : option (AdmissionState * outcome TransportError (FrameAdmission * wait)) :=
  let target := units_for_bytes p (Z.max bytes 1) in
  if target <=? fa_allocated_units fa then Some (st, Ok (fa, Granted))
  else
    match fa_claim fa with
    | None => None
    | Some claim =>
        match wait_for p st claim target Growth with
        | None => None
        | Some (st', Ok w) =>
            Some (st', Ok ({| fa_claim := fa_claim fa; fa_allocated_units := target |}, w))
        | Some (st', Err e) => Some (st', Err e)
        | Some (_, Panic) => None
        end
    end.

(** [FrameAdmission::seal] returns the units of the [FrameLease]. *)
Definition frame_seal (p : AdmissionPool) (st : AdmissionState) (fa : FrameAdmission)
    (actual_bytes : Z) : option (AdmissionState * Z) :=
  let units := units_for_bytes p (Z.max actual_bytes 1) in
  match fa_claim fa with
  | None => None
  | Some claim =>
      match seal_claim st claim units with
      | None => None
      | Some st' =>
          match schedule_waiters p st' with
          | None => None
          | Some (st'', _) => Some (st'', units)
          end
      end
  end.

Definition frame_drop (p : AdmissionPool) (st : AdmissionState) (fa : FrameAdmission)
  : option AdmissionState :=
  match fa_claim fa with
  | None => Some st
  | Some claim => drop_claim p st claim
  end.

(** [FrameLease::drop]. *)
Definition lease_drop (p : AdmissionPool) (st : AdmissionState) (units : Z)
  : option AdmissionState :=
  match release_fixed st units with
  | None => None
  | Some st' => fst <$> schedule_waiters p st'
  end.

(** ** Scheduling terminates without panicking *)

Lemma grant_one_total p st :
  pool_ok p st →
  (select_waiter st (total_units p) = Some None ∧ grant_one p st = Some None) ∨
  (∃ ticket w st', grant_one p st = Some (Some (ticket, st')) ∧
     bt_get ticket (waiters st) = Some w ∧
     waiters st' = bt_remove ticket (waiters st)).
Proof.
  intros Hp. unfold grant_one. pose proof (select_waiter_first p st Hp) as Hsel.
  destruct (select_waiter st (total_units p)) as [[t|]|] eqn:Hs; [|by left|done].
  right. destruct (select_waiter_safe p st t Hp Hs) as (w & Hw & c & Hc & _).
  rewrite Hw, Hc. eauto 10.
Qed.

Lemma length_bt_remove {V} k (v : V) m :
  bt_wf m → bt_get k m = Some v → length m = S (length (bt_remove k m)).
Proof. intros. by rewrite (bt_remove_perm k v m) at 1. Qed.

Lemma schedule_loop_total fuel p st L :
  pool_inv p (st, L) → (length (waiters st) ≤ fuel)%nat →
  ∃ st' granted, schedule_loop fuel p st = Some (st', granted) ∧
    rtc (pool_step p) (st, L) (st', L) ∧
    select_waiter st' (total_units p) = Some None ∧
    granted ++ (waiters st').*1 ≡ₚ (waiters st).*1.
Proof.
  revert st. induction fuel as [|fuel IH]; intros st Hinv Hlen;
    destruct (grant_one_total p st) as [[Hs Hg]|(t & w & st' & Hg & Hw & Hst')];
    try (by apply Hinv); simpl; rewrite Hg.
  - exists st, []. split_and!; [done|constructor|done|done].
  - apply (length_bt_remove t w) in Hw; [lia|by apply Hinv].
  - exists st, []. split_and!; [done|constructor|done|done].
  - assert (bt_wf (waiters st)) as Hwf by by apply Hinv.
    pose proof (length_bt_remove t w _ Hwf Hw).
    assert (pool_inv p (st', L)) as Hinv' by eauto using grant_inv.
    destruct (IH st') as (st'' & granted & -> & Hr & Hsel & Hperm);
      [done|rewrite Hst'; lia|].
    exists st'', (t :: granted). split_and!; [done| |done|].
    + eapply rtc_l; [by eapply step_grant|done].
    + rewrite (bt_remove_perm t w (waiters st)) by done. csimpl. rewrite Hperm.
      by rewrite Hst'.
Qed.

(** ** Properties *)

Definition pool_reachable (p : AdmissionPool) (s : AdmissionState * list Z) : Prop :=
  rtc (pool_step p) (admission_state_default, []) s.

(** In every reachable state of the pool, whatever the interleaving of its
    critical sections, delivered leases and unfinished frames together stay inside
    the process budget, no frame exceeds its declared maximum, the declared total is
    exact, and some order exists in which every unfinished frame can reach its
    declared maximum once delivered leases are dropped. *)
Lemma admission_budget_invariant p st L :
  0 < total_units p ≤ usize_max → pool_reachable p (st, L) →
  zsum L + allocated_total (claims st) ≤ total_units p ∧
  claims_ok (total_units p) (claims st) ∧
  declared_maximum_units st = bt_sum maximum_units (claims st) ∧
  completable (total_units p - allocated_total (claims st)) (pending (claims st)).
Proof.
  intros Hp Hr. destruct (pool_reachable_inv p (st, L) Hp Hr) as [[] ? Hfx ????].
  simpl in *. split_and!; [lia|done..].
Qed.

(** The safety test of the code (quick path, cached sorted simulation, row
    insertion, overflow checks) never panics and answers [true] exactly when
    granting the waiter's target keeps the budget and leaves a completion order
    for every unfinished frame. *)
Lemma grant_decision_exact p st L w :
  0 < total_units p ≤ usize_max → pool_reachable p (st, L) →
  ∃ b, safe_with_simulation st w (total_units p) (capture st) = Some b ∧
       (b = true ↔ grant_safe (total_units p) st w).
Proof. intros Hp Hr. apply safe_exact, (pool_reachable_inv p (st, L) Hp Hr). Qed.

(** The memoised two-pass selection returns the oldest safe growth waiter, and
    only if there is none the oldest safe begin waiter; it never panics. *)
Lemma select_waiter_oldest_growth_first p st L :
  0 < total_units p ≤ usize_max → pool_reachable p (st, L) →
  select_waiter st (total_units p) =
    Some (match first_safe p st Growth (waiters st) with
          | Some t => Some t
          | None => first_safe p st Begin (waiters st)
          end).
Proof. intros Hp Hr. apply select_waiter_first, (pool_reachable_inv p (st, L) Hp Hr). Qed.

(** C40: [schedule_waiters] always returns: its rounds are bounded by the number of
    waiters, it does not panic, it notifies exactly the tickets that left the wait
    list, and it stops only when no waiter can be granted. *)
Theorem schedule_waiters_terminates p st L :
  0 < total_units p ≤ usize_max → pool_reachable p (st, L) →
  ∃ st' granted, schedule_waiters p st = Some (st', granted) ∧
    pool_reachable p (st', L) ∧
    select_waiter st' (total_units p) = Some None ∧
    granted ++ (waiters st').*1 ≡ₚ (waiters st).*1.
Proof.
  intros Hp Hr. pose proof (pool_reachable_inv p (st, L) Hp Hr) as Hinv.
  destruct (schedule_loop_total (length (waiters st)) p st L Hinv) as (st' & g & ? & ? & ?);
    [lia|]. exists st', g. split_and!; try naive_solver.
  unfold pool_reachable in *. by etrans.
Qed.

Lemma alone_grant_safe p st L t w c :
  pool_inv p (st, L) → fixed_units st = 0 → pending (claims st) = [] →
  bt_get t (waiters st) = Some w → bt_get (w_claim w) (claims st) = Some c →
  allocated_units c < target_units w ≤ maximum_units c →
  grant_safe (total_units p) st w.
Proof.
  intros [[Ht Hcw Hww Hco Hd Hf Hb] Hl Hfx Hfc Hft Hw Hcomp] H0 Hnone Hwt Hc Hrng. simpl in *.
  exists c. split; [done|]. split; [done|]. cbv zeta.
  assert (claim_ok (total_units p) c) as [? ?] by eauto with rsi.
  assert (claims_ok (total_units p) (bt_remove (w_claim w) (claims st))) as Hrem by eauto with rsi.
  pose proof (pending_remove (w_claim w) c (claims st) Hcw Hc) as Hpr.
  rewrite Hnone in Hpr. case_decide; [by apply Permutation_nil_cons in Hpr|].
  apply Permutation_nil_l in Hpr.
  rewrite allocated_after_grant, pending_after_grant by (done || lia).
  assert (allocated_total (bt_remove (w_claim w) (claims st)) = 0) as ->.
  { rewrite <- (pending_allocated _ _ Hrem), <- Hpr. done. }
  rewrite <- Hpr. split; [lia|]. eexists; split; [done|]. simpl. apply andb_true_iff. split; [lia|done].
Qed.

(** The frame at the head of a completion order can have its growth granted. *)
Lemma head_grant_safe p st L t w c rest :
  pool_inv p (st, L) → fixed_units st = 0 →
  row_of c :: rest ≡ₚ pending (claims st) →
  runs (total_units p - allocated_total (claims st)) (row_of c :: rest) = true →
  bt_get t (waiters st) = Some w → bt_get (w_claim w) (claims st) = Some c →
  allocated_units c ≠ 0 → allocated_units c < target_units w ≤ maximum_units c →
  grant_safe (total_units p) st w.
Proof.
  intros [[Ht Hcw Hww Hco Hd Hf Hb] Hl Hfx Hfc Hft Hw Hcomp] H0 Hperm Hruns Hwt Hc Hnz Hrng.
  simpl in *. exists c. split; [done|]. split; [done|]. cbv zeta.
  assert (claim_ok (total_units p) c) as [? ?] by eauto with rsi.
  pose proof (pending_remove (w_claim w) c (claims st) Hcw Hc) as Hpr.
  rewrite decide_True in Hpr by done. rewrite Hpr in Hperm.
  apply Permutation.Permutation_cons_inv in Hperm.
  pose proof (bt_sum_remove allocated_units _ _ _ Hcw Hc).
  rewrite allocated_after_grant, pending_after_grant by (done || lia).
  unfold allocated_total in *. apply andb_true_iff in Hruns as [Hr Hruns].
  split; [lia|]. rewrite <- Hperm.
  exists ((maximum_units c - target_units w, target_units w) :: rest). split; [done|].
  simpl. apply andb_true_iff. split; [lia|]. eapply runs_mono; [|exact Hruns]. lia.
Qed.


(** *** A small contended pool, for the witnesses *)

Definition small_pool : AdmissionPool := {| unit_bytes := 1; total_units := 4 |}.

(** Two claims of maximum 3: the first holds 2 units and asks for 3, the second
    holds 1 and asks for 2; no lease is out. *)
Definition contended : AdmissionState :=
  {| next_claim := 2; next_ticket := 4; fixed_units := 0; declared_maximum_units := 6;
     claims := [(1, {| maximum_units := 3; allocated_units := 2 |});
                (2, {| maximum_units := 3; allocated_units := 1 |})];
     waiters := [(3, {| w_claim := 2; target_units := 2; kind := Growth |});
                 (4, {| w_claim := 1; target_units := 3; kind := Growth |})] |}.

Lemma contended_reachable : pool_reachable small_pool (contended, []).
Proof.
  eapply rtc_l; [eapply (step_register _ _ _ 3); [lia|vm_compute; reflexivity]|].
  eapply rtc_l; [eapply (step_register _ _ _ 3); [lia|vm_compute; reflexivity]|].
  eapply rtc_l; [eapply (step_enqueue _ _ _ 1 2 Begin); [lia|vm_compute; reflexivity]|].
  eapply rtc_l; [eapply (step_grant _ _ _ 1); vm_compute; reflexivity|].
  eapply rtc_l; [eapply (step_enqueue _ _ _ 2 1 Begin); [lia|vm_compute; reflexivity]|].
  eapply rtc_l; [eapply (step_grant _ _ _ 2); vm_compute; reflexivity|].
  eapply rtc_l; [eapply (step_enqueue _ _ _ 2 2 Growth); [lia|vm_compute; reflexivity]|].
  eapply rtc_l; [eapply (step_enqueue _ _ _ 1 3 Growth); [lia|vm_compute; reflexivity]|].
  apply rtc_refl.
Qed.

Lemma small_pool_bounds : 0 < total_units small_pool ≤ usize_max.
Proof. done. Qed.

Lemma admission_budget_invariant_witness :
  zsum [] + allocated_total (claims contended) ≤ total_units small_pool.
Proof.
  apply (admission_budget_invariant small_pool contended [] small_pool_bounds
           contended_reachable).
Defined.

Lemma grant_decision_exact_witness :
  ∃ b, safe_with_simulation contended {| w_claim := 2; target_units := 2; kind := Growth |}
         (total_units small_pool) (capture contended) = Some b ∧
    (b = true ↔ grant_safe (total_units small_pool) contended
                  {| w_claim := 2; target_units := 2; kind := Growth |}).
Proof.
  apply (grant_decision_exact small_pool contended [] _ small_pool_bounds
           contended_reachable).
Defined.

Lemma select_waiter_oldest_growth_first_witness :
  select_waiter contended (total_units small_pool) =
    Some (match first_safe small_pool contended Growth (waiters contended) with
          | Some t => Some t
          | None => first_safe small_pool contended Begin (waiters contended)
          end) ∧ select_waiter contended 4 = Some (Some 4).
Proof.
  split; [|by vm_compute].
  apply (select_waiter_oldest_growth_first small_pool contended [] small_pool_bounds
           contended_reachable).
Defined.

Lemma schedule_waiters_terminates_witness :
  ∃ st' granted, schedule_waiters small_pool contended = Some (st', granted) ∧
    pool_reachable small_pool (st', []) ∧
    select_waiter st' (total_units small_pool) = Some None ∧
    granted ++ (waiters st').*1 ≡ₚ (waiters contended).*1.
Proof.
  apply (schedule_waiters_terminates small_pool contended [] small_pool_bounds
           contended_reachable).
Defined.

