(* ===== verification/Reconciliation.v ===== *)
(** * Reconciliation scheduling

    Model of [crates/rsi-meta/core/src/runtime/reconciliation_queue.rs]: the
    [ReconciliationFrontier] that orders Fiber transitions (a ready queue with lazy
    deletion, the active set, and reruns requested while active) and the
    [ReconciliationProgress] of one Fiber (revision counters and the completion
    tickets a settled run resolves).

    [FiberId] is a [u64], [Z] here.  A [debug_assert!] that fails is a panic, as in a
    debug build, so [None] below is a failed assertion or [expect]. *)

From S2P Require Import Prelude BTree.

Definition debug_assert {A} (b : bool) (k : option A) : option A := if b then k else None.

(** ** The frontier *)
Module Frontier.

Record t := Build {
  ready : gmap Z Z;
  ready_order : list (Z * Z);
  next_ready_token : Z;
  active : gset Z;
  rerun : gset Z;
}.

Definition default : t :=
  {| ready := ∅; ready_order := []; next_ready_token := 0; active := ∅; rerun := ∅ |}.

Definition TOMBSTONE_HEADROOM : Z := 64.

Definition set_ready (f : t) (m : gmap Z Z) (o : list (Z * Z)) : t :=
  {| ready := m; ready_order := o; next_ready_token := next_ready_token f;
     active := active f; rerun := rerun f |}.
Definition set_active (f : t) (a : gset Z) : t :=
  {| ready := ready f; ready_order := ready_order f;
     next_ready_token := next_ready_token f; active := a; rerun := rerun f |}.
Definition set_rerun (f : t) (r : gset Z) : t :=
  {| ready := ready f; ready_order := ready_order f;
     next_ready_token := next_ready_token f; active := active f; rerun := r |}.
Definition set_token (f : t) (n : Z) : t :=
  {| ready := ready f; ready_order := ready_order f;
     next_ready_token := n; active := active f; rerun := rerun f |}.

(** The entry of [ready_order] is the current one of its Fiber. *)
Definition live (m : gmap Z Z) (e : Z * Z) : Prop := m !! e.1 = Some e.2.
#[global] Instance live_dec m e : Decision (live m e).
Proof. unfold live. apply _. Defined.

Definition compact_ready_order (f : t) : t :=
  set_ready f (ready f) (filter (live (ready f)) (ready_order f)).

(** The renumbering loop of [next_ready_token]; [out] is [compacted]. *)
Fixpoint renumber (m : gmap Z Z) (order out : list (Z * Z)) : gmap Z Z * list (Z * Z) :=
  match order with
  | [] => (m, out)
  | (id, token) :: rest =>
      if decide (live m (id, token)) then
        let compacted_token := len out + 1 in
        renumber (<[id := compacted_token]> m) rest (out ++ [(id, compacted_token)])
      else renumber m rest out
  end.

Definition take_token (f : t) : Z * t :=
  let f1 :=
    if next_ready_token f =? u64_max then
      let f0 := compact_ready_order f in
      let '(m, out) := renumber (ready f0) (ready_order f0) [] in
      set_token (set_ready f0 m out) (Z.of_nat (size m))
    else f in
  (next_ready_token f1 + 1, set_token f1 (next_ready_token f1 + 1)).

Definition enqueue_ready (f : t) (id : Z) : t :=
  match ready f !! id with
  | Some _ => f
  | None =>
      let '(token, f1) := take_token f in
      set_ready f1 (<[id := token]> (ready f1)) (ready_order f1 ++ [(id, token)])
  end.

Definition remove_ready (f : t) (id : Z) : t * bool :=
  match ready f !! id with
  | None => (f, false)
  | Some _ =>
      let f1 := set_ready f (delete id (ready f)) (ready_order f) in
      if saturating_add usize_max
           (saturating_mul usize_max (Z.of_nat (size (ready f1))) 2) TOMBSTONE_HEADROOM
         <? len (ready_order f1)
      then (compact_ready_order f1, true)
      else (f1, true)
  end.

Definition enqueue (f : t) (id : Z) : option t :=
  if decide (id ∈ active f) then
    debug_assert (bool_decide (ready f !! id = None))
      (Some (set_rerun f ({[id]} ∪ rerun f)))
  else
    debug_assert (bool_decide (id ∉ rerun f)) (Some (enqueue_ready f id)).

(** Inserting into [active] with [debug_assert!(inserted)], then the [rerun] check. *)
Definition activate (f : t) (id : Z) : option t :=
  debug_assert (bool_decide (id ∉ active f))
    (debug_assert (bool_decide (id ∉ rerun f))
       (Some (set_active f ({[id]} ∪ active f)))).

Definition claim (f : t) (id : Z) : option (t * bool) :=
  match remove_ready f id with
  | (f1, false) => Some (f1, false)
  | (f1, true) =>
      match activate f1 id with
      | Some f2 => Some (f2, true)
      | None => None
      end
  end.

(** The loop of [take]: pops until a live entry; [None] when the order is exhausted. *)
Fixpoint pop_live (m : gmap Z Z) (order : list (Z * Z))
  : gmap Z Z * list (Z * Z) * option Z :=
  match order with
  | [] => (m, [], None)
  | (id, token) :: rest =>
      if decide (live m (id, token)) then (delete id m, rest, Some id)
      else pop_live m rest
  end.

Definition take (f : t) (active_limit : Z) : option (t * option Z) :=
  if active_limit <=? Z.of_nat (size (active f)) then Some (f, None)
  else
    match pop_live (ready f) (ready_order f) with
    | (m, o, None) => Some (set_ready f m o, None)
    | (m, o, Some id) =>
        match activate (set_ready f m o) id with
        | Some f2 => Some (f2, Some id)
        | None => None
        end
    end.

(** The closing [debug_assert!]s of [finish] and [abandon]. *)
Definition released (f : t) (id : Z) : option t :=
  debug_assert (bool_decide (id ∉ active f))
    (debug_assert (bool_decide (id ∉ rerun f)) (Some f)).

Definition finish (f : t) (id : Z) (fiber_exists : bool) : option t :=
  debug_assert (bool_decide (id ∈ active f))
    (let f1 := set_active f (active f ∖ {[id]}) in
     let requested_rerun := bool_decide (id ∈ rerun f1) in
     let f2 := set_rerun f1 (rerun f1 ∖ {[id]}) in
     released (if requested_rerun && fiber_exists then enqueue_ready f2 id else f2) id).

Definition abandon (f : t) (id : Z) (fiber_exists : bool) : option t :=
  debug_assert (bool_decide (id ∈ active f))
    (let f1 := set_active f (active f ∖ {[id]}) in
     let f2 := set_rerun f1 (rerun f1 ∖ {[id]}) in
     released (if fiber_exists then enqueue_ready f2 id else f2) id).

Definition remove_queued (f : t) (id : Z) : t :=
  let f1 := (remove_ready f id).1 in
  set_rerun f1 (rerun f1 ∖ {[id]}).

Definition has_queued (f : t) : bool :=
  negb (bool_decide (ready f = ∅)) || negb (bool_decide (rerun f = ∅)).

Definition is_idle (f : t) : bool :=
  bool_decide (ready f = ∅) && bool_decide (active f = ∅) && bool_decide (rerun f = ∅).

(** ** Specification: a duplicate-free FIFO queue *)

Record spec := Spec { queue : list Z; running : gset Z; again : gset Z }.

Inductive op :=
| Enqueue (id : Z)
| Claim (id : Z)
| Take (active_limit : Z)
| Finish (id : Z) (fiber_exists : bool)
| Abandon (id : Z) (fiber_exists : bool)
| RemoveQueued (id : Z).

(** What the operation returns to its caller. *)
Inductive reply := Done | Claimed (b : bool) | Taken (o : option Z).
#[global] Instance reply_eq_dec : EqDecision reply.
Proof. solve_decision. Defined.

Definition run (f : t) (o : op) : option (t * reply) :=
  match o with
  | Enqueue id => match enqueue f id with Some f' => Some (f', Done) | None => None end
  | Claim id => match claim f id with Some (f', b) => Some (f', Claimed b) | None => None end
  | Take limit => match take f limit with Some (f', o) => Some (f', Taken o) | None => None end
  | Finish id b => match finish f id b with Some f' => Some (f', Done) | None => None end
  | Abandon id b => match abandon f id b with Some f' => Some (f', Done) | None => None end
  | RemoveQueued id => Some (remove_queued f id, Done)
  end.

Definition push (q : list Z) (id : Z) : list Z :=
  if decide (id ∈ q) then q else q ++ [id].
Definition without (q : list Z) (id : Z) : list Z := filter (λ x, x ≠ id) q.

Definition spec_run (s : spec) (o : op) : spec * reply :=
  match o with
  | Enqueue id =>
      if decide (id ∈ running s) then (Spec (queue s) (running s) ({[id]} ∪ again s), Done)
      else (Spec (push (queue s) id) (running s) (again s), Done)
  | Claim id =>
      if decide (id ∈ queue s)
      then (Spec (without (queue s) id) ({[id]} ∪ running s) (again s), Claimed true)
      else (s, Claimed false)
  | Take limit =>
      if limit <=? Z.of_nat (size (running s)) then (s, Taken None)
      else match queue s with
           | [] => (s, Taken None)
           | id :: q => (Spec q ({[id]} ∪ running s) (again s), Taken (Some id))
           end
  | Finish id fiber_exists =>
      (Spec (if bool_decide (id ∈ again s) && fiber_exists then push (queue s) id
             else queue s)
         (running s ∖ {[id]}) (again s ∖ {[id]}), Done)
  | Abandon id fiber_exists =>
      (Spec (if fiber_exists then push (queue s) id else queue s)
         (running s ∖ {[id]}) (again s ∖ {[id]}), Done)
  | RemoveQueued id => (Spec (without (queue s) id) (running s) (again s ∖ {[id]}), Done)
  end.

(** Callers enqueue registered Fibers and finish or abandon running ones. *)
Definition allowed (fibers : gset Z) (s : spec) (o : op) : Prop :=
  match o with
  | Enqueue id => id ∈ fibers
  | Finish id _ | Abandon id _ => id ∈ running s
  | _ => True
  end.

Definition queue_of (m : gmap Z Z) (order : list (Z * Z)) : list Z :=
  fst <$> filter (live m) order.

Definition abs (f : t) : spec :=
  Spec (queue_of (ready f) (ready_order f)) (active f) (rerun f).

(** ** Invariant, for the Fibers [fibers] that may be scheduled *)
Record core (f : t) : Prop := {
  core_sorted : StronglySorted Z.lt (ready_order f).*2;
  core_tokens : Forall (λ e, 1 ≤ e.2 ≤ next_ready_token f) (ready_order f);
  core_bound : 0 ≤ next_ready_token f ≤ u64_max;
  core_listed : ∀ id token, ready f !! id = Some token → (id, token) ∈ ready_order f;
}.

Record inv (fibers : gset Z) (f : t) : Prop := {
  inv_core : core f;
  inv_disjoint : ∀ id, is_Some (ready f !! id) → id ∉ active f;
  inv_rerun : rerun f ⊆ active f;
  inv_fibers : dom (ready f) ∪ active f ⊆ fibers;
  inv_tombstones :
    len (ready_order f) ≤ Z.of_nat (size (ready f)) + Z.of_nat (size fibers) + 64;
}.

Lemma sorted_snd_unique (l : list (Z * Z)) x y :
  StronglySorted Z.lt l.*2 → x ∈ l → y ∈ l → x.2 = y.2 → x = y.
Proof.
  induction l as [|z l IH]; [set_solver|]. csimpl. intros [Hs Hz]%StronglySorted_inv Hx Hy He.
  rewrite Forall_fmap, Forall_forall in Hz.
  apply elem_of_cons in Hx as [->|Hx], Hy as [->|Hy]; auto.
  - specialize (Hz _ Hy). simpl in Hz. lia.
  - specialize (Hz _ Hx). simpl in Hz. lia.
Qed.

Lemma elem_queue m order id :
  (∀ i token, m !! i = Some token → (i, token) ∈ order) →
  id ∈ queue_of m order ↔ is_Some (m !! id).
Proof.
  intros Hl. unfold queue_of. rewrite list_elem_of_fmap. split.
  - intros ([i token] & -> & [Hlive _]%list_elem_of_filter). by eexists.
  - intros [token Ht]. exists (id, token). split; [done|].
    apply list_elem_of_filter. split; [done|auto].
Qed.

Lemma queue_NoDup m order : StronglySorted Z.lt order.*2 → NoDup (queue_of m order).
Proof.
  unfold queue_of. induction order as [|[i token] order IH]; [constructor|].
  csimpl. intros [Hs Hz]%StronglySorted_inv. rewrite filter_cons.
  case_decide as Hlive; [|auto]. csimpl. constructor; [|auto].
  intros ([i' token'] & Heq & [Hlive' Hin]%list_elem_of_filter)%list_elem_of_fmap.
  simpl in Heq. subst i'. unfold live in *. simpl in *. rewrite Hlive in Hlive'. simplify_eq.
  rewrite Forall_fmap, Forall_forall in Hz. specialize (Hz _ Hin). simpl in Hz. lia.
Qed.

Lemma queue_size m order :
  StronglySorted Z.lt order.*2 →
  (∀ i token, m !! i = Some token → (i, token) ∈ order) →
  length (queue_of m order) = size m.
Proof.
  intros Hs Hl. rewrite <- size_dom.
  rewrite <- (size_list_to_set (C:=gset Z) (queue_of m order)) by by apply queue_NoDup.
  f_equal. apply set_eq. intros id. rewrite elem_of_list_to_set, elem_of_dom.
  by apply elem_queue.
Qed.

Lemma sorted_filter (P : Z * Z → Prop) `{∀ x, Decision (P x)} (l : list (Z * Z)) :
  StronglySorted Z.lt l.*2 → StronglySorted Z.lt (filter P l).*2.
Proof.
  induction l as [|x l IH]; [done|]. csimpl. intros [Hl Hx]%StronglySorted_inv.
  rewrite filter_cons. case_decide; [|auto]. csimpl. constructor; [auto|].
  rewrite Forall_fmap, Forall_forall in *. intros y [_ Hy]%list_elem_of_filter. auto.
Qed.

Lemma queue_filter m order : queue_of m (filter (live m) order) = queue_of m order.
Proof. unfold queue_of. by rewrite list_filter_filter_l. Qed.

Lemma compact_core f : core f → core (compact_ready_order f).
Proof.
  intros [Hs Ht Hb Hl]. split; simpl.
  - by apply sorted_filter.
  - rewrite Forall_forall in *. intros e [_ ?]%list_elem_of_filter. auto.
  - done.
  - intros id token Hr. apply list_elem_of_filter. split; [done|auto].
Qed.

Fixpoint number (n : Z) (order : list (Z * Z)) : list (Z * Z) :=
  match order with
  | [] => []
  | e :: rest => (e.1, n) :: number (n + 1) rest
  end.

Lemma number_fst n order : (number n order).*1 = order.*1.
Proof. revert n. induction order; intros n; csimpl; [done|by f_equal]. Qed.

Lemma number_tokens n order :
  Forall (λ e, n ≤ e.2 < n + len order) (number n order) ∧
  StronglySorted Z.lt (number n order).*2.
Proof.
  revert n. induction order as [|e order IH]; intros n; csimpl; [by repeat constructor|].
  destruct (IH (n + 1)) as [Hf Hs]. rewrite len_cons. split.
  - constructor; [simpl; pose proof (len_nonneg order); lia|].
    eapply Forall_impl; [exact Hf|]. simpl. lia.
  - constructor; [done|]. rewrite Forall_fmap. eapply Forall_impl; [exact Hf|]. simpl. lia.
Qed.

Lemma renumber_spec order m out :
  NoDup order.*1 → Forall (live m) order →
  ∃ m', renumber m order out = (m', out ++ number (len out + 1) order) ∧
    Forall (live m') (number (len out + 1) order) ∧
    dom m' = dom m ∧ (∀ id, id ∉ order.*1 → m' !! id = m !! id).
Proof.
  revert m out. induction order as [|[id token] order IH]; intros m out Hnd Hlive.
  { exists m. rewrite app_nil_r. by repeat constructor. }
  csimpl in Hnd. apply NoDup_cons in Hnd as [Hid Hnd]. apply Forall_cons in Hlive as [Hl Hlive].
  simpl. rewrite decide_True by done.
  destruct (IH (<[id:=len out + 1]> m) (out ++ [(id, len out + 1)])) as (m' & -> & Hf & Hd & Ho).
  { done. }
  { rewrite Forall_forall in *. intros [i tk] Hin. unfold live. simpl.
    rewrite lookup_insert_ne; [by apply (Hlive (i, tk))|]. intros <-.
    apply Hid. apply list_elem_of_fmap. by exists (id, tk). }
  exists m'. rewrite len_app, len_cons, len_nil in *. rewrite <- (assoc_L (++)). split_and!.
  - by replace (len out + (1 + 0) + 1) with (len out + 1 + 1) by lia.
  - constructor; [|by replace (len out + 1 + 1) with (len out + (1 + 0) + 1) by lia].
    unfold live. simpl. rewrite Ho by done. apply lookup_insert_eq.
  - rewrite Hd, dom_insert_L.
    assert (id ∈ dom m) by (apply elem_of_dom; eexists; exact Hl). set_solver.
  - intros j Hj. csimpl in Hj. rewrite Ho by set_solver. apply lookup_insert_ne. set_solver.
Qed.

Lemma queue_all_live m order : Forall (live m) order → queue_of m order = order.*1.
Proof. intros. unfold queue_of. by rewrite filter_all. Qed.

(** The wrap-around branch keeps the queue and leaves room for one more token. *)
Lemma take_token_spec f :
  core f → Z.of_nat (size (ready f)) < u64_max →
  ∃ f1, take_token f = (next_ready_token f1, f1) ∧ core f1 ∧
    1 ≤ next_ready_token f1 ∧
    Forall (λ e, e.2 < next_ready_token f1) (ready_order f1) ∧
    queue_of (ready f1) (ready_order f1) = queue_of (ready f) (ready_order f) ∧
    dom (ready f1) = dom (ready f) ∧ active f1 = active f ∧ rerun f1 = rerun f ∧
    len (ready_order f1) ≤ len (ready_order f).
Proof.
  intros Hc Hsz. unfold take_token. destruct (next_ready_token f =? u64_max) eqn:Hmax.
  2: { destruct Hc as [Hs Ht Hb Hl].
    exists (set_token f (next_ready_token f + 1)). split; [done|]. simpl.
    split_and!; try done; try lia.
    - split; simpl; [done| |lia|done]. eapply Forall_impl; [exact Ht|]. simpl. lia.
    - eapply Forall_impl; [exact Ht|]. simpl. lia. }
  pose proof (compact_core f Hc) as [Hs Ht Hb Hl]. simpl in *.
  destruct (renumber_spec (filter (live (ready f)) (ready_order f)) (ready f) [])
    as (m' & -> & Hlive & Hdom & _).
  { apply (queue_NoDup (ready f)). apply Hc. }
  { apply Forall_forall. by intros e [? _]%list_elem_of_filter. }
  simpl in *. set (order := filter (live (ready f)) (ready_order f)) in *.
  assert (size m' = size (ready f)) as Hsize by (rewrite <- !size_dom; by rewrite Hdom).
  assert (len order = Z.of_nat (size (ready f))) as Hlen.
  { rewrite <- (queue_size (ready f) (ready_order f)) by apply Hc.
    unfold len, queue_of. by rewrite length_fmap. }
  destruct (number_tokens (len (@nil (Z * Z)) + 1) order) as [Hn Hns]. rewrite len_nil in *.
  assert (Forall (λ e, 1 ≤ e.2 ≤ Z.of_nat (size m')) (number (0 + 1) order)) as Htk.
  { eapply Forall_impl; [exact Hn|]. simpl. lia. }
  exists (set_token (set_token (set_ready (compact_ready_order f) m' (number (0 + 1) order))
    (Z.of_nat (size m'))) (Z.of_nat (size m') + 1)). split; [done|]. simpl.
  split_and!; try done; try lia.
  - split; simpl; [done| |lia|].
    + eapply Forall_impl; [exact Htk|]. simpl. lia.
    + intros id token Hid.
      assert (id ∈ (number (0 + 1) order).*1) as Hin.
      { rewrite number_fst. apply (elem_queue (ready f) (ready_order f)); [apply Hc|].
        apply elem_of_dom. rewrite <- Hdom. apply elem_of_dom. by eexists. }
      apply list_elem_of_fmap in Hin as ([i tk] & Hi & Hin). simpl in Hi. subst i.
      rewrite Forall_forall in Hlive. specialize (Hlive _ Hin) as Hlv.
      unfold live in Hlv. simpl in Hlv. rewrite Hid in Hlv. by simplify_eq.
  - eapply Forall_impl; [exact Htk|]. simpl. lia.
  - by rewrite queue_all_live, number_fst by done.
  - unfold len. rewrite <- (length_fmap fst (number (0 + 1) order)), number_fst, length_fmap.
    unfold order. pose proof (length_filter (live (ready f)) (ready_order f)). lia.
Qed.

Lemma queue_insert_fresh m order id token :
  m !! id = None → Forall (λ e, e.2 < token) order →
  queue_of (<[id:=token]> m) (order ++ [(id, token)]) = queue_of m order ++ [id].
Proof.
  intros Hid Hlt. unfold queue_of. rewrite filter_app, fmap_app. f_equal.
  - f_equal. induction Hlt as [|[i tk] order Htk Hlt IH]; [done|].
    rewrite !filter_cons, IH. simpl in Htk.
    assert (live (<[id:=token]> m) (i, tk) ↔ live m (i, tk)) as Hiff.
    { unfold live. simpl. destruct (decide (i = id)) as [->|].
      - rewrite lookup_insert_eq, Hid. split; [intros; simplify_eq; lia|done].
      - by rewrite lookup_insert_ne. }
    repeat case_decide; tauto.
  - rewrite filter_cons_True; [done|]. unfold live. simpl. apply lookup_insert_eq.
Qed.

Lemma enqueue_ready_spec f id :
  core f → Z.of_nat (size (ready f)) < u64_max →
  let f' := enqueue_ready f id in
  core f' ∧
  queue_of (ready f') (ready_order f') = push (queue_of (ready f) (ready_order f)) id ∧
  dom (ready f') = {[id]} ∪ dom (ready f) ∧ active f' = active f ∧ rerun f' = rerun f ∧
  len (ready_order f') - Z.of_nat (size (ready f'))
    ≤ len (ready_order f) - Z.of_nat (size (ready f)).
Proof.
  intros Hc Hsz. unfold enqueue_ready, push.
  pose proof (elem_queue (ready f) (ready_order f) id (core_listed f Hc)) as Hin.
  destruct (ready f !! id) as [tk|] eqn:Hid.
  { rewrite decide_True by (apply Hin; eauto). split_and!; try done.
    assert (id ∈ dom (ready f)) by (by apply elem_of_dom_2 in Hid). set_solver. }
  rewrite decide_False by (rewrite Hin; by intros [? ?]).
  destruct (take_token_spec f Hc Hsz)
    as (f1 & -> & [Hs Ht Hb Hl] & H1 & Hlt & Hq & Hd & Ha & Hr & Hlen). simpl.
  assert (ready f1 !! id = None) as Hid1.
  { apply not_elem_of_dom. rewrite Hd. by apply not_elem_of_dom. }
  assert (size (ready f1) = size (ready f)) as Hsize by (by rewrite <- !size_dom, Hd).
  split_and!.
  - split; simpl; [| |done|].
    + rewrite fmap_app. simpl. clear -Hs Hlt.
      induction (ready_order f1) as [|e l IH]; csimpl; [repeat constructor|].
      apply Forall_cons in Hlt as [? Hlt]. apply StronglySorted_inv in Hs as [Hs He].
      constructor; [auto|]. apply Forall_app. split; [done|]. by repeat constructor.
    + apply Forall_app. split; [done|]. constructor; [simpl; lia|constructor].
    + intros i tk. rewrite lookup_insert. case_decide; intros; simplify_eq; [set_solver|].
      apply elem_of_app. auto.
  - rewrite queue_insert_fresh by done. by rewrite Hq.
  - by rewrite dom_insert_L, Hd.
  - done.
  - done.
  - rewrite map_size_insert_None by done. rewrite len_app, len_cons, len_nil. lia.
Qed.

Lemma live_delete m id e : live (delete id m) e ↔ e.1 ≠ id ∧ live m e.
Proof.
  unfold live. rewrite lookup_delete. case_decide; [naive_solver|naive_solver].
Qed.

Lemma queue_delete m order id : queue_of (delete id m) order = without (queue_of m order) id.
Proof.
  unfold queue_of, without. induction order as [|e order IH]; [done|].
  rewrite !filter_cons. destruct (decide (live m e)) as [Hl|Hl].
  - csimpl. rewrite filter_cons, <- IH.
    destruct (decide (e.1 = id)) as [He|He].
    + rewrite !decide_False; [done|tauto|rewrite live_delete; tauto].
    + rewrite !decide_True; [done|done|by apply live_delete].
  - rewrite decide_False; [done|rewrite live_delete; tauto].
Qed.

Lemma remove_ready_spec f id :
  core f →
  ∃ f', remove_ready f id = (f', bool_decide (id ∈ queue_of (ready f) (ready_order f))) ∧
    core f' ∧
    queue_of (ready f') (ready_order f') = without (queue_of (ready f) (ready_order f)) id ∧
    dom (ready f') = dom (ready f) ∖ {[id]} ∧ active f' = active f ∧ rerun f' = rerun f ∧
    (f' = f ∨ len (ready_order f') ≤ 2 * Z.of_nat (size (ready f')) + 64).
Proof.
  intros Hc. unfold remove_ready.
  pose proof (elem_queue (ready f) (ready_order f) id (core_listed f Hc)) as Hin.
  destruct (ready f !! id) as [tk|] eqn:Hid.
  2: { exists f. rewrite bool_decide_eq_false_2 by (rewrite Hin; by intros [? ?]).
    split_and!; try done; [| |by left].
    - unfold without. symmetry. apply filter_all. apply Forall_forall. intros x Hx ->.
      apply Hin in Hx. by destruct Hx.
    - apply not_elem_of_dom in Hid. set_solver. }
  rewrite bool_decide_eq_true_2 by (apply Hin; eauto).
  set (f1 := set_ready f (delete id (ready f)) (ready_order f)).
  assert (core f1) as Hc1.
  { destruct Hc as [Hs Ht Hb Hl]. split; simpl; try done.
    intros i t'. rewrite lookup_delete. case_decide; [done|auto]. }
  pose proof (queue_delete (ready f) (ready_order f) id) as Hq.
  case_match eqn:Hcmp; eexists; (split; [reflexivity|]).
  - split_and!; simpl; try done; [by apply compact_core|by rewrite queue_filter|set_solver|].
    right. rewrite <- (queue_size (delete id (ready f)) (ready_order f));
      [|apply Hc1|apply (core_listed f1 Hc1)].
    unfold queue_of. rewrite length_fmap. unfold len. lia.
  - split_and!; simpl; try done; [set_solver|]. right.
    unfold saturating_add, saturating_mul, TOMBSTONE_HEADROOM in Hcmp. simpl in Hcmp. lia.
Qed.

Lemma pop_live_spec m order :
  StronglySorted Z.lt order.*2 →
  (∀ i tk, m !! i = Some tk → (i, tk) ∈ order) →
  match pop_live m order with
  | (m', o', None) => m' = m ∧ o' = [] ∧ queue_of m order = []
  | (m', o', Some id) =>
      is_Some (m !! id) ∧ m' = delete id m ∧
      queue_of m order = id :: queue_of m' o' ∧
      StronglySorted Z.lt o'.*2 ∧ (∀ i tk, m' !! i = Some tk → (i, tk) ∈ o') ∧
      (∃ skipped, order = skipped ++ o' ∧ skipped ≠ [])
  end.
Proof.
  induction order as [|[id token] order IH]; intros Hs Hl; [done|].
  csimpl in Hs. apply StronglySorted_inv in Hs as [Hs Hlt].
  rewrite Forall_fmap, Forall_forall in Hlt. simpl. case_decide as Hlive.
  - unfold live in Hlive. simpl in Hlive.
    split; [by eexists|]. split; [done|]. split; [|split; [done|split; [|by exists [(id, token)]]]].
    + rewrite queue_delete. unfold without.
      assert (queue_of m ((id, token) :: order) = id :: queue_of m order) as Heq.
      { unfold queue_of. by rewrite filter_cons_True. }
      rewrite Heq. f_equal. symmetry. apply filter_all, Forall_forall. intros x Hx ->.
      assert (NoDup (queue_of m ((id, token) :: order))) as Hnd.
      { apply queue_NoDup. csimpl. constructor; [done|]. by rewrite Forall_fmap, Forall_forall. }
      rewrite Heq in Hnd. by apply NoDup_cons in Hnd as [? _].
    + intros i tk. rewrite lookup_delete. case_decide; [done|]. intros Hi%Hl. set_solver.
  - unfold queue_of. rewrite filter_cons_False by done. fold (queue_of m order).
    destruct (pop_live m order) as [[m' o'] [i|]].
    + destruct IH as (? & -> & -> & ? & ? & skipped & -> & ?); [done| |].
      { intros i' tk Hi. specialize (Hl _ _ Hi) as [?|?]%elem_of_cons; [|done].
        simplify_eq. done. }
      split_and!; try done. by exists ((id, token) :: skipped).
    + apply IH; [done|]. intros i' tk Hi. specialize (Hl _ _ Hi) as [?|?]%elem_of_cons; [|done].
      by simplify_eq.
Qed.

(** ** Refinement *)
Section refinement.
Context (fibers : gset Z) (Hfibers : Z.of_nat (size fibers) < u64_max).
Implicit Types f : t.

Lemma inv_ready_size f : inv fibers f → Z.of_nat (size (ready f)) ≤ Z.of_nat (size fibers).
Proof.
  intros Hf. rewrite <- size_dom. apply Nat2Z.inj_le, subseteq_size.
  pose proof (inv_fibers _ _ Hf). set_solver.
Qed.

Lemma inv_dom_active f id : inv fibers f → id ∈ dom (ready f) → id ∉ active f.
Proof. intros Hf ?%elem_of_dom. by apply (inv_disjoint _ _ Hf). Qed.

Lemma activate_inv f id :
  core f → dom (ready f) ∪ active f ⊆ fibers → id ∈ fibers →
  (∀ i, i ∈ dom (ready f) → i ∉ active f) → rerun f ⊆ active f →
  len (ready_order f) ≤ Z.of_nat (size (ready f)) + Z.of_nat (size fibers) + 64 →
  id ∉ dom (ready f) → id ∉ active f →
  ∃ f', activate f id = Some f' ∧ inv fibers f' ∧
    abs f' = Spec (queue_of (ready f) (ready_order f)) ({[id]} ∪ active f) (rerun f).
Proof.
  intros Hc Hfib Hid Hdis Hre Hlen Hnr Hna. unfold activate, debug_assert.
  rewrite bool_decide_eq_true_2 by done. rewrite bool_decide_eq_true_2 by set_solver.
  eexists; split; [reflexivity|]. split; [|done].
  split; simpl; [|intros i Hi%elem_of_dom|set_solver|set_solver|done]; [|set_solver].
  by destruct Hc.
Qed.

Lemma enqueue_refines f id :
  inv fibers f → id ∈ fibers →
  ∃ f', enqueue f id = Some f' ∧ inv fibers f' ∧
    spec_run (abs f) (Enqueue id) = (abs f', Done).
Proof.
  intros Hf Hid. pose proof Hf as [Hc Hd Hr Hfib Hlen]. unfold enqueue, debug_assert. simpl.
  destruct (decide (id ∈ active f)) as [Ha|Ha].
  - rewrite bool_decide_eq_true_2.
    2: { apply not_elem_of_dom. intros ?. by eapply inv_dom_active. }
    eexists; split; [reflexivity|]. split; [|done].
    split; simpl; [by destruct Hc|done|set_solver|done|done].
  - rewrite bool_decide_eq_true_2 by set_solver.
    pose proof (inv_ready_size f Hf).
    destruct (enqueue_ready_spec f id Hc) as (Hc' & Hq & Hdom & Hact & Hrer & Hln); [lia|].
    eexists; split; [reflexivity|]. split.
    + split; rewrite ?Hact, ?Hrer; [done| |done|rewrite Hdom; set_solver|lia].
      intros i Hi%elem_of_dom. rewrite Hdom in Hi.
      apply elem_of_union in Hi as [?|?]; [set_solver|by apply (inv_dom_active f)].
    + unfold abs. by rewrite Hq, Hact, Hrer.
Qed.

Lemma remove_ready_inv f id :
  inv fibers f →
  ∃ f', remove_ready f id = (f', bool_decide (id ∈ queue (abs f))) ∧
    inv fibers f' ∧ abs f' = Spec (without (queue (abs f)) id) (active f) (rerun f) ∧
    dom (ready f') = dom (ready f) ∖ {[id]} ∧ active f' = active f ∧ rerun f' = rerun f.
Proof.
  intros Hf. pose proof Hf as [Hc Hd Hr Hfib Hlen].
  destruct (remove_ready_spec f id Hc) as (f' & -> & Hc' & Hq & Hdom & Ha & Hre & Hl).
  exists f'. split; [done|]. split; [|split; [|done]].
  - split; rewrite ?Ha, ?Hre; [done| |done|rewrite Hdom; set_solver|].
    + intros i Hi%elem_of_dom. rewrite Hdom in Hi. apply (inv_dom_active f); set_solver.
    + destruct Hl as [->|Hl]; [done|].
      assert (size (ready f') ≤ size fibers)%nat; [|lia].
      rewrite <- size_dom. apply subseteq_size. rewrite Hdom. set_solver.
  - unfold abs. by rewrite Hq, Ha, Hre.
Qed.

Lemma claim_refines f id :
  inv fibers f →
  ∃ f' b, claim f id = Some (f', b) ∧ inv fibers f' ∧
    spec_run (abs f) (Claim id) = (abs f', Claimed b).
Proof.
  intros Hf. unfold claim.
  pose proof (elem_queue (ready f) (ready_order f) id (core_listed f (inv_core _ _ Hf))) as Hin.
  destruct (remove_ready_inv f id Hf) as (f1 & -> & Hf1 & Habs & Hdom & Ha & Hre).
  simpl. destruct (decide _) as [Hq|Hq]; simpl in Hq.
  - rewrite bool_decide_eq_true_2 by done.
    assert (id ∈ dom (ready f)) by (apply elem_of_dom; by apply Hin).
    destruct Hf as [Hc Hd Hr Hfib Hlen], Hf1 as [Hc1 Hd1 Hr1 Hfib1 Hlen1].
    destruct (activate_inv f1 id) as (f2 & -> & Hf2 & Habs2); try done.
    { set_solver. }
    { intros i Hi%elem_of_dom. by apply Hd1. }
    { set_solver. }
    { rewrite Ha. apply Hd. by apply elem_of_dom. }
    exists f2, true. split; [done|]. split; [done|]. rewrite Habs2.
    unfold abs in Habs. injection Habs as -> -> ->. done.
  - rewrite bool_decide_eq_false_2 by done. exists f1, false. split; [done|].
    split; [done|]. rewrite Habs. unfold without. rewrite filter_all; [done|].
    apply Forall_forall. intros x Hx ->. done.
Qed.

Lemma take_refines f limit :
  inv fibers f →
  ∃ f' o, take f limit = Some (f', o) ∧ inv fibers f' ∧
    spec_run (abs f) (Take limit) = (abs f', Taken o).
Proof.
  intros Hf. pose proof Hf as [Hc Hd Hr Hfib Hlen]. unfold take. simpl.
  destruct (limit <=? Z.of_nat (size (active f))); [by eauto|].
  pose proof (pop_live_spec (ready f) (ready_order f) (core_sorted f Hc)
    (core_listed f Hc)) as Hpop.
  destruct (pop_live (ready f) (ready_order f)) as [[m' o'] [id|]].
  - destruct Hpop as (Hid & -> & Hq & Hs & Hl & skipped & Hsk & Hne). rewrite Hq.
    assert (id ∈ dom (ready f)) by by apply elem_of_dom.
    assert (core (set_ready f (delete id (ready f)) o')) as Hc1.
    { destruct Hc as [? Ht ? ?]. split; simpl; try done.
      rewrite Hsk in Ht. by apply Forall_app in Ht as [_ ?]. }
    destruct (activate_inv (set_ready f (delete id (ready f)) o') id)
      as (f2 & -> & Hf2 & Habs2); simpl; try done.
    { set_solver. }
    { set_solver. }
    { intros i Hi. apply (inv_dom_active f); set_solver. }
    { apply map_size_delete_Some in Hid as Hsz.
      rewrite Hsk, len_app in Hlen. destruct skipped; [done|].
      rewrite len_cons in Hlen. pose proof (len_nonneg skipped).
      assert (size (ready f) ≠ 0)%nat; [|lia].
      intros He%map_size_empty_iff. rewrite He in Hid. by destruct Hid. }
    { set_solver. }
    { apply Hd. by apply elem_of_dom. }
    exists f2, (Some id). split; [done|]. split; [done|]. by rewrite Habs2.
  - destruct Hpop as (-> & -> & Hq). rewrite Hq.
    exists (set_ready f (ready f) []), None. split; [done|]. split; [|unfold abs; simpl; by rewrite Hq].
    assert (ready f = ∅) as Hemp.
    { apply map_empty. intros i. apply eq_None_not_Some.
      intros Hi%(elem_queue (ready f) (ready_order f) i (core_listed f Hc)).
      rewrite Hq in Hi. set_solver. }
    split; simpl; try done.
    + destruct Hc. split; simpl; try done; try by constructor.
      rewrite Hemp. intros ?? ?. by rewrite lookup_empty in *.
    + rewrite len_nil. lia.
Qed.

(** [finish] and [abandon] release [id], then may requeue it at the tail. *)
Lemma release_requeue f id (b : bool) :
  inv fibers f → id ∈ active f →
  let f2 := set_rerun (set_active f (active f ∖ {[id]})) (rerun f ∖ {[id]}) in
  ∃ f', released (if b then enqueue_ready f2 id else f2) id = Some f' ∧ inv fibers f' ∧
    abs f' = Spec (if b then push (queue (abs f)) id else queue (abs f))
               (active f ∖ {[id]}) (rerun f ∖ {[id]}).
Proof.
  intros Hf Hid f2. pose proof Hf as [Hc Hd Hr Hfib Hlen].
  assert (core f2) as Hc2 by (by destruct Hc).
  assert (inv fibers f2) as Hf2.
  { split; simpl; [done| |set_solver|set_solver|done].
    intros i Hi%Hd. set_solver. }
  assert (∀ f', active f' = active f2 → rerun f' = rerun f2 → released f' id = Some f') as Hrel.
  { intros f' Ha Hre. unfold released, debug_assert. rewrite Ha, Hre. simpl.
    by rewrite !bool_decide_eq_true_2 by set_solver. }
  destruct b.
  - pose proof (inv_ready_size f2 Hf2).
    destruct (enqueue_ready_spec f2 id Hc2) as (Hc' & Hq & Hdom & Hact & Hrer & Hln); [lia|].
    exists (enqueue_ready f2 id). split; [by apply Hrel|]. split.
    + split; rewrite ?Hact, ?Hrer; [done| |simpl; set_solver|rewrite Hdom; simpl; set_solver|].
      * intros i Hi%elem_of_dom. rewrite Hdom in Hi. simpl.
        apply elem_of_union in Hi as [?|?]; [set_solver|].
        assert (i ∉ active f) by by apply (inv_dom_active f). set_solver.
      * simpl in *. lia.
    + unfold abs. by rewrite Hq, Hact, Hrer.
  - exists f2. split; [by apply Hrel|]. done.
Qed.

Lemma finish_refines f id (b : bool) :
  inv fibers f → id ∈ active f →
  ∃ f', finish f id b = Some f' ∧ inv fibers f' ∧
    spec_run (abs f) (Finish id b) = (abs f', Done).
Proof.
  intros Hf Hid.
  destruct (release_requeue f id (bool_decide (id ∈ rerun f) && b) Hf Hid)
    as (f' & Hrel & Hf' & Habs).
  exists f'. unfold finish, debug_assert. rewrite bool_decide_eq_true_2 by done.
  simpl in *. by rewrite Hrel, Habs.
Qed.

Lemma abandon_refines f id (b : bool) :
  inv fibers f → id ∈ active f →
  ∃ f', abandon f id b = Some f' ∧ inv fibers f' ∧
    spec_run (abs f) (Abandon id b) = (abs f', Done).
Proof.
  intros Hf Hid. destruct (release_requeue f id b Hf Hid) as (f' & Hrel & Hf' & Habs).
  exists f'. unfold abandon, debug_assert. rewrite bool_decide_eq_true_2 by done.
  simpl in *. by rewrite Hrel, Habs.
Qed.

Lemma remove_queued_refines f id :
  inv fibers f →
  inv fibers (remove_queued f id) ∧
  spec_run (abs f) (RemoveQueued id) = (abs (remove_queued f id), Done).
Proof.
  intros Hf. unfold remove_queued.
  destruct (remove_ready_inv f id Hf) as (f1 & -> & Hf1 & Habs & Hdom & Ha & Hre). simpl.
  split.
  - destruct Hf1 as [Hc1 ? ? ? ?]. split; simpl; try done; [by destruct Hc1|set_solver].
  - unfold abs in Habs. injection Habs as Hq _ _. unfold abs. simpl. by rewrite Hq, Ha, Hre.
Qed.

Lemma run_refines f o :
  inv fibers f → allowed fibers (abs f) o →
  ∃ f' r, run f o = Some (f', r) ∧ inv fibers f' ∧ spec_run (abs f) o = (abs f', r).
Proof.
  intros Hf Ha. destruct o; simpl run.
  - destruct (enqueue_refines f id Hf Ha) as (f' & -> & ?). eauto.
  - destruct (claim_refines f id Hf) as (f' & b & -> & ?). eauto.
  - destruct (take_refines f active_limit Hf) as (f' & o & -> & ?). eauto.
  - destruct (finish_refines f id fiber_exists Hf Ha) as (f' & -> & ?). eauto.
  - destruct (abandon_refines f id fiber_exists Hf Ha) as (f' & -> & ?). eauto.
  - eexists _, _. split; [reflexivity|]. by apply remove_queued_refines.
Qed.
End refinement.

(** ** Runs of the scheduler *)
Fixpoint run_all (f : t) (ops : list op) : option (t * list reply) :=
  match ops with
  | [] => Some (f, [])
  | o :: rest =>
      match run f o with
      | None => None
      | Some (f', r) =>
          match run_all f' rest with
          | None => None
          | Some (f'', rs) => Some (f'', r :: rs)
          end
      end
  end.

Fixpoint spec_all (s : spec) (ops : list op) : spec * list reply :=
  match ops with
  | [] => (s, [])
  | o :: rest =>
      let '(s', r) := spec_run s o in
      let '(s'', rs) := spec_all s' rest in
      (s'', r :: rs)
  end.

Fixpoint allowed_all (fibers : gset Z) (s : spec) (ops : list op) : Prop :=
  match ops with
  | [] => True
  | o :: rest => allowed fibers s o ∧ allowed_all fibers (spec_run s o).1 rest
  end.

Lemma run_all_refines fibers f ops :
  Z.of_nat (size fibers) < u64_max → inv fibers f → allowed_all fibers (abs f) ops →
  ∃ f' rs, run_all f ops = Some (f', rs) ∧ inv fibers f' ∧ spec_all (abs f) ops = (abs f', rs).
Proof.
  intros Hsz. revert f. induction ops as [|o ops IH]; intros f Hf; [by eauto|].
  intros [Ho Hops]. simpl.
  destruct (run_refines fibers Hsz f o Hf Ho) as (f1 & r & -> & Hf1 & Hs).
  rewrite Hs in *. destruct (IH f1 Hf1 Hops) as (f2 & rs & -> & Hf2 & ->). eauto.
Qed.

Lemma inv_default fibers : inv fibers default.
Proof.
  split; [split| | | |]; simpl; try done; try set_solver.
  all: try (by constructor).
  all: rewrite ?len_nil; unfold u64_max; try lia.
  all: intros id [? ?]; by rewrite lookup_empty in *.
Qed.

(** ** Bounded overtaking, on the specification *)
Definition is_take (r : reply) : bool :=
  match r with Taken (Some _) => true | _ => false end.

Definition takes (rs : list reply) : nat := length (filter (λ r, is_take r = true) rs).

(** Operations that withdraw [id] itself. *)
Definition withdraws (id : Z) (o : op) : bool :=
  match o with
  | Claim i | RemoveQueued i => i =? id
  | _ => false
  end.

Lemma push_middle l1 id l2 i : ∃ l2', push (l1 ++ id :: l2) i = l1 ++ id :: l2'.
Proof.
  unfold push. case_decide; [by eexists|]. exists (l2 ++ [i]).
  by rewrite <- (assoc_L (++)).
Qed.

Lemma without_middle l1 id l2 i :
  i ≠ id →
  ∃ l1' l2', without (l1 ++ id :: l2) i = l1' ++ id :: l2' ∧ (length l1' ≤ length l1)%nat.
Proof.
  intros. unfold without. exists (filter (λ x, x ≠ i) l1), (filter (λ x, x ≠ i) l2).
  rewrite filter_app, filter_cons_True by done. split; [done|apply length_filter].
Qed.

(** One step keeps [id] queued with no more in front, unless it takes [id]. *)
Lemma spec_step_position s o s' r l1 id l2 :
  queue s = l1 ++ id :: l2 → withdraws id o = false → spec_run s o = (s', r) →
  r = Taken (Some id) ∨
  ∃ l1' l2', queue s' = l1' ++ id :: l2' ∧
    (length l1' + (if is_take r then 1 else 0) ≤ length l1)%nat.
Proof.
  intros Hq Hw Hrun. destruct o; simpl in *; rewrite ?Hq in *.
  - right. case_decide; simplify_eq; simpl; rewrite ?Hq; [exists l1, l2; split; [done|lia]|].
    destruct (push_middle l1 id l2 id0) as (l2' & ->). exists l1, l2'. split; [done|lia].
  - right. case_decide; simplify_eq; simpl; [|exists l1, l2; split; [done|lia]].
    destruct (without_middle l1 id l2 id0) as (l1' & l2' & -> & ?); [lia|].
    exists l1', l2'. split; [done|lia].
  - case_match; simplify_eq; simpl; [right; exists l1, l2; split; [done|lia]|].
    destruct l1 as [|i l1]; simpl in *; simplify_eq; simpl; [by left|].
    right. exists l1, l2. split; [done|lia].
  - right. simplify_eq. simpl.
    destruct (push_middle l1 id l2 id0) as (l2' & ->).
    case_match; [exists l1, l2'|exists l1, l2]; split; (done || lia).
  - right. simplify_eq. simpl.
    destruct (push_middle l1 id l2 id0) as (l2' & ->).
    case_match; [exists l1, l2'|exists l1, l2]; split; (done || lia).
  - right. simplify_eq. simpl.
    destruct (without_middle l1 id l2 id0) as (l1' & l2' & -> & ?); [lia|].
    exists l1', l2'. split; [done|lia].
Qed.

Lemma spec_position ops s s' rs l1 id l2 :
  queue s = l1 ++ id :: l2 → Forall (λ o, withdraws id o = false) ops →
  spec_all s ops = (s', rs) → Taken (Some id) ∉ rs →
  (takes rs ≤ length l1)%nat.
Proof.
  revert s rs l1 l2. induction ops as [|o ops IH]; intros s rs l1 l2 Hq Hw Hall Hnot.
  { simplify_eq/=. unfold takes. simpl. lia. }
  apply Forall_cons in Hw as [Hwo Hw]. simpl in Hall.
  destruct (spec_run s o) as [s1 r] eqn:Hrun.
  destruct (spec_all s1 ops) as [s2 rs'] eqn:Hrest. simplify_eq.
  destruct (spec_step_position _ _ _ _ _ _ _ Hq Hwo Hrun) as [->|(l1' & l2' & Hq' & Hle)].
  { exfalso. apply Hnot, list_elem_of_here. }
  assert (takes rs' ≤ length l1')%nat by (eapply IH; [done..|]; set_solver).
  unfold takes in *. destruct (is_take r) eqn:Ht.
  - rewrite filter_cons_True by done. simpl. lia.
  - rewrite filter_cons_False by (by rewrite Ht). lia.
Qed.

(** ** Properties *)

(** C18: the lazily compacted ready queue with wrap-around tokens implements a
    duplicate-free FIFO queue with an active set and pending reruns: on every
    history of calls (finishing only running Fibers), no debug assertion fails and
    every reply and the abstract state agree with the specification. *)
Theorem frontier_refines_fifo fibers ops :
  Z.of_nat (size fibers) < u64_max → allowed_all fibers (abs default) ops →
  ∃ f rs, run_all default ops = Some (f, rs) ∧ spec_all (abs default) ops = (abs f, rs).
Proof.
  intros Hsz Hops.
  destruct (run_all_refines fibers default ops Hsz (inv_default fibers) Hops)
    as (f & rs & ? & _ & ?). eauto.
Qed.

(** Tombstones stay amortised: on every history over [n] Fibers the physical
    queue never holds more than [2 n + 64] entries. *)
Lemma frontier_memory_bound fibers ops f rs :
  Z.of_nat (size fibers) < u64_max → allowed_all fibers (abs default) ops →
  run_all default ops = Some (f, rs) →
  len (ready_order f) ≤ 2 * Z.of_nat (size fibers) + TOMBSTONE_HEADROOM.
Proof.
  intros Hsz Hops Hrun.
  destruct (run_all_refines fibers default ops Hsz (inv_default fibers) Hops)
    as (f' & rs' & Hrun' & Hf & _). rewrite Hrun in Hrun'. simplify_eq.
  pose proof (inv_ready_size fibers Hsz _ Hf). pose proof (inv_tombstones _ _ Hf).
  unfold TOMBSTONE_HEADROOM. lia.
Qed.

(** No ready Fiber starves: after any history, a queued Fiber that is not
    withdrawn is taken after at most as many takes as Fibers were in front of it,
    whatever is enqueued, finished or rerun meanwhile. *)
Lemma frontier_bounded_overtaking fibers before later f f' rs rs' l1 id l2 :
  Z.of_nat (size fibers) < u64_max → allowed_all fibers (abs default) before →
  run_all default before = Some (f, rs) →
  queue (abs f) = l1 ++ id :: l2 →
  allowed_all fibers (abs f) later → Forall (λ o, withdraws id o = false) later →
  run_all f later = Some (f', rs') →
  (length l1 < takes rs')%nat → Taken (Some id) ∈ rs'.
Proof.
  intros Hsz Hb Hrun Hq Hl Hw Hrun' Htakes.
  destruct (run_all_refines fibers default before Hsz (inv_default fibers) Hb)
    as (f0 & rs0 & Hr0 & Hf & _). rewrite Hrun in Hr0. simplify_eq.
  destruct (run_all_refines fibers f0 later Hsz Hf Hl) as (f1 & rs1 & Hr1 & _ & Hspec).
  rewrite Hrun' in Hr1. simplify_eq.
  destruct (decide (Taken (Some id) ∈ rs1)) as [|Hnot]; [done|].
  pose proof (spec_position _ _ _ _ _ _ _ Hq Hw Hspec Hnot). lia.
Qed.

(** *** A history for the witnesses: 1 is rerun behind 2 and 3 *)
Definition sample_fibers : gset Z := {[1; 2; 3]}.
Definition sample_before : list op := [Enqueue 1; Take 1; Enqueue 2; Enqueue 3; Enqueue 1].
Definition sample_later : list op :=
  [Finish 1 true; Take 1; Finish 2 true; Take 1; Abandon 3 true; Take 1].

Lemma sample_allowed :
  allowed_all sample_fibers (abs default) (sample_before ++ sample_later).
Proof. vm_compute. by repeat split. Qed.

Lemma frontier_refines_fifo_witness :
  ∃ f rs, run_all default (sample_before ++ sample_later) = Some (f, rs) ∧
    spec_all (abs default) (sample_before ++ sample_later) = (abs f, rs).
Proof. apply (frontier_refines_fifo sample_fibers); [done|apply sample_allowed]. Defined.

Definition final (f : t) (ops : list op) : t :=
  match run_all f ops with Some (f', _) => f' | None => f end.
Definition replies (f : t) (ops : list op) : list reply :=
  match run_all f ops with Some (_, rs) => rs | None => [] end.

Lemma frontier_memory_bound_witness :
  len (ready_order (final default (sample_before ++ sample_later)))
    ≤ 2 * Z.of_nat (size sample_fibers) + TOMBSTONE_HEADROOM.
Proof.
  apply (frontier_memory_bound sample_fibers (sample_before ++ sample_later) _
           (replies default (sample_before ++ sample_later)));
    [done|apply sample_allowed|by vm_compute].
Defined.

(** 3 is second in the queue after [sample_before] and 1 is rerun ahead of nobody. *)
Lemma frontier_bounded_overtaking_witness :
  Taken (Some 3) ∈ replies (final default sample_before) sample_later.
Proof.
  apply (frontier_bounded_overtaking sample_fibers sample_before sample_later
           (final default sample_before) (final (final default sample_before) sample_later)
           (replies default sample_before) _ [2] 3 []).
  - done.
  - vm_compute. by repeat split.
  - by vm_compute.
  - by vm_compute.
  - vm_compute. by repeat split.
  - vm_compute. by repeat constructor.
  - by vm_compute.
  - vm_compute. lia.
Defined.
End Frontier.

(** ** Revision progress of one Fiber *)
Module Progress.
Section progress.
(** [FiberSnapshot], opaque to the progress ledger. *)
Context {snapshot : Type}.

(** A ticket's [ReconciliationCompletion], by identity: [Some None] while it waits,
    [Some (Some s)] once it has its snapshot, absent when its ticket was dropped
    (the ledger only holds [Weak] references). *)
Abbreviation tickets := (gmap Z (option snapshot)).

Record t := Build {
  desired : Z;
  settled : Z;
  watch : Z;
  completions : bmap (list Z);
}.

Definition set_completions (p : t) (c : bmap (list Z)) : t :=
  {| desired := desired p; settled := settled p; watch := watch p; completions := c |}.

(** [fetch_update] with a saturating increment; returns the new revision. *)
Definition request_revision (p : t) : t * Z :=
  let revision := saturating_add u64_max (desired p) 1 in
  ({| desired := revision; settled := settled p; watch := watch p;
      completions := completions p |}, revision).

(** [request]: [ticket] is the fresh completion that it allocates. *)
Definition request (p : t) (ts : tickets) (ticket : Z) : t * tickets :=
  let '(p1, revision) := request_revision p in
  let waiting := match bt_get revision (completions p1) with Some v => v | None => [] end in
  (set_completions p1 (bt_insert revision (waiting ++ [ticket]) (completions p1)),
   <[ticket := None]> ts).

Record run := Run { revision : Z; saturated_completion_prefix : option nat }.

Definition begin_run (p : t) : run :=
  {| revision := desired p;
     saturated_completion_prefix :=
       if desired p =? u64_max
       then Some (match bt_get u64_max (completions p) with
                  | Some v => length v | None => O end)
       else None |}.

(** The completions selected under the lock, and those that stay. *)
Definition select_pending (c : bmap (list Z)) (rev : Z) (prefix : option nat)
  : list Z * bmap (list Z) :=
  if rev =? u64_max then
    let saturated := match bt_get u64_max c with Some v => v | None => [] end in
    let c1 := bt_remove u64_max c in
    let '(now, later) :=
      match prefix with
      | Some n => (firstn (Nat.min n (length saturated)) saturated,
                   skipn (Nat.min n (length saturated)) saturated)
      | None => (saturated, [])
      end in
    (concat (c1.*2) ++ now,
     match later with [] => [] | _ :: _ => [(u64_max, later)] end)
  else
    (concat ((filter (λ e, e.1 < rev + 1) c).*2), filter (λ e, rev + 1 ≤ e.1) c).

(** Publishing the snapshot to the completions whose [Weak] still upgrades. *)
Definition publish (s : snapshot) (ts : tickets) (pending : list Z) : tickets :=
  foldl (λ m ticket, match m !! ticket with
                     | Some _ => <[ticket := Some s]> m
                     | None => m
                     end) ts pending.

Definition settle (p : t) (ts : tickets) (rev : Z) (prefix : option nat) (s : snapshot)
  : t * tickets :=
  let '(pending, later) := select_pending (completions p) rev prefix in
  ({| desired := desired p;
      settled := Z.max (settled p) rev;
      watch := if rev =? u64_max then rev
               else if rev <=? watch p then watch p else rev;
      completions := later |},
   publish s ts pending).

Definition mark_settled (p : t) (ts : tickets) (r : run) (s : snapshot) : t * tickets :=
  settle p ts (revision r) (saturated_completion_prefix r) s.

Definition finish (p : t) (ts : tickets) (s : snapshot) : t * tickets :=
  settle p ts (desired p) None s.

(** The tickets that still wait for a run, in revision and registration order. *)
Definition pending (p : t) : list Z := concat (completions p).*2.

Record inv (p : t) : Prop := {
  inv_wf : bt_wf (completions p);
  inv_desired : 0 ≤ desired p ≤ u64_max;
  inv_revisions : Forall (λ e, 1 ≤ e.1 ≤ desired p) (completions p);
}.

(** Requests made while a run is in progress. *)
Fixpoint requests (p : t) (ts : tickets) (new : list Z) : t * tickets :=
  match new with
  | [] => (p, ts)
  | ticket :: rest => let '(p1, ts1) := request p ts ticket in requests p1 ts1 rest
  end.

Implicit Types (p : t) (ts : tickets) (c : bmap (list Z)).

Lemma requests_cons p ts ticket (new : list Z) :
  requests p ts (ticket :: new) =
    requests (request p ts ticket).1 (request p ts ticket).2 new.
Proof. cbn [requests]. by destruct (request p ts ticket). Qed.

Lemma request_inv p ts ticket : inv p → inv (request p ts ticket).1.
Proof.
  intros [Hwf Hd Hr]. unfold request. cbn -[Z.min u64_max].
  unfold saturating_add.
  split; cbn -[Z.min u64_max]; [by apply bt_wf_insert|lia|].
  apply bt_insert_Forall; [cbn -[Z.min u64_max]; unfold u64_max in *; lia|].
  forall_lia.
Qed.

Lemma requests_inv new p ts : inv p → inv (requests p ts new).1.
Proof.
  revert p ts. induction new as [|ticket new IH]; intros p ts Hp; [done|].
  rewrite requests_cons. by apply IH, request_inv.
Qed.

(** Later requests only extend the part of the ledger beyond [rev]. *)
Lemma request_split p ts ticket rev old later :
  inv p → completions p = old ++ later → rev ≤ desired p → rev < u64_max →
  Forall (λ e, e.1 ≤ rev) old → Forall (λ e, rev < e.1) later →
  ∃ later', completions (request p ts ticket).1 = old ++ later' ∧
    Forall (λ e, rev < e.1) later' ∧
    concat later'.*2 = concat later.*2 ++ [ticket] ∧
    rev ≤ desired (request p ts ticket).1.
Proof.
  intros [Hwf Hd Hr] Hc Hrev Hmax Hold Hlater. unfold request. simpl.
  set (k := saturating_add u64_max (desired p) 1).
  assert (rev < k ∧ desired p ≤ k) as [Hk Hdk] by (unfold k, saturating_add; lia).
  assert (Forall (λ e, e.1 < k) old) as Hold'.
  { forall_lia. }
  rewrite Hc in *. apply bt_wf_app in Hwf as [_ Hwf]. apply Forall_app in Hr as [_ Hr].
  pose proof (bt_get_last k later Hwf) as Hlast.
  rewrite bt_get_app_lt, bt_insert_app by done.
  destruct (bt_get k later) as [w|].
  - destruct Hlast as (m0 & -> & Hm0); [forall_lia|].
    rewrite bt_insert_app by done. simpl. rewrite Z.ltb_irrefl, Z.eqb_refl.
    apply Forall_app in Hlater as [? _].
    eexists; split; [reflexivity|]. split_and!.
    + apply Forall_app. split; [done|]. by repeat constructor.
    + rewrite !fmap_app, !concat_app. simpl. by rewrite !app_nil_r, !(assoc_L (++)).
    + lia.
  - rewrite bt_insert_gt; [|apply Hlast; forall_lia].
    eexists; split; [reflexivity|]. split_and!.
    + apply Forall_app. split; [done|]. by repeat constructor.
    + by rewrite !fmap_app, !concat_app.
    + lia.
Qed.

Lemma requests_split new p ts rev old later :
  inv p → completions p = old ++ later → rev ≤ desired p → rev < u64_max →
  Forall (λ e, e.1 ≤ rev) old → Forall (λ e, rev < e.1) later →
  ∃ later', completions (requests p ts new).1 = old ++ later' ∧
    Forall (λ e, rev < e.1) later' ∧ concat later'.*2 = concat later.*2 ++ new.
Proof.
  revert p ts later. induction new as [|ticket new IH]; intros p ts later Hp Hc Hrev Hmax Ho Hl.
  { exists later. by rewrite app_nil_r. }
  rewrite requests_cons.
  destruct (request_split p ts ticket rev old later) as (l1 & Hc1 & Hl1 & Heq & Hrev1); [done..|].
  destruct (IH (request p ts ticket).1 (request p ts ticket).2 l1)
    as (l2 & ? & ? & Heq2); [by apply request_inv|done..|].
  exists l2. split_and!; [done..|]. by rewrite Heq2, Heq, <- (assoc_L (++)).
Qed.

(** At the terminal revision every request joins the same vector, at its end. *)
Lemma requests_saturated new p ts m w :
  inv p → desired p = u64_max →
  bt_remove u64_max (completions p) = m →
  (match bt_get u64_max (completions p) with Some v => v | None => [] end) = w →
  let c := completions (requests p ts new).1 in
  bt_remove u64_max c = m ∧
  (match bt_get u64_max c with Some v => v | None => [] end) = w ++ new.
Proof.
  revert p ts w. induction new as [|ticket new IH]; intros p ts w Hp Hd Hm Hw; simpl.
  { by rewrite app_nil_r. }
  assert (saturating_add u64_max (desired p) 1 = u64_max) as Hs
    by (unfold saturating_add; lia).
  pose proof (request_inv p ts ticket Hp) as Hp1. unfold request in Hp1 |- *.
  simpl in Hp1 |- *. rewrite Hs, Hw in *.
  set (p1 := set_completions _ _) in *.
  destruct (IH p1 (<[ticket:=None]> ts) (w ++ [ticket])) as [H1 H2]; try done.
  - subst p1. simpl. by rewrite bt_remove_insert.
  - subst p1. simpl. by rewrite bt_get_insert_eq.
  - split; [done|]. by rewrite H2, <- (assoc_L (++)).
Qed.

Lemma publish_lookup s (l : list Z) ts i :
  publish s ts l !! i =
    if decide (i ∈ l) then (λ _, Some s) <$> ts !! i else ts !! i.
Proof.
  unfold publish. revert ts. induction l as [|j l IH]; intros ts; simpl; [done|].
  rewrite IH. clear IH.
  assert (∀ m : tickets, m = match ts !! j with Some _ => <[j:=Some s]> ts | None => ts end →
    m !! i = if decide (i = j) then (λ _, Some s) <$> ts !! i else ts !! i) as Hm.
  { intros m ->. destruct (ts !! j) eqn:Hj; case_decide as He; subst.
    - by rewrite lookup_insert_eq, Hj.
    - by rewrite lookup_insert_ne.
    - by rewrite Hj.
    - done. }
  rewrite (Hm _ eq_refl).
  destruct (decide (i ∈ l)), (decide (i = j)), (decide (i ∈ j :: l));
    try done; try set_solver; by destruct (ts !! i).
Qed.

Lemma filter_none (P : Z * list Z → Prop) `{∀ x, Decision (P x)} c :
  Forall (λ e, ¬ P e) c → filter P c = [].
Proof. induction 1; [done|]. by rewrite filter_cons_False. Qed.

Lemma select_after_requests p ts new :
  inv p →
  let r := begin_run p in
  let '(l, later) := select_pending (completions (requests p ts new).1)
                       (revision r) (saturated_completion_prefix r) in
  l = pending p ∧ concat later.*2 = new.
Proof.
  intros Hp. pose proof Hp as [Hwf Hd Hr]. unfold select_pending. simpl.
  destruct (desired p =? u64_max) eqn:Hmax.
  - assert (desired p = u64_max) as Hdm by lia.
    destruct (requests_saturated new p ts _ _ Hp Hdm eq_refl eq_refl) as [Hrem Hget].
    rewrite Hrem, Hget. set (w := match bt_get u64_max (completions p) with
                                  | Some v => v | None => [] end).
    replace (match bt_get u64_max (completions p) with
             | Some v => length v | None => 0%nat end) with (length w)
      by (unfold w; destruct (bt_get u64_max (completions p)); done).
    rewrite length_app, Nat.min_l by lia.
    rewrite take_app_length, drop_app_length. split.
    + unfold pending, w.
      pose proof (bt_get_last u64_max (completions p) Hwf) as Hlast.
      destruct (bt_get u64_max (completions p)) as [v|] eqn:Hv.
      * destruct Hlast as (m0 & Hc & Hm0);
          [forall_lia|].
        rewrite Hc. unfold bt_remove. rewrite filter_app, filter_all.
        -- rewrite filter_cons_False by (simpl; tauto).
           rewrite !fmap_app, !concat_app. simpl. by rewrite !app_nil_r.
        -- forall_lia.
      * rewrite app_nil_r, bt_remove_absent; done.
    + destruct new; simpl; [done|]. by rewrite app_nil_r.
  - destruct (requests_split new p ts (desired p) (completions p) [])
      as (later & -> & Hl & Heq); [done|by rewrite app_nil_r|lia|lia| |constructor|].
    { forall_lia. }
    rewrite !filter_app. split.
    + rewrite filter_all, filter_none, app_nil_r; [done|..].
      * forall_lia.
      * forall_lia.
    + rewrite filter_none, filter_all; [done|..].
      * forall_lia.
      * forall_lia.
Qed.

(** A run settles exactly the tickets registered before it began: after any
    requests made while it runs, [mark_settled] gives its snapshot to every earlier
    ticket still held, touches no other ticket, and leaves precisely the new ones
    pending in request order, also when the revision counter is saturated. *)
Lemma run_settles_prior_tickets p ts new s :
  inv p →
  let '(p1, ts1) := requests p ts new in
  let '(p2, ts2) := mark_settled p1 ts1 (begin_run p) s in
  pending p2 = new ∧
  (∀ i, i ∈ pending p → is_Some (ts1 !! i) → ts2 !! i = Some (Some s)) ∧
  (∀ i, i ∉ pending p → ts2 !! i = ts1 !! i).
Proof.
  intros Hp. pose proof (select_after_requests p ts new Hp) as Hsel. simpl in Hsel.
  destruct (requests p ts new) as [p1 ts1]. unfold mark_settled, settle. simpl in *.
  destruct (select_pending _ _ _) as [l later]. destruct Hsel as [-> Hnew].
  split_and!; [done| |]; intros i Hi; rewrite publish_lookup.
  - rewrite decide_True by done. by intros [? ->].
  - by rewrite decide_False.
Qed.

(** Terminal disposal leaves no ticket behind: [finish] resolves every pending
    ticket, including those registered after a saturated run began. *)
Lemma finish_settles_every_ticket p ts s :
  inv p →
  let '(p', ts') := finish p ts s in
  pending p' = [] ∧
  (∀ i, i ∈ pending p → is_Some (ts !! i) → ts' !! i = Some (Some s)).
Proof.
  intros Hp. pose proof Hp as [Hwf Hd Hr]. unfold finish, settle.
  assert (∃ l later, select_pending (completions p) (desired p) None = (l, later) ∧
    concat later.*2 = [] ∧ ∀ i, i ∈ pending p → i ∈ l) as (l & later & -> & Hl & Hin).
  { unfold select_pending. destruct (desired p =? u64_max) eqn:Hmax.
    - eexists _, _. split; [reflexivity|]. split; [done|]. intros i. unfold pending.
      destruct (bt_get u64_max (completions p)) as [v|] eqn:Hv.
      + rewrite (bt_remove_perm _ _ _ Hwf Hv) at 1. csimpl.
        rewrite !elem_of_app. tauto.
      + rewrite bt_remove_absent, app_nil_r; done.
    - eexists _, _. split; [reflexivity|].
      rewrite filter_none, filter_all; [done|..].
      + forall_lia.
      + forall_lia. }
  split; [done|]. intros i Hi [? Hs]. rewrite publish_lookup, decide_True by auto.
  by rewrite Hs.
Qed.
End progress.

(** *** A ledger for the witnesses: three tickets wait, [12] has been dropped *)
Definition sample : t :=
  {| desired := 5; settled := 3; watch := 3; completions := [(4, [10; 11]); (5, [12])] |}.
Definition sample_tickets : gmap Z (option nat) := {[10 := None; 11 := None]}.

Lemma sample_inv : inv sample.
Proof.
  split; [|by vm_compute|].
  - apply bt_wf_cons. split; [by repeat constructor|]. by repeat constructor.
  - repeat constructor; vm_compute; congruence.
Qed.

(** Ticket 13 is requested while the run is in progress and waits for the next one. *)
Lemma run_settles_prior_tickets_witness :
  let '(p1, ts1) := requests sample sample_tickets [13] in
  let '(p2, ts2) := mark_settled p1 ts1 (begin_run sample) 7%nat in
  pending p2 = [13] ∧
  (∀ i, i ∈ pending sample → is_Some (ts1 !! i) → ts2 !! i = Some (Some 7%nat)) ∧
  (∀ i, i ∉ pending sample → ts2 !! i = ts1 !! i).
Proof. apply (run_settles_prior_tickets sample sample_tickets [13] 7%nat), sample_inv. Defined.

Lemma finish_settles_every_ticket_witness :
  let '(p', ts') := finish sample sample_tickets 7%nat in
  pending p' = [] ∧
  (∀ i, i ∈ pending sample → is_Some (sample_tickets !! i) →
        ts' !! i = Some (Some 7%nat)).
Proof. apply (finish_settles_every_ticket sample sample_tickets 7%nat), sample_inv. Defined.
End Progress.
