(* ===== verification/Bytes.v ===== *)
(** * Bytes and fixed-width big-endian integers

    Bytes are integers in [0 .. 255]; [to_be n v] and [from_be l] are the
    [to_be_bytes] and [from_be_bytes] of an [8 n]-bit unsigned integer, [slice a b l]
    is [l[a..b]] within bounds. *)

From S2P Require Import Prelude.

Definition is_byte (b : Z) : Prop := 0 ≤ b < 256.

Fixpoint to_be (n : nat) (v : Z) : list Z :=
  match n with
  | O => []
  | S k => (v / 256 ^ Z.of_nat k) mod 256 :: to_be k v
  end.

Definition from_be (l : list Z) : Z := foldl (λ a b, a * 256 + b) 0 l.

Definition slice {A} (a b : Z) (l : list A) : list A :=
  take (Z.to_nat (b - a)) (drop (Z.to_nat a) l).

(** [l[i]] of a byte slice whose length is already checked. *)
Definition byte_at (i : Z) (l : list Z) : Z := nth (Z.to_nat i) l 0.

Definition fits (n : nat) (v : Z) : Prop := 0 ≤ v < 256 ^ Z.of_nat n.

Lemma length_to_be n v : length (to_be n v) = n.
Proof. induction n; simpl; congruence. Qed.

Lemma pow256_S k : 256 ^ Z.of_nat (S k) = 256 ^ Z.of_nat k * 256.
Proof. rewrite Nat2Z.inj_succ, Z.pow_succ_r by lia. lia. Qed.

Lemma pow256_pos k : 0 < 256 ^ Z.of_nat k.
Proof. apply Z.pow_pos_nonneg; lia. Qed.

Lemma foldl_be a l :
  foldl (λ a b, a * 256 + b) a l = a * 256 ^ len l + from_be l.
Proof.
  unfold from_be. revert a. induction l as [|b l IH]; intros a; simpl.
  { unfold len. simpl. lia. }
  rewrite IH, (IH (0 * 256 + b)). unfold len. simpl length. rewrite pow256_S. nia.
Qed.

Lemma from_be_cons b l : from_be (b :: l) = b * 256 ^ len l + from_be l.
Proof. unfold from_be at 1. simpl. by rewrite foldl_be. Qed.

Lemma from_be_range l : Forall is_byte l → 0 ≤ from_be l < 256 ^ len l.
Proof.
  induction 1 as [|b l Hb Hl IH]; [done|]. rewrite from_be_cons. unfold is_byte in Hb.
  rewrite len_cons, Z.pow_add_r by (auto using len_nonneg with lia || lia).
  pose proof (pow256_pos (length l)). fold (len l) in *. nia.
Qed.

Lemma from_be_to_be_mod n v : from_be (to_be n v) = v mod 256 ^ Z.of_nat n.
Proof.
  induction n as [|k IH]; [by rewrite Z.mod_1_r|]. simpl to_be.
  rewrite from_be_cons, IH. unfold len. rewrite length_to_be, pow256_S.
  pose proof (pow256_pos k).
  rewrite (Z.rem_mul_r v (256 ^ Z.of_nat k) 256) by lia. lia.
Qed.

Lemma from_be_to_be n v : fits n v → from_be (to_be n v) = v.
Proof. intros. rewrite from_be_to_be_mod. by apply Z.mod_small. Qed.

Lemma to_be_shift n c v : to_be n (c * 256 ^ Z.of_nat n + v) = to_be n v.
Proof.
  revert c. induction n as [|k IH]; intros c; [done|]. simpl to_be.
  rewrite pow256_S. pose proof (pow256_pos k).
  replace (c * (256 ^ Z.of_nat k * 256) + v) with (c * 256 * 256 ^ Z.of_nat k + v) by lia.
  rewrite IH. f_equal. rewrite Z.div_add_l by lia.
  rewrite Z.add_comm. by rewrite Z.mod_add by lia.
Qed.

Lemma to_be_from_be l : Forall is_byte l → to_be (length l) (from_be l) = l.
Proof.
  induction 1 as [|b l Hb Hl IH]; [done|]. simpl to_be. rewrite from_be_cons.
  pose proof (from_be_range l Hl). unfold is_byte in Hb. unfold len in *.
  rewrite to_be_shift, IH. f_equal. rewrite Z.div_add_l by lia.
  rewrite (Z.div_small (from_be l)) by lia. rewrite Z.add_0_r. apply Z.mod_small. lia.
Qed.

Lemma to_be_bytes n v : Forall is_byte (to_be n v).
Proof.
  induction n; simpl; constructor; [|done]. unfold is_byte. apply Z.mod_pos_bound. lia.
Qed.

Lemma from_be_fits n l : Forall is_byte l → length l = n → fits n (from_be l).
Proof. intros Hl <-. apply (from_be_range l Hl). Qed.

Lemma slice_app {A} (k l m : list A) a b :
  len k = a → len l = b - a → slice a b (k ++ l ++ m) = l.
Proof.
  unfold slice, len. intros Hk Hl.
  replace (Z.to_nat a) with (length k) by lia.
  replace (Z.to_nat (b - a)) with (length l) by lia.
  by rewrite drop_app_length, take_app_length.
Qed.
