(* ===== verification/SshFrame.v ===== *)
(** * The SSH helper frame codec

    [crates/rsi-ssh/protocol/src/frame.rs]: the 32-byte big-endian header with its
    closed grammar, and the frame that joins a validated header to its body.  Bytes
    are integers in [0 .. 255]. *)

From S2P Require Import Prelude Bytes.

Definition HEADER_BYTES : Z := 32.
Definition MAXIMUM_FRAGMENT_BYTES : Z := 16 * 1024.
Definition MAXIMUM_CONTROL_BYTES : Z := 1024.
Definition MAXIMUM_MESSAGE_BYTES : Z := 2 * 1024 * 1024.
Definition STREAM_WINDOW_FRAMES : Z := 4.
(** [b"RSI\x01"] *)
Definition MAGIC : list Z := [82; 83; 73; 1].

Inductive FrameError := FrameInvalid | FrameEpoch | FrameCapacity.

Inductive FrameKind :=
| Request | Reply | ControlRequest | ControlReply | Data | Credit
| Heartbeat | HeartbeatAck | Close.

#[global] Instance FrameKind_eq_dec : EqDecision FrameKind.
Proof. solve_decision. Defined.

(** The [repr(u8)] discriminants. *)
Definition kind_byte (k : FrameKind) : Z :=
  match k with
  | Request => 1 | Reply => 2 | ControlRequest => 3 | ControlReply => 4 | Data => 5
  | Credit => 6 | Heartbeat => 7 | HeartbeatAck => 8 | Close => 9
  end.

Definition kind_try_from (value : Z) : outcome FrameError FrameKind :=
  if value =? 1 then Ok Request
  else if value =? 2 then Ok Reply
  else if value =? 3 then Ok ControlRequest
  else if value =? 4 then Ok ControlReply
  else if value =? 5 then Ok Data
  else if value =? 6 then Ok Credit
  else if value =? 7 then Ok Heartbeat
  else if value =? 8 then Ok HeartbeatAck
  else if value =? 9 then Ok Close
  else Err FrameInvalid.

Record FrameHeader := {
  epoch : Z;
  kind : FrameKind;
  identity : Z;
  sequence : Z;
  final_fragment : bool;
  body_bytes : Z;
}.

Record Frame := { header : FrameHeader; body : list Z }.

Definition validate (h : FrameHeader) : outcome FrameError unit :=
  if (epoch h =? 0) ||
     negb (eqb (identity h =? 0) (bool_decide (kind h = Close))) then Err FrameInvalid
  else
    let bytes := body_bytes h in
    if MAXIMUM_FRAGMENT_BYTES <? bytes then Err FrameCapacity
    else
      match kind h with
      | Request | Reply =>
          if (bytes =? 0) || (MAXIMUM_MESSAGE_BYTES <=? sequence h) then Err FrameInvalid
          else Ok tt
      | ControlRequest | ControlReply =>
          if MAXIMUM_CONTROL_BYTES <? bytes then Err FrameCapacity
          else if (bytes =? 0) || negb (sequence h =? 0) || negb (final_fragment h)
          then Err FrameInvalid
          else Ok tt
      | Data => if (bytes =? 0) && negb (final_fragment h) then Err FrameInvalid else Ok tt
      | Credit =>
          if negb (bytes =? 4) || (sequence h =? 0) || negb (final_fragment h)
          then Err FrameInvalid
          else Ok tt
      | Heartbeat | HeartbeatAck | Close =>
          if negb (bytes =? 0) || negb (sequence h =? 0) || negb (final_fragment h)
          then Err FrameInvalid
          else Ok tt
      end.

Definition decode (bytes : list Z) (expected_epoch : Z) : outcome FrameError FrameHeader :=
  if negb (len bytes =? HEADER_BYTES) then Err FrameInvalid
  else if negb (bool_decide (slice 0 4 bytes = MAGIC)) || (1 <? byte_at 5 bytes) ||
          negb (bool_decide (slice 6 8 bytes = [0; 0])) then Err FrameInvalid
  else
    let e := from_be (slice 8 16 bytes) in
    if (e =? 0) || negb (e =? expected_epoch) then Err FrameEpoch
    else
      (let? k := kind_try_from (byte_at 4 bytes) in
       let h := {| epoch := e;
                   kind := k;
                   final_fragment := byte_at 5 bytes =? 1;
                   identity := from_be (slice 16 24 bytes);
                   body_bytes := from_be (slice 24 28 bytes);
                   sequence := from_be (slice 28 32 bytes) |} in
       let? _ := validate h in
       Ok h)%outcome.

Definition with_body (h : FrameHeader) (bytes : list Z) : outcome FrameError Frame :=
  if negb (len bytes =? body_bytes h) then Err FrameInvalid
  else if bool_decide (kind h = Credit) then
    if negb (len bytes =? 4) then Err FrameInvalid
    else
      let credits := from_be bytes in
      if negb ((1 <=? credits) && (credits <=? STREAM_WINDOW_FRAMES)) then Err FrameInvalid
      else Ok {| header := h; body := bytes |}
  else Ok {| header := h; body := bytes |}.

Definition encode (h : FrameHeader) : list Z :=
  MAGIC ++ [kind_byte (kind h); Z.b2z (final_fragment h); 0; 0]
    ++ to_be 8 (epoch h) ++ to_be 8 (identity h)
    ++ to_be 4 (body_bytes h) ++ to_be 4 (sequence h).

(** [Frame::new] *)
Definition frame_new (e : Z) (k : FrameKind) (i s : Z) (f : bool) (bytes : list Z)
  : outcome FrameError Frame :=
  (let? n := (if len bytes <=? u32_max then Ok (len bytes) else Err FrameCapacity) in
   let h := {| epoch := e; kind := k; identity := i; sequence := s;
               final_fragment := f; body_bytes := n |} in
   let? _ := validate h in
   with_body h bytes)%outcome.

Definition encode_header (f : Frame) (expected_epoch : Z) : outcome FrameError (list Z) :=
  if negb (epoch (header f) =? expected_epoch) then Err FrameEpoch
  else Ok (encode (header f)).

(** ** The wire grammar, kind by kind *)

(** The combinations of sequence, final flag and body that each kind admits. *)
Definition shape_ok (k : FrameKind) (s : Z) (f : bool) (bytes : list Z) : Prop :=
  match k with
  | Request | Reply =>
      bytes ≠ [] ∧ len bytes ≤ MAXIMUM_FRAGMENT_BYTES ∧ s < MAXIMUM_MESSAGE_BYTES
  | ControlRequest | ControlReply =>
      bytes ≠ [] ∧ len bytes ≤ MAXIMUM_CONTROL_BYTES ∧ s = 0 ∧ f = true
  | Data => (bytes = [] → f = true) ∧ len bytes ≤ MAXIMUM_FRAGMENT_BYTES
  | Credit =>
      len bytes = 4 ∧ 1 ≤ from_be bytes ≤ STREAM_WINDOW_FRAMES ∧ s ≠ 0 ∧ f = true
  | Heartbeat | HeartbeatAck | Close => bytes = [] ∧ s = 0 ∧ f = true
  end.

Definition grammar (e : Z) (k : FrameKind) (i s : Z) (f : bool) (bytes : list Z) : Prop :=
  e ≠ 0 ∧ (i = 0 ↔ k = Close) ∧ shape_ok k s f bytes.

(** Header fields at the widths of the struct. *)
Definition header_fits (h : FrameHeader) : Prop :=
  fits 8 (epoch h) ∧ fits 8 (identity h) ∧ fits 4 (sequence h) ∧ fits 4 (body_bytes h).

Lemma kind_round_trip k : kind_try_from (kind_byte k) = Ok k.
Proof. by destruct k. Qed.

Lemma kind_byte_of v k : kind_try_from v = Ok k → v = kind_byte k.
Proof. unfold kind_try_from. intros. repeat case_match; simplify_eq; simpl; lia. Qed.

Lemma length_encode h : length (encode h) = 32%nat.
Proof. unfold encode. rewrite !length_app, !length_to_be. done. Qed.

Lemma len_zero_nil {A} (l : list A) : len l = 0 ↔ l = [].
Proof. unfold len. destruct l; simpl; split; intros; try done; lia. Qed.

Lemma validate_ok h :
  validate h = Ok tt ↔
    epoch h ≠ 0 ∧ (identity h = 0 ↔ kind h = Close) ∧
    body_bytes h ≤ MAXIMUM_FRAGMENT_BYTES ∧
    match kind h with
    | Request | Reply => body_bytes h ≠ 0 ∧ sequence h < MAXIMUM_MESSAGE_BYTES
    | ControlRequest | ControlReply =>
        body_bytes h ≠ 0 ∧ body_bytes h ≤ MAXIMUM_CONTROL_BYTES ∧
        sequence h = 0 ∧ final_fragment h = true
    | Data => body_bytes h = 0 → final_fragment h = true
    | Credit => body_bytes h = 4 ∧ sequence h ≠ 0 ∧ final_fragment h = true
    | Heartbeat | HeartbeatAck | Close =>
        body_bytes h = 0 ∧ sequence h = 0 ∧ final_fragment h = true
    end.
Proof.
  unfold validate. case_match eqn:Hguard.
  { split; [done|]. intros (He & Hi & _). exfalso.
    apply orb_true_iff in Hguard as [|Hn]; [lia|].
    apply negb_true_iff, eqb_false_iff in Hn. apply Hn.
    case_bool_decide as Hk; [apply Z.eqb_eq|apply Z.eqb_neq]; tauto. }
  apply orb_false_iff in Hguard as [He Hn].
  apply negb_false_iff, eqb_prop in Hn.
  assert (identity h = 0 ↔ kind h = Close) as Hi.
  { rewrite <- Z.eqb_eq, Hn. apply bool_decide_eq_true. }
  assert (epoch h ≠ 0) by lia.
  destruct (final_fragment h), (kind h); repeat case_match; split;
    intros Hv; try discriminate Hv; try (split_and!; try done; lia);
    destruct Hv as (_ & _ & ? & Hv); try (exfalso; lia); try done; naive_solver lia.
Qed.

Lemma with_body_ok h bytes fr :
  with_body h bytes = Ok fr ↔
    len bytes = body_bytes h ∧ fr = {| header := h; body := bytes |} ∧
    (kind h = Credit → len bytes = 4 ∧ 1 ≤ from_be bytes ≤ STREAM_WINDOW_FRAMES).
Proof.
  unfold with_body. case_bool_decide; repeat case_match; split; intros Hv;
    simplify_eq; try (split_and!; intros; try done; lia);
    destruct Hv as (? & ? & Hc); try lia; subst; try done; naive_solver lia.
Qed.

Lemma bind_validate {A} h (k : outcome FrameError A) r :
  obind (validate h) (λ _, k) = Ok r ↔ validate h = Ok tt ∧ k = Ok r.
Proof.
  rewrite obind_ok. split; [intros ([] & ? & ?); done|]. intros []. by exists tt.
Qed.

Lemma shape_len k s f bytes : shape_ok k s f bytes → len bytes ≤ MAXIMUM_FRAGMENT_BYTES.
Proof.
  unfold MAXIMUM_FRAGMENT_BYTES. pose proof (len_zero_nil bytes).
  destruct k; simpl; unfold MAXIMUM_FRAGMENT_BYTES, MAXIMUM_CONTROL_BYTES;
    naive_solver lia.
Qed.

Lemma frame_new_ok e k i s f bytes fr :
  frame_new e k i s f bytes = Ok fr ↔
    fr = {| header := {| epoch := e; kind := k; identity := i; sequence := s;
                         final_fragment := f; body_bytes := len bytes |};
            body := bytes |} ∧
    grammar e k i s f bytes.
Proof.
  unfold frame_new, grammar.
  destruct (len bytes <=? u32_max) eqn:Hlen; cbn [obind].
  - rewrite bind_validate, validate_ok, with_body_ok. simpl. pose proof (len_nonneg bytes).
    pose proof (len_zero_nil bytes) as Hnil. split.
    + intros ((? & ? & ? & Hk) & _ & -> & Hc). split_and!; [done..|].
      destruct k; simpl; naive_solver lia.
    + intros (-> & ? & ? & Hk). pose proof (shape_len _ _ _ _ Hk).
      split_and!; [done|done|done|destruct k; simpl in Hk; naive_solver lia|done|done|].
      intros ->. simpl in Hk. naive_solver lia.
  - split; [done|]. intros (_ & _ & _ & Hk%shape_len). exfalso.
    unfold u32_max, MAXIMUM_FRAGMENT_BYTES in *. lia.
Qed.

Lemma validate_err_free h : validate h ≠ Panic.
Proof. unfold validate. by repeat case_match. Qed.

Lemma encode_slices h :
  let b := encode h in
  slice 0 4 b = MAGIC ∧ byte_at 4 b = kind_byte (kind h) ∧
  byte_at 5 b = Z.b2z (final_fragment h) ∧ slice 6 8 b = [0; 0] ∧
  slice 8 16 b = to_be 8 (epoch h) ∧ slice 16 24 b = to_be 8 (identity h) ∧
  slice 24 28 b = to_be 4 (body_bytes h) ∧ slice 28 32 b = to_be 4 (sequence h).
Proof. intros b. split_and!; reflexivity. Qed.

Lemma decode_encode h :
  header_fits h → validate h = Ok tt → decode (encode h) (epoch h) = Ok h.
Proof.
  intros (He & Hi & Hs & Hb) Hv. unfold decode.
  pose proof (encode_slices h) as (H1 & H2 & H3 & H4 & H5 & H6 & H7 & H8).
  rewrite H1, H2, H3, H4, H5, H6, H7, H8, !from_be_to_be, kind_round_trip by done.
  unfold len. rewrite length_encode, !bool_decide_eq_true_2 by done.
  pose proof Hv as (He0 & _)%validate_ok.
  replace (epoch h =? 0) with false by lia.
  assert (∀ b : bool, (Z.b2z b =? 1) = b ∧ (1 <? Z.b2z b) = false) as Hb2z by by intros [].
  destruct (Hb2z (final_fragment h)) as [-> ->]. rewrite !Z.eqb_refl. cbn [negb orb obind].
  apply bind_validate. by destruct h.
Qed.

(** The sending boundary builds exactly the closed grammar: [Frame::new] succeeds
    on the frames whose epoch, identity, sequence, final flag and body are legal for
    their kind, and returns the header with the body's length. *)
Lemma frame_new_exact e k i s f bytes :
  (∃ fr, frame_new e k i s f bytes = Ok fr) ↔ grammar e k i s f bytes.
Proof.
  split; [by intros [fr [_ Hg]%frame_new_ok]|].
  intros Hg. eexists. apply frame_new_ok. done.
Qed.

(** C39: every frame built by the sender survives the wire: its 32 header bytes decode at
    the same epoch to the same header, which accepts the body and nothing else is lost. *)
Theorem frame_round_trip e k i s f bytes fr :
  fits 8 e → fits 8 i → fits 4 s →
  frame_new e k i s f bytes = Ok fr →
  ∃ wire, encode_header fr e = Ok wire ∧ len wire = HEADER_BYTES ∧
    (let? h := decode wire e in with_body h bytes)%outcome = Ok fr.
Proof.
  intros He Hi Hs Hnew. pose proof Hnew as [-> Hg]%frame_new_ok.
  pose proof Hg as (_ & _ & Hshape%shape_len).
  unfold encode_header. simpl. rewrite Z.eqb_refl. simpl.
  eexists. split; [reflexivity|]. split; [unfold len; by rewrite length_encode|].
  set (h := {| epoch := e |}) in *.
  unfold frame_new in Hnew. destruct (len bytes <=? u32_max); [|done].
  cbn [obind] in Hnew. fold h in Hnew. apply bind_validate in Hnew as [Hv Hb].
  rewrite decode_encode; [exact Hb| |done].
  unfold header_fits, h. simpl. split_and!; [done..|].
  unfold fits, MAXIMUM_FRAGMENT_BYTES in *. pose proof (len_nonneg bytes). simpl. lia.
Qed.

Lemma header_slices (b : list Z) :
  length b = 32%nat →
  b = slice 0 4 b ++ [byte_at 4 b; byte_at 5 b] ++ slice 6 8 b ++ slice 8 16 b
        ++ slice 16 24 b ++ slice 24 28 b ++ slice 28 32 b.
Proof. intros Hl. do 32 (destruct b as [|? b]; [done|]). by destruct b. Qed.

Lemma length_slice {A} a b (l : list A) :
  0 ≤ a ≤ b → b ≤ len l → length (slice a b l) = Z.to_nat (b - a).
Proof. unfold slice, len. intros. rewrite length_take, length_drop. lia. Qed.

Lemma slice_bytes a b l : Forall is_byte l → Forall is_byte (slice a b l).
Proof. intros. by apply Forall_take, Forall_drop. Qed.

Lemma slice_to_be n a b l :
  Forall is_byte l → 0 ≤ a ≤ b → b ≤ len l → n = Z.to_nat (b - a) →
  to_be n (from_be (slice a b l)) = slice a b l ∧ fits n (from_be (slice a b l)).
Proof.
  intros Hl Hab Hb ->. rewrite <- (length_slice a b l Hab Hb).
  split; [apply to_be_from_be|apply from_be_fits]; auto using slice_bytes.
Qed.

Lemma encode_of_decode bytes e h :
  Forall is_byte bytes → decode bytes e = Ok h →
  encode h = bytes ∧ epoch h = e ∧ validate h = Ok tt ∧ header_fits h.
Proof.
  intros Hbytes. unfold decode. case_match eqn:Hlen; [done|].
  apply negb_false_iff in Hlen. unfold HEADER_BYTES in Hlen.
  assert (len bytes = 32) as Hl by lia. clear Hlen.
  case_match eqn:Hg; [done|]. apply orb_false_iff in Hg as [[Hm H5]%orb_false_iff H6].
  apply negb_false_iff, bool_decide_eq_true in Hm, H6.
  case_match eqn:He; [done|]. intros (k & Hk & Hv)%obind_ok.
  apply bind_validate in Hv as [Hv Hh]. injection Hh as <-. simpl.
  destruct (slice_to_be 8 8 16 bytes) as [E1 F1]; [done|lia|lia|done|].
  destruct (slice_to_be 8 16 24 bytes) as [E2 F2]; [done|lia|lia|done|].
  destruct (slice_to_be 4 24 28 bytes) as [E3 F3]; [done|lia|lia|done|].
  destruct (slice_to_be 4 28 32 bytes) as [E4 F4]; [done|lia|lia|done|].
  split_and!; [|lia|done|by split_and!].
  assert (is_byte (byte_at 5 bytes)) as H5b.
  { unfold byte_at. apply Forall_nth; [done|]. unfold len in Hl. lia. }
  rewrite (header_slices bytes) at 6 by (unfold len in Hl; lia).
  unfold encode. simpl kind. simpl final_fragment. cbn [epoch identity sequence body_bytes].
  rewrite E1, E2, E3, E4, Hm, H6, <- (kind_byte_of _ _ Hk).
  assert (Z.b2z (byte_at 5 bytes =? 1) = byte_at 5 bytes) as ->; [|done].
  unfold is_byte in H5b. destruct (byte_at 5 bytes =? 1) eqn:?; simpl; lia.
Qed.

(** Decoding is the exact inverse of encoding on every byte string: whatever header
    and body the receiver accepts at its epoch, the sender's constructor accepts with
    the same result, and re-encoding gives the received header bytes back; so each
    frame has one wire form and every accepted frame satisfies the sender's grammar. *)
Lemma frame_decode_canonical wire e h bytes fr :
  Forall is_byte wire → decode wire e = Ok h → with_body h bytes = Ok fr →
  frame_new e (kind h) (identity h) (sequence h) (final_fragment h) bytes = Ok fr ∧
  encode_header fr e = Ok wire.
Proof.
  intros Hw Hd Hb. destruct (encode_of_decode _ _ _ Hw Hd) as (Henc & <- & Hv & Hfit).
  pose proof Hb as (Hlen & -> & _)%with_body_ok.
  pose proof Hv as (_ & _ & Hmax & _)%validate_ok.
  unfold encode_header. simpl. rewrite Z.eqb_refl, Henc. simpl. split; [|done].
  unfold frame_new. replace (len bytes <=? u32_max) with true
    by (unfold u32_max, MAXIMUM_FRAGMENT_BYTES in *; lia).
  cbn [obind]. rewrite Hlen. apply bind_validate. by destruct h.
Qed.

(** ** Witnesses: the reviewed request frame of the protocol's own test *)
Definition sample_wire : list Z :=
  [82; 83; 73; 1; 1; 1; 0; 0; 0; 0; 0; 0; 0; 0; 0; 9; 0; 0; 0; 0; 0; 0; 0; 12;
   0; 0; 0; 2; 0; 0; 0; 0].
Definition sample_header : FrameHeader :=
  {| epoch := 9; kind := Request; identity := 12; sequence := 0;
     final_fragment := true; body_bytes := 2 |}.
Definition sample_frame : Frame := {| header := sample_header; body := [123; 125] |}.

Lemma frame_round_trip_witness :
  ∃ wire, encode_header sample_frame 9 = Ok wire ∧ len wire = HEADER_BYTES ∧
    (let? h := decode wire 9 in with_body h [123; 125])%outcome = Ok sample_frame.
Proof.
  apply (frame_round_trip 9 Request 12 0 true [123; 125]); [..|by vm_compute];
    unfold fits; simpl; lia.
Defined.

Lemma frame_decode_canonical_witness :
  frame_new 9 Request 12 0 true [123; 125] = Ok sample_frame ∧
  encode_header sample_frame 9 = Ok sample_wire.
Proof.
  apply (frame_decode_canonical sample_wire 9 sample_header [123; 125] sample_frame).
  - unfold is_byte. repeat constructor; lia.
  - by vm_compute.
  - by vm_compute.
Defined.
