(* ===== verification/SshStream.v ===== *)
(** * Credit flow control of SSH helper streams

    [crates/rsi-ssh/transport/src/stream.rs] with the [Error] of [lib.rs]: stream
    identities, the sending and receiving directions of a slot, and the handlers that
    emit and accept data and credit frames.  Every handler returns the slot it leaves,
    also on its error paths.  The file then joins a sender and a receiver by two
    ordered wires and proves that an honest peer is never refused. *)

From S2P Require Import Prelude Bytes SshFrame.

Inductive Error := Closed | OutcomeUnknown | Capacity | Invalid.

(** [impl From<FrameError> for Error], applied by the [?] operator. *)
Definition error_from (e : FrameError) : Error :=
  match e with FrameCapacity => Capacity | FrameEpoch | FrameInvalid => Invalid end.

Definition lift {A} (m : outcome FrameError A) : outcome Error A :=
  match m with Ok a => Ok a | Err e => Err (error_from e) | Panic => Panic end.

(** ** Stream identities: 58 bits of generation above 6 bits of slot *)
Definition STREAMS : Z := 64.

Definition stream_from_raw (value : Z) : outcome Error Z :=
  if Z.shiftr value 6 =? 0 then Err Invalid else Ok value.

Definition stream_new (slot gen : Z) : outcome Error Z :=
  if (STREAMS <=? slot) || (gen =? 0) || (Z.shiftr u64_max 6 <? gen) then Err Invalid
  else Ok (Z.lor (Z.shiftl gen 6) slot).

Definition stream_slot (id : Z) : Z := Z.land id 63.
Definition stream_generation (id : Z) : Z := Z.shiftr id 6.

(** ** Slots *)
Record StreamChunk := { chunk_bytes : list Z; chunk_eof : bool }.

Record Tx := {
  tx_id : Z;
  tx_queue : list (Z * StreamChunk);
  tx_next_data : Z;
  tx_next_credit : Z;
  tx_credits : Z;
  tx_debt : Z;
  tx_eof : bool;
}.

Record Rx := {
  rx_id : Z;
  rx_queue : list StreamChunk;
  rx_next_data : Z;
  rx_next_credit : Z;
  rx_credits : Z;
  rx_pending_credit : Z;
  rx_eof_received : bool;
  rx_eof_delivered : bool;
}.

Inductive Direction := Send (tx : Tx) | Receive (rx : Rx).

Record Slot := { generation : Z; active : option Direction }.

Definition slot_default : Slot := {| generation := 0; active := None |}.

Definition set_active (s : Slot) (d : Direction) : Slot :=
  {| generation := generation s; active := Some d |}.

Definition credit_frame (e : Z) (s : Slot) : Slot * outcome Error (option Frame) :=
  match active s with
  | Some (Receive rx) =>
      if rx_pending_credit rx =? 0 then (s, Ok None)
      else
        match checked_add u32_max (rx_next_credit rx) 1 with
        | None => (s, Err Capacity)
        | Some next_credit =>
            match lift (frame_new e Credit (rx_id rx) (rx_next_credit rx) true
                          (to_be 4 (rx_pending_credit rx))) with
            | Ok frame =>
                (set_active s (Receive
                   {| rx_id := rx_id rx; rx_queue := rx_queue rx;
                      rx_next_data := rx_next_data rx;
                      rx_next_credit := next_credit;
                      rx_credits := rx_credits rx + rx_pending_credit rx;
                      rx_pending_credit := 0;
                      rx_eof_received := rx_eof_received rx;
                      rx_eof_delivered := rx_eof_delivered rx |}),
                 Ok (Some frame))
            | Err e => (s, Err e)
            | Panic => (s, Panic)
            end
        end
  | _ => (s, Ok None)
  end.

Definition data_frame (e : Z) (s : Slot) : Slot * outcome Error (option Frame) :=
  match active s with
  | Some (Send tx) =>
      match tx_queue tx with
      | [] => (s, Ok None)
      | (seq, chunk) :: queue =>
          (set_active s (Send
             {| tx_id := tx_id tx; tx_queue := queue; tx_next_data := tx_next_data tx;
                tx_next_credit := tx_next_credit tx; tx_credits := tx_credits tx;
                tx_debt := tx_debt tx + 1; tx_eof := tx_eof tx |}),
           match lift (frame_new e Data (tx_id tx) seq (chunk_eof chunk)
                         (chunk_bytes chunk)) with
           | Ok frame => Ok (Some frame)
           | Err e => Err e
           | Panic => Panic
           end)
      end
  | _ => (s, Ok None)
  end.

Definition matching (s : Slot) (id : Z) : outcome Error Direction :=
  if negb (generation s =? stream_generation id) then Err Invalid
  else ok_or (active s) Invalid.

(** A credit grant accepted by the sending direction. *)
Definition accept_credit (tx : Tx) (frame : Frame) : Tx * outcome Error unit :=
  if negb (len (body frame) =? 4) then (tx, Err Invalid)
  else
    let grant := from_be (body frame) in
    if negb (sequence (header frame) =? tx_next_credit tx) then (tx, Err Invalid)
    else if (tx_next_credit tx =? 1) && negb (grant =? STREAM_WINDOW_FRAMES)
    then (tx, Err Invalid)
    else if negb (tx_next_credit tx =? 1) && (tx_debt tx <? grant) then (tx, Err Invalid)
    else
      let debt := if tx_next_credit tx =? 1 then tx_debt tx else tx_debt tx - grant in
      let tx1 := {| tx_id := tx_id tx; tx_queue := tx_queue tx;
                    tx_next_data := tx_next_data tx; tx_next_credit := tx_next_credit tx;
                    tx_credits := tx_credits tx; tx_debt := debt; tx_eof := tx_eof tx |} in
      if STREAM_WINDOW_FRAMES <? tx_credits tx + grant then (tx1, Err Invalid)
      else
        match checked_add u32_max (tx_next_credit tx) 1 with
        | None => (tx1, Err Capacity)
        | Some next =>
            ({| tx_id := tx_id tx; tx_queue := tx_queue tx;
                tx_next_data := tx_next_data tx; tx_next_credit := next;
                tx_credits := tx_credits tx + grant; tx_debt := debt;
                tx_eof := tx_eof tx |}, Ok tt)
        end.

(** A data frame accepted by the receiving direction. *)
Definition accept_data (rx : Rx) (frame : Frame) : Rx * outcome Error unit :=
  let h := header frame in
  if rx_eof_received rx || (rx_credits rx =? 0) ||
     negb (sequence h =? rx_next_data rx) ||
     (STREAM_WINDOW_FRAMES <=? len (rx_queue rx)) then (rx, Err Invalid)
  else
    match checked_add u32_max (rx_next_data rx) 1 with
    | None => (rx, Err Capacity)
    | Some next =>
        ({| rx_id := rx_id rx;
            rx_queue := rx_queue rx ++
              [{| chunk_bytes := body frame; chunk_eof := final_fragment h |}];
            rx_next_data := next; rx_next_credit := rx_next_credit rx;
            rx_credits := rx_credits rx - 1; rx_pending_credit := rx_pending_credit rx;
            rx_eof_received := final_fragment h;
            rx_eof_delivered := rx_eof_delivered rx |}, Ok tt)
    end.

(** [Slot::accept]; frames of an earlier or retired generation are ignored. *)
Definition accept (s : Slot) (frame : Frame) : Slot * outcome Error unit :=
  match stream_from_raw (identity (header frame)) with
  | Err e => (s, Err e)
  | Panic => (s, Panic)
  | Ok id =>
      if (stream_generation id <? generation s) ||
         ((stream_generation id =? generation s) &&
          bool_decide (active s = None)) then (s, Ok tt)
      else
        match matching s id with
        | Err e => (s, Err e)
        | Panic => (s, Panic)
        | Ok (Send tx) =>
            match kind (header frame) with
            | Credit => let '(tx', r) := accept_credit tx frame in (set_active s (Send tx'), r)
            | _ => (s, Err Invalid)
            end
        | Ok (Receive rx) =>
            match kind (header frame) with
            | Data => let '(rx', r) := accept_data rx frame in (set_active s (Receive rx'), r)
            | _ => (s, Err Invalid)
            end
        end
  end.

Definition tx_new (id : Z) : Tx :=
  {| tx_id := id; tx_queue := []; tx_next_data := 0; tx_next_credit := 1;
     tx_credits := 0; tx_debt := 0; tx_eof := false |}.

Definition rx_new (id : Z) : Rx :=
  {| rx_id := id; rx_queue := []; rx_next_data := 0; rx_next_credit := 1; rx_credits := 0;
     rx_pending_credit := STREAM_WINDOW_FRAMES; rx_eof_received := false;
     rx_eof_delivered := false |}.

(** The slot part of [Connection::register_stream], after [ensure_open]. *)
Definition register_slot (s : Slot) (id : Z) (d : Direction) : Slot * outcome Error unit :=
  if stream_generation id <=? generation s then (s, Err Invalid)
  else
    match active s with
    | Some _ => (s, Err Capacity)
    | None => ({| generation := stream_generation id; active := Some d |}, Ok tt)
    end.

(** The slot part of [Connection::retire_stream]. *)
Definition retire_slot (s : Slot) (id : Z) : Slot * outcome Error unit :=
  match matching s id with
  | Ok _ => ({| generation := generation s; active := None |}, Ok tt)
  | Err e => (s, Err e)
  | Panic => (s, Panic)
  end.

(** One pass of the loop of [SendStream::send] or [ReceiveStream::next]: either it
    returns, or it waits for the next change. *)
Inductive polled (A : Type) := Ready (a : A) | Waiting.
Arguments Ready {A} a.
Arguments Waiting {A}.

Definition send_checks (bytes : list Z) (eof : bool) : outcome Error unit :=
  if MAXIMUM_FRAGMENT_BYTES <? len bytes then Err Capacity
  else if (len bytes =? 0) && negb eof then Err Invalid
  else Ok tt.

Definition send_poll (s : Slot) (id : Z) (bytes : list Z) (eof : bool)
  : Slot * outcome Error (polled unit) :=
  match matching s id with
  | Err e => (s, Err e)
  | Panic => (s, Panic)
  | Ok (Receive _) => (s, Err Invalid)
  | Ok (Send tx) =>
      if tx_eof tx then (s, Err Invalid)
      else if 0 <? tx_credits tx then
        match checked_add u32_max (tx_next_data tx) 1 with
        | None => (s, Err Capacity)
        | Some next =>
            (set_active s (Send
               {| tx_id := tx_id tx;
                  tx_queue := tx_queue tx ++
                    [(tx_next_data tx, {| chunk_bytes := bytes; chunk_eof := eof |})];
                  tx_next_data := next; tx_next_credit := tx_next_credit tx;
                  tx_credits := tx_credits tx - 1; tx_debt := tx_debt tx;
                  tx_eof := eof |}), Ok (Ready tt))
        end
      else (s, Ok Waiting)
  end.

Definition next_poll (s : Slot) (id : Z)
  : Slot * outcome Error (polled (option StreamChunk)) :=
  match matching s id with
  | Err e => (s, Err e)
  | Panic => (s, Panic)
  | Ok (Send _) => (s, Err Invalid)
  | Ok (Receive rx) =>
      match rx_queue rx with
      | chunk :: queue =>
          (set_active s (Receive
             {| rx_id := rx_id rx; rx_queue := queue; rx_next_data := rx_next_data rx;
                rx_next_credit := rx_next_credit rx; rx_credits := rx_credits rx;
                rx_pending_credit :=
                  if rx_eof_received rx then rx_pending_credit rx
                  else rx_pending_credit rx + 1;
                rx_eof_received := rx_eof_received rx;
                rx_eof_delivered := chunk_eof chunk |}),
           Ok (Ready (Some chunk)))
      | [] => if rx_eof_delivered rx then (s, Ok (Ready None)) else (s, Ok Waiting)
      end
  end.

(** ** A sender and a receiver joined by two ordered wires

    The wires carry the frames that the writers have emitted and the peers have not
    yet accepted; [sent] and [got] record what the applications exchanged. *)
Record link := {
  sender : Slot;
  receiver : Slot;
  data_wire : list Frame;
  credit_wire : list Frame;
  sent : list StreamChunk;
  got : list StreamChunk;
}.

Definition link_open (id : Z) (l : link) : Prop :=
  (∃ s r, 0 ≤ generation s ∧ 0 ≤ generation r ∧
          register_slot s id (Send (tx_new id)) = (sender l, Ok tt) ∧
          register_slot r id (Receive (rx_new id)) = (receiver l, Ok tt)) ∧
  data_wire l = [] ∧ credit_wire l = [] ∧ sent l = [] ∧ got l = [].

Inductive link_step (e id : Z) : link → link → Prop :=
| link_send l s bytes eof :
    send_checks bytes eof = Ok tt →
    send_poll (sender l) id bytes eof = (s, Ok (Ready tt)) →
    link_step e id l
      {| sender := s; receiver := receiver l; data_wire := data_wire l; credit_wire := credit_wire l;
         sent := sent l ++ [{| chunk_bytes := bytes; chunk_eof := eof |}]; got := got l |}
| link_emit_data l s f :
    data_frame e (sender l) = (s, Ok (Some f)) →
    link_step e id l
      {| sender := s; receiver := receiver l; data_wire := data_wire l ++ [f];
         credit_wire := credit_wire l; sent := sent l; got := got l |}
| link_emit_credit l r f :
    credit_frame e (receiver l) = (r, Ok (Some f)) →
    link_step e id l
      {| sender := sender l; receiver := r; data_wire := data_wire l;
         credit_wire := credit_wire l ++ [f]; sent := sent l; got := got l |}
| link_accept_data l r f w :
    data_wire l = f :: w → accept (receiver l) f = (r, Ok tt) →
    link_step e id l
      {| sender := sender l; receiver := r; data_wire := w; credit_wire := credit_wire l;
         sent := sent l; got := got l |}
| link_accept_credit l s f w :
    credit_wire l = f :: w → accept (sender l) f = (s, Ok tt) →
    link_step e id l
      {| sender := s; receiver := receiver l; data_wire := data_wire l; credit_wire := w;
         sent := sent l; got := got l |}
| link_next l r chunk :
    next_poll (receiver l) id = (r, Ok (Ready (Some chunk))) →
    link_step e id l
      {| sender := sender l; receiver := r; data_wire := data_wire l; credit_wire := credit_wire l;
         sent := sent l; got := got l ++ [chunk] |}.

Definition link_reachable (e id : Z) (l : link) : Prop :=
  ∃ l0, link_open id l0 ∧ rtc (link_step e id) l0 l.

(** ** The invariant of the link *)

Definition chunk_ok (c : StreamChunk) : Prop := send_checks (chunk_bytes c) (chunk_eof c) = Ok tt.

Definition data_of (e id : Z) (q : Z * StreamChunk) : Frame :=
  {| header := {| epoch := e; kind := Data; identity := id; sequence := q.1;
                  final_fragment := chunk_eof q.2; body_bytes := len (chunk_bytes q.2) |};
     body := chunk_bytes q.2 |}.

Definition credit_of (e id : Z) (q : Z * Z) : Frame :=
  {| header := {| epoch := e; kind := Credit; identity := id; sequence := q.1;
                  final_fragment := true; body_bytes := 4 |};
     body := to_be 4 q.2 |}.

(** Consecutive sequence numbers from [n] up to [m]. *)
Fixpoint consecutive {A} (n m : Z) (l : list (Z * A)) : Prop :=
  match l with
  | [] => n = m
  | q :: r => q.1 = n ∧ consecutive (n + 1) m r
  end.

(** The end-of-stream flag is on the last chunk, if anywhere. *)
Fixpoint eof_last (l : list StreamChunk) (eof : bool) : Prop :=
  match l with
  | [] => eof = false
  | [c] => chunk_eof c = eof
  | c :: r => chunk_eof c = false ∧ eof_last r eof
  end.

Section link.
Context (e id : Z).
Hypothesis epoch_nonzero : e ≠ 0.

Record link_inv (l : link) (tx : Tx) (rx : Rx) (D : list (Z * StreamChunk))
    (G : list (Z * Z)) (lost : Z) : Prop := {
  li_gen : 0 < stream_generation id;
  li_snd : sender l = {| generation := stream_generation id; active := Some (Send tx) |};
  li_rcv : receiver l = {| generation := stream_generation id; active := Some (Receive rx) |};
  li_ids : tx_id tx = id ∧ rx_id rx = id;
  li_data : data_wire l = data_of e id <$> D;
  li_credit : credit_wire l = credit_of e id <$> G;
  li_data_seq : consecutive (rx_next_data rx) (tx_next_data tx) (D ++ tx_queue tx);
  li_data_range : 0 ≤ rx_next_data rx ∧ tx_next_data tx ≤ u32_max;
  li_credit_seq : consecutive (tx_next_credit tx) (rx_next_credit rx) G;
  li_credit_range : 1 ≤ tx_next_credit tx ∧ rx_next_credit rx ≤ u32_max;
  li_chunks : Forall (λ q, chunk_ok q.2) (D ++ tx_queue tx);
  li_grants : Forall (λ q, 1 ≤ q.2 ≤ STREAM_WINDOW_FRAMES) G;
  li_window : tx_credits tx + len (tx_queue tx) + len D + len (rx_queue rx)
              + rx_pending_credit rx + zsum G.*2 + lost = STREAM_WINDOW_FRAMES;
  li_rx_credits : rx_credits rx = tx_credits tx + len (tx_queue tx) + len D + zsum G.*2;
  li_debt : tx_debt tx + len (tx_queue tx) + tx_credits tx
            = if tx_next_credit tx =? 1 then 0 else STREAM_WINDOW_FRAMES;
  li_initial : tx_next_credit tx = 1 →
               (G = [] ∧ rx_pending_credit rx = STREAM_WINDOW_FRAMES) ∨
               G = [(1, STREAM_WINDOW_FRAMES)];
  li_nonneg : 0 ≤ tx_credits tx ∧ 0 ≤ tx_debt tx ∧ 0 ≤ rx_pending_credit rx ∧ 0 ≤ lost;
  li_eof : if rx_eof_received rx then D ++ tx_queue tx = [] ∧ tx_eof tx = true
           else lost = 0 ∧ eof_last (D ++ tx_queue tx).*2 (tx_eof tx);
  li_sent_eof : eof_last (sent l) (tx_eof tx);
  li_count : tx_next_data tx = len (sent l);
  li_order : sent l = got l ++ rx_queue rx ++ (D ++ tx_queue tx).*2;
}.

Definition link_ok (l : link) : Prop := ∃ tx rx D G lost, link_inv l tx rx D G lost.

Lemma consecutive_snoc {A} n m (l : list (Z * A)) a :
  consecutive n m l → consecutive n (m + 1) (l ++ [(m, a)]).
Proof. revert n. induction l as [|q l IH]; intros n; simpl; [intros ->; done|naive_solver]. Qed.

Lemma consecutive_len {A} n m (l : list (Z * A)) : consecutive n m l → m = n + len l.
Proof.
  revert n. induction l as [|q l IH]; intros n; simpl; [rewrite len_nil; lia|].
  rewrite len_cons. intros [? ?%IH]. lia.
Qed.

Lemma eof_last_snoc l c : eof_last l false → eof_last (l ++ [c]) (chunk_eof c).
Proof.
  induction l as [|c0 l IH]; [done|]. simpl.
  destruct l as [|c1 l]; simpl in *; [intros; by split|].
  intros [? H]. split; [done|]. by apply IH.
Qed.

Lemma eof_last_cons c l eof :
  eof_last (c :: l) eof →
  if chunk_eof c then l = [] ∧ eof = true else eof_last l eof.
Proof.
  destruct l as [|c1 l]; cbn [eof_last].
  - intros <-. by destruct (chunk_eof c).
  - by intros [-> ?].
Qed.

Lemma eof_last_none l eof :
  eof_last l eof → Forall (λ c, chunk_eof c = false) l → eof = false.
Proof.
  induction l as [|c l IH]; intros Hl HF; [done|].
  apply eof_last_cons in Hl. apply Forall_cons in HF as [Hc HF]. rewrite Hc in Hl. auto.
Qed.

Lemma eof_last_only a c b eof : eof_last (a ++ c :: b) eof → chunk_eof c = true → b = [].
Proof.
  induction a as [|d a IH]; simpl app; intros Hl%eof_last_cons Hc.
  - rewrite Hc in Hl. by destruct Hl.
  - destruct (chunk_eof d); [|auto]. by destruct Hl as [[_ ?]%app_nil _].
Qed.

Lemma grants_nonneg (G : list (Z * Z)) :
  Forall (λ q, 1 ≤ q.2 ≤ STREAM_WINDOW_FRAMES) G → 0 ≤ zsum G.*2.
Proof.
  intros HG. apply zsum_nonneg, Forall_fmap. eapply Forall_impl; [exact HG|].
  intros q Hq. simpl in *. lia.
Qed.

Lemma generation_known : 0 < stream_generation id → stream_from_raw id = Ok id.
Proof. unfold stream_from_raw, stream_generation. intros. case_match; [lia|done]. Qed.

Lemma matching_own d :
  matching {| generation := stream_generation id; active := Some d |} id = Ok d.
Proof. unfold matching. simpl. by rewrite Z.eqb_refl. Qed.

Lemma accept_current frame d :
  0 < stream_generation id → identity (header frame) = id →
  accept {| generation := stream_generation id; active := Some d |} frame =
    match d, kind (header frame) with
    | Send tx, Credit =>
        let '(tx', r) := accept_credit tx frame in
        ({| generation := stream_generation id; active := Some (Send tx') |}, r)
    | Receive rx, Data =>
        let '(rx', r) := accept_data rx frame in
        ({| generation := stream_generation id; active := Some (Receive rx') |}, r)
    | _, _ => ({| generation := stream_generation id; active := Some d |}, Err Invalid)
    end.
Proof.
  intros Hg Hid. unfold accept. rewrite Hid, generation_known by done. cbn [generation].
  rewrite Z.ltb_irrefl, Z.eqb_refl, bool_decide_eq_false_2 by done. simpl.
  rewrite matching_own. by destruct d, (kind (header frame)).
Qed.

Lemma grant_bytes g : 1 ≤ g ≤ STREAM_WINDOW_FRAMES → from_be (to_be 4 g) = g.
Proof. unfold STREAM_WINDOW_FRAMES. intros. apply from_be_to_be. unfold fits. simpl. lia. Qed.

(** The receiver takes the next data frame of the wire. *)
Lemma accept_data_next l tx rx q D G lost :
  link_inv l tx rx (q :: D) G lost →
  accept_data rx (data_of e id q) =
    ({| rx_id := rx_id rx; rx_queue := rx_queue rx ++ [q.2];
        rx_next_data := rx_next_data rx + 1; rx_next_credit := rx_next_credit rx;
        rx_credits := rx_credits rx - 1; rx_pending_credit := rx_pending_credit rx;
        rx_eof_received := chunk_eof q.2; rx_eof_delivered := rx_eof_delivered rx |}, Ok tt).
Proof.
  intros []. unfold accept_data. simpl.
  destruct (rx_eof_received rx); [by destruct li_eof0|].
  pose proof (consecutive_len _ _ _ li_data_seq0) as Hlen.
  destruct li_data_seq0 as [Hq _].
  pose proof (grants_nonneg G li_grants0).
  pose proof (len_nonneg (tx_queue tx)). pose proof (len_nonneg D).
  rewrite len_app, !len_cons in *. unfold STREAM_WINDOW_FRAMES in *.
  replace (rx_credits rx =? 0) with false by lia.
  replace (q.1 =? rx_next_data rx) with true by lia.
  replace (4 <=? len (rx_queue rx)) with false by lia. simpl.
  rewrite checked_add_fits by lia. by destruct q as [? [? ?]].
Qed.

(** The sender takes the next grant of the wire. *)
Lemma accept_credit_next l tx rx q D G lost :
  link_inv l tx rx D (q :: G) lost →
  accept_credit tx (credit_of e id q) =
    ({| tx_id := tx_id tx; tx_queue := tx_queue tx; tx_next_data := tx_next_data tx;
        tx_next_credit := tx_next_credit tx + 1; tx_credits := tx_credits tx + q.2;
        tx_debt := if tx_next_credit tx =? 1 then tx_debt tx else tx_debt tx - q.2;
        tx_eof := tx_eof tx |}, Ok tt).
Proof.
  intros []. unfold accept_credit.
  apply Forall_cons in li_grants0 as [Hq HG]. pose proof (grants_nonneg G HG).
  pose proof (consecutive_len _ _ _ li_credit_seq0) as Hlen.
  destruct li_credit_seq0 as [Hs _]. rewrite len_cons, fmap_cons, zsum_cons in *.
  pose proof (len_nonneg (tx_queue tx)). pose proof (len_nonneg D).
  pose proof (len_nonneg (rx_queue rx)). pose proof (len_nonneg G).
  cbn [credit_of body header sequence]. rewrite grant_bytes by done.
  replace (len (to_be 4 q.2)) with 4 by done. rewrite Hs, !Z.eqb_refl.
  cbn [negb]. unfold STREAM_WINDOW_FRAMES in *.
  destruct (tx_next_credit tx =? 1) eqn:Hfirst; cbn [negb andb].
  - destruct (li_initial0 ltac:(lia)) as [[? _]|Heq]; [done|].
    injection Heq as -> ->. simpl in *. replace (4 <? tx_credits tx + 4) with false by lia.
    by rewrite checked_add_fits by lia.
  - replace (tx_debt tx <? q.2) with false by lia.
    replace (4 <? tx_credits tx + q.2) with false by lia.
    by rewrite checked_add_fits by lia.
Qed.

Lemma link_open_ok l : link_open id l → link_ok l.
Proof.
  intros ((s & r & Hs0 & Hr0 & Hs & Hr) & Hd & Hc & Hsent & Hgot).
  unfold register_slot in *.
  destruct (stream_generation id <=? generation s) eqn:Hgs; [done|].
  destruct (stream_generation id <=? generation r) eqn:Hgr; [done|].
  repeat case_match; try done. injection Hs as Hs. injection Hr as Hr.
  exists (tx_new id), (rx_new id), [], [], 0.
  split; try done; rewrite ?Hsent, ?Hgot; simpl; try done; try lia.
  intros _. by left.
Qed.

Lemma send_step_ok l s bytes eof :
  link_ok l → send_checks bytes eof = Ok tt →
  send_poll (sender l) id bytes eof = (s, Ok (Ready tt)) →
  link_ok {| sender := s; receiver := receiver l; data_wire := data_wire l;
             credit_wire := credit_wire l;
             sent := sent l ++ [{| chunk_bytes := bytes; chunk_eof := eof |}];
             got := got l |}.
Proof.
  intros (tx & rx & D & G & lost & Hinv) Hc. pose proof Hinv as [].
  unfold send_poll. rewrite li_snd0, matching_own.
  destruct (tx_eof tx) eqn:Heof; [done|]. destruct (0 <? tx_credits tx) eqn:Hcr; [|done].
  destruct (checked_add u32_max (tx_next_data tx) 1) as [n|] eqn:Hn; [|done].
  apply checked_add_Some in Hn as [-> ?]. intros [= <-].
  exists {| tx_id := tx_id tx;
            tx_queue := tx_queue tx ++
              [(tx_next_data tx, {| chunk_bytes := bytes; chunk_eof := eof |})];
            tx_next_data := tx_next_data tx + 1; tx_next_credit := tx_next_credit tx;
            tx_credits := tx_credits tx - 1; tx_debt := tx_debt tx; tx_eof := eof |},
         rx, D, G, lost.
  assert (rx_eof_received rx = false) as Hrx by (destruct (rx_eof_received rx); naive_solver).
  rewrite Hrx in li_eof0. destruct li_eof0 as [Hlost Hlast].
  split; try done; simpl; rewrite ?(assoc_L (++) D), ?len_app, ?len_cons, ?len_nil; try lia.
  - by apply consecutive_snoc.
  - apply Forall_app. split; [done|]. by repeat constructor.
  - rewrite Hrx. split; [done|]. rewrite fmap_app. apply eof_last_snoc. rewrite ?Heof in Hlast; done.
  - by apply (eof_last_snoc (sent l) {| chunk_bytes := bytes; chunk_eof := eof |}).
  - rewrite li_order0, !fmap_app. simpl. by rewrite !(assoc_L (++)).
Qed.

Lemma emit_data_ok l s f :
  link_ok l → data_frame e (sender l) = (s, Ok (Some f)) →
  link_ok {| sender := s; receiver := receiver l; data_wire := data_wire l ++ [f];
             credit_wire := credit_wire l; sent := sent l; got := got l |}.
Proof.
  intros (tx & rx & D & G & lost & Hinv). pose proof Hinv as [].
  unfold data_frame. rewrite li_snd0. cbn [active].
  destruct (tx_queue tx) as [|q queue] eqn:Hq; [done|]. destruct q as [n c].
  destruct (frame_new _ _ _ _ _ _) as [fr| |] eqn:Hf; cbn [lift]; [|done..].
  intros [= <- <-]. apply frame_new_ok in Hf as [-> _].
  rewrite cons_middle, (assoc_L (++)) in li_data_seq0, li_chunks0, li_eof0, li_order0.
  exists {| tx_id := tx_id tx; tx_queue := queue; tx_next_data := tx_next_data tx;
            tx_next_credit := tx_next_credit tx; tx_credits := tx_credits tx;
            tx_debt := tx_debt tx + 1; tx_eof := tx_eof tx |}, rx, (D ++ [(n, c)]), G, lost.
  rewrite len_cons in *.
  split; try done; simpl; rewrite ?len_app, ?len_cons, ?len_nil; try lia.
  rewrite fmap_app, li_data0. by destruct li_ids0 as [-> _].
Qed.

Lemma emit_credit_ok l r f :
  link_ok l → credit_frame e (receiver l) = (r, Ok (Some f)) →
  link_ok {| sender := sender l; receiver := r; data_wire := data_wire l;
             credit_wire := credit_wire l ++ [f]; sent := sent l; got := got l |}.
Proof.
  intros (tx & rx & D & G & lost & Hinv). pose proof Hinv as [].
  unfold credit_frame. rewrite li_rcv0. cbn [active].
  destruct (rx_pending_credit rx =? 0) eqn:Hp; [done|].
  destruct (checked_add u32_max (rx_next_credit rx) 1) as [n|] eqn:Hn; [|done].
  apply checked_add_Some in Hn as [-> ?].
  destruct (frame_new _ _ _ _ _ _) as [fr| |] eqn:Hf; cbn [lift]; [|done..].
  intros [= <- <-]. apply frame_new_ok in Hf as [-> _].
  pose proof (grants_nonneg G li_grants0). pose proof (len_nonneg D).
  pose proof (len_nonneg (tx_queue tx)). pose proof (len_nonneg (rx_queue rx)).
  exists tx, {| rx_id := rx_id rx; rx_queue := rx_queue rx; rx_next_data := rx_next_data rx;
                rx_next_credit := rx_next_credit rx + 1;
                rx_credits := rx_credits rx + rx_pending_credit rx; rx_pending_credit := 0;
                rx_eof_received := rx_eof_received rx;
                rx_eof_delivered := rx_eof_delivered rx |},
         D, (G ++ [(rx_next_credit rx, rx_pending_credit rx)]), lost.
  split; try done; simpl;
    rewrite ?fmap_app, ?zsum_app; simpl; rewrite ?zsum_cons, ?zsum_nil; try lia.
  - rewrite li_credit0. by destruct li_ids0 as [_ ->].
  - by apply consecutive_snoc.
  - apply Forall_app. split; [done|]. repeat constructor; simpl; lia.
  - intros Hone. right. destruct (li_initial0 Hone) as [[-> ->]| ->].
    + simpl in li_credit_seq0. simpl. by rewrite <- li_credit_seq0, Hone.
    + simpl in *. rewrite zsum_cons, zsum_nil in li_window0. unfold STREAM_WINDOW_FRAMES in *. lia.
Qed.

Lemma accept_data_ok l r f w :
  link_ok l → data_wire l = f :: w → accept (receiver l) f = (r, Ok tt) →
  link_ok {| sender := sender l; receiver := r; data_wire := w;
             credit_wire := credit_wire l; sent := sent l; got := got l |}.
Proof.
  intros (tx & rx & D & G & lost & Hinv) Hw. pose proof Hinv as [].
  rewrite li_data0 in Hw. destruct D as [|q D]; [done|]. injection Hw as <- <-.
  rewrite li_rcv0, accept_current by done. change (kind (header (data_of e id q))) with Data.
  cbv beta iota. rewrite (accept_data_next _ _ _ _ _ _ _ Hinv). intros [= <-].
  destruct (rx_eof_received rx) eqn:Hrx; [by destruct li_eof0|].
  destruct li_eof0 as [Hlost Hlast]. csimpl in Hlast. apply eof_last_cons in Hlast.
  destruct li_data_seq0 as [Hseq Hcons]. apply Forall_cons in li_chunks0 as [_ Hch].
  exists tx, {| rx_id := rx_id rx; rx_queue := rx_queue rx ++ [q.2];
                rx_next_data := rx_next_data rx + 1; rx_next_credit := rx_next_credit rx;
                rx_credits := rx_credits rx - 1; rx_pending_credit := rx_pending_credit rx;
                rx_eof_received := chunk_eof q.2;
                rx_eof_delivered := rx_eof_delivered rx |}, D, G, lost.
  rewrite len_cons in *.
  split; try done; simpl; rewrite ?len_app, ?len_cons, ?len_nil; try lia.
  - destruct (chunk_eof q.2); [|done]. destruct Hlast as [Hnil Heof]. split; [|done].
    by apply fmap_nil_inv in Hnil.
  - rewrite li_order0. csimpl. by rewrite <- !(assoc_L (++)).
Qed.

Lemma accept_credit_ok l s f w :
  link_ok l → credit_wire l = f :: w → accept (sender l) f = (s, Ok tt) →
  link_ok {| sender := s; receiver := receiver l; data_wire := data_wire l;
             credit_wire := w; sent := sent l; got := got l |}.
Proof.
  intros (tx & rx & D & G & lost & Hinv) Hw. pose proof Hinv as [].
  rewrite li_credit0 in Hw. destruct G as [|q G]; [done|]. injection Hw as <- <-.
  rewrite li_snd0, accept_current by done. change (kind (header (credit_of e id q))) with Credit.
  cbv beta iota. rewrite (accept_credit_next _ _ _ _ _ _ _ Hinv). intros [= <-].
  apply Forall_cons in li_grants0 as [Hq HG]. pose proof (grants_nonneg G HG).
  pose proof (consecutive_len _ _ _ li_credit_seq0) as Hlen.
  destruct li_credit_seq0 as [Hs Hcons].
  pose proof (len_nonneg (tx_queue tx)). pose proof (len_nonneg D).
  pose proof (len_nonneg (rx_queue rx)). pose proof (len_nonneg G).
  rewrite len_cons, fmap_cons, zsum_cons in *.
  exists {| tx_id := tx_id tx; tx_queue := tx_queue tx; tx_next_data := tx_next_data tx;
            tx_next_credit := tx_next_credit tx + 1; tx_credits := tx_credits tx + q.2;
            tx_debt := if tx_next_credit tx =? 1 then tx_debt tx else tx_debt tx - q.2;
            tx_eof := tx_eof tx |}, rx, D, G, lost.
  assert (tx_next_credit tx = 1 → q.2 = 4 ∧ G = []) as Hinit.
  { intros Hone. destruct (li_initial0 Hone) as [[]|Heq]; [done|]. by injection Heq as -> ->. }
  assert (tx_next_credit tx + 1 ≠ 1) as Hne by lia.
  split; try done; simpl; try lia; replace (tx_next_credit tx + 1 =? 1) with false by lia;
    unfold STREAM_WINDOW_FRAMES in *;
    destruct (tx_next_credit tx =? 1) eqn:?; try (destruct (Hinit ltac:(lia)) as [-> ->]); lia.
Qed.

Lemma next_step_ok l r chunk :
  link_ok l → next_poll (receiver l) id = (r, Ok (Ready (Some chunk))) →
  link_ok {| sender := sender l; receiver := r; data_wire := data_wire l;
             credit_wire := credit_wire l; sent := sent l; got := got l ++ [chunk] |}.
Proof.
  intros (tx & rx & D & G & lost & Hinv). pose proof Hinv as [].
  unfold next_poll. rewrite li_rcv0, matching_own.
  destruct (rx_queue rx) as [|c queue] eqn:Hq; [by destruct (rx_eof_delivered rx)|].
  intros [= <- ->]. rewrite len_cons in *.
  exists tx, {| rx_id := rx_id rx; rx_queue := queue; rx_next_data := rx_next_data rx;
                rx_next_credit := rx_next_credit rx; rx_credits := rx_credits rx;
                rx_pending_credit :=
                  if rx_eof_received rx then rx_pending_credit rx
                  else rx_pending_credit rx + 1;
                rx_eof_received := rx_eof_received rx;
                rx_eof_delivered := chunk_eof chunk |}, D, G,
    (if rx_eof_received rx then lost + 1 else lost).
  split; try done; simpl; try (destruct (rx_eof_received rx); lia).
  - intros Hone. destruct (li_initial0 Hone) as [[-> Hp]| ->]; [|by right]. exfalso.
    pose proof (len_nonneg D). pose proof (len_nonneg (tx_queue tx)).
    pose proof (len_nonneg queue). unfold STREAM_WINDOW_FRAMES in *.
    rewrite fmap_nil, zsum_nil in *. lia.
  - destruct (rx_eof_received rx); naive_solver.
  - rewrite li_order0. by rewrite <- !(assoc_L (++)).
Qed.

Lemma link_step_ok l l' : link_ok l → link_step e id l l' → link_ok l'.
Proof.
  intros Hl. destruct 1;
    eauto using send_step_ok, emit_data_ok, emit_credit_ok, accept_data_ok,
      accept_credit_ok, next_step_ok.
Qed.

Lemma link_reachable_ok l : link_reachable e id l → link_ok l.
Proof.
  intros (l0 & Hopen & Hrun). apply link_open_ok in Hopen.
  induction Hrun; eauto using link_step_ok.
Qed.

Lemma grammar_data seq c :
  0 < stream_generation id → chunk_ok c → grammar e Data id seq (chunk_eof c) (chunk_bytes c).
Proof.
  unfold chunk_ok, send_checks, grammar, stream_generation. intros Hg Hc.
  split; [done|]. split.
  { split; [intros ->; done|done]. }
  simpl. repeat case_match; try done. split; [|lia].
  intros Hnil. rewrite Hnil in *. by destruct (chunk_eof c).
Qed.

Lemma grammar_credit seq g :
  0 < stream_generation id → seq ≠ 0 → 1 ≤ g ≤ STREAM_WINDOW_FRAMES →
  grammar e Credit id seq true (to_be 4 g).
Proof.
  intros Hg Hs Hgr. split; [done|]. split; [split; [intros ->; done|done]|].
  unfold shape_ok. by rewrite grant_bytes.
Qed.
End link.

Lemma lor_shiftl_6 a b : 0 ≤ b < 64 → Z.lor (Z.shiftl a 6) b = a * 64 + b.
Proof.
  intros Hb. rewrite <- Z.add_nocarry_lor.
  - by rewrite Z.shiftl_mul_pow2 by lia.
  - apply Z.bits_inj'. intros n Hn. rewrite Z.land_spec, Z.bits_0.
    destruct (Z.ltb_spec n 6).
    + by rewrite Z.shiftl_spec_low.
    + rewrite (Z.bits_above_log2 b), andb_false_r; [done|lia|].
      destruct (decide (b = 0)) as [->|]; [simpl; lia|].
      apply Z.log2_lt_pow2; [lia|]. apply (Z.lt_le_trans _ (2 ^ 6)); [lia|].
      by apply Z.pow_le_mono_r.
Qed.

Lemma stream_slot_mod v : stream_slot v = v mod 64.
Proof. unfold stream_slot. change 63 with (Z.ones 6). by rewrite Z.land_ones by lia. Qed.

Lemma stream_generation_div v : stream_generation v = v / 64.
Proof. unfold stream_generation. by rewrite Z.shiftr_div_pow2. Qed.

(** ** Properties *)

(** C7: flow control never refuses an honest peer: in every reachable state of a stream,
    whatever the interleaving of sends, frame emission, delivery and reads, the next
    frame on either wire is accepted, emitting data cannot fail, and granting credit
    fails only at the end of the 32-bit grant sequence. *)
Theorem stream_flow_safe e id l :
  e ≠ 0 → link_reachable e id l →
  (∀ f w, data_wire l = f :: w → ∃ r, accept (receiver l) f = (r, Ok tt)) ∧
  (∀ f w, credit_wire l = f :: w → ∃ s, accept (sender l) f = (s, Ok tt)) ∧
  (∃ o, (data_frame e (sender l)).2 = Ok o) ∧
  ((∃ o, (credit_frame e (receiver l)).2 = Ok o) ∨
   ∃ rx, active (receiver l) = Some (Receive rx) ∧ rx_next_credit rx = u32_max).
Proof.
  intros He Hl. destruct (link_reachable_ok e id l Hl) as (tx & rx & D & G & lost & Hinv).
  pose proof Hinv as []. split_and!.
  - intros f w Hw. rewrite li_data0 in Hw. destruct D as [|q D]; [done|].
    injection Hw as <- <-. rewrite li_rcv0, accept_current by done.
    change (kind (header (data_of e id q))) with Data. cbv beta iota.
    rewrite (accept_data_next e id _ _ _ _ _ _ _ Hinv). eauto.
  - intros f w Hw. rewrite li_credit0 in Hw. destruct G as [|q G]; [done|].
    injection Hw as <- <-. rewrite li_snd0, accept_current by done.
    change (kind (header (credit_of e id q))) with Credit. cbv beta iota.
    rewrite (accept_credit_next e id _ _ _ _ _ _ _ Hinv). eauto.
  - unfold data_frame. rewrite li_snd0. cbn [active].
    destruct (tx_queue tx) as [|[n c] queue]; [by eauto|].
    apply Forall_app in li_chunks0 as [_ [Hc _]%Forall_cons].
    destruct li_ids0 as [-> _].
    destruct (frame_new_exact e Data id n (chunk_eof c) (chunk_bytes c)) as [_ [fr Hf]];
      [by apply grammar_data|]. simpl. rewrite Hf. by eexists.
  - unfold credit_frame. rewrite li_rcv0. cbn [active].
    destruct (rx_pending_credit rx =? 0) eqn:Hp; [by eauto|].
    destruct (checked_add u32_max (rx_next_credit rx) 1) as [n|] eqn:Hn.
    + left. destruct li_ids0 as [_ ->].
      pose proof (grants_nonneg G li_grants0). pose proof (len_nonneg D).
      pose proof (len_nonneg (tx_queue tx)). pose proof (len_nonneg (rx_queue rx)).
      pose proof (len_nonneg G). pose proof (consecutive_len _ _ _ li_credit_seq0).
      destruct (frame_new_exact e Credit id (rx_next_credit rx) true
                  (to_be 4 (rx_pending_credit rx))) as [_ [fr Hf]];
        [apply grammar_credit; [done|done|lia|lia]|]. rewrite Hf. by eexists.
    + right. exists rx. split; [done|]. unfold checked_add in Hn.
      destruct (rx_next_credit rx + 1 <=? u32_max) eqn:?; [done|]. lia.
Qed.

(** A stream delivers exactly what was sent: what the receiver has read is a prefix of
    what the sender submitted, at most four chunks are anywhere in between, and only the
    last chunk of a stream can carry its end. *)
Lemma stream_in_order e id l :
  link_reachable e id l →
  (∃ between, sent l = got l ++ between ∧ len between ≤ STREAM_WINDOW_FRAMES) ∧
  (∀ a c b, sent l = a ++ c :: b → chunk_eof c = true → b = []).
Proof.
  intros Hl. destruct (link_reachable_ok e id l Hl) as (tx & rx & D & G & lost & []). split.
  - eexists. split; [exact li_order0|].
    pose proof (grants_nonneg G li_grants0).
    unfold len in *. rewrite length_app, length_fmap, length_app. lia.
  - intros a c b Hs. rewrite Hs in li_sent_eof0. by eapply eof_last_only.
Qed.

(** A stream cannot stall: once both wires are empty, nothing is left to emit and the
    receiver has read everything, the sender of an unfinished stream has credit and its
    next chunk is accepted at once. *)
Lemma stream_no_stall e id l bytes eof :
  link_reachable e id l →
  data_wire l = [] → credit_wire l = [] →
  (data_frame e (sender l)).2 = Ok None → (credit_frame e (receiver l)).2 = Ok None →
  (next_poll (receiver l) id).2 = Ok Waiting →
  Forall (λ c, chunk_eof c = false) (sent l) → len (sent l) < u32_max →
  ∃ s, send_poll (sender l) id bytes eof = (s, Ok (Ready tt)).
Proof.
  intros Hl Hd Hc Hdf Hcf Hnext Heof Hcount.
  destruct (link_reachable_ok e id l Hl) as (tx & rx & D & G & lost & []).
  rewrite Hd in li_data0. symmetry in li_data0. apply fmap_nil_inv in li_data0 as ->.
  rewrite Hc in li_credit0. symmetry in li_credit0. apply fmap_nil_inv in li_credit0 as ->.
  assert (tx_queue tx = []) as Hq.
  { unfold data_frame in Hdf. rewrite li_snd0 in Hdf. cbn [active] in Hdf.
    destruct (tx_queue tx) as [|[n c] q]; [done|]. simpl in Hdf.
    by destruct (frame_new _ _ _ _ _ _). }
  assert (rx_queue rx = []) as Hr.
  { unfold next_poll in Hnext. rewrite li_rcv0, matching_own in Hnext.
    by destruct (rx_queue rx). }
  assert (rx_pending_credit rx = 0) as Hp.
  { unfold credit_frame in Hcf. rewrite li_rcv0 in Hcf. cbn [active] in Hcf.
    destruct (rx_pending_credit rx =? 0) eqn:?; [lia|].
    destruct (checked_add _ _ _); [|done]. by destruct (frame_new _ _ _ _ _ _). }
  assert (tx_eof tx = false) as Hte.
  { by eapply eof_last_none. }
  rewrite Hq in *. rewrite Hte in *.
  destruct (rx_eof_received rx); [by destruct li_eof0|]. destruct li_eof0 as [-> _].
  rewrite Hr in *. unfold send_poll. rewrite li_snd0, matching_own, Hte.
  replace (0 <? tx_credits tx) with true.
  - rewrite checked_add_fits by lia. by eexists.
  - unfold len, STREAM_WINDOW_FRAMES in *. simpl length in *.
    rewrite fmap_nil, zsum_nil in li_window0. lia.
Qed.

(** A retired generation never comes back: after a slot was retired, every frame that
    still names that generation or an earlier one is ignored without an effect, the slot
    cannot be registered for it again, and once a later generation owns the slot, such
    frames leave that stream untouched. *)
Lemma retired_generation_inert s id s1 d id' s2 frame old :
  retire_slot s id = (s1, Ok tt) →
  stream_from_raw (identity (header frame)) = Ok old →
  stream_generation old ≤ stream_generation id →
  accept s1 frame = (s1, Ok tt) ∧
  (∀ d', register_slot s1 old d' = (s1, Err Invalid)) ∧
  (register_slot s1 id' d = (s2, Ok tt) → accept s2 frame = (s2, Ok tt)).
Proof.
  unfold retire_slot, matching. intros Hret Hraw Hold.
  destruct (generation s =? stream_generation id) eqn:Hg; [|done]. simpl in Hret.
  destruct (active s); [|done]. simpl in Hret. injection Hret as <-.
  unfold accept, register_slot. rewrite Hraw. simpl. split_and!.
  - case_match eqn:Hc; [done|]. exfalso.
    apply orb_false_iff in Hc as [? Hc]. rewrite andb_true_r in Hc. lia.
  - intros d'. replace (stream_generation old <=? generation s) with true by lia. done.
  - destruct (stream_generation id' <=? generation s) eqn:?; [done|].
    intros [= <-]. simpl.
    by replace (stream_generation old <? stream_generation id') with true by lia.
Qed.

(** A stream identity packs its slot and generation losslessly: what [StreamId::new]
    builds from any slot below 64 and generation of 1 to 58 bits is a valid wire value
    that splits into the same two numbers, and every valid 64-bit wire value arises so. *)
Lemma stream_id_round_trip :
  (∀ slot gen id, 0 ≤ slot → 0 ≤ gen → stream_new slot gen = Ok id →
     0 ≤ id ≤ u64_max ∧ stream_from_raw id = Ok id ∧
     stream_slot id = slot ∧ stream_generation id = gen) ∧
  (∀ id, 0 ≤ id ≤ u64_max → stream_from_raw id = Ok id →
     0 ≤ stream_slot id < STREAMS ∧
     stream_new (stream_slot id) (stream_generation id) = Ok id).
Proof.
  assert (Z.shiftr u64_max 6 = 288230376151711743) as Hmax by done.
  unfold stream_new, stream_from_raw, STREAMS. split.
  - intros slot gen id Hs Hg. case_match eqn:Hguard; [done|]. intros [= <-].
    rewrite lor_shiftl_6 by lia. fold (stream_generation (gen * 64 + slot)).
    rewrite stream_slot_mod, stream_generation_div, Z.div_add_l, Z.div_small, Z.add_0_r by lia.
    replace (gen =? 0) with false by lia. unfold u64_max. split_and!; [lia|lia|done| |done].
    rewrite Z.add_comm, Z.mod_add by lia. apply Z.mod_small. lia.
  - intros id Hid. fold (stream_generation id).
    rewrite stream_slot_mod, stream_generation_div.
    destruct (id / 64 =? 0) eqn:Hz; [done|]. intros _.
    pose proof (Z.mod_pos_bound id 64 ltac:(lia)).
    pose proof (Z.div_mod id 64 ltac:(lia)).
    assert (0 ≤ id / 64 < 288230376151711744).
    { unfold u64_max in *. split; [apply Z.div_pos|apply Z.div_lt_upper_bound]; lia. }
    rewrite Hmax. split; [lia|]. case_match eqn:Hguard; [exfalso; lia|].
    rewrite lor_shiftl_6 by lia. f_equal. lia.
Qed.

(** ** Witnesses: running a link *)

Inductive event := Submit (bytes : list Z) (eof : bool) | EmitData | EmitCredit
| AcceptData | AcceptCredit | Read.

Definition link_do (e id : Z) (l : link) (ev : event) : option link :=
  match ev with
  | Submit bytes eof =>
      match send_checks bytes eof, send_poll (sender l) id bytes eof with
      | Ok tt, (s, Ok (Ready tt)) =>
          Some {| sender := s; receiver := receiver l; data_wire := data_wire l;
                  credit_wire := credit_wire l;
                  sent := sent l ++ [{| chunk_bytes := bytes; chunk_eof := eof |}];
                  got := got l |}
      | _, _ => None
      end
  | EmitData =>
      match data_frame e (sender l) with
      | (s, Ok (Some f)) =>
          Some {| sender := s; receiver := receiver l; data_wire := data_wire l ++ [f];
                  credit_wire := credit_wire l; sent := sent l; got := got l |}
      | _ => None
      end
  | EmitCredit =>
      match credit_frame e (receiver l) with
      | (r, Ok (Some f)) =>
          Some {| sender := sender l; receiver := r; data_wire := data_wire l;
                  credit_wire := credit_wire l ++ [f]; sent := sent l; got := got l |}
      | _ => None
      end
  | AcceptData =>
      match data_wire l with
      | f :: w =>
          match accept (receiver l) f with
          | (r, Ok tt) =>
              Some {| sender := sender l; receiver := r; data_wire := w;
                      credit_wire := credit_wire l; sent := sent l; got := got l |}
          | _ => None
          end
      | [] => None
      end
  | AcceptCredit =>
      match credit_wire l with
      | f :: w =>
          match accept (sender l) f with
          | (s, Ok tt) =>
              Some {| sender := s; receiver := receiver l; data_wire := data_wire l;
                      credit_wire := w; sent := sent l; got := got l |}
          | _ => None
          end
      | [] => None
      end
  | Read =>
      match next_poll (receiver l) id with
      | (r, Ok (Ready (Some chunk))) =>
          Some {| sender := sender l; receiver := r; data_wire := data_wire l;
                  credit_wire := credit_wire l; sent := sent l; got := got l ++ [chunk] |}
      | _ => None
      end
  end.

Fixpoint link_run (e id : Z) (l : link) (evs : list event) : option link :=
  match evs with
  | [] => Some l
  | ev :: rest => match link_do e id l ev with Some l' => link_run e id l' rest | None => None end
  end.

Lemma link_do_step e id l ev l' : link_do e id l ev = Some l' → link_step e id l l'.
Proof.
  destruct ev; simpl; intros; repeat case_match; simplify_eq;
    solve [by eapply link_send | by eapply link_emit_data | by eapply link_emit_credit
          | by eapply link_accept_data | by eapply link_accept_credit | by eapply link_next].
Qed.

Definition opened : link :=
  {| sender := (register_slot slot_default 65 (Send (tx_new 65))).1;
     receiver := (register_slot slot_default 65 (Receive (rx_new 65))).1;
     data_wire := []; credit_wire := []; sent := []; got := [] |}.

Lemma link_run_reachable evs l : link_run 9 65 opened evs = Some l → link_reachable 9 65 l.
Proof.
  assert (link_open 65 opened) as Hopen.
  { split; [|done]. exists slot_default, slot_default. by split_and!. }
  intros Hrun. exists opened. split; [done|]. clear Hopen. revert Hrun.
  generalize opened. induction evs as [|ev evs IH]; intros l0; simpl; [by intros [= ->]|].
  destruct (link_do 9 65 l0 ev) as [l1|] eqn:Hdo; [|done]. intros Hrun.
  eapply rtc_l; [by eapply link_do_step|by apply IH].
Qed.

(** Stream 65 is slot 1 at generation 1: its window is granted and a byte waits on the
    data wire, then is read and its credit returned. *)
Definition to_wire : list event := [EmitCredit; AcceptCredit; Submit [7] false; EmitData].
Definition back_home : list event := to_wire ++ [AcceptData; Read; EmitCredit; AcceptCredit].

Definition after (evs : list event) : link := default opened (link_run 9 65 opened evs).

Lemma after_reachable evs :
  link_run 9 65 opened evs ≠ None → link_reachable 9 65 (after evs).
Proof.
  unfold after. destruct (link_run 9 65 opened evs) as [l|] eqn:Hl; [|done].
  intros _. by eapply link_run_reachable.
Qed.

Lemma stream_flow_safe_witness :
  ∃ r, accept (receiver (after to_wire))
         (data_of 9 65 (0, {| chunk_bytes := [7]; chunk_eof := false |})) = (r, Ok tt).
Proof.
  destruct (stream_flow_safe 9 65 (after to_wire)) as [Hsafe _];
    [done|apply after_reachable; by vm_compute|].
  apply (Hsafe _ []). by vm_compute.
Defined.

Lemma stream_in_order_witness :
  ∃ between, sent (after back_home) = got (after back_home) ++ between ∧
    len between ≤ STREAM_WINDOW_FRAMES.
Proof.
  apply (stream_in_order 9 65 (after back_home)), after_reachable. by vm_compute.
Defined.

Lemma stream_no_stall_witness :
  ∃ s, send_poll (sender (after back_home)) 65 [8] true = (s, Ok (Ready tt)).
Proof.
  apply (stream_no_stall 9 65); [apply after_reachable| | | | | | |]; vm_compute;
    by repeat constructor.
Defined.

Lemma retired_generation_inert_witness :
  let s1 := {| generation := 1; active := None |} in
  let s2 := {| generation := 2; active := Some (Receive (rx_new 129)) |} in
  let frame := data_of 9 65 (0, {| chunk_bytes := [7]; chunk_eof := false |}) in
  accept s1 frame = (s1, Ok tt) ∧
  (∀ d', register_slot s1 65 d' = (s1, Err Invalid)) ∧
  (register_slot s1 129 (Receive (rx_new 129)) = (s2, Ok tt) →
   accept s2 frame = (s2, Ok tt)).
Proof.
  apply (retired_generation_inert (receiver (after to_wire)) 65 _ (Receive (rx_new 129)) 129);
    [by vm_compute|by vm_compute|done].
Defined.
