(* ===== verification/SshTransport.v ===== *)
(** * The SSH helper connection state

    [crates/rsi-ssh/transport/src/state.rs], the request and reply admission of
    [request.rs], the frame intake of [wire.rs], the payload budgets of [budget.rs],
    the heartbeat of [lib.rs] and the reserved controls of
    [crates/rsi-ssh/protocol/src/control.rs].  A one-shot reply channel is the effect
    [Settled]; a request handed to the helper's queues is the effect [Delivered].  A
    message is its bytes; its charge is always its length. *)

From S2P Require Import Prelude BTree Bytes SshFrame SshStream.

(** ** Reserved controls *)
Inductive Control :=
| Terminate (process : Z)
| Resize (process columns rows : Z)
| FilesRelease (handle : Z).

(** [PtySize::validate] of [rsi-process]. *)
Definition pty_size_ok (rows columns : Z) : bool :=
  negb ((rows =? 0) || (200 <? rows) || (columns =? 0) || (500 <? columns)).

Definition control_validate (c : Control) : outcome FrameError unit :=
  let valid :=
    match c with
    | Terminate process => negb (process =? 0)
    | Resize process columns rows => negb (process =? 0) && pty_size_ok rows columns
    | FilesRelease handle => negb (handle =? 0)
    end in
  if valid then Ok tt else Err FrameInvalid.

(** ** Classes and payload budgets *)
Definition ORDINARY_CALLS : Z := 32.
Definition CONTROL_CALLS : Z := 16.
Definition PAYLOAD_BUDGET : Z := 8 * 1024 * 1024.

Inductive Class := COrdinary | CControl.

#[global] Instance Class_eq_dec : EqDecision Class.
Proof. solve_decision. Defined.

Definition class_limit (c : Class) : Z :=
  match c with COrdinary => ORDINARY_CALLS | CControl => CONTROL_CALLS end.
Definition class_request (c : Class) : FrameKind :=
  match c with COrdinary => Request | CControl => ControlRequest end.
Definition class_reply (c : Class) : FrameKind :=
  match c with COrdinary => Reply | CControl => ControlReply end.

(** The two-element arrays indexed by [Class::index]. *)
Record per_class (A : Type) := PerClass { of_ordinary : A; of_control : A }.
Arguments PerClass {A}.
Arguments of_ordinary {A}.
Arguments of_control {A}.

Definition at_class {A} (c : Class) (p : per_class A) : A :=
  match c with COrdinary => of_ordinary p | CControl => of_control p end.
Definition set_class {A} (c : Class) (v : A) (p : per_class A) : per_class A :=
  match c with
  | COrdinary => PerClass v (of_control p)
  | CControl => PerClass (of_ordinary p) v
  end.

(** [Budget::charge]: the new used amount, or [Capacity]. *)
Definition charge (used bytes : Z) : outcome Error Z :=
  match checked_add usize_max used bytes with
  | Some total => if total <=? PAYLOAD_BUDGET then Ok total else Err Capacity
  | None => Err Capacity
  end.

(** ** State *)
Inductive Role := Client | Helper.

#[global] Instance Role_eq_dec : EqDecision Role.
Proof. solve_decision. Defined.

Record Pending := {
  p_deadline : Z;
  p_class : Class;
  p_dispatched : bool;
  p_final_selected : bool;
}.

Record Assembly := { a_class : Class; a_next_sequence : Z; a_message : list Z }.

Record Outgoing := {
  o_identity : Z;
  o_class : Class;
  o_reply : bool;
  o_message : list Z;
  o_offset : Z;
  o_sequence : Z;
}.

Definition outgoing_new (identity : Z) (c : Class) (reply : bool) (message : list Z) : Outgoing :=
  {| o_identity := identity; o_class := c; o_reply := reply; o_message := message;
     o_offset := 0; o_sequence := 0 |}.

Record State := {
  closed : bool;
  outgoing_budgets : per_class Z;
  incoming_budgets : per_class Z;
  next_request : Z;
  pending : bmap Pending;
  inbound : bmap Class;
  last_inbound : per_class Z;
  assemblies : bmap Assembly;
  ordinary : list Outgoing;
  controls : list Outgoing;
  streams : list Slot;
  credit_cursor : Z;
  data_cursor : Z;
  prefer_data : bool;
  last_heartbeat : Z;
  heartbeat_deadline : option Z;
  heartbeat_waiter : bool;
  heartbeat_to_send : option Z;
  heartbeat_ack : option Z;
  heartbeat_dispatched : bool;
}.

(** What the handlers send on channels. *)
Inductive effect :=
| Settled (identity : Z) (reply : outcome Error (list Z))
| HeartbeatSettled (reply : outcome Error unit)
| HeartbeatSeen (serial : Z)
| Delivered (identity : Z) (c : Class) (message : list Z).

Definition state_new : State :=
  {| closed := false; outgoing_budgets := PerClass 0 0; incoming_budgets := PerClass 0 0;
     next_request := 1; pending := []; inbound := []; last_inbound := PerClass 0 0;
     assemblies := []; ordinary := []; controls := [];
     streams := replicate (Z.to_nat STREAMS) slot_default;
     credit_cursor := 0; data_cursor := 0; prefer_data := false; last_heartbeat := 0;
     heartbeat_deadline := None; heartbeat_waiter := false; heartbeat_to_send := None;
     heartbeat_ack := None; heartbeat_dispatched := false |}.

(** *** Field updates *)
Definition set_closed v (s : State) : State :=
  let '(Build_State _ a2 a3 a4 a5 a6 a7 a8 a9 a10 a11 a12 a13 a14 a15 a16 a17 a18 a19 a20) := s in
  Build_State v a2 a3 a4 a5 a6 a7 a8 a9 a10 a11 a12 a13 a14 a15 a16 a17 a18 a19 a20.
Definition set_outgoing_budgets v (s : State) : State :=
  let '(Build_State a1 _ a3 a4 a5 a6 a7 a8 a9 a10 a11 a12 a13 a14 a15 a16 a17 a18 a19 a20) := s in
  Build_State a1 v a3 a4 a5 a6 a7 a8 a9 a10 a11 a12 a13 a14 a15 a16 a17 a18 a19 a20.
Definition set_incoming_budgets v (s : State) : State :=
  let '(Build_State a1 a2 _ a4 a5 a6 a7 a8 a9 a10 a11 a12 a13 a14 a15 a16 a17 a18 a19 a20) := s in
  Build_State a1 a2 v a4 a5 a6 a7 a8 a9 a10 a11 a12 a13 a14 a15 a16 a17 a18 a19 a20.
Definition set_next_request v (s : State) : State :=
  let '(Build_State a1 a2 a3 _ a5 a6 a7 a8 a9 a10 a11 a12 a13 a14 a15 a16 a17 a18 a19 a20) := s in
  Build_State a1 a2 a3 v a5 a6 a7 a8 a9 a10 a11 a12 a13 a14 a15 a16 a17 a18 a19 a20.
Definition set_pending v (s : State) : State :=
  let '(Build_State a1 a2 a3 a4 _ a6 a7 a8 a9 a10 a11 a12 a13 a14 a15 a16 a17 a18 a19 a20) := s in
  Build_State a1 a2 a3 a4 v a6 a7 a8 a9 a10 a11 a12 a13 a14 a15 a16 a17 a18 a19 a20.
Definition set_inbound v (s : State) : State :=
  let '(Build_State a1 a2 a3 a4 a5 _ a7 a8 a9 a10 a11 a12 a13 a14 a15 a16 a17 a18 a19 a20) := s in
  Build_State a1 a2 a3 a4 a5 v a7 a8 a9 a10 a11 a12 a13 a14 a15 a16 a17 a18 a19 a20.
Definition set_last_inbound v (s : State) : State :=
  let '(Build_State a1 a2 a3 a4 a5 a6 _ a8 a9 a10 a11 a12 a13 a14 a15 a16 a17 a18 a19 a20) := s in
  Build_State a1 a2 a3 a4 a5 a6 v a8 a9 a10 a11 a12 a13 a14 a15 a16 a17 a18 a19 a20.
Definition set_assemblies v (s : State) : State :=
  let '(Build_State a1 a2 a3 a4 a5 a6 a7 _ a9 a10 a11 a12 a13 a14 a15 a16 a17 a18 a19 a20) := s in
  Build_State a1 a2 a3 a4 a5 a6 a7 v a9 a10 a11 a12 a13 a14 a15 a16 a17 a18 a19 a20.
Definition set_ordinary v (s : State) : State :=
  let '(Build_State a1 a2 a3 a4 a5 a6 a7 a8 _ a10 a11 a12 a13 a14 a15 a16 a17 a18 a19 a20) := s in
  Build_State a1 a2 a3 a4 a5 a6 a7 a8 v a10 a11 a12 a13 a14 a15 a16 a17 a18 a19 a20.
Definition set_controls v (s : State) : State :=
  let '(Build_State a1 a2 a3 a4 a5 a6 a7 a8 a9 _ a11 a12 a13 a14 a15 a16 a17 a18 a19 a20) := s in
  Build_State a1 a2 a3 a4 a5 a6 a7 a8 a9 v a11 a12 a13 a14 a15 a16 a17 a18 a19 a20.
Definition set_streams v (s : State) : State :=
  let '(Build_State a1 a2 a3 a4 a5 a6 a7 a8 a9 a10 _ a12 a13 a14 a15 a16 a17 a18 a19 a20) := s in
  Build_State a1 a2 a3 a4 a5 a6 a7 a8 a9 a10 v a12 a13 a14 a15 a16 a17 a18 a19 a20.
Definition set_credit_cursor v (s : State) : State :=
  let '(Build_State a1 a2 a3 a4 a5 a6 a7 a8 a9 a10 a11 _ a13 a14 a15 a16 a17 a18 a19 a20) := s in
  Build_State a1 a2 a3 a4 a5 a6 a7 a8 a9 a10 a11 v a13 a14 a15 a16 a17 a18 a19 a20.
Definition set_data_cursor v (s : State) : State :=
  let '(Build_State a1 a2 a3 a4 a5 a6 a7 a8 a9 a10 a11 a12 _ a14 a15 a16 a17 a18 a19 a20) := s in
  Build_State a1 a2 a3 a4 a5 a6 a7 a8 a9 a10 a11 a12 v a14 a15 a16 a17 a18 a19 a20.
Definition set_prefer_data v (s : State) : State :=
  let '(Build_State a1 a2 a3 a4 a5 a6 a7 a8 a9 a10 a11 a12 a13 _ a15 a16 a17 a18 a19 a20) := s in
  Build_State a1 a2 a3 a4 a5 a6 a7 a8 a9 a10 a11 a12 a13 v a15 a16 a17 a18 a19 a20.
Definition set_last_heartbeat v (s : State) : State :=
  let '(Build_State a1 a2 a3 a4 a5 a6 a7 a8 a9 a10 a11 a12 a13 a14 _ a16 a17 a18 a19 a20) := s in
  Build_State a1 a2 a3 a4 a5 a6 a7 a8 a9 a10 a11 a12 a13 a14 v a16 a17 a18 a19 a20.
Definition set_heartbeat_deadline v (s : State) : State :=
  let '(Build_State a1 a2 a3 a4 a5 a6 a7 a8 a9 a10 a11 a12 a13 a14 a15 _ a17 a18 a19 a20) := s in
  Build_State a1 a2 a3 a4 a5 a6 a7 a8 a9 a10 a11 a12 a13 a14 a15 v a17 a18 a19 a20.
Definition set_heartbeat_waiter v (s : State) : State :=
  let '(Build_State a1 a2 a3 a4 a5 a6 a7 a8 a9 a10 a11 a12 a13 a14 a15 a16 _ a18 a19 a20) := s in
  Build_State a1 a2 a3 a4 a5 a6 a7 a8 a9 a10 a11 a12 a13 a14 a15 a16 v a18 a19 a20.
Definition set_heartbeat_to_send v (s : State) : State :=
  let '(Build_State a1 a2 a3 a4 a5 a6 a7 a8 a9 a10 a11 a12 a13 a14 a15 a16 a17 _ a19 a20) := s in
  Build_State a1 a2 a3 a4 a5 a6 a7 a8 a9 a10 a11 a12 a13 a14 a15 a16 a17 v a19 a20.
Definition set_heartbeat_ack v (s : State) : State :=
  let '(Build_State a1 a2 a3 a4 a5 a6 a7 a8 a9 a10 a11 a12 a13 a14 a15 a16 a17 a18 _ a20) := s in
  Build_State a1 a2 a3 a4 a5 a6 a7 a8 a9 a10 a11 a12 a13 a14 a15 a16 a17 a18 v a20.
Definition set_heartbeat_dispatched v (s : State) : State :=
  let '(Build_State a1 a2 a3 a4 a5 a6 a7 a8 a9 a10 a11 a12 a13 a14 a15 a16 a17 a18 a19 _) := s in
  Build_State a1 a2 a3 a4 a5 a6 a7 a8 a9 a10 a11 a12 a13 a14 a15 a16 a17 a18 a19 v.

Definition ensure_open (s : State) : outcome Error unit := if closed s then Err Closed else Ok tt.

Definition enqueue (o : Outgoing) (s : State) : State :=
  match o_class o with
  | COrdinary => set_ordinary (ordinary s ++ [o]) s
  | CControl => set_controls (controls s ++ [o]) s
  end.

(** Dropping a message returns its charge. *)
Definition refund_out (c : Class) (bytes : Z) (s : State) : State :=
  set_outgoing_budgets
    (set_class c (at_class c (outgoing_budgets s) - bytes) (outgoing_budgets s)) s.
Definition refund_in (c : Class) (bytes : Z) (s : State) : State :=
  set_incoming_budgets
    (set_class c (at_class c (incoming_budgets s) - bytes) (incoming_budgets s)) s.

Definition queued_bytes (q : list Outgoing) : Z := zsum ((λ o, len (o_message o)) <$> q).
Definition assembly_bytes (c : Class) (m : bmap Assembly) : Z :=
  zsum ((λ e, if decide (a_class e.2 = c) then len (a_message e.2) else 0) <$> m).

(** [State::close] *)
Definition close (s : State) : State * list effect :=
  if closed s then (s, [])
  else
    let settled :=
      (λ e : Z * Pending,
         Settled e.1 (Err (if p_dispatched e.2 then OutcomeUnknown else Closed)))
        <$> pending s in
    let beat := if heartbeat_waiter s then [HeartbeatSettled (Err Closed)] else [] in
    let s1 := refund_out COrdinary (queued_bytes (ordinary s)) s in
    let s2 := refund_out CControl (queued_bytes (controls s)) s1 in
    let s3 := refund_in COrdinary (assembly_bytes COrdinary (assemblies s)) s2 in
    let s4 := refund_in CControl (assembly_bytes CControl (assemblies s)) s3 in
    (set_closed true (set_pending [] (set_heartbeat_waiter false
       (set_ordinary [] (set_controls [] (set_assemblies [] (set_inbound []
         (set_streams ((λ slot : Slot, {| generation := generation slot; active := None |})
                         <$> streams s) s4))))))),
     settled ++ beat).

(** [Outgoing::fragment] *)
Definition fragment (e : Z) (o : Outgoing) : Outgoing * outcome Error Frame :=
  let bytes := o_message o in
  let stop := Z.min (len bytes) (o_offset o + MAXIMUM_FRAGMENT_BYTES) in
  match lift (frame_new e (if o_reply o then class_reply (o_class o)
                           else class_request (o_class o))
                (o_identity o) (o_sequence o) (stop =? len bytes)
                (slice (o_offset o) stop bytes)) with
  | Ok frame =>
      ({| o_identity := o_identity o; o_class := o_class o; o_reply := o_reply o;
          o_message := bytes; o_offset := stop; o_sequence := o_sequence o + 1 |}, Ok frame)
  | Err err => (o, Err err)
  | Panic => (o, Panic)
  end.

(** [State::emit_message]; the message is dropped unless it is enqueued again. *)
Definition emit_message (e : Z) (o : Outgoing) (s : State) : State * outcome Error (option Frame) :=
  let dropped := refund_out (o_class o) (len (o_message o)) in
  match fragment e o with
  | (_, Err err) => (dropped s, Err err)
  | (_, Panic) => (dropped s, Panic)
  | (o', Ok frame) =>
      let final := final_fragment (header frame) in
      let noted :=
        if o_reply o then Some s
        else
          match bt_get (o_identity o) (pending s) with
          | None => None
          | Some p =>
              Some (set_pending
                (bt_insert (o_identity o)
                   {| p_deadline := p_deadline p; p_class := p_class p;
                      p_dispatched := true; p_final_selected := final |} (pending s)) s)
          end in
      match noted with
      | None => (dropped s, Err Invalid)
      | Some s1 =>
          let s2 := if o_reply o && final
                    then set_inbound (bt_remove (o_identity o) (inbound s1)) s1 else s1 in
          (if final then dropped s2 else enqueue o' s2, Ok (Some frame))
      end
  end.

(** One round of a cursor over the 64 slots: the first slot that yields a frame. *)
Fixpoint scan (yield : Slot → Slot * outcome Error (option Frame)) (n : nat)
    (slots : list Slot) (cursor : Z) : list Slot * Z * outcome Error (option Frame) :=
  match n with
  | O => (slots, cursor, Ok None)
  | S n' =>
      match slots !! Z.to_nat cursor with
      | None => (slots, cursor, Panic)
      | Some slot =>
          let '(slot', r) := yield slot in
          let slots' := <[Z.to_nat cursor := slot']> slots in
          let cursor' := (cursor + 1) mod STREAMS in
          match r with
          | Ok None => scan yield n' slots' cursor'
          | _ => (slots', cursor', r)
          end
      end
  end.

Definition credit_frames (e : Z) (s : State) : State * outcome Error (option Frame) :=
  let '(slots, cursor, r) :=
    scan (credit_frame e) (Z.to_nat STREAMS) (streams s) (credit_cursor s) in
  (set_credit_cursor cursor (set_streams slots s), r).

(** [State::data_frame] *)
Definition data_frames (e : Z) (s : State) : State * outcome Error (option Frame) :=
  let '(slots, cursor, r) :=
    scan (data_frame e) (Z.to_nat STREAMS) (streams s) (data_cursor s) in
  (set_data_cursor cursor (set_streams slots s), r).

Definition some_frame (r : outcome FrameError Frame) : outcome Error (option Frame) :=
  match lift r with Ok f => Ok (Some f) | Err e => Err e | Panic => Panic end.

(** The ordinary messages and stream data at the end of [State::next_frame]. *)
Definition next_payload (e : Z) (s : State) : State * outcome Error (option Frame) :=
  match ordinary s with
  | o :: rest => emit_message e o (set_prefer_data true (set_ordinary rest s))
  | [] => data_frames e s
  end.

(** [State::next_frame] *)
Definition next_frame (e : Z) (s : State) : State * outcome Error (option Frame) :=
  if closed s then (s, Ok None)
  else
    match heartbeat_ack s with
    | Some serial =>
        (set_heartbeat_ack None s, some_frame (frame_new e HeartbeatAck serial 0 true []))
    | None =>
    match heartbeat_to_send s with
    | Some serial =>
        (set_heartbeat_dispatched true (set_heartbeat_to_send None s),
         some_frame (frame_new e Heartbeat serial 0 true []))
    | None =>
    match controls s with
    | o :: rest => emit_message e o (set_controls rest s)
    | [] =>
    match credit_frames e s with
    | (s1, Ok None) =>
        if prefer_data s1 then
          match data_frames e s1 with
          | (s2, Ok None) => next_payload e s2
          | (s2, Ok (Some f)) => (set_prefer_data false s2, Ok (Some f))
          | r => r
          end
        else next_payload e s1
    | r => r
    end
    end
    end
    end.

(** ** Requests and replies *)

Definition validate_payload (bytes : list Z) (c : Class) : outcome Error unit :=
  if len bytes =? 0 then Err Invalid
  else
    let maximum :=
      match c with COrdinary => MAXIMUM_MESSAGE_BYTES | CControl => MAXIMUM_CONTROL_BYTES end in
    if maximum <? len bytes then Err Capacity else Ok tt.

Definition count_class {V} (f : V → Class) (c : Class) (m : bmap V) : Z :=
  len (filter (λ e, f e.2 = c) m).

(** [Connection::request] up to awaiting the reply: the identity it waits for. *)
Definition request (r : Role) (now : Z) (payload : list Z) (c : Class) (s : State)
  : State * outcome Error Z :=
  match validate_payload payload c with
  | Err e => (s, Err e)
  | Panic => (s, Panic)
  | Ok _ =>
      if negb (bool_decide (r = Client)) then (s, Err Invalid)
      else
        match ensure_open s with
        | Err e => (s, Err e)
        | Panic => (s, Panic)
        | Ok _ =>
            if class_limit c <=? count_class p_class c (pending s) then (s, Err Capacity)
            else
              match checked_add u64_max (next_request s) 1 with
              | None => (s, Err Capacity)
              | Some next =>
                  if negb (next <=? Z.shiftr u64_max 1) then (s, Err Capacity)
                  else
                    match charge (at_class c (outgoing_budgets s)) (len payload) with
                    | Err e => (s, Err e)
                    | Panic => (s, Panic)
                    | Ok used =>
                        let identity :=
                          Z.lor (Z.shiftl (next_request s) 1)
                                (Z.b2z (bool_decide (c = CControl))) in
                        let p := {| p_deadline := now + 30; p_class := c;
                                    p_dispatched := false; p_final_selected := false |} in
                        (enqueue (outgoing_new identity c false payload)
                           (set_pending (bt_insert identity p (pending s))
                             (set_next_request next
                               (set_outgoing_budgets
                                  (set_class c used (outgoing_budgets s)) s))),
                         Ok identity)
                    end
              end
        end
  end.

(** [Connection::control], with serde's encoder as a parameter of the section below;
    [IncomingRequest::reply]. *)
Definition reply (identity : Z) (c : Class) (payload : list Z) (s : State)
  : State * outcome Error unit :=
  match validate_payload payload c with
  | Err e => (s, Err e)
  | Panic => (s, Panic)
  | Ok _ =>
      match ensure_open s with
      | Err e => (s, Err e)
      | Panic => (s, Panic)
      | Ok _ =>
          if negb (bool_decide (bt_get identity (inbound s) = Some c)) then (s, Err Invalid)
          else
            match charge (at_class c (outgoing_budgets s)) (len payload) with
            | Err e => (s, Err e)
            | Panic => (s, Panic)
            | Ok used =>
                (enqueue (outgoing_new identity c true payload)
                   (set_outgoing_budgets (set_class c used (outgoing_budgets s)) s), Ok tt)
            end
      end
  end.

(** [Connection::heartbeat] up to awaiting the acknowledgement. *)
Definition heartbeat (r : Role) (now : Z) (s : State) : State * outcome Error unit :=
  if negb (bool_decide (r = Client)) then (s, Err Invalid)
  else
    match ensure_open s with
    | Err e => (s, Err e)
    | Panic => (s, Panic)
    | Ok _ =>
        if heartbeat_waiter s then (s, Err Capacity)
        else
          match checked_add u64_max (last_heartbeat s) 1 with
          | None => (s, Err Capacity)
          | Some serial =>
              (set_heartbeat_to_send (Some serial)
                (set_heartbeat_deadline (Some (now + 30))
                  (set_heartbeat_waiter true (set_last_heartbeat serial s))), Ok tt)
          end
    end.

(** The expiry check of [deadlines::run]: a missed deadline closes the connection. *)
Definition expire (now : Z) (s : State) : State * list effect :=
  let expired :=
    existsb (λ e : Z * Pending, p_deadline e.2 <=? now) (pending s) ||
    match heartbeat_deadline s with Some d => d <=? now | None => false end in
  if expired then close s else (s, []).

(** ** Frame intake *)

(** The result of [wire::accept]; an error makes the reader task stop, which closes
    the connection. *)
Definition accepted : Type := State * list effect * outcome Error unit.

Section intake.
(** serde_json's decoder of the reserved controls. *)
Context (parse_control : list Z → option Control).

(** The first fragment of a message: admission of its identity. *)
Definition admit_first (r : bool) (c : Class) (identity : Z) (s : State)
  : State * outcome Error unit :=
  if r then
    match bt_get identity (pending s) with
    | None => (s, Err Invalid)
    | Some p =>
        if negb (bool_decide (p_class p = c)) || negb (p_final_selected p)
        then (s, Err Invalid)
        else (s, Ok tt)
    end
  else if (identity <=? at_class c (last_inbound s)) || bt_contains identity (inbound s)
  then (s, Err Invalid)
  else if class_limit c <=? count_class id c (inbound s) then (s, Err Capacity)
  else
    (set_inbound (bt_insert identity c (inbound s))
       (set_last_inbound (set_class c identity (last_inbound s)) s), Ok tt).

(** The assembly step of one fragment. *)
Definition assemble (r : bool) (c : Class) (frame : Frame) (s : State)
  : State * outcome Error unit :=
  let h := header frame in
  let identity := identity h in
  if sequence h =? 0 then
    if bt_contains identity (assemblies s) then (s, Err Invalid)
    else
      match admit_first r c identity s with
      | (s1, Ok _) =>
          match charge (at_class c (incoming_budgets s1)) (len (body frame)) with
          | Ok used =>
              (set_assemblies
                 (bt_insert identity
                    {| a_class := c; a_next_sequence := 1; a_message := body frame |}
                    (assemblies s1))
                 (set_incoming_budgets (set_class c used (incoming_budgets s1)) s1), Ok tt)
          | Err e => (s1, Err e)
          | Panic => (s1, Panic)
          end
      | r => r
      end
  else
    match bt_get identity (assemblies s) with
    | None => (s, Err Invalid)
    | Some a =>
        if negb (bool_decide (a_class a = c)) || negb (a_next_sequence a =? sequence h)
        then (s, Err Invalid)
        else if MAXIMUM_MESSAGE_BYTES <? len (a_message a) + len (body frame)
        then (s, Err Capacity)
        else
          match charge (at_class c (incoming_budgets s)) (len (body frame)) with
          | Err e => (s, Err e)
          | Panic => (s, Panic)
          | Ok used =>
              let s1 := set_incoming_budgets (set_class c used (incoming_budgets s)) s in
              let put n :=
                set_assemblies
                  (bt_insert identity
                     {| a_class := c; a_next_sequence := n;
                        a_message := a_message a ++ body frame |} (assemblies s1)) s1 in
              match checked_add u32_max (a_next_sequence a) 1 with
              | None => (put (a_next_sequence a), Err Capacity)
              | Some n => (put n, Ok tt)
              end
          end
    end.

(** The complete message of a final fragment. *)
Definition complete (r : bool) (c : Class) (identity : Z) (s : State) : accepted :=
  match bt_get identity (assemblies s) with
  | None => (s, [], Err Invalid)
  | Some a =>
      let s1 := set_assemblies (bt_remove identity (assemblies s)) s in
      let dropped := refund_in c (len (a_message a)) s1 in
      if r then
        match bt_get identity (pending s1) with
        | None => (dropped, [], Err Invalid)
        | Some _ =>
            (set_pending (bt_remove identity (pending s1)) s1,
             [Settled identity (Ok (a_message a))], Ok tt)
        end
      else
        match c with
        | COrdinary => (s1, [Delivered identity c (a_message a)], Ok tt)
        | CControl =>
            match parse_control (a_message a) with
            | None => (dropped, [], Err Invalid)
            | Some control =>
                match lift (control_validate control) with
                | Ok _ => (s1, [Delivered identity c (a_message a)], Ok tt)
                | Err e => (dropped, [], Err e)
                | Panic => (dropped, [], Panic)
                end
            end
        end
  end.

Definition is_reply (k : FrameKind) : bool :=
  match k with Reply | ControlReply => true | _ => false end.
Definition class_of (k : FrameKind) : Class :=
  match k with ControlRequest | ControlReply => CControl | _ => COrdinary end.

Definition accept_message (role : Role) (frame : Frame) (s : State) : accepted :=
  let h := header frame in
  let r := is_reply (kind h) in
  let c := class_of (kind h) in
  if negb (Z.land (identity h) 1 =? Z.b2z (bool_decide (c = CControl)))
  then (s, [], Err Invalid)
  else if negb (eqb r (bool_decide (role = Client))) then (s, [], Err Invalid)
  else
    match assemble r c frame s with
    | (s1, Ok _) =>
        if negb (final_fragment h) then (s1, [], Ok tt) else complete r c (identity h) s1
    | (s1, Err e) => (s1, [], Err e)
    | (s1, Panic) => (s1, [], Panic)
    end.

(** [wire::accept] *)
Definition accept_frame (role : Role) (frame : Frame) (s : State) : accepted :=
  match ensure_open s with
  | Err e => (s, [], Err e)
  | Panic => (s, [], Panic)
  | Ok _ =>
      let h := header frame in
      match kind h with
      | Request | ControlRequest | Reply | ControlReply => accept_message role frame s
      | Credit | Data =>
          match stream_from_raw (identity h) with
          | Err e => (s, [], Err e)
          | Panic => (s, [], Panic)
          | Ok id =>
              let index := Z.to_nat (stream_slot id) in
              match streams s !! index with
              | None => (s, [], Panic)
              | Some slot =>
                  let '(slot', r) := accept slot frame in
                  (set_streams (<[index := slot']> (streams s)) s, [], r)
              end
          end
      | Heartbeat =>
          if negb (bool_decide (role = Helper)) ||
             match heartbeat_ack s with Some _ => true | None => false end ||
             negb (bool_decide (checked_add u64_max (last_heartbeat s) 1 = Some (identity h)))
          then (s, [], Err Invalid)
          else
            (set_heartbeat_ack (Some (identity h)) (set_last_heartbeat (identity h) s),
             [HeartbeatSeen (identity h)], Ok tt)
      | HeartbeatAck =>
          if negb (bool_decide (role = Client)) || negb (heartbeat_dispatched s) ||
             negb (last_heartbeat s =? identity h)
          then (s, [], Err Invalid)
          else if negb (heartbeat_waiter s) then (s, [], Err Invalid)
          else
            (set_heartbeat_deadline None (set_heartbeat_dispatched false
               (set_heartbeat_waiter false s)), [HeartbeatSettled (Ok tt)], Ok tt)
      | Close => (s, [], Err Closed)
      end
  end.
End intake.

(** The stream calls of an open connection: [Connection::register_stream],
    [retire_stream], and the polls of [SendStream::send] and [ReceiveStream::next]. *)
Definition on_slot {A} (id : Z) (f : Slot → Slot * outcome Error A) (s : State)
  : State * outcome Error A :=
  match ensure_open s with
  | Err e => (s, Err e)
  | Panic => (s, Panic)
  | Ok _ =>
      let index := Z.to_nat (stream_slot id) in
      match streams s !! index with
      | None => (s, Panic)
      | Some slot =>
          let '(slot', r) := f slot in (set_streams (<[index := slot']> (streams s)) s, r)
      end
  end.

Definition register_stream (id : Z) (d : Direction) : State → State * outcome Error unit :=
  on_slot id (λ s, register_slot s id d).
Definition open_sender (id : Z) := register_stream id (Send (tx_new id)).
Definition open_receiver (id : Z) := register_stream id (Receive (rx_new id)).
Definition retire_stream (id : Z) : State → State * outcome Error unit :=
  on_slot id (λ s, retire_slot s id).
Definition send (id : Z) (bytes : list Z) (eof : bool) (s : State)
  : State * outcome Error (polled unit) :=
  match send_checks bytes eof with
  | Ok _ => on_slot id (λ slot, send_poll slot id bytes eof) s
  | Err e => (s, Err e)
  | Panic => (s, Panic)
  end.
Definition next (id : Z) : State → State * outcome Error (polled (option StreamChunk)) :=
  on_slot id (λ slot, next_poll slot id).

(** ** Closing settles every call once *)

Ltac open_state := repeat match goal with s : State |- _ => destruct s end; simpl in *.

(** Closing settles everything exactly once: every pending call is answered, with
    [OutcomeUnknown] exactly when a fragment of it was already handed to the writer and
    [Closed] otherwise, a waiting heartbeat is answered [Closed], no queue, assembly or
    stream survives, every charge of a retained message is returned, closing again has
    no effect, and from then on nothing is admitted or emitted. *)
Lemma close_settles_everything s s' effs :
  closed s = false → close s = (s', effs) →
  effs =
    ((λ e : Z * Pending,
        Settled e.1 (Err (if p_dispatched e.2 then OutcomeUnknown else Closed)))
       <$> pending s) ++
    (if heartbeat_waiter s then [HeartbeatSettled (Err Closed)] else []) ∧
  pending s' = [] ∧ inbound s' = [] ∧ assemblies s' = [] ∧ ordinary s' = [] ∧
  controls s' = [] ∧ heartbeat_waiter s' = false ∧
  Forall (λ slot, active slot = None) (streams s') ∧
  generation <$> streams s' = generation <$> streams s ∧
  (∀ c, at_class c (outgoing_budgets s') = at_class c (outgoing_budgets s)
          - queued_bytes (match c with COrdinary => ordinary s | CControl => controls s end) ∧
        at_class c (incoming_budgets s') = at_class c (incoming_budgets s)
          - assembly_bytes c (assemblies s)) ∧
  close s' = (s', []) ∧
  (∀ e, next_frame e s' = (s', Ok None)) ∧
  (∀ parse role f, accept_frame parse role f s' = (s', [], Err Closed)) ∧
  (∀ now p c, validate_payload p c = Ok tt → request Client now p c s' = (s', Err Closed)) ∧
  (∀ i p c, validate_payload p c = Ok tt → reply i c p s' = (s', Err Closed)).
Proof.
  intros Hopen. unfold close. rewrite Hopen. intros [= <- <-].
  split; [done|]. open_state. split_and!; try done.
  - apply Forall_fmap, Forall_true. done.
  - by rewrite <- list_fmap_compose.
  - by intros [].
  - intros now p c Hp. unfold request. by rewrite Hp.
  - intros i p c Hp. unfold reply. by rewrite Hp.
Qed.

(** ** The cursors serve streams in turn *)

Section rotation.
Context (yield : Slot → Slot * outcome Error (option Frame)).
Hypothesis yield_none : ∀ s, (yield s).2 = Ok None → (yield s).1 = s.

Definition busy (s : Slot) : bool :=
  match (yield s).2 with Ok None => false | _ => true end.

Lemma busy_false s : busy s = false ↔ (yield s).2 = Ok None.
Proof. unfold busy. by destruct (yield s).2 as [[f|]| |]. Qed.

Definition position (cursor : Z) (k : nat) : nat := Z.to_nat ((cursor + Z.of_nat k) mod STREAMS).

Lemma position_0 cursor : 0 ≤ cursor < STREAMS → position cursor 0 = Z.to_nat cursor.
Proof. intros. unfold position. rewrite Z.add_0_r, Z.mod_small by lia. done. Qed.

Lemma position_S cursor k : position ((cursor + 1) mod STREAMS) k = position cursor (S k).
Proof.
  unfold position. rewrite Z.add_mod_idemp_l by done. do 2 f_equal. lia.
Qed.

(** The scan serves the first slot, in cyclic order from the cursor, that has work. *)
Lemma scan_spec n slots cursor :
  length slots = Z.to_nat STREAMS → 0 ≤ cursor < STREAMS →
  (∃ k slot, (k < n)%nat ∧ slots !! position cursor k = Some slot ∧ busy slot = true ∧
     (∀ i s, (i < k)%nat → slots !! position cursor i = Some s → busy s = false) ∧
     scan yield n slots cursor =
       (<[position cursor k := (yield slot).1]> slots,
        (cursor + Z.of_nat k + 1) mod STREAMS, (yield slot).2)) ∨
  ((∀ i s, (i < n)%nat → slots !! position cursor i = Some s → busy s = false) ∧
   scan yield n slots cursor = (slots, (cursor + Z.of_nat n) mod STREAMS, Ok None)).
Proof.
  intros Hlen. revert cursor. induction n as [|n IH]; intros cursor Hc.
  { right. split; [lia|]. simpl. by rewrite Z.add_0_r, Z.mod_small by lia. }
  assert (∃ slot, slots !! Z.to_nat cursor = Some slot) as [slot Hslot].
  { apply lookup_lt_is_Some. lia. }
  simpl. rewrite Hslot. destruct (yield slot) as [slot' r] eqn:Hy.
  destruct (busy slot) eqn:Hb; [left|].
  - exists 0%nat, slot. rewrite position_0, Hy by done. simpl.
    split_and!; [lia|done|done|lia|]. rewrite Z.add_0_r.
    unfold busy in Hb. rewrite Hy in Hb. simpl in Hb.
    by destruct r as [[f|]| |].
  - apply busy_false in Hb. pose proof (yield_none slot Hb) as Hsame.
    rewrite Hy in Hb, Hsame. simpl in Hb, Hsame. subst slot' r.
    rewrite list_insert_id by done.
    assert (0 ≤ (cursor + 1) mod STREAMS < STREAMS) as Hc'
      by (apply Z.mod_pos_bound; done).
    assert (∀ s, slots !! position cursor 0 = Some s → busy s = false) as H0.
    { intros s. rewrite position_0, Hslot by done. intros [= <-].
      apply busy_false. by rewrite Hy. }
    assert (∀ m, (∀ i s, (i < m)%nat → slots !! position ((cursor + 1) mod STREAMS) i = Some s →
                    busy s = false) →
              ∀ i s, (i < S m)%nat → slots !! position cursor i = Some s → busy s = false)
      as Hshift.
    { intros m Hm [|i] s Hi; [by apply H0|]. rewrite <- position_S. apply Hm. lia. }
    assert (∀ m, ((cursor + 1) mod STREAMS + m) mod STREAMS = (cursor + (1 + m)) mod STREAMS)
      as Hmod.
    { intros m. rewrite Z.add_mod_idemp_l by done. f_equal. lia. }
    destruct (IH _ Hc') as [(k & s & Hk & Hs & Hns & Hbefore & ->)|[Hall ->]].
    + left. exists (S k), s. rewrite !position_S in *.
      split_and!; [lia|done|done|by apply Hshift|].
      rewrite <- !Z.add_assoc, Hmod. do 3 f_equal. lia.
    + right. split; [by apply Hshift|]. rewrite Hmod. do 3 f_equal. lia.
Qed.
End rotation.

Definition flow_ok (s : State) : Prop :=
  length (streams s) = Z.to_nat STREAMS ∧
  0 ≤ credit_cursor s < STREAMS ∧ 0 ≤ data_cursor s < STREAMS.

(** How many slots a cursor passes before it reaches slot [j]. *)
Definition distance (cursor j : Z) : Z := (j - cursor) mod STREAMS.

Lemma position_distance cursor j :
  0 ≤ j < STREAMS → position cursor (Z.to_nat (distance cursor j)) = Z.to_nat j.
Proof.
  intros Hj. unfold position, distance, STREAMS in *.
  pose proof (Z.mod_pos_bound (j - cursor) 64 ltac:(lia)).
  rewrite Z2Nat.id by lia. rewrite Z.add_mod_idemp_r by lia.
  replace (cursor + (j - cursor)) with j by lia. by rewrite Z.mod_small by lia.
Qed.

Lemma distance_advance cursor j k :
  0 ≤ k < distance cursor j →
  distance ((cursor + k + 1) mod STREAMS) j = distance cursor j - (k + 1).
Proof.
  unfold distance, STREAMS. intros Hk.
  pose proof (Z.mod_pos_bound (j - cursor) 64 ltac:(lia)).
  rewrite Zminus_mod_idemp_r.
  replace (j - (cursor + k + 1)) with ((j - cursor) - (k + 1)) by lia.
  rewrite <- Zminus_mod_idemp_l. apply Z.mod_small. lia.
Qed.

Lemma position_inj cursor i k :
  (i < Z.to_nat STREAMS)%nat → (k < Z.to_nat STREAMS)%nat →
  position cursor i = position cursor k → i = k.
Proof.
  unfold position, STREAMS. intros Hi Hk Heq.
  pose proof (Z.mod_pos_bound (cursor + Z.of_nat i) 64 ltac:(lia)).
  pose proof (Z.mod_pos_bound (cursor + Z.of_nat k) 64 ltac:(lia)).
  assert ((cursor + Z.of_nat i) mod 64 = (cursor + Z.of_nat k) mod 64) as Hm by lia.
  pose proof (Z.div_mod (cursor + Z.of_nat i) 64 ltac:(lia)).
  pose proof (Z.div_mod (cursor + Z.of_nat k) 64 ltac:(lia)). lia.
Qed.

Lemma scan_fair yield slots cursor j slot slots' cursor' r :
  (∀ s, (yield s).2 = Ok None → (yield s).1 = s) →
  length slots = Z.to_nat STREAMS → 0 ≤ cursor < STREAMS → 0 ≤ j < STREAMS →
  slots !! Z.to_nat j = Some slot → busy yield slot = true →
  scan yield (Z.to_nat STREAMS) slots cursor = (slots', cursor', r) →
  r ≠ Ok None ∧
  ((slots' = <[Z.to_nat j := (yield slot).1]> slots ∧ r = (yield slot).2) ∨
   (slots' !! Z.to_nat j = Some slot ∧ distance cursor' j < distance cursor j)).
Proof.
  intros Hnone Hlen Hc Hj Hslot Hbusy Hscan.
  pose proof (position_distance cursor j Hj) as Hpos.
  assert (0 ≤ distance cursor j < STREAMS) as Hd by (apply Z.mod_pos_bound; done).
  destruct (scan_spec yield Hnone (Z.to_nat STREAMS) slots cursor Hlen Hc)
    as [(k & served & Hk & Hserved & Hb & Hbefore & Hres)|[Hall _]].
  - rewrite Hscan in Hres. injection Hres as -> -> ->. split.
    { intros Hr. apply busy_false in Hr. congruence. }
    destruct (decide (k = Z.to_nat (distance cursor j))) as [->|Hne].
    + left. rewrite Hpos in *. by simplify_eq.
    + right. assert (k < Z.to_nat (distance cursor j))%nat as Hlt.
      { destruct (decide (Z.to_nat (distance cursor j) < k)%nat) as [Hlt|]; [|lia].
        rewrite <- Hpos in Hslot. rewrite (Hbefore _ _ Hlt Hslot) in Hbusy. done. }
      split.
      * rewrite list_lookup_insert_ne; [done|]. rewrite <- Hpos.
        intros Heq%position_inj; lia.
      * rewrite distance_advance by lia. lia.
  - exfalso. rewrite <- Hpos in Hslot.
    rewrite (Hall (Z.to_nat (distance cursor j)) slot) in Hbusy; [done|lia|done].
Qed.

Lemma data_frame_none e s : (data_frame e s).2 = Ok None → (data_frame e s).1 = s.
Proof.
  unfold data_frame. destruct (active s) as [[tx|rx]|]; [|done..].
  destruct (tx_queue tx) as [|[n c] q]; [done|]. simpl. by destruct (frame_new _ _ _ _ _ _).
Qed.

Lemma credit_frame_none e s : (credit_frame e s).2 = Ok None → (credit_frame e s).1 = s.
Proof. unfold credit_frame. by repeat case_match. Qed.

(** No stream starves: while a slot has a data frame to send, every pass over the
    streams emits something, and it either serves that slot or moves the cursor strictly
    closer to it, so 64 passes suffice; credit grants rotate the same way. *)
Lemma stream_rotation_fair e s s' r j slot :
  flow_ok s → 0 ≤ j < STREAMS → streams s !! Z.to_nat j = Some slot →
  (busy (data_frame e) slot = true → data_frames e s = (s', r) →
   r ≠ Ok None ∧
   ((streams s' = <[Z.to_nat j := (data_frame e slot).1]> (streams s) ∧
     r = (data_frame e slot).2) ∨
    (streams s' !! Z.to_nat j = Some slot ∧
     distance (data_cursor s') j < distance (data_cursor s) j))) ∧
  (busy (credit_frame e) slot = true → credit_frames e s = (s', r) →
   r ≠ Ok None ∧
   ((streams s' = <[Z.to_nat j := (credit_frame e slot).1]> (streams s) ∧
     r = (credit_frame e slot).2) ∨
    (streams s' !! Z.to_nat j = Some slot ∧
     distance (credit_cursor s') j < distance (credit_cursor s) j))).
Proof.
  intros (Hlen & Hc & Hd) Hj Hslot. unfold data_frames, credit_frames. split; intros Hbusy.
  - destruct (scan _ _ _ _) as [[slots cursor] r'] eqn:Hscan. intros [= <- <-].
    pose proof (scan_fair _ _ _ j slot _ _ _ (data_frame_none e) Hlen Hd Hj Hslot Hbusy Hscan).
    by destruct s.
  - destruct (scan _ _ _ _) as [[slots cursor] r'] eqn:Hscan. intros [= <- <-].
    pose proof (scan_fair _ _ _ j slot _ _ _ (credit_frame_none e) Hlen Hc Hj Hslot Hbusy Hscan).
    by destruct s.
Qed.

(** ** The order in which frames are emitted *)

Lemma scan_none yield slots cursor slots' cursor' r :
  (∀ s, (yield s).2 = Ok None → (yield s).1 = s) →
  length slots = Z.to_nat STREAMS → 0 ≤ cursor < STREAMS →
  scan yield (Z.to_nat STREAMS) slots cursor = (slots', cursor', r) →
  if existsb (busy yield) slots
  then ∃ slot, r = (yield slot).2 ∧ r ≠ Ok None
  else r = Ok None ∧ slots' = slots ∧ cursor' = cursor.
Proof.
  intros Hnone Hlen Hc Hscan.
  destruct (scan_spec yield Hnone (Z.to_nat STREAMS) slots cursor Hlen Hc)
    as [(k & served & Hk & Hserved & Hb & _ & Hres)|[Hall Hres]];
    rewrite Hscan in Hres; injection Hres as -> -> ->.
  - replace (existsb (busy yield) slots) with true.
    + exists served. split; [done|]. intros Hr%busy_false. congruence.
    + symmetry. apply existsb_exists. exists served. split; [|done].
      apply list_elem_of_In. by eapply list_elem_of_lookup_2.
  - replace (existsb (busy yield) slots) with false.
    + split_and!; [done|done|]. unfold STREAMS in *.
      rewrite Z.add_mod, Z.mod_same, Z.add_0_r, Z.mod_mod, Z.mod_small by lia. done.
    + symmetry. apply not_true_is_false. intros (s & Hs & Hbusy)%existsb_exists.
      apply list_elem_of_In, list_elem_of_lookup_1 in Hs as [j Hj].
      pose proof (lookup_lt_Some _ _ _ Hj). unfold STREAMS in *.
      assert (0 ≤ distance cursor (Z.of_nat j) < 64) by (apply Z.mod_pos_bound; lia).
      rewrite (Hall (Z.to_nat (distance cursor (Z.of_nat j))) s) in Hbusy; [done|lia|].
      rewrite position_distance by (unfold STREAMS; lia). by rewrite Nat2Z.id.
Qed.

Lemma credit_frame_kind e s f : (credit_frame e s).2 = Ok (Some f) → kind (header f) = Credit.
Proof.
  unfold credit_frame. repeat case_match; try done. simpl. intros [= <-].
  destruct (frame_new _ _ _ _ _ _) eqn:Hf; simplify_eq/=.
  by apply frame_new_ok in Hf as [-> _].
Qed.

Lemma data_frame_kind e s f : (data_frame e s).2 = Ok (Some f) → kind (header f) = Data.
Proof.
  unfold data_frame. destruct (active s) as [[tx|rx]|]; [|done..].
  destruct (tx_queue tx) as [|[n c] q]; [done|]. simpl.
  destruct (frame_new _ _ _ _ _ _) eqn:Hf; [|done..]. simpl. intros [= <-].
  by apply frame_new_ok in Hf as [-> _].
Qed.

(** The kind of the fragments of an outgoing message. *)
Definition outgoing_kind (o : Outgoing) : FrameKind :=
  if o_reply o then class_reply (o_class o) else class_request (o_class o).

Definition is_fragment (o : Outgoing) (f : Frame) : Prop :=
  kind (header f) = outgoing_kind o ∧ identity (header f) = o_identity o.

Lemma fragment_header e o o' f :
  fragment e o = (o', Ok f) → is_fragment o f.
Proof.
  unfold fragment. destruct (frame_new _ _ _ _ _ _) eqn:Hf; [|done..]. simpl.
  intros [= <- <-]. by apply frame_new_ok in Hf as [-> _].
Qed.

Lemma emit_message_frame e o s s' f :
  emit_message e o s = (s', Ok (Some f)) → is_fragment o f ∧ prefer_data s' = prefer_data s.
Proof.
  unfold emit_message. destruct (fragment e o) as [o' [fr| |]] eqn:Hfr; [|done..].
  apply fragment_header in Hfr.
  destruct (o_reply o) eqn:Hr; [|destruct (bt_get (o_identity o) (pending s)); [|done]];
    intros [= <- <-]; (split; [done|]); destruct s; simpl;
    destruct (final_fragment (header fr)); simpl; try done;
    unfold enqueue; by destruct (o_class o').
Qed.

Lemma beat_frame k n e f :
  some_frame (frame_new e k n 0 true []) = Ok (Some f) →
  kind (header f) = k ∧ identity (header f) = n.
Proof.
  unfold some_frame. destruct (frame_new _ _ _ _ _ _) eqn:Hf; [|done..].
  simpl. intros [= <-]. by apply frame_new_ok in Hf as [-> _].
Qed.

Lemma credit_frames_spec e s s1 r :
  flow_ok s → credit_frames e s = (s1, r) →
  if existsb (busy (credit_frame e)) (streams s)
  then r ≠ Ok None ∧ (∀ f, r = Ok (Some f) → kind (header f) = Credit)
  else r = Ok None ∧ s1 = s.
Proof.
  intros (Hlen & Hc & _). unfold credit_frames.
  destruct (scan _ _ _ _) as [[slots cursor] r'] eqn:Hscan.
  apply (scan_none _ _ _ _ _ _ (credit_frame_none e) Hlen Hc) in Hscan.
  intros [= <- <-]. destruct (existsb _ _).
  - destruct Hscan as (slot & -> & Hne). split; [done|]. intros f. apply credit_frame_kind.
  - destruct Hscan as (-> & -> & ->). split; [done|]. by destruct s.
Qed.

Lemma data_frames_spec e s s1 r :
  flow_ok s → data_frames e s = (s1, r) →
  if existsb (busy (data_frame e)) (streams s)
  then r ≠ Ok None ∧ (∀ f, r = Ok (Some f) → kind (header f) = Data)
  else r = Ok None ∧ s1 = s.
Proof.
  intros (Hlen & _ & Hd). unfold data_frames.
  destruct (scan _ _ _ _) as [[slots cursor] r'] eqn:Hscan.
  apply (scan_none _ _ _ _ _ _ (data_frame_none e) Hlen Hd) in Hscan.
  intros [= <- <-]. destruct (existsb _ _).
  - destruct Hscan as (slot & -> & Hne). split; [done|]. intros f. apply data_frame_kind.
  - destruct Hscan as (-> & -> & ->). split; [done|]. by destruct s.
Qed.

(** The writer's order: acknowledgements precede heartbeats, then reserved controls,
    then credit grants; below those, when both a stream has data and an ordinary message
    waits, the frames alternate between the two, and neither is ever passed over when
    the other has nothing to send. *)
Lemma next_frame_order e s s' f :
  flow_ok s → closed s = false → next_frame e s = (s', Ok (Some f)) →
  match heartbeat_ack s, heartbeat_to_send s, controls s with
  | Some n, _, _ => kind (header f) = HeartbeatAck ∧ identity (header f) = n
  | None, Some n, _ => kind (header f) = Heartbeat ∧ identity (header f) = n
  | None, None, o :: _ => is_fragment o f
  | None, None, [] =>
      if existsb (busy (credit_frame e)) (streams s) then kind (header f) = Credit
      else
        match ordinary s with
        | [] => kind (header f) = Data
        | o :: _ =>
            if existsb (busy (data_frame e)) (streams s) then
              (if prefer_data s then kind (header f) = Data else is_fragment o f) ∧
              prefer_data s' = negb (prefer_data s)
            else is_fragment o f ∧ prefer_data s' = true
        end
  end.
Proof.
  intros Hflow Hopen. unfold next_frame. rewrite Hopen.
  destruct (heartbeat_ack s); [intros [= _ Hf]; by eapply beat_frame|].
  destruct (heartbeat_to_send s); [intros [= _ Hf]; by eapply beat_frame|].
  destruct (controls s) as [|o rest]; [|by intros [Hm _]%emit_message_frame].
  destruct (credit_frames e s) as [s0 r0] eqn:Hcf.
  pose proof (credit_frames_spec e s s0 r0 Hflow Hcf) as Hcredit.
  destruct (existsb (busy (credit_frame e)) (streams s)).
  { destruct Hcredit as [Hne Hk]. destruct r0 as [[fr|]| |]; try done.
    intros [= _ <-]. by apply Hk. }
  destruct Hcredit as [-> ->]. unfold next_payload.
  assert (∀ o rest x, emit_message e o (set_prefer_data true (set_ordinary rest x))
    = (s', Ok (Some f)) → is_fragment o f ∧ prefer_data s' = true) as Hmsg.
  { intros o rest x [Hfrag ->]%emit_message_frame. split; [done|]. by destruct x. }
  destruct (data_frames e s) as [s1 r1] eqn:Hdf.
  pose proof (data_frames_spec e s s1 r1 Hflow Hdf) as Hdata.
  destruct (existsb (busy (data_frame e)) (streams s)).
  - destruct Hdata as [Hne Hkind].
    destruct (prefer_data s) eqn:Hp; destruct (ordinary s) as [|o rest] eqn:Ho;
      rewrite ?Hdf; destruct r1 as [[fr|]| |]; try done; try (intros [= <- <-]; eauto);
      try (split; [by apply Hkind|by destruct s1]); by eapply Hmsg.
  - destruct Hdata as (-> & ->).
    destruct (prefer_data s); destruct (ordinary s) as [|o rest] eqn:Ho;
      rewrite ?Hdf; try done; by apply Hmsg.
Qed.

(** ** Witnesses: a client with one dispatched and one queued call and a stream *)

Definition then_state {A} (f : State → State * A) (s : State) : State := (f s).1.

Definition granted_slot : Slot := sender (after [EmitCredit; AcceptCredit]).
Definition sent_slot : Slot := (send_poll granted_slot 65 [7] false).1.

Definition busy_client : State :=
  then_state (send 65 [7] false)
    (then_state (request Client 0 [1; 2] COrdinary)
      (then_state (next_frame 9)
        (then_state (request Client 0 [123; 125] COrdinary)
          (set_streams
             (<[1%nat := granted_slot]> (streams state_new)) state_new)))).

Lemma busy_client_flow : flow_ok busy_client.
Proof. vm_compute. by repeat split. Qed.

Lemma close_settles_everything_witness :
  (close busy_client).2 =
    [Settled 2 (Err OutcomeUnknown); Settled 4 (Err Closed)] ∧
  pending (close busy_client).1 = [].
Proof.
  destruct (close_settles_everything busy_client (close busy_client).1 (close busy_client).2)
    as (-> & -> & _); by vm_compute.
Defined.

(** An ordinary message was emitted last, so the stream comes first now. *)
Definition waiting_frame : Frame :=
  data_of 9 65 (0, {| chunk_bytes := [7]; chunk_eof := false |}).

Lemma next_frame_order_witness :
  kind (header waiting_frame) = Data ∧
  prefer_data (next_frame 9 busy_client).1 = false.
Proof.
  assert (next_frame 9 busy_client = ((next_frame 9 busy_client).1, Ok (Some waiting_frame)))
    as Hnext by by vm_compute.
  pose proof (next_frame_order 9 busy_client _ _ busy_client_flow eq_refl Hnext) as H.
  revert H. generalize (prefer_data (next_frame 9 busy_client).1). vm_compute. naive_solver.
Defined.

Lemma stream_rotation_fair_witness :
  (data_frames 9 busy_client).2 ≠ Ok None.
Proof.
  destruct (stream_rotation_fair 9 busy_client (data_frames 9 busy_client).1
              (data_frames 9 busy_client).2 1 sent_slot) as [Hdata _];
    [apply busy_client_flow|by vm_compute|by vm_compute|].
  apply Hdata; by vm_compute.
Defined.
