(* ===== verification/SshCalls.v ===== *)
(** * Histories of an SSH helper connection

    The operations of [SshTransport] composed as the tasks of [wire.rs] and the public
    calls compose them: a refused frame or a failed emission stops its task, which
    closes the connection.  Over every history: each issued call is settled exactly
    once, messages are reassembled exactly, and the payload budgets are conserved. *)

From S2P Require Import Prelude BTree Bytes SshFrame SshStream SshTransport.

(** The class a request identity was issued for: the low bit. *)
Definition class_of_identity (i : Z) : Class :=
  if Z.land i 1 =? 1 then CControl else COrdinary.

Inductive op :=
| ORequest (now : Z) (payload : list Z) (c : Class)
| OReply (i : Z) (c : Class) (payload : list Z)
| OHeartbeat (now : Z)
| OExpire (now : Z)
| OClose
| OFrame (f : Frame)
| OEmit
| ORegister (id : Z) (d : Direction)
| ORetire (id : Z)
| OSend (id : Z) (bytes : list Z) (eof : bool)
| ORead (id : Z).

Section history.
Context (parse_control : list Z → option Control) (role : Role) (e : Z).

(** A task that stops on an error drops its [TaskSettlement], which closes. *)
Definition or_close {A} (s : State) (effs : list effect) (r : outcome Error A)
  : State * list effect :=
  match r with
  | Ok _ => (s, effs)
  | _ => let '(s', effs') := close s in (s', effs ++ effs')
  end.

Definition do_op (o : op) (s : State) : State * list effect :=
  match o with
  | ORequest now payload c => ((request role now payload c s).1, [])
  | OReply i c payload => ((reply i c payload s).1, [])
  | OHeartbeat now => ((heartbeat role now s).1, [])
  | OExpire now => expire now s
  | OClose => close s
  | OFrame f => let '(s', effs, r) := accept_frame parse_control role f s in or_close s' effs r
  | OEmit => let '(s', r) := next_frame e s in or_close s' [] r
  | ORegister id d => ((register_stream id d s).1, [])
  | ORetire id => ((retire_stream id s).1, [])
  | OSend id bytes eof => ((send id bytes eof s).1, [])
  | ORead id => ((next id s).1, [])
  end.

(** The identity that an operation issues. *)
Definition issues (o : op) (s : State) : list Z :=
  match o with
  | ORequest now payload c =>
      match (request role now payload c s).2 with Ok i => [i] | _ => [] end
  | _ => []
  end.

Record system := { st : State; log : list effect; issued : list Z }.

Definition start : system := {| st := state_new; log := []; issued := [] |}.

Definition step (y : system) (o : op) : system :=
  let '(s, effs) := do_op o (st y) in
  {| st := s; log := log y ++ effs; issued := issued y ++ issues o (st y) |}.

Definition run (ops : list op) : system := foldl step start ops.

(** ** Calls settle exactly once *)

Definition settled (effs : list effect) : list Z :=
  omap (λ x, match x with Settled i _ => Some i | _ => None end) effs.

Definition call_ids (m : bmap Pending) : list (Z * Class) := (λ p, (p.1, p_class p.2)) <$> m.

(** The ways an operation changes the pending calls. *)
Inductive calls_change (s : State) (effs : list effect) (new : list Z) (s' : State) : Prop :=
| calls_same :
    call_ids (pending s') = call_ids (pending s) → next_request s' = next_request s →
    closed s' = closed s → settled effs = [] → new = [] → calls_change s effs new s'
| calls_issue i c :
    i / 2 = next_request s → class_of_identity i = c → closed s = false →
    (∃ p, p_class p = c ∧ pending s' = bt_insert i p (pending s)) →
    next_request s' = next_request s + 1 → closed s' = false →
    settled effs = [] → new = [i] → calls_change s effs new s'
| calls_settle i p :
    bt_get i (pending s) = Some p → pending s' = bt_remove i (pending s) →
    next_request s' = next_request s → closed s' = closed s →
    settled effs = [i] → new = [] → calls_change s effs new s'
| calls_close :
    pending s' = [] → next_request s' = next_request s → closed s' = true →
    settled effs = (pending s).*1 → new = [] → calls_change s effs new s'.

Record calls_inv (y : system) : Prop := {
  ci_wf : bt_wf (pending (st y));
  ci_next : 1 ≤ next_request (st y);
  ci_class : Forall (λ p, class_of_identity p.1 = p_class p.2) (pending (st y));
  ci_issued : issued y ≡ₚ (pending (st y)).*1 ++ settled (log y);
  ci_nodup : NoDup (issued y);
  ci_old : Forall (λ i, 1 ≤ i / 2 < next_request (st y)) (issued y);
  ci_closed : closed (st y) = true → pending (st y) = [];
}.

Lemma call_ids_fst m : (call_ids m).*1 = m.*1.
Proof. unfold call_ids. rewrite <- list_fmap_compose. by apply list_fmap_ext. Qed.

Lemma call_ids_class m :
  Forall (λ p, class_of_identity p.1 = p_class p.2) m ↔
  Forall (λ p, class_of_identity p.1 = p.2) (call_ids m).
Proof. unfold call_ids. by rewrite Forall_fmap. Qed.

Lemma settled_app a b : settled (a ++ b) = settled a ++ settled b.
Proof. apply omap_app. Qed.

Lemma calls_change_inv y effs new s' :
  calls_inv y → calls_change (st y) effs new s' →
  calls_inv {| st := s'; log := log y ++ effs; issued := issued y ++ new |}.
Proof.
  intros [] [Hp Hn Hc Hs ->|i c Hi Hcl Hopen (p & Hpc & Hp) Hn Hc Hs ->|
             i p Hi Hp Hn Hc Hs ->|Hp Hn Hc Hs ->];
    split; cbn [st log issued]; rewrite ?app_nil_r, ?settled_app, ?Hn, ?Hs, ?app_nil_r;
    try done; try lia.
  - unfold bt_wf. by rewrite <- call_ids_fst, Hp, call_ids_fst.
  - by rewrite call_ids_class, Hp, <- call_ids_class.
  - by rewrite <- (call_ids_fst (pending s')), Hp, call_ids_fst.
  - rewrite Hc. intros Hcl%ci_closed0. rewrite Hcl in Hp. by destruct (pending s').
  - rewrite Hp. by apply bt_wf_insert.
  - rewrite Hp. apply bt_insert_Forall; [simpl; congruence|done].
  - rewrite Hp, bt_insert_perm by done. csimpl.
    assert (bt_get i (pending (st y)) = None) as Hfresh.
    { apply bt_get_None. intros Hin.
      assert (i ∈ issued y) as Hiss by (rewrite ci_issued0; set_solver).
      rewrite Forall_forall in ci_old0. apply ci_old0 in Hiss. lia. }
    rewrite bt_remove_absent by done. rewrite ci_issued0, Permutation_app_comm. done.
  - apply NoDup_app. split; [done|]. split; [|apply NoDup_singleton].
    intros j Hj ->%list_elem_of_singleton.
    rewrite Forall_forall in ci_old0. apply ci_old0 in Hj. lia.
  - apply Forall_app. split; [forall_lia|]. repeat constructor; lia.
  - rewrite Hp. by apply bt_wf_remove.
  - rewrite Hp. by apply Forall_keep.
  - rewrite ci_issued0, Hp. rewrite (bt_remove_perm i p (pending (st y))) at 1 by done.
    csimpl. by rewrite (assoc_L (++)), (Permutation_app_comm _ [i]).
  - rewrite Hp, Hc. intros Hcl%ci_closed0. by rewrite Hcl.
  - rewrite Hp. constructor.
  - rewrite Hp. constructor.
  - rewrite Hp, ci_issued0. simpl. apply Permutation_app_comm.
Qed.

(** *** What each operation does to the pending calls *)

Lemma settled_map (h : Z * Pending → outcome Error (list Z)) m :
  settled ((λ x, Settled x.1 (h x)) <$> m) = m.*1.
Proof. unfold settled. induction m as [|x m IH]; [done|]. csimpl. by rewrite IH. Qed.

Lemma close_change s s' effs : close s = (s', effs) → calls_change s effs [] s'.
Proof.
  unfold close. destruct (closed s) eqn:Hc.
  - intros [= <- <-]. by apply calls_same.
  - intros [= <- <-]. apply calls_close; try by destruct s.
    rewrite settled_app, settled_map. destruct (heartbeat_waiter s); by rewrite app_nil_r.
Qed.

Lemma land_1 x : Z.land x 1 = x mod 2.
Proof. by apply (Z.land_ones x 1). Qed.

Lemma request_identity n c :
  let i := Z.lor (Z.shiftl n 1) (Z.b2z (bool_decide (c = CControl))) in
  i / 2 = n ∧ class_of_identity i = c ∧ i = 2 * n + Z.b2z (bool_decide (c = CControl)).
Proof.
  intros i.
  assert (i = 2 * n + Z.b2z (bool_decide (c = CControl))) as Hi.
  { unfold i. rewrite <- Z.add_nocarry_lor.
    - rewrite Z.shiftl_mul_pow2 by lia. lia.
    - apply Z.bits_inj'. intros k Hk. rewrite Z.land_spec, Z.bits_0.
      destruct (Z.eq_dec k 0) as [->|]; [by rewrite Z.shiftl_spec_low|].
      rewrite andb_comm. replace (Z.testbit (Z.b2z _) k) with false; [done|].
      symmetry. by destruct (bool_decide _), k. }
  split; [|split]; [| |done]; rewrite Hi.
  - replace (2 * n) with (n * 2) by lia. rewrite Z.div_add_l, Z.div_small by (lia || by destruct (bool_decide _)).
    lia.
  - unfold class_of_identity. rewrite land_1.
    replace (2 * n) with (n * 2) by lia. rewrite Z.add_comm, Z.mod_add by lia.
    by destruct c.
Qed.

Lemma request_change now payload c s s' r :
  request role now payload c s = (s', r) →
  calls_change s [] (match r with Ok i => [i] | _ => [] end) s'.
Proof.
  unfold request.
  repeat (case_match; try (intros [= <- <-]; by apply calls_same)).
  destruct (request_identity (next_request s) c) as (Hdiv & Hcl & _).
  intros [= <- <-]. eapply calls_issue; [exact Hdiv|exact Hcl|..]; try done.
  - unfold ensure_open in *. by destruct (closed s).
  - eexists. split; [|unfold enqueue; destruct c; by destruct s]. done.
  - unfold checked_add in *. repeat case_match; simplify_eq.
    unfold enqueue. destruct c; by destruct s.
  - unfold ensure_open in *. unfold enqueue. destruct c; destruct s; simpl in *; by case_match.
Qed.

(** A change that leaves every projection used here alone. *)
Definition calls_frame (s s' : State) : Prop :=
  call_ids (pending s') = call_ids (pending s) ∧ next_request s' = next_request s ∧
  closed s' = closed s.

Lemma calls_frame_change s s' effs :
  calls_frame s s' → settled effs = [] → calls_change s effs [] s'.
Proof. intros (? & ? & ?) ?. by apply calls_same. Qed.

Lemma or_close_change {A} s s' effs (r : outcome Error A) s2 effs2 :
  calls_frame s s' → settled effs = [] → or_close s' effs r = (s2, effs2) →
  calls_change s effs2 [] s2.
Proof.
  intros (Hp & Hn & Hc) He. unfold or_close.
  assert ((pending s').*1 = (pending s).*1) as Hk by (by rewrite <- !call_ids_fst, Hp).
  assert (∀ s3 effs3, close s' = (s3, effs3) → calls_change s (effs ++ effs3) [] s3) as Hclose.
  { intros s3 effs3. unfold close. destruct (closed s') eqn:Hopen; intros [= <- <-].
    - apply calls_same; rewrite ?app_nil_r; congruence.
    - apply calls_close; try (destruct s'; simpl in *; congruence).
      rewrite !settled_app, He, settled_map, Hk. destruct (heartbeat_waiter s'); apply app_nil_r. }
  destruct r; [intros [= <- <-]; by apply calls_same|..];
    destruct (close s') as [s3 effs3]; intros [= <- <-]; by apply Hclose.
Qed.

Lemma on_slot_frame {A} id (f : Slot → Slot * outcome Error A) s :
  calls_frame s (on_slot id f s).1.
Proof.
  unfold on_slot. repeat case_match; try done. simpl. by destruct s.
Qed.

Lemma send_frame id bytes eof s : calls_frame s (send id bytes eof s).1.
Proof. unfold send. case_match; try done. apply on_slot_frame. Qed.

Lemma reply_frame i c p s : calls_frame s (reply i c p s).1.
Proof.
  unfold reply. repeat (case_match; try done). simpl. unfold enqueue. destruct c; by destruct s.
Qed.

Lemma heartbeat_frame now s : calls_frame s (heartbeat role now s).1.
Proof. unfold heartbeat. repeat (case_match; try done). by destruct s. Qed.

Lemma emit_message_calls o s s' r :
  bt_wf (pending s) → emit_message e o s = (s', r) → calls_frame s s'.
Proof.
  intros Hwf. unfold emit_message, calls_frame.
  destruct (fragment e o) as [o' [f| |]]; [|intros [= <- _]; by destruct s..].
  destruct (o_reply o); [|destruct (bt_get (o_identity o) (pending s)) as [p|] eqn:Hp;
    [|intros [= <- _]; by destruct s]]; intros [= <- _].
  - unfold enqueue, refund_out. destruct (final_fragment _), (o_class o'); by destruct s.
  - assert (∀ q, p_class q = p_class p →
      call_ids (bt_insert (o_identity o) q (pending s)) = call_ids (pending s)) as Hins.
    { intros q Hq. unfold call_ids. eapply bt_insert_view; [done|done|]. simpl. by rewrite Hq. }
    unfold enqueue, refund_out. destruct (final_fragment _), (o_class o'); destruct s; simpl in *;
      by rewrite Hins.
Qed.

Lemma calls_frame_trans s1 s2 s3 : calls_frame s1 s2 → calls_frame s2 s3 → calls_frame s1 s3.
Proof. intros (? & ? & ?) (? & ? & ?). split_and!; congruence. Qed.

Lemma calls_frame_wf s s' : calls_frame s s' → bt_wf (pending s) → bt_wf (pending s').
Proof. intros (Hp & _) Hwf. unfold bt_wf. by rewrite <- call_ids_fst, Hp, call_ids_fst. Qed.

Lemma credit_frames_calls s : calls_frame s (credit_frames e s).1.
Proof. unfold credit_frames. destruct (scan _ _ _ _) as [[] ]. by destruct s. Qed.

Lemma data_frames_calls s : calls_frame s (data_frames e s).1.
Proof. unfold data_frames. destruct (scan _ _ _ _) as [[] ]. by destruct s. Qed.

Lemma next_payload_calls s : bt_wf (pending s) → calls_frame s (next_payload e s).1.
Proof.
  intros Hwf. unfold next_payload. destruct (ordinary s) as [|o rest]; [apply data_frames_calls|].
  destruct (emit_message e o _) as [s' r] eqn:He. simpl.
  assert (calls_frame s (set_prefer_data true (set_ordinary rest s))) as Hf by by destruct s.
  eapply calls_frame_trans; [exact Hf|].
  eapply emit_message_calls; [by eapply calls_frame_wf|exact He].
Qed.

Lemma next_frame_calls s : bt_wf (pending s) → calls_frame s (next_frame e s).1.
Proof.
  intros Hwf. unfold next_frame. destruct (closed s); [done|].
  destruct (heartbeat_ack s); [by destruct s|]. destruct (heartbeat_to_send s); [by destruct s|].
  destruct (controls s) as [|o rest].
  - pose proof (credit_frames_calls s) as H1. destruct (credit_frames e s) as [s1 r1]. simpl in H1.
    pose proof (calls_frame_wf _ _ H1 Hwf) as Hwf1.
    destruct r1 as [[f|]| |]; try done.
    destruct (prefer_data s1);
      [|eapply calls_frame_trans; [exact H1|by apply next_payload_calls]].
    pose proof (data_frames_calls s1) as H2. destruct (data_frames e s1) as [s2 r2]. simpl in H2.
    pose proof (calls_frame_wf _ _ H2 Hwf1) as Hwf2.
    eapply calls_frame_trans; [exact H1|]. destruct r2 as [[f|]| |]; try done.
    + eapply calls_frame_trans; [exact H2|by destruct s2].
    + eapply calls_frame_trans; [exact H2|by apply next_payload_calls].
  - destruct (emit_message e o _) as [s' r] eqn:He. simpl.
    assert (calls_frame s (set_controls rest s)) as Hf by by destruct s.
    eapply calls_frame_trans; [exact Hf|].
    eapply emit_message_calls; [by eapply calls_frame_wf|exact He].
Qed.

(** The intake of a fragment does not touch the pending calls. *)
Definition calls_eq (s s' : State) : Prop :=
  pending s' = pending s ∧ next_request s' = next_request s ∧ closed s' = closed s.

Lemma calls_eq_frame s s' : calls_eq s s' → calls_frame s s'.
Proof. intros (? & ? & ?). split_and!; congruence. Qed.

Lemma calls_eq_change s s1 s' effs new :
  calls_eq s s1 → calls_change s1 effs new s' → calls_change s effs new s'.
Proof.
  intros (Hp & Hn & Hc) [|i c Hi Hcl Ho (p & Hpc & Hp') ????|i p Hi Hp' ????|].
  - apply calls_same; congruence.
  - apply (calls_issue _ _ _ _ i c); try congruence. exists p. split; congruence.
  - apply (calls_settle _ _ _ _ i p); congruence.
  - apply calls_close; congruence.
Qed.

Lemma admit_first_calls r c i s : calls_eq s (admit_first r c i s).1.
Proof. unfold admit_first. repeat (case_match; try done). by destruct s. Qed.

Lemma assemble_calls r c f s : calls_eq s (assemble r c f s).1.
Proof.
  unfold assemble. destruct (sequence (header f) =? 0).
  - destruct (bt_contains _ _); [done|].
    pose proof (admit_first_calls r c (identity (header f)) s) as (Hp & Hn & Hc).
    destruct (admit_first _ _ _ _) as [s1 [u| |]]; try done. simpl in *.
    destruct (charge _ _); split_and!; destruct s1; simpl in *; congruence.
  - repeat (case_match; try done); by destruct s.
Qed.

(** An accepted frame may settle a call; a refused one leaves the calls alone. *)
Definition accept_post (s : State) (x : accepted) : Prop :=
  let '(s', effs, res) := x in
  match res with
  | Ok _ => calls_change s effs [] s'
  | _ => calls_frame s s' ∧ settled effs = []
  end.

Lemma accept_post_frame s s' effs res :
  calls_frame s s' → settled effs = [] → accept_post s (s', effs, res).
Proof. intros. unfold accept_post. destruct res; auto using calls_frame_change. Qed.

Lemma complete_calls r c i s : accept_post s (complete parse_control r c i s).
Proof.
  unfold complete, refund_in.
  destruct (bt_get i (assemblies s)) as [a|]; [|by apply accept_post_frame].
  destruct r.
  - assert (pending (set_assemblies (bt_remove i (assemblies s)) s) = pending s) as -> by by destruct s.
    destruct (bt_get i (pending s)) as [p|] eqn:Hp; [|apply accept_post_frame; by destruct s].
    by eapply calls_settle; [exact Hp|destruct s..].
  - repeat case_match; apply accept_post_frame; by destruct s.
Qed.

Lemma accept_message_calls f s : accept_post s (accept_message parse_control role f s).
Proof.
  unfold accept_message. case_match; [by apply accept_post_frame|].
  case_match; [by apply accept_post_frame|].
  pose proof (assemble_calls (is_reply (kind (header f))) (class_of (kind (header f))) f s) as Ha.
  destruct (assemble _ _ _ _) as [s1 [u| |]]; simpl in Ha; pose proof (calls_eq_frame _ _ Ha);
    [|by apply accept_post_frame|by apply accept_post_frame].
  case_match; [by apply accept_post_frame|].
  pose proof (complete_calls (is_reply (kind (header f))) (class_of (kind (header f)))
                (identity (header f)) s1) as Hcomp.
  destruct (complete _ _ _ _ _) as [[s2 effs] []]; simpl in *.
  - by eapply calls_eq_change.
  - destruct Hcomp. split; [|done]. by eapply calls_frame_trans.
  - destruct Hcomp. split; [|done]. by eapply calls_frame_trans.
Qed.

Lemma accept_frame_calls f s : accept_post s (accept_frame parse_control role f s).
Proof.
  unfold accept_frame. destruct (ensure_open s); [|by apply accept_post_frame..].
  destruct (kind (header f)); try apply accept_message_calls;
    repeat case_match; apply accept_post_frame; try done; by destruct s.
Qed.

Lemma do_op_change o s s' effs :
  bt_wf (pending s) → do_op o s = (s', effs) → calls_change s effs (issues o s) s'.
Proof.
  intros Hwf. unfold do_op, issues.
  assert (∀ x, calls_frame s x → (x, []) = (s', effs) → calls_change s effs [] s') as Hsame.
  { intros x Hx [= <- <-]. by apply calls_frame_change. }
  destruct o.
  - destruct (request role now payload c s) as [s1 r] eqn:Hr. intros [= <- <-].
    by eapply request_change.
  - apply Hsame, reply_frame.
  - apply Hsame, heartbeat_frame.
  - unfold expire. case_match; [apply close_change|by apply Hsame].
  - apply close_change.
  - pose proof (accept_frame_calls f s) as Ha.
    destruct (accept_frame _ _ _ _) as [[s1 effs1] r]. simpl in Ha. destruct r.
    + by intros [= <- <-].
    + destruct Ha. by apply (or_close_change (A:=unit)).
    + destruct Ha. by apply (or_close_change (A:=unit)).
  - pose proof (next_frame_calls s Hwf) as Hn. destruct (next_frame e s) as [s1 r].
    simpl in Hn. by apply or_close_change.
  - apply Hsame, on_slot_frame.
  - apply Hsame, on_slot_frame.
  - apply Hsame, send_frame.
  - apply Hsame, on_slot_frame.
Qed.

Lemma start_inv : calls_inv start.
Proof. split; try done; simpl; try lia; constructor. Qed.

Lemma calls_run_inv ops : calls_inv (run ops).
Proof.
  unfold run. generalize start, start_inv. induction ops as [|o ops IH]; intros y Hy; [done|].
  simpl. apply IH. unfold step. destruct (do_op o (st y)) as [s effs] eqn:Ho.
  apply do_op_change in Ho; [|by apply Hy]. by apply calls_change_inv.
Qed.

(** ** Messages are reassembled exactly *)

(** The message frames of a history that the reader accepted. *)
Definition accepts (o : op) (s : State) : list Frame :=
  match o with
  | OFrame f =>
      match accept_frame parse_control role f s, kind (header f) with
      | (_, _, Ok _), (Request | Reply | ControlRequest | ControlReply) => [f]
      | _, _ => []
      end
  | _ => []
  end.

Fixpoint accepted_frames (ops : list op) (s : State) : list Frame :=
  match ops with
  | [] => []
  | o :: rest => accepts o s ++ accepted_frames rest (do_op o s).1
  end.

(** The bytes that the frames of one identity carry, in order. *)
Definition bodies (i : Z) (fs : list Frame) : list Z :=
  concat (body <$> filter (λ f, identity (header f) = i) fs).

(** Identities that the connection will not admit afresh. *)
Definition touched (s : State) (i : Z) : Prop :=
  match role with
  | Helper => i ≤ at_class (class_of_identity i) (last_inbound s)
  | Client => i / 2 < next_request s
  end.
Definition finished (s : State) (i : Z) : Prop := role = Client → bt_get i (pending s) = None.

(** A message in the log is complete: no later frame can add to it. *)
Definition message_ok (s : State) (fs : list Frame) (x : effect) : Prop :=
  match x with
  | Delivered i c m =>
      role = Helper ∧ c = class_of_identity i ∧ m = bodies i fs ∧
      bt_get i (assemblies s) = None ∧ touched s i ∧ finished s i
  | Settled i (Ok m) =>
      role = Client ∧ m = bodies i fs ∧
      bt_get i (assemblies s) = None ∧ touched s i ∧ finished s i
  | _ => True
  end.

Definition delivered (effs : list effect) : list Z :=
  omap (λ x, match x with Delivered i _ _ => Some i | _ => None end) effs.

Lemma delivered_app a b : delivered (a ++ b) = delivered a ++ delivered b.
Proof. apply omap_app. Qed.

Lemma elem_of_delivered i effs : i ∈ delivered effs → ∃ c m, Delivered i c m ∈ effs.
Proof.
  intros ([j r| | |j c m] & Hx & Heq)%list_elem_of_omap; simplify_eq. eauto.
Qed.

Record asm_inv (s : State) (effs : list effect) (fs : list Frame) : Prop := {
  ai_asm : ∀ i a, bt_get i (assemblies s) = Some a →
    a_message a = bodies i fs ∧ a_class a = class_of_identity i ∧ touched s i;
  ai_seen : ∀ f, f ∈ fs → touched s (identity (header f)) ∧
    (bt_get (identity (header f)) (assemblies s) = None → finished s (identity (header f)));
  ai_out : Forall (message_ok s fs) effs;
  ai_once : NoDup (delivered effs);
}.

Lemma bodies_snoc_eq fs f : bodies (identity (header f)) (fs ++ [f]) =
  bodies (identity (header f)) fs ++ body f.
Proof.
  unfold bodies. rewrite filter_app, fmap_app, concat_app, filter_cons_True by done.
  simpl. by rewrite app_nil_r.
Qed.

Lemma bodies_snoc_ne i fs f : identity (header f) ≠ i → bodies i (fs ++ [f]) = bodies i fs.
Proof.
  intros. unfold bodies. rewrite filter_app, filter_cons_False by done. by rewrite app_nil_r.
Qed.

Lemma bodies_none i fs : (∀ f, f ∈ fs → identity (header f) ≠ i) → bodies i fs = [].
Proof.
  intros Hf. unfold bodies. induction fs as [|f fs IH]; [done|].
  rewrite filter_cons_False by (apply Hf; set_solver). apply IH. set_solver.
Qed.

(** Effects that carry no message. *)
Definition no_message (x : effect) : Prop :=
  match x with Delivered _ _ _ | Settled _ (Ok _) => False | _ => True end.

(** What every operation but an accepted fragment does to the assemblies. *)
Definition asm_frame (s s' : State) : Prop :=
  (∀ i, touched s i → touched s' i) ∧
  (∀ i, touched s i → finished s i → finished s' i) ∧
  (assemblies s' = assemblies s ∨ assemblies s' = [] ∧ pending s' = []).

Lemma asm_frame_inv s s' effs effs' fs :
  asm_inv s effs fs → asm_frame s s' → Forall no_message effs' →
  asm_inv s' (effs ++ effs') fs.
Proof.
  intros [] (Ht & Hf & Ha) Hno. split.
  - intros i a Hi. destruct Ha as [Ha|[Ha _]]; rewrite Ha in Hi; [|done].
    apply ai_asm0 in Hi as (? & ? & ?). auto.
  - intros f Hin. apply ai_seen0 in Hin as [Htf Hff]. split; [auto|].
    destruct Ha as [-> |[_ Hp]]; [auto|]. intros _ _. by rewrite Hp.
  - apply Forall_app. split.
    + eapply Forall_impl; [exact ai_out0|]. intros [i [m|err|]| | |i c m]; simpl; try done.
      * intros (? & ? & ? & ? & ?). split_and!; auto.
        destruct Ha as [-> |[-> _]]; done.
      * intros (? & ? & ? & ? & ? & ?). split_and!; auto.
        destruct Ha as [-> |[-> _]]; done.
    + eapply Forall_impl; [exact Hno|]. by intros [i [m|err|]| | |i c m].
  - rewrite delivered_app. assert (delivered effs' = []) as ->; [|by rewrite app_nil_r].
    clear -Hno. induction Hno as [|x l Hx _ IH]; [done|].
    destruct x; simpl in *; [done|done|done|by destruct Hx].
Qed.

Lemma assemble_ok r c f s s1 :
  assemble r c f s = (s1, Ok tt) →
  let i := identity (header f) in
  pending s1 = pending s ∧ next_request s1 = next_request s ∧
  (∃ n, assemblies s1 = bt_insert i
     {| a_class := c; a_next_sequence := n;
        a_message := (match bt_get i (assemblies s) with Some a => a_message a | None => [] end)
                       ++ body f |} (assemblies s)) ∧
  match bt_get i (assemblies s) with
  | Some a => a_class a = c ∧ last_inbound s1 = last_inbound s
  | None =>
      if r then is_Some (bt_get i (pending s)) ∧ last_inbound s1 = last_inbound s
      else at_class c (last_inbound s) < i ∧
           last_inbound s1 = set_class c i (last_inbound s)
  end.
Proof.
  unfold assemble. intros Ha. destruct (sequence (header f) =? 0) eqn:Hseq.
  - unfold bt_contains in Ha. destruct (bt_get _ (assemblies s)) as [a|] eqn:Hget; [done|].
    destruct (admit_first _ _ _ _) as [s0 [[]| |]] eqn:Hadmit; [|done..].
    assert (assemblies s0 = assemblies s ∧ pending s0 = pending s ∧
      next_request s0 = next_request s ∧
      if r then is_Some (bt_get (identity (header f)) (pending s)) ∧
                last_inbound s0 = last_inbound s
      else at_class c (last_inbound s) < identity (header f) ∧
           last_inbound s0 = set_class c (identity (header f)) (last_inbound s)) as (Hs & Hp & Hn & Hr).
    { clear Ha. revert Hadmit. unfold admit_first. destruct r.
      - destruct (bt_get _ (pending s)); [|done]. case_match; [done|].
        intros [= <-]. split_and!; try done.
      - case_match eqn:Hg; [done|]. case_match; [done|]. intros [= <-].
        apply orb_false_iff in Hg as [Hg _].
        split_and!; [by destruct s..|lia|by destruct s]. }
    destruct (charge _ _) as [used| |]; [|done..]. injection Ha as <-.
    destruct s0; simpl in *. rewrite Hs, Hp, Hn. split_and!; [done|done|by eexists|done].
  - destruct (bt_get _ (assemblies s)) as [a|] eqn:Hget; [|done].
    destruct (_ || _) eqn:Hg; [done|]. destruct (MAXIMUM_MESSAGE_BYTES <? _); [done|].
    destruct (charge _ _) as [used| |]; [|done..].
    destruct (checked_add _ _ _) as [n|]; [|done]. injection Ha as <-.
    apply orb_false_iff in Hg as [Hcl%negb_false_iff%bool_decide_eq_true _].
    destruct s; simpl in *. split_and!; [done|done|by eexists|done|done].
Qed.

Lemma complete_ok r c i s s2 effs :
  complete parse_control r c i s = (s2, effs, Ok tt) →
  ∃ a, bt_get i (assemblies s) = Some a ∧ assemblies s2 = bt_remove i (assemblies s) ∧
    last_inbound s2 = last_inbound s ∧ next_request s2 = next_request s ∧
    effs = [if r then Settled i (Ok (a_message a)) else Delivered i c (a_message a)] ∧
    pending s2 = if r then bt_remove i (pending s) else pending s.
Proof.
  unfold complete, refund_in. destruct (bt_get i (assemblies s)) as [a|]; [|done].
  intros Hc. exists a. split; [done|]. destruct r.
  - destruct (bt_get _ _); [|done]. simplify_eq. by destruct s.
  - destruct c; [simplify_eq; by destruct s|]. repeat case_match; simplify_eq; by destruct s.
Qed.
(** The reader's guards tie a fragment's class to its identity and its direction to the
    role of this end. *)
Definition guarded (r : bool) (c : Class) (i : Z) : Prop :=
  c = class_of_identity i ∧ r = bool_decide (role = Client).

Definition old_calls (s : State) : Prop :=
  ∀ i p, bt_get i (pending s) = Some p → i / 2 < next_request s.

Lemma assemble_inv r c f s s1 effs fs :
  guarded r c (identity (header f)) → old_calls s → asm_inv s effs fs →
  assemble r c f s = (s1, Ok tt) → asm_inv s1 effs (fs ++ [f]).
Proof.
  intros [Hc Hr] Hcalls [] Ha. apply assemble_ok in Ha. cbv zeta in Ha.
  set (i := identity (header f)) in *. destruct Ha as (Hp & Hn & [n Hasm] & Hadm).
  assert (bt_get i (assemblies s) = None → touched s i → finished s i → False) as Hfresh.
  { intros Hnone. rewrite Hnone in Hadm. unfold touched, finished. rewrite Hr in Hadm.
    destruct role; rewrite ?bool_decide_eq_true_2, ?bool_decide_eq_false_2 in Hadm by done.
    - intros _ Hf. rewrite Hf in Hadm by done. by destruct Hadm as [[] _].
    - rewrite Hc in Hadm. intros. lia. }
  assert (match bt_get i (assemblies s) with Some a => a_message a | None => [] end
          = bodies i fs) as Hold.
  { destruct (bt_get i (assemblies s)) as [a|] eqn:Hget; [by apply ai_asm0 in Hget as [? _]|].
    symmetry. apply bodies_none. intros g Hg Heq. apply ai_seen0 in Hg as [Ht Hf].
    rewrite Heq in *. auto. }
  assert (∀ j, touched s j → touched s1 j) as Htouch.
  { intros j. unfold touched. destruct role; [by rewrite Hn|].
    destruct (bt_get i (assemblies s)); [by destruct Hadm as [_ ->]|].
    rewrite Hr, bool_decide_eq_false_2 in Hadm by done. destruct Hadm as [Hlt ->].
    destruct c, (class_of_identity j); simpl in *; lia. }
  assert (touched s1 i) as Hti.
  { destruct (bt_get i (assemblies s)) as [a|] eqn:Hget; [by apply Htouch; apply ai_asm0 in Hget as (_ & _ & ?)|].
    unfold touched. rewrite Hr in Hadm. destruct role.
    - rewrite bool_decide_eq_true_2 in Hadm by done. destruct Hadm as [[p Hpi] _].
      rewrite Hn. by eapply Hcalls.
    - rewrite bool_decide_eq_false_2 in Hadm by done. destruct Hadm as [_ ->].
      rewrite <- Hc. by destruct c. }
  assert (∀ j, bt_get j (assemblies s) = None → touched s j → finished s j → i ≠ j) as Hne.
  { intros j H1 H2 H3 <-. auto. }
  split.
  - intros j a. rewrite Hasm, bt_get_insert. destruct (Z.eqb_spec j i) as [->|Hj].
    + intros [= <-]. simpl. split_and!; [|done|done].
      rewrite Hold. symmetry. apply bodies_snoc_eq.
    + intros Hget. apply ai_asm0 in Hget as (-> & ? & ?).
      rewrite bodies_snoc_ne by done. auto.
  - intros g Hg. rewrite Hasm, bt_get_insert.
    destruct (Z.eqb_spec (identity (header g)) i) as [Hgi|Hgi]; [rewrite Hgi; by split|].
    apply elem_of_app in Hg as [Hg|Hg%list_elem_of_singleton]; [|by subst].
    apply ai_seen0 in Hg as [? Hf]. split; [auto|]. unfold finished in *. by rewrite Hp.
  - eapply Forall_impl; [exact ai_out0|].
    assert (∀ j m, m = bodies j fs ∧ bt_get j (assemblies s) = None ∧ touched s j ∧ finished s j →
      m = bodies j (fs ++ [f]) ∧ bt_get j (assemblies s1) = None ∧ touched s1 j ∧ finished s1 j)
      as Hkeep.
    { intros j m (-> & Hj & Ht & Hf). pose proof (Hne j Hj Ht Hf).
      rewrite bodies_snoc_ne, Hasm, bt_get_insert_ne by (fold i; congruence).
      unfold finished in *. rewrite Hp. auto. }
    intros [j [m|err|]| | |j cj m]; simpl; try done; naive_solver.
  - done.
Qed.

Lemma complete_inv r c i s s2 effs effs2 fs :
  guarded r c i → asm_inv s effs fs →
  complete parse_control r c i s = (s2, effs2, Ok tt) → asm_inv s2 (effs ++ effs2) fs.
Proof.
  intros [Hc Hr] [] (a & Hget & Hasm & Hli & Hn & -> & Hp)%complete_ok.
  assert (∀ j, touched s j → touched s2 j) as Htouch.
  { intros j. unfold touched. by rewrite Hli, Hn. }
  assert (∀ j, finished s j → finished s2 j) as Hfin.
  { intros j Hf Hcl. rewrite Hp. destruct r; [|auto].
    rewrite bt_get_remove, Hf by done. by destruct (j =? i). }
  assert (finished s2 i) as Hfi.
  { intros Hcl. rewrite Hp, Hr, bool_decide_eq_true_2 by done. apply bt_get_remove_eq. }
  pose proof (ai_asm0 i a Hget) as (Hm & Hac & Hti). split.
  - intros j b. rewrite Hasm, bt_get_remove. destruct (j =? i); [done|]. intros Hj.
    apply ai_asm0 in Hj as (? & ? & ?). auto.
  - intros f Hf. apply ai_seen0 in Hf as [? Hff]. split; [auto|].
    rewrite Hasm, bt_get_remove. destruct (Z.eqb_spec (identity (header f)) i) as [-> |]; auto.
  - apply Forall_app. split.
    + eapply Forall_impl; [exact ai_out0|].
      assert (∀ j, bt_get j (assemblies s) = None → bt_get j (assemblies s2) = None) as Hk.
      { intros j Hj. rewrite Hasm, bt_get_remove. by destruct (j =? i). }
      intros [j [m|err|]| | |j cj m]; simpl; try done; naive_solver.
    + constructor; [|constructor]. rewrite Hr in *.
      assert (bt_get i (assemblies s2) = None) by (by rewrite Hasm, bt_get_remove_eq).
      case_bool_decide as Hrole; simpl; split_and!; auto. by destruct role.
  - rewrite delivered_app. apply NoDup_app. split; [done|].
    assert (∀ j, j ∈ delivered effs → j ≠ i) as Hne.
    { intros j (cj & m & Hin)%elem_of_delivered ->. rewrite Forall_forall in ai_out0.
      apply ai_out0 in Hin as (_ & _ & _ & Hnone & _). congruence. }
    destruct r; simpl; (split; [|try apply NoDup_singleton; try constructor]).
    + set_solver.
    + intros j Hj%Hne. set_solver.
Qed.
(** *** The operations that leave the assemblies alone *)
Definition intake_eq (s s' : State) : Prop :=
  assemblies s' = assemblies s ∧ last_inbound s' = last_inbound s.

Lemma intake_eq_trans s1 s2 s3 : intake_eq s1 s2 → intake_eq s2 s3 → intake_eq s1 s3.
Proof. intros [? ?] [? ?]. split; congruence. Qed.

Lemma emit_message_intake o s : intake_eq s (emit_message e o s).1.
Proof.
  unfold emit_message, enqueue, refund_out.
  destruct (fragment e o) as [o' [f| |]]; [|by destruct s..].
  destruct (o_reply o); [|destruct (bt_get _ _)]; simpl;
    destruct (final_fragment (header f)), (o_class o'); by destruct s.
Qed.

Lemma frames_intake s :
  intake_eq s (credit_frames e s).1 ∧ intake_eq s (data_frames e s).1.
Proof.
  unfold credit_frames, data_frames.
  destruct (scan (credit_frame e) _ _ _) as [[] ?], (scan (data_frame e) _ _ _) as [[] ?].
  by destruct s.
Qed.

Lemma next_payload_intake s : intake_eq s (next_payload e s).1.
Proof.
  unfold next_payload. destruct (ordinary s) as [|o rest]; [apply frames_intake|].
  eapply intake_eq_trans; [|apply emit_message_intake]. by destruct s.
Qed.

Lemma next_frame_intake s : intake_eq s (next_frame e s).1.
Proof.
  unfold next_frame. destruct (closed s); [done|].
  destruct (heartbeat_ack s); [by destruct s|]. destruct (heartbeat_to_send s); [by destruct s|].
  destruct (controls s) as [|o rest];
    [|eapply intake_eq_trans; [|apply emit_message_intake]; by destruct s].
  pose proof (frames_intake s) as [H1 _]. destruct (credit_frames e s) as [s1 [[f|]| |]]; try done.
  destruct (prefer_data s1); [|eapply intake_eq_trans; [exact H1|apply next_payload_intake]].
  pose proof (frames_intake s1) as [_ H2].
  destruct (data_frames e s1) as [s2 [[f|]| |]]; simpl in *; try by eapply intake_eq_trans.
  - eapply intake_eq_trans; [exact H1|]. eapply intake_eq_trans; [exact H2|]. by destruct s2.
  - eapply intake_eq_trans; [exact H1|]. eapply intake_eq_trans; [exact H2|].
    apply next_payload_intake.
Qed.

(** Identities only move forward, and the assemblies stay or are all dropped. *)
Definition intake_le (s s' : State) : Prop :=
  (∀ c, at_class c (last_inbound s) ≤ at_class c (last_inbound s')) ∧
  (assemblies s' = assemblies s ∨ assemblies s' = [] ∧ pending s' = []).

Lemma intake_eq_le s s' : intake_eq s s' → intake_le s s'.
Proof. intros [Ha Hl]. split; [intros c; rewrite Hl; lia|by left]. Qed.

Lemma close_intake s s' effs :
  close s = (s', effs) →
  (∀ c, at_class c (last_inbound s) ≤ at_class c (last_inbound s')) ∧
  (closed s = true → s' = s) ∧ (closed s = false → assemblies s' = [] ∧ pending s' = []) ∧
  Forall no_message effs.
Proof.
  unfold close. destruct (closed s) eqn:Hc; intros [= <- <-]; [done|].
  split_and!; [destruct s; simpl; lia|done|by destruct s|].
  apply Forall_app. split; [apply Forall_fmap, Forall_true; by intros []|].
  destruct (heartbeat_waiter s); by repeat constructor.
Qed.

Lemma or_close_intake {A} s s' (r : outcome Error A) s2 effs2 :
  (∀ c, at_class c (last_inbound s) ≤ at_class c (last_inbound s')) →
  (closed s' = true → assemblies s' = assemblies s) →
  match r with Ok _ => assemblies s' = assemblies s | _ => True end →
  or_close s' [] r = (s2, effs2) →
  intake_le s s2 ∧ Forall no_message effs2.
Proof.
  intros Hl Hsame Hok. unfold or_close.
  destruct r; [intros [= <- <-]; split; [split; [done|by left]|done]|..];
    destruct (close s') as [s3 effs3] eqn:Hclose; intros [= <- <-];
    apply close_intake in Hclose as (Hl3 & Hc3 & Ho3 & Hno); (split; [|done]);
    (split; [intros c; specialize (Hl c); specialize (Hl3 c); lia|]);
    (destruct (closed s'); [left; rewrite Hc3 by done; auto|right; auto]).
Qed.

Lemma on_slot_intake {A} id (f : Slot → Slot * outcome Error A) s :
  intake_eq s (on_slot id f s).1.
Proof. unfold on_slot. repeat case_match; try done. simpl. by destruct s. Qed.

Lemma local_intake o s :
  match o with
  | OExpire _ | OClose | OFrame _ | OEmit => True
  | _ => intake_eq s (do_op o s).1 ∧ (do_op o s).2 = []
  end.
Proof.
  destruct o; simpl; try done; (split; [|done]);
    try (unfold register_stream, retire_stream, next; apply on_slot_intake).
  - unfold request, enqueue. repeat (case_match; try done); by destruct s.
  - unfold reply, enqueue. repeat (case_match; try done); by destruct s.
  - unfold heartbeat. repeat (case_match; try done); by destruct s.
  - unfold send. case_match; try done. apply on_slot_intake.
Qed.
Definition is_message (k : FrameKind) : bool :=
  match k with Request | Reply | ControlRequest | ControlReply => true | _ => false end.

(** What a refused fragment leaves. *)
Definition refused (s : State) (x : accepted) : Prop :=
  let '(s', effs, res) := x in
  match res with
  | Ok _ => True
  | _ => effs = [] ∧ (∀ c, at_class c (last_inbound s) ≤ at_class c (last_inbound s'))
  end.

Lemma admit_first_mono r c i s cl :
  at_class cl (last_inbound s) ≤ at_class cl (last_inbound (admit_first r c i s).1).
Proof.
  unfold admit_first. repeat (case_match; try done). simpl.
  destruct s as [? ? ? ? ? ? [] ?]; simpl in *. destruct c, cl; simpl in *; lia.
Qed.

Lemma assemble_mono r c f s cl :
  at_class cl (last_inbound s) ≤ at_class cl (last_inbound (assemble r c f s).1).
Proof.
  unfold assemble. destruct (sequence (header f) =? 0).
  - destruct (bt_contains _ _); [done|].
    pose proof (admit_first_mono r c (identity (header f)) s cl) as Ha.
    destruct (admit_first _ _ _ _) as [s1 [u| |]]; try done.
    destruct (charge _ _); by destruct s1.
  - repeat (case_match; try done); by destruct s.
Qed.

Lemma accept_message_refused f s : refused s (accept_message parse_control role f s).
Proof.
  unfold accept_message. case_match; [done|]. case_match; [done|].
  pose proof (assemble_mono (is_reply (kind (header f))) (class_of (kind (header f))) f s) as Ha.
  destruct (assemble _ _ _ _) as [s1 [u| |]]; [|done..]. case_match; [done|]. simpl in Ha.
  unfold complete, refund_in. repeat case_match; try done;
    (split; [done|]); intros cl; specialize (Ha cl); by destruct s1.
Qed.

Lemma accept_frame_cases f s s' effs res :
  accept_frame parse_control role f s = (s', effs, res) →
  match res with
  | Ok _ =>
      if is_message (kind (header f))
      then accept_message parse_control role f s = (s', effs, Ok tt)
      else intake_eq s s' ∧ Forall no_message effs
  | _ => effs = [] ∧ (∀ c, at_class c (last_inbound s) ≤ at_class c (last_inbound s')) ∧
         (closed s' = true → assemblies s' = assemblies s)
  end.
Proof.
  intros Hacc. pose proof (accept_frame_calls f s) as Hcalls. rewrite Hacc in Hcalls.
  simpl in Hcalls. revert Hacc. unfold accept_frame, ensure_open.
  destruct (closed s) eqn:Hclosed.
  { intros [= <- <- <-]. done. }
  assert (∀ x, refused s x → x = (s', effs, res) →
    match res with
    | Ok _ => if is_message (kind (header f)) then x = (s', effs, Ok tt) else True
    | _ => effs = [] ∧ (∀ c, at_class c (last_inbound s) ≤ at_class c (last_inbound s')) ∧
           (closed s' = true → assemblies s' = assemblies s)
    end) as Href.
  { intros x Hx ->. simpl in Hx. destruct res as [[]| |]; [by case_match|..];
      destruct Hx as [-> Hx]; destruct Hcalls as [(_ & _ & Hc) _];
      (split_and!; [done|done|congruence]). }
  clear Hcalls. destruct (kind (header f)) eqn:Hk; cbn [is_message] in *;
    try (apply Href, accept_message_refused);
    intros Hacc; repeat case_match; simplify_eq; try done;
    try (split; [by destruct s|by repeat constructor]);
    split_and!; try done; intros; by destruct s.
Qed.

Lemma message_inv f s s' effs effs' fs :
  old_calls s → asm_inv s effs fs →
  accept_message parse_control role f s = (s', effs', Ok tt) →
  asm_inv s' (effs ++ effs') (fs ++ [f]).
Proof.
  intros Hcalls Hinv. unfold accept_message.
  destruct (negb (Z.land _ _ =? _)) eqn:Hpar; [done|].
  destruct (negb (eqb _ _)) eqn:Hrole; [done|].
  apply negb_false_iff in Hpar, Hrole. apply eqb_prop in Hrole.
  assert (guarded (is_reply (kind (header f))) (class_of (kind (header f)))
            (identity (header f))) as Hg.
  { split; [|done]. unfold class_of_identity. apply Z.eqb_eq in Hpar. rewrite Hpar.
    by destruct (class_of _). }
  destruct (assemble _ _ _ _) as [s1 [[]| |]] eqn:Ha; [|done..].
  apply (assemble_inv _ _ _ _ _ effs fs Hg Hcalls Hinv) in Ha.
  destruct (negb (final_fragment _)).
  - intros [= <- <-]. by rewrite app_nil_r.
  - intros Hc. by eapply complete_inv.
Qed.

Lemma intake_le_frame s s' effs new :
  calls_change s effs new s' → intake_le s s' → asm_frame s s'.
Proof.
  intros Hch [Hl Ha]. assert (next_request s ≤ next_request s') by (destruct Hch; lia).
  split_and!; [| |done].
  - intros i. unfold touched. destruct role; [lia|].
    specialize (Hl (class_of_identity i)). lia.
  - intros i. unfold touched, finished. intros Ht Hf Hr. rewrite Hr in Ht. specialize (Hf Hr).
    destruct Hch as [Hp|j c Hj _ _ (p & _ & Hp)|j p _ Hp|Hp].
    + apply bt_get_None. rewrite <- call_ids_fst, Hp, call_ids_fst. by apply bt_get_None.
    + rewrite Hp, bt_get_insert_ne; [done|]. intros ->. lia.
    + rewrite Hp, bt_get_remove, Hf. by destruct (i =? j).
    + by rewrite Hp.
Qed.

Lemma do_op_asm o s s' effs0 effs fs :
  bt_wf (pending s) → old_calls s → asm_inv s effs0 fs → do_op o s = (s', effs) →
  asm_inv s' (effs0 ++ effs) (fs ++ accepts o s).
Proof.
  intros Hwf Hcalls Hinv Hop. pose proof (do_op_change o s s' effs Hwf Hop) as Hch.
  assert (∀ s2, s2 = s' → intake_le s s2 → Forall no_message effs → accepts o s = [] →
    asm_inv s' (effs0 ++ effs) (fs ++ accepts o s)) as Hother.
  { intros s2 -> Hle Hno ->. rewrite app_nil_r.
    eapply asm_frame_inv; [done|by eapply intake_le_frame|done]. }
  pose proof (local_intake o s) as Hlocal. rewrite Hop in Hlocal. simpl in Hlocal.
  destruct o;
    try (destruct Hlocal as [? ?]; subst effs;
         apply (Hother s'); [done|by apply intake_eq_le|done|done]);
    clear Hlocal; simpl in Hop.
  - unfold expire in Hop. case_match.
    + apply close_intake in Hop as (Hl & Hc & Ho & Hno). apply (Hother s'); try done.
      split; [done|]. destruct (closed s); [left; by rewrite Hc|by right; auto].
    + simplify_eq. apply (Hother s'); try done. split; [lia|by left].
  - apply close_intake in Hop as (Hl & Hc & Ho & Hno). apply (Hother s'); try done.
    split; [done|]. destruct (closed s); [left; by rewrite Hc|by right; auto].
  - destruct (accept_frame _ _ _ _) as [[s1 effs1] r] eqn:Ha.
    pose proof (accept_frame_cases _ _ _ _ _ Ha) as Hcase. simpl in *. rewrite Ha in *.
    destruct r as [[]| |].
    + injection Hop as <- <-. destruct (kind (header f)) eqn:Hk; simpl in Hcase;
        try (eapply message_inv; eassumption); destruct Hcase as [Hi Hno];
        (apply (Hother s1); [done|by apply intake_eq_le|done|done]).
    + destruct Hcase as (-> & Hl & Hcl). apply or_close_intake with (s := s) in Hop as [? ?]; try done.
      by apply (Hother s').
    + destruct Hcase as (-> & Hl & Hcl). apply or_close_intake with (s := s) in Hop as [? ?]; try done.
      by apply (Hother s').
  - pose proof (next_frame_intake s) as Hi. destruct (next_frame e s) as [s1 r]. simpl in Hi.
    destruct Hi as [Hasm Hli].
    apply or_close_intake with (s := s) in Hop as [? ?]; [by apply (Hother s')| |done|by destruct r].
    intros c. rewrite Hli. lia.
Qed.

Lemma calls_old y : calls_inv y → old_calls (st y).
Proof.
  intros [] i p Hi. assert (i ∈ issued y) as Hin.
  { rewrite ci_issued0. apply elem_of_app. left. apply bt_get_elem in Hi.
    apply list_elem_of_fmap. by exists (i, p). }
  rewrite Forall_forall in ci_old0. apply ci_old0 in Hin. lia.
Qed.

Lemma run_asm ops :
  asm_inv (st (run ops)) (log (run ops)) (accepted_frames ops state_new).
Proof.
  assert (asm_inv (st start) (log start) []) as Hstart.
  { split; [done|set_solver|constructor|constructor]. }
  unfold run. change state_new with (st start).
  change (accepted_frames ops (st start)) with ([] ++ accepted_frames ops (st start)).
  revert Hstart. generalize (@nil Frame). generalize start, start_inv.
  induction ops as [|o ops IH]; intros y Hy fs Hasm; simpl; [by rewrite app_nil_r|].
  rewrite (assoc_L (++)).
  pose proof (IH (step y o)) as IHs. unfold step in IHs |- *.
  destruct (do_op o (st y)) as [s effs] eqn:Ho. simpl in *. apply IHs.
  - apply do_op_change in Ho; [|by apply Hy]. by apply calls_change_inv.
  - eapply do_op_asm; [by apply Hy|by apply calls_old|done|done].
Qed.
End history.


(** Messages are reassembled exactly: over any history of operations and of frames from
    an arbitrary peer, every request handed to the helper and every reply handed to a
    caller is the concatenation, in order, of the bodies of all fragments accepted for
    its identity, with nothing lost, repeated or mixed between the messages in flight;
    each request is handed over at most once and carries the class of its identity. *)
Lemma reassembly_exact parse_control role e ops :
  let y := run parse_control role e ops in
  let fs := accepted_frames parse_control role e ops state_new in
  Forall (λ x,
    match x with
    | Delivered i c m => role = Helper ∧ c = class_of_identity i ∧ m = bodies i fs
    | Settled i (Ok m) => role = Client ∧ m = bodies i fs
    | _ => True
    end) (log y) ∧
  NoDup (delivered (log y)).
Proof.
  intros y fs. destruct (run_asm parse_control role e ops) as []. split; [|done].
  eapply Forall_impl; [exact ai_out0|].
  intros [i [m|err|]| | |i c m]; simpl; try done; naive_solver.
Qed.
