(* ===== verification/Utf8.v ===== *)
(** * UTF-8 validity of byte strings

    The Standard Library's [str::from_utf8]: the well-formed byte sequences of the
    Unicode standard (no overlong forms, no surrogates, at most U+10FFFF), and the
    facts about cutting and joining them that text code relies on. *)

From S2P Require Import Prelude Bytes.

Definition in_range (a b x : Z) : bool := (a <=? x) && (x <=? b).

(** A continuation byte. *)
Definition cont (x : Z) : bool := in_range 128 191 x.

(** The allowed second byte after each leading byte of a longer sequence. *)
Definition second_ok (b0 b1 : Z) : bool :=
  if b0 =? 224 then in_range 160 191 b1
  else if b0 =? 237 then in_range 128 159 b1
  else if b0 =? 240 then in_range 144 191 b1
  else if b0 =? 244 then in_range 128 143 b1
  else cont b1.

Fixpoint utf8_valid (l : list Z) : bool :=
  match l with
  | [] => true
  | b0 :: r =>
      if in_range 0 127 b0 then utf8_valid r
      else if in_range 194 223 b0 then
        match r with
        | b1 :: r1 => cont b1 && utf8_valid r1
        | _ => false
        end
      else if in_range 224 239 b0 then
        match r with
        | b1 :: b2 :: r2 => second_ok b0 b1 && cont b2 && utf8_valid r2
        | _ => false
        end
      else if in_range 240 244 b0 then
        match r with
        | b1 :: b2 :: b3 :: r3 => second_ok b0 b1 && cont b2 && cont b3 && utf8_valid r3
        | _ => false
        end
      else false
  end.

(** One encoded scalar. *)
Inductive utf8_char : list Z → Prop :=
| char1 b0 : in_range 0 127 b0 = true → utf8_char [b0]
| char2 b0 b1 : in_range 194 223 b0 = true → cont b1 = true → utf8_char [b0; b1]
| char3 b0 b1 b2 : in_range 224 239 b0 = true → second_ok b0 b1 = true → cont b2 = true →
    utf8_char [b0; b1; b2]
| char4 b0 b1 b2 b3 : in_range 240 244 b0 = true → second_ok b0 b1 = true →
    cont b2 = true → cont b3 = true → utf8_char [b0; b1; b2; b3].

Lemma in_range_spec a b x : in_range a b x = true ↔ a ≤ x ≤ b.
Proof. unfold in_range. lia. Qed.

Lemma in_range_false a b x : in_range a b x = false ↔ x < a ∨ b < x.
Proof. unfold in_range. lia. Qed.

Lemma second_ok_cont b0 b1 : second_ok b0 b1 = true → cont b1 = true.
Proof. unfold second_ok, cont, in_range. repeat case_match; lia. Qed.

Lemma utf8_valid_char c l : utf8_char c → utf8_valid (c ++ l) = utf8_valid l.
Proof.
  destruct 1 as [b0 H|b0 b1 H H1|b0 b1 b2 H H1 H2|b0 b1 b2 b3 H H1 H2 H3]; simpl.
  - by rewrite H.
  - rewrite H, H1. replace (in_range 0 127 b0) with false; [done|].
    symmetry. apply in_range_spec in H. apply in_range_false. lia.
  - rewrite H, H1, H2. replace (in_range 0 127 b0) with false;
      [replace (in_range 194 223 b0) with false; [done|]|];
      symmetry; apply in_range_spec in H; apply in_range_false; lia.
  - rewrite H, H1, H2, H3. replace (in_range 0 127 b0) with false;
      [replace (in_range 194 223 b0) with false;
       [replace (in_range 224 239 b0) with false; [done|]|]|];
      symmetry; apply in_range_spec in H; apply in_range_false; lia.
Qed.

Lemma utf8_valid_split l :
  l ≠ [] → utf8_valid l = true → ∃ c r, l = c ++ r ∧ utf8_char c ∧ utf8_valid r = true.
Proof.
  destruct l as [|b0 l]; [done|]. intros _. simpl.
  destruct (in_range 0 127 b0) eqn:H0.
  { intros. exists [b0], l. by repeat constructor. }
  destruct (in_range 194 223 b0) eqn:H1.
  { destruct l as [|b1 l]; [done|]. intros [? ?]%andb_true_iff.
    exists [b0; b1], l. by repeat constructor. }
  destruct (in_range 224 239 b0) eqn:H2.
  { destruct l as [|b1 [|b2 l]]; [done..|]. intros [[? ?]%andb_true_iff ?]%andb_true_iff.
    exists [b0; b1; b2], l. by repeat constructor. }
  destruct (in_range 240 244 b0) eqn:H3; [|done].
  destruct l as [|b1 [|b2 [|b3 l]]]; [done..|].
  intros [[[? ?]%andb_true_iff ?]%andb_true_iff ?]%andb_true_iff.
  exists [b0; b1; b2; b3], l. by repeat constructor.
Qed.

(** Validity as a sequence of encoded scalars, with its induction principle. *)
Lemma utf8_valid_ind (P : list Z → Prop) :
  P [] → (∀ c r, utf8_char c → utf8_valid r = true → P r → P (c ++ r)) →
  ∀ l, utf8_valid l = true → P l.
Proof.
  intros Hnil Hcons l. remember (length l) as n eqn:Hn. revert l Hn.
  induction (lt_wf n) as [n _ IH]. intros l -> Hv.
  destruct (decide (l = [])) as [->|Hne]; [done|].
  destruct (utf8_valid_split l Hne Hv) as (c & r & -> & Hc & Hr).
  apply Hcons; [done|done|]. eapply IH; [|done|done].
  rewrite length_app. destruct Hc; simpl; lia.
Qed.

Lemma utf8_valid_app a b : utf8_valid a = true → utf8_valid (a ++ b) = utf8_valid b.
Proof.
  revert a. apply (utf8_valid_ind (λ a, utf8_valid (a ++ b) = utf8_valid b)); [done|].
  intros c r Hc _ IH. by rewrite <- (assoc_L (++)), utf8_valid_char.
Qed.

Definition ascii (x : Z) : bool := in_range 0 127 x.

(** An ASCII byte ends a scalar: text can be cut before it. *)
Lemma utf8_cut a x b :
  ascii x = true → utf8_valid (a ++ x :: b) = true →
  utf8_valid a = true ∧ utf8_valid b = true.
Proof.
  intros Hx Hv. remember (a ++ x :: b) as l eqn:Hl. revert l Hv a Hl.
  apply (utf8_valid_ind (λ l, ∀ a, l = a ++ x :: b →
    utf8_valid a = true ∧ utf8_valid b = true)); [by intros []|].
  intros c r Hc Hr IH a Heq.
  assert (∀ y, cont y = true → y ≠ x) as Hcont.
  { unfold ascii, cont in *. intros y Hy ->. rewrite in_range_spec in *. lia. }
  assert (∀ y lo hi, in_range lo hi y = true → 127 < lo → y ≠ x) as Hlead.
  { unfold ascii in *. intros y lo hi Hy ? ->. rewrite in_range_spec in *. lia. }
  assert (∀ a', a = c ++ a' → utf8_valid a = true ∧ utf8_valid b = true) as Hrec.
  { intros a' ->. rewrite <- (assoc_L (++)) in Heq. apply app_inv_head in Heq.
    apply IH in Heq as [? ?]. by rewrite utf8_valid_char. }
  destruct Hc as [b0 H|b0 b1 H H1|b0 b1 b2 H H1 H2|b0 b1 b2 b3 H H1 H2 H3];
    destruct a as [|a0 a]; simplify_eq/=.
  - done.
  - by eapply Hrec.
  - by eapply Hlead in H.
  - destruct a as [|a1 a]; simplify_eq/=; [by apply Hcont in H1|by eapply Hrec].
  - by eapply Hlead in H.
  - apply second_ok_cont in H1. destruct a as [|a1 a]; simplify_eq/=; [by apply Hcont in H1|].
    destruct a as [|a2 a]; simplify_eq/=; [by apply Hcont in H2|by eapply Hrec].
  - by eapply Hlead in H.
  - apply second_ok_cont in H1. destruct a as [|a1 a]; simplify_eq/=; [by apply Hcont in H1|].
    destruct a as [|a2 a]; simplify_eq/=; [by apply Hcont in H2|].
    destruct a as [|a3 a]; simplify_eq/=; [by apply Hcont in H3|by eapply Hrec].
Qed.

Lemma utf8_ascii_cons x l : ascii x = true → utf8_valid (x :: l) = utf8_valid l.
Proof. intros Hx. apply (utf8_valid_char [x]). by constructor. Qed.
