(* ===== verification/SseDecoder.v ===== *)
(** * Incremental decoding of provider SSE streams

    [decode_sse_with_idle] of [crates/rsi-ai/transport/src/sse.rs]: the cross-chunk
    frame state machine, its buffer growth and the in-place extraction of the [data]
    fields.  The decoder reaches the frame admission of the pool through the interface
    [FrameAdmissionApi], whose calls return once the pool has granted them.  Bytes are
    integers in [0 .. 255]; [Vec] capacities follow [reserve_exact]. *)

From S2P Require Import Prelude BTree Bytes Utf8 SseAdmission.

(** ** Extracting the data fields of one frame *)

Definition LF : Z := 10.
Definition CR : Z := 13.
Definition SPACE : Z := 32.
(** [b"data:"] and [b"[DONE]"] *)
Definition DATA : list Z := [100; 97; 116; 97; 58].
Definition DONE : list Z := [91; 68; 79; 78; 69; 93].

(** [memchr]: the first position of a byte. *)
Fixpoint memchr (b : Z) (l : list Z) : option Z :=
  match l with
  | [] => None
  | x :: r => if x =? b then Some 0 else (λ n, n + 1) <$> memchr b r
  end.

Definition starts_with (p l : list Z) : bool := bool_decide (take (length p) l = p).

(** [frame.copy_within(from..to, at)], which panics out of range. *)
Definition copy_within (from to at_ : Z) (l : list Z) : option (list Z) :=
  if (from <=? to) && (to <=? len l) && (at_ + (to - from) <=? len l) then
    Some (take (Z.to_nat at_) l ++ slice from to l ++ drop (Z.to_nat (at_ + (to - from))) l)
  else None.

(** The loop of [decode_sse_frame]; [None] is a panic or lack of fuel. *)
Fixpoint compact (fuel : nat) (frame : list Z) (read write : Z) (found : bool)
  : option (list Z * Z * bool) :=
  match fuel with
  | O => None
  | S fuel =>
      if len frame <=? read then Some (frame, write, found)
      else
        let line_end :=
          match memchr LF (drop (Z.to_nat read) frame) with
          | Some relative => read + relative
          | None => len frame
          end in
        if starts_with DATA (slice read line_end frame) then
          let value_start :=
            if bool_decide (frame !! Z.to_nat (read + 5) = Some SPACE)
            then read + 5 + 1 else read + 5 in
          let separated :=
            if found then
              if write <? len frame then Some (<[Z.to_nat write := LF]> frame, write + 1)
              else None
            else Some (frame, write) in
          match separated with
          | None => None
          | Some (frame1, write1) =>
              match copy_within value_start line_end write1 frame1 with
              | None => None
              | Some frame2 =>
                  compact fuel frame2 (line_end + 1) (write1 + (line_end - value_start)) true
              end
          end
        else compact fuel frame (line_end + 1) write found
  end.

Definition invalid_utf8 : TransportError :=
  transport_error "sse.invalid_utf8" "SSE frame is not valid UTF-8".

Definition decode_sse_frame (frame : list Z) : outcome TransportError (option (list Z)) :=
  if negb (utf8_valid frame) then Err invalid_utf8
  else
    match compact (S (length frame)) frame 0 0 false with
    | None => Panic
    | Some (frame1, write, found) =>
        if negb found then Ok None
        else
          let data := take (Z.to_nat write) frame1 in
          if utf8_valid data then Ok (Some data) else Panic
    end.

(** ** The reference: split into lines, keep the data values, join them with LF *)

Fixpoint lines (l : list Z) : list (list Z) :=
  match l with
  | [] => []
  | x :: r =>
      if x =? LF then [] :: lines r
      else match lines r with
           | [] => [[x]]
           | line :: rest => (x :: line) :: rest
           end
  end.

Definition data_value (line : list Z) : option (list Z) :=
  if starts_with DATA line then
    let value := drop 5 line in
    Some (match value with
          | x :: r => if x =? SPACE then r else value
          | [] => []
          end)
  else None.

Fixpoint join (vs : list (list Z)) : list Z :=
  match vs with
  | [] => []
  | [v] => v
  | v :: rest => v ++ LF :: join rest
  end.

Definition frame_data (frame : list Z) : option (list Z) :=
  match omap data_value (lines frame) with
  | [] => None
  | vs => Some (join vs)
  end.

Lemma memchr_Some b l n :
  memchr b l = Some n →
  ∃ a r, l = a ++ b :: r ∧ len a = n ∧ b ∉ a.
Proof.
  revert n. induction l as [|x l IH]; intros n; simpl; [done|].
  destruct (Z.eqb_spec x b) as [->|Hx].
  - intros [= <-]. exists [], l. split_and!; [done|done|set_solver].
  - destruct (memchr b l) as [m|]; [|done]. intros [= <-].
    destruct (IH m eq_refl) as (a & r & -> & <- & Ha). exists (x :: a), r.
    rewrite len_cons. split_and!; [done|lia|set_solver].
Qed.

Lemma memchr_None b l : memchr b l = None → b ∉ l.
Proof.
  induction l as [|x l IH]; simpl; [set_solver|].
  destruct (Z.eqb_spec x b); [done|]. destruct (memchr b l); [done|]. set_solver.
Qed.

Lemma memchr_app b a r : b ∉ a → memchr b (a ++ b :: r) = Some (len a).
Proof.
  induction a as [|x a IH]; simpl; intros Ha; [by rewrite Z.eqb_refl|].
  destruct (Z.eqb_spec x b); [set_solver|]. rewrite IH by set_solver. simpl.
  rewrite len_cons. f_equal. lia.
Qed.

Lemma lines_app a r : LF ∉ a → lines (a ++ LF :: r) = a :: lines r.
Proof.
  induction a as [|x a IH]; intros Ha; [done|]. simpl.
  rewrite IH by set_solver. destruct (Z.eqb_spec x LF); [set_solver|done].
Qed.

Lemma lines_last a : LF ∉ a → a ≠ [] → lines a = [a].
Proof.
  induction a as [|x a IH]; intros Ha Hne; [done|]. simpl.
  destruct (Z.eqb_spec x LF); [set_solver|].
  destruct a as [|y a]; [done|]. rewrite IH; [done|set_solver|done].
Qed.

(** ** The in-place compaction computes the reference *)

(** The end of the current line, for an unread suffix [u] that starts at [r]. *)
Definition line_end_of (r n : Z) (u : list Z) : Z :=
  match memchr LF u with Some relative => r + relative | None => n end.

Lemma take_line (F : list Z) R :
  (R < length F)%nat →
  ∃ a, line_end_of (Z.of_nat R) (len F) (drop R F) = Z.of_nat (R + length a) ∧
    (R + length a ≤ length F)%nat ∧
    take (length a) (drop R F) = a ∧
    lines (drop R F) = a :: lines (drop (R + length a + 1) F) ∧
    drop R F !! length a ≠ Some SPACE.
Proof.
  intros HR. unfold line_end_of. destruct (memchr LF (drop R F)) as [n|] eqn:Hm.
  - apply memchr_Some in Hm as (a & r & Heq & Hlen & Ha). exists a.
    assert (length (drop R F) = (length a + S (length r))%nat) as Hl
      by (rewrite Heq, length_app; done).
    rewrite length_drop in Hl. unfold len in *.
    split_and!; [lia|lia|by rewrite Heq, take_app_length| |].
    + replace (drop (R + length a + 1) F) with r; [by rewrite Heq, lines_app|].
      replace (R + length a + 1)%nat with (R + (length a + 1))%nat by lia.
      rewrite <- drop_drop, Heq. rewrite drop_app_ge by lia.
      by replace (length a + 1 - length a)%nat with 1%nat by lia.
    + rewrite Heq, lookup_app_r, Nat.sub_diag by lia. simpl. unfold LF, SPACE. congruence.
  - apply memchr_None in Hm. exists (drop R F). pose proof (length_drop F R) as Hl.
    unfold len. split_and!; [lia|lia|by rewrite firstn_all| |].
    + rewrite (drop_ge F (R + _ + 1)) by lia. apply lines_last; [done|].
      intros Hnil. rewrite Hnil in Hl. simpl in Hl. lia.
    + by rewrite lookup_ge_None_2 by lia.
Qed.

Lemma starts_with_spec p l : starts_with p l = true ↔ ∃ r, l = p ++ r.
Proof.
  unfold starts_with. rewrite bool_decide_eq_true. split.
  - intros H. exists (drop (length p) l). rewrite <- (take_drop (length p) l) at 1. by rewrite H.
  - intros [r ->]. apply take_app_length.
Qed.

Lemma copy_within_ok (F : list Z) (from to W : nat) :
  (from ≤ to ≤ length F)%nat → (W + (to - from) ≤ length F)%nat → 
  ∃ F', copy_within (Z.of_nat from) (Z.of_nat to) (Z.of_nat W) F = Some F' ∧
    length F' = length F ∧
    take (W + (to - from)) F' = take W F ++ take (to - from) (drop from F) ∧
    (∀ k, (W + (to - from) ≤ k)%nat → drop k F' = drop k F).
Proof.
  intros Hft HW. unfold copy_within, len.
  replace (Z.of_nat from <=? Z.of_nat to) with true by lia.
  replace (Z.of_nat to <=? Z.of_nat (length F)) with true by lia.
  replace (Z.of_nat W + (Z.of_nat to - Z.of_nat from) <=? Z.of_nat (length F)) with true by lia.
  unfold slice. rewrite Nat2Z.id.
  replace (Z.to_nat (Z.of_nat to - Z.of_nat from)) with (to - from)%nat by lia.
  replace (Z.to_nat (Z.of_nat W + (Z.of_nat to - Z.of_nat from))) with (W + (to - from))%nat by lia.
  rewrite Nat2Z.id. set (v := take (to - from) (drop from F)).
  assert (length v = (to - from)%nat) as Hv by (unfold v; rewrite length_take, length_drop; lia).
  assert (length (take W F) = W) as HtW by (rewrite length_take; lia).
  eexists. split; [reflexivity|]. split_and!.
  - rewrite !length_app, length_drop, HtW, Hv. lia.
  - rewrite (assoc_L (++)). rewrite take_app_length'; [done|].
    rewrite length_app, HtW, Hv. lia.
  - intros k Hk. rewrite (assoc_L (++)), drop_app_ge by (rewrite length_app, HtW, Hv; lia).
    rewrite drop_drop. f_equal. rewrite length_app, HtW, Hv. lia.
Qed.

Definition joined (found : bool) (vs : list (list Z)) : list Z :=
  if found then concat ((λ v, LF :: v) <$> vs) else join vs.

Lemma join_cons v vs : join (v :: vs) = v ++ joined true vs.
Proof.
  unfold joined. revert v. induction vs as [|w vs IH]; intros v; [by rewrite app_nil_r|].
  change (join (v :: w :: vs)) with (v ++ LF :: join (w :: vs)). by rewrite IH.
Qed.

Lemma data_value_spec a :
  data_value a =
    if starts_with DATA a
    then Some (if bool_decide (a !! 5%nat = Some SPACE) then drop 6 a else drop 5 a)
    else None.
Proof.
  unfold data_value. destruct (starts_with DATA a) eqn:Hs; [|done].
  apply starts_with_spec in Hs as [v ->]. simpl. f_equal. rewrite drop_0.
  destruct v as [|x v]; [done|]. destruct (Z.eqb_spec x SPACE) as [->|Hx].
  - by rewrite bool_decide_eq_true_2.
  - rewrite bool_decide_eq_false_2; [done|]. simpl. congruence.
Qed.

(** The start of a data value: after one optional space. *)
Lemma value_start (F : list Z) R a :
  take (length a) (drop R F) = a → (R + length a ≤ length F)%nat →
  drop R F !! length a ≠ Some SPACE → starts_with DATA a = true →
  ∃ skip, (5 ≤ skip ≤ length a)%nat ∧ data_value a = Some (drop skip a) ∧
    (if bool_decide (F !! Z.to_nat (Z.of_nat R + 5) = Some SPACE)
     then Z.of_nat R + 5 + 1 else Z.of_nat R + 5) = Z.of_nat (R + skip).
Proof.
  intros Hline Hlen Hspace Hstart.
  assert (5 ≤ length a)%nat as H5.
  { apply starts_with_spec in Hstart as [r ->]. rewrite length_app. simpl. lia. }
  replace (Z.to_nat (Z.of_nat R + 5)) with (R + 5)%nat by lia.
  rewrite <- lookup_drop, data_value_spec, Hstart.
  assert (drop R F !! 5%nat = Some SPACE ↔ a !! 5%nat = Some SPACE) as Hiff.
  { destruct (decide (length a = 5%nat)) as [Heq|Hne].
    - rewrite <- Heq. rewrite (lookup_ge_None_2 a) by lia. naive_solver.
    - rewrite <- Hline at 1. rewrite lookup_take_lt by lia. done. }
  rewrite (bool_decide_ext _ _ Hiff). case_bool_decide as Hs.
  - exists 6%nat. apply lookup_lt_Some in Hs. split_and!; [lia|lia|done|lia].
  - exists 5%nat. split_and!; [lia|lia|done|lia].
Qed.

(** The separating LF, written before every value but the first. *)
Lemma separate (found : bool) F W R :
  (W + (if found then 1 else 0) ≤ R)%nat → (R < length F)%nat →
  ∃ F1 W1,
    (if found then
       if Z.of_nat W <? len F then Some (<[Z.to_nat (Z.of_nat W) := LF]> F, Z.of_nat W + 1)
       else None
     else Some (F, Z.of_nat W)) = Some (F1, Z.of_nat W1) ∧
    length F1 = length F ∧ (W1 ≤ R)%nat ∧
    take W1 F1 = take W F ++ (if found then [LF] else []) ∧
    ∀ k, (R ≤ k)%nat → drop k F1 = drop k F.
Proof.
  intros HWR HR. destruct found.
  - unfold len. replace (Z.of_nat W <? Z.of_nat (length F)) with true by lia.
    rewrite Nat2Z.id. exists (<[W := LF]> F), (W + 1)%nat. split_and!.
    + do 2 f_equal. lia.
    + apply length_insert.
    + lia.
    + rewrite Nat.add_1_r, (take_S_r _ _ LF); [|by apply list_lookup_insert_eq; lia].
      by rewrite take_insert_ge by lia.
    + intros k Hk. apply drop_insert_lt. lia.
  - exists F, W. rewrite app_nil_r. split_and!; [done|done|lia|done|done].
Qed.

Lemma compact_spec fuel F R W (found : bool) :
  (length F < R + fuel)%nat → (1 ≤ fuel)%nat → (W + (if found then 1 else 0) ≤ R)%nat →
  (W ≤ length F)%nat →
  ∃ F' W' found',
    compact fuel F (Z.of_nat R) (Z.of_nat W) found = Some (F', Z.of_nat W', found') ∧
    let vs := omap data_value (lines (drop R F)) in
    found' = found || negb (bool_decide (vs = [])) ∧
    take W' F' = take W F ++ joined found vs.
Proof.
  revert F R W found. induction fuel as [|fuel IH]; intros F R W found Hfuel Hpos HWR HW; [lia|].
  cbn [compact]. unfold len at 1. destruct (Z.of_nat (length F) <=? Z.of_nat R) eqn:Hend.
  { exists F, W, found. rewrite (drop_ge F R) by lia. simpl. split; [done|].
    rewrite orb_false_r. split; [done|]. destruct found; simpl; by rewrite app_nil_r. }
  rewrite Nat2Z.id. destruct (take_line F R) as (a & Hle & Hlen & Hline & Hlines & Hspace); [lia|].
  fold (line_end_of (Z.of_nat R) (len F) (drop R F)). rewrite Hle, Hlines.
  unfold slice. rewrite Nat2Z.id.
  replace (Z.to_nat (Z.of_nat (R + length a) - Z.of_nat R)) with (length a) by lia.
  rewrite Hline. cbn [omap list_omap].
  replace (Z.of_nat (R + length a) + 1) with (Z.of_nat (R + length a + 1)) by lia.
  destruct (starts_with DATA a) eqn:Hstart.
  - destruct (value_start F R a) as (skip & Hskip & Hval & ->); [done..|].
    destruct (separate found F W R) as (F1 & W1 & -> & HF1 & HW1 & Htake & Hdrop); [done|lia|].
    destruct (copy_within_ok F1 (R + skip) (R + length a) W1)
      as (F2 & -> & HF2 & Htake2 & Hdrop2); [lia|lia|].
    replace (Z.of_nat W1 + (Z.of_nat (R + length a) - Z.of_nat (R + skip)))
      with (Z.of_nat (W1 + (R + length a - (R + skip)))) by lia.
    destruct (IH F2 (R + length a + 1)%nat (W1 + (R + length a - (R + skip)))%nat true)
      as (F' & W' & found' & -> & -> & Hres); [lia..|].
    rewrite Hdrop2, Hdrop in Hres by lia. eexists F', W', _. split; [done|].
    rewrite Hval. split; [by rewrite orb_true_r|].
    rewrite Hres, Htake2, Htake, Hdrop by lia.
    replace (take (R + length a - (R + skip)) (drop (R + skip) F)) with (drop skip a).
    + destruct found; cbn [joined]; [|rewrite join_cons]; csimpl;
        by rewrite <- !(assoc_L (++)).
    + rewrite <- Hline at 1. rewrite skipn_firstn_comm, drop_drop. f_equal. lia.
  - replace (data_value a) with (@None (list Z)) by (by rewrite data_value_spec, Hstart).
    apply IH; lia.
Qed.

Lemma decode_frame_compact frame :
  ∃ F W found, compact (S (length frame)) frame 0 0 false = Some (F, Z.of_nat W, found) ∧
    (if found then Some (take W F) else None) = frame_data frame.
Proof.
  destruct (compact_spec (S (length frame)) frame 0 0 false) as (F & W & found & Hc & Hf & Ht);
    [lia..|]. exists F, W, found. split; [exact Hc|].
  unfold frame_data. rewrite drop_0 in Hf, Ht. simpl in Hf, Ht. rewrite Hf, Ht.
  by destruct (omap data_value (lines frame)).
Qed.

(** *** Text stays text *)

Lemma lines_valid l : utf8_valid l = true → Forall (λ a, utf8_valid a = true) (lines l).
Proof.
  remember (length l) as n eqn:Hn. revert l Hn. induction (lt_wf n) as [n _ IH].
  intros l -> Hv. destruct (memchr LF l) as [m|] eqn:Hm.
  - apply memchr_Some in Hm as (a & r & -> & _ & Ha). rewrite lines_app by done.
    apply utf8_cut in Hv as [Hva Hvr]; [|done]. constructor; [done|].
    eapply IH; [|done|done]. rewrite length_app. simpl. lia.
  - apply memchr_None in Hm. destruct (decide (l = [])) as [->|]; [constructor|].
    rewrite lines_last by done. by repeat constructor.
Qed.

Lemma data_value_valid a v : data_value a = Some v → utf8_valid a = true → utf8_valid v = true.
Proof.
  unfold data_value. destruct (starts_with DATA a) eqn:Hs; [|done].
  apply starts_with_spec in Hs as [r ->]. intros [= <-]. simpl. intros Hr.
  change (utf8_valid r = true) in Hr. rewrite drop_0. destruct r as [|x r]; [done|].
  destruct (Z.eqb_spec x SPACE) as [->|]; [|done]. by rewrite utf8_ascii_cons in Hr.
Qed.

Lemma join_valid vs : Forall (λ a, utf8_valid a = true) vs → utf8_valid (join vs) = true.
Proof.
  induction 1 as [|v vs Hv Hvs IH]; [done|]. destruct vs as [|w vs]; [done|].
  change (join (v :: w :: vs)) with (v ++ LF :: join (w :: vs)).
  by rewrite utf8_valid_app, utf8_ascii_cons.
Qed.

Lemma frame_data_valid frame v :
  utf8_valid frame = true → frame_data frame = Some v → utf8_valid v = true.
Proof.
  intros Hf%lines_valid. unfold frame_data.
  destruct (omap data_value (lines frame)) as [|w vs] eqn:Ho; [done|]. intros [= <-].
  apply (join_valid (w :: vs)). rewrite <- Ho. clear Ho. apply Forall_forall.
  intros x (l & Hl & Hx)%list_elem_of_omap. rewrite Forall_forall in Hf.
  eapply data_value_valid; eauto.
Qed.

(** The in-place extraction is exact and never panics: a frame that is not UTF-8 is
    refused, and any other frame gives the values of its [data:] lines, each without one
    leading space, joined by line feeds, or nothing when it has no such line. *)
Lemma decode_sse_frame_exact frame :
  decode_sse_frame frame =
    if utf8_valid frame then Ok (frame_data frame) else Err invalid_utf8.
Proof.
  unfold decode_sse_frame. destruct (utf8_valid frame) eqn:Hv; [|done].
  destruct (decode_frame_compact frame) as (F & W & found & -> & Hdata). simpl.
  destruct found; simpl; rewrite <- Hdata; [|done].
  rewrite Nat2Z.id. by rewrite (frame_data_valid frame) by done.
Qed.

(** ** Buffer growth *)

Definition MAX_HTTP_RESPONSE_ITEM_BYTES : Z := 256 * 1024.

(** [usize::next_power_of_two]; frame bounds keep it far below overflow. *)
Definition next_power_of_two (n : Z) : Z := if n <=? 1 then 1 else 2 ^ Z.log2_up n.

Definition next_frame_capacity (current projected maximum : Z) : Z :=
  if projected <=? current then current
  else
    Z.min (Z.max (Z.max (match checked_mul usize_max current 2 with
                         | Some d => d | None => maximum end) 1024)
             (next_power_of_two projected)) maximum.

Definition invalid_admission_state : TransportError :=
  transport_error "sse.invalid_admission_state"
    "SSE decoder lost the current frame admission".

Definition validate_frame_limit (maximum : Z) : outcome TransportError unit :=
  if (maximum =? 0) || (MAX_PROVIDER_SSE_FRAME_BYTES <? maximum) then
    Err (transport_error "sse.invalid_frame_limit"
           ("SSE frame limit must be between 1 and " +:+
            pretty MAX_PROVIDER_SSE_FRAME_BYTES +:+ " bytes"))
  else Ok tt.

Definition frame_too_large (maximum : Z) : TransportError :=
  transport_error "sse.frame_too_large" ("SSE frame exceeds " +:+ pretty maximum +:+ " bytes").

Definition item_too_large : TransportError :=
  transport_error "sse.transport_item_too_large"
    ("SSE transport item exceeds " +:+ pretty MAX_HTTP_RESPONSE_ITEM_BYTES +:+ " bytes").

Definition idle_timeout_error : TransportError :=
  transport_error "http.timeout" "SSE stream idle timeout".
Definition incomplete_frame : TransportError :=
  transport_error "sse.incomplete_frame" "SSE stream ended inside a frame".
Definition missing_done : TransportError :=
  transport_error "sse.missing_done" "SSE stream ended without [DONE]".

(** ** The frame admission as the decoder sees it

    The calls of [FrameAdmission], each returning once it was granted or refused;
    dropping an admission or sealing it never fails. *)
Class FrameAdmissionApi (P A L : Type) := {
  adm_begin : P → Z → P * (A + TransportError);
  adm_ensure_bytes : P → A → Z → P * (A + TransportError);
  adm_seal : P → A → Z → P * L;
  adm_drop : P → A → P;
}.

Inductive SseTermination := DoneSentinel | Eof.

#[global] Instance SseTermination_eq_dec : EqDecision SseTermination.
Proof. solve_decision. Defined.

(** What the stream yields: a value with its lease, or the final failure. *)
Inductive item (L : Type) := Value (data : list Z) (lease : L) | Failure (e : TransportError).
Arguments Value {L} data lease.
Arguments Failure {L} e.

(** The locals of the stream's body. *)
Record Decoder (A : Type) := {
  frame : list Z;
  capacity : Z;
  line_start : Z;
  previous_was_cr : bool;
  admission : option A;
  remaining : option Z;
}.
Arguments frame {A}. Arguments capacity {A}. Arguments line_start {A}.
Arguments previous_was_cr {A}. Arguments admission {A}. Arguments remaining {A}.

(** [memchr2(CR, LF, ..)]. *)
Fixpoint memchr2 (l : list Z) : option Z :=
  match l with
  | [] => None
  | x :: r => if (x =? CR) || (x =? LF) then Some 0 else (λ n, n + 1) <$> memchr2 r
  end.

(** An element of the response body, with the time waited for it. *)
Inductive arrival := Chunk (waited : Z) (bytes : list Z) | Broken (waited : Z) (e : TransportError).

Section decoder.
Context {P A L : Type} `{FrameAdmissionApi P A L}.
Context (termination : SseTermination) (maximum : Z) (idle_timeout : option Z).

(** The stream's body up to where it yields, returns or goes on: the pool, the locals,
    what it yielded and whether it still runs. *)
Definition progress : Type := P * Decoder A * list (item L) * bool.

Definition fail (p : P) (d : Decoder A) (e : TransportError) : progress :=
  (p, d, [Failure e], false).

(** The bound check, [prepare_frame_capacity] and [extend_from_slice]. *)
Definition push_bytes (p : P) (d : Decoder A) (bytes : list Z) : progress :=
  let projected := saturating_add usize_max (len (frame d)) (len bytes) in
  if maximum <? projected then fail p d (frame_too_large maximum)
  else
    let wanted := next_frame_capacity (capacity d) projected maximum in
    match admission d with
    | None => fail p d invalid_admission_state
    | Some a =>
        match adm_ensure_bytes p a (Z.max wanted 1) with
        | (p', inr e) => fail p' d e
        | (p', inl a') =>
            (p', {| frame := frame d ++ bytes; capacity := Z.max (capacity d) wanted;
                    line_start := line_start d; previous_was_cr := previous_was_cr d;
                    admission := Some a'; remaining := remaining d |}, [], true)
        end
    end.

(** [std::mem::take(&mut frame)] and [line_start = 0]. *)
Definition emptied (d : Decoder A) : Decoder A :=
  {| frame := []; capacity := 0; line_start := 0; previous_was_cr := previous_was_cr d;
     admission := admission d; remaining := remaining d |}.

(** A blank line completes the frame. *)
Definition finish_frame (p : P) (d : Decoder A) : progress :=
  let cleared a := {| frame := []; capacity := 0; line_start := 0;
                      previous_was_cr := previous_was_cr d; admission := a;
                      remaining := idle_timeout |} in
  let dropped := match admission d with Some a => adm_drop p a | None => p end in
  let restart p' (items : list (item L)) : progress :=
    match adm_begin p' maximum with
    | (p2, inl a) => (p2, cleared (Some a), items, true)
    | (p2, inr e) => (p2, cleared None, items ++ [Failure e], false)
    end in
  match decode_sse_frame (frame d) with
  | Err e => fail p (emptied d) e
  | Panic => (p, emptied d, [], false)
  | Ok decoded =>
      match decoded with
      | None => restart dropped []
      | Some data =>
          if bool_decide (termination = DoneSentinel) && bool_decide (data = DONE)
          then (dropped, cleared None, [], false)
          else
            match admission d with
            | None => fail p (cleared None) invalid_admission_state
            | Some a =>
                let '(p', lease) := adm_seal p a (len data) in restart p' [Value data lease]
            end
      end
  end.

(** A line terminator: a blank line or the end of a field line. *)
Definition end_line (p : P) (d : Decoder A) : progress :=
  if len (frame d) =? line_start d then finish_frame p d
  else
    match push_bytes p d [LF] with
    | (p', d', items, true) =>
        (p', {| frame := frame d'; capacity := capacity d'; line_start := len (frame d');
                previous_was_cr := previous_was_cr d'; admission := admission d';
                remaining := remaining d' |}, items, true)
    | r => r
    end.

Definition set_cr (d : Decoder A) (cr : bool) : Decoder A :=
  {| frame := frame d; capacity := capacity d; line_start := line_start d;
     previous_was_cr := cr; admission := admission d; remaining := remaining d |}.

(** The [while offset < chunk.len()] loop; each pass consumes at least one byte. *)
Fixpoint scan_chunk (fuel : nat) (p : P) (d : Decoder A) (chunk : list Z) (offset : Z)
  : progress :=
  match fuel with
  | O => (p, d, [], true)
  | S fuel =>
      if len chunk <=? offset then (p, d, [], true)
      else
        let rest := drop (Z.to_nat offset) chunk in
        match memchr2 rest with
        | None =>
            match push_bytes p d rest with
            | (p', d', items, true) => (p', set_cr d' false, items, true)
            | r => r
            end
        | Some relative =>
            let terminator := offset + relative in
            match push_bytes p d (slice offset terminator chunk) with
            | (p1, d1, items1, true) =>
                match end_line p1 d1 with
                | (p2, d2, items2, true) =>
                    let cr := byte_at terminator chunk =? CR in
                    let skip := cr && bool_decide (chunk !! Z.to_nat (terminator + 1) = Some LF) in
                    let '(p3, d3, items3, go) :=
                      scan_chunk fuel p2 (set_cr d2 (cr && negb skip)) chunk
                        (if skip then terminator + 1 + 1 else terminator + 1) in
                    (p3, d3, items1 ++ items2 ++ items3, go)
                | (p2, d2, items2, false) => (p2, d2, items1 ++ items2, false)
                end
            | r => r
            end
        end
  end.

Definition decode_chunk (p : P) (d : Decoder A) (chunk : list Z) : progress :=
  if MAX_HTTP_RESPONSE_ITEM_BYTES <? len chunk then fail p d item_too_large
  else if len chunk =? 0 then (p, d, [], true)
  else
    let offset := if previous_was_cr d && bool_decide (head chunk = Some LF) then 1 else 0 in
    scan_chunk (S (length chunk)) p (set_cr d false) chunk offset.

Definition set_remaining (d : Decoder A) (r : option Z) : Decoder A :=
  {| frame := frame d; capacity := capacity d; line_start := line_start d;
     previous_was_cr := previous_was_cr d; admission := admission d; remaining := r |}.

(** Waiting for the body under the idle allowance: what is left of it, or a timeout. *)
Definition wait_body (d : Decoder A) (waited : Z) : option (Decoder A) :=
  match remaining d with
  | None => Some d
  | Some r =>
      if r =? 0 then None
      else if waited <=? r then Some (set_remaining d (Some (saturating_sub r waited)))
      else None
  end.

Fixpoint decode_body (p : P) (d : Decoder A) (body : list arrival) (closing : Z) : progress :=
  match body with
  | [] =>
      match wait_body d closing with
      | None => fail p d idle_timeout_error
      | Some d' =>
          if negb (len (frame d') =? 0) then fail p d' incomplete_frame
          else if bool_decide (termination = DoneSentinel) then fail p d' missing_done
          else (p, d', [], false)
      end
  | Broken waited e :: _ =>
      match wait_body d waited with
      | None => fail p d idle_timeout_error
      | Some d' => fail p d' e
      end
  | Chunk waited bytes :: rest =>
      match wait_body d waited with
      | None => fail p d idle_timeout_error
      | Some d1 =>
          match decode_chunk p d1 bytes with
          | (p2, d2, items, true) =>
              let '(p3, d3, items', go) := decode_body p2 d2 rest closing in
              (p3, d3, items ++ items', go)
          | r => r
          end
      end
  end.

(** [decode_sse_with_idle]: everything the stream yields. *)
Definition decode_sse (p : P) (body : list arrival) (closing : Z) : P * list (item L) :=
  match validate_frame_limit maximum with
  | Ok _ =>
      match adm_begin p maximum with
      | (p', inr e) => (p', [Failure e])
      | (p', inl a) =>
          let d := {| frame := []; capacity := 0; line_start := 0; previous_was_cr := false;
                      admission := Some a; remaining := idle_timeout |} in
          let '(p2, d2, items, _) := decode_body p' d body closing in
          (match admission d2 with Some a2 => adm_drop p2 a2 | None => p2 end, items)
      end
  | Err e => (p, [Failure e])
  | Panic => (p, [])
  end.
End decoder.

(** ** The buffer is always covered by its admission

    What the pool promises about sizes: an admission covers [covered a] bytes, and
    [ensure_bytes] covers what was asked for. *)
Class AdmissionCovers (P A L : Type) `{FrameAdmissionApi P A L} := {
  covered : A → Z;
  ensure_covers p a n p' a' :
    adm_ensure_bytes p a n = (p', inl a') → n ≤ covered a' ∧ covered a ≤ covered a';
  begin_covers p m p' a : adm_begin p m = (p', inl a) → 0 ≤ covered a;
}.

Lemma next_power_of_two_ge n : n ≤ next_power_of_two n.
Proof.
  unfold next_power_of_two. destruct (n <=? 1) eqn:Hn; [lia|].
  destruct (Z.log2_up_spec n); lia.
Qed.

(** The buffer grows within the limit and geometrically: the next capacity holds the
    projected frame, never exceeds the frame limit, never shrinks, and at least doubles
    unless it reaches the limit. *)
Lemma next_frame_capacity_growth current projected maximum :
  0 ≤ current ≤ maximum → projected ≤ maximum → maximum ≤ MAX_PROVIDER_SSE_FRAME_BYTES →
  let next := next_frame_capacity current projected maximum in
  projected ≤ next ≤ maximum ∧ current ≤ next ∧
  (current < next → next = maximum ∨ (2 * current ≤ next ∧ 1024 ≤ next)).
Proof.
  intros Hcur Hproj Hmax next. subst next. unfold next_frame_capacity, checked_mul.
  unfold MAX_PROVIDER_SSE_FRAME_BYTES in *. destruct (projected <=? current) eqn:Hp; [lia|].
  pose proof (next_power_of_two_ge projected).
  destruct (current * 2 <=? usize_max) eqn:Hd; unfold usize_max in *; lia.
Qed.

Section buffer.
Context {P A L : Type} `{HC : AdmissionCovers P A L}.
Context (termination : SseTermination) (maximum : Z) (idle_timeout : option Z).
Hypothesis Hmax : 1 ≤ maximum ≤ MAX_PROVIDER_SSE_FRAME_BYTES.

(** The frame fits its buffer, the buffer the limit and the admission that is held. *)
Definition buffer_ok (d : Decoder A) : Prop :=
  len (frame d) ≤ capacity d ≤ maximum ∧
  ∀ a, admission d = Some a → capacity d ≤ covered a.

Definition buffered (r : progress (P:=P) (A:=A) (L:=L)) : Prop :=
  let '(_, d, _, go) := r in buffer_ok d ∧ (go = true → is_Some (admission d)).

Lemma buffered_cr p d items go cr :
  buffered (p, d, items, go) → buffered (p, set_cr d cr, items, go).
Proof. done. Qed.

Lemma push_bytes_buffered p d bytes :
  buffer_ok d → buffered (push_bytes maximum p d bytes).
Proof.
  intros Hok. pose proof Hok as [Hcap Hcov]. unfold push_bytes, fail.
  set (projected := saturating_add usize_max (len (frame d)) (len bytes)).
  destruct (maximum <? projected) eqn:Hp; [done|].
  destruct (admission d) as [a|] eqn:Ha; [|done].
  destruct (adm_ensure_bytes p a _) as [p' [a'|e]] eqn:He; [|done].
  pose proof (len_nonneg (frame d)). pose proof (len_nonneg bytes).
  destruct (next_frame_capacity_growth (capacity d) projected maximum) as (Hn & Hc & _); [lia..|].
  apply ensure_covers in He as [He1 He2]. specialize (Hcov a eq_refl).
  subst projected. unfold saturating_add, usize_max, MAX_PROVIDER_SSE_FRAME_BYTES in *.
  split; [split|by eauto]; simpl; [rewrite len_app; lia|]. intros ? [= <-]. lia.
Qed.

Lemma emptied_ok cr r (a : option A) :
  (∀ x, a = Some x → 0 ≤ covered x) →
  buffer_ok {| frame := []; capacity := 0; line_start := 0; previous_was_cr := cr;
               admission := a; remaining := r |}.
Proof. intros Ha. split; simpl; [unfold len; simpl; lia|auto]. Qed.

Lemma finish_frame_buffered p d :
  buffer_ok d → buffered (finish_frame termination maximum idle_timeout p d).
Proof.
  intros [Hcap Hcov]. pose proof (len_nonneg (frame d)).
  assert (∀ x, admission d = Some x → 0 ≤ covered x) as Hpos
    by (intros x Hx; specialize (Hcov x Hx); lia).
  unfold finish_frame, fail, emptied. destruct (decode_sse_frame (frame d)) as [[data|]|e|].
  - destruct (_ && _); [split; [by apply emptied_ok|done]|].
    destruct (admission d) as [a|]; [|split; [by apply emptied_ok|done]].
    destruct (adm_seal p a _) as [p' lease].
    destruct (adm_begin p' maximum) as [p2 [a2|e]] eqn:Hb; (split; [apply emptied_ok|by eauto]);
      intros ? [= <-]. by eapply begin_covers.
  - destruct (adm_begin _ maximum) as [p2 [a2|e]] eqn:Hb; (split; [apply emptied_ok|by eauto]);
      intros ? [= <-]. by eapply begin_covers.
  - split; [by apply emptied_ok|done].
  - split; [by apply emptied_ok|done].
Qed.

Lemma end_line_buffered p d :
  buffer_ok d → buffered (end_line termination maximum idle_timeout p d).
Proof.
  intros Hok. unfold end_line. destruct (_ =? _); [by apply finish_frame_buffered|].
  pose proof (push_bytes_buffered p d [LF] Hok) as Hp.
  by destruct (push_bytes maximum p d [LF]) as [[[p' d'] items] []].
Qed.

Lemma scan_chunk_buffered fuel p d chunk offset :
  buffer_ok d → is_Some (admission d) →
  buffered (scan_chunk termination maximum idle_timeout fuel p d chunk offset).
Proof.
  revert p d offset. induction fuel as [|fuel IH]; intros p d offset Hok Ha; [done|].
  cbn [scan_chunk]. destruct (len chunk <=? offset); [done|].
  destruct (memchr2 _) as [n|].
  - pose proof (push_bytes_buffered p d (slice offset (offset + n) chunk) Hok) as Hp.
    destruct (push_bytes _ _ _ _) as [[[p1 d1] i1] []]; [|done]. destruct Hp as [Hok1 _].
    pose proof (end_line_buffered p1 d1 Hok1) as Hl.
    destruct (end_line _ _ _ _ _) as [[[p2 d2] i2] []]; [|done]. destruct Hl as [Hok2 Ha2].
    specialize (Ha2 eq_refl).
    match goal with |- context [scan_chunk ?t ?m ?i ?f ?p ?d ?c ?o] =>
      pose proof (IH p d o Hok2 Ha2) as Hr; destruct (scan_chunk t m i f p d c o) as [[[? ?] ?] ?]
    end. exact Hr.
  - pose proof (push_bytes_buffered p d (drop (Z.to_nat offset) chunk) Hok) as Hp.
    by destruct (push_bytes _ _ _ _) as [[[p1 d1] i1] []].
Qed.

Lemma wait_body_buffered d waited d' :
  wait_body d waited = Some d' → buffer_ok d → is_Some (admission d) →
  buffer_ok d' ∧ is_Some (admission d').
Proof.
  unfold wait_body. intros Hw Hok Ha. repeat case_match; simplify_eq; done.
Qed.

(** At every point of every stream, whatever arrives, however it is cut and whenever a
    wait times out, the frame fits the buffer, the buffer stays within the frame limit, and
    the admission held covers the buffer; a stream that goes on still holds its admission. *)
Lemma sse_buffer_admitted p d body closing :
  buffer_ok d → is_Some (admission d) →
  buffered (decode_body termination maximum idle_timeout p d body closing).
Proof.
  revert p d. induction body as [|[waited bytes|waited e] body IH]; intros p d Hok Ha;
    cbn [decode_body]; unfold fail.
  - destruct (wait_body d closing) as [d'|] eqn:Hw; [|done].
    apply wait_body_buffered in Hw as [? ?]; [|done..].
    destruct (negb _); [done|]. by destruct (bool_decide _).
  - destruct (wait_body d waited) as [d'|] eqn:Hw; [|done].
    apply wait_body_buffered in Hw as [Hok' Ha']; [|done..].
    assert (buffered (decode_chunk termination maximum idle_timeout p d' bytes)) as Hc.
    { unfold decode_chunk, fail. destruct (_ <? _); [done|]. destruct (_ =? 0); [done|].
      by apply scan_chunk_buffered. }
    destruct (decode_chunk _ _ _ _ _ _) as [[[p2 d2] items] []]; [|done].
    destruct Hc as [Hok2 Ha2]. specialize (IH p2 d2 Hok2 (Ha2 eq_refl)).
    by destruct (decode_body _ _ _ _ _ _ _) as [[[? ?] ?] ?].
  - destruct (wait_body d waited) as [d'|] eqn:Hw; [|done].
    by apply wait_body_buffered in Hw as [? ?]; [|done..].
Qed.
End buffer.

(** A pool that grants every call, with the bytes admitted as the admission. *)
#[export] Instance granting : FrameAdmissionApi unit Z unit := {
  adm_begin p m := (p, inl 0);
  adm_ensure_bytes p a n := (p, inl (Z.max a n));
  adm_seal p a n := (p, tt);
  adm_drop p a := p;
}.

#[export] Instance granting_covers : AdmissionCovers unit Z unit.
Proof.
  refine {| covered := λ a, a |}; simpl.
  - intros p a n p' a' [= <- <-]. lia.
  - intros p m p' a [= <- <-]. lia.
Defined.

Definition started : Decoder Z :=
  {| frame := []; capacity := 0; line_start := 0; previous_was_cr := false;
     admission := Some 0; remaining := None |}.

Lemma sse_buffer_admitted_witness :
  buffered 100 (decode_body (L:=unit) Eof 100 None tt started [Chunk 0 [100; 97; 10]; Chunk 0 [65]] 0).
Proof.
  apply (sse_buffer_admitted (P:=unit) (L:=unit) Eof 100 None);
    [unfold MAX_PROVIDER_SSE_FRAME_BYTES; lia| |by eexists].
  split; simpl; [unfold len; simpl; lia|]. intros a [= <-]. simpl. lia.
Defined.

(** ** The reference: one byte at a time, however the body was cut

    The reference sees only bytes: no buffers, offsets, admissions or chunks. *)
Record bstate := { bframe : list Z; bline : Z; bcr : bool }.
Definition bfresh (cr : bool) : bstate := {| bframe := []; bline := 0; bcr := cr |}.

Inductive event := Data (data : list Z) | Failed (e : TransportError).

Section reference.
Context (termination : SseTermination) (maximum : Z).

(** A line terminator. *)
Definition ref_end_line (cr : bool) (s : bstate) : list event * option bstate :=
  if len (bframe s) =? bline s then
    match decode_sse_frame (bframe s) with
    | Err e => ([Failed e], None)
    | Panic => ([], None)
    | Ok None => ([], Some (bfresh cr))
    | Ok (Some data) =>
        if bool_decide (termination = DoneSentinel) && bool_decide (data = DONE)
        then ([], None) else ([Data data], Some (bfresh cr))
    end
  else if maximum <? len (bframe s) + 1 then ([Failed (frame_too_large maximum)], None)
  else ([], Some {| bframe := bframe s ++ [LF]; bline := len (bframe s) + 1; bcr := cr |}).

Definition ref_byte (s : bstate) (b : Z) : list event * option bstate :=
  if bcr s && (b =? LF) then
    ([], Some {| bframe := bframe s; bline := bline s; bcr := false |})
  else if (b =? CR) || (b =? LF) then ref_end_line (b =? CR) s
  else if maximum <? len (bframe s) + 1 then ([Failed (frame_too_large maximum)], None)
  else ([], Some {| bframe := bframe s ++ [b]; bline := bline s; bcr := false |}).

Fixpoint ref_bytes (s : bstate) (l : list Z) : list event * option bstate :=
  match l with
  | [] => ([], Some s)
  | b :: rest =>
      match ref_byte s b with
      | (o, None) => (o, None)
      | (o, Some s') => let '(o', r) := ref_bytes s' rest in (o ++ o', r)
      end
  end.

(** The end of the body: its own error, or its regular end. *)
Definition ref_end (s : bstate) (ending : option TransportError) : list event :=
  match ending with
  | Some e => [Failed e]
  | None =>
      if negb (len (bframe s) =? 0) then [Failed incomplete_frame]
      else if bool_decide (termination = DoneSentinel) then [Failed missing_done]
      else []
  end.

Definition ref_stream (bytes : list Z) (ending : option TransportError) : list event :=
  match ref_bytes (bfresh false) bytes with
  | (o, None) => o
  | (o, Some s) => o ++ ref_end s ending
  end.

Lemma ref_bytes_app s a b :
  ref_bytes s (a ++ b) =
    match ref_bytes s a with
    | (o, None) => (o, None)
    | (o, Some s') => let '(o', r) := ref_bytes s' b in (o ++ o', r)
    end.
Proof.
  revert s. induction a as [|x a IH]; intros s; simpl; [by destruct (ref_bytes s b)|].
  destruct (ref_byte s x) as [o [s'|]]; [|done]. rewrite IH.
  destruct (ref_bytes s' a) as [o1 [s1|]]; [|done].
  destruct (ref_bytes s1 b) as [o2 r]. by rewrite (assoc_L (++)).
Qed.

Definition plain (l : list Z) : Prop := Forall (λ b, (b =? CR) || (b =? LF) = false) l.

(** A run of plain bytes is appended, or overflows the frame somewhere. *)
Lemma ref_bytes_plain s a :
  plain a → len (bframe s) ≤ maximum → a ≠ [] →
  ref_bytes s a =
    if maximum <? len (bframe s) + len a then ([Failed (frame_too_large maximum)], None)
    else ([], Some {| bframe := bframe s ++ a; bline := bline s; bcr := false |}).
Proof.
  intros Ha. revert s. induction Ha as [|x a Hx Ha IH]; intros s Hs Hne; [done|].
  cbn [ref_bytes]. unfold ref_byte. rewrite Hx.
  replace (bcr s && (x =? LF)) with false by (destruct (bcr s); simpl in *; lia).
  rewrite len_cons. pose proof (len_nonneg a). destruct (maximum <? len (bframe s) + 1) eqn:Hb.
  { by replace (maximum <? len (bframe s) + (1 + len a)) with true by lia. }
  destruct (decide (a = [])) as [->|Hna].
  { simpl. rewrite len_nil. by replace (maximum <? len (bframe s) + (1 + 0)) with false by lia. }
  rewrite IH; [|cbn [bframe]; rewrite len_app, len_cons, len_nil; lia|done]. simpl.
  rewrite len_app, len_cons, len_nil.
  replace (len (bframe s) + (1 + 0) + len a) with (len (bframe s) + (1 + len a)) by lia.
  rewrite <- app_assoc. by destruct (maximum <? len (bframe s) + (1 + len a)).
Qed.

Lemma ref_bytes_cr s l :
  head l ≠ Some LF → l ≠ [] →
  ref_bytes s l = ref_bytes {| bframe := bframe s; bline := bline s; bcr := false |} l.
Proof.
  destruct l as [|x l]; [done|]. simpl. intros Hx _. unfold ref_byte, ref_end_line. simpl.
  replace (bcr s && (x =? LF)) with false; [done|].
  destruct (Z.eqb_spec x LF); [congruence|by rewrite andb_false_r].
Qed.
End reference.

Lemma memchr2_None l : memchr2 l = None → plain l.
Proof.
  induction l as [|x l IH]; simpl; [by constructor|].
  destruct ((x =? CR) || (x =? LF)) eqn:Hx; [done|].
  destruct (memchr2 l); [done|]. intros _. constructor; [done|by apply IH].
Qed.

Lemma memchr2_Some l n :
  memchr2 l = Some n →
  ∃ a t r, l = a ++ t :: r ∧ len a = n ∧ plain a ∧ (t =? CR) || (t =? LF) = true.
Proof.
  revert n. induction l as [|x l IH]; intros n; simpl; [done|].
  destruct ((x =? CR) || (x =? LF)) eqn:Hx.
  - intros [= <-]. exists [], x, l. split_and!; [done|done|by constructor|done].
  - destruct (memchr2 l) as [m|]; [|done]. intros [= <-].
    destruct (IH m eq_refl) as (a & t & r & -> & <- & Ha & Ht). exists (x :: a), t, r.
    rewrite len_cons. split_and!; [done|lia|by constructor|done].
Qed.

(** *** The data of a frame is no longer than the frame *)
Definition lines_size (ls : list (list Z)) : nat := sum_list ((λ a, S (length a)) <$> ls).

Lemma lines_total l : (lines_size (lines l) ≤ S (length l))%nat.
Proof.
  unfold lines_size. induction l as [|x l IH]; csimpl; [lia|]. destruct (x =? LF); csimpl; [lia|].
  destruct (lines l) as [|a ls]; csimpl in *; lia.
Qed.

Lemma join_size vs : (length (join vs) ≤ pred (lines_size vs))%nat.
Proof.
  unfold lines_size. induction vs as [|v vs IH]; [csimpl; lia|]. destruct vs as [|w vs]; [csimpl; lia|].
  change (join (v :: w :: vs)) with (v ++ LF :: join (w :: vs)). rewrite length_app.
  csimpl in *. lia.
Qed.

Lemma data_values_size ls : (lines_size (omap data_value ls) ≤ lines_size ls)%nat.
Proof.
  unfold lines_size. induction ls as [|a ls IH]; [done|]. csimpl.
  rewrite data_value_spec. destruct (starts_with DATA a); csimpl; [|lia].
  case_bool_decide; rewrite length_drop; lia.
Qed.

Lemma decode_sse_frame_size f data :
  decode_sse_frame f = Ok (Some data) → len data ≤ len f.
Proof.
  unfold decode_sse_frame. destruct (utf8_valid f); [|done].
  destruct (decode_frame_compact f) as (F & W & found & -> & Hdata).
  simpl negb. cbv iota. destruct found; [|done]. simpl negb. rewrite Nat2Z.id.
  cbv iota zeta. destruct (utf8_valid (take W F)); [|done].
  intros [= <-]. unfold frame_data in Hdata. unfold len.
  destruct (omap data_value (lines f)) as [|v vs] eqn:Ho; [done|]. injection Hdata as ->.
  pose proof (join_size (v :: vs)). pose proof (data_values_size (lines f)).
  pose proof (lines_total f). rewrite Ho in *.
  change (Z.of_nat (length (join (v :: vs))) ≤ Z.of_nat (length f)). lia.
Qed.

(** What a pool that eventually grants promises to one stream: [held m p a] says that the
    stream, whose declared maximum is [m], may use its admission [a]. *)
Class AdmissionGrants (P A L : Type) `{FrameAdmissionApi P A L} := {
  held : Z → P → option A → Prop;
  begin_grants m p : 1 ≤ m ≤ MAX_PROVIDER_SSE_FRAME_BYTES → held m p None →
    ∃ p' a, adm_begin p m = (p', inl a) ∧ held m p' (Some a);
  ensure_grants m p a n : held m p (Some a) → n ≤ m →
    ∃ p' a', adm_ensure_bytes p a n = (p', inl a') ∧ held m p' (Some a');
  seal_grants m p a n : held m p (Some a) → 0 ≤ n ≤ m → held m (adm_seal p a n).1 None;
  drop_grants m p a : held m p (Some a) → held m (adm_drop p a) None;
}.

(** The yielded items without their leases. *)
Definition event_of {L} (i : item L) : event :=
  match i with Value data _ => Data data | Failure e => Failed e end.

Section chunking.
Context {P A L : Type} `{HG : AdmissionGrants P A L}.
Context (termination : SseTermination) (maximum : Z).
Hypothesis Hmax : 1 ≤ maximum ≤ MAX_PROVIDER_SSE_FRAME_BYTES.

(** The decoder's locals and the reference state. *)
Record sim (p : P) (d : Decoder A) (s : bstate) : Prop := {
  sim_frame : frame d = bframe s;
  sim_line : line_start d = bline s;
  sim_cr : previous_was_cr d = bcr s;
  sim_len : len (frame d) ≤ maximum;
  sim_cap : 0 ≤ capacity d ≤ maximum;
  sim_idle : remaining d = None;
  sim_held : held maximum p (admission d);
  sim_some : is_Some (admission d);
}.

Definition agrees (r : progress (P:=P) (A:=A) (L:=L)) (q : list event * option bstate) : Prop :=
  match r, q with
  | (p, d, items, true), (o, Some s) => event_of <$> items = o ∧ sim p d s
  | (_, _, items, false), (o, None) => event_of <$> items = o
  | _, _ => False
  end.

Lemma agrees_true p d items q :
  agrees (p, d, items, true) q → ∃ s, q = (event_of <$> items, Some s) ∧ sim p d s.
Proof. destruct q as [o [s|]]; [|done]. intros [<- Hs]. eauto. Qed.
Lemma agrees_false p d items q :
  agrees (p, d, items, false) q → q = (event_of <$> items, None).
Proof. destruct q as [o [s|]]; [done|]. by intros <-. Qed.

Lemma push_agrees p d s bytes :
  sim p d s →
  agrees (push_bytes maximum p d bytes)
    (if maximum <? len (bframe s) + len bytes then ([Failed (frame_too_large maximum)], None)
     else ([], Some {| bframe := bframe s ++ bytes; bline := bline s; bcr := bcr s |})).
Proof.
  intros [Hf Hl Hc Hlen Hcap Hi Hh [a Ha]]. unfold push_bytes, fail. rewrite <- Hf.
  pose proof (len_nonneg (frame d)). pose proof (len_nonneg bytes).
  unfold saturating_add, usize_max, MAX_PROVIDER_SSE_FRAME_BYTES in *.
  set (projected := Z.min _ _).
  replace (maximum <? projected) with (maximum <? len (frame d) + len bytes) by lia.
  destruct (maximum <? len (frame d) + len bytes) eqn:Hb; [done|]. rewrite Ha in Hh |- *.
  destruct (next_frame_capacity_growth (capacity d) projected maximum) as (Hn & Hm & _);
    [unfold MAX_PROVIDER_SSE_FRAME_BYTES; lia..|].
  destruct (ensure_grants maximum p a (Z.max (next_frame_capacity (capacity d) projected maximum) 1))
    as (p' & a' & -> & Hh'); [done|lia|].
  split; [done|]. split; simpl; try done; [rewrite len_app; lia|lia].
Qed.

Lemma finish_agrees p d s cr :
  sim p d s → len (bframe s) = bline s →
  agrees
    (let '(p', d', items, go) := finish_frame termination maximum None p d in
     (p', set_cr d' cr, items, go))
    (ref_end_line termination maximum cr s).
Proof.
  intros [Hf Hl Hc Hlen Hcap Hi Hh [a Ha]] Heq. unfold finish_frame, ref_end_line, fail.
  rewrite <- Hf in *. replace (len (frame d) =? bline s) with true by lia. rewrite Ha in Hh |- *.
  assert (∀ p1 items, held maximum p1 None →
    agrees
      (let '(p', d', items', go) :=
         match adm_begin p1 maximum with
         | (p2, inl a2) =>
             (p2, {| frame := []; capacity := 0; line_start := 0;
                     previous_was_cr := previous_was_cr d; admission := Some a2;
                     remaining := None |}, items, true)
         | (p2, inr e) =>
             (p2, {| frame := []; capacity := 0; line_start := 0;
                     previous_was_cr := previous_was_cr d; admission := None;
                     remaining := None |}, items ++ [Failure e], false)
         end in (p', set_cr d' cr, items', go))
      (event_of <$> items, Some (bfresh cr))) as Hrestart.
  { intros p1 items H1. destruct (begin_grants maximum p1) as (p2 & a2 & -> & H2); [done..|].
    split; [done|]. split; simpl; try done; unfold len; simpl; lia. }
  destruct (decode_sse_frame (frame d)) as [[data|]|e|] eqn:Hd; [| |done..].
  - destruct (_ && _); [done|]. pose proof (len_nonneg data).
    pose proof (decode_sse_frame_size _ _ Hd).
    assert (held maximum (adm_seal p a (len data)).1 None) as Hs by (apply seal_grants; [done|lia]).
    destruct (adm_seal p a (len data)) as [p1 lease]. exact (Hrestart p1 [Value data lease] Hs).
  - exact (Hrestart _ [] (drop_grants _ _ _ Hh)).
Qed.

Lemma end_line_agrees p d s cr :
  sim p d s →
  agrees
    (let '(p', d', items, go) := end_line termination maximum None p d in
     (p', set_cr d' cr, items, go))
    (ref_end_line termination maximum cr s).
Proof.
  intros Hs. unfold end_line. pose proof Hs as [Hf Hl _ _ _ _ _ _]. rewrite Hf, Hl.
  destruct (len (bframe s) =? bline s) eqn:Heq; [apply finish_agrees; [done|lia]|].
  pose proof (push_agrees p d s [LF] Hs) as Hp. unfold ref_end_line. rewrite Heq.
  rewrite (len_cons LF []), len_nil in Hp. change (1 + 0) with 1 in Hp.
  destruct (push_bytes maximum p d [LF]) as [[[p' d'] items] []].
  - apply agrees_true in Hp as (s' & Hp & Hs').
    destruct (maximum <? len (bframe s) + 1); [done|]. injection Hp as -> <-.
    split; [done|]. destruct Hs' as [Hf' ? ? ? ? ? ? ?]. simpl in *.
    split; simpl; try done. by rewrite Hf', len_app, len_cons, len_nil.
  - apply agrees_false in Hp. destruct (maximum <? len (bframe s) + 1); [|done].
    by injection Hp as ->.
Qed.

(** The effect of a terminator: the bytes before it, then the end of the line. *)
Lemma ref_bytes_line s a t r :
  plain a → (t =? CR) || (t =? LF) = true → len (bframe s) ≤ maximum →
  (bcr s = true → head (a ++ t :: r) ≠ Some LF) →
  ref_bytes termination maximum s (a ++ t :: r) =
    if maximum <? len (bframe s) + len a then ([Failed (frame_too_large maximum)], None)
    else
      match ref_end_line termination maximum (t =? CR)
              {| bframe := bframe s ++ a; bline := bline s; bcr := false |} with
      | (o, None) => (o, None)
      | (o, Some s') => let '(o', r') := ref_bytes termination maximum s' r in (o ++ o', r')
      end.
Proof.
  intros Ha Ht Hlen Hcr. destruct (decide (a = [])) as [->|Hne].
  - simpl. rewrite len_nil, Z.add_0_r, app_nil_r. replace (maximum <? _) with false by lia.
    unfold ref_byte. rewrite Ht.
    replace (bcr s && (t =? LF)) with false; [by destruct s|]. destruct (bcr s); [|done].
    destruct (Z.eqb_spec t LF) as [->|]; [by destruct Hcr|done].
  - rewrite ref_bytes_app, ref_bytes_plain by done.
    destruct (maximum <? len (bframe s) + len a); [done|]. simpl. unfold ref_byte. simpl.
    rewrite Ht.
    destruct (ref_end_line termination maximum (t =? CR)
      {| bframe := bframe s ++ a; bline := bline s; bcr := false |}) as [o [s'|]]; [|done].
    by destruct (ref_bytes termination maximum s' r).
Qed.

Lemma sim_set_cr p d s cr :
  sim p d s →
  sim p (set_cr d cr) {| bframe := bframe s; bline := bline s; bcr := cr |}.
Proof. by intros [? ? ? ? ? ? ? ?]. Qed.

(** The chunk around a terminator at [len k + len a]. *)
Lemma chunk_at (k a : list Z) t r :
  slice (len k) (len k + len a) (k ++ a ++ t :: r) = a ∧
  byte_at (len k + len a) (k ++ a ++ t :: r) = t ∧
  (k ++ a ++ t :: r) !! Z.to_nat (len k + len a + 1) = head r ∧
  drop (Z.to_nat (len k)) (k ++ a ++ t :: r) = a ++ t :: r.
Proof.
  split_and!.
  - apply slice_app; lia.
  - unfold byte_at, len. rewrite app_nth2, app_nth2 by lia.
    by replace (_ - _ - _)%nat with 0%nat by lia.
  - unfold len. rewrite lookup_app_r, lookup_app_r by lia.
    replace (_ - _ - _)%nat with 1%nat by lia. by destruct r.
  - unfold len. rewrite Nat2Z.id. apply drop_app_length.
Qed.

Lemma agrees_more items r q :
  agrees r q →
  agrees (let '(p, d, items', go) := r in (p, d, items ++ items', go))
    (let '(o, s) := q in ((event_of <$> items) ++ o, s)).
Proof.
  destruct r as [[[p d] items'] []], q as [o [s|]]; simpl; try done.
  - intros [<- Hs]. by rewrite fmap_app.
  - intros <-. by rewrite fmap_app.
Qed.

(** After a terminator: the LF of a CR LF pair inside the chunk is skipped at once, one at
    the start of the next chunk later. *)
Lemma after_terminator (go : Decoder A → Z → progress) p d s cr k a t r :
  sim p (set_cr d cr) s → cr = (t =? CR) →
  (∀ d' s' k' u, (length u ≤ length r)%nat → k' ++ u = k ++ a ++ t :: r →
    sim p d' s' → (bcr s' = true → head u ≠ Some LF) →
    agrees (go d' (len k')) (ref_bytes termination maximum s' u)) →
  let skip := cr && bool_decide (head r = Some LF) in
  agrees
    (go (set_cr d (cr && negb skip))
       (if skip then len k + len a + 1 + 1 else len k + len a + 1))
    (ref_bytes termination maximum s r).
Proof.
  intros Hs -> IH skip. subst skip. pose proof (sim_cr _ _ _ Hs) as Hcr. simpl in Hcr.
  destruct ((t =? CR) && bool_decide (head r = Some LF)) eqn:Hskip.
  - apply andb_true_iff in Hskip as [Ht Hr%bool_decide_eq_true]. rewrite Ht in *.
    destruct r as [|x r]; [done|]. injection Hr as ->. cbn [ref_bytes]. unfold ref_byte.
    rewrite <- Hcr. cbn [andb negb Z.eqb LF Pos.eqb].
    replace (len k + len a + 1 + 1) with (len (k ++ a ++ [t; LF]))
      by (rewrite !len_app; unfold len; simpl; lia).
    pose proof (IH (set_cr d false) {| bframe := bframe s; bline := bline s; bcr := false |}
                  (k ++ a ++ [t; LF]) r) as Hi.
    destruct (ref_bytes _ _ _ r) as [o q]. apply Hi; [simpl; lia|by rewrite <- !app_assoc| |done].
    apply (sim_set_cr _ _ _ false) in Hs. exact Hs.
  - rewrite andb_true_r.
    replace (len k + len a + 1) with (len (k ++ a ++ [t]))
      by (rewrite !len_app; unfold len; simpl; lia).
    apply IH; [lia|by rewrite <- !app_assoc|done|]. rewrite <- Hcr. intros Ht.
    rewrite Ht in Hskip. by apply bool_decide_eq_false in Hskip.
Qed.

Lemma scan_agrees fuel p d s k u :
  (length u < fuel)%nat → sim p d s → (bcr s = true → head u ≠ Some LF) →
  agrees (scan_chunk termination maximum None fuel p d (k ++ u) (len k))
    (ref_bytes termination maximum s u).
Proof.
  revert p d s k u. induction fuel as [|fuel IH]; intros p d s k u Hfuel Hs Hcr; [lia|].
  cbn [scan_chunk]. rewrite len_app. destruct u as [|x u].
  { replace (len k + len [] <=? len k) with true by (unfold len; simpl; lia). done. }
  replace (len k + len (x :: u) <=? len k) with false
    by (rewrite len_cons; pose proof (len_nonneg u); lia).
  assert (len (bframe s) ≤ maximum) as Hlen by (destruct Hs as [<- ? ? ? ? ? ? ?]; done).
  assert (drop (Z.to_nat (len k)) (k ++ x :: u) = x :: u) as ->
    by (unfold len; rewrite Nat2Z.id; apply drop_app_length).
  destruct (memchr2 (x :: u)) as [n|] eqn:Hm.
  - apply memchr2_Some in Hm as (a & t & r & Heq & <- & Ha & Ht). rewrite Heq in *.
    destruct (chunk_at k a t r) as (-> & -> & -> & _). rewrite ref_bytes_line by done.
    pose proof (push_agrees p d s a Hs) as Hp.
    destruct (push_bytes maximum p d a) as [[[p1 d1] items1] []].
    2:{ apply agrees_false in Hp. destruct (_ <? _); [|done]. by injection Hp as ->. }
    apply agrees_true in Hp as (s1 & Hp & Hs1).
    destruct (maximum <? len (bframe s) + len a); [done|]. injection Hp as Hnil <-. symmetry in Hnil. apply fmap_nil_inv in Hnil as ->.
    pose proof (end_line_agrees p1 d1 _ (t =? CR) Hs1) as Hl.
    destruct (end_line termination maximum None p1 d1) as [[[p2 d2] items2] []].
    2:{ apply agrees_false in Hl. unfold ref_end_line in Hl |- *. simpl in Hl |- *.
        by rewrite Hl. }
    apply agrees_true in Hl as (s2 & Hl & Hs2).
    unfold ref_end_line in Hl |- *. simpl in Hl |- *. rewrite Hl. clear Hl.
    apply (agrees_more items2).
    eapply (after_terminator (λ d' o, scan_chunk termination maximum None fuel p2 d'
             (k ++ a ++ t :: r) o)); [done|done|].
    intros d' s' k' u' Hu <- Hs' Hcr'. apply IH; [|done|done].
    rewrite length_app in Hfuel. simpl in Hfuel. lia.
  - apply memchr2_None in Hm. set (rest := x :: u) in *.
    pose proof (push_agrees p d s rest Hs) as Hp. rewrite ref_bytes_plain by done.
    destruct (push_bytes maximum p d rest) as [[[p1 d1] items1] []].
    + apply agrees_true in Hp as (s1 & Hp & Hs1). destruct (_ <? _); [done|].
      injection Hp as Hnil <-. split; [done|]. by apply (sim_set_cr _ _ _ false) in Hs1.
    + apply agrees_false in Hp. destruct (_ <? _); [|done]. by injection Hp as ->.
Qed.

Lemma chunk_agrees p d s c :
  sim p d s → len c ≤ MAX_HTTP_RESPONSE_ITEM_BYTES →
  agrees (decode_chunk termination maximum None p d c) (ref_bytes termination maximum s c).
Proof.
  intros Hs Hc. unfold decode_chunk. replace (_ <? len c) with false by lia.
  destruct c as [|x c].
  { split; [done|]. exact Hs. }
  replace (len (x :: c) =? 0) with false by (rewrite len_cons; pose proof (len_nonneg c); lia).
  pose proof (sim_cr _ _ _ Hs) as ->. cbn [head].
  destruct (bcr s && bool_decide (Some x = Some LF)) eqn:Hskip.
  - apply andb_true_iff in Hskip as [Hcr Hx%bool_decide_eq_true]. injection Hx as ->.
    cbn [ref_bytes]. unfold ref_byte. rewrite Hcr. cbn [andb Z.eqb LF Pos.eqb].
    pose proof (scan_agrees (S (length (LF :: c))) p (set_cr d false)
      {| bframe := bframe s; bline := bline s; bcr := false |} [LF] c) as Hi.
    destruct (ref_bytes _ _ _ c) as [o q]. apply Hi; [simpl; lia| |done].
    by apply (sim_set_cr _ _ _ false) in Hs.
  - assert (ref_bytes termination maximum s (x :: c) =
      ref_bytes termination maximum {| bframe := bframe s; bline := bline s; bcr := false |}
        (x :: c)) as ->.
    { destruct (bcr s) eqn:Hcr; [|destruct s; simpl in *; by subst].
      apply ref_bytes_cr; [|done]. by apply bool_decide_eq_false in Hskip. }
    apply (scan_agrees _ _ _ _ []); [simpl; lia| |done]. by apply (sim_set_cr _ _ _ false) in Hs.
Qed.

(** The chunks that arrive, and how the body ends. *)
Definition body_of (chunks : list (Z * list Z)) (ending : option (Z * TransportError))
  : list arrival :=
  ((λ c, Chunk c.1 c.2) <$> chunks) ++
    match ending with Some e => [Broken e.1 e.2] | None => [] end.

Lemma body_agrees p d s chunks ending closing :
  sim p d s → Forall (λ c, len c.2 ≤ MAX_HTTP_RESPONSE_ITEM_BYTES) chunks →
  event_of <$> (decode_body termination maximum None p d (body_of chunks ending) closing).1.2 =
    match ref_bytes termination maximum s (concat chunks.*2) with
    | (o, None) => o
    | (o, Some s') => o ++ ref_end termination s' (snd <$> ending)
    end.
Proof.
  intros Hs Hall. revert p d s Hs. unfold body_of.
  induction Hall as [|[w c] chunks Hc Hall IH]; intros p d s Hs.
  - csimpl. pose proof (sim_idle _ _ _ Hs) as Hi.
    destruct ending as [[w e]|]; cbn [decode_body]; unfold wait_body; rewrite Hi; [done|].
    rewrite (sim_frame _ _ _ Hs). unfold ref_end.
    destruct (negb _); [done|]. by destruct (bool_decide _).
  - csimpl. cbn [decode_body]. unfold wait_body. rewrite (sim_idle _ _ _ Hs), ref_bytes_app.
    pose proof (chunk_agrees p d s c Hs Hc) as Hr.
    destruct (decode_chunk termination maximum None p d c) as [[[p2 d2] items] []].
    + apply agrees_true in Hr as (s2 & -> & Hs2). specialize (IH p2 d2 s2 Hs2).
      destruct (decode_body _ _ _ _ _ _ _) as [[[p3 d3] items'] go]. simpl in IH |- *.
      rewrite fmap_app, IH.
      destruct (ref_bytes _ _ s2 _) as [o [s3|]]; [by rewrite (assoc_L (++))|done].
    + by apply agrees_false in Hr as ->.
Qed.

Lemma decode_sse_reference p chunks ending closing :
  held maximum p None → Forall (λ c, len c.2 ≤ MAX_HTTP_RESPONSE_ITEM_BYTES) chunks →
  event_of <$> (decode_sse termination maximum None p (body_of chunks ending) closing).2 =
    ref_stream termination maximum (concat chunks.*2) (snd <$> ending).
Proof.
  intros Hp Hall. unfold decode_sse, validate_frame_limit, ref_stream.
  replace ((maximum =? 0) || (MAX_PROVIDER_SSE_FRAME_BYTES <? maximum)) with false by lia.
  destruct (begin_grants maximum p) as (p' & a & -> & Ha); [done..|].
  set (d := {| frame := []; capacity := 0; line_start := 0; previous_was_cr := false;
               admission := Some a; remaining := None |}).
  assert (sim p' d (bfresh false)) as Hs.
  { split; simpl; try done; unfold len; simpl; lia. }
  pose proof (body_agrees p' d _ chunks ending closing Hs Hall) as Hb.
  by destruct (decode_body _ _ _ _ _ _ _) as [[[p2 d2] items] go].
Qed.

End chunking.

(** ** What a provider writes is what the stream yields *)

(** A value of several lines as a provider frames it: one [data: ] field per line. *)
Definition field (l : list Z) : list Z := DATA ++ SPACE :: l.
Definition terminated (l : list Z) : list Z := l ++ [LF].
Definition fields (ls : list (list Z)) : list Z := concat (terminated <$> (field <$> ls)).
Definition encode_event (ls : list (list Z)) : list Z := fields ls ++ [LF].
#[global] Arguments field : simpl never.
#[global] Arguments terminated : simpl never.

Definition event_ok (maximum : Z) (ls : list (list Z)) : Prop :=
  ls ≠ [] ∧ Forall plain ls ∧ Forall (λ l, utf8_valid l = true) ls ∧ len (fields ls) ≤ maximum.

Lemma plain_no_lf l : plain l → LF ∉ l.
Proof.
  intros Hp Hin. unfold plain in Hp. rewrite Forall_forall in Hp.
  by specialize (Hp LF Hin).
Qed.

Lemma plain_field l : plain l → plain (field l).
Proof. intros Hl. by repeat constructor. Qed.

Lemma fields_cons l ls : fields (l :: ls) = field l ++ LF :: fields ls.
Proof. unfold fields. csimpl. unfold terminated at 1. by rewrite <- app_assoc. Qed.

Lemma fields_lines ls : Forall plain ls → lines (fields ls) = field <$> ls.
Proof.
  induction 1 as [|l ls Hl Hls IH]; [done|].
  rewrite fields_cons, lines_app, IH by (by apply plain_no_lf, plain_field). done.
Qed.

Lemma fields_data ls : Forall plain ls → ls ≠ [] → frame_data (fields ls) = Some (join ls).
Proof.
  intros Hls Hne. unfold frame_data. rewrite fields_lines by done.
  assert (omap data_value (field <$> ls) = ls) as ->; [|by destruct ls].
  clear Hls Hne. induction ls as [|l ls IH]; [done|]. csimpl. by rewrite IH.
Qed.

Lemma fields_valid ls :
  Forall (λ l, utf8_valid l = true) ls → utf8_valid (fields ls) = true.
Proof.
  induction 1 as [|l ls Hl Hls IH]; [done|]. rewrite fields_cons, utf8_valid_app.
  - by rewrite utf8_ascii_cons.
  - unfold field, DATA. simpl. done.
Qed.

Lemma fields_decode maximum ls :
  event_ok maximum ls → decode_sse_frame (fields ls) = Ok (Some (join ls)).
Proof.
  intros (Hne & Hp & Hu & _). unfold decode_sse_frame. rewrite fields_valid by done.
  destruct (decode_frame_compact (fields ls)) as (F & W & found & -> & Hdata).
  rewrite fields_data in Hdata by done. destruct found; [|done]. injection Hdata as Hdata.
  cbn [negb]. rewrite Nat2Z.id. cbv zeta. rewrite Hdata.
  assert (utf8_valid (join ls) = true) as ->; [|done].
  apply (frame_data_valid (fields ls)); [by apply fields_valid|by apply fields_data].
Qed.

Section writing.
Context (termination : SseTermination) (maximum : Z).

(** Every field line is gathered into the frame. *)
Lemma ref_fields ls f rest :
  Forall plain ls → len f + len (fields ls) ≤ maximum →
  ref_bytes termination maximum {| bframe := f; bline := len f; bcr := false |} (fields ls ++ rest) =
  ref_bytes termination maximum
    {| bframe := f ++ fields ls; bline := len f + len (fields ls); bcr := false |} rest.
Proof.
  intros Hls. revert f. induction Hls as [|l ls Hl Hls IH]; intros f Hlen.
  { unfold fields, len. simpl. by rewrite app_nil_r, Z.add_0_r. }
  rewrite fields_cons in *. rewrite len_app, len_cons in Hlen.
  assert (1 ≤ len (field l)) as H1 by (unfold field, len; simpl; lia).
  pose proof (len_nonneg (fields ls)). pose proof (len_nonneg f).
  rewrite <- (app_assoc (field l)), <- app_comm_cons.
  rewrite ref_bytes_line; [|by apply plain_field|done|cbn [bframe]; lia|done]. cbn [bframe bline].
  replace (maximum <? len f + len (field l)) with false by lia.
  unfold ref_end_line. cbn [bframe bline]. rewrite len_app.
  replace (len f + len (field l) =? len f) with false by lia.
  replace (maximum <? len f + len (field l) + 1) with false by lia.
  replace (len f + len (field l) + 1) with (len ((f ++ field l) ++ [LF]))
    by (rewrite !len_app; unfold len; simpl; lia).
  change (LF =? CR) with false.
  rewrite IH by (rewrite !len_app, len_cons, len_nil; lia).
  replace (len ((f ++ field l) ++ [LF]) + len (fields ls))
    with (len f + len (field l ++ LF :: fields ls))
    by (rewrite !len_app, !len_cons, len_nil; lia).
  rewrite <- !app_assoc. cbn [app]. by destruct (ref_bytes _ _ _ rest).
Qed.

(** One event yields its value; [DONE] ends a stream that expects it. *)
Lemma ref_event ls rest :
  event_ok maximum ls →
  ref_bytes termination maximum (bfresh false) (encode_event ls ++ rest) =
    if bool_decide (termination = DoneSentinel) && bool_decide (join ls = DONE) then ([], None)
    else let '(o, r) := ref_bytes termination maximum (bfresh false) rest in
         (Data (join ls) :: o, r).
Proof.
  intros Hok. pose proof (fields_decode maximum ls Hok) as Hd.
  destruct Hok as (Hne & Hp & Hu & Hlen). unfold encode_event. rewrite <- app_assoc.
  pose proof (ref_fields ls [] ([LF] ++ rest) Hp) as Hf. rewrite len_nil in Hf.
  change (bfresh false) with {| bframe := []; bline := 0; bcr := false |} at 1.
  rewrite Hf by lia. cbn [app ref_bytes]. unfold ref_byte. cbn [bframe bline bcr andb orb].
  change (LF =? CR) with false. change (LF =? LF) with true. cbn [orb].
  unfold ref_end_line. cbn [bframe bline]. rewrite Z.add_0_l, Z.eqb_refl, Hd.
  destruct (_ && _); [done|]. by destruct (ref_bytes _ _ (bfresh false) rest).
Qed.

End writing.

Section response.
Context (termination : SseTermination) (maximum : Z).

(** The bytes of a whole response; a stream with a sentinel may go on after it. *)
Definition response (events : list (list (list Z))) (junk : list Z) : list Z :=
  concat (encode_event <$> events) ++
    match termination with DoneSentinel => encode_event [DONE] ++ junk | Eof => [] end.

Lemma ref_response events junk :
  Forall (event_ok maximum) events → 13 ≤ maximum →
  (termination = DoneSentinel → Forall (λ ls, join ls ≠ DONE) events) →
  ref_stream termination maximum (response events junk) None = Data ∘ join <$> events.
Proof.
  intros Hok Hmax Hdone. unfold ref_stream, response.
  induction Hok as [|ls events Hls Hok IH].
  - destruct termination; [|done].
    change (concat (encode_event <$> [])) with (@nil Z). cbv match.
    rewrite app_nil_l, ref_event; [done|].
    split_and!; [done|by repeat constructor|by repeat constructor|].
    change (13 ≤ maximum). lia.
  - change (concat (encode_event <$> ls :: events))
      with (encode_event ls ++ concat (encode_event <$> events)).
    rewrite <- (app_assoc (encode_event ls)), ref_event by done.
    replace (bool_decide (termination = DoneSentinel) && bool_decide (join ls = DONE)) with false.
    2:{ destruct (bool_decide_reflect (termination = DoneSentinel)) as [Ht|]; [|done].
        specialize (Hdone Ht). inversion Hdone. by rewrite bool_decide_eq_false_2. }
    assert (termination = DoneSentinel → Forall (λ ls, join ls ≠ DONE) events) as Hrest
      by (intros Ht; specialize (Hdone Ht); by inversion Hdone).
    specialize (IH Hrest). 
    change (Data ∘ join <$> ls :: events) with (Data (join ls) :: (Data ∘ join <$> events)).
    rewrite <- IH.
    by destruct (ref_bytes _ _ (bfresh false) _) as [o [s|]].
Qed.
End response.

#[export] Instance granting_grants : AdmissionGrants unit Z unit.
Proof. refine {| held := λ _ _ _, True |}; simpl; eauto. Defined.

(** What a provider writes is what the stream yields: for every list of events (each of
    one or more text lines that fit the frame limit), however the response is cut into
    chunks, the stream yields exactly the values, in order, and ends without an error; with
    a sentinel it stops there and ignores what follows. *)
Lemma sse_round_trip {P A L} `{HG : AdmissionGrants P A L} termination maximum
    (p : P) events junk chunks closing :
  13 ≤ maximum ≤ MAX_PROVIDER_SSE_FRAME_BYTES → held maximum p None →
  Forall (event_ok maximum) events →
  (termination = DoneSentinel → Forall (λ ls, join ls ≠ DONE) events) →
  Forall (λ c, len c.2 ≤ MAX_HTTP_RESPONSE_ITEM_BYTES) chunks →
  concat chunks.*2 = response termination events junk →
  event_of <$> (decode_sse termination maximum None p (body_of chunks None) closing).2 =
    Data ∘ join <$> events.
Proof.
  intros Hmax Hp Hok Hdone Hchunks Hbytes.
  rewrite (decode_sse_reference termination maximum) by (done || lia).
  rewrite Hbytes. apply ref_response; [done|lia|done].
Qed.

Lemma sse_round_trip_witness :
  let bytes := response DoneSentinel [[[104; 105]; [33]]; [[120]]] [65] in
  event_of <$> (decode_sse DoneSentinel 64 None tt
    (body_of [(0, take 3 bytes); (5, drop 3 bytes)] None) 0).2 =
  [Data [104; 105; 10; 33]; Data [120]].
Proof.
  cbv zeta.
  apply (sse_round_trip (P:=unit) (L:=unit) DoneSentinel 64 tt [[[104; 105]; [33]]; [[120]]] [65]).
  - unfold MAX_PROVIDER_SSE_FRAME_BYTES. lia.
  - done.
  - by repeat constructor; vm_compute.
  - intros _. by repeat constructor.
  - by repeat constructor.
  - vm_compute. reflexivity.
Defined.

