(* ===== verification/Text.v ===== *)
(** * Text, decimal numbers and identities

    A [String] of the source is a list of Unicode scalar values; [text_len] is its length
    in UTF-8 bytes ([str::len]).  [string_identity!] of
    [crates/rsi-agent/session-protocol/src/lib.rs] gives the identity types ([TurnId],
    [MessageId], [DomainRequestId]): validated texts, and [ContinuationInput] of
    [continuation.rs] the frozen input of an automatic round. *)

From S2P Require Import Prelude.

(** [Result<(), String>] *)
Notation result := (outcome string unit).

Lemma guard_ok (b : bool) (e : string) (k : result) :
  (if b then Err e else k) = Ok tt ↔ b = false ∧ k = Ok tt.
Proof. destruct b; naive_solver. Qed.

Lemma obind_unit_ok (m : result) (k : unit → result) :
  obind m k = Ok tt ↔ m = Ok tt ∧ k tt = Ok tt.
Proof. rewrite obind_ok. split; [intros ([] & ? & ?); done|eauto]. Qed.

Definition text := list Z.

(** The UTF-8 bytes of one scalar value. *)
Definition scalar_bytes (c : Z) : Z :=
  if c <? 128 then 1 else if c <? 2048 then 2 else if c <? 65536 then 3 else 4.
Definition text_len (t : text) : Z := zsum (scalar_bytes <$> t).

(** An ASCII literal of the source. *)
Fixpoint lit (s : string) : text :=
  match s with
  | EmptyString => []
  | String a s => Z.of_N (Ascii.N_of_ascii a) :: lit s
  end.

(** [char::is_control] and [char::is_whitespace] (Unicode [White_Space]). *)
Definition is_control (c : Z) : bool :=
  ((0 <=? c) && (c <=? 31)) || ((127 <=? c) && (c <=? 159)).
Definition is_whitespace (c : Z) : bool :=
  ((9 <=? c) && (c <=? 13)) || (c =? 32) || (c =? 133) || (c =? 160) || (c =? 5760) ||
  ((8192 <=? c) && (c <=? 8202)) || (c =? 8232) || (c =? 8233) || (c =? 8239) ||
  (c =? 8287) || (c =? 12288).
(** [text.trim().is_empty()] *)
Definition trim_is_empty (t : text) : bool := forallb is_whitespace t.

(** [u64] in decimal: twenty digits are enough. *)
Fixpoint dec_go (fuel : nat) (n : Z) : text :=
  match fuel with
  | O => []
  | S fuel => if n <? 10 then [48 + n] else dec_go fuel (n / 10) ++ [48 + n mod 10]
  end.
Definition dec (n : Z) : text := dec_go 20 n.

Lemma text_len_app a b : text_len (a ++ b) = text_len a + text_len b.
Proof. unfold text_len. by rewrite fmap_app, zsum_app. Qed.
Lemma text_len_cons c t : text_len (c :: t) = scalar_bytes c + text_len t.
Proof. done. Qed.
Lemma text_len_nonneg t : 0 ≤ text_len t.
Proof.
  apply zsum_nonneg, Forall_fmap, Forall_true. intros c. unfold compose, scalar_bytes.
  repeat case_match; lia.
Qed.

Definition ascii_text (t : text) : Prop := Forall (λ c, 0 ≤ c < 128) t.

Lemma text_len_ascii t : ascii_text t → text_len t = len t.
Proof.
  induction 1 as [|c t Hc Ht IH]; [done|]. rewrite text_len_cons, len_cons, IH.
  unfold scalar_bytes. by replace (c <? 128) with true by lia.
Qed.

Definition from_dec (t : text) : Z := foldl (λ a c, a * 10 + (c - 48)) 0 t.

Lemma dec_go_value fuel n : 0 ≤ n < 10 ^ Z.of_nat fuel → from_dec (dec_go fuel n) = n.
Proof.
  revert n. induction fuel as [|fuel IH]; intros n Hn; simpl dec_go; [change (0 = n); simpl in Hn; lia|].
  destruct (n <? 10) eqn:Hd; [unfold from_dec; simpl; lia|].
  unfold from_dec in *. rewrite foldl_app. simpl. rewrite IH.
  - pose proof (Z.div_mod n 10). lia.
  - rewrite Nat2Z.inj_succ, Z.pow_succ_r in Hn by lia.
    split; [apply Z.div_pos; lia|apply Z.div_lt_upper_bound; lia].
Qed.

Lemma dec_value n : 0 ≤ n ≤ u64_max → from_dec (dec n) = n.
Proof. intros Hn. apply dec_go_value. unfold u64_max in *. simpl. lia. Qed.

Lemma dec_inj n m : 0 ≤ n ≤ u64_max → 0 ≤ m ≤ u64_max → dec n = dec m → n = m.
Proof. intros Hn Hm Heq. by rewrite <- (dec_value n), Heq, dec_value. Qed.

Definition is_digit (c : Z) : Prop := 48 ≤ c ≤ 57.

Lemma dec_go_digits fuel n : 0 ≤ n → Forall is_digit (dec_go fuel n).
Proof.
  revert n. induction fuel as [|fuel IH]; intros n Hn; simpl; [constructor|]. unfold is_digit.
  destruct (n <? 10) eqn:Hd; [repeat constructor; lia|].
  apply Forall_app. split; [apply IH, Z.div_pos; lia|].
  pose proof (Z.mod_pos_bound n 10). repeat constructor; lia.
Qed.

Lemma dec_go_length fuel n : (length (dec_go fuel n) ≤ fuel)%nat.
Proof.
  revert n. induction fuel as [|fuel IH]; intros n; simpl; [lia|].
  destruct (n <? 10); simpl; [lia|]. rewrite length_app. simpl. specialize (IH (n / 10)). lia.
Qed.

Lemma dec_digits n : 0 ≤ n → Forall is_digit (dec n).
Proof. apply dec_go_digits. Qed.

Lemma dec_ascii n : 0 ≤ n → ascii_text (dec n).
Proof.
  intros Hn. eapply Forall_impl; [by apply dec_digits|]. unfold is_digit. simpl. lia.
Qed.

Lemma dec_text_len n : 0 ≤ n → text_len (dec n) ≤ 20.
Proof.
  intros Hn. rewrite text_len_ascii by (by apply dec_ascii). unfold len.
  pose proof (dec_go_length 20 n). unfold dec. lia.
Qed.

Lemma dec_nonempty n : dec n ≠ [].
Proof.
  change (dec n) with (if n <? 10 then [48 + n] else dec_go 19 (n / 10) ++ [48 + n mod 10]).
  destruct (n <? 10); [done|]. by intros [_ ?]%app_nil.
Qed.

(** ** Identities *)
Definition MAXIMUM_AGENT_IDENTIFIER_BYTES : Z := 256.

(** [byte.is_ascii_alphanumeric() || matches!(byte, b'.' | b'_' | b'-' | b':')], on
    scalars: a scalar beyond ASCII has bytes that fail the test. *)
Definition identifier_byte (c : Z) : bool :=
  ((48 <=? c) && (c <=? 57)) || ((65 <=? c) && (c <=? 90)) || ((97 <=? c) && (c <=? 122)) ||
  (c =? 46) || (c =? 95) || (c =? 45) || (c =? 58).

(** [validate_identifier], whether it accepts. *)
Definition validate_identifier (value : text) : bool :=
  negb (bool_decide (value = []) || (MAXIMUM_AGENT_IDENTIFIER_BYTES <? text_len value) ||
        negb (forallb identifier_byte value)).

Definition identity_error (kind : string) : string :=
  "invalid session value: " +:+ kind +:+ " identity must be bounded nonempty ASCII".

(** [$name::new(value).map_err(|error| error.to_string())] *)
Definition identity_new (kind : string) (value : text) : outcome string text :=
  if validate_identifier value then Ok value else Err (identity_error kind).

(** [validate_safe_text], whether it accepts. *)
Definition validate_safe_text (value : text) (maximum : Z) (allow_empty : bool) : bool :=
  negb ((negb allow_empty && bool_decide (value = [])) || (maximum <? text_len value) ||
        existsb (λ c, (c =? 0) || (c =? 127)) value).

(** [ContinuationInput] of [session-protocol/src/continuation.rs]. *)
Module Continuation.
Record t := { owner : text; round : Z; message_id : text; body : text }.

#[global] Instance t_eq_dec : EqDecision t.
Proof. solve_decision. Defined.

Definition validate (c : t) : outcome string unit :=
  if round c =? 0 then Err "invalid session value: continuation round must be positive"
  else if validate_safe_text (body c) (16 * 1024) false then Ok tt
  else Err "invalid session value: continuation input must contain 1..=16384 safe UTF-8 bytes".
End Continuation.

Lemma validate_identifier_ok t :
  validate_identifier t = true ↔
    t ≠ [] ∧ text_len t ≤ MAXIMUM_AGENT_IDENTIFIER_BYTES ∧ Forall (λ c, identifier_byte c = true) t.
Proof.
  unfold validate_identifier. rewrite negb_true_iff, !orb_false_iff, negb_false_iff.
  rewrite bool_decide_eq_false, forallb_forall, Forall_forall, Z.ltb_ge.
  setoid_rewrite list_elem_of_In. naive_solver.
Qed.

Lemma identifier_ascii t : validate_identifier t = true → ascii_text t.
Proof.
  intros (_ & _ & H)%validate_identifier_ok. eapply Forall_impl; [done|].
  intros c. unfold identifier_byte. simpl. lia.
Qed.

Lemma identity_new_ok kind t u :
  identity_new kind t = Ok u ↔ u = t ∧ validate_identifier t = true.
Proof. unfold identity_new. destruct (validate_identifier t); naive_solver. Qed.

Lemma identifier_app a b :
  a ≠ [] → Forall (λ c, identifier_byte c = true) (a ++ b) →
  text_len (a ++ b) ≤ MAXIMUM_AGENT_IDENTIFIER_BYTES → validate_identifier (a ++ b) = true.
Proof.
  intros Ha Hf Hl. apply validate_identifier_ok. split_and!; [|done|done].
  by intros [? _]%app_nil.
Qed.

Lemma lit_app a b : lit (a +:+ b) = lit a ++ lit b.
Proof. induction a as [|c a IH]; simpl; [done|by rewrite IH]. Qed.

(** *** Texts that [validate_safe_text] accepts *)
Definition clean (t : text) : Prop := Forall (λ c, c ≠ 0 ∧ c ≠ 127) t.

Lemma clean_identifier t : validate_identifier t = true → clean t.
Proof.
  intros (_ & _ & Hf)%validate_identifier_ok. eapply Forall_impl; [done|].
  intros c. unfold identifier_byte. simpl. lia.
Qed.

Lemma clean_dec n : 0 ≤ n → clean (dec n).
Proof.
  intros Hn. eapply Forall_impl; [by apply dec_digits|]. intros c. unfold is_digit. simpl. lia.
Qed.

(** No control character but the line feed and the tab. *)
Lemma clean_control t :
  existsb (λ c, is_control c && negb ((c =? 10) || (c =? 9))) t = false → clean t.
Proof.
  intros Hc. apply Forall_forall. intros c Hin%list_elem_of_In.
  assert (is_control c && negb ((c =? 10) || (c =? 9)) ≠ true) as Hcc.
  { intros Ht. rewrite <- not_true_iff_false in Hc. apply Hc, existsb_exists. eauto. }
  unfold is_control in Hcc. lia.
Qed.

Lemma clean_safe_text t n b :
  t ≠ [] → text_len t ≤ n → clean t → validate_safe_text t n b = true.
Proof.
  intros Hne Hlen Hclean. unfold validate_safe_text. rewrite (bool_decide_eq_false_2 _ Hne).
  rewrite andb_false_r. replace (n <? text_len t) with false by lia. cbn [orb].
  apply negb_true_iff, not_true_iff_false. intros (c & Hc & Hbad)%existsb_exists.
  unfold clean in Hclean. rewrite Forall_forall in Hclean.
  specialize (Hclean c). rewrite list_elem_of_In in Hclean. specialize (Hclean Hc). lia.
Qed.

(** A SHA-256 digest printed with [{:x}]: 64 lowercase hexadecimal digits. *)
Definition hex_digest (t : text) : Prop :=
  len t = 64 ∧ Forall (λ c, 48 ≤ c ≤ 57 ∨ 97 ≤ c ≤ 102) t.

Lemma hex_identifier (prefix : string) d :
  hex_digest d → lit prefix ≠ [] → ascii_text (lit prefix) → len (lit prefix) ≤ 100 →
  forallb identifier_byte (lit prefix) = true →
  validate_identifier (lit prefix ++ d) = true.
Proof.
  intros [Hlen Hhex] Hne Hascii Hp Hid. apply identifier_app; [done| |].
  - apply Forall_app. split.
    + rewrite forallb_forall in Hid. apply Forall_forall. intros x ?%list_elem_of_In. auto.
    + eapply Forall_impl; [done|]. intros c. unfold identifier_byte. simpl. lia.
  - rewrite text_len_app, !text_len_ascii; [unfold MAXIMUM_AGENT_IDENTIFIER_BYTES; lia| |done].
    eapply Forall_impl; [done|]. simpl. lia.
Qed.

#[global] Arguments lit : simpl never.
#[global] Arguments dec : simpl never.
