(* ===== verification/Goal.v ===== *)
(** * Bounded Goals

    [crates/rsi-agent/goal/src/state.rs]: the durable Goal of a Session, the automatic
    rounds it may allocate and how they settle.  The operations mutate the Goal in place
    and may still fail afterwards, so they are functions from a Goal to the Goal they leave
    and a result; [execute] is the command of [plugin.rs], which proposes a new state only
    on success.  SHA-256 and the JSON encodings it digests are parameters. *)

From S2P Require Import Prelude Text.

(** What the code uses of SHA-256 and [serde_json]: the lowercase hexadecimal digest of
    [serde_json::to_vec] of [(id, round)] and [(id, round, operation)], and of a text. *)
Class GoalDigests := {
  digest_identity : text → Z → text;
  digest_operation : text → Z → text → text;
  digest_text : text → text;
}.

Class GoalDigestsHex `{GoalDigests} : Prop := {
  identity_hex id r : hex_digest (digest_identity id r);
  operation_hex id r o : hex_digest (digest_operation id r o);
}.

Inductive GoalPhase := Active | Paused | Blocked | Completed.
#[export] Instance GoalPhase_eq_dec : EqDecision GoalPhase.
Proof. solve_decision. Defined.

Inductive GoalReportKind := ReportComplete | ReportBlocked | ReportPause.
#[export] Instance GoalReportKind_eq_dec : EqDecision GoalReportKind.
Proof. solve_decision. Defined.

Record GoalReport := { report_kind : GoalReportKind; evidence : text; source_turn : text }.

Inductive RoundOutcome :=
| OutcomeCompleted | OutcomeBlocked | OutcomeCancelled | OutcomeFailed
| OutcomePartialFailed | OutcomeInterrupted | OutcomeMaxTokens.
#[export] Instance RoundOutcome_eq_dec : EqDecision RoundOutcome.
Proof. solve_decision. Defined.

Inductive RoundSettlement :=
| Abandoned
| Discarded
| SettledTurn (turn_id : text) (outcome : RoundOutcome).
#[export] Instance RoundSettlement_eq_dec : EqDecision RoundSettlement.
Proof. solve_decision. Defined.

Record GoalReservation := {
  res_round : Z;
  message_id : text;
  request_id : option text;
  input : text;
  input_sha256 : text;
  settlement : option RoundSettlement;
}.

Record Goal := {
  id : text;
  objective : text;
  constraints : text;
  max_rounds : Z;
  allocated_rounds : Z;
  phase : GoalPhase;
  reason : option text;
  reservation : option GoalReservation;
  report : option GoalReport;
}.

(** [GoalState]. *)
Definition GoalState := option Goal.

Inductive GoalAction :=
| Create (id objective constraints : text) (max_rounds : option Z)
| Resume (id : text)
| Pause (id : text)
| Cancel (id : text).

Definition DEFAULT_MAX_ROUNDS : Z := 256.
Definition MAXIMUM_GOAL_ROUNDS : Z := 9007199254740991.

Definition validate_max_rounds (rounds : Z) : result :=
  if (rounds =? 0) || (MAXIMUM_GOAL_ROUNDS <? rounds)
  then Err "Goal max_rounds must be a positive safe integer" else Ok tt.

Definition safe_text (t : text) (maximum : Z) (empty : bool) : result :=
  if (maximum <? text_len t) || (negb empty && trim_is_empty t) ||
     existsb (λ c, is_control c && negb ((c =? 10) || (c =? 9))) t
  then Err ("Goal text must be safe UTF-8 within " +:+ pretty maximum +:+ " bytes")
  else Ok tt.

(** The [{outcome:?}] of the reason. *)
Definition outcome_debug (o : RoundOutcome) : string :=
  match o with
  | OutcomeCompleted => "Completed"
  | OutcomeBlocked => "Blocked"
  | OutcomeCancelled => "Cancelled"
  | OutcomeFailed => "Failed"
  | OutcomePartialFailed => "PartialFailed"
  | OutcomeInterrupted => "Interrupted"
  | OutcomeMaxTokens => "MaxTokens"
  end.

Definition unsettled (g : Goal) : bool :=
  match reservation g with
  | Some r => bool_decide (settlement r = None)
  | None => false
  end.

Definition verified_report (g : Goal) : option GoalReport :=
  match report g, reservation g with
  | Some rep, Some r =>
      match settlement r with
      | Some (SettledTurn turn OutcomeCompleted) =>
          if bool_decide (turn = source_turn rep) then Some rep else None
      | _ => None
      end
  | _, _ => None
  end.

Definition verified_completion (g : Goal) : bool :=
  match verified_report g with
  | Some rep => bool_decide (report_kind rep = ReportComplete)
  | None => false
  end.

Definition NL : text := [10].

Section goal.
Context `{GoalDigests}.

Definition round_request_id (owner : text) (round : Z) (operation : string)
  : outcome string text :=
  if (round =? 0) || negb (bool_decide (operation = "reserve" ∨ operation = "settle"))
  then Err "invalid Goal round operation"
  else identity_new "domain request"
         (lit "goal-" ++ lit operation ++ lit "-" ++ digest_operation owner round (lit operation)).

Definition round_input (g : Goal) (round : Z) : text :=
  lit "Continue Goal " ++ id g ++ lit ". Automatic round " ++ dec round ++ lit "/" ++
  dec (max_rounds g) ++ lit "." ++ NL ++ lit "Objective:" ++ NL ++ objective g ++ NL ++
  lit "Constraints:" ++ NL ++ constraints g ++ NL ++
  lit "Work toward the objective. Report completion with concrete evidence using report_goal, or report blocked/pause with a reason. The report does not override a failed Turn.".

Definition make_reservation (g : Goal) (round : Z) : outcome string GoalReservation :=
  if (round =? 0) || (max_rounds g <? round) then Err "invalid Goal round"
  else
    (let? m := identity_new "message" (lit "goal-" ++ digest_identity (id g) round) in
     let? request := round_request_id (id g) round "reserve" in
     Ok {| res_round := round; message_id := m; request_id := Some request;
           input := round_input g round; input_sha256 := digest_text (round_input g round);
           settlement := None |})%outcome.

(** The reservation that is kept matches the one that the frozen task gives. *)
Definition reservation_matches (g : Goal) (r expected : GoalReservation) : bool :=
  negb (negb (res_round r =? allocated_rounds g) ||
        negb (bool_decide (message_id r = message_id expected)) ||
        (bool_decide (request_id r = None) && negb (res_round r =? 1)) ||
        (bool_decide (is_Some (request_id r)) &&
         negb (bool_decide (request_id r = request_id expected))) ||
        negb (bool_decide (input r = input expected)) ||
        negb (bool_decide (input_sha256 r = input_sha256 expected))).

Definition validate_option {A} (o : option A) (check : A → result) : result :=
  match o with Some a => check a | None => Ok tt end.

(** [Goal::validate] *)
Definition validate (g : Goal) : result :=
  (let? _ := safe_text (objective g) 8192 false in
   let? _ := safe_text (constraints g) 4096 true in
   let? _ := validate_max_rounds (max_rounds g) in
   if (max_rounds g <? allocated_rounds g) ||
      negb (Bool.eqb (allocated_rounds g =? 0) (bool_decide (reservation g = None)))
   then Err "invalid Goal allocation state"
   else
     let? _ := validate_option (reason g) (λ t, safe_text t 4096 false) in
     let? _ := validate_option (report g) (λ rep, safe_text (evidence rep) 4096 false) in
     let? _ := validate_option (reservation g) (λ r,
       let? expected := make_reservation g (res_round r) in
       if reservation_matches g r expected then Ok tt
       else Err "Goal reservation does not match frozen task and round") in
     if bool_decide (phase g = Completed) && negb (verified_completion g)
     then Err "completed Goal lacks a matching successful source Turn" else Ok tt)%outcome.

Definition validate_state (s : GoalState) : result := validate_option s validate.

(** ** The operations *)

Definition reserve (g : Goal) : Goal * result :=
  if negb (bool_decide (phase g = Active)) || unsettled g ||
     (max_rounds g <=? allocated_rounds g)
  then (g, Err "Goal cannot allocate another round")
  else
    match checked_add u64_max (allocated_rounds g) 1 with
    | None => (g, Err "Goal round overflow")
    | Some round =>
        match make_reservation g round with
        | Err e => (g, Err e)
        | Panic => (g, Panic)
        | Ok r =>
            let g' := {| id := id g; objective := objective g; constraints := constraints g;
                         max_rounds := max_rounds g; allocated_rounds := round;
                         phase := phase g; reason := reason g; reservation := Some r;
                         report := None |} in
            (g', validate g')
        end
    end.

Definition set_report (g : Goal) (rep : GoalReport) : Goal :=
  {| id := id g; objective := objective g; constraints := constraints g;
     max_rounds := max_rounds g; allocated_rounds := allocated_rounds g; phase := phase g;
     reason := reason g; reservation := reservation g; report := Some rep |}.

Definition record_report (g : Goal) (rep : GoalReport) : Goal * result :=
  match safe_text (evidence rep) 4096 false with
  | Ok _ =>
      if unsettled g then (set_report g rep, Ok tt) else (g, Err "Goal has no unresolved round")
  | r => (g, r)
  end.

(** [self.phase = ..; self.reason = Some(..)] *)
Definition set_phase (g : Goal) (p : GoalPhase) (why : option text) : Goal :=
  {| id := id g; objective := objective g; constraints := constraints g;
     max_rounds := max_rounds g; allocated_rounds := allocated_rounds g; phase := p;
     reason := why; reservation := reservation g; report := report g |}.

(** [reservation.settlement = Some(settlement)] *)
Definition set_settlement (g : Goal) (r : GoalReservation) (s : RoundSettlement) : Goal :=
  {| id := id g; objective := objective g; constraints := constraints g;
     max_rounds := max_rounds g; allocated_rounds := allocated_rounds g; phase := phase g;
     reason := reason g;
     reservation := Some {| res_round := res_round r; message_id := message_id r;
                            request_id := request_id r; input := input r;
                            input_sha256 := input_sha256 r; settlement := Some s |};
     report := report g |}.

(** The disposition of a settled round. *)
Definition dispose (g : Goal) (s : RoundSettlement) : Goal :=
  match s with
  | Abandoned =>
      set_phase g Paused
        (Some (lit "Automatic allocation was abandoned before input acceptance"))
  | Discarded => set_phase g Paused (Some (lit "Automatic input was discarded before claim"))
  | SettledTurn _ OutcomeCancelled =>
      set_phase g Paused (Some (lit "Automatic Turn was cancelled"))
  | SettledTurn turn OutcomeCompleted =>
      match report g with
      | Some rep =>
          if bool_decide (source_turn rep = turn) then
            set_phase g
              (match report_kind rep with
               | ReportComplete => Completed
               | ReportBlocked => Blocked
               | ReportPause => Paused
               end) (Some (evidence rep))
          else if bool_decide (phase g = Active) && (allocated_rounds g =? max_rounds g)
          then set_phase g Blocked (Some (lit "All automatic rounds have been allocated without a verified completion report"))
          else g
      | None =>
          if bool_decide (phase g = Active) && (allocated_rounds g =? max_rounds g)
          then set_phase g Blocked (Some (lit "All automatic rounds have been allocated without a verified completion report"))
          else g
      end
  | SettledTurn _ o =>
      set_phase g Blocked
        (Some (lit "Automatic Turn ended with " ++ lit (outcome_debug o) ++
               lit "; its model report is unverified"))
  end.

Definition settle (g : Goal) (message : text) (s : RoundSettlement) : Goal * result :=
  match reservation g with
  | Some r =>
      if bool_decide (message_id r = message) then
        match settlement r with
        | Some previous =>
            (g, if bool_decide (previous = s) then Ok tt else Err "Goal settlement conflict")
        | None => let g' := dispose (set_settlement g r s) s in (g', validate g')
        end
      else (g, Err "Goal reservation changed")
  | None => (g, Err "Goal reservation changed")
  end.

(** [current_mut]: the Goal, when its identity is the one named. *)
Definition current_mut (s : GoalState) (who : text) : outcome string Goal :=
  match s with
  | Some g => if bool_decide (id g = who) then Ok g else Err "Goal identity changed or is absent"
  | None => Err "Goal identity changed or is absent"
  end.

(** Runs [k] on the current Goal and keeps what it leaves. *)
Definition on_current (s : GoalState) (who : text) (k : Goal → GoalState * result)
  : GoalState * result :=
  match current_mut s who with
  | Ok g => k g
  | Err e => (s, Err e)
  | Panic => (s, Panic)
  end.

Definition stop (g : Goal) : Goal :=
  if bool_decide (phase g = Completed) then g
  else set_phase g Paused (Some (lit "Paused by the user")).

(** [GoalState::apply] *)
Definition apply (s : GoalState) (action : GoalAction) (default_max_rounds : Z) (draft : bool)
  : GoalState * result :=
  let done s := (s, validate_state s) in
  match action with
  | Create who what limits rounds =>
      if match s with
         | Some g => bool_decide (id g = who) || bool_decide (phase g = Active) || unsettled g
         | None => false
         end
      then (s, Err "settle and stop the previous Goal before replacing it")
      else
        let g := {| id := who; objective := what; constraints := limits;
                    max_rounds := default default_max_rounds rounds; allocated_rounds := 0;
                    phase := Active; reason := None; reservation := None; report := None |} in
        match validate g with
        | Ok _ => done (Some g)
        | r => (s, r)
        end
  | Resume who =>
      on_current s who (λ g,
        if bool_decide (phase g = Completed) then (s, Err "a completed Goal cannot resume")
        else if negb (unsettled g) && (allocated_rounds g =? max_rounds g)
        then (s, Err "all Goal rounds have been allocated")
        else done (Some (set_phase g Active None)))
  | Pause who => on_current s who (λ g, done (Some (stop g)))
  | Cancel who =>
      on_current s who (λ g,
        let g1 := stop g in
        match reservation g1 with
        | Some r =>
            if draft && bool_decide (settlement r = None) then
              match settle g1 (message_id r) Abandoned with
              | (g2, Ok _) => done (Some g2)
              | (g2, e) => (Some g2, e)
              end
            else done (Some g1)
        | None => done (Some g1)
        end)
  end.

(** [GoalReservation::input] *)
Definition reservation_input (r : GoalReservation) (owner : text) : Continuation.t :=
  {| Continuation.owner := owner; Continuation.round := res_round r;
     Continuation.message_id := message_id r; Continuation.body := input r |}.

(** ** The commands of [plugin.rs]

    Each works on a decoded copy of the state and proposes it only on success; the
    proposal validates it once more. *)
Inductive command :=
| Application (action : GoalAction) (draft : bool)
| ReserveRound (who request : text) (continuation : option Continuation.t) (draft : bool)
| SettleRound (who message : text) (s : RoundSettlement)
| RecordReport (rep : GoalReport).

Definition propose (s : GoalState) : outcome string GoalState :=
  (let? _ := validate_state s in Ok s)%outcome.

(** What an operation left, when it succeeded. *)
Definition proposed (r : GoalState * result) : outcome string GoalState :=
  (let? _ := r.2 in propose r.1)%outcome.

(** [request_id = None], of the first baseline of a draft. *)
Definition clear_request (g : Goal) (r : GoalReservation) : Goal :=
  {| id := id g; objective := objective g; constraints := constraints g;
     max_rounds := max_rounds g; allocated_rounds := allocated_rounds g; phase := phase g;
     reason := reason g;
     reservation := Some {| res_round := res_round r; message_id := message_id r;
                            request_id := None; input := input r;
                            input_sha256 := input_sha256 r; settlement := settlement r |};
     report := report g |}.

Definition execute (default_max_rounds : Z) (s : GoalState) (c : command)
  : outcome string GoalState :=
  match c with
  | Application action draft => proposed (apply s action default_max_rounds draft)
  | ReserveRound who request continuation draft =>
      (let? g := current_mut s who in
       let '(g', r) := reserve g in
       let? _ := r in
       match reservation g' with
       | None => Err "reserve returned no input"
       | Some res =>
           if negb (bool_decide (request_id res = Some request))
           then Err "request identity differs from the proposed Goal reservation"
           else if negb (bool_decide (continuation = Some (reservation_input res (id g'))))
           then Err "continuation input differs from the proposed Goal reservation"
           else propose (Some (if draft then clear_request g' res else g'))
       end)%outcome
  | SettleRound who message settlement =>
      (let? g := current_mut s who in
       let '(g', r) := settle g message settlement in
       let? _ := r in propose (Some g'))%outcome
  | RecordReport rep =>
      match s with
      | None => Ok None
      | Some g => let '(g', r) := record_report g rep in (let? _ := r in propose (Some g'))%outcome
      end
  end.

(** A failed command leaves the durable state as it was. *)
Definition after (default_max_rounds : Z) (s : GoalState) (c : command) : GoalState :=
  match execute default_max_rounds s c with Ok s' => s' | _ => s end.
Definition run (default_max_rounds : Z) : GoalState → list command → GoalState :=
  foldl (after default_max_rounds).
End goal.

(** ** What a valid Goal is *)
Section valid.
Context `{GoalDigests}.

Record goal_ok (g : Goal) : Prop := {
  ok_objective : safe_text (objective g) 8192 false = Ok tt;
  ok_constraints : safe_text (constraints g) 4096 true = Ok tt;
  ok_max : validate_max_rounds (max_rounds g) = Ok tt;
  ok_allocated : allocated_rounds g ≤ max_rounds g;
  ok_first : allocated_rounds g = 0 ↔ reservation g = None;
  ok_reason t : reason g = Some t → safe_text t 4096 false = Ok tt;
  ok_report rep : report g = Some rep → safe_text (evidence rep) 4096 false = Ok tt;
  ok_reservation r : reservation g = Some r →
    ∃ expected, make_reservation g (res_round r) = Ok expected ∧
      reservation_matches g r expected = true;
  ok_completed : phase g = Completed → verified_completion g = true;
}.

Lemma validate_option_ok {A} (o : option A) check :
  validate_option o check = Ok tt ↔ ∀ a, o = Some a → check a = Ok tt.
Proof. destruct o; simpl; naive_solver. Qed.

Lemma eqb_spec_iff (b c : bool) : Bool.eqb b c = true ↔ (b = true ↔ c = true).
Proof. destruct b, c; simpl; naive_solver. Qed.

Lemma goal_validate_ok g : validate g = Ok tt ↔ goal_ok g.
Proof.
  unfold validate. rewrite !obind_unit_ok, guard_ok, !obind_unit_ok, guard_ok.
  rewrite !validate_option_ok, orb_false_iff, negb_false_iff, eqb_spec_iff, Z.eqb_eq.
  rewrite bool_decide_eq_true, andb_false_iff, bool_decide_eq_false, negb_false_iff, Z.ltb_ge.
  assert (∀ r, (let? expected := make_reservation g (res_round r) in
                if reservation_matches g r expected then Ok tt
                else Err "Goal reservation does not match frozen task and round")%outcome = Ok tt ↔
    ∃ expected, make_reservation g (res_round r) = Ok expected ∧
      reservation_matches g r expected = true) as Hr.
  { intros r. rewrite obind_ok. split; intros (e & ? & He); exists e; split; try done;
      by destruct (reservation_matches g r e). }
  split.
  - intros (Ho & Hc & Hm & [Ha Hf] & Hre & Hrep & Hres & Hcomp & _).
    split; try done; [intros r Hrr; by apply Hr, Hres|intros; by destruct Hcomp].
  - intros [Ho Hc Hm Ha Hf Hre Hrep Hres Hcomp]. split_and!; try done.
    + intros r Hrr. by apply Hr, Hres.
    + destruct (decide (phase g = Completed)); auto.
Qed.

Lemma reservation_matches_ok g r expected :
  reservation_matches g r expected = true ↔
    res_round r = allocated_rounds g ∧ message_id r = message_id expected ∧
    (request_id r = None → res_round r = 1) ∧
    (is_Some (request_id r) → request_id r = request_id expected) ∧
    input r = input expected ∧ input_sha256 r = input_sha256 expected.
Proof.
  unfold reservation_matches. rewrite negb_true_iff, !orb_false_iff, !andb_false_iff.
  rewrite !negb_false_iff, !bool_decide_eq_true, !bool_decide_eq_false, !Z.eqb_eq.
  split.
  - intros (((((? & ?) & Hn) & Hs) & ?) & ?). split_and!; try done; tauto.
  - intros (? & ? & Hn & Hs & ? & ?). split_and!; try done.
    + destruct (decide (request_id r = None)); tauto.
    + destruct (decide (is_Some (request_id r))); tauto.
Qed.
End valid.

(** ** No operation fails after it has passed its guards *)
Section total.
Context `{HG : GoalDigestsHex}.

Definition goal_inv (g : Goal) : Prop :=
  goal_ok g ∧ 0 ≤ allocated_rounds g ∧ 0 ≤ max_rounds g ∧ validate_identifier (id g) = true.
Definition state_inv (s : GoalState) : Prop := ∀ g, s = Some g → goal_inv g.

Ltac literal := by (vm_compute; repeat constructor).

Lemma make_reservation_total g round :
  1 ≤ round ≤ max_rounds g →
  make_reservation g round = Ok
    {| res_round := round; message_id := lit "goal-" ++ digest_identity (id g) round;
       request_id := Some (lit "goal-reserve-" ++ digest_operation (id g) round (lit "reserve"));
       input := round_input g round; input_sha256 := digest_text (round_input g round);
       settlement := None |}.
Proof.
  intros Hr. unfold make_reservation, round_request_id, identity_new.
  replace ((round =? 0) || (max_rounds g <? round)) with false by lia.
  rewrite (hex_identifier "goal-"); [|apply identity_hex|literal..]. cbn [obind].
  replace (round =? 0) with false by lia. cbn [orb].
  rewrite bool_decide_eq_true_2 by auto. cbn [negb].
  change (lit "goal-" ++ lit "reserve" ++ lit "-" ++ digest_operation (id g) round (lit "reserve"))
    with (lit "goal-reserve-" ++ digest_operation (id g) round (lit "reserve")).
  rewrite (hex_identifier "goal-reserve-"); [done|apply operation_hex|literal..].
Qed.

Lemma set_phase_ok g p why :
  goal_ok g → (∀ t, why = Some t → safe_text t 4096 false = Ok tt) →
  (p = Completed → verified_completion g = true) → goal_ok (set_phase g p why).
Proof. intros [] Hwhy Hp. by split. Qed.

Lemma unsettled_spec g :
  unsettled g = true ↔ ∃ r, reservation g = Some r ∧ settlement r = None.
Proof.
  unfold unsettled. destruct (reservation g); [|naive_solver].
  rewrite bool_decide_eq_true. naive_solver.
Qed.

Lemma unsettled_not_completed g : goal_ok g → unsettled g = true → phase g ≠ Completed.
Proof.
  intros Hok (r & Hr & Hs)%unsettled_spec Hp. apply (ok_completed _ Hok) in Hp.
  unfold verified_completion, verified_report in Hp. rewrite Hr, Hs in Hp.
  by destruct (report g).
Qed.

Lemma set_settlement_ok g r s :
  goal_ok g → reservation g = Some r → settlement r = None → goal_ok (set_settlement g r s).
Proof.
  intros Hok Hr Hs. assert (phase g ≠ Completed) as Hp
    by (apply unsettled_not_completed; [done|]; apply unsettled_spec; eauto).
  destruct Hok. split; simpl; try done.
  - rewrite ok_first0, Hr. done.
  - intros ? [= <-]. simpl. destruct (ok_reservation0 r Hr) as (e & He & Hm). exists e.
    split; [exact He|]. apply reservation_matches_ok. by apply reservation_matches_ok in Hm.
Qed.

Lemma dispose_ok g s r :
  goal_ok g → phase g ≠ Completed → reservation g = Some r → settlement r = Some s →
  goal_ok (dispose g s).
Proof.
  intros Hok Hp Hr Hs.
  assert (∀ p t, p ≠ Completed → safe_text t 4096 false = Ok tt → goal_ok (set_phase g p (Some t)))
    as Hset by (intros p t Hne Ht; apply set_phase_ok; [done|naive_solver|done]).
  unfold dispose. destruct s as [| |turn o]; [by apply Hset|by apply Hset|].
  destruct o; try (apply Hset; [done|vm_compute; done]).
  destruct (report g) as [rep|] eqn:Hrep.
  2:{ destruct (_ && _); [by apply Hset|done]. }
  destruct (bool_decide_reflect (source_turn rep = turn)) as [Ht|].
  2:{ destruct (_ && _); [by apply Hset|done]. }
  apply set_phase_ok; [done|intros ? [= <-]; by eapply ok_report|].
  intros Hk. unfold verified_completion, verified_report. rewrite Hrep, Hr, Hs.
  rewrite bool_decide_eq_true_2 by done. destruct (report_kind rep); [done|done|done].
Qed.

(** The goal after a new allocation. *)
Definition reserved (g : Goal) : Goal :=
  let round := allocated_rounds g + 1 in
  {| id := id g; objective := objective g; constraints := constraints g;
     max_rounds := max_rounds g; allocated_rounds := round; phase := phase g;
     reason := reason g;
     reservation := Some
       {| res_round := round; message_id := lit "goal-" ++ digest_identity (id g) round;
          request_id := Some (lit "goal-reserve-" ++ digest_operation (id g) round (lit "reserve"));
          input := round_input g round; input_sha256 := digest_text (round_input g round);
          settlement := None |};
     report := None |}.

Lemma reserved_ok g :
  goal_inv g → phase g ≠ Completed → allocated_rounds g < max_rounds g → goal_ok (reserved g).
Proof.
  intros (Hok & Ha & _ & _) Hp Hlt. destruct Hok. split; simpl; try done; [lia|split; [lia|done]|].
  intros ? [= <-]. simpl. eexists.
  split; [apply (make_reservation_total (reserved g)); simpl; lia|].
  by apply reservation_matches_ok.
Qed.

(** Allocation is exact: an active Goal whose last round is settled and whose allowance
    is not spent always gets the next round, frozen from its task, and no other Goal gets
    one; once the guards pass nothing fails. *)
Lemma reserve_exact g :
  goal_inv g →
  reserve g =
    if bool_decide (phase g = Active) && negb (unsettled g) &&
       (allocated_rounds g <? max_rounds g)
    then (reserved g, Ok tt) else (g, Err "Goal cannot allocate another round").
Proof.
  intros Hinv. pose proof Hinv as (Hok & Ha & Hm & _). unfold reserve.
  pose proof (ok_max _ Hok) as Hmax. unfold validate_max_rounds in Hmax.
  destruct (bool_decide_reflect (phase g = Active)) as [Hp|]; [|done]. cbn [negb orb andb].
  destruct (unsettled g); [done|]. cbn [negb orb andb].
  destruct (allocated_rounds g <? max_rounds g) eqn:Hlt.
  2:{ by replace (max_rounds g <=? allocated_rounds g) with true by lia. }
  replace (max_rounds g <=? allocated_rounds g) with false by lia.
  unfold MAXIMUM_GOAL_ROUNDS in Hmax. rewrite checked_add_fits.
  2:{ unfold u64_max. destruct (_ || _) eqn:Hb in Hmax; [done|]. lia. }
  rewrite make_reservation_total by lia. fold (reserved g). f_equal.
  apply goal_validate_ok, reserved_ok; [done|congruence|lia].
Qed.

Lemma settled_ok g r s :
  goal_ok g → reservation g = Some r → settlement r = None →
  goal_ok (dispose (set_settlement g r s) s).
Proof.
  intros Hok Hr Hs. assert (phase g ≠ Completed) as Hp
    by (apply unsettled_not_completed; [done|]; apply unsettled_spec; eauto).
  eapply dispose_ok; [by apply set_settlement_ok|done|done|done].
Qed.

(** Settlement is exact: only the message of the latest allocation settles it, exactly
    once; a retry of the same settlement changes nothing, a different one is a conflict, and
    a first settlement never fails on a valid Goal. *)
Lemma settle_exact g message s :
  goal_inv g →
  settle g message s =
    match reservation g with
    | Some r =>
        if bool_decide (message_id r = message) then
          match settlement r with
          | None => (dispose (set_settlement g r s) s, Ok tt)
          | Some previous =>
              (g, if bool_decide (previous = s) then Ok tt else Err "Goal settlement conflict")
          end
        else (g, Err "Goal reservation changed")
    | None => (g, Err "Goal reservation changed")
    end.
Proof.
  intros (Hok & _). unfold settle. destruct (reservation g) as [r|] eqn:Hr; [|done].
  case_bool_decide; [|done]. destruct (settlement r) eqn:Hs; [done|]. f_equal.
  by apply goal_validate_ok, settled_ok.
Qed.

(** Failure overrides the model's report: however the report reads, a round whose Turn
    did not complete never completes the Goal; it blocks it, or pauses it when the Turn was
    cancelled, and a report of another Turn has no effect. *)
Lemma failure_overrides_report g r turn o :
  reservation g = Some r → settlement r = None →
  let g' := (settle g (message_id r) (SettledTurn turn o)).1 in
  (o ≠ OutcomeCompleted →
     phase g' = if bool_decide (o = OutcomeCancelled) then Paused else Blocked) ∧
  (o = OutcomeCompleted → (∀ rep, report g = Some rep → source_turn rep ≠ turn) →
     phase g' = phase g ∨ (phase g' = Blocked ∧ allocated_rounds g = max_rounds g)).
Proof.
  intros Hr Hs. unfold settle. rewrite Hr, bool_decide_eq_true_2 by done. rewrite Hs. simpl.
  split; [by destruct o|]. intros -> Hrep. simpl.
  destruct (report g) as [rep|] eqn:Hreport; [rewrite bool_decide_eq_false_2 by auto|];
    (destruct (bool_decide_reflect (phase g = Active)) as [Hp|]; [|by left]);
    (destruct (allocated_rounds g =? max_rounds g) eqn:Ha; [right; split; [done|lia]|by left]).
Qed.

(** ** Histories of commands *)

Lemma reserved_inv g :
  goal_inv g → phase g = Active → allocated_rounds g < max_rounds g → goal_inv (reserved g).
Proof.
  intros Hinv Hp Hlt. pose proof Hinv as (Hok & Ha & Hm & Hid).
  split; [apply reserved_ok; [done|congruence|done]|]. simpl. lia || (split_and!; [lia|lia|done]).
Qed.

Definition command_typed (default_max_rounds : Z) (c : command) : Prop :=
  match c with
  | Application (Create who _ _ rounds) _ =>
      validate_identifier who = true ∧ 0 ≤ default default_max_rounds rounds
  | _ => True
  end.

Lemma propose_ok s s' : propose s = Ok s' ↔ s' = s ∧ ∀ g, s = Some g → goal_ok g.
Proof.
  unfold propose, validate_state. rewrite obind_ok. setoid_rewrite <- goal_validate_ok. split.
  - intros ([] & Hv & [= <-]). split; [done|]. by apply validate_option_ok.
  - intros [-> Hv]. exists tt. split; [|done]. by apply validate_option_ok.
Qed.

Lemma goal_proposed_ok r s' :
  proposed r = Ok s' ↔ r.2 = Ok tt ∧ s' = r.1 ∧ ∀ g, r.1 = Some g → goal_ok g.
Proof.
  unfold proposed. rewrite obind_ok. setoid_rewrite propose_ok. split; [|naive_solver].
  intros ([] & ? & ?). naive_solver.
Qed.

Definition task (g : Goal) : text * text * text * Z :=
  (id g, objective g, constraints g, max_rounds g).

(** The same task, with [n] more rounds allocated. *)
Definition charges (n : Z) (g g' : Goal) : Prop :=
  task g' = task g ∧ allocated_rounds g' = allocated_rounds g + n.

Lemma charges_refl g : charges 0 g g.
Proof. split; [done|lia]. Qed.
Lemma charges_phase g p why : charges 0 g (set_phase g p why).
Proof. split; [done|simpl; lia]. Qed.

Lemma stop_charges g : charges 0 g (stop g).
Proof. unfold stop. case_bool_decide; [apply charges_refl|apply charges_phase]. Qed.

Lemma settle_charges g m s : charges 0 g (settle g m s).1.
Proof.
  unfold settle. destruct (reservation g) as [r|]; [|apply charges_refl].
  case_bool_decide; [|apply charges_refl].
  destruct (settlement r); [apply charges_refl|]. simpl.
  unfold dispose. repeat case_match; split; simpl; done || lia.
Qed.

Lemma reserve_charges g g' : reserve g = (g', Ok tt) → charges 1 g g'.
Proof.
  unfold reserve, checked_add. destruct (_ || _); [done|]. destruct (_ <=? _); [|done].
  destruct (make_reservation g _); [|done..]. injection 1 as <- _. done.
Qed.

Definition fresh (who what limits : text) (rounds : Z) : Goal :=
  {| id := who; objective := what; constraints := limits; max_rounds := rounds;
     allocated_rounds := 0; phase := Active; reason := None; reservation := None;
     report := None |}.

Definition is_create (c : command) : bool :=
  match c with Application (Create _ _ _ _) _ => true | _ => false end.
Definition charge (c : command) : Z := match c with ReserveRound _ _ _ _ => 1 | _ => 0 end.

Lemma on_current_ok s who k s' :
  on_current s who k = (s', Ok tt) → ∃ g, s = Some g ∧ id g = who ∧ k g = (s', Ok tt).
Proof.
  unfold on_current, current_mut. destruct s as [g|]; [|done].
  case_bool_decide; [|done]. eauto.
Qed.

Lemma apply_charges s action d draft s' :
  apply s action d draft = (s', Ok tt) →
  match action with
  | Create who what limits rounds => s' = Some (fresh who what limits (default d rounds))
  | _ => ∃ g g', s = Some g ∧ s' = Some g' ∧ charges 0 g g'
  end.
Proof.
  unfold apply. destruct action as [who what limits rounds|who|who|who].
  - destruct (match s with Some g => _ | None => false end); [done|].
    destruct (validate _); [|done..]. by injection 1 as <- _.
  - intros (g & -> & _ & Hk)%on_current_ok. case_bool_decide; [done|].
    destruct (_ && _); [done|]. injection Hk as <- _. eauto using charges_phase.
  - intros (g & -> & _ & Hk)%on_current_ok. injection Hk as <- _. eauto using stop_charges.
  - intros (g & -> & _ & Hk)%on_current_ok. exists g. pose proof (stop_charges g) as Hstop.
    cbv zeta in Hk. destruct (reservation (stop g)) as [r|].
    2:{ injection Hk as <- _. eauto. }
    destruct (_ && _); [|injection Hk as <- _; eauto].
    pose proof (settle_charges (stop g) (message_id r) Abandoned) as Hs.
    destruct (settle (stop g) (message_id r) Abandoned) as [g2 [u|e|]]; [|done..].
    injection Hk as <- _. exists g2. split_and!; [done|done|]. destruct Hstop, Hs. simpl in *.
    split; [congruence|lia].
Qed.

Lemma execute_charges d s c s' :
  execute d s c = Ok s' →
  (∃ who what limits rounds draft, c = Application (Create who what limits rounds) draft ∧
     s' = Some (fresh who what limits (default d rounds))) ∨
  (is_create c = false ∧ s = None ∧ s' = None) ∨
  (is_create c = false ∧ ∃ g g', s = Some g ∧ s' = Some g' ∧ charges (charge c) g g').
Proof.
  destruct c as [action draft|who request cont draft|who m st|rep]; cbn [execute].
  - intros (Hr & -> & _)%goal_proposed_ok. destruct (apply s action d draft) as [s1 r] eqn:Ha.
    simpl in Hr. subst r. apply apply_charges in Ha.
    destruct action; [left; naive_solver|right; right; naive_solver..].
  - rewrite obind_ok. intros (g & Hg & Hk). right; right. split; [done|].
    unfold current_mut in Hg. destruct s as [g0|]; [|done].
    case_bool_decide; [|done]. injection Hg as ->. destruct (reserve g) as [g' r] eqn:Hr.
    apply obind_ok in Hk as ([] & -> & Hk). apply reserve_charges in Hr.
    destruct (reservation g') as [res|]; [|done]. repeat case_match; try done;
      apply propose_ok in Hk as [-> _]; eauto 6.
  - rewrite obind_ok. intros (g & Hg & Hk). right; right. split; [done|].
    unfold current_mut in Hg. destruct s as [g0|]; [|done].
    case_bool_decide; [|done]. injection Hg as ->. pose proof (settle_charges g m st) as Hs.
    destruct (settle g m st) as [g' r]. apply obind_ok in Hk as ([] & -> & Hk).
    apply propose_ok in Hk as [-> _]. eauto 6.
  - destruct s as [g|]; [|intros [= <-]; by right; left]. unfold record_report.
    intros Hk. right; right. split; [done|]. exists g.
    destruct (safe_text _ _ _); [|done..]. destruct (unsettled g); [|done].
    simpl in Hk. apply propose_ok in Hk as [-> _]. eexists. split_and!; [done|done|].
    split; [done|simpl; lia].
Qed.

Lemma execute_valid d s c s' :
  state_inv s → execute d s c = Ok s' → ∀ g, s' = Some g → goal_ok g.
Proof.
  intros Hinv. destruct c as [action draft|who request cont draft|who m st|rep]; cbn [execute].
  - by intros (_ & -> & ?)%goal_proposed_ok.
  - rewrite obind_ok. intros (g & _ & Hk). destruct (reserve g) as [g' r].
    apply obind_ok in Hk as (_ & _ & Hk).
    destruct (reservation g'); [|done]. repeat case_match; try done;
      apply propose_ok in Hk as [-> ?]; done.
  - rewrite obind_ok. intros (g & _ & Hk). destruct (settle g m st) as [g' r].
    apply obind_ok in Hk as (_ & _ & Hk). by apply propose_ok in Hk as [-> ?].
  - destruct s as [g|]; [|by intros [= <-]]. destruct (record_report g rep) as [g' r].
    rewrite obind_ok. intros (_ & _ & Hk). by apply propose_ok in Hk as [-> ?].
Qed.

Lemma goal_after_inv d s c : command_typed d c → state_inv s → state_inv (after d s c).
Proof.
  intros Hc Hs. unfold after. destruct (execute d s c) as [s'|e|] eqn:He; [|done..].
  intros g ->. pose proof (execute_valid _ _ _ _ Hs He g eq_refl) as Hok. split; [done|].
  apply execute_charges in He as
    [(who & what & limits & rounds & draft & -> & Hg)|[(_ & _ & ?)|(_ & g0 & g1 & -> & Hg & Ht & Ha)]];
    [|done|].
  - injection Hg as ->. destruct Hc. done.
  - injection Hg as <-. destruct (Hs g0 eq_refl) as (_ & H0 & H1 & Hid).
    unfold task in Ht. simplify_eq. split_and!; [|congruence..].
    unfold charge in *. destruct c; lia.
Qed.

Lemma goal_run_inv d s cs : Forall (command_typed d) cs → state_inv s → state_inv (run d s cs).
Proof.
  intros Hcs. revert s. induction Hcs as [|c cs Hc Hcs IH]; intros s Hs; [done|].
  apply IH. by apply goal_after_inv.
Qed.

(** The rounds a history allocates. *)
Fixpoint charged (d : Z) (s : GoalState) (cs : list command) : list Z :=
  match cs with
  | [] => []
  | c :: cs =>
      (match execute d s c, c with
       | Ok (Some g), ReserveRound _ _ _ _ => [allocated_rounds g]
       | _, _ => []
       end) ++ charged d (after d s c) cs
  end.

(** The allowance of a Goal is never exceeded, refunded or reset: until another Goal is
    created, every history of commands leaves the frozen task as it was, the rounds it
    allocates are consecutive and never repeat, and their number stays within the maximum. *)
Lemma rounds_within_allowance d g cs :
  goal_inv g → Forall (λ c, is_create c = false) cs →
  ∃ g', run d (Some g) cs = Some g' ∧ task g' = task g ∧
    charged d (Some g) cs = seqZ (allocated_rounds g + 1) (len (charged d (Some g) cs)) ∧
    allocated_rounds g' = allocated_rounds g + len (charged d (Some g) cs) ∧
    allocated_rounds g' ≤ max_rounds g.
Proof.
  intros Hg Hcs. revert g Hg. induction Hcs as [|c cs Hc Hcs IH]; intros g Hg.
  { exists g. split; [done|]. destruct Hg as (Hok & _). split_and!; [done|done| |apply Hok].
    unfold len. simpl. lia. }
  cbn [run foldl charged]. fold (run d).
  assert (state_inv (after d (Some g) c)) as Hnext.
  { apply goal_after_inv; [by destruct c as [[]| | |]|]. by intros ? [= <-]. }
  destruct (execute d (Some g) c) as [s'|e|] eqn:He.
  2:{ assert (after d (Some g) c = Some g) as -> by (unfold after; by rewrite He). apply (IH g Hg). }
  2:{ assert (after d (Some g) c = Some g) as -> by (unfold after; by rewrite He). apply (IH g Hg). }
  assert (after d (Some g) c = s') as Hafter by (unfold after; by rewrite He).
  rewrite Hafter in Hnext |- *. apply execute_charges in He as
    [(who & what & limits & rounds & draft & -> & _)|[(_ & ? & _)|(_ & g0 & g1 & [= <-] & -> & Ht & Ha)]];
    [done..|].
  destruct (IH g1 (Hnext g1 eq_refl)) as (g' & Hrun & Htask & Hseq & Halloc & Hmax).
  exists g'. split; [exact Hrun|]. split; [congruence|].
  assert (max_rounds g1 = max_rounds g) as Hm by (unfold task in Ht; congruence).
  assert (c = c) as _ by done.
  destruct c as [| | |]; simpl charge in Ha; cbn [app]; try (rewrite Ha, Z.add_0_r in *;
    split_and!; [done|done|lia]).
  rewrite len_cons. split_and!; [|lia|lia]. rewrite Hseq at 1.
  pose proof (len_nonneg (charged d (Some g1) cs)).
  rewrite (seqZ_cons (allocated_rounds g + 1)) by lia. f_equal; [lia|]. f_equal; lia.
Qed.

(** Where the report and the settlement of a Goal come from. *)
Record provenance (c : command) (g g' : Goal) : Prop := {
  prov_id : id g' = id g;
  prov_report rep : report g' = Some rep → report g = Some rep ∨ c = RecordReport rep;
  prov_settlement r' st : reservation g' = Some r' → settlement r' = Some st →
    (∃ r, reservation g = Some r ∧ settlement r = Some st ∧ message_id r = message_id r') ∨
    c = SettleRound (id g') (message_id r') st ∨ st = Abandoned;
}.

Lemma provenance_refl c g : provenance c g g.
Proof. split; eauto. Qed.

Lemma stop_provenance c g g' : provenance c (stop g) g' → provenance c g g'.
Proof. unfold stop. case_bool_decide; [done|]. by intros [? ? ?]. Qed.

Lemma dispose_fields g s :
  id (dispose g s) = id g ∧ report (dispose g s) = report g ∧
  reservation (dispose g s) = reservation g.
Proof. unfold dispose. repeat case_match; done. Qed.

Lemma settle_provenance c g m st :
  c = SettleRound (id g) m st ∨ st = Abandoned → provenance c g (settle g m st).1.
Proof.
  intros Hc. unfold settle. destruct (reservation g) as [r|] eqn:Hr; [|apply provenance_refl].
  case_bool_decide as Hm; [|apply provenance_refl].
  destruct (settlement r) eqn:Hs; [apply provenance_refl|]. simpl.
  destruct (dispose_fields (set_settlement g r st) st) as (Hid & Hrep & Hres). split.
  - done.
  - rewrite Hrep. auto.
  - intros r' st' Hr'. rewrite Hres in Hr'. injection Hr' as <-. simpl. intros [= <-].
    rewrite Hid. simpl. rewrite Hm. tauto.
Qed.

Lemma reserve_provenance c g g' : reserve g = (g', Ok tt) → provenance c g g'.
Proof.
  unfold reserve, make_reservation. destruct (_ || _); [done|]. destruct (checked_add _ _ _); [|done].
  destruct (_ || _); [done|]. intros Hres.
  destruct (identity_new _ _) as [m|e|]; [|done..]. cbn [obind] in Hres.
  destruct (round_request_id _ _ _) as [q|e|]; [|done..]. cbn [obind] in Hres.
  injection Hres as <- _. split; [done|done|]. simpl. intros r' st [= <-]. done.
Qed.

Lemma apply_provenance g action d draft g' :
  is_create (Application action draft) = false →
  apply (Some g) action d draft = (Some g', Ok tt) → provenance (Application action draft) g g'.
Proof.
  intros Hc. unfold apply. destruct action as [who what limits rounds|who|who|who]; [done|..];
    intros (g0 & [= <-] & _ & Hk)%on_current_ok.
  - case_bool_decide; [done|]. destruct (_ && _); [done|]. injection Hk as <- _. split; simpl; eauto.
  - injection Hk as <- _. apply stop_provenance, provenance_refl.
  - apply stop_provenance. destruct (reservation (stop g)) as [r|].
    2:{ injection Hk as <- _. apply provenance_refl. }
    destruct (_ && _); [|injection Hk as <- _; apply provenance_refl].
    pose proof (settle_provenance (Application (Cancel who) draft) (stop g) (message_id r) Abandoned)
      as Hs.
    destruct (settle (stop g) (message_id r) Abandoned) as [g2 [u|e|]]; [|done..].
    injection Hk as <- _. auto.
Qed.

Lemma execute_provenance d g c g' :
  is_create c = false → execute d (Some g) c = Ok (Some g') → provenance c g g'.
Proof.
  intros Hc. destruct c as [action draft|who request cont draft|who m st|rep]; cbn [execute].
  - intros (Hr & Hg & _)%goal_proposed_ok. destruct (apply (Some g) action d draft) as [s1 r] eqn:Ha.
    simpl in Hr, Hg. subst. by apply apply_provenance in Ha.
  - rewrite obind_ok. intros (g0 & Hg & Hk). unfold current_mut in Hg.
    case_bool_decide; [|done]. injection Hg as <-. destruct (reserve g) as [g1 r] eqn:Hr.
    apply obind_ok in Hk as ([] & -> & Hk).
    apply (reserve_provenance (ReserveRound who request cont draft)) in Hr as [Hid Hrep Hres].
    destruct (reservation g1) as [res|] eqn:Hg1; [|done]. destruct (negb _); [done|].
    destruct (negb _); [done|]. apply propose_ok in Hk as [[= ->] _].
    destruct draft; [|split; [done|done|rewrite Hg1; exact Hres]].
    split; [done|done|]. simpl. intros r' st [= <-]. simpl. by apply Hres.
  - rewrite obind_ok. intros (g0 & Hg & Hk). unfold current_mut in Hg.
    case_bool_decide as Hid; [|done]. injection Hg as <-.
    pose proof (settle_provenance (SettleRound who m st) g m st) as Hs. rewrite Hid in Hs.
    destruct (settle g m st) as [g1 r]. apply obind_ok in Hk as ([] & _ & Hk).
    apply propose_ok in Hk as [[= ->] _]. auto.
  - unfold record_report. destruct (safe_text _ _ _); [|done..]. destruct (unsettled g); [|done].
    simpl. intros [[= ->] _]%propose_ok. split; [done|simpl; naive_solver|eauto].
Qed.

Lemma run_snoc d s cs c : run d s (cs ++ [c]) = after d (run d s cs) c.
Proof. unfold run. by rewrite foldl_app. Qed.

(** Every report and Turn settlement that a state holds was submitted for that Goal. *)
Lemma run_provenance d cs :
  ∀ g, run d None cs = Some g →
    (∀ rep, report g = Some rep → RecordReport rep ∈ cs) ∧
    (∀ r turn o, reservation g = Some r → settlement r = Some (SettledTurn turn o) →
       SettleRound (id g) (message_id r) (SettledTurn turn o) ∈ cs).
Proof.
  induction cs as [|c cs IH] using rev_ind; [done|]. intros g. rewrite run_snoc. unfold after.
  destruct (execute d (run d None cs) c) as [s'|e|] eqn:He.
  2,3: intros Hg; destruct (IH g Hg) as [H1 H2]; split; intros; apply elem_of_app; left; eauto.
  intros ->. destruct (run d None cs) as [g0|] eqn:Hrun.
  - destruct (is_create c) eqn:Hc.
    { apply execute_charges in He as
        [(?&?&?&?&?&_&[= ->])|[(?&?)|(?&?)]]; [done|congruence..]. }
    apply execute_provenance in He as [Hid Hrep Hres]; [|done].
    destruct (IH g0 eq_refl) as [H1 H2]. split.
    + intros rep [Hr| ->]%Hrep; apply elem_of_app; [left; auto|right; apply list_elem_of_here].
    + intros r turn o Hr Hs. apply elem_of_app.
      destruct (Hres _ _ Hr Hs) as [(r0 & Hr0 & Hs0 & <-)|[->|]]; [|right; apply list_elem_of_here|done].
      left. rewrite Hid. eauto.
  - apply execute_charges in He as
      [(?&?&?&?&?&_&[= ->])|[(_&_&?)|(_&?&?&?&_)]]; [done|done|done].
Qed.

(** C24: completion is earned: in every history from an empty state, a completed Goal holds a
    completion report of a Turn, that report was recorded, and the settlement of exactly
    that Turn as completed was submitted for its last allocated message. *)
Theorem completed_has_evidence d cs g :
  Forall (command_typed d) cs → run d None cs = Some g → phase g = Completed →
  ∃ rep r, report g = Some rep ∧ report_kind rep = ReportComplete ∧
    reservation g = Some r ∧ res_round r = allocated_rounds g ∧
    settlement r = Some (SettledTurn (source_turn rep) OutcomeCompleted) ∧
    RecordReport rep ∈ cs ∧
    SettleRound (id g) (message_id r) (SettledTurn (source_turn rep) OutcomeCompleted) ∈ cs.
Proof.
  intros Hcs Hrun Hp. assert (state_inv (run d None cs)) as Hinv by (by apply goal_run_inv).
  destruct (Hinv g Hrun) as (Hok & _). pose proof (ok_completed _ Hok Hp) as Hv.
  unfold verified_completion, verified_report in Hv.
  destruct (report g) as [rep|] eqn:Hrep; [|done].
  destruct (reservation g) as [r|] eqn:Hr; [|done].
  destruct (settlement r) as [[| |turn []]|] eqn:Hs; try done.
  destruct (bool_decide_reflect (turn = source_turn rep)) as [->|]; [|done].
  apply bool_decide_eq_true in Hv. exists rep, r.
  destruct (run_provenance d cs g Hrun) as [H1 H2].
  destruct (ok_reservation _ Hok r Hr) as (e & _ & Hm). apply reservation_matches_ok in Hm.
  split_and!; [done|done|done|apply Hm|done|by apply H1|by apply H2].
Qed.

(** On a completed Goal the application commands do nothing or fail. *)
Lemma completed_applications g action d draft s' :
  phase g = Completed → unsettled g = false → is_create (Application action draft) = false →
  apply (Some g) action d draft = (s', Ok tt) → s' = Some g.
Proof.
  intros Hp Hu Hc. assert (stop g = g) as Hstop by (unfold stop; by rewrite bool_decide_eq_true_2).
  unfold apply. destruct action as [? ? ? ?|who|who|who]; [done|..];
    intros (g0 & [= <-] & _ & Hk)%on_current_ok.
  - by rewrite bool_decide_eq_true_2 in Hk.
  - rewrite Hstop in Hk. congruence.
  - rewrite Hstop in Hk. unfold unsettled in Hu. destruct (reservation g) as [r|]; [|congruence].
    rewrite Hu, andb_false_r in Hk. congruence.
Qed.

(** Completion is final: no command changes a completed Goal; only the creation of
    another Goal, with another identity, replaces it. *)
Lemma completed_is_final d g c :
  goal_inv g → phase g = Completed →
  after d (Some g) c = Some g ∨
  ∃ who what limits rounds draft, c = Application (Create who what limits rounds) draft ∧
    who ≠ id g ∧ after d (Some g) c = Some (fresh who what limits (default d rounds)).
Proof.
  intros (Hok & _) Hp. unfold after.
  assert (unsettled g = false) as Hu.
  { destruct (unsettled g) eqn:Hu; [|done]. by destruct (unsettled_not_completed g). }
  destruct (execute d (Some g) c) as [s'|e|] eqn:He; [|by left..].
  destruct c as [action draft|who request cont draft|who m st|rep]; cbn [execute] in He.
  - apply goal_proposed_ok in He as (He & -> & _).
    destruct (apply (Some g) action d draft) as [s1 r] eqn:Ha. simpl in He |- *. subst r.
    destruct (is_create (Application action draft)) eqn:Hc;
      [|left; by eapply completed_applications].
    right. destruct action as [who what limits rounds| | |]; [|done..].
    exists who, what, limits, rounds, draft. split; [done|].
    pose proof (apply_charges _ _ _ _ _ Ha) as ->. split; [|done]. intros ->.
    unfold apply in Ha. by rewrite bool_decide_eq_true_2 in Ha.
  - exfalso. apply obind_ok in He as (g0 & Hg & Hk). unfold current_mut in Hg.
    case_bool_decide; [|done]. injection Hg as <-. unfold reserve in Hk.
    by rewrite bool_decide_eq_false_2 in Hk by (rewrite Hp; done).
  - left. apply obind_ok in He as (g0 & Hg & Hk). unfold current_mut in Hg.
    case_bool_decide; [|done]. injection Hg as <-. unfold settle, unsettled in *.
    destruct (reservation g) as [r|]; [|done]. case_bool_decide; [|done].
    destruct (settlement r); [|by rewrite bool_decide_eq_true_2 in Hu].
    apply obind_ok in Hk as ([] & _ & Hk). apply propose_ok in Hk as [-> _]. done.
  - unfold record_report in He. destruct (safe_text _ _ _); [|done..]. by rewrite Hu in He.
Qed.

(** *** The frozen input is always admissible *)
Lemma safe_text_bound t n b :
  safe_text t n b = Ok tt → text_len t ≤ n ∧ clean t.
Proof.
  unfold safe_text. rewrite guard_ok. intros [Hb _].
  apply orb_false_iff in Hb as [[Hn _]%orb_false_iff Hc]. split; [lia|by apply clean_control].
Qed.

Lemma round_input_bound g round :
  goal_inv g → 1 ≤ round →
  text_len (round_input g round) ≤ 16384 ∧ clean (round_input g round) ∧ round_input g round ≠ [].
Proof.
  intros ([] & Ha & Hm & Hid) Hr.
  destruct (safe_text_bound _ _ _ ok_objective0) as [Ho1 Ho2].
  destruct (safe_text_bound _ _ _ ok_constraints0) as [Hc1 Hc2].
  pose proof (clean_identifier _ Hid). apply validate_identifier_ok in Hid as (_ & Hid & _).
  unfold MAXIMUM_AGENT_IDENTIFIER_BYTES in Hid.
  pose proof (clean_dec round). pose proof (clean_dec (max_rounds g)).
  pose proof (dec_text_len round). pose proof (dec_text_len (max_rounds g)).
  unfold round_input. split_and!.
  - rewrite !text_len_app.
    repeat match goal with |- context [text_len (lit ?t)] =>
      let v := eval vm_compute in (text_len (lit t)) in change (text_len (lit t)) with v end.
    change (text_len NL) with 1.
    lia.
  - unfold clean in *. rewrite !Forall_app. split_and!; try done; auto with lia;
      try (by vm_compute; repeat constructor); apply clean_dec; lia.
  - done.
Qed.

(** The frozen input of every valid Goal is admissible: it is never empty, always fits
    the 16 KiB of a continuation and holds none of the characters that admission refuses. *)
Lemma reservation_admissible g r :
  goal_inv g → reservation g = Some r →
  Continuation.validate (reservation_input r (id g)) = Ok tt.
Proof.
  intros Hinv Hr. pose proof Hinv as (Hok & Ha & _).
  destruct (ok_reservation _ Hok r Hr) as (e & He & Hm).
  apply reservation_matches_ok in Hm as (Hround & _ & _ & _ & Hin & _).
  unfold make_reservation in He. destruct (_ || _) eqn:Hb in He; [done|].
  apply obind_ok in He as (m & _ & He). apply obind_ok in He as (q & _ & He).
  injection He as <-. simpl in Hin.
  destruct (round_input_bound g (res_round r)) as (Hlen & Hclean & Hne); [done|lia|].
  unfold Continuation.validate. cbn [reservation_input Continuation.round Continuation.body].
  replace (res_round r =? 0) with false by lia. rewrite Hin. by rewrite clean_safe_text.
Qed.
End total.

(** ** Concrete Goals *)
Section examples.
(** A digest of the right shape. *)
#[local] Instance zero_digests : GoalDigests := {
  digest_identity _ _ := repeat 48 64;
  digest_operation _ _ _ := repeat 48 64;
  digest_text _ := repeat 48 64;
}.

#[local] Instance zero_digests_hex : GoalDigestsHex.
Proof.
  assert (hex_digest (repeat 48 64)) as H.
  { split; [done|]. by repeat constructor; vm_compute. }
  by split; intros; apply H.
Defined.

Definition ship : Goal := fresh (lit "g-1") (lit "ship it") [] 2.

Lemma ship_inv : goal_inv ship.
Proof.
  split; [apply goal_validate_ok; vm_compute; reflexivity|].
  split; [|split]; [vm_compute; discriminate|vm_compute; discriminate|reflexivity].
Defined.

Lemma reserve_exact_witness : reserve ship = (reserved ship, Ok tt).
Proof. rewrite (reserve_exact ship ship_inv). reflexivity. Defined.

Lemma reserved_ship_inv : goal_inv (reserved ship).
Proof.
  split; [apply goal_validate_ok; vm_compute; reflexivity|].
  split; [|split]; [vm_compute; discriminate|vm_compute; discriminate|reflexivity].
Defined.

Lemma settle_exact_witness :
  (settle (reserved ship) (lit "goal-" ++ repeat 48 64) Discarded).2 = Ok tt.
Proof. rewrite (settle_exact (reserved ship) _ Discarded reserved_ship_inv). reflexivity. Defined.

Definition ship_reservation : GoalReservation :=
  {| res_round := 1; message_id := lit "goal-" ++ repeat 48 64;
     request_id := Some (lit "goal-reserve-" ++ repeat 48 64);
     input := round_input ship 1; input_sha256 := repeat 48 64; settlement := None |}.

Lemma failure_overrides_report_witness :
  let g := set_report (reserved ship)
    {| report_kind := ReportComplete; evidence := lit "done"; source_turn := lit "t" |} in
  phase (settle g (message_id ship_reservation) (SettledTurn (lit "t") OutcomeFailed)).1 = Blocked.
Proof.
  cbv zeta.
  apply (failure_overrides_report
    (set_report (reserved ship)
       {| report_kind := ReportComplete; evidence := lit "done"; source_turn := lit "t" |})
    ship_reservation (lit "t") OutcomeFailed); [reflexivity|reflexivity|discriminate].
Defined.

Definition accepted : command :=
  ReserveRound (lit "g-1") (lit "goal-reserve-" ++ repeat 48 64)
    (Some (reservation_input ship_reservation (lit "g-1"))) false.

Lemma rounds_within_allowance_witness :
  charged 5 (Some ship) [accepted; accepted] = [1] ∧
  ∃ g', run 5 (Some ship) [accepted; accepted] = Some g' ∧ task g' = task ship ∧
    charged 5 (Some ship) [accepted; accepted] =
      seqZ (allocated_rounds ship + 1) (len (charged 5 (Some ship) [accepted; accepted])) ∧
    allocated_rounds g' =
      allocated_rounds ship + len (charged 5 (Some ship) [accepted; accepted]) ∧
    allocated_rounds g' ≤ max_rounds ship.
Proof.
  split; [vm_compute; reflexivity|].
  apply (rounds_within_allowance 5 ship [accepted; accepted] ship_inv). by repeat constructor.
Defined.

Definition success : list command :=
  let rep := {| report_kind := ReportComplete; evidence := lit "done"; source_turn := lit "t" |} in
  [Application (Create (lit "g-1") (lit "ship it") [] (Some 2)) false; accepted; RecordReport rep;
   SettleRound (lit "g-1") (message_id ship_reservation) (SettledTurn (lit "t") OutcomeCompleted)].

Lemma completed_has_evidence_witness :
  ∃ g, run 5 None success = Some g ∧ phase g = Completed ∧
  ∃ rep r, report g = Some rep ∧ report_kind rep = ReportComplete ∧
    reservation g = Some r ∧ res_round r = allocated_rounds g ∧
    settlement r = Some (SettledTurn (source_turn rep) OutcomeCompleted) ∧
    RecordReport rep ∈ success ∧
    SettleRound (id g) (message_id r) (SettledTurn (source_turn rep) OutcomeCompleted) ∈ success.
Proof.
  eexists. split; [vm_compute; reflexivity|]. split; [reflexivity|].
  eapply (completed_has_evidence 5 success); [|vm_compute; reflexivity|reflexivity].
  repeat constructor; vm_compute; done.
Defined.

Lemma completed_is_final_witness :
  ∃ g, run 5 None success = Some g ∧
  (after 5 (Some g) (Application (Resume (lit "g-1")) false) = Some g ∨
   ∃ who what limits rounds draft,
     Application (Resume (lit "g-1")) false = Application (Create who what limits rounds) draft ∧
     who ≠ id g ∧
     after 5 (Some g) (Application (Resume (lit "g-1")) false) =
       Some (fresh who what limits (default 5 rounds))).
Proof.
  eexists. split; [vm_compute; reflexivity|]. apply completed_is_final; [|reflexivity].
  split; [apply goal_validate_ok; vm_compute; reflexivity|].
  split; [|split]; [vm_compute; discriminate|vm_compute; discriminate|reflexivity].
Defined.

Lemma reservation_admissible_witness :
  Continuation.validate (reservation_input ship_reservation (id ship)) = Ok tt.
Proof.
  apply (reservation_admissible (reserved ship) ship_reservation reserved_ship_inv). reflexivity.
Defined.
End examples.
