(* ===== verification/Schedule.v ===== *)
(** * Bounded Schedules

    [crates/rsi-agent/schedule/src/state.rs]: the reminders of a Session, their anchored
    UTC timers and the lifetime allowance of automatic rounds.  Operations return the state
    they leave and a result, as they mutate in place; [plugin.rs] proposes the state only
    on success.  SHA-256 is a parameter; times are [u64] milliseconds. *)

From S2P Require Import Prelude Text.

(** The lowercase hexadecimal SHA-256 of a text. *)
Class ScheduleDigest := { digest : text → text }.
Class ScheduleDigestHex `{ScheduleDigest} : Prop := { digest_hex t : hex_digest (digest t) }.

Inductive ScheduleRule :=
| After (delay_ms : Z)
| At (at_ms : Z)
| Every (interval_ms : Z).

Record Reminder := {
  id : text;
  prompt : text;
  anchor_ms : Z;
  due_ms : Z;
  interval_ms : option Z;
  active : bool;
  consumed : bool;
}.

Record ScheduleReservation := {
  reminder_id : text;
  res_prompt : text;
  res_input : Continuation.t;
  occurrence_ms : Z;
  settled : bool;
}.

Record ScheduleState := {
  reminders : list Reminder;
  allocated_rounds : Z;
  reservation : option ScheduleReservation;
}.

Definition default_state : ScheduleState :=
  {| reminders := []; allocated_rounds := 0; reservation := None |}.

(** [prompt] *)
Definition check_prompt (t : text) : result :=
  if trim_is_empty t || (2048 <? text_len t) ||
     existsb (λ c, is_control c && negb ((c =? 10) || (c =? 9))) t
  then Err "reminder prompt must contain 1..=2048 UTF-8 bytes without control characters"
  else Ok tt.

(** [owner]; the constant is a valid identity (see [owner_valid]). *)
Definition owner : text := lit "schedule".

Definition NL : text := [10].

Definition render_input (who body : text) (occurrence round : Z) : text :=
  lit "Scheduled reminder " ++ who ++ lit " at UTC Unix ms " ++ dec occurrence ++
  lit ". Automatic parent round " ++ dec round ++ lit "/100." ++ NL ++ body ++ NL ++
  lit "This finite round cannot create or replenish reminders.".

(** The order of [(due_ms, &id)]: identities compare byte by byte. *)
Fixpoint text_ltb (a b : text) : bool :=
  match a, b with
  | _, [] => false
  | [], _ :: _ => true
  | x :: a, y :: b => (x <? y) || ((x =? y) && text_ltb a b)
  end.

Definition key_ltb (r1 r2 : Reminder) : bool :=
  (due_ms r1 <? due_ms r2) || ((due_ms r1 =? due_ms r2) && text_ltb (id r1) (id r2)).

(** [iter().enumerate().filter(..).min_by_key(..)]: the first least element. *)
Fixpoint least (now : Z) (i : nat) (l : list Reminder) (best : option (nat * Reminder))
  : option (nat * Reminder) :=
  match l with
  | [] => best
  | r :: l =>
      let best' :=
        if active r && (due_ms r <=? now) then
          match best with
          | Some (_, b) => if key_ltb r b then Some (i, r) else best
          | None => Some (i, r)
          end
        else best in
      least now (S i) l best'
  end.

Section schedule.
Context `{ScheduleDigest}.

Definition request_id (round : Z) (operation : string) : outcome string text :=
  identity_new "domain request" (lit "schedule-" ++ lit operation ++ lit "-" ++ dec round).

Definition round_message_id (round : Z) : outcome string text :=
  identity_new "message" (lit "schedule-" ++ digest (lit "schedule-round-" ++ dec round)).

(** The rejection of one reminder in [validate], [seen] being the identities before it. *)
Definition reminder_bad (seen : list text) (r : Reminder) : bool :=
  bool_decide (id r ∈ seen) || (anchor_ms r =? 0) || (due_ms r <? anchor_ms r) ||
  match interval_ms r with
  | Some interval =>
      (interval <? 300000) || negb ((due_ms r - anchor_ms r) mod interval =? 0)
  | None => false
  end ||
  (bool_decide (interval_ms r = None) && negb (due_ms r =? anchor_ms r)) ||
  (consumed r && (active r || bool_decide (is_Some (interval_ms r)))).

Fixpoint validate_reminders (seen : list text) (l : list Reminder) : result :=
  match l with
  | [] => Ok tt
  | r :: l =>
      (let? _ := check_prompt (prompt r) in
       if reminder_bad seen r then Err "invalid reminder identity or anchored time"
       else validate_reminders (id r :: seen) l)%outcome
  end.

Definition validate_reservation (allocated : Z) (r : ScheduleReservation) : result :=
  (let? _ := check_prompt (res_prompt r) in
   let? _ := Continuation.validate (res_input r) in
   if negb (bool_decide (Continuation.owner (res_input r) = owner)) ||
      negb (Continuation.round (res_input r) =? allocated)
   then Err "invalid frozen Schedule reservation"
   else
     let? m := round_message_id allocated in
     if negb (bool_decide (Continuation.message_id (res_input r) = m)) ||
        (occurrence_ms r =? 0) ||
        negb (bool_decide (Continuation.body (res_input r) =
          render_input (reminder_id r) (res_prompt r) (occurrence_ms r) allocated))
     then Err "invalid frozen Schedule reservation" else Ok tt)%outcome.

Definition validate (s : ScheduleState) : result :=
  if (16 <? len (reminders s)) || (100 <? allocated_rounds s) ||
     negb (Bool.eqb (allocated_rounds s =? 0) (bool_decide (reservation s = None)))
  then Err "invalid Schedule capacity or allocation state"
  else
    (let? _ := validate_reminders [] (reminders s) in
     match reservation s with
     | Some r => validate_reservation (allocated_rounds s) r
     | None => Ok tt
     end)%outcome.

(** The first due time and the interval that a rule gives. *)
Definition rule_times (rule : ScheduleRule) (now : Z) : outcome string (Z * option Z) :=
  match rule with
  | After delay =>
      if 0 <? delay then
        (let? due := ok_or (checked_add u64_max now delay) "Schedule time overflow" in
         Ok (due, None))%outcome
      else Err "Schedule requires a future instant, positive delay or interval of at least five minutes"
  | At at_ms =>
      if now <? at_ms then Ok (at_ms, None)
      else Err "Schedule requires a future instant, positive delay or interval of at least five minutes"
  | Every interval =>
      if 300000 <=? interval then
        (let? due := ok_or (checked_add u64_max now interval) "Schedule time overflow" in
         Ok (due, Some interval))%outcome
      else Err "Schedule requires a future instant, positive delay or interval of at least five minutes"
  end.

Definition create (s : ScheduleState) (who body : text) (rule : ScheduleRule) (now : Z)
  : ScheduleState * result :=
  match check_prompt body with
  | Ok _ =>
      if (100 <=? allocated_rounds s) || (16 <=? len (reminders s)) ||
         existsb (λ r, bool_decide (id r = who)) (reminders s)
      then (s, Err "Schedule allowance, reminder capacity or identity is unavailable")
      else
        match rule_times rule now with
        | Ok (due, interval) =>
            if due =? 0 then (s, Err "invalid Schedule time")
            else
              let s' :=
                {| reminders := reminders s ++
                     [{| id := who; prompt := body; anchor_ms := due; due_ms := due;
                         interval_ms := interval; active := true; consumed := false |}];
                   allocated_rounds := allocated_rounds s; reservation := reservation s |} in
              (s', validate s')
        | Err e => (s, Err e)
        | Panic => (s, Panic)
        end
  | r => (s, r)
  end.

Definition set_active (r : Reminder) (a : bool) : Reminder :=
  {| id := id r; prompt := prompt r; anchor_ms := anchor_ms r; due_ms := due_ms r;
     interval_ms := interval_ms r; active := a; consumed := consumed r |}.

(** The unsettled reservation. *)
Definition cleanup (s : ScheduleState) : option ScheduleReservation :=
  match reservation s with
  | Some r => if settled r then None else Some r
  | None => None
  end.

Definition resume (s : ScheduleState) (ids : list text) : ScheduleState * result :=
  let selectable who :=
    match cleanup s with Some r => bool_decide (reminder_id r = who) | None => false end ||
    existsb (λ r, bool_decide (id r = who) && negb (consumed r) && (allocated_rounds s <? 100))
      (reminders s) in
  if bool_decide (ids = []) || (16 <? len ids) ||
     negb (len (remove_dups ids) =? len ids) || existsb (λ who, negb (selectable who)) ids
  then (s, Err "resume requires pending reminders with allowance or an unsettled reservation")
  else
    ({| reminders :=
          (λ r, set_active r
             (bool_decide (id r ∈ ids) && negb (consumed r) && (allocated_rounds s <? 100)))
          <$> reminders s;
        allocated_rounds := allocated_rounds s; reservation := reservation s |}, Ok tt).

Definition delete (s : ScheduleState) (who : text) : ScheduleState * result :=
  match list_find (λ r, id r = who) (reminders s) with
  | None => (s, Err "reminder not found")
  | Some (i, _) =>
      ({| reminders := take i (reminders s) ++ drop (S i) (reminders s);
          allocated_rounds := allocated_rounds s; reservation := reservation s |}, Ok tt)
  end.

(** [iter().filter(..).map(..).min()] *)
Fixpoint earliest (l : list Reminder) : option Z :=
  match l with
  | [] => None
  | r :: l =>
      if active r then
        Some (match earliest l with Some d => Z.min (due_ms r) d | None => due_ms r end)
      else earliest l
  end.

Definition next_due (s : ScheduleState) : option Z :=
  if (100 <=? allocated_rounds s) || bool_decide (is_Some (cleanup s)) then None
  else earliest (reminders s).

(** The latest anchored occurrence up to [now], and the next due time of a recurrence. *)
Definition occurrence_of (r : Reminder) (now : Z) : outcome string (Z * option Z) :=
  match interval_ms r with
  | None => Ok (due_ms r, None)
  | Some interval =>
      (let? elapsed := ok_or (checked_sub now (anchor_ms r)) "invalid Schedule clock" in
       let? span := ok_or (checked_mul u64_max (elapsed / interval) interval)
                      "Schedule time overflow" in
       let? occurrence := ok_or (checked_add u64_max (anchor_ms r) span)
                            "Schedule time overflow" in
       let? next := ok_or (checked_add u64_max occurrence interval) "Schedule time overflow" in
       Ok (occurrence, Some next))%outcome
  end.

(** What the reservation leaves of its reminder. *)
Definition advance (r : Reminder) (next : option Z) : Reminder :=
  match next with
  | Some due =>
      {| id := id r; prompt := prompt r; anchor_ms := anchor_ms r; due_ms := due;
         interval_ms := interval_ms r; active := active r; consumed := consumed r |}
  | None =>
      {| id := id r; prompt := prompt r; anchor_ms := anchor_ms r; due_ms := due_ms r;
         interval_ms := interval_ms r; active := false; consumed := true |}
  end.

Definition reserve_at (s : ScheduleState) (now : Z) (i : nat) (r : Reminder)
  : outcome string (ScheduleState * Continuation.t) :=
  (let? (occurrence, next) := occurrence_of r now in
   let? round := ok_or (checked_add u64_max (allocated_rounds s) 1) "Schedule round overflow" in
   let? m := round_message_id round in
   let input :=
     {| Continuation.owner := owner; Continuation.round := round; Continuation.message_id := m;
        Continuation.body := render_input (id r) (prompt r) occurrence round |} in
   let? _ := Continuation.validate input in
   Ok ({| reminders := <[i := advance r next]> (reminders s); allocated_rounds := round;
          reservation := Some {| reminder_id := id r; res_prompt := prompt r;
                                 res_input := input; occurrence_ms := occurrence;
                                 settled := false |} |}, input))%outcome.

(** [reserve]: the state changes only when it succeeds. *)
Definition reserve (s : ScheduleState) (now : Z)
  : outcome string (ScheduleState * Continuation.t) :=
  match next_due s with
  | Some due =>
      if now <? due then Err "no due Schedule round"
      else
        match least now 0 (reminders s) None with
        | Some (i, r) => reserve_at s now i r
        | None => Err "no due reminder"
        end
  | None => Err "no due Schedule round"
  end.

Definition settle (s : ScheduleState) (message : text) : ScheduleState * result :=
  match reservation s with
  | Some r =>
      if bool_decide (Continuation.message_id (res_input r) = message) then
        ({| reminders := reminders s; allocated_rounds := allocated_rounds s;
            reservation := Some {| reminder_id := reminder_id r; res_prompt := res_prompt r;
                                   res_input := res_input r; occurrence_ms := occurrence_ms r;
                                   settled := true |} |}, Ok tt)
      else (s, Err "Schedule reservation changed")
  | None => (s, Err "Schedule reservation changed")
  end.

(** ** The commands and tools of [plugin.rs]

    Each works on a decoded copy of the state, which is proposed, and validated once more,
    only on success. *)
Inductive command :=
| CreateReminder (who body : text) (rule : ScheduleRule) (now : Z)
| ResumeReminders (ids : list text)
| DeleteReminder (who : text)
| ReserveRound (now : Z) (request : text) (continuation : option Continuation.t)
| SettleRound (message : text).

Definition proposed (r : ScheduleState * result) : outcome string ScheduleState :=
  (let? _ := r.2 in let? _ := validate r.1 in Ok r.1)%outcome.

Definition execute (s : ScheduleState) (c : command) : outcome string ScheduleState :=
  match c with
  | CreateReminder who body rule now => proposed (create s who body rule now)
  | ResumeReminders ids => proposed (resume s ids)
  | DeleteReminder who => proposed (delete s who)
  | ReserveRound now request continuation =>
      (let? (s', input) := reserve s now in
       let? expected := request_id (Continuation.round input) "reserve" in
       if negb (bool_decide (continuation = Some input)) ||
          negb (bool_decide (request = expected))
       then Err "Schedule reserve differs from its frozen input or receipt"
       else proposed (s', Ok tt))%outcome
  | SettleRound message => proposed (settle s message)
  end.

Definition after (s : ScheduleState) (c : command) : ScheduleState :=
  match execute s c with Ok s' => s' | _ => s end.
Definition run : ScheduleState → list command → ScheduleState := foldl after.

(** The rounds that a history reserves. *)
Fixpoint charged (s : ScheduleState) (cs : list command) : list Z :=
  match cs with
  | [] => []
  | c :: cs =>
      (match execute s c, c with
       | Ok s', ReserveRound _ _ _ => [allocated_rounds s']
       | _, _ => []
       end) ++ charged (after s c) cs
  end.
End schedule.

(** ** The selection of a due reminder *)

Lemma text_ltb_irrefl a : text_ltb a a = false.
Proof. induction a as [|x a IH]; simpl; [done|]. rewrite IH. lia. Qed.

Lemma text_ltb_trans a b c : text_ltb a b = true → text_ltb b c = true → text_ltb a c = true.
Proof.
  revert a c. induction b as [|y b IH]; intros [|x a] [|z c]; simpl; try done.
  rewrite !orb_true_iff, !andb_true_iff. intros [H1|[H1 H1']] [H2|[H2 H2']]; [left; lia..|right].
  split; [lia|eauto].
Qed.

Lemma key_ltb_irrefl r : key_ltb r r = false.
Proof. unfold key_ltb. rewrite text_ltb_irrefl. lia. Qed.

Lemma key_ltb_trans r1 r2 r3 :
  key_ltb r1 r2 = true → key_ltb r2 r3 = true → key_ltb r1 r3 = true.
Proof.
  unfold key_ltb. rewrite !orb_true_iff, !andb_true_iff.
  intros [H1|[H1 H1']] [H2|[H2 H2']]; [left; lia..|right].
  split; [lia|eauto using text_ltb_trans].
Qed.

Lemma text_ltb_cotrans a b c :
  text_ltb a c = true → text_ltb a b = true ∨ text_ltb b c = true.
Proof.
  revert a c. induction b as [|y b IH]; intros [|x a] [|z c]; simpl; try (by auto).
  rewrite !orb_true_iff, !andb_true_iff. intros [H|[H H']]; [lia|].
  destruct (IH _ _ H'); lia.
Qed.

Lemma key_ltb_cotrans r1 r2 r3 :
  key_ltb r1 r3 = true → key_ltb r1 r2 = true ∨ key_ltb r2 r3 = true.
Proof.
  unfold key_ltb. rewrite !orb_true_iff, !andb_true_iff. intros [H|[H H']]; [lia|].
  destruct (text_ltb_cotrans _ (id r2) _ H'); lia.
Qed.

Definition eligible (now : Z) (r : Reminder) : bool := active r && (due_ms r <=? now).

Lemma least_spec now l i best :
  match least now i l best with
  | None => best = None ∧ Forall (λ r, eligible now r = false) l
  | Some (k, b) =>
      (best = Some (k, b) ∨ ((i ≤ k)%nat ∧ l !! (k - i)%nat = Some b ∧ eligible now b = true)) ∧
      Forall (λ r, eligible now r = true → key_ltb r b = false) l ∧
      (∀ k0 b0, best = Some (k0, b0) → key_ltb b0 b = false)
  end.
Proof.
  revert i best. induction l as [|r l IH]; intros i best; simpl.
  { destruct best as [[k b]|]; [|done]. split_and!; [by left|done|].
    intros ? ? [= <- <-]. apply key_ltb_irrefl. }
  fold (eligible now r). set (best' := if eligible now r then _ else best).
  specialize (IH (S i) best'). destruct (least now (S i) l best') as [[k b]|].
  2:{ destruct IH as [Hb Hl]. subst best'. destruct (eligible now r) eqn:He; [|by eauto].
      destruct best as [[k0 b0]|]; [|done]. by destruct (key_ltb r b0). }
  destruct IH as (Hk & Hl & Hb).
  assert (eligible now r = true → key_ltb r b = false) as Hr.
  { intros He. subst best'. rewrite He in Hb. destruct best as [[k0 b0]|]; [|by eapply Hb].
    destruct (key_ltb r b0) eqn:Hlt; [by eapply Hb|]. specialize (Hb _ _ eq_refl).
    destruct (key_ltb r b) eqn:Hrb; [|done].
    destruct (key_ltb_cotrans r b0 b Hrb); congruence. }
  split_and!; [|by constructor|].
  - destruct Hk as [Hbest|(Hi & Hlook & He)].
    + subst best'. destruct (eligible now r) eqn:He; [|by left].
      assert (Some (i, r) = Some (k, b) → (i ≤ k)%nat ∧ (r :: l) !! (k - i)%nat = Some b ∧
        eligible now b = true) as Hnew
        by (intros [= <- <-]; by rewrite Nat.sub_diag).
      destruct best as [[k0 b0]|]; [|by right; apply Hnew].
      destruct (key_ltb r b0); [by right; apply Hnew|by left].
    + right. split; [lia|]. by replace (k - i)%nat with (S (k - S i)) by lia.
  - intros k0 b0 Hbest. subst best' best. destruct (eligible now r); [|by eapply Hb].
    destruct (key_ltb r b0) eqn:Hlt; [|by eapply Hb].
    specialize (Hb _ _ eq_refl). destruct (key_ltb b0 b) eqn:Hb0; [|done].
    by rewrite (key_ltb_trans r b0 b) in Hb.
Qed.

Lemma earliest_spec l :
  match earliest l with
  | None => Forall (λ r, active r = false) l
  | Some d => (∃ r, r ∈ l ∧ active r = true ∧ due_ms r = d) ∧
      Forall (λ r, active r = true → d ≤ due_ms r) l
  end.
Proof.
  induction l as [|r l IH]; simpl; [done|]. destruct (active r) eqn:Ha.
  - destruct (earliest l) as [d|].
    + destruct IH as [(r' & Hin & Ha' & <-) Hl]. split.
      * destruct (Z.min_spec (due_ms r) (due_ms r')) as [[_ ->]|[_ ->]];
          [exists r|exists r']; split_and!; try done; set_solver.
      * constructor; [lia|]. eapply Forall_impl; [done|]. simpl. intros x Hx ?%Hx. lia.
    + split; [exists r; set_solver|]. constructor; [lia|].
      eapply Forall_impl; [done|]. simpl. congruence.
  - destruct (earliest l) as [d|].
    + destruct IH as [(r' & Hin & Ha' & <-) Hl]. split; [exists r'; set_solver|].
      by constructor; [congruence|].
    + by constructor.
Qed.

(** ** Valid schedules *)
Section valid.
Context `{ScheduleDigest}.

Record reminder_ok (r : Reminder) : Prop := {
  ok_prompt : check_prompt (prompt r) = Ok tt;
  ok_anchor : anchor_ms r ≠ 0;
  ok_due : anchor_ms r ≤ due_ms r;
  ok_interval interval : interval_ms r = Some interval →
    300000 ≤ interval ∧ (due_ms r - anchor_ms r) mod interval = 0;
  ok_one_shot : interval_ms r = None → due_ms r = anchor_ms r;
  ok_consumed : consumed r = true → active r = false ∧ interval_ms r = None;
}.

Lemma reminder_bad_ok seen r :
  check_prompt (prompt r) = Ok tt →
  reminder_bad seen r = false ↔ id r ∉ seen ∧ reminder_ok r.
Proof.
  intros Hp. unfold reminder_bad. rewrite !orb_false_iff, bool_decide_eq_false. split.
  - intros (((((Hs & Ha) & Hd) & Hi) & Hn) & Hc). split; [done|]. split.
    + done.
    + lia.
    + lia.
    + intros iv Hiv. rewrite Hiv in Hi. lia.
    + intros Hnone. rewrite bool_decide_eq_true_2 in Hn by done. lia.
    + intros Hcon. rewrite Hcon in Hc. apply orb_false_iff in Hc as [? Hc].
      apply bool_decide_eq_false in Hc. split; [done|]. by apply eq_None_not_Some.
  - intros [Hs [_ Ha Hd Hi Hn Hc]]. split_and!; [done|lia|lia| | |].
    + destruct (interval_ms r) as [iv|]; [|done]. destruct (Hi iv eq_refl). lia.
    + destruct (bool_decide_reflect (interval_ms r = None)); [|done]. rewrite Hn by done. lia.
    + destruct (consumed r); [|done]. destruct (Hc eq_refl) as [-> ->]. done.
Qed.

Lemma validate_reminders_ok seen l :
  validate_reminders seen l = Ok tt ↔
    Forall reminder_ok l ∧ NoDup (id <$> l) ∧ Forall (λ r, id r ∉ seen) l.
Proof.
  revert seen. induction l as [|r l IH]; intros seen; [by repeat split; constructor|].
  cbn [validate_reminders]. rewrite obind_ok. csimpl. rewrite !Forall_cons, NoDup_cons. split.
  - intros ([] & Hp & Hb). destruct (reminder_bad seen r) eqn:Hbad; [done|].
    apply reminder_bad_ok in Hbad as [Hs Hr]; [|done]. apply IH in Hb as (Hl & Hn & Hd).
    rewrite Forall_forall in Hd. split_and!; try done.
    + rewrite list_elem_of_fmap. intros (x & Hx & Hin). specialize (Hd x Hin). set_solver.
    + apply Forall_forall. intros x Hin. specialize (Hd x Hin). set_solver.
  - intros ([Hr Hl] & [Hid Hn] & Hs & Hd). exists tt. split; [apply Hr|].
    rewrite (proj2 (reminder_bad_ok seen r (ok_prompt _ Hr))) by done.
    apply IH. split_and!; [done..|]. rewrite Forall_forall in Hd |- *. intros x Hin.
    specialize (Hd x Hin). rewrite list_elem_of_fmap in Hid.
    rewrite elem_of_cons. intros [Heq|]; [|done]. eauto.
Qed.

Record state_ok (s : ScheduleState) : Prop := {
  ok_capacity : len (reminders s) ≤ 16;
  ok_allowance : allocated_rounds s ≤ 100;
  ok_first : allocated_rounds s = 0 ↔ reservation s = None;
  ok_reminders : Forall reminder_ok (reminders s);
  ok_ids : NoDup (id <$> reminders s);
  ok_reservation r : reservation s = Some r →
    validate_reservation (allocated_rounds s) r = Ok tt;
}.

Lemma schedule_validate_ok s : validate s = Ok tt ↔ state_ok s.
Proof.
  unfold validate. destruct (_ || _ || _) eqn:Hb.
  - split; [done|]. intros [Hc Ha Hf _ _ _].
    apply orb_true_iff in Hb as [Hb|Hb]; [lia|].
    destruct (reservation s); [rewrite bool_decide_eq_false_2 in Hb by done|];
      simpl in Hb; destruct (Z.eqb_spec (allocated_rounds s) 0); simpl in Hb;
      try done; naive_solver.
  - apply orb_false_iff in Hb as [Hb Hf].
    assert (allocated_rounds s = 0 ↔ reservation s = None) as Hfirst.
    { apply negb_false_iff in Hf. destruct (Z.eqb_spec (allocated_rounds s) 0);
        destruct (bool_decide_reflect (reservation s = None)); simpl in Hf; naive_solver. }
    rewrite obind_ok. split.
    + intros ([] & (Hr & Hn & _)%validate_reminders_ok & Hres). split; try done; [lia|lia|].
      intros r Hr'. by rewrite Hr' in Hres.
    + intros [_ _ _ Hr Hn Hres]. exists tt. split.
      * apply validate_reminders_ok. split_and!; [done..|]. apply Forall_forall. set_solver.
      * destruct (reservation s); auto.
Qed.

(** The types of the fields: identities and [u64] times. *)
Definition reminder_typed (r : Reminder) : Prop :=
  validate_identifier (id r) = true ∧ 0 ≤ anchor_ms r ∧ due_ms r ≤ u64_max.

Definition inv (s : ScheduleState) : Prop :=
  state_ok s ∧ Forall reminder_typed (reminders s) ∧ 0 ≤ allocated_rounds s.

Lemma default_inv : inv default_state.
Proof. split; [by apply schedule_validate_ok|]. by split; [constructor|]. Qed.

Lemma owner_valid : identity_new "domain request" (lit "schedule") = Ok owner.
Proof. reflexivity. Qed.
End valid.

(** ** Reserving a round *)
Section reserving.
Context `{HD : ScheduleDigestHex}.

(** The latest occurrence of a recurrence up to [now]. *)
Definition latest (anchor interval now : Z) : Z := anchor + (now - anchor) / interval * interval.

Lemma latest_bounds anchor interval now due :
  0 < interval → anchor ≤ due ≤ now → (due - anchor) mod interval = 0 →
  due ≤ latest anchor interval now ≤ now ∧ now < latest anchor interval now + interval ∧
  (latest anchor interval now - anchor) mod interval = 0.
Proof.
  intros Hi Hd Hm. unfold latest. pose proof (Z.div_mod (now - anchor) interval).
  pose proof (Z.mod_pos_bound (now - anchor) interval Hi).
  split_and!; [|nia|nia|].
  - pose proof (Z.div_mod (due - anchor) interval).
    assert ((due - anchor) / interval ≤ (now - anchor) / interval) by (apply Z.div_le_mono; lia).
    nia.
  - replace (anchor + _ - anchor) with ((now - anchor) / interval * interval) by lia.
    apply Z.mod_mul. lia.
Qed.

Lemma occurrence_of_spec r now :
  reminder_ok r → reminder_typed r → due_ms r ≤ now ≤ u64_max →
  occurrence_of r now =
    match interval_ms r with
    | None => Ok (due_ms r, None)
    | Some interval =>
        let occurrence := latest (anchor_ms r) interval now in
        if occurrence + interval <=? u64_max then Ok (occurrence, Some (occurrence + interval))
        else Err "Schedule time overflow"
    end.
Proof.
  intros [_ _ Hd Hi _ _] (_ & Ha & _) Hnow. unfold occurrence_of.
  destruct (interval_ms r) as [iv|]; [|done]. destruct (Hi iv eq_refl) as [Hiv Hm].
  destruct (latest_bounds (anchor_ms r) iv now (due_ms r)) as (Hl & Hl2 & _); [lia|lia|done|].
  unfold latest in *. rewrite checked_sub_fits by lia. cbn [ok_or obind].
  rewrite checked_mul_fits by lia. cbn [ok_or obind].
  rewrite checked_add_fits by lia. cbn [ok_or obind]. cbv zeta. unfold checked_add.
  by destruct (_ <=? u64_max).
Qed.

(** The frozen input of a round, and the state it leaves. *)
Definition frozen (s : ScheduleState) (r : Reminder) (occurrence : Z) : Continuation.t :=
  let round := allocated_rounds s + 1 in
  {| Continuation.owner := owner; Continuation.round := round;
     Continuation.message_id := lit "schedule-" ++ digest (lit "schedule-round-" ++ dec round);
     Continuation.body := render_input (id r) (prompt r) occurrence round |}.

Definition fired (s : ScheduleState) (i : nat) (r : Reminder) (occurrence : Z) (next : option Z)
  : ScheduleState :=
  {| reminders := <[i := advance r next]> (reminders s);
     allocated_rounds := allocated_rounds s + 1;
     reservation := Some {| reminder_id := id r; res_prompt := prompt r;
                            res_input := frozen s r occurrence; occurrence_ms := occurrence;
                            settled := false |} |}.

Lemma check_prompt_bound t : check_prompt t = Ok tt → text_len t ≤ 2048 ∧ clean t.
Proof.
  unfold check_prompt. rewrite guard_ok. intros [Hb _].
  apply orb_false_iff in Hb as [[_ Hn]%orb_false_iff Hc]. split; [lia|].
  by apply clean_control.
Qed.

Lemma render_bound r occurrence round :
  reminder_ok r → reminder_typed r → 0 ≤ occurrence → 0 ≤ round →
  validate_safe_text (render_input (id r) (prompt r) occurrence round) 16384 false = true.
Proof.
  intros [Hp _ _ _ _ _] (Hid & _) Ho Hr. apply check_prompt_bound in Hp as [Hp1 Hp2].
  pose proof (clean_identifier _ Hid). apply validate_identifier_ok in Hid as (_ & Hid & _).
  unfold MAXIMUM_AGENT_IDENTIFIER_BYTES in Hid.
  pose proof (clean_dec round). pose proof (clean_dec occurrence).
  pose proof (dec_text_len round). pose proof (dec_text_len occurrence).
  unfold render_input. apply clean_safe_text; [done| |].
  - rewrite !text_len_app.
    repeat match goal with |- context [text_len (lit ?t)] =>
      let v := eval vm_compute in (text_len (lit t)) in change (text_len (lit t)) with v end.
    change (text_len NL) with 1. lia.
  - unfold clean in *. rewrite !Forall_app. split_and!; try done; auto with lia;
      by vm_compute; repeat constructor.
Qed.

Lemma round_message_total round :
  round_message_id round = Ok (lit "schedule-" ++ digest (lit "schedule-round-" ++ dec round)).
Proof.
  unfold round_message_id. apply identity_new_ok. split; [done|].
  apply (hex_identifier "schedule-"); [apply digest_hex|by vm_compute; repeat constructor..].
Qed.

Lemma reserve_at_spec s i r now :
  inv s → reminders s !! i = Some r → due_ms r ≤ now ≤ u64_max →
  reserve_at s now i r =
    (let? (occurrence, next) := occurrence_of r now in
     Ok (fired s i r occurrence next, frozen s r occurrence))%outcome.
Proof.
  intros (Hok & Htyped & H0) Hi Hnow. destruct Hok as [_ Hallow _ Hrem _ _].
  assert (reminder_ok r ∧ reminder_typed r) as [Hr Ht].
  { rewrite Forall_forall in Hrem, Htyped. apply list_elem_of_lookup_2 in Hi. auto. }
  unfold reserve_at. pose proof (occurrence_of_spec r now Hr Ht Hnow) as Hocc.
  destruct (occurrence_of r now) as [[occurrence next]|e|] eqn:He; [|done|done].
  cbn [obind]. rewrite checked_add_fits by (unfold u64_max; lia). cbn [ok_or obind].
  rewrite round_message_total. cbn [obind].
  assert (0 ≤ occurrence) as Hpos.
  { destruct Hr as [_ _ Hd Hiv _ _], Ht as (_ & Ha & _).
    destruct (interval_ms r) as [iv|]; [|injection Hocc as -> _; lia].
    destruct (Hiv iv eq_refl). cbv zeta in Hocc. destruct (_ <=? _); [|done].
    injection Hocc as -> _.
    destruct (latest_bounds (anchor_ms r) iv now (due_ms r)); [lia|lia|done|lia]. }
  unfold Continuation.validate. cbn [Continuation.round Continuation.body].
  replace (allocated_rounds s + 1 =? 0) with false by lia.
  by rewrite render_bound by (done || lia).
Qed.

Lemma occurrence_of_bounds r now occurrence next :
  reminder_ok r → reminder_typed r → due_ms r ≤ now ≤ u64_max →
  occurrence_of r now = Ok (occurrence, next) →
  0 < occurrence ∧ due_ms r ≤ occurrence ≤ now ∧
  reminder_ok (advance r next) ∧ reminder_typed (advance r next) ∧
  match interval_ms r with
  | None => next = None ∧ occurrence = due_ms r
  | Some interval => next = Some (occurrence + interval) ∧ now < occurrence + interval ∧
      (occurrence - anchor_ms r) mod interval = 0
  end.
Proof.
  intros Hr Ht Hnow. rewrite occurrence_of_spec by done. pose proof Hr as [Hp Hna Hd Hi Hone Hc].
  pose proof Ht as (Hid & Ha & _). destruct (interval_ms r) as [iv|] eqn:Hiv.
  - destruct (Hi iv eq_refl) as [Hge Hm]. cbv zeta. destruct (_ <=? u64_max) eqn:Hle; [|done].
    destruct (latest_bounds (anchor_ms r) iv now (due_ms r)) as (Hl & Hl2 & Hlm); [lia|lia|done|].
    intros [= <- <-]. split_and!; try done; try lia.
    + split; simpl; rewrite ?Hiv; try done; [lia|].
      intros ? [= <-]. split; [done|].
      replace (latest _ _ _ + iv - anchor_ms r) with (latest (anchor_ms r) iv now - anchor_ms r + 1 * iv) by lia.
      rewrite Z.mod_add by lia. done.
    + split_and!; simpl; [done|done|lia].
  - intros [= <- <-]. split_and!; try done; try lia.
    split; simpl; try done.
    + intros ? Hs. congruence.
    + intros _. by apply Hone.
Qed.

Lemma fired_inv s i r now occurrence next :
  inv s → reminders s !! i = Some r → due_ms r ≤ now ≤ u64_max → allocated_rounds s < 100 →
  occurrence_of r now = Ok (occurrence, next) → inv (fired s i r occurrence next).
Proof.
  intros (Hok & Htyped & H0) Hi Hnow Hlt Hocc. destruct Hok as [Hcap Hallow _ Hrem Hids _].
  assert (reminder_ok r ∧ reminder_typed r) as [Hr Ht].
  { rewrite Forall_forall in Hrem, Htyped. apply list_elem_of_lookup_2 in Hi. auto. }
  destruct (occurrence_of_bounds r now occurrence next) as (Hpos & Hle & Hr' & Ht' & _); [done..|].
  split_and!; [split|by apply Forall_insert|simpl; lia]; simpl.
  - unfold len in *. by rewrite length_insert.
  - lia.
  - split; [lia|done].
  - by apply Forall_insert.
  - rewrite list_fmap_insert. replace (id (advance r next)) with (id r) by (by destruct next).
    rewrite list_insert_id; [done|]. by rewrite list_lookup_fmap, Hi.
  - intros ? [= <-]. unfold validate_reservation. cbn [res_prompt res_input].
    rewrite (ok_prompt _ Hr). cbn [obind]. unfold Continuation.validate, frozen at 1 2.
    cbn [Continuation.round Continuation.body].
    replace (allocated_rounds s + 1 =? 0) with false by lia.
    rewrite render_bound by (done || lia). cbn [obind].
    rewrite bool_decide_eq_true_2 by done. cbn [negb orb frozen Continuation.round].
    rewrite Z.eqb_refl. cbn [negb]. rewrite round_message_total. cbn [obind].
    rewrite !bool_decide_eq_true_2 by done. cbn [negb orb occurrence_ms].
    by replace (occurrence =? 0) with false by lia.
Qed.

(** Exactly when the previous round is settled, allowance is left and some reminder is
    due, the schedule reserves one round, of the due reminder that is earliest (identities
    break ties).  A one-shot fires at its due time and is consumed; a recurrence fires once
    for all the occurrences it missed, at the latest anchored instant that has passed, and
    its next due time is the first anchored instant that has not.  Nothing fails but a next
    due time beyond the clock's range. *)
Lemma reserve_fires_earliest s now :
  inv s → now ≤ u64_max →
  match next_due s with
  | Some due =>
      if now <? due then reserve s now = Err "no due Schedule round"
      else ∃ i r, reminders s !! i = Some r ∧ eligible now r = true ∧ due_ms r = due ∧
        (∀ r', r' ∈ reminders s → eligible now r' = true → key_ltb r' r = false) ∧
        match interval_ms r with
        | None => reserve s now = Ok (fired s i r due None, frozen s r due)
        | Some interval =>
            let occurrence := latest (anchor_ms r) interval now in
            due ≤ occurrence ≤ now ∧ now < occurrence + interval ∧
            reserve s now =
              if occurrence + interval <=? u64_max
              then Ok (fired s i r occurrence (Some (occurrence + interval)), frozen s r occurrence)
              else Err "Schedule time overflow"
        end
  | None => reserve s now = Err "no due Schedule round"
  end.
Proof.
  intros Hinv Hnow. unfold reserve. destruct (next_due s) as [due|] eqn:Hdue; [|done].
  destruct (now <? due) eqn:Hlt; [done|].
  unfold next_due in Hdue. destruct (_ || _); [done|].
  pose proof (earliest_spec (reminders s)) as He. rewrite Hdue in He.
  destruct He as [(r0 & Hin0 & Ha0 & Hd0) Hmin].
  pose proof (least_spec now (reminders s) 0 None) as Hl.
  destruct (least now 0 (reminders s) None) as [[i r]|].
  2:{ destruct Hl as [_ Hnone]. rewrite Forall_forall in Hnone. specialize (Hnone r0 Hin0).
      unfold eligible in Hnone. rewrite Ha0 in Hnone. simpl in Hnone. lia. }
  destruct Hl as ([?|(_ & Hi & Hel)] & Hall & _); [done|]. rewrite Nat.sub_0_r in Hi.
  rewrite Forall_forall in Hall, Hmin. pose proof (list_elem_of_lookup_2 _ _ _ Hi) as Hin.
  unfold eligible in Hel. apply andb_true_iff in Hel as [Ha Hle].
  assert (due_ms r = due) as Hr.
  { pose proof (Hmin r Hin Ha). specialize (Hall r0 Hin0). unfold eligible in Hall.
    rewrite Ha0 in Hall. unfold key_ltb in Hall. lia. }
  exists i, r. split_and!; [done|unfold eligible; lia|done|exact Hall|].
  pose proof Hinv as (Hok & Htyped & _). destruct Hok as [_ _ _ Hrem _ _].
  rewrite Forall_forall in Hrem, Htyped.
  rewrite (reserve_at_spec s i r now) by (done || lia).
  rewrite occurrence_of_spec by (auto || lia).
  destruct (interval_ms r) as [iv|] eqn:Hiv; [|by rewrite <- Hr].
  destruct (ok_interval _ (Hrem r Hin) iv Hiv) as [Hge Hm]. cbv zeta.
  pose proof (ok_due _ (Hrem r Hin)).
  destruct (latest_bounds (anchor_ms r) iv now (due_ms r)) as (Hl1 & Hl2 & _); [lia|lia|done|].
  split_and!; [lia|lia|done|]. by destruct (latest (anchor_ms r) iv now + iv <=? u64_max).
Qed.

(** ** Histories *)

Definition command_typed (c : command) : Prop :=
  match c with
  | CreateReminder who _ rule now =>
      validate_identifier who = true ∧ 0 ≤ now ∧
      match rule with
      | After t | At t | Every t => 0 ≤ t ≤ u64_max
      end
  | ReserveRound now _ _ => now ≤ u64_max
  | _ => True
  end.

Lemma schedule_proposed_ok r s' : proposed r = Ok s' ↔ r.2 = Ok tt ∧ s' = r.1 ∧ state_ok s'.
Proof.
  unfold proposed. rewrite obind_ok. setoid_rewrite obind_ok. split.
  - intros ([] & ? & [] & ?%schedule_validate_ok & [= <-]). done.
  - intros (? & -> & ?%schedule_validate_ok). exists tt. split; [done|]. by exists tt.
Qed.

Lemma reserve_ok s now s' input :
  inv s → now ≤ u64_max → reserve s now = Ok (s', input) →
  ∃ i r occurrence next, reminders s !! i = Some r ∧ eligible now r = true ∧
    occurrence_of r now = Ok (occurrence, next) ∧ allocated_rounds s < 100 ∧
    s' = fired s i r occurrence next ∧ input = frozen s r occurrence.
Proof.
  intros Hinv Hnow. unfold reserve, next_due.
  destruct (_ || _) eqn:Hb; [done|]. destruct (earliest _) as [due|]; [|done].
  destruct (now <? due); [done|].
  pose proof (least_spec now (reminders s) 0 None) as Hl.
  destruct (least now 0 (reminders s) None) as [[i r]|]; [|done].
  destruct Hl as ([?|(_ & Hi & Hel)] & _); [done|]. rewrite Nat.sub_0_r in Hi.
  unfold eligible in Hel. rewrite (reserve_at_spec s i r now) by (done || lia).
  rewrite obind_ok. intros ([occurrence next] & Hocc & [= <- <-]).
  exists i, r, occurrence, next. split_and!; [done|exact Hel|done|lia|done|done].
Qed.

Lemma rule_times_typed rule now due interval :
  0 ≤ now → match rule with After t | At t | Every t => 0 ≤ t ≤ u64_max end →
  rule_times rule now = Ok (due, interval) → 0 ≤ due ≤ u64_max.
Proof.
  intros Hnow Ht. unfold rule_times, checked_add.
  destruct rule; repeat case_match; simpl; try done; intros; simplify_eq; lia.
Qed.

Lemma execute_typed s c s' :
  inv s → command_typed c → execute s c = Ok s' →
  Forall reminder_typed (reminders s') ∧
  allocated_rounds s' =
    allocated_rounds s + match c with ReserveRound _ _ _ => 1 | _ => 0 end.
Proof.
  intros Hinv Hc. pose proof Hinv as (_ & Htyped & H0). destruct c; cbn [execute].
  - intros (Hr & -> & _)%schedule_proposed_ok. destruct Hc as (Hid & Hnow & Ht). unfold create in *.
    destruct (check_prompt body); [|done..]. destruct (_ || _); [done|].
    destruct (rule_times rule now) as [[due interval]|e|] eqn:Hrule; [|done..].
    apply rule_times_typed in Hrule; [|done..]. destruct (due =? 0); [done|].
    split; [|simpl; lia]. apply Forall_app. split; [done|].
    constructor; [|constructor]. split_and!; simpl; [done|lia|lia].
  - intros (Hr & -> & _)%schedule_proposed_ok. unfold resume in *. destruct (_ || _ || _ || _); [done|].
    split; [|simpl; lia]. apply Forall_fmap. eapply Forall_impl; [done|]. by intros r.
  - intros (Hr & -> & _)%schedule_proposed_ok. unfold delete in *.
    destruct (list_find _ _) as [[i r]|]; [|done]. split; [|simpl; lia].
    apply Forall_app. split; [by apply Forall_take|by apply Forall_drop].
  - rewrite obind_ok. intros ([s1 input] & Hres & Hk).
    apply obind_ok in Hk as (expected & _ & Hk). destruct (_ || _); [done|].
    apply schedule_proposed_ok in Hk as (_ & -> & _).
    apply reserve_ok in Hres as (i & r & occ & next & Hi & Hel & Hocc & Hlt & -> & _); [|done..].
    simpl in Hc. unfold eligible in Hel.
    split; [|done]. eapply (fired_inv s i r now); try done. lia.
  - intros (Hr & -> & _)%schedule_proposed_ok. unfold settle in *.
    destruct (reservation s) as [r|]; [|done]. case_bool_decide; [|done].
    split; [done|simpl; lia].
Qed.

Lemma schedule_after_inv s c : inv s → command_typed c → inv (after s c).
Proof.
  intros Hinv Hc. unfold after. destruct (execute s c) as [s'|e|] eqn:He; [|done..].
  pose proof He as Hv. apply execute_typed in He as [Ht Ha]; [|done..].
  split; [|split; [done|]].
  - destruct c; cbn [execute] in Hv; try (by apply schedule_proposed_ok in Hv as (_ & _ & ?)).
    apply obind_ok in Hv as ([s1 input] & _ & Hv). apply obind_ok in Hv as (e & _ & Hv).
    destruct (_ || _); [done|]. by apply schedule_proposed_ok in Hv as (_ & _ & ?).
  - destruct Hinv as (_ & _ & H0). destruct c; lia.
Qed.

Lemma schedule_run_inv s cs : inv s → Forall command_typed cs → inv (run s cs).
Proof.
  intros Hs Hcs. revert s Hs. induction Hcs as [|c cs Hc Hcs IH]; intros s Hs; [done|].
  by apply IH, schedule_after_inv.
Qed.

(** The allowance of a Session is for its lifetime: whatever is created, resumed,
    deleted or settled, the rounds of every history from an empty schedule are 1, 2, 3, ...
    without a gap or a repetition, never more than a hundred, and every state it goes
    through is valid. *)
Lemma schedule_allowance cs :
  Forall command_typed cs →
  charged default_state cs = seqZ 1 (len (charged default_state cs)) ∧
  allocated_rounds (run default_state cs) = len (charged default_state cs) ∧
  len (charged default_state cs) ≤ 100 ∧ validate (run default_state cs) = Ok tt.
Proof.
  intros Hcs.
  assert (∀ s, inv s →
    charged s cs = seqZ (allocated_rounds s + 1) (len (charged s cs)) ∧
    allocated_rounds (run s cs) = allocated_rounds s + len (charged s cs)) as Hgen.
  { induction Hcs as [|c cs Hc Hcs IH]; intros s Hs; [unfold len; simpl; split; [done|lia]|].
    cbn [charged run foldl]. fold run. specialize (IH (after s c) (schedule_after_inv s c Hs Hc)).
    destruct IH as [Hseq Hrun]. destruct (execute s c) as [s'|e|] eqn:He.
    2,3: assert (after s c = s) as Heq by (unfold after; by rewrite He); by rewrite Heq in *.
    assert (after s c = s') as Heq by (unfold after; by rewrite He). rewrite Heq in *.
    pose proof (execute_typed s c s' Hs Hc He) as [_ Ha].
    destruct c; rewrite Ha, ?Z.add_0_r in Hseq, Hrun; try done.
    cbn [app]. rewrite len_cons. pose proof (len_nonneg (charged s' cs)). split; [|lia].
    rewrite seqZ_cons by lia. rewrite Ha. f_equal. rewrite Hseq at 1. f_equal; lia. }
  destruct (Hgen default_state default_inv) as [Hseq Hrun]. simpl in Hseq, Hrun.
  pose proof (schedule_run_inv default_state cs default_inv Hcs) as (Hok & _).
  pose proof (ok_allowance _ Hok). split_and!; [done|lia|lia|by apply schedule_validate_ok].
Qed.

(** ** Every occurrence fires at most once *)

(** The reminder [who] can only fire after [t] from here on. *)
Definition past (who : text) (t : Z) (l : list Reminder) : Prop :=
  Forall (λ r, id r = who → t < due_ms r ∨ (consumed r = true ∧ active r = false)) l.

Definition creates (who : text) (c : command) : bool :=
  match c with CreateReminder w _ _ _ => bool_decide (w = who) | _ => false end.

Lemma advance_id r next : id (advance r next) = id r.
Proof. by destruct next. Qed.

Lemma fired_past s i r now occurrence next :
  inv s → reminders s !! i = Some r → due_ms r ≤ now ≤ u64_max →
  occurrence_of r now = Ok (occurrence, next) →
  past (id r) occurrence (reminders (fired s i r occurrence next)) ∧
  ∀ who t, past who t (reminders s) → past who t (reminders (fired s i r occurrence next)).
Proof.
  intros ([_ _ _ Hrem Hids _] & Htyped & _) Hi Hnow Hocc.
  assert (reminder_ok r ∧ reminder_typed r) as [Hr Ht].
  { rewrite Forall_forall in Hrem, Htyped. apply list_elem_of_lookup_2 in Hi. auto. }
  destruct (occurrence_of_bounds r now occurrence next) as (_ & Hle & _ & _ & Hnext); [done..|].
  assert (occurrence < due_ms (advance r next) ∨
    (consumed (advance r next) = true ∧ active (advance r next) = false)) as Hadv.
  { pose proof (ok_interval _ Hr) as Hge. destruct (interval_ms r) as [iv|].
    - destruct Hnext as (-> & _ & _). destruct (Hge iv eq_refl) as [? _]. left. simpl. lia.
    - destruct Hnext as [-> _]. by right. }
  unfold past. cbn [fired reminders]. split.
  - apply Forall_forall. intros x [j Hj]%list_elem_of_lookup_1 Hid.
    destruct (decide (j = i)) as [->|Hne].
    + rewrite list_lookup_insert_eq in Hj by (by eapply lookup_lt_Some). by injection Hj as <-.
    + rewrite list_lookup_insert_ne in Hj by done. exfalso. apply Hne.
      eapply (NoDup_lookup (id <$> reminders s)); [done| |]; rewrite list_lookup_fmap.
      * by rewrite Hj.
      * by rewrite Hi, Hid.
  - intros who t Hpast. apply Forall_insert; [done|]. rewrite advance_id. intros Hid.
    rewrite Forall_forall in Hpast. apply list_elem_of_lookup_2 in Hi.
    destruct (Hpast r Hi Hid) as [?|[Hc Ha]]; [|by destruct next; [right|right]].
    destruct Hadv as [?|?]; [left; lia|by right].
Qed.

Lemma execute_past s c s' who t :
  inv s → command_typed c → creates who c = false → execute s c = Ok s' →
  past who t (reminders s) → past who t (reminders s').
Proof.
  intros Hinv Hc Hno He Hpast. destruct c; cbn [execute] in He.
  - apply schedule_proposed_ok in He as (Hr & -> & _). unfold create in *.
    destruct (check_prompt body); [|done..]. destruct (_ || _); [done|].
    destruct (rule_times rule now) as [[due interval]|e|]; [|done..]. destruct (due =? 0); [done|].
    apply Forall_app. split; [done|]. constructor; [|constructor]. simpl. intros Hid.
    by apply bool_decide_eq_false in Hno.
  - apply schedule_proposed_ok in He as (Hr & -> & _). unfold resume in *.
    destruct (_ || _ || _ || _); [done|]. apply Forall_fmap. eapply Forall_impl; [done|].
    intros r Hr' Hid. unfold set_active. simpl. destruct (Hr' Hid) as [?|[-> _]]; [by left|right].
    by rewrite andb_false_r.
  - apply schedule_proposed_ok in He as (Hr & -> & _). unfold delete in *.
    destruct (list_find _ _) as [[i r]|]; [|done].
    apply Forall_app. split; [by apply Forall_take|by apply Forall_drop].
  - apply obind_ok in He as ([s1 input] & Hres & Hk).
    apply obind_ok in Hk as (expected & _ & Hk). destruct (_ || _); [done|].
    apply schedule_proposed_ok in Hk as (_ & -> & _).
    apply reserve_ok in Hres as (i & r & occ & next & Hi & Hel & Hocc & _ & -> & _); [|done..].
    simpl in Hc. unfold eligible in Hel.
    eapply (fired_past s i r now); [done|done|lia|done|done].
  - apply schedule_proposed_ok in He as (Hr & -> & _). unfold settle in *.
    destruct (reservation s) as [r|]; [|done]. by case_bool_decide.
Qed.

Lemma run_past s cs who t :
  inv s → Forall command_typed cs → Forall (λ c, creates who c = false) cs →
  past who t (reminders s) → past who t (reminders (run s cs)).
Proof.
  intros Hinv Hcs. revert s Hinv. induction Hcs as [|c cs Hc Hcs IH]; intros s Hinv Hno Hpast;
    [done|].
  inversion Hno; subst. apply IH; [by apply schedule_after_inv|done|]. unfold after.
  destruct (execute s c) eqn:He; [by eapply execute_past|done..].
Qed.

(** C25: no occurrence fires twice: after a reminder has fired for an instant, it fires again
    only for a later one, whatever happens in between (late clocks, resumes, settlements,
    other reminders); a one-shot never fires again.  Only a new reminder of the same
    identity starts over. *)
Theorem occurrence_fires_once s s1 input1 cs s2 input2 now1 now2 r1 r2 :
  inv s → now1 ≤ u64_max → now2 ≤ u64_max →
  reserve s now1 = Ok (s1, input1) → reservation s1 = Some r1 →
  Forall command_typed cs → Forall (λ c, creates (reminder_id r1) c = false) cs →
  reserve (run s1 cs) now2 = Ok (s2, input2) → reservation s2 = Some r2 →
  reminder_id r2 = reminder_id r1 → occurrence_ms r1 < occurrence_ms r2.
Proof.
  intros Hinv Hn1 Hn2 H1 Hr1 Hcs Hno H2 Hr2 Hsame.
  apply reserve_ok in H1 as (i & r & occ & next & Hi & Hel & Hocc & Hlt & -> & _); [|done..].
  unfold eligible in Hel. injection Hr1 as <-. simpl in *.
  destruct (fired_past s i r now1 occ next) as [Hpast _]; [done|done|lia|done|].
  assert (inv (fired s i r occ next)) as Hinv1 by (eapply fired_inv; try done; lia).
  pose proof (run_past _ cs _ _ Hinv1 Hcs Hno Hpast) as Hpast2.
  pose proof (schedule_run_inv _ cs Hinv1 Hcs) as Hinv2.
  apply reserve_ok in H2 as (j & r' & occ' & next' & Hj & Hel' & Hocc' & _ & -> & _); [|done..].
  unfold eligible in Hel'. injection Hr2 as <-. simpl in *.
  pose proof (list_elem_of_lookup_2 _ _ _ Hj) as Hin.
  unfold past in Hpast2. rewrite Forall_forall in Hpast2. specialize (Hpast2 r' Hin Hsame).
  destruct Hinv2 as ([_ _ _ Hrem _ _] & Htyped & _). rewrite Forall_forall in Hrem, Htyped.
  destruct (occurrence_of_bounds r' now2 occ' next') as (_ & Hb & _); [auto|auto|lia|done|].
  destruct Hpast2 as [?|[_ Ha]]; [lia|]. rewrite Ha in Hel'. done.
Qed.
End reserving.

(** ** A concrete schedule *)
Section examples.
#[local] Instance zero_digest : ScheduleDigest := { digest _ := repeat 48 64 }.
#[local] Instance zero_digest_hex : ScheduleDigestHex.
Proof. split. intros t. split; [done|]. by repeat constructor; vm_compute. Defined.

(** A reminder every five minutes, created at instant 0. *)
Definition start : list command := [CreateReminder (lit "r-1") (lit "stand up") (Every 300000) 0].

Lemma start_typed : Forall command_typed start.
Proof. repeat constructor; vm_compute; congruence. Defined.

Definition waiting : ScheduleState := run default_state start.

Lemma waiting_inv : inv waiting.
Proof. exact (schedule_run_inv default_state start default_inv start_typed). Defined.

Lemma reserve_fires_earliest_witness :
  next_due waiting = Some 300000 ∧
  ∃ i r, reminders waiting !! i = Some r ∧ eligible 1000000 r = true ∧ due_ms r = 300000 ∧
    (∀ r', r' ∈ reminders waiting → eligible 1000000 r' = true → key_ltb r' r = false) ∧
    match interval_ms r with
    | None => reserve waiting 1000000 = Ok (fired waiting i r 300000 None, frozen waiting r 300000)
    | Some interval =>
        let occurrence := latest (anchor_ms r) interval 1000000 in
        300000 ≤ occurrence ≤ 1000000 ∧ 1000000 < occurrence + interval ∧
        reserve waiting 1000000 =
          if occurrence + interval <=? u64_max
          then Ok (fired waiting i r occurrence (Some (occurrence + interval)),
                   frozen waiting r occurrence)
          else Err "Schedule time overflow"
    end.
Proof.
  split; [vm_compute; reflexivity|].
  apply (reserve_fires_earliest waiting 1000000 waiting_inv). vm_compute. discriminate.
Defined.

Lemma schedule_allowance_witness :
  charged default_state start = seqZ 1 (len (charged default_state start)) ∧
  allocated_rounds (run default_state start) = len (charged default_state start) ∧
  len (charged default_state start) ≤ 100 ∧ validate (run default_state start) = Ok tt.
Proof. exact (schedule_allowance start start_typed). Defined.

Definition fired_once : outcome string (ScheduleState * Continuation.t) := reserve waiting 1000000.
Definition between : list command := [SettleRound (lit "schedule-" ++ repeat 48 64)].

(** It fires for the instant 900000 at 1000000, and next for 1800000 at 2000000. *)
Lemma occurrence_fires_once_witness :
  ∃ s1 i1 s2 i2 r1 r2, reserve waiting 1000000 = Ok (s1, i1) ∧ reservation s1 = Some r1 ∧
    reserve (run s1 between) 2000000 = Ok (s2, i2) ∧ reservation s2 = Some r2 ∧
    occurrence_ms r1 = 900000 ∧ occurrence_ms r2 = 1800000 ∧ occurrence_ms r1 < occurrence_ms r2.
Proof.
  do 6 eexists. split; [vm_compute; reflexivity|]. split; [reflexivity|].
  split; [vm_compute; reflexivity|]. split; [reflexivity|]. split; [reflexivity|].
  split; [reflexivity|].
  eapply (occurrence_fires_once waiting _ _ between _ _ 1000000 2000000); [exact waiting_inv|..].
  - vm_compute; discriminate.
  - vm_compute; discriminate.
  - vm_compute; reflexivity.
  - reflexivity.
  - by repeat constructor.
  - by repeat constructor.
  - vm_compute; reflexivity.
  - reflexivity.
  - reflexivity.
Defined.
End examples.
