(* ===== verification/PatchCommon.v ===== *)
(** * Patches: paths and failures

    [SafePath], [EngineFailure] and the match kinds of
    [crates/rsi-apply-patch/core/src/patch_engine.rs].  [Path::components] of the standard
    library is modelled for Unix paths: repeated separators and inner [.] components
    disappear, a leading [.] is [CurDir]. *)

From S2P Require Import Prelude Text.

Definition MAXIMUM_PATCH_OPERATIONS : Z := 256.
Definition MAXIMUM_PATCH_PATH_BYTES : Z := 16 * 1024.
Definition MAXIMUM_PATCH_PATH_BYTES_TOTAL : Z := 1024 * 1024.
Definition MAXIMUM_PATCH_FUZZY_MATCHES : Z := MAXIMUM_PATCH_OPERATIONS * 4.
Definition MAXIMUM_PATCH_FAILURE_CODE_BYTES : Z := 128.
Definition MAXIMUM_PATCH_FAILURE_MESSAGE_BYTES : Z := 32 * 1024.

(** ** Failures *)

(** The longest prefix of whole characters within the budget. *)
Fixpoint fit (t : text) (budget : Z) : text :=
  match t with
  | [] => []
  | c :: t => if scalar_bytes c <=? budget then c :: fit t (budget - scalar_bytes c) else []
  end.

Definition truncate_utf8 (value : text) (maximum_bytes : Z) : text :=
  if text_len value <=? maximum_bytes then value else fit value maximum_bytes.

Record EngineFailure := {
  operation : option nat;
  hunk : option nat;
  code : text;
  message : text;
  failed_path : option text;
}.

Definition failure (code : string) (message : text) : EngineFailure :=
  {| operation := None; hunk := None;
     code := truncate_utf8 (lit code) MAXIMUM_PATCH_FAILURE_CODE_BYTES;
     message := truncate_utf8 message MAXIMUM_PATCH_FAILURE_MESSAGE_BYTES;
     failed_path := None |}.

(** ** Paths *)
Definition SLASH : Z := 47.
Definition DOT : Z := 46.

Inductive Component := RootDir | CurDir | ParentDir | Normal (name : text).

(** [text.split('/')] *)
Fixpoint split_on (sep : Z) (t : text) : list text :=
  match t with
  | [] => [[]]
  | c :: t =>
      if c =? sep then [] :: split_on sep t
      else match split_on sep t with
           | [] => [[c]]
           | first :: rest => (c :: first) :: rest
           end
  end.

Definition is_absolute (t : text) : bool := bool_decide (head t = Some SLASH).

(** A component after the first: empty names and [.] disappear. *)
Definition component (name : text) : option Component :=
  if bool_decide (name = []) || bool_decide (name = [DOT]) then None
  else if bool_decide (name = [DOT; DOT]) then Some ParentDir
  else Some (Normal name).

(** [Path::components] on Unix. *)
Definition components_of (t : text) : list Component :=
  match split_on SLASH t with
  | [] => []
  | first :: rest =>
      (if is_absolute t then [RootDir]
       else if bool_decide (first = [DOT]) then [CurDir]
       else match component first with Some c => [c] | None => [] end) ++ omap component rest
  end.

Record SafePath := { path_text : text; components : list text }.

Definition normal (c : Component) : option text :=
  match c with Normal name => Some name | _ => None end.

Fixpoint join_slash (names : list text) : text :=
  match names with
  | [] => []
  | [name] => name
  | name :: rest => name ++ SLASH :: join_slash rest
  end.

Definition safe_path_parse (t : text) : outcome EngineFailure SafePath :=
  if bool_decide (t = []) || (MAXIMUM_PATCH_PATH_BYTES <? text_len t) ||
     existsb (Z.eqb 0) t
  then Err (failure "invalid_path"
              (lit "patch path must be nonempty and within " ++ dec MAXIMUM_PATCH_PATH_BYTES ++
               lit " bytes"))
  else if is_absolute t
  then Err (failure "invalid_path" (lit "patch paths must be relative to the tool cwd"))
  else
    match mapM normal (components_of t) with
    | None =>
        Err (failure "invalid_path"
               (lit "patch paths cannot contain '.', '..', roots, or prefixes"))
    | Some [] => Err (failure "invalid_path" (lit "patch path must name a file"))
    | Some names => Ok {| path_text := join_slash names; components := names |}
    end.

Definition at_ (f : EngineFailure) (op : nat) (path : SafePath) : EngineFailure :=
  {| operation := Some op; hunk := hunk f; code := code f; message := message f;
     failed_path := Some (path_text path) |}.

Definition at_hunk (f : EngineFailure) (op h : nat) (path : SafePath) : EngineFailure :=
  {| operation := Some op; hunk := Some h; code := code f; message := message f;
     failed_path := Some (path_text path) |}.

(** ** Match kinds *)
Inductive MatchKind := Exact | Rstrip | Trim | Unicode.
#[export] Instance MatchKind_eq_dec : EqDecision MatchKind.
Proof. solve_decision. Defined.

Definition is_exact (k : MatchKind) : bool :=
  match k with Exact => true | _ => false end.

Record PatchFuzzyMatch := {
  fuzzy_operation : nat;
  fuzzy_hunk : nat;
  fuzzy_path : text;
  kind : MatchKind;
  source_line : nat;
}.

(** ** A parsed path stays inside the working directory *)

Definition confined_name (name : text) : Prop :=
  name ≠ [] ∧ name ≠ [DOT] ∧ name ≠ [DOT; DOT] ∧ SLASH ∉ name ∧ 0 ∉ name.

Lemma split_on_nonempty sep t : split_on sep t ≠ [].
Proof. destruct t as [|c t]; simpl; [done|]. destruct (c =? sep); [done|]. by destruct (split_on sep t). Qed.

Lemma split_on_elem sep t name c :
  name ∈ split_on sep t → c ∈ name → c ∈ t ∧ c ≠ sep.
Proof.
  revert name. induction t as [|x t IH]; intros name; simpl.
  { intros ->%list_elem_of_singleton Hc. by apply elem_of_nil in Hc. }
  destruct (Z.eqb_spec x sep) as [->|Hne].
  - rewrite elem_of_cons. intros [->|Hin] Hc; [set_solver|].
    destruct (IH name Hin Hc). set_solver.
  - destruct (split_on sep t) as [|first rest] eqn:Hs.
    + rewrite list_elem_of_singleton. intros -> ->%list_elem_of_singleton. set_solver.
    + rewrite elem_of_cons. intros [->|Hin] Hc.
      * apply elem_of_cons in Hc as [->|Hc]; [set_solver|].
        destruct (IH first ltac:(set_solver) Hc). set_solver.
      * destruct (IH name ltac:(set_solver) Hc). set_solver.
Qed.

Lemma split_on_plain sep name t :
  sep ∉ name → split_on sep (name ++ sep :: t) = name :: split_on sep t.
Proof.
  induction name as [|x name IH]; intros Hn; simpl.
  - by rewrite Z.eqb_refl.
  - destruct (Z.eqb_spec x sep); [set_solver|]. rewrite IH by set_solver. done.
Qed.

Lemma split_on_single sep name : sep ∉ name → split_on sep name = [name].
Proof.
  induction name as [|x name IH]; intros Hn; simpl; [done|].
  destruct (Z.eqb_spec x sep); [set_solver|]. by rewrite IH by set_solver.
Qed.

Lemma component_confined t name c :
  name ∈ split_on SLASH t → 0 ∉ t → component name = Some c →
  c = ParentDir ∨ (c = Normal name ∧ confined_name name).
Proof.
  intros Hin H0. unfold component. destruct (_ || _) eqn:Hb; [done|].
  apply orb_false_iff in Hb as [He%bool_decide_eq_false Hd%bool_decide_eq_false].
  case_bool_decide as Hp; intros [= <-]; [by left|right]. split; [done|].
  split_and!; [done|done|done| |].
  - intros Hs. by destruct (split_on_elem _ _ _ _ Hin Hs).
  - intros Hz. by destruct (split_on_elem _ _ _ _ Hin Hz).
Qed.

Lemma components_confined t names :
  0 ∉ t → mapM normal (components_of t) = Some names → Forall confined_name names.
Proof.
  intros H0 Hm. apply mapM_Some in Hm. apply Forall_forall. intros name Hin.
  apply list_elem_of_lookup in Hin as [i Hi].
  destruct (Forall2_lookup_r _ _ _ _ _ Hm Hi) as (c & Hc & Hn).
  destruct c as [| | |name']; simpl in Hn; try done. injection Hn as ->.
  apply list_elem_of_lookup_2 in Hc. unfold components_of in Hc.
  destruct (split_on SLASH t) as [|first rest] eqn:Hs; [set_solver|].
  apply elem_of_app in Hc as [Hc|Hc].
  - destruct (is_absolute t); [set_solver|]. case_bool_decide; [set_solver|].
    destruct (component first) as [c|] eqn:Hcomp; [|set_solver].
    apply list_elem_of_singleton in Hc as <-.
    destruct (component_confined t first (Normal name)) as [|[[= ->] ?]]; try done.
    rewrite Hs. set_solver.
  - apply list_elem_of_omap in Hc as (x & Hx & Hcomp).
    destruct (component_confined t x (Normal name)) as [|[[= ->] ?]]; try done.
    rewrite Hs. set_solver.
Qed.

(** *** Parsing is canonical *)

Lemma join_slash_cons name rest :
  join_slash (name :: rest) =
    match rest with [] => name | _ => name ++ SLASH :: join_slash rest end.
Proof. by destruct rest. Qed.

Lemma split_join names :
  names ≠ [] → Forall (λ n, SLASH ∉ n) names → split_on SLASH (join_slash names) = names.
Proof.
  intros Hne Hall. induction Hall as [|name rest Hn Hrest IH]; [done|].
  rewrite join_slash_cons. destruct rest as [|next rest]; [by apply split_on_single|].
  by rewrite split_on_plain, IH.
Qed.

Lemma join_split t : join_slash (split_on SLASH t) = t.
Proof.
  induction t as [|c t IH]; [done|]. simpl.
  pose proof (split_on_nonempty SLASH t) as Hne.
  destruct (Z.eqb_spec c SLASH) as [->|Hc].
  - destruct (split_on SLASH t) as [|first rest]; [done|]. rewrite join_slash_cons. by rewrite IH.
  - destruct (split_on SLASH t) as [|first rest]; [done|]. rewrite <- IH, !join_slash_cons.
    by destruct rest.
Qed.

Lemma join_sublist names l :
  names `sublist_of` l → text_len (join_slash names) ≤ text_len (join_slash l).
Proof.
  induction 1 as [|x l1 l2 Hs IH|x l1 l2 Hs IH]; [done|..].
  - rewrite !join_slash_cons. destruct l1 as [|y l1], l2 as [|z l2]; [done| |by inversion Hs|].
    + rewrite text_len_app, text_len_cons.
      pose proof (text_len_nonneg (join_slash (z :: l2))). pose proof (text_len_nonneg x).
      change (scalar_bytes SLASH) with 1. lia.
    + rewrite !text_len_app, !text_len_cons. change (scalar_bytes SLASH) with 1. lia.
  - etrans; [done|]. rewrite join_slash_cons. pose proof (text_len_nonneg x).
    destruct l2 as [|z l2]; [done|]. rewrite text_len_app, text_len_cons.
    change (scalar_bytes SLASH) with 1. lia.
Qed.

Lemma join_elem names c : c ∈ join_slash names → c = SLASH ∨ ∃ n, n ∈ names ∧ c ∈ n.
Proof.
  induction names as [|name rest IH]; [set_solver|]. rewrite join_slash_cons.
  destruct rest as [|next rest]; [set_solver|].
  rewrite elem_of_app, elem_of_cons. intros [?|[?|[?|(n & ? & ?)]%IH]];
    [right; exists name; set_solver|by left|by left|right; exists n; set_solver].
Qed.

Lemma omap_components rest names :
  mapM normal (omap component rest) = Some names → names `sublist_of` rest.
Proof.
  revert names. induction rest as [|name rest IH]; intros names; csimpl.
  { intros [= <-]. constructor. }
  unfold component at 1. destruct (_ || _); [intros ?%IH; by constructor|].
  case_bool_decide; [done|]. csimpl. destruct (mapM normal (omap component rest)); [|done].
  intros [= <-]. constructor. by apply IH.
Qed.

Lemma components_sublist t names :
  is_absolute t = false → mapM normal (components_of t) = Some names →
  names `sublist_of` split_on SLASH t.
Proof.
  unfold components_of. intros ->. destruct (split_on SLASH t) as [|first rest]; [by intros [= <-]|].
  case_bool_decide; [done|]. pose proof (omap_components (first :: rest) names) as H1.
  csimpl in H1. by destruct (component first).
Qed.

Lemma normal_components names :
  Forall confined_name names → omap component names = Normal <$> names.
Proof.
  induction 1 as [|n names (He & Hd & Hp & _) Hn IH]; [done|]. csimpl.
  unfold component at 1. rewrite !bool_decide_eq_false_2 by done. simpl. by rewrite IH.
Qed.

Lemma mapM_normal names : mapM normal (Normal <$> names) = Some names.
Proof. apply mapM_Some. induction names as [|n names IH]; by constructor. Qed.

Lemma confined_components names :
  names ≠ [] → Forall confined_name names →
  is_absolute (join_slash names) = false ∧
  mapM normal (components_of (join_slash names)) = Some names.
Proof.
  intros Hne Hall. assert (is_absolute (join_slash names) = false) as Habs.
  { destruct names as [|name rest]; [done|]. apply Forall_cons in Hall as [(He & _ & _ & Hs & _) _].
    destruct name as [|c name]; [done|]. rewrite join_slash_cons.
    apply bool_decide_eq_false. destruct rest; simpl; set_solver. }
  split; [done|]. unfold components_of. rewrite Habs, split_join; [|done|].
  - pose proof (normal_components names Hall) as Hn.
    destruct names as [|name rest]; [done|]. apply Forall_cons in Hall as [(He & Hd & _) _].
    rewrite bool_decide_eq_false_2 by done. rewrite <- (mapM_normal (name :: rest)), <- Hn.
    csimpl. by destruct (component name).
  - eapply Forall_impl; [done|]. intros n Hn. apply Hn.
Qed.

Lemma safe_path_parse_confined t p :
  safe_path_parse t = Ok p →
  components p ≠ [] ∧ Forall confined_name (components p) ∧
  path_text p = join_slash (components p) ∧ safe_path_parse (path_text p) = Ok p.
Proof.
  unfold safe_path_parse at 1. destruct (_ || _) eqn:Hb; [done|].
  destruct (is_absolute t) eqn:Habs; [done|].
  destruct (mapM normal (components_of t)) as [names|] eqn:Hm; [|done]. intros Hp.
  assert (names ≠ [] ∧ p = {| path_text := join_slash names; components := names |})
    as [Hnn ->] by (destruct names; [done|]; by injection Hp as <-).
  cbn [components path_text]. clear Hp.
  apply orb_false_iff in Hb as [[Hne%bool_decide_eq_false Hlen]%orb_false_iff H0].
  assert (0 ∉ t) as Hzero.
  { intros Hin%list_elem_of_In. apply not_true_iff_false in H0. apply H0, existsb_exists.
    exists 0. by split. }
  pose proof (components_confined t names Hzero Hm) as Hall.
  destruct (confined_components names) as [Habs' Hm']; [done|done|].
  split_and!; [done|done|done|]. unfold safe_path_parse. rewrite Habs', Hm'.
  rewrite bool_decide_eq_false_2.
  2:{ intros Hnil. rewrite Hnil in Hm'. by injection Hm' as <-. }
  pose proof (components_sublist t names Habs Hm) as Hsub%join_sublist.
  rewrite join_split in Hsub.
  replace (MAXIMUM_PATCH_PATH_BYTES <? text_len (join_slash names)) with false by lia.
  destruct (existsb (Z.eqb 0) (join_slash names)) eqn:He; [|by destruct names].
  apply existsb_exists in He as (c & Hc%list_elem_of_In & <-%Z.eqb_eq).
  apply join_elem in Hc as [?|(n & Hn & Hc)]; [done|].
  rewrite Forall_forall in Hall. by destruct (Hall n Hn) as (_ & _ & _ & _ & ?).
Qed.

(** C38: a parsed path stays inside the working directory and is canonical: it names at least
    one component, none of them empty, [.] or [..] or holding a separator or a NUL, and its
    text parses back to itself. *)
Theorem safe_path_confined t p :
  safe_path_parse t = Ok p →
  components p ≠ [] ∧ Forall confined_name (components p) ∧
  path_text p = join_slash (components p) ∧ safe_path_parse (path_text p) = Ok p.
Proof. apply safe_path_parse_confined. Qed.

Lemma safe_path_confined_witness :
  ∃ p, safe_path_parse (lit "src//a/./b.rs") = Ok p ∧ components p ≠ [] ∧
    Forall confined_name (components p) ∧ path_text p = join_slash (components p) ∧
    safe_path_parse (path_text p) = Ok p.
Proof.
  eexists. split; [vm_compute; reflexivity|].
  apply (safe_path_confined (lit "src//a/./b.rs")). vm_compute. reflexivity.
Defined.
