(* ===== verification/PatchSeek.v ===== *)
(** * Locating expected lines

    [seek_sequence_layer] of
    [crates/rsi-apply-patch/core/src/patch_engine/file_update.rs]: Knuth-Morris-Pratt
    search over any decidable type of lines.  Positions in a [Vec] are natural numbers; an
    out-of-range index is a panic, the outer [None]. *)

From S2P Require Import Prelude.

Section kmp.
Context {A : Type} `{EqDecision A}.
Implicit Types (pattern lines text : list A) (prefix : list nat).

(** [while matched > 0 && x != pattern[matched] { matched = prefix[matched - 1] }] *)
Fixpoint fall_back (fuel : nat) pattern prefix (x : A) (matched : nat) : option nat :=
  match fuel with
  | O => None
  | S fuel =>
      match matched with
      | O => Some O
      | S below =>
          match pattern !! matched with
          | None => None
          | Some y =>
              if bool_decide (x = y) then Some matched
              else
                match prefix !! below with
                | Some next => fall_back fuel pattern prefix x next
                | None => None
                end
          end
      end
  end.

(** One more element of the text: falling back, then extending. *)
Definition advance pattern prefix (x : A) (matched : nat) : option nat :=
  match fall_back (S matched) pattern prefix x matched with
  | None => None
  | Some m =>
      match pattern !! m with
      | None => None
      | Some y => Some (if bool_decide (x = y) then S m else m)
      end
  end.

(** The first loop: the table, for the indices from [index] on. *)
Fixpoint build (count : nat) pattern prefix (index matched : nat) : option (list nat) :=
  match count with
  | O => Some prefix
  | S count =>
      match pattern !! index with
      | None => None
      | Some x =>
          match advance pattern prefix x matched with
          | None => None
          | Some m =>
              let prefix' :=
                if bool_decide (m = 0%nat) then prefix else <[index := m]> prefix in
              build count pattern prefix' (S index) m
          end
      end
  end.

(** The second loop: the text from [offset] on. *)
Fixpoint search pattern prefix lines (offset matched : nat) : option (option nat) :=
  match lines with
  | [] => Some None
  | line :: rest =>
      match advance pattern prefix line matched with
      | None => None
      | Some m =>
          if (m =? length pattern)%nat then Some (Some (offset + 1 - length pattern)%nat)
          else search pattern prefix rest (S offset) m
      end
  end.

Definition seek_sequence_layer lines pattern (start : nat) (eof : bool) : option (option nat) :=
  if (length lines <? length pattern)%nat then Some None
  else
    let end_ := (length lines - length pattern)%nat in
    if eof then
      Some (if (start <=? end_)%nat && bool_decide (drop end_ lines = pattern)
            then Some end_ else None)
    else
      match build (pred (length pattern)) pattern (replicate (length pattern) 0%nat) 1 0 with
      | None => None
      | Some prefix => search pattern prefix (drop start lines) start 0
      end.

(** ** The reference: try every position *)
Fixpoint first_match pattern lines (index : nat) : option nat :=
  if bool_decide (take (length pattern) lines = pattern) then Some index
  else match lines with
       | [] => None
       | _ :: rest => first_match pattern rest (S index)
       end.

Definition naive_seek lines pattern (start : nat) (eof : bool) : option nat :=
  if eof then
    if (length pattern <=? length lines)%nat && (start <=? length lines - length pattern)%nat &&
       bool_decide (drop (length lines - length pattern) lines = pattern)
    then Some (length lines - length pattern)%nat else None
  else first_match pattern (drop start lines) start.

(** ** Borders *)

(** The first [k] elements of the pattern end the text. *)
Definition ends pattern text (k : nat) : Prop :=
  (k ≤ length pattern)%nat ∧ take k pattern `suffix_of` text.

Lemma suffix_shorter (a b t : list A) :
  a `suffix_of` t → b `suffix_of` t → (length a ≤ length b)%nat → a `suffix_of` b.
Proof.
  intros [k1 ->] [k2 Heq] Hlen. exists (drop (length k2) k1).
  assert (length k2 ≤ length k1)%nat as Hk.
  { apply (f_equal length) in Heq. rewrite !length_app in Heq. lia. }
  apply (f_equal (drop (length k2))) in Heq. rewrite drop_app_length in Heq.
  rewrite <- Heq, drop_app_le by done. done.
Qed.

Lemma ends_0 pattern text : ends pattern text 0.
Proof. split; [lia|]. rewrite take_0. apply suffix_nil. Qed.

Lemma ends_length pattern text k : ends pattern text k → (k ≤ length text)%nat.
Proof.
  intros [Hk Hs]. apply suffix_length in Hs. rewrite length_take in Hs. lia.
Qed.

Lemma ends_snoc pattern text x k :
  ends pattern (text ++ [x]) (S k) ↔ ends pattern text k ∧ pattern !! k = Some x.
Proof.
  unfold ends. split.
  - intros [Hk Hs]. assert (is_Some (pattern !! k)) as [y Hy] by (apply lookup_lt_is_Some; lia).
    rewrite (take_S_r _ _ y) in Hs by done. pose proof (suffix_snoc_inv_1 _ _ _ _ Hs). apply suffix_snoc_inv_2 in Hs.
    split; [split; [lia|done]|congruence].
  - intros [[Hk Hs] Hx]. pose proof (lookup_lt_Some _ _ _ Hx). split; [lia|].
    rewrite (take_S_r _ _ x) by done. by apply suffix_snoc.
Qed.

(** The longest border of a text. *)
Definition longest pattern text (m : nat) : Prop :=
  ends pattern text m ∧ ∀ k, ends pattern text k → (k ≤ m)%nat.

(** Each entry is the longest proper border of the pattern up to it. *)
Definition table_ok pattern prefix (upto : nat) : Prop :=
  ∀ i, (i < upto)%nat → ∃ v, prefix !! i = Some v ∧ (v ≤ i)%nat ∧
    longest pattern (drop 1 (take (S i) pattern)) v.

Lemma suffix_drop_1 (a t : list A) :
  a `suffix_of` t → (length a < length t)%nat → a `suffix_of` drop 1 t.
Proof.
  intros Hs Hlen. destruct t as [|x t]; [simpl in Hlen; lia|]. simpl. rewrite drop_0.
  apply (suffix_shorter a t (x :: t)); [done|by exists [x]|simpl in *; lia].
Qed.

Lemma ends_trans pattern text m v :
  ends pattern text m → ends pattern (drop 1 (take m pattern)) v → ends pattern text v.
Proof.
  intros [_ Hm] [Hv Hs]. split; [done|]. etrans; [done|]. etrans; [|done].
  apply suffix_drop.
Qed.

Lemma ends_below pattern text m k :
  ends pattern text m → ends pattern text k → (k < m)%nat →
  ends pattern (drop 1 (take m pattern)) k.
Proof.
  intros [Hm Hms] [Hk Hks] Hlt. split; [done|]. apply suffix_drop_1.
  - apply (suffix_shorter _ _ text); [done..|]. rewrite !length_take. lia.
  - rewrite !length_take. lia.
Qed.

Lemma fall_back_spec fuel pattern prefix text x m :
  (m < fuel)%nat → (m < length pattern)%nat → table_ok pattern prefix m →
  ends pattern text m →
  (∀ k, ends pattern text k → pattern !! k = Some x → (k ≤ m)%nat) →
  ∃ m', fall_back fuel pattern prefix x m = Some m' ∧ (m' ≤ m)%nat ∧ ends pattern text m' ∧
    (m' = 0%nat ∨ pattern !! m' = Some x) ∧
    ∀ k, ends pattern text k → pattern !! k = Some x → (k ≤ m')%nat.
Proof.
  revert m. induction fuel as [|fuel IH]; intros m Hfuel Hm Htable Hends Hmax; [lia|].
  destruct m as [|b]; simpl; [exists 0%nat; split_and!; eauto|].
  destruct (pattern !! S b) as [y|] eqn:Hy; [|apply lookup_ge_None in Hy; lia].
  case_bool_decide as Hxy; [exists (S b); subst; split_and!; eauto|].
  destruct (Htable b) as (v & -> & Hvb & Hv & Hvmax); [lia|].
  destruct (IH v) as (m' & ? & ? & ? & ? & ?); [lia|lia| | | |].
  - intros i Hi. apply Htable. lia.
  - by eapply ends_trans.
  - intros k Hk Hkx. apply Hvmax. apply (ends_below _ text); [done..|].
    specialize (Hmax k Hk Hkx). destruct (decide (k = S b)) as [->|]; [congruence|lia].
  - exists m'. split_and!; try done. lia.
Qed.

Lemma advance_spec pattern prefix text x m :
  (m < length pattern)%nat → table_ok pattern prefix m → longest pattern text m →
  ∃ m', advance pattern prefix x m = Some m' ∧ (m' ≤ S m)%nat ∧ longest pattern (text ++ [x]) m'.
Proof.
  intros Hm Htable [Hends Hmax]. unfold advance.
  destruct (fall_back_spec (S m) pattern prefix text x m) as (m1 & -> & Hle & Hends1 & Hor & Hmax1);
    [lia|done|done|done|auto|].
  destruct (pattern !! m1) as [y|] eqn:Hy; [|apply lookup_ge_None in Hy; lia].
  eexists. split; [done|]. case_bool_decide as Hxy.
  - subst y. split; [lia|]. split; [by apply ends_snoc|].
    intros [|k]; [lia|]. intros [? ?]%ends_snoc. specialize (Hmax1 k). lia || (assert (k ≤ m1)%nat by auto; lia).
  - destruct Hor as [->|?]; [|congruence]. split; [lia|]. split; [apply ends_0|].
    intros [|k]; [lia|]. intros [Hk Hkx]%ends_snoc. specialize (Hmax1 k Hk Hkx).
    assert (k = 0%nat) as -> by lia. congruence.
Qed.

Lemma build_spec count pattern prefix index m :
  (index + count = length pattern)%nat → (1 ≤ index)%nat → (m < index)%nat →
  length prefix = length pattern →
  (∀ i, (index ≤ i < length pattern)%nat → prefix !! i = Some 0%nat) →
  table_ok pattern prefix index → longest pattern (drop 1 (take index pattern)) m →
  ∃ prefix', build count pattern prefix index m = Some prefix' ∧
    table_ok pattern prefix' (length pattern).
Proof.
  revert prefix index m. induction count as [|count IH];
    intros prefix index m Hcount Hindex Hm Hlen Hzero Htable Hlong; simpl.
  { exists prefix. split; [done|]. by replace (length pattern) with index by lia. }
  destruct (pattern !! index) as [x|] eqn:Hx; [|apply lookup_ge_None in Hx; lia].
  destruct (advance_spec pattern prefix (drop 1 (take index pattern)) x m)
    as (m1 & -> & Hle & Hlong1); [lia| |done|].
  { intros i Hi. apply Htable. lia. }
  assert (drop 1 (take (S index) pattern) = drop 1 (take index pattern) ++ [x]) as Htext.
  { rewrite (take_S_r _ _ x) by done. rewrite drop_app_le; [done|]. rewrite length_take. lia. }
  set (prefix1 := if bool_decide (m1 = 0%nat) then prefix else <[index := m1]> prefix).
  assert (prefix1 !! index = Some m1) as Hat.
  { subst prefix1. case_bool_decide as H0; [subst m1; apply Hzero; lia|].
    apply list_lookup_insert_eq. lia. }
  assert (∀ i, i ≠ index → prefix1 !! i = prefix !! i) as Hother.
  { intros i Hi. subst prefix1. case_bool_decide; [done|]. by apply list_lookup_insert_ne. }
  apply IH; [lia|lia|lia| | | |by rewrite Htext].
  - subst prefix1. case_bool_decide; [done|]. by rewrite length_insert.
  - intros i Hi. rewrite Hother by lia. apply Hzero. lia.
  - intros i Hi. destruct (decide (i = index)) as [->|Hne].
    + exists m1. rewrite Htext. split_and!; [done|lia|done].
    + destruct (Htable i) as (v & Hv & ? & ?); [lia|]. exists v. by rewrite Hother.
Qed.

(** ** Occurrences *)

(** The pattern occurs in the text at a position. *)
Definition occurs pattern text (i : nat) : Prop :=
  ∃ a b, text = a ++ pattern ++ b ∧ length a = i.

Definition first_occurrence pattern text (r : option nat) : Prop :=
  match r with
  | Some i => occurs pattern text i ∧ ∀ j, occurs pattern text j → (i ≤ j)%nat
  | None => ∀ j, ¬ occurs pattern text j
  end.

Lemma first_occurrence_unique pattern text r1 r2 :
  first_occurrence pattern text r1 → first_occurrence pattern text r2 → r1 = r2.
Proof.
  destruct r1 as [i|], r2 as [j|]; simpl; try naive_solver.
  intros [Hi Hi'] [Hj Hj']. f_equal. apply Nat.le_antisymm; auto.
Qed.

Lemma first_match_shift pattern text index :
  first_match pattern text index = Nat.add index <$> first_match pattern text 0.
Proof.
  revert index. assert (∀ n index, first_match pattern text (n + index) =
    Nat.add n <$> first_match pattern text index) as H.
  { induction text as [|x text IH]; intros n index; simpl; case_bool_decide; try done.
    by rewrite <- IH, Nat.add_succ_r. }
  intros index. by rewrite <- H, Nat.add_0_r.
Qed.

Lemma first_match_spec pattern text :
  first_occurrence pattern text (first_match pattern text 0).
Proof.
  induction text as [|x text IH]; simpl; case_bool_decide as Ht.
  - split; [|lia]. exists [], []. by rewrite app_nil_r, <- Ht, take_nil.
  - intros j (a & b & Heq & _). apply Ht. rewrite take_nil.
    symmetry in Heq. apply app_nil in Heq as [_ [-> _]%app_nil]. done.
  - split; [|lia]. exists [], (drop (length pattern) (x :: text)).
    rewrite <- Ht at 1. by rewrite take_drop.
  - assert (∀ j, occurs pattern (x :: text) j → ∃ j', j = S j' ∧ occurs pattern text j') as Hocc.
    { intros j (a & b & Heq & <-). destruct a as [|y a].
      - exfalso. apply Ht. simpl in Heq. rewrite Heq. apply take_app_length.
      - injection Heq as -> Heq. exists (length a). split; [done|]. by exists a, b. }
    rewrite first_match_shift. destruct (first_match pattern text 0) as [i|]; simpl in *.
    + destruct IH as [(a & b & -> & <-) Hmin]. split.
      * exists (x :: a), b. done.
      * intros j (j' & -> & Hj')%Hocc. specialize (Hmin j' Hj'). lia.
    + intros j (j' & -> & Hj')%Hocc. by apply (IH j').
Qed.

(** A full match at the end of the text read so far. *)
Lemma ends_full pattern text :
  ends pattern text (length pattern) → ∃ a, text = a ++ pattern.
Proof. intros [_ [a Ha]]. rewrite firstn_all in Ha. by exists a. Qed.

Lemma no_occurrence_snoc pattern text x :
  (∀ j, ¬ occurs pattern text j) → ¬ ends pattern (text ++ [x]) (length pattern) →
  ∀ j, ¬ occurs pattern (text ++ [x]) j.
Proof.
  intros Hno Hend j (a & b & Heq & _). destruct b as [|y b _] using rev_ind.
  - apply Hend. split; [done|]. rewrite firstn_all. exists a. by rewrite Heq, app_nil_r.
  - rewrite !(assoc_L (++)) in Heq. apply app_inj_tail in Heq as [-> _].
    apply (Hno (length a)). exists a, b. by rewrite (assoc_L (++)).
Qed.

Lemma search_spec pattern prefix text rest m offset :
  (m < length pattern)%nat → table_ok pattern prefix (length pattern) →
  longest pattern text m → (∀ j, ¬ occurs pattern text j) → (length text ≤ offset)%nat →
  ∃ r, search pattern prefix rest offset m = Some (Nat.add (offset - length text) <$> r) ∧
    first_occurrence pattern (text ++ rest) r.
Proof.
  intros Hm Htable. revert text m offset Hm.
  induction rest as [|x rest IH]; intros text m offset Hm Hlong Hno Hoff; simpl.
  { exists None. by rewrite app_nil_r. }
  destruct (advance_spec pattern prefix text x m) as (m1 & -> & Hle & Hlong1); [done| |done|].
  { intros i Hi. apply Htable. lia. }
  replace (text ++ x :: rest) with ((text ++ [x]) ++ rest) by (by rewrite <- (assoc_L (++))).
  destruct (Nat.eqb_spec m1 (length pattern)) as [->|Hne].
  - destruct Hlong1 as [Hfull _]. apply ends_full in Hfull as [a Ha].
    assert (length text + 1 = length a + length pattern)%nat as Hlen.
    { apply (f_equal length) in Ha. rewrite !length_app in Ha. simpl in Ha. lia. }
    exists (Some (length a)). split; [simpl; do 2 f_equal; lia|]. split.
    + exists a, rest. by rewrite Ha, <- (assoc_L (++)).
    + intros j (a' & b & Heq & <-). destruct (le_lt_dec (length a) (length a')) as [|Hlt]; [done|].
      exfalso. apply (Hno (length a')). exists a', (drop (length a' + length pattern) text).
      split; [|done]. rewrite <- (assoc_L (++)) in Heq.
      apply (f_equal (take (length a' + length pattern))) in Heq.
      rewrite take_app_le in Heq by lia.
      rewrite (assoc_L (++)), <- length_app, take_app_length in Heq.
      rewrite length_app in Heq. rewrite (assoc_L (++)), <- Heq at 1. by rewrite take_drop.
  - assert (m1 < length pattern)%nat as Hm1 by lia.
    destruct (IH (text ++ [x]) m1 (S offset)) as (r & -> & Hr); [done|done| | |].
    + apply no_occurrence_snoc; [done|]. intros Hfull. destruct Hlong1 as [_ Hmax].
      specialize (Hmax _ Hfull). lia.
    + rewrite length_app. simpl. lia.
    + exists r. split; [|done]. rewrite length_app. simpl.
      by replace (S offset - (length text + 1))%nat with (offset - length text)%nat by lia.
Qed.

Lemma table_start pattern :
  pattern ≠ [] → table_ok pattern (replicate (length pattern) 0%nat) 1.
Proof.
  intros Hne i Hi. assert (i = 0%nat) as -> by lia. exists 0%nat.
  destruct pattern as [|x pattern]; [done|]. split_and!; [done|lia|]. simpl.
  split; [apply ends_0|]. intros k Hk%ends_length. done.
Qed.

Lemma longest_nil pattern : longest pattern [] 0.
Proof. split; [apply ends_0|]. by intros k ?%ends_length. Qed.

Lemma seek_layer_is_naive lines pattern start eof :
  pattern ≠ [] →
  seek_sequence_layer lines pattern start eof = Some (naive_seek lines pattern start eof).
Proof.
  intros Hne. unfold seek_sequence_layer, naive_seek.
  destruct (Nat.ltb_spec (length lines) (length pattern)) as [Hlt|Hge].
  - destruct eof; [by replace (length pattern <=? length lines)%nat with false by lia|].
    rewrite first_match_shift. f_equal.
    rewrite (first_occurrence_unique pattern (drop start lines) (first_match _ _ 0) None);
      [done|apply first_match_spec|]. intros j (a & b & Heq & _).
    apply (f_equal length) in Heq. rewrite length_drop, !length_app in Heq. lia.
  - destruct eof; [by replace (length pattern <=? length lines)%nat with true by lia|].
    assert (0 < length pattern)%nat as Hpos by (destruct pattern; [done|simpl; lia]).
    assert (drop 1 (take 1 pattern) = []) as Hnil by (by destruct pattern).
    destruct (build_spec (pred (length pattern)) pattern (replicate (length pattern) 0%nat) 1 0)
      as (prefix & -> & Htable); [lia|lia|lia|apply length_replicate| |by apply table_start| |].
    { intros i Hi. apply lookup_replicate. lia. }
    { rewrite Hnil. apply longest_nil. }
    destruct (search_spec pattern prefix [] (drop start lines) 0 start) as (r & -> & Hr);
      [done|done|apply longest_nil| |simpl; lia|].
    { intros j (a & b & Heq & _). symmetry in Heq. by apply app_nil in Heq as [_ [? _]%app_nil]. }
    simpl in Hr. simpl. rewrite Nat.sub_0_r, first_match_shift. do 2 f_equal.
    eapply first_occurrence_unique; [done|apply first_match_spec].
Qed.

Lemma naive_seek_short lines pattern start eof :
  pattern ≠ [] →
  (length lines < length pattern ∨ length lines - length pattern < start)%nat →
  naive_seek lines pattern start eof = None.
Proof.
  intros Hne Hshort. unfold naive_seek. destruct eof.
  - destruct (_ && _) eqn:Hb; [|done]. apply andb_true_iff in Hb as [Hb _]. lia.
  - rewrite first_match_shift. pose proof (first_match_spec pattern (drop start lines)) as Hf.
    destruct (first_match pattern (drop start lines) 0) as [i|]; [|done].
    destruct Hf as [(a & b & Heq & _) _]. exfalso. apply (f_equal length) in Heq.
    rewrite length_drop, !length_app in Heq.
    assert (length pattern ≠ 0%nat) by (by destruct pattern). lia.
Qed.

Definition matches_at lines pattern (i : nat) : Prop :=
  take (length pattern) (drop i lines) = pattern.

Lemma occurs_matches lines pattern start k :
  occurs pattern (drop start lines) k ↔
    matches_at lines pattern (start + k) ∧ (k ≤ length (drop start lines))%nat.
Proof.
  unfold matches_at. rewrite <- drop_drop. split.
  - intros (a & b & -> & <-). rewrite drop_app_length, take_app_length, length_app.
    split; [done|lia].
  - intros [Hm Hk]. set (D := drop start lines) in *.
    exists (take k D), (drop (length pattern) (drop k D)). split; [|rewrite length_take; lia].
    rewrite <- Hm at 1. by rewrite !take_drop.
Qed.

Lemma matches_within lines pattern i :
  pattern ≠ [] → matches_at lines pattern i → (i + length pattern ≤ length lines)%nat.
Proof.
  unfold matches_at. intros Hne Hm. apply (f_equal length) in Hm.
  rewrite length_take, length_drop in Hm. assert (length pattern ≠ 0%nat) by (by destruct pattern). lia.
Qed.

Lemma naive_seek_spec lines pattern start eof :
  pattern ≠ [] →
  match naive_seek lines pattern start eof with
  | Some i => (start ≤ i)%nat ∧ matches_at lines pattern i ∧
      if (eof : bool) then (i + length pattern)%nat = length lines
      else ∀ j, (start ≤ j < i)%nat → ¬ matches_at lines pattern j
  | None => ∀ j, (start ≤ j)%nat → (eof = true → (j + length pattern)%nat = length lines) →
      ¬ matches_at lines pattern j
  end.
Proof.
  intros Hne. unfold naive_seek. destruct eof.
  - destruct (_ && _ && _) eqn:Hb.
    + apply andb_true_iff in Hb as [Hb Hd%bool_decide_eq_true]. unfold matches_at.
      rewrite Hd, firstn_all. split_and!; [lia|done|lia].
    + intros j Hj Hend Hm. specialize (Hend eq_refl). unfold matches_at in Hm.
      apply not_true_iff_false in Hb. apply Hb. rewrite !andb_true_iff, bool_decide_eq_true.
      replace (length lines - length pattern)%nat with j by lia. split; [lia|].
      rewrite take_ge in Hm by (rewrite length_drop; lia). done.
  - rewrite first_match_shift. pose proof (first_match_spec pattern (drop start lines)) as Hf.
    assert (∀ j, (start ≤ j)%nat → matches_at lines pattern j →
      occurs pattern (drop start lines) (j - start)) as Hocc.
    { intros j Hj Hm. apply occurs_matches. replace (start + (j - start))%nat with j by lia.
      split; [done|]. apply matches_within in Hm; [|done]. rewrite length_drop. lia. }
    destruct (first_match pattern (drop start lines) 0) as [i|]; simpl in *.
    + destruct Hf as [Hi Hmin]. apply occurs_matches in Hi as [Hi _]. split_and!; [lia|done|].
      intros j Hj Hm. specialize (Hmin _ (Hocc j ltac:(lia) Hm)). lia.
    + intros j Hj _ Hm. by eapply Hf, Hocc.
Qed.

(** The Knuth-Morris-Pratt search is exact: it never indexes out of range, always
    terminates, and finds the first position at or after [start] where the lines match, or
    with [eof] only the one that ends the file; when it finds none, there is none. *)
Lemma seek_layer_finds_first lines pattern start eof :
  pattern ≠ [] →
  ∃ r, seek_sequence_layer lines pattern start eof = Some r ∧
  match r with
  | Some i => (start ≤ i)%nat ∧ matches_at lines pattern i ∧
      if (eof : bool) then (i + length pattern)%nat = length lines
      else ∀ j, (start ≤ j < i)%nat → ¬ matches_at lines pattern j
  | None => ∀ j, (start ≤ j)%nat → (eof = true → (j + length pattern)%nat = length lines) →
      ¬ matches_at lines pattern j
  end.
Proof.
  intros Hne. rewrite seek_layer_is_naive by done. eexists. split; [done|].
  by apply naive_seek_spec.
Qed.
End kmp.

Lemma seek_layer_finds_first_witness :
  ∃ r, seek_sequence_layer [1; 1; 2; 1; 1; 3] [1; 1; 3] 0 false = Some r ∧
  match r with
  | Some i => (0 ≤ i)%nat ∧ matches_at [1; 1; 2; 1; 1; 3] [1; 1; 3] i ∧
      ∀ j, (0 ≤ j < i)%nat → ¬ matches_at [1; 1; 2; 1; 1; 3] [1; 1; 3] j
  | None => ∀ j, (0 ≤ j)%nat → (false = true → (j + 3)%nat = 6%nat) →
      ¬ matches_at [1; 1; 2; 1; 1; 3] [1; 1; 3] j
  end.
Proof.
  exact (seek_layer_finds_first [1; 1; 2; 1; 1; 3] [1; 1; 3] 0 false ltac:(discriminate)).
Defined.
