(* ===== verification/PatchUpdate.v ===== *)
(** * Deriving the updated contents of a file

    [crates/rsi-apply-patch/core/src/patch_engine/file_update.rs]: splitting a file into
    lines with their endings, locating each hunk (exactly, or up to trailing blanks, blanks
    or typographic variants), and splicing the replacements.  The whole-file normalisations
    are cached in [OnceLock]s, which only saves work; whether a single-line search has
    already happened ([searched_single]) selects an indexed search and is part of the
    state. *)

From S2P Require Import Prelude Text PatchCommon PatchSeek.

(** ** Source files *)
Inductive LineEnding := Lf | CrLf | Cr.

Definition ending_text (e : LineEnding) : text :=
  match e with Lf => [10] | CrLf => [13; 10] | Cr => [13] end.

Record SourceLine := { line_text : text; ending : option LineEnding }.

Record SourceFile := { lines : list SourceLine; preferred : LineEnding }.

(** The scanning loop: [current] is the text since the last ending. *)
Fixpoint parse_lines (current contents : text) : list SourceLine :=
  match contents with
  | [] => if bool_decide (current = []) then [] else [{| line_text := current; ending := None |}]
  | c :: rest =>
      if c =? 13 then
        match rest with
        | d :: rest' =>
            if d =? 10 then {| line_text := current; ending := Some CrLf |} :: parse_lines [] rest'
            else {| line_text := current; ending := Some Cr |} :: parse_lines [] rest
        | [] => {| line_text := current; ending := Some Cr |} :: parse_lines [] rest
        end
      else if c =? 10 then {| line_text := current; ending := Some Lf |} :: parse_lines [] rest
      else parse_lines (current ++ [c]) rest
  end.

Definition parse (contents : text) : SourceFile :=
  let ls := parse_lines [] contents in
  {| lines := ls; preferred := default Lf (head (omap ending ls)) |}.

(** One replacement: start, number of old lines, new lines. *)
Definition Replacement : Type := nat * nat * list text.

Definition render_line (file : SourceFile) (l : SourceLine) : text :=
  line_text l ++ ending_text (default (preferred file) (ending l)).

(** [&lines[a..b]] *)
Definition slice_lines {A} (ls : list A) (a b : nat) : option (list A) :=
  if (a <=? b)%nat && (b <=? length ls)%nat then Some (take (b - a) (drop a ls)) else None.

Fixpoint apply_from (file : SourceFile) (source_index : nat) (replacements : list Replacement)
  : option text :=
  match replacements with
  | [] =>
      (λ kept, concat (map (render_line file) kept)) <$>
        slice_lines (lines file) source_index (length (lines file))
  | (start, old_len, new_lines) :: rest =>
      match slice_lines (lines file) source_index start,
            apply_from file (start + old_len) rest with
      | Some kept, Some tail =>
          Some (concat (map (render_line file) kept) ++
                concat (map (λ t, t ++ ending_text (preferred file)) new_lines) ++ tail)
      | _, _ => None
      end
  end.

Definition apply (file : SourceFile) (replacements : list Replacement) : option text :=
  apply_from file 0 replacements.

(** ** Searching *)

(** [str::trim_end], [str::trim] *)
Fixpoint trim_start (t : text) : text :=
  match t with
  | c :: rest => if is_whitespace c then trim_start rest else t
  | [] => []
  end.
Definition trim_end (t : text) : text := rev (trim_start (rev t)).
Definition trim (t : text) : text := trim_end (trim_start t).

Definition normalize_char (c : Z) : Z :=
  if existsb (Z.eqb c) [8208; 8209; 8210; 8211; 8212; 8213; 8722] then 45
  else if existsb (Z.eqb c) [8216; 8217; 8218; 8219] then 39
  else if existsb (Z.eqb c) [8220; 8221; 8222; 8223] then 34
  else if existsb (Z.eqb c)
            [160; 8194; 8195; 8196; 8197; 8198; 8199; 8200; 8201; 8202; 8239; 8287; 12288]
  then 32 else c.
Definition normalize_unicode (t : text) : text := map normalize_char (trim t).

(** The positions of a line, in order: the [single_exact] index. *)
Fixpoint positions (ls : list text) (t : text) (index : nat) : list nat :=
  match ls with
  | [] => []
  | l :: ls =>
      if bool_decide (l = t) then index :: positions ls t (S index) else positions ls t (S index)
  end.

(** [partition_point]: how many leading elements satisfy the test. *)
Fixpoint partition_point (test : nat → bool) (l : list nat) : nat :=
  match l with
  | x :: rest => if test x then S (partition_point test rest) else 0
  | [] => 0
  end.

Definition indexed (ls : list text) (t : text) (start : nat) : option nat :=
  let found := positions ls t 0 in found !! partition_point (λ p, p <? start)%nat found.

(** The result of [seek_sequence] and the flag it leaves; the outer [None] is a panic. *)
Definition seek_sequence (ls : list text) (searched : bool) (pattern : list text)
    (start : nat) (eof : bool) : option (option (nat * MatchKind) * bool) :=
  if bool_decide (pattern = []) then Some (Some (start, Exact), searched)
  else if (length ls <? length pattern)%nat || (length ls - length pattern <? start)%nat
  then Some (None, searched)
  else
    let single := (length pattern =? 1)%nat && negb eof in
    let exact :=
      match pattern with
      | [t] => if single && searched then Some (indexed ls t start)
               else seek_sequence_layer ls pattern start eof
      | _ => seek_sequence_layer ls pattern start eof
      end in
    let layer (f : text → text) k next :=
      match seek_sequence_layer (map f ls) (map f pattern) start eof with
      | None => None
      | Some (Some index) => Some (Some (index, k))
      | Some None => next
      end in
    match
      match exact with
      | None => None
      | Some (Some index) => Some (Some (index, Exact))
      | Some None =>
          layer trim_end Rstrip (layer trim Trim (layer normalize_unicode Unicode (Some None)))
      end
    with
    | None => None
    | Some r => Some (r, searched || single)
    end.

(** ** Hunks *)

(** [UpdateChunk] *)
Record UpdateChunk := {
  context : option text;
  old_lines : list text;
  new_lines : list text;
  context_indices : list (nat * nat);
  eof : bool;
}.

Definition audit_match (matches : list PatchFuzzyMatch) (op h : nat) (path : SafePath)
    (source_index : nat) (k : MatchKind) : outcome EngineFailure (list PatchFuzzyMatch) :=
  if is_exact k then Ok matches
  else if MAXIMUM_PATCH_FUZZY_MATCHES <=? len matches
  then Err (at_hunk (failure "response_budget"
              (lit "patch may report more than " ++ dec MAXIMUM_PATCH_FUZZY_MATCHES ++
               lit " fuzzy matches")) op h path)
  else Ok (matches ++
           [{| fuzzy_operation := op; fuzzy_hunk := h; fuzzy_path := path_text path; kind := k;
               source_line := source_index + 1 |}]).

(** [&new_lines[a..b]], which panics out of range, into a replacement. *)
Definition replacement (start old_start old_end : nat) (news : list text) (new_start new_end : nat)
  : option Replacement :=
  match slice_lines news new_start new_end with
  | Some added =>
      if (old_start <=? old_end)%nat
      then Some ((start + old_start)%nat, (old_end - old_start)%nat, added) else None
  | None => None
  end.

(** The loop over [context_indices]: everything between two kept lines is one replacement. *)
Fixpoint chunk_replacements (start : nat) (c : UpdateChunk) (indices : list (nat * nat))
    (old_start new_start : nat) : option (list Replacement) :=
  let at_ old_end new_end :=
    if (old_start =? old_end)%nat && (new_start =? new_end)%nat then Some []
    else (λ r, [r]) <$> replacement start old_start old_end (new_lines c) new_start new_end in
  match indices with
  | [] => at_ (length (old_lines c)) (length (new_lines c))
  | (old_context, new_context) :: rest =>
      match at_ old_context new_context,
            chunk_replacements start c rest (old_context + 1) (new_context + 1) with
      | Some here, Some later => Some (here ++ later)
      | _, _ => None
      end
  end.

Record progress := {
  searched : bool;
  line_index : nat;
  previous_end : nat;
  replacements : list Replacement;
  fuzzy : list PatchFuzzyMatch;
}.

(** Locating the context line of a hunk, when it has one. *)
Definition seek_context (ls : list text) (op h : nat) (path : SafePath) (c : UpdateChunk)
    (p : progress) : outcome EngineFailure progress :=
  match context c with
  | None => Ok p
  | Some t =>
      match seek_sequence ls (searched p) [t] (line_index p) false with
      | None => Panic
      | Some (None, _) =>
          Err (at_hunk (failure "context_not_found"
                 (lit "failed to find hunk context in " ++ path_text path)) op h path)
      | Some (Some (index, k), searched') =>
          (let? fuzzy' := audit_match (fuzzy p) op h path index k in
           Ok {| searched := searched'; line_index := index + 1; previous_end := previous_end p;
                 replacements := replacements p; fuzzy := fuzzy' |})%outcome
      end
  end.

(** Locating the expected lines. *)
Definition seek_old (ls : list text) (op h : nat) (path : SafePath) (c : UpdateChunk)
    (p : progress) : outcome EngineFailure (nat * MatchKind * bool) :=
  if bool_decide (old_lines c = [])
  then Ok (if bool_decide (is_Some (context c)) then line_index p else length ls, Exact, searched p)
  else
    match seek_sequence ls (searched p) (old_lines c) (line_index p) (eof c) with
    | None => Panic
    | Some (None, _) =>
        Err (at_hunk (failure "expected_lines_not_found"
               (lit "failed to find expected lines in " ++ path_text path)) op h path)
    | Some (Some (start, k), searched') => Ok (start, k, searched')
    end.

(** The body of the loop over the hunks. *)
Definition derive_hunk (ls : list text) (op h : nat) (path : SafePath) (c : UpdateChunk)
    (p : progress) : outcome EngineFailure progress :=
  (let? p1 := seek_context ls op h path c p in
   let? (start, k, searched') := seek_old ls op h path c p1 in
   if (start <? previous_end p1)%nat
   then Err (at_hunk (failure "overlapping_hunks"
               (lit "update hunks are not source-ordered and non-overlapping")) op h path)
   else
     let? fuzzy' := audit_match (fuzzy p1) op h path start k in
     let? added := expect (chunk_replacements start c (context_indices c) 0 0) in
     let end_ := (start + length (old_lines c))%nat in
     Ok {| searched := searched'; line_index := end_; previous_end := end_;
           replacements := replacements p1 ++ added; fuzzy := fuzzy' |})%outcome.

Fixpoint derive_hunks (ls : list text) (op h : nat) (path : SafePath) (chunks : list UpdateChunk)
    (p : progress) : outcome EngineFailure progress :=
  match chunks with
  | [] => Ok p
  | c :: rest =>
      (let? p' := derive_hunk ls op h path c p in derive_hunks ls op (S h) path rest p')%outcome
  end.

(** [sort_by_key(|(start, _, _)| *start)], stable. *)
Fixpoint insert_replacement (r : Replacement) (l : list Replacement) : list Replacement :=
  match l with
  | [] => [r]
  | r' :: rest => if (r.1.1 <=? r'.1.1)%nat then r :: l else r' :: insert_replacement r rest
  end.
Definition sort_replacements (l : list Replacement) : list Replacement :=
  foldr insert_replacement [] l.

Fixpoint overlap (l : list Replacement) : bool :=
  match l with
  | (s1, o1, _) :: (((s2, _, _) :: _) as rest) => (s2 <? s1 + o1)%nat || overlap rest
  | _ => false
  end.

Definition derive_update (contents : text) (path : SafePath) (chunks : list UpdateChunk)
    (op : nat) (fuzzy_matches : list PatchFuzzyMatch)
  : outcome EngineFailure (text * list PatchFuzzyMatch) :=
  let source := parse contents in
  (let? p := derive_hunks (map line_text (lines source)) op 0 path chunks
     {| searched := false; line_index := 0; previous_end := 0; replacements := [];
        fuzzy := fuzzy_matches |} in
   let sorted := sort_replacements (replacements p) in
   if overlap sorted
   then Err (at_ (failure "overlapping_hunks" (lit "derived replacements overlap")) op path)
   else let? result := expect (apply source sorted) in Ok (result, fuzzy p))%outcome.

(** ** Searching is the reference *)

Definition view (k : MatchKind) : text → text :=
  match k with
  | Exact => λ t, t
  | Rstrip => trim_end
  | Trim => trim
  | Unicode => normalize_unicode
  end.

(** The first position under the strictest view that has one. *)
Fixpoint seek_views (ls pattern : list text) (start : nat) (eof : bool) (ks : list MatchKind)
  : option (nat * MatchKind) :=
  match ks with
  | [] => None
  | k :: ks =>
      match naive_seek (map (view k) ls) (map (view k) pattern) start eof with
      | Some index => Some (index, k)
      | None => seek_views ls pattern start eof ks
      end
  end.

Lemma first_match_single (ls : list text) t index :
  first_match [t] ls index = head (positions ls t index).
Proof.
  revert index. induction ls as [|l ls IH]; intros index; [done|]. simpl. rewrite take_0.
  do 2 case_bool_decide; try congruence; done.
Qed.

Lemma positions_from ls t index start :
  let found := positions ls t index in
  found !! partition_point (λ p, p <? start)%nat found =
    first_match [t] (drop (start - index) ls) (Nat.max start index).
Proof.
  revert index. induction ls as [|l ls IH]; intros index; cbv zeta.
  { rewrite drop_nil. done. }
  destruct (le_lt_dec start index) as [Hle|Hlt].
  - replace (start - index)%nat with 0%nat by lia. rewrite drop_0, Nat.max_r by done.
    rewrite first_match_single. cbn [positions].
    specialize (IH (S index)). cbv zeta in IH.
    replace (start - S index)%nat with 0%nat in IH by lia.
    rewrite drop_0, Nat.max_r, first_match_single in IH by lia.
    case_bool_decide; [|done]. cbn [partition_point].
    by replace (index <? start)%nat with false by lia.
  - replace (start - index)%nat with (S (start - S index)) by lia. cbn [drop].
    rewrite Nat.max_l by lia. specialize (IH (S index)). cbv zeta in IH.
    rewrite Nat.max_l in IH by lia. cbn [positions]. case_bool_decide; [|done].
    cbn [partition_point]. by replace (index <? start)%nat with true by lia.
Qed.

Lemma indexed_naive ls t start : indexed ls t start = naive_seek ls [t] start false.
Proof.
  unfold indexed, naive_seek. pose proof (positions_from ls t 0 start) as H. cbv zeta in H.
  rewrite H. by rewrite Nat.sub_0_r, Nat.max_0_r.
Qed.

Lemma seek_sequence_views ls searched pattern start eof :
  ∃ searched', seek_sequence ls searched pattern start eof =
    Some (if bool_decide (pattern = []) then Some (start, Exact)
          else seek_views ls pattern start eof [Exact; Rstrip; Trim; Unicode], searched').
Proof.
  unfold seek_sequence. case_bool_decide as Hne; [by eexists|].
  assert (map (view Exact) ls = ls) as Hls by apply map_id.
  assert (map (view Exact) pattern = pattern) as Hpat by apply map_id.
  destruct (_ || _) eqn:Hshort.
  - eexists. do 2 f_equal. symmetry.
    assert (∀ f : text → text, naive_seek (map f ls) (map f pattern) start eof = None) as Hnone.
    { intros f. apply naive_seek_short; [by destruct pattern|]. rewrite !length_map. lia. }
    cbn [seek_views]. by rewrite !Hnone.
  - eexists. cbn [seek_views]. rewrite Hls, Hpat. cbn [view].
    assert (match pattern with
            | [t] => if (length pattern =? 1)%nat && negb eof && searched
                     then Some (indexed ls t start)
                     else seek_sequence_layer ls pattern start eof
            | _ => seek_sequence_layer ls pattern start eof
            end = Some (naive_seek ls pattern start eof)) as ->.
    { destruct pattern as [|t [|u pattern]]; [done| |by apply seek_layer_is_naive].
      destruct (_ && searched) eqn:Hidx; [|by apply seek_layer_is_naive].
      rewrite indexed_naive. by destruct eof. }
    destruct (naive_seek ls pattern start eof); [done|].
    rewrite !seek_layer_is_naive by (by destruct pattern).
    do 3 (destruct (naive_seek (map _ ls) (map _ pattern) start eof); [done|]). done.
Qed.

(** The lines occur at a position under a view, at the very end with [eof]. *)
Definition located (ls pattern : list text) (eof : bool) (k : MatchKind) (i : nat) : Prop :=
  take (length pattern) (drop i (map (view k) ls)) = map (view k) pattern ∧
  (eof = true → (i + length pattern)%nat = length ls).

Definition strictness (k : MatchKind) : nat :=
  match k with Exact => 0 | Rstrip => 1 | Trim => 2 | Unicode => 3 end.

Lemma naive_located ls pattern start eof k :
  pattern ≠ [] →
  match naive_seek (map (view k) ls) (map (view k) pattern) start eof with
  | Some i => (start ≤ i)%nat ∧ located ls pattern eof k i ∧
      ∀ j, (start ≤ j < i)%nat → ¬ located ls pattern eof k j
  | None => ∀ j, (start ≤ j)%nat → ¬ located ls pattern eof k j
  end.
Proof.
  intros Hne. pose proof (naive_seek_spec (map (view k) ls) (map (view k) pattern) start eof) as Hn.
  assert (map (view k) pattern ≠ []) as Hne' by (by destruct pattern). specialize (Hn Hne').
  unfold located. destruct (naive_seek _ _ start eof) as [i|]; unfold matches_at in Hn;
    rewrite !length_map in Hn.
  - destruct Hn as (Hi & Hm & He). split_and!; [done|done| |].
    + intros ->. done.
    + intros j Hj [Hm' He']. destruct eof; [specialize (He' eq_refl); lia|]. by apply (He j).
  - intros j Hj [Hm He]. by apply (Hn j).
Qed.

(** Locating lines is exact: whatever was searched before (the index of single lines is
    invisible), the search never panics, finds the first position (with [eof] the very end)
    under the strictest of the four views under which the lines occur at all (exact, trailing
    blanks ignored, blanks ignored, typography normalised), and finds nothing only when
    there is no such position. *)
Lemma seek_sequence_exact ls pattern start eof :
  pattern ≠ [] →
  ∃ r, (∀ searched, ∃ searched', seek_sequence ls searched pattern start eof = Some (r, searched')) ∧
  match r with
  | Some (i, k) => (start ≤ i)%nat ∧ located ls pattern eof k i ∧
      (∀ j, (start ≤ j < i)%nat → ¬ located ls pattern eof k j) ∧
      ∀ k' j, (strictness k' < strictness k)%nat → (start ≤ j)%nat → ¬ located ls pattern eof k' j
  | None => ∀ k j, (start ≤ j)%nat → ¬ located ls pattern eof k j
  end.
Proof.
  intros Hne. exists (seek_views ls pattern start eof [Exact; Rstrip; Trim; Unicode]). split.
  { intros searched. destruct (seek_sequence_views ls searched pattern start eof) as [s' ->].
    rewrite bool_decide_eq_false_2 by done. by exists s'. }
  pose proof (naive_located ls pattern start eof) as Hn. cbn [seek_views].
  pose proof (Hn Exact Hne). pose proof (Hn Rstrip Hne). pose proof (Hn Trim Hne).
  pose proof (Hn Unicode Hne). clear Hn.
  repeat match goal with |- context [naive_seek (map (view ?k) ls) ?q start eof] =>
    destruct (naive_seek (map (view k) ls) q start eof) end;
  destruct_and?; split_and?; try done; intros [] j; simpl; try lia; auto.
Qed.

Lemma seek_sequence_exact_witness :
  ∃ r, (∀ searched, ∃ searched',
    seek_sequence [lit "a "; lit "b"; lit "a"] searched [lit "a"] 0 false = Some (r, searched')) ∧
  match r with
  | Some (i, k) => (0 ≤ i)%nat ∧ located [lit "a "; lit "b"; lit "a"] [lit "a"] false k i ∧
      (∀ j, (0 ≤ j < i)%nat → ¬ located [lit "a "; lit "b"; lit "a"] [lit "a"] false k j) ∧
      ∀ k' j, (strictness k' < strictness k)%nat → (0 ≤ j)%nat →
        ¬ located [lit "a "; lit "b"; lit "a"] [lit "a"] false k' j
  | None => ∀ k j, (0 ≤ j)%nat → ¬ located [lit "a "; lit "b"; lit "a"] [lit "a"] false k j
  end.
Proof.
  exact (seek_sequence_exact [lit "a "; lit "b"; lit "a"] [lit "a"] 0 false ltac:(discriminate)).
Defined.

(** ** Splicing: the specification *)

(** A hunk as its author writes it. *)
Inductive edit := Keep (t : text) | Del (t : text) | Add (t : text).

Fixpoint olds (s : list edit) : list text :=
  match s with
  | [] => []
  | Keep t :: s | Del t :: s => t :: olds s
  | Add _ :: s => olds s
  end.
Fixpoint news (s : list edit) : list text :=
  match s with
  | [] => []
  | Keep t :: s | Add t :: s => t :: news s
  | Del _ :: s => news s
  end.
(** The positions of the kept lines among the old and the new ones. *)
Fixpoint keeps (s : list edit) (o n : nat) : list (nat * nat) :=
  match s with
  | [] => []
  | Keep _ :: s => (o, n) :: keeps s (S o) (S n)
  | Del _ :: s => keeps s (S o) n
  | Add _ :: s => keeps s o (S n)
  end.

Record Hunk := { hunk_context : option text; script : list edit; hunk_eof : bool }.

(** The chunk that the parser builds for a hunk. *)
Definition chunk_of (h : Hunk) : UpdateChunk :=
  {| context := hunk_context h; old_lines := olds (script h); new_lines := news (script h);
     context_indices := keeps (script h) 0 0; eof := hunk_eof h |}.

(** What a script makes of the source lines in front of it: kept lines stay as they are in
    the source, with their own ending, deleted ones go, added ones get the file's ending. *)
Fixpoint run_script (file : SourceFile) (s : list edit) (src : list SourceLine) : text :=
  match s with
  | [] => []
  | Keep _ :: s =>
      match src with
      | l :: src => render_line file l ++ run_script file s src
      | [] => run_script file s []
      end
  | Del _ :: s => run_script file s (drop 1 src)
  | Add t :: s => t ++ ending_text (preferred file) ++ run_script file s src
  end.

Definition render_all (file : SourceFile) (ls : list SourceLine) : text :=
  concat (map (render_line file) ls).

(** The file with hunks placed at positions: everything else is kept. *)
Fixpoint splice (file : SourceFile) (i : nat) (placed : list (nat * Hunk)) : text :=
  match placed with
  | [] => render_all file (drop i (lines file))
  | (start, h) :: rest =>
      render_all file (take (start - i) (drop i (lines file))) ++
      run_script file (script h) (drop start (lines file)) ++
      splice file (start + length (olds (script h))) rest
  end.

(** The hunks are placed in order, apart from each other, each where its old lines occur. *)
Fixpoint placed_ok (file : SourceFile) (i : nat) (placed : list (nat * Hunk)) : Prop :=
  match placed with
  | [] => (i ≤ length (lines file))%nat
  | (start, h) :: rest =>
      (i ≤ start)%nat ∧
      (olds (script h) = [] ∨
       ∃ k, located (map line_text (lines file)) (olds (script h)) (hunk_eof h) k start) ∧
      placed_ok file (start + length (olds (script h))) rest
  end.

(** The replacements lie in order and apart, from a position on. *)
Fixpoint chain (lo : nat) (rs : list Replacement) : Prop :=
  match rs with
  | [] => True
  | (start, old_len, _) :: rest => (lo ≤ start)%nat ∧ chain (start + old_len) rest
  end.

Lemma chain_weaken lo lo' rs : chain lo rs → (lo' ≤ lo)%nat → chain lo' rs.
Proof. destruct rs as [|[[s o] n] rs]; simpl; [done|]. intros [? ?] ?. split; [lia|done]. Qed.

Lemma sort_chain lo rs : chain lo rs → sort_replacements rs = rs.
Proof.
  revert lo. induction rs as [|[[s o] n] rs IH]; intros lo; [done|]. intros [_ Hc].
  cbn [sort_replacements foldr]. fold (sort_replacements rs). rewrite (IH _ Hc).
  destruct rs as [|[[s' o'] n'] rs]; [done|]. destruct Hc as [Hle _]. simpl.
  by replace (s <=? s')%nat with true by lia.
Qed.

Lemma overlap_chain lo rs : chain lo rs → overlap rs = false.
Proof.
  revert lo. induction rs as [|[[s o] n] rs IH]; intros lo; [done|]. intros [_ Hc].
  specialize (IH _ Hc). destruct rs as [|[[s' o'] n'] rs]; [done|]. destruct Hc as [Hle _].
  change ((s' <? s + o)%nat || overlap ((s', o', n') :: rs) = false).
  apply orb_false_iff. split; [lia|exact IH].
Qed.

Section splicing.
Context (file : SourceFile).
Let L := lines file.

Definition flat (added : list text) : text :=
  concat (map (λ t, t ++ ending_text (preferred file)) added).

Lemma render_split i j :
  (i ≤ j)%nat → render_all file (drop i L) =
    render_all file (take (j - i) (drop i L)) ++ render_all file (drop j L).
Proof.
  intros Hij. unfold render_all. rewrite <- concat_app, <- map_app. do 2 f_equal.
  rewrite <- (take_drop (j - i) (drop i L)) at 1. rewrite drop_drop. do 2 f_equal. lia.
Qed.

Lemma render_take i j k :
  (i ≤ j ≤ k)%nat → render_all file (take (k - i) (drop i L)) =
    render_all file (take (j - i) (drop i L)) ++ render_all file (take (k - j) (drop j L)).
Proof.
  intros Hijk. unfold render_all. rewrite <- concat_app, <- map_app. do 2 f_equal.
  replace (k - i)%nat with ((j - i) + (k - j))%nat by lia. rewrite <- take_take_drop.
  rewrite drop_drop. do 3 f_equal. lia.
Qed.

Lemma slice_lines_ok {A} (ls : list A) a b :
  (a ≤ b ≤ length ls)%nat → slice_lines ls a b = Some (take (b - a) (drop a ls)).
Proof.
  intros Hab. unfold slice_lines.
  by replace ((a <=? b)%nat && (b <=? length ls)%nat) with true by lia.
Qed.

(** Applying from an earlier position keeps the lines in between. *)
Lemma apply_earlier i j rs Y :
  (i ≤ j ≤ length L)%nat → chain j rs → apply_from file j rs = Some Y →
  apply_from file i rs = Some (render_all file (take (j - i) (drop i L)) ++ Y).
Proof.
  intros Hij Hc. destruct rs as [|[[s o] n] rs]; cbn [apply_from].
  - fold L. rewrite !slice_lines_ok by lia. simpl. intros [= <-]. f_equal.
    fold (render_all file (take (length L - i) (drop i L))).
    fold (render_all file (take (length L - j) (drop j L))). by apply render_take; lia.
  - destruct Hc as [Hs _]. fold L. unfold slice_lines.
    destruct (_ && _) eqn:Hb; [|done]. replace ((i <=? s)%nat && (s <=? length L)%nat) with true by lia.
    destruct (apply_from file (s + o) rs) as [tail|]; [|done]. intros [= <-]. f_equal.
    pose proof (render_take i j s) as Hr. unfold render_all at 1 3 in Hr. rewrite Hr by lia.
    by rewrite <- app_assoc.
Qed.

(** *** One hunk *)

Lemma olds_app s1 s2 : olds (s1 ++ s2) = olds s1 ++ olds s2.
Proof. induction s1 as [|[]]; simpl; congruence. Qed.
Lemma news_app s1 s2 : news (s1 ++ s2) = news s1 ++ news s2.
Proof. induction s1 as [|[]]; simpl; congruence. Qed.

Lemma flat_app a b : flat (a ++ b) = flat a ++ flat b.
Proof. unfold flat. by rewrite map_app, concat_app. Qed.

(** The lines that the pending group adds. *)
Definition pending (ns : list text) (n0 n : nat) : list text := take (n - n0) (drop n0 ns).

(** The group between two kept lines, as [chunk_replacements] emits it. *)
Lemma group_spec start c o0 o n0 n rest Y :
  (o0 ≤ o)%nat → (n0 ≤ n ≤ length (new_lines c))%nat → (start + o ≤ length L)%nat →
  chain (start + o) rest → apply_from file (start + o) rest = Some Y →
  ∃ here,
    (if (o0 =? o)%nat && (n0 =? n)%nat then Some []
     else (λ r, [r]) <$> replacement start o0 o (new_lines c) n0 n) = Some here ∧
    chain (start + o0) (here ++ rest) ∧
    ∀ i, (i ≤ start + o0)%nat → apply_from file i (here ++ rest) = Some
      (render_all file (take (start + o0 - i) (drop i L)) ++ flat (pending (new_lines c) n0 n) ++ Y).
Proof.
  intros Ho Hn Hlen Hc HY. destruct ((o0 =? o)%nat && (n0 =? n)%nat) eqn:Hb.
  - assert (o0 = o ∧ n0 = n) as [-> ->] by lia. exists []. split; [done|]. split; [done|].
    unfold pending. rewrite Nat.sub_diag. simpl. intros i Hi. by apply apply_earlier; [lia|..].
  - unfold replacement. rewrite slice_lines_ok by lia.
    replace (o0 <=? o)%nat with true by lia. eexists. split; [done|]. split.
    + split; [lia|]. by replace (start + o0 + (o - o0))%nat with (start + o)%nat by lia.
    + intros i Hi. cbn [app apply_from]. fold L. rewrite slice_lines_ok by lia.
      replace (start + o0 + (o - o0))%nat with (start + o)%nat by lia. by rewrite HY.
Qed.

Lemma chunk_replacements_spec start c s o n o0 n0 rest Y :
  (o0 ≤ o)%nat → (n0 ≤ n)%nat → length (old_lines c) = (o + length (olds s))%nat →
  (n ≤ length (new_lines c))%nat → drop n (new_lines c) = news s →
  (start + length (old_lines c) ≤ length L)%nat →
  chain (start + length (old_lines c)) rest →
  apply_from file (start + length (old_lines c)) rest = Some Y →
  ∃ rs, chunk_replacements start c (keeps s o n) o0 n0 = Some rs ∧
    chain (start + o0) (rs ++ rest) ∧
    ∀ i, (i ≤ start + o0)%nat → apply_from file i (rs ++ rest) = Some
      (render_all file (take (start + o0 - i) (drop i L)) ++
       flat (pending (new_lines c) n0 n) ++ run_script file s (drop (start + o) L) ++ Y).
Proof.
  revert o n o0 n0. induction s as [|[t|t|t] s IH]; intros o n o0 n0 Ho Hn Hold Hnew Hdrop Hlen Hc HY.
  - simpl in Hold. rewrite Nat.add_0_r in Hold. cbn [keeps chunk_replacements run_script].
    assert (length (new_lines c) = n) as Hn'.
    { apply (f_equal length) in Hdrop. rewrite length_drop in Hdrop. simpl in Hdrop. lia. }
    rewrite Hold in Hlen, Hc, HY |- *. rewrite Hn'. apply group_spec; (done || lia).
  - simpl in Hold, Hdrop. cbn [keeps chunk_replacements].
    destruct (IH (S o) (S n) (S o) (S n)) as (later & Hl & Hlc & Hla);
      [lia|lia|lia| | |done|done|done|].
    { apply (f_equal length) in Hdrop. rewrite length_drop in Hdrop. simpl in Hdrop. lia. }
    { replace (S n) with (n + 1)%nat by lia. by rewrite <- drop_drop, Hdrop. }
    replace (o + 1)%nat with (S o) by lia. replace (n + 1)%nat with (S n) by lia. rewrite Hl.
    destruct (lookup_lt_is_Some_2 L (start + o)) as [l Hl']; [lia|].
    pose proof (Hla (start + o)%nat ltac:(lia)) as Hat. rewrite (drop_S _ _ _ Hl').
    destruct (group_spec start c o0 o n0 n (later ++ rest) _ Ho ltac:(lia) ltac:(lia)
      (chain_weaken _ (start + o)%nat _ Hlc ltac:(lia)) Hat) as (here & Hh & Hhc & Hha).
    rewrite Hh. exists (here ++ later). rewrite <- app_assoc. split; [done|]. split; [done|].
    intros i Hi. rewrite Hha by done. do 3 f_equal. cbn [run_script].
    replace (start + S o - (start + o))%nat with 1%nat by lia.
    rewrite (drop_S _ _ _ Hl'). unfold pending. rewrite Nat.sub_diag.
    replace (start + S o)%nat with (S (start + o)) by lia.
    unfold render_all. cbn [take map concat]. rewrite take_0. simpl.
    by rewrite app_nil_r, <- !app_assoc.
  - simpl in Hold, Hdrop. cbn [keeps run_script]. rewrite drop_drop.
    replace (start + o + 1)%nat with (start + S o)%nat by lia.
    apply IH; (done || lia).
  - simpl in Hdrop. cbn [keeps run_script].
    assert (S n ≤ length (new_lines c))%nat as Hn'.
    { apply (f_equal length) in Hdrop. rewrite length_drop in Hdrop. simpl in Hdrop. lia. }
    destruct (IH o (S n) o0 n0) as (rs & Hrs & Hrc & Hra); [lia|lia|done|done| |done|done|done|].
    { replace (S n) with (n + 1)%nat by lia. by rewrite <- drop_drop, Hdrop. }
    exists rs. split; [done|]. split; [done|]. intros i Hi. rewrite Hra by done. do 2 f_equal.
    assert (pending (new_lines c) n0 (S n) = pending (new_lines c) n0 n ++ [t]) as ->.
    { unfold pending. replace (S n - n0)%nat with (S (n - n0)) by lia. apply take_S_r.
      rewrite lookup_drop. replace (n0 + (n - n0))%nat with n by lia.
      rewrite <- (Nat.add_0_r n), <- lookup_drop, Hdrop. done. }
    rewrite flat_app. unfold flat at 2. simpl. rewrite app_nil_r. by rewrite <- !app_assoc.
Qed.

(** *** Every hunk in turn *)

Let views := map line_text L.

Lemma seek_found pattern searched start eof i k searched' :
  pattern ≠ [] → seek_sequence views searched pattern start eof = Some (Some (i, k), searched') →
  (i + length pattern ≤ length L)%nat ∧ (start ≤ i)%nat ∧ located views pattern eof k i.
Proof.
  intros Hne Hs. destruct (seek_sequence_views views searched pattern start eof) as [s' Hr].
  rewrite Hs, bool_decide_eq_false_2 in Hr by done.
  assert (seek_views views pattern start eof [Exact; Rstrip; Trim; Unicode] = Some (i, k)) as Hv
    by congruence.
  clear Hr. assert ((start ≤ i)%nat ∧ located views pattern eof k i) as [Hi Hloc].
  { revert Hv. generalize [Exact; Rstrip; Trim; Unicode]. intros ks.
    induction ks as [|k' ks IH]; cbn [seek_views]; [done|].
    pose proof (naive_located views pattern start eof k' Hne) as Hn.
    destruct (naive_seek _ _ start eof); [|done]. intros [= -> ->]. naive_solver. }
  split_and!; [|done|done]. destruct Hloc as [Hm _].
  assert (matches_at (map (view k) views) (map (view k) pattern) i) as Hm'
    by (unfold matches_at; by rewrite length_map).
  apply matches_within in Hm'; [|by destruct pattern].
  rewrite !length_map in Hm'. unfold views in Hm'. by rewrite length_map in Hm'.
Qed.

Lemma seek_no_panic searched pattern start eof : seek_sequence views searched pattern start eof ≠ None.
Proof. destruct (seek_sequence_views views searched pattern start eof) as [? ->]. done. Qed.

Lemma audit_no_panic ms op h path i k : audit_match ms op h path i k ≠ Panic.
Proof. unfold audit_match. repeat case_match; done. Qed.

Lemma seek_context_spec op h path c p :
  (line_index p ≤ length L)%nat →
  seek_context views op h path c p ≠ Panic ∧
  ∀ p', seek_context views op h path c p = Ok p' →
    (line_index p' ≤ length L)%nat ∧ previous_end p' = previous_end p ∧
    replacements p' = replacements p.
Proof.
  intros Hp. unfold seek_context. destruct (context c) as [t|]; [|naive_solver].
  destruct (seek_sequence views (searched p) [t] (line_index p) false) as [[[[i k]|] s']|] eqn:Hs;
    [|done|by apply seek_no_panic in Hs].
  apply seek_found in Hs as (Hi & _); [|done]. split.
  - apply obind_no_panic; [apply audit_no_panic|done].
  - intros p' (fz & _ & [= <-])%obind_ok. simpl in Hi |- *. split_and!; [lia|done|done].
Qed.

Lemma seek_old_spec op h path c p :
  (line_index p ≤ length L)%nat →
  seek_old views op h path c p ≠ Panic ∧
  ∀ start k s', seek_old views op h path c p = Ok (start, k, s') →
    (start + length (old_lines c) ≤ length L)%nat ∧
    (old_lines c = [] ∨ located views (old_lines c) (eof c) k start).
Proof.
  intros Hp. unfold seek_old. case_bool_decide as Ho.
  { split; [done|]. intros start k s' [= <- _ _]. rewrite Ho. simpl. split; [|by left].
    unfold views. rewrite length_map. case_bool_decide; lia. }
  destruct (seek_sequence _ _ _ _ _) as [[[[i k]|] s']|] eqn:Hs;
    [|done|by apply seek_no_panic in Hs].
  apply seek_found in Hs as (Hi & _ & Hl); [|done]. split; [done|].
  intros ? ? ? [= <- <- <-]. auto.
Qed.

(** The replacements of one placed hunk, in front of those that follow. *)
Lemma hunk_spec start h rest Y :
  (start + length (olds (script h)) ≤ length L)%nat →
  chain (start + length (olds (script h))) rest →
  apply_from file (start + length (olds (script h))) rest = Some Y →
  ∃ rs, chunk_replacements start (chunk_of h) (context_indices (chunk_of h)) 0 0 = Some rs ∧
    chain start (rs ++ rest) ∧
    ∀ i, (i ≤ start)%nat → apply_from file i (rs ++ rest) = Some
      (render_all file (take (start - i) (drop i L)) ++
       run_script file (script h) (drop start L) ++ Y).
Proof.
  intros Hlen Hc HY.
  destruct (chunk_replacements_spec start (chunk_of h) (script h) 0 0 0 0 rest Y)
    as (rs & Hrs & Hrc & Hra); try (done || lia).
  rewrite Nat.add_0_r in *. exists rs. split; [done|]. split; [done|].
  intros i Hi. rewrite Hra by done. unfold pending. simpl. done.
Qed.

Lemma chunk_replacements_no_panic start h :
  (start + length (olds (script h)) ≤ length L)%nat →
  ∃ rs, chunk_replacements start (chunk_of h) (context_indices (chunk_of h)) 0 0 = Some rs.
Proof.
  intros Hlen. destruct (hunk_spec start h [] (render_all file
    (take (length L - (start + length (olds (script h)))) (drop (start + length (olds (script h))) L))))
    as (rs & Hrs & _); [done|done| |by exists rs].
  cbn [apply_from]. fold L. by rewrite slice_lines_ok by lia.
Qed.

Lemma derive_hunk_spec op n path h p :
  (line_index p ≤ length L)%nat → (previous_end p ≤ length L)%nat →
  derive_hunk views op n path (chunk_of h) p ≠ Panic ∧
  ∀ p', derive_hunk views op n path (chunk_of h) p = Ok p' →
    ∃ start rs, chunk_replacements start (chunk_of h) (context_indices (chunk_of h)) 0 0 = Some rs ∧
      replacements p' = replacements p ++ rs ∧ (previous_end p ≤ start)%nat ∧
      line_index p' = (start + length (olds (script h)))%nat ∧
      previous_end p' = (start + length (olds (script h)))%nat ∧
      (start + length (olds (script h)) ≤ length L)%nat ∧
      (olds (script h) = [] ∨ ∃ k, located views (olds (script h)) (hunk_eof h) k start).
Proof.
  intros Hli Hpe. unfold derive_hunk.
  destruct (seek_context_spec op n path (chunk_of h) p Hli) as [Hn1 Hs1]. split.
  - apply obind_no_panic; [done|]. intros p1 (Hl1 & _)%Hs1.
    destruct (seek_old_spec op n path (chunk_of h) p1 Hl1) as [Hn2 Hs2].
    apply obind_no_panic; [done|]. intros [[start k] s'] [Hlen _]%Hs2.
    destruct (_ <? _)%nat; [done|]. apply obind_no_panic; [apply audit_no_panic|]. intros fz _.
    by destruct (chunk_replacements_no_panic start h Hlen) as [rs ->].
  - intros p' (p1 & Hp1 & Hk)%obind_ok. destruct (Hs1 _ Hp1) as (Hl1 & Hpe1 & Hr1).
    destruct (seek_old_spec op n path (chunk_of h) p1 Hl1) as [_ Hs2].
    apply obind_ok in Hk as ([[start k] s'] & Ho & Hk). destruct (Hs2 _ _ _ Ho) as [Hlen Hloc].
    destruct (Nat.ltb_spec start (previous_end p1)); [done|].
    apply obind_ok in Hk as (fz & _ & Hk). apply obind_ok in Hk as (rs & Hrs & [= <-]).
    apply expect_ok in Hrs. exists start, rs. simpl in *.
    split_and!; try done; [by rewrite Hr1|lia|naive_solver].
Qed.

Lemma derive_hunks_spec op n path hs p :
  (line_index p ≤ length L)%nat → (previous_end p ≤ length L)%nat →
  derive_hunks views op n path (chunk_of <$> hs) p ≠ Panic ∧
  ∀ p', derive_hunks views op n path (chunk_of <$> hs) p = Ok p' →
    ∃ placed rs, placed.*2 = hs ∧ replacements p' = replacements p ++ rs ∧
      placed_ok file (previous_end p) placed ∧ chain (previous_end p) rs ∧
      apply_from file (previous_end p) rs = Some (splice file (previous_end p) placed).
Proof.
  revert n p. induction hs as [|h hs IH]; intros n p Hli Hpe; csimpl.
  { split; [done|]. intros p' [= <-]. exists [], []. rewrite app_nil_r.
    split_and!; try done. cbn [apply_from splice]. fold L. rewrite slice_lines_ok by lia.
    simpl. do 3 f_equal. rewrite take_ge; [done|]. rewrite length_drop. lia. }
  cbn [derive_hunks]. destruct (derive_hunk_spec op n path h p Hli Hpe) as [Hn1 Hs1]. split.
  - apply obind_no_panic; [done|]. intros p1 (start & rs & _ & _ & _ & Hl1 & Hp1 & Hlen & _)%Hs1.
    apply IH; lia.
  - intros p' (p1 & Hp1 & Hk)%obind_ok.
    destruct (Hs1 _ Hp1) as (start & rs & Hrs & Hr1 & Hle & Hl1 & He1 & Hlen & Hloc).
    destruct (IH (S n) p1) as [_ IH1]; [lia|lia|].
    destruct (IH1 _ Hk) as (placed & rest & Hpl & Hr & Hok & Hc & Ha). rewrite He1 in *.
    destruct (hunk_spec start h rest _ Hlen Hc Ha) as (rs' & Hrs' & Hchain & Happ).
    assert (rs' = rs) as -> by congruence.
    exists ((start, h) :: placed), (rs ++ rest). csimpl. split_and!; [by rewrite Hpl| |done|done|done| |].
    + by rewrite Hr, Hr1, <- app_assoc.
    + by eapply chain_weaken.
    + cbn [splice]. fold L. by apply Happ.
Qed.
End splicing.

(** *** Reading and writing a file *)

Definition newline (c : Z) : bool := (c =? 10) || (c =? 13).

(** The ending that a file without a final line ending is given. *)
Definition missing_ending (file : SourceFile) (contents : text) : text :=
  match last contents with
  | Some c => if newline c then [] else ending_text (preferred file)
  | None => []
  end.

Lemma missing_ending_app file a c b :
  newline c = true → missing_ending file (a ++ c :: b) = missing_ending file b.
Proof.
  intros Hc. unfold missing_ending. rewrite last_app_cons, last_cons.
  destruct (last b); [done|]. by rewrite Hc.
Qed.

Lemma parse_lines_render file n current rest :
  (length rest ≤ n)%nat → Forall (λ c, newline c = false) current →
  render_all file (parse_lines current rest) =
    current ++ rest ++ missing_ending file (current ++ rest).
Proof.
  revert current rest. induction n as [|n IH]; intros current [|c rest] Hn Hcur;
    try (simpl in Hn; lia).
  1, 2: cbn [parse_lines]; destruct current as [|x current _] using rev_ind; [done|];
    apply Forall_app in Hcur as [_ [Hx _]%Forall_cons];
    rewrite bool_decide_eq_false_2 by (by destruct current);
    unfold render_all, render_line, missing_ending;
    rewrite app_nil_r, last_snoc, Hx; simpl; by rewrite app_nil_r.
  assert (∀ e used rest', ending_text e = used → length rest' ≤ n → (∃ d u, used = u ++ [d] ∧ newline d = true) →
    render_all file ({| line_text := current; ending := Some e |} :: parse_lines [] rest') =
      current ++ (used ++ rest') ++ missing_ending file (current ++ used ++ rest'))%nat as Hline.
  { intros e used rest' He Hlen (d & u & -> & Hd).
    unfold render_all. cbn [map concat]. fold (render_all file (parse_lines [] rest')).
    rewrite IH by (done || by constructor). unfold render_line. simpl. rewrite He.
    replace (current ++ (u ++ [d]) ++ rest') with ((current ++ u) ++ d :: rest')
      by (rewrite <- !app_assoc; done).
    rewrite missing_ending_app by done. by rewrite <- !app_assoc. }
  simpl in Hn. cbn [parse_lines]. destruct (Z.eqb_spec c 13) as [->|H13].
  - destruct rest as [|d rest]; [by apply (Hline Cr [13] []); [|simpl; lia|exists 13, []]|].
    simpl in Hn. destruct (Z.eqb_spec d 10) as [->|H10].
    + apply (Hline CrLf [13; 10] rest); [done|lia|by exists 10, [13]].
    + apply (Hline Cr [13] (d :: rest)); [done|simpl; lia|by exists 13, []].
  - destruct (Z.eqb_spec c 10) as [->|H10].
    + apply (Hline Lf [10] rest); [done|lia|by exists 10, []].
    + rewrite IH; [by rewrite <- !app_assoc|lia|]. apply Forall_app. split; [done|].
      constructor; [unfold newline; lia|constructor].
Qed.

Lemma parse_render contents :
  render_all (parse contents) (lines (parse contents)) =
    contents ++ missing_ending (parse contents) contents.
Proof. by apply (parse_lines_render _ (length contents) []). Qed.

Lemma derive_update_spec contents path hs op fuzzy_matches :
  let file := parse contents in
  let r := derive_update contents path (chunk_of <$> hs) op fuzzy_matches in
  r ≠ Panic ∧
  (∀ out fuzzy', r = Ok (out, fuzzy') →
     ∃ placed, placed.*2 = hs ∧ placed_ok file 0 placed ∧ out = splice file 0 placed) ∧
  splice file 0 [] = contents ++ missing_ending file contents.
Proof.
  intros file r. subst r. unfold derive_update. fold file.
  set (p0 := {| searched := false; line_index := 0; previous_end := 0; replacements := [];
                fuzzy := fuzzy_matches |}).
  destruct (derive_hunks_spec file op 0 path hs p0) as [Hn Hs]; [simpl; lia..|].
  assert (∀ p, derive_hunks (map line_text (lines file)) op 0 path (chunk_of <$> hs) p0 = Ok p →
    ∃ placed, placed.*2 = hs ∧ placed_ok file 0 placed ∧
      sort_replacements (replacements p) = replacements p ∧ overlap (replacements p) = false ∧
      apply file (replacements p) = Some (splice file 0 placed)) as Hplaced.
  { intros p Hp. destruct (Hs p Hp) as (placed & rs & Hpl & -> & Hok & Hc & Ha).
    exists placed. change (replacements p0 ++ rs) with rs. split_and!; try done.
    - by eapply sort_chain.
    - by eapply overlap_chain. }
  split_and!.
  - apply obind_no_panic; [done|]. intros p (placed & _ & _ & -> & -> & ->)%Hplaced. done.
  - intros out fz (p & Hp & Hk)%obind_ok. destruct (Hplaced p Hp) as (placed & ? & ? & Hsrt & Hov & Ha).
    rewrite Hsrt, Hov, Ha in Hk. simpl in Hk. injection Hk as <- _. eauto.
  - cbn [splice]. rewrite drop_0. apply parse_render.
Qed.

(** C6: an update is exactly the splice of its hunks: deriving it never panics, and when it
    succeeds there are positions for all hunks, in order and apart from each other, each
    where its old lines occur in the file, such that the result keeps every other line and
    every context line byte for byte, drops the deleted lines and adds the new ones with the
    file's preferred ending; without hunks the contents come back, with a final ending. *)
Theorem derive_update_splices contents path hs op fuzzy_matches :
  let file := parse contents in
  let r := derive_update contents path (chunk_of <$> hs) op fuzzy_matches in
  r ≠ Panic ∧
  (∀ out fuzzy', r = Ok (out, fuzzy') →
     ∃ placed, placed.*2 = hs ∧ placed_ok file 0 placed ∧ out = splice file 0 placed) ∧
  splice file 0 [] = contents ++ missing_ending file contents.
Proof. apply derive_update_spec. Qed.

Lemma derive_update_splices_witness :
  let contents := lit "a" ++ [13; 10] ++ lit "b " ++ [10] ++ lit "c" in
  let hs := [{| hunk_context := None; script := [Keep (lit "a"); Del (lit "b"); Add (lit "x")];
                hunk_eof := false |}] in
  let path := {| path_text := lit "f"; components := [lit "f"] |} in
  let r := derive_update contents path (chunk_of <$> hs) 0 [] in
  (∃ fuzzy', r = Ok (lit "a" ++ [13; 10] ++ lit "x" ++ [13; 10] ++ lit "c" ++ [13; 10], fuzzy')) ∧
  r ≠ Panic ∧
  (∀ out fuzzy', r = Ok (out, fuzzy') →
     ∃ placed, placed.*2 = hs ∧ placed_ok (parse contents) 0 placed ∧
       out = splice (parse contents) 0 placed) ∧
  splice (parse contents) 0 [] = contents ++ missing_ending (parse contents) contents.
Proof.
  cbv zeta. split; [eexists; vm_compute; reflexivity|].
  apply (derive_update_splices
    (lit "a" ++ [13; 10] ++ lit "b " ++ [10] ++ lit "c")
    {| path_text := lit "f"; components := [lit "f"] |}
    [{| hunk_context := None; script := [Keep (lit "a"); Del (lit "b"); Add (lit "x")];
        hunk_eof := false |}] 0 []).
Defined.
