(* ===== verification/PatchParser.v ===== *)
(** * Parsing patches

    [crates/rsi-apply-patch/core/src/patch_engine/parser.rs].  The parser's [cursor] runs
    over the lines between the two markers: the state keeps the lines that are left and the
    number of the current one, which appears in a message.  The contents of an added file
    are kept as text. *)

From S2P Require Import Prelude Text PatchCommon PatchUpdate.

Definition BEGIN_PATCH_MARKER : text := lit "*** Begin Patch".
Definition END_PATCH_MARKER : text := lit "*** End Patch".
Definition ADD_FILE_MARKER : text := lit "*** Add File: ".
Definition DELETE_FILE_MARKER : text := lit "*** Delete File: ".
Definition UPDATE_FILE_MARKER : text := lit "*** Update File: ".
Definition MOVE_TO_MARKER : text := lit "*** Move to: ".
Definition END_OF_FILE_MARKER : text := lit "*** End of File".

Inductive ParsedOperation :=
| PAdd (path : SafePath) (content : text)
| PUpdate (path : SafePath) (move_path : option SafePath) (chunks : list UpdateChunk)
| PDelete (path : SafePath).

(** [document.replace("\r\n", "\n")] *)
Fixpoint replace_crlf (t : text) : text :=
  match t with
  | [] => []
  | c :: rest =>
      match rest with
      | d :: rest' =>
          if (c =? 13) && (d =? 10) then 10 :: replace_crlf rest' else c :: replace_crlf rest
      | [] => [c]
      end
  end.

(** [str::lines]: split after line feeds, dropping each with a carriage return before it;
    [current] holds the line so far. *)
Definition strip_cr (l : text) : text :=
  match last l with
  | Some c => if c =? 13 then take (length l - 1) l else l
  | None => l
  end.

Fixpoint str_lines (current t : text) : list text :=
  match t with
  | [] => if bool_decide (current = []) then [] else [current]
  | c :: rest =>
      if c =? 10 then strip_cr current :: str_lines [] rest else str_lines (current ++ [c]) rest
  end.

(** [while lines.last().is_some_and(String::is_empty) { lines.pop(); }] *)
Fixpoint drop_empty (l : list text) : list text :=
  match l with
  | [] => []
  | t :: rest =>
      match drop_empty rest with
      | [] => if bool_decide (t = []) then [] else [t]
      | rest' => t :: rest'
      end
  end.

Definition strip_prefix (p t : text) : option text :=
  if bool_decide (take (length p) t = p) then Some (drop (length p) t) else None.
Definition has_prefix (p t : text) : bool := bool_decide (take (length p) t = p).

Inductive OperationHeader := HAdd (path : text) | HDelete (path : text) | HUpdate (path : text).

Definition operation_header (line : text) : option OperationHeader :=
  match strip_prefix ADD_FILE_MARKER line with
  | Some path => Some (HAdd path)
  | None =>
      match strip_prefix DELETE_FILE_MARKER line with
      | Some path => Some (HDelete path)
      | None => HUpdate <$> strip_prefix UPDATE_FILE_MARKER line
      end
  end.

Definition is_header (line : text) : bool := bool_decide (is_Some (operation_header line)).

#[export] Instance OperationHeader_eq_dec : EqDecision OperationHeader.
Proof. solve_decision. Defined.

(** The lines left before the end marker, the index of the first, and the path budget. *)
Record PatchParser := { rest : list text; cursor : nat; path_bytes : Z }.

Definition parser_new (document : text) : outcome EngineFailure PatchParser :=
  let ls := drop_empty (str_lines [] (replace_crlf document)) in
  if negb (bool_decide (head ls = Some BEGIN_PATCH_MARKER))
  then Err (failure "invalid_patch" (lit "first line must be '*** Begin Patch'"))
  else if negb (bool_decide (last ls = Some END_PATCH_MARKER))
  then Err (failure "invalid_patch" (lit "last line must be '*** End Patch'"))
  else Ok {| rest := drop 1 (take (length ls - 1) ls); cursor := 1; path_bytes := 0 |}.

Definition parse_bounded_path (path : text) (p : PatchParser)
  : outcome EngineFailure (SafePath * PatchParser) :=
  (let? bytes := ok_or (checked_add usize_max (path_bytes p) (text_len path))
                   (failure "path_budget" (lit "patch path budget overflow")) in
   if MAXIMUM_PATCH_PATH_BYTES_TOTAL <? bytes
   then Err (failure "path_budget"
               (lit "patch paths exceed " ++ dec MAXIMUM_PATCH_PATH_BYTES_TOTAL ++
                lit " total bytes"))
   else let? safe := safe_path_parse path in
        Ok (safe, {| rest := rest p; cursor := cursor p; path_bytes := bytes |}))%outcome.

(** [self.cursor += 1] *)
Definition skip (p : PatchParser) : PatchParser :=
  {| rest := drop 1 (rest p); cursor := S (cursor p); path_bytes := path_bytes p |}.

(** The ['+'] lines of an added file. *)
Fixpoint add_lines (op : nat) (path : SafePath) (ls : list text) (cur : nat) (content : text)
  : outcome EngineFailure (list text * nat * text) :=
  match ls with
  | [] => Ok ([], cur, content)
  | line :: ls' =>
      if is_header line then Ok (ls, cur, content)
      else
        match strip_prefix (lit "+") line with
        | None =>
            Err (at_ (failure "invalid_add_hunk"
                   (lit "add operation " ++ dec (Z.of_nat op) ++ lit " contains a non-'+' line"))
                   op path)
        | Some body => add_lines op path ls' (S cur) (content ++ body ++ [10])
        end
  end.

Definition parse_add (op : nat) (path : SafePath) (p : PatchParser)
  : outcome EngineFailure (ParsedOperation * PatchParser) :=
  (let? (ls, cur, content) := add_lines op path (rest p) (cursor p) [] in
   if bool_decide (content = [])
   then Err (at_ (failure "invalid_add_hunk"
               (lit "add operation must contain at least one '+' line")) op path)
   else Ok (PAdd path content, {| rest := ls; cursor := cur; path_bytes := path_bytes p |}))%outcome.

Definition parse_move_path (p : PatchParser)
  : outcome EngineFailure (option SafePath * PatchParser) :=
  match rest p with
  | [] => Ok (None, p)
  | line :: _ =>
      match strip_prefix MOVE_TO_MARKER line with
      | None => Ok (None, p)
      | Some destination =>
          (let? (safe, p') := parse_bounded_path destination p in Ok (Some safe, skip p'))%outcome
      end
  end.

Definition invalid_update (op : nat) (path : SafePath) (message : string) : EngineFailure :=
  at_ (failure "invalid_update_hunk" (lit message)) op path.

(** The marker line of a chunk: its context. *)
Definition chunk_marker (op : nat) (path : SafePath) (line : text)
  : outcome EngineFailure (option text) :=
  if bool_decide (line = lit "@@") then Ok None
  else if has_prefix (lit "@@ ") line then Ok (Some (drop 3 line))
  else if negb (has_prefix (lit "@@") line)
  then Err (at_ (failure "invalid_update_hunk"
              (lit "update operation " ++ dec (Z.of_nat op) ++
               lit " expected an '@@' hunk marker")) op path)
  else Err (invalid_update op path "invalid '@@' hunk marker").

Definition set_eof (c : UpdateChunk) : UpdateChunk :=
  {| context := context c; old_lines := old_lines c; new_lines := new_lines c;
     context_indices := context_indices c; eof := true |}.
Definition push_context (c : UpdateChunk) (t : text) : UpdateChunk :=
  {| context := context c; old_lines := old_lines c ++ [t]; new_lines := new_lines c ++ [t];
     context_indices := context_indices c ++ [(length (old_lines c), length (new_lines c))];
     eof := eof c |}.
Definition push_old (c : UpdateChunk) (t : text) : UpdateChunk :=
  {| context := context c; old_lines := old_lines c ++ [t]; new_lines := new_lines c;
     context_indices := context_indices c; eof := eof c |}.
Definition push_new (c : UpdateChunk) (t : text) : UpdateChunk :=
  {| context := context c; old_lines := old_lines c; new_lines := new_lines c ++ [t];
     context_indices := context_indices c; eof := eof c |}.

(** The body of a chunk, up to a header, the next marker or the end-of-file marker. *)
Fixpoint chunk_lines (op : nat) (path : SafePath) (ls : list text) (cur : nat) (c : UpdateChunk)
    (changed : bool) : outcome EngineFailure (list text * nat * UpdateChunk * bool) :=
  match ls with
  | [] => Ok ([], cur, c, changed)
  | line :: ls' =>
      if is_header line || has_prefix (lit "@@") line then Ok (ls, cur, c, changed)
      else if bool_decide (line = END_OF_FILE_MARKER) then Ok (ls', S cur, set_eof c, changed)
      else
        match line with
        | [] =>
            Err (invalid_update op path
                   "empty patch line must carry a ' ', '+', or '-' prefix")
        | prefix :: body =>
            if prefix =? 32 then chunk_lines op path ls' (S cur) (push_context c body) changed
            else if prefix =? 45 then chunk_lines op path ls' (S cur) (push_old c body) true
            else if prefix =? 43 then chunk_lines op path ls' (S cur) (push_new c body) true
            else Err (invalid_update op path "update lines must start with ' ', '+', or '-'")
        end
  end.

(** One chunk; [line] is the current line, known to be there. *)
Definition parse_update_chunk (op : nat) (path : SafePath) (p : PatchParser)
  : outcome EngineFailure (UpdateChunk * PatchParser) :=
  match rest p with
  | [] => Panic
  | line :: ls =>
      (let? context := chunk_marker op path line in
       let? (ls', cur, c, changed) :=
         chunk_lines op path ls (S (cursor p))
           {| context := context; old_lines := []; new_lines := []; context_indices := [];
              eof := false |} false in
       if negb (changed : bool)
       then Err (invalid_update op path "update hunk contains no added or removed line")
       else Ok (c, {| rest := ls'; cursor := cur; path_bytes := path_bytes p |}))%outcome
  end.

(** The chunks of an update; each consumes at least its marker line. *)
Fixpoint update_chunks (fuel : nat) (op : nat) (path : SafePath) (p : PatchParser)
    (chunks : list UpdateChunk) : outcome EngineFailure (list UpdateChunk * PatchParser) :=
  match fuel with
  | O => Panic
  | S fuel =>
      match rest p with
      | [] => Ok (chunks, p)
      | line :: _ =>
          if is_header line then Ok (chunks, p)
          else (let? (c, p') := parse_update_chunk op path p in
                update_chunks fuel op path p' (chunks ++ [c]))%outcome
      end
  end.

Definition parse_update (op : nat) (path : SafePath) (p : PatchParser)
  : outcome EngineFailure (ParsedOperation * PatchParser) :=
  (let? (move_path, p1) := parse_move_path p in
   let? (chunks, p2) := update_chunks (S (length (rest p1))) op path p1 [] in
   if bool_decide (length chunks = 0%nat)
   then Err (invalid_update op path "update operation contains no hunks")
   else Ok (PUpdate path move_path chunks, p2))%outcome.

Definition parse_operation (op : nat) (p : PatchParser)
  : outcome EngineFailure (ParsedOperation * PatchParser) :=
  match rest p with
  | [] => Panic
  | line :: _ =>
      match operation_header line with
      | None =>
          Err (failure "invalid_patch"
                 (lit "unknown operation header at patch line " ++ dec (Z.of_nat (cursor p) + 1)))
      | Some (HAdd path) =>
          (let? (safe, p') := parse_bounded_path path p in parse_add op safe (skip p'))%outcome
      | Some (HDelete path) =>
          (let? (safe, p') := parse_bounded_path path p in Ok (PDelete safe, skip p'))%outcome
      | Some (HUpdate path) =>
          (let? (safe, p') := parse_bounded_path path p in parse_update op safe (skip p'))%outcome
      end
  end.

Fixpoint parse_operations (fuel : nat) (p : PatchParser) (operations : list ParsedOperation)
  : outcome EngineFailure (list ParsedOperation) :=
  match fuel with
  | O => Panic
  | S fuel =>
      match rest p with
      | [] =>
          if bool_decide (length operations = 0%nat)
          then Err (failure "empty_patch" (lit "patch must contain at least one operation"))
          else Ok operations
      | _ :: _ =>
          if MAXIMUM_PATCH_OPERATIONS <=? len operations
          then Err (failure "too_many_operations"
                      (lit "patch exceeds " ++ dec MAXIMUM_PATCH_OPERATIONS ++ lit " operations"))
          else (let? (o, p') := parse_operation (length operations) p in
                parse_operations fuel p' (operations ++ [o]))%outcome
      end
  end.

Definition parse_patch (document : text) : outcome EngineFailure (list ParsedOperation) :=
  (let? p := parser_new document in
   parse_operations (S (length (rest p))) p [])%outcome.

(** ** What the parser accepts *)

Definition is_change (e : edit) : bool := match e with Keep _ => false | _ => true end.

(** A path the parser has accepted. *)
Definition safe (p : SafePath) : Prop := ∃ t, safe_path_parse t = Ok p.

(** A chunk is the chunk of a script with a change. *)
Definition chunk_ok (c : UpdateChunk) : Prop :=
  ∃ h, c = chunk_of h ∧ existsb is_change (script h) = true.

Definition operation_ok (o : ParsedOperation) : Prop :=
  match o with
  | PAdd path content => safe path ∧ content ≠ []
  | PUpdate path move_path chunks =>
      safe path ∧ (∀ d, move_path = Some d → safe d) ∧ chunks ≠ [] ∧ Forall chunk_ok chunks
  | PDelete path => safe path
  end.

Lemma keeps_app s1 s2 o n :
  keeps (s1 ++ s2) o n = keeps s1 o n ++ keeps s2 (o + length (olds s1)) (n + length (news s1)).
Proof.
  revert o n. induction s1 as [|[t|t|t] s1 IH]; intros o n; simpl; rewrite ?IH; simpl;
    rewrite ?Nat.add_0_r, ?Nat.add_succ_r; done.
Qed.

(** A chunk under construction. *)
Definition building (ctx : option text) (s : list edit) : UpdateChunk :=
  chunk_of {| hunk_context := ctx; script := s; hunk_eof := false |}.

Lemma push_building ctx s t :
  push_context (building ctx s) t = building ctx (s ++ [Keep t]) ∧
  push_old (building ctx s) t = building ctx (s ++ [Del t]) ∧
  push_new (building ctx s) t = building ctx (s ++ [Add t]).
Proof.
  unfold push_context, push_old, push_new, building, chunk_of. simpl.
  rewrite !olds_app, !news_app, !keeps_app. simpl. by rewrite !app_nil_r.
Qed.

Lemma chunk_lines_spec op path ls cur ctx s :
  chunk_lines op path ls cur (building ctx s) (existsb is_change s) ≠ Panic ∧
  ∀ ls' cur' c changed,
    chunk_lines op path ls cur (building ctx s) (existsb is_change s) = Ok (ls', cur', c, changed) →
    (length ls' ≤ length ls)%nat ∧
    ∃ s' e, c = chunk_of {| hunk_context := ctx; script := s'; hunk_eof := e |} ∧
      changed = existsb is_change s'.
Proof.
  revert cur s. induction ls as [|line ls IH]; intros cur s; cbn [chunk_lines].
  { split; [done|]. intros ? ? ? ? [= <- <- <- <-]. eauto. }
  destruct (is_header line || has_prefix _ line).
  { split; [done|]. intros ? ? ? ? [= <- <- <- <-]. eauto. }
  case_bool_decide.
  { split; [done|]. intros ? ? ? ? [= <- <- <- <-]. split; [simpl; lia|]. exists s, true. done. }
  destruct line as [|prefix body]; [done|].
  destruct (push_building ctx s body) as (Hc & Ho & Hn).
  assert (∀ e, existsb is_change (s ++ [e]) = existsb is_change s || is_change e) as Happ
    by (intros e; rewrite existsb_app; simpl; by rewrite orb_false_r).
  destruct (prefix =? 32).
  { specialize (IH (S cur) (s ++ [Keep body])). rewrite Happ, orb_false_r in IH. rewrite Hc.
    destruct IH as [Hp Hok]. split; [done|]. intros ? ? ? ? [? ?]%Hok. split; [simpl; lia|done]. }
  destruct (prefix =? 45).
  { specialize (IH (S cur) (s ++ [Del body])). rewrite Happ, orb_true_r in IH. rewrite Ho.
    destruct IH as [Hp Hok]. split; [done|]. intros ? ? ? ? [? ?]%Hok. split; [simpl; lia|done]. }
  destruct (prefix =? 43); [|done].
  specialize (IH (S cur) (s ++ [Add body])). rewrite Happ, orb_true_r in IH. rewrite Hn.
  destruct IH as [Hp Hok]. split; [done|]. intros ? ? ? ? [? ?]%Hok. split; [simpl; lia|done].
Qed.

Lemma chunk_marker_no_panic op path line : chunk_marker op path line ≠ Panic.
Proof. unfold chunk_marker. repeat case_match; done. Qed.

Lemma parse_update_chunk_spec op path p :
  rest p ≠ [] →
  parse_update_chunk op path p ≠ Panic ∧
  ∀ c p', parse_update_chunk op path p = Ok (c, p') →
    (length (rest p') < length (rest p))%nat ∧ chunk_ok c.
Proof.
  intros Hne. unfold parse_update_chunk. destruct (rest p) as [|line ls]; [done|].
  assert (∀ ctx, {| context := ctx; old_lines := []; new_lines := []; context_indices := [];
                    eof := false |} = building ctx []) as Hempty by done.
  split.
  - apply obind_no_panic; [apply chunk_marker_no_panic|]. intros ctx _. rewrite Hempty.
    destruct (chunk_lines_spec op path ls (S (cursor p)) ctx []) as [Hp _].
    apply obind_no_panic; [exact Hp|]. intros [[[ls' cur'] c] changed] _. by destruct changed.
  - intros c p' (ctx & _ & Hk)%obind_ok. rewrite Hempty in Hk.
    destruct (chunk_lines_spec op path ls (S (cursor p)) ctx []) as [_ Hok].
    apply obind_ok in Hk as ([[[ls' cur'] c'] changed] & Hl & Hk).
    destruct (Hok _ _ _ _ Hl) as (Hlen & s' & e & -> & ->).
    destruct (existsb is_change s') eqn:Hs; [|done]. injection Hk as <- <-. simpl.
    split; [lia|]. by eexists.
Qed.

Lemma update_chunks_spec fuel op path p chunks :
  (length (rest p) < fuel)%nat → Forall chunk_ok chunks →
  update_chunks fuel op path p chunks ≠ Panic ∧
  ∀ chunks' p', update_chunks fuel op path p chunks = Ok (chunks', p') →
    (length (rest p') ≤ length (rest p))%nat ∧ Forall chunk_ok chunks'.
Proof.
  revert p chunks. induction fuel as [|fuel IH]; intros p chunks Hfuel Hall; [lia|].
  cbn [update_chunks]. destruct (rest p) as [|line ls] eqn:Hr.
  { split; [done|]. intros ? ? [= <- <-]. by rewrite Hr. }
  destruct (is_header line).
  { split; [done|]. intros ? ? [= <- <-]. by rewrite Hr. }
  destruct (parse_update_chunk_spec op path p) as [Hp Hok]; [by rewrite Hr|].
  rewrite Hr in Hok. simpl in Hfuel, Hok. split.
  - apply obind_no_panic; [done|]. intros [c p1] [Hlen Hc]%Hok. apply IH; [lia|].
    apply Forall_app. by repeat constructor.
  - intros chunks' p' ([c p1] & [Hlen Hc]%Hok & Hk)%obind_ok.
    destruct (IH p1 (chunks ++ [c])) as [_ Hrest]; [lia|apply Forall_app; by repeat constructor|].
    destruct (Hrest _ _ Hk). split; [simpl; lia|done].
Qed.

Lemma safe_path_no_panic t : safe_path_parse t ≠ Panic.
Proof. unfold safe_path_parse. repeat case_match; done. Qed.

Lemma parse_bounded_path_spec t p :
  parse_bounded_path t p ≠ Panic ∧
  ∀ q p', parse_bounded_path t p = Ok (q, p') → safe q ∧ rest p' = rest p ∧ cursor p' = cursor p.
Proof.
  unfold parse_bounded_path, checked_add. destruct (_ <=? _); cbn [ok_or obind]; [|done].
  destruct (_ <? _); [done|]. split.
  - by apply obind_no_panic; [apply safe_path_no_panic|].
  - intros q p' (q' & Hq & [= <- <-])%obind_ok. split_and!; [by exists t|done|done].
Qed.

Lemma add_lines_spec op path ls cur content :
  add_lines op path ls cur content ≠ Panic ∧
  ∀ ls' cur' content', add_lines op path ls cur content = Ok (ls', cur', content') →
    (length ls' ≤ length ls)%nat.
Proof.
  revert cur content. induction ls as [|line ls IH]; intros cur content; cbn [add_lines].
  { split; [done|]. by intros ? ? ? [= <- _ _]. }
  destruct (is_header line); [split; [done|]; by intros ? ? ? [= <- _ _]|].
  destruct (strip_prefix _ line) as [body|]; [|done].
  destruct (IH (S cur) (content ++ body ++ [10])) as [Hp Hok]. split; [done|].
  intros ? ? ? ?%Hok. simpl. lia.
Qed.

Lemma parse_move_path_spec p :
  parse_move_path p ≠ Panic ∧
  ∀ m p', parse_move_path p = Ok (m, p') →
    (length (rest p') ≤ length (rest p))%nat ∧ ∀ d, m = Some d → safe d.
Proof.
  unfold parse_move_path. destruct (rest p) as [|line ls] eqn:Hr; [split; [done|]|].
  { intros ? ? [= <- <-]. by rewrite Hr. }
  destruct (strip_prefix _ line) as [t|]; [|split; [done|]; intros ? ? [= <- <-]; by rewrite Hr].
  destruct (parse_bounded_path_spec t p) as [Hp Hok]. split.
  - by apply obind_no_panic; [|intros []].
  - intros m p' ([q p1] & (Hq & Hr1 & _)%Hok & [= <- <-])%obind_ok.
    split; [simpl; rewrite Hr1, Hr; simpl; rewrite drop_0; lia|]. by intros ? [= <-].
Qed.

Lemma parse_update_spec op path p :
  safe path →
  parse_update op path p ≠ Panic ∧
  ∀ o p', parse_update op path p = Ok (o, p') →
    (length (rest p') ≤ length (rest p))%nat ∧ operation_ok o.
Proof.
  intros Hpath. unfold parse_update. destruct (parse_move_path_spec p) as [Hp Hok]. split.
  - apply obind_no_panic; [done|]. intros [m p1] _.
    destruct (update_chunks_spec (S (length (rest p1))) op path p1 []) as [Hu _]; [lia|done|].
    apply obind_no_panic; [done|]. intros [chunks p2] _. by case_bool_decide.
  - intros o p' ([m p1] & [Hlen Hm]%Hok & Hk)%obind_ok.
    destruct (update_chunks_spec (S (length (rest p1))) op path p1 []) as [_ Hu]; [lia|done|].
    apply obind_ok in Hk as ([chunks p2] & [Hlen2 Hall]%Hu & Hk).
    case_bool_decide as Hne; [done|]. injection Hk as <- <-. split; [lia|].
    split_and!; try done. by intros ->.
Qed.

Lemma parse_operation_spec op p :
  rest p ≠ [] →
  parse_operation op p ≠ Panic ∧
  ∀ o p', parse_operation op p = Ok (o, p') →
    (length (rest p') < length (rest p))%nat ∧ operation_ok o.
Proof.
  intros Hne. unfold parse_operation. destruct (rest p) as [|line ls] eqn:Hr; [done|].
  assert (∀ p', rest p' = line :: ls → rest (skip p') = ls) as Hskip.
  { intros p' Hr'. unfold skip. simpl. by rewrite Hr'. }
  destruct (operation_header line) as [[t|t|t]|]; [..|done];
    destruct (parse_bounded_path_spec t p) as [Hp Hok]; (split;
      [apply obind_no_panic; [done|]; intros [q p1] (Hq & Hr1 & _)%Hok; rewrite Hr in Hr1
      |intros o p' ([q p1] & (Hq & Hr1 & _)%Hok & Hk)%obind_ok; rewrite Hr in Hr1;
       apply Hskip in Hr1 as Hs; simpl]).
  - unfold parse_add. apply obind_no_panic; [apply add_lines_spec|].
    intros [[ls' cur'] content] _. by case_bool_decide.
  - unfold parse_add in Hk. apply obind_ok in Hk as ([[ls' cur'] content] & Ha & Hk).
    apply add_lines_spec in Ha. rewrite Hs in Ha. case_bool_decide; [done|].
    injection Hk as <- <-. simpl. split; [lia|done].
  - done.
  - injection Hk as <- <-. rewrite Hs. split; [lia|done].
  - by apply parse_update_spec.
  - apply parse_update_spec in Hk as [Hlen ?]; [|done]. rewrite Hs in Hlen. split; [lia|done].
Qed.

Lemma parse_operations_spec fuel p operations :
  (length (rest p) < fuel)%nat → Forall operation_ok operations →
  len operations ≤ MAXIMUM_PATCH_OPERATIONS →
  parse_operations fuel p operations ≠ Panic ∧
  ∀ ops, parse_operations fuel p operations = Ok ops →
    0 < len ops ≤ MAXIMUM_PATCH_OPERATIONS ∧ Forall operation_ok ops.
Proof.
  revert p operations. induction fuel as [|fuel IH]; intros p operations Hfuel Hall Hlen; [lia|].
  cbn [parse_operations]. destruct (rest p) as [|line ls] eqn:Hr.
  { case_bool_decide as Hne; [done|]. split; [done|]. intros ? [= <-]. unfold len in *.
    split; [lia|done]. }
  destruct (MAXIMUM_PATCH_OPERATIONS <=? len operations) eqn:Hmax; [done|].
  destruct (parse_operation_spec (length operations) p) as [Hp Hok]; [by rewrite Hr|].
  rewrite Hr in Hok. simpl in Hok, Hfuel.
  assert (∀ o p1, operation_ok o → (length (rest p1) < S (length ls))%nat →
    parse_operations fuel p1 (operations ++ [o]) ≠ Panic ∧
    ∀ ops, parse_operations fuel p1 (operations ++ [o]) = Ok ops →
      0 < len ops ≤ MAXIMUM_PATCH_OPERATIONS ∧ Forall operation_ok ops) as Hnext.
  { intros o p1 Ho Hp1. apply IH; [lia|apply Forall_app; by repeat constructor|].
    rewrite len_app, len_cons, len_nil. lia. }
  split.
  - apply obind_no_panic; [done|]. intros [o p1] [? ?]%Hok. by apply Hnext.
  - intros ops ([o p1] & [? ?]%Hok & Hk)%obind_ok. by apply (Hnext o p1).
Qed.

Lemma parse_patch_accepts document :
  parse_patch document ≠ Panic ∧
  ∀ ops, parse_patch document = Ok ops →
    0 < len ops ≤ MAXIMUM_PATCH_OPERATIONS ∧ Forall operation_ok ops.
Proof.
  unfold parse_patch. split.
  - apply obind_no_panic.
    + unfold parser_new. by repeat case_match.
    + intros p _. by apply parse_operations_spec; [lia|constructor|].
  - intros ops (p & _ & Hk)%obind_ok.
    by apply parse_operations_spec in Hk; [|lia|constructor|].
Qed.

(** C37: the parser is total and sound: on every document it terminates without a panic, and
    what it accepts is one to 256 operations on confined paths, added files that are not
    empty, and updates with at least one chunk, every chunk being exactly what a script of
    kept, deleted and added lines with at least one change describes. *)
Theorem parse_patch_sound document :
  parse_patch document ≠ Panic ∧
  ∀ ops, parse_patch document = Ok ops →
    0 < len ops ≤ MAXIMUM_PATCH_OPERATIONS ∧ Forall operation_ok ops.
Proof. apply parse_patch_accepts. Qed.

(** ** Writing patches *)

Inductive PatchOperation :=
| WAdd (path : SafePath) (added : list text)
| WUpdate (path : SafePath) (move_path : option SafePath) (hunks : list Hunk)
| WDelete (path : SafePath).

Definition edit_line (e : edit) : text :=
  match e with Keep t => 32 :: t | Del t => 45 :: t | Add t => 43 :: t end.

Definition hunk_lines (h : Hunk) : list text :=
  (match hunk_context h with None => lit "@@" | Some t => lit "@@ " ++ t end) ::
  (edit_line <$> script h) ++ (if hunk_eof h then [END_OF_FILE_MARKER] else []).

Definition operation_lines (o : PatchOperation) : list text :=
  match o with
  | WAdd path added => (ADD_FILE_MARKER ++ path_text path) :: ((λ t, 43 :: t) <$> added)
  | WUpdate path move_path hunks =>
      (UPDATE_FILE_MARKER ++ path_text path) ::
      (match move_path with Some d => [MOVE_TO_MARKER ++ path_text d] | None => [] end) ++
      concat (hunk_lines <$> hunks)
  | WDelete path => [DELETE_FILE_MARKER ++ path_text path]
  end.

Definition patch_lines (ops : list PatchOperation) : list text :=
  BEGIN_PATCH_MARKER :: concat (operation_lines <$> ops) ++ [END_PATCH_MARKER].

(** The document, with either line ending. *)
Definition newline (crlf : bool) : text := if crlf then [13; 10] else [10].
Definition write_patch (crlf : bool) (ops : list PatchOperation) : text :=
  concat ((λ l : text, l ++ newline crlf) <$> patch_lines ops).

(** What the parser is to read back. *)
Definition parsed (o : PatchOperation) : ParsedOperation :=
  match o with
  | WAdd path added => PAdd path (concat ((λ t, t ++ [10]) <$> added))
  | WUpdate path move_path hunks => PUpdate path move_path (chunk_of <$> hunks)
  | WDelete path => PDelete path
  end.

Definition line_clean (t : text) : Prop := 10 ∉ t ∧ 13 ∉ t.

Definition path_ok (p : SafePath) : Prop :=
  safe_path_parse (path_text p) = Ok p ∧ line_clean (path_text p).

Definition edit_text (e : edit) : text := match e with Keep t | Del t | Add t => t end.

Definition hunk_ok (h : Hunk) : Prop :=
  (∀ t, hunk_context h = Some t → line_clean t) ∧
  Forall (λ e, line_clean (edit_text e)) (script h) ∧ existsb is_change (script h) = true.

Definition writable (o : PatchOperation) : Prop :=
  match o with
  | WAdd path added => path_ok path ∧ added ≠ [] ∧ Forall line_clean added
  | WUpdate path move_path hunks =>
      path_ok path ∧ (∀ d, move_path = Some d → path_ok d) ∧ hunks ≠ [] ∧ Forall hunk_ok hunks
  | WDelete path => path_ok path
  end.

Definition operation_path_bytes (o : PatchOperation) : Z :=
  match o with
  | WAdd path _ | WDelete path => text_len (path_text path)
  | WUpdate path move_path _ =>
      text_len (path_text path) +
      match move_path with Some d => text_len (path_text d) | None => 0 end
  end.

(** *** From the document to its lines *)

Lemma replace_crlf_clean (l t : text) : line_clean l → replace_crlf (l ++ 10 :: t) = l ++ 10 :: replace_crlf t.
Proof.
  intros [_ H13]. induction l as [|c l IH]; [by destruct t|].
  assert (c ≠ 13) by set_solver. specialize (IH ltac:(set_solver)).
  change (replace_crlf ((c :: l) ++ 10 :: t)) with
    (match l ++ 10 :: t with
     | d :: rest' => if (c =? 13) && (d =? 10) then (10 :: replace_crlf rest' : text)
                     else c :: replace_crlf (l ++ 10 :: t)
     | [] => [c] : text
     end).
  rewrite IH. replace (c =? 13) with false by lia. by destruct l.
Qed.

Lemma replace_crlf_crlf (l t : text) :
  line_clean l → replace_crlf (l ++ 13 :: 10 :: t) = l ++ 10 :: replace_crlf t.
Proof.
  intros [_ H13]. induction l as [|c l IH]; [done|].
  assert (c ≠ 13) by set_solver. specialize (IH ltac:(set_solver)).
  change (replace_crlf ((c :: l) ++ 13 :: 10 :: t)) with
    (match l ++ 13 :: 10 :: t with
     | d :: rest' => if (c =? 13) && (d =? 10) then (10 :: replace_crlf rest' : text)
                     else c :: replace_crlf (l ++ 13 :: 10 :: t)
     | [] => [c] : text
     end).
  rewrite IH. replace (c =? 13) with false by lia. by destruct l.
Qed.

Lemma strip_cr_clean l : line_clean l → strip_cr l = l.
Proof.
  intros [_ H13]. unfold strip_cr. destruct (last l) as [c|] eqn:Hl; [|done].
  apply last_Some_elem_of in Hl. destruct (Z.eqb_spec c 13); [by subst|done].
Qed.

Lemma str_lines_clean current l t :
  line_clean (current ++ l) → str_lines current (l ++ 10 :: t) = (current ++ l) :: str_lines [] t.
Proof.
  revert current. induction l as [|c l IH]; intros current Hl; cbn [app str_lines].
  - rewrite app_nil_r in *. simpl. by rewrite strip_cr_clean.
  - destruct (Z.eqb_spec c 10) as [->|]; [destruct Hl; set_solver|].
    rewrite IH; rewrite <- app_assoc; done.
Qed.

Lemma document_lines crlf (ls : list text) :
  Forall line_clean ls →
  str_lines [] (replace_crlf (concat ((λ l : text, l ++ newline crlf) <$> ls))) = ls.
Proof.
  induction 1 as [|l ls Hl Hls IH]; [done|]. csimpl. rewrite <- app_assoc.
  destruct crlf; cbn [newline app]; [rewrite replace_crlf_crlf by done|rewrite replace_crlf_clean by done];
    rewrite str_lines_clean by done; f_equal; exact IH.
Qed.

Lemma drop_empty_last ls t : t ≠ [] → drop_empty (ls ++ [t]) = ls ++ [t].
Proof.
  intros Ht. induction ls as [|l ls IH]; simpl; [by rewrite bool_decide_eq_false_2|].
  rewrite IH. by destruct ls.
Qed.

#[global] Arguments strip_prefix : simpl never.
#[global] Arguments has_prefix : simpl never.
#[global] Arguments operation_header : simpl never.

Lemma strip_prefix_app p t : strip_prefix p (p ++ t) = Some t.
Proof. unfold strip_prefix. by rewrite take_app_length, bool_decide_eq_true_2, drop_app_length. Qed.

Lemma has_prefix_app p t : has_prefix p (p ++ t) = true.
Proof. unfold has_prefix. by rewrite take_app_length, bool_decide_eq_true_2. Qed.

Lemma prefix_first p t c : head p = Some c → head t ≠ Some c →
  strip_prefix p t = None ∧ has_prefix p t = false.
Proof.
  intros Hp Ht. assert (take (length p) t ≠ p) as Hne.
  { intros Heq. apply Ht. destruct p as [|d p]; [done|]. destruct t as [|x t]; [done|].
    simpl in *. by injection Heq as -> _. }
  unfold strip_prefix, has_prefix. by rewrite !bool_decide_eq_false_2.
Qed.

Lemma not_header t : head t ≠ Some 42 → is_header t = false.
Proof.
  intros Ht. unfold is_header, operation_header.
  destruct (prefix_first ADD_FILE_MARKER t 42 eq_refl Ht) as [-> _].
  destruct (prefix_first DELETE_FILE_MARKER t 42 eq_refl Ht) as [-> _].
  destruct (prefix_first UPDATE_FILE_MARKER t 42 eq_refl Ht) as [-> _]. done.
Qed.

Lemma header_of t :
  operation_header (ADD_FILE_MARKER ++ t) = Some (HAdd t) ∧
  operation_header (DELETE_FILE_MARKER ++ t) = Some (HDelete t) ∧
  operation_header (UPDATE_FILE_MARKER ++ t) = Some (HUpdate t).
Proof.
  unfold operation_header. rewrite !strip_prefix_app.
  split_and!; [done| |]; unfold strip_prefix; by vm_compute.
Qed.

Lemma is_header_of t :
  is_header (ADD_FILE_MARKER ++ t) = true ∧ is_header (DELETE_FILE_MARKER ++ t) = true ∧
  is_header (UPDATE_FILE_MARKER ++ t) = true.
Proof. unfold is_header. by destruct (header_of t) as (-> & -> & ->). Qed.

(** *** From the lines to the operations *)

(** Where a chunk ends. *)
Definition chunk_stop (next : list text) : Prop :=
  ∀ line, head next = Some line → is_header line || has_prefix (lit "@@") line = true.
Definition operation_stop (next : list text) : Prop :=
  ∀ line, head next = Some line → is_header line = true.

Lemma operation_stop_chunk next : operation_stop next → chunk_stop next.
Proof. intros H line Hl. by rewrite (H line). Qed.

Lemma edit_line_body e :
  is_header (edit_line e) = false ∧ has_prefix (lit "@@") (edit_line e) = false ∧
  edit_line e ≠ END_OF_FILE_MARKER.
Proof.
  split_and!.
  - apply not_header. by destruct e.
  - eapply (prefix_first (lit "@@") _ 64); [done|]. by destruct e.
  - by destruct e.
Qed.

Lemma chunk_lines_script op path sc tail cur ctx s ch :
  chunk_lines op path ((edit_line <$> sc) ++ tail) cur (building ctx s) ch =
  chunk_lines op path tail (cur + length sc) (building ctx (s ++ sc)) (ch || existsb is_change sc).
Proof.
  revert cur s ch. induction sc as [|e sc IH]; intros cur s ch.
  { simpl. by rewrite Nat.add_0_r, app_nil_r, orb_false_r. }
  csimpl. destruct (edit_line_body e) as (-> & -> & Hm). cbn [orb].
  rewrite (bool_decide_eq_false_2 _ Hm).
  replace (cur + S (length sc))%nat with (S cur + length sc)%nat by lia.
  destruct (push_building ctx s (edit_text e)) as (Hc & Ho & Hn).
  replace (s ++ e :: sc) with ((s ++ [e]) ++ sc) by by rewrite <- app_assoc.
  destruct e as [t|t|t]; cbn [edit_line edit_text] in *; cbn [Z.eqb Pos.eqb];
    rewrite ?Hc, ?Ho, ?Hn, IH; cbn [is_change orb existsb]; by rewrite ?orb_true_r.
Qed.

Lemma chunk_lines_tail op path (eof : bool) next cur ctx s ch :
  chunk_stop next →
  ∃ cur', chunk_lines op path ((if eof then [END_OF_FILE_MARKER] else []) ++ next) cur
            (building ctx s) ch =
    Ok (next, cur', chunk_of {| hunk_context := ctx; script := s; hunk_eof := eof |}, ch).
Proof.
  intros Hstop. destruct eof; [eexists; reflexivity|]. exists cur. cbn [app].
  destruct next as [|line ls]; [done|]. cbn [chunk_lines]. by rewrite (Hstop line).
Qed.

#[global] Arguments hunk_lines : simpl never.

Lemma hunk_lines_marker op path h :
  ∃ line, hunk_lines h = line :: (edit_line <$> script h) ++
                         (if hunk_eof h then [END_OF_FILE_MARKER] else []) ∧
    chunk_marker op path line = Ok (hunk_context h) ∧ head line = Some 64 ∧
    has_prefix (lit "@@") line = true.
Proof.
  unfold hunk_lines. destruct (hunk_context h) as [t|]; eexists; (split; [done|]).
  - unfold chunk_marker. rewrite has_prefix_app, bool_decide_eq_false_2 by done. done.
  - done.
Qed.

Lemma parse_update_chunk_written op path p h next :
  rest p = hunk_lines h ++ next → existsb is_change (script h) = true → chunk_stop next →
  ∃ cur', parse_update_chunk op path p =
    Ok (chunk_of h, {| rest := next; cursor := cur'; path_bytes := path_bytes p |}).
Proof.
  intros Hr Hch Hstop. destruct (hunk_lines_marker op path h) as (line & Hl & Hm & _).
  unfold parse_update_chunk. rewrite Hr, Hl. cbn [app]. rewrite Hm. cbn [obind].
  change {| context := hunk_context h; old_lines := []; new_lines := []; context_indices := [];
            eof := false |} with (building (hunk_context h) []).
  rewrite <- app_assoc, chunk_lines_script. cbn [app orb]. rewrite Hch.
  destruct (chunk_lines_tail op path (hunk_eof h) next (S (cursor p) + length (script h))
              (hunk_context h) (script h) true Hstop) as [cur' ->].
  exists cur'. by destruct h.
Qed.

Lemma hunks_stop hunks next : operation_stop next → chunk_stop (concat (hunk_lines <$> hunks) ++ next).
Proof.
  intros Hstop. destruct hunks as [|h hunks]; [by apply operation_stop_chunk|].
  rewrite fmap_cons. cbn [concat].
  destruct (hunk_lines_marker 0 {| path_text := []; components := [] |} h)
    as (line & Hl & _ & _ & Hp).
  rewrite Hl. intros l [= <-]. by rewrite Hp, orb_true_r.
Qed.

Lemma update_chunks_written fuel op path p hunks next chunks :
  rest p = concat (hunk_lines <$> hunks) ++ next → (length hunks < fuel)%nat →
  Forall (λ h, existsb is_change (script h) = true) hunks → operation_stop next →
  ∃ cur', update_chunks fuel op path p chunks =
    Ok (chunks ++ (chunk_of <$> hunks),
        {| rest := next; cursor := cur'; path_bytes := path_bytes p |}).
Proof.
  intros Hr Hfuel Hch Hstop. revert fuel p chunks Hr Hfuel.
  induction Hch as [|h hunks Hh Hch IH]; intros fuel p chunks Hr Hfuel;
    (destruct fuel as [|fuel]; [simpl in Hfuel; lia|]).
  - exists (cursor p). csimpl in *. rewrite app_nil_r.
    destruct p as [r c b]. cbn in Hr. subst r. cbn [update_chunks rest cursor path_bytes].
    destruct next as [|line ls]; [done|]. by rewrite (Hstop line).
  - rewrite fmap_cons in Hr. cbn [concat] in Hr. rewrite <- app_assoc in Hr.
    destruct (parse_update_chunk_written op path p h _ Hr Hh (hunks_stop hunks next Hstop))
      as [cur1 Hp].
    cbn [update_chunks]. rewrite Hp, Hr.
    destruct (hunk_lines_marker op path h) as (line & Hl & _ & H64 & _).
    rewrite Hl. cbn [app]. rewrite not_header by (rewrite H64; done). cbn [obind].
    edestruct (IH fuel) as [cur' ->]; [done|csimpl in Hfuel; lia|].
    exists cur'. csimpl. by rewrite <- app_assoc.
Qed.

Lemma parse_bounded_path_written path p :
  path_ok path → 0 ≤ path_bytes p →
  path_bytes p + text_len (path_text path) ≤ MAXIMUM_PATCH_PATH_BYTES_TOTAL →
  parse_bounded_path (path_text path) p =
    Ok (path, {| rest := rest p; cursor := cursor p;
                 path_bytes := path_bytes p + text_len (path_text path) |}).
Proof.
  intros [Hpath _] Hp Hle. unfold parse_bounded_path.
  assert (MAXIMUM_PATCH_PATH_BYTES_TOTAL ≤ usize_max) by done.
  rewrite checked_add_fits by lia.
  cbn [ok_or obind]. replace (_ <? _) with false by lia. by rewrite Hpath.
Qed.

Lemma add_lines_written op path added next cur content :
  operation_stop next →
  ∃ cur', add_lines op path (((λ t, 43 :: t) <$> added) ++ next) cur content =
    Ok (next, cur', content ++ concat ((λ t : text, t ++ [10]) <$> added)).
Proof.
  intros Hstop. revert cur content. induction added as [|t added IH]; intros cur content;
    rewrite ?fmap_nil, ?fmap_cons; cbn [app concat].
  - exists cur. rewrite app_nil_r. destruct next as [|line ls]; [done|]. cbn [add_lines].
    by rewrite (Hstop line).
  - cbn [add_lines]. rewrite not_header by done. change (strip_prefix (lit "+") (43 :: t)) with (Some (drop 0 t)).
    rewrite drop_0. destruct (IH (S cur) (content ++ t ++ [10])) as [cur' ->].
    exists cur'. by rewrite <- !app_assoc.
Qed.

(** The header line of an operation is recognised, and nothing is left of it but the path. *)
Lemma operation_lines_header o next :
  ∃ line ls, operation_lines o ++ next = line :: ls ∧ is_header line = true.
Proof.
  destruct o as [path added|path m hunks|path]; do 2 eexists; (split; [reflexivity|]);
    by destruct (is_header_of (path_text path)) as (? & ? & ?).
Qed.

Lemma operations_stop ops : operation_stop (concat (operation_lines <$> ops)).
Proof.
  destruct ops as [|o ops]; [done|]. rewrite fmap_cons. cbn [concat].
  destruct (operation_lines_header o (concat (operation_lines <$> ops))) as (line & ls & -> & Hh).
  by intros l [= <-].
Qed.

Lemma parse_move_written move_path hunks p next :
  rest p = (match move_path with Some d => [MOVE_TO_MARKER ++ path_text d] | None => [] end) ++
           concat (hunk_lines <$> hunks) ++ next →
  hunks ≠ [] → (∀ d, move_path = Some d → path_ok d) → 0 ≤ path_bytes p →
  path_bytes p + match move_path with Some d => text_len (path_text d) | None => 0 end ≤
    MAXIMUM_PATCH_PATH_BYTES_TOTAL →
  ∃ cur', parse_move_path p = Ok (move_path,
    {| rest := concat (hunk_lines <$> hunks) ++ next; cursor := cur';
       path_bytes := path_bytes p +
         match move_path with Some d => text_len (path_text d) | None => 0 end |}).
Proof.
  intros Hr Hne Hok Hp Hle. unfold parse_move_path. rewrite Hr. destruct move_path as [d|].
  - cbn [app]. rewrite strip_prefix_app, parse_bounded_path_written by auto. cbn [obind].
    unfold skip. cbn [rest cursor path_bytes]. rewrite Hr. eexists. reflexivity.
  - destruct hunks as [|h hunks]; [done|]. rewrite fmap_cons in *. cbn [concat app] in *.
    destruct (hunk_lines_marker 0 {| path_text := []; components := [] |} h)
      as (line & Hl & _ & H64 & _).
    rewrite Hl in *. cbn [app] in *.
    destruct (prefix_first MOVE_TO_MARKER line 42) as [-> _]; [done|by rewrite H64|].
    exists (cursor p). rewrite Z.add_0_r, <- Hr. by destruct p.
Qed.

Lemma hunks_changed hunks :
  Forall hunk_ok hunks → Forall (λ h, existsb is_change (script h) = true) hunks.
Proof. intros Hall. eapply Forall_impl; [exact Hall|]. by intros h (_ & _ & ?). Qed.

Lemma hunks_length hunks next :
  (length hunks ≤ length (concat (hunk_lines <$> hunks) ++ next))%nat.
Proof.
  induction hunks as [|h hunks IH]; [simpl; lia|]. rewrite fmap_cons. cbn [concat length].
  rewrite <- app_assoc, length_app. unfold hunk_lines at 1. simpl. lia.
Qed.

Lemma parse_operation_written op o p next :
  rest p = operation_lines o ++ next → writable o → operation_stop next → 0 ≤ path_bytes p →
  path_bytes p + operation_path_bytes o ≤ MAXIMUM_PATCH_PATH_BYTES_TOTAL →
  ∃ cur', parse_operation op p = Ok (parsed o,
    {| rest := next; cursor := cur'; path_bytes := path_bytes p + operation_path_bytes o |}).
Proof.
  intros Hr Hw Hstop Hp Hle. unfold parse_operation. rewrite Hr.
  destruct o as [path added|path m hunks|path]; cbn [operation_lines app writable
    operation_path_bytes parsed] in *;
    destruct (header_of (path_text path)) as (Ha & Hd & Hu); rewrite ?Ha, ?Hd, ?Hu.
  - destruct Hw as (Hpath & Hne & _). rewrite parse_bounded_path_written by done. cbn [obind].
    unfold parse_add, skip. cbn [rest cursor path_bytes]. rewrite Hr. cbn [drop].
    destruct (add_lines_written op path added next (S (cursor p)) [] Hstop) as [cur' Hadd].
    rewrite drop_0, Hadd. cbn [obind app].
    rewrite bool_decide_eq_false_2; [eauto|].
    destruct added as [|t added]; [done|]. csimpl. by destruct t.
  - destruct Hw as (Hpath & Hm & Hne & Hall).
    assert (0 ≤ match m with Some d => text_len (path_text d) | None => 0 end)
      by (destruct m; [apply text_len_nonneg|lia]).
    pose proof (text_len_nonneg (path_text path)).
    rewrite parse_bounded_path_written by (done || lia). cbn [obind].
    unfold parse_update.
    edestruct (parse_move_written m hunks) as [cur1 ->]; [|done|done|..].
    { unfold skip. cbn [rest]. rewrite Hr. cbn [drop]. by rewrite drop_0, app_assoc. }
    { cbn [skip path_bytes]. lia. }
    { cbn [skip path_bytes]. lia. }
    cbn [obind rest].
    edestruct (update_chunks_written (S (length (concat (hunk_lines <$> hunks) ++ next))) op path)
      as [cur2 ->]; [reflexivity|pose proof (hunks_length hunks next); lia|
                     by apply hunks_changed|done|].
    cbn [obind app path_bytes skip]. rewrite length_fmap, bool_decide_eq_false_2
      by (by destruct hunks). exists cur2. by rewrite Z.add_assoc.
  - rewrite parse_bounded_path_written by done. cbn [obind]. unfold skip.
    cbn [rest cursor path_bytes]. rewrite Hr. cbn [drop]. rewrite drop_0. eauto.
Qed.

Lemma parse_operations_written ops fuel p done_ :
  rest p = concat (operation_lines <$> ops) → Forall writable ops → (length ops < fuel)%nat →
  0 < len (done_ ++ (parsed <$> ops)) ≤ MAXIMUM_PATCH_OPERATIONS → 0 ≤ path_bytes p →
  path_bytes p + zsum (operation_path_bytes <$> ops) ≤ MAXIMUM_PATCH_PATH_BYTES_TOTAL →
  parse_operations fuel p done_ = Ok (done_ ++ (parsed <$> ops)).
Proof.
  intros Hr Hw. revert fuel p done_ Hr. induction Hw as [|o ops Ho Hw IH];
    intros fuel p acc Hr Hfuel Hlen Hp Hle; (destruct fuel as [|fuel]; [simpl in Hfuel; lia|]);
    cbn [parse_operations]; rewrite Hr.
  - csimpl in *. rewrite app_nil_r in *. rewrite bool_decide_eq_false_2; [done|].
    unfold len in Hlen. lia.
  - rewrite fmap_cons in Hr |- *. cbn [concat] in Hr |- *.
    destruct (operation_lines_header o (concat (operation_lines <$> ops))) as (line & ls & Hl & _).
    rewrite Hl, fmap_cons. rewrite fmap_cons in Hlen. rewrite fmap_cons, zsum_cons in Hle. cbn [zsum length] in *.
    assert (len acc < MAXIMUM_PATCH_OPERATIONS) as Hmax
      by (rewrite len_app, len_cons in Hlen; pose proof (len_nonneg (parsed <$> ops)); lia).
    replace (_ <=? _) with false by lia.
    assert (0 ≤ operation_path_bytes o) as Hpos by (destruct o as [|? []|]; simpl;
      repeat first [apply Z.add_nonneg_nonneg|apply text_len_nonneg|lia]).
    assert (0 ≤ zsum (operation_path_bytes <$> ops)).
    { apply zsum_nonneg, Forall_fmap, Forall_true. intros [|? []|]; simpl;
      repeat first [apply Z.add_nonneg_nonneg|apply text_len_nonneg|lia]. }
    destruct (parse_operation_written (length acc) o p (concat (operation_lines <$> ops)))
      as [cur' ->]; [done|done|apply operations_stop|done|lia|].
    cbn [obind]. rewrite IH; cbn [rest path_bytes]; [by rewrite <- app_assoc|done|lia| |lia|lia].
    by rewrite <- app_assoc.
Qed.

Lemma operations_length ops : (length ops ≤ length (concat (operation_lines <$> ops)))%nat.
Proof.
  induction ops as [|o ops IH]; [done|]. rewrite fmap_cons. cbn [concat length].
  rewrite length_app. destruct o; simpl; lia.
Qed.

Lemma clean_cons c t : c ≠ 10 → c ≠ 13 → line_clean t → line_clean (c :: t).
Proof. intros ?? [??]. split; set_solver. Qed.

Lemma clean_app a b : line_clean a → line_clean b → line_clean (a ++ b).
Proof. intros [??] [??]. split; set_solver. Qed.

Lemma clean_compute t : forallb (λ c, negb (c =? 10) && negb (c =? 13)) t = true → line_clean t.
Proof.
  rewrite forallb_forall. intros Hall.
  split; intros Hin%list_elem_of_In; by apply Hall in Hin.
Qed.

Lemma operation_lines_clean o : writable o → Forall line_clean (operation_lines o).
Proof.
  destruct o as [path added|path m hunks|path]; cbn [operation_lines writable].
  - intros ([_ Hp] & _ & Hall). constructor; [by apply clean_app; [apply clean_compute|]|].
    apply Forall_fmap. eapply Forall_impl; [exact Hall|]. intros t Ht. by apply clean_cons.
  - intros ([_ Hp] & Hm & _ & Hall). constructor; [by apply clean_app; [apply clean_compute|]|].
    apply Forall_app. split.
    + destruct m as [d|]; [|done]. destruct (Hm d eq_refl) as [_ Hd].
      constructor; [|done]. by apply clean_app; [apply clean_compute|].
    + apply Forall_concat, Forall_fmap. eapply Forall_impl; [exact Hall|].
      intros h (Hc & Hs & _). unfold hunk_lines. constructor.
      { destruct (hunk_context h); [|by apply clean_compute].
        by apply clean_app; [apply clean_compute|apply Hc]. }
      apply Forall_app. split; [|by destruct (hunk_eof h); repeat constructor; apply clean_compute].
      apply Forall_fmap. eapply Forall_impl; [exact Hs|]. intros [t|t|t] Ht; by apply clean_cons.
  - intros [_ Hp]. constructor; [by apply clean_app; [apply clean_compute|]|done].
Qed.

Lemma parser_new_written crlf ops :
  Forall writable ops →
  parser_new (write_patch crlf ops) =
    Ok {| rest := concat (operation_lines <$> ops); cursor := 1; path_bytes := 0 |}.
Proof.
  intros Hw. unfold parser_new, write_patch.
  rewrite document_lines.
  2:{ unfold patch_lines. constructor; [by apply clean_compute|]. apply Forall_app. split.
      - apply Forall_concat, Forall_fmap. eapply Forall_impl; [exact Hw|].
        apply operation_lines_clean.
      - repeat constructor; by apply clean_compute. }
  unfold patch_lines. rewrite app_comm_cons, drop_empty_last by done. cbv zeta.
  rewrite (bool_decide_eq_true_2 (head _ = _)) by done.
  rewrite (bool_decide_eq_true_2 (last _ = _)) by (by rewrite last_snoc).
  cbn [negb]. rewrite length_app, Nat.add_sub, take_app_length. cbn [drop]. by rewrite drop_0.
Qed.

(** C5: writing and parsing a patch: one to 256 operations, whose paths the parser accepts and
    whose total stays within the budget, written one line at a time with either line ending,
    parse to exactly these operations: the contents of every added file, every destination,
    and every hunk with its context, its two sides, its kept lines and its end-of-file mark. *)
Theorem parse_write_round_trip crlf ops :
  0 < len ops ≤ MAXIMUM_PATCH_OPERATIONS → Forall writable ops →
  zsum (operation_path_bytes <$> ops) ≤ MAXIMUM_PATCH_PATH_BYTES_TOTAL →
  parse_patch (write_patch crlf ops) = Ok (parsed <$> ops).
Proof.
  intros Hlen Hw Hle. unfold parse_patch. rewrite parser_new_written by done. cbn [obind].
  rewrite (parse_operations_written ops); cbn [rest path_bytes app]; try done.
  - pose proof (operations_length ops). lia.
  - unfold len in *. by rewrite length_fmap.
Qed.

Definition sample_path : SafePath := {| path_text := lit "src/a.rs"; components := [lit "src"; lit "a.rs"] |}.
Definition sample_patch : list PatchOperation :=
  [WAdd sample_path [lit "one"; []];
   WUpdate sample_path (Some sample_path)
     [{| hunk_context := Some (lit "fn f");
         script := [Keep (lit "a"); Del (lit "b"); Add (lit "c")]; hunk_eof := true |}];
   WDelete sample_path].

Lemma sample_writable : Forall writable sample_patch.
Proof.
  assert (path_ok sample_path) as Hp by (split; [by vm_compute|by apply clean_compute]).
  constructor; [|constructor; [|by constructor]].
  - split_and!; [done|done|]. repeat (constructor; [by apply clean_compute|]). constructor.
  - split_and!; [done|by intros ? [= <-]|done|]. constructor; [|done]. split_and!; [|..|done].
    + intros ? [= <-]. by apply clean_compute.
    + repeat (constructor; [by apply clean_compute|]). constructor.
Qed.

Lemma parse_write_round_trip_witness :
  parse_patch (write_patch true sample_patch) = Ok (parsed <$> sample_patch).
Proof.
  apply parse_write_round_trip; [by vm_compute|exact sample_writable|by vm_compute].
Defined.

Lemma parse_patch_sound_witness :
  parse_patch (write_patch false sample_patch) ≠ Panic ∧
  0 < len (parsed <$> sample_patch) ≤ MAXIMUM_PATCH_OPERATIONS ∧
  Forall operation_ok (parsed <$> sample_patch).
Proof.
  pose proof (parse_patch_sound (write_patch false sample_patch)) as [Hp Hok].
  split; [done|]. apply Hok. by vm_compute.
Defined.
