(* ===== verification/ToolOrigin.v ===== *)
(** * The provenance of Tool calls

    [crates/rsi-agent/kernel/src/tool_origin.rs]: the Kernel rebuilds from the events of a
    completed model response which Tool calls it contains, and lets each of them be used
    once.  [ToolSource] is that proof.  The bytes of a call's arguments arrive in pieces;
    the source keeps them in chunks that its clones share ([Arc<Mutex<Vec<u8>>>]), each
    clone seeing a prefix of its own.  The operations are written over the interface
    [ArgumentBuffer] of such a byte sequence: the instance [chunked] is the code's, over a
    heap of shared buffers, and [flat] a plain list of bytes; [chunks_refine_flat] is the
    refinement between them, and the clients use [flat].

    An [Arc] to a call is a plain value (its contents are only replaced, through
    [make_mut]).  JSON values, their parser behind the two guards of
    [parse_tool_arguments], and the SHA-256 fingerprint are the parameters [Json].  A
    string of an event is its UTF-8 bytes where its bytes matter. *)

From S2P Require Import Prelude BTree Utf8 Text.

(** The errors of [TurnError] this code produces, with their messages. *)
Inductive TurnError :=
| Invalid (message : string)
| Capacity
| StaleClaim
| Invariant (message : string).

Definition invalid (message : string) : TurnError :=
  Invalid ("Tool model origin: " +:+ message).

(** serde's values, and what the code asks of them. *)
Class Json := {
  Value : Type;
  json_string : list Z → Value;
  strict_json : list Z → option Value;
  argument_digest : Value → list Z
}.

Definition MAXIMUM_TOOL_JSON_BYTES : Z := 4 * 1024 * 1024.
Definition MAX_LANGUAGE_OUTPUT_BYTES : Z := 32 * 1024 * 1024.
Definition MAX_CONTENT_BLOCKS : Z := 256.
Definition CHUNK_BYTES : Z := 64 * 1024.

Definition parse_tool_arguments `{Json} (raw : list Z) : option Value :=
  if bool_decide (raw = []) || (MAXIMUM_TOOL_JSON_BYTES <? len raw) then None
  else strict_json raw.

(** ** Events *)
Inductive ToolCallKind := Function_ | Freeform.
Inductive ContentStart := StartText | StartReasoning | StartToolCall (id name : text) (kind : ToolCallKind).
Inductive ContentDelta := DeltaText (t : list Z) | DeltaReasoning (t : list Z)
                        | DeltaToolArguments (delta : list Z).
Inductive FinishReason := Stop | ToolCalls | MaxTokensReason | ContentFilter | CancelledReason.
Inductive LanguageEvent :=
| ContentStarted (index : Z) (content : ContentStart)
| ContentDelta_ (index : Z) (delta : ContentDelta)
| ContentFinished (index : Z)
| SourceEvent
| WarningEvent
| UsageEvent
| Finished (reason : FinishReason)
| Failed.

(** ** Shared chunks *)

Notation heap := (list (list Z)).

(** A handle: the buffer it shares and the length of the prefix it sees. *)
Record ArgumentChunk := { data : nat; visible : nat }.

Definition chunk_new (h : heap) : heap * ArgumentChunk :=
  (h ++ [[]], {| data := length h; visible := 0 |}).

(** [ArgumentChunk::append]: the chunk afterwards and how many bytes went in. *)
Definition append (h : heap) (c : ArgumentChunk) (remaining : list Z)
  : outcome TurnError (heap * ArgumentChunk * nat) :=
  (let? room := expect (checked_sub CHUNK_BYTES (Z.of_nat (visible c))) in
   let n := Z.to_nat (Z.min (len remaining) room) in
   let? buffer := expect (h !! data c) in
   if bool_decide (length buffer = visible c)
   then Ok (<[data c := buffer ++ take n remaining]> h,
            {| data := data c; visible := visible c + n |}, n)
   else
     if bool_decide (visible c ≤ length buffer)%nat
     then Ok (h ++ [take (visible c) buffer ++ take n remaining],
              {| data := length h; visible := visible c + n |}, n)
     else Panic)%outcome.

(** The loop of the delta: every round consumes at least one byte. *)
Fixpoint push_chunks (fuel : nat) (h : heap) (chunks : list ArgumentChunk) (remaining : list Z)
  : outcome TurnError (heap * list ArgumentChunk) :=
  match fuel with
  | O => Panic
  | S fuel =>
      if bool_decide (remaining = []) then Ok (h, chunks)
      else
        let '(h1, chunks1) :=
          if match last chunks with
             | Some c => Z.of_nat (visible c) =? CHUNK_BYTES
             | None => true
             end
          then let '(h1, c) := chunk_new h in (h1, chunks ++ [c])
          else (h, chunks) in
        (let? c := expect (last chunks1) in
         let? (h2, c', n) := append h1 c remaining in
         push_chunks fuel h2 (take (length chunks1 - 1) chunks1 ++ [c']) (drop n remaining))%outcome
  end.

(** What a handle sees, and the bytes collected when a call ends. *)
Definition chunk_bytes (h : heap) (c : ArgumentChunk) : list Z :=
  take (visible c) (default [] (h !! data c)).
Definition contents (h : heap) (chunks : list ArgumentChunk) : list Z :=
  concat (chunk_bytes h <$> chunks).

(** ** The interface of an argument buffer *)
Class ArgumentBuffer (M B : Type) := {
  buffer_empty : B;
  buffer_push : M → B → list Z → outcome TurnError (M * B);
  buffer_bytes : M → B → list Z
}.

#[export] Instance chunked : ArgumentBuffer heap (list ArgumentChunk) := {|
  buffer_empty := [];
  buffer_push := λ h chunks delta, push_chunks (S (length delta)) h chunks delta;
  buffer_bytes := contents
|}.

#[export] Instance flat : ArgumentBuffer unit (list Z) := {|
  buffer_empty := [];
  buffer_push := λ _ raw delta, Ok (tt, raw ++ delta);
  buffer_bytes := λ _ raw, raw
|}.

(** ** Sources *)
Record ModelRef := { deployment : text; model : text }.
Record ModelSelection := { selected_model : ModelRef; reasoning_effort : option text }.

(** The parts of a prepared call's snapshot the source reads. *)
Record PreparedCallSnapshot := {
  deployment_id : text;
  snapshot_model : text;
  language_settings : option (option text)
}.

Inductive Arguments (B : Type) :=
| Building (chunks : B) (bytes : Z)
| Complete (digest : option (list Z))
| Consumed.
Arguments Building {B} chunks bytes.
Arguments Complete {B} digest.
Arguments Consumed {B}.

Record Call (B : Type) := {
  call_id : text;
  call_name : text;
  call_kind : ToolCallKind;
  arguments : Arguments B
}.
Arguments call_id {B} c.
Arguments call_name {B} c.
Arguments call_kind {B} c.
Arguments arguments {B} c.

Record ToolSource (B : Type) := {
  effect_id : text;
  selection : option ModelSelection;
  tools : option (list text);
  completed : bool;
  source_bytes : Z;
  calls : bmap (Call B)
}.
Arguments effect_id {B} t.
Arguments selection {B} t.
Arguments tools {B} t.
Arguments completed {B} t.
Arguments source_bytes {B} t.
Arguments calls {B} t.
Arguments Build_ToolSource {B} effect_id selection tools completed source_bytes calls.
Arguments Build_Call {B} call_id call_name call_kind arguments.

Definition MAX_ID_BYTES : Z := 255.

(** [rsi_ai_protocol::validate_identifier] (the bytes of an accepted text are its scalars). *)
Definition ai_identifier (t : text) : bool :=
  negb (bool_decide (t = []) || (MAX_ID_BYTES <? text_len t) ||
        negb (forallb (λ c, (33 <=? c) && (c <=? 126)) t)).

Definition ai_identifier_error (field : string) : string :=
  "invalid AI contract: " +:+ field +:+
  " must contain 1..=255 non-whitespace printable ASCII bytes".

Definition model_ref_new (d m : text) : outcome TurnError ModelRef :=
  if negb (ai_identifier d) then Err (invalid (ai_identifier_error "deployment"))
  else if negb (ai_identifier m) then Err (invalid (ai_identifier_error "model"))
  else Ok {| deployment := d; model := m |}.

Definition source_new {B} (effect : text) (snapshot : PreparedCallSnapshot)
    (names : option (list text)) : outcome TurnError (ToolSource B) :=
  (let? sel :=
     match language_settings snapshot with
     | None => Ok None
     | Some effort =>
         let? m := model_ref_new (deployment_id snapshot) (snapshot_model snapshot) in
         Ok (Some {| selected_model := m; reasoning_effort := effort |})
     end in
   Ok {| effect_id := effect; selection := sel; tools := names; completed := false;
         source_bytes := 0; calls := [] |})%outcome.

Definition with_arguments {B} (c : Call B) (a : Arguments B) : Call B :=
  {| call_id := call_id c; call_name := call_name c; call_kind := call_kind c; arguments := a |}.
Definition set_calls {B} (s : ToolSource B) (m : bmap (Call B)) : ToolSource B :=
  {| effect_id := effect_id s; selection := selection s; tools := tools s;
     completed := completed s; source_bytes := source_bytes s; calls := m |}.
Definition set_source_bytes {B} (s : ToolSource B) (n : Z) : ToolSource B :=
  {| effect_id := effect_id s; selection := selection s; tools := tools s;
     completed := completed s; source_bytes := n; calls := calls s |}.
Definition set_completed {B} (s : ToolSource B) (b : bool) : ToolSource B :=
  {| effect_id := effect_id s; selection := selection s; tools := tools s;
     completed := b; source_bytes := source_bytes s; calls := calls s |}.

Definition is_building {B} (a : Arguments B) : bool :=
  match a with Building _ _ => true | _ => false end.
Definition is_complete {B} (a : Arguments B) : bool :=
  match a with Complete _ => true | _ => false end.

Section operations.
Context `{J : Json} {M B : Type} `{AB : ArgumentBuffer M B}.

Definition start_call (s : ToolSource B) (index : Z) (id name : text) (kind : ToolCallKind)
  : outcome TurnError (ToolSource B) :=
  if completed s || (len (calls s) =? MAX_CONTENT_BLOCKS) || bt_contains index (calls s) ||
     existsb (λ e, bool_decide (call_id e.2 = id)) (calls s)
  then Err (invalid "duplicate or excessive call")
  else Ok (set_calls s (bt_insert index
             {| call_id := id; call_name := name; call_kind := kind;
                arguments := Building buffer_empty 0 |} (calls s))).

Definition add_arguments (h : M) (s : ToolSource B) (index : Z) (delta : list Z)
  : outcome TurnError (M * ToolSource B) :=
  (let? call := ok_or (bt_get index (calls s)) (invalid "arguments have no call") in
   match arguments call with
   | Building chunks bytes =>
       let? total := ok_or (checked_add usize_max (source_bytes s) (len delta))
                       (invalid "argument size overflow") in
       let? own := ok_or (checked_add usize_max bytes (len delta))
                     (invalid "argument size overflow") in
       if (MAX_LANGUAGE_OUTPUT_BYTES <? total) || (MAXIMUM_TOOL_JSON_BYTES <? own)
       then Err (invalid "argument byte budget exceeded")
       else
         let? (h', chunks') := buffer_push h chunks delta in
         Ok (h', set_calls (set_source_bytes s total)
                   (bt_insert index (with_arguments call (Building chunks' own)) (calls s)))
   | _ => Err (invalid "arguments follow call completion")
   end)%outcome.

(** The fingerprint of a finished call: [None] for JSON that does not parse. *)
Definition finish_arguments (kind : ToolCallKind) (raw : list Z) : option (list Z) :=
  argument_digest <$>
  match kind with
  | Function_ => parse_tool_arguments raw
  | Freeform => Some (json_string raw)
  end.

Definition finish_call (h : M) (s : ToolSource B) (index : Z) : outcome TurnError (ToolSource B) :=
  match bt_get index (calls s) with
  | None => Ok s
  | Some call =>
      match arguments call with
      | Building chunks _ =>
          let raw := buffer_bytes h chunks in
          if utf8_valid raw
          then Ok (set_calls s (bt_insert index
                     (with_arguments call (Complete (finish_arguments (call_kind call) raw)))
                     (calls s)))
          else Err (invalid "invalid argument UTF-8")
      | _ => Err (invalid "duplicate call completion")
      end
  end.

Definition observe (h : M) (s : ToolSource B) (event : LanguageEvent)
  : outcome TurnError (M * ToolSource B) :=
  match event with
  | ContentStarted index (StartToolCall id name kind) =>
      (let? s' := start_call s index id name kind in Ok (h, s'))%outcome
  | ContentDelta_ index (DeltaToolArguments delta) => add_arguments h s index delta
  | ContentFinished index => (let? s' := finish_call h s index in Ok (h, s'))%outcome
  | Finished reason =>
      if existsb (λ e, is_building (arguments e.2)) (calls s)
      then Err (invalid "model finished with an open call")
      else Ok (h, set_completed s (match reason with ToolCalls => true | _ => false end))
  | _ => Ok (h, s)
  end.

(** Whether an event can change the source ([observe_shared] leaves it shared otherwise). *)
Definition changes_source (s : ToolSource B) (event : LanguageEvent) : bool :=
  match event with
  | ContentStarted _ (StartToolCall _ _ _)
  | ContentDelta_ _ (DeltaToolArguments _)
  | Finished _ => true
  | ContentFinished index => bt_contains index (calls s)
  | _ => false
  end.

Definition observe_shared (h : M) (s : ToolSource B) (event : LanguageEvent)
  : outcome TurnError (M * ToolSource B) :=
  if changes_source s event then observe h s event else Ok (h, s).

Definition pending_source (s : ToolSource B) : option text :=
  if completed s && existsb (λ e, is_complete (arguments e.2)) (calls s)
  then Some (effect_id s) else None.

Definition supersede (s : ToolSource B) (source : text) : outcome TurnError (ToolSource B) :=
  if negb (bool_decide (pending_source s = Some source))
  then Err (invalid "supersession has no outstanding completed source")
  else Ok (set_calls s
             ((λ e, (e.1, if is_complete (arguments e.2) then with_arguments e.2 Consumed else e.2))
              <$> calls s)).

Definition consume_call (s : ToolSource B) (source id name : text) (value : Value)
  : outcome TurnError (ToolSource B) :=
  if negb (bool_decide (effect_id s = source)) || negb (completed s)
  then Err (invalid "source is not the completed Conversation")
  else
    match list_find (λ e, call_id e.2 = id) (calls s) with
    | None => Err (invalid "call ID does not occur in source")
    | Some (_, (index, call)) =>
        if negb (bool_decide (call_name call = name)) ||
           negb (match arguments call with
                 | Complete (Some actual) => bool_decide (actual = argument_digest value)
                 | _ => false
                 end)
        then Err (invalid "call name or arguments disagree, or call was already consumed")
        else Ok (set_calls s (bt_insert index (with_arguments call Consumed) (calls s)))
    end.

Definition reject := consume_call.

Definition consume (s : ToolSource B) (source id name : text) (value : Value)
  : outcome TurnError (ToolSource B * ModelSelection) :=
  (let? sel := ok_or (selection s) (invalid "source has no prepared language settings") in
   let? s' := consume_call s source id name value in
   Ok (s', sel))%outcome.

Fixpoint observe_all (h : M) (s : ToolSource B) (events : list LanguageEvent)
  : outcome TurnError (M * ToolSource B) :=
  match events with
  | [] => Ok (h, s)
  | e :: rest => (let? (h', s') := observe_shared h s e in observe_all h' s' rest)%outcome
  end.

Lemma observe_shared_eq h s e : observe_shared h s e = observe h s e.
Proof.
  unfold observe_shared. destruct (changes_source s e) eqn:Hc; [done|].
  destruct e as [i [| |]|i []|i| | | | |]; try done. simpl in *. unfold bt_contains in Hc.
  unfold finish_call. by destruct (bt_get i (calls s)).
Qed.
End operations.
#[global] Arguments CHUNK_BYTES : simpl never.
#[global] Arguments MAXIMUM_TOOL_JSON_BYTES : simpl never.
#[global] Arguments MAX_LANGUAGE_OUTPUT_BYTES : simpl never.

(** ** Shared chunks behave as plain byte lists *)

(** A heap grows: every buffer keeps its bytes and stays within the chunk size. *)
Definition grows (h h' : heap) : Prop :=
  ∀ i buffer, h !! i = Some buffer → ∃ more, h' !! i = Some (buffer ++ more).

Definition chunk_wf (h : heap) (c : ArgumentChunk) : Prop :=
  Z.of_nat (visible c) ≤ CHUNK_BYTES ∧
  ∃ buffer, h !! data c = Some buffer ∧ (visible c ≤ length buffer)%nat.

#[global] Instance grows_preorder : PreOrder grows.
Proof.
  split.
  - intros h i buffer Hi. exists []. by rewrite app_nil_r.
  - intros h1 h2 h3 H12 H23 i buffer Hi. destruct (H12 _ _ Hi) as [m1 Hi2].
    destruct (H23 _ _ Hi2) as [m2 Hi3]. exists (m1 ++ m2). by rewrite app_assoc.
Qed.

Lemma grows_snoc h buffer : grows h (h ++ [buffer]).
Proof.
  intros i b Hi. exists []. rewrite app_nil_r. by apply lookup_app_l_Some.
Qed.

Lemma grows_insert h i buffer more :
  h !! i = Some buffer → grows h (<[i := buffer ++ more]> h).
Proof.
  intros Hi j b Hj. destruct (decide (j = i)) as [->|Hne].
  - simplify_eq. exists more. by rewrite list_lookup_insert_eq by (by eapply lookup_lt_Some).
  - exists []. by rewrite list_lookup_insert_ne, app_nil_r.
Qed.

Lemma chunk_wf_grows h h' c :
  grows h h' → chunk_wf h c → chunk_wf h' c ∧ chunk_bytes h' c = chunk_bytes h c.
Proof.
  intros Hg (Hv & buffer & Hb & Hle). destruct (Hg _ _ Hb) as [more Hb']. split.
  - split; [done|]. exists (buffer ++ more). rewrite length_app. split; [done|lia].
  - unfold chunk_bytes. rewrite Hb, Hb'. simpl. rewrite take_app_le by lia. done.
Qed.

Lemma contents_grows h h' chunks :
  grows h h' → Forall (chunk_wf h) chunks →
  Forall (chunk_wf h') chunks ∧ contents h' chunks = contents h chunks.
Proof.
  intros Hg. induction 1 as [|c chunks Hc Hcs [IHw IHc]]; [done|].
  destruct (chunk_wf_grows h h' c Hg Hc) as [Hw Hb]. split; [by constructor|].
  unfold contents in *. csimpl. by rewrite Hb, IHc.
Qed.

(** The number of bytes an append takes. *)
Definition taken (c : ArgumentChunk) (remaining : list Z) : nat :=
  Z.to_nat (Z.min (len remaining) (CHUNK_BYTES - Z.of_nat (visible c))).

Lemma append_spec h c remaining :
  chunk_wf h c →
  ∃ h' c', append h c remaining = Ok (h', c', taken c remaining) ∧ grows h h' ∧ chunk_wf h' c' ∧
    chunk_bytes h' c' = chunk_bytes h c ++ take (taken c remaining) remaining.
Proof.
  intros (Hv & buffer & Hb & Hle). unfold append, taken.
  rewrite checked_sub_fits by done. cbn [expect obind]. rewrite Hb. cbn [expect obind].
  set (n := Z.to_nat _). assert (n ≤ length remaining)%nat as Hn by (subst n; unfold len; lia).
  assert (Z.of_nat (visible c + n) ≤ CHUNK_BYTES) as Hc by (subst n; unfold len; lia).
  case_bool_decide as Heq.
  - do 2 eexists. split; [reflexivity|]. split; [by apply grows_insert|].
    pose proof (list_lookup_insert_eq h (data c) (buffer ++ take n remaining)
      (lookup_lt_Some _ _ _ Hb)) as Hb'.
    split; [split; [done|]; eexists; split; [exact Hb'|]; simpl;
            rewrite length_app, length_take; lia|].
    unfold chunk_bytes. cbn [data visible]. rewrite Hb', Hb. cbn [default from_option id].
    rewrite (take_ge (_ ++ _)) by (rewrite length_app, length_take; lia).
    by rewrite (take_ge buffer) by lia.
  - rewrite bool_decide_eq_true_2 by done. do 2 eexists. split; [reflexivity|].
    split; [apply grows_snoc|].
    assert ((h ++ [take (visible c) buffer ++ take n remaining]) !! length h =
            Some (take (visible c) buffer ++ take n remaining)) as Hb'
      by (by rewrite lookup_app_r, Nat.sub_diag).
    split; [split; [done|]; eexists; split; [exact Hb'|]; simpl;
            rewrite length_app, !length_take; lia|].
    unfold chunk_bytes. cbn [data visible]. rewrite Hb', Hb. cbn [default from_option id].
    by rewrite (take_ge (_ ++ _)) by (rewrite length_app, !length_take; lia).
Qed.

Lemma contents_app h a b : contents h (a ++ b) = contents h a ++ contents h b.
Proof. unfold contents. by rewrite fmap_app, concat_app. Qed.

Lemma contents_snoc h chunks c : contents h (chunks ++ [c]) = contents h chunks ++ chunk_bytes h c.
Proof. rewrite contents_app. unfold contents at 2. csimpl. by rewrite app_nil_r. Qed.

(** The handle the loop appends to: the last one, or a new one. *)
Lemma chunk_for_append h chunks :
  Forall (chunk_wf h) chunks →
  ∃ h1 before c,
    (if match last chunks with
        | Some c => Z.of_nat (visible c) =? CHUNK_BYTES
        | None => true
        end
     then let '(h1, c) := chunk_new h in (h1, chunks ++ [c]) else (h, chunks))
      = (h1, before ++ [c]) ∧
    grows h h1 ∧ Forall (chunk_wf h1) before ∧ chunk_wf h1 c ∧
    contents h1 (before ++ [c]) = contents h chunks ∧ Z.of_nat (visible c) < CHUNK_BYTES.
Proof.
  intros Hwf. destruct (match last chunks with Some _ => _ | None => _ end) eqn:Hlast.
  - exists (h ++ [[]]), chunks, {| data := length h; visible := 0 |}.
    assert ((h ++ [[]]) !! length h = Some []) as Hnew by (by rewrite lookup_app_r, Nat.sub_diag).
    destruct (contents_grows h (h ++ [[]]) chunks (grows_snoc h []) Hwf) as [Hwf' Hc].
    split_and!; try done; [apply grows_snoc|split; [done|eexists; split; [exact Hnew|simpl; lia]]|].
    rewrite contents_snoc, Hc. unfold chunk_bytes. cbn [data visible]. by rewrite Hnew, app_nil_r.
  - destruct (last chunks) as [c|] eqn:Hc; [|done].
    apply last_Some in Hc as [before ->]. apply Forall_app in Hwf as [Hb Hcw].
    apply Forall_cons in Hcw as [Hcw _]. exists h, before, c.
    split_and!; try done. destruct Hcw as [? _]. lia.
Qed.

Lemma push_chunks_spec fuel h chunks delta :
  (length delta < fuel)%nat → Forall (chunk_wf h) chunks →
  ∃ h' chunks', push_chunks fuel h chunks delta = Ok (h', chunks') ∧ grows h h' ∧
    Forall (chunk_wf h') chunks' ∧ contents h' chunks' = contents h chunks ++ delta.
Proof.
  revert h chunks delta. induction fuel as [|fuel IH]; intros h chunks delta Hfuel Hwf; [lia|].
  cbn [push_chunks]. case_bool_decide as Hd.
  { subst. exists h, chunks. by rewrite app_nil_r. }
  destruct (chunk_for_append h chunks Hwf) as (h1 & before & c & -> & Hg1 & Hb & Hc & Hcon & Hroom).
  rewrite last_snoc. cbn [expect obind].
  destruct (append_spec h1 c delta Hc) as (h2 & c' & -> & Hg2 & Hc' & Hbytes). cbn [obind].
  assert (0 < taken c delta)%nat as Hpos.
  { unfold taken, len. destruct delta; [done|]. simpl length. lia. }
  rewrite length_app, Nat.add_sub, take_app_length.
  destruct (contents_grows h1 h2 before Hg2 Hb) as [Hb2 Hbc].
  destruct (IH h2 (before ++ [c']) (drop (taken c delta) delta)) as (h3 & chunks3 & -> & Hg3 & Hw & Hall).
  - rewrite length_drop. destruct delta; [done|]. simpl in *. lia.
  - apply Forall_app. split; [done|by constructor].
  - exists h3, chunks3. split_and!; [done|by do 2 (etrans; [eassumption|])|done|].
    rewrite Hall, contents_snoc, Hbc, Hbytes, <- Hcon, contents_snoc, <- !app_assoc.
    by rewrite take_drop.
Qed.

(** *** Maps of calls under a function on the calls *)
Definition bt_map {V W} (f : V → W) (m : bmap V) : bmap W := (λ e, (e.1, f e.2)) <$> m.

Section bt_map.
Context {V W : Type} (f : V → W).
Implicit Types (m : bmap V).

Lemma bt_get_map k m : bt_get k (bt_map f m) = f <$> bt_get k m.
Proof. induction m as [|[j v] m IH]; csimpl; [done|]. by case_match. Qed.

Lemma bt_insert_map k v m : bt_insert k (f v) (bt_map f m) = bt_map f (bt_insert k v m).
Proof.
  induction m as [|[j w] m IH]; csimpl; [done|]. repeat case_match; csimpl; try done; try lia.
  by rewrite <- IH.
Qed.

Lemma len_map m : len (bt_map f m) = len m.
Proof. unfold len, bt_map. by rewrite length_fmap. Qed.

Lemma bt_contains_map k m : bt_contains k (bt_map f m) = bt_contains k m.
Proof. unfold bt_contains. rewrite bt_get_map. by destruct (bt_get k m). Qed.

Lemma existsb_map (P : V → bool) (Q : W → bool) m :
  (∀ v, Q (f v) = P v) → existsb (λ e, Q e.2) (bt_map f m) = existsb (λ e, P e.2) m.
Proof. intros HPQ. induction m as [|[j w] m IH]; csimpl; [done|]. by rewrite HPQ, <- IH. Qed.

Lemma list_find_map (P : Z * V → Prop) (Q : Z * W → Prop)
    `{∀ x, Decision (P x)} `{∀ x, Decision (Q x)} m :
  (∀ e, Q (e.1, f e.2) ↔ P e) →
  list_find Q (bt_map f m) = prod_map id (λ e, (e.1, f e.2)) <$> list_find P m.
Proof.
  intros HPQ. unfold bt_map. rewrite list_find_fmap. f_equal.
  apply list_find_ext. intros e. unfold compose. apply HPQ.
Qed.
End bt_map.

(** *** The view of a source *)
Definition view_arguments (h : heap) (a : Arguments (list ArgumentChunk)) : Arguments (list Z) :=
  match a with
  | Building chunks bytes => Building (contents h chunks) bytes
  | Complete digest => Complete digest
  | Consumed => Consumed
  end.

Definition view_call (h : heap) (c : Call (list ArgumentChunk)) : Call (list Z) :=
  {| call_id := call_id c; call_name := call_name c; call_kind := call_kind c;
     arguments := view_arguments h (arguments c) |}.

Definition view_source (h : heap) (s : ToolSource (list ArgumentChunk)) : ToolSource (list Z) :=
  {| effect_id := effect_id s; selection := selection s; tools := tools s;
     completed := completed s; source_bytes := source_bytes s;
     calls := bt_map (view_call h) (calls s) |}.

Definition call_wf (h : heap) (c : Call (list ArgumentChunk)) : Prop :=
  match arguments c with Building chunks _ => Forall (chunk_wf h) chunks | _ => True end.

Definition source_wf (h : heap) (s : ToolSource (list ArgumentChunk)) : Prop :=
  Forall (λ e, call_wf h e.2) (calls s).

Lemma call_grows h h' c :
  grows h h' → call_wf h c → call_wf h' c ∧ view_call h' c = view_call h c.
Proof.
  intros Hg. unfold call_wf, view_call. destruct (arguments c) as [chunks bytes|d|]; [|done|done].
  intros Hw. destruct (contents_grows h h' chunks Hg Hw) as [? Hc]. split; [done|].
  simpl. by rewrite Hc.
Qed.

Lemma source_grows h h' s :
  grows h h' → source_wf h s → source_wf h' s ∧ view_source h' s = view_source h s.
Proof.
  intros Hg Hw. unfold source_wf, view_source, bt_map in *.
  assert (Forall (λ e, call_wf h' e.2) (calls s) ∧
    ((λ e : Z * Call _, (e.1, view_call h' e.2)) <$> calls s) =
    ((λ e : Z * Call _, (e.1, view_call h e.2)) <$> calls s)) as [? ->]; [|done].
  induction Hw as [|e m He Hm [IHw IHv]]; [done|]. rewrite !fmap_cons.
  destruct (call_grows h h' e.2 Hg He) as [? ->]. split; [by constructor|]. by rewrite IHv.
Qed.

Lemma source_wf_get h s index c : source_wf h s → bt_get index (calls s) = Some c → call_wf h c.
Proof. intros Hw Hc%bt_get_elem. unfold source_wf in Hw. rewrite Forall_forall in Hw. by apply (Hw (index, c)). Qed.

Lemma source_wf_insert h s index c :
  source_wf h s → call_wf h c → source_wf h (set_calls s (bt_insert index c (calls s))).
Proof. intros. by apply bt_insert_Forall. Qed.

(** *** One step of the two sources *)
Section refine.
Context `{J : Json}.
Implicit Types (h : heap) (s : ToolSource (list ArgumentChunk)).

(** What refining a step of [s] in [h] means: the same error, or corresponding sources in
    a heap that grew. *)
Definition corresponds {A} (view : heap → A → ToolSource (list Z) → Prop) h
    (r : outcome TurnError (heap * A)) (v : outcome TurnError (unit * ToolSource (list Z))) : Prop :=
  match r, v with
  | Ok (h', s'), Ok (_, v') => grows h h' ∧ view h' s' v'
  | Err e, Err e' => e = e'
  | _, _ => False
  end.

Definition viewed h s (v : ToolSource (list Z)) : Prop := source_wf h s ∧ v = view_source h s.

Lemma view_ids h m id :
  existsb (λ e, bool_decide (call_id e.2 = id)) (bt_map (view_call h) m) =
  existsb (λ e, bool_decide (call_id e.2 = id)) m.
Proof. induction m as [|[i c] m IH]; [done|]. csimpl. by rewrite <- IH. Qed.

Lemma view_building h m :
  existsb (λ e, is_building (arguments e.2)) (bt_map (view_call h) m) =
  existsb (λ e, is_building (arguments e.2)) m.
Proof.
  apply (existsb_map _ (λ c, is_building (arguments c)) (λ c, is_building (arguments c))).
  intros c. unfold view_call. simpl. by destruct (arguments c).
Qed.

Lemma view_complete h m :
  existsb (λ e, is_complete (arguments e.2)) (bt_map (view_call h) m) =
  existsb (λ e, is_complete (arguments e.2)) m.
Proof.
  apply (existsb_map _ (λ c, is_complete (arguments c)) (λ c, is_complete (arguments c))).
  intros c. unfold view_call. simpl. by destruct (arguments c).
Qed.

Lemma start_refines h s index id name kind :
  source_wf h s →
  corresponds viewed h (let? s' := start_call s index id name kind in Ok (h, s'))%outcome
    (let? v' := start_call (view_source h s) index id name kind in Ok (tt, v'))%outcome.
Proof.
  intros Hw. unfold start_call. cbn [view_source calls completed].
  rewrite len_map, bt_contains_map, view_ids.
  destruct (_ || _); [done|]. cbn [obind]. split; [reflexivity|]. split.
  - apply source_wf_insert; [done|constructor].
  - unfold view_source. cbn [set_calls calls effect_id selection tools completed source_bytes].
    by rewrite <- (bt_insert_map (view_call h)).
Qed.

Lemma add_refines h s index delta :
  source_wf h s →
  corresponds viewed h (add_arguments h s index delta) (add_arguments tt (view_source h s) index delta).
Proof.
  intros Hw. unfold add_arguments. cbn [view_source calls source_bytes]. rewrite bt_get_map.
  destruct (bt_get index (calls s)) as [c|] eqn:Hc; [|done]. cbn [fmap option_fmap option_map ok_or obind].
  pose proof (source_wf_get h s index c Hw Hc) as Hcw. unfold call_wf in Hcw.
  cbn [view_call arguments]. destruct (arguments c) as [chunks bytes|d|] eqn:Ha; [|done|done].
  cbn [view_arguments].
  destruct (checked_add _ (source_bytes s) _) as [total|]; [cbn [ok_or obind]|done].
  destruct (checked_add _ bytes _) as [own|]; [cbn [ok_or obind]|done].
  destruct (_ || _); [done|].
  destruct (push_chunks_spec (S (length delta)) h chunks delta) as (h' & chunks' & Hp & Hg & Hwf & Hcon);
    [lia|done|].
  cbn [buffer_push chunked flat]. rewrite Hp. cbn [obind corresponds]. split; [done|].
  destruct (source_grows h h' s Hg Hw) as [Hw' Hv]. split.
  - apply bt_insert_Forall; [exact Hwf|exact Hw'].
  - unfold view_source in *. injection Hv as Hv. cbn [set_calls set_source_bytes calls effect_id selection
      tools completed source_bytes]. f_equal. rewrite <- (bt_insert_map (view_call h')), Hv.
    f_equal. unfold view_call, with_arguments. cbn. by rewrite Hcon.
Qed.

Lemma finish_call_refines h s index :
  source_wf h s →
  corresponds viewed h (let? s' := finish_call h s index in Ok (h, s'))%outcome
    (let? v' := finish_call tt (view_source h s) index in Ok (tt, v'))%outcome.
Proof.
  intros Hw. unfold finish_call. cbn [view_source calls]. rewrite bt_get_map.
  destruct (bt_get index (calls s)) as [c|] eqn:Hc; [|by repeat split].
  cbn [fmap option_fmap option_map view_call arguments].
  destruct (arguments c) as [chunks bytes|d|] eqn:Ha; [|done|done].
  cbn [view_arguments buffer_bytes chunked flat].
  destruct (utf8_valid _); [|done]. cbn [obind]. split; [reflexivity|]. split.
  - by apply source_wf_insert.
  - unfold view_source. cbn [set_calls calls effect_id selection tools completed source_bytes].
    by rewrite <- (bt_insert_map (view_call h)).
Qed.

Lemma observe_refines h s e :
  source_wf h s → corresponds viewed h (observe h s e) (observe tt (view_source h s) e).
Proof.
  intros Hw. destruct e as [index [| |id name kind]|index [| |delta]|index| | | |reason|]; try (split; [reflexivity|by split]).
  - by apply start_refines.
  - by apply add_refines.
  - by apply finish_call_refines.
  - unfold observe. cbn [view_source calls].
    rewrite view_building.
    destruct (existsb _ _); [done|]. split; [reflexivity|by split].
Qed.
End refine.

(** ** Histories with clones

    A Turn is cloned before Facts are staged on it, so several sources share chunks and
    are extended independently; a refused step leaves its source as it was, but keeps what
    the heap received. *)
Inductive source_op `{Json} :=
| Open (effect : text) (snapshot : PreparedCallSnapshot) (names : option (list text))
| Clone (i : nat)
| Observe (i : nat) (event : LanguageEvent)
| Consume_ (i : nat) (source id name : text) (value : Value)
| Supersede (i : nat) (source : text).

Section histories.
Context `{J : Json} {M B : Type} `{AB : ArgumentBuffer M B}.

Definition put (t : list (ToolSource B)) (i : nat) (r : outcome TurnError (ToolSource B))
  : list (ToolSource B) * outcome TurnError unit :=
  match r with
  | Ok s' => (<[i := s']> t, Ok tt)
  | Err e => (t, Err e)
  | Panic => (t, Panic)
  end.

Definition source_step (h : M) (t : list (ToolSource B)) (op : source_op)
  : M * (list (ToolSource B) * outcome TurnError unit) :=
  match op with
  | Open effect snapshot names =>
      (h, match source_new effect snapshot names with
          | Ok s => (t ++ [s], Ok tt)
          | Err e => (t, Err e)
          | Panic => (t, Panic)
          end)
  | Clone i => (h, match t !! i with Some s => (t ++ [s], Ok tt) | None => (t, Ok tt) end)
  | Observe i e =>
      match t !! i with
      | None => (h, (t, Ok tt))
      | Some s =>
          match observe_shared h s e with
          | Ok (h', s') => (h', put t i (Ok s'))
          | Err err => (h, put t i (Err err))
          | Panic => (h, put t i Panic)
          end
      end
  | Consume_ i source id name value =>
      (h, match t !! i with
          | Some s => put t i (consume_call s source id name value)
          | None => (t, Ok tt)
          end)
  | Supersede i source =>
      (h, match t !! i with Some s => put t i (supersede s source) | None => (t, Ok tt) end)
  end.

Fixpoint source_run (h : M) (t : list (ToolSource B)) (ops : list source_op)
  : M * list (ToolSource B) * list (outcome TurnError unit) :=
  match ops with
  | [] => (h, t, [])
  | op :: rest =>
      let '(h1, (t1, r)) := source_step h t op in
      let '(h2, t2, log) := source_run h1 t1 rest in
      (h2, t2, r :: log)
  end.
End histories.

Section refine_histories.
Context `{J : Json}.
Implicit Types (h : heap) (t : list (ToolSource (list ArgumentChunk))).

Lemma table_grows h h' t :
  grows h h' → Forall (source_wf h) t →
  Forall (source_wf h') t ∧ view_source h' <$> t = view_source h <$> t.
Proof.
  intros Hg. induction 1 as [|s t Hs Ht [IHw IHv]]; [done|]. rewrite !fmap_cons.
  destruct (source_grows h h' s Hg Hs) as [? Hv]. split; [by constructor|]. by rewrite Hv, IHv.
Qed.

Lemma table_get h t i s : Forall (source_wf h) t → t !! i = Some s → source_wf h s.
Proof. intros Hw Hi. by eapply Forall_lookup_1 in Hw. Qed.

Definition same_result h (r : outcome TurnError (ToolSource (list ArgumentChunk)))
    (v : outcome TurnError (ToolSource (list Z))) : Prop :=
  match r, v with
  | Ok s', Ok v' => viewed h s' v'
  | Err e, Err e' => e = e'
  | _, _ => False
  end.

(** A settled slot, on both sides. *)
Lemma put_refines h t i r v :
  Forall (source_wf h) t → same_result h r v →
  Forall (source_wf h) (put t i r).1 ∧
  put (view_source h <$> t) i v = (view_source h <$> (put t i r).1, (put t i r).2) ∧
  (put t i r).2 ≠ Panic.
Proof.
  intros Hw Hr. destruct r as [s'|e|], v as [v'|e'|]; try done; cbn [put fst snd].
  - destruct Hr as [Hs ->]. split_and!; [by apply Forall_insert| |done].
    by rewrite list_fmap_insert.
  - simpl in Hr. by subst.
Qed.

Lemma view_consume h s source id name value :
  source_wf h s →
  same_result h (consume_call s source id name value)
    (consume_call (view_source h s) source id name value).
Proof.
  intros Hw. unfold consume_call. cbn [view_source effect_id completed calls].
  destruct (_ || _); [done|].
  rewrite (list_find_map (view_call h) (λ e, call_id e.2 = id) (λ e, call_id e.2 = id)) by done.
  destruct (list_find _ (calls s)) as [[k [index c]]|]; [|done].
  cbn [fmap option_fmap option_map prod_map fst snd view_call call_name arguments].
  replace (match view_arguments h (arguments c) with
           | Complete (Some actual) => bool_decide (actual = argument_digest value)
           | _ => false
           end) with (match arguments c with
           | Complete (Some actual) => bool_decide (actual = argument_digest value)
           | _ => false
           end) by by destruct (arguments c).
  destruct (_ || _); [done|]. split; [by apply source_wf_insert|].
  unfold view_source. cbn [set_calls calls effect_id selection tools completed source_bytes].
  by rewrite <- (bt_insert_map (view_call h)).
Qed.

Lemma view_pending h s : pending_source (view_source h s) = pending_source s.
Proof. unfold pending_source. cbn [view_source completed calls effect_id]. by rewrite view_complete. Qed.

Lemma view_supersede h s source :
  source_wf h s →
  same_result h (supersede s source) (supersede (view_source h s) source).
Proof.
  intros Hw. unfold supersede. rewrite view_pending. destruct (negb _); [done|]. split.
  - unfold source_wf. cbn [set_calls calls]. apply Forall_fmap. eapply Forall_impl; [exact Hw|].
    intros [i c] Hc. unfold compose. simpl in *. by destruct (is_complete (arguments c)).
  - unfold view_source. cbn [set_calls calls effect_id selection tools completed source_bytes].
    f_equal. unfold bt_map. rewrite <- !list_fmap_compose. apply list_fmap_ext.
    intros j [i c] _. unfold compose. simpl. f_equal. unfold view_call, with_arguments. simpl.
    destruct (arguments c) eqn:Ha; simpl; by rewrite ?Ha.
Qed.

Lemma source_new_views h effect snapshot names :
  same_result h (source_new effect snapshot names) (source_new effect snapshot names).
Proof.
  unfold source_new. destruct (language_settings snapshot) as [effort|]; [|split; [constructor|done]].
  unfold model_ref_new. destruct (negb (ai_identifier (deployment_id snapshot))); [done|].
  destruct (negb _); [done|]. split; [constructor|done].
Qed.

Lemma step_refines h t op :
  Forall (source_wf h) t →
  let '(h', (t', r)) := source_step h t op in
  let '(_, (v', r')) := source_step tt (view_source h <$> t) op in
  grows h h' ∧ Forall (source_wf h') t' ∧ v' = view_source h' <$> t' ∧ r = r' ∧ r ≠ Panic.
Proof.
  intros Hw. destruct op as [effect snapshot names|i|i e|i source id name value|i source]; cbn [source_step].
  - pose proof (source_new_views h effect snapshot names) as Hn.
    unfold same_result in Hn.
    destruct (source_new (B:=list ArgumentChunk) _ _ _) as [s|e|],
      (source_new (B:=list Z) _ _ _) as [v|e'|]; try done.
    + destruct Hn as [Hs ->]. split_and!; try done.
      * apply Forall_app. split; [done|by constructor].
      * by rewrite fmap_app.
    + subst. by split_and!.
  - rewrite list_lookup_fmap. destruct (t !! i) as [s|] eqn:Hi; cbn [fmap option_fmap option_map];
      [|by split_and!].
    split_and!; try done; [|by rewrite fmap_app].
    apply Forall_app. split; [done|]. constructor; [by eapply table_get|done].
  - rewrite list_lookup_fmap. destruct (t !! i) as [s|] eqn:Hi; cbn [fmap option_fmap option_map];
      [|by split_and!].
    rewrite !observe_shared_eq. pose proof (observe_refines h s e (table_get h t i s Hw Hi)) as Ho.
    destruct (observe h s e) as [[h' s']|err|], (observe tt _ e) as [[[] v']|err'|]; try done.
    + destruct Ho as (Hg & Hs' & ->). destruct (table_grows h h' t Hg Hw) as [Hw' Hv].
      cbn [put]. split_and!; try done; [by apply Forall_insert|].
      by rewrite <- Hv, list_fmap_insert.
    + simpl in Ho. subst. by split_and!.
  - rewrite list_lookup_fmap. destruct (t !! i) as [s|] eqn:Hi; cbn [fmap option_fmap option_map];
      [|by split_and!].
    pose proof (view_consume h s source id name value (table_get h t i s Hw Hi)) as Hc.
    edestruct (put_refines h t i) as (Hf & Hp & Hn); [done|exact Hc|].
    rewrite Hp. destruct (put t i _) as [t' r]. simpl in *. by split_and!.
  - rewrite list_lookup_fmap. destruct (t !! i) as [s|] eqn:Hi; cbn [fmap option_fmap option_map];
      [|by split_and!].
    pose proof (view_supersede h s source (table_get h t i s Hw Hi)) as Hc.
    edestruct (put_refines h t i) as (Hf & Hp & Hn); [done|exact Hc|].
    rewrite Hp. destruct (put t i _) as [t' r]. simpl in *. by split_and!.
Qed.

Lemma source_run_refines ops h t :
  Forall (source_wf h) t →
  let '(h', t', log) := source_run h t ops in
  let '(_, v', vlog) := source_run tt (view_source h <$> t) ops in
  v' = view_source h' <$> t' ∧ log = vlog ∧ Panic ∉ log.
Proof.
  revert h t. induction ops as [|op ops IH]; intros h t Hw; [by split_and!; [..|set_solver]|].
  cbn [source_run]. pose proof (step_refines h t op Hw) as Hs.
  destruct (source_step h t op) as [h1 [t1 r]].
  destruct (source_step tt _ op) as [[] [v1 r1]].
  destruct Hs as (_ & Hw1 & -> & <- & Hr). specialize (IH h1 t1 Hw1).
  destruct (source_run h1 t1 ops) as [[h2 t2] log].
  destruct (source_run tt _ ops) as [[[] v2] vlog].
  destruct IH as (-> & -> & Hlog). split_and!; [done|done|].
  rewrite not_elem_of_cons. by split.
Qed.

(** Sharing is invisible: in every history of opening, cloning, feeding and settling
    sources, in any interleaving, the sources whose clones share argument buffers answer
    every operation as sources that each own a list of bytes, end with the same bytes, and
    never panic: no clone sees what another one appended. *)
Lemma chunks_refine_flat ops :
  let '(h, t, log) := source_run (B:=list ArgumentChunk) [] [] ops in
  let '(_, v, vlog) := source_run (B:=list Z) tt [] ops in
  v = view_source h <$> t ∧ log = vlog ∧ Panic ∉ log.
Proof. apply (source_run_refines ops [] []). constructor. Qed.
End refine_histories.

(** ** What a source authorises *)

Definition tool_start (i : Z) (e : LanguageEvent) : bool :=
  match e with ContentStarted j (StartToolCall _ _ _) => j =? i | _ => false end.
Definition call_end (i : Z) (e : LanguageEvent) : bool :=
  match e with ContentFinished j => j =? i | _ => false end.
Definition argument_delta (i : Z) (e : LanguageEvent) : list Z :=
  match e with
  | ContentDelta_ j (DeltaToolArguments delta) => if j =? i then delta else []
  | _ => []
  end.

(** The argument bytes of block [i] in a piece of the stream. *)
Definition argument_bytes (i : Z) (events : list LanguageEvent) : list Z :=
  concat (argument_delta i <$> events).

Definition finish_reason (e : LanguageEvent) : option FinishReason :=
  match e with Finished reason => Some reason | _ => None end.

(** Whether the response ended by asking for its Tool calls. *)
Definition asks_for_tools (events : list LanguageEvent) : Prop :=
  last (omap finish_reason events) = Some ToolCalls.

(** A use of a call: its identity, the Tool's name and the arguments. *)
Record use `{Json} := { use_id : text; use_name : text; use_value : Value }.

Section authority.
Context `{J : Json}.
Implicit Types (s : ToolSource (list Z)) (events : list LanguageEvent) (u : use).

(** The stream has a block that starts the call [u], ends, and whose argument bytes in
    between stand for the arguments of [u]. *)
Definition emitted events u : Prop :=
  ∃ before i kind during after,
    events = before ++ ContentStarted i (StartToolCall (use_id u) (use_name u) kind) ::
             during ++ ContentFinished i :: after ∧
    Forall (λ e, call_end i e = false) during ∧
    finish_arguments kind (argument_bytes i during) = Some (argument_digest (use_value u)).

Definition authorised events u : Prop := asks_for_tools events ∧ emitted events u.

Fixpoint consume_all s (source : text) (uses : list use) : outcome TurnError (ToolSource (list Z)) :=
  match uses with
  | [] => Ok s
  | u :: rest =>
      (let? s' := consume_call s source (use_id u) (use_name u) (use_value u) in
       consume_all s' source rest)%outcome
  end.

(** How a call of the source comes from the stream. *)
Definition call_from events (i : Z) (c : Call (list Z)) : Prop :=
  ∃ before after,
    events = before ++ ContentStarted i (StartToolCall (call_id c) (call_name c) (call_kind c)) :: after ∧
    match arguments c with
    | Building raw _ =>
        raw = argument_bytes i after ∧ Forall (λ e, call_end i e = false) after
    | Complete d =>
        ∃ during rest, after = during ++ ContentFinished i :: rest ∧
          Forall (λ e, call_end i e = false) during ∧
          d = finish_arguments (call_kind c) (argument_bytes i during)
    | Consumed => False
    end.

Definition distinct_ids (m : bmap (Call (list Z))) : Prop :=
  ∀ i j c d, bt_get i m = Some c → bt_get j m = Some d → call_id c = call_id d → i = j.

Record from_stream events s : Prop := {
  fs_calls : ∀ i c, bt_get i (calls s) = Some c → call_from events i c;
  fs_starts : ∀ i e, e ∈ events → tool_start i e = true → is_Some (bt_get i (calls s));
  fs_single : ∀ i, (length (filter (λ e, tool_start i e = true) events) ≤ 1)%nat;
  fs_completed : completed s = true ↔ asks_for_tools events;
  fs_ids : distinct_ids (calls s);
  fs_wf : bt_wf (calls s)
}.

Lemma argument_bytes_snoc i events e :
  argument_bytes i (events ++ [e]) = argument_bytes i events ++ argument_delta i e.
Proof. unfold argument_bytes. rewrite fmap_app, concat_app. csimpl. by rewrite app_nil_r. Qed.

Lemma call_from_extend events e i c :
  call_from events i c → argument_delta i e = [] →
  (is_building (arguments c) = true → call_end i e = false) → call_from (events ++ [e]) i c.
Proof.
  intros (before & after & -> & Ha) Hd He. exists before, (after ++ [e]).
  split; [by rewrite <- app_assoc|]. destruct (arguments c) as [raw bytes|d|]; [| |done].
  - destruct Ha as [-> Hend]. rewrite argument_bytes_snoc, Hd, app_nil_r. split; [done|].
    apply Forall_app. split; [done|]. constructor; [by apply He|done].
  - destruct Ha as (during & rest & -> & Hend & ->). exists during, (rest ++ [e]).
    by rewrite <- app_assoc.
Qed.

Lemma asks_snoc events e :
  asks_for_tools (events ++ [e]) ↔
    match finish_reason e with Some r => r = ToolCalls | None => asks_for_tools events end.
Proof.
  unfold asks_for_tools. rewrite omap_app. simpl. destruct (finish_reason e) as [r|].
  - rewrite last_snoc. naive_solver.
  - by rewrite app_nil_r.
Qed.

(** An event that opens no call keeps the clauses about starts. *)
Lemma starts_extend events e (m m' : bmap (Call (list Z))) :
  (∀ i e', e' ∈ events → tool_start i e' = true → is_Some (bt_get i m)) →
  (∀ i, is_Some (bt_get i m) → is_Some (bt_get i m')) →
  (∀ i, tool_start i e = false) →
  ∀ i e', e' ∈ events ++ [e] → tool_start i e' = true → is_Some (bt_get i m').
Proof.
  intros Hs Hm He i e' [Hin| ->%list_elem_of_singleton]%elem_of_app Ht; [by eapply Hm, Hs|].
  by rewrite He in Ht.
Qed.

Lemma single_extend events e :
  (∀ i, (length (filter (λ e, tool_start i e = true) events) ≤ 1)%nat) →
  (∀ i, tool_start i e = false) →
  ∀ i, (length (filter (λ e, tool_start i e = true) (events ++ [e])) ≤ 1)%nat.
Proof.
  intros Hs He i. rewrite filter_app, filter_cons_False, filter_nil, app_nil_r by (by rewrite He).
  done.
Qed.

Lemma distinct_update (m : bmap (Call (list Z))) i c a :
  distinct_ids m → bt_get i m = Some c → distinct_ids (bt_insert i (with_arguments c a) m).
Proof.
  intros Hd Hi j k cj ck. rewrite !bt_get_insert. intros Hj Hk Hid.
  destruct (Z.eqb_spec j i) as [->|Hji], (Z.eqb_spec k i) as [->|Hki]; simplify_eq; [done|..].
  - by apply (Hd i k c ck).
  - by apply (Hd j i cj c).
  - by apply (Hd j k cj ck).
Qed.

(** Events that leave the calls alone. *)
Lemma observe_other events s e b :
  from_stream events s → (∀ i, argument_delta i e = []) → (∀ i, tool_start i e = false) →
  (∀ i c, bt_get i (calls s) = Some c → is_building (arguments c) = true → call_end i e = false) →
  (b = true ↔ asks_for_tools (events ++ [e])) → from_stream (events ++ [e]) (set_completed s b).
Proof.
  intros [Hc Hst Hsi Hco Hid Hwf] Hd Ht He Hb. split; cbn [set_completed calls completed]; try done.
  - intros i c Hi. eapply call_from_extend; [by apply Hc|done|]. intros. by eapply He.
  - by eapply starts_extend.
  - by apply single_extend.
Qed.

Lemma observe_start events s i id name kind s' :
  from_stream events s → start_call s i id name kind = Ok s' →
  from_stream (events ++ [ContentStarted i (StartToolCall id name kind)]) s'.
Proof.
  intros [Hc Hst Hsi Hco Hid Hwf]. unfold start_call. destruct (_ || _) eqn:Hg; [done|].
  intros [= <-]. apply orb_false_iff in Hg as [[[Hcomp Hlen]%orb_false_iff Hi]%orb_false_iff Hids].
  set (e := ContentStarted i (StartToolCall id name kind)).
  assert (bt_get i (calls s) = None) as Hnone
    by (unfold bt_contains in Hi; by destruct (bt_get i (calls s))).
  assert (∀ j c, bt_get j (calls s) = Some c → call_id c ≠ id) as Hfresh.
  { intros j c Hj Heq. apply bt_get_elem in Hj. apply not_true_iff_false in Hids.
    apply Hids, existsb_exists. exists (j, c). split; [by apply list_elem_of_In|].
    simpl. by rewrite bool_decide_eq_true_2. }
  split; cbn [set_calls calls completed].
  - intros j c. rewrite bt_get_insert. destruct (Z.eqb_spec j i) as [->|Hne].
    + intros [= <-]. exists events, []. by split.
    + intros Hj. by eapply call_from_extend; [apply Hc| |].
  - intros j e' [Hin| ->%list_elem_of_singleton]%elem_of_app Ht; rewrite bt_get_insert.
    + destruct (j =? i); [done|]. by eapply Hst.
    + simpl in Ht. rewrite Z.eqb_sym, Ht. done.
  - intros j. rewrite filter_app, length_app. simpl. destruct (decide (tool_start j e = true)) as [Ht|Ht].
    + rewrite filter_cons_True, filter_nil by done. simpl in Ht. apply Z.eqb_eq in Ht as <-.
      destruct (filter _ events) as [|e' l] eqn:Hf; [simpl; lia|].
      assert (e' ∈ filter (λ e, tool_start i e = true) events) as Hin by (rewrite Hf; set_solver).
      apply list_elem_of_filter in Hin as [Ht Hin]. destruct (Hst i e' Hin Ht). congruence.
    + rewrite filter_cons_False, filter_nil by done. specialize (Hsi j). simpl. lia.
  - by rewrite asks_snoc.
  - intros j k c d. rewrite !bt_get_insert.
    destruct (Z.eqb_spec j i) as [->|Hji], (Z.eqb_spec k i) as [->|Hki]; intros; simplify_eq; try done.
    + exfalso. by eapply Hfresh.
    + exfalso. by eapply Hfresh.
    + by eapply Hid.
  - by apply bt_wf_insert.
Qed.

Lemma observe_delta events s i delta h s' :
  from_stream events s → add_arguments tt s i delta = Ok (h, s') →
  from_stream (events ++ [ContentDelta_ i (DeltaToolArguments delta)]) s'.
Proof.
  intros [Hc Hst Hsi Hco Hid Hwf]. unfold add_arguments.
  destruct (bt_get i (calls s)) as [c|] eqn:Hi; [cbn [ok_or obind]|done].
  destruct (arguments c) as [raw bytes|d|] eqn:Ha; [|done|done].
  destruct (checked_add _ (source_bytes s) _) as [total|]; [cbn [ok_or obind]|done].
  destruct (checked_add _ bytes _) as [own|]; [cbn [ok_or obind]|done].
  destruct (_ || _); [done|]. cbn [buffer_push flat obind]. intros [= <- <-].
  split; cbn [set_calls set_source_bytes calls completed].
  - intros j c'. rewrite bt_get_insert. destruct (Z.eqb_spec j i) as [->|Hne].
    + intros [= <-]. destruct (Hc i c Hi) as (before & after & -> & Hb). rewrite Ha in Hb.
      destruct Hb as [-> Hend]. eexists before, (after ++ [_]). split; [by rewrite <- app_assoc|].
      cbn [with_arguments arguments]. rewrite argument_bytes_snoc. simpl. rewrite Z.eqb_refl.
      split; [done|]. apply Forall_app. split; [done|by constructor].
    + intros Hj. eapply call_from_extend; [by apply Hc| |done]. simpl. by destruct (Z.eqb_spec i j); [lia|].
  - eapply starts_extend; [done| |done]. intros j. rewrite bt_get_insert. by destruct (j =? i).
  - by apply single_extend.
  - by rewrite asks_snoc.
  - by apply distinct_update.
  - by apply bt_wf_insert.
Qed.

Lemma observe_end events s i s' :
  from_stream events s → finish_call tt s i = Ok s' → from_stream (events ++ [ContentFinished i]) s'.
Proof.
  intros Hf. unfold finish_call. destruct (bt_get i (calls s)) as [c|] eqn:Hi.
  2:{ intros [= <-]. replace s with (set_completed s (completed s)) by by destruct s.
      apply observe_other; try done.
      - intros j c Hj _. simpl. destruct (Z.eqb_spec i j) as [->|]; [congruence|done].
      - rewrite asks_snoc. apply Hf. }
  destruct Hf as [Hc Hst Hsi Hco Hid Hwf].
  destruct (arguments c) as [raw bytes|d|] eqn:Ha; [|done|done]. cbn [buffer_bytes flat].
  destruct (utf8_valid raw); [|done]. intros [= <-].
  split; cbn [set_calls calls completed].
  - intros j c'. rewrite bt_get_insert. destruct (Z.eqb_spec j i) as [->|Hne].
    + intros [= <-]. destruct (Hc i c Hi) as (before & after & -> & Hb). rewrite Ha in Hb.
      destruct Hb as [-> Hend]. exists before, (after ++ [ContentFinished i]).
      split; [by rewrite <- app_assoc|]. cbn [with_arguments arguments call_kind].
      by exists after, [].
    + intros Hj. eapply call_from_extend; [by apply Hc|done|]. intros _. simpl. by destruct (Z.eqb_spec i j); [lia|].
  - eapply starts_extend; [done| |done]. intros j. rewrite bt_get_insert. by destruct (j =? i).
  - by apply single_extend.
  - by rewrite asks_snoc.
  - by apply distinct_update.
  - by apply bt_wf_insert.
Qed.

Lemma observe_from_stream events s e h s' :
  from_stream events s → observe tt s e = Ok (h, s') → from_stream (events ++ [e]) s'.
Proof.
  intros Hf. destruct e as [i [| |id name kind]|i [d|d|d]|i| | | |r|]; cbn [observe].
  3:{ intros (s1 & Hs & [= <- <-])%obind_ok. by eapply observe_start. }
  5:{ by apply observe_delta. }
  5:{ intros (s1 & Hs & [= <- <-])%obind_ok. by eapply observe_end. }
  8:{ destruct (existsb _ _) eqn:Hb; [done|]. intros [= <- <-]. apply observe_other; try done.
      rewrite asks_snoc. simpl. by destruct r. }
  all: intros [= <- <-]; replace s with (set_completed s (completed s)) by (by destruct s);
    apply observe_other; try done; rewrite asks_snoc; apply Hf.
Qed.

Lemma observe_all_from_stream events s more h s' :
  from_stream events s → observe_all tt s more = Ok (h, s') → from_stream (events ++ more) s'.
Proof.
  revert events s. induction more as [|e more IH]; intros events s Hf; cbn [observe_all].
  { intros [= <- <-]. by rewrite app_nil_r. }
  rewrite observe_shared_eq. intros ([[] s1] & Ho & Hk)%obind_ok.
  replace (events ++ e :: more) with ((events ++ [e]) ++ more) by by rewrite <- app_assoc.
  eapply IH; [|exact Hk]. by eapply observe_from_stream.
Qed.

(** *** Using calls *)
Definition callable s u : Prop :=
  completed s = true ∧
  ∃ i c, bt_get i (calls s) = Some c ∧ call_id c = use_id u ∧ call_name c = use_name u ∧
    arguments c = Complete (Some (argument_digest (use_value u))).

Lemma find_call s id c i :
  distinct_ids (calls s) → bt_wf (calls s) → bt_get i (calls s) = Some c → call_id c = id →
  ∃ k, list_find (λ e, call_id e.2 = id) (calls s) = Some (k, (i, c)).
Proof.
  intros Hd Hwf Hi Hid.
  destruct (list_find (λ e, call_id e.2 = id) (calls s)) as [[k [j d]]|] eqn:Hf.
  - apply list_find_Some in Hf as (Hk & Hdid & _). simpl in Hdid.
    apply list_elem_of_lookup_2, bt_elem_get in Hk; [|done].
    assert (i = j) as -> by (apply (Hd i j c d); congruence). simplify_eq. by exists k.
  - apply list_find_None in Hf. rewrite Forall_forall in Hf.
    by apply bt_get_elem, Hf in Hi.
Qed.

Lemma consume_call_ok s u s' :
  distinct_ids (calls s) → bt_wf (calls s) →
  consume_call s (effect_id s) (use_id u) (use_name u) (use_value u) = Ok s' ↔
    completed s = true ∧
    ∃ i c, bt_get i (calls s) = Some c ∧ call_id c = use_id u ∧ call_name c = use_name u ∧
      arguments c = Complete (Some (argument_digest (use_value u))) ∧
      s' = set_calls s (bt_insert i (with_arguments c Consumed) (calls s)).
Proof.
  intros Hd Hwf. unfold consume_call. rewrite bool_decide_eq_true_2 by done. cbn [negb orb].
  destruct (completed s); [cbn [negb]|naive_solver]. split.
  - destruct (list_find _ _) as [[k [i c]]|] eqn:Hf; [|done].
    apply list_find_Some in Hf as (Hk & Hid & _). simpl in Hid.
    apply list_elem_of_lookup_2, bt_elem_get in Hk; [|done].
    destruct (_ || _) eqn:Hg; [done|]. intros [= <-].
    apply orb_false_iff in Hg as [Hn%negb_false_iff Ha%negb_false_iff].
    apply bool_decide_eq_true in Hn. split; [done|]. exists i, c. split_and!; try done.
    destruct (arguments c) as [|[actual|]|]; try done. apply bool_decide_eq_true in Ha. by subst.
  - intros (_ & i & c & Hi & Hid & Hn & Ha & ->).
    destruct (find_call s (use_id u) c i Hd Hwf Hi Hid) as [k ->].
    by rewrite Hn, Ha, !bool_decide_eq_true_2.
Qed.

Lemma callable_consumed s u s' v :
  distinct_ids (calls s) → bt_wf (calls s) →
  consume_call s (effect_id s) (use_id u) (use_name u) (use_value u) = Ok s' →
  (callable s' v ↔ use_id v ≠ use_id u ∧ callable s v) ∧
  effect_id s' = effect_id s ∧ distinct_ids (calls s') ∧ bt_wf (calls s').
Proof.
  intros Hd Hwf (Hco & i & c & Hi & Hid & Hn & Ha & ->)%consume_call_ok; [|done..].
  split_and!; [|done|by apply distinct_update|by apply bt_wf_insert].
  unfold callable. cbn [set_calls calls completed]. split.
  - intros (_ & j & d & Hj & Hdid & Hdn & Hda). rewrite bt_get_insert in Hj.
    destruct (Z.eqb_spec j i) as [->|Hne]; [by simplify_eq|]. split; [|by eauto 10].
    intros Heq. apply Hne, (Hd j i d c); congruence.
  - intros (Hne & _ & j & d & Hj & Hdid & Hdn & Hda). split; [done|]. exists j, d.
    rewrite bt_get_insert_ne; [done|]. intros ->. simplify_eq. congruence.
Qed.

Lemma consume_all_ok s uses :
  distinct_ids (calls s) → bt_wf (calls s) →
  is_ok (consume_all s (effect_id s) uses) = true ↔
    NoDup (use_id <$> uses) ∧ Forall (callable s) uses.
Proof.
  revert s. induction uses as [|u uses IH]; intros s Hd Hwf; cbn [consume_all].
  { rewrite fmap_nil. split; [|done]. by repeat constructor. }
  rewrite fmap_cons, NoDup_cons, Forall_cons.
  destruct (consume_call s _ _ _ _) as [s'|e|] eqn:Hc; cbn [obind is_ok].
  - assert (callable s u) as Hu.
    { apply consume_call_ok in Hc as (? & i & c & ? & ? & ? & ? & _); [|done..].
      split; [done|]. by exists i, c. }
    assert (∀ v, callable s' v ↔ use_id v ≠ use_id u ∧ callable s v) as Hv
      by (intros v; by eapply callable_consumed).
    destruct (callable_consumed s u s' u Hd Hwf Hc) as (_ & <- & Hd' & Hwf').
    rewrite (IH s' Hd' Hwf'), !Forall_forall. setoid_rewrite Hv.
    rewrite list_elem_of_fmap. naive_solver.
  - split; [done|]. intros [_ [(Hco & i & c & Hi & Hid & Hn & Ha) _]].
    assert (consume_call s (effect_id s) (use_id u) (use_name u) (use_value u) =
      Ok (set_calls s (bt_insert i (with_arguments c Consumed) (calls s)))) as Heq
      by (apply consume_call_ok; eauto 10). congruence.
  - split; [done|]. intros [_ [(Hco & i & c & Hi & Hid & Hn & Ha) _]].
    assert (consume_call s (effect_id s) (use_id u) (use_name u) (use_value u) =
      Ok (set_calls s (bt_insert i (with_arguments c Consumed) (calls s)))) as Heq
      by (apply consume_call_ok; eauto 10). congruence.
Qed.

(** *** The calls of the stream *)
Lemma single_split {A} (P : A → Prop) `{∀ x, Decision (P x)} (b b' a a' : list A) x x' :
  (length (filter P (b ++ x :: a)) ≤ 1)%nat → b ++ x :: a = b' ++ x' :: a' → P x → P x' →
  b = b' ∧ x = x' ∧ a = a'.
Proof.
  revert b'. induction b as [|y b IH]; intros [|y' b'] Hl Heq Hx Hx'; simplify_eq/=; try done.
  - rewrite filter_cons_True, filter_app, filter_cons_True in Hl by done.
    simpl in Hl. rewrite length_app in Hl. simpl in Hl. lia.
  - rewrite filter_cons_True, filter_app, filter_cons_True in Hl by done.
    simpl in Hl. rewrite length_app in Hl. simpl in Hl. lia.
  - rewrite filter_cons in Hl. destruct (IH b') as (-> & -> & ->); try done.
    destruct (decide (P y')); simpl in Hl; lia.
Qed.

Lemma first_split i (d d' r r' : list LanguageEvent) :
  d ++ ContentFinished i :: r = d' ++ ContentFinished i :: r' →
  Forall (λ e, call_end i e = false) d → Forall (λ e, call_end i e = false) d' → d = d'.
Proof.
  revert d'. induction d as [|y d IH]; intros [|y' d'] Heq Hd Hd'; simplify_eq/=; try done.
  - apply Forall_cons in Hd' as [Hi _]. simpl in Hi. lia.
  - apply Forall_cons in Hd as [Hi _]. simpl in Hi. lia.
  - apply Forall_cons in Hd as [_ Hd], Hd' as [_ Hd']. f_equal. by apply IH.
Qed.

Lemma callable_authorised events s u : from_stream events s → callable s u ↔ authorised events u.
Proof.
  intros [Hc Hst Hsi Hco Hid Hwf]. unfold callable, authorised. rewrite Hco. apply and_iff_compat_l. split.
  - intros (i & c & Hi & Hcid & Hcn & Ha). destruct (Hc i c Hi) as (before & after & -> & Hb).
    rewrite Ha in Hb. destruct Hb as (during & rest & -> & Hend & Hd).
    exists before, i, (call_kind c), during, rest. by rewrite Hcid, Hcn.
  - intros (before & i & kind & during & after & -> & Hend & Hfin).
    destruct (Hst i (ContentStarted i (StartToolCall (use_id u) (use_name u) kind))) as [c Hi];
      [set_solver|simpl; lia|].
    destruct (Hc i c Hi) as (before' & after' & Heq & Hb).
    eapply (single_split (λ e, tool_start i e = true)) in Heq as (-> & [= Hcid Hcn Hck] & Ha);
      [|by apply Hsi|simpl; lia|simpl; lia].
    exists i, c. split_and!; try done. destruct (arguments c) as [raw bytes|d|] eqn:Harg; [|..|done].
    + destruct Hb as [_ Hno]. rewrite <- Ha, Forall_app, Forall_cons in Hno. simpl in Hno. lia.
    + destruct Hb as (during' & rest & Ha' & Hend' & ->). rewrite <- Ha in Ha'.
      apply first_split in Ha' as <-; [|done..]. by rewrite <- Hck, Hfin.
Qed.

Lemma start_call_effect s i id name kind s' :
  start_call s i id name kind = Ok s' → effect_id s' = effect_id s.
Proof. unfold start_call. destruct (_ || _); [done|]. by intros [= <-]. Qed.

Lemma observe_effect s e h s' : observe tt s e = Ok (h, s') → effect_id s' = effect_id s.
Proof.
  destruct e as [i [| |id name kind]|i [d|d|d]|i| | | |r|]; cbn [observe];
    try (by intros [= _ <-]).
  - intros (s1 & Hs & [= <- <-])%obind_ok. by eapply start_call_effect.
  - unfold add_arguments. intros (c & _ & Hk)%obind_ok. destruct (arguments c); [|done|done].
    apply obind_ok in Hk as (total & _ & Hk). apply obind_ok in Hk as (own & _ & Hk).
    destruct (_ || _); [done|]. cbn [buffer_push flat obind] in Hk. by injection Hk as <- <-.
  - unfold finish_call. intros (s1 & Hs & [= <- <-])%obind_ok.
    destruct (bt_get i (calls s)) as [c|]; [|by injection Hs as <-].
    destruct (arguments c); [|done|done]. destruct (utf8_valid _); [|done]. by injection Hs as <-.
  - destruct (existsb _ _); [done|]. by intros [= <- <-].
Qed.

Lemma observe_all_effect s events h s' :
  observe_all tt s events = Ok (h, s') → effect_id s' = effect_id s.
Proof.
  revert s. induction events as [|e events IH]; intros s; cbn [observe_all]; [by intros [= _ <-]|].
  rewrite observe_shared_eq. intros ([[] s1] & Ho & Hk)%obind_ok.
  rewrite (IH s1 Hk). by eapply observe_effect.
Qed.

Lemma source_new_ok effect snapshot names s :
  source_new (B:=list Z) effect snapshot names = Ok s →
  effect_id s = effect ∧ from_stream [] s ∧ tools s = names.
Proof.
  unfold source_new. intros (sel & _ & [= <-])%obind_ok. split_and!; try done. split; try done.
  - intros i e Hin. by apply elem_of_nil in Hin.
  - intros i. simpl. lia.
  - constructor.
Qed.

(** C28: a completed response authorises exactly its own calls, each once: after the events
    of a model attempt were accepted by a new source, a sequence of uses is accepted if and
    only if their call identities are pairwise different and each of them names a call the
    stream started and ended, with its Tool and with arguments whose fingerprint is that of
    the bytes streamed in between, in a response that ended by asking for its calls. *)
Theorem source_authorises_exactly effect snapshot names events s0 s uses :
  source_new effect snapshot names = Ok s0 → observe_all tt s0 events = Ok (tt, s) →
  is_ok (consume_all s effect uses) = true ↔
    NoDup (use_id <$> uses) ∧ Forall (authorised events) uses.
Proof.
  intros (Heff & Hf & _)%source_new_ok Ho.
  pose proof (observe_all_from_stream [] s0 events tt s Hf Ho) as Hs. simpl in Hs.
  apply observe_all_effect in Ho as He. rewrite <- Heff, <- He.
  rewrite consume_all_ok by apply Hs. rewrite !Forall_forall.
  by setoid_rewrite (callable_authorised events s _ Hs).
Qed.
End authority.

(** *** A response with two calls *)
Definition sample_json : Json :=
  {| Value := list Z; json_string := λ raw, raw; strict_json := λ raw, Some raw;
     argument_digest := λ v, v |}.

Definition sample_snapshot : PreparedCallSnapshot :=
  {| deployment_id := lit "actual"; snapshot_model := lit "m"; language_settings := Some None |}.

Definition sample_events : list LanguageEvent :=
  [ContentStarted 0 (StartToolCall (lit "first") (lit "read") Function_);
   ContentDelta_ 0 (DeltaToolArguments (lit "{"));
   ContentDelta_ 0 (DeltaToolArguments (lit "}"));
   ContentFinished 0;
   ContentStarted 1 (StartToolCall (lit "second") (lit "run") Freeform);
   ContentDelta_ 1 (DeltaToolArguments (lit "ls"));
   ContentFinished 1;
   Finished ToolCalls].

Definition sample_source : ToolSource (list Z) :=
  {| effect_id := lit "effect";
     selection := Some {| selected_model := {| deployment := lit "actual"; model := lit "m" |};
                          reasoning_effort := None |};
     tools := None; completed := false; source_bytes := 0; calls := [] |}.

Definition sample_observed : ToolSource (list Z) :=
  match @observe_all sample_json _ _ _ tt sample_source sample_events with
  | Ok (_, s) => s
  | _ => sample_source
  end.

Lemma source_authorises_exactly_witness :
  is_ok (@consume_all sample_json sample_observed (lit "effect")
    [@Build_use sample_json (lit "second") (lit "run") (lit "ls");
     @Build_use sample_json (lit "first") (lit "read") (lit "{}")]) = true ↔
  NoDup [lit "second"; lit "first"] ∧
  Forall (@authorised sample_json sample_events)
    [@Build_use sample_json (lit "second") (lit "run") (lit "ls");
     @Build_use sample_json (lit "first") (lit "read") (lit "{}")].
Proof.
  apply (@source_authorises_exactly sample_json (lit "effect") sample_snapshot None sample_events
    sample_source sample_observed).
  - by vm_compute.
  - by vm_compute.
Defined.
