(* ===== verification/TurnFacts.v ===== *)
(** * The Facts of a Turn

    The part of [SessionFactBody] of [crates/rsi-agent/session-protocol/src/lib.rs] (and of
    the types it carries) that the Kernel's turn state machine reads: payloads that are only
    stored (texts, media, prices, evidence) are left out, the Turn identity common to all
    bodies is kept beside the body ([Fact]).  Structured output contracts compile JSON
    schemas and are the parameter [Contracts]. *)

From S2P Require Import Prelude BTree Text ToolOrigin.

#[export] Instance ModelRef_eq_dec : EqDecision ModelRef.
Proof. solve_decision. Defined.
#[export] Instance ModelSelection_eq_dec : EqDecision ModelSelection.
Proof. solve_decision. Defined.

(** ** Tools *)
Inductive ToolProgramRole := Unavailable | Callable | Coordinator | Workflow.
#[export] Instance ToolProgramRole_eq_dec : EqDecision ToolProgramRole.
Proof. solve_decision. Defined.

Record ToolResultIdentity := {
  owner_id : text;
  invocation_id : text;
  identity_call_id : text;
  request_sha256 : text
}.
#[export] Instance ToolResultIdentity_eq_dec : EqDecision ToolResultIdentity.
Proof. solve_decision. Defined.

Inductive ToolOrigin :=
| OriginModel (effect : text)
| OriginProgram (parent_effect : text) (ordinal : Z).

Definition is_model_origin (o : ToolOrigin) : bool :=
  match o with OriginModel _ => true | _ => false end.

(** [MAXIMUM_PROGRAM_OUTSTANDING_CALLS] of [program.rs]. *)
Definition MAXIMUM_PROGRAM_OUTSTANDING_CALLS : Z := 16.
Definition REPORT_RESULT_TOOL : text := lit "report_result".

(** Compiled output contracts and the summaries they give. *)
Class Contracts `{Json} := {
  OutputContract : Type;
  StructuredResultSummary : Type;
  summary_eq_dec :: EqDecision StructuredResultSummary;
  summarize : OutputContract → Value → option StructuredResultSummary
}.

(** ** Model purposes and attempts *)
Inductive ModelEventPurpose := Conversation | ContextCompaction.
#[export] Instance ModelEventPurpose_eq_dec : EqDecision ModelEventPurpose.
Proof. solve_decision. Defined.

(** [ModelPurpose]: the plan of a compaction is not read here. *)
Inductive ModelPurpose := PurposeConversation | PurposeContextCompaction.
Definition event_purpose (p : ModelPurpose) : ModelEventPurpose :=
  match p with
  | PurposeConversation => Conversation
  | PurposeContextCompaction => ContextCompaction
  end.

(** [ModelAttemptLog]: its decoded events and the cached terminal one. *)
Record ModelAttemptLog := { events : list LanguageEvent; attempt_terminal : LanguageEvent }.

(** ** Inputs *)
Inductive InputClaimRef :=
| Captured (seq ordinal : Z)
| Contributed (preceding ordinal : Z).

(** [InputClaimRef::fact_seq] and [ordinal]. *)
Definition fact_seq (c : InputClaimRef) (decision_seq : Z) : Z :=
  match c with
  | Captured seq _ => seq
  | Contributed preceding _ => saturating_sub decision_seq preceding
  end.
Definition claim_ordinal (c : InputClaimRef) : Z :=
  match c with Captured _ o | Contributed _ o => o end.

Inductive PreparedInput :=
| Claimed (claim : InputClaimRef)
| Replacement (claim : InputClaimRef)
| Added.

(** [StepInputDecision]: [None] is the rejection. *)
Inductive StepInputDecision := Enter (inputs : list PreparedInput) | RejectInput.

Definition decision_messages (d : StepInputDecision) : option (list PreparedInput) :=
  match d with Enter inputs => Some inputs | RejectInput => None end.
Definition decision_claims (d : StepInputDecision) : list InputClaimRef :=
  omap (λ input, match input with
                 | Claimed c | Replacement c => Some c
                 | Added => None
                 end) (default [] (decision_messages d)).

(** ** Application tools *)
Record ApplicationToolBinding := { row_name : text; row_registration : text; row_owner : text }.
Inductive ApplicationToolView :=
| ViewUnavailable (reason : text)
| Ready (generation : text) (receipt_source : option text) (rows : list ApplicationToolBinding).

(** ** Outcomes *)
Record MediaRef := { media_id : text; mime : text; bytes : Z; width : Z; height : Z }.

Definition MAXIMUM_IMAGE_DESCRIPTOR_BYTES : Z := 32 * 1024 * 1024.
Definition MAXIMUM_IMAGE_DIMENSION : Z := 65535.
Definition MAXIMUM_IMAGE_PIXELS : Z := 100000000.

Definition media_validate (m : MediaRef) : outcome string unit :=
  if negb (existsb (λ t, bool_decide (mime m = lit t))
             ["image/png"; "image/jpeg"; "image/webp"; "image/gif"])
  then Err "invalid media input: unsupported published image MIME type"
  else if (bytes m =? 0) || (MAXIMUM_IMAGE_DESCRIPTOR_BYTES <? bytes m)
  then Err "invalid media input: MediaRef byte length is out of bounds"
  else if (width m =? 0) || (height m =? 0) || (MAXIMUM_IMAGE_DIMENSION <? width m) ||
          (MAXIMUM_IMAGE_DIMENSION <? height m) || (MAXIMUM_IMAGE_PIXELS <? width m * height m)
  then Err "invalid media input: MediaRef dimensions are out of bounds"
  else Ok tt.

Inductive EffectKind := EffectModel | EffectImage | EffectTool.

Inductive TurnOutcome :=
| Completed
| Blocked
| Cancelled
| FailedOutcome (code message : text)
| PartialFailed (media : list MediaRef) (code message : text)
| Interrupted (effect : option EffectKind) (reason : text)
| MaxTokens.

Definition MAXIMUM_AGENT_DIAGNOSTIC_BYTES : Z := 4 * 1024.
Definition MAX_IMAGE_OUTPUTS : Z := 10.

Fixpoint media_all (l : list MediaRef) : outcome string unit :=
  match l with
  | [] => Ok tt
  | m :: rest => (let? _ := media_validate m in media_all rest)%outcome
  end.

(** [validate_identifier] and [validate_safe_text] with their errors. *)
Definition check_identifier (kind : string) (t : text) : outcome string unit :=
  if validate_identifier t then Ok tt else Err (identity_error kind).
Definition check_diagnostic (kind : string) (t : text) : outcome string unit :=
  if validate_safe_text t MAXIMUM_AGENT_DIAGNOSTIC_BYTES false then Ok tt
  else Err ("invalid session value: " +:+ kind +:+ " must contain 1..=4096 safe UTF-8 bytes").

(** [TurnOutcome::validate] *)
Definition outcome_validate (o : TurnOutcome) : outcome string unit :=
  match o with
  | Completed | Blocked | Cancelled | MaxTokens => Ok tt
  | FailedOutcome code message =>
      (let? _ := check_identifier "turn failure code" code in
       check_diagnostic "turn failure message" message)%outcome
  | PartialFailed media code message =>
      if bool_decide (media = []) || (MAX_IMAGE_OUTPUTS <? len media)
      then Err "invalid session value: partial image outcome must contain 1..=10 Media references"
      else
        (let? _ := match media_all media with
                   | Err e => Err ("invalid session value: " +:+ e)
                   | r => r
                   end in
         let? _ := check_identifier "turn failure code" code in
         check_diagnostic "turn failure message" message)%outcome
  | Interrupted _ reason => check_diagnostic "turn interruption reason" reason
  end.

(** ** Bodies *)
Section bodies.
Context `{Contracts}.

Record ToolConclusion := { structured : option StructuredResultSummary }.

Record AgentResultRef := {
  child_session_id : text;
  result_activation_id : text;
  result_turn_id : text;
  result_fact_seq : Z;
  result_summary : StructuredResultSummary
}.

(** What the Kernel reads of a [ToolResult]. *)
Record ToolResultValue := { result_value : Value; is_error : bool; additional_contexts : Z }.

Inductive SessionFactBody :=
| TurnAccepted
| MessageTurnAccepted (activation_id : text) (message_ids : list text)
| ImageRequested
| CancelRequested
| StepStarted (step_id : text)
| InputMessageClaimed (step_id : text)
| ToolContextsClaimed (step_id : text) (messages : Z)
| StepInputsPrepared (step_id : text) (decision : StepInputDecision)
| StepPrepared (step_id : text) (names : list text) (application : option ApplicationToolView)
| WorkspaceTouched (step_id : text)
| StepEnded (step_id : text)
| ModelIntent (effect : text) (snapshot : PreparedCallSnapshot) (purpose : ModelPurpose)
| ModelStarted (effect : text)
| ModelAttemptSettled (effect : text) (attempt : ModelAttemptLog) (purpose : ModelEventPurpose)
| ImageIntent (effect : text)
| ImageStarted (effect : text)
| ImageOutput (effect : text) (index : Z)
| ToolIntent (effect : text) (origin : ToolOrigin) (program_role : ToolProgramRole)
    (identity : ToolResultIdentity) (name : text) (arguments : Value) (parallel_safe : bool)
| ToolCallsSuperseded (source_model_effect : text)
| ToolRejected (origin : ToolOrigin) (program_role : ToolProgramRole)
    (identity : ToolResultIdentity) (name : text) (arguments : Value)
| ToolStarted (effect : text) (identity : ToolResultIdentity)
| ToolResult (effect : text) (identity : ToolResultIdentity) (result : ToolResultValue)
    (conclusion : option ToolConclusion)
| TurnTerminal (outcome : TurnOutcome) (result : option AgentResultRef).

(** A Fact: its sequence number and time, the Turn it names, its body. *)
Record SessionFact := { seq : Z; timestamp_ms : Z; turn_id : text; body : SessionFactBody }.

(** What the Kernel reads of the frozen [SessionHeader]: its identity, the Tools its
    delegation policy allows, and the output contract of its initial message. *)
Record SessionHeader := {
  session_id : text;
  delegation_tools : option (list text);
  initial_output : option (text * OutputContract)
}.
End bodies.
