(* ===== verification/TurnState.v ===== *)
(** * The state machine of a Turn

    [crates/rsi-agent/kernel/src/turn_state.rs] with [validate_tool_admission] of
    [execution.rs] and [validate_conclusion] of [structured.rs]: how the Facts of a Turn
    change its [TurnControl], live ([stage]) and at recovery ([apply_recovered_fact]).

    [TurnControl] here is the part of the record the Facts determine; the claim, lease,
    lane, cancellation token and frozen Local catalog of the live process are not part of
    it (the catalog is the argument [local_roles]).  Every caller stages the bodies on a
    clone and drops it when one is refused, so an operation returns the changed Turn or an
    error.  A sorted list of names is searched as the set of its members. *)

From S2P Require Import Prelude BTree Text ToolOrigin TurnFacts.

Record ToolEffect := {
  effect_name : text;
  source_selection : ModelSelection;
  source_tools : option (list text);
  effect_identity : ToolResultIdentity;
  started : bool;
  parallel_safe : bool;
  origin : ToolOrigin;
  program_role : ToolProgramRole;
  next_program_ordinal : Z
}.

Inductive ActiveEffect :=
| ModelEffect (purpose : ModelEventPurpose) (model_started : bool)
| ImageEffect (image_started : bool) (next_index : Z)
| ToolEffect_ (tool : ToolEffect).

Record CapturedRegistration := { owner : text; registration : text }.
Record ApplicationRegistrations := {
  application_source : option text;
  application_tools : gmap text CapturedRegistration
}.
Definition no_registrations : ApplicationRegistrations :=
  {| application_source := None; application_tools := ∅ |}.

Section turn.
Context `{C : Contracts}.

Record TurnControl := {
  pending_inputs : bmap Z;
  input_rejected : bool;
  initial_messages : gset text;
  conclusion : option (Z * ToolConclusion);
  tool_source : option (ToolSource (list Z));
  selected_tools : option (list text);
  application : ApplicationRegistrations;
  accepted_at_ms : Z;
  accepted_seq : Z;
  activation_id : option text;
  current_step : option text;
  terminal : option TurnOutcome;
  cancel_requested : bool;
  effects : gmap text ActiveEffect
}.

Definition turn_new (at_ms seq : Z) : TurnControl :=
  {| pending_inputs := []; input_rejected := false; initial_messages := ∅; conclusion := None;
     tool_source := None; selected_tools := None; application := no_registrations;
     accepted_at_ms := at_ms; accepted_seq := seq; activation_id := None; current_step := None;
     terminal := None; cancel_requested := false; effects := ∅ |}.

(** Assignments to one field (or to the inputs of the Turn). *)
Definition set_inputs (t : TurnControl) (p : bmap Z) (r : bool) : TurnControl :=
  {| pending_inputs := p; input_rejected := r; initial_messages := initial_messages t;
     conclusion := conclusion t; tool_source := tool_source t;
     selected_tools := selected_tools t; application := application t;
     accepted_at_ms := accepted_at_ms t; accepted_seq := accepted_seq t;
     activation_id := activation_id t; current_step := current_step t;
     terminal := terminal t; cancel_requested := cancel_requested t; effects := effects t |}.
Definition set_conclusion (t : TurnControl) (c : option (Z * ToolConclusion)) : TurnControl :=
  {| pending_inputs := pending_inputs t; input_rejected := input_rejected t;
     initial_messages := initial_messages t; conclusion := c; tool_source := tool_source t;
     selected_tools := selected_tools t; application := application t;
     accepted_at_ms := accepted_at_ms t; accepted_seq := accepted_seq t;
     activation_id := activation_id t; current_step := current_step t;
     terminal := terminal t; cancel_requested := cancel_requested t; effects := effects t |}.
Definition set_tool_source (t : TurnControl) (s : option (ToolSource (list Z))) : TurnControl :=
  {| pending_inputs := pending_inputs t; input_rejected := input_rejected t;
     initial_messages := initial_messages t; conclusion := conclusion t; tool_source := s;
     selected_tools := selected_tools t; application := application t;
     accepted_at_ms := accepted_at_ms t; accepted_seq := accepted_seq t;
     activation_id := activation_id t; current_step := current_step t;
     terminal := terminal t; cancel_requested := cancel_requested t; effects := effects t |}.
Definition set_selection (t : TurnControl) (s : option (list text)) (a : ApplicationRegistrations)
  : TurnControl :=
  {| pending_inputs := pending_inputs t; input_rejected := input_rejected t;
     initial_messages := initial_messages t; conclusion := conclusion t;
     tool_source := tool_source t; selected_tools := s; application := a;
     accepted_at_ms := accepted_at_ms t; accepted_seq := accepted_seq t;
     activation_id := activation_id t; current_step := current_step t;
     terminal := terminal t; cancel_requested := cancel_requested t; effects := effects t |}.
Definition set_step (t : TurnControl) (s : option text) : TurnControl :=
  {| pending_inputs := pending_inputs t; input_rejected := input_rejected t;
     initial_messages := initial_messages t; conclusion := conclusion t;
     tool_source := tool_source t; selected_tools := selected_tools t;
     application := application t; accepted_at_ms := accepted_at_ms t;
     accepted_seq := accepted_seq t; activation_id := activation_id t; current_step := s;
     terminal := terminal t; cancel_requested := cancel_requested t; effects := effects t |}.
Definition set_terminal (t : TurnControl) (o : option TurnOutcome) : TurnControl :=
  {| pending_inputs := pending_inputs t; input_rejected := input_rejected t;
     initial_messages := initial_messages t; conclusion := conclusion t;
     tool_source := tool_source t; selected_tools := selected_tools t;
     application := application t; accepted_at_ms := accepted_at_ms t;
     accepted_seq := accepted_seq t; activation_id := activation_id t;
     current_step := current_step t; terminal := o;
     cancel_requested := cancel_requested t; effects := effects t |}.
Definition set_cancel (t : TurnControl) : TurnControl :=
  {| pending_inputs := pending_inputs t; input_rejected := input_rejected t;
     initial_messages := initial_messages t; conclusion := conclusion t;
     tool_source := tool_source t; selected_tools := selected_tools t;
     application := application t; accepted_at_ms := accepted_at_ms t;
     accepted_seq := accepted_seq t; activation_id := activation_id t;
     current_step := current_step t; terminal := terminal t;
     cancel_requested := true; effects := effects t |}.
Definition set_effects (t : TurnControl) (e : gmap text ActiveEffect) : TurnControl :=
  {| pending_inputs := pending_inputs t; input_rejected := input_rejected t;
     initial_messages := initial_messages t; conclusion := conclusion t;
     tool_source := tool_source t; selected_tools := selected_tools t;
     application := application t; accepted_at_ms := accepted_at_ms t;
     accepted_seq := accepted_seq t; activation_id := activation_id t;
     current_step := current_step t; terminal := terminal t;
     cancel_requested := cancel_requested t; effects := e |}.
Definition set_acceptance (t : TurnControl) (a : option text) (m : gset text) : TurnControl :=
  {| pending_inputs := pending_inputs t; input_rejected := input_rejected t;
     initial_messages := m; conclusion := conclusion t;
     tool_source := tool_source t; selected_tools := selected_tools t;
     application := application t; accepted_at_ms := accepted_at_ms t;
     accepted_seq := accepted_seq t; activation_id := a;
     current_step := current_step t; terminal := terminal t;
     cancel_requested := cancel_requested t; effects := effects t |}.

(** [TurnControl::accepted] *)
Definition accepted (f : SessionFact) : TurnControl :=
  let control := turn_new (timestamp_ms f) (seq f) in
  match body f with
  | TurnAccepted =>
      set_inputs control (bt_insert (seq f) 1 (pending_inputs control)) (input_rejected control)
  | MessageTurnAccepted activation ids =>
      set_acceptance control (Some activation) (list_to_set ids)
  | _ => control
  end.

Definition ensure_no_active_effect (t : TurnControl) : outcome TurnError unit :=
  if bool_decide (effects t = ∅) then Ok tt else Err (Invalid "external effect already active").

(** ** Steps *)

(** [fact_seq] of a claim within the pending claims: present, and within its batch. *)
Definition claim_known (t : TurnControl) (seq : Z) (c : InputClaimRef) : bool :=
  match bt_get (fact_seq c seq) (pending_inputs t) with
  | None => false
  | Some count => claim_ordinal c <? count
  end.

Definition prepare_inputs (t : TurnControl) (d : StepInputDecision) (seq : Z)
  : outcome TurnError TurnControl :=
  if input_rejected t then Err (Invalid "input preparation follows rejection")
  else if negb (forallb (claim_known t seq) (decision_claims d))
  then Err (Invalid "prepared input is outside the Turn's current claim set")
  else Ok (set_inputs t [] (match decision_messages d with None => true | Some _ => false end)).

Definition capture (rows : list ApplicationToolBinding) : gmap text CapturedRegistration :=
  foldl (λ m row, <[row_name row := {| owner := row_owner row;
                                      registration := row_registration row |}]> m) ∅ rows.

Definition prepare_step (t : TurnControl) (names : list text) (view : option ApplicationToolView)
  : outcome TurnError TurnControl :=
  if match tool_source t with
     | Some source => bool_decide (is_Some (pending_source source))
     | None => false
     end
  then Err (Invalid "Step preparation precedes outstanding Tool call settlement")
  else Ok (set_selection t (Some names)
             (match view with
              | Some (Ready _ receipt rows) =>
                  {| application_source := receipt; application_tools := capture rows |}
              | _ => no_registrations
              end)).

Definition in_step (t : TurnControl) (step : text) : outcome TurnError unit :=
  if bool_decide (current_step t = Some step) then Ok tt
  else Err (Invalid "Step-scoped Fact does not match the open Step").

Definition apply_step_body (t : TurnControl) (b : SessionFactBody) (seq : Z)
  : outcome TurnError TurnControl :=
  match b with
  | StepStarted step =>
      match current_step t with
      | Some _ => Err (Invalid "Step start follows another open Step")
      | None => Ok (set_step (set_tool_source (set_selection t None no_registrations) None) (Some step))
      end
  | InputMessageClaimed step =>
      (let? _ := in_step t step in
       let? _ := ensure_no_active_effect t in
       Ok (set_inputs t (bt_insert seq 1 (pending_inputs t)) (input_rejected t)))%outcome
  | ToolContextsClaimed step messages =>
      (let? _ := in_step t step in
       let? _ := ensure_no_active_effect t in
       if u32_max <? messages then Err Capacity
       else Ok (set_inputs t (bt_insert seq messages (pending_inputs t)) (input_rejected t)))%outcome
  | StepInputsPrepared step decision =>
      (let? _ := in_step t step in
       let? _ := ensure_no_active_effect t in
       prepare_inputs t decision seq)%outcome
  | StepPrepared step names view =>
      (let? _ := in_step t step in
       let? _ := ensure_no_active_effect t in
       prepare_step t names view)%outcome
  | WorkspaceTouched step => (let? _ := in_step t step in Ok t)%outcome
  | StepEnded step =>
      if bool_decide (current_step t = Some step) then Ok (set_step t None)
      else Err (Invalid "Step end does not match the open Step")
  | _ => Panic
  end.

(** ** Models and images *)

Definition conversation_blocked (t : TurnControl) (p : ModelPurpose) : bool :=
  match p with
  | PurposeConversation => negb (bool_decide (pending_inputs t = [])) || input_rejected t
  | PurposeContextCompaction => false
  end.

Definition apply_model_body (t : TurnControl) (b : SessionFactBody) : outcome TurnError TurnControl :=
  match b with
  | ModelIntent effect snapshot purpose =>
      (let? _ := ensure_no_active_effect t in
       if conversation_blocked t purpose
       then Err (Invalid "Conversation requires an entered input preparation")
       else
         let? source :=
           match purpose with
           | PurposeConversation =>
               let? s := source_new effect snapshot (selected_tools t) in Ok (Some s)
           | PurposeContextCompaction => Ok None
           end in
         Ok (set_effects (set_tool_source t source)
               (<[effect := ModelEffect (event_purpose purpose) false]> (effects t))))%outcome
  | ModelStarted effect =>
      match effects t !! effect with
      | Some (ModelEffect purpose false) =>
          Ok (set_effects t (<[effect := ModelEffect purpose true]> (effects t)))
      | _ => Err (Invalid "model start has no exact intent")
      end
  | ModelAttemptSettled effect attempt purpose =>
      match effects t !! effect with
      | Some (ModelEffect expected true) =>
          if negb (bool_decide (expected = purpose))
          then Err (Invalid "model settlement has no exact started attempt")
          else
            (let? source :=
               match attempt_terminal attempt, tool_source t with
               | Finished ToolCalls, Some s =>
                   let? (_, s') := observe_all tt s (events attempt) in Ok (Some s')
               | Finished ToolCalls, None => Ok None
               | _, _ => Ok None
               end in
             Ok (set_effects (set_tool_source t source) (delete effect (effects t))))%outcome
      | _ => Err (Invalid "model settlement has no exact started attempt")
      end
  | _ => Panic
  end.

Definition apply_image_body (t : TurnControl) (b : SessionFactBody) : outcome TurnError TurnControl :=
  match b with
  | ImageIntent effect =>
      (let? _ := ensure_no_active_effect t in
       Ok (set_effects t (<[effect := ImageEffect false 0]> (effects t))))%outcome
  | ImageStarted effect =>
      match effects t !! effect with
      | Some (ImageEffect false next) =>
          Ok (set_effects t (<[effect := ImageEffect true next]> (effects t)))
      | _ => Err (Invalid "Image start has no exact intent")
      end
  | ImageOutput effect index =>
      match effects t !! effect with
      | Some (ImageEffect true next) =>
          if index =? next then
            (let? next' := ok_or (checked_add u32_max next 1)
                             (Invalid "Image output index exhausted") in
             Ok (set_effects t (<[effect := ImageEffect true next']> (effects t))))%outcome
          else Err (Invalid "Image output has no exact start or contiguous index")
      | _ => Err (Invalid "Image output has no exact start or contiguous index")
      end
  | _ => Panic
  end.

(** ** Tools *)

(** A parallel-safe call of the model. *)
Definition parallel_model_tool (e : ActiveEffect) : bool :=
  match e with
  | ToolEffect_ tool => parallel_safe tool && is_model_origin (origin tool)
  | _ => false
  end.

(** A parallel-safe call of the program [parent]. *)
Definition parallel_program_tool (parent : text) (e : ActiveEffect) : bool :=
  match e with
  | ToolEffect_ tool =>
      parallel_safe tool &&
      match origin tool with
      | OriginProgram p _ => bool_decide (p = parent)
      | OriginModel _ => false
      end
  | _ => false
  end.

(** Whether an effect is a call of the program [parent]. *)
Definition belongs_to (parent : text) (e : ActiveEffect) : bool :=
  match e with
  | ToolEffect_ tool =>
      match origin tool with
      | OriginProgram p _ => bool_decide (p = parent)
      | OriginModel _ => false
      end
  | _ => false
  end.

(** [values().any(..)] over the effects (in any order). *)
Definition any_effect (P : text → ActiveEffect → bool) (m : gmap text ActiveEffect) : bool :=
  existsb (λ e, P e.1 e.2) (map_to_list m).

Definition with_ordinal (tool : ToolEffect) (n : Z) : ToolEffect :=
  {| effect_name := effect_name tool; source_selection := source_selection tool;
     source_tools := source_tools tool; effect_identity := effect_identity tool;
     started := started tool; parallel_safe := parallel_safe tool; origin := origin tool;
     program_role := program_role tool; next_program_ordinal := n |}.
Definition with_started (tool : ToolEffect) : ToolEffect :=
  {| effect_name := effect_name tool; source_selection := source_selection tool;
     source_tools := source_tools tool; effect_identity := effect_identity tool;
     started := true; parallel_safe := parallel_safe tool; origin := origin tool;
     program_role := program_role tool; next_program_ordinal := next_program_ordinal tool |}.

Definition is_coordinator (tool : ToolEffect) : bool :=
  started tool && bool_decide (program_role tool = Coordinator) && is_model_origin (origin tool).

Definition admit_program_origin (t : TurnControl) (parent : text) (ordinal : Z)
    (role : ToolProgramRole) (safe : bool) : outcome TurnError (TurnControl * ModelSelection) :=
  if negb (bool_decide (role = Callable)) ||
     (MAXIMUM_PROGRAM_OUTSTANDING_CALLS <? Z.of_nat (size (effects t)))
  then Err (Invalid "program Tool eligibility or active-call capacity violated")
  else if any_effect (λ id e, negb (bool_decide (id = parent)) &&
                              (negb safe || negb (parallel_program_tool parent e))) (effects t)
  then Err (Invalid "program Tool overlap violates its scheduling declaration")
  else
    match effects t !! parent with
    | Some (ToolEffect_ tool) =>
        if negb (is_coordinator tool)
        then Err (Invalid "program call lacks its exact started coordinator")
        else if negb (ordinal =? next_program_ordinal tool)
        then Err (Invalid "program call ordinal was reused or skipped")
        else
          (let? next := ok_or (checked_add u32_max ordinal 1) Capacity in
           Ok (set_effects t (<[parent := ToolEffect_ (with_ordinal tool next)]> (effects t)),
               source_selection tool))%outcome
    | _ => Err (Invalid "program call lacks its exact started coordinator")
    end.

(** The names selected for the producer of a call. *)
Definition producer_tools (t : TurnControl) (o : ToolOrigin) : option (list text) :=
  match o with
  | OriginModel _ => match tool_source t with Some s => tools s | None => None end
  | OriginProgram parent _ =>
      match effects t !! parent with
      | Some (ToolEffect_ tool) => source_tools tool
      | _ => None
      end
  end.

(** The source of a call of the model, [as_mut().ok_or_else(..)]. *)
Definition conversation_source (t : TurnControl) (message : string)
  : outcome TurnError (ToolSource (list Z)) := ok_or (tool_source t) (Invalid message).

(** The authority of an intent: the Turn with its call used, and the selection. *)
Definition admit_origin (t : TurnControl) (o : ToolOrigin) (role : ToolProgramRole)
    (call name : text) (value : Value) (safe : bool) : outcome TurnError (TurnControl * ModelSelection) :=
  match o with
  | OriginModel source =>
      if negb (bool_decide (effects t = ∅)) &&
         (negb safe || any_effect (λ _ e, negb (parallel_model_tool e)) (effects t))
      then Err (Invalid "overlapping Tool intents require parallel-safe definitions")
      else
        (let? s := conversation_source t "ToolIntent has no Conversation source" in
         let? (s', sel) := consume s source call name value in
         Ok (set_tool_source t (Some s'), sel))%outcome
  | OriginProgram parent ordinal => admit_program_origin t parent ordinal role safe
  end.

Definition apply_tool_body (t : TurnControl) (b : SessionFactBody) : outcome TurnError TurnControl :=
  match b with
  | ToolRejected (OriginModel source) _ identity name value =>
      (let? s := conversation_source t "ToolRejected has no Conversation source" in
       let? s' := reject s source (identity_call_id identity) name value in
       Ok (set_tool_source t (Some s')))%outcome
  | ToolRejected (OriginProgram parent ordinal) role _ _ _ =>
      (let? (t', _) := admit_program_origin t parent ordinal role false in Ok t')%outcome
  | ToolCallsSuperseded source =>
      (let? _ := ensure_no_active_effect t in
       let? s := conversation_source t "Tool supersession has no Conversation source" in
       let? s' := supersede s source in
       Ok (set_tool_source t (Some s')))%outcome
  | ToolIntent effect o role identity name value safe =>
      let names := producer_tools t o in
      if match names with Some l => negb (bool_decide (name ∈ l)) | None => false end
      then Err (Invalid "Tool is outside its producing Step selection")
      else
        (let? (t', sel) := admit_origin t o role (identity_call_id identity) name value safe in
         if bool_decide (is_Some (effects t' !! effect))
         then Err (Invalid "Tool effect identity was reused")
         else Ok (set_effects t' (<[effect := ToolEffect_
                {| effect_name := name; source_selection := sel; source_tools := names;
                   effect_identity := identity; started := false; parallel_safe := safe;
                   origin := o; program_role := role; next_program_ordinal := 1 |}]>
                (effects t'))))%outcome
  | ToolStarted effect identity =>
      match effects t !! effect with
      | Some (ToolEffect_ tool) =>
          if bool_decide (effect_identity tool = identity) && negb (started tool)
          then Ok (set_effects t (<[effect := ToolEffect_ (with_started tool)]> (effects t)))
          else Err (Invalid "Tool start has no exact intent")
      | _ => Err (Invalid "Tool start has no exact intent")
      end
  | ToolResult effect identity _ _ =>
      match effects t !! effect with
      | Some (ToolEffect_ tool) =>
          if bool_decide (effect_identity tool = identity) && started tool
          then
            if any_effect (λ _ e, belongs_to effect e) (effects t)
            then Err (Invalid "coordinator result precedes nested Tool settlement")
            else Ok (set_effects t (delete effect (effects t)))
          else Err (Invalid "Tool result has no exact start")
      | _ => Err (Invalid "Tool result has no exact start")
      end
  | _ => Panic
  end.

(** ** Every Fact of the executor *)

Definition after_conclusion (b : SessionFactBody) : bool :=
  match b with StepEnded _ | TurnTerminal _ _ => true | _ => false end.

Definition apply_executor_body (t : TurnControl) (b : SessionFactBody) (seq : Z)
  : outcome TurnError TurnControl :=
  if bool_decide (is_Some (terminal t)) then Err (Invalid "Fact follows a terminal turn")
  else if match conclusion t with Some _ => negb (after_conclusion b) | None => false end
  then Err (Invalid "business Fact follows an accepted Tool conclusion")
  else
    match b with
    | ModelIntent _ _ _ | ModelStarted _ | ModelAttemptSettled _ _ _ => apply_model_body t b
    | ImageIntent _ | ImageStarted _ | ImageOutput _ _ => apply_image_body t b
    | ToolIntent _ _ _ _ _ _ _ | ToolRejected _ _ _ _ _ | ToolCallsSuperseded _
    | ToolStarted _ _ | ToolResult _ _ _ _ => apply_tool_body t b
    | StepStarted _ | InputMessageClaimed _ | ToolContextsClaimed _ _ | StepInputsPrepared _ _
    | StepPrepared _ _ _ | WorkspaceTouched _ | StepEnded _ => apply_step_body t b seq
    | TurnTerminal result _ =>
        if bool_decide (is_Some (current_step t))
        then Err (Invalid "Turn terminal requires its current Step to end first")
        else
          match outcome_validate result with
          | Ok _ => Ok (set_effects (set_terminal t (Some result)) ∅)
          | Err e => Err (Invalid e)
          | Panic => Panic
          end
    | TurnAccepted | MessageTurnAccepted _ _ | ImageRequested | CancelRequested =>
        Err (Invalid "executor cannot publish acceptance or cancellation Facts")
    end.

(** ** The admission checks around it *)

(** [structured::contract] *)
Definition contract (h : SessionHeader) (t : TurnControl) : option OutputContract :=
  match initial_output h with
  | Some (message, c) => if bool_decide (message ∈ initial_messages t) then Some c else None
  | None => None
  end.

Definition validate_registration (t : TurnControl) (local_roles : option (gmap text ToolProgramRole))
    (name : text) (identity : ToolResultIdentity) (o : ToolOrigin) (role : ToolProgramRole)
  : outcome TurnError unit :=
  match application_tools (application t) !! name with
  | Some binding =>
      if negb (bool_decide (owner binding = owner_id identity)) ||
         negb (bool_decide (role = Unavailable)) || negb (is_model_origin o)
      then Err (Invalid "application Tool differs from its captured request registration")
      else Ok tt
  | None =>
      if existsb (λ e, bool_decide (owner e.2 = owner_id identity))
           (map_to_list (application_tools (application t)))
      then Err (Invalid "application Tool owner belongs to another name")
      else
        match local_roles with
        | Some roles =>
            if bool_decide (default Unavailable (roles !! name) = role) then Ok tt
            else Err (Invalid "Tool program role disagrees with the frozen Local catalog")
        | None => Ok tt
        end
  end.

Definition validate_tool_admission (h : SessionHeader) (t : TurnControl) (b : SessionFactBody)
    (local_roles : option (gmap text ToolProgramRole)) : outcome TurnError unit :=
  (let? _ :=
     match b with
     | ToolResult effect _ result _ =>
         if (0 <? additional_contexts result) &&
            negb (match effects t !! effect with
                  | Some (ToolEffect_ tool) => started tool && is_model_origin (origin tool)
                  | _ => false
                  end)
         then Err (Invalid "deferred tool context requires a started model-origin tool")
         else Ok tt
     | _ => Ok tt
     end in
   let? _ :=
     match b with
     | ToolIntent _ o role identity name _ _ | ToolRejected o role identity name _ =>
         validate_registration t local_roles name identity o role
     | _ => Ok tt
     end in
   match b with
   | ToolIntent _ _ _ _ name _ _ =>
       if match delegation_tools h with Some l => negb (bool_decide (name ∈ l)) | None => false end &&
          negb (bool_decide (name = REPORT_RESULT_TOOL) && bool_decide (is_Some (contract h t)))
       then Err (Invalid "ToolIntent is outside the frozen delegation policy")
       else Ok tt
   | _ => Ok tt
   end)%outcome.

Definition same_result_ref (h : SessionHeader) (t : TurnControl) (turn : text) (o : TurnOutcome)
    (r : AgentResultRef) : bool :=
  match o with Completed => true | _ => false end &&
  bool_decide (child_session_id r = session_id h) &&
  bool_decide (activation_id t = Some (result_activation_id r)) &&
  bool_decide (result_turn_id r = turn) &&
  match conclusion t with
  | Some (at_seq, c) =>
      (at_seq =? result_fact_seq r) && bool_decide (structured c = Some (result_summary r))
  | None => false
  end.

Definition validate_conclusion (h : SessionHeader) (t : TurnControl) (turn : text) (b : SessionFactBody)
  : outcome TurnError unit :=
  match b with
  | TurnTerminal o result =>
      if match result with Some r => negb (same_result_ref h t turn o r) | None => false end
      then Err (Invalid "terminal output is not this Turn's accepted conclusion")
      else if match o with Completed => true | _ => false end && bool_decide (is_Some (contract h t)) &&
              (negb (bool_decide (is_Some (conclusion t))) || negb (bool_decide (is_Some result)))
      then Err (Invalid "successful structured Turn lacks its exact result")
      else Ok tt
  | ToolResult effect identity result (Some c) =>
      if is_error result || negb (Nat.eqb (size (effects t)) 1) || bool_decide (is_Some (conclusion t))
      then Err (Invalid "conclusion requires a successful exclusive result")
      else if bool_decide (is_Some (structured c)) &&
              negb (match effects t !! effect with
                    | Some (ToolEffect_ tool) =>
                        bool_decide (effect_name tool = REPORT_RESULT_TOOL) &&
                        bool_decide (effect_identity tool = identity) && started tool
                    | _ => false
                    end)
      then Err (Invalid "structured conclusion requires its exact report_result Intent")
      else
        match contract h t, structured c with
        | Some k, Some summary =>
            if bool_decide (summarize k (result_value result) = Some summary) then Ok tt
            else Err (Invalid "conclusion differs from the frozen output contract")
        | None, None => Ok tt
        | _, _ => Err (Invalid "conclusion differs from the frozen output contract")
        end
  | _ => Ok tt
  end.

(** The conclusion a ToolResult leaves behind. *)
Definition conclude (t : TurnControl) (b : SessionFactBody) (seq : Z) : TurnControl :=
  match b with
  | ToolResult _ _ _ (Some c) => set_conclusion t (Some (seq, c))
  | _ => t
  end.

Definition canonicalize_terminal (b : SessionFactBody) (cancelled : bool) : SessionFactBody :=
  match b with
  | TurnTerminal o result =>
      if cancelled then TurnTerminal Cancelled None
      else
        match o with
        | Cancelled =>
            TurnTerminal (FailedOutcome (lit "executor.unrequested_cancellation")
              (lit "executor proposed cancellation without a durable request")) None
        | _ => TurnTerminal o result
        end
  | _ => b
  end.

(** ** Staging a body on a live Turn

    One round of the loop of [stage_execution_facts], its Fact numbered after [next_seq] and
    stamped with [clock], the reading of the clock; the price check, the size count and the
    validation of the body by [SessionFact::new] only refuse more bodies. *)
Definition stage (h : SessionHeader) (local_roles : gmap text ToolProgramRole) (t : TurnControl)
    (turn : text) (clock : Z) (proposed : SessionFactBody) (next_seq : Z)
  : outcome TurnError (TurnControl * SessionFact) :=
  (let b := canonicalize_terminal proposed (cancel_requested t) in
   let? _ := validate_tool_admission h t b (Some local_roles) in
   let? _ := validate_conclusion h t turn b in
   let? seq := ok_or (checked_add u64_max next_seq 1) (Invariant "Fact sequence exhausted") in
   let? t' := apply_executor_body t b seq in
   Ok (conclude t' b seq,
       {| seq := seq; timestamp_ms := Z.max clock 1; turn_id := turn; body := b |}))%outcome.

(** The loop, each body with the reading of the clock at its round: the Turn afterwards and
    the Facts, numbered after [next_seq]. *)
Fixpoint stage_execution_facts (h : SessionHeader) (local_roles : gmap text ToolProgramRole)
    (t : TurnControl) (turn : text) (next_seq : Z) (bodies : list (Z * SessionFactBody))
  : outcome TurnError (TurnControl * list SessionFact) :=
  match bodies with
  | [] => Ok (t, [])
  | (clock, proposed) :: rest =>
      (let? (t', fact) := stage h local_roles t turn clock proposed next_seq in
       let? (t'', facts) := stage_execution_facts h local_roles t' turn (seq fact) rest in
       Ok (t'', fact :: facts))%outcome
  end.

(** ** Recovery *)
Definition MAXIMUM_LIVE_TURNS : Z := 256.

(** [map_err(|error| KernelError::Invariant(error.to_string()))] *)
Inductive KernelError := KernelInvariant (message : string) | KernelTurn (error : TurnError).
Definition lift_turn {A} (r : outcome TurnError A) : outcome KernelError A :=
  match r with Ok a => Ok a | Err e => Err (KernelTurn e) | Panic => Panic end.

(** The open Turns of a Session and their order of acceptance. *)
Definition live_turns : Type := gmap text TurnControl * list text.

Definition apply_recovered_fact (h : SessionHeader) (s : live_turns) (f : SessionFact)
  : outcome KernelError live_turns :=
  let '(turns, order) := s in
  match body f with
  | TurnAccepted | MessageTurnAccepted _ _ | ImageRequested =>
      if MAXIMUM_LIVE_TURNS <=? Z.of_nat (size turns)
      then Err (KernelInvariant "durable session exceeds the live turn bound")
      else if bool_decide (is_Some (turns !! turn_id f))
      then Err (KernelInvariant "durable turn was accepted more than once")
      else Ok (<[turn_id f := accepted f]> turns, order ++ [turn_id f])
  | CancelRequested =>
      match turns !! turn_id f with
      | None => Err (KernelInvariant "cancel references unknown turn")
      | Some t =>
          if bool_decide (is_Some (terminal t)) || cancel_requested t
          then Err (KernelInvariant "durable cancellation is duplicate or follows terminal")
          else Ok (<[turn_id f := set_cancel t]> turns, order)
      end
  | TurnTerminal _ _ =>
      match turns !! turn_id f with
      | None => Err (KernelInvariant "terminal references unknown turn")
      | Some t =>
          (let? _ := lift_turn (apply_executor_body t (body f) (seq f)) in
           Ok (delete (turn_id f) turns, filter (λ x, x ≠ turn_id f) order))%outcome
      end
  | b =>
      match turns !! turn_id f with
      | None => Err (KernelInvariant "durable Fact references unknown turn")
      | Some t =>
          (let? _ := lift_turn (validate_tool_admission h t b None) in
           let? _ := lift_turn (validate_conclusion h t (turn_id f) b) in
           let? t' := lift_turn (apply_executor_body t b (seq f)) in
           Ok (<[turn_id f := conclude t' b (seq f)]> turns, order))%outcome
      end
  end.

Fixpoint recover (h : SessionHeader) (s : live_turns) (facts : list SessionFact)
  : outcome KernelError live_turns :=
  match facts with
  | [] => Ok s
  | f :: rest => (let? s' := apply_recovered_fact h s f in recover h s' rest)%outcome
  end.

(** ** The Turns that can occur

    [reachable h bodies t]: a Turn was accepted and then changed by Facts that recovery
    accepts (a live Turn stages no others, see [stage_recovered] in TurnReplay). *)
Definition is_acceptance (b : SessionFactBody) : bool :=
  match b with TurnAccepted | MessageTurnAccepted _ _ | ImageRequested => true | _ => false end.

(** One Fact on its Turn, as recovery applies it (keeping a terminal Turn). *)
Definition turn_step (h : SessionHeader) (t : TurnControl) (turn : text) (b : SessionFactBody) (seq : Z)
  : outcome TurnError TurnControl :=
  match b with
  | CancelRequested =>
      if bool_decide (is_Some (terminal t)) || cancel_requested t
      then Err (Invalid "durable cancellation is duplicate or follows terminal")
      else Ok (set_cancel t)
  | TurnTerminal _ _ => apply_executor_body t b seq
  | _ =>
      (let? _ := validate_tool_admission h t b None in
       let? _ := validate_conclusion h t turn b in
       let? t' := apply_executor_body t b seq in
       Ok (conclude t' b seq))%outcome
  end.

Inductive reachable (h : SessionHeader) : list SessionFactBody → TurnControl → Prop :=
| reach_accept f : is_acceptance (body f) = true → reachable h [body f] (accepted f)
| reach_step bodies t turn b seq t' :
    reachable h bodies t → turn_step h t turn b seq = Ok t' → reachable h (bodies ++ [b]) t'.
End turn.
