(* ===== verification/TurnRules.v ===== *)
(** * What an accepted Fact says of its Turn

    [step_rule t b seq t'] lists, body by body, the facts about the Turn that its acceptance
    implies and the Turn afterwards; [turn_step_rule] proves it for [turn_step], and the
    theorems on histories of a Turn (TurnSafety, TurnReplay) use nothing else. *)

From S2P Require Import Prelude BTree Text ToolOrigin TurnFacts TurnState.

Section rules.
Context `{C : Contracts}.
Implicit Types (t : TurnControl) (m : gmap text ActiveEffect).

Lemma any_effect_false P m :
  any_effect P m = false ↔ ∀ id e, m !! id = Some e → P id e = false.
Proof.
  unfold any_effect. rewrite <- not_true_iff_false, existsb_exists. split.
  - intros Hn id e Hid. apply not_true_iff_false. intros HP. apply Hn. exists (id, e).
    split; [by apply list_elem_of_In, elem_of_map_to_list|done].
  - intros Hall [[id e] [Hin HP]]. apply list_elem_of_In, elem_of_map_to_list in Hin.
    simpl in HP. by rewrite (Hall id e Hin) in HP.
Qed.

(** The coordinator [parent] of effect [p] admits call [n] of its program. *)
Definition program_admitted t (p : text) (n : Z) (role : ToolProgramRole) (safe : bool)
    (parent : ToolEffect) : Prop :=
  role = Callable ∧ Z.of_nat (size (effects t)) ≤ MAXIMUM_PROGRAM_OUTSTANDING_CALLS ∧
  (∀ id e, effects t !! id = Some e → id ≠ p → safe = true ∧ parallel_program_tool p e = true) ∧
  effects t !! p = Some (ToolEffect_ parent) ∧ is_coordinator parent = true ∧
  n = next_program_ordinal parent.

Definition counted t (p : text) (n : Z) (parent : ToolEffect) : gmap text ActiveEffect :=
  <[p := ToolEffect_ (with_ordinal parent (n + 1))]> (effects t).

Definition used t (source call name : text) (value : Value) (s' : ToolSource (list Z)) : Prop :=
  ∃ s, tool_source t = Some s ∧ consume_call s source call name value = Ok s'.

Definition step_rule t (b : SessionFactBody) (seq : Z) (t' : TurnControl) : Prop :=
  match b with
  | TurnAccepted | MessageTurnAccepted _ _ | ImageRequested => False
  | CancelRequested => cancel_requested t = false ∧ t' = set_cancel t
  | StepStarted step =>
      current_step t = None ∧
      t' = set_step (set_tool_source (set_selection t None no_registrations) None) (Some step)
  | InputMessageClaimed step | ToolContextsClaimed step _ =>
      current_step t = Some step ∧ effects t = ∅ ∧ ∃ p, t' = set_inputs t p (input_rejected t)
  | StepInputsPrepared step _ =>
      current_step t = Some step ∧ effects t = ∅ ∧ ∃ r, t' = set_inputs t [] r
  | StepPrepared step _ _ =>
      current_step t = Some step ∧ effects t = ∅ ∧ ∃ n a, t' = set_selection t n a
  | WorkspaceTouched step => current_step t = Some step ∧ t' = t
  | StepEnded step => current_step t = Some step ∧ t' = set_step t None
  | ModelIntent effect snapshot purpose =>
      effects t = ∅ ∧
      (purpose = PurposeConversation → pending_inputs t = [] ∧ input_rejected t = false) ∧
      ∃ source,
        match purpose with
        | PurposeConversation =>
            ∃ s, source_new effect snapshot (selected_tools t) = Ok s ∧ source = Some s
        | PurposeContextCompaction => source = None
        end ∧
        t' = set_effects (set_tool_source t source)
               {[effect := ModelEffect (event_purpose purpose) false]}
  | ModelStarted effect =>
      ∃ p, effects t !! effect = Some (ModelEffect p false) ∧
        t' = set_effects t (<[effect := ModelEffect p true]> (effects t))
  | ModelAttemptSettled effect attempt purpose =>
      effects t !! effect = Some (ModelEffect purpose true) ∧
      ∃ source,
        (source = None ∨ ∃ s s', tool_source t = Some s ∧
           observe_all tt s (events attempt) = Ok (tt, s') ∧ source = Some s') ∧
        t' = set_effects (set_tool_source t source) (delete effect (effects t))
  | ImageIntent effect =>
      effects t = ∅ ∧ t' = set_effects t {[effect := ImageEffect false 0]}
  | ImageStarted effect =>
      ∃ n, effects t !! effect = Some (ImageEffect false n) ∧
        t' = set_effects t (<[effect := ImageEffect true n]> (effects t))
  | ImageOutput effect index =>
      effects t !! effect = Some (ImageEffect true index) ∧
      t' = set_effects t (<[effect := ImageEffect true (index + 1)]> (effects t))
  | ToolRejected (OriginModel source) _ identity name value =>
      ∃ s', used t source (identity_call_id identity) name value s' ∧
        t' = set_tool_source t (Some s')
  | ToolRejected (OriginProgram p n) role _ _ _ =>
      ∃ parent, program_admitted t p n role false parent ∧ t' = set_effects t (counted t p n parent)
  | ToolCallsSuperseded source =>
      effects t = ∅ ∧ ∃ s s', tool_source t = Some s ∧ supersede s source = Ok s' ∧
        t' = set_tool_source t (Some s')
  | ToolIntent effect o role identity name value safe =>
      ∃ tool, effects t !! effect = None ∧ origin tool = o ∧ program_role tool = role ∧
        parallel_safe tool = safe ∧ started tool = false ∧ next_program_ordinal tool = 1 ∧
        match o with
        | OriginModel source =>
            (effects t = ∅ ∨ safe = true ∧
               ∀ id e, effects t !! id = Some e → parallel_model_tool e = true) ∧
            ∃ s', used t source (identity_call_id identity) name value s' ∧
              t' = set_effects (set_tool_source t (Some s')) (<[effect := ToolEffect_ tool]> (effects t))
        | OriginProgram p n =>
            ∃ parent, program_admitted t p n role safe parent ∧
              t' = set_effects t (<[effect := ToolEffect_ tool]> (counted t p n parent))
        end
  | ToolStarted effect _ =>
      ∃ tool, effects t !! effect = Some (ToolEffect_ tool) ∧ started tool = false ∧
        t' = set_effects t (<[effect := ToolEffect_ (with_started tool)]> (effects t))
  | ToolResult effect _ _ c =>
      (∃ tool, effects t !! effect = Some (ToolEffect_ tool) ∧ started tool = true) ∧
      (∀ id e, effects t !! id = Some e → belongs_to effect e = false) ∧
      (is_Some c → size (effects t) = 1%nat ∧ conclusion t = None) ∧
      t' = conclude (set_effects t (delete effect (effects t))) b seq
  | TurnTerminal result _ =>
      current_step t = None ∧ t' = set_effects (set_terminal t (Some result)) ∅
  end.

(** ** The rule of each part *)
Lemma no_active t : ensure_no_active_effect t = Ok tt → effects t = ∅.
Proof. unfold ensure_no_active_effect. by case_bool_decide. Qed.

Lemma in_step_ok t step : in_step t step = Ok tt → current_step t = Some step.
Proof. unfold in_step. by case_bool_decide. Qed.

Ltac step_inv :=
  repeat match goal with
  | H : obind _ _ = Ok _ |- _ =>
      let x := fresh "x" in let Hx := fresh "Hx" in
      apply obind_ok in H as (x & Hx & H);
      try (match type of x with unit => destruct x end)
  | H : ensure_no_active_effect _ = Ok _ |- _ => apply no_active in H
  | H : in_step _ _ = Ok _ |- _ => apply in_step_ok in H
  | H : ok_or _ _ = Ok _ |- _ => apply ok_or_ok in H
  | H : context [if bool_decide ?P then _ else _] |- _ =>
      destruct (decide P); [rewrite (bool_decide_eq_true_2 P) in H by assumption
                           |rewrite (bool_decide_eq_false_2 P) in H by assumption]
  end.

Lemma step_body_rule t b seq t' : apply_step_body t b seq = Ok t' → step_rule t b seq t'.
Proof.
  destruct b; cbn [apply_step_body step_rule]; intros Hok; try done.
  - destruct (current_step t); [done|]. by injection Hok as <-.
  - step_inv. injection Hok as <-. eauto.
  - step_inv. destruct (_ <? _); [done|]. injection Hok as <-. eauto.
  - step_inv. split_and!; [done|done|]. unfold prepare_inputs in Hok.
    destruct (input_rejected t); [done|]. destruct (negb _); [done|]. injection Hok as <-. eauto.
  - step_inv. split_and!; [done|done|]. unfold prepare_step in Hok.
    destruct (match tool_source t with Some _ => _ | None => _ end); [done|].
    injection Hok as <-. eauto.
  - step_inv. by injection Hok as <-.
  - step_inv; [|done]. by injection Hok as <-.
Qed.

Lemma model_body_rule t b seq t' : apply_model_body t b = Ok t' → step_rule t b seq t'.
Proof.
  destruct b; cbn [apply_model_body step_rule]; intros Hok; try done.
  - step_inv. destruct (conversation_blocked t purpose) eqn:Hb; [done|].
    apply obind_ok in Hok as (source & Hs & [= <-]). split; [done|]. split.
    + intros ->. simpl in Hb. apply orb_false_iff in Hb as [Hp%negb_false_iff ?].
      by apply bool_decide_eq_true in Hp.
    + exists source. split; [|by rewrite Hx].
      destruct purpose; [|by injection Hs as <-]. apply obind_ok in Hs as (s & Hs & [= <-]). eauto.
  - destruct (effects t !! effect) as [[p [|]| |]|]; try done. injection Hok as <-. eauto.
  - destruct (effects t !! effect) as [[p [|]| |]|]; try done.
    destruct (bool_decide (p = purpose)) eqn:Hp; [|done]. apply bool_decide_eq_true in Hp as ->.
    cbn [negb] in Hok. apply obind_ok in Hok as (source & Hs & [= <-]). split; [done|].
    exists source. split; [|done].
    destruct (attempt_terminal attempt) as [| | | | | |[]|]; try (left; by injection Hs).
    destruct (tool_source t) as [s|]; [|left; by injection Hs]. right.
    apply obind_ok in Hs as ([[] s'] & Ho & [= <-]). eauto.
Qed.

Lemma image_body_rule t b seq t' : apply_image_body t b = Ok t' → step_rule t b seq t'.
Proof.
  destruct b; cbn [apply_image_body step_rule]; intros Hok; try done.
  - step_inv. injection Hok as <-. by rewrite Hx.
  - destruct (effects t !! effect) as [[|[|] n|]|]; try done. injection Hok as <-. eauto.
  - destruct (effects t !! effect) as [[|[|] n|]|]; try done.
    destruct (Z.eqb_spec index n) as [->|]; [|done]. step_inv.
    apply checked_add_Some in Hx as [-> _]. by injection Hok as <-.
Qed.

Lemma admit_program_rule t p n role safe t' sel :
  admit_program_origin t p n role safe = Ok (t', sel) →
  ∃ parent, program_admitted t p n role safe parent ∧ t' = set_effects t (counted t p n parent).
Proof.
  unfold admit_program_origin. destruct (negb (bool_decide _) || _) eqn:Hg; [done|].
  apply orb_false_iff in Hg as [Hrole%negb_false_iff Hsize]. apply bool_decide_eq_true in Hrole.
  destruct (any_effect _ _) eqn:Ha; [done|].
  destruct (effects t !! p) as [[| |parent]|] eqn:Hp; try done.
  destruct (is_coordinator parent) eqn:Hc; [cbn [negb]|done].
  destruct (Z.eqb_spec n (next_program_ordinal parent)) as [Hn|]; [cbn [negb]|done].
  intros (next & Hnext & [= <- <-])%obind_ok.
  apply ok_or_ok, checked_add_Some in Hnext as [-> _].
  exists parent. split; [|done]. split_and!; try done; [lia|].
  intros id e Hid Hne. rewrite any_effect_false in Ha. specialize (Ha id e Hid).
  rewrite bool_decide_eq_false_2 in Ha by done. cbn [negb andb] in Ha.
  by apply orb_false_iff in Ha as [?%negb_false_iff ?%negb_false_iff].
Qed.

Lemma conversation_rule t s (msg : string) : conversation_source t msg = Ok s → tool_source t = Some s.
Proof. apply ok_or_ok. Qed.

Lemma intent_rule t effect o role identity name value safe t' seq :
  apply_tool_body t (ToolIntent effect o role identity name value safe) = Ok t' →
  step_rule t (ToolIntent effect o role identity name value safe) seq t'.
Proof.
  cbn [apply_tool_body step_rule]. destruct (match producer_tools t o with Some _ => _ | None => _ end); [done|].
  intros ([t1 sel] & Hadmit & Hok)%obind_ok.
  destruct (bool_decide (is_Some (effects t1 !! effect))) eqn:Hfresh; [done|].
  apply bool_decide_eq_false, eq_None_not_Some in Hfresh. injection Hok as <-.
  eexists (Build_ToolEffect _ _ _ _ _ _ _ _ _). unfold admit_origin in Hadmit.
  destruct o as [source|p n].
  - destruct (_ && _) eqn:Hg; [done|].
    apply obind_ok in Hadmit as (s & Hs%conversation_rule & Hadmit).
    apply obind_ok in Hadmit as ([s' sel'] & Hc & [= <- <-]).
    unfold consume in Hc. apply obind_ok in Hc as (sl & _ & Hc). apply obind_ok in Hc as (s2 & Hc & [= <- <-]).
    split_and!; try reflexivity; [exact Hfresh| |].
    + apply andb_false_iff in Hg as [Hg%negb_false_iff|[Hg%negb_false_iff Hall]%orb_false_iff].
      * left. by apply bool_decide_eq_true in Hg.
      * right. split; [done|]. intros id e Hid. rewrite any_effect_false in Hall.
        specialize (Hall id e Hid). by apply negb_false_iff in Hall.
    + exists s2. split; [|reflexivity]. by exists s.
  - destruct (admit_program_rule _ _ _ _ _ _ _ Hadmit) as (parent & Hadm & ->).
    cbn [set_effects effects] in Hfresh. unfold counted in Hfresh.
    apply lookup_insert_None in Hfresh as [Hfresh _].
    split_and!; try reflexivity; [exact Hfresh|]. exists parent. by split.
Qed.

Lemma result_rule t effect identity r c t' seq :
  apply_tool_body t (ToolResult effect identity r c) = Ok t' →
  (is_Some c → size (effects t) = 1%nat ∧ conclusion t = None) →
  step_rule t (ToolResult effect identity r c) seq (conclude t' (ToolResult effect identity r c) seq).
Proof.
  cbn [apply_tool_body step_rule]. intros Hok Hc.
  destruct (effects t !! effect) as [[| |tool]|] eqn:He; try done.
  destruct (_ && _) eqn:Hg; [|done]. apply andb_true_iff in Hg as [_ Hst].
  destruct (any_effect _ _) eqn:Ha; [done|]. injection Hok as <-.
  split_and!; [by eauto| |done|done]. by rewrite any_effect_false in Ha.
Qed.

Lemma tool_body_rule t b seq t' :
  apply_tool_body t b = Ok t' → (∀ e i r c, b ≠ ToolResult e i r c) → step_rule t b seq t'.
Proof.
  destruct b; try done; intros Hok Hne; [by apply intent_rule|..]; cbn [apply_tool_body step_rule] in *.
  - step_inv. split; [done|]. apply conversation_rule in Hx0. injection Hok as <-. eauto 10.
  - destruct origin as [source|p n].
    + step_inv. apply conversation_rule in Hx. injection Hok as <-. exists x0. split; [|done].
      by exists x.
    + apply obind_ok in Hok as ([t1 sel] & Hadm & [= <-]). by eapply admit_program_rule.
  - destruct (effects t !! effect) as [[| |tool]|] eqn:He; try done.
    destruct (_ && _) eqn:Hg; [|done]. apply andb_true_iff in Hg as [_ Hst%negb_true_iff].
    injection Hok as <-. eauto.
  - by destruct (Hne effect identity result conclusion).
Qed.

(** ** Every step *)
Lemma executor_rule t b seq t' :
  apply_executor_body t b seq = Ok t' →
  terminal t = None ∧ (is_Some (conclusion t) → after_conclusion b = true) ∧
  is_acceptance b = false ∧ b ≠ CancelRequested ∧
  ((∀ e i r c, b ≠ ToolResult e i r c) → step_rule t b seq t') ∧
  (∀ e i r c, b = ToolResult e i r c → apply_tool_body t b = Ok t').
Proof.
  unfold apply_executor_body. case_bool_decide as Hterm; [done|].
  apply eq_None_not_Some in Hterm.
  destruct (match conclusion t with Some _ => _ | None => _ end) eqn:Hc; [done|].
  intros Hok. split; [done|]. split.
  { intros [c Hcs]. rewrite Hcs in Hc. by apply negb_false_iff in Hc. }
  destruct b; try done; (split; [done|]); (split; [done|]);
    (split; [intros Hne|by intros ???? [= <- <- <- <-]]);
    first [by apply step_body_rule|by apply model_body_rule|by apply image_body_rule
          |by apply tool_body_rule|idtac].
  destruct (bool_decide (is_Some (current_step t))) eqn:Hst; [done|].
  apply bool_decide_eq_false, eq_None_not_Some in Hst.
  destruct (outcome_validate _); try done. by injection Hok as <-.
Qed.

Lemma turn_step_rule h t turn b seq t' :
  turn_step h t turn b seq = Ok t' →
  step_rule t b seq t' ∧ terminal t = None ∧
  (is_Some (conclusion t) → after_conclusion b = true ∨ b = CancelRequested).
Proof.
  assert (∀ u, apply_executor_body t b seq = Ok u → terminal t = None ∧
    (is_Some (conclusion t) → after_conclusion b = true ∨ b = CancelRequested)) as Hfence.
  { intros u Hu. apply executor_rule in Hu as (? & ? & _). split; [done|]. intros. left. auto. }
  assert (∀ t1, apply_executor_body t b seq = Ok t1 → (∀ e i r c, b ≠ ToolResult e i r c) →
    step_rule t b seq t1) as Hplain.
  { intros t1 Hu. by apply executor_rule in Hu as (_ & _ & _ & _ & ? & _). }
  destruct b; cbn [turn_step]; intros Hok;
    try (by (split; [apply Hplain|apply (Hfence _ Hok)]));
    try (apply obind_ok in Hok as (u1 & Hadm & Hok); apply obind_ok in Hok as (u2 & Hval & Hok);
         apply obind_ok in Hok as (t1 & Ht1 & Hok); cbn [conclude] in Hok;
         try (injection Hok as <-; split; [by apply Hplain|by apply (Hfence t1)])).
  - case_match eqn:Hg; [done|]. injection Hok as <-. apply orb_false_iff in Hg as [Hg Hcan].
    split; [done|]. apply bool_decide_eq_false, eq_None_not_Some in Hg. auto.
  - injection Hok as <-. destruct (Hfence t1 Ht1) as [Hterm Hconc]. split; [|done].
    apply executor_rule in Ht1 as (_ & _ & _ & _ & _ & Htool).
    eapply result_rule; [by eapply Htool|]. intros [c ->]. cbn [validate_conclusion] in Hval.
    destruct (_ || _) eqn:Hg in Hval; [done|].
    apply orb_false_iff in Hg as [[_ Hs%negb_false_iff]%orb_false_iff Hcn].
    apply Nat.eqb_eq in Hs. by apply bool_decide_eq_false, eq_None_not_Some in Hcn.
Qed.
End rules.
