(* ===== verification/TurnSafety.v ===== *)
(** * Safety of the effects of a Turn

    What holds of every reachable Turn: which effects may be active at the same time, that
    every call of a completed model response is used at most once and only as the model
    made it, and that the calls of a program are numbered without gaps. *)

From S2P Require Import Prelude BTree Text ToolOrigin TurnFacts TurnState TurnRules.

(** ** Overlapping effects *)
Section scheduling.
Implicit Types (m : gmap text ActiveEffect).

(** Two different active effects are parallel-safe Tool calls of the model, or parallel-safe
    calls of one program, or a coordinator and a call of its program. *)
Definition may_overlap (a : text) (e1 : ActiveEffect) (b : text) (e2 : ActiveEffect) : Prop :=
  (parallel_model_tool e1 = true ∧ parallel_model_tool e2 = true) ∨
  (∃ p, parallel_program_tool p e1 = true ∧ parallel_program_tool p e2 = true) ∨
  belongs_to a e2 = true ∨ belongs_to b e1 = true.

Record scheduled m : Prop := {
  sc_overlap a b e1 e2 : a ≠ b → m !! a = Some e1 → m !! b = Some e2 → may_overlap a e1 b e2;
  sc_parent id tool p n :
    m !! id = Some (ToolEffect_ tool) → origin tool = OriginProgram p n →
    program_role tool = Callable ∧
    ∃ parent, m !! p = Some (ToolEffect_ parent) ∧ is_coordinator parent = true ∧
      1 ≤ n < next_program_ordinal parent;
  sc_ordinals a b ta tb p n :
    m !! a = Some (ToolEffect_ ta) → m !! b = Some (ToolEffect_ tb) →
    origin ta = OriginProgram p n → origin tb = OriginProgram p n → a = b;
  sc_calls id e p :
    m !! id = Some e → belongs_to p e = true →
    Z.of_nat (size m) ≤ MAXIMUM_PROGRAM_OUTSTANDING_CALLS + 1;
  sc_next id tool : m !! id = Some (ToolEffect_ tool) → 1 ≤ next_program_ordinal tool
}.

Lemma scheduled_empty : scheduled ∅.
Proof. by split; intros *; rewrite ?lookup_empty. Qed.

(** [e'] is [e] further on. *)
Definition later (e e' : ActiveEffect) : Prop :=
  match e, e' with
  | ModelEffect _ _, ModelEffect _ _ | ImageEffect _ _, ImageEffect _ _ => True
  | ToolEffect_ t, ToolEffect_ t' =>
      parallel_safe t' = parallel_safe t ∧ origin t' = origin t ∧
      program_role t' = program_role t ∧ (started t = true → started t' = true) ∧
      next_program_ordinal t ≤ next_program_ordinal t'
  | _, _ => False
  end.

Lemma later_same e e' p :
  later e e' → parallel_model_tool e' = parallel_model_tool e ∧
    parallel_program_tool p e' = parallel_program_tool p e ∧ belongs_to p e' = belongs_to p e.
Proof.
  destruct e as [| |t], e' as [| |t']; try done. intros (Hs & Ho & _). simpl. by rewrite Hs, Ho.
Qed.

Lemma later_refl e : later e e.
Proof. by destruct e. Qed.

(** Every effect of the new map comes from one of the old. *)
Lemma scheduled_update m id e e' :
  scheduled m → m !! id = Some e → later e e' → scheduled (<[id := e']> m).
Proof.
  intros [Hov Hpa Hor Hca Hne] Hid Hl.
  assert (∀ a x', <[id := e']> m !! a = Some x' → ∃ x, m !! a = Some x ∧ later x x') as Hback.
  { intros a x'. destruct (decide (a = id)) as [->|Hn].
    - rewrite lookup_insert_eq. intros [= <-]. eauto.
    - rewrite lookup_insert_ne by done. intros. exists x'. split; [done|apply later_refl]. }
  assert (∀ a x, m !! a = Some x → ∃ x', <[id := e']> m !! a = Some x' ∧ later x x') as Hforth.
  { intros a x Ha. destruct (decide (a = id)) as [->|Hn].
    - rewrite lookup_insert_eq. simplify_eq. eauto.
    - rewrite lookup_insert_ne by done. exists x. split; [done|apply later_refl]. }
  split.
  - intros a b e1' e2' Hab (e1 & H1 & L1)%Hback (e2 & H2 & L2)%Hback.
    destruct (Hov a b e1 e2 Hab H1 H2) as [[P1 P2]|[(p & P1 & P2)|[P|P]]];
      [left|right; left; exists p|right; right; left|right; right; right].
    + destruct (later_same e1 e1' a L1) as (-> & _), (later_same e2 e2' a L2) as (-> & _). done.
    + destruct (later_same e1 e1' p L1) as (_ & -> & _), (later_same e2 e2' p L2) as (_ & -> & _). done.
    + by destruct (later_same e2 e2' a L2) as (_ & _ & ->).
    + by destruct (later_same e1 e1' b L1) as (_ & _ & ->).
  - intros a t' p n ([| |t] & Ha & L)%Hback Ho; try done. destruct L as (_ & Ho' & Hr' & _).
    destruct (Hpa a t p n Ha) as (Hr & parent & Hp & Hc & Hn); [congruence|].
    split; [congruence|].
    apply Hforth in Hp as ([| |parent'] & Hp & L); try done. exists parent'. split; [done|].
    destruct L as (_ & Lo & Lr & Ls & Ln). split; [|lia].
    unfold is_coordinator in *. rewrite Lo, Lr.
    apply andb_true_iff in Hc as [[Hst Hro]%andb_true_iff Hmo]. by rewrite Ls, Hro, Hmo.
  - intros a b ta' tb' p n ([| |ta] & Ha & La)%Hback ([| |tb] & Hb & Lb)%Hback Hoa Hob; try done.
    destruct La as (_ & Loa & _), Lb as (_ & Lob & _). apply (Hor a b ta tb p n Ha Hb); congruence.
  - intros a x' p (x & Ha & L)%Hback Hb. rewrite map_size_insert_Some by eauto.
    destruct (later_same x x' p L) as (_ & _ & Hb'). rewrite Hb' in Hb. by eapply Hca.
  - intros a t' ([| |t] & Ha & L)%Hback; try done. destruct L as (_ & _ & _ & _ & Hn).
    specialize (Hne a t Ha). lia.
Qed.

Lemma scheduled_delete m id :
  scheduled m → (∀ c e, m !! c = Some e → belongs_to id e = false) → scheduled (delete id m).
Proof.
  intros [Hov Hpa Hor Hca Hne] Hch. split.
  - intros a b e1 e2 Hab [_ H1]%lookup_delete_Some [_ H2]%lookup_delete_Some. eauto.
  - intros a t p n [_ Ha]%lookup_delete_Some Ho. destruct (Hpa a t p n Ha Ho) as (Hr & parent & Hp & Hx).
    split; [done|]. exists parent. rewrite lookup_delete_ne; [done|]. intros ->.
    specialize (Hch a _ Ha). simpl in Hch. rewrite Ho in Hch.
    by rewrite bool_decide_eq_true_2 in Hch.
  - intros a b ta tb p n [_ Ha]%lookup_delete_Some [_ Hb]%lookup_delete_Some. eauto.
  - intros a e p [_ Ha]%lookup_delete_Some Hb. specialize (Hca a e p Ha Hb).
    rewrite map_size_delete. destruct (m !! id); simpl; lia.
  - intros a t [_ Ha]%lookup_delete_Some. eauto.
Qed.

(** An effect without a program parent, alone or beside parallel-safe calls of the model. *)
Lemma scheduled_insert m id e :
  scheduled m → m !! id = None → (∀ p, belongs_to p e = false) →
  (∀ tool, e = ToolEffect_ tool → next_program_ordinal tool = 1 ∧ is_model_origin (origin tool) = true) →
  (m = ∅ ∨ parallel_model_tool e = true ∧ ∀ a x, m !! a = Some x → parallel_model_tool x = true) →
  scheduled (<[id := e]> m).
Proof.
  intros [Hov Hpa Hor Hca Hne] Hid Hno He Hm.
  assert (∀ a x, m !! a = Some x → parallel_model_tool e = true ∧ parallel_model_tool x = true) as Hpar.
  { destruct Hm as [->|[Hp Hall]]; [by intros a x; rewrite lookup_empty|eauto]. }
  assert (∀ a x p, m !! a = Some x → belongs_to p x = false) as Hnone.
  { intros a x p [_ Hx]%Hpar. destruct x as [| |t]; try done. simpl in *.
    apply andb_true_iff in Hx as [_ Hx]. by destruct (origin t). }
  split.
  - intros a b e1 e2 Hab [[<- <-]|[_ H1]]%lookup_insert_Some [[? <-]|[_ H2]]%lookup_insert_Some;
      subst; try done; [left; by eapply Hpar|left; apply and_comm; by eapply Hpar|by eapply Hov].
  - intros a t p n [[<- ->]|[_ Ha]]%lookup_insert_Some Ho.
    + destruct (He t eq_refl) as [_ Hmo]. by rewrite Ho in Hmo.
    + specialize (Hnone a _ p Ha). simpl in Hnone. rewrite Ho in Hnone.
      by rewrite bool_decide_eq_true_2 in Hnone.
  - intros a b ta tb p n [[<- ->]|[_ Ha]]%lookup_insert_Some [[<- Hb]|[_ Hb]]%lookup_insert_Some Hoa Hob.
    + done.
    + destruct (He ta eq_refl) as [_ Hmo]. by rewrite Hoa in Hmo.
    + destruct (He tb Hb) as [_ Hmo]. by rewrite Hob in Hmo.
    + by eapply Hor.
  - intros a x p [[<- <-]|[_ Ha]]%lookup_insert_Some Hb; [by rewrite Hno in Hb|].
    by rewrite (Hnone a x p Ha) in Hb.
  - intros a t [[<- ->]|[_ Ha]]%lookup_insert_Some; [destruct (He t eq_refl); lia|eauto].
Qed.

(** A call of the program of coordinator [p], numbered by it. *)
Lemma scheduled_program m id p parent tool :
  scheduled m → m !! id = None → m !! p = Some (ToolEffect_ parent) → is_coordinator parent = true →
  (∀ a e, m !! a = Some e → a ≠ p → parallel_safe tool = true ∧ parallel_program_tool p e = true) →
  Z.of_nat (size m) ≤ MAXIMUM_PROGRAM_OUTSTANDING_CALLS →
  origin tool = OriginProgram p (next_program_ordinal parent) → program_role tool = Callable →
  next_program_ordinal tool = 1 →
  scheduled (<[id := ToolEffect_ tool]>
    (<[p := ToolEffect_ (with_ordinal parent (next_program_ordinal parent + 1))]> m)).
Proof.
  intros Hs Hid Hp Hc Hall Hsize Ho Hrole Hone.
  assert (id ≠ p) as Hne by congruence. set (n := next_program_ordinal parent) in *.
  set (parent' := with_ordinal parent (n + 1)). set (m1 := <[p := ToolEffect_ parent']> m).
  assert (scheduled m1) as Hs1.
  { apply (scheduled_update m p (ToolEffect_ parent)); [done|done|].
    split_and!; try done. simpl. lia. }
  assert (m1 !! id = None) as Hid1 by (subst m1; by rewrite lookup_insert_ne).
  assert (m1 !! p = Some (ToolEffect_ parent')) as Hp1 by (subst m1; by rewrite lookup_insert_eq).
  assert (∀ a e, m1 !! a = Some e → a ≠ p → m !! a = Some e) as Hold.
  { intros a e Ha Hap. subst m1. by rewrite lookup_insert_ne in Ha. }
  assert (belongs_to p (ToolEffect_ tool) = true) as Hbel.
  { simpl. rewrite Ho. by apply bool_decide_eq_true_2. }
  assert (∀ b e, m1 !! b = Some e → may_overlap id (ToolEffect_ tool) b e) as Hnew.
  { intros b e Hb. destruct (decide (b = p)) as [->|Hbp]; [by right; right; right|].
    destruct (Hall b e (Hold b e Hb Hbp) Hbp) as [Hsafe Hpar]. right. left. exists p.
    split; [|done]. simpl. rewrite Hsafe, Ho. by apply bool_decide_eq_true_2. }
  assert (1 ≤ n) as Hn by (subst n; by eapply (sc_next m)).
  destruct Hs1 as [Hov Hpa Hor Hca Hnx]. split.
  - intros a b e1 e2 Hab [[<- <-]|[_ H1]]%lookup_insert_Some [[<- <-]|[_ H2]]%lookup_insert_Some.
    + done.
    + by apply Hnew.
    + destruct (Hnew a e1 H1) as [[? ?]|[(q & ? & ?)|[?|?]]];
        [left|right; left; exists q|right; right; right|right; right; left]; done.
    + by eapply Hov.
  - intros a ta q k [[<- [= <-]]|[_ Ha]]%lookup_insert_Some Hoa.
    + rewrite Ho in Hoa. injection Hoa as <- <-. split; [done|]. exists parent'.
      rewrite lookup_insert_ne by done. split_and!; [done| |done|simpl; lia].
      unfold is_coordinator in *. done.
    + destruct (Hpa a ta q k Ha Hoa) as (Hr & qt & Hq & Hx). split; [done|]. exists qt.
      rewrite lookup_insert_ne; [done|]. intros ->. congruence.
  - assert (∀ b tb q k, m1 !! b = Some (ToolEffect_ tb) → origin tool = OriginProgram q k →
      origin tb = OriginProgram q k → False) as Hfresh.
    { intros b tb q k Hb Hq Htb. rewrite Ho in Hq. injection Hq as <- <-.
      destruct (decide (b = p)) as [->|Hbp].
      - rewrite Hp1 in Hb. injection Hb as <-. unfold is_coordinator in Hc. simpl in Htb.
        rewrite Htb, andb_false_r in Hc. done.
      - destruct Hs as [_ Hpa0 _ _ _]. destruct (Hpa0 b tb p n (Hold b _ Hb Hbp) Htb) as (_ & x & Hx & _ & Hlt).
        rewrite Hp in Hx. injection Hx as <-. subst n. lia. }
    intros a b ta tb q k [[<- [= <-]]|[_ Ha]]%lookup_insert_Some [[<- [= <-]]|[_ Hb]]%lookup_insert_Some Hoa Hob.
    + done.
    + exfalso. by eapply Hfresh.
    + exfalso. by eapply (Hfresh a).
    + by eapply Hor.
  - intros a e q _ _. rewrite map_size_insert_None by done. subst m1.
    rewrite map_size_insert_Some by eauto. lia.
  - intros a ta [[<- [= <-]]|[_ Ha]]%lookup_insert_Some; [lia|eauto].
Qed.
End scheduling.

Section reachable_effects.
Context `{C : Contracts}.
Implicit Types (t : TurnControl).

Lemma effects_conclude t b seq : effects (conclude t b seq) = effects t.
Proof. destruct b as [| | | | | | | | | | | | | | | | | | | | |? ? ? [?|]|]; done. Qed.

Lemma counted_scheduled t p n role safe parent :
  scheduled (effects t) → program_admitted t p n role safe parent → scheduled (counted t p n parent).
Proof.
  intros Hs (_ & _ & _ & Hp & _ & ->). apply (scheduled_update _ p (ToolEffect_ parent)); [done|done|].
  split_and!; try done. simpl. lia.
Qed.

Lemma step_scheduled t b seq t' :
  step_rule t b seq t' → scheduled (effects t) → scheduled (effects t').
Proof.
  intros Hrule Hs. destruct b; cbn [step_rule] in Hrule; try done; try (by destruct_and?; subst).
  - by destruct Hrule as (_ & _ & p & ->).
  - by destruct Hrule as (_ & _ & p & ->).
  - by destruct Hrule as (_ & _ & r & ->).
  - by destruct Hrule as (_ & _ & n & a & ->).
  - destruct Hrule as (_ & _ & src & _ & ->). cbn [set_effects effects].
    rewrite <- insert_empty. apply scheduled_insert; [apply scheduled_empty|done|done|done|by left].
  - destruct Hrule as (p & He & ->). by eapply scheduled_update.
  - destruct Hrule as (He & src & _ & ->). apply scheduled_delete; [done|].
    intros c e Hc. destruct (belongs_to effect e) eqn:Hb; [|done].
    destruct e as [| |tool]; try done. simpl in Hb. destruct (origin tool) as [|q n] eqn:Ho; [done|].
    apply bool_decide_eq_true in Hb as ->.
    destruct (sc_parent _ Hs c tool effect n Hc Ho) as (_ & parent & Hp & _). congruence.
  - destruct Hrule as (_ & ->). cbn [set_effects effects].
    rewrite <- insert_empty. apply scheduled_insert; [apply scheduled_empty|done|done|done|by left].
  - destruct Hrule as (n & He & ->). by eapply scheduled_update.
  - destruct Hrule as (He & ->). by eapply scheduled_update.
  - destruct Hrule as (tool & He & Ho & Hr & Hsafe & Hst & Hn & Hrule). destruct origin as [source|p n].
    + destruct Hrule as (Hm & s' & _ & ->). cbn [set_effects set_tool_source effects].
      apply scheduled_insert; [done|done| | |].
      * intros p. simpl. by rewrite Ho.
      * intros tool' [= <-]. by rewrite Ho.
      * destruct Hm as [Hm|[-> Hm]]; [by left|right]. split; [|done]. simpl. by rewrite Hsafe, Ho.
    + destruct Hrule as (parent & (Hrole & Hsize & Hall & Hp & Hc & ->) & ->).
      cbn [set_effects effects]. unfold counted.
      apply scheduled_program; try done.
      * intros a e Ha Hap. rewrite Hsafe. by eapply Hall.
      * congruence.
  - by destruct Hrule as (_ & s & s' & _ & _ & ->).
  - destruct origin as [source|p n].
    + by destruct Hrule as (s' & _ & ->).
    + destruct Hrule as (parent & Hadm & ->). by eapply counted_scheduled.
  - destruct Hrule as (tool & He & _ & ->). eapply scheduled_update; [done|done|]. by split_and!.
  - destruct Hrule as (_ & Hch & _ & ->). rewrite effects_conclude. by apply scheduled_delete.
Qed.

Lemma reachable_scheduled h bodies t : reachable h bodies t → scheduled (effects t).
Proof.
  induction 1 as [f Hf|bodies t turn b seq t' Hr IH Hst].
  - unfold accepted. by destruct (body f).
  - apply turn_step_rule in Hst as [Hrule _]. by eapply step_scheduled.
Qed.

(** C8: scheduling of external effects: in every reachable Turn two different active effects
    are parallel-safe Tool calls of the model, or parallel-safe calls of one program, or a
    coordinator and a call of its program; so a model or image request and a Tool that is not
    parallel-safe run alone. Every active program call is callable, its coordinator is active,
    started by the model and has numbered it, no other active call of the program has its
    number, and at most sixteen calls are active beside their coordinator. *)
Theorem effects_scheduled h bodies t : reachable h bodies t → scheduled (effects t).
Proof. apply reachable_scheduled. Qed.
End reachable_effects.

(** ** Calls of the model *)
Section uses.
Context `{C : Contracts}.
Implicit Types (t : TurnControl) (bs : list SessionFactBody).

(** The last model intent of a history and the Facts since then. *)
Definition segment_step (acc : option (text * ModelPurpose) * list SessionFactBody) (b : SessionFactBody)
  : option (text * ModelPurpose) * list SessionFactBody :=
  match b with
  | ModelIntent effect _ purpose => (Some (effect, purpose), [])
  | _ => (acc.1, acc.2 ++ [b])
  end.
Definition since_intent bs := foldl segment_step (None, []) bs.

(** The call of the model that a Fact uses (runs or rejects), with the response it names. *)
Definition model_use (b : SessionFactBody) : option (text * use) :=
  match b with
  | ToolIntent _ (OriginModel source) _ identity name value _
  | ToolRejected (OriginModel source) _ identity name value =>
      Some (source, {| use_id := identity_call_id identity; use_name := name; use_value := value |})
  | _ => None
  end.

(** The settled attempt of [effect] among the Facts made the call. *)
Definition answered (effect : text) bs (u : use) : Prop :=
  ∃ attempt purpose, ModelAttemptSettled effect attempt purpose ∈ bs ∧ authorised (events attempt) u.

Definition used_ids bs : list text := (λ p, use_id p.2) <$> omap model_use bs.

Record uses_ok (intent : option (text * ModelPurpose)) bs t : Prop := {
  uo_once : NoDup (used_ids bs);
  uo_made e u : (e, u) ∈ omap model_use bs → intent = Some (e, PurposeConversation) ∧ answered e bs u;
  uo_source s : tool_source t = Some s →
    intent = Some (effect_id s, PurposeConversation) ∧ distinct_ids (calls s) ∧ bt_wf (calls s) ∧
    ∀ u, callable s u → answered (effect_id s) bs u ∧ use_id u ∉ used_ids bs;
  uo_active id p b : effects t !! id = Some (ModelEffect p b) →
    (∃ q, intent = Some (id, q)) ∧ omap model_use bs = [] ∧
    ∀ s, tool_source t = Some s → from_stream [] s
}.

Lemma answered_mono effect bs b u : answered effect bs u → answered effect (bs ++ [b]) u.
Proof. intros (a & p & Hin & Hu). exists a, p. split; [set_solver|done]. Qed.

Lemma uses_snoc bs b :
  omap model_use (bs ++ [b]) = omap model_use bs ++ match model_use b with Some x => [x] | None => [] end.
Proof. rewrite omap_app. simpl. by destruct (model_use b). Qed.

(** A Fact that uses no call, and neither opens nor settles a model request. *)
Lemma uses_frame intent bs t b t' :
  uses_ok intent bs t → model_use b = None →
  (tool_source t' = tool_source t ∨ tool_source t' = None) →
  (∀ id p x, effects t' !! id = Some (ModelEffect p x) → ∃ y, effects t !! id = Some (ModelEffect p y)) →
  uses_ok intent (bs ++ [b]) t'.
Proof.
  intros [Ho Hm Hs Ha] Hb Hsrc Heff. unfold used_ids in *. split.
  - unfold used_ids. by rewrite uses_snoc, Hb, app_nil_r.
  - rewrite uses_snoc, Hb, app_nil_r. intros e u Hin. destruct (Hm e u Hin). split; [done|].
    by apply answered_mono.
  - intros s Hts. destruct Hsrc as [Hsrc|Hsrc]; [|congruence]. rewrite Hsrc in Hts.
    destruct (Hs s Hts) as (Hi & Hd & Hwf & Hc). split_and!; try done. intros u Hu.
    destruct (Hc u Hu) as [Han Hno]. unfold used_ids. rewrite uses_snoc, Hb, app_nil_r.
    split; [by apply answered_mono|done].
  - intros id p x Hid. destruct (Heff id p x Hid) as [y Hy]. destruct (Ha id p y Hy) as (Hi & Hu & Hf).
    rewrite uses_snoc, Hb, app_nil_r. split_and!; [done|done|]. intros s Hts.
    destruct Hsrc as [Hsrc|Hsrc]; [|congruence]. rewrite Hsrc in Hts. by apply Hf.
Qed.

(** A Fact that uses a call of the model. *)
Lemma uses_use intent bs t b t' source call name value s' :
  uses_ok intent bs t → used t source call name value s' →
  model_use b = Some (source, {| use_id := call; use_name := name; use_value := value |}) →
  tool_source t' = Some s' →
  (∀ id p x, effects t' !! id = Some (ModelEffect p x) → effects t !! id = Some (ModelEffect p x)) →
  uses_ok intent (bs ++ [b]) t'.
Proof.
  intros [Ho Hm Hs Ha] (s & Hts & Hc) Hb Hts' Heff.
  destruct (Hs s Hts) as (Hi & Hd & Hwf & Hcall).
  set (u := {| use_id := call; use_name := name; use_value := value |}) in *.
  assert (effect_id s = source) as <-.
  { unfold consume_call in Hc. destruct (_ || _) eqn:Hg; [done|].
    by apply orb_false_iff in Hg as [?%negb_false_iff%bool_decide_eq_true _]. }
  change (consume_call s (effect_id s) (use_id u) (use_name u) (use_value u) = Ok s') in Hc.
  destruct (callable_consumed s u s' u Hd Hwf Hc) as (_ & He & Hd' & Hwf').
  assert (callable s u) as Hu.
  { apply consume_call_ok in Hc as (? & i & c & ? & ? & ? & ? & _); [|done..]. split; [done|]. eauto 10. }
  destruct (Hcall u Hu) as [Han Hno].
  assert (omap model_use (bs ++ [b]) = omap model_use bs ++ [(effect_id s, u)]) as Huses
    by (by rewrite uses_snoc, Hb).
  assert (used_ids (bs ++ [b]) = used_ids bs ++ [use_id u]) as Hids
    by (unfold used_ids; by rewrite Huses, fmap_app).
  split.
  - rewrite Hids. apply NoDup_app. split_and!; [done| |apply NoDup_singleton].
    intros x Hx ->%list_elem_of_singleton. done.
  - rewrite Huses. intros e v [Hin|[= -> ->]%list_elem_of_singleton]%elem_of_app.
    + destruct (Hm e v Hin). split; [done|]. by apply answered_mono.
    + split; [done|]. by apply answered_mono.
  - intros s2 Hs2. rewrite Hts' in Hs2. injection Hs2 as <-. rewrite He. split_and!; try done.
    intros v Hv. destruct (callable_consumed s u s' v Hd Hwf Hc) as [Hcv _].
    apply Hcv in Hv as [Hne Hv]. destruct (Hcall v Hv) as [Hav Hnv].
    split; [by apply answered_mono|]. rewrite Hids, not_elem_of_app, list_elem_of_singleton. done.
  - intros id p x Hid%Heff. destruct (Ha id p x Hid) as (_ & _ & Hf).
    destruct Hu as [Hcomp _]. apply (fs_completed _ _ (Hf s Hts)) in Hcomp. done.
Qed.

Lemma supersede_spec (s : ToolSource (list Z)) source s' :
  supersede s source = Ok s' → distinct_ids (calls s) → bt_wf (calls s) →
  effect_id s' = effect_id s ∧ distinct_ids (calls s') ∧ bt_wf (calls s') ∧ ∀ u, ¬ callable s' u.
Proof.
  unfold supersede. destruct (negb _); [done|]. intros [= <-] Hd Hwf.
  set (f := λ c : Call (list Z), if is_complete (arguments c) then with_arguments c Consumed else c).
  change ((λ e : Z * Call (list Z), (e.1, if is_complete (arguments e.2)
    then with_arguments e.2 Consumed else e.2)) <$> calls s) with (bt_map f (calls s)).
  cbn [set_calls effect_id calls].
  assert (∀ c, call_id (f c) = call_id c) as Hid by (intros c; unfold f; by destruct (is_complete _)).
  split_and!; [done|..].
  - intros i j c d. rewrite !bt_get_map. intros (c0 & Hc & ->)%fmap_Some_1 (d0 & Hd0 & ->)%fmap_Some_1.
    rewrite !Hid. by apply Hd.
  - unfold bt_wf, bt_map in *. rewrite <- list_fmap_compose. exact Hwf.
  - intros u (_ & i & c & Hc & _ & _ & Ha). cbn [set_calls calls] in Hc. rewrite bt_get_map in Hc.
    apply fmap_Some_1 in Hc as (c0 & _ & ->). unfold f in Ha.
    destruct (is_complete (arguments c0)) eqn:Hic; [done|]. by rewrite Ha in Hic.
Qed.

Lemma intent_uses t effect snapshot purpose acc seq t' :
  step_rule t (ModelIntent effect snapshot purpose) seq t' →
  uses_ok (segment_step acc (ModelIntent effect snapshot purpose)).1
    (segment_step acc (ModelIntent effect snapshot purpose)).2 t'.
Proof.
  intros (_ & _ & src & Hsrc & ->). cbn [segment_step fst snd].
  assert (∀ s, src = Some s → purpose = PurposeConversation ∧ effect_id s = effect ∧ from_stream [] s) as Hnew.
  { intros s ->. destruct purpose; [|done]. destruct Hsrc as (s0 & Hs0 & [= ->]).
    apply source_new_ok in Hs0 as (? & ? & _). done. }
  split; cbn [tool_source set_effects set_tool_source effects].
  - constructor.
  - intros e u Hin. by apply elem_of_nil in Hin.
  - intros s Hs. destruct (Hnew s Hs) as (-> & -> & Hf). split_and!; [done|apply Hf|apply Hf|].
    intros u [Hcomp _]. by apply (fs_completed _ _ Hf) in Hcomp.
  - intros id p b [<- _]%lookup_singleton_Some. split_and!; [by eauto|done|].
    intros s Hs. by apply Hnew.
Qed.

Lemma settled_uses intent bs t effect attempt purpose seq t' :
  scheduled (effects t) → uses_ok intent bs t →
  step_rule t (ModelAttemptSettled effect attempt purpose) seq t' →
  uses_ok intent (bs ++ [ModelAttemptSettled effect attempt purpose]) t'.
Proof.
  intros Hsch [Ho Hm Hs Ha] (He & src & Hsrc & ->).
  destruct (Ha effect purpose true He) as ([q Hq] & Hnone & Hfs).
  assert (used_ids (bs ++ [ModelAttemptSettled effect attempt purpose]) = []) as Hids
    by (unfold used_ids; by rewrite uses_snoc, Hnone).
  split; cbn [tool_source set_effects set_tool_source effects].
  - rewrite Hids. constructor.
  - rewrite uses_snoc, Hnone. intros e u Hin. by apply elem_of_nil in Hin.
  - intros s2 ->. destruct Hsrc as [?|(s & s' & Hts & Hobs & [= ->])]; [done|].
    destruct (Hs s Hts) as (Hi & _).
    assert (from_stream (events attempt) s') as Hf
      by (eapply (observe_all_from_stream [] s); [by apply Hfs|exact Hobs]).
    rewrite (observe_all_effect _ _ _ _ Hobs). split_and!; [done|apply Hf|apply Hf|].
    intros u Hu. rewrite Hids. split; [|by intros ?%elem_of_nil].
    apply (callable_authorised _ _ _ Hf) in Hu. exists attempt, purpose. split; [|done].
    rewrite Hq in Hi. injection Hi as -> _. set_solver.
  - intros id p b [Hne Hid]%lookup_delete_Some. destruct (Ha id p b Hid) as ([q' Hq'] & _).
    congruence.
Qed.

Lemma step_uses acc t b seq t' :
  scheduled (effects t) → uses_ok acc.1 acc.2 t → step_rule t b seq t' →
  uses_ok (segment_step acc b).1 (segment_step acc b).2 t'.
Proof.
  intros Hsch Hu Hrule. destruct b; cbn [segment_step fst snd]; try done;
    try (by eapply (intent_uses t _ _ _ acc seq)); try (by eapply (settled_uses _ _ t _ _ _ seq));
    cbn [step_rule] in Hrule.
  1,2: destruct Hrule as (_ & ->). 3,4: destruct Hrule as (_ & _ & p & ->).
  5: destruct Hrule as (_ & _ & r & ->). 6: destruct Hrule as (_ & _ & n & a & ->).
  7,8: destruct Hrule as (_ & ->).
  1-8: eapply uses_frame; [exact Hu|done|first [by left|by right]|by eauto].
  - destruct Hrule as (p & He & ->). eapply uses_frame; [exact Hu|done|by left|].
    cbn [set_effects set_tool_source effects]. intros id q x [[<- [= <- <-]]|[_ Hid]]%lookup_insert_Some; eauto.
  - destruct Hrule as (_ & ->). eapply uses_frame; [exact Hu|done|by left|].
    cbn [set_effects effects]. by intros id q x [_ ?]%lookup_singleton_Some.
  - destruct Hrule as (n & He & ->). eapply uses_frame; [exact Hu|done|by left|].
    cbn [set_effects set_tool_source effects]. intros id q x [[<- ?]|[_ Hid]]%lookup_insert_Some; [done|eauto].
  - destruct Hrule as (He & ->). eapply uses_frame; [exact Hu|done|by left|].
    cbn [set_effects set_tool_source effects]. intros id q x [[<- ?]|[_ Hid]]%lookup_insert_Some; [done|eauto].
  - destruct Hrule as (tool & _ & _ & _ & _ & _ & _ & Hrule). destruct origin as [source|p n].
    + destruct Hrule as (_ & s' & Hused & ->). eapply uses_use; [exact Hu|exact Hused|done|done|].
      cbn [set_effects set_tool_source effects]. intros id q x [[<- ?]|[_ Hid]]%lookup_insert_Some; done.
    + destruct Hrule as (parent & _ & ->). eapply uses_frame; [exact Hu|done|by left|].
      cbn [set_effects effects]. unfold counted. intros id q x [[<- ?]|[_ [[<- ?]|[_ Hid]]%lookup_insert_Some]]%lookup_insert_Some; eauto; done.
  - destruct Hrule as (He & s & s' & Hs & Hsup & ->). destruct Hu as [Ho Hm Hso Ha].
    destruct (Hso s Hs) as (Hi & Hd & Hwf & _).
    destruct (supersede_spec s _ s' Hsup Hd Hwf) as (Heff & Hd' & Hwf' & Hnone).
    unfold used_ids in *. split; unfold used_ids; rewrite ?uses_snoc; cbn [model_use]; rewrite ?app_nil_r.
    + done.
    + intros e u Hin. destruct (Hm e u Hin). split; [done|]. by apply answered_mono.
    + intros s2 [= <-]. rewrite Heff. split_and!; try done. intros u Hc. by destruct (Hnone u).
    + cbn [set_tool_source effects]. rewrite He. intros id p b. by rewrite lookup_empty.
  - destruct origin as [source|p n].
    + destruct Hrule as (s' & Hused & ->). by eapply uses_use; [exact Hu|exact Hused|..].
    + destruct Hrule as (parent & _ & ->). eapply uses_frame; [exact Hu|done|by left|].
      cbn [set_effects effects]. unfold counted. intros id q x [[<- ?]|[_ Hid]]%lookup_insert_Some; eauto; done.
  - destruct Hrule as (tool & He & _ & ->). eapply uses_frame; [exact Hu|done|by left|].
    cbn [set_effects set_tool_source effects]. intros id q x [[<- ?]|[_ Hid]]%lookup_insert_Some; [done|eauto].
  - destruct Hrule as (_ & _ & _ & ->). eapply uses_frame; [exact Hu|done| |].
    + left. by destruct conclusion.
    + rewrite effects_conclude. cbn [set_effects effects]. intros id q x [_ Hid]%lookup_delete_Some. eauto.
  - destruct Hrule as (_ & ->). eapply uses_frame; [exact Hu|done|by left|].
    intros id q x. cbn [set_effects effects]. by rewrite lookup_empty.
Qed.

Lemma reachable_uses h bodies t :
  reachable h bodies t → uses_ok (since_intent bodies).1 (since_intent bodies).2 t.
Proof.
  induction 1 as [f Hf|bodies t turn b seq t' Hr IH Hst].
  - assert (since_intent [body f] = (None, [body f]) ∧ model_use (body f) = None ∧
      tool_source (accepted f) = None ∧ effects (accepted f) = ∅) as (-> & Huse & Hts & He)
      by (unfold accepted, since_intent; destruct (body f); done).
    cbn [fst snd]. split; unfold used_ids; simpl; rewrite ?Huse, ?Hts, ?He; try done.
    + constructor.
    + intros e u Hin. by apply elem_of_nil in Hin.
  - unfold since_intent. rewrite foldl_app. cbn [foldl].
    apply turn_step_rule in Hst as [Hrule _].
    apply (step_uses _ t b seq t'); [by eapply reachable_scheduled|exact IH|exact Hrule].
Qed.

(** C1: every Tool call of the model is used at most once, and only as the model made it: of
    the Facts after any model intent, those that run or reject a call of the model name this
    intent, which is a conversation; their calls are pairwise different; and each was started
    and ended, with the same Tool and with arguments of the same fingerprint, in the settled
    response to this intent, which ended by asking for its calls. Compactions and Facts before
    the first intent use none. *)
Theorem model_calls_used_once h bodies t :
  reachable h bodies t →
  let '(intent, facts) := since_intent bodies in
  NoDup (used_ids facts) ∧
  ∀ e u, (e, u) ∈ omap model_use facts →
    intent = Some (e, PurposeConversation) ∧ answered e facts u.
Proof.
  intros Hr%reachable_uses. destruct (since_intent bodies) as [intent facts].
  split; [apply Hr|]. intros e u. by apply Hr.
Qed.
End uses.

(** ** Calls of a program *)
Section numbers.
Context `{C : Contracts}.
Implicit Types (t : TurnControl) (bs : list SessionFactBody).

Definition opens (p : text) (b : SessionFactBody) : bool :=
  match b with ToolIntent effect _ _ _ _ _ _ => bool_decide (effect = p) | _ => false end.

(** The number of a call of the program of [p], run or rejected. *)
Definition program_number (p : text) (b : SessionFactBody) : list Z :=
  match b with
  | ToolIntent _ (OriginProgram q n) _ _ _ _ _ | ToolRejected (OriginProgram q n) _ _ _ _ =>
      if bool_decide (q = p) then [n] else []
  | _ => []
  end.

Definition numbers_step (p : text) (acc : list Z) (b : SessionFactBody) : list Z :=
  if opens p b then [] else acc ++ program_number p b.

(** The numbers of the calls of [p] since its last intent. *)
Definition numbers (p : text) bs : list Z := foldl (numbers_step p) [] bs.

Definition numbered t (p : text) (l : list Z) : Prop :=
  ∀ tool, effects t !! p = Some (ToolEffect_ tool) → l = seqZ 1 (next_program_ordinal tool - 1).

Lemma numbered_frame t t' p l :
  numbered t p l →
  (∀ tool', effects t' !! p = Some (ToolEffect_ tool') →
    ∃ tool, effects t !! p = Some (ToolEffect_ tool) ∧
      next_program_ordinal tool' = next_program_ordinal tool) →
  numbered t' p (l ++ []).
Proof.
  intros Hn Hf tool' Ht'. destruct (Hf tool' Ht') as (tool & Ht & ->).
  rewrite app_nil_r. by apply Hn.
Qed.

Lemma numbered_count t p q n role safe parent l :
  scheduled (effects t) → numbered t p l → program_admitted t q n role safe parent →
  ∀ tool', counted t q n parent !! p = Some (ToolEffect_ tool') →
    l ++ (if bool_decide (q = p) then [n] else []) = seqZ 1 (next_program_ordinal tool' - 1).
Proof.
  intros Hs Hn (_ & _ & _ & Hq & _ & ->) tool'. unfold counted.
  destruct (decide (q = p)) as [->|Hne].
  - rewrite lookup_insert_eq, bool_decide_eq_true_2 by done. intros [= <-].
    rewrite (Hn parent Hq). simpl. pose proof (sc_next _ Hs p parent Hq).
    replace (next_program_ordinal parent + 1 - 1) with (next_program_ordinal parent - 1 + 1) by lia.
    rewrite seqZ_app by lia. f_equal. rewrite seqZ_cons by lia. f_equal. lia.
  - rewrite lookup_insert_ne, bool_decide_eq_false_2, app_nil_r by done. intros Ht. by apply Hn.
Qed.

Lemma step_numbered t b seq t' p l :
  scheduled (effects t) → numbered t p l → step_rule t b seq t' →
  numbered t' p (numbers_step p l b).
Proof.
  intros Hs Hn Hrule. unfold numbers_step.
  destruct b; cbn [step_rule opens program_number] in *; try done.
  1,2: destruct Hrule as (_ & ->). 3,4: destruct Hrule as (_ & _ & x & ->).
  5: destruct Hrule as (_ & _ & r & ->). 6: destruct Hrule as (_ & _ & n & a & ->).
  7,8: destruct Hrule as (_ & ->).
  1-8: apply (numbered_frame t); [done|by eauto].
  - destruct Hrule as (_ & _ & src & _ & ->). apply (numbered_frame t); [done|].
    cbn [set_effects effects]. by intros tool [_ ?]%lookup_singleton_Some.
  - destruct Hrule as (q & He & ->). apply (numbered_frame t); [done|]. cbn [set_effects effects].
    intros tool [[<- ?]|[_ Hid]]%lookup_insert_Some; [done|eauto].
  - destruct Hrule as (He & src & _ & ->). apply (numbered_frame t); [done|]. cbn [set_effects effects].
    intros tool [_ ?]%lookup_delete_Some. eauto.
  - destruct Hrule as (_ & ->). apply (numbered_frame t); [done|].
    cbn [set_effects effects]. by intros tool [_ ?]%lookup_singleton_Some.
  - destruct Hrule as (q & He & ->). apply (numbered_frame t); [done|]. cbn [set_effects effects].
    intros tool [[<- ?]|[_ Hid]]%lookup_insert_Some; [done|eauto].
  - destruct Hrule as (He & ->). apply (numbered_frame t); [done|]. cbn [set_effects effects].
    intros tool [[<- ?]|[_ Hid]]%lookup_insert_Some; [done|eauto].
  - destruct Hrule as (tool & Hnone & _ & _ & _ & _ & Hone & Hrule).
    case_bool_decide as Hep.
    { subst effect. intros tool' Ht'. destruct origin as [source|q n];
        [destruct Hrule as (_ & s' & _ & ->)|destruct Hrule as (parent & _ & ->)];
        cbn [set_effects effects] in Ht'; rewrite lookup_insert_eq in Ht'; injection Ht' as <-;
        by rewrite Hone. }
    destruct origin as [source|q n].
    + destruct Hrule as (_ & s' & _ & ->). apply (numbered_frame t); [done|]. cbn [set_effects effects].
      intros tool' Ht'. rewrite lookup_insert_ne in Ht' by done. eauto.
    + destruct Hrule as (parent & Hadm & ->). intros tool' Ht'. cbn [set_effects effects] in Ht'.
      rewrite lookup_insert_ne in Ht' by done. by eapply numbered_count.
  - destruct Hrule as (_ & s & s' & _ & _ & ->). apply (numbered_frame t); [done|by eauto].
  - destruct origin as [source|q n].
    + destruct Hrule as (s' & _ & ->). apply (numbered_frame t); [done|by eauto].
    + destruct Hrule as (parent & Hadm & ->). intros tool' Ht'. cbn [set_effects effects] in Ht'.
      by eapply numbered_count.
  - destruct Hrule as (tool & He & _ & ->). apply (numbered_frame t); [done|]. cbn [set_effects effects].
    intros tool' [[<- [= <-]]|[_ Hid]]%lookup_insert_Some; eauto.
  - destruct Hrule as (_ & _ & _ & ->). apply (numbered_frame t); [done|]. rewrite effects_conclude.
    cbn [set_effects effects]. intros tool' [_ ?]%lookup_delete_Some. eauto.
  - destruct Hrule as (_ & ->). apply (numbered_frame t); [done|]. cbn [set_effects effects].
    intros tool'. by rewrite lookup_empty.
Qed.

(** The calls of a program are numbered without gaps: while a Tool effect is active, the
    calls of its program that were run or rejected since its intent carry the numbers 1, 2, 3
    and so on, and the next admissible number is the one after the last. *)
Lemma program_calls_numbered h bodies t p tool :
  reachable h bodies t → effects t !! p = Some (ToolEffect_ tool) →
  numbers p bodies = seqZ 1 (next_program_ordinal tool - 1).
Proof.
  intros Hr Hp. cut (numbered t p (numbers p bodies)); [by intros Hn; apply Hn|]. clear tool Hp.
  induction Hr as [f Hf|bodies t turn b seq t' Hr IH Hst].
  - intros tool. unfold accepted. by destruct (body f).
  - unfold numbers. rewrite foldl_app. cbn [foldl].
    apply turn_step_rule in Hst as [Hrule _].
    apply (step_numbered t b seq t'); [by eapply reachable_scheduled|done|done].
Qed.
End numbers.

(** ** A Turn with a program call *)
Section run.
Context `{C : Contracts}.

Fixpoint run_turn (h : SessionHeader) (t : TurnControl) (turn : text) (seq : Z)
    (bodies : list SessionFactBody) : outcome TurnError TurnControl :=
  match bodies with
  | [] => Ok t
  | b :: rest => (let? t' := turn_step h t turn b seq in run_turn h t' turn (seq + 1) rest)%outcome
  end.

Lemma run_reachable h past t turn seq bodies t' :
  reachable h past t → run_turn h t turn seq bodies = Ok t' → reachable h (past ++ bodies) t'.
Proof.
  revert past t seq. induction bodies as [|b bodies IH]; intros past t seq Hr; cbn [run_turn].
  - intros [= <-]. by rewrite app_nil_r.
  - intros (t1 & Hs & Hk)%obind_ok.
    replace (past ++ b :: bodies) with ((past ++ [b]) ++ bodies) by by rewrite <- app_assoc.
    eapply IH; [|exact Hk]. by eapply reach_step.
Qed.
End run.

Definition sample_contracts : @Contracts sample_json :=
  @Build_Contracts sample_json unit unit _ (λ _ _, Some tt).
#[local] Existing Instance sample_json.
#[local] Existing Instance sample_contracts.

Definition sample_identity (call : string) : ToolResultIdentity :=
  {| owner_id := lit "owner"; invocation_id := lit "invocation"; identity_call_id := lit call;
     request_sha256 := [] |}.
Definition sample_header : SessionHeader :=
  {| session_id := lit "session"; delegation_tools := None; initial_output := None |}.
Definition sample_accepted : SessionFact :=
  {| seq := 1; timestamp_ms := 1; turn_id := lit "turn"; body := TurnAccepted |}.
Definition sample_bodies : list SessionFactBody :=
  [StepStarted (lit "step");
   StepInputsPrepared (lit "step") (Enter [Claimed (Captured 1 0)]);
   ModelIntent (lit "effect") sample_snapshot PurposeConversation;
   ModelStarted (lit "effect");
   ModelAttemptSettled (lit "effect")
     {| events := sample_events; attempt_terminal := Finished ToolCalls |} Conversation;
   ToolIntent (lit "tool") (OriginModel (lit "effect")) Coordinator (sample_identity "first")
     (lit "read") (lit "{}") false;
   ToolStarted (lit "tool") (sample_identity "first");
   ToolRejected (OriginProgram (lit "tool") 1) Callable (sample_identity "x") (lit "x") (lit "");
   ToolIntent (lit "call") (OriginProgram (lit "tool") 2) Callable (sample_identity "y")
     (lit "y") (lit "") false].
Definition sample_turn : TurnControl :=
  match run_turn sample_header (accepted sample_accepted) (lit "turn") 2 sample_bodies with
  | Ok t => t
  | _ => accepted sample_accepted
  end.

Lemma sample_reachable : reachable sample_header (TurnAccepted :: sample_bodies) sample_turn.
Proof.
  apply (run_reachable _ [TurnAccepted] (accepted sample_accepted) (lit "turn") 2 sample_bodies).
  - by apply (reach_accept _ sample_accepted).
  - by vm_compute.
Qed.

Lemma effects_scheduled_witness :
  size (effects sample_turn) = 2%nat ∧ scheduled (effects sample_turn).
Proof. split; [by vm_compute|]. eapply effects_scheduled. exact sample_reachable. Defined.

Lemma model_calls_used_once_witness :
  used_ids (since_intent (TurnAccepted :: sample_bodies)).2 = [lit "first"] ∧
  let '(intent, facts) := since_intent (TurnAccepted :: sample_bodies) in
  NoDup (used_ids facts) ∧
  ∀ e u, (e, u) ∈ omap model_use facts →
    intent = Some (e, PurposeConversation) ∧ answered e facts u.
Proof.
  split; [by vm_compute|].
  exact (model_calls_used_once sample_header _ sample_turn sample_reachable).
Defined.

Definition sample_coordinator : option ToolEffect :=
  match effects sample_turn !! lit "tool" with Some (ToolEffect_ tool) => Some tool | _ => None end.

Lemma program_calls_numbered_witness :
  numbers (lit "tool") (TurnAccepted :: sample_bodies) = seqZ 1 (3 - 1).
Proof.
  destruct (effects sample_turn !! lit "tool") as [[| |tool]|] eqn:Ht; [done|done| |done].
  assert (next_program_ordinal tool = 3) as <-
    by (assert (Some tool = sample_coordinator) as Hs by (unfold sample_coordinator; by rewrite Ht);
        change (next_program_ordinal tool) with (from_option next_program_ordinal 0 (Some tool));
        rewrite Hs; by vm_compute).
  exact (program_calls_numbered sample_header _ sample_turn _ tool sample_reachable Ht).
Defined.
