(* ===== verification/TurnReplay.v ===== *)
(** * The life of a Turn, and its recovery

    The Facts of a Turn follow a small life cycle, which [turn_lifecycle] states as a
    refinement; a terminal Fact tells the truth about cancellation and the result
    ([terminal_truthful]); and recovering the Facts a live Turn staged gives that Turn back
    ([recovery_reproduces_live]). *)

From S2P Require Import Prelude BTree Text ToolOrigin TurnFacts TurnState TurnRules TurnSafety.


(** ** The life cycle *)
Inductive phase := Idle | InStep (step : text) | Ended.
#[export] Instance phase_eq_dec : EqDecision phase.
Proof. solve_decision. Defined.

Record life := { at_phase : phase; concluded : bool; cancelled : bool }.

Definition moved (l : life) (p : phase) : life :=
  {| at_phase := p; concluded := concluded l; cancelled := cancelled l |}.

Section replay.
Context `{C : Contracts}.
Implicit Types (t : TurnControl).

(** A Turn starts idle. Steps open and close one at a time, step-scoped Facts name the open
    Step, nothing but the end of the Step and of the Turn follows a conclusion, cancellation
    is recorded once at most, and the end of the Turn is its last Fact, outside of a Step. *)
Definition is_cancel (b : SessionFactBody) : bool :=
  match b with CancelRequested => true | _ => false end.

Definition life_step (l : life) (b : SessionFactBody) : option life :=
  if bool_decide (at_phase l = Ended) ||
     (concluded l && negb (after_conclusion b || is_cancel b)) then None
  else
    match b with
    | TurnAccepted | MessageTurnAccepted _ _ | ImageRequested => None
    | CancelRequested =>
        if cancelled l then None
        else Some {| at_phase := at_phase l; concluded := concluded l; cancelled := true |}
    | StepStarted step => if bool_decide (at_phase l = Idle) then Some (moved l (InStep step)) else None
    | StepEnded step => if bool_decide (at_phase l = InStep step) then Some (moved l Idle) else None
    | TurnTerminal _ _ => if bool_decide (at_phase l = Idle) then Some (moved l Ended) else None
    | InputMessageClaimed step | ToolContextsClaimed step _ | StepInputsPrepared step _
    | StepPrepared step _ _ | WorkspaceTouched step =>
        if bool_decide (at_phase l = InStep step) then Some l else None
    | ToolResult _ _ _ (Some _) =>
        Some {| at_phase := at_phase l; concluded := true; cancelled := cancelled l |}
    | _ => Some l
    end.

Fixpoint life_run (l : life) (bs : list SessionFactBody) : option life :=
  match bs with
  | [] => Some l
  | b :: rest => match life_step l b with Some l' => life_run l' rest | None => None end
  end.

Definition unborn : life := {| at_phase := Idle; concluded := false; cancelled := false |}.

Definition life_of t : life :=
  {| at_phase := match terminal t with
                 | Some _ => Ended
                 | None => match current_step t with Some step => InStep step | None => Idle end
                 end;
     concluded := bool_decide (is_Some (conclusion t));
     cancelled := cancel_requested t |}.

Lemma life_run_app l bs bs' :
  life_run l (bs ++ bs') = match life_run l bs with Some l' => life_run l' bs' | None => None end.
Proof. revert l. induction bs as [|b bs IH]; intros l; [done|]. simpl. by destruct (life_step l b). Qed.

Lemma life_of_step t b seq t' :
  step_rule t b seq t' → terminal t = None →
  (is_Some (conclusion t) → after_conclusion b = true ∨ b = CancelRequested) →
  life_step (life_of t) b = Some (life_of t').
Proof.
  intros Hrule Ht Hcon. unfold life_step.
  assert (at_phase (life_of t) ≠ Ended) as Hne by (simpl; rewrite Ht; by destruct (current_step t)).
  rewrite (bool_decide_eq_false_2 _ Hne). cbn [orb].
  assert (concluded (life_of t) && negb (after_conclusion b || is_cancel b) = false) as ->.
  { simpl. case_bool_decide as Hc; [|done]. destruct (Hcon Hc) as [-> | ->]; done. }
  assert (∀ s, current_step t = Some s → at_phase (life_of t) = InStep s) as Hstep
    by (intros s Hs; simpl; by rewrite Ht, Hs).
  assert (current_step t = None → at_phase (life_of t) = Idle) as Hidle
    by (intros Hs; simpl; by rewrite Ht, Hs).
  assert (∀ t1, terminal t1 = terminal t → current_step t1 = current_step t →
    conclusion t1 = conclusion t → cancel_requested t1 = cancel_requested t →
    Some (life_of t) = Some (life_of t1)) as Hsame
    by (intros t1 H1 H2 H3 H4; unfold life_of; by rewrite H1, H2, H3, H4).
  destruct b; cbn [step_rule] in Hrule; try done.
  - destruct Hrule as (Hc & ->). unfold life_of. simpl. by rewrite Hc.
  - destruct Hrule as (Hc & ->). rewrite bool_decide_eq_true_2 by auto.
    unfold moved, life_of. simpl. by rewrite Ht.
  - destruct Hrule as (Hc & _ & p & ->). rewrite bool_decide_eq_true_2 by auto. by apply Hsame.
  - destruct Hrule as (Hc & _ & p & ->). rewrite bool_decide_eq_true_2 by auto. by apply Hsame.
  - destruct Hrule as (Hc & _ & r & ->). rewrite bool_decide_eq_true_2 by auto. by apply Hsame.
  - destruct Hrule as (Hc & _ & n & a & ->). rewrite bool_decide_eq_true_2 by auto. by apply Hsame.
  - destruct Hrule as (Hc & ->). rewrite bool_decide_eq_true_2 by auto. by apply Hsame.
  - destruct Hrule as (Hc & ->). rewrite bool_decide_eq_true_2 by auto.
    unfold moved, life_of. simpl. by rewrite Ht.
  - destruct Hrule as (_ & _ & src & _ & ->). by apply Hsame.
  - destruct Hrule as (p & _ & ->). by apply Hsame.
  - destruct Hrule as (_ & src & _ & ->). by apply Hsame.
  - destruct Hrule as (_ & ->). by apply Hsame.
  - destruct Hrule as (n & _ & ->). by apply Hsame.
  - destruct Hrule as (_ & ->). by apply Hsame.
  - destruct Hrule as (tool & _ & _ & _ & _ & _ & _ & Hrule). destruct origin.
    + destruct Hrule as (_ & s' & _ & ->). by apply Hsame.
    + destruct Hrule as (parent & _ & ->). by apply Hsame.
  - destruct Hrule as (_ & s & s' & _ & _ & ->). by apply Hsame.
  - destruct origin; [destruct Hrule as (s' & _ & ->)|destruct Hrule as (parent & _ & ->)];
      by apply Hsame.
  - destruct Hrule as (tool & _ & _ & ->). by apply Hsame.
  - destruct Hrule as (_ & _ & _ & ->). destruct conclusion; [done|by apply Hsame].
  - destruct Hrule as (Hc & ->). rewrite bool_decide_eq_true_2 by auto. done.
Qed.

(** C4: the life of a Turn: the Facts of every reachable Turn are an acceptance followed by a
    run of the life cycle that ends in the phase the Turn is in. So Steps do not overlap,
    step-scoped Facts belong to the open Step, after an accepted conclusion only the Step and
    the Turn end, cancellation is recorded at most once, and nothing follows the end of the
    Turn, which is outside of any Step. *)
Theorem turn_lifecycle h bodies t :
  reachable h bodies t →
  ∃ b rest, bodies = b :: rest ∧ is_acceptance b = true ∧ life_run unborn rest = Some (life_of t).
Proof.
  induction 1 as [f Hf|bodies t turn b seq t' Hr IH Hst].
  - exists (body f), []. split_and!; [done|done|]. unfold accepted. by destruct (body f).
  - destruct IH as (a & rest & -> & Ha & Hrun). exists a, (rest ++ [b]). split_and!; [done|done|].
    rewrite life_run_app, Hrun. simpl.
    apply turn_step_rule in Hst as (Hrule & Ht & Hcon). by rewrite (life_of_step t b seq t').
Qed.


(** ** Terminal Facts *)

(** What a terminal Fact may say of a Turn: that it was cancelled exactly if a cancellation
    was recorded; a result belongs to a completed Turn and is the summary of the accepted
    conclusion, at its Fact, in this Session, activation and Turn; and a completed Turn that
    owes a structured output carries a result. *)
Definition truthful (h : SessionHeader) t (turn : text) (o : TurnOutcome)
    (result : option AgentResultRef) : Prop :=
  (o = Cancelled ↔ cancel_requested t = true) ∧
  (∀ r, result = Some r →
    o = Completed ∧ child_session_id r = session_id h ∧
    activation_id t = Some (result_activation_id r) ∧ result_turn_id r = turn ∧
    ∃ c, conclusion t = Some (result_fact_seq r, c) ∧ structured c = Some (result_summary r)) ∧
  (o = Completed → is_Some (contract h t) → is_Some result).

(** C27: a terminal Fact that was staged, whatever was proposed, is truthful about the Turn it
    ends, and leaves the Turn ended with its outcome and without an active effect. *)
Theorem terminal_truthful h roles t turn clock proposed next t' f o result :
  stage h roles t turn clock proposed next = Ok (t', f) → body f = TurnTerminal o result →
  truthful h t turn o result ∧ terminal t' = Some o ∧ effects t' = ∅.
Proof.
  unfold stage. cbv zeta. set (b := canonicalize_terminal proposed (cancel_requested t)).
  assert (b = canonicalize_terminal proposed (cancel_requested t)) as Hb by done. clearbody b.
  intros (_ & _ & Hk)%obind_ok. apply obind_ok in Hk as ([] & Hval & Hk).
  apply obind_ok in Hk as (seq & _ & Hk).
  apply obind_ok in Hk as (t1 & Happ & [= <- <-]). cbn [body]. intros ->. cbn [conclude].
  apply executor_rule in Happ as (_ & _ & _ & _ & Hrule & _).
  destruct Hrule as [_ ->]; [done|]. split; [|done]. split.
  { destruct proposed; try done. simpl in Hb. destruct (cancel_requested t).
    - by injection Hb as -> _.
    - split; [|done]. intros ->. by destruct outcome. }
  cbn [validate_conclusion] in Hval.
  destruct (match result with Some _ => _ | None => _ end) eqn:Href; [done|].
  destruct (_ && _ && _) eqn:Howed; [done|]. split.
  - intros r ->. apply negb_false_iff in Href. unfold same_result_ref in Href.
    rewrite !andb_true_iff, !bool_decide_eq_true in Href.
    destruct Href as ((((Ho & Hs) & Ha) & Ht) & Hc). split_and!; try done.
    + by destruct o.
    + destruct (conclusion t) as [[k c]|]; [|done]. apply andb_true_iff in Hc as [Hk Hc].
      apply bool_decide_eq_true in Hc. apply Z.eqb_eq in Hk as ->. eauto.
  - intros -> Hcon. cbn [andb] in Howed. rewrite (bool_decide_eq_true_2 _ Hcon) in Howed.
    apply orb_false_iff in Howed as [_ Hr%negb_false_iff]. by apply bool_decide_eq_true in Hr.
Qed.

(** ** Recovery *)
Lemma registration_recovered t roles name identity o role :
  validate_registration t (Some roles) name identity o role = Ok tt →
  validate_registration t None name identity o role = Ok tt.
Proof.
  unfold validate_registration. destruct (_ !! name); [done|]. by destruct (existsb _ _).
Qed.

Lemma admission_recovered h t b roles :
  validate_tool_admission h t b (Some roles) = Ok tt → validate_tool_admission h t b None = Ok tt.
Proof.
  unfold validate_tool_admission. intros (x & Hx & Hk)%obind_ok. rewrite Hx. cbn [obind].
  apply obind_ok in Hk as (y & Hy & Hk).
  destruct b; try done; destruct y; apply registration_recovered in Hy; rewrite Hy; exact Hk.
Qed.

(** What is staged on a live Turn, recovery accepts with the same effect. *)
Lemma stage_recovered h roles t turn clock proposed next t' f :
  stage h roles t turn clock proposed next = Ok (t', f) →
  turn_id f = turn ∧
  validate_tool_admission h t (body f) None = Ok tt ∧ validate_conclusion h t turn (body f) = Ok tt ∧
  ∃ t1, apply_executor_body t (body f) (seq f) = Ok t1 ∧ t' = conclude t1 (body f) (seq f).
Proof.
  unfold stage. cbv zeta. intros ([] & Hadm & Hk)%obind_ok.
  apply obind_ok in Hk as ([] & Hval & Hk). apply obind_ok in Hk as (seq & _ & Hk).
  apply obind_ok in Hk as (t1 & Happ & [= <- <-]).
  split_and!; [done|by eapply admission_recovered|done|]. eauto.
Qed.

Lemma stage_step h roles t turn clock proposed next t' f :
  stage h roles t turn clock proposed next = Ok (t', f) →
  turn_step h t turn (body f) (seq f) = Ok t'.
Proof.
  intros (_ & Hadm & Hval & t1 & Happ & ->)%stage_recovered.
  apply executor_rule in Happ as Hex. destruct Hex as (_ & _ & _ & Hnc & _).
  destruct (body f); cbn [turn_step]; try done; rewrite ?Hadm, ?Hval; cbn [obind]; by rewrite Happ.
Qed.

Definition is_terminal (b : SessionFactBody) : bool :=
  match b with TurnTerminal _ _ => true | _ => false end.

Lemma stage_terminal h roles t turn clock proposed next t' f :
  stage h roles t turn clock proposed next = Ok (t', f) →
  terminal t = None ∧ (is_Some (terminal t') ↔ is_terminal (body f) = true).
Proof.
  intros Hst%stage_step. revert Hst. generalize (body f) (seq f). intros b seq Hst. apply turn_step_rule in Hst as (Hrule & Ht & Hcon). split; [done|].
  pose proof (life_of_step t b seq t' Hrule Ht Hcon) as Hl.
  assert (at_phase (life_of t') = Ended ↔ is_Some (terminal t')) as <-.
  { simpl. destruct (terminal t'); [naive_solver|]. destruct (current_step t'); naive_solver. }
  unfold life_step in Hl. generalize dependent (life_of t'). intros l' Hl.
  generalize dependent (life_of t). intros l Hl.
  destruct (_ || _) eqn:Hg in Hl; [done|].
  apply orb_false_iff in Hg as [Hne%bool_decide_eq_false _].
  destruct b; cbn [is_terminal] in *; try done; repeat case_match; simplify_eq; naive_solver.
Qed.

(** The open Turns after the Facts of Turn [turn] made it [t']. *)
Definition with_turn (s : live_turns) (turn : text) t' : live_turns :=
  match terminal t' with
  | Some _ => (delete turn s.1, filter (λ x, x ≠ turn) s.2)
  | None => (<[turn := t']> s.1, s.2)
  end.

Lemma recovered_fact h roles t turn clock proposed next t' f turns order :
  stage h roles t turn clock proposed next = Ok (t', f) → turns !! turn = Some t →
  apply_recovered_fact h (turns, order) f = Ok (with_turn (turns, order) turn t').
Proof.
  intros Hst Hturn. destruct (stage_terminal _ _ _ _ _ _ _ _ _ Hst) as [Ht Hterm].
  destruct (stage_recovered _ _ _ _ _ _ _ _ _ Hst) as (Hid & Hadm & Hval & t1 & Happ & ->).
  apply executor_rule in Happ as Hex. destruct Hex as (_ & _ & Hacc & Hnc & _).
  unfold apply_recovered_fact, with_turn. rewrite Hid. cbn [fst snd].
  destruct (is_terminal (body f)) eqn:Hb.
  - destruct (body f); try done. rewrite Hturn, Happ. cbn [lift_turn obind].
    destruct Hterm as [_ Hs]. by destruct (Hs eq_refl) as [o ->].
  - assert (terminal (conclude t1 (body f) (seq f)) = None) as ->
      by (apply eq_None_not_Some; intros Hs; by apply Hterm in Hs).
    destruct (body f); try done; rewrite Hturn, Hadm, Hval, Happ; done.
Qed.

(** C2: recovery gives back what was live: after any bodies were staged on an open Turn, replaying
    the resulting Facts on the open Turns of the Session as they were before leaves exactly the
    staged Turn in its place, every other Turn as it was, and, if the Turn ended, neither the
    Turn nor its place in the order. *)
Theorem recovery_reproduces_live h roles t turn base bodies t' facts turns order :
  stage_execution_facts h roles t turn base bodies = Ok (t', facts) →
  turns !! turn = Some t → terminal t = None →
  recover h (turns, order) facts = Ok (with_turn (turns, order) turn t').
Proof.
  revert t base facts turns order. induction bodies as [|[clock proposed] bodies IH];
    intros t base facts turns order; cbn [stage_execution_facts].
  { intros [= <- <-] Hturn Ht. cbn [recover]. unfold with_turn. rewrite Ht. cbn [fst snd].
    by rewrite insert_id. }
  intros ([t1 f] & Hst & Hk)%obind_ok Hturn Ht. apply obind_ok in Hk as ([t2 rest] & Hrest & [= <- <-]).
  cbn [recover]. rewrite (recovered_fact h roles t turn clock proposed base t1 f) by done. cbn [obind].
  destruct (terminal t1) as [o|] eqn:Hterm.
  - assert (t2 = t1 ∧ rest = []) as [-> ->]; [|done].
    destruct bodies as [|[clock2 proposed2] bodies]; cbn [stage_execution_facts] in Hrest.
    + by injection Hrest as -> ->.
    + apply obind_ok in Hrest as ([t3 f3] & Hst3 & _).
      apply stage_terminal in Hst3 as [Hno _]. congruence.
  - unfold with_turn at 1. rewrite Hterm. cbn [fst snd].
    rewrite (IH t1 (seq f) rest _ _ Hrest); [|by rewrite lookup_insert_eq|done].
    unfold with_turn. cbn [fst snd]. destruct (terminal t2).
    + by rewrite delete_insert_eq.
    + by rewrite insert_insert_eq.
Qed.
End replay.

(** ** A Turn that reports a structured result *)
#[local] Existing Instance sample_json.
#[local] Existing Instance sample_contracts.

Definition report_header : SessionHeader :=
  {| session_id := lit "session"; delegation_tools := Some [];
     initial_output := Some (lit "message", tt) |}.
Definition report_accepted : TurnControl :=
  accepted {| seq := 1; timestamp_ms := 1; turn_id := lit "turn";
              body := MessageTurnAccepted (lit "activation") [lit "message"] |}.
Definition report_events : list LanguageEvent :=
  [ContentStarted 0 (StartToolCall (lit "first") REPORT_RESULT_TOOL Function_);
   ContentDelta_ 0 (DeltaToolArguments (lit "{}"));
   ContentFinished 0;
   Finished ToolCalls].
Definition report_bodies : list SessionFactBody :=
  [StepStarted (lit "step");
   InputMessageClaimed (lit "step");
   StepInputsPrepared (lit "step") (Enter [Claimed (Captured 3 0)]);
   ModelIntent (lit "effect") sample_snapshot PurposeConversation;
   ModelStarted (lit "effect");
   ModelAttemptSettled (lit "effect")
     {| events := report_events; attempt_terminal := Finished ToolCalls |} Conversation;
   ToolIntent (lit "tool") (OriginModel (lit "effect")) Unavailable (sample_identity "first")
     REPORT_RESULT_TOOL (lit "{}") false;
   ToolStarted (lit "tool") (sample_identity "first");
   ToolResult (lit "tool") (sample_identity "first")
     (@Build_ToolResultValue sample_json (lit "{}") false 0)
     (Some {| structured := Some tt |});
   StepEnded (lit "step")].
Definition report_result : AgentResultRef :=
  {| child_session_id := lit "session"; result_activation_id := lit "activation";
     result_turn_id := lit "turn"; result_fact_seq := 10; result_summary := tt |}.
Definition report_terminal : SessionFactBody := TurnTerminal Completed (Some report_result).

Definition report_staged (bodies : list SessionFactBody) : TurnControl * list SessionFact :=
  match stage_execution_facts report_header ∅ report_accepted (lit "turn") 1 ((5,.) <$> bodies) with
  | Ok x => x
  | _ => (report_accepted, [])
  end.
Definition report_turn : TurnControl := (report_staged report_bodies).1.
Definition report_ended : TurnControl :=
  match stage report_header ∅ report_turn (lit "turn") 5 report_terminal 11 with
  | Ok (t, _) => t
  | _ => report_accepted
  end.

Lemma turn_lifecycle_witness :
  ∃ b rest, TurnAccepted :: sample_bodies = b :: rest ∧ is_acceptance b = true ∧
    life_run unborn rest = Some (life_of sample_turn).
Proof. exact (turn_lifecycle sample_header _ sample_turn sample_reachable). Defined.

Lemma terminal_truthful_witness :
  truthful report_header report_turn (lit "turn") Completed (Some report_result) ∧
  terminal report_ended = Some Completed ∧ effects report_ended = ∅.
Proof.
  apply (terminal_truthful report_header ∅ report_turn (lit "turn") 5 report_terminal 11
    report_ended
    {| seq := 12; timestamp_ms := 5; turn_id := lit "turn"; body := report_terminal |}
    Completed (Some report_result)); by vm_compute.
Defined.

Lemma recovery_reproduces_live_witness :
  recover report_header ({[lit "turn" := report_accepted]}, [lit "turn"])
    (report_staged (report_bodies ++ [report_terminal])).2 = Ok (∅, []).
Proof.
  assert (Ht : terminal (report_staged (report_bodies ++ [report_terminal])).1 = Some Completed)
    by by vm_compute.
  assert (Hs : stage_execution_facts report_header ∅ report_accepted (lit "turn") 1
            ((5,.) <$> report_bodies ++ [report_terminal]) = Ok (report_staged (report_bodies ++ [report_terminal])))
    by by vm_compute.
  destruct (report_staged (report_bodies ++ [report_terminal])) as [t facts]. cbn [fst snd] in *.
  rewrite (recovery_reproduces_live report_header ∅ report_accepted (lit "turn") 1 _ t facts
    {[lit "turn" := report_accepted]} [lit "turn"] Hs);
    [|by rewrite lookup_singleton_eq|by vm_compute].
  unfold with_turn. rewrite Ht. cbn [fst snd]. by rewrite delete_singleton_eq.
Defined.
