(* ===== verification/CompositionOrder.v ===== *)
(** * The composition order of the Meta runtime

    [crates/rsi-meta/core/src/runtime/composition_order.rs]: every parent generation of a
    Fiber orders its direct children. A [ChildPosition] is a shared reference ([Arc]) to a
    [Position], which keeps its parent's position alive; the order has an entry per live
    position, removed by the destructor.

    A [World] is one Runtime's order together with what refers to it: the reference counts
    ([arcs]), the [ChildPosition] values clients hold ([handles]) and the occupancies the
    Fibers own ([fibers], of which [FiberData] keeps what the order reads). References are
    identities of positions: a position's [Arc] is unique to it. A position of another
    Runtime is [Foreign]. Every mutation happens under the lock of the order. *)

From S2P Require Import Prelude.

Record Owner := { fiber : Z; generation : Z }.
#[export] Instance Owner_eq_dec : EqDecision Owner.
Proof. solve_decision. Defined.
#[export] Instance Owner_countable : Countable Owner.
Proof.
  refine (inj_countable' (λ o, (fiber o, generation o)) (λ p, {| fiber := p.1; generation := p.2 |}) _).
  by intros [].
Defined.

(** The errors of [MetaError] the order gives. *)
Inductive MetaError :=
| CapacityExhausted (resource : string)
| InvalidInput (message : string)
| StaleContext (f g : Z).

(** ** The order and its positions *)
Record Entry := { e_parent : option Z; rank : Z; occupant : option Z }.

(** [revision] is the identity of the current [Arc<()>]: a new one is a new number. *)
Record OrderState := {
  next : Z;
  revision : Z;
  positions : gmap Z Entry;
  scopes : gmap (option Owner) (gset Z)
}.

(** A [Position] and the number of its [ChildPosition]s. *)
Record Position := { p_parent : option Z; p_owner : option Owner; strong : Z }.

(** Of [FiberData]: its generation, whether its state is [Loading] or [Active], and the
    position of its [PositionOccupancy]. *)
Record FiberData := { f_generation : Z; f_live : bool; f_position : option Z }.

Record World := {
  maximum : Z;
  maximum_order_entries : Z;
  state : OrderState;
  arcs : gmap Z Position;
  fibers : gmap Z FiberData;
  handles : list Z
}.

(** [ChildPosition] as an argument. *)
Inductive ChildPosition := Local (id : Z) | Foreign.

Definition with_rank (e : Entry) (r : Z) : Entry :=
  {| e_parent := e_parent e; rank := r; occupant := occupant e |}.
Definition with_occupant (e : Entry) (o : option Z) : Entry :=
  {| e_parent := e_parent e; rank := rank e; occupant := o |}.
Definition with_strong (a : Position) (n : Z) : Position :=
  {| p_parent := p_parent a; p_owner := p_owner a; strong := n |}.

Definition set_positions (st : OrderState) (m : gmap Z Entry) : OrderState :=
  {| next := next st; revision := revision st; positions := m; scopes := scopes st |}.
Definition set_state (w : World) (st : OrderState) : World :=
  {| maximum := maximum w; maximum_order_entries := maximum_order_entries w; state := st;
     arcs := arcs w; fibers := fibers w; handles := handles w |}.
Definition set_arcs (w : World) (m : gmap Z Position) : World :=
  {| maximum := maximum w; maximum_order_entries := maximum_order_entries w; state := state w;
     arcs := m; fibers := fibers w; handles := handles w |}.
Definition set_fibers (w : World) (m : gmap Z FiberData) : World :=
  {| maximum := maximum w; maximum_order_entries := maximum_order_entries w; state := state w;
     arcs := arcs w; fibers := m; handles := handles w |}.
Definition set_handles (w : World) (l : list Z) : World :=
  {| maximum := maximum w; maximum_order_entries := maximum_order_entries w; state := state w;
     arcs := arcs w; fibers := fibers w; handles := l |}.

(** [CompositionOrder::new] *)
Definition new_world (most entries : Z) : World :=
  {| maximum := most; maximum_order_entries := entries;
     state := {| next := 0; revision := 0; positions := ∅; scopes := ∅ |};
     arcs := ∅; fibers := ∅; handles := [] |}.

Definition scope_of (st : OrderState) (owner : option Owner) : gset Z :=
  default ∅ (scopes st !! owner).

(** [CompositionOrder::allocate] *)
Definition allocate (most : Z) (st : OrderState) (owner : option Owner) (parent : option Z)
  : outcome MetaError (OrderState * Z) :=
  if most <=? Z.of_nat (size (positions st)) then Err (CapacityExhausted "composition positions")
  else
    (let? id := ok_or (checked_add u64_max (next st) 1)
                  (CapacityExhausted "composition position identities") in
     Ok ({| next := id; revision := revision st + 1;
            positions := <[id := {| e_parent := parent; rank := id; occupant := None |}]>
                           (positions st);
            scopes := <[owner := {[id]} ∪ scope_of st owner]> (scopes st) |}, id))%outcome.

(** [ChildPosition::validate] *)
Definition validate (w : World) (owner : option Owner) (p : ChildPosition)
  : outcome MetaError Z :=
  match p with
  | Foreign => Err (InvalidInput "composition position belongs to another parent or Runtime")
  | Local id =>
      (let? a := expect (arcs w !! id) in
       if bool_decide (p_owner a = owner) then Ok id
       else Err (InvalidInput "composition position belongs to another parent or Runtime"))%outcome
  end.

(** ** Reordering *)

(** The first loop of [reorder]: the identities listed. *)
Fixpoint select_positions (w : World) (owner : option Owner) (selected : gset Z)
    (l : list ChildPosition) : outcome MetaError (list Z) :=
  match l with
  | [] => Ok []
  | p :: rest =>
      (let? id := validate w owner p in
       if bool_decide (id ∈ selected)
       then Err (InvalidInput "duplicate composition position in order")
       else let? ids := select_positions w owner ({[id]} ∪ selected) rest in Ok (id :: ids))%outcome
  end.

Definition pair_le (a b : Z * Z) : Prop := a.1 < b.1 ∨ (a.1 = b.1 ∧ a.2 ≤ b.2).
#[export] Instance pair_le_dec a b : Decision (pair_le a b).
Proof. unfold pair_le. apply _. Defined.

(** [state.positions[id].rank] of every member, then [sort_unstable] on the pairs. *)
Definition by_rank (m : gmap Z Entry) (ids : list Z) : option (list Z) :=
  (λ pairs, (merge_sort pair_le pairs).*2) <$>
  mapM (λ id, (λ e, (rank e, id)) <$> m !! id) ids.

(** The second loop: position after position gets the next rank. *)
Fixpoint assign (r : Z) (ids : list Z) (m : gmap Z Entry) (changed : bool)
  : option (gmap Z Entry * bool) :=
  match ids with
  | [] => Some (m, changed)
  | id :: rest =>
      match m !! id with
      | Some e => assign (r + 1) rest (<[id := with_rank e r]> m) (changed || negb (rank e =? r))
      | None => None
      end
  end.

(** [CompositionOrder::reorder] *)
Definition reorder (w : World) (owner : option Owner) (l : list ChildPosition)
  : outcome MetaError World :=
  (let? ids := select_positions w owner ∅ l in
   match scopes (state w) !! owner with
   | None => Ok w
   | Some scope =>
       let st := state w in
       let? tail := expect (by_rank (positions st) (elements (scope ∖ list_to_set ids))) in
       let? (m, changed) := expect (assign 0 (ids ++ tail) (positions st) false) in
       Ok (set_state w {| next := next st;
                          revision := if changed then revision st + 1 else revision st;
                          positions := m; scopes := scopes st |})
   end)%outcome.

(** ** References *)
Definition retain (p : option Z) (m : gmap Z Position) : gmap Z Position :=
  match p with
  | Some q => alter (λ a, with_strong a (strong a + 1)) q m
  | None => m
  end.

(** The state changes of [Position::drop]. *)
Definition retire (st : OrderState) (owner : option Owner) (id : Z) : OrderState :=
  {| next := next st; revision := revision st + 1;
     positions := delete id (positions st);
     scopes := match scopes st !! owner with
               | Some scope =>
                   if bool_decide (scope ∖ {[id]} = ∅) then delete owner (scopes st)
                   else <[owner := scope ∖ {[id]}]> (scopes st)
               | None => scopes st
               end |}.

(** A [ChildPosition] is dropped. The last one of a position runs its destructor, which
    goes on with the reference to the parent; every round removes a position. *)
Fixpoint release (fuel : nat) (w : World) (p : Z) : outcome MetaError World :=
  match fuel with
  | O => Panic
  | S fuel =>
      (let? a := expect (arcs w !! p) in
       if strong a =? 1 then
         let w1 := set_arcs (set_state w (retire (state w) (p_owner a) p)) (delete p (arcs w)) in
         match p_parent a with
         | Some q => release fuel w1 q
         | None => Ok w1
         end
       else Ok (set_arcs w (<[p := with_strong a (strong a - 1)]> (arcs w))))%outcome
  end.
Definition drop_reference (w : World) (p : Z) : outcome MetaError World :=
  release (S (size (arcs w))) w p.

(** [ChildPosition::claim]: the occupancy becomes part of the Fiber's data. *)
Definition claim (w : World) (owner : option Owner) (p : ChildPosition) (f : Z)
  : outcome MetaError World :=
  (let? id := validate w owner p in
   let? e := expect (positions (state w) !! id) in
   match occupant e with
   | Some _ => Err (InvalidInput "composition position already has a live Fiber")
   | None =>
       Ok (set_fibers
             (set_arcs
                (set_state w (set_positions (state w)
                   (<[id := with_occupant e (Some f)]> (positions (state w)))))
                (retain (Some id) (arcs w)))
             (<[f := {| f_generation := 0; f_live := false; f_position := Some id |}]> (fibers w)))
   end)%outcome.

(** The occupancy is taken from the data of a disposed Fiber and dropped. *)
Definition release_occupancy (w : World) (f : Z) (d : FiberData) (id : Z)
  : outcome MetaError World :=
  (let? e := expect (positions (state w) !! id) in
   let st := if bool_decide (occupant e = Some f)
             then set_positions (state w) (<[id := with_occupant e None]> (positions (state w)))
             else state w in
   drop_reference
     (set_fibers (set_state w st)
        (<[f := {| f_generation := f_generation d; f_live := false; f_position := None |}]> (fibers w)))
     id)%outcome.

(** ** The operations of a [Context] (which names its owner)

    Runtime shutdown only refuses more of them and is left out. *)

(** [Context::with_live_position], up to the operation. *)
Definition with_live_position (w : World) (owner : option Owner) : outcome MetaError (option Z) :=
  match owner with
  | None => Ok None
  | Some o =>
      match fibers w !! fiber o with
      | None => Err (StaleContext (fiber o) (generation o))
      | Some d =>
          if negb (f_generation d =? generation o) || negb (f_live d)
          then Err (StaleContext (fiber o) (generation o))
          else (let? p := expect (f_position d) in Ok (Some p))%outcome
      end
  end.

(** [Context::child_position]: the position, one reference to it, and its parent retained. *)
Definition child_position (w : World) (owner : option Owner) : outcome MetaError (World * Z) :=
  (let? parent := with_live_position w owner in
   let? (st, id) := allocate (maximum w) (state w) owner parent in
   Ok (set_handles
         (set_arcs (set_state w st)
            (<[id := {| p_parent := parent; p_owner := owner; strong := 1 |}]>
               (retain parent (arcs w))))
         (handles w ++ [id]), id))%outcome.

Definition clone (w : World) (p : Z) : World :=
  set_handles (set_arcs w (retain (Some p) (arcs w))) (handles w ++ [p]).

(** [Context::with_child_position] *)
Definition with_child_position (w : World) (owner : option Owner) (p : ChildPosition)
  : outcome MetaError World :=
  (let? _ := with_live_position w owner in
   let? id := validate w owner p in
   Ok (clone w id))%outcome.

(** [Context::reorder_children] *)
Definition reorder_children (w : World) (owner : option Owner) (l : list ChildPosition)
  : outcome MetaError World :=
  if maximum w <? len l then Err (CapacityExhausted "composition order inputs")
  else (let? _ := with_live_position w owner in reorder w owner l)%outcome.

(** The part of an application that concerns the order: the selected position (or a new
    one) is cloned, claimed for the new Fiber [f], and the clone dropped at the end. *)
Definition apply_fiber (w : World) (owner : option Owner) (selected : option Z) (f : Z)
  : outcome MetaError (World * option MetaError) :=
  (let? (w1, p) := match selected with
                   | Some p => Ok (clone w p, p)
                   | None => child_position w owner
                   end in
   match claim w1 owner (Local p) f with
   | Ok w2 => let? w3 := drop_reference (set_handles w2 (handles w)) p in Ok (w3, None)
   | Err e => let? w3 := drop_reference (set_handles w1 (handles w)) p in Ok (w3, Some e)
   | Panic => Panic
   end)%outcome.

(** ** Keys *)

(** [OrderView::key]: the ranks from the root to the position; the loop follows parents,
    of which there are fewer than entries. *)
Fixpoint key_loop (fuel : nat) (m : gmap Z Entry) (id : option Z) : option (list Z) :=
  match id with
  | None => Some []
  | Some current =>
      match fuel with
      | O => None
      | S fuel =>
          match m !! current with
          | Some e => (λ result, result ++ [rank e]) <$> key_loop fuel m (e_parent e)
          | None => None
          end
      end
  end.
Definition key (st : OrderState) (p : Z) : option (list Z) :=
  key_loop (S (size (positions st))) (positions st) (Some p).

(** [RegistrationRank] with its derived order. *)
Definition RegistrationRank : Type := list Z * Z.
Fixpoint path_compare (a b : list Z) : comparison :=
  match a, b with
  | [], [] => Eq
  | [], _ => Lt
  | _, [] => Gt
  | x :: a', y :: b' => match x ?= y with Eq => path_compare a' b' | c => c end
  end.
Definition rank_compare (a b : RegistrationRank) : comparison :=
  match path_compare a.1 b.1 with Eq => a.2 ?= b.2 | c => c end.

(** [RegistrationOrderSnapshot::capture] of positions of which the first, if there is one,
    belongs to this Runtime; the captured revision is [None] for an empty snapshot. *)
Definition RegistrationOrderSnapshot : Type := option Z * list RegistrationRank.
Definition capture (w : World) (l : list (ChildPosition * Z)) : outcome MetaError RegistrationOrderSnapshot :=
  if bool_decide (l = []) then Ok (None, [])
  else if maximum_order_entries w <? len l
  then Err (CapacityExhausted "registration order snapshot entries")
  else if existsb (λ p, match p.1 with Foreign => true | Local _ => false end) l
  then Err (InvalidInput "contribution order cannot combine different Runtimes")
  else
    (let? ranks := expect (mapM (λ p, match p.1 with
                                      | Local id => (λ path, (path, p.2)) <$> key (state w) id
                                      | Foreign => None
                                      end) l) in
     Ok (Some (revision (state w)), ranks))%outcome.
Definition is_current (w : World) (s : RegistrationOrderSnapshot) : bool :=
  match s.1 with Some captured => captured =? revision (state w) | None => true end.

(** ** Histories

    A step is an operation of a [Context] or of the holder of a [ChildPosition] (its [i]-th
    reference), or a change of a Fiber's own state. [None] is a panic; a refused operation
    gives its error. An operation on a reference nobody holds, or on a Fiber that does not
    exist, is no step. *)
Inductive op :=
| OChild (owner : option Owner)
| OSelect (owner : option Owner) (i : nat)
| OClone (i : nat)
| ODrop (i : nat)
| OReorder (owner : option Owner) (l : list (option nat))
| OApply (owner : option Owner) (selected : option nat) (f : Z)
| OFiber (f g : Z) (live : bool)
| ODispose (f : Z).

Definition report (w : World) (r : outcome MetaError World) : option (World * option MetaError) :=
  match r with Ok w' => Some (w', None) | Err e => Some (w, Some e) | Panic => None end.

(** The argument of [reorder_children]: [None] is a position of another Runtime. *)
Definition argument (w : World) (i : option nat) : option ChildPosition :=
  match i with Some i => Local <$> handles w !! i | None => Some Foreign end.

Definition step (w : World) (o : op) : option (World * option MetaError) :=
  match o with
  | OChild owner => report w (let? (w', _) := child_position w owner in Ok w')%outcome
  | OSelect owner i =>
      match handles w !! i with
      | Some p => report w (with_child_position w owner (Local p))
      | None => Some (w, None)
      end
  | OClone i =>
      match handles w !! i with Some p => Some (clone w p, None) | None => Some (w, None) end
  | ODrop i =>
      match handles w !! i with
      | Some p => report w (drop_reference (set_handles w (delete i (handles w))) p)
      | None => Some (w, None)
      end
  | OReorder owner l =>
      match mapM (argument w) l with
      | Some l => report w (reorder_children w owner l)
      | None => Some (w, None)
      end
  | OApply owner selected f =>
      match match selected with Some i => Some <$> handles w !! i | None => Some None end, fibers w !! f with
      | Some selected, None =>
          match apply_fiber w owner selected f with
          | Ok r => Some r
          | Err e => Some (w, Some e)
          | Panic => None
          end
      | _, _ => Some (w, None)
      end
  | OFiber f g live =>
      match fibers w !! f with
      | Some {| f_position := Some p |} =>
          Some (set_fibers w (<[f := {| f_generation := g; f_live := live; f_position := Some p |}]>
                                (fibers w)), None)
      | _ => Some (w, None)
      end
  | ODispose f =>
      match fibers w !! f with
      | Some d =>
          match f_position d with
          | Some id => report w (release_occupancy w f d id)
          | None => Some (w, None)
          end
      | None => Some (w, None)
      end
  end.

Fixpoint run (w : World) (ops : list op) : option World :=
  match ops with
  | [] => Some w
  | o :: rest => match step w o with Some (w', _) => run w' rest | None => None end
  end.

(** ** What the order promises *)

(** The children of a parent generation, in order. *)
Definition children (w : World) (owner : option Owner) : list Z :=
  default [] (by_rank (positions (state w)) (elements (scope_of (state w) owner))).

(** A position that is still referred to: held, occupied, or the parent of such a one. *)
Inductive referenced (w : World) : Z → Prop :=
| ref_handle p : p ∈ handles w → referenced w p
| ref_fiber f d p : fibers w !! f = Some d → f_position d = Some p → referenced w p
| ref_child q a p : referenced w q → arcs w !! q = Some a → p_parent a = Some p → referenced w p.

(** A position and everything below it. *)
Inductive below (w : World) (p : Z) : Z → Prop :=
| below_self : below w p p
| below_child q a x : below w p q → arcs w !! x = Some a → p_parent a = Some q → below w p x.

(** ** Counting references *)
Definition count {A} (P : A → bool) (m : gmap Z A) : Z :=
  Z.of_nat (size (filter (λ e, P e.2 = true) m)).
Definition listed (p : Z) (l : list Z) : Z := Z.of_nat (length (filter (λ q, q = p) l)).

Lemma count_nonneg {A} (P : A → bool) m : 0 ≤ count P m.
Proof. unfold count. lia. Qed.

Lemma count_insert_new {A} (P : A → bool) m k v :
  m !! k = None → count P (<[k:=v]> m) = count P m + Z.b2z (P v).
Proof.
  intros Hk. unfold count. destruct (P v) eqn:HP; cbn [Z.b2z].
  - rewrite map_filter_insert_True by done. rewrite map_size_insert_None; [lia|].
    by apply map_lookup_filter_None_2; left.
  - rewrite map_filter_insert_False by (cbn; congruence). rewrite delete_id by done. lia.
Qed.

Lemma count_delete {A} (P : A → bool) m k v :
  m !! k = Some v → count P (delete k m) = count P m - Z.b2z (P v).
Proof.
  intros Hk. rewrite <- (insert_delete_id m k v Hk) at 2.
  rewrite count_insert_new by apply lookup_delete_eq. lia.
Qed.

Lemma count_insert {A} (P : A → bool) m k v v0 :
  m !! k = Some v0 → count P (<[k:=v]> m) = count P m - Z.b2z (P v0) + Z.b2z (P v).
Proof.
  intros Hk. rewrite <- insert_delete_eq, count_insert_new by apply lookup_delete_eq.
  by rewrite (count_delete P m k v0).
Qed.

Lemma count_pos {A} (P : A → bool) m : 1 ≤ count P m → ∃ k v, m !! k = Some v ∧ P v = true.
Proof.
  unfold count. intros Hc. destruct (map_choose (filter (λ e, P e.2 = true) m)) as (k & v & Hkv).
  - intros He. rewrite He, map_size_empty in Hc. lia.
  - apply map_lookup_filter_Some in Hkv as [??]. eauto.
Qed.

Lemma count_ge {A} (P : A → bool) m k v : m !! k = Some v → P v = true → 1 ≤ count P m.
Proof.
  intros Hk HP. pose proof (count_delete P m k v Hk) as Hd. rewrite HP in Hd. cbn in Hd.
  pose proof (count_nonneg P (delete k m)). lia.
Qed.

Lemma listed_app p l l' : listed p (l ++ l') = listed p l + listed p l'.
Proof. unfold listed. rewrite filter_app, length_app. lia. Qed.

Lemma listed_cons p q l : listed p (q :: l) = listed p l + Z.b2z (bool_decide (q = p)).
Proof.
  unfold listed. rewrite filter_cons. case_bool_decide; destruct (decide (q = p)); try done; simpl; lia.
Qed.

Lemma listed_delete p l i q :
  l !! i = Some q → listed p (delete i l) = listed p l - Z.b2z (bool_decide (q = p)).
Proof.
  intros Hi. rewrite <- (take_drop_middle l i q Hi) at 2. rewrite delete_take_drop.
  rewrite !listed_app, listed_cons. lia.
Qed.

Lemma listed_pos p l : 1 ≤ listed p l ↔ p ∈ l.
Proof.
  unfold listed. split.
  - intros Hl. destruct (filter (λ q, q = p) l) as [|q l'] eqn:Hf; [simpl in Hl; lia|].
    assert (q ∈ filter (λ q, q = p) l) as [-> ?]%list_elem_of_filter by (rewrite Hf; constructor). done.
  - intros Hp. assert (p ∈ filter (λ q, q = p) l) as Hf by by apply list_elem_of_filter.
    destruct (filter _ l); [by apply elem_of_nil in Hf|simpl; lia].
Qed.

Definition is_parent (p : Z) (a : Position) : bool := bool_decide (p_parent a = Some p).
Definition occupies (p : Z) (d : FiberData) : bool := bool_decide (f_position d = Some p).
Definition holders (w : World) (p : Z) : Z :=
  listed p (handles w) + count (occupies p) (fibers w) + count (is_parent p) (arcs w).

(** ** The invariant

    [wf]: entries, references and scopes describe the same positions; [counted x] the
    reference counts, with one more reference, to [x], that is about to be dropped. *)
Record wf (w : World) : Prop := {
  wf_dom p : is_Some (positions (state w) !! p) ↔ is_Some (arcs w !! p);
  wf_entry p a e : arcs w !! p = Some a → positions (state w) !! p = Some e →
    e_parent e = p_parent a;
  wf_ids p a : arcs w !! p = Some a → 1 ≤ p ≤ next (state w);
  wf_next : 0 ≤ next (state w) ≤ u64_max;
  wf_parent p a q : arcs w !! p = Some a → p_parent a = Some q → q < p ∧ is_Some (arcs w !! q);
  wf_held p : p ∈ handles w → is_Some (arcs w !! p);
  wf_occupied f d p : fibers w !! f = Some d → f_position d = Some p → is_Some (arcs w !! p);
  wf_occupant p e f : positions (state w) !! p = Some e →
    occupant e = Some f ↔ ∃ d, fibers w !! f = Some d ∧ f_position d = Some p;
  wf_live f d : fibers w !! f = Some d → f_live d = true → is_Some (f_position d);
  wf_scope o p : p ∈ scope_of (state w) o ↔ ∃ a, arcs w !! p = Some a ∧ p_owner a = o;
  wf_scopes o : scopes (state w) !! o ≠ Some ∅;
  wf_rank p e : positions (state w) !! p = Some e → 0 ≤ rank e ≤ next (state w);
  wf_ranks p q a b e f : arcs w !! p = Some a → arcs w !! q = Some b → p_owner a = p_owner b →
    positions (state w) !! p = Some e → positions (state w) !! q = Some f →
    rank e = rank f → p = q;
  wf_family p a o : arcs w !! p = Some a → p_owner a = Some o →
    ∃ d, fibers w !! fiber o = Some d ∧ (f_position d = None ∨ f_position d = p_parent a);
  wf_siblings p q a b : arcs w !! p = Some a → arcs w !! q = Some b → p_owner a = p_owner b →
    p_parent a = p_parent b;
  wf_root p a : arcs w !! p = Some a → p_owner a = None → p_parent a = None;
  wf_size : Z.of_nat (size (positions (state w))) ≤ Z.max 0 (maximum w)
}.

Record counted (x : option Z) (w : World) : Prop := {
  counted_strong p a : arcs w !! p = Some a →
    strong a = holders w p + Z.b2z (bool_decide (x = Some p)) ∧ 1 ≤ strong a;
  counted_loose p : x = Some p → is_Some (arcs w !! p)
}.

Lemma new_world_wf most entries : wf (new_world most entries) ∧ counted None (new_world most entries).
Proof.
  split; split; cbn -[u64_max size]; unfold scope_of; cbn -[u64_max size]; intros;
    rewrite ?lookup_empty in *; try done; cbn -[u64_max size].
  - by apply elem_of_nil in H.
  - split; [set_solver|by intros (? & ? & ?)].
  - rewrite map_size_empty. lia.
Qed.

(** *** Only the counts change *)
Definition shape (m : gmap Z Position) : gmap Z (option Z * option Owner) :=
  (λ a, (p_parent a, p_owner a)) <$> m.

Lemma shape_lookup m m' p a :
  shape m' = shape m → m' !! p = Some a →
  ∃ b, m !! p = Some b ∧ p_parent a = p_parent b ∧ p_owner a = p_owner b.
Proof.
  intros Hs Hp. assert (shape m' !! p = Some (p_parent a, p_owner a)) as Hl
    by (unfold shape; by rewrite lookup_fmap, Hp).
  rewrite Hs in Hl. unfold shape in Hl. rewrite lookup_fmap in Hl.
  destruct (m !! p) as [b|]; [|done]. injection Hl as Hp1 Hp2. eauto.
Qed.

Lemma shape_dom m m' p : shape m' = shape m → is_Some (m' !! p) ↔ is_Some (m !! p).
Proof.
  intros Hs. split; intros [a Ha].
  - destruct (shape_lookup m m' p a Hs Ha) as (b & -> & _). done.
  - destruct (shape_lookup m' m p a (eq_sym Hs) Ha) as (b & -> & _). done.
Qed.

Lemma shape_insert m p a n :
  m !! p = Some a → shape (<[p := with_strong a n]> m) = shape m.
Proof.
  intros Hp. unfold shape. rewrite fmap_insert. apply insert_id. by rewrite lookup_fmap, Hp.
Qed.

Lemma shape_retain m p : shape (retain p m) = shape m.
Proof.
  destruct p as [p|]; [|done]. cbn. destruct (m !! p) as [a|] eqn:Hp.
  - replace (alter _ p m) with (<[p := with_strong a (strong a + 1)]> m); [by apply shape_insert|].
    apply map_eq. intros q. destruct (decide (q = p)) as [->|].
    + by rewrite lookup_insert_eq, lookup_alter_eq, Hp.
    + by rewrite lookup_insert_ne, lookup_alter_ne by done.
  - f_equal. apply map_eq. intros q. destruct (decide (q = p)) as [->|].
    + by rewrite lookup_alter_eq, Hp.
    + by rewrite lookup_alter_ne.
Qed.

Lemma wf_arcs w m : wf w → shape m = shape (arcs w) → wf (set_arcs w m).
Proof.
  intros [] Hs. pose proof (λ p a, shape_lookup _ _ p a Hs) as Hl.
  pose proof (λ p, shape_dom _ _ p Hs) as Hd.
  split; cbn; try done.
  - intros p. rewrite Hd. done.
  - intros p a e (b & Hb & -> & _)%Hl. eauto.
  - intros p a (b & Hb & _)%Hl. eauto.
  - intros p a q (b & Hb & -> & _)%Hl Hq. rewrite Hd. eauto.
  - intros p. rewrite Hd. eauto.
  - intros f d p. rewrite Hd. eauto.
  - intros o p. rewrite wf_scope0. split; intros (a & Ha & <-).
    + destruct (shape_lookup _ _ p a (eq_sym Hs) Ha) as (b & ? & _ & ?). eauto.
    + destruct (Hl p a Ha) as (b & ? & _ & ?). eauto.
  - intros p q a b e f (a' & Ha & _ & ->)%Hl (b' & Hb & _ & ->)%Hl. eauto.
  - intros p a o (b & Hb & -> & ->)%Hl. eauto.
  - intros p q a b (a' & Ha & -> & ->)%Hl (b' & Hb & -> & ->)%Hl. eauto.
  - intros p a (b & Hb & -> & ->)%Hl. eauto.
Qed.

Lemma retain_insert m p a :
  m !! p = Some a → retain (Some p) m = <[p := with_strong a (strong a + 1)]> m.
Proof.
  intros Hp. apply map_eq. intros q. cbn. destruct (decide (q = p)) as [->|].
  - by rewrite lookup_insert_eq, lookup_alter_eq, Hp.
  - by rewrite lookup_insert_ne, lookup_alter_ne by done.
Qed.

Lemma holders_strong w p a n q :
  arcs w !! p = Some a → holders (set_arcs w (<[p := with_strong a n]> (arcs w))) q = holders w q.
Proof.
  intros Hp. unfold holders. cbn. rewrite (count_insert _ _ _ _ a) by done.
  unfold is_parent at 2 3. cbn. lia.
Qed.

(** A reference more or less. *)
Lemma counted_strong_step x y w p a n :
  counted x w → arcs w !! p = Some a →
  n = holders w p + Z.b2z (bool_decide (y = Some p)) → 1 ≤ n →
  (∀ q, q ≠ p → bool_decide (x = Some q) = bool_decide (y = Some q)) →
  (∀ q, y = Some q → is_Some (arcs w !! q)) →
  counted y (set_arcs w (<[p := with_strong a n]> (arcs w))).
Proof.
  intros [Hc Hl] Hp -> Hn Hxy Hy. split.
  - intros q b Hq. cbn in Hq. rewrite holders_strong by done.
    apply lookup_insert_Some in Hq as [[<- <-]|[Hne Hq]]; [done|].
    rewrite <- Hxy by done. by apply Hc.
  - intros q Hq. cbn. apply lookup_insert_is_Some'. auto.
Qed.

(** *** Dropping references *)
Record shrunk (w w' : World) : Prop := {
  shrunk_maximum : maximum w' = maximum w;
  shrunk_entries : maximum_order_entries w' = maximum_order_entries w;
  shrunk_next : next (state w') = next (state w);
  shrunk_fibers : fibers w' = fibers w;
  shrunk_handles : handles w' = handles w;
  shrunk_positions : positions (state w') ⊆ positions (state w);
  shrunk_arcs p a : arcs w' !! p = Some a →
    ∃ b, arcs w !! p = Some b ∧ p_parent a = p_parent b ∧ p_owner a = p_owner b
}.

Lemma shrunk_trans w1 w2 w3 : shrunk w1 w2 → shrunk w2 w3 → shrunk w1 w3.
Proof.
  intros [] []. split; try congruence.
  - by etrans.
  - intros p a (b & (c & ? & ? & ?)%shrunk_arcs0 & ? & ?)%shrunk_arcs1. exists c. split_and!; congruence.
Qed.

Lemma scope_of_retire st owner p o :
  p ∉ scope_of st o ∨ o = owner →
  scope_of (retire st owner p) o = scope_of st o ∖ {[p]}.
Proof.
  intros Hp. unfold scope_of, retire in *. cbn.
  destruct (decide (o = owner)) as [->|Hne].
  - destruct (scopes st !! owner) as [s|] eqn:Hs; cbn; [|rewrite Hs; cbn; set_solver].
    case_bool_decide as He; [by rewrite lookup_delete_eq, He|by rewrite lookup_insert_eq].
  - destruct Hp as [Hp|Hp]; [|done].
    assert (∀ X : gset Z, p ∉ X → X = X ∖ {[p]}) as Hd by set_solver.
    rewrite <- Hd by done.
    destruct (scopes st !! owner) as [s|]; [|done].
    case_bool_decide; [by rewrite lookup_delete_ne|by rewrite lookup_insert_ne].
Qed.

Definition without (w : World) (p : Z) (a : Position) : World :=
  set_arcs (set_state w (retire (state w) (p_owner a) p)) (delete p (arcs w)).

Lemma unreferenced w p a :
  counted (Some p) w → arcs w !! p = Some a → strong a = 1 →
  p ∉ handles w ∧ (∀ f d, fibers w !! f = Some d → f_position d ≠ Some p) ∧
  (∀ q b, arcs w !! q = Some b → p_parent b ≠ Some p).
Proof.
  intros [Hc _] Hp H1. destruct (Hc p a Hp) as [Hs _].
  rewrite bool_decide_eq_true_2 in Hs by done. cbn in Hs. unfold holders in Hs.
  pose proof (count_nonneg (occupies p) (fibers w)). pose proof (count_nonneg (is_parent p) (arcs w)).
  assert (0 ≤ listed p (handles w)) by (unfold listed; lia). split_and!.
  - intros Hin%listed_pos. lia.
  - intros f d Hf Hd. assert (1 ≤ count (occupies p) (fibers w)); [|lia].
    eapply count_ge; [done|]. by apply bool_decide_eq_true.
  - intros q b Hq Hb. assert (1 ≤ count (is_parent p) (arcs w)); [|lia].
    eapply count_ge; [done|]. by apply bool_decide_eq_true.
Qed.

Lemma wf_without w p a :
  wf w → counted (Some p) w → arcs w !! p = Some a → strong a = 1 → wf (without w p a).
Proof.
  intros [] Hc Hp H1. destruct (unreferenced w p a Hc Hp H1) as (Hh & Hf & Hch).
  split; cbn -[u64_max size retire scope_of];
    change (positions (retire ?st ?o ?q)) with (delete q (positions st));
    change (next (retire ?st ?o ?q)) with (next st); try done; try (intros *;
    repeat (intros [? ?]%lookup_delete_Some || intros ?); by eauto).
  - intros q. destruct (decide (q = p)) as [->|].
    + rewrite !lookup_delete_eq. by split; intros [].
    + rewrite !lookup_delete_ne by done. done.
  - intros q b r [Hne Hq]%lookup_delete_Some Hr. destruct (wf_parent0 q b r Hq Hr) as [Hlt Hin].
    split; [done|]. rewrite lookup_delete_ne; [done|]. intros ->. by eapply Hch.
  - intros q Hq. rewrite lookup_delete_ne; [eauto|]. by intros ->.
  - intros f d q Hfd Hd. rewrite lookup_delete_ne; [eauto|]. intros ->. by eapply Hf.
  - intros o q. rewrite scope_of_retire.
    + rewrite elem_of_difference, wf_scope0, elem_of_singleton. split.
      * intros [(b & Hb & <-) Hne]. exists b. by rewrite lookup_delete_ne.
      * intros (b & [Hne Hb]%lookup_delete_Some & <-). eauto.
    + destruct (decide (o = p_owner a)); [by right|left]. rewrite wf_scope0. naive_solver.
  - intros o. unfold retire. cbn. destruct (scopes (state w) !! p_owner a) as [s|] eqn:Hs; [|done].
    case_bool_decide as He.
    + rewrite lookup_delete_Some. naive_solver.
    + rewrite lookup_insert_Some. naive_solver.
  - etrans; [|exact wf_size0]. apply inj_le, map_subseteq_size. apply delete_subseteq.
Qed.

Lemma counted_without w p a :
  wf w → counted (Some p) w → arcs w !! p = Some a → strong a = 1 →
  counted (p_parent a) (without w p a).
Proof.
  intros Hwf [Hc _] Hp H1. split.
  - intros q b Hq. cbn in Hq. apply lookup_delete_Some in Hq as [Hne Hq].
    destruct (Hc q b Hq) as [Hs Hb]. split; [|done]. rewrite Hs.
    rewrite (bool_decide_eq_false_2 (Some p = Some q)) by congruence. unfold holders. cbn.
    rewrite (count_delete _ _ _ a) by done. unfold is_parent at 3. cbn. lia.
  - intros q Hq. destruct (wf_parent w Hwf p a q Hp Hq) as [Hlt Hin]. cbn.
    by rewrite lookup_delete_ne by lia.
Qed.

Lemma shrunk_without w p a : arcs w !! p = Some a → shrunk w (without w p a).
Proof.
  intros Hp. split; try done; cbn.
  - apply delete_subseteq.
  - intros q b. cbn. intros [_ Hq]%lookup_delete_Some. eauto.
Qed.

Lemma release_ok fuel w p :
  wf w → counted (Some p) w → (size (arcs w) < fuel)%nat →
  ∃ w', release fuel w p = Ok w' ∧ wf w' ∧ counted None w' ∧ shrunk w w'.
Proof.
  revert w p. induction fuel as [|fuel IH]; intros w p Hwf Hc Hfuel; [lia|].
  destruct (counted_loose _ _ Hc p eq_refl) as [a Hp]. cbn [release]. rewrite Hp. cbn [expect obind].
  destruct (Z.eqb_spec (strong a) 1) as [H1|H1].
  - fold (without w p a). pose proof (wf_without w p a Hwf Hc Hp H1) as Hwf'.
    pose proof (counted_without w p a Hwf Hc Hp H1) as Hc'.
    pose proof (shrunk_without w p a Hp) as Hsh.
    destruct (p_parent a) as [q|]; [|by exists (without w p a)].
    destruct (IH (without w p a) q Hwf' Hc') as (w' & Hr & ? & ? & Hsh').
    { cbn. rewrite map_size_delete_Some by eauto.
      assert (size (arcs w) ≠ 0%nat); [|lia].
      intros H0%map_size_empty_iff. by rewrite H0 in Hp. }
    exists w'. split_and!; try done. by eapply shrunk_trans.
  - destruct (counted_strong _ _ Hc p a Hp) as [Hs Hge]. rewrite bool_decide_eq_true_2 in Hs by done.
    cbn in Hs. eexists. split_and!; [done| | |].
    + apply wf_arcs; [done|]. by apply shape_insert.
    + apply (counted_strong_step (Some p)); try done;
        [rewrite (bool_decide_eq_false_2 (None = Some p)) by done; cbn; lia|lia|].
      intros q Hq. by rewrite !bool_decide_eq_false_2 by congruence.
    + split; try done. cbn. intros q b [[<- <-]|[_ Hq]]%lookup_insert_Some; eauto.
Qed.

(** *** Holding references *)
Lemma counted_move x y w w' :
  counted x w → arcs w' = arcs w →
  (∀ q, holders w q + Z.b2z (bool_decide (x = Some q)) =
        holders w' q + Z.b2z (bool_decide (y = Some q))) →
  (∀ q, y = Some q → is_Some (arcs w !! q)) → counted y w'.
Proof.
  intros [Hc Hl] Ha Hh Hy. split; rewrite Ha; [|done].
  intros q a Hq. rewrite <- Hh. by apply Hc.
Qed.

Lemma wf_handles w l :
  wf w → (∀ p, p ∈ l → is_Some (arcs w !! p)) → wf (set_handles w l).
Proof. intros [] Hl. by split. Qed.

Lemma b2z_same (p q : Z) : Z.b2z (bool_decide (Some p = Some q)) = Z.b2z (bool_decide (p = q)).
Proof. f_equal. apply bool_decide_ext. naive_solver. Qed.

(** One more reference to [p]. *)
Lemma counted_retain w p :
  counted None w → is_Some (arcs w !! p) → counted (Some p) (set_arcs w (retain (Some p) (arcs w))).
Proof.
  intros Hc [a Hp]. rewrite (retain_insert _ _ a) by done.
  destruct (counted_strong _ _ Hc p a Hp) as [Hs Hge].
  rewrite (bool_decide_eq_false_2 (None = Some p)) in Hs by done. cbn in Hs.
  apply (counted_strong_step None); try done.
  - rewrite (bool_decide_eq_true_2 (Some p = Some p)) by done. cbn. lia.
  - lia.
  - intros q Hq. by rewrite !bool_decide_eq_false_2 by congruence.
  - intros q [= <-]. eauto.
Qed.

Lemma clone_ok w p :
  wf w → counted None w → is_Some (arcs w !! p) → wf (clone w p) ∧ counted None (clone w p).
Proof.
  intros Hwf Hc Hp. split.
  - unfold clone. pose proof (shape_retain (arcs w) (Some p)) as Hs.
    assert (wf (set_arcs w (retain (Some p) (arcs w)))) as Hwf' by by apply wf_arcs.
    apply (wf_handles _ (handles w ++ [p])) in Hwf'; [done|].
    intros q [Hq| ->%list_elem_of_singleton]%elem_of_app; cbn; rewrite (shape_dom _ _ _ Hs); [|done].
    by apply (wf_held w Hwf).
  - apply (counted_move (Some p) _ (set_arcs w (retain (Some p) (arcs w)))); [by apply counted_retain|done| |done].
    intros q. rewrite b2z_same, (bool_decide_eq_false_2 (None = Some q)) by done.
    unfold holders. cbn -[retain]. rewrite listed_app, listed_cons. change (listed q []) with 0. lia.
Qed.

Lemma drop_ok w i p :
  wf w → counted None w → handles w !! i = Some p →
  ∃ w', drop_reference (set_handles w (delete i (handles w))) p = Ok w' ∧
    wf w' ∧ counted None w' ∧ shrunk (set_handles w (delete i (handles w))) w'.
Proof.
  intros Hwf Hc Hi. apply release_ok; [| |cbn; lia].
  - apply wf_handles; [done|]. intros q (j & Hj)%list_elem_of_lookup.
    apply (wf_held w Hwf). rewrite list_lookup_delete in Hj.
    apply list_elem_of_lookup. case_decide; eauto.
  - apply (counted_move None _ w); [done|done| |].
    + intros q. rewrite b2z_same, (bool_decide_eq_false_2 (None = Some q)) by done.
      unfold holders. cbn. rewrite (listed_delete q _ i p) by done. lia.
    + intros q [= <-]. apply (wf_held w Hwf). by eapply list_elem_of_lookup_2.
Qed.

(** The last reference, which was added. *)
Lemma drop_last_ok w l p :
  wf w → counted None w → handles w = l ++ [p] →
  ∃ w', drop_reference (set_handles w l) p = Ok w' ∧
    wf w' ∧ counted None w' ∧ shrunk (set_handles w l) w'.
Proof.
  intros Hwf Hc Hl. replace l with (delete (length l) (handles w)).
  - apply drop_ok; [done|done|]. rewrite Hl. by rewrite lookup_app_r, Nat.sub_diag.
  - rewrite Hl, delete_take_drop, take_app_length, drop_app_ge by lia.
    replace (S (length l) - length l)%nat with 1%nat by lia. by rewrite app_nil_r.
Qed.

(** *** New positions *)
Lemma allocate_result most st owner parent st' id :
  allocate most st owner parent = Ok (st', id) →
  id = next st + 1 ∧ id ≤ u64_max ∧ Z.of_nat (size (positions st)) < most ∧ next st' = id ∧
  positions st' = <[id := {| e_parent := parent; rank := id; occupant := None |}]> (positions st) ∧
  scopes st' = <[owner := {[id]} ∪ scope_of st owner]> (scopes st).
Proof.
  unfold allocate. destruct (Z.leb_spec most (Z.of_nat (size (positions st)))); [done|].
  unfold checked_add. destruct (Z.leb_spec (next st + 1) u64_max); [|done]. by intros [= <- <-].
Qed.

Lemma with_live_position_result w owner parent :
  wf w → with_live_position w owner = Ok parent →
  match owner with
  | None => parent = None
  | Some o => ∃ d q, fibers w !! fiber o = Some d ∧ f_position d = Some q ∧ parent = Some q ∧
                     is_Some (arcs w !! q)
  end.
Proof.
  intros Hwf. destruct owner as [o|]; cbn; [|by intros [= <-]].
  destruct (fibers w !! fiber o) as [d|] eqn:Hd; [|done]. destruct (_ || _); [done|].
  destruct (f_position d) as [q|] eqn:Hq; [|done]. intros [= <-]. exists d, q.
  split_and!; try done. by eapply (wf_occupied w Hwf).
Qed.

Lemma with_live_position_defined w owner : wf w → with_live_position w owner ≠ Panic.
Proof.
  intros Hwf. destruct owner as [o|]; cbn; [|done].
  destruct (fibers w !! fiber o) as [d|] eqn:Hd; [|done].
  destruct (f_generation d =? generation o); [|done]. destruct (f_live d) eqn:Hlive; [|done].
  by destruct (wf_live w Hwf _ d Hd Hlive) as [q ->].
Qed.

(** A world with one more position, which [handles] hold. *)
Definition extended (w : World) (st : OrderState) (id : Z) (a : Position) : World :=
  set_handles (set_arcs (set_state w st) (<[id := a]> (arcs w))) (handles w ++ [id]).

Lemma wf_extended w owner parent st id :
  wf w → allocate (maximum w) (state w) owner parent = Ok (st, id) →
  (∀ q, parent = Some q → is_Some (arcs w !! q)) →
  match owner with
  | None => parent = None
  | Some o => ∃ d q, fibers w !! fiber o = Some d ∧ f_position d = Some q ∧ parent = Some q
  end →
  wf (extended w st id {| p_parent := parent; p_owner := owner; strong := 1 |}).
Proof.
  intros Hwf Hal Hpar Hown. pose proof Hwf as [].
  apply allocate_result in Hal as (Hid & Hmax & Hsize & Hnext & Hpos & Hsc).
  assert (arcs w !! id = None) as Hnew.
  { destruct (arcs w !! id) as [a|] eqn:Ha; [|done]. apply wf_ids0 in Ha. lia. }
  assert (positions (state w) !! id = None) as Hnewp.
  { apply eq_None_not_Some. rewrite wf_dom0, Hnew. by intros []. }
  assert (∀ p a, arcs w !! p = Some a → p ≠ id) as Hne by congruence.
  assert (∀ p a, arcs w !! p = Some a → p_owner a = owner → p_parent a = parent) as Hsame.
  { intros p a Ha <-. destruct (p_owner a) as [o|] eqn:Ho.
    - destruct Hown as (d & q & Hd & Hq & ->).
      destruct (wf_family0 p a o Ha Ho) as (d' & Hd' & [Hn|Hp]); congruence.
    - subst parent. eauto. }
  split; cbn -[u64_max size]; rewrite ?Hpos, ?Hnext.
  - intros p. rewrite !lookup_insert_is_Some, wf_dom0. done.
  - intros p a e [[<- <-]|[Hp Ha]]%lookup_insert_Some [[? <-]|[? He]]%lookup_insert_Some; eauto; done.
  - intros p a [[<- <-]|[Hp Ha]]%lookup_insert_Some; [lia|]. apply wf_ids0 in Ha. lia.
  - lia.
  - intros p a q [[<- <-]|[Hp Ha]]%lookup_insert_Some Hq; cbn in Hq; rewrite lookup_insert_is_Some'.
    + destruct (Hpar q Hq) as [b Hb]. apply wf_ids0 in Hb as ?. split; [lia|eauto].
    + destruct (wf_parent0 p a q Ha Hq). eauto.
  - intros p [Hp| ->%list_elem_of_singleton]%elem_of_app; rewrite lookup_insert_is_Some'; eauto.
  - intros f d p Hf Hd. rewrite lookup_insert_is_Some'. eauto.
  - intros p e f [[<- <-]|[Hp He]]%lookup_insert_Some; [|eauto]. split; [done|].
    intros (d & Hd & Hp). destruct (wf_occupied0 f d id Hd Hp). congruence.
  - done.
  - intros o p. assert (scope_of st o = if decide (o = owner) then {[id]} ∪ scope_of (state w) o
                                       else scope_of (state w) o) as ->.
    { unfold scope_of. rewrite Hsc. case_decide; [subst; by rewrite lookup_insert_eq|].
      by rewrite lookup_insert_ne. }
    transitivity ((p = id ∧ o = owner) ∨ p ∈ scope_of (state w) o); [case_decide; set_solver|].
    rewrite wf_scope0. setoid_rewrite lookup_insert_Some. split.
    + intros [[-> ->]|(a & Ha & <-)]; [by eexists; split; [by left|]|].
      exists a. split; [right; split; [|done]; intros <-; by rewrite Hnew in Ha|done].
    + intros (a & [[<- <-]|[? ?]] & <-); [by left|]. eauto.
  - intros o. rewrite Hsc, lookup_insert_Some. intros [[_ He]|[_ He]]; [set_solver|]. by eapply wf_scopes0.
  - intros p e [[<- <-]|[Hp He]]%lookup_insert_Some; cbn; [lia|]. apply wf_rank0 in He. lia.
  - assert (∀ p e, positions (state w) !! p = Some e → rank e ≠ id) as Hr
      by (intros p e He%wf_rank0; lia).
    intros p q a b e f [[<- <-]|[Hp Ha]]%lookup_insert_Some [[<- <-]|[Hq Hb]]%lookup_insert_Some Hab
      [[? <-]|[? He]]%lookup_insert_Some [[? <-]|[? Hf]]%lookup_insert_Some; cbn; intros Hrank;
      try done; try (by exfalso; eapply Hr); eauto.
  - intros p a o [[<- <-]|[Hp Ha]]%lookup_insert_Some; cbn; [|eauto]. intros ->.
    destruct Hown as (d & q & Hd & Hq & ->). exists d. rewrite Hq. eauto.
  - intros p q a b [[<- <-]|[Hp Ha]]%lookup_insert_Some [[<- <-]|[Hq Hb]]%lookup_insert_Some; cbn;
      intros Hab; eauto; [symmetry; eauto].
  - intros p a [[<- <-]|[Hp Ha]]%lookup_insert_Some; cbn; [|eauto]. intros ->. done.
  - rewrite map_size_insert_None by done. lia.
Qed.

Lemma holders_absent w p : wf w → arcs w !! p = None → holders w p = 0.
Proof.
  intros Hwf Hp. assert (¬ is_Some (arcs w !! p)) as Hno by (rewrite Hp; by intros []).
  unfold holders. pose proof (count_nonneg (occupies p) (fibers w)) as H1.
  pose proof (count_nonneg (is_parent p) (arcs w)) as H2.
  assert (¬ 1 ≤ listed p (handles w)) as H3
    by (intros Hl%listed_pos; by apply Hno, (wf_held w Hwf)).
  assert (¬ 1 ≤ count (occupies p) (fibers w)).
  { intros (f & d & Hf & Hd%bool_decide_eq_true)%count_pos. by eapply Hno, (wf_occupied w Hwf). }
  assert (¬ 1 ≤ count (is_parent p) (arcs w)).
  { intros (q & a & Hq & Ha%bool_decide_eq_true)%count_pos. eapply Hno, (wf_parent w Hwf q a p Hq Ha). }
  assert (0 ≤ listed p (handles w)) by (unfold listed; lia). lia.
Qed.

Lemma counted_extended w owner parent st id :
  wf w → counted parent w → arcs w !! id = None →
  counted None (extended w st id {| p_parent := parent; p_owner := owner; strong := 1 |}).
Proof.
  intros Hwf [Hc Hl] Hid. split; [|done].
  assert (∀ q, holders (extended w st id {| p_parent := parent; p_owner := owner; strong := 1 |}) q =
    holders w q + Z.b2z (bool_decide (id = q)) + Z.b2z (bool_decide (parent = Some q))) as Hh.
  { intros q. unfold holders, extended. cbn.
    rewrite listed_app, listed_cons, count_insert_new by done. change (listed q []) with 0.
    unfold is_parent at 2. cbn. lia. }
  intros q b. rewrite Hh, (bool_decide_eq_false_2 (None = Some q)) by done. cbn [Z.b2z extended set_handles set_arcs arcs].
  intros [[<- <-]|[Hne Hq]]%lookup_insert_Some.
  - rewrite holders_absent, bool_decide_eq_true_2 by done. rewrite bool_decide_eq_false_2; [done|].
    intros ->. destruct (Hl id eq_refl). congruence.
  - rewrite (bool_decide_eq_false_2 (id = q)) by done. destruct (Hc q b Hq) as [-> ?]. cbn. lia.
Qed.

(** The world after [child_position], which extends the order by [id]. *)
Lemma child_position_ok w owner :
  wf w → counted None w →
  match child_position w owner with
  | Ok (w', id) =>
      wf w' ∧ counted None w' ∧ id = next (state w) + 1 ∧ arcs w !! id = None ∧
      fibers w' = fibers w ∧ handles w' = handles w ++ [id] ∧
      ∃ parent st, allocate (maximum w) (state w) owner parent = Ok (st, id) ∧ state w' = st ∧
        arcs w' = <[id := {| p_parent := parent; p_owner := owner; strong := 1 |}]>
                    (retain parent (arcs w))
  | Err _ => True
  | Panic => False
  end.
Proof.
  intros Hwf Hc. unfold child_position.
  destruct (with_live_position w owner) as [parent|e|] eqn:Hlive; cbn [obind]; [|done|].
  2:{ by apply (with_live_position_defined w owner Hwf). }
  apply with_live_position_result in Hlive as Hown; [|done].
  destruct (allocate (maximum w) (state w) owner parent) as [[st id]|e|] eqn:Hal; cbn [obind]; [|done|].
  2:{ unfold allocate in Hal. destruct (_ <=? _); [done|]. unfold checked_add in Hal. by destruct (_ <=? _). }
  set (w0 := set_arcs w (retain parent (arcs w))).
  assert (wf w0) as Hwf0 by (apply wf_arcs; [done|apply shape_retain]).
  assert (∀ q, parent = Some q → is_Some (arcs w !! q)) as Hpar.
  { intros q ->. destruct owner as [o|]; [|done]. by destruct Hown as (d & q' & _ & _ & [= <-] & ?). }
  assert (counted parent w0) as Hc0.
  { destruct parent as [q|]; [by apply counted_retain, Hpar|]. by destruct Hc. }
  pose proof (allocate_result _ _ _ _ _ _ Hal) as (Hid & _).
  assert (arcs w !! id = None) as Hnew.
  { destruct (arcs w !! id) as [a|] eqn:Ha; [|done]. apply (wf_ids w Hwf) in Ha. lia. }
  assert (arcs w0 !! id = None) as Hnew0.
  { apply eq_None_not_Some. cbn. rewrite (shape_dom _ _ _ (shape_retain (arcs w) parent)).
    rewrite Hnew. by intros []. }
  split_and!; try done.
  - apply (wf_extended w0); [done|done| |].
    + intros q Hq. cbn. rewrite (shape_dom _ _ _ (shape_retain (arcs w) parent)). auto.
    + destruct owner; [|done]. destruct Hown as (d & q & ? & ? & ? & _). eauto.
  - by apply (counted_extended w0).
  - exists parent, st. done.
Qed.

(** *** Occupancies *)
Lemma claim_ok w owner p f :
  wf w → counted None w → is_Some (arcs w !! p) → fibers w !! f = None →
  match claim w owner (Local p) f with
  | Ok w' => wf w' ∧ counted None w' ∧ handles w' = handles w ∧ shape (arcs w') = shape (arcs w) ∧
             ∃ e, positions (state w) !! p = Some e ∧
               state w' = set_positions (state w)
                            (<[p := with_occupant e (Some f)]> (positions (state w)))
  | Err _ => True
  | Panic => False
  end.
Proof.
  intros Hwf Hc [a Hp] Hf. unfold claim. cbn [validate]. rewrite Hp. cbn [expect obind].
  destruct (bool_decide (p_owner a = owner)); cbn [obind]; [|done].
  destruct (proj2 (wf_dom w Hwf p)) as [e He]; [eauto|]. rewrite He. cbn [expect obind].
  destruct (occupant e) as [g|] eqn:Hocc; [done|].
  pose proof (counted_retain w p Hc (ex_intro _ a Hp)) as Hc1.
  pose proof (wf_arcs w (retain (Some p) (arcs w)) Hwf (shape_retain _ _)) as Hwf1.
  assert (is_Some (retain (Some p) (arcs w) !! p)) as Hret
    by (rewrite (shape_dom _ _ _ (shape_retain (arcs w) (Some p))); eauto).
  assert (∀ d, f_position d = Some p → ∀ g, fibers w !! g ≠ Some d) as Hfree.
  { intros d Hd g Hg. assert (occupant e = Some g) by (apply (wf_occupant w Hwf p e g He); eauto). congruence. }
  split_and!; [| |done|apply shape_retain|by exists e].
  - destruct Hwf1. split; cbn -[u64_max size retain scope_of] in *; try done.
    + intros q. rewrite lookup_insert_is_Some', wf_dom0. split; [|by right]. intros [->|?]; done.
    + intros q b e' Hq [[<- <-]|[? ?]]%lookup_insert_Some; cbn; eauto.
    + intros g d q [[<- <-]|[? ?]]%lookup_insert_Some; cbn; [by intros [= <-]|eauto].
    + intros q e' g [[<- <-]|[Hne Hq]]%lookup_insert_Some; cbn.
      * split; [intros [= <-]; eexists; by rewrite lookup_insert_eq|].
        intros (d & [[-> _]|[_ Hg]]%lookup_insert_Some & Hd); [done|]. by eapply Hfree in Hg.
      * rewrite (wf_occupant0 q e' g Hq). split; intros (d & Hg & Hd); exists d.
        -- rewrite lookup_insert_ne; [done|]. congruence.
        -- apply lookup_insert_Some in Hg as [[_ <-]|[_ Hg]]; [|done]. simpl in Hd. congruence.
    + intros g d [[<- <-]|[? ?]]%lookup_insert_Some; [done|eauto].
    + intros q e' [[<- <-]|[? ?]]%lookup_insert_Some; cbn; eauto.
    + intros q r b c e' g Hq Hr Hbc [[<- <-]|[? He']]%lookup_insert_Some
        [[? <-]|[? Hg]]%lookup_insert_Some; cbn; simplify_eq; eauto.
    + intros q b o Hq Ho. destruct (wf_family0 q b o Hq Ho) as (d & Hd & Hor). exists d.
      rewrite lookup_insert_ne; [done|]. congruence.
    + rewrite map_size_insert_Some by eauto. done.
  - apply (counted_move (Some p) _ (set_arcs w (retain (Some p) (arcs w)))); [done|done| |done].
    intros q. rewrite b2z_same, (bool_decide_eq_false_2 (None = Some q)) by done.
    unfold holders. cbn -[retain]. rewrite count_insert_new by done. unfold occupies at 3. cbn.
    rewrite b2z_same. lia.
Qed.

Lemma release_occupancy_ok w f d id :
  wf w → counted None w → fibers w !! f = Some d → f_position d = Some id →
  ∃ w1 w', release_occupancy w f d id = Ok w' ∧ wf w' ∧ counted None w' ∧ shrunk w1 w' ∧
    handles w1 = handles w ∧ arcs w1 = arcs w ∧ next (state w1) = next (state w) ∧
    (∀ q e', positions (state w1) !! q = Some e' →
       ∃ e, positions (state w) !! q = Some e ∧ rank e' = rank e).
Proof.
  intros Hwf Hc Hf Hd. destruct (proj2 (wf_dom w Hwf id)) as [e He]; [by eapply (wf_occupied w Hwf)|].
  unfold release_occupancy. rewrite He. cbn [expect obind].
  rewrite bool_decide_eq_true_2 by (apply (wf_occupant w Hwf id e f He); eauto).
  set (w1 := set_fibers _ _). exists w1.
  assert (wf w1) as Hwf1.
  { destruct Hwf. split; cbn -[u64_max size scope_of]; try done.
    - intros q. rewrite lookup_insert_is_Some', wf_dom0. split; [|by right]. intros [<-|?]; [|done].
      rewrite <- wf_dom0. eauto.
    - intros q b e' Hq [[<- <-]|[? ?]]%lookup_insert_Some; cbn; eauto.
    - intros g d' q [[<- <-]|[? ?]]%lookup_insert_Some; cbn; [done|eauto].
    - intros q e' g [[<- <-]|[Hne Hq]]%lookup_insert_Some; cbn.
      + split; [done|]. intros (d' & [[_ <-]|[Hg Hd']]%lookup_insert_Some & Hp); [done|].
        assert (occupant e = Some f) by (apply (wf_occupant0 id e f He); eauto).
        assert (occupant e = Some g) by (apply (wf_occupant0 id e g He); eauto). congruence.
      + rewrite (wf_occupant0 q e' g Hq). split; intros (d' & Hg & Hd').
        * exists d'. rewrite lookup_insert_ne; [done|]. congruence.
        * apply lookup_insert_Some in Hg as [[_ <-]|[_ Hg]]; [done|]. eauto.
    - intros g d' [[<- <-]|[? ?]]%lookup_insert_Some; [done|eauto].
    - intros q e' [[<- <-]|[? ?]]%lookup_insert_Some; cbn; eauto.
    - intros q r b c e' g Hq Hr Hbc [[<- <-]|[? He']]%lookup_insert_Some
        [[? <-]|[? Hg]]%lookup_insert_Some; cbn; simplify_eq; eauto.
    - intros q b o Hq Ho. destruct (wf_family0 q b o Hq Ho) as (d' & Hd' & Hor).
      destruct (decide (fiber o = f)) as [Hof|].
      + rewrite Hof, lookup_insert_eq. eexists. split; [done|]. by left.
      + rewrite lookup_insert_ne by done. eauto.
    - rewrite map_size_insert_Some by eauto. done. }
  assert (counted (Some id) w1) as Hc1.
  { apply (counted_move None _ w); [done|done| |].
    - intros q. rewrite b2z_same, (bool_decide_eq_false_2 (None = Some q)) by done.
      unfold holders. cbn. rewrite (count_insert _ _ _ _ d) by done. unfold occupies at 3 4. cbn.
      rewrite Hd, b2z_same. rewrite (bool_decide_eq_false_2 (None = Some q)) by done. cbn. lia.
    - intros q [= <-]. by eapply (wf_occupied w Hwf). }
  destruct (release_ok (S (size (arcs w1))) w1 id Hwf1 Hc1) as (w' & Hr & ? & ? & ?); [lia|].
  exists w'. split_and!; try done. intros q e'. cbn.
  intros [[<- <-]|[? ?]]%lookup_insert_Some; eauto.
Qed.

(** ** Sorting by rank *)
Definition before (m : gmap Z Entry) (p q : Z) : Prop :=
  ∃ e f, m !! p = Some e ∧ m !! q = Some f ∧ rank e < rank f.

#[export] Instance pair_le_trans : Transitive pair_le.
Proof. intros [] [] []. unfold pair_le. cbn. lia. Qed.
#[export] Instance pair_le_total : Total pair_le.
Proof. intros [] []. unfold pair_le. cbn. lia. Qed.

Lemma by_rank_spec m ids :
  (∀ p, p ∈ ids → is_Some (m !! p)) → NoDup ids →
  (∀ p q e f, p ∈ ids → q ∈ ids → m !! p = Some e → m !! q = Some f → rank e = rank f → p = q) →
  ∃ l, by_rank m ids = Some l ∧ l ≡ₚ ids ∧ StronglySorted (before m) l.
Proof.
  intros Hin Hnd Hinj. unfold by_rank.
  destruct (mapM _ ids) as [pairs|] eqn:Hm; cbn.
  2:{ exfalso. apply mapM_None in Hm. apply Exists_exists in Hm as (p & Hp & Hn).
      destruct (Hin p Hp) as [e He]. by rewrite He in Hn. }
  apply mapM_Some in Hm.
  assert (pairs.*2 = ids) as Hids.
  { clear -Hm. induction Hm as [|p [r q] ids pairs Hp _ IH]; [done|]. cbn.
    destruct (m !! p); [|done]. injection Hp as _ <-. by rewrite IH. }
  assert (∀ r p, (r, p) ∈ pairs → p ∈ ids ∧ ∃ e, m !! p = Some e ∧ rank e = r) as Hpairs.
  { intros r p Hrp. split; [rewrite <- Hids; by apply (list_elem_of_fmap_2 snd _ (r, p))|].
    apply list_elem_of_lookup in Hrp as [i Hi]. eapply Forall2_lookup_r in Hm as (q & Hq & He); [|done].
    destruct (m !! q) as [e|] eqn:Hme; [|done]. injection He as <- <-. eauto. }
  eexists. split; [done|].
  assert (merge_sort pair_le pairs ≡ₚ pairs) as Hperm by apply merge_sort_Permutation.
  split; [by rewrite Hperm, Hids|].
  assert (StronglySorted pair_le (merge_sort pair_le pairs)) as Hsort
    by (apply StronglySorted_merge_sort; apply _).
  assert (∀ x, x ∈ merge_sort pair_le pairs → x ∈ pairs) as Hsub by (intros x; by rewrite Hperm).
  assert (NoDup (merge_sort pair_le pairs).*2) as Hnd' by (by rewrite Hperm, Hids).
  clear Hperm. revert Hsub Hnd'. induction Hsort as [|[r p] l _ IH Hall]; intros Hsub Hnd'; [constructor|].
  cbn in Hnd'. apply NoDup_cons in Hnd' as [Hp Hnd']. cbn. constructor.
  - apply IH; [intros x Hx; by apply Hsub; right|done].
  - apply Forall_fmap, Forall_forall. intros [r' q] Hq. cbn.
    destruct (Hpairs r p) as (Hpi & e & He & <-); [apply Hsub; by left|].
    destruct (Hpairs r' q) as (Hqi & f & Hf & <-); [apply Hsub; by right|].
    exists e, f. split_and!; [done|done|].
    rewrite Forall_forall in Hall. destruct (Hall _ Hq) as [|[Heq _]]; [done|]. cbn in Heq.
    exfalso. apply Hp. apply (Hinj p q e f Hpi Hqi He Hf) in Heq as ->.
    by apply (list_elem_of_fmap_2 snd _ (rank f, q)).
Qed.

Lemma before_unique m l l' :
  StronglySorted (before m) l → StronglySorted (before m) l' → l ≡ₚ l' → l = l'.
Proof.
  apply StronglySorted_unique_strong. intros p q _ _ (e & f & He & Hf & Hlt) (f' & e' & ? & ? & ?).
  simplify_eq. lia.
Qed.

Lemma children_spec w o :
  wf w → children w o ≡ₚ elements (scope_of (state w) o) ∧
         StronglySorted (before (positions (state w))) (children w o).
Proof.
  intros Hwf. unfold children.
  destruct (by_rank_spec (positions (state w)) (elements (scope_of (state w) o)))
    as (l & -> & ? & ?); [| | |done].
  - intros p (a & Ha & _)%elem_of_elements%(wf_scope w Hwf). apply (wf_dom w Hwf). eauto.
  - apply NoDup_elements.
  - intros p q e f (a & Ha & Hao)%elem_of_elements%(wf_scope w Hwf)
      (b & Hb & Hbo)%elem_of_elements%(wf_scope w Hwf) He Hf. eapply (wf_ranks w Hwf); [done..|congruence|done|done].
Qed.

Lemma elem_of_children w o p : wf w → p ∈ children w o ↔ ∃ a, arcs w !! p = Some a ∧ p_owner a = o.
Proof.
  intros Hwf. destruct (children_spec w o Hwf) as [Hp _].
  rewrite <- (wf_scope w Hwf), <- elem_of_elements. by rewrite Hp.
Qed.

Lemma children_unique w o l :
  wf w → NoDup l → (∀ p, p ∈ l ↔ ∃ a, arcs w !! p = Some a ∧ p_owner a = o) →
  StronglySorted (before (positions (state w))) l → children w o = l.
Proof.
  intros Hwf Hnd Hin Hs. destruct (children_spec w o Hwf) as [Hp Hs'].
  eapply before_unique; [done..|]. rewrite Hp. apply NoDup_Permutation; [apply NoDup_elements|done|].
  intros p. by rewrite elem_of_elements, (wf_scope w Hwf), Hin.
Qed.

Lemma children_NoDup w o : wf w → NoDup (children w o).
Proof.
  intros Hwf. destruct (children_spec w o Hwf) as [Hp _]. rewrite Hp. apply NoDup_elements.
Qed.

Definition alive (w : World) (p : Z) : Prop := is_Some (positions (state w) !! p).
#[export] Instance alive_dec w p : Decision (alive w p).
Proof. unfold alive. apply _. Defined.

Lemma StronglySorted_mono {A} (R S : A → A → Prop) l :
  (∀ x y, x ∈ l → y ∈ l → R x y → S x y) → StronglySorted R l → StronglySorted S l.
Proof.
  intros HRS Hs. induction Hs as [|x l Hs IH Hall]; constructor.
  - apply IH. intros y z Hy Hz. apply HRS; by right.
  - rewrite Forall_forall in *. intros y Hy. apply HRS; [by left|by right|auto].
Qed.

Lemma StronglySorted_filter {A} (R : A → A → Prop) (P : A → Prop) `{∀ x, Decision (P x)} l :
  StronglySorted R l → StronglySorted R (filter P l).
Proof.
  intros Hs. induction Hs as [|x l Hs IH Hall]; [constructor|]. rewrite filter_cons.
  destruct (decide (P x)); [|done]. constructor; [done|].
  rewrite Forall_forall in *. intros y [_ Hy]%list_elem_of_filter. auto.
Qed.

Lemma StronglySorted_lookup_lt {A} (R : A → A → Prop) l :
  (∀ i j x y, l !! i = Some x → l !! j = Some y → (i < j)%nat → R x y) → StronglySorted R l.
Proof.
  induction l as [|x l IH]; intros Hl; constructor.
  - apply IH. intros i j y z Hi Hj Hij. apply (Hl (S i) (S j)); [done..|lia].
  - apply Forall_forall. intros y (j & Hj)%list_elem_of_lookup. apply (Hl 0%nat (S j)); [done..|lia].
Qed.

Lemma StronglySorted_lookup {A} (R : A → A → Prop) l i j x y :
  StronglySorted R l → l !! i = Some x → l !! j = Some y → (i < j)%nat → R x y.
Proof.
  intros Hs. revert i j. induction Hs as [|z l Hs IH Hall]; intros [|i] [|j] Hi Hj Hij; try done; try lia.
  - injection Hi as ->. rewrite Forall_forall in Hall. apply Hall. by eapply list_elem_of_lookup_2.
  - apply (IH i j); [done..|lia].
Qed.

(** Positions may disappear; the others keep their order. *)
Lemma children_frame w w' o :
  wf w → wf w' →
  (∀ p a, arcs w' !! p = Some a → ∃ b, arcs w !! p = Some b ∧ p_owner a = p_owner b) →
  (∀ p e, positions (state w') !! p = Some e → ∃ f, positions (state w) !! p = Some f ∧ rank e = rank f) →
  children w' o = filter (alive w') (children w o).
Proof.
  intros Hwf Hwf' Harcs Hpos. destruct (children_spec w o Hwf) as [_ Hs]. apply children_unique; [done| | |].
  - apply NoDup_filter, children_NoDup, Hwf.
  - intros p. rewrite list_elem_of_filter, elem_of_children by done. unfold alive. rewrite (wf_dom w' Hwf'). split.
    + intros [[a Ha] (b & Hb & <-)]. exists a. split; [done|].
      destruct (Harcs p a Ha) as (b' & Hb' & ->). congruence.
    + intros (a & Ha & <-). destruct (Harcs p a Ha) as (b & Hb & ->). eauto.
  - eapply StronglySorted_mono; [|by apply StronglySorted_filter].
    intros p q [[e He] _]%list_elem_of_filter [[f Hf] _]%list_elem_of_filter (e' & f' & He' & Hf' & Hlt).
    destruct (Hpos p e He) as (e2 & ? & Hr), (Hpos q f Hf) as (f2 & ? & Hr'). exists e, f. simplify_eq.
    split_and!; [done|done|lia].
Qed.

(** ** Reordering *)
Lemma assign_spec r ids m changed :
  NoDup ids → (∀ p, p ∈ ids → is_Some (m !! p)) →
  ∃ m' changed', assign r ids m changed = Some (m', changed') ∧
    (∀ q, q ∉ ids → m' !! q = m !! q) ∧
    (∀ i q, ids !! i = Some q → ∃ e, m !! q = Some e ∧ m' !! q = Some (with_rank e (r + Z.of_nat i))).
Proof.
  revert r m changed. induction ids as [|p ids IH]; intros r m changed Hnd Hin; cbn.
  { by eexists _, _. }
  apply NoDup_cons in Hnd as [Hp Hnd]. destruct (Hin p) as [e He]; [by left|]. rewrite He.
  destruct (IH (r + 1) (<[p:=with_rank e r]> m) (changed || negb (rank e =? r)) Hnd)
    as (m' & c' & Ha & Hout & Hids).
  { intros q Hq. apply lookup_insert_is_Some'. right. apply Hin. by right. }
  exists m', c'. split; [done|]. split.
  - intros q [Hqp Hq]%not_elem_of_cons. rewrite Hout, lookup_insert_ne by done. done.
  - intros [|i] q Hi; cbn in Hi.
    + injection Hi as <-. exists e. split; [done|]. rewrite Hout, lookup_insert_eq by done.
      by rewrite Z.add_0_r.
    + destruct (Hids i q Hi) as (f & Hf & Hm'). rewrite lookup_insert_ne in Hf.
      * exists f. split; [done|]. rewrite Hm'. f_equal. f_equal. lia.
      * intros <-. apply Hp. by eapply list_elem_of_lookup_2.
Qed.

Lemma select_positions_spec w owner selected l :
  (∀ p, Local p ∈ l → is_Some (arcs w !! p)) →
  match select_positions w owner selected l with
  | Ok ids => l = Local <$> ids ∧ NoDup ids ∧
      ∀ p, p ∈ ids → p ∉ selected ∧ ∃ a, arcs w !! p = Some a ∧ p_owner a = owner
  | Err _ => True
  | Panic => False
  end.
Proof.
  revert selected. induction l as [|[p|] l IH]; intros selected Hl; cbn; [|..|done].
  { split_and!; [done|constructor|by intros p ?%elem_of_nil]. }
  destruct (Hl p) as [a Ha]; [by left|]. rewrite Ha. cbn. case_bool_decide as Ho; cbn; [|done].
  case_bool_decide as Hsel; cbn; [done|].
  assert (∀ q, Local q ∈ l → is_Some (arcs w !! q)) as Hl' by (intros q Hq; apply Hl; by right).
  specialize (IH ({[p]} ∪ selected) Hl'). destruct (select_positions w owner _ l) as [ids|e|]; cbn; [|done|done].
  destruct IH as (-> & Hnd & Hids). split_and!; [done| |].
  - constructor; [|done]. intros Hp%Hids. set_solver.
  - intros q [->|Hq]%elem_of_cons; [eauto|]. destruct (Hids q Hq). split; [set_solver|done].
Qed.

Lemma NoDup_bounded l n : NoDup l → (∀ p, p ∈ l → 1 ≤ p ≤ n) → len l ≤ Z.max 0 n.
Proof.
  intros Hnd Hl. assert (l ⊆+ seqZ 1 n) as Hsub.
  { apply NoDup_submseteq; [done|]. intros p Hp. apply elem_of_seqZ. apply Hl in Hp. lia. }
  apply submseteq_length in Hsub. rewrite length_seqZ in Hsub. unfold len. lia.
Qed.

(** The positions [l] of [owner] get the ranks 0, 1, 2 and so on. *)
Record ranked (w : World) (owner : option Owner) (l : list Z) (m : gmap Z Entry) : Prop := {
  ranked_nodup : NoDup l;
  ranked_in p : p ∈ l ↔ ∃ a, arcs w !! p = Some a ∧ p_owner a = owner;
  ranked_out p : p ∉ l → m !! p = positions (state w) !! p;
  ranked_at i p : l !! i = Some p →
    ∃ e, positions (state w) !! p = Some e ∧ m !! p = Some (with_rank e (Z.of_nat i))
}.

Lemma ranked_entry w owner l m p e' :
  ranked w owner l m → m !! p = Some e' →
  ∃ e, positions (state w) !! p = Some e ∧ e_parent e' = e_parent e ∧ occupant e' = occupant e.
Proof.
  intros [_ _ Hout Hat] Hp. destruct (decide (p ∈ l)) as [[i Hi]%list_elem_of_lookup|Hn].
  - destruct (Hat i p Hi) as (e & He & Hm). exists e. simplify_eq. done.
  - rewrite Hout in Hp by done. eauto.
Qed.

Lemma ranked_dom w owner l m p :
  ranked w owner l m → is_Some (m !! p) ↔ is_Some (positions (state w) !! p).
Proof.
  intros [_ _ Hout Hat]. destruct (decide (p ∈ l)) as [[i Hi]%list_elem_of_lookup|Hn].
  - destruct (Hat i p Hi) as (e & -> & ->). by split.
  - by rewrite Hout.
Qed.

Lemma wf_ranked w owner l m rev :
  wf w → ranked w owner l m →
  wf (set_state w {| next := next (state w); revision := rev; positions := m; scopes := scopes (state w) |}).
Proof.
  intros Hwf Hr. pose proof (λ p, ranked_dom w owner l m p Hr) as Hdom.
  pose proof (λ p e, ranked_entry w owner l m p e Hr) as Hent.
  destruct Hr as [Hnd Hin Hout Hat]. pose proof Hwf as [].
  assert (∀ p, p ∈ l → 1 ≤ p ≤ next (state w)) as Hb by (intros p (a & Ha & _)%Hin; eauto).
  pose proof (NoDup_bounded l _ Hnd Hb) as Hlen. unfold len in Hlen.
  split; cbn -[u64_max size]; try done.
  - intros p. by rewrite Hdom.
  - intros p a e Ha (e' & He' & -> & _)%Hent. eauto.
  - intros p e f (e' & He' & _ & ->)%Hent. eauto.
  - intros p e He. destruct (decide (p ∈ l)) as [[i Hi]%list_elem_of_lookup|Hn].
    + destruct (Hat i p Hi) as (e' & _ & Hm). rewrite He in Hm. injection Hm as ->. cbn.
      apply lookup_lt_Some in Hi. lia.
    + rewrite Hout in He by done. eauto.
  - intros p q a b e f Ha Hbq Hab He Hf Hrank.
    destruct (decide (p_owner a = owner)) as [Ho|Ho].
    + assert (p ∈ l) as [i Hi]%list_elem_of_lookup by (apply Hin; eauto).
      assert (q ∈ l) as [j Hj]%list_elem_of_lookup by (apply Hin; exists b; split; [done|congruence]).
      destruct (Hat i p Hi) as (e' & _ & He'), (Hat j q Hj) as (f' & _ & Hf').
      simplify_eq. cbn in Hrank. assert (i = j) as -> by lia. congruence.
    + rewrite Hout in He by (intros (? & ? & ?)%Hin; congruence).
      rewrite Hout in Hf by (intros (? & ? & ?)%Hin; congruence). eauto.
  - replace (size m) with (size (positions (state w))); [done|].
    rewrite <- !(size_dom (D:=gset Z)). f_equal. apply set_eq. intros p. by rewrite !elem_of_dom, Hdom.
Qed.

Lemma children_ranked w owner l m rev o :
  wf w → ranked w owner l m →
  children (set_state w {| next := next (state w); revision := rev; positions := m;
                           scopes := scopes (state w) |}) o =
  if decide (o = owner) then l else children w o.
Proof.
  intros Hwf Hr. pose proof (wf_ranked w owner l m rev Hwf Hr) as Hwf'.
  destruct Hr as [Hnd Hin Hout Hat]. case_decide as Ho.
  - subst o. apply children_unique; [done|done|done|]. cbn.
    apply StronglySorted_lookup_lt. intros i j p q Hi Hj Hij.
    destruct (Hat i p Hi) as (e & _ & ?), (Hat j q Hj) as (f & _ & ?).
    eexists _, _. split_and!; [done..|]. cbn. lia.
  - destruct (children_spec w o Hwf) as [_ Hs].
    apply children_unique; [done|by apply children_NoDup|intros p; exact (elem_of_children w o p Hwf)|].
    eapply StronglySorted_mono; [|done]. cbn. intros p q Hp Hq.
    apply elem_of_children in Hp as (a & Ha & Hao); [|done].
    apply elem_of_children in Hq as (b & Hb & Hbo); [|done].
    unfold before. rewrite !Hout; [done|..]; intros (c & Hc & Hco)%Hin; congruence.
Qed.

Lemma reorder_ok w owner l :
  wf w → (∀ p, Local p ∈ l → is_Some (arcs w !! p)) →
  match reorder w owner l with
  | Ok w' => arcs w' = arcs w ∧ fibers w' = fibers w ∧ handles w' = handles w ∧ wf w' ∧
      ∃ ids, l = Local <$> ids ∧ ∀ o,
        children w' o = if decide (o = owner) then ids ++ filter (λ p, p ∉ ids) (children w owner)
                        else children w o
  | Err _ => True
  | Panic => False
  end.
Proof.
  intros Hwf Hl. unfold reorder. pose proof (select_positions_spec w owner ∅ l Hl) as Hsel.
  destruct (select_positions w owner ∅ l) as [ids|e|]; cbn [obind]; [|done|done].
  destruct Hsel as (-> & Hnd & Hids).
  assert (∀ p, p ∈ ids → p ∈ scope_of (state w) owner) as Hidsin
    by (intros p [_ Hp]%Hids; by apply (wf_scope w Hwf)).
  destruct (scopes (state w) !! owner) as [scope|] eqn:Hscope.
  2:{ split_and!; try done. exists ids. split; [done|]. intros o. case_decide as Ho; [subst o|done].
      assert (children w owner = []) as Hch.
      { destruct (children_spec w owner Hwf) as [Hp _]. unfold scope_of in Hp. rewrite Hscope in Hp.
        cbn in Hp. rewrite elements_empty in Hp. by apply Permutation_nil_r in Hp. }
      rewrite Hch. destruct ids as [|p ids]; [done|]. exfalso.
      assert (p ∈ scope_of (state w) owner) as Hp by (apply Hidsin; by left).
      unfold scope_of in Hp. rewrite Hscope in Hp. set_solver. }
  assert (scope_of (state w) owner = scope) as Hsc by (unfold scope_of; by rewrite Hscope).
  rewrite <- Hsc.
  destruct (by_rank_spec (positions (state w)) (elements (scope_of (state w) owner ∖ list_to_set ids)))
    as (tail & -> & Hperm & Hsorted).
  { intros p [(a & Ha & _)%(wf_scope w Hwf) _]%elem_of_elements%elem_of_difference.
    apply (wf_dom w Hwf). eauto. }
  { apply NoDup_elements. }
  { intros p q e f [(a & Ha & Hao)%(wf_scope w Hwf) _]%elem_of_elements%elem_of_difference
      [(b & Hb & Hbo)%(wf_scope w Hwf) _]%elem_of_elements%elem_of_difference He Hf.
    eapply (wf_ranks w Hwf); [done..|congruence|done|done]. }
  cbn [expect obind].
  assert (∀ p, p ∈ tail ↔ p ∈ scope_of (state w) owner ∧ p ∉ ids) as Htail.
  { intros p. rewrite Hperm, elem_of_elements, elem_of_difference, elem_of_list_to_set. done. }
  assert (tail = filter (λ p, p ∉ ids) (children w owner)) as Heq.
  { destruct (children_spec w owner Hwf) as [Hp Hs].
    eapply before_unique; [done|by apply StronglySorted_filter|].
    apply NoDup_Permutation; [rewrite Hperm; apply NoDup_elements|by apply NoDup_filter, children_NoDup|].
    intros p. rewrite Htail, list_elem_of_filter, elem_of_children, (wf_scope w Hwf) by done. tauto. }
  assert (NoDup (ids ++ tail)) as Hnd'.
  { apply NoDup_app. split_and!; [done| |rewrite Hperm; apply NoDup_elements].
    intros p Hp [_ Hn]%Htail. done. }
  assert (∀ p, p ∈ ids ++ tail ↔ ∃ a, arcs w !! p = Some a ∧ p_owner a = owner) as Hall.
  { intros p. rewrite elem_of_app, Htail, <- (wf_scope w Hwf). destruct (decide (p ∈ ids)); naive_solver. }
  destruct (assign_spec 0 (ids ++ tail) (positions (state w)) false Hnd') as (m & c & -> & Hout & Hat).
  { intros p (a & Ha & _)%Hall. apply (wf_dom w Hwf). eauto. }
  cbn [expect obind]. assert (ranked w owner (ids ++ tail) m) as Hranked by by split.
  split_and!; [done..|by eapply wf_ranked|]. exists ids. split; [done|]. intros o.
  rewrite (children_ranked w owner (ids ++ tail)) by done. by rewrite Heq.
Qed.

(** ** Steps *)

(** Positions may disappear, the others keep their owners and ranks. *)
Definition quiet (w w' : World) : Prop :=
  (∀ p a, arcs w' !! p = Some a → ∃ b, arcs w !! p = Some b ∧ p_owner a = p_owner b) ∧
  (∀ p e, positions (state w') !! p = Some e → ∃ f, positions (state w) !! p = Some f ∧ rank e = rank f).

Lemma quiet_trans w1 w2 w3 : quiet w1 w2 → quiet w2 w3 → quiet w1 w3.
Proof.
  intros [Ha He] [Ha' He']. split.
  - intros p a (b & (c & ? & ?)%Ha & ?)%Ha'. exists c. split; congruence.
  - intros p e (f & (g & ? & ?)%He & ?)%He'. exists g. split; congruence.
Qed.

Lemma quiet_shape w w' : shape (arcs w') = shape (arcs w) → state w' = state w → quiet w w'.
Proof.
  intros Hs Hst. split.
  - intros p a (b & ? & _ & ?)%(shape_lookup _ _ _ _ Hs). eauto.
  - rewrite Hst. eauto.
Qed.

Lemma quiet_shrunk w w' : shrunk w w' → quiet w w'.
Proof.
  intros []. split.
  - intros p a (b & ? & _ & ?)%shrunk_arcs0. eauto.
  - intros p e He. exists e. split; [|done]. by eapply lookup_weaken.
Qed.

Lemma quiet_claim w w' p e f :
  shape (arcs w') = shape (arcs w) → positions (state w) !! p = Some e →
  state w' = set_positions (state w) (<[p := with_occupant e (Some f)]> (positions (state w))) →
  quiet w w'.
Proof.
  intros Hs He Hst. split.
  - intros q a (b & ? & _ & ?)%(shape_lookup _ _ _ _ Hs). eauto.
  - rewrite Hst. cbn. intros q e' [[<- <-]|[_ Hq]]%lookup_insert_Some; eauto.
Qed.

Lemma children_quiet w w' o :
  wf w → wf w' → quiet w w' → children w' o = filter (alive w') (children w o).
Proof. intros Hwf Hwf' [Ha He]. by apply children_frame. Qed.

Lemma children_alive w o : wf w → filter (alive w) (children w o) = children w o.
Proof.
  intros Hwf. apply filter_all, Forall_forall. intros p (a & Ha & _)%elem_of_children; [|done].
  apply (wf_dom w Hwf). eauto.
Qed.

Lemma filter_filter_alive w w' (l : list Z) :
  wf w → wf w' → quiet w w' → filter (alive w') (filter (alive w) l) = filter (alive w') l.
Proof.
  intros Hwf Hwf' [_ He]. rewrite list_filter_filter. apply list_filter_iff. intros p. split; [tauto|].
  intros [e Hp]. split; [by eexists|]. destruct (He p e Hp) as (f & Hf & _). by eexists.
Qed.

(** The arrangement of the children an operation asks for: a new position comes last, the
    listed ones come first and the others keep their order. *)
Definition arranged (w : World) (o : op) (e : option MetaError) (owner : option Owner) : list Z :=
  match o, e with
  | OChild own, _ | OApply own None _, _ =>
      if decide (owner = own) then children w owner ++ [next (state w) + 1] else children w owner
  | OReorder own l, None =>
      match mapM (λ i, match i with Some i => handles w !! i | None => None end) l with
      | Some ids => if decide (owner = own) then ids ++ filter (λ p, p ∉ ids) (children w owner)
                    else children w owner
      | None => children w owner
      end
  | _, _ => children w owner
  end.

Lemma children_extended w w' owner parent st id o :
  wf w → wf w' → allocate (maximum w) (state w) owner parent = Ok (st, id) → state w' = st →
  arcs w' = <[id := {| p_parent := parent; p_owner := owner; strong := 1 |}]> (retain parent (arcs w)) →
  arcs w !! id = None →
  children w' o = if decide (o = owner) then children w o ++ [id] else children w o.
Proof.
  intros Hwf Hwf' (Hid & _ & _ & _ & Hpos & _)%allocate_result Hst Harcs Hnew.
  assert (∀ p o', (∃ a, arcs w' !! p = Some a ∧ p_owner a = o') ↔
    (p = id ∧ owner = o') ∨ ∃ a, arcs w !! p = Some a ∧ p_owner a = o') as Hin.
  { intros p o'. rewrite Harcs. pose proof (shape_retain (arcs w) parent) as Hs. split.
    - intros (a & [[-> <-]|[Hne Ha]]%lookup_insert_Some & <-); [by left|right].
      destruct (shape_lookup _ _ _ _ Hs Ha) as (b & ? & _ & ->). eauto.
    - intros [[-> <-]|(a & Ha & <-)]; [eexists; by rewrite lookup_insert_eq|].
      destruct (shape_lookup _ _ _ _ (eq_sym Hs) Ha) as (b & ? & _ & ->). exists b.
      rewrite lookup_insert_ne by congruence. done. }
  destruct (children_spec w o Hwf) as [_ Hs].
  assert (StronglySorted (before (positions (state w'))) (children w o)) as Hs'.
  { eapply StronglySorted_mono; [|exact Hs]. intros p q Hp Hq (e & f & He & Hf & Hlt).
    apply elem_of_children in Hp as (a & Ha & _); [|done]. apply elem_of_children in Hq as (b & Hb & _); [|done].
    exists e, f. rewrite Hst, Hpos, !lookup_insert_ne by congruence. done. }
  assert (id ∉ children w o) as Hnot by (intros (a & Ha & _)%elem_of_children; [congruence|done]).
  apply children_unique; [done|..].
  - case_decide; [|by apply children_NoDup]. apply NoDup_app. split_and!; [by apply children_NoDup| |apply NoDup_singleton].
    by intros p Hp ->%list_elem_of_singleton.
  - intros p. rewrite Hin. rewrite <- (elem_of_children w o p Hwf).
    case_decide; [rewrite elem_of_app, list_elem_of_singleton|]; naive_solver.
  - case_decide; [|done]. apply StronglySorted_app. split_and!; [|done|constructor; constructor].
    intros p q Hp ->%list_elem_of_singleton. apply elem_of_children in Hp as (a & Ha & _); [|done].
    destruct (proj2 (wf_dom w Hwf p)) as [e He]; [eauto|]. exists e. eexists.
    rewrite Hst, Hpos, lookup_insert_eq, lookup_insert_ne by congruence. split_and!; [done..|].
    apply (wf_rank w Hwf) in He. cbn. lia.
Qed.

(** What a step guarantees of its result. *)
Definition step_good (w : World) (o : op) (r : option (World * option MetaError)) : Prop :=
  ∃ w' e, r = Some (w', e) ∧ wf w' ∧ counted None w' ∧
    ∀ owner, children w' owner = filter (alive w') (arranged w o e owner).

Lemma step_unchanged w o e :
  wf w → counted None w → (∀ owner, children w owner = filter (alive w) (arranged w o e owner)) →
  step_good w o (Some (w, e)).
Proof. intros. by exists w, e. Qed.

(** A position that was never allocated is not alive. *)
Lemma next_dead w : wf w → ¬ alive w (next (state w) + 1).
Proof. intros Hwf [a Ha]%(wf_dom w Hwf). apply (wf_ids w Hwf) in Ha. lia. Qed.

Definition not_reordered (o : op) (e : option MetaError) : Prop :=
  match o, e with OReorder _ _, None => False | _, _ => True end.

Lemma arranged_dead w o e owner :
  wf w → not_reordered o e →
  filter (alive w) (arranged w o e owner) = children w owner.
Proof.
  intros Hwf Ho. pose proof (children_alive w owner Hwf) as Hal. unfold arranged.
  destruct o as [| | | | |? []| |]; try done; try (by destruct e);
    (case_decide; [|done]; rewrite filter_app, Hal, filter_cons_False by (by apply next_dead);
     cbn; by rewrite app_nil_r).
Qed.

Lemma step_quiet w w' o e :
  wf w → wf w' → counted None w' → quiet w w' →
  (∀ owner, arranged w o e owner = children w owner) → step_good w o (Some (w', e)).
Proof.
  intros Hwf Hwf' Hc Hq Ha. exists w', e. split_and!; try done. intros owner. rewrite Ha.
  by apply children_quiet.
Qed.

Lemma step_same w o e :
  wf w → counted None w → not_reordered o e →
  step_good w o (Some (w, e)).
Proof.
  intros Hwf Hc Ho. exists w, e. split_and!; try done. intros owner. by rewrite arranged_dead.
Qed.

Lemma step_child w owner : wf w → counted None w → step_good w (OChild owner) (step w (OChild owner)).
Proof.
  intros Hwf Hc. cbn [step]. pose proof (child_position_ok w owner Hwf Hc) as Hp.
  destruct (child_position w owner) as [[w' id]|e|]; cbn [obind report]; [|by apply step_same|done].
  destruct Hp as (Hwf' & Hc' & Hid & Hnew & _ & _ & parent & st & Hal & Hst & Harcs).
  exists w', None. split_and!; try done. intros o. cbn [arranged].
  rewrite <- (children_alive w' o Hwf'), (children_extended w w' owner parent st id o) by done.
  subst id. done.
Qed.

Lemma alive_handle w i p : wf w → handles w !! i = Some p → is_Some (arcs w !! p).
Proof. intros Hwf Hi. apply (wf_held w Hwf). by eapply list_elem_of_lookup_2. Qed.

Lemma quiet_clone w p : quiet w (clone w p).
Proof. apply quiet_shape; [apply shape_retain|done]. Qed.

Lemma step_handles w o i :
  wf w → counted None w → (o = OClone i ∨ o = ODrop i ∨ ∃ owner, o = OSelect owner i) →
  step_good w o (step w o).
Proof.
  intros Hwf Hc Ho.
  assert (∀ e owner, arranged w o e owner = children w owner) as Ha
    by (intros e owner; destruct Ho as [->|[->|[? ->]]]; done).
  assert (∀ e, not_reordered o e) as Hno
    by (intros e; destruct Ho as [->|[->|[? ->]]]; done).
  destruct (handles w !! i) as [p|] eqn:Hi.
  2:{ replace (step w o) with (Some (w, @None MetaError)); [apply step_same; [done|done|apply (Hno None)]|].
      destruct Ho as [->|[->|[? ->]]]; cbn; by rewrite Hi. }
  pose proof (alive_handle w i p Hwf Hi) as Hp. destruct (clone_ok w p Hwf Hc Hp) as [Hwf' Hc'].
  assert (step_good w o (Some (clone w p, None))) as Hclone
    by (apply step_quiet; [done|done|done|apply quiet_clone|apply Ha]).
  destruct Ho as [->|[->|[owner ->]]]; cbn [step]; rewrite Hi.
  - done.
  - destruct (drop_ok w i p Hwf Hc Hi) as (w' & -> & ? & ? & Hsh). cbn.
    apply step_quiet; [done..| |done].
    eapply quiet_trans; [|by apply quiet_shrunk]. by apply quiet_shape.
  - unfold with_child_position. pose proof (with_live_position_defined w owner Hwf) as Hlive.
    destruct (with_live_position w owner) as [parent|e|]; cbn [obind report]; [|by apply step_same|done].
    cbn [validate]. destruct Hp as [a ->]. cbn [expect obind].
    case_bool_decide; cbn [obind report]; [done|by apply step_same].
Qed.

Lemma step_reorder w owner l :
  wf w → counted None w → step_good w (OReorder owner l) (step w (OReorder owner l)).
Proof.
  intros Hwf Hc. cbn [step]. destruct (mapM (argument w) l) as [ps|] eqn:Hm.
  2:{ apply step_unchanged; [done..|]. intros o. cbn [arranged].
      assert (mapM (λ i, match i with Some i => handles w !! i | None => None end) l = None) as ->;
        [|by rewrite children_alive].
      apply mapM_None. apply mapM_None in Hm. eapply Exists_impl; [exact Hm|].
      intros [i|]; cbn; [|done]. by destruct (handles w !! i). }
  apply mapM_Some in Hm.
  assert (∀ p, Local p ∈ ps → is_Some (arcs w !! p)) as Hps.
  { intros p (j & Hj)%list_elem_of_lookup. eapply Forall2_lookup_r in Hm as (i & _ & Hi); [|done].
    destruct i as [i|]; cbn in Hi; [|done]. destruct (handles w !! i) as [q|] eqn:Hq; [|done].
    injection Hi as ->. by eapply alive_handle. }
  unfold reorder_children. destruct (_ <? _); [by apply step_same|].
  pose proof (with_live_position_defined w owner Hwf) as Hlive.
  destruct (with_live_position w owner) as [parent|e|]; cbn [obind]; [|by apply step_same|done].
  pose proof (reorder_ok w owner ps Hwf Hps) as Hr.
  destruct (reorder w owner ps) as [w'|e|]; cbn [report]; [|by apply step_same|done].
  destruct Hr as (Harcs & Hfib & Hh & Hwf' & ids & -> & Hch). exists w', None. split_and!; try done.
  - apply (counted_move None _ w); try done. intros q. unfold holders. by rewrite Harcs, Hfib, Hh.
  - intros o. rewrite <- (children_alive w' o Hwf'), Hch. cbn [arranged].
    assert (mapM (λ i, match i with Some i => handles w !! i | None => None end) l = Some ids) as Hids;
      [|rewrite Hids; by case_decide as Ho; [subst o|]].
    apply mapM_Some. apply Forall2_fmap_r in Hm. eapply Forall2_impl; [exact Hm|].
    intros [i|] p; cbn; [|done]. destruct (handles w !! i); [by intros [= ->]|done].
Qed.

Lemma step_fiber w f g live : wf w → counted None w → step_good w (OFiber f g live) (step w (OFiber f g live)).
Proof.
  intros Hwf Hc. cbn [step]. destruct (fibers w !! f) as [[g0 l0 [p|]]|] eqn:Hf; try by apply step_same.
  apply step_quiet; [done| | |by apply quiet_shape|done].
  - destruct Hwf. split; cbn -[u64_max size scope_of]; try done.
    + intros f' d q [[<- <-]|[? ?]]%lookup_insert_Some; cbn; eauto.
    + intros q e f' He. rewrite (wf_occupant0 q e f' He). split; intros (d & Hd & Hq).
      * destruct (decide (f' = f)) as [->|]; [|exists d; by rewrite lookup_insert_ne].
        eexists. rewrite lookup_insert_eq. split; [done|]. simplify_eq. done.
      * apply lookup_insert_Some in Hd as [[<- <-]|[? ?]]; [|eauto]. simpl in Hq. eauto.
    + intros f' d [[<- <-]|[? ?]]%lookup_insert_Some; cbn; eauto.
    + intros q a o Hq Ho. destruct (wf_family0 q a o Hq Ho) as (d & Hd & Hor).
      destruct (decide (fiber o = f)) as [Hof|]; [|exists d; by rewrite lookup_insert_ne].
      rewrite Hof in Hd. eexists. rewrite Hof, lookup_insert_eq. split; [done|]. by simplify_eq.
  - apply (counted_move None _ w); try done. intros q. unfold holders. cbn.
    by rewrite (count_insert _ _ _ _ _ Hf); unfold occupies at 3 4; cbn; lia.
Qed.

Lemma step_dispose w f : wf w → counted None w → step_good w (ODispose f) (step w (ODispose f)).
Proof.
  intros Hwf Hc. cbn [step]. destruct (fibers w !! f) as [d|] eqn:Hf; [|by apply step_same].
  destruct (f_position d) as [id|] eqn:Hd; [|by apply step_same].
  destruct (release_occupancy_ok w f d id Hwf Hc Hf Hd)
    as (w1 & w' & -> & Hwf' & Hc' & Hsh & _ & Harcs & _ & Hpos). cbn [report].
  apply step_quiet; [done..| |done]. eapply quiet_trans; [|by apply quiet_shrunk].
  split; [rewrite Harcs; eauto|]. intros p e' (e & ? & ?)%Hpos. eauto.
Qed.

(** The second half of an application, from a world [w1] with one more reference to [p]. *)
Lemma finish_apply w w1 owner p f :
  wf w1 → counted None w1 → handles w1 = handles w ++ [p] → fibers w1 !! f = None →
  ∃ w' e, match claim w1 owner (Local p) f with
          | Ok w2 => (let? w3 := drop_reference (set_handles w2 (handles w)) p in Ok (w3, None))%outcome
          | Err e => (let? w3 := drop_reference (set_handles w1 (handles w)) p in Ok (w3, Some e))%outcome
          | Panic => Panic
          end = Ok (w', e) ∧ wf w' ∧ counted None w' ∧ quiet w1 w'.
Proof.
  intros Hwf Hc Hh Hf. assert (is_Some (arcs w1 !! p)) as Hp.
  { apply (wf_held w1 Hwf). rewrite Hh. apply elem_of_app. right. by left. }
  pose proof (claim_ok w1 owner p f Hwf Hc Hp Hf) as Hcl.
  destruct (claim w1 owner (Local p) f) as [w2|e|]; [| |done].
  - destruct Hcl as (Hwf2 & Hc2 & Hh2 & Hs & e & He & Hst). rewrite Hh in Hh2.
    destruct (drop_last_ok w2 (handles w) p Hwf2 Hc2 Hh2) as (w3 & -> & ? & ? & Hsh).
    exists w3, None. split_and!; try done. eapply quiet_trans; [by eapply quiet_claim|].
    eapply quiet_trans; [|by apply quiet_shrunk]. by apply quiet_shape.
  - destruct (drop_last_ok w1 (handles w) p Hwf Hc Hh) as (w3 & -> & ? & ? & Hsh).
    exists w3, (Some e). split_and!; try done.
    eapply quiet_trans; [|by apply quiet_shrunk]. by apply quiet_shape.
Qed.

Lemma step_apply w owner sel f :
  wf w → counted None w → step_good w (OApply owner sel f) (step w (OApply owner sel f)).
Proof.
  intros Hwf Hc. cbn [step].
  destruct (match sel with Some i => Some <$> handles w !! i | None => Some None end) as [s|] eqn:Hsel;
    [|by apply step_same].
  destruct (fibers w !! f) as [d|] eqn:Hf; [by apply step_same|]. unfold apply_fiber. destruct s as [p|].
  - destruct sel as [i|]; [|done]. destruct (handles w !! i) as [p'|] eqn:Hi; [|done].
    injection Hsel as ->. pose proof (alive_handle w i p Hwf Hi) as Hp.
    destruct (clone_ok w p Hwf Hc Hp) as [Hwf1 Hc1]. cbn [obind].
    destruct (finish_apply w (clone w p) owner p f Hwf1 Hc1 eq_refl Hf) as (w' & e & -> & Hwf' & Hc' & Hq).
    apply step_quiet; [done..| |done]. eapply quiet_trans; [apply quiet_clone|done].
  - destruct sel as [i|]; [by destruct (handles w !! i)|].
    pose proof (child_position_ok w owner Hwf Hc) as Hp.
    destruct (child_position w owner) as [[w1 id]|e|]; cbn [obind]; [|by apply step_same|done].
    destruct Hp as (Hwf1 & Hc1 & Hid & Hnew & Hfib & Hh & parent & st & Hal & Hst & Harcs).
    assert (fibers w1 !! f = None) as Hf1 by by rewrite Hfib.
    destruct (finish_apply w w1 owner id f Hwf1 Hc1 Hh Hf1) as (w' & e & -> & Hwf' & Hc' & Hq).
    exists w', e. split_and!; try done. intros o. rewrite (children_quiet w1 w') by done.
    rewrite (children_extended w w1 owner parent st id o) by done. subst id. done.
Qed.

Lemma step_ok w o : wf w → counted None w → step_good w o (step w o).
Proof.
  intros Hwf Hc. destruct o; [by apply step_child| | | |by apply step_reorder|by apply step_apply
    |by apply step_fiber|by apply step_dispose]; apply (step_handles _ _ i); eauto.
Qed.

Lemma run_ok w ops :
  wf w → counted None w → ∃ w', run w ops = Some w' ∧ wf w' ∧ counted None w'.
Proof.
  revert w. induction ops as [|o ops IH]; intros w Hwf Hc; cbn; [eauto|].
  destruct (step_ok w o Hwf Hc) as (w' & e & -> & ? & ? & _). by apply IH.
Qed.

Lemma run_wf most entries ops w :
  run (new_world most entries) ops = Some w → wf w ∧ counted None w.
Proof.
  intros Hr. destruct (new_world_wf most entries) as [Hwf Hc].
  destruct (run_ok _ ops Hwf Hc) as (w' & Hr' & ?). simplify_eq. done.
Qed.

(** C33: in every history the order implements its abstract specification, a list of children
    for every parent generation: an operation asks for an arrangement (a new child last,
    listed children first, everything else as it was), and the children afterwards are that
    arrangement without the positions that are gone. *)
Theorem order_refines most entries ops w o :
  run (new_world most entries) ops = Some w →
  ∃ w' e, step w o = Some (w', e) ∧
    ∀ owner, children w' owner = filter (alive w') (arranged w o e owner).
Proof.
  intros [Hwf Hc]%run_wf. destruct (step_ok w o Hwf Hc) as (w' & e & -> & _ & _ & Hch). eauto.
Qed.

(** ** The positions that live *)
Lemma alive_referenced w p : wf w → counted None w → alive w p ↔ referenced w p.
Proof.
  intros Hwf Hc. unfold alive. rewrite (wf_dom w Hwf). split.
  - remember (Z.to_nat (next (state w) - p)) as n eqn:Hn. revert p Hn.
    induction (lt_wf n) as [n _ IH]. intros p -> [a Ha].
    destruct (counted_strong _ _ Hc p a Ha) as [Hs Hge].
    rewrite bool_decide_eq_false_2 in Hs by done. cbn in Hs. unfold holders in Hs.
    destruct (decide (1 ≤ listed p (handles w))) as [Hl%listed_pos|]; [by apply ref_handle|].
    destruct (decide (1 ≤ count (occupies p) (fibers w))) as [(f & d & Hf & Hd%bool_decide_eq_true)%count_pos|];
      [by eapply ref_fiber|].
    destruct (count_pos (is_parent p) (arcs w)) as (q & b & Hq & Hb%bool_decide_eq_true); [lia|].
    destruct (wf_parent w Hwf q b p Hq Hb) as [Hlt _]. eapply (ref_child w q); [|done..].
    apply (wf_ids w Hwf) in Hq as Hids. eapply IH; [|done|eauto]. lia.
  - induction 1 as [p Hp|f d p Hf Hd|q a p _ _ Hq Ha]; [by apply (wf_held w Hwf)
      |by eapply (wf_occupied w Hwf)|by eapply (wf_parent w Hwf)].
Qed.

Lemma release_maximum fuel w p w' : release fuel w p = Ok w' → maximum w' = maximum w.
Proof.
  revert w p. induction fuel as [|fuel IH]; intros w p; cbn [release]; [done|].
  intros (a & _ & Hk)%obind_ok. destruct (strong a =? 1); [|by injection Hk as <-].
  destruct (p_parent a); [by apply IH in Hk|by injection Hk as <-].
Qed.

Lemma child_position_maximum w owner w' id :
  child_position w owner = Ok (w', id) → maximum w' = maximum w.
Proof. intros (parent & _ & Hk)%obind_ok. apply obind_ok in Hk as ([st n] & _ & [= <- <-]). done. Qed.

Lemma claim_maximum w owner p f w' : claim w owner p f = Ok w' → maximum w' = maximum w.
Proof.
  unfold claim. intros (id & _ & Hk)%obind_ok. apply obind_ok in Hk as (e & _ & Hk).
  destruct (occupant e); [done|by injection Hk as <-].
Qed.

Lemma apply_fiber_maximum w owner s f w' e :
  apply_fiber w owner s f = Ok (w', e) → maximum w' = maximum w.
Proof.
  unfold apply_fiber, drop_reference. intros ([w1 p] & H1 & Hk)%obind_ok.
  assert (maximum w1 = maximum w) as <-.
  { destruct s; [by injection H1 as <- <-|by eapply child_position_maximum]. }
  destruct (claim w1 owner (Local p) f) as [w2|e'|] eqn:Hcl; [| |done];
    apply obind_ok in Hk as (w3 & Hw3%release_maximum & [= <- <-]); rewrite Hw3; [|done].
  by apply claim_maximum in Hcl.
Qed.

Lemma reorder_maximum w owner l w' : reorder w owner l = Ok w' → maximum w' = maximum w.
Proof.
  unfold reorder. intros (ids & _ & Hk)%obind_ok. destruct (scopes (state w) !! owner); [|by injection Hk as <-].
  apply obind_ok in Hk as (tail & _ & Hk). by apply obind_ok in Hk as ([m c] & _ & [= <-]).
Qed.

Lemma report_maximum w r w' e :
  report w r = Some (w', e) → (∀ w1, r = Ok w1 → maximum w1 = maximum w) → maximum w' = maximum w.
Proof. destruct r; cbn; intros [= <- <-] Hr; eauto. Qed.

Lemma step_maximum w o w' e : step w o = Some (w', e) → maximum w' = maximum w.
Proof.
  destruct o as [owner|owner i|i|i|owner l|owner s f|f g live|f]; cbn [step].
  - intros Hr. eapply report_maximum; [exact Hr|].
    intros w1 ([w2 id] & Hp%child_position_maximum & [= <-])%obind_ok. done.
  - destruct (handles w !! i); [|by intros [= <- <-]]. intros Hr. eapply report_maximum; [exact Hr|].
    intros w1 (? & _ & Hk)%obind_ok. by apply obind_ok in Hk as (? & _ & [= <-]).
  - by destruct (handles w !! i); intros [= <- <-].
  - destruct (handles w !! i); [|by intros [= <- <-]]. intros Hr. eapply report_maximum; [exact Hr|].
    by intros w1 ->%release_maximum.
  - destruct (mapM (argument w) l); [|by intros [= <- <-]]. intros Hr. eapply report_maximum; [exact Hr|].
    unfold reorder_children. intros w1. destruct (_ <? _); [done|].
    intros (? & _ & Hk)%obind_ok. by apply reorder_maximum in Hk.
  - destruct (match s with Some _ => _ | None => _ end) as [sel|]; [|by intros [= <- <-]].
    destruct (fibers w !! f); [by intros [= <- <-]|].
    destruct (apply_fiber w owner sel f) as [[w1 e1]|e1|] eqn:Ha; [|by intros [= <- <-]|done].
    intros [= <- <-]. by apply apply_fiber_maximum in Ha.
  - destruct (fibers w !! f) as [[? ? [p|]]|]; by intros [= <- <-].
  - destruct (fibers w !! f) as [d|]; [|by intros [= <- <-]].
    destruct (f_position d); [|by intros [= <- <-]]. intros Hr. eapply report_maximum; [exact Hr|].
    unfold release_occupancy. intros w1 (e1 & _ & Hk)%obind_ok. by apply release_maximum in Hk.
Qed.

Lemma run_maximum w ops w' : run w ops = Some w' → maximum w' = maximum w.
Proof.
  revert w. induction ops as [|o ops IH]; intros w; cbn; [by intros [= <-]|].
  destruct (step w o) as [[w1 e]|] eqn:Hs; [|done]. intros ->%IH. by apply step_maximum in Hs.
Qed.

(** C32: no history panics, and the order holds an entry for exactly the positions something
    still refers to: a position lives as long as a caller holds it, a Fiber occupies it or
    one below it lives, and no longer. So at most [most] of them are retained at any time,
    and a position is never occupied by two Fibers. *)
Theorem positions_live_exactly most entries ops :
  ∃ w, run (new_world most entries) ops = Some w ∧
    (∀ p, alive w p ↔ referenced w p) ∧
    Z.of_nat (size (positions (state w))) ≤ Z.max 0 most ∧
    (∀ f g d d' p, fibers w !! f = Some d → fibers w !! g = Some d' →
       f_position d = Some p → f_position d' = Some p → f = g).
Proof.
  destruct (new_world_wf most entries) as [Hwf Hc].
  destruct (run_ok _ ops Hwf Hc) as (w & Hr & Hwf' & Hc'). exists w. split_and!; [done|..].
  - intros p. by apply alive_referenced.
  - pose proof (wf_size w Hwf') as Hs. by rewrite (run_maximum _ _ _ Hr) in Hs.
  - intros f g d d' p Hf Hg Hd Hd'.
    destruct (proj2 (wf_dom w Hwf' p)) as [e He]; [by eapply (wf_occupied w Hwf')|].
    assert (occupant e = Some f) by (apply (wf_occupant w Hwf' p e f He); eauto).
    assert (occupant e = Some g) by (apply (wf_occupant w Hwf' p e g He); eauto). congruence.
Qed.

(** ** Keys *)
Definition upto (m : gmap Z Entry) (p : Z) : nat := size (filter (λ e, e.1 ≤ p) m).

Lemma upto_parent m p q e : m !! p = Some e → q < p → (S (upto m q) ≤ upto m p)%nat.
Proof.
  intros Hp Hlt. unfold upto.
  assert (filter (λ e, e.1 ≤ q) m !! p = None) as Hnone
    by (apply map_lookup_filter_None_2; right; cbn; lia).
  rewrite <- (map_size_insert_None p e) by done. apply map_subseteq_size.
  apply map_subseteq_spec. intros r f [[<- <-]|[_ Hr]]%lookup_insert_Some;
    apply map_lookup_filter_Some; [by split|].
  apply map_lookup_filter_Some in Hr as [? ?]. split; [done|]. cbn in *. lia.
Qed.

Lemma key_loop_total w p :
  wf w → alive w p →
  ∃ k, ∀ fuel, (upto (positions (state w)) p ≤ fuel)%nat →
    key_loop fuel (positions (state w)) (Some p) = Some k.
Proof.
  intros Hwf. remember (Z.to_nat p) as n eqn:Hn. revert p Hn.
  induction (lt_wf n) as [n _ IH]. intros p -> [e He].
  destruct (proj1 (wf_dom w Hwf p)) as [a Ha]; [eauto|].
  assert (∀ q, q < p → ∀ fuel, (upto (positions (state w)) p ≤ fuel)%nat →
    ∃ fuel', fuel = S fuel' ∧ (upto (positions (state w)) q ≤ fuel')%nat) as Hfuel.
  { intros q Hq fuel Hf. pose proof (upto_parent _ p q e He Hq).
    destruct fuel as [|fuel]; [lia|]. exists fuel. split; [done|lia]. }
  destruct (p_parent a) as [q|] eqn:Hq.
  - destruct (wf_parent w Hwf p a q Ha Hq) as [Hlt [b Hb]].
    pose proof (wf_ids w Hwf q b Hb) as Hids.
    destruct (IH (Z.to_nat q) ltac:(lia) q eq_refl) as [k Hk]; [apply (wf_dom w Hwf); eauto|].
    exists (k ++ [rank e]). intros fuel (fuel' & -> & Hf)%(Hfuel q); [|done]. cbn [key_loop].
    by rewrite He, (wf_entry w Hwf p a e Ha He), Hq, Hk.
  - exists [rank e]. intros fuel (fuel' & -> & _)%(Hfuel (p - 1)); [|lia]. cbn [key_loop].
    rewrite He, (wf_entry w Hwf p a e Ha He), Hq. by destruct fuel'.
Qed.

Lemma upto_size m p : (upto m p ≤ size m)%nat.
Proof. apply map_subseteq_size, map_filter_subseteq. Qed.

Definition path (w : World) (p : Z) : list Z := default [] (key (state w) p).

Lemma key_path w p : wf w → alive w p → key (state w) p = Some (path w p).
Proof.
  intros Hwf Hp. destruct (key_loop_total w p Hwf Hp) as [k Hk]. unfold path, key.
  pose proof (upto_size (positions (state w)) p). by rewrite Hk by lia.
Qed.

Definition parent_path (w : World) (a : Position) : list Z :=
  match p_parent a with Some q => path w q | None => [] end.

Lemma path_step w p a e :
  wf w → arcs w !! p = Some a → positions (state w) !! p = Some e →
  path w p = parent_path w a ++ [rank e].
Proof.
  intros Hwf Ha He. assert (alive w p) as Hal by (unfold alive; eauto).
  pose proof (key_path w p Hwf Hal) as Hk. unfold key in Hk. cbn [key_loop] in Hk.
  rewrite He, (wf_entry w Hwf p a e Ha He) in Hk. unfold parent_path.
  destruct (p_parent a) as [q|] eqn:Hq.
  - destruct (wf_parent w Hwf p a q Ha Hq) as [Hlt Hin].
    assert (alive w q) as Hqal by by apply (wf_dom w Hwf).
    destruct (key_loop_total w q Hwf Hqal) as [k Hkq].
    pose proof (upto_parent _ p q e He Hlt). pose proof (upto_size (positions (state w)) p).
    pose proof (key_path w q Hwf Hqal) as Hkq'. unfold key in Hkq'.
    rewrite Hkq in Hkq' by lia. rewrite Hkq in Hk by lia. by simplify_option_eq.
  - destruct (size _) in Hk; by simplify_option_eq.
Qed.

(** The order of the tree of positions: a position before everything below it, and
    everything below a child before everything below a later one. *)
Inductive precedes (w : World) : Z → Z → Prop :=
| precedes_below p x : below w p x → x ≠ p → precedes w p x
| precedes_children owner i j p q x y :
    children w owner !! i = Some p → children w owner !! j = Some q → (i < j)%nat →
    below w p x → below w q y → precedes w x y.

Lemma below_path w p x :
  wf w → below w p x → ∃ s, path w x = path w p ++ s ∧ (x ≠ p → s ≠ []).
Proof.
  intros Hwf. induction 1 as [|q a x Hb (s & IH & _) Ha Hq].
  - exists []. by rewrite app_nil_r.
  - destruct (proj2 (wf_dom w Hwf x)) as [e He]; [eauto|]. exists (s ++ [rank e]).
    rewrite (path_step w x a e Hwf Ha He). unfold parent_path. rewrite Hq, IH, app_assoc.
    split; [done|]. by destruct s.
Qed.

Lemma path_compare_prefix k s : s ≠ [] → path_compare k (k ++ s) = Lt.
Proof.
  intros Hs. induction k as [|r k IH]; cbn; [by destruct s|]. by rewrite Z.compare_refl.
Qed.

Lemma path_compare_differ k r r' s t : r < r' → path_compare (k ++ r :: s) (k ++ r' :: t) = Lt.
Proof.
  intros Hr. induction k as [|c k IH]; cbn; [|by rewrite Z.compare_refl].
  by rewrite (proj2 (Z.compare_lt_iff r r')).
Qed.

Lemma precedes_path w x y : wf w → precedes w x y → path_compare (path w x) (path w y) = Lt.
Proof.
  intros Hwf. destruct 1 as [p x Hb Hne|owner i j p q x y Hi Hj Hij Hx Hy].
  - destruct (below_path w p x Hwf Hb) as (s & -> & Hs). by apply path_compare_prefix, Hs.
  - destruct (below_path w p x Hwf Hx) as (s & -> & _), (below_path w q y Hwf Hy) as (t & -> & _).
    destruct (children_spec w owner Hwf) as [_ Hsort].
    apply (StronglySorted_lookup _ _ i j p q) in Hsort as (e & f & He & Hf & Hlt); [|done..].
    apply list_elem_of_lookup_2, elem_of_children in Hi as (a & Ha & Hao); [|done].
    apply list_elem_of_lookup_2, elem_of_children in Hj as (b & Hb & Hbo); [|done].
    rewrite (path_step w p a e), (path_step w q b f) by done.
    assert (parent_path w a = parent_path w b) as <-.
    { unfold parent_path. by rewrite (wf_siblings w Hwf p q a b) by congruence. }
    rewrite <- !app_assoc. by apply path_compare_differ.
Qed.

(** A captured snapshot orders registrations as the tree of positions is ordered, a
    parent before its children and siblings with everything below them in the order of
    their parent generation; registrations of one position are in the order they were made. *)
Lemma capture_ordered most entries ops w l revision ranks m n x y s t :
  run (new_world most entries) ops = Some w →
  capture w l = Ok (revision, ranks) →
  l !! m = Some (Local x, s) → l !! n = Some (Local y, t) →
  precedes w x y ∨ (x = y ∧ s < t) →
  ∃ r r', ranks !! m = Some r ∧ ranks !! n = Some r' ∧ rank_compare r r' = Lt.
Proof.
  intros [Hwf _]%run_wf Hcap Hm Hn Hxy. unfold capture in Hcap.
  case_bool_decide as Hnil; [by subst l|]. destruct (_ <? _); [done|]. destruct (existsb _ _); [done|].
  apply obind_ok in Hcap as (rs & Hmap & [= <- <-]).
  destruct (mapM _ l) as [rs'|] eqn:Hrs; [|done]. injection Hmap as ->. apply mapM_Some in Hrs.
  assert (∀ k p c, l !! k = Some (Local p, c) → rs !! k = Some (path w p, c)) as Hat.
  { intros k p c Hk. eapply Forall2_lookup_l in Hrs as (r & -> & Hr); [|done]. cbn -[key] in Hr.
    unfold path. destruct (key (state w) p); by simplify_eq/=. }
  eexists _, _. split_and!; [by apply Hat|by apply Hat|]. unfold rank_compare. cbn [fst snd].
  destruct Hxy as [Hp|[-> Hst]]; [by rewrite precedes_path|].
  assert (path_compare (path w y) (path w y) = Eq) as ->; [|by apply Z.compare_lt_iff].
  clear. induction (path w y) as [|c k IH]; cbn; [done|]. by rewrite Z.compare_refl.
Qed.

(** ** A small history *)
Definition sample_history : list op :=
  [OChild None; OChild None; OApply None (Some 0%nat) 7; OFiber 7 1 true;
   OChild (Some {| fiber := 7; generation := 1 |})].
Definition sample_reorder : op := OReorder None [Some 1%nat; Some 0%nat].
Definition sample_world : World := default (new_world 8 8) (run (new_world 8 8) sample_history).
Definition reordered_world : World :=
  default (new_world 8 8) (run (new_world 8 8) (sample_history ++ [sample_reorder])).

Lemma order_refines_witness :
  children sample_world None = [1; 2] ∧
  ∃ w' e, step sample_world sample_reorder = Some (w', e) ∧
    ∀ owner, children w' owner = filter (alive w') (arranged sample_world sample_reorder e owner).
Proof.
  split; [by vm_compute|]. apply (order_refines 8 8 sample_history). by vm_compute.
Defined.

Lemma capture_ordered_witness :
  ∃ r r', [([0], 5); ([1; 3], 9)] !! 0%nat = Some r ∧ [([0], 5); ([1; 3], 9)] !! 1%nat = Some r' ∧
    rank_compare r r' = Lt.
Proof.
  assert (children reordered_world None = [2; 1]) as Hch by by vm_compute.
  apply (capture_ordered 8 8 (sample_history ++ [sample_reorder]) reordered_world
    [(Local 2, 5); (Local 3, 9)] (Some (revision (state reordered_world))) [([0], 5); ([1; 3], 9)]
    0 1 2 3 5 9); [by vm_compute..|].
  left. apply (precedes_children _ None 0 1 2 1); [by rewrite Hch|by rewrite Hch|lia|constructor|].
  apply (below_child _ _ 1 {| p_parent := Some 1; p_owner := Some {| fiber := 7; generation := 1 |};
    strong := 1 |}); [constructor|by vm_compute|done].
Defined.
