(* ===== verification/OutputCache.v ===== *)
(** * The cache of completed process output

    [crates/rsi-process/local/src/output_cache.rs]: a worker keeps the complete output of
    processes in files of a private directory within a quota, and serves pages of it. Output
    in progress is the file [id.part]; publishing it links [id.log] and removes the partial
    name. The worker is the only one to change names of the cache in its directory; its
    file-system calls may fail, which an [Oracle] decides call by call, and captures may be
    abandoned by their owners at any time ([abandon]), also in the middle of [finish].

    A [Disk] is the directory ([names] of files, a hard link being one more name) and the
    contents of files. Identities of captures are numbers; the device number of the
    directory is constant and left out. The queue between captures and the worker, which
    may drop a capture, and the scan at startup are not modelled: a history starts with an
    empty directory. *)

From S2P Require Import Prelude Text PatchCommon.

(** Errors of the cache; [OsError] is [Io] with the message of the system ([io_error]). *)
Inductive ProcessError := Capacity | InvalidInput (message : string) | Io (message : string) | OsError.

Record OutputCacheConfig := {
  maximum_stream_bytes : Z;
  maximum_total_bytes : Z;
  maximum_files : Z
}.

Definition MAXIMUM_COMPLETED_OUTPUT_BYTES : Z := 64 * 1024 * 1024.
Definition MAXIMUM_OUTPUT_READ_BYTES : Z := 64 * 1024.

(** [OutputCacheConfig::validate]; [directory_ok] is the test of the directory's path. *)
Definition config_validate (directory_ok : bool) (c : OutputCacheConfig) : outcome ProcessError unit :=
  if negb directory_ok || (maximum_stream_bytes c =? 0) ||
     (MAXIMUM_COMPLETED_OUTPUT_BYTES <? maximum_stream_bytes c) ||
     (maximum_total_bytes c <? maximum_stream_bytes c) ||
     (1024 * 1024 * 1024 <? maximum_total_bytes c) ||
     (maximum_files c =? 0) || (256 <? maximum_files c)
  then Err (InvalidInput "invalid output cache bounds or directory")
  else Ok tt.

(** ** The directory *)
Inductive name := Part (id : text) | Log (id : text).
#[export] Instance name_eq_dec : EqDecision name.
Proof. solve_decision. Defined.
#[export] Instance name_countable : Countable name.
Proof.
  refine (inj_countable' (λ n, match n with Part i => inl i | Log i => inr i end)
            (λ x, match x with inl i => Part i | inr i => Log i end) _).
  by intros [].
Defined.

Record Disk := { names : gmap name Z; contents : gmap Z (list Z); next_inode : Z }.

(** The outcome of the calls of one command: which removals, and whether the opening, the
    writing (after so many bytes), the stat, the linking or the reading fail, and whether
    the capture is abandoned while [finish] works on its files. *)
Record Oracle := {
  unlink_fails : name → bool;
  open_fails : bool;
  write_fails : option nat;
  stat_fails : bool;
  link_fails : bool;
  read_fails : bool;
  abandoned_meanwhile : bool
}.

(** [openat] with [CREATE | EXCL]. *)
Definition create (o : Oracle) (d : Disk) (n : name) : outcome ProcessError (Disk * Z) :=
  if open_fails o || bool_decide (is_Some (names d !! n)) then Err OsError
  else Ok ({| names := <[n := next_inode d]> (names d);
              contents := <[next_inode d := []]> (contents d);
              next_inode := next_inode d + 1 |}, next_inode d).

(** [write_all]: the disk, and whether all was written. *)
Definition write_all (o : Oracle) (d : Disk) (inode : Z) (bytes : list Z) : Disk * bool :=
  let written := match write_fails o with Some k => take k bytes | None => bytes end in
  ({| names := names d;
      contents := <[inode := default [] (contents d !! inode) ++ written]> (contents d);
      next_inode := next_inode d |},
   match write_fails o with Some _ => false | None => true end).

Definition link (o : Oracle) (d : Disk) (old new : name) : option Disk :=
  match names d !! old with
  | Some inode =>
      if link_fails o || bool_decide (is_Some (names d !! new)) then None
      else Some {| names := <[new := inode]> (names d); contents := contents d;
                   next_inode := next_inode d |}
  | None => None
  end.

(** [Worker::remove]: an absent name counts as removed. *)
Definition remove (o : Oracle) (d : Disk) (n : name) : outcome ProcessError Disk :=
  if unlink_fails o n then Err OsError
  else Ok {| names := delete n (names d); contents := contents d; next_inode := next_inode d |}.

(** ** The worker *)
Inductive CaptureState := Pending | Complete (id : text) | Unavailable.

Record Active := { a_inode : Z; a_bytes : Z; a_state : Z }.
Record Entry := { e_id : text; e_bytes : Z; e_inode : Z }.

(** The worker with the states its captures share with it. *)
Record Worker := {
  config : OutputCacheConfig;
  disk : Disk;
  active : gmap text Active;
  completed : list Entry;
  reserved : Z;
  cleanup_failed : bool;
  captures : gmap Z CaptureState
}.

Definition set_disk (w : Worker) (d : Disk) : Worker :=
  {| config := config w; disk := d; active := active w; completed := completed w;
     reserved := reserved w; cleanup_failed := cleanup_failed w; captures := captures w |}.
Definition set_active (w : Worker) (m : gmap text Active) : Worker :=
  {| config := config w; disk := disk w; active := m; completed := completed w;
     reserved := reserved w; cleanup_failed := cleanup_failed w; captures := captures w |}.
Definition set_completed (w : Worker) (l : list Entry) : Worker :=
  {| config := config w; disk := disk w; active := active w; completed := l;
     reserved := reserved w; cleanup_failed := cleanup_failed w; captures := captures w |}.
Definition set_reserved (w : Worker) (n : Z) : Worker :=
  {| config := config w; disk := disk w; active := active w; completed := completed w;
     reserved := n; cleanup_failed := cleanup_failed w; captures := captures w |}.
Definition set_failed (w : Worker) : Worker :=
  {| config := config w; disk := disk w; active := active w; completed := completed w;
     reserved := reserved w; cleanup_failed := true; captures := captures w |}.
Definition set_capture (w : Worker) (c : Z) (s : CaptureState) : Worker :=
  {| config := config w; disk := disk w; active := active w; completed := completed w;
     reserved := reserved w; cleanup_failed := cleanup_failed w;
     captures := <[c := s]> (captures w) |}.

Definition worker_new (c : OutputCacheConfig) : Worker :=
  {| config := c; disk := {| names := ∅; contents := ∅; next_inode := 0 |}; active := ∅;
     completed := []; reserved := 0; cleanup_failed := false; captures := ∅ |}.

Definition is_pending (w : Worker) (c : Z) : bool :=
  match captures w !! c with Some Pending => true | _ => false end.

(** [Capture::abandon] *)
Definition abandon (w : Worker) (c : Z) : Worker :=
  if is_pending w c then set_capture w c Unavailable else w.

(** [evict] leaves the worker as it was if the file cannot be removed. *)
Definition evict (o : Oracle) (w : Worker) : outcome ProcessError Worker :=
  match completed w with
  | [] => Err Capacity
  | entry :: rest =>
      (let? d := remove o (disk w) (Log (e_id entry)) in
       let? r := expect (checked_sub (reserved w) (e_bytes entry)) in
       Ok (set_completed (set_reserved (set_disk w d) r) rest))%outcome
  end.

Definition full (w : Worker) : bool :=
  (maximum_total_bytes (config w) <? reserved w + maximum_stream_bytes (config w)) ||
  (maximum_files (config w) <=? Z.of_nat (size (active w)) + len (completed w)).

(** The loop of [begin], over the entries there are to evict. *)
Fixpoint make_room (o : Oracle) (entries : list Entry) (w : Worker) : Worker * outcome ProcessError unit :=
  if full w then
    match evict o w with
    | Ok w' => match entries with
               | [] => (w', Panic)
               | _ :: rest => make_room o rest w'
               end
    | Err e => (w, Err e)
    | Panic => (w, Panic)
    end
  else (w, Ok tt).

Definition begin (o : Oracle) (w : Worker) (id : text) (c : Z) : Worker * outcome ProcessError unit :=
  if cleanup_failed w then (w, Err Capacity)
  else if negb (is_pending w c) then (w, Ok tt)
  else if bool_decide (is_Some (active w !! id)) || existsb (λ e, bool_decide (e_id e = id)) (completed w)
  then (w, Err Capacity)
  else
    let '(w1, r) := make_room o (completed w) w in
    match r with
    | Ok _ =>
        match create o (disk w1) (Part id) with
        | Ok (d, inode) =>
            (set_active (set_reserved (set_disk w1 d) (reserved w1 + maximum_stream_bytes (config w1)))
               (<[id := {| a_inode := inode; a_bytes := 0; a_state := c |}]> (active w1)), Ok tt)
        | Err e => (w1, Err e)
        | Panic => (w1, Panic)
        end
    | r => (w1, r)
    end.

(** [discard]; [None] is an underflow of [reserved]. *)
Definition discard (o : Oracle) (w : Worker) (id : text) : option Worker :=
  match active w !! id with
  | None => Some w
  | Some a =>
      let w1 := set_capture (set_active w (delete id (active w))) (a_state a) Unavailable in
      match remove o (disk w1) (Part id) with
      | Ok d => set_reserved (set_disk w1 d) <$>
                checked_sub (reserved w1) (maximum_stream_bytes (config w1))
      | _ => Some (set_failed w1)
      end
  end.

(** The removal whose result is only tested: the disk, and whether it succeeded. *)
Definition try_remove (o : Oracle) (d : Disk) (n : name) : Disk * bool :=
  match remove o d n with Ok d' => (d', true) | _ => (d, false) end.

(** The owner may abandon the capture while [finish] works on its files. *)
Definition meanwhile (o : Oracle) (w : Worker) (c : Z) : Worker :=
  if abandoned_meanwhile o then abandon w c else w.

(** The publication, under the lock of the capture's state. *)
Definition settle (w : Worker) (id : text) (a : Active) (published : bool) : Worker :=
  if published
  then set_capture
         (set_completed w
            (completed w ++ [{| e_id := id; e_bytes := a_bytes a; e_inode := a_inode a |}]))
         (a_state a) (Complete id)
  else set_capture w (a_state a) Unavailable.

(** The part of [finish] after the attempt to link the file, which left the directory [d]. *)
Definition conclude (o : Oracle) (w : Worker) (id : text) (a : Active) (linked : bool) (d : Disk) :
  option Worker :=
  let '(d2, removed_partial) := try_remove o d (Part id) in
  let w2 := meanwhile o (set_disk w d2) (a_state a) in
  let published := linked && removed_partial && is_pending w2 (a_state a) in
  let w3 := settle w2 id a published in
  let '(d3, removed_final) :=
    if negb linked || published then (disk w3, true) else try_remove o (disk w3) (Log id) in
  let w4 := set_disk w3 d3 in
  if removed_partial && removed_final then
    (λ r, set_reserved w4 (if published then r + a_bytes a else r)) <$>
      checked_sub (reserved w4) (maximum_stream_bytes (config w4))
  else Some (set_failed w4).

Definition finish (o : Oracle) (w : Worker) (id : text) : option Worker :=
  match active w !! id with
  | None => Some w
  | Some a =>
      let w1 := set_active w (delete id (active w)) in
      let linking :=
        if negb (cleanup_failed w1) && is_pending w1 (a_state a) && negb (stat_fails o)
        then link o (disk w1) (Part id) (Log id) else None in
      match linking with
      | Some d => conclude o w1 id a true d
      | None => conclude o w1 id a false (disk w1)
      end
  end.

Definition write (o : Oracle) (w : Worker) (id : text) (bytes : list Z) : option Worker :=
  match active w !! id with
  | None => Some w
  | Some a =>
      if maximum_stream_bytes (config w) <? saturating_add u64_max (a_bytes a) (len bytes)
      then discard o w id
      else
        let '(d, ok) := write_all o (disk w) (a_inode a) bytes in
        if ok
        then Some (set_active (set_disk w d)
               (<[id := {| a_inode := a_inode a; a_bytes := a_bytes a + len bytes;
                           a_state := a_state a |}]> (active w)))
        else discard o (set_disk w d) id
  end.

(** ** Reading *)
Record OutputPage := {
  page_id : text;
  page_offset : Z;
  next_offset : Z;
  total_bytes : Z;
  page_bytes : list Z
}.

Definition links (d : Disk) (inode : Z) : Z := Z.of_nat (size (filter (λ e, e.2 = inode) (names d))).

Definition read (o : Oracle) (w : Worker) (id : text) (offset limit : Z) : outcome ProcessError OutputPage :=
  (let? e := ok_or (snd <$> list_find (λ e, e_id e = id) (completed w))
               (Io "output unavailable or evicted") in
   if read_fails o then Err OsError
   else
     let? inode := ok_or (names (disk w) !! Log id) OsError in
     let bytes := default [] (contents (disk w) !! inode) in
     if negb (links (disk w) inode =? 1) then Err (Io "output cache entry has multiple links")
     else if negb (inode =? e_inode e) || negb (len bytes =? e_bytes e)
     then Err (Io "cached output identity changed")
     else if e_bytes e <? offset then Err (InvalidInput "output offset exceeds stream length")
     else
       let count := Z.min (e_bytes e - offset) limit in
       Ok {| page_id := id; page_offset := offset; next_offset := offset + count;
             total_bytes := e_bytes e;
             page_bytes := take (Z.to_nat count) (drop (Z.to_nat offset) bytes) |})%outcome.

Definition validate_output_read (id : text) (limit : Z) : outcome ProcessError unit :=
  if negb (text_len id =? 32) ||
     negb (forallb (λ b, ((48 <=? b) && (b <=? 57)) || ((97 <=? b) && (b <=? 102))) id)
  then Err (InvalidInput "invalid output identity")
  else if (limit =? 0) || (MAXIMUM_OUTPUT_READ_BYTES <? limit)
  then Err (InvalidInput "output page must contain 1..=65536 bytes")
  else Ok tt.

(** [OutputPage::validate_for], the check of a client. *)
Definition validate_for (p : OutputPage) (id : text) (offset limit : Z) : outcome ProcessError unit :=
  (let? _ := validate_output_read id limit in
   if negb (bool_decide (page_id p = id)) || negb (page_offset p =? offset) ||
      (limit <? len (page_bytes p)) || (MAXIMUM_COMPLETED_OUTPUT_BYTES <? total_bytes p) ||
      negb (bool_decide (checked_add u64_max offset (len (page_bytes p)) = Some (next_offset p))) ||
      (total_bytes p <? next_offset p) ||
      (bool_decide (page_bytes p = []) && (next_offset p <? total_bytes p))
   then Err (Io "invalid completed-output page")
   else Ok tt)%outcome.

(** ** Commands and histories *)
Inductive Command :=
| Begin (id : text) (c : Z)
| Write (id : text) (bytes : list Z)
| Finish (id : text)
| Read (id : text) (offset limit : Z).

(** Before a command the abandoned captures are discarded. *)
Definition abandoned (w : Worker) : list text :=
  fst <$> filter (λ e, is_pending w (a_state e.2) = false) (map_to_list (active w)).
Fixpoint discard_all (o : Oracle) (w : Worker) (ids : list text) : option Worker :=
  match ids with
  | [] => Some w
  | id :: rest => match discard o w id with Some w' => discard_all o w' rest | None => None end
  end.

Definition execute (o : Oracle) (w : Worker) (c : Command) : option Worker :=
  match c with
  | Begin id n =>
      match begin o w id n with
      | (w', Ok _) => Some w'
      | (w', Err _) => Some (set_capture w' n Unavailable)
      | (_, Panic) => None
      end
  | Write id bytes => write o w id bytes
  | Finish id => finish o w id
  | Read _ _ _ => Some w
  end.
Definition handle (o : Oracle) (w : Worker) (c : Command) : option Worker :=
  match discard_all o w (abandoned w) with
  | Some w' => execute o w' c
  | None => None
  end.

(** A capture is created (its state is new), abandoned by its owner, or the worker takes a
    command from its queue. *)
Inductive event :=
| Captured (c : Z)
| Abandoned (c : Z)
| Handled (o : Oracle) (c : Command).

Definition occur (w : Worker) (e : event) : option Worker :=
  match e with
  | Captured c =>
      Some (if bool_decide (is_Some (captures w !! c)) then w else set_capture w c Pending)
  | Abandoned c => Some (abandon w c)
  | Handled o c => handle o w c
  end.

Fixpoint run (w : Worker) (es : list event) : option Worker :=
  match es with
  | [] => Some w
  | e :: rest => match occur w e with Some w' => run w' rest | None => None end
  end.

(** ** The quota

    Every file of the cache is charged: an active one and one that could not be removed with
    the stream limit, a completed one with its size. [orphans] are the files that could not
    be removed. *)
Definition charges (w : Worker) (orphans : list Z) : list (Z * Z) :=
  ((λ x, (a_inode x.2, maximum_stream_bytes (config w))) <$> map_to_list (active w)) ++
  ((λ e, (e_inode e, e_bytes e)) <$> completed w) ++
  ((λ i, (i, maximum_stream_bytes (config w))) <$> orphans).

(** The files that have a name, and their sizes. *)
Definition named (d : Disk) : gset Z := map_img (names d).
Definition size_of (d : Disk) (inode : Z) : Z := len (default [] (contents d !! inode)).
Definition usage (d : Disk) : Z := zsum (size_of d <$> elements (named d)).

Record accounted (w : Worker) (orphans : list Z) : Prop := {
  acc_nodup : NoDup (charges w orphans).*1;
  acc_reserved : reserved w = zsum (charges w orphans).*2;
  acc_sizes i c : (i, c) ∈ charges w orphans → size_of (disk w) i ≤ c ∧ i < next_inode (disk w);
  acc_active id a : active w !! id = Some a →
    names (disk w) !! Part id = Some (a_inode a) ∧ size_of (disk w) (a_inode a) = a_bytes a;
  acc_completed e : e ∈ completed w →
    names (disk w) !! Log (e_id e) = Some (e_inode e) ∧ size_of (disk w) (e_inode e) = e_bytes e;
  acc_named n i : names (disk w) !! n = Some i →
    (∃ id a, n = Part id ∧ active w !! id = Some a ∧ a_inode a = i) ∨
    (∃ e, e ∈ completed w ∧ n = Log (e_id e) ∧ e_inode e = i) ∨ i ∈ orphans;
  acc_ids : NoDup (e_id <$> completed w)
}.

(** The bounds, and what an accepted configuration gives. *)
Record bounded (w : Worker) (orphans : list Z) : Prop := {
  bounded_reserved : reserved w ≤ maximum_total_bytes (config w);
  bounded_files : len (charges w orphans) ≤ maximum_files (config w);
  bounded_failed : orphans ≠ [] → cleanup_failed w = true
}.

Definition good_config (c : OutputCacheConfig) : Prop :=
  0 < maximum_stream_bytes c ≤ maximum_total_bytes c ∧
  0 < maximum_files c ∧ maximum_stream_bytes c ≤ MAXIMUM_COMPLETED_OUTPUT_BYTES.

Lemma validated_good dir c :
  0 ≤ maximum_stream_bytes c → 0 ≤ maximum_files c → config_validate dir c = Ok tt → good_config c.
Proof.
  intros Hs Hf. unfold config_validate, good_config. case_match eqn:Hv; [done|]. intros _.
  rewrite !orb_false_iff, !Z.eqb_neq, !Z.ltb_ge in Hv. lia.
Qed.

Lemma size_nonneg d i : 0 ≤ size_of d i.
Proof. unfold size_of, len. lia. Qed.

Lemma size_write o d i bytes j :
  size_of (write_all o d i bytes).1 j =
  if decide (j = i) then size_of d i + len (match write_fails o with Some k => take k bytes | None => bytes end)
  else size_of d j.
Proof.
  unfold size_of. cbn. case_decide as Hj.
  - subst j. rewrite lookup_insert_eq. cbn. unfold len. rewrite length_app. lia.
  - by rewrite lookup_insert_ne.
Qed.

Lemma charges_nonneg w orphans :
  accounted w orphans → Forall (λ x, 0 ≤ x) (charges w orphans).*2.
Proof.
  intros Hacc. apply Forall_fmap, Forall_forall. intros [i c] Hi. cbn.
  apply (acc_sizes w orphans Hacc) in Hi as [? _]. pose proof (size_nonneg (disk w) i). lia.
Qed.

Lemma zsum_submseteq (k l : list Z) : Forall (λ x, 0 ≤ x) l → k ⊆+ l → zsum k ≤ zsum l.
Proof.
  intros Hl [r Hr]%submseteq_Permutation. rewrite Hr in *. rewrite zsum_app.
  apply Forall_app in Hl as [_ Hl%zsum_nonneg]. lia.
Qed.

(** The files that have a name are charged, so the disk holds no more than is reserved. *)
Lemma charged w orphans i :
  accounted w orphans → i ∈ named (disk w) → i ∈ (charges w orphans).*1.
Proof.
  intros Hacc [n Hn]%elem_of_map_img. apply (acc_named w orphans Hacc) in Hn as
    [(id & a & -> & Ha & <-)|[(e & He & -> & <-)|Hi]]; unfold charges; rewrite !fmap_app, !elem_of_app.
  - left. apply (list_elem_of_fmap_2 fst _ (a_inode a, maximum_stream_bytes (config w))).
    apply (list_elem_of_fmap_2 (λ x, (a_inode x.2, maximum_stream_bytes (config w))) _ (id, a)).
    by apply elem_of_map_to_list.
  - right. left. apply (list_elem_of_fmap_2 fst _ (e_inode e, e_bytes e)).
    by apply (list_elem_of_fmap_2 (λ e, (e_inode e, e_bytes e))).
  - right. right. apply (list_elem_of_fmap_2 fst _ (i, maximum_stream_bytes (config w))).
    by apply (list_elem_of_fmap_2 (λ i, (i, maximum_stream_bytes (config w)))).
Qed.

Lemma usage_reserved w orphans : accounted w orphans → usage (disk w) ≤ reserved w.
Proof.
  intros Hacc. rewrite (acc_reserved w orphans Hacc). unfold usage.
  etrans; [apply (zsum_submseteq _ (size_of (disk w) <$> (charges w orphans).*1))|].
  - apply Forall_fmap, Forall_true. intros i. apply size_nonneg.
  - apply fmap_submseteq, NoDup_submseteq; [apply NoDup_elements|].
    intros i Hi%elem_of_elements. by apply charged.
  - pose proof (acc_sizes w orphans Hacc) as Hs. clear Hacc.
    induction (charges w orphans) as [|[i c] l IH]; cbn; [done|]. rewrite !zsum_cons.
    destruct (Hs i c) as [? _]; [by left|]. assert (zsum (size_of (disk w) <$> l.*1) ≤ zsum l.*2); [|cbn; lia].
    apply IH. intros j d Hj. apply Hs. by right.
Qed.

Lemma charges_active w orphans id a :
  active w !! id = Some a →
  charges w orphans ≡ₚ (a_inode a, maximum_stream_bytes (config w))
    :: charges (set_active w (delete id (active w))) orphans.
Proof.
  intros Ha. unfold charges. cbn [config active completed set_active].
  rewrite <- (map_to_list_delete (active w) id a Ha). done.
Qed.

Lemma worker_new_accounted c :
  good_config c → accounted (worker_new c) [] ∧ bounded (worker_new c) [].
Proof.
  intros [Hc Hf]. split; split; unfold charges; cbn; rewrite ?map_to_list_empty; cbn; try done; try lia.
  - constructor.
  - intros i d Hi. by apply elem_of_nil in Hi.
  - intros e He. by apply elem_of_nil in He.
  - constructor.
  - unfold len. cbn. lia.
Qed.

(** *** Files change hands *)
Lemma accounted_perm w w' orphans orphans' :
  charges w' orphans' ≡ₚ charges w orphans → reserved w' = reserved w → disk w' = disk w →
  (∀ id a, active w' !! id = Some a → active w !! id = Some a) →
  completed w' = completed w →
  (∀ id a, active w !! id = Some a → active w' !! id = Some a ∨ a_inode a ∈ orphans') →
  orphans ⊆ orphans' → accounted w orphans → accounted w' orphans'.
Proof.
  intros Hp Hr Hd Hact Hcomp Hact' Hsub []. split; rewrite ?Hr, ?Hd, ?Hcomp; try done.
  - by rewrite Hp.
  - by rewrite Hp.
  - intros i c. rewrite Hp. eauto.
  - eauto.
  - intros n i Hn. destruct (acc_named0 n i Hn) as [(id & a & -> & Ha & <-)|[?|?]]; [|by eauto|by eauto].
    destruct (Hact' id a Ha); eauto 7.
Qed.

Lemma charges_orphan w i orphans :
  charges w (i :: orphans) ≡ₚ (i, maximum_stream_bytes (config w)) :: charges w orphans.
Proof. unfold charges. cbn. by rewrite <- !Permutation_middle. Qed.

(** The file of an active capture that is no longer one. *)
Lemma orphan_ok w orphans id a :
  accounted w orphans → active w !! id = Some a →
  accounted (set_active w (delete id (active w))) (a_inode a :: orphans) ∧
  charges (set_active w (delete id (active w))) (a_inode a :: orphans) ≡ₚ charges w orphans ∧
  (∀ n, names (disk w) !! n = Some (a_inode a) → n = Part id).
Proof.
  intros Hacc Ha. pose proof (charges_active w orphans id a Ha) as Hp.
  assert (charges (set_active w (delete id (active w))) (a_inode a :: orphans) ≡ₚ charges w orphans) as Hperm.
  { by rewrite charges_orphan, Hp. }
  split_and!; [|done|].
  - eapply accounted_perm; [exact Hperm|done..| | | | |exact Hacc]; cbn; try done.
    + by intros id' a' [_ ?]%lookup_delete_Some.
    + intros id' a' Ha'. destruct (decide (id' = id)) as [->|Hne].
      * right. simplify_eq. by left.
      * left. by rewrite lookup_delete_ne.
    + set_solver.
  - intros n Hn. pose proof (acc_nodup w orphans Hacc) as Hnd. rewrite Hp in Hnd. cbn in Hnd.
    apply NoDup_cons in Hnd as [Hno _].
    destruct (acc_named w orphans Hacc n _ Hn) as [(id' & a' & -> & Ha' & Hi)|[(e & He & -> & Hi)|Hi]].
    + destruct (decide (id' = id)) as [->|Hne]; [done|]. exfalso. apply Hno. rewrite <- Hi.
      unfold charges. rewrite fmap_app, elem_of_app. left.
      apply (list_elem_of_fmap_2 fst _ (a_inode a', maximum_stream_bytes (config w))).
      apply (list_elem_of_fmap_2 (λ x, (a_inode x.2, maximum_stream_bytes (config w))) _ (id', a')).
      apply elem_of_map_to_list. cbn. by rewrite lookup_delete_ne.
    + exfalso. apply Hno. rewrite <- Hi. unfold charges. rewrite !fmap_app, !elem_of_app. right. left.
      apply (list_elem_of_fmap_2 fst _ (e_inode e, e_bytes e)).
      by apply (list_elem_of_fmap_2 (λ e, (e_inode e, e_bytes e))).
    + exfalso. apply Hno. unfold charges. rewrite !fmap_app, !elem_of_app. right. right.
      apply (list_elem_of_fmap_2 fst _ (a_inode a, maximum_stream_bytes (config w))).
      by apply (list_elem_of_fmap_2 (λ i, (i, maximum_stream_bytes (config w)))).
Qed.

Definition unlinked (d : Disk) (n : name) : Disk :=
  {| names := delete n (names d); contents := contents d; next_inode := next_inode d |}.
Definition linked_as (d : Disk) (n : name) (i : Z) : Disk :=
  {| names := <[n := i]> (names d); contents := contents d; next_inode := next_inode d |}.

(** A name nobody owns is removed, or given to a file without an owner. *)
Lemma unlink_ok w orphans n :
  accounted w orphans → (∀ id, is_Some (active w !! id) → n ≠ Part id) →
  (∀ e, e ∈ completed w → n ≠ Log (e_id e)) →
  accounted (set_disk w (unlinked (disk w) n)) orphans.
Proof.
  intros [] Hact Hcomp. split; try done; cbn.
  - intros id a Ha. destruct (acc_active0 id a Ha). split; [|done]. rewrite lookup_delete_ne; [done|].
    apply Hact. eauto.
  - intros e He. destruct (acc_completed0 e He). split; [|done]. rewrite lookup_delete_ne; [done|auto].
  - intros m i [_ Hm]%lookup_delete_Some. eauto.
Qed.

Lemma link_ok w orphans n i :
  accounted w orphans → names (disk w) !! n = None → i ∈ orphans →
  accounted (set_disk w (linked_as (disk w) n i)) orphans.
Proof.
  intros [] Hn Hi. split; try done; cbn.
  - intros id a Ha. destruct (acc_active0 id a Ha). split; [|done]. rewrite lookup_insert_ne; [done|congruence].
  - intros e He. destruct (acc_completed0 e He). split; [|done]. rewrite lookup_insert_ne; [done|congruence].
  - intros m j [[<- <-]|[_ Hm]]%lookup_insert_Some; [auto|eauto].
Qed.

(** A file without an owner and without a name is gone. *)
Lemma forget_ok w orphans i :
  accounted w (i :: orphans) → (∀ n, names (disk w) !! n ≠ Some i) →
  accounted (set_reserved w (reserved w - maximum_stream_bytes (config w))) orphans.
Proof.
  intros Hacc Hno. pose proof (charges_orphan w i orphans) as Hp.
  destruct Hacc. rewrite Hp in acc_nodup0, acc_reserved0. cbn in acc_nodup0, acc_reserved0.
  rewrite zsum_cons in acc_reserved0. apply NoDup_cons in acc_nodup0 as [_ Hnd].
  split; try done; cbn.
  - change (charges (set_reserved w _) orphans) with (charges w orphans). lia.
  - intros j c Hj. apply acc_sizes0. rewrite Hp. by right.
  - intros n j Hn. destruct (acc_named0 n j Hn) as [?|[?|[->|?]%elem_of_cons]]; [by auto|by auto| |by auto].
    by destruct (Hno n).
Qed.

(** A file without an owner becomes a completed one. *)
Lemma publish_ok w orphans i id n :
  accounted w (i :: orphans) → names (disk w) !! Log id = Some i → size_of (disk w) i = n →
  id ∉ e_id <$> completed w → (∀ m, names (disk w) !! m = Some i → m = Log id) →
  accounted (set_reserved
    (set_completed w (completed w ++ [{| e_id := id; e_bytes := n; e_inode := i |}]))
    (reserved w - maximum_stream_bytes (config w) + n)) orphans.
Proof.
  intros Hacc Hname Hsize Hid Hall. set (e := {| e_id := id; e_bytes := n; e_inode := i |}).
  pose proof (charges_orphan w i orphans) as Hp.
  set (w' := set_reserved _ _).
  assert (charges w' orphans ≡ₚ (i, n) :: charges w orphans) as Hp'.
  { unfold charges, w'. cbn. rewrite fmap_app, <- app_assoc. cbn. by rewrite <- !Permutation_middle. }
  destruct Hacc. rewrite Hp in acc_nodup0, acc_reserved0. cbn in acc_nodup0, acc_reserved0.
  rewrite zsum_cons in acc_reserved0. split; try done.
  - by rewrite Hp'.
  - rewrite Hp'. cbn. rewrite zsum_cons. cbn. lia.
  - intros j c. rewrite Hp'. intros [[= -> ->]|Hj]%elem_of_cons; cbn.
    + destruct (acc_sizes0 i (maximum_stream_bytes (config w))) as [_ Hlt]; [rewrite Hp; by left|]. lia.
    + apply acc_sizes0. rewrite Hp. by right.
  - cbn. intros e' [He| ->%list_elem_of_singleton]%elem_of_app; [by apply acc_completed0|]. done.
  - cbn. intros m j Hm. destruct (acc_named0 m j Hm) as [?|[(e' & He & -> & <-)|[->|?]%elem_of_cons]].
    + by left.
    + right. left. exists e'. rewrite elem_of_app. auto.
    + right. left. exists e. rewrite elem_of_app. split; [right; by left|]. auto.
    + auto.
  - cbn. rewrite fmap_app. apply NoDup_app. split_and!; [done| |apply NoDup_singleton].
    by intros j Hj ->%list_elem_of_singleton.
Qed.

(** *** Operations *)

(** The quota is kept, whatever files could not be removed. *)
Definition sound (w : Worker) : Prop := ∃ orphans, accounted w orphans ∧ bounded w orphans.

Lemma charges_fewer w orphans i c l :
  accounted w orphans → charges w orphans ≡ₚ (i, c) :: l → 0 ≤ c ∧ c ≤ reserved w.
Proof.
  intros Hacc Hp. pose proof (charges_nonneg w orphans Hacc) as Hnn. rewrite Hp in Hnn. cbn in Hnn.
  apply Forall_cons in Hnn as [? Hnn%zsum_nonneg]. rewrite (acc_reserved w orphans Hacc), Hp. cbn.
  rewrite zsum_cons. lia.
Qed.

Lemma evict_ok o w :
  sound w →
  match evict o w with
  | Ok w' => sound w' ∧ config w' = config w ∧ active w' = active w ∧ captures w' = captures w ∧
             cleanup_failed w' = cleanup_failed w ∧ completed w' = tail (completed w) ∧
             contents (disk w') = contents (disk w)
  | Err _ => True
  | Panic => False
  end.
Proof.
  intros (orphans & Hacc & Hb). unfold evict. destruct (completed w) as [|e rest] eqn:Hc; [done|].
  unfold remove. destruct (unlink_fails o _); cbn [obind]; [done|].
  set (w' := λ r, set_completed (set_reserved (set_disk w (unlinked (disk w) (Log (e_id e)))) r) rest).
  assert (∀ r, charges w orphans ≡ₚ (e_inode e, e_bytes e) :: charges (w' r) orphans) as Hp.
  { intros r. unfold charges, w'. cbn. rewrite Hc. cbn. by rewrite <- !Permutation_middle. }
  destruct (charges_fewer w orphans _ _ _ Hacc (Hp 0)) as [Hnn Hle].
  unfold checked_sub. destruct (Z.leb_spec (e_bytes e) (reserved w)); [|lia]. cbn [expect obind].
  split_and!; try done. exists orphans.
  change (accounted (w' (reserved w - e_bytes e)) orphans ∧ bounded (w' (reserved w - e_bytes e)) orphans).
  set (w1 := w' (reserved w - e_bytes e)). specialize (Hp (reserved w - e_bytes e)). fold w1 in Hp.
  split; destruct Hacc; rewrite Hp in *; cbn [fmap list_fmap fst snd] in *.
  - rewrite zsum_cons in acc_reserved0. apply NoDup_cons in acc_nodup0 as [Hno Hnd].
    rewrite Hc in acc_ids0. cbn in acc_ids0. apply NoDup_cons in acc_ids0 as [Hid Hnd'].
    split; try done.
    + cbn. lia.
    + intros i c Hi. apply acc_sizes0. rewrite Hp. by right.
    + cbn. intros id a Ha. rewrite lookup_delete_ne by done. auto.
    + cbn. intros e' He'. rewrite lookup_delete_ne; [apply acc_completed0; rewrite Hc; by right|].
      intros [= Heq]. apply Hid. rewrite Heq. by apply list_elem_of_fmap_2.
    + cbn. intros n i [Hne Hn]%lookup_delete_Some.
      destruct (acc_named0 n i Hn) as [?|[(e' & He' & -> & <-)|?]]; [by left| |by auto].
      rewrite Hc in He'. apply elem_of_cons in He' as [->|He']; [done|]. right. left. by exists e'.
  - destruct Hb. unfold len in *. rewrite Hp in bounded_files0. cbn [length] in bounded_files0.
    split; [change (reserved w1) with (reserved w - e_bytes e)| |done];
      change (config w1) with (config w); unfold len; lia.
Qed.

Lemma make_room_ok o entries w :
  sound w → entries = completed w →
  let '(w', r) := make_room o entries w in
  sound w' ∧ config w' = config w ∧ active w' = active w ∧ captures w' = captures w ∧
  cleanup_failed w' = cleanup_failed w ∧ (∃ gone, completed w = gone ++ completed w') ∧
  contents (disk w') = contents (disk w) ∧
  match r with Ok _ => full w' = false | Err _ => True | Panic => False end.
Proof.
  revert w. induction entries as [|e entries IH]; intros w Hs He; cbn [make_room];
    (destruct (full w) eqn:Hfull; [|split_and!; try done; by exists []]).
  - unfold evict. rewrite <- He. split_and!; try done. by exists [].
  - pose proof (evict_ok o w Hs) as Hev.
    destruct (evict o w) as [w1|err|]; [|split_and!; try done; by exists []|done].
    destruct Hev as (Hs1 & Hcfg & Ha & Hc & Hf & Hcomp & Hcont). rewrite <- He in Hcomp. cbn in Hcomp.
    specialize (IH w1 Hs1 (eq_sym Hcomp)). destruct (make_room o entries w1) as [w' r].
    destruct IH as (? & ? & ? & ? & ? & (gone & Hgone) & ? & ?). split_and!; try congruence; try done.
    exists (e :: gone). by rewrite <- He, <- Hcomp, Hgone.
Qed.

Lemma create_ok o d n d' i :
  create o d n = Ok (d', i) →
  i = next_inode d ∧ names d !! n = None ∧ names d' = <[n := i]> (names d) ∧
  contents d' = <[i := []]> (contents d) ∧ next_inode d' = i + 1.
Proof.
  unfold create. destruct (open_fails o); [done|]. case_bool_decide as Hn; [done|].
  intros [= <- <-]. split_and!; try done. by apply eq_None_not_Some.
Qed.

Lemma begin_ok o w id c :
  sound w → good_config (config w) →
  let '(w', r) := begin o w id c in
  sound w' ∧ config w' = config w ∧ r ≠ Panic.
Proof.
  intros Hs Hcfg. unfold begin. destruct (cleanup_failed w) eqn:Hcf; [done|].
  destruct (negb (is_pending w c)); [done|].
  destruct (_ || _) eqn:Hknown; [done|]. apply orb_false_iff in Hknown as [Hk _].
  apply bool_decide_eq_false in Hk. pose proof (make_room_ok o (completed w) w Hs eq_refl) as Hroom.
  destruct (make_room o (completed w) w) as [w1 r].
  destruct Hroom as ((orphans & Hacc & Hb) & Hcfg1 & Ha1 & _ & Hcf1 & _ & _ & Hr).
  assert (sound w1) as Hs1 by (by exists orphans).
  destruct r as [u|e|]; [|done|done].
  destruct (create o (disk w1) (Part id)) as [[d i]|e|] eqn:Hcreate; [|done|].
  2:{ unfold create in Hcreate. by destruct (_ || _). }
  split_and!; [|done|done]. apply create_ok in Hcreate as (Hi & Hn & Hnames & Hcont & Hnext).
  set (a := {| a_inode := i; a_bytes := 0; a_state := c |}). set (w' := set_active _ _).
  assert (charges w' orphans ≡ₚ (i, maximum_stream_bytes (config w1)) :: charges w1 orphans) as Hp.
  { unfold charges, w'. cbn. rewrite Ha1, map_to_list_insert by by apply eq_None_not_Some.
    rewrite <- Ha1. done. }
  assert (orphans = []) as ->.
  { destruct orphans; [done|]. rewrite (bounded_failed w1 _ Hb) in Hcf1 by done. congruence. }
  unfold full in Hr. apply orb_false_iff in Hr as [Hr1%Z.ltb_ge Hr2%Z.leb_gt].
  destruct Hcfg as [Hstream Hfiles]. rewrite <- Hcfg1 in Hstream, Hfiles.
  assert (∀ j c, (j, c) ∈ charges w1 [] → j ≠ i) as Hfresh.
  { intros j d' Hj. apply (acc_sizes w1 [] Hacc) in Hj as [_ ?]. lia. }
  assert (∀ j, j ≠ i → size_of (disk w') j = size_of (disk w1) j) as Hsize.
  { intros j Hj. unfold size_of, w'. cbn. by rewrite Hcont, lookup_insert_ne. }
  exists []. split.
  - destruct Hacc. split; rewrite ?Hp.
    + cbn. apply NoDup_cons. split; [|done]. intros ([j d'] & -> & Hj)%list_elem_of_fmap.
      by apply Hfresh in Hj.
    + cbn. rewrite zsum_cons. cbn. lia.
    + intros j d'. rewrite Hp. intros [[= -> ->]|Hj]%elem_of_cons.
      * unfold size_of, w'. cbn. rewrite Hcont, lookup_insert_eq, Hnext. cbn. unfold len. cbn. lia.
      * rewrite Hsize by by eapply Hfresh. apply acc_sizes0 in Hj as [? ?]. cbn. rewrite Hnext. lia.
    + cbn. rewrite Hnames. intros id' a' [[<- <-]|[Hne Ha']]%lookup_insert_Some.
      * rewrite lookup_insert_eq. split; [done|]. unfold size_of, w'. cbn. by rewrite Hcont, lookup_insert_eq.
      * destruct (acc_active0 id' a' Ha') as [Hna Hsz]. rewrite lookup_insert_ne by congruence.
        split; [done|]. rewrite <- Hsz. apply Hsize. intros Hj. eapply (Hfresh (a_inode a')); [|done].
        unfold charges. apply elem_of_app. left.
        apply (list_elem_of_fmap_2 (λ x, (a_inode x.2, maximum_stream_bytes (config w1))) _ (id', a')).
        by apply elem_of_map_to_list.
    + cbn. rewrite Hnames. intros e He. destruct (acc_completed0 e He) as [Hne Hsz].
      rewrite lookup_insert_ne by done. split; [done|]. rewrite <- Hsz. apply Hsize.
      intros Hj. eapply (Hfresh (e_inode e)); [|done]. unfold charges. rewrite !elem_of_app. right. left.
      by apply (list_elem_of_fmap_2 (λ e, (e_inode e, e_bytes e))).
    + cbn. rewrite Hnames. intros n j [[<- <-]|[Hne Hnj]]%lookup_insert_Some.
      * left. exists id, a. by rewrite lookup_insert_eq.
      * destruct (acc_named0 n j Hnj) as [(id' & a' & -> & Ha' & <-)|[?|?]]; [|by auto|by auto].
        left. exists id', a'. rewrite lookup_insert_ne by congruence. done.
    + done.
  - destruct Hb. split; cbn; [lia| |done]. unfold len in *. rewrite Hp. cbn.
    unfold charges in *. rewrite !length_app, !length_fmap, length_map_to_list in *. cbn in *. lia.
Qed.

Lemma accounted_same w w' orphans :
  config w' = config w → disk w' = disk w → active w' = active w → completed w' = completed w →
  reserved w' = reserved w → accounted w orphans → accounted w' orphans.
Proof.
  intros Hcfg Hd Ha Hc Hr Hacc. eapply accounted_perm; [|done|done| |done| |done|exact Hacc].
  - unfold charges. by rewrite Hcfg, Ha, Hc.
  - by rewrite Ha.
  - rewrite Ha. auto.
Qed.

Lemma bounded_less w w' orphans orphans' :
  config w' = config w → reserved w' ≤ reserved w →
  (length (charges w' orphans') ≤ length (charges w orphans))%nat →
  (orphans' ≠ [] → cleanup_failed w' = true) → bounded w orphans → bounded w' orphans'.
Proof. intros Hcfg Hr Hl Hf []. split; rewrite ?Hcfg; [lia| |done]. unfold len in *. lia. Qed.

(** The charge of an active capture covers the stream limit. *)
Lemma active_charge w orphans id a :
  accounted w orphans → active w !! id = Some a →
  checked_sub (reserved w) (maximum_stream_bytes (config w)) =
  Some (reserved w - maximum_stream_bytes (config w)).
Proof.
  intros Hacc Ha. destruct (charges_fewer w orphans _ _ _ Hacc (charges_active w orphans id a Ha)).
  unfold checked_sub. by destruct (Z.leb_spec (maximum_stream_bytes (config w)) (reserved w)); [|lia].
Qed.

Lemma discard_ok o w id :
  sound w → good_config (config w) →
  ∃ w', discard o w id = Some w' ∧ sound w' ∧ config w' = config w ∧
    active w' = delete id (active w) ∧ completed w' = completed w ∧
    contents (disk w') = contents (disk w) ∧
    captures w' = match active w !! id with
                  | Some a => <[a_state a := Unavailable]> (captures w)
                  | None => captures w
                  end.
Proof.
  intros (orphans & Hacc & Hb) [Hstream _]. unfold discard.
  destruct (active w !! id) as [a|] eqn:Ha.
  2:{ exists w. split_and!; try done; [by exists orphans|]. by rewrite delete_id. }
  destruct (orphan_ok w orphans id a Hacc Ha) as (Hacc1 & Hperm & Hall).
  pose proof (active_charge w orphans id a Hacc Ha) as Hsub.
  assert (length (charges (set_active w (delete id (active w))) (a_inode a :: orphans)) =
          length (charges w orphans)) as Hlen by by rewrite Hperm.
  set (w1 := set_capture (set_active w (delete id (active w))) (a_state a) Unavailable).
  assert (accounted w1 (a_inode a :: orphans)) as Hacc2 by by eapply accounted_same, Hacc1.
  unfold remove. destruct (unlink_fails o (Part id)).
  - exists (set_failed w1). split_and!; try done. exists (a_inode a :: orphans). split.
    + by eapply accounted_same, Hacc2.
    + apply (bounded_less w _ orphans); [done|done| |done|exact Hb]. by rewrite <- Hlen.
  - change (reserved w1) with (reserved w). change (config w1) with (config w). rewrite Hsub.
    eexists. split; [done|]. split_and!; try done. exists orphans. split.
    + apply (forget_ok (set_disk w1 (unlinked (disk w1) (Part id))) _ (a_inode a)).
      * apply unlink_ok; [done| |done]. cbn. intros id' [a' [Hne _]%lookup_delete_Some]. congruence.
      * cbn. intros n [Hne Hn]%lookup_delete_Some. by apply Hall in Hn.
    + apply (bounded_less w _ orphans); [done|cbn; lia| |apply (bounded_failed w _ Hb)|exact Hb].
      rewrite <- Hlen, charges_orphan. cbn. unfold charges. cbn. lia.
Qed.

Lemma link_some o d old new d' :
  link o d old new = Some d' →
  ∃ i, names d !! old = Some i ∧ names d !! new = None ∧ d' = linked_as d new i.
Proof.
  unfold link. destruct (names d !! old) as [i|]; [|done]. destruct (link_fails o); [done|].
  case_bool_decide as Hn; [done|]. intros [= <-]. exists i. split_and!; try done.
  by apply eq_None_not_Some.
Qed.

(** The ends of [finish], for a worker that differs from [w] by a file [i] without an owner. *)
Record loosened (w w' : Worker) (orphans : list Z) (i : Z) : Prop := {
  loose_accounted : accounted w' (i :: orphans);
  loose_config : config w' = config w;
  loose_reserved : reserved w' = reserved w;
  loose_failed : cleanup_failed w' = cleanup_failed w;
  loose_length : length (charges w' (i :: orphans)) = length (charges w orphans)
}.

Lemma loosened_capture w w' w'' orphans i :
  loosened w w' orphans i →
  config w'' = config w' → disk w'' = disk w' → active w'' = active w' →
  completed w'' = completed w' → reserved w'' = reserved w' →
  cleanup_failed w'' = cleanup_failed w' → loosened w w'' orphans i.
Proof.
  intros [] Hcfg Hd Ha Hc Hr Hf. split; try congruence.
  - by eapply accounted_same, loose_accounted0.
  - rewrite <- loose_length0. unfold charges. by rewrite Hcfg, Ha, Hc.
Qed.

Lemma close_failed w w' orphans i : bounded w orphans → loosened w w' orphans i → sound (set_failed w').
Proof.
  intros Hb []. exists (i :: orphans). split.
  - by eapply accounted_same, loose_accounted0.
  - apply (bounded_less w _ orphans); [done|cbn; lia| |done|done].
    change (charges (set_failed w') (i :: orphans)) with (charges w' (i :: orphans)). lia.
Qed.

Lemma close_gone w w' orphans i :
  bounded w orphans → loosened w w' orphans i → (∀ n, names (disk w') !! n ≠ Some i) →
  0 ≤ maximum_stream_bytes (config w) →
  sound (set_reserved w' (reserved w' - maximum_stream_bytes (config w'))).
Proof.
  intros Hb [] Hno Hs. exists orphans. split; [by apply (forget_ok _ _ i)|].
  apply (bounded_less w _ orphans); [done|cbn; rewrite loose_config0; lia| | |done].
  - rewrite <- loose_length0, charges_orphan. cbn. unfold charges. cbn. lia.
  - cbn. rewrite loose_failed0. apply (bounded_failed w _ Hb).
Qed.

Lemma close_published w w' orphans i id n :
  bounded w orphans → loosened w w' orphans i →
  names (disk w') !! Log id = Some i → size_of (disk w') i = n →
  (∀ m, names (disk w') !! m = Some i → m = Log id) → id ∉ e_id <$> completed w' →
  sound (set_reserved
    (set_completed w' (completed w' ++ [{| e_id := id; e_bytes := n; e_inode := i |}]))
    (reserved w' - maximum_stream_bytes (config w') + n)).
Proof.
  intros Hb [] Hname Hsize Hall Hid. exists orphans. split; [by apply publish_ok|].
  destruct (acc_sizes _ _ loose_accounted0 i (maximum_stream_bytes (config w'))) as [Hle _].
  { rewrite charges_orphan. by left. }
  apply (bounded_less w _ orphans); [done|cbn; lia| | |done].
  - rewrite <- loose_length0, charges_orphan. unfold charges. cbn.
    rewrite !length_app, !length_fmap, length_app. cbn. lia.
  - cbn. rewrite loose_failed0. apply (bounded_failed w _ Hb).
Qed.

Lemma loosened_unlink w w' orphans i n :
  loosened w w' orphans i → (∀ id, is_Some (active w' !! id) → n ≠ Part id) →
  (∀ e, e ∈ completed w' → n ≠ Log (e_id e)) →
  loosened w (set_disk w' (unlinked (disk w') n)) orphans i.
Proof. intros [] Ha Hc. split; try done. by apply unlink_ok. Qed.

Lemma loosened_link w w' orphans i n :
  loosened w w' orphans i → names (disk w') !! n = None →
  loosened w (set_disk w' (linked_as (disk w') n i)) orphans i.
Proof. intros [] Hn. split; try done. apply link_ok; [done|done|by left]. Qed.

Lemma try_remove_result o d n :
  try_remove o d n = (unlinked d n, true) ∨ try_remove o d n = (d, false).
Proof. unfold try_remove, remove. destruct (unlink_fails o n); [by right|by left]. Qed.

(** What [settle] leaves as it was. *)
Lemma settle_fields o w d id a published :
  let w' := settle (meanwhile o (set_disk w d) (a_state a)) id a published in
  config w' = config w ∧ disk w' = d ∧ active w' = active w ∧ reserved w' = reserved w ∧
  cleanup_failed w' = cleanup_failed w ∧
  completed w' = completed w ++
    (if published then [{| e_id := id; e_bytes := a_bytes a; e_inode := a_inode a |}] else []).
Proof.
  cbn. unfold settle, meanwhile, abandon. destruct (abandoned_meanwhile o), published; cbn;
    repeat case_match; cbn; rewrite ?app_nil_r; done.
Qed.

Lemma loosened_settle o w w1 d d' orphans i id a :
  loosened w (set_disk w1 d') orphans i →
  loosened w (set_disk (settle (meanwhile o (set_disk w1 d) (a_state a)) id a false) d') orphans i.
Proof.
  intros Hl. destruct (settle_fields o w1 d id a false) as (? & ? & ? & ? & ? & Hc).
  rewrite app_nil_r in Hc. by eapply loosened_capture.
Qed.

(** The two ends of an unpublished capture. *)
Lemma end_failed w w' orphans i :
  bounded w orphans → loosened w w' orphans i →
  ∃ w'', Some (set_failed w') = Some w'' ∧ sound w'' ∧ config w'' = config w.
Proof. intros Hb Hl. eexists. split_and!; [done|by eapply close_failed|apply Hl]. Qed.

Lemma end_gone w w' orphans i :
  bounded w orphans → loosened w w' orphans i → (∀ n, names (disk w') !! n ≠ Some i) →
  0 ≤ maximum_stream_bytes (config w) →
  checked_sub (reserved w) (maximum_stream_bytes (config w)) =
    Some (reserved w - maximum_stream_bytes (config w)) →
  ∃ w'', (λ r, set_reserved w' r) <$> checked_sub (reserved w') (maximum_stream_bytes (config w')) =
    Some w'' ∧ sound w'' ∧ config w'' = config w.
Proof.
  intros Hb Hl Hno Hs Hsub. destruct (Hl) as [_ Hcfg Hr _ _]. rewrite Hr, Hcfg, Hsub. cbn.
  eexists. split_and!; [done| |by cbn]. rewrite <- Hr, <- Hcfg. by eapply close_gone.
Qed.

(** A capture that was linked under its final name and lost its partial one. *)
Lemma end_linked o w w1 orphans id a :
  let d := unlinked (linked_as (disk w1) (Log id) (a_inode a)) (Part id) in
  let w3 := meanwhile o (set_disk w1 d) (a_state a) in
  let w4 := settle w3 id a true in
  bounded w orphans → loosened w (set_disk w1 d) orphans (a_inode a) →
  (∀ n, names d !! n = Some (a_inode a) → n = Log id) → id ∉ e_id <$> completed w1 →
  size_of d (a_inode a) = a_bytes a →
  checked_sub (reserved w) (maximum_stream_bytes (config w)) =
    Some (reserved w - maximum_stream_bytes (config w)) →
  ∃ w'', (λ r, set_reserved (set_disk w4 (disk w4)) (r + a_bytes a)) <$>
           checked_sub (reserved (set_disk w4 (disk w4)))
             (maximum_stream_bytes (config (set_disk w4 (disk w4)))) = Some w'' ∧
    sound w'' ∧ config w'' = config w.
Proof.
  intros d w3 w4 Hb Hl Hall Hid Hsize Hsub. destruct (Hl) as [_ Hcfg Hr Hf _].
  destruct (settle_fields o w1 d id a true) as (Hcfg4 & Hd4 & Ha4 & Hr4 & Hf4 & Hc4).
  fold w3 w4 in Hcfg4, Hd4, Ha4, Hr4, Hf4, Hc4. clearbody w4. cbn in Hcfg, Hr, Hf.
  cbn [config reserved set_disk]. rewrite Hr4, Hcfg4, Hr, Hcfg, Hsub. cbn [fmap option_fmap option_map].
  eexists. split_and!; [done| |cbn; congruence].
  pose proof (close_published w (set_disk w1 d) orphans (a_inode a) id (a_bytes a) Hb Hl) as Hp.
  destruct Hp as (os & Hacc & Hbd); [by cbn; rewrite lookup_delete_ne, lookup_insert_eq|done|done|done|].
  exists os. split.
  - eapply accounted_same, Hacc; cbn; try congruence.
  - eapply bounded_less, Hbd; cbn; try congruence.
    + rewrite Hr, Hcfg. lia.
    + unfold charges. cbn. by rewrite Hcfg4, Ha4, Hc4.
    + rewrite Hf4. apply (bounded_failed _ _ Hbd).
Qed.

(** [conclude] when the file was not linked: only its partial name is left. *)
Lemma conclude_unlinked o w w1 orphans id a :
  bounded w orphans → loosened w w1 orphans (a_inode a) → 0 ≤ maximum_stream_bytes (config w) →
  (∀ n, names (disk w1) !! n = Some (a_inode a) → n = Part id) →
  (∀ id', is_Some (active w1 !! id') → Part id ≠ Part id') →
  checked_sub (reserved w) (maximum_stream_bytes (config w)) =
    Some (reserved w - maximum_stream_bytes (config w)) →
  ∃ w', conclude o w1 id a false (disk w1) = Some w' ∧ sound w' ∧ config w' = config w.
Proof.
  intros Hb Hl Hs Hall Hnotact Hsub. unfold conclude.
  destruct (try_remove_result o (disk w1) (Part id)) as [-> | ->]; cbn [andb negb orb].
  - apply (end_gone w _ orphans (a_inode a)); [done| | |done|done].
    + destruct (settle_fields o w1 (unlinked (disk w1) (Part id)) id a false) as (_ & -> & _).
      by apply loosened_settle, loosened_unlink.
    + destruct (settle_fields o w1 (unlinked (disk w1) (Part id)) id a false) as (_ & -> & _).
      cbn. intros n [Hne Hn]%lookup_delete_Some. by apply Hall in Hn.
  - apply (end_failed w _ orphans (a_inode a)); [done|].
    destruct (settle_fields o w1 (disk w1) id a false) as (_ & -> & _).
    apply loosened_settle. by eapply loosened_capture.
Qed.

(** [conclude] when it was: it has both names. *)
Lemma conclude_linked o w w1 orphans id a :
  let d := linked_as (disk w1) (Log id) (a_inode a) in
  bounded w orphans → loosened w (set_disk w1 d) orphans (a_inode a) →
  0 ≤ maximum_stream_bytes (config w) →
  (∀ n, names (disk w1) !! n = Some (a_inode a) → n = Part id) →
  (∀ id', is_Some (active w1 !! id') → Part id ≠ Part id') → id ∉ e_id <$> completed w1 →
  size_of (disk w1) (a_inode a) = a_bytes a →
  checked_sub (reserved w) (maximum_stream_bytes (config w)) =
    Some (reserved w - maximum_stream_bytes (config w)) →
  ∃ w', conclude o w1 id a true d = Some w' ∧ sound w' ∧ config w' = config w.
Proof.
  intros d Hb Hl Hs Hall Hnotact Hid Hsize Hsub.
  assert (∀ n, names (unlinked d (Part id)) !! n = Some (a_inode a) → n = Log id) as Hlog.
  { cbn. intros n [Hne [[? ?]|[_ Hn]]%lookup_insert_Some]%lookup_delete_Some; [done|].
    apply Hall in Hn. congruence. }
  assert (∀ e, e ∈ completed w1 → Log id ≠ Log (e_id e)) as Hlogs.
  { intros e He [= Heq]. apply Hid. rewrite Heq. by apply list_elem_of_fmap_2. }
  unfold conclude. destruct (try_remove_result o d (Part id)) as [-> | ->]; cbn [andb negb orb].
  - pose proof (loosened_unlink w (set_disk w1 d) orphans (a_inode a) (Part id) Hl Hnotact ltac:(done)) as Hl2.
    change (loosened w (set_disk w1 (unlinked d (Part id))) orphans (a_inode a)) in Hl2.
    destruct (is_pending _ _); [by apply (end_linked o w w1 orphans id a)|].
    pose proof (loosened_settle o w w1 (unlinked d (Part id)) _ orphans (a_inode a) id a Hl2) as Hl3.
    destruct (settle_fields o w1 (unlinked d (Part id)) id a false) as (_ & -> & Ha & _ & _ & Hc).
    rewrite app_nil_r in Hc.
    destruct (try_remove_result o (unlinked d (Part id)) (Log id)) as [-> | ->];
      [|by eapply end_failed].
    apply (end_gone w _ orphans (a_inode a)); [done| | |done|done].
    + apply (loosened_unlink w _ _ _ (Log id) Hl3); [done|]. cbn [completed set_disk]. by rewrite Hc.
    + cbn. intros n [Hne Hn]%lookup_delete_Some. by apply Hlog in Hn.
  - pose proof (loosened_settle o w w1 d d orphans (a_inode a) id a Hl) as Hl3.
    destruct (settle_fields o w1 d id a false) as (_ & -> & _ & _ & _ & Hc). rewrite app_nil_r in Hc.
    destruct (try_remove_result o d (Log id)) as [-> | ->]; [|by eapply end_failed].
    eapply end_failed; [done|].
    apply (loosened_unlink w _ _ _ (Log id) Hl3); [done|]. cbn [completed set_disk]. by rewrite Hc.
Qed.

Lemma finish_ok o w id :
  sound w → good_config (config w) →
  ∃ w', finish o w id = Some w' ∧ sound w' ∧ config w' = config w.
Proof.
  intros (orphans & Hacc & Hb) [Hstream _]. unfold finish.
  destruct (active w !! id) as [a|] eqn:Ha; [|exists w; split_and!; try done; by exists orphans].
  destruct (orphan_ok w orphans id a Hacc Ha) as (Hacc1 & Hperm & Hall).
  pose proof (active_charge w orphans id a Hacc Ha) as Hsub.
  destruct (acc_active w orphans Hacc id a Ha) as [Hname Hsize].
  assert (loosened w (set_active w (delete id (active w))) orphans (a_inode a)) as Hl
    by (split; try done; by rewrite Hperm).
  assert (∀ id', is_Some (delete id (active w) !! id') → Part id ≠ Part id') as Hnotact
    by (intros id' [a' [Hne _]%lookup_delete_Some]; congruence).
  case_match eqn:Hlink.
  - assert (∃ i, names (disk w) !! Part id = Some i ∧ names (disk w) !! Log id = None ∧
      d = linked_as (disk w) (Log id) i) as (i & Hi & Hlog & ->).
    { destruct (_ && _); [|done]. by apply link_some in Hlink. }
    rewrite Hname in Hi. injection Hi as <-.
    apply (conclude_linked o w (set_active w (delete id (active w))) orphans id a);
      try done; try lia; [by apply loosened_link|].
    intros (e & -> & He)%list_elem_of_fmap. apply (acc_completed w orphans Hacc) in He as [He _]. congruence.
  - apply (conclude_unlinked o w _ orphans id a); try done. lia.
Qed.

(** The worker after bytes arrived in the file of an active capture. *)
Definition grown (w : Worker) (id : text) (a : Active) (bytes : list Z) : Worker :=
  set_active
    (set_disk w {| names := names (disk w);
       contents := <[a_inode a := default [] (contents (disk w) !! a_inode a) ++ bytes]> (contents (disk w));
       next_inode := next_inode (disk w) |})
    (<[id := {| a_inode := a_inode a; a_bytes := a_bytes a + len bytes; a_state := a_state a |}]>
       (active w)).

Lemma grown_charges w orphans id a bytes :
  active w !! id = Some a → charges (grown w id a bytes) orphans ≡ₚ charges w orphans.
Proof.
  intros Ha. rewrite (charges_active w orphans id a Ha).
  rewrite (charges_active (grown w id a bytes) orphans id
    {| a_inode := a_inode a; a_bytes := a_bytes a + len bytes; a_state := a_state a |})
    by (cbn; apply lookup_insert_eq).
  unfold charges. cbn. by rewrite delete_insert_eq.
Qed.

Lemma grown_size w id a bytes i :
  size_of (disk (grown w id a bytes)) i =
  if decide (i = a_inode a) then size_of (disk w) i + len bytes else size_of (disk w) i.
Proof.
  unfold size_of, grown. cbn. case_decide as Hi; [subst i|by rewrite lookup_insert_ne].
  rewrite lookup_insert_eq. cbn. unfold len. rewrite length_app. lia.
Qed.

(** The files of active captures are different, and none is completed. *)
Lemma inode_owner w orphans id a :
  accounted w orphans → active w !! id = Some a →
  (∀ id' a', active w !! id' = Some a' → a_inode a' = a_inode a → id' = id) ∧
  (∀ e, e ∈ completed w → e_inode e ≠ a_inode a) ∧
  (∀ c, (a_inode a, c) ∈ charges w orphans → c = maximum_stream_bytes (config w)).
Proof.
  intros Hacc Ha. destruct (orphan_ok w orphans id a Hacc Ha) as (_ & _ & Hall). split_and!.
  - intros id' a' Ha' Heq. destruct (acc_active w orphans Hacc id' a' Ha') as [Hn _].
    rewrite Heq in Hn. apply Hall in Hn. congruence.
  - intros e He Heq. destruct (acc_completed w orphans Hacc e He) as [Hn _]. rewrite Heq in Hn.
    by apply Hall in Hn.
  - pose proof (acc_nodup w orphans Hacc) as Hnd. intros c.
    rewrite (charges_active w orphans id a Ha) in Hnd |- *. cbn in Hnd. apply NoDup_cons in Hnd as [Hno _].
    intros [[= ->]|Hin]%elem_of_cons; [done|]. destruct Hno.
    by apply (list_elem_of_fmap_2 fst _ (a_inode a, c)).
Qed.

Lemma grown_ok w id a bytes :
  sound w → active w !! id = Some a → a_bytes a + len bytes ≤ maximum_stream_bytes (config w) →
  sound (grown w id a bytes).
Proof.
  intros (orphans & Hacc & Hb) Ha Hfit. exists orphans.
  destruct (inode_owner w orphans id a Hacc Ha) as (Hown & Hcomp & Hcharge).
  destruct (acc_active w orphans Hacc id a Ha) as [Hname Hsz].
  pose proof (grown_charges w orphans id a bytes Ha) as Hp. split.
  - destruct Hacc. split; rewrite ?Hp; try done.
    + intros i c. rewrite Hp, grown_size. intros Hi. destruct (acc_sizes0 i c Hi) as [? ?].
      case_decide as Hia; [subst i|done]. rewrite (Hcharge c Hi). split; [lia|done].
    + intros id' a'. cbn [active grown set_active]. intros [[<- <-]|[Hne Ha']]%lookup_insert_Some.
      * cbn [a_inode a_bytes]. rewrite grown_size, decide_True by done. split; [done|lia].
      * destruct (acc_active0 id' a' Ha') as [? ?]. rewrite grown_size, decide_False; [done|].
        intros Heq. by apply (Hown id' a' Ha') in Heq.
    + intros e He. rewrite grown_size, decide_False by by apply Hcomp. by apply acc_completed0.
    + intros n i Hn. destruct (acc_named0 n i Hn) as [(id' & a' & -> & Ha' & <-)|[?|?]]; [|by auto..].
      left. destruct (decide (id' = id)) as [->|Hne].
      * simplify_eq. exists id. eexists. cbn. by rewrite lookup_insert_eq.
      * exists id', a'. cbn. by rewrite lookup_insert_ne.
  - destruct Hb. split; [done| |done]. unfold len in *. by rewrite Hp.
Qed.

Lemma write_cases o w id bytes :
  sound w → good_config (config w) →
  (active w !! id = None ∧ write o w id bytes = Some w) ∨
  (∃ a, active w !! id = Some a ∧ sound (grown w id a bytes) ∧
     write o w id bytes = Some (grown w id a bytes)) ∨
  (∃ a w', active w !! id = Some a ∧ write o w id bytes = discard o w' id ∧
     (w' = w ∨ ∃ bs, w' = grown w id a bs) ∧ sound w').
Proof.
  intros Hs (_ & _ & Hmax). unfold write. destruct (active w !! id) as [a|] eqn:Ha; [|by auto].
  right. case_match eqn:Hcmp; [right; exists a, w; auto|]. apply Z.ltb_ge in Hcmp.
  assert (a_bytes a + len bytes ≤ maximum_stream_bytes (config w)) as Hfit.
  { unfold saturating_add, MAXIMUM_COMPLETED_OUTPUT_BYTES, u64_max in *. lia. }
  unfold write_all. destruct (write_fails o) as [k|].
  - right. exists a, (grown w id a (take k bytes)). split_and!; try done; [|by eauto|].
    + unfold discard. cbn [active set_disk grown set_active]. rewrite Ha, lookup_insert_eq. cbn.
      by rewrite delete_insert_eq.
    + apply grown_ok; try done. unfold len in *. rewrite length_take. lia.
  - left. exists a. split_and!; [done|by apply grown_ok|done].
Qed.

Lemma discard_all_ok o w ids :
  sound w → good_config (config w) →
  ∃ w', discard_all o w ids = Some w' ∧ sound w' ∧ config w' = config w.
Proof.
  revert w. induction ids as [|id ids IH]; intros w Hs Hcfg; cbn; [eauto|].
  destruct (discard_ok o w id Hs Hcfg) as (w1 & -> & Hs1 & Hcfg1 & _).
  destruct (IH w1 Hs1) as (w2 & ? & ? & ?); [by rewrite Hcfg1|]. exists w2. split_and!; congruence.
Qed.

Lemma sound_capture w c s : sound w → sound (set_capture w c s).
Proof.
  intros (orphans & Hacc & Hb). exists orphans. split; [by eapply accounted_same, Hacc|].
  by eapply bounded_less, Hb; [done|done|done|apply Hb].
Qed.

Lemma execute_ok o w c :
  sound w → good_config (config w) →
  ∃ w', execute o w c = Some w' ∧ sound w' ∧ config w' = config w.
Proof.
  intros Hs Hcfg. destruct c as [id n|id bytes|id|id offset limit]; cbn [execute]; [| | |eauto].
  - pose proof (begin_ok o w id n Hs Hcfg) as Hb. destruct (begin o w id n) as [w' [u|e|]].
    + destruct Hb as (? & ? & _). eauto.
    + destruct Hb as (? & ? & _). eexists. split_and!; [done|by apply sound_capture|done].
    + by destruct Hb as (_ & _ & []).
  - destruct (write_cases o w id bytes Hs Hcfg) as [[_ ->]|[(a & _ & Hg & ->)|(a & w' & _ & -> & Hw' & Hs')]];
      [eauto|eauto|].
    assert (config w' = config w) as Hcfg' by (by destruct Hw' as [->|(bs & ->)]).
    destruct (discard_ok o w' id Hs') as (w2 & ? & ? & ? & _); [by rewrite Hcfg'|].
    exists w2. split_and!; congruence.
  - by apply finish_ok.
Qed.

Lemma occur_ok w e :
  sound w → good_config (config w) → ∃ w', occur w e = Some w' ∧ sound w' ∧ config w' = config w.
Proof.
  intros Hs Hcfg. destruct e as [c|c|o c]; cbn [occur].
  - eexists. split; [done|]. case_bool_decide; [done|]. split; [by apply sound_capture|done].
  - eexists. split; [done|]. unfold abandon. case_match; [|done]. split; [by apply sound_capture|done].
  - unfold handle. destruct (discard_all_ok o w (abandoned w) Hs Hcfg) as (w1 & -> & Hs1 & Hcfg1).
    destruct (execute_ok o w1 c Hs1) as (w2 & ? & ? & ?); [by rewrite Hcfg1|].
    exists w2. split_and!; congruence.
Qed.

Lemma cache_run_ok w es :
  sound w → good_config (config w) → ∃ w', run w es = Some w' ∧ sound w' ∧ config w' = config w.
Proof.
  revert w. induction es as [|e es IH]; intros w Hs Hcfg; cbn; [eauto|].
  destruct (occur_ok w e Hs Hcfg) as (w1 & -> & Hs1 & Hcfg1).
  destruct (IH w1 Hs1) as (w2 & ? & ? & ?); [by rewrite Hcfg1|]. exists w2. split_and!; congruence.
Qed.

(** ** What is served

    The history of an identity: the bytes that were written since it began, and whether it
    was finished. *)
Notation streams := (gmap text (list Z * bool)).

Definition record (h : streams) (e : event) : streams :=
  match e with
  | Handled _ (Begin id _) => <[id := ([], false)]> h
  | Handled _ (Write id bytes) =>
      alter (λ s : list Z * bool, if s.2 then s else (s.1 ++ bytes, false)) id h
  | Handled _ (Finish id) => alter (λ s : list Z * bool, (s.1, true)) id h
  | _ => h
  end.
Definition history (es : list event) : streams := foldl record ∅ es.

(** The identities that began, in order. *)
Definition begun (es : list event) : list text :=
  omap (λ e, match e with Handled _ (Begin id _) => Some id | _ => None end) es.

(** Active files hold what was written so far, completed ones all of it. *)
Record served (w : Worker) (h : streams) : Prop := {
  served_active id a : active w !! id = Some a →
    ∃ bs, h !! id = Some (bs, false) ∧ contents (disk w) !! a_inode a = Some bs;
  served_completed e : e ∈ completed w →
    ∃ bs, h !! e_id e = Some (bs, true) ∧ contents (disk w) !! e_inode e = Some bs ∧
      e_bytes e = len bs ∧ len bs ≤ maximum_stream_bytes (config w)
}.

(** Removing captures and completed entries keeps the rest. *)
Lemma served_less w w' h :
  config w' = config w → contents (disk w') = contents (disk w) →
  active w' ⊆ active w → (∀ e, e ∈ completed w' → e ∈ completed w) →
  served w h → served w' h.
Proof.
  intros Hcfg Hd Ha Hc []. split; rewrite ?Hd, ?Hcfg; [|by auto].
  intros id a Hid. apply served_active0. by eapply lookup_weaken.
Qed.

(** A change of the history of an identity that is not active. *)
Lemma served_change w h h' id :
  (∀ id', id' ≠ id → h' !! id' = h !! id') →
  (∀ bs, h !! id = Some (bs, true) → h' !! id = Some (bs, true)) →
  active w !! id = None → served w h → served w h'.
Proof.
  intros Hne Heq Hid []. split.
  - intros id' a Ha. rewrite Hne by congruence. auto.
  - intros e He. destruct (served_completed0 e He) as (bs & Hh & ?). exists bs.
    destruct (decide (e_id e = id)) as [Hi|Hi]; [|by rewrite Hne]. rewrite Hi in *. auto.
Qed.

Lemma served_history w h id f :
  (∀ bs, f (bs, true) = (bs, true)) → active w !! id = None → served w h → served w (alter f id h).
Proof.
  intros Hf. apply served_change; [by intros; apply lookup_alter_ne|].
  intros bs Hh. rewrite lookup_alter_eq, Hh. cbn. by rewrite Hf.
Qed.

(** A new history for an identity that was never begun. *)
Lemma served_fresh w h id s : h !! id = None → served w h → served w (<[id := s]> h).
Proof.
  intros Hid []. split.
  - intros id' a Ha. destruct (served_active0 id' a Ha) as (bs & Hh & ?). exists bs.
    rewrite lookup_insert_ne by congruence. done.
  - intros e He. destruct (served_completed0 e He) as (bs & Hh & ?). exists bs.
    rewrite lookup_insert_ne by congruence. done.
Qed.

Lemma begin_served o w id c h :
  sound w → served w h → h !! id = None → served (begin o w id c).1 (<[id := ([], false)]> h).
Proof.
  intros Hs Hsv Hid. unfold begin. destruct (cleanup_failed w); [by apply served_fresh|].
  destruct (negb (is_pending w c)); [by apply served_fresh|].
  destruct (_ || _); [by apply served_fresh|].
  pose proof (make_room_ok o (completed w) w Hs eq_refl) as Hroom.
  destruct (make_room o (completed w) w) as [w1 r].
  destruct Hroom as ((orphans & Hacc & _) & Hcfg & Ha & _ & _ & (gone & Hgone) & Hcont & _).
  assert (served w1 h) as Hsv1.
  { eapply served_less, Hsv; try done; [by rewrite Ha|]. intros e He. rewrite Hgone. set_solver. }
  destruct r; [|by apply served_fresh..].
  destruct (create o (disk w1) (Part id)) as [[d i]|e|] eqn:Hcreate; [|by apply served_fresh..].
  apply create_ok in Hcreate as (-> & _ & _ & Hd & _). cbn [fst].
  assert (∀ j k, (j, k) ∈ charges w1 orphans → j ≠ next_inode (disk w1)) as Hfresh.
  { intros j k Hj. apply (acc_sizes w1 orphans Hacc) in Hj as [_ ?]. lia. }
  destruct (served_fresh w1 h id ([], false) Hid Hsv1) as [Hact Hcomp]. split; cbn.
  - intros id' a' [[<- <-]|[Hne Ha']]%lookup_insert_Some.
    + exists []. cbn. by rewrite Hd, !lookup_insert_eq.
    + destruct (Hact id' a' Ha') as (bs & Hh & Hbs). exists bs. split; [done|].
      rewrite Hd, lookup_insert_ne; [done|]. intros Heq. eapply (Hfresh (a_inode a')); [|done].
      unfold charges. apply elem_of_app. left.
      apply (list_elem_of_fmap_2 (λ x, (a_inode x.2, maximum_stream_bytes (config w1))) _ (id', a')).
      by apply elem_of_map_to_list.
  - intros e He. destruct (Hcomp e He) as (bs & Hh & Hbs & ?). exists bs. split; [done|].
    rewrite Hd, lookup_insert_ne; [done|]. intros Heq. eapply (Hfresh (e_inode e)); [|done].
    unfold charges. rewrite !elem_of_app. right. left.
    by apply (list_elem_of_fmap_2 (λ e, (e_inode e, e_bytes e))).
Qed.

(** The bytes that arrive for a capture leave the other files as they are. *)
Lemma grown_served w id a bytes h :
  sound w → active w !! id = Some a → served w h →
  served (grown w id a bytes) (alter (λ s : list Z * bool, if s.2 then s else (s.1 ++ bytes, false)) id h).
Proof.
  intros (orphans & Hacc & _) Ha []. destruct (inode_owner w orphans id a Hacc Ha) as (Hown & Hcomp & _).
  destruct (served_active0 id a Ha) as (bs & Hbs & Hcont). split; cbn; rewrite Hcont; cbn.
  - intros id' a' [[<- <-]|[Hne Ha']]%lookup_insert_Some.
    + exists (bs ++ bytes). cbn. by rewrite lookup_alter_eq, Hbs, lookup_insert_eq.
    + rewrite lookup_alter_ne, lookup_insert_ne by (done || intros Heq; by apply Hne, eq_sym, (Hown id' a')).
      auto.
  - intros e He. rewrite lookup_insert_ne by (intros Heq; by apply (Hcomp e)).
    destruct (served_completed0 e He) as (bs' & Hh & ?). exists bs'. split; [|done].
    destruct (decide (e_id e = id)) as [Heq|Hne]; [|by rewrite lookup_alter_ne].
    rewrite Heq in Hh. congruence.
Qed.

Lemma try_remove_contents o d n : contents (try_remove o d n).1 = contents d.
Proof. by destruct (try_remove_result o d n) as [-> | ->]. Qed.

Lemma conclude_effect o w id a linked d w' :
  contents d = contents (disk w) → conclude o w id a linked d = Some w' →
  contents (disk w') = contents (disk w) ∧ active w' = active w ∧
  (completed w' = completed w ∨
   completed w' = completed w ++ [{| e_id := id; e_bytes := a_bytes a; e_inode := a_inode a |}]).
Proof.
  intros Hd. unfold conclude. pose proof (try_remove_contents o d (Part id)) as Hd2.
  destruct (try_remove o d (Part id)) as [d2 p]. cbn [fst] in Hd2.
  set (b := linked && p && _). clearbody b.
  destruct (settle_fields o w d2 id a b) as (_ & Hd3 & Ha3 & _ & _ & Hc3).
  set (w3 := settle _ _ _ _) in *. clearbody w3.
  assert (completed w3 = completed w ∨
    completed w3 = completed w ++ [{| e_id := id; e_bytes := a_bytes a; e_inode := a_inode a |}]) as Hc.
  { destruct b; [by right|left]. by rewrite app_nil_r in Hc3. }
  assert (contents (if negb linked || b then (disk w3, true) else try_remove o (disk w3) (Log id)).1 =
          contents (disk w)) as Hd4.
  { destruct (negb linked || b); cbn [fst]; rewrite ?try_remove_contents; congruence. }
  destruct (if negb linked || b then _ else _) as [d4 r]. cbn [fst] in Hd4.
  destruct (p && r).
  - destruct (checked_sub _ _); [|done]. cbn. by intros [= <-].
  - by intros [= <-].
Qed.

Lemma finish_served o w id h w' :
  sound w → good_config (config w) → served w h → finish o w id = Some w' →
  served w' (alter (λ s : list Z * bool, (s.1, true)) id h).
Proof.
  intros Hs Hcfg Hsv Hf. destruct (finish_ok o w id Hs Hcfg) as (w'' & Hf' & _ & Hcfg').
  rewrite Hf in Hf'. injection Hf' as <-. unfold finish in Hf.
  destruct (active w !! id) as [a|] eqn:Ha; [|injection Hf as <-; by apply served_history].
  assert (contents (disk w') = contents (disk w) ∧ active w' = delete id (active w) ∧
    (completed w' = completed w ∨
     completed w' = completed w ++ [{| e_id := id; e_bytes := a_bytes a; e_inode := a_inode a |}]))
    as (Hd & Hact & Hcomp).
  { case_match eqn:Hlink; apply conclude_effect in Hf; try done.
    destruct (_ && _); [|done]. by apply link_some in Hlink as (? & _ & _ & ->). }
  destruct Hs as (orphans & Hacc & _). destruct (acc_active w orphans Hacc id a Ha) as [_ Hsize].
  destruct (acc_sizes w orphans Hacc (a_inode a) (maximum_stream_bytes (config w))) as [Hle _].
  { rewrite (charges_active w orphans id a Ha). by left. }
  destruct Hsv. destruct (served_active0 id a Ha) as (bs & Hh & Hbs).
  assert (a_bytes a = len bs) as Hlen by (rewrite <- Hsize; unfold size_of; by rewrite Hbs).
  split; rewrite ?Hd, ?Hcfg', ?Hact.
  - intros id' a' [Hne Ha']%lookup_delete_Some. rewrite lookup_alter_ne by done. auto.
  - assert (∀ e, e ∈ completed w → ∃ bs, alter (λ s : list Z * bool, (s.1, true)) id h !! e_id e = Some (bs, true) ∧
      contents (disk w) !! e_inode e = Some bs ∧ e_bytes e = len bs ∧ len bs ≤ maximum_stream_bytes (config w)) as Hold.
    { intros e He. destruct (served_completed0 e He) as (bs' & Hh' & ?). exists bs'.
      rewrite lookup_alter_ne; [done|congruence]. }
    intros e He. destruct Hcomp as [Hcomp|Hcomp]; rewrite Hcomp in He; [by auto|].
    apply elem_of_app in He as [He| ->%list_elem_of_singleton]; [by auto|]. exists bs. cbn.
    rewrite lookup_alter_eq, Hh, Hbs. cbn. split_and!; [done|done|done|lia].
Qed.

Lemma discard_served o w id h w' :
  sound w → good_config (config w) → served w h → discard o w id = Some w' → served w' h.
Proof.
  intros Hs Hcfg Hsv Hd. destruct (discard_ok o w id Hs Hcfg) as (w'' & Hd' & _ & Hcfg' & Ha & Hc & Hcont & _).
  rewrite Hd in Hd'. injection Hd' as <-. eapply served_less, Hsv; try done.
  - rewrite Ha. apply delete_subseteq.
  - by rewrite Hc.
Qed.

Lemma discard_all_served o w ids h w' :
  sound w → good_config (config w) → served w h → discard_all o w ids = Some w' → served w' h.
Proof.
  revert w. induction ids as [|id ids IH]; intros w Hs Hcfg Hsv; cbn; [by intros [= <-]|].
  destruct (discard_ok o w id Hs Hcfg) as (w1 & Hd & Hs1 & Hcfg1 & _). rewrite Hd.
  intros Hw'. eapply IH; [done|by rewrite Hcfg1| |done]. by eapply (discard_served o w).
Qed.

Lemma write_served o w id bytes h w' :
  sound w → good_config (config w) → served w h → write o w id bytes = Some w' →
  served w' (alter (λ s : list Z * bool, if s.2 then s else (s.1 ++ bytes, false)) id h).
Proof.
  intros Hs Hcfg Hsv. destruct (write_cases o w id bytes Hs Hcfg) as
    [[Ha ->]|[(a & Ha & _ & ->)|(a & w1 & Ha & -> & Hw1 & Hs1)]]; intros Hw.
  - injection Hw as <-. by apply served_history.
  - injection Hw as <-. by apply grown_served.
  - assert (config w1 = config w) as Hcfg1 by (by destruct Hw1 as [->|(bs & ->)]).
    rewrite <- Hcfg1 in Hcfg.
    destruct (discard_ok o w1 id Hs1 Hcfg) as (w2 & Hd & _ & _ & Ha2 & _). rewrite Hw in Hd. injection Hd as <-.
    assert (active w' !! id = None) as Hid by (rewrite Ha2; apply lookup_delete_eq).
    destruct Hw1 as [->|(bs & ->)].
    + apply served_history; [done|done|]. by eapply discard_served.
    + pose proof (grown_served w id a bs h Hs Ha Hsv) as Hg.
      apply (discard_served o _ id _ w' Hs1 Hcfg) in Hg; [|done].
      eapply served_change, Hg; [|intros b|exact Hid].
      * intros id' Hne. by rewrite !lookup_alter_ne.
      * rewrite !lookup_alter_eq. destruct (h !! id) as [[b' [|]]|]; cbn; congruence.
Qed.

Lemma execute_served o w c h w' :
  sound w → good_config (config w) → served w h →
  (∀ id n, c = Begin id n → h !! id = None) →
  execute o w c = Some w' → served w' (record h (Handled o c)).
Proof.
  intros Hs Hcfg Hsv Hfresh. destruct c as [id n|id bytes|id|id offset limit]; cbn [execute record].
  - pose proof (begin_served o w id n h Hs Hsv (Hfresh id n eq_refl)) as Hb.
    destruct (begin o w id n) as [w1 [u|e|]]; cbn [fst] in Hb; [by intros [= <-]| |done].
    intros [= <-]. eapply served_less, Hb; done.
  - by apply write_served.
  - by apply finish_served.
  - by intros [= <-].
Qed.

Lemma occur_served w e h w' :
  sound w → good_config (config w) → served w h →
  (∀ o id n, e = Handled o (Begin id n) → h !! id = None) →
  occur w e = Some w' → served w' (record h e).
Proof.
  intros Hs Hcfg Hsv Hfresh. destruct e as [c|c|o c]; cbn [occur record].
  - intros [= <-]. case_bool_decide; [done|]. by eapply served_less, Hsv.
  - intros [= <-]. unfold abandon. case_match; [|done]. by eapply served_less, Hsv.
  - unfold handle. destruct (discard_all_ok o w (abandoned w) Hs Hcfg) as (w1 & Hd & Hs1 & Hcfg1).
    rewrite Hd. apply execute_served; [done|by rewrite Hcfg1| |].
    + by eapply (discard_all_served o w).
    + intros id n ->. by eapply Hfresh.
Qed.

(** Only a beginning gives an identity a history. *)
Lemma record_other h e id :
  (∀ o n, e ≠ Handled o (Begin id n)) → h !! id = None → record h e !! id = None.
Proof.
  intros He Hh. destruct e as [c|c|o [id' n|id' bytes|id'|id' off lim]]; cbn; try done.
  - rewrite lookup_insert_ne; [done|]. intros ->. by apply (He o n).
  - destruct (decide (id' = id)) as [->|]; [|by rewrite lookup_alter_ne].
    by rewrite lookup_alter_eq, Hh.
  - destruct (decide (id' = id)) as [->|]; [|by rewrite lookup_alter_ne].
    by rewrite lookup_alter_eq, Hh.
Qed.

Lemma run_served w es h w' :
  sound w → good_config (config w) → served w h → NoDup (begun es) →
  (∀ id, id ∈ begun es → h !! id = None) →
  run w es = Some w' → served w' (foldl record h es).
Proof.
  revert w h. induction es as [|e es IH]; intros w h Hs Hcfg Hsv Hnd Hfresh; cbn; [by intros [= <-]|].
  destruct (occur_ok w e Hs Hcfg) as (w1 & Ho & Hs1 & Hcfg1). rewrite Ho. intros Hrun.
  eapply (IH w1); [done|by rewrite Hcfg1| | | |exact Hrun].
  - eapply occur_served; [exact Hs|done|done| |done]. intros o id n ->. apply Hfresh. by left.
  - cbn in Hnd. case_match; [by apply NoDup_cons in Hnd as [_ ?]|done].
  - intros id Hid. apply record_other.
    + intros o n ->. cbn in Hnd. by apply NoDup_cons in Hnd as [? _].
    + apply Hfresh. cbn. case_match; [by right|done].
Qed.

(** ** Properties *)
Lemma charged_files w orphans : accounted w orphans → Z.of_nat (size (named (disk w))) ≤ len (charges w orphans).
Proof.
  intros Hacc. unfold len. rewrite <- (length_fmap fst (charges w orphans)). unfold size, set_size. cbn.
  apply inj_le, submseteq_length, NoDup_submseteq; [apply NoDup_elements|].
  intros i Hi%elem_of_elements. by apply charged.
Qed.

(** C34: the quota is kept. From an empty directory and an accepted configuration, whatever the
    owners of captures do and whichever file-system calls fail, the worker never panics (its
    account never underflows); the bytes in the files of the cache are at most what it has
    reserved, which is at most the configured total, and there are at most as many files as
    configured. As long as no removal failed, the account is exact: the stream limit for
    every active capture and the size of every completed file. *)
Theorem quota_kept dir c es :
  0 ≤ maximum_stream_bytes c → 0 ≤ maximum_files c → config_validate dir c = Ok tt →
  ∃ w, run (worker_new c) es = Some w ∧
    usage (disk w) ≤ reserved w ≤ maximum_total_bytes c ∧
    Z.of_nat (size (named (disk w))) ≤ maximum_files c ∧
    (cleanup_failed w = false →
     reserved w = maximum_stream_bytes c * Z.of_nat (size (active w)) + zsum (e_bytes <$> completed w)).
Proof.
  intros Hs Hf Hv. pose proof (validated_good dir c Hs Hf Hv) as Hgood.
  destruct (worker_new_accounted c Hgood) as [Hacc Hb].
  destruct (cache_run_ok (worker_new c) es) as (w & Hrun & (orphans & Hacc' & Hb') & Hcfg);
    [by exists []|done|]. exists w. cbn in Hcfg. subst c.
  split_and!; [done|by eapply usage_reserved|apply Hb'| |].
  - etrans; [by apply charged_files|apply Hb'].
  - intros Hfailed. rewrite (acc_reserved w orphans Hacc').
    assert (orphans = []) as ->.
    { destruct orphans; [done|]. rewrite (bounded_failed w _ Hb') in Hfailed; done. }
    unfold charges. cbn. rewrite app_nil_r, fmap_app, zsum_app, <- !list_fmap_compose. cbn. f_equal.
    rewrite <- length_map_to_list. generalize (map_to_list (active w)). intros l.
    induction l as [|x l IH]; [by rewrite Z.mul_0_r|]. cbn [fmap list_fmap length]. rewrite zsum_cons, IH. cbn. lia.
Qed.

(** A small cache: two captures, the second of which meets a failing write. *)
Definition small_config : OutputCacheConfig :=
  {| maximum_stream_bytes := 8; maximum_total_bytes := 16; maximum_files := 2 |}.
Definition no_failure : Oracle :=
  {| unlink_fails := λ _, false; open_fails := false; write_fails := None; stat_fails := false;
     link_fails := false; read_fails := false; abandoned_meanwhile := false |}.
Definition short_write : Oracle :=
  {| unlink_fails := λ _, false; open_fails := false; write_fails := Some 1%nat; stat_fails := false;
     link_fails := false; read_fails := false; abandoned_meanwhile := false |}.
Definition first_id : text := replicate 32 97.
Definition second_id : text := replicate 32 98.
Definition small_history : list event :=
  [Captured 0; Handled no_failure (Begin first_id 0); Handled no_failure (Write first_id [1; 2]);
   Captured 1; Handled no_failure (Begin second_id 1); Handled short_write (Write second_id [7; 8]);
   Handled no_failure (Write first_id [3; 4]); Handled no_failure (Finish second_id);
   Handled no_failure (Finish first_id)].

Definition small_worker : Worker := default (worker_new small_config) (run (worker_new small_config) small_history).
Definition small_page : OutputPage :=
  {| page_id := first_id; page_offset := 1; next_offset := 3; total_bytes := 4; page_bytes := [2; 3] |}.

Lemma quota_kept_witness :
  config_validate true small_config = Ok tt ∧
  ∃ w, run (worker_new small_config) small_history = Some w ∧
    usage (disk w) ≤ reserved w ≤ 16 ∧ Z.of_nat (size (named (disk w))) ≤ 2 ∧
    (cleanup_failed w = false →
     reserved w = 8 * Z.of_nat (size (active w)) + zsum (e_bytes <$> completed w)).
Proof. split; [done|]. by apply (quota_kept true small_config small_history). Defined.

Lemma validate_page id bs offset limit :
  0 ≤ offset ≤ len bs → len bs ≤ MAXIMUM_COMPLETED_OUTPUT_BYTES → 0 ≤ limit →
  validate_output_read id limit = Ok tt →
  let count := Z.min (len bs - offset) limit in
  let p := {| page_id := id; page_offset := offset; next_offset := offset + count; total_bytes := len bs;
              page_bytes := take (Z.to_nat count) (drop (Z.to_nat offset) bs) |} in
  len (page_bytes p) = count ∧ validate_for p id offset limit = Ok tt.
Proof.
  intros Hoff Hmax Hlim Hv count p. assert (len (page_bytes p) = count) as Hlen.
  { unfold p, count, len in *. cbn. rewrite length_take, length_drop. lia. }
  split; [done|]. unfold validate_for. rewrite Hv. cbn [obind]. rewrite Hlen. cbn.
  assert (0 < limit) as Hpos.
  { unfold validate_output_read in Hv. destruct (_ || _); [done|]. destruct (Z.eqb_spec limit 0); [done|]. lia. }
  unfold checked_add, u64_max, MAXIMUM_COMPLETED_OUTPUT_BYTES in *.
  rewrite bool_decide_true, Z.eqb_refl, (bool_decide_true (_ = Some _)) by (done || (case_match; [done|lia])).
  cbn. repeat match goal with |- context [?a <? ?b] => destruct (Z.ltb_spec a b); try lia end; cbn; try done.
  - case_bool_decide as He; [|done]. unfold p in Hlen. cbn in Hlen. rewrite He in Hlen.
    unfold len in *. cbn in Hlen. lia.
  - by rewrite andb_false_r.
Qed.

(** What a read returns. In any history in which identities begin at most once, a page of
    an identity exists only after it was finished, and holds exactly the requested part of
    the bytes written to it, as many as the limit allows: nothing of another process, of a
    partial write or of a discarded capture is served. The page passes the check its client
    makes ([OutputPage::validate_for]). *)
Lemma page_exact dir c es w o id offset limit page :
  0 ≤ maximum_stream_bytes c → 0 ≤ maximum_files c → config_validate dir c = Ok tt →
  NoDup (begun es) → run (worker_new c) es = Some w →
  0 ≤ offset → 0 ≤ limit → validate_output_read id limit = Ok tt →
  read o w id offset limit = Ok page →
  ∃ bs, history es !! id = Some (bs, true) ∧ offset ≤ len bs ∧
    page_id page = id ∧ page_offset page = offset ∧ total_bytes page = len bs ∧
    next_offset page = offset + len (page_bytes page) ∧
    page_bytes page = take (Z.to_nat limit) (drop (Z.to_nat offset) bs) ∧
    validate_for page id offset limit = Ok tt.
Proof.
  intros Hs Hf Hv Hnd Hrun Hoff Hlim Hread. pose proof (validated_good dir c Hs Hf Hv) as Hgood.
  destruct (worker_new_accounted c Hgood) as [Hacc Hb].
  assert (sound (worker_new c)) as Hnew by by exists [].
  assert (served w (history es)) as Hsv.
  { eapply run_served; [exact Hnew|done| |done| |exact Hrun]; [split; cbn|]; try done.
    intros e He. by apply elem_of_nil in He. }
  destruct (cache_run_ok (worker_new c) es Hnew Hgood) as (w' & Hrun' & _ & Hcfg).
  rewrite Hrun in Hrun'. injection Hrun' as <-. unfold read.
  destruct (list_find _ _) as [[k e]|] eqn:Hfind; cbn; [|done].
  apply list_find_Some in Hfind as (He & Hid & _). apply list_elem_of_lookup_2 in He.
  destruct (served_completed w (history es) Hsv e He) as (bs & Hh & Hbs & Hlen & Hmax).
  destruct (read_fails o); [done|]. destruct (names (disk w) !! Log id) as [i|]; cbn; [|done].
  destruct (negb _); [done|]. destruct (Z.eqb_spec i (e_inode e)) as [->|]; [|done]. rewrite Hbs. cbn.
  destruct (negb (len bs =? e_bytes e)); [done|]. destruct (Z.ltb_spec (e_bytes e) offset); [done|].
  rewrite Hlen in *. intros [= <-]. exists bs. rewrite <- Hid in *.
  destruct (validate_page (e_id e) bs offset limit) as [Hcount Hvalid];
    [lia|rewrite Hcfg in Hmax; cbn in Hmax; unfold good_config in Hgood; lia|lia|done|].
  cbn in Hcount. cbn. rewrite Hcount. split_and!; try done.
  destruct (Z.min_spec (len bs - offset) limit) as [[? ->]|[? ->]]; [|done].
  rewrite !take_ge; [done|rewrite length_drop; unfold len in *; lia..].
Qed.

Lemma page_exact_witness :
  ∃ bs, history small_history !! first_id = Some (bs, true) ∧ 1 ≤ len bs ∧
    page_id small_page = first_id ∧ page_offset small_page = 1 ∧ total_bytes small_page = len bs ∧
    next_offset small_page = 1 + len (page_bytes small_page) ∧
    page_bytes small_page = take (Z.to_nat 2) (drop (Z.to_nat 1) bs) ∧
    validate_for small_page first_id 1 2 = Ok tt.
Proof.
  apply (page_exact true small_config small_history small_worker no_failure first_id 1 2 small_page);
    [by vm_compute|by vm_compute|by vm_compute| |vm_compute; reflexivity|lia|lia|by vm_compute|
     vm_compute; reflexivity].
  apply (bool_decide_unpack _). by vm_compute.
Defined.
