(* ===== verification/Mailbox.v ===== *)
(** * The durable mailbox of a Session

    Messages, queue slots and queue mutations of [crates/rsi-agent/session-protocol]
    ([lib.rs], [queue.rs]), the linkage checks of [store-protocol/src/queue.rs] and the
    projection of control records into messages, slots, receipts and the ready index, as the
    in-memory Store does it ([testkit/src/memory_store.rs]).

    A [Mailbox] is what one Session has in that Store: [root] is the root of its Agent tree
    and [reservations] the completions its activations and programs have reserved room for.
    Controls of other components are [OtherControl]. Payloads that are only stored are
    opaque texts; their own validity, JSON sizes and digests are the parameters of [Wire],
    and the encoded size the Store keeps beside a message is left out.
    The Facts a claim refers to are not part of a mailbox: [claim_fact] is the outcome of
    [validate_message_claim_fact]. *)

From S2P Require Import Prelude Text.
From S2P Require ToolOrigin TurnFacts.

#[local] Existing Instance TurnFacts.ModelRef_eq_dec.

Inductive StoreError :=
| Invalid (message : string)
| Corrupt (message : string)
| ControlConflict (expected actual : Z).

(** ** Messages *)
Inductive SandboxMode := ReadOnly | WorkspaceWrite | DangerFullAccess.
#[export] Instance SandboxMode_eq_dec : EqDecision SandboxMode.
Proof. solve_decision. Defined.

Record MessageOptions := {
  o_model : option ToolOrigin.ModelRef;
  o_effort : option text;
  o_sandbox : option SandboxMode
}.
#[export] Instance MessageOptions_eq_dec : EqDecision MessageOptions.
Proof. solve_decision. Defined.
Definition default_options : MessageOptions :=
  {| o_model := None; o_effort := None; o_sandbox := None |}.

Inductive AgentMessageContent :=
| ContentText (t : text) | ContentImage (media : text) | ContentFile (file : text)
| ContentReference (reference : text).
#[export] Instance AgentMessageContent_eq_dec : EqDecision AgentMessageContent.
Proof. solve_decision. Defined.

Inductive AgentMessageSource :=
| Command | Program | Human (attribution : option text) | Application (attribution : option text)
| Continuation | AgentSource (session : text) | Completion (child activation : text).
#[export] Instance AgentMessageSource_eq_dec : EqDecision AgentMessageSource.
Proof. solve_decision. Defined.

Definition is_human (s : AgentMessageSource) : bool := match s with Human _ => true | _ => false end.
Definition is_direct (s : AgentMessageSource) : bool :=
  match s with Human _ | Application _ => true | _ => false end.

Record AgentMessage := {
  message_id : text;
  source : AgentMessageSource;
  content : list AgentMessageContent;
  options : MessageOptions
}.
#[export] Instance AgentMessage_eq_dec : EqDecision AgentMessage.
Proof. solve_decision. Defined.

Inductive MessageTarget := NextTurn | NextStep.
#[export] Instance MessageTarget_eq_dec : EqDecision MessageTarget.
Proof. solve_decision. Defined.
Inductive MessageDelivery := DeliverNextTurn | DeliverNextStep | Steer.
#[export] Instance MessageDelivery_eq_dec : EqDecision MessageDelivery.
Proof. solve_decision. Defined.
Inductive MessageDiscardReason :=
| Replaced | ProgramInterrupted | Cancelled | Superseded | ContinuationDisarmed.
#[export] Instance MessageDiscardReason_eq_dec : EqDecision MessageDiscardReason.
Proof. solve_decision. Defined.

(** [MessageDelivery::validate_route] *)
Definition validate_route (d : MessageDelivery) (m : AgentMessage) (target : MessageTarget)
    (bound : option text) : bool :=
  negb (match source m with Continuation => negb (bool_decide (d = DeliverNextTurn)) | _ => false end) &&
  match d with
  | DeliverNextTurn => bool_decide (target = NextTurn) && bool_decide (bound = None)
  | DeliverNextStep => bool_decide (target = NextStep) && bool_decide (bound = None)
  | Steer =>
      (is_direct (source m) || match source m with Command => true | _ => false end) &&
      bool_decide (options m = default_options) &&
      Bool.eqb (bool_decide (target = NextStep)) (bool_decide (is_Some bound))
  end &&
  negb (bool_decide (target = NextStep) && negb (bool_decide (options m = default_options))).

(** ** Queue slots and mutations *)
Record QueueSlot := { slot_id : text; slot_timestamp : Z; slot_seq : Z }.
#[export] Instance QueueSlot_eq_dec : EqDecision QueueSlot.
Proof. solve_decision. Defined.
Definition slot_initial (id : text) (timestamp seq : Z) : QueueSlot :=
  {| slot_id := id; slot_timestamp := timestamp; slot_seq := seq |}.
Definition slot_validate (s : QueueSlot) (accepted : Z) : bool :=
  negb ((slot_timestamp s =? 0) || (slot_seq s =? 0) || (accepted <? slot_seq s)).

Inductive QueueMutation :=
| Replace (new_id : text) (new_content : list AgentMessageContent)
| ConvertToSteer (new_id : text) (expected_turn : text)
| Withdraw.
Definition new_message_id (m : QueueMutation) : option text :=
  match m with Replace id _ | ConvertToSteer id _ => Some id | Withdraw => None end.

Record QueueMutationRequest := {
  rq_operation : text;
  rq_slot : text;
  rq_expected : text;
  rq_mutation : QueueMutation
}.

Inductive QueueMutationRejection :=
| MissingSlot | StaleMessage | ClaimedRejection | DiscardedRejection | NotHuman | ProgramOwned
| IncompatibleOptions | StaleTurn | MessageConflict.
Inductive QueueMutationOutcome :=
| OutReplaced (id : text) (accepted : Z)
| OutConverted (id : text) (accepted : Z) (bound : text)
| OutWithdrawn
| OutRejected (reason : QueueMutationRejection) (current : option text).

Record QueueMutationReceipt := {
  rc_operation : text;
  rc_fingerprint : text;
  rc_slot : text;
  rc_expected : text;
  rc_seq : Z;
  rc_outcome : QueueMutationOutcome
}.

(** ** Control records *)
Inductive AgentControlRecordBody :=
| MessageAccepted (m : AgentMessage) (d : MessageDelivery) (bound : option text) (root : text)
    (target : MessageTarget) (wake : bool)
| MessageSuccessor (predecessor successor : text) (slot : QueueSlot)
| QueueMutationRecorded (r : QueueMutationReceipt)
| MessageClaimed (id activation turn step : text) (fact_seq : Z)
| MessagePromoted (id : text)
| MessageDiscarded (id : text) (reason : MessageDiscardReason)
| OtherControl.
Record AgentControlRecord := { seq : Z; timestamp : Z; body : AgentControlRecordBody }.

Definition MAXIMUM_PENDING_AGENT_MESSAGES : Z := 64.
Definition MAXIMUM_STORE_BATCH_FACTS : Z := 512.
Definition MAXIMUM_SESSION_FACT_BYTES : Z := 36 * 1024 * 1024.
Definition MAXIMUM_QUEUE_MUTATION_RECEIPT_BYTES : Z := 4096.

(** serde_json's lengths, the SHA-256 digest of a request, and the checks of a message's own
    payload ([AgentMessage::validate], [validate_message_content]), which do not read the
    mailbox. *)
Class Wire := {
  record_len : Z → Z → AgentControlRecordBody → Z;
  receipt_len : QueueMutationReceipt → Z;
  request_len : QueueMutationRequest → Z;
  request_digest : QueueMutationRequest → text;
  message_valid : AgentMessage → bool;
  content_valid : list AgentMessageContent → bool
}.

Definition is_sha256 (t : text) : bool :=
  (text_len t =? 64) &&
  forallb (λ b, ((48 <=? b) && (b <=? 57)) || ((97 <=? b) && (b <=? 102))) t.

Section wire.
Context `{Wire}.

(** [QueueMutationReceipt::validate] *)
Definition receipt_validate (r : QueueMutationReceipt) : bool :=
  is_sha256 (rc_fingerprint r) && negb (rc_seq r =? 0) &&
  match rc_outcome r with
  | OutReplaced id accepted | OutConverted id accepted _ =>
      negb (bool_decide (id = rc_expected r) || (accepted =? 0) || (rc_seq r <=? accepted))
  | OutWithdrawn | OutRejected _ _ => true
  end &&
  (receipt_len r <=? MAXIMUM_QUEUE_MUTATION_RECEIPT_BYTES).

(** [AgentControlRecordBody::validate] *)
Definition body_validate (b : AgentControlRecordBody) : bool :=
  match b with
  | MessageSuccessor predecessor successor slot =>
      negb (bool_decide (predecessor = successor)) && slot_validate slot u64_max
  | QueueMutationRecorded r => receipt_validate r
  | MessageAccepted m d bound _ target wake =>
      message_valid m && validate_route d m target bound &&
      Bool.eqb wake (bool_decide (target = NextTurn))
  | MessageClaimed _ _ _ _ fact_seq => negb (fact_seq =? 0)
  | MessagePromoted _ | MessageDiscarded _ _ | OtherControl => true
  end.

(** [AgentControlRecord::new] *)
Definition record_valid (r : AgentControlRecord) : bool :=
  negb ((seq r =? 0) || (timestamp r =? 0)) && body_validate (body r) &&
  negb (match body r with
        | QueueMutationRecorded rc => negb (rc_seq rc =? seq r)
        | MessageSuccessor _ _ slot => seq r <=? slot_seq slot
        | _ => false
        end) &&
  (record_len (seq r) (timestamp r) (body r) <=? MAXIMUM_SESSION_FACT_BYTES).
Definition record_new (n now : Z) (b : AgentControlRecordBody) : option AgentControlRecord :=
  let r := {| seq := n; timestamp := now; body := b |} in
  if record_valid r then Some r else None.

(** ** The Store's messages *)
Inductive StoreAgentMessageState :=
| Pending
| Claimed (activation turn step : text) (claimed_fact_seq : Z)
| Discarded (reason : MessageDiscardReason) (control_seq : Z).
#[export] Instance StoreAgentMessageState_eq_dec : EqDecision StoreAgentMessageState.
Proof. solve_decision. Defined.

Record StoreAgentMessage := {
  queue_slot : QueueSlot;
  delivery : MessageDelivery;
  bound_turn_id : option text;
  accepted_timestamp : Z;
  message : AgentMessage;
  root_session_id : text;
  target : MessageTarget;
  wake_required : bool;
  accepted_seq : Z;
  state : StoreAgentMessageState
}.

Definition with_state (m : StoreAgentMessage) (s : StoreAgentMessageState) : StoreAgentMessage :=
  {| queue_slot := queue_slot m; delivery := delivery m; bound_turn_id := bound_turn_id m;
     accepted_timestamp := accepted_timestamp m; message := message m;
     root_session_id := root_session_id m; target := target m; wake_required := wake_required m;
     accepted_seq := accepted_seq m; state := s |}.
Definition promoted (m : StoreAgentMessage) : StoreAgentMessage :=
  {| queue_slot := queue_slot m; delivery := delivery m; bound_turn_id := bound_turn_id m;
     accepted_timestamp := accepted_timestamp m; message := message m;
     root_session_id := root_session_id m; target := NextTurn; wake_required := true;
     accepted_seq := accepted_seq m; state := state m |}.

(** [StoreAgentMessage::validate_claim_turn], [permits_promotion] and [promotion_order]. *)
Definition validate_claim_turn (m : StoreAgentMessage) (turn : text) : bool :=
  negb (bool_decide (target m = NextStep) &&
        match bound_turn_id m with Some b => negb (bool_decide (b = turn)) | None => false end).
Definition message_permits_promotion (s : AgentMessageSource) (d : MessageDelivery)
    (bound : option text) : bool :=
  match s with Completion _ _ | Program => true | _ => false end ||
  (bool_decide (d = Steer) && bool_decide (is_Some bound)).
Definition permits_promotion (m : StoreAgentMessage) : bool :=
  message_permits_promotion (source (message m)) (delivery m) (bound_turn_id m).
Definition promotion_order (m : StoreAgentMessage) (time n : Z) : Z * Z :=
  if bool_decide (delivery m = Steer) then (slot_timestamp (queue_slot m), slot_seq (queue_slot m))
  else (time, n).

(** ** Linkage of queue mutations *)
Definition corrupt : StoreError :=
  Corrupt "queue successor or receipt differs from its canonical boundary".

Definition validate_queue_withdrawal (predecessor : StoreAgentMessage) (r : QueueMutationReceipt) :
  outcome StoreError unit :=
  if negb (match rc_outcome r with OutWithdrawn => true | _ => false end) ||
     negb (bool_decide (message_id (message predecessor) = rc_expected r)) ||
     negb (bool_decide (slot_id (queue_slot predecessor) = rc_slot r)) ||
     negb (bool_decide (state predecessor = Pending))
  then Err corrupt else Ok tt.

(** One record of [validate_queue_suffix]: [before] are the records in front of it, the
    nearest first. *)
Definition validate_queue_record (before : list AgentControlRecord) (r : AgentControlRecord)
    (rest : list AgentControlRecord) : outcome StoreError unit :=
  match body r with
  | MessageSuccessor predecessor successor slot =>
      match rest with
      | a :: c :: _ =>
          match body a, body c with
          | MessageAccepted m _ bound_turn _ _ _, QueueMutationRecorded rc =>
              (let? (id, n, bound) := match rc_outcome rc with
                  | OutReplaced id accepted => Ok (id, accepted, None)
                  | OutConverted id accepted b => Ok (id, accepted, Some b)
                  | _ => Err corrupt
                  end in
               if negb (bool_decide (predecessor = rc_expected rc)) ||
                  negb (bool_decide (slot_id slot = rc_slot rc)) ||
                  negb (bool_decide (successor = id)) ||
                  negb (bool_decide (successor = message_id m)) ||
                  negb (n =? seq a) ||
                  (bool_decide (is_Some bound) && negb (bool_decide (bound = bound_turn)))
               then Err corrupt else Ok tt)%outcome
          | _, _ => Err corrupt
          end
      | _ => Err corrupt
      end
  | QueueMutationRecorded rc =>
      if negb (receipt_validate rc) then Err corrupt
      else match rc_outcome rc with
           | OutRejected _ _ => Ok tt
           | OutWithdrawn =>
               match body <$> before !! 0%nat with
               | Some (MessageDiscarded id Cancelled) =>
                   if bool_decide (id = rc_expected rc) then Ok tt else Err corrupt
               | _ => Err corrupt
               end
           | OutReplaced _ _ | OutConverted _ _ _ =>
               match body <$> before !! 1%nat with
               | Some (MessageSuccessor _ _ _) => Ok tt
               | _ => Err corrupt
               end
           end
  | MessageDiscarded _ Replaced => Err corrupt
  | _ => Ok tt
  end.
Fixpoint validate_suffix_from (before rs : list AgentControlRecord) : outcome StoreError unit :=
  match rs with
  | [] => Ok tt
  | r :: rest =>
      (let? _ := validate_queue_record before r rest in validate_suffix_from (r :: before) rest)%outcome
  end.
Definition validate_queue_suffix (rs : list AgentControlRecord) : outcome StoreError unit :=
  validate_suffix_from [] rs.

Definition validate_queue_successor (p : StoreAgentMessage) (link acceptance receipt : AgentControlRecord) :
  outcome StoreError QueueSlot :=
  match body link, body acceptance, body receipt with
  | MessageSuccessor predecessor successor slot,
    MessageAccepted m d bound root t wake, QueueMutationRecorded rc =>
      if negb (bool_decide (message_id (message p) = predecessor)) ||
         negb (bool_decide (queue_slot p = slot)) ||
         negb (bool_decide (state p = Pending)) ||
         negb (is_human (source (message p))) || negb (is_human (source m)) ||
         negb (bool_decide (message_id m = successor)) ||
         negb (bool_decide (options m = options (message p))) ||
         negb (bool_decide (root = root_session_id p))
      then Err corrupt
      else
        match rc_outcome rc with
        | OutReplaced _ _ =>
            if bool_decide (d = delivery p) &&
               bool_decide (bound = if bool_decide (target p = NextStep) then bound_turn_id p else None) &&
               bool_decide (t = target p) && Bool.eqb wake (wake_required p)
            then Ok slot else Err corrupt
        | OutConverted _ _ expected =>
            if bool_decide (d = Steer) && bool_decide (bound = Some expected) &&
               bool_decide (content m = content (message p)) && bool_decide (options m = default_options)
            then Ok slot else Err corrupt
        | _ => Err corrupt
        end
  | _, _, _ => Err corrupt
  end.

(** ** The projection *)
Record Mailbox := {
  root : text;
  controls : list AgentControlRecord;
  messages : gmap text StoreAgentMessage;
  queue_slots : gmap text text;
  queue_mutations : gmap text Z;
  ready_keys : gmap text (Z * Z);
  ready_messages : gmap (Z * Z) text;
  reservations : Z
}.

Definition empty_mailbox (r : text) : Mailbox :=
  {| root := r; controls := []; messages := ∅; queue_slots := ∅; queue_mutations := ∅;
     ready_keys := ∅; ready_messages := ∅; reservations := 0 |}.

Definition set_messages (s : Mailbox) (m : gmap text StoreAgentMessage) : Mailbox :=
  {| root := root s; controls := controls s; messages := m; queue_slots := queue_slots s;
     queue_mutations := queue_mutations s; ready_keys := ready_keys s;
     ready_messages := ready_messages s; reservations := reservations s |}.
Definition set_slots (s : Mailbox) (m : gmap text text) : Mailbox :=
  {| root := root s; controls := controls s; messages := messages s; queue_slots := m;
     queue_mutations := queue_mutations s; ready_keys := ready_keys s;
     ready_messages := ready_messages s; reservations := reservations s |}.
Definition set_mutations (s : Mailbox) (m : gmap text Z) : Mailbox :=
  {| root := root s; controls := controls s; messages := messages s; queue_slots := queue_slots s;
     queue_mutations := m; ready_keys := ready_keys s;
     ready_messages := ready_messages s; reservations := reservations s |}.
Definition set_ready (s : Mailbox) (k : gmap text (Z * Z)) (m : gmap (Z * Z) text) : Mailbox :=
  {| root := root s; controls := controls s; messages := messages s; queue_slots := queue_slots s;
     queue_mutations := queue_mutations s; ready_keys := k; ready_messages := m;
     reservations := reservations s |}.
Definition set_controls (s : Mailbox) (l : list AgentControlRecord) : Mailbox :=
  {| root := root s; controls := l; messages := messages s; queue_slots := queue_slots s;
     queue_mutations := queue_mutations s; ready_keys := ready_keys s;
     ready_messages := ready_messages s; reservations := reservations s |}.
Definition set_reservations (s : Mailbox) (n : Z) : Mailbox :=
  {| root := root s; controls := controls s; messages := messages s; queue_slots := queue_slots s;
     queue_mutations := queue_mutations s; ready_keys := ready_keys s;
     ready_messages := ready_messages s; reservations := n |}.

Definition is_pending (m : StoreAgentMessage) : bool := bool_decide (state m = Pending).
Definition pending_count (s : Mailbox) : Z :=
  Z.of_nat (size (filter (λ e, state e.2 = Pending) (messages s))).

(** The slot of an acceptance: the one its link names if the record in front of it is one. *)
Definition accepted_slot (s : Mailbox) (r : AgentControlRecord) (id : text) : QueueSlot :=
  match controls s !! Z.to_nat (seq r - 2) with
  | Some {| body := MessageSuccessor _ successor slot |} =>
      if (2 <=? seq r) && bool_decide (successor = id) then slot
      else slot_initial id (timestamp r) (seq r)
  | _ => slot_initial id (timestamp r) (seq r)
  end.

(** [apply_message_updates], one record. *)
Definition update_messages (claim_fact : text → bool) (s : Mailbox) (r : AgentControlRecord) :
  outcome StoreError Mailbox :=
  match body r with
  | MessageSuccessor predecessor _ _ =>
      (let? e := ok_or (messages s !! predecessor) (Corrupt "queue predecessor is absent") in
       Ok (set_messages s (<[predecessor := with_state e (Discarded Replaced (seq r))]> (messages s))))%outcome
  | QueueMutationRecorded rc =>
      if bool_decide (is_Some (queue_mutations s !! rc_operation rc))
      then Err (Invalid "queue receipt identity conflict")
      else Ok (set_mutations s (<[rc_operation rc := seq r]> (queue_mutations s)))
  | MessageAccepted m d bound rt t wake =>
      if negb (bool_decide (rt = root s))
      then Err (Invalid "Agent message root differs from its target Session root")
      else if MAXIMUM_PENDING_AGENT_MESSAGES <=? pending_count s + reservations s
      then Err (Invalid "mailbox exceeds its pending-message bound")
      else
        let slot := accepted_slot s r (message_id m) in
        if bool_decide (is_Some (messages s !! message_id m))
        then Err (Corrupt "mailbox index repeats a message identity")
        else
          Ok (set_messages (set_slots s (<[slot_id slot := message_id m]> (queue_slots s)))
                (<[message_id m :=
                    {| queue_slot := slot; delivery := d; bound_turn_id := bound;
                       accepted_timestamp := timestamp r; message := m; root_session_id := rt;
                       target := t; wake_required := wake; accepted_seq := seq r; state := Pending |}]>
                   (messages s)))
  | MessageClaimed id activation turn step n =>
      (let? e := ok_or (messages s !! id) (Corrupt "mailbox claim has no indexed message") in
       if negb (is_pending e) then Err (Corrupt "mailbox claim references a non-pending message")
       else if negb (validate_claim_turn e turn)
       then Err (Corrupt "steering claim differs from its bound Turn")
       else if negb (claim_fact id) then Err (Corrupt "mailbox claim differs from its input Fact")
       else Ok (set_messages s (<[id := with_state e (Claimed activation turn step n)]> (messages s))))%outcome
  | MessagePromoted id =>
      (let? e := ok_or (messages s !! id) (Corrupt "mailbox promotion has no indexed message") in
       if negb (is_pending e) || negb (bool_decide (target e = NextStep)) || wake_required e ||
          negb (permits_promotion e)
       then Err (Corrupt "mailbox promotion requires eligible pending next-Step input")
       else Ok (set_messages s (<[id := promoted e]> (messages s))))%outcome
  | MessageDiscarded id reason =>
      (let? e := ok_or (messages s !! id) (Corrupt "mailbox discard has no indexed message") in
       if negb (is_pending e) then Err (Corrupt "mailbox discard references a non-pending message")
       else Ok (set_messages s (<[id := with_state e (Discarded reason (seq r))]> (messages s))))%outcome
  | OtherControl => Ok s
  end.

Definition make_ready (s : Mailbox) (id : text) (key : Z * Z) : Mailbox :=
  set_ready s (<[id := key]> (ready_keys s)) (<[key := id]> (ready_messages s)).
Definition unready (s : Mailbox) (id : text) : Mailbox :=
  match ready_keys s !! id with
  | Some key => set_ready s (delete id (ready_keys s)) (delete key (ready_messages s))
  | None => s
  end.

(** [apply_ready_updates], one record. *)
Definition update_ready (s : Mailbox) (r : AgentControlRecord) : outcome StoreError Mailbox :=
  match body r with
  | MessageAccepted m _ _ _ _ true =>
      if bool_decide (is_Some (ready_keys s !! message_id m))
      then Err (Corrupt "ready index repeats a message identity")
      else
        (let? e := ok_or (messages s !! message_id m) (Corrupt "ready message is absent") in
         Ok (make_ready s (message_id m) (slot_timestamp (queue_slot e), slot_seq (queue_slot e))))%outcome
  | MessageSuccessor id _ _ | MessageClaimed id _ _ _ _ | MessageDiscarded id _ => Ok (unready s id)
  | MessagePromoted id =>
      if bool_decide (is_Some (ready_keys s !! id))
      then Err (Corrupt "ready index repeats a promoted message identity")
      else
        (let? e := ok_or (messages s !! id) (Corrupt "ready promotion has no indexed message") in
         Ok (make_ready s id (promotion_order e (timestamp r) (seq r))))%outcome
  | MessageAccepted _ _ _ _ _ false | QueueMutationRecorded _ | OtherControl => Ok s
  end.

(** The checks of a record against the projection in front of it; [rest] are the records
    that follow. *)
Definition check_withdrawal (s : Mailbox) (r : AgentControlRecord) (rest : list AgentControlRecord) :
  outcome StoreError unit :=
  match body r, body <$> rest !! 0%nat with
  | MessageDiscarded id _, Some (QueueMutationRecorded rc) =>
      match rc_outcome rc with
      | OutWithdrawn =>
          (let? p := ok_or (messages s !! id) (Corrupt "queue predecessor is absent") in
           validate_queue_withdrawal p rc)%outcome
      | _ => Ok tt
      end
  | _, _ => Ok tt
  end.
Definition check_successor (s : Mailbox) (r : AgentControlRecord) (rest : list AgentControlRecord) :
  outcome StoreError unit :=
  match body r with
  | MessageSuccessor predecessor _ _ =>
      (let? p := ok_or (messages s !! predecessor) (Corrupt "queue predecessor is absent") in
       let? a := expect (rest !! 0%nat) in
       let? c := expect (rest !! 1%nat) in
       let? _ := validate_queue_successor p r a c in Ok tt)%outcome
  | _ => Ok tt
  end.

Definition apply_record (claim_fact : text → bool) (s : Mailbox) (r : AgentControlRecord)
    (rest : list AgentControlRecord) : outcome StoreError Mailbox :=
  (let? _ := check_withdrawal s r rest in
   let? _ := check_successor s r rest in
   let? s1 := update_messages claim_fact s r in
   update_ready s1 r)%outcome.
Fixpoint apply_records (claim_fact : text → bool) (s : Mailbox) (rs : list AgentControlRecord) :
  outcome StoreError Mailbox :=
  match rs with
  | [] => Ok s
  | r :: rest => (let? s1 := apply_record claim_fact s r rest in apply_records claim_fact s1 rest)%outcome
  end.

(** [validate_control_sequence] *)
Fixpoint contiguous (after : Z) (rs : list AgentControlRecord) : bool :=
  match rs with
  | [] => true
  | r :: rest => (seq r =? after + 1) && (seq r <? u64_max) && contiguous (after + 1) rest
  end.
Definition last_seq (s : Mailbox) : Z := from_option seq 0 (last (controls s)).

(** A commit appends controls after the tail its caller saw, or changes nothing. *)
Definition append (claim_fact : text → bool) (s : Mailbox) (expected : Z)
    (rs : list AgentControlRecord) : outcome StoreError Mailbox :=
  if MAXIMUM_STORE_BATCH_FACTS <? len rs
  then Err (Invalid "atomic Agent suffixes may contain at most 512 records")
  else if negb (expected <? u64_max) then Err (Invalid "control sequence exhausted")
  else if negb (contiguous expected rs) then Err (Invalid "control sequence is not contiguous")
  else
    (let? _ := validate_queue_suffix rs in
     if negb (last_seq s =? expected) then Err (ControlConflict expected (last_seq s))
     else apply_records claim_fact (set_controls s (controls s ++ rs)) rs)%outcome.

(** ** Reads *)

(** [read_queue_slot], [read_queue_mutation] and [agent_message_exists]. *)
Definition read_queue_slot (s : Mailbox) (slot : text) : option StoreAgentMessage :=
  queue_slots s !! slot ≫= λ id, messages s !! id.
Definition read_queue_mutation (s : Mailbox) (operation : text) :
  outcome StoreError (option QueueMutationReceipt) :=
  match queue_mutations s !! operation with
  | None => Ok None
  | Some n =>
      if n =? 0 then Err (Corrupt "queue receipt cursor is zero")
      else match body <$> controls s !! Z.to_nat (n - 1) with
           | Some (QueueMutationRecorded rc) =>
               if bool_decide (rc_operation rc = operation) then Ok (Some rc)
               else Err (Corrupt "queue receipt index differs")
           | _ => Err (Corrupt "queue receipt index differs")
           end
  end.
Definition message_exists (s : Mailbox) (id : text) : bool := bool_decide (is_Some (messages s !! id)).
End wire.
