(* ===== verification/MailboxInvariant.v ===== *)
(** * The mailbox projection is consistent

    What holds of a [Mailbox] between any two records of a commit ([wf], with the number of
    records processed, and [between], for the gap a successor's link opens), that every
    record keeps it, and what follows for histories of commits. *)

From S2P Require Import Prelude Text Mailbox.

(** ** Consistency of the projection *)
Section consistency.
Context `{Wire}.

Definition slot_position (q : QueueSlot) : Z * Z := (slot_timestamp q, slot_seq q).
Definition is_replaced (m : StoreAgentMessage) : bool :=
  match state m with Discarded Replaced _ => true | _ => false end.

(** The record with a control sequence. *)
Definition record_at (s : Mailbox) (n : Z) : option AgentControlRecord :=
  if 1 <=? n then controls s !! Z.to_nat (n - 1) else None.

(** What holds of a message. *)
Record message_ok (n : Z) (s : Mailbox) (id : text) (m : StoreAgentMessage) : Prop := {
  ok_id : message_id (message m) = id;
  ok_wake : wake_required m = bool_decide (target m = NextTurn);
  ok_root : root_session_id m = root s;
  ok_accepted : ∃ r d b rt t w, record_at s (accepted_seq m) = Some r ∧
    body r = MessageAccepted (message m) d b rt t w;
  ok_processed : accepted_seq m ≤ n;
  ok_slot_seq : 1 ≤ slot_seq (queue_slot m) ≤ accepted_seq m;
  ok_origin : ∃ m0, messages s !! slot_id (queue_slot m) = Some m0 ∧ queue_slot m0 = queue_slot m ∧
    accepted_seq m0 = slot_seq (queue_slot m);
  ok_current : is_replaced m = false → queue_slots s !! slot_id (queue_slot m) = Some id;
  ok_ready : is_Some (ready_keys s !! id) ↔ state m = Pending ∧ wake_required m = true;
  ok_key k : ready_keys s !! id = Some k → k = slot_position (queue_slot m) ∨
    (is_human (source (message m)) = false ∧ ∃ r, record_at s k.2 = Some r ∧ body r = MessagePromoted id)
}.

(** The state between two records; [n] are processed. *)
Record wf (n : Z) (s : Mailbox) : Prop := {
  wf_seq i r : controls s !! i = Some r → seq r = Z.of_nat i + 1;
  wf_valid r : r ∈ controls s → record_valid r = true;
  wf_message id m : messages s !! id = Some m → message_ok n s id m;
  wf_slot q id : queue_slots s !! q = Some id →
    ∃ m, messages s !! id = Some m ∧ slot_id (queue_slot m) = q;
  wf_keys id : is_Some (ready_keys s !! id) → is_Some (messages s !! id);
  wf_inverse id k : ready_keys s !! id = Some k ↔ ready_messages s !! k = Some id;
  wf_receipt op k : queue_mutations s !! op = Some k →
    k ≤ n ∧ ∃ r rc, record_at s k = Some r ∧ body r = QueueMutationRecorded rc ∧ rc_operation rc = op;
  wf_reserved : 0 ≤ reservations s;
  wf_capacity : pending_count s + reservations s ≤ MAXIMUM_PENDING_AGENT_MESSAGES
}.

Lemma record_at_positive s n r : record_at s n = Some r → 1 ≤ n.
Proof. unfold record_at. by destruct (Z.leb_spec 1 n). Qed.

(** Messages accepted by the same record are the same. *)
Lemma accepted_inj n s id m id' m' :
  message_ok n s id m → message_ok n s id' m' → accepted_seq m = accepted_seq m' → id = id'.
Proof.
  intros [<- _ _ (r & d & b & rt & t & w & Hr & Hb) _ _ _ _ _ _]
    [<- _ _ (r' & d' & b' & rt' & t' & w' & Hr' & Hb') _ _ _ _ _ _] Heq.
  congruence.
Qed.

(** Two messages with slots of the same sequence are in the same slot. *)
Lemma slot_inj n s id m id' m' :
  wf n s → messages s !! id = Some m → messages s !! id' = Some m' →
  slot_seq (queue_slot m) = slot_seq (queue_slot m') → queue_slot m = queue_slot m'.
Proof.
  intros Hwf Hm Hm' Heq.
  destruct (ok_origin n s id m (wf_message n s Hwf id m Hm)) as (m0 & Hm0 & Hq0 & Hs0).
  destruct (ok_origin n s id' m' (wf_message n s Hwf id' m' Hm')) as (m1 & Hm1 & Hq1 & Hs1).
  assert (slot_id (queue_slot m) = slot_id (queue_slot m')) as Hid.
  { eapply accepted_inj; [by apply (wf_message n s Hwf)|by apply (wf_message n s Hwf)|congruence]. }
  rewrite <- Hid in Hm1. congruence.
Qed.

(** The state of a message that is not replaced is that of its slot. *)
Lemma current_inj n s id m id' m' :
  wf n s → messages s !! id = Some m → messages s !! id' = Some m' →
  is_replaced m = false → is_replaced m' = false →
  slot_id (queue_slot m) = slot_id (queue_slot m') → id = id'.
Proof.
  intros Hwf Hm Hm' Hr Hr' Heq.
  pose proof (ok_current n s id m (wf_message n s Hwf id m Hm) Hr) as Hc.
  pose proof (ok_current n s id' m' (wf_message n s Hwf id' m' Hm') Hr') as Hc'.
  congruence.
Qed.

(** *** Counting pending messages *)
Lemma pending_insert (m : gmap text StoreAgentMessage) id x :
  (∀ y, m !! id = Some y → state y ≠ Pending) → state x = Pending →
  size (filter (λ e : text * StoreAgentMessage, state e.2 = Pending) (<[id := x]> m)) =
  S (size (filter (λ e : text * StoreAgentMessage, state e.2 = Pending) m)).
Proof.
  intros Hy Hx. rewrite map_filter_insert_True by done. apply map_size_insert_None.
  apply map_lookup_filter_None. destruct (m !! id) as [y|] eqn:Hm; [right|by left].
  intros y' [= <-]. by apply Hy.
Qed.

Lemma pending_settle (m : gmap text StoreAgentMessage) id x y :
  m !! id = Some y → state y = Pending → state x ≠ Pending →
  size (filter (λ e : text * StoreAgentMessage, state e.2 = Pending) m) =
  S (size (filter (λ e : text * StoreAgentMessage, state e.2 = Pending) (<[id := x]> m))).
Proof.
  intros Hm Hy Hx. rewrite <- (insert_delete_id m id y Hm) at 1.
  rewrite pending_insert; [|by rewrite lookup_delete_eq|done].
  f_equal. f_equal. rewrite map_filter_insert_False by done. by rewrite map_filter_delete.
Qed.

Lemma pending_same (m : gmap text StoreAgentMessage) id x y :
  m !! id = Some y → state y = state x →
  size (filter (λ e : text * StoreAgentMessage, state e.2 = Pending) (<[id := x]> m)) =
  size (filter (λ e : text * StoreAgentMessage, state e.2 = Pending) m).
Proof.
  intros Hm Heq. destruct (decide (state x = Pending)) as [Hx|Hx].
  - rewrite <- (insert_delete_id m id y Hm) at 2. rewrite <- (insert_delete_eq m id x).
    rewrite !pending_insert; rewrite ?lookup_delete_eq; try done. congruence.
  - rewrite map_filter_insert_False by done. rewrite map_filter_delete.
    rewrite delete_id; [done|]. apply map_lookup_filter_None. right. intros y' ?. simplify_eq. cbn. congruence.
Qed.

(** *** One record *)
Lemma message_ok_mono n n' s s' id m :
  n ≤ n' → controls s' = controls s → root s' = root s →
  (∀ x m0, messages s !! x = Some m0 → ∃ m1, messages s' !! x = Some m1 ∧
     queue_slot m1 = queue_slot m0 ∧ accepted_seq m1 = accepted_seq m0) →
  (is_replaced m = false → queue_slots s !! slot_id (queue_slot m) = Some id →
   queue_slots s' !! slot_id (queue_slot m) = Some id) →
  ready_keys s' !! id = ready_keys s !! id →
  message_ok n s id m → message_ok n' s' id m.
Proof.
  intros Hn Hc Hr Hm Hq Hk []. split; unfold record_at in *; rewrite ?Hc, ?Hr, ?Hk; try done; try lia.
  - destruct ok_origin0 as (m0 & Hm0 & Hq0 & Hs0). destruct (Hm _ _ Hm0) as (m1 & ? & ? & ?).
    exists m1. split_and!; congruence.
  - auto.
Qed.

Lemma unready_lookup s id id' :
  ready_keys (unready s id) !! id' = if decide (id' = id) then None else ready_keys s !! id'.
Proof.
  unfold unready. destruct (ready_keys s !! id) as [k|] eqn:Hk; cbn; case_decide as Hid.
  - subst. apply lookup_delete_eq.
  - by apply lookup_delete_ne.
  - by subst.
  - done.
Qed.

Lemma unready_fields s id :
  controls (unready s id) = controls s ∧ root (unready s id) = root s ∧
  messages (unready s id) = messages s ∧ queue_slots (unready s id) = queue_slots s ∧
  queue_mutations (unready s id) = queue_mutations s ∧ reservations (unready s id) = reservations s.
Proof. unfold unready. by destruct (ready_keys s !! id). Qed.

Lemma unready_inverse s id :
  (∀ x k, ready_keys s !! x = Some k ↔ ready_messages s !! k = Some x) →
  ∀ x k, ready_keys (unready s id) !! x = Some k ↔ ready_messages (unready s id) !! k = Some x.
Proof.
  intros Hinv x k. unfold unready. destruct (ready_keys s !! id) as [key|] eqn:Hkey; [|apply Hinv].
  cbn. rewrite !lookup_delete_Some. split.
  - intros [Hne Hx]. split; [|by apply Hinv]. intros ->. apply Hinv in Hx, Hkey. congruence.
  - intros [Hne Hx]. split; [|by apply Hinv]. intros ->. apply Hinv in Hx. congruence.
Qed.

Lemma with_state_ok n n' s s' id m x :
  n ≤ n' → controls s' = controls s → root s' = root s → queue_slots s' = queue_slots s →
  messages s' = <[id := with_state m x]> (messages s) → messages s !! id = Some m →
  state m = Pending → x ≠ Pending → ready_keys s' !! id = None →
  message_ok n s id m → message_ok n' s' id (with_state m x).
Proof.
  intros Hn Hc Hr Hq Hms Hm Hp Hx Hk Hok. pose proof (ok_current _ _ _ _ Hok) as Hcur.
  destruct Hok. split; unfold record_at in *; rewrite ?Hc, ?Hr, ?Hk, ?Hq; try done; cbn; try lia.
  - destruct ok_origin0 as (m0 & Hm0 & Hq0 & Hs0). rewrite Hms.
    destruct (decide (slot_id (queue_slot m) = id)) as [Heq|Hne].
    + exists (with_state m x). rewrite Heq, lookup_insert_eq. rewrite Heq in Hm0. split_and!; [done|done|].
      cbn. congruence.
    + exists m0. by rewrite lookup_insert_ne.
  - intros _. apply Hcur. unfold is_replaced. by rewrite Hp.
  - split; [by intros []|]. by intros [? _].
Qed.

Lemma settle_wf n s id m x :
  wf n s → messages s !! id = Some m → state m = Pending → x ≠ Pending →
  wf (n + 1) (unready (set_messages s (<[id := with_state m x]> (messages s))) id).
Proof.
  intros Hwf Hm Hp Hx. set (s1 := set_messages _ _).
  destruct (unready_fields s1 id) as (Hc & Hr & Hms & Hq & Hmu & Hrs).
  pose proof (unready_lookup s1 id) as Hk. pose proof (unready_inverse s1 id) as Hinv.
  set (s2 := unready s1 id) in *. clearbody s2. cbn in Hc, Hr, Hms, Hq, Hmu, Hrs, Hinv.
  destruct Hwf. split; rewrite ?Hc, ?Hms, ?Hq, ?Hmu, ?Hrs; try done; try lia.
  - intros id' m' [[<- <-]|[Hne Hm']]%lookup_insert_Some.
    + apply (with_state_ok n _ s s2 id m); auto; [lia|]. by rewrite Hk, decide_True.
    + apply (message_ok_mono n _ s s2 id' m'); auto; [lia| |by rewrite Hq|by rewrite Hk, decide_False].
      intros y m0 Hy. rewrite Hms. destruct (decide (id = y)) as [<-|Hney].
      * rewrite lookup_insert_eq. eexists. split; [done|]. simplify_eq. done.
      * rewrite lookup_insert_ne by done. eauto.
  - intros q id' Hid'. destruct (wf_slot0 q id' Hid') as (m' & Hm' & Hsl).
    destruct (decide (id = id')) as [<-|Hne].
    + rewrite lookup_insert_eq. eexists. split; [done|]. simplify_eq. done.
    + rewrite lookup_insert_ne by done. eauto.
  - intros id'. rewrite Hk. case_decide as Hid; [by intros []|]. intros Hs%wf_keys0. by rewrite lookup_insert_ne.
  - by apply Hinv.
  - intros op k Hop. destruct (wf_receipt0 op k Hop) as (? & Hrec). unfold record_at in *. rewrite Hc.
    split; [lia|done].
  - unfold pending_count in *. rewrite Hms. rewrite (pending_settle _ id (with_state m x) m Hm Hp Hx) in wf_capacity0. lia.
Qed.

Lemma make_ready_inverse s id key :
  (∀ x k, ready_keys s !! x = Some k ↔ ready_messages s !! k = Some x) →
  ready_keys s !! id = None → ready_messages s !! key = None →
  ∀ x k, ready_keys (make_ready s id key) !! x = Some k ↔ ready_messages (make_ready s id key) !! k = Some x.
Proof.
  intros Hinv Hid Hkey x k. cbn. rewrite !lookup_insert_Some. split.
  - intros [[<- <-]|[Hne Hx]]; [by left|]. right. apply Hinv in Hx. split; [congruence|done].
  - intros [[<- <-]|[Hne Hx]]; [by left|]. right. apply Hinv in Hx. split; [congruence|done].
Qed.

(** The record at the sequence of a slot accepted its first message. *)
Lemma slot_record n s id m :
  wf n s → messages s !! id = Some m →
  ∃ r x d b rt t w, record_at s (slot_seq (queue_slot m)) = Some r ∧ body r = MessageAccepted x d b rt t w.
Proof.
  intros Hwf Hm. destruct (ok_origin n s id m (wf_message n s Hwf id m Hm)) as (m0 & Hm0 & _ & <-).
  destruct (ok_accepted n s _ m0 (wf_message n s Hwf _ m0 Hm0)) as (r & d & b & rt & t & w & ? & ?).
  by exists r, (message m0), d, b, rt, t, w.
Qed.

(** Who owns a key of the ready index. *)
Lemma key_owner n s id k :
  wf n s → ready_messages s !! k = Some id →
  ∃ m, messages s !! id = Some m ∧ state m = Pending ∧ ready_keys s !! id = Some k ∧
    (k = slot_position (queue_slot m) ∨ ∃ r, record_at s k.2 = Some r ∧ body r = MessagePromoted id).
Proof.
  intros Hwf Hk. apply (wf_inverse n s Hwf) in Hk.
  destruct (wf_keys n s Hwf id) as [m Hm]; [by rewrite Hk|]. exists m.
  destruct (wf_message n s Hwf id m Hm). split_and!; [done| |done|].
  - apply ok_ready0. by rewrite Hk.
  - destruct (ok_key0 k Hk) as [?|[_ ?]]; auto.
Qed.

(** A slot's own key is free unless its current message holds it. *)
Lemma slot_key_free n s p mp :
  wf n s → messages s !! p = Some mp →
  (∀ id m, messages s !! id = Some m → state m = Pending → queue_slot m = queue_slot mp →
     ready_keys s !! id = None) →
  ready_messages s !! slot_position (queue_slot mp) = None.
Proof.
  intros Hwf Hp Hfree. apply eq_None_not_Some. intros [id Hid].
  destruct (key_owner n s id _ Hwf Hid) as (m & Hm & Hpend & Hkey & [Heq|(r & Hr & Hb)]).
  - injection Heq as _ Hseq. apply (slot_inj n s p mp id m Hwf Hp Hm) in Hseq.
    rewrite (Hfree id m Hm Hpend) in Hkey; done.
  - destruct (slot_record n s p mp Hwf Hp) as (r' & x & d & b & rt & t & w & Hr' & Hb').
    cbn in Hr. congruence.
Qed.

(** A key with the sequence of the next record is free, unless that record promotes. *)
Lemma next_key_free n s t r :
  wf n s → record_at s (n + 1) = Some r → (∀ id, body r = MessagePromoted id → ready_keys s !! id = None) →
  ready_messages s !! (t, n + 1) = None.
Proof.
  intros Hwf Hr Hfree. apply eq_None_not_Some. intros [id Hid].
  destruct (key_owner n s id _ Hwf Hid) as (m & Hm & _ & Hkey & [Heq|(r' & Hr' & Hb)]).
  - injection Heq as _ Hseq. destruct (wf_message n s Hwf id m Hm). lia.
  - cbn in Hr'. rewrite (Hfree id) in Hkey; [done|congruence].
Qed.

Lemma promote_wf n s id m r :
  wf n s → messages s !! id = Some m → state m = Pending → target m = NextStep →
  permits_promotion m = true → record_at s (n + 1) = Some r → body r = MessagePromoted id →
  wf (n + 1) (make_ready (set_messages s (<[id := promoted m]> (messages s))) id
                (promotion_order m (timestamp r) (n + 1))).
Proof.
  intros Hwf Hm Hp Ht Hperm Hr Hb. pose proof (wf_message n s Hwf id m Hm) as Hok.
  assert (ready_keys s !! id = None) as Hnone.
  { apply eq_None_not_Some. rewrite (ok_ready _ _ _ _ Hok), (ok_wake _ _ _ _ Hok), Ht. by intros [_ ?]. }
  assert (ready_messages s !! promotion_order m (timestamp r) (n + 1) = None) as Hfree.
  { unfold promotion_order. case_bool_decide.
    - apply (slot_key_free n s id m Hwf Hm). intros id' m' Hm' Hp' Hq.
      rewrite (current_inj n s id' m' id m Hwf Hm' Hm); try done; [..|by rewrite Hq];
        unfold is_replaced; by rewrite ?Hp, ?Hp'.
    - apply (next_key_free n s _ r Hwf Hr). intros id' Hb'. congruence. }
  set (key := promotion_order m (timestamp r) (n + 1)) in *.
  pose proof (make_ready_inverse (set_messages s (<[id := promoted m]> (messages s))) id key
    (wf_inverse n s Hwf) Hnone Hfree) as Hinv.
  assert (∀ x m0, messages s !! x = Some m0 → ∃ m1, <[id := promoted m]> (messages s) !! x = Some m1 ∧
     queue_slot m1 = queue_slot m0 ∧ accepted_seq m1 = accepted_seq m0) as Hmono.
  { intros y m0 Hy. destruct (decide (id = y)) as [<-|Hney].
    - rewrite lookup_insert_eq. eexists. split; [done|]. simplify_eq. done.
    - rewrite lookup_insert_ne by done. eauto. }
  destruct Hwf. split; try done; cbn.
  - intros id' m' [[<- <-]|[Hne Hm']]%lookup_insert_Some.
    + destruct Hok. split; try done; cbn; try lia.
      * destruct ok_origin0 as (m0 & Hm0 & Hq0 & Hs0). destruct (Hmono _ _ Hm0) as (m1 & ? & ? & ?).
        exists m1. split_and!; congruence.
      * rewrite lookup_insert_eq. rewrite Hp. split; [done|eauto].
      * intros k. rewrite lookup_insert_eq. intros [= <-]. unfold key, promotion_order.
        unfold permits_promotion, message_permits_promotion in Hperm.
        destruct (bool_decide_reflect (delivery m = Steer)); [left; done|right].
        split; [|by exists r]. by destruct (source (message m)).
    + apply (message_ok_mono n _ s _ id' m'); auto; [lia|]. cbn. by rewrite lookup_insert_ne.
  - intros q id' Hid'. destruct (wf_slot0 q id' Hid') as (m' & Hm' & Hsl).
    destruct (Hmono _ _ Hm') as (m1 & ? & Hq1 & _). exists m1. split; [done|congruence].
  - intros id' Hk. destruct (decide (id = id')) as [<-|Hne]; [rewrite lookup_insert_eq; by eexists|].
    rewrite lookup_insert_ne in Hk by done. rewrite lookup_insert_ne by done. by apply wf_keys0.
  - intros op k Hop. destruct (wf_receipt0 op k Hop) as (? & ?). split; [lia|done].
  - unfold pending_count in *. cbn. by rewrite (pending_same _ id (promoted m) m Hm).
Qed.

(** The slot of an acceptance: its own, or that of the message it succeeds. *)
Definition slot_for (n : Z) (s : Mailbox) (id : text) (time : Z) (q : QueueSlot) : Prop :=
  q = slot_initial id time (n + 1) ∨
  ∃ p mp, messages s !! p = Some mp ∧ queue_slot mp = q ∧ is_replaced mp = true ∧
    queue_slots s !! slot_id q = Some p.

Lemma slot_for_other n s id time q id' m :
  wf n s → messages s !! id = None → slot_for n s id time q → messages s !! id' = Some m →
  is_replaced m = false → slot_id (queue_slot m) ≠ slot_id q.
Proof.
  intros Hwf Hid Hq Hm Hr Heq. pose proof (wf_message n s Hwf id' m Hm) as Hok.
  destruct Hq as [->|(p & mp & Hp & <- & Hrp & Hslot)].
  - destruct (ok_origin _ _ _ _ Hok) as (m0 & Hm0 & _). rewrite Heq in Hm0. cbn in Hm0. congruence.
  - pose proof (ok_current _ _ _ _ Hok Hr) as Hc. rewrite Heq, Hslot in Hc. injection Hc as <-. congruence.
Qed.

Definition accepted_message (q : QueueSlot) (m : AgentMessage) (d : MessageDelivery) (b : option text)
    (rt : text) (t : MessageTarget) (w : bool) (r : AgentControlRecord) : StoreAgentMessage :=
  {| queue_slot := q; delivery := d; bound_turn_id := b; accepted_timestamp := timestamp r;
     message := m; root_session_id := rt; target := t; wake_required := w;
     accepted_seq := seq r; state := Pending |}.
Definition accepted (s : Mailbox) (m : StoreAgentMessage) : Mailbox :=
  let id := message_id (message m) in
  let s1 := set_messages (set_slots s (<[slot_id (queue_slot m) := id]> (queue_slots s)))
              (<[id := m]> (messages s)) in
  if wake_required m then make_ready s1 id (slot_position (queue_slot m)) else s1.

Lemma accepted_fields s m :
  controls (accepted s m) = controls s ∧ root (accepted s m) = root s ∧
  messages (accepted s m) = <[message_id (message m) := m]> (messages s) ∧
  queue_slots (accepted s m) = <[slot_id (queue_slot m) := message_id (message m)]> (queue_slots s) ∧
  queue_mutations (accepted s m) = queue_mutations s ∧ reservations (accepted s m) = reservations s ∧
  ready_keys (accepted s m) =
    (if wake_required m then <[message_id (message m) := slot_position (queue_slot m)]> (ready_keys s)
     else ready_keys s).
Proof. unfold accepted. by destruct (wake_required m). Qed.

Lemma accepted_inverse n s m r x d b rt t w :
  wf n s → messages s !! message_id (message m) = None →
  slot_for n s (message_id (message m)) (accepted_timestamp m) (queue_slot m) →
  record_at s (n + 1) = Some r → body r = MessageAccepted x d b rt t w →
  ∀ y k, ready_keys (accepted s m) !! y = Some k ↔ ready_messages (accepted s m) !! k = Some y.
Proof.
  intros Hwf Hid Hq Hr Hb. unfold accepted. destruct (wake_required m); [|apply Hwf].
  apply make_ready_inverse; cbn; [apply Hwf| |].
  - apply eq_None_not_Some. intros Hk%(wf_keys n s Hwf). rewrite Hid in Hk. by destruct Hk.
  - destruct Hq as [->|(p & mp & Hp & <- & Hrp & Hslot)].
    + apply (next_key_free n s _ r Hwf Hr). intros id Hb'. congruence.
    + apply (slot_key_free n s p mp Hwf Hp). intros id m' Hm' Hpend Heq. exfalso.
      apply (slot_for_other n s (message_id (message m)) (accepted_timestamp m) (queue_slot mp) id m' Hwf Hid); try done.
      * right. by exists p, mp.
      * unfold is_replaced. by rewrite Hpend.
      * by rewrite Heq.
Qed.

Lemma accept_wf n s m r d b rt t w :
  wf n s → messages s !! message_id (message m) = None →
  slot_for n s (message_id (message m)) (accepted_timestamp m) (queue_slot m) →
  record_at s (n + 1) = Some r → body r = MessageAccepted (message m) d b rt t w →
  accepted_seq m = n + 1 → state m = Pending → root_session_id m = root s →
  wake_required m = bool_decide (target m = NextTurn) → 0 ≤ n →
  pending_count s + reservations s < MAXIMUM_PENDING_AGENT_MESSAGES →
  wf (n + 1) (accepted s m).
Proof.
  intros Hwf Hid Hq Hr Hb Hseq Hst Hrt Hw Hn Hcap. set (id := message_id (message m)) in *.
  pose proof (accepted_inverse n s m r _ _ _ _ _ _ Hwf Hid Hq Hr Hb) as Hinv.
  destruct (accepted_fields s m) as (Hc & Hroot & Hms & Hqs & Hmu & Hrs & Hk). fold id in Hms, Hqs, Hk.
  assert (∀ x m0, messages s !! x = Some m0 → messages (accepted s m) !! x = Some m0) as Hmono.
  { intros x m0 Hx. rewrite Hms, lookup_insert_ne; congruence. }
  assert (ready_keys s !! id = None) as Hnone.
  { apply eq_None_not_Some. intros [? Hx]%(wf_keys n s Hwf). congruence. }
  set (s' := accepted s m) in *. clearbody s'. pose proof Hwf as Hwf0. destruct Hwf.
  split; rewrite ?Hc, ?Hmu, ?Hrs; try done.
  - rewrite Hms. intros id' m' [[<- <-]|[Hne Hm']]%lookup_insert_Some.
    + split; unfold record_at in *; rewrite ?Hc, ?Hroot, ?Hqs, ?Hk; try done; try lia.
      * rewrite Hseq. by exists r, d, b, rt, t, w.
      * rewrite Hseq. destruct Hq as [->|(p & mp & Hp & <- & _)]; cbn; [lia|].
        destruct (wf_message0 p mp Hp). lia.
      * destruct Hq as [Hq|(p & mp & Hp & Hq & _)].
        -- exists m. rewrite Hms, Hq. cbn. by rewrite lookup_insert_eq.
        -- destruct (ok_origin _ _ _ _ (wf_message0 p mp Hp)) as (m0 & Hm0 & Hq0 & Hs0).
           exists m0. rewrite <- Hq. split_and!; [by apply Hmono|done|congruence].
      * intros _. apply lookup_insert_eq.
      * destruct (wake_required m); [rewrite lookup_insert_eq; split; eauto|]. rewrite Hnone.
        split; [by intros []|by intros [_ ?]].
      * intros k. destruct (wake_required m); [rewrite lookup_insert_eq; intros [= <-]; by left|].
        by rewrite Hnone.
    + apply (message_ok_mono n _ s _ id' m'); auto; [lia|eauto| |].
      * intros Hrep Hslot. rewrite Hqs, lookup_insert_ne; [done|].
        intros Heq. by apply (slot_for_other n s id (accepted_timestamp m) (queue_slot m) id' m' Hwf0).
      * rewrite Hk. destruct (wake_required m); [by apply lookup_insert_ne|done].
  - rewrite Hqs. intros q id' [[<- <-]|[Hne Hid']]%lookup_insert_Some.
    + exists m. rewrite Hms, lookup_insert_eq. done.
    + destruct (wf_slot0 q id' Hid') as (m' & Hm' & ?). exists m'. split; [by apply Hmono|done].
  - intros id'. rewrite Hk, Hms. destruct (decide (id = id')) as [<-|Hne].
    + intros _. rewrite lookup_insert_eq. by eexists.
    + rewrite lookup_insert_ne by done. intros Hx. apply wf_keys0. destruct (wake_required m); [|done].
      by rewrite lookup_insert_ne in Hx.
  - intros op k Hop. destruct (wf_receipt0 op k Hop) as (? & Hrec). unfold record_at in *. rewrite Hc.
    split; [lia|done].
  - unfold pending_count in *. rewrite Hms, pending_insert; [lia| |done]. intros y Hy. congruence.
Qed.

Lemma wf_later n n' s : n ≤ n' → wf n s → wf n' s.
Proof.
  intros Hn []. split; try done.
  - intros id m Hm. by apply (message_ok_mono n _ s); eauto.
  - intros op k Hop. destruct (wf_receipt0 op k Hop). split; [lia|done].
Qed.

Lemma receipt_wf n s r rc :
  wf n s → record_at s (n + 1) = Some r → body r = QueueMutationRecorded rc →
  wf (n + 1) (set_mutations s (<[rc_operation rc := n + 1]> (queue_mutations s))).
Proof.
  intros Hwf Hr Hb. apply (wf_later n (n + 1)) in Hwf; [|lia]. destruct Hwf. split; try done.
  - intros id m Hm. by apply (message_ok_mono (n + 1) _ s); eauto; lia.
  - cbn. intros op k [[<- <-]|[Hne Hop]]%lookup_insert_Some; [|by apply wf_receipt0].
    split; [lia|]. by exists r, rc.
Qed.

(** The current message of every slot but [q] is not replaced. *)
Definition settled_but (q : option text) (s : Mailbox) : Prop :=
  ∀ q' id m, Some q' ≠ q → queue_slots s !! q' = Some id → messages s !! id = Some m →
    is_replaced m = false.

(** Between a successor's link and its acceptance its slot is without a message. *)
Definition between (n : Z) (s : Mailbox) (rs : list AgentControlRecord) : Prop :=
  match body <$> record_at s n with
  | Some (MessageSuccessor p successor q) =>
      settled_but (Some (slot_id q)) s ∧
      (∃ m, messages s !! p = Some m ∧ queue_slot m = q ∧ is_replaced m = true ∧
        queue_slots s !! slot_id q = Some p) ∧
      ∃ a rest x d b rt t w, rs = a :: rest ∧ body a = MessageAccepted x d b rt t w ∧
        message_id x = successor
  | _ => settled_but None s
  end.

(** What later records do to messages: those that are not pending stay as they are. *)
Definition evolves (s s' : Mailbox) : Prop :=
  ∀ id m, messages s !! id = Some m → ∃ m', messages s' !! id = Some m' ∧
    message m' = message m ∧ queue_slot m' = queue_slot m ∧ (state m ≠ Pending → m' = m).

Lemma evolves_refl s : evolves s s.
Proof. intros id m Hm. eauto 6. Qed.
Lemma evolves_trans s1 s2 s3 : evolves s1 s2 → evolves s2 s3 → evolves s1 s3.
Proof.
  intros H12 H23 id m Hm. destruct (H12 id m Hm) as (m2 & Hm2 & ? & ? & Hf2).
  destruct (H23 id m2 Hm2) as (m3 & Hm3 & ? & ? & Hf3). exists m3.
  split_and!; [done|congruence|congruence|]. intros Hp. rewrite (Hf3 ltac:(by rewrite (Hf2 Hp))). auto.
Qed.
Lemma evolves_update s s' id m m' :
  messages s !! id = Some m → state m = Pending → messages s' = <[id := m']> (messages s) →
  message m' = message m → queue_slot m' = queue_slot m → evolves s s'.
Proof.
  intros Hm Hp Hms Hmm Hq id' m0 Hm0. rewrite Hms. destruct (decide (id = id')) as [<-|Hne].
  - rewrite lookup_insert_eq. exists m'. simplify_eq. split_and!; done.
  - rewrite lookup_insert_ne by done. eauto 6.
Qed.

(** A step of the projection: [n] records were processed, [r] is next. *)
Record next_record (n : Z) (s : Mailbox) (r : AgentControlRecord) (rest : list AgentControlRecord) : Prop := {
  next_wf : wf n s;
  next_between : between n s (r :: rest);
  next_drop : drop (Z.to_nat n) (controls s) = r :: rest;
  next_nonneg : 0 ≤ n
}.

Lemma next_facts n s r rest :
  next_record n s r rest →
  seq r = n + 1 ∧ record_at s (n + 1) = Some r ∧ record_valid r = true ∧
  drop (Z.to_nat (n + 1)) (controls s) = rest.
Proof.
  intros [Hwf _ Hd Hn]. assert (controls s !! Z.to_nat n = Some r) as Hr.
  { rewrite <- (Nat.add_0_r (Z.to_nat n)), <- lookup_drop, Hd. done. }
  split_and!.
  - apply (wf_seq n s Hwf) in Hr. lia.
  - unfold record_at. destruct (Z.leb_spec 1 (n + 1)); [|lia]. by replace (n + 1 - 1) with n by lia.
  - apply (wf_valid n s Hwf). by eapply list_elem_of_lookup_2.
  - replace (Z.to_nat (n + 1)) with (Z.to_nat n + 1)%nat by lia. by rewrite <- drop_drop, Hd.
Qed.

(** A record that is not an acceptance follows a settled state. *)
Lemma between_settled n s r rest :
  between n s (r :: rest) → (∀ x d b rt t w, body r ≠ MessageAccepted x d b rt t w) → settled_but None s.
Proof.
  intros Hb Hr. unfold between in Hb. repeat case_match; try done.
  destruct Hb as (_ & _ & a' & l' & x' & d' & b' & rt' & t' & w' & [= <- <-] & Ha & _). by apply Hr in Ha.
Qed.

Lemma between_after n s rs r :
  record_at s n = Some r → (∀ p q x, body r ≠ MessageSuccessor p q x) → settled_but None s → between n s rs.
Proof. intros Hr Hb Hs. unfold between. rewrite Hr. cbn. destruct (body r); try done. by edestruct Hb. Qed.

(** What a processed record leaves. *)
Definition processed (n : Z) (s : Mailbox) (rest : list AgentControlRecord) (s' : Mailbox) : Prop :=
  wf (n + 1) s' ∧ between (n + 1) s' rest ∧ controls s' = controls s ∧ root s' = root s ∧
  reservations s' = reservations s ∧ evolves s s'.

Lemma settled_update s s' id m m' q :
  settled_but q s → messages s !! id = Some m → messages s' = <[id := m']> (messages s) →
  queue_slots s' = queue_slots s → (is_replaced m' = true → ∃ q', q = Some q' ∧ slot_id (queue_slot m) = q') →
  (∀ q' i, queue_slots s !! q' = Some i → ∃ x, messages s !! i = Some x ∧ slot_id (queue_slot x) = q') →
  settled_but q s'.
Proof.
  intros Hs Hm Hms Hqs Hr Hslots q' id' x Hne Hq. rewrite Hms. rewrite Hqs in Hq.
  intros [[<- <-]|[Hid Hx]]%lookup_insert_Some; [|by eapply Hs].
  destruct (is_replaced m') eqn:Hr'; [|done]. destruct Hr as (y & -> & Heq); [done|].
  destruct (Hslots q' id Hq) as (z & Hz & Hzq). congruence.
Qed.

(** A pending message is claimed or discarded. *)
Lemma settle_processed n s r rest id m x :
  next_record n s r rest → (∀ y d b rt t w, body r ≠ MessageAccepted y d b rt t w) →
  (∀ p q y, body r ≠ MessageSuccessor p q y) →
  messages s !! id = Some m → state m = Pending → x ≠ Pending → is_replaced (with_state m x) = false →
  processed n s rest (unready (set_messages s (<[id := with_state m x]> (messages s))) id).
Proof.
  intros Hnext Ha Hsu Hm Hp Hx Hrep. destruct (next_facts n s r rest Hnext) as (_ & Hr & _ & _).
  destruct Hnext as [Hwf Hb _ _]. pose proof (settle_wf n s id m x Hwf Hm Hp Hx) as Hwf'.
  pose proof (between_settled n s r rest Hb Ha) as Hs.
  destruct (unready_fields (set_messages s (<[id := with_state m x]> (messages s))) id) as (Hc & Hrt & Hms & Hq & _ & Hrs).
  split_and!; try done.
  - apply (between_after _ _ _ r); [unfold record_at in *; by rewrite Hc|done|].
    eapply (settled_update s _ id m); [done|done|exact Hms|exact Hq|congruence|]. apply Hwf.
  - by apply (evolves_update s _ id m (with_state m x)).
Qed.

Lemma accepted_slot_for n s r rest x d b rt t w :
  next_record n s r rest → body r = MessageAccepted x d b rt t w →
  slot_for n s (message_id x) (timestamp r) (accepted_slot s r (message_id x)) ∧
  settled_but (Some (slot_id (accepted_slot s r (message_id x)))) s.
Proof.
  intros Hnext Hbody. destruct (next_facts n s r rest Hnext) as (Hseq & _).
  destruct Hnext as [Hwf Hb _ Hn]. unfold between, record_at in Hb. unfold accepted_slot. rewrite Hseq.
  replace (n + 1 - 2) with (n - 1) by lia.
  destruct (Z.leb_spec 1 n) as [H1|H1].
  - destruct (controls s !! Z.to_nat (n - 1)) as [[n0 t0 b0]|]; cbn in Hb.
    2:{ split; [by left|]. intros q id m Hne. by apply Hb. }
    destruct b0; try (split; [by left|intros ????; by apply Hb]).
    destruct Hb as (Hs & (m & Hp & Hq & Hr & Hslot) & a & l & y & d' & b' & rt' & t' & w' & [= <- <-] & Ha & Hy).
    assert (successor = message_id x) as -> by congruence.
    rewrite bool_decide_true by done. destruct (Z.leb_spec 2 (n + 1)); [|lia]. cbn.
    split; [right; by exists predecessor, m|done].
  - assert (n = 0) as -> by lia. change (Z.to_nat (0 - 1)) with 0%nat.
    assert (settled_but (Some (slot_id (slot_initial (message_id x) (timestamp r) (0 + 1)))) s) as Hs.
    { intros q id m _. by apply Hb. }
    split; [left|]; repeat case_match; try done; simplify_eq; cbn in *; lia.
Qed.

(** *** Every kind of record *)
Definition applies (claim_fact : text → bool) (n : Z) (s : Mailbox) (r : AgentControlRecord)
    (rest : list AgentControlRecord) : Prop :=
  match apply_record claim_fact s r rest with
  | Ok s' => processed n s rest s'
  | Err _ => True
  | Panic => False
  end.

(** An acceptance that passes its checks. *)
Lemma apply_accepted claim_fact n s r rest x d b rt t w :
  next_record n s r rest → body r = MessageAccepted x d b rt t w →
  rt = root s → pending_count s + reservations s < MAXIMUM_PENDING_AGENT_MESSAGES →
  messages s !! message_id x = None →
  let m := accepted_message (accepted_slot s r (message_id x)) x d b rt t w r in
  apply_record claim_fact s r rest = Ok (accepted s m) ∧ processed n s rest (accepted s m).
Proof.
  intros Hnext Hb -> Hcap Hnone m. destruct (next_facts n s r rest Hnext) as (Hseq & Hr & Hvalid & _).
  destruct (accepted_slot_for n s r rest x d b (root s) t w Hnext Hb) as [Hslot Hsettled].
  destruct Hnext as [Hwf Hbet _ Hn].
  assert (w = bool_decide (t = NextTurn)) as Hw.
  { unfold record_valid in Hvalid. rewrite Hb in Hvalid. cbn in Hvalid.
    rewrite !andb_true_iff in Hvalid. destruct Hvalid as [[[_ [_ Hw%eqb_prop]] _] _]. done. }
  assert (ready_keys s !! message_id x = None) as Hkey.
  { apply eq_None_not_Some. intros [? Hx]%(wf_keys n s Hwf). congruence. }
  split.
  - unfold apply_record, check_withdrawal, check_successor, update_messages, update_ready.
    rewrite Hb. cbn [obind]. rewrite bool_decide_true by done. cbn [negb].
    destruct (Z.leb_spec MAXIMUM_PENDING_AGENT_MESSAGES (pending_count s + reservations s)); [lia|].
    rewrite bool_decide_false by (rewrite Hnone; by intros []). cbn [obind]. unfold accepted. cbn [wake_required m accepted_message].
    destruct w; [|done]. cbn [ready_keys set_messages set_slots messages].
    rewrite bool_decide_false by (rewrite Hkey; by intros []). by rewrite lookup_insert_eq.
  - assert (wf (n + 1) (accepted s m)) as Hwf'.
    { by apply (accept_wf n s m r d b (root s) t w). }
    destruct (accepted_fields s m) as (Hc & Hrt & Hms & Hq & _ & Hrs & _).
    split_and!; try done.
    + apply (between_after _ _ _ r); [unfold record_at in *; by rewrite Hc|by rewrite Hb|].
      intros q id m' _. rewrite Hq, Hms. cbn [message queue_slot m accepted_message].
      intros [[<- <-]|[Hne Hqs]]%lookup_insert_Some.
      * rewrite lookup_insert_eq. by intros [= <-].
      * destruct (wf_slot n s Hwf q id Hqs) as (m0 & Hm0 & _). rewrite lookup_insert_ne by congruence.
        apply (Hsettled q id); [congruence|done].
    + intros id m' Hm'. rewrite Hms. exists m'. cbn [message m accepted_message].
      rewrite lookup_insert_ne by congruence. done.
Qed.

Lemma accepted_applies claim_fact n s r rest x d b rt t w :
  next_record n s r rest → body r = MessageAccepted x d b rt t w → applies claim_fact n s r rest.
Proof.
  intros Hnext Hb. unfold applies.
  destruct (decide (rt = root s ∧ pending_count s + reservations s < MAXIMUM_PENDING_AGENT_MESSAGES ∧
    messages s !! message_id x = None)) as [(Hrt & Hcap & Hnone)|Hno].
  - destruct (apply_accepted claim_fact n s r rest x d b rt t w Hnext Hb Hrt Hcap Hnone) as [-> ?]. done.
  - unfold apply_record, check_withdrawal, check_successor, update_messages. rewrite Hb. cbn [obind].
    case_bool_decide as Hrt; cbn [negb]; [|done].
    destruct (Z.leb_spec MAXIMUM_PENDING_AGENT_MESSAGES (pending_count s + reservations s)); [done|].
    case_bool_decide as Hid; [done|]. apply eq_None_not_Some in Hid. by destruct Hno.
Qed.

(** A link and what its validation shows of the records that follow. *)
Lemma successor_shape before r rest p su q :
  body r = MessageSuccessor p su q → validate_queue_record before r rest = Ok tt →
  ∃ a c l x d b rt t w rc, rest = a :: c :: l ∧ body a = MessageAccepted x d b rt t w ∧
    body c = QueueMutationRecorded rc ∧ message_id x = su ∧ p = rc_expected rc.
Proof.
  intros Hb. unfold validate_queue_record. rewrite Hb. destruct rest as [|a [|c l]]; [done|done|].
  destruct (body a) eqn:Ha; try done. destruct (body c) eqn:Hc; try done. intros Hv.
  apply obind_ok in Hv as ([[id k] bound0] & _ & Hv). destruct (_ || _) eqn:Hcond; [done|].
  rewrite !orb_false_iff, !negb_false_iff, !bool_decide_eq_true in Hcond.
  destruct Hcond as [[[[[Hp _] _] Hx] _] _].
  eexists a, c, l, _, _, _, _, _, _, _. split_and!; [done|exact Ha|exact Hc|done|done].
Qed.

Lemma successor_applies claim_fact n s r rest before p su q :
  next_record n s r rest → body r = MessageSuccessor p su q →
  validate_queue_record before r rest = Ok tt → applies claim_fact n s r rest.
Proof.
  intros Hnext Hb Hv. destruct (next_facts n s r rest Hnext) as (Hseq & Hr & _ & _).
  destruct (successor_shape before r rest p su q Hb Hv) as (a & c & l & x & d & b & rt & t & w & rc & -> & Ha & Hc & Hx & _).
  assert (settled_but None s) as Hset by (apply (between_settled n s r _ (next_between _ _ _ _ Hnext)); congruence).
  destruct Hnext as [Hwf _ _ _].
  unfold applies, apply_record, check_withdrawal, check_successor, update_messages, update_ready.
  rewrite Hb. cbn [obind lookup list_lookup].
  destruct (messages s !! p) as [m|] eqn:Hm; cbn [ok_or obind]; [|done].
  cbn [expect obind list_lookup lookup]. destruct (validate_queue_successor m r a c) as [q'|e|] eqn:Hval; cbn [obind]; [|done|].
  2:{ unfold validate_queue_successor in Hval. rewrite Hb, Ha, Hc in Hval. by repeat case_match. }
  assert (state m = Pending ∧ queue_slot m = q) as [Hp <-].
  { unfold validate_queue_successor in Hval. rewrite Hb, Ha, Hc in Hval.
    destruct (_ || _) eqn:Hcond; [done|]. rewrite !orb_false_iff, !negb_false_iff, !bool_decide_eq_true in Hcond.
    destruct Hcond as [[[[[[[_ ?] ?] _] _] _] _] _]. done. }
  assert (Discarded Replaced (seq r) ≠ Pending) as Hx' by done.
  pose proof (settle_wf n s p m _ Hwf Hm Hp Hx') as Hwf'.
  destruct (unready_fields (set_messages s (<[p := with_state m (Discarded Replaced (seq r))]> (messages s))) p)
    as (Hcs & Hrt & Hms & Hqs & _ & Hrs). split_and!; try done.
  - unfold between, record_at in *. rewrite Hcs. cbn [controls set_messages]. rewrite Hr. cbn. rewrite Hb. split_and!.
    + eapply (settled_update s _ p m); [|done|exact Hms|exact Hqs| |apply Hwf].
      * intros q1 id1 m1 _. by apply Hset.
      * intros _. eauto.
    + exists (with_state m (Discarded Replaced (seq r))). rewrite Hms, Hqs. cbn.
      rewrite lookup_insert_eq. split_and!; try done.
      apply (ok_current n s p m (wf_message n s Hwf p m Hm)). unfold is_replaced. by rewrite Hp.
    + by exists a, (c :: l), x, d, b, rt, t, w.
  - by apply (evolves_update s _ p m (with_state m (Discarded Replaced (seq r)))).
Qed.

Lemma check_withdrawal_result s r rest : check_withdrawal s r rest ≠ Panic.
Proof.
  unfold check_withdrawal, validate_queue_withdrawal. repeat (case_match; try done).
  destruct (messages s !! id); cbn; [|done]. by case_match.
Qed.

Lemma check_successor_none s r rest :
  (∀ p q x, body r ≠ MessageSuccessor p q x) → check_successor s r rest = Ok tt.
Proof. intros Hr. unfold check_successor. destruct (body r); try done. by edestruct Hr. Qed.

(** A record whose update leaves the messages alone. *)
Lemma unchanged_processed n s s' r rest :
  next_record n s r rest → (∀ y d b rt t w, body r ≠ MessageAccepted y d b rt t w) →
  (∀ p q y, body r ≠ MessageSuccessor p q y) →
  wf (n + 1) s' → controls s' = controls s → root s' = root s → reservations s' = reservations s →
  messages s' = messages s → queue_slots s' = queue_slots s → processed n s rest s'.
Proof.
  intros Hnext Ha Hsu Hwf Hc Hrt Hrs Hm Hq. destruct (next_facts n s r rest Hnext) as (_ & Hr & _ & _).
  pose proof (between_settled n s r rest (next_between _ _ _ _ Hnext) Ha) as Hset.
  split_and!; try done.
  - apply (between_after _ _ _ r); [unfold record_at in *; by rewrite Hc|done|].
    intros q id m. rewrite Hm, Hq. apply Hset.
  - intros id m. rewrite Hm. eauto 6.
Qed.

Lemma settling_applies claim_fact n s r rest id :
  next_record n s r rest →
  (∃ activation turn step k, body r = MessageClaimed id activation turn step k) ∨
  (∃ reason, body r = MessageDiscarded id reason ∧ reason ≠ Replaced) →
  applies claim_fact n s r rest.
Proof.
  intros Hnext Hb. unfold applies, apply_record.
  pose proof (check_withdrawal_result s r rest) as Hw. destruct (check_withdrawal s r rest) as [[]|e|]; [|done|done].
  rewrite check_successor_none by (destruct Hb as [(? & ? & ? & ? & ->)|(? & -> & _)]; congruence).
  cbn [obind]. unfold update_messages, update_ready.
  assert (∀ m x, messages s !! id = Some m → state m = Pending → x ≠ Pending → is_replaced (with_state m x) = false →
    processed n s rest (unready (set_messages s (<[id := with_state m x]> (messages s))) id)) as Hsettle.
  { intros m x. apply (settle_processed n s r rest id m x Hnext);
      destruct Hb as [(? & ? & ? & ? & ->)|(? & -> & _)]; congruence. }
  destruct Hb as [(activation & turn & step & k & ->)|(reason & -> & Hreason)];
    (destruct (messages s !! id) as [m|] eqn:Hm; cbn [ok_or obind]; [|done]); unfold is_pending.
  - case_bool_decide as Hp; cbn [negb]; [|done]. destruct (negb (validate_claim_turn m turn)); [done|].
    destruct (negb (claim_fact id)); [done|]. cbn [obind]. by apply Hsettle.
  - case_bool_decide as Hp; cbn [negb obind]; [|done]. apply Hsettle; try done. by destruct reason.
Qed.

Lemma promoted_applies claim_fact n s r rest id :
  next_record n s r rest → body r = MessagePromoted id → applies claim_fact n s r rest.
Proof.
  intros Hnext Hb. destruct (next_facts n s r rest Hnext) as (Hseq & Hr & _ & _).
  pose proof (next_wf _ _ _ _ Hnext) as Hwf.
  assert (settled_but None s) as Hset by (apply (between_settled n s r _ (next_between _ _ _ _ Hnext)); congruence).
  unfold applies, apply_record, check_withdrawal. rewrite check_successor_none by congruence.
  unfold update_messages, update_ready. rewrite Hb. cbn [obind].
  destruct (messages s !! id) as [m|] eqn:Hm; cbn [ok_or obind]; [|done].
  destruct (_ || _) eqn:Hcond; [done|]. cbn [obind].
  rewrite !orb_false_iff, !negb_false_iff in Hcond. destruct Hcond as [[[Hp Ht] _] Hperm].
  apply bool_decide_eq_true in Hp, Ht. cbn [ready_keys set_messages messages].
  case_bool_decide; [done|]. rewrite lookup_insert_eq. cbn [ok_or obind].
  assert (promotion_order (promoted m) (timestamp r) (seq r) = promotion_order m (timestamp r) (n + 1)) as ->
    by by rewrite Hseq.
  pose proof (promote_wf n s id m r Hwf Hm Hp Ht Hperm Hr Hb) as Hwf'. split_and!; try done.
  - apply (between_after _ _ _ r); [done|congruence|].
    eapply (settled_update s _ id m (promoted m)); [done|done|done|done| |apply Hwf].
    unfold is_replaced. cbn. by rewrite Hp.
  - by apply (evolves_update s _ id m (promoted m)).
Qed.

Lemma record_applies claim_fact n s r rest before :
  next_record n s r rest → validate_queue_record before r rest = Ok tt → applies claim_fact n s r rest.
Proof.
  intros Hnext Hv. destruct (next_facts n s r rest Hnext) as (Hseq & Hr & _ & _).
  pose proof (next_wf _ _ _ _ Hnext) as Hwf. destruct (body r) eqn:Hb.
  - by eapply accepted_applies.
  - by eapply successor_applies.
  - unfold applies, apply_record, check_withdrawal. rewrite check_successor_none by congruence.
    unfold update_messages, update_ready. rewrite Hb. cbn [obind]. case_bool_decide; [done|].
    cbn [obind]. rewrite Hseq. apply (unchanged_processed n s _ r); try done; [congruence|congruence|].
    by apply (receipt_wf n s r).
  - apply (settling_applies claim_fact n s r rest id Hnext). left. eauto.
  - by eapply promoted_applies.
  - apply (settling_applies claim_fact n s r rest id Hnext). right. exists reason. split; [done|].
    intros ->. unfold validate_queue_record in Hv. by rewrite Hb in Hv.
  - unfold applies, apply_record, check_withdrawal. rewrite check_successor_none by congruence.
    unfold update_messages, update_ready. rewrite Hb. cbn [obind].
    apply (unchanged_processed n s _ r); try done; [congruence|congruence|]. apply (wf_later n); [lia|done].
Qed.

Lemma apply_records_ok claim_fact n s rs before :
  wf n s → between n s rs → drop (Z.to_nat n) (controls s) = rs → 0 ≤ n →
  validate_suffix_from before rs = Ok tt →
  match apply_records claim_fact s rs with
  | Ok s' => wf (n + len rs) s' ∧ between (n + len rs) s' [] ∧ controls s' = controls s ∧
      root s' = root s ∧ reservations s' = reservations s ∧ evolves s s'
  | Err _ => True
  | Panic => False
  end.
Proof.
  revert n s before. induction rs as [|r rs IH]; intros n s before Hwf Hb Hd Hn Hv; cbn [apply_records].
  - change (len []) with 0. rewrite Z.add_0_r. split_and!; try done. apply evolves_refl.
  - apply obind_ok in Hv as ([] & Hv & Hv').
    assert (next_record n s r rs) as Hnext by done.
    pose proof (record_applies claim_fact n s r rs before Hnext Hv) as Happ. unfold applies in Happ.
    destruct (apply_record claim_fact s r rs) as [s1|e|]; cbn [obind]; [|done|done].
    destruct Happ as (Hwf1 & Hb1 & Hc1 & Hrt1 & Hrs1 & Hev1).
    assert (drop (Z.to_nat (n + 1)) (controls s1) = rs) as Hd1.
    { rewrite Hc1. by apply (next_facts n s r rs Hnext). }
    specialize (IH (n + 1) s1 (r :: before) Hwf1 Hb1 Hd1 ltac:(lia) Hv').
    destruct (apply_records claim_fact s1 rs) as [s2|e|]; [|done|done].
    destruct IH as (? & ? & ? & ? & ? & ?). rewrite len_cons. replace (n + (1 + len rs)) with (n + 1 + len rs) by lia.
    split_and!; try done; try congruence. by eapply evolves_trans.
Qed.

(** *** Commits *)
Definition mailbox_sound (s : Mailbox) : Prop :=
  wf (len (controls s)) s ∧ between (len (controls s)) s [].

Lemma sound_between s rs :
  mailbox_sound s → between (len (controls s)) (set_controls s (controls s ++ rs)) rs.
Proof.
  intros [_ Hb]. unfold between in *.
  assert (record_at (set_controls s (controls s ++ rs)) (len (controls s)) = record_at s (len (controls s))) as ->.
  { unfold record_at. destruct (Z.leb_spec 1 (len (controls s))); [|done]. cbn.
    apply lookup_app_l. unfold len in *. lia. }
  destruct (body <$> record_at s (len (controls s))) as [[]|]; try exact Hb.
  by destruct Hb as (_ & _ & a' & l' & x' & d' & b' & rt' & t' & w' & ? & _).
Qed.

Lemma sound_settled s : mailbox_sound s → settled_but None s.
Proof.
  intros [_ Hb]. unfold between in Hb. destruct (body <$> _) as [[]|]; try exact Hb.
  by destruct Hb as (_ & _ & a' & l' & x' & d' & b' & rt' & t' & w' & ? & _).
Qed.

Lemma suffix_no_panic before rs : validate_suffix_from before rs ≠ Panic.
Proof.
  revert before. induction rs as [|r rs IH]; intros before; cbn; [done|].
  apply obind_no_panic; [|by intros []]. unfold validate_queue_record.
  repeat (case_match; try done); (apply obind_no_panic; [done|]; intros [[? ?] ?] _; by case_match).
Qed.

Lemma contiguous_seq after rs i r :
  contiguous after rs = true → rs !! i = Some r → seq r = after + 1 + Z.of_nat i.
Proof.
  revert after i. induction rs as [|r' rs IH]; intros after i; [done|]. cbn [contiguous].
  rewrite !andb_true_iff, Z.eqb_eq. intros [[Hs _] Hc]. destruct i as [|i]; cbn.
  - intros [= ->]. lia.
  - intros Hi. rewrite (IH _ _ Hc Hi). lia.
Qed.

Lemma last_seq_len s : wf (len (controls s)) s → last_seq s = len (controls s).
Proof.
  intros Hwf. unfold last_seq, len. rewrite last_lookup. destruct (controls s) as [|r l] eqn:Hc; [done|].
  cbn [length Nat.pred]. destruct ((r :: l) !! length l) as [x|] eqn:Hx; cbn [from_option].
  - rewrite <- Hc in Hx. apply (wf_seq _ s Hwf) in Hx. rewrite Hx. lia.
  - apply lookup_ge_None in Hx. cbn in Hx. lia.
Qed.

Lemma record_at_app s rs n r :
  record_at s n = Some r → record_at (set_controls s (controls s ++ rs)) n = Some r.
Proof.
  unfold record_at. destruct (1 <=? n); [|done]. cbn. intros Hr. by apply lookup_app_l_Some.
Qed.

Lemma extend_wf s rs :
  wf (len (controls s)) s → contiguous (len (controls s)) rs = true →
  Forall (λ r, record_valid r = true) rs → wf (len (controls s)) (set_controls s (controls s ++ rs)).
Proof.
  intros [] Hc Hv. split; try done; cbn.
  - intros i r [Hr|[Hi Hr]]%lookup_app_Some; [by apply wf_seq0|].
    rewrite (contiguous_seq _ _ _ _ Hc Hr). unfold len. lia.
  - intros r [Hr|Hr]%elem_of_app; [by apply wf_valid0|]. rewrite Forall_forall in Hv. by apply Hv.
  - intros id m Hm. destruct (wf_message0 id m Hm). split; try done.
    + destruct ok_accepted0 as (r & d & b & rt & t & w & Hr & Hb). exists r, d, b, rt, t, w.
      split; [by apply record_at_app|done].
    + intros k Hk. destruct (ok_key0 k Hk) as [?|[? (r & Hr & ?)]]; [by left|right].
      split; [done|]. exists r. split; [by apply record_at_app|done].
  - intros op k Hop. destruct (wf_receipt0 op k Hop) as (? & r & rc & Hr & ?). split; [done|].
    exists r, rc. split; [by apply record_at_app|done].
Qed.

Lemma append_sound claim_fact s expected rs :
  mailbox_sound s → Forall (λ r, record_valid r = true) rs →
  match append claim_fact s expected rs with
  | Ok s' => mailbox_sound s' ∧ evolves s s' ∧ controls s' = controls s ++ rs ∧ root s' = root s ∧
      reservations s' = reservations s
  | Err _ => True
  | Panic => False
  end.
Proof.
  intros Hs Hv. unfold append. destruct (_ <? len rs); [done|]. destruct (negb (expected <? _)); [done|].
  destruct (contiguous expected rs) eqn:Hc; cbn [negb]; [|done].
  pose proof (suffix_no_panic [] rs) as Hnp. fold (validate_queue_suffix rs) in Hnp.
  destruct (validate_queue_suffix rs) as [[]|e|] eqn:Hq; cbn [obind]; [|done|done].
  rewrite (last_seq_len s (proj1 Hs)).
  destruct (Z.eqb_spec (len (controls s)) expected) as [<-|]; cbn [negb]; [|done].
  pose proof (sound_between s rs Hs) as Hb1. destruct Hs as [Hwf _].
  pose proof (apply_records_ok claim_fact _ _ rs [] (extend_wf s rs Hwf Hc Hv) Hb1) as Happ.
  assert (drop (Z.to_nat (len (controls s))) (controls s ++ rs) = rs) as Hd
    by (unfold len; by rewrite Nat2Z.id, drop_app_length).
  specialize (Happ Hd ltac:(unfold len; lia) Hq).
  destruct (apply_records claim_fact _ rs) as [s2|e|]; [|done|done].
  destruct Happ as (Hwf2 & Hb2 & Hc2 & Hrt2 & Hrs2 & Hev). cbn in Hc2.
  assert (len (controls s2) = len (controls s) + len rs) as Hlen
    by (rewrite Hc2; unfold len; rewrite length_app; lia).
  split_and!; try done; unfold mailbox_sound; by rewrite Hlen.
Qed.

(** ** Histories

    Commits of arbitrary well-formed records, from callers that may be behind the tail, and
    changes of the reservations by other components, which take only free room. *)
Inductive event :=
| Appended (claim_fact : text → bool) (expected : Z) (rs : list AgentControlRecord)
| Reserved (n : Z).

Definition occur (s : Mailbox) (e : event) : option Mailbox :=
  match e with
  | Appended claim_fact expected rs =>
      if forallb record_valid rs then
        match append claim_fact s expected rs with
        | Ok s' => Some s'
        | Err _ => Some s
        | Panic => None
        end
      else Some s
  | Reserved n =>
      Some (if (0 <=? n) && ((n <=? reservations s) || (pending_count s + n <=? MAXIMUM_PENDING_AGENT_MESSAGES))
            then set_reservations s n else s)
  end.
Fixpoint run (s : Mailbox) (es : list event) : option Mailbox :=
  match es with
  | [] => Some s
  | e :: rest => match occur s e with Some s' => run s' rest | None => None end
  end.

Lemma empty_sound r : mailbox_sound (empty_mailbox r).
Proof.
  split; [split; cbn; try done|].
  - intros r' []%elem_of_nil.
  - by intros id [].
  - intros q id m _ Hq. done.
Qed.

Lemma set_reservations_sound s n :
  mailbox_sound s → 0 ≤ n → pending_count s + n ≤ MAXIMUM_PENDING_AGENT_MESSAGES →
  mailbox_sound (set_reservations s n).
Proof.
  intros [[] Hb] Hn Hcap. split; [|exact Hb]. split; try done. intros id m Hm.
  destruct (wf_message0 id m Hm). by split.
Qed.

Lemma mailbox_occur s e :
  mailbox_sound s → ∃ s', occur s e = Some s' ∧ mailbox_sound s' ∧ evolves s s'.
Proof.
  intros Hs. destruct e as [claim_fact expected rs|n]; cbn [occur].
  - destruct (forallb record_valid rs) eqn:Hv; [|exists s; split_and!; try done; apply evolves_refl].
    assert (Forall (λ r, record_valid r = true) rs) as Hvalid
      by (apply Forall_forall; intros r Hr; rewrite forallb_forall in Hv; apply Hv; by apply list_elem_of_In).
    pose proof (append_sound claim_fact s expected rs Hs Hvalid) as Ha.
    destruct (append claim_fact s expected rs) as [s'|e|]; [|exists s; split_and!; try done; apply evolves_refl|done].
    destruct Ha as (? & ? & _). eauto.
  - eexists. split; [done|]. case_match eqn:Hcond; [|split; [done|apply evolves_refl]].
    split; [|intros id m Hm; eauto 6]. rewrite andb_true_iff, orb_true_iff, !Z.leb_le in Hcond.
    destruct Hs as [Hwf Hb]. apply set_reservations_sound; [done|lia|].
    pose proof (wf_capacity _ s Hwf). lia.
Qed.

Lemma mailbox_run s es :
  mailbox_sound s → ∃ s', run s es = Some s' ∧ mailbox_sound s' ∧ evolves s s'.
Proof.
  revert s. induction es as [|e es IH]; intros s Hs; cbn; [eauto using evolves_refl|].
  destruct (mailbox_occur s e Hs) as (s1 & -> & Hs1 & Hev). destruct (IH s1 Hs1) as (s2 & ? & ? & ?).
  exists s2. eauto using evolves_trans.
Qed.

(** ** Properties *)

(** C29: the projection is consistent. In every history of commits (of any well-formed control
    records, in any order, also by callers behind the tail) the Store never panics and:
    every message but the replaced ones is the current message of its queue slot and every
    slot has one; the ready index holds exactly the pending waking messages, each under a
    key of its own; pending messages and reserved completions fit the mailbox bound. *)
Theorem mailbox_consistent r es :
  ∃ s, run (empty_mailbox r) es = Some s ∧
    (∀ id m, messages s !! id = Some m →
       (is_replaced m = false ↔ queue_slots s !! slot_id (queue_slot m) = Some id)) ∧
    (∀ q id, queue_slots s !! q = Some id →
       ∃ m, messages s !! id = Some m ∧ slot_id (queue_slot m) = q ∧ is_replaced m = false) ∧
    (∀ id, is_Some (ready_keys s !! id) ↔
       ∃ m, messages s !! id = Some m ∧ state m = Pending ∧ wake_required m = true) ∧
    (∀ id k, ready_keys s !! id = Some k ↔ ready_messages s !! k = Some id) ∧
    pending_count s + reservations s ≤ MAXIMUM_PENDING_AGENT_MESSAGES.
Proof.
  destruct (mailbox_run _ es (empty_sound r)) as (s & Hrun & Hs & _). exists s.
  pose proof Hs as [Hwf _]. pose proof (sound_settled s Hs) as Hset.
  split_and!; [done|..|by apply Hwf|by apply Hwf].
  - intros id m Hm. split; [by apply (wf_message _ s Hwf id m Hm)|].
    intros Hq. by apply (Hset _ id m ltac:(done) Hq).
  - intros q id Hq. destruct (wf_slot _ s Hwf q id Hq) as (m & Hm & ?). exists m.
    split_and!; [done|done|]. by apply (Hset q id).
  - intros id. split.
    + intros Hk. destruct (wf_keys _ s Hwf id Hk) as [m Hm]. exists m. split; [done|].
      by apply (ok_ready _ _ _ _ (wf_message _ s Hwf id m Hm)).
    + intros (m & Hm & Hpw). by apply (ok_ready _ _ _ _ (wf_message _ s Hwf id m Hm)).
Qed.

Definition is_claimed (m : StoreAgentMessage) : bool :=
  match state m with Claimed _ _ _ _ => true | _ => false end.

Lemma claimed_current m : is_claimed m = true → is_replaced m = false.
Proof. unfold is_claimed, is_replaced. by destruct (state m). Qed.

(** C10: a slot is consumed at most once. Whatever is committed later, a message that was
    claimed or discarded stays exactly as it is, and no other message of its queue slot, in
    particular no edited successor, is ever claimed as well. *)
Theorem slot_consumed_once r es later s s' id m :
  run (empty_mailbox r) es = Some s → run s later = Some s' →
  messages s !! id = Some m → state m ≠ Pending →
  messages s' !! id = Some m ∧
  (is_claimed m = true → ∀ id' m', messages s' !! id' = Some m' → is_claimed m' = true →
     slot_id (queue_slot m') = slot_id (queue_slot m) → id' = id).
Proof.
  intros Hes Hlater Hm Hp. destruct (mailbox_run _ es (empty_sound r)) as (s1 & Hes1 & Hs & _).
  rewrite Hes in Hes1. injection Hes1 as <-.
  destruct (mailbox_run s later Hs) as (s2 & Hl & [Hwf _] & Hev). rewrite Hlater in Hl. injection Hl as <-.
  destruct (Hev id m Hm) as (m2 & Hm2 & _ & _ & Heq). rewrite (Heq Hp) in Hm2. split; [done|].
  intros Hc id' m' Hm' Hc' Hslot. by apply (current_inj _ s' id' m' id m Hwf); auto using claimed_current.
Qed.
End consistency.

(** ** A sample history *)
Definition sample_wire : Wire := {|
  record_len := λ _ _ _, 100; receipt_len := λ _, 100; request_len := λ _, 100;
  request_digest := λ r, replicate 63 97 ++ [match rq_mutation r with Withdraw => 98 | _ => 97 end];
  message_valid := λ _, true; content_valid := λ c, negb (bool_decide (c = []))
|}.
Definition sample_message (id : text) (words : text) : AgentMessage :=
  {| message_id := id; source := Human None; content := [ContentText words]; options := default_options |}.
Definition sample_record (n : Z) (b : AgentControlRecordBody) : AgentControlRecord :=
  {| seq := n; timestamp := 10 + n; body := b |}.
Definition sample_acceptance (n : Z) (id words : text) : AgentControlRecord :=
  sample_record n (MessageAccepted (sample_message id words) DeliverNextTurn None [0] NextTurn true).

(** Message [1] is accepted, edited to message [2], and that one is claimed; a second claim,
    of the message that was replaced, is refused. *)
Definition sample_edit : list event := [
  Appended (λ _, true) 0 [sample_acceptance 1 [1] [104]];
  Appended (λ _, true) 1 [
    sample_record 2 (MessageSuccessor [1] [2] (slot_initial [1] 11 1));
    sample_acceptance 3 [2] [105];
    sample_record 4 (QueueMutationRecorded
      {| rc_operation := [9]; rc_fingerprint := replicate 64 97; rc_slot := [1]; rc_expected := [1];
         rc_seq := 4; rc_outcome := OutReplaced [2] 3 |})];
  Appended (λ _, true) 4 [sample_record 5 (MessageClaimed [2] [3] [4] [5] 1)]
].
Definition sample_claim : list event := [
  Appended (λ _, true) 5 [sample_record 6 (MessageClaimed [1] [6] [7] [8] 2)]
].
Definition after (s : Mailbox) (es : list event) : Mailbox :=
  default s (run (H := sample_wire) s es).
Definition sample_claimed : StoreAgentMessage :=
  {| queue_slot := slot_initial [1] 11 1; delivery := DeliverNextTurn; bound_turn_id := None;
     accepted_timestamp := 13; message := sample_message [2] [105]; root_session_id := [0];
     target := NextTurn; wake_required := true; accepted_seq := 3; state := Claimed [3] [4] [5] 1 |}.

Lemma slot_consumed_once_witness :
  let s := after (empty_mailbox [0]) sample_edit in
  let s' := after s sample_claim in
  messages s' !! [2] = Some sample_claimed ∧
  (is_claimed sample_claimed = true → ∀ id' m', messages s' !! id' = Some m' → is_claimed m' = true →
     slot_id (queue_slot m') = [1] → id' = [2]).
Proof.
  intros s s'. apply (slot_consumed_once (H := sample_wire) [0] sample_edit sample_claim s s' [2] sample_claimed);
    [by vm_compute|by vm_compute|by vm_compute|done].
Defined.
