(* ===== verification/QueueMutation.v ===== *)
(** * Editing the queue

    [AgentKernel::mutate_queue_owned] of [crates/rsi-agent/kernel/src/queue_mutation.rs]: a
    caller replaces, redirects or withdraws a message that is still pending, by a request
    with an identity of its own. The Kernel decides from the Store's projection ([Mailbox])
    and commits at most three control records together with a receipt that answers every
    repetition of the request.

    Admission to the Session serializes the edits of one Session; it, execution leases and
    reading headers are left out. [program_initial] is the outcome of
    [is_program_initial_message]. *)

From S2P Require Import Prelude Text Mailbox MailboxInvariant.

Inductive TurnError :=
| InvalidRequest (message : string)
| Invariant (message : string)
| QueueOperationConflict
| Flush (error : text)
| StoreFailure (error : StoreError).

(** What the Kernel knows of a Turn it runs. *)
Record LiveTurn := { activation : option text; terminal : bool; cancel_requested : bool }.

Record Kernel := {
  flush_error : option text;
  live_turns : gmap text LiveTurn;
  program_initial : text → bool;
  clock : Z
}.

Section wire.
Context `{Wire}.

(** [QueueMutationRequest::validate_shape] and [fingerprint]. *)
Definition validate_shape (r : QueueMutationRequest) : outcome TurnError unit :=
  if bool_decide (new_message_id (rq_mutation r) = Some (rq_expected r))
  then Err (InvalidRequest "queue successor must have a new MessageId")
  else match rq_mutation r with
       | Replace _ c => if content_valid c then Ok tt else Err (InvalidRequest "invalid message content")
       | _ => Ok tt
       end.
Definition fingerprint (r : QueueMutationRequest) : outcome TurnError text :=
  (let? _ := validate_shape r in
   if MAXIMUM_SESSION_FACT_BYTES <? request_len r
   then Err (InvalidRequest "queue request exceeds its encoded byte limit")
   else Ok (request_digest r))%outcome.

(** [QueueMutationReceipt::validate_for], the check of a client. *)
Definition outcome_matches (m : QueueMutation) (o : QueueMutationOutcome) : bool :=
  match m, o with
  | _, OutRejected _ _ | Withdraw, OutWithdrawn => true
  | Replace id _, OutReplaced id' _ => bool_decide (id = id')
  | ConvertToSteer id turn, OutConverted id' _ turn' =>
      bool_decide (id = id') && bool_decide (turn = turn')
  | _, _ => false
  end.
Definition validate_for (rc : QueueMutationReceipt) (r : QueueMutationRequest) : outcome TurnError unit :=
  if negb (receipt_validate rc) then Err (InvalidRequest "invalid queue receipt")
  else
    (let? fp := fingerprint r in
     if negb (outcome_matches (rq_mutation r) (rc_outcome rc)) ||
        negb (bool_decide (rc_operation rc = rq_operation r)) ||
        negb (bool_decide (rc_fingerprint rc = fp)) ||
        negb (bool_decide (rc_slot rc = rq_slot r)) ||
        negb (bool_decide (rc_expected rc = rq_expected r))
     then Err (InvalidRequest "queue receipt differs from the frozen request")
     else Ok tt)%outcome.

Definition is_withdraw (m : QueueMutation) : bool := match m with Withdraw => true | _ => false end.

(** A Turn that a message can still be steered into. *)
Definition steerable (k : Kernel) (turn : text) : bool :=
  match live_turns k !! turn with
  | Some t => bool_decide (is_Some (activation t)) && negb (terminal t) && negb (cancel_requested t)
  | None => false
  end.

Definition program_owned (k : Kernel) (r : QueueMutationRequest) (entry : option StoreAgentMessage) : bool :=
  match entry with
  | Some e => is_withdraw (rq_mutation r) && bool_decide (message_id (message e) = rq_expected r) &&
              program_initial k (rq_expected r)
  | None => false
  end.

(** The preconditions, in their order. *)
Definition rejection (k : Kernel) (r : QueueMutationRequest) (entry : option StoreAgentMessage)
    (successor_exists : bool) : option QueueMutationRejection :=
  match entry with
  | None => Some MissingSlot
  | Some e =>
      if negb (bool_decide (message_id (message e) = rq_expected r)) then Some StaleMessage
      else if program_owned k r entry then Some ProgramOwned
      else if negb (is_withdraw (rq_mutation r)) && negb (is_human (source (message e))) then Some NotHuman
      else match state e with
           | Claimed _ _ _ _ => Some ClaimedRejection
           | Discarded _ _ => Some DiscardedRejection
           | Pending =>
               match rq_mutation r with
               | ConvertToSteer _ turn =>
                   if negb (bool_decide (options (message e) = default_options)) then Some IncompatibleOptions
                   else if negb (steerable k turn) then Some StaleTurn
                   else if successor_exists then Some MessageConflict else None
               | _ => if successor_exists then Some MessageConflict else None
               end
           end
  end.

Definition record (n now : Z) (b : AgentControlRecordBody) : outcome TurnError AgentControlRecord :=
  ok_or (record_new n now b) (InvalidRequest "invalid control record").

Definition with_message_id (m : AgentMessage) (id : text) : AgentMessage :=
  {| message_id := id; source := source m; content := content m; options := options m |}.
Definition with_content (m : AgentMessage) (c : list AgentMessageContent) : AgentMessage :=
  {| message_id := message_id m; source := source m; content := c; options := options m |}.

(** The successor of [p] with its link, from the control sequence [next]. *)
Definition successor_records (p : StoreAgentMessage) (expected : text) (next now : Z) (m : AgentMessage)
    (d : MessageDelivery) (t : MessageTarget) (bound : option text) (out : Z → QueueMutationOutcome) :
  outcome TurnError (list AgentControlRecord * QueueMutationOutcome) :=
  (let? accepted := ok_or (checked_add u64_max next 1) (Invariant "control sequence exhausted") in
   let? link := record next now (MessageSuccessor expected (message_id m) (queue_slot p)) in
   let? acceptance := record accepted now
     (MessageAccepted m d bound (root_session_id p) t (bool_decide (t = NextTurn))) in
   Ok ([link; acceptance], out accepted))%outcome.

(** The records of an accepted mutation and its outcome. A promoted steer is a waking input
    and no longer bound. *)
Definition mutation_records (p : StoreAgentMessage) (r : QueueMutationRequest) (next now : Z) :
  outcome TurnError (list AgentControlRecord * QueueMutationOutcome) :=
  match rq_mutation r with
  | Withdraw =>
      (let? c := record next now (MessageDiscarded (rq_expected r) Cancelled) in
       Ok ([c], OutWithdrawn))%outcome
  | Replace id c =>
      successor_records p (rq_expected r) next now (with_content (with_message_id (message p) id) c)
        (delivery p) (target p) (if bool_decide (target p = NextStep) then bound_turn_id p else None)
        (OutReplaced id)
  | ConvertToSteer id turn =>
      successor_records p (rq_expected r) next now (with_message_id (message p) id)
        Steer NextStep (Some turn) (λ accepted, OutConverted id accepted turn)
  end.

(** A reply: an earlier receipt, or records to commit after the tail that was read. *)
Inductive Plan :=
| Replay (rc : QueueMutationReceipt)
| Commit (expected : Z) (rs : list AgentControlRecord) (rc : QueueMutationReceipt).

(** [AgentKernel::read_queue_receipt] *)
Definition read_queue_receipt (s : Mailbox) (operation : text) :
  outcome TurnError (option QueueMutationReceipt) :=
  match read_queue_mutation s operation with
  | Ok (Some rc) => if receipt_validate rc then Ok (Some rc) else Err (Invariant "invalid queue receipt")
  | Ok None => Ok None
  | Err e => Err (StoreFailure e)
  | Panic => Panic
  end.

(** [AgentKernel::mutate_queue_owned], up to the commit. *)
Definition mutate (k : Kernel) (s : Mailbox) (r : QueueMutationRequest) : outcome TurnError Plan :=
  (let? fp := fingerprint r in
   let? existing := read_queue_receipt s (rq_operation r) in
   match existing with
   | Some rc => if bool_decide (rc_fingerprint rc = fp) then Ok (Replay rc) else Err QueueOperationConflict
   | None =>
       match flush_error k with
       | Some e => Err (Flush e)
       | None =>
           let successor_exists :=
             match new_message_id (rq_mutation r) with Some id => message_exists s id | None => false end in
           let entry := read_queue_slot s (rq_slot r) in
           let now := Z.max (clock k) 1 in
           let? next := ok_or (checked_add u64_max (last_seq s) 1) (Invariant "control sequence exhausted") in
           let? (cs, out) :=
             match rejection k r entry successor_exists, entry with
             | Some reason, _ =>
                 Ok ([], OutRejected reason ((λ e, message_id (message e)) <$> entry))
             | None, Some p => mutation_records p r next now
             | None, None => Panic
             end in
           let? n := ok_or (checked_add u64_max next (len cs)) (Invariant "control sequence exhausted") in
           let rc := {| rc_operation := rq_operation r; rc_fingerprint := fp; rc_slot := rq_slot r;
                        rc_expected := rq_expected r; rc_seq := n; rc_outcome := out |} in
           let? c := record n now (QueueMutationRecorded rc) in
           Ok (Commit (last_seq s) (cs ++ [c]) rc)
       end
   end)%outcome.

(** The whole operation: a refused commit leaves the mailbox as it was. *)
Definition mutate_queue (k : Kernel) (s : Mailbox) (r : QueueMutationRequest) :
  Mailbox * outcome TurnError QueueMutationReceipt :=
  match mutate k s r with
  | Ok (Replay rc) => (s, Ok rc)
  | Ok (Commit expected rs rc) =>
      match append (λ _, false) s expected rs with
      | Ok s' => (s', Ok rc)
      | Err e => (s, Err (StoreFailure e))
      | Panic => (s, Panic)
      end
  | Err e => (s, Err e)
  | Panic => (s, Panic)
  end.

(** ** The records the Kernel writes are the ones the Store accepts *)

Lemma record_ok n now b c :
  record n now b = Ok c → record_valid c = true ∧ seq c = n ∧ timestamp c = now ∧ body c = b.
Proof. unfold record, record_new. case_match eqn:Hv; cbn; [|done]. intros [= <-]. done. Qed.

Lemma slot_entry n s q p :
  wf n s → read_queue_slot s q = Some p →
  messages s !! message_id (message p) = Some p ∧ slot_id (queue_slot p) = q ∧
  queue_slots s !! q = Some (message_id (message p)).
Proof.
  intros Hwf. unfold read_queue_slot. destruct (queue_slots s !! q) as [id|] eqn:Hq; cbn; [|done].
  intros Hp. destruct (wf_slot n s Hwf q id Hq) as (m & Hm & Hs). rewrite Hp in Hm. injection Hm as <-.
  pose proof (ok_id _ _ _ _ (wf_message n s Hwf id p Hp)) as Hid. subst id. done.
Qed.

Lemma apply_receipt f s r rc rest :
  body r = QueueMutationRecorded rc → queue_mutations s !! rc_operation rc = None →
  apply_record f s r rest = Ok (set_mutations s (<[rc_operation rc := seq r]> (queue_mutations s))).
Proof.
  intros Hb Hn. unfold apply_record, check_withdrawal, check_successor, update_messages, update_ready.
  rewrite Hb. cbn [obind]. rewrite bool_decide_false by (rewrite Hn; by intros []). done.
Qed.

Lemma apply_link f s p l a c rest su q x :
  body l = MessageSuccessor (message_id (message p)) su q →
  messages s !! message_id (message p) = Some p → validate_queue_successor p l a c = Ok x →
  apply_record f s l (a :: c :: rest) =
  Ok (unready (set_messages s
    (<[message_id (message p) := with_state p (Discarded Replaced (seq l))]> (messages s)))
    (message_id (message p))).
Proof.
  intros Hb Hm Hv. unfold apply_record, check_withdrawal, check_successor, update_messages, update_ready.
  rewrite Hb. cbn [obind]. rewrite Hm. cbn [obind ok_or expect lookup list_lookup]. by rewrite Hv.
Qed.

Lemma apply_withdrawal f s p d c rest rc :
  body d = MessageDiscarded (message_id (message p)) Cancelled → body c = QueueMutationRecorded rc →
  rc_outcome rc = OutWithdrawn → messages s !! message_id (message p) = Some p → state p = Pending →
  message_id (message p) = rc_expected rc → slot_id (queue_slot p) = rc_slot rc →
  apply_record f s d (c :: rest) =
  Ok (unready (set_messages s
    (<[message_id (message p) := with_state p (Discarded Cancelled (seq d))]> (messages s)))
    (message_id (message p))).
Proof.
  intros Hd Hc Ho Hm Hp He Hs.
  unfold apply_record, check_withdrawal, check_successor, update_messages, update_ready.
  rewrite Hd. cbn [lookup list_lookup fmap option_fmap option_map]. rewrite Hc, Ho, Hm. cbn [ok_or obind].
  unfold validate_queue_withdrawal, is_pending. rewrite Ho, !bool_decide_true by done. done.
Qed.

(** A commit at the tail of a sound mailbox is applied record by record. *)
Lemma append_at_tail f s rs :
  mailbox_sound s → Forall (λ r, record_valid r = true) rs → len rs ≤ 3 →
  contiguous (len (controls s)) rs = true → len (controls s) < u64_max →
  validate_queue_suffix rs = Ok tt →
  append f s (last_seq s) rs = apply_records f (set_controls s (controls s ++ rs)) rs ∧
  match rs with
  | [] => True
  | r :: rest => next_record (len (controls s)) (set_controls s (controls s ++ rs)) r rest
  end.
Proof.
  intros Hs Hv Hl Hc Hlt Hq. unfold append. rewrite (last_seq_len s (proj1 Hs)).
  destruct (Z.ltb_spec MAXIMUM_STORE_BATCH_FACTS (len rs)) as [Hbad|_]; [unfold MAXIMUM_STORE_BATCH_FACTS in Hbad; lia|].
  destruct (Z.ltb_spec (len (controls s)) u64_max); [|lia]. rewrite Hc, Hq, Z.eqb_refl. cbn [negb obind].
  split; [done|]. destruct rs as [|r rest]; [done|]. split.
  - by apply extend_wf; [apply Hs| |].
  - by apply sound_between.
  - cbn. unfold len. by rewrite Nat2Z.id, drop_app_length.
  - unfold len. lia.
Qed.

(** A human message that waits for a Turn is in the ready index at its slot's position. *)
Lemma human_key n s p :
  wf n s → messages s !! message_id (message p) = Some p → state p = Pending →
  is_human (source (message p)) = true →
  ready_keys s !! message_id (message p) = if wake_required p then Some (slot_position (queue_slot p)) else None.
Proof.
  intros Hwf Hm Hp Hh. destruct (wf_message n s Hwf _ p Hm) as [_ _ _ _ _ _ _ _ Hready Hkey].
  destruct (ready_keys s !! message_id (message p)) as [k|] eqn:Hk.
  - destruct (proj1 Hready (mk_is_Some _ _ eq_refl)) as [_ ->]. destruct (Hkey k eq_refl) as [->|[? _]]; [done|congruence].
  - destruct (wake_required p) eqn:Hw; [|done]. destruct (proj2 Hready (conj Hp eq_refl)) as [? ?]. done.
Qed.

Definition successor_message (p : StoreAgentMessage) (m : AgentMessage) (d : MessageDelivery)
    (t : MessageTarget) (bound : option text) (a : AgentControlRecord) : StoreAgentMessage :=
  accepted_message (queue_slot p) m d bound (root_session_id p) t (bool_decide (t = NextTurn)) a.

(** What a committed succession leaves. *)
Definition succeeded (s s' : Mailbox) (p p' : StoreAgentMessage) (operation : text) (n : Z) : Prop :=
  messages s' = <[message_id (message p') := p']>
                  (<[message_id (message p) := with_state p (Discarded Replaced n)]> (messages s)) ∧
  queue_slots s' = <[slot_id (queue_slot p) := message_id (message p')]> (queue_slots s) ∧
  queue_mutations s' = <[operation := n + 2]> (queue_mutations s) ∧
  ready_keys s' = (if wake_required p' then <[message_id (message p') := slot_position (queue_slot p)]> else id)
                    (delete (message_id (message p)) (ready_keys s)).

Lemma retire_pending n s p :
  wf n s → messages s !! message_id (message p) = Some p → state p = Pending → ∀ k,
  pending_count (set_messages s (<[message_id (message p) := with_state p (Discarded Replaced k)]> (messages s)))
    + reservations s < MAXIMUM_PENDING_AGENT_MESSAGES.
Proof.
  intros Hwf Hm Hp k. pose proof (wf_capacity n s Hwf) as Hcap. unfold pending_count in *. cbn.
  rewrite (pending_settle _ _ (with_state p (Discarded Replaced k)) p Hm Hp) in Hcap by done. lia.
Qed.

Lemma commit_successor f s p m d t bound l a c rc q :
  let n := len (controls s) in
  let s0 := set_controls s (controls s ++ [l; a; c]) in
  let p' := successor_message p m d t bound a in
  next_record n s0 l [a; c] → validate_queue_record [] l [a; c] = Ok tt →
  body l = MessageSuccessor (message_id (message p)) (message_id m) (queue_slot p) →
  body a = MessageAccepted m d bound (root_session_id p) t (bool_decide (t = NextTurn)) →
  body c = QueueMutationRecorded rc → validate_queue_successor p l a c = Ok q →
  messages s !! message_id (message p) = Some p → state p = Pending →
  messages s !! message_id m = None → root_session_id p = root s →
  queue_mutations s !! rc_operation rc = None → seq l = n + 1 → seq a = n + 2 → seq c = n + 3 →
  ∃ s', apply_records f s0 [l; a; c] = Ok s' ∧ succeeded s s' p p' (rc_operation rc) (n + 1).
Proof.
  intros n s0 p' Hnext Hv Hl Ha Hc Hq Hm Hp Hnone Hroot Hop Hsl Hsa Hsc. cbn [apply_records].
  pose proof (record_applies f n s0 l [a; c] [] Hnext Hv) as Happ. unfold applies in Happ.
  rewrite (apply_link f s0 p l a c [] _ _ q Hl Hm Hq) in Happ |- *. cbn [obind]. rewrite Hsl in *.
  set (s1 := set_messages s0 _) in *.
  destruct (unready_fields s1 (message_id (message p))) as (Hc1 & Hr1 & Hm1 & Hq1 & Hmu1 & Hrs1).
  pose proof (unready_lookup s1 (message_id (message p))) as Hk1.
  pose proof (retire_pending n s0 p (next_wf _ _ _ _ Hnext) Hm Hp (n + 1)) as Hcap. fold s1 in Hcap.
  assert (ready_keys (unready s1 (message_id (message p))) = delete (message_id (message p)) (ready_keys s)) as Hk.
  { apply map_eq. intros i. rewrite Hk1. destruct (decide (i = message_id (message p))) as [->|Hi];
      [by rewrite lookup_delete_eq|by rewrite lookup_delete_ne]. }
  set (s2 := unready s1 _) in *. clearbody s2. destruct Happ as (Hwf2 & Hb2 & _ & _ & _ & _).
  assert (drop (Z.to_nat (n + 1)) (controls s2) = [a; c]) as Hd2.
  { rewrite Hc1. by apply (next_facts n s0 l [a; c] Hnext). }
  assert (0 ≤ n + 1) as Hn by (unfold n, len; lia).
  assert (message_id (message p) ≠ message_id m) as Hne by congruence.
  assert (next_record (n + 1) s2 a [c]) as Hnext2 by (by split).
  destruct (apply_accepted f (n + 1) s2 a [c] m d bound (root_session_id p) t _ Hnext2 Ha) as [Hacc _].
  { by rewrite Hr1. }
  { unfold pending_count in *. rewrite Hm1, Hrs1. exact Hcap. }
  { rewrite Hm1. cbn. by rewrite lookup_insert_ne. }
  assert (accepted_slot s2 a (message_id m) = queue_slot p) as Hslot.
  { unfold accepted_slot. rewrite Hc1, Hsa. replace (n + 2 - 2) with n by lia.
    assert (controls s1 !! Z.to_nat n = Some l) as ->.
    { cbn. unfold n, len. rewrite Nat2Z.id, lookup_app_r, Nat.sub_diag by lia. done. }
    destruct l as [ls lt lb]. cbn in Hl. rewrite Hl.
    destruct (Z.leb_spec 2 (n + 2)); [|unfold n, len in *; lia]. by rewrite bool_decide_true. }
  rewrite Hslot in Hacc. fold (successor_message p m d t bound a) in Hacc. fold p' in Hacc.
  rewrite Hacc. cbn [obind].
  destruct (accepted_fields s2 p') as (Hc3 & _ & Hm3 & Hq3 & Hmu3 & _ & Hk3).
  rewrite (apply_receipt f (accepted s2 p') c rc []); [|done|by rewrite Hmu3, Hmu1].
  cbn [obind]. eexists. split; [done|]. split_and!; cbn [messages queue_slots queue_mutations ready_keys set_mutations].
  - rewrite Hm3, Hm1. done.
  - rewrite Hq3, Hq1. done.
  - rewrite Hmu3, Hmu1, Hsc. by replace (n + 1 + 2) with (n + 3) by lia.
  - rewrite Hk3, Hk. unfold p'. cbn. by destruct (bool_decide (t = NextTurn)).
Qed.

(** *** The plan of a mutation *)
Lemma checked_add_ok a b n : checked_add u64_max a b = Some n → n = a + b.
Proof. unfold checked_add. case_match; [|done]. by intros [= <-]. Qed.

Definition successor_known (s : Mailbox) (r : QueueMutationRequest) : bool :=
  match new_message_id (rq_mutation r) with Some id => message_exists s id | None => false end.

Lemma mutate_commit k s r e rs rc :
  mutate k s r = Ok (Commit e rs rc) →
  e = last_seq s ∧ fingerprint r = Ok (rc_fingerprint rc) ∧ read_queue_mutation s (rq_operation r) = Ok None ∧
  rc_operation rc = rq_operation r ∧ rc_slot rc = rq_slot r ∧ rc_expected rc = rq_expected r ∧
  ∃ cs c, rs = cs ++ [c] ∧ rc_seq rc = last_seq s + 1 + len cs ∧
    record (rc_seq rc) (Z.max (clock k) 1) (QueueMutationRecorded rc) = Ok c ∧
    match rejection k r (read_queue_slot s (rq_slot r)) (successor_known s r) with
    | Some reason => cs = [] ∧
        rc_outcome rc = OutRejected reason ((λ p, message_id (message p)) <$> read_queue_slot s (rq_slot r))
    | None => ∃ p, read_queue_slot s (rq_slot r) = Some p ∧
        mutation_records p r (last_seq s + 1) (Z.max (clock k) 1) = Ok (cs, rc_outcome rc)
    end.
Proof.
  unfold mutate. intros (fp & Hfp & H1)%obind_ok. rewrite Hfp.
  apply obind_ok in H1 as (existing & Hex & H1).
  assert (existing = None → read_queue_mutation s (rq_operation r) = Ok None) as Hread.
  { intros ->. unfold read_queue_receipt in Hex. repeat case_match; congruence. }
  destruct existing as [rc0|]; [by case_bool_decide|]. destruct (flush_error k); [done|].
  fold (successor_known s r) in H1.
  apply obind_ok in H1 as (next & Hnext%ok_or_ok%checked_add_ok & H1). subst next.
  apply obind_ok in H1 as ([cs out] & Hcs & H1).
  apply obind_ok in H1 as (n & Hn%ok_or_ok%checked_add_ok & H1). subst n.
  apply obind_ok in H1 as (c & Hc & [= <- <- <-]). cbn. split_and!; [done|done|by apply Hread|done..|].
  exists cs, c. split_and!; [done|done|done|].
  destruct (rejection k r _ _) as [reason|]; [by injection Hcs as <- <-|].
  destruct (read_queue_slot s (rq_slot r)) as [p|]; [eauto|done].
Qed.

Lemma accepted_preconditions k r p known :
  rejection k r (Some p) known = None →
  message_id (message p) = rq_expected r ∧ state p = Pending ∧
  (rq_mutation r ≠ Withdraw → is_human (source (message p)) = true ∧ known = false) ∧
  (∀ id turn, rq_mutation r = ConvertToSteer id turn → options (message p) = default_options).
Proof.
  unfold rejection. case_bool_decide as Hid; [|done]. cbn [negb].
  destruct (program_owned k r (Some p)); [done|].
  destruct (is_human (source (message p))); destruct (rq_mutation r) as [id c|id turn|]; cbn [is_withdraw negb andb];
    destruct (state p); try done; destruct known; try done; repeat (case_bool_decide || case_match);
    try done; intros _; split_and!; try done.
Qed.

Lemma records_valid n now b c : record n now b = Ok c → record_valid c = true.
Proof. by intros [? _]%record_ok. Qed.

Lemma receipt_record rc n now c before rest :
  record n now (QueueMutationRecorded rc) = Ok c →
  validate_queue_record before c rest =
  match rc_outcome rc with
  | OutRejected _ _ => Ok tt
  | OutWithdrawn =>
      match body <$> before !! 0%nat with
      | Some (MessageDiscarded id Cancelled) => if bool_decide (id = rc_expected rc) then Ok tt else Err corrupt
      | _ => Err corrupt
      end
  | OutReplaced _ _ | OutConverted _ _ _ =>
      match body <$> before !! 1%nat with Some (MessageSuccessor _ _ _) => Ok tt | _ => Err corrupt end
  end.
Proof.
  intros (Hv & _ & _ & Hb)%record_ok. unfold validate_queue_record. rewrite Hb.
  unfold record_valid in Hv. rewrite Hb in Hv. cbn in Hv. rewrite !andb_true_iff in Hv.
  destruct Hv as [[[_ ->] _] _]. done.
Qed.

(** ** What a mutation does to the mailbox

    The specification, by the outcome of the receipt: nothing but a receipt, a discarded
    message, or a message that takes over the slot, and with it the position, of the one it
    replaces. *)
Definition retired (s : Mailbox) (p : StoreAgentMessage) (reason : MessageDiscardReason) (n : Z) :
  gmap text StoreAgentMessage :=
  <[message_id (message p) := with_state p (Discarded reason n)]> (messages s).

Definition mutation_effect (s s' : Mailbox) (r : QueueMutationRequest) (rc : QueueMutationReceipt) : Prop :=
  match rc_outcome rc with
  | OutRejected _ _ =>
      messages s' = messages s ∧ queue_slots s' = queue_slots s ∧ ready_keys s' = ready_keys s
  | OutWithdrawn =>
      ∃ p, read_queue_slot s (rq_slot r) = Some p ∧ message_id (message p) = rq_expected r ∧
        state p = Pending ∧ messages s' = retired s p Cancelled (rc_seq rc - 1) ∧
        queue_slots s' = queue_slots s ∧ ready_keys s' = delete (rq_expected r) (ready_keys s)
  | OutReplaced id n | OutConverted id n _ =>
      ∃ p p', read_queue_slot s (rq_slot r) = Some p ∧ message_id (message p) = rq_expected r ∧
        state p = Pending ∧ is_human (source (message p)) = true ∧ messages s !! id = None ∧
        messages s' = <[id := p']> (retired s p Replaced (n - 1)) ∧
        read_queue_slot s' (rq_slot r) = Some p' ∧ queue_slot p' = queue_slot p ∧ state p' = Pending ∧
        match rq_mutation r with
        | Replace id' c =>
            id' = id ∧ message p' = with_content (with_message_id (message p) id) c ∧
            delivery p' = delivery p ∧ target p' = target p ∧
            ready_keys s' !! id = ready_keys s !! rq_expected r
        | ConvertToSteer id' turn =>
            id' = id ∧ message p' = with_message_id (message p) id ∧ delivery p' = Steer ∧
            target p' = NextStep ∧ bound_turn_id p' = Some turn ∧ ready_keys s' !! id = None
        | Withdraw => False
        end ∧
        (∀ other, other ≠ id → other ≠ rq_expected r → ready_keys s' !! other = ready_keys s !! other)
  end.

(** The commit of a succession. *)
Lemma succession_commits f k s r rc c p m d t bound (out : Z → QueueMutationOutcome) cs :
  mailbox_sound s → last_seq s + 4 ≤ u64_max → read_queue_mutation s (rc_operation rc) = Ok None →
  read_queue_slot s (rq_slot r) = Some p → message_id (message p) = rq_expected r →
  state p = Pending → messages s !! message_id m = None →
  rc_expected rc = rq_expected r → rc_slot rc = rq_slot r → rc_seq rc = last_seq s + 1 + len cs →
  record (rc_seq rc) (Z.max (clock k) 1) (QueueMutationRecorded rc) = Ok c →
  successor_records p (rq_expected r) (last_seq s + 1) (Z.max (clock k) 1) m d t bound out = Ok (cs, rc_outcome rc) →
  (rc_outcome rc = OutReplaced (message_id m) (last_seq s + 2) ∨
   ∃ turn, rc_outcome rc = OutConverted (message_id m) (last_seq s + 2) turn ∧ bound = Some turn) →
  (∀ l a, body l = MessageSuccessor (rq_expected r) (message_id m) (queue_slot p) →
     body a = MessageAccepted m d bound (root_session_id p) t (bool_decide (t = NextTurn)) →
     ∃ q, validate_queue_successor p l a c = Ok q) →
  ∃ s' a, append f s (last_seq s) (cs ++ [c]) = Ok s' ∧
    succeeded s s' p (successor_message p m d t bound a) (rc_operation rc) (last_seq s + 1).
Proof.
  intros Hs Hmax Hop Hslot Hid Hp Hnone Hexp Hrslot Hseq Hc Hcs Hout Hval.
  pose proof Hs as [Hwf _]. rewrite (last_seq_len s Hwf) in *.
  destruct (slot_entry _ s _ p Hwf Hslot) as (Hm & Hsid & _).
  unfold successor_records in Hcs.
  apply obind_ok in Hcs as (acc & Hacc%ok_or_ok%checked_add_ok & Hcs). subst acc.
  apply obind_ok in Hcs as (l & Hl & Hcs). apply obind_ok in Hcs as (a & Ha & Hcs).
  injection Hcs as <- Hout'. change (len [l; a]) with 2 in Hseq.
  pose proof (receipt_record rc _ _ c [a; l] [] Hc) as Hqc.
  apply record_ok in Hl as (Hvl & Hsl & _ & Hbl), Ha as (Hva & Hsa & _ & Hba), Hc as (Hvc & Hsc & _ & Hbc).
  destruct (Hval l a Hbl Hba) as [q Hq]. cbn [app].
  assert (validate_queue_record [] l [a; c] = Ok tt) as Hql.
  { unfold validate_queue_record. rewrite Hbl, Hba, Hbc. rewrite Hexp, Hrslot, Hsid, Hsa.
    destruct Hout as [->|(turn & -> & ->)]; cbn [obind]; rewrite !bool_decide_true by done;
      replace (len (controls s) + 1 + 1) with (len (controls s) + 2) by lia; by rewrite Z.eqb_refl. }
  assert (validate_queue_suffix [l; a; c] = Ok tt) as Hqs.
  { unfold validate_queue_suffix. cbn [validate_suffix_from]. rewrite Hql. cbn [obind].
    unfold validate_queue_record at 1. rewrite Hba. cbn [obind]. rewrite Hqc. cbn. rewrite Hbl.
    by destruct Hout as [->|(turn & -> & _)]. }
  destruct (append_at_tail f s [l; a; c] Hs) as [Happ Hnext].
  { by repeat constructor. }
  { done. }
  { cbn. rewrite Hsl, Hsa, Hsc, Hseq, !andb_true_iff, !Z.eqb_eq, !Z.ltb_lt. lia. }
  { lia. }
  { done. }
  rewrite (last_seq_len s Hwf) in Happ. rewrite Happ.
  assert (queue_mutations s !! rc_operation rc = None) as Hmut.
  { unfold read_queue_mutation in Hop. repeat case_match; done. }
  assert (root_session_id p = root s) as Hroot by apply (wf_message _ s Hwf _ p Hm).
  rewrite <- Hid in Hbl.
  destruct (commit_successor f s p m d t bound l a c rc q Hnext Hql Hbl Hba Hbc Hq Hm Hp Hnone Hroot Hmut)
    as (s' & Hs' & Heff); [lia|lia|lia|]. by exists s', a.
Qed.

Lemma no_receipt s op : read_queue_mutation s op = Ok None → queue_mutations s !! op = None.
Proof. unfold read_queue_mutation. repeat case_match; done. Qed.

Lemma rejection_commits f k s rc c reason current :
  mailbox_sound s → last_seq s + 4 ≤ u64_max → read_queue_mutation s (rc_operation rc) = Ok None →
  rc_outcome rc = OutRejected reason current → rc_seq rc = last_seq s + 1 →
  record (rc_seq rc) (Z.max (clock k) 1) (QueueMutationRecorded rc) = Ok c →
  ∃ s', append f s (last_seq s) [c] = Ok s' ∧ messages s' = messages s ∧ queue_slots s' = queue_slots s ∧
    ready_keys s' = ready_keys s ∧ queue_mutations s' = <[rc_operation rc := rc_seq rc]> (queue_mutations s).
Proof.
  intros Hs Hmax Hop%no_receipt Hout Hseq Hc. pose proof (last_seq_len s (proj1 Hs)) as Hlen.
  pose proof (receipt_record rc _ _ c [] [] Hc) as Hq. rewrite Hout in Hq.
  apply record_ok in Hc as (Hv & Hsc & _ & Hb).
  destruct (append_at_tail f s [c] Hs) as [-> _]; [by constructor|done| |lia| |].
  { cbn. rewrite Hsc, Hseq, !andb_true_iff, !Z.eqb_eq, !Z.ltb_lt. lia. }
  { unfold validate_queue_suffix. cbn [validate_suffix_from]. by rewrite Hq. }
  cbn [apply_records]. rewrite (apply_receipt f _ c rc []) by done. cbn [obind].
  eexists. split_and!; [done..|]. cbn. by rewrite Hsc.
Qed.

Lemma unready_keys s id : ready_keys (unready s id) = delete id (ready_keys s).
Proof.
  apply map_eq. intros i. rewrite unready_lookup. destruct (decide (i = id)) as [->|Hi];
    [by rewrite lookup_delete_eq|by rewrite lookup_delete_ne].
Qed.

Lemma withdrawal_commits f k s p rc d c :
  mailbox_sound s → last_seq s + 4 ≤ u64_max → read_queue_mutation s (rc_operation rc) = Ok None →
  messages s !! message_id (message p) = Some p → state p = Pending →
  message_id (message p) = rc_expected rc → slot_id (queue_slot p) = rc_slot rc →
  rc_outcome rc = OutWithdrawn → rc_seq rc = last_seq s + 2 →
  record (last_seq s + 1) (Z.max (clock k) 1) (MessageDiscarded (rc_expected rc) Cancelled) = Ok d →
  record (rc_seq rc) (Z.max (clock k) 1) (QueueMutationRecorded rc) = Ok c →
  ∃ s', append f s (last_seq s) [d; c] = Ok s' ∧ messages s' = retired s p Cancelled (last_seq s + 1) ∧
    queue_slots s' = queue_slots s ∧ ready_keys s' = delete (rc_expected rc) (ready_keys s) ∧
    queue_mutations s' = <[rc_operation rc := rc_seq rc]> (queue_mutations s).
Proof.
  intros Hs Hmax Hop%no_receipt Hm Hp He Hsl Hout Hseq Hd Hc.
  pose proof (last_seq_len s (proj1 Hs)) as Hlen.
  pose proof (receipt_record rc _ _ c [d] [] Hc) as Hq. rewrite Hout in Hq.
  apply record_ok in Hd as (Hvd & Hsd & _ & Hbd), Hc as (Hvc & Hsc & _ & Hbc).
  destruct (append_at_tail f s [d; c] Hs) as [-> _]; [by repeat constructor|done| |lia| |].
  { cbn. rewrite Hsd, Hsc, Hseq, !andb_true_iff, !Z.eqb_eq, !Z.ltb_lt. lia. }
  { unfold validate_queue_suffix. cbn [validate_suffix_from]. rewrite Hq.
    unfold validate_queue_record. rewrite Hbd. cbn [obind]. cbn. rewrite Hbd. cbn.
    by rewrite bool_decide_true. }
  cbn [apply_records].
  rewrite (apply_withdrawal f (set_controls s (controls s ++ [d; c])) p d c [] rc);
    [|by rewrite He|done..].
  cbn [obind]. match goal with |- context [unready ?s0 ?i] =>
    pose proof (unready_keys s0 i) as Hk1;
    destruct (unready_fields s0 i) as (_ & _ & Hm1 & Hq1 & Hmu1 & _); set (s1 := unready s0 i) in * end.
  cbn in Hk1, Hm1, Hq1, Hmu1.
  clearbody s1. rewrite (apply_receipt f s1 c rc []) by (done || by rewrite Hmu1).
  cbn [obind]. eexists. split; [done|]. cbn. split_and!; [by rewrite Hm1, Hsd|done|by rewrite Hk1, He|by rewrite Hmu1, Hsc].
Qed.

(** What is known when the records of an accepted mutation are committed. *)
Record planned (k : Kernel) (s : Mailbox) (r : QueueMutationRequest) (rc : QueueMutationReceipt)
    (p : StoreAgentMessage) (cs : list AgentControlRecord) (c : AgentControlRecord) : Prop := {
  pl_sound : mailbox_sound s;
  pl_room : last_seq s + 4 ≤ u64_max;
  pl_new : read_queue_mutation s (rc_operation rc) = Ok None;
  pl_slot : rc_slot rc = rq_slot r;
  pl_expected : rc_expected rc = rq_expected r;
  pl_seq : rc_seq rc = last_seq s + 1 + len cs;
  pl_receipt : record (rc_seq rc) (Z.max (clock k) 1) (QueueMutationRecorded rc) = Ok c;
  pl_entry : read_queue_slot s (rq_slot r) = Some p;
  pl_message : message_id (message p) = rq_expected r;
  pl_pending : state p = Pending;
  pl_human : rq_mutation r ≠ Withdraw → is_human (source (message p)) = true ∧ successor_known s r = false;
  pl_options id turn : rq_mutation r = ConvertToSteer id turn → options (message p) = default_options;
  pl_records : mutation_records p r (last_seq s + 1) (Z.max (clock k) 1) = Ok (cs, rc_outcome rc)
}.

(** The commit of [rs] has the effect of the receipt. *)
Definition committed f (s : Mailbox) (r : QueueMutationRequest) (rc : QueueMutationReceipt)
    (rs : list AgentControlRecord) : Prop :=
  ∃ s', append f s (last_seq s) rs = Ok s' ∧ mutation_effect s s' r rc.

Lemma withdraw_committed f k s r rc p cs c :
  planned k s r rc p cs c → rq_mutation r = Withdraw → committed f s r rc (cs ++ [c]).
Proof.
  intros [Hs Hroom Hnew Hsl Hex Hseq Hc Hp Hid Hpend _ _ Hcs] Hr. unfold mutation_records in Hcs. rewrite Hr in Hcs.
  apply obind_ok in Hcs as (d & Hd & [= <- Hout]). change (len [d]) with 1 in Hseq.
  destruct (slot_entry _ s _ p (proj1 Hs) Hp) as (Hm & Hsid & _).
  destruct (withdrawal_commits f k s p rc d c) as (s' & Ha & Hm' & Hq' & Hk' & Hmu'); try congruence; try lia.
  exists s'. split; [done|]. unfold mutation_effect. rewrite <- Hout. exists p.
  split_and!; try done; [|congruence]. by replace (rc_seq rc - 1) with (last_seq s + 1) by lia.
Qed.

Lemma successor_known_none s r id :
  successor_known s r = false → new_message_id (rq_mutation r) = Some id → messages s !! id = None.
Proof.
  unfold successor_known, message_exists. intros Hk Hid. rewrite Hid in Hk.
  apply bool_decide_eq_false in Hk. by apply eq_None_not_Some.
Qed.

Lemma succession_effect n s s' p m d t bound a op k q :
  let p' := successor_message p m d t bound a in
  wf n s → read_queue_slot s q = Some p → messages s !! message_id m = None →
  succeeded s s' p p' op k →
  messages s' = <[message_id m := p']> (retired s p Replaced k) ∧ read_queue_slot s' q = Some p' ∧
  ready_keys s' !! message_id m =
    (if bool_decide (t = NextTurn) then Some (slot_position (queue_slot p)) else None) ∧
  (∀ other, other ≠ message_id m → other ≠ message_id (message p) →
     ready_keys s' !! other = ready_keys s !! other).
Proof.
  intros p' Hwf Hp Hnone (Hm & Hq & _ & Hk). destruct (slot_entry n s q p Hwf Hp) as (_ & Hsid & _).
  split_and!; [done|..].
  - unfold read_queue_slot. rewrite Hq, Hsid, lookup_insert_eq. cbn [mbind option_bind].
    rewrite Hm. by rewrite lookup_insert_eq.
  - rewrite Hk. unfold p'. cbn. destruct (bool_decide (t = NextTurn)); [by rewrite lookup_insert_eq|].
    cbn. apply lookup_delete_None. right. apply eq_None_not_Some. intros [m' Hm']%(wf_keys n s Hwf). congruence.
  - intros other Hne Hne'. rewrite Hk. unfold p'. cbn.
    destruct (bool_decide (t = NextTurn)); cbn; rewrite ?lookup_insert_ne, lookup_delete_ne; done.
Qed.

Lemma replace_committed f k s r rc p cs c id new :
  planned k s r rc p cs c → rq_mutation r = Replace id new → committed f s r rc (cs ++ [c]).
Proof.
  intros [Hs Hroom Hnew Hsl Hex Hseq Hc Hp Hid Hpend Hhum _ Hcs] Hr. destruct Hhum as [Hh Hknown]; [congruence|].
  pose proof (successor_known_none s r id Hknown ltac:(by rewrite Hr)) as Hnone.
  unfold mutation_records in Hcs. rewrite Hr in Hcs.
  destruct (slot_entry _ s _ p (proj1 Hs) Hp) as (Hm & Hsid & _).
  pose proof (wf_message _ s (proj1 Hs) _ p Hm) as Hok.
  set (m := with_content (with_message_id (message p) id) new) in Hcs.
  assert (rc_outcome rc = OutReplaced id (last_seq s + 2) ∧ len cs = 2) as [Hout Hlen].
  { unfold successor_records in Hcs.
    apply obind_ok in Hcs as (acc & Hacc%ok_or_ok%checked_add_ok & Hcs).
    apply obind_ok in Hcs as (l & _ & Hcs). apply obind_ok in Hcs as (a & _ & [= <- <-]).
    split; [|done]. by rewrite Hacc, <- Z.add_assoc. }
  destruct (succession_commits f k s r rc c p m _ _ _ _ cs Hs Hroom Hnew Hp Hid Hpend Hnone Hex Hsl Hseq Hc Hcs)
    as (s' & a & Ha & Heff).
  { by left. }
  { intros l a Hl Ha. apply record_ok in Hc as (_ & _ & _ & Hbc). exists (queue_slot p).
    unfold validate_queue_successor. rewrite Hl, Ha, Hbc, Hout, Hh. rewrite !bool_decide_true by done.
    change (source m) with (source (message p)). rewrite Hh, (ok_wake _ _ _ _ Hok). cbn.
    by rewrite Bool.eqb_reflx. }
  destruct (succession_effect _ s s' p m _ _ _ a _ _ _ (proj1 Hs) Hp Hnone Heff) as (Hm' & Hq' & Hk' & Hoth).
  change (message_id m) with id in *.
  exists s'. split; [done|].
  unfold mutation_effect. rewrite Hout. eexists p, _. rewrite Hr. split_and!; try done.
  - rewrite Hm'. by replace (last_seq s + 2 - 1) with (last_seq s + 1) by lia.
  - rewrite Hk', <- Hid, (human_key _ s p (proj1 Hs) Hm Hpend Hh), (ok_wake _ _ _ _ Hok). done.
  - intros other Ho Ho'. apply Hoth; [done|congruence].
Qed.

Lemma convert_committed f k s r rc p cs c id turn :
  planned k s r rc p cs c → rq_mutation r = ConvertToSteer id turn → committed f s r rc (cs ++ [c]).
Proof.
  intros [Hs Hroom Hnew Hsl Hex Hseq Hc Hp Hid Hpend Hhum Hopt Hcs] Hr. destruct Hhum as [Hh Hknown]; [congruence|].
  specialize (Hopt id turn Hr).
  pose proof (successor_known_none s r id Hknown ltac:(by rewrite Hr)) as Hnone.
  unfold mutation_records in Hcs. rewrite Hr in Hcs.
  set (m := with_message_id (message p) id) in Hcs.
  assert (rc_outcome rc = OutConverted id (last_seq s + 2) turn ∧ len cs = 2) as [Hout Hlen].
  { unfold successor_records in Hcs.
    apply obind_ok in Hcs as (acc & Hacc%ok_or_ok%checked_add_ok & Hcs).
    apply obind_ok in Hcs as (l & _ & Hcs). apply obind_ok in Hcs as (a & _ & [= <- <-]).
    split; [|done]. by rewrite Hacc, <- Z.add_assoc. }
  destruct (succession_commits f k s r rc c p m _ _ _ _ cs Hs Hroom Hnew Hp Hid Hpend Hnone Hex Hsl Hseq Hc Hcs)
    as (s' & a & Ha & Heff).
  { right. eauto. }
  { intros l a Hl Ha. apply record_ok in Hc as (_ & _ & _ & Hbc). exists (queue_slot p).
    unfold validate_queue_successor. rewrite Hl, Ha, Hbc, Hout, Hh. rewrite !bool_decide_true by done.
    change (source m) with (source (message p)). by rewrite Hh. }
  destruct (succession_effect _ s s' p m _ _ _ a _ _ _ (proj1 Hs) Hp Hnone Heff) as (Hm' & Hq' & Hk' & Hoth).
  change (message_id m) with id in *.
  exists s'. split; [done|].
  unfold mutation_effect. rewrite Hout. eexists p, _. rewrite Hr. split_and!; try done.
  - rewrite Hm'. by replace (last_seq s + 2 - 1) with (last_seq s + 1) by lia.
  - intros other Ho Ho'. apply Hoth; [done|congruence].
Qed.

Lemma planned_matches k s r rc p cs c :
  planned k s r rc p cs c → outcome_matches (rq_mutation r) (rc_outcome rc) = true.
Proof.
  intros [_ _ _ _ _ _ _ _ _ _ _ _ Hcs]. unfold mutation_records in Hcs. destruct (rq_mutation r) as [id new|id turn|].
  - unfold successor_records in Hcs. apply obind_ok in Hcs as (acc & _ & Hcs).
    apply obind_ok in Hcs as (l & _ & Hcs). apply obind_ok in Hcs as (a & _ & [= _ <-]).
    by apply bool_decide_eq_true.
  - unfold successor_records in Hcs. apply obind_ok in Hcs as (acc & _ & Hcs).
    apply obind_ok in Hcs as (l & _ & Hcs). apply obind_ok in Hcs as (a & _ & [= _ <-]).
    cbn. by rewrite !bool_decide_true.
  - by apply obind_ok in Hcs as (d & _ & [= _ <-]).
Qed.

(** ** Receipts stay *)
Lemma apply_record_grows f s r rest s' :
  apply_record f s r rest = Ok s' → controls s' = controls s ∧ queue_mutations s ⊆ queue_mutations s'.
Proof.
  unfold apply_record. intros (_ & _ & Hx)%obind_ok. apply obind_ok in Hx as (_ & _ & Hx).
  apply obind_ok in Hx as (s1 & Hu & Hr).
  assert (controls s1 = controls s ∧ queue_mutations s ⊆ queue_mutations s1) as [Hc Hm].
  { unfold update_messages in Hu. destruct (body r).
    - repeat case_match; simplify_eq; done.
    - by apply obind_ok in Hu as (e & _ & [= <-]).
    - case_bool_decide as Hn; [done|]. injection Hu as <-. split; [done|]. cbn. apply insert_subseteq.
      by apply eq_None_not_Some.
    - apply obind_ok in Hu as (e & _ & Hu). repeat case_match; simplify_eq; done.
    - apply obind_ok in Hu as (e & _ & Hu). repeat case_match; simplify_eq; done.
    - apply obind_ok in Hu as (e & _ & Hu). repeat case_match; simplify_eq; done.
    - by injection Hu as <-. }
  assert (controls s' = controls s1 ∧ queue_mutations s' = queue_mutations s1) as [-> ->]; [|by rewrite Hc].
  unfold update_ready in Hr. destruct (body r) as [m d bound rt t w| | | | | |].
  - destruct w; [|by injection Hr as <-]. case_bool_decide; [done|]. by apply obind_ok in Hr as (e & _ & [= <-]).
  - injection Hr as <-. by destruct (unready_fields s1 predecessor) as (? & _ & _ & _ & ? & _).
  - by injection Hr as <-.
  - injection Hr as <-. by destruct (unready_fields s1 id) as (? & _ & _ & _ & ? & _).
  - case_bool_decide; [done|]. by apply obind_ok in Hr as (e & _ & [= <-]).
  - injection Hr as <-. by destruct (unready_fields s1 id) as (? & _ & _ & _ & ? & _).
  - by injection Hr as <-.
Qed.

Lemma apply_records_grow f s rs s' :
  apply_records f s rs = Ok s' → controls s' = controls s ∧ queue_mutations s ⊆ queue_mutations s'.
Proof.
  revert s. induction rs as [|r rs IH]; cbn; intros s; [by intros [= <-]|].
  intros (s1 & [Hc Hm]%apply_record_grows & [Hc' Hm']%IH)%obind_ok. split; [congruence|]. by etransitivity.
Qed.

Lemma apply_records_app f s rs rs' s' :
  apply_records f s (rs ++ rs') = Ok s' → ∃ s1, controls s1 = controls s ∧ apply_records f s1 rs' = Ok s'.
Proof.
  revert s. induction rs as [|r rs IH]; cbn; intros s Ha; [by exists s|].
  apply obind_ok in Ha as (s1 & [Hc _]%apply_record_grows & Ha). destruct (IH s1 Ha) as (s2 & ? & ?).
  exists s2. split; [congruence|done].
Qed.

(** The receipt of a commit can be read. *)
Lemma append_receipt f s e cs c rc s' :
  mailbox_sound s → append f s e (cs ++ [c]) = Ok s' → body c = QueueMutationRecorded rc →
  read_queue_mutation s' (rc_operation rc) = Ok (Some rc).
Proof.
  intros Hs Ha Hb. unfold append in Ha. destruct (_ <? len (cs ++ [c])); [done|].
  destruct (negb (e <? _)); [done|]. destruct (contiguous e (cs ++ [c])) eqn:Hc; [|done]. cbn [negb] in Ha.
  apply obind_ok in Ha as (_ & _ & Ha). rewrite (last_seq_len s (proj1 Hs)) in Ha.
  destruct (Z.eqb_spec (len (controls s)) e) as [<-|]; [|done]. cbn [negb] in Ha.
  pose proof (apply_records_grow _ _ _ _ Ha) as [Hcs' _]. cbn in Hcs'.
  apply apply_records_app in Ha as (s1 & Hc1 & Ha).
  pose proof (contiguous_seq _ _ (length cs) c Hc ltac:(by rewrite lookup_app_r, Nat.sub_diag by lia)) as Hseq.
  cbn in Ha. apply obind_ok in Ha as (s2 & Ha & [= <-]). unfold apply_record in Ha.
  apply obind_ok in Ha as (_ & _ & Ha). apply obind_ok in Ha as (_ & _ & Ha).
  apply obind_ok in Ha as (s3 & Hu & Hr). unfold update_messages in Hu. unfold update_ready in Hr. rewrite Hb in Hu, Hr.
  case_bool_decide; [done|]. injection Hu as <-. injection Hr as <-.
  unfold read_queue_mutation. cbn in Hcs' |- *. rewrite lookup_insert_eq, Hcs', Hseq.
  destruct (Z.eqb_spec (len (controls s) + 1 + Z.of_nat (length cs)) 0) as [?|_]; [unfold len in *; lia|].
  replace (Z.to_nat _) with (length (controls s ++ cs)) by (rewrite length_app; unfold len; lia).
  rewrite (assoc app), lookup_app_r, Nat.sub_diag by lia. cbn. rewrite Hb. by rewrite bool_decide_true.
Qed.

Lemma read_kept s s' op rc l :
  read_queue_mutation s op = Ok (Some rc) → controls s' = controls s ++ l →
  queue_mutations s ⊆ queue_mutations s' → read_queue_mutation s' op = Ok (Some rc).
Proof.
  unfold read_queue_mutation. intros Hr Hc Hm. destruct (queue_mutations s !! op) as [n|] eqn:Hn; [|done].
  rewrite (lookup_weaken _ _ _ _ Hn Hm). destruct (n =? 0); [done|].
  destruct (controls s !! Z.to_nat (n - 1)) as [r|] eqn:Hl; [|done].
  rewrite Hc. by rewrite (lookup_app_l_Some _ _ _ _ Hl).
Qed.

Lemma append_grows f s e rs s' :
  append f s e rs = Ok s' → controls s' = controls s ++ rs ∧ queue_mutations s ⊆ queue_mutations s'.
Proof.
  unfold append. destruct (_ <? len rs); [done|]. destruct (negb (e <? _)); [done|].
  destruct (negb (contiguous e rs)); [done|]. intros (_ & _ & Ha)%obind_ok.
  destruct (negb (last_seq s =? e)); [done|]. by apply apply_records_grow in Ha.
Qed.

Lemma run_keeps s later s' op rc :
  run s later = Some s' → read_queue_mutation s op = Ok (Some rc) → read_queue_mutation s' op = Ok (Some rc).
Proof.
  revert s. induction later as [|e later IH]; cbn; intros s Hrun Hr; [by injection Hrun as <-|].
  destruct (occur s e) as [s1|] eqn:He; [|done]. apply (IH s1 Hrun).
  destruct e as [f expected rs|n]; cbn in He.
  - destruct (forallb record_valid rs); [|by injection He as <-].
    destruct (append f s expected rs) as [s2|e|] eqn:Ha; simplify_eq; [|done].
    apply append_grows in Ha as [Hc Hm]. by apply (read_kept s s1 op rc rs).
  - injection He as <-. by case_match.
Qed.

Lemma receipt_valid rc n now c :
  record n now (QueueMutationRecorded rc) = Ok c → receipt_validate rc = true.
Proof.
  intros (Hv & _ & _ & Hb)%record_ok. unfold record_valid in Hv. rewrite Hb in Hv. cbn in Hv.
  rewrite !andb_true_iff in Hv. tauto.
Qed.

(** The commit of a plan. *)
Lemma plan_committed k s r e rs rc :
  mailbox_sound s → last_seq s + 4 ≤ u64_max → mutate k s r = Ok (Commit e rs rc) →
  outcome_matches (rq_mutation r) (rc_outcome rc) = true ∧ committed (λ _, false) s r rc rs.
Proof.
  intros Hs Hroom (-> & _ & Hnew & Hop & Hsl & Hex & cs & c & -> & Hseq & Hc & Hcase)%mutate_commit.
  rewrite <- Hop in Hnew. destruct (rejection k r (read_queue_slot s (rq_slot r)) (successor_known s r)) as [reason|] eqn:Hrej.
  - destruct Hcase as [-> Hout]. rewrite Hout. split; [by destruct (rq_mutation r)|].
    destruct (rejection_commits (λ _, false) k s rc c _ _ Hs Hroom Hnew Hout) as (s' & ? & ? & ? & ? & ?); [|done|].
    { rewrite Hseq. change (len []) with 0. lia. }
    exists s'. split; [done|]. unfold mutation_effect. by rewrite Hout.
  - destruct Hcase as (p & Hp & Hcs). rewrite Hp in Hrej.
    apply accepted_preconditions in Hrej as (Hid & Hpend & Hhum & Hopt).
    assert (planned k s r rc p cs c) as Hplan by done. split; [by eapply planned_matches|].
    destruct (rq_mutation r) eqn:Hm;
      eauto using withdraw_committed, replace_committed, convert_committed.
Qed.


(** What [mutate_queue] answered is in the mailbox it leaves. *)
Lemma mutated_receipt k s r s' rc :
  mailbox_sound s → mutate_queue k s r = (s', Ok rc) →
  read_queue_mutation s' (rq_operation r) = Ok (Some rc) ∧ receipt_validate rc = true ∧
  fingerprint r = Ok (rc_fingerprint rc).
Proof.
  intros Hs. unfold mutate_queue. destruct (mutate k s r) as [[rc0|e rs rc0]|e|] eqn:Hm; [..|done|done].
  - intros [= <- <-]. unfold mutate in Hm. apply obind_ok in Hm as (fp & Hfp & Hm).
    apply obind_ok in Hm as (existing & Hex & Hm). destruct existing as [rc1|].
    + case_bool_decide as Heq; [|done]. injection Hm as ->. unfold read_queue_receipt in Hex.
      destruct (read_queue_mutation s (rq_operation r)) as [[rc1|]|e|]; try done.
      destruct (receipt_validate rc1) eqn:Hv; [|done]. injection Hex as <-. by rewrite Heq.
    + destruct (flush_error k); [done|]. apply obind_ok in Hm as (n & _ & Hm).
      apply obind_ok in Hm as ([cs out] & _ & Hm). apply obind_ok in Hm as (n' & _ & Hm).
      by apply obind_ok in Hm as (c & _ & ?).
  - destruct (append _ s e rs) as [s1|er|] eqn:Ha; [|done|done]. intros [= <- <-].
    destruct (mutate_commit k s r e rs rc0 Hm) as (-> & Hfp & _ & Hop & _ & _ & cs & c & -> & _ & Hc & _).
    split_and!; [|by eapply receipt_valid|done]. rewrite <- Hop.
    apply (append_receipt _ _ _ _ _ _ _ Hs Ha). by apply record_ok in Hc as (_ & _ & _ & ?).
Qed.

(** An edit takes effect once. After a mutation was answered, whatever is committed
    later, to whichever Kernel and at whatever time the request is repeated, it is answered
    by the same receipt and changes nothing; a different request under the same operation
    identity is refused as a conflict. *)
Lemma mutation_retried k k' r0 es s r s1 rc later s2 :
  run (empty_mailbox r0) es = Some s → mutate_queue k s r = (s1, Ok rc) → run s1 later = Some s2 →
  mutate_queue k' s2 r = (s2, Ok rc) ∧
  ∀ r' fp, rq_operation r' = rq_operation r → fingerprint r' = Ok fp → fingerprint r ≠ Ok fp →
    mutate_queue k' s2 r' = (s2, Err QueueOperationConflict).
Proof.
  intros Hes Hm Hlater. destruct (mailbox_run _ es (empty_sound r0)) as (s0 & Hes1 & Hs & _).
  rewrite Hes in Hes1. injection Hes1 as <-.
  destruct (mutated_receipt k s r s1 rc Hs Hm) as (Hr & Hv & Hfp).
  apply (run_keeps s1 later s2 _ _ Hlater) in Hr.
  assert (read_queue_receipt s2 (rq_operation r) = Ok (Some rc)) as Hread
    by (unfold read_queue_receipt; by rewrite Hr, Hv).
  split.
  - unfold mutate_queue, mutate. rewrite Hfp. cbn [obind]. rewrite Hread. cbn [obind].
    by rewrite bool_decide_true.
  - intros r' fp Hop Hfp' Hne. unfold mutate_queue, mutate. rewrite Hfp'. cbn [obind].
    rewrite Hop, Hread. cbn [obind]. rewrite bool_decide_false by congruence. done.
Qed.
End wire.

(** ** A sample edit *)
Definition sample_kernel : Kernel :=
  {| flush_error := None; live_turns := ∅; program_initial := λ _, false; clock := 20 |}.
Definition sample_pending : Mailbox := after (empty_mailbox [0]) (take 1 sample_edit).
Definition sample_replace : QueueMutationRequest :=
  {| rq_operation := [9]; rq_slot := [1]; rq_expected := [1]; rq_mutation := Replace [2] [ContentText [105]] |}.
Definition sample_withdraw : QueueMutationRequest :=
  {| rq_operation := [9]; rq_slot := [1]; rq_expected := [1]; rq_mutation := Withdraw |}.
Definition sample_receipt : QueueMutationReceipt :=
  {| rc_operation := [9]; rc_fingerprint := replicate 64 97; rc_slot := [1]; rc_expected := [1];
     rc_seq := 4; rc_outcome := OutReplaced [2] 3 |}.
Definition sample_records : list AgentControlRecord :=
  match mutate (H := sample_wire) sample_kernel sample_pending sample_replace with
  | Ok (Commit _ rs _) => rs
  | _ => []
  end.
Definition sample_replaced : Mailbox :=
  fst (mutate_queue (H := sample_wire) sample_kernel sample_pending sample_replace).


Lemma mutation_retried_witness :
  let claimed := after sample_replaced (drop 2 sample_edit) in
  mutate_queue (H := sample_wire) sample_kernel claimed sample_replace = (claimed, Ok sample_receipt) ∧
  mutate_queue (H := sample_wire) sample_kernel claimed sample_withdraw = (claimed, Err QueueOperationConflict).
Proof.
  intros claimed.
  destruct (mutation_retried (H := sample_wire) sample_kernel sample_kernel [0] (take 1 sample_edit) sample_pending
    sample_replace sample_replaced sample_receipt (drop 2 sample_edit) claimed) as [Hr Hc];
    [by vm_compute|by vm_compute|by vm_compute|].
  split; [exact Hr|]. apply (Hc sample_withdraw (replicate 63 97 ++ [98])); [done|by vm_compute|].
  by vm_compute.
Defined.
