(* ===== verification/PatchDisk.v ===== *)
(** * The workspace a patch is applied to

    [Root] of [crates/rsi-apply-patch/core/src/patch_engine.rs]: reading, planning parent
    directories, publishing a file through a private temporary one and deleting, over the
    system calls it makes.

    A [World] is the tree below the opened root, by component paths.  Every system call may
    fail ([faults] holds what happens to the next ones).  One operation of [Root] is one
    step: other processes change the tree between operations ([PatchApply.commit]), not
    between the last check of a target and its replacement, which the code documents as the
    remaining race.  The bytes of a file are its text if they are UTF-8.  [created] is the
    out-parameter [created_directories].  [errno_text] prints an error of the system. *)

From S2P Require Import Prelude Text PatchCommon.

Definition MAXIMUM_PATCH_FILE_BYTES : Z := 4 * 1024 * 1024.
Definition MAXIMUM_PATCH_EFFECTS : Z := MAXIMUM_PATCH_OPERATIONS * 3.

(** ** Files and directories *)
Inductive Bytes := Utf8 (t : text) | Raw (b : list Z).
#[export] Instance Bytes_eq_dec : EqDecision Bytes.
Proof. solve_decision. Defined.
Definition bytes_len (b : Bytes) : Z :=
  match b with Utf8 t => text_len t | Raw b => len b end.

(** [FileIdentity] and [DirectoryIdentity]: device and inode. *)
Notation Identity := (Z * Z)%type.

Record VirtualContent := { bytes : Bytes; mode : Z; identity : option Identity }.

Inductive Node :=
| Directory (id : Identity)
| Regular (b : Bytes) (mode : Z) (id : Identity)
| Special
| Link.

Inductive Errno := NOENT | EXIST | NOTDIR | ISDIR | LOOP | OtherErrno (e : text).

Record World := {
  root_identity : Identity;
  nodes : gmap (list text) Node;
  faults : list (option text);
  next_inode : Z;
  created : list text;
  process : Z;
  next_temp : Z
}.
Definition set_nodes (w : World) (t : gmap (list text) Node) : World :=
  {| root_identity := root_identity w; nodes := t; faults := faults w; next_inode := next_inode w;
     created := created w; process := process w; next_temp := next_temp w |}.
Definition set_faults (w : World) (l : list (option text)) : World :=
  {| root_identity := root_identity w; nodes := nodes w; faults := l; next_inode := next_inode w;
     created := created w; process := process w; next_temp := next_temp w |}.
Definition set_created (w : World) (l : list text) : World :=
  {| root_identity := root_identity w; nodes := nodes w; faults := faults w; next_inode := next_inode w;
     created := l; process := process w; next_temp := next_temp w |}.
Definition bump_inode (w : World) : World :=
  {| root_identity := root_identity w; nodes := nodes w; faults := faults w;
     next_inode := next_inode w + 1; created := created w; process := process w; next_temp := next_temp w |}.
Definition bump_temp (w : World) : World :=
  {| root_identity := root_identity w; nodes := nodes w; faults := faults w; next_inode := next_inode w;
     created := created w; process := process w; next_temp := next_temp w + 1 |}.
Definition fresh (w : World) : Identity := (fst (root_identity w), next_inode w).

(** ** Computations on the workspace *)
Definition disk (E A : Type) := World → World * outcome E A.
Definition dret {E A} (a : A) : disk E A := λ w, (w, Ok a).
Definition dfail {E A} (e : E) : disk E A := λ w, (w, Err e).
Definition dbind {E A B} (m : disk E A) (k : A → disk E B) : disk E B := λ w,
  match m w with
  | (w', Ok a) => k a w'
  | (w', Err e) => (w', Err e)
  | (w', Panic) => (w', Panic)
  end.
Definition dlift {E A} (o : outcome E A) : disk E A := λ w, (w, o).
(** [Result::map_err] and a match on the error. *)
Definition dcatch {E F A} (m : disk E A) (k : E → disk F A) : disk F A := λ w,
  match m w with
  | (w', Ok a) => (w', Ok a)
  | (w', Err e) => k e w'
  | (w', Panic) => (w', Panic)
  end.
Declare Scope disk_scope.
Delimit Scope disk_scope with disk.
Notation "'let!' x := m 'in' k" := (dbind m (λ x, k))
  (at level 10, x pattern, m at level 100, k at level 200) : disk_scope.
Local Open Scope disk_scope.

(** ** System calls *)
Definition attempt {A} (f : World → World * outcome Errno A) : disk Errno A := λ w,
  match faults w with
  | Some e :: rest => (set_faults w rest, Err (OtherErrno e))
  | None :: rest => f (set_faults w rest)
  | [] => f w
  end.

(** An open directory. *)
Record Handle := { dir : list text; dir_identity : Identity }.
Definition under (h : Handle) (name : text) : list text := dir h ++ [name].

Definition try_clone : disk Errno Handle :=
  attempt (λ w, (w, Ok {| dir := []; dir_identity := root_identity w |})).
Definition open_directory (h : Handle) (name : text) : disk Errno Handle :=
  attempt (λ w,
    (w, match nodes w !! under h name with
        | Some (Directory id) => Ok {| dir := under h name; dir_identity := id |}
        | Some Link => Err LOOP
        | Some _ => Err NOTDIR
        | None => Err NOENT
        end)).
Definition fstat_directory (h : Handle) : disk Errno Identity :=
  attempt (λ w, (w, Ok (dir_identity h))).
(** [O_NOFOLLOW] refuses a link; anything else opens for reading. *)
Definition open_file (h : Handle) (name : text) : disk Errno Node :=
  attempt (λ w,
    (w, match nodes w !! under h name with
        | Some Link => Err LOOP
        | Some n => Ok n
        | None => Err NOENT
        end)).
(** [fstat], [read_to_end], [write_all], [fchmod] and [sync_all] on an open file. *)
Definition use_file : disk Errno unit := attempt (λ w, (w, Ok tt)).
Definition mkdirat (h : Handle) (name : text) : disk Errno unit :=
  attempt (λ w,
    match nodes w !! under h name with
    | Some _ => (w, Err EXIST)
    | None => (bump_inode (set_nodes w (<[under h name := Directory (fresh w)]> (nodes w))), Ok tt)
    end).
(** [O_CREAT | O_EXCL] with mode [0600]. *)
Definition create_file (h : Handle) (name : text) : disk Errno unit :=
  attempt (λ w,
    match nodes w !! under h name with
    | Some _ => (w, Err EXIST)
    | None =>
        (bump_inode (set_nodes w (<[under h name := Regular (Utf8 []) 384 (fresh w)]> (nodes w))), Ok tt)
    end).
Definition update_file (h : Handle) (name : text) (f : Bytes → Z → Bytes * Z) : disk Errno unit :=
  attempt (λ w,
    (match nodes w !! under h name with
     | Some (Regular b m id) =>
         let '(b', m') := f b m in set_nodes w (<[under h name := Regular b' m' id]> (nodes w))
     | _ => w
     end, Ok tt)).
Definition write_all (h : Handle) (name : text) (content : Bytes) : disk Errno unit :=
  update_file h name (λ _ m, (content, m)).
Definition fchmod (h : Handle) (name : text) (m : Z) : disk Errno unit :=
  update_file h name (λ b _, (b, m)).
Definition unlinkat (h : Handle) (name : text) : disk Errno unit :=
  attempt (λ w,
    match nodes w !! under h name with
    | None => (w, Err NOENT)
    | Some (Directory _) => (w, Err ISDIR)
    | Some _ => (set_nodes w (delete (under h name) (nodes w)), Ok tt)
    end).
Definition renameat (h : Handle) (from to : text) (replace : bool) : disk Errno unit :=
  attempt (λ w,
    match nodes w !! under h from, nodes w !! under h to with
    | None, _ => (w, Err NOENT)
    | Some _, Some (Directory _) => (w, Err (if replace then ISDIR else EXIST))
    | Some n, other =>
        if negb replace && bool_decide (is_Some other) then (w, Err EXIST)
        else (set_nodes w (<[under h to := n]> (delete (under h from) (nodes w))), Ok tt)
    end).

(** ** [Root] *)
Definition parents (p : SafePath) : list text := removelast (components p).
Definition name (p : SafePath) : text := default [] (last (components p)).

Section root.
Context (errno_text : Errno → text).

Definition io_failure (code context : string) (e : Errno) : EngineFailure :=
  failure code (lit context ++ lit ": " ++ errno_text e).
Definition described {A} (code context : string) (m : disk Errno A) : disk EngineFailure A :=
  dcatch m (λ e, dfail (io_failure code context e)).

Definition clone_root : disk EngineFailure Handle :=
  described "open_workspace" "failed to clone cwd handle" try_clone.
Definition directory_identity (h : Handle) : disk EngineFailure Identity :=
  described "metadata_failed" "failed to inspect parent" (fstat_directory h).

(** [Root::read_optional_at]; the size is that of the open file. *)
Definition read_optional_at (h : Handle) (name : text) : disk EngineFailure (option VirtualContent) :=
  let! opened :=
    dcatch (let! n := open_file h name in dret (Some n)) (λ e,
      match e with
      | NOENT => dret None
      | _ => dfail (io_failure "unsafe_or_unreadable_path"
                      "target is not a readable symlink-free regular file" e)
      end) in
  match opened with
  | None => dret None
  | Some n =>
      let! _ := described "metadata_failed" "failed to inspect target" use_file in
      match n with
      | Regular b m id =>
          if MAXIMUM_PATCH_FILE_BYTES <? bytes_len b
          then dfail (failure "file_too_large"
                        (lit "target exceeds " ++ dec MAXIMUM_PATCH_FILE_BYTES ++ lit " bytes"))
          else
            let! _ := described "read_failed" "target read failed" use_file in
            dret (Some {| bytes := b; mode := m; identity := Some id |})
      | _ => dfail (failure "special_file" (lit "patch target must be a regular file"))
      end
  end.

(** [ParentCreation]: [None] forbids creating, [Some planned] allows the planned ones. *)
Definition open_component (creation : option (list text)) (h : Handle) (component : text) :
  disk EngineFailure Handle :=
  dcatch (open_directory h component) (λ e,
    match e, creation with
    | NOENT, Some planned =>
        let path := join_slash (under h component) in
        if negb (bool_decide (path ∈ planned))
        then dfail (failure "changed_since_preflight"
                      (lit "an existing parent disappeared after patch preflight"))
        else
          let! _ := dcatch (let! _ := mkdirat h component in
                            λ w, (set_created w (created w ++ [path]), Ok tt)) (λ e,
              match e with
              | EXIST => dret tt
              | _ => dfail (io_failure "mkdir_failed" "failed to create a parent directory" e)
              end) in
          described "unsafe_parent" "created parent could not be reopened without following links"
            (open_directory h component)
    | NOENT, None => dfail (failure "not_found" (lit "a parent directory does not exist"))
    | _, _ => dfail (io_failure "unsafe_parent" "parent path is not a symlink-free directory" e)
    end).
Fixpoint open_components (creation : option (list text)) (h : Handle) (names : list text) :
  disk EngineFailure Handle :=
  match names with
  | [] => dret h
  | component :: rest =>
      let! h' := open_component creation h component in open_components creation h' rest
  end.
Definition open_parent (p : SafePath) (creation : option (list text)) : disk EngineFailure Handle :=
  let! h := clone_root in open_components creation h (parents p).

(** A missing parent is no error of [read_optional] and [parent_identity]. *)
Definition existing_parent {A} (p : SafePath) (k : Handle → disk EngineFailure (option A)) :
  disk EngineFailure (option A) :=
  let! h :=
    dcatch (let! h := open_parent p None in dret (Some h)) (λ f,
      if bool_decide (code f = lit "not_found") then dret None else dfail f) in
  match h with None => dret None | Some h => k h end.
Definition read_optional (p : SafePath) : disk EngineFailure (option VirtualContent) :=
  existing_parent p (λ h, read_optional_at h (name p)).
Definition parent_identity (p : SafePath) : disk EngineFailure (option Identity) :=
  existing_parent p (λ h, let! id := directory_identity h in dret (Some id)).

(** ** The budget for new directories *)
Record DirectoryBudget := { effects : Z; text_bytes : Z; paths : gset text }.
Definition effect_budget_failure : EngineFailure :=
  failure "effect_budget"
    (lit "patch may produce more than " ++ dec MAXIMUM_PATCH_EFFECTS ++ lit " filesystem effects").
Definition admit_directory (d : DirectoryBudget) (path : text) : outcome EngineFailure DirectoryBudget :=
  (if bool_decide (path ∈ paths d) then Ok d
   else
     let? room := expect (checked_sub (MAXIMUM_PATCH_EFFECTS * MAXIMUM_PATCH_PATH_BYTES) (text_bytes d)) in
     if (MAXIMUM_PATCH_EFFECTS <=? effects d) || (room <? text_len path) then Err effect_budget_failure
     else Ok {| effects := effects d + 1; text_bytes := text_bytes d + text_len path;
                paths := {[path]} ∪ paths d |})%outcome.

(** [path.text.match_indices('/')], as the prefixes in front of the slashes. *)
Fixpoint slash_prefixes (seen t : text) : list text :=
  match t with
  | [] => []
  | c :: rest =>
      if c =? SLASH then seen :: slash_prefixes (seen ++ [c]) rest else slash_prefixes (seen ++ [c]) rest
  end.

(** The loop of [Root::parent_plan]; [None] once a component is missing. *)
Fixpoint plan_components (budget : DirectoryBudget) (h : option Handle) (planned : list text)
    (components : list (text * text)) :
  disk EngineFailure (DirectoryBudget * option Handle * list text) :=
  match components with
  | [] => dret (budget, h, planned)
  | (component, prefix) :: rest =>
      let! opened :=
        match h with
        | None => dret None
        | Some h =>
            dcatch (let! h' := open_directory h component in dret (Some h')) (λ e,
              match e with
              | NOENT => dret None
              | _ => dfail (io_failure "unsafe_parent" "parent path is not a symlink-free directory" e)
              end)
        end in
      match opened with
      | Some h' => plan_components budget (Some h') planned rest
      | None =>
          let! budget' := dlift (admit_directory budget prefix) in
          plan_components budget' None (planned ++ [prefix]) rest
      end
  end.
Definition parent_plan (p : SafePath) (budget : DirectoryBudget) :
  disk EngineFailure (DirectoryBudget * (option Identity * list text)) :=
  let! h := clone_root in
  let! (budget', h', planned) :=
    plan_components budget (Some h) [] (zip (parents p) (slash_prefixes [] (path_text p))) in
  match h' with
  | None => dret (budget', (None, planned))
  | Some h' => let! id := directory_identity h' in dret (budget', (Some id, planned))
  end.

(** ** Publishing and deleting *)
Record PathExpectation := {
  expected_bytes : option Bytes;
  expected_mode : option Z;
  expected_identity : option Identity;
  expected_parent : option Identity
}.
Definition changed (message : string) : EngineFailure :=
  failure "changed_since_preflight" (lit message).

Definition validate_parent_identity (h : Handle) (expected : option Identity) : disk EngineFailure unit :=
  match expected with
  | None => dret tt
  | Some id =>
      let! actual := directory_identity h in
      if bool_decide (actual = id) then dret tt
      else dfail (changed "target parent changed after patch preflight")
  end.
Definition revalidate_at (h : Handle) (name : text) (e : PathExpectation) : disk EngineFailure unit :=
  let! current := read_optional_at h name in
  if negb (bool_decide (bytes <$> current = expected_bytes e)) ||
     negb (bool_decide (mode <$> current = expected_mode e)) ||
     (bool_decide (is_Some (expected_identity e)) &&
      negb (bool_decide (current ≫= identity = expected_identity e)))
  then dfail (changed "target changed after patch preflight")
  else dret tt.

(** [format!(".rsi-apply-patch-{}-{sequence:016x}.tmp", pid)] *)
Definition TEMPORARY_PREFIX : text := lit ".rsi-apply-patch-".
Definition hex_digit (n : Z) : Z := if n <? 10 then 48 + n else 87 + n.
Fixpoint hex_go (digits : nat) (n : Z) : text :=
  match digits with
  | O => []
  | S digits => hex_go digits (n / 16) ++ [hex_digit (n mod 16)]
  end.
Definition temporary_name (pid sequence : Z) : text :=
  TEMPORARY_PREFIX ++ dec pid ++ lit "-" ++ hex_go 16 sequence ++ lit ".tmp".

(** The loop over 128 names. *)
Fixpoint create_temporary (tries : nat) (h : Handle) : disk EngineFailure text :=
  match tries with
  | O => dfail (failure "temporary_create_failed"
                  (lit "could not allocate a private temporary file name"))
  | S tries =>
      let! name := λ w, (bump_temp w, Ok (temporary_name (process w) (next_temp w))) in
      let! made :=
        dcatch (let! _ := create_file h name in dret true) (λ e,
          match e with
          | EXIST => dret false
          | _ => dfail (io_failure "temporary_create_failed" "failed to allocate private temporary file" e)
          end) in
      if made then dret name else create_temporary tries h
  end.

(** [cleanup]: the temporary file is unlinked, whether or not that works. *)
Definition cleanup {A} (h : Handle) (temporary : text) (f : EngineFailure) : disk EngineFailure A :=
  let! _ := dcatch (unlinkat h temporary) (λ _, dret tt) in dfail f.

Definition atomic_write (p : SafePath) (e : PathExpectation) (content : Bytes) (publish_mode : Z)
    (creation : option (list text)) : disk EngineFailure unit :=
  let! h := open_parent p creation in
  let! _ := validate_parent_identity h (expected_parent e) in
  let! _ := revalidate_at h (name p) e in
  let! temporary := create_temporary 128 h in
  let! _ := dcatch (let! _ := write_all h temporary content in
                    let! _ := fchmod h temporary publish_mode in use_file)
              (λ errno, cleanup h temporary (io_failure "temporary_write_failed"
                          "failed to write private temporary file" errno)) in
  let! _ := dcatch (revalidate_at h (name p) e) (cleanup h temporary) in
  dcatch (renameat h temporary (name p) (bool_decide (is_Some (expected_bytes e))))
    (λ errno, cleanup h temporary (io_failure "rename_failed"
                "failed to atomically publish updated file" errno)).

Definition remove (p : SafePath) (e : PathExpectation) : disk EngineFailure unit :=
  let! h := open_parent p None in
  let! _ := validate_parent_identity h (expected_parent e) in
  let! _ := revalidate_at h (name p) e in
  described "delete_failed" "failed to delete target file" (unlinkat h (name p)).
End root.
