(* ===== verification/PatchDiskRules.v ===== *)
(** * Rules for computations on the workspace

    Weakest preconditions for [PatchDisk.disk], with a postcondition for results and one for
    errors (a panic has none), the rules of its operations and system calls, and what every
    operation of [Root] does to the tree, whichever calls fail. *)

From S2P Require Import Prelude Text PatchCommon PatchDisk.
Local Open Scope disk_scope.

Notation tree := (gmap (list text) Node).

Definition wp {E A} (m : disk E A) (Q : World → A → Prop) (X : World → E → Prop) (w : World) : Prop :=
  match m w with
  | (w', Ok a) => Q w' a
  | (w', Err e) => X w' e
  | (_, Panic) => False
  end.

Section rules.
Context {E : Type}.

Lemma wp_ret {A} (a : A) (Q : World → A → Prop) (X : World → E → Prop) w : Q w a → wp (dret a) Q X w.
Proof. done. Qed.
Lemma wp_fail {A} e (Q : World → A → Prop) (X : World → E → Prop) w : X w e → wp (dfail e) Q X w.
Proof. done. Qed.
Lemma wp_lift {A} (o : outcome E A) (Q : World → A → Prop) (X : World → E → Prop) w :
  (∀ a, o = Ok a → Q w a) → (∀ e, o = Err e → X w e) → o ≠ Panic → wp (dlift o) Q X w.
Proof. unfold wp, dlift. destruct o; naive_solver. Qed.
Lemma wp_state {A} (f : World → World) (a : A) (Q : World → A → Prop) (X : World → E → Prop) w :
  Q (f w) a → wp (λ w, (f w, Ok a)) Q X w.
Proof. done. Qed.
Lemma wp_bind {A B} (m : disk E A) (k : A → disk E B) Q X w :
  wp m (λ w' a, wp (k a) Q X w') X w → wp (dbind m k) Q X w.
Proof. unfold wp, dbind. by destruct (m w) as [w' [a|e|]]. Qed.
Lemma wp_catch {F A} (m : disk E A) (k : E → disk F A) Q X w :
  wp m Q (λ w' e, wp (k e) Q X w') w → wp (dcatch m k) Q X w.
Proof. unfold wp, dcatch. by destruct (m w) as [w' [a|e|]]. Qed.
Lemma wp_mono {A} (m : disk E A) (Q Q' : World → A → Prop) (X X' : World → E → Prop) w :
  wp m Q X w → (∀ w' a, Q w' a → Q' w' a) → (∀ w' e, X w' e → X' w' e) → wp m Q' X' w.
Proof. unfold wp. destruct (m w) as [w' [a|e|]]; auto. Qed.
Lemma wp_run {A} (m : disk E A) Q X w w' o :
  wp m Q X w → m w = (w', o) →
  match o with Ok a => Q w' a | Err e => X w' e | Panic => False end.
Proof. unfold wp. intros Hwp Heq. rewrite Heq in Hwp. by destruct o. Qed.
End rules.

(** A call fails by itself or by a fault; a fault changes nothing. *)
Lemma wp_attempt {A} (f : World → World * outcome Errno A) Q X w :
  (∀ fs e, X (set_faults w fs) (OtherErrno e)) →
  (∀ fs, match f (set_faults w fs) with
         | (w', Ok a) => Q w' a
         | (w', Err e) => X w' e
         | (_, Panic) => False
         end) →
  wp (attempt f) Q X w.
Proof.
  intros Hx Hf. unfold attempt, wp. destruct (faults w) as [|[e|] rest] eqn:Hw; [|apply Hx|apply Hf].
  specialize (Hf []). rewrite <- Hw in Hf. destruct w. exact Hf.
Qed.

(** Nothing but the faults that are left changes. *)
Definition same (w w' : World) : Prop := ∃ fs, w' = set_faults w fs.
#[export] Instance same_preorder : PreOrder same.
Proof.
  split.
  - intros w. exists (faults w). by destruct w.
  - intros w1 w2 w3 [fs ->] [fs' ->]. by exists fs'.
Qed.
Lemma same_faults w fs : same w (set_faults w fs).
Proof. by exists fs. Qed.
Lemma same_nodes w w' : same w w' → nodes w' = nodes w.
Proof. by intros [fs ->]. Qed.

Ltac wp_step :=
  lazymatch goal with
  | |- wp (dbind _ _) _ _ _ => apply wp_bind
  | |- wp (dcatch _ _) _ _ _ => apply wp_catch
  | |- wp (described _ _ _ _) _ _ _ => unfold described; apply wp_catch
  | |- wp (dret _) _ _ _ => apply wp_ret
  | |- wp (dfail _) _ _ _ => apply wp_fail
  | |- wp (attempt _) _ _ _ => apply wp_attempt; intros
  end.
(** Closes a goal [same w0 w] from steps in the context. *)
Ltac same_done :=
  solve [repeat match goal with
    | |- same ?w ?w => reflexivity
    | |- same ?w (set_faults ?w _) => apply same_faults
    | |- same ?w (set_faults ?w' _) => transitivity w'; [|apply same_faults]
    | H : same ?w' ?w |- same ?w0 ?w => transitivity w'; [|exact H]
    end].

(** ** Reading *)
Section reads.
Context (errno_text : Errno → text).

Lemma open_directory_wp h n w :
  wp (open_directory h n)
    (λ w' h', same w w' ∧ dir h' = under h n ∧ nodes w !! under h n = Some (Directory (dir_identity h')))
    (λ w' e, same w w' ∧ (e = NOENT → nodes w !! under h n = None)) w.
Proof.
  unfold open_directory. wp_step; [split; [apply same_faults|done]|].
  cbn. destruct (nodes w !! under h n) as [[id| | |]|]; split; (apply same_faults || done).
Qed.

(** The content of a regular file at a node. *)
Definition content_at (n : option Node) : option VirtualContent :=
  match n with
  | Some (Regular b m id) => Some {| bytes := b; mode := m; identity := Some id |}
  | _ => None
  end.

Lemma read_optional_at_wp h n w :
  wp (read_optional_at errno_text h n)
    (λ w' c, same w w' ∧
      match c with
      | None => nodes w !! under h n = None
      | Some v => content_at (nodes w !! under h n) = Some v ∧ bytes_len (bytes v) ≤ MAXIMUM_PATCH_FILE_BYTES
      end)
    (λ w' _, same w w') w.
Proof.
  unfold read_optional_at, open_file, use_file. do 3 wp_step. wp_step; [wp_step; apply same_faults|].
  cbn. destruct (nodes w !! under h n) as [[id|b m id| |]|] eqn:Hn; cbn.
  1-3: wp_step; wp_step; repeat wp_step; cbn; try same_done.
  - destruct (Z.ltb_spec MAXIMUM_PATCH_FILE_BYTES (bytes_len b)).
    + wp_step. same_done.
    + repeat wp_step; cbn; [same_done|]. split; [same_done|done].
  - same_done.
  - split; [same_done|done].
Qed.
End reads.

(** ** What a target must be *)
Definition expected_at (e : PathExpectation) (n : option Node) : Prop :=
  match expected_bytes e with
  | None => n = None
  | Some b => ∃ m id, n = Some (Regular b m id) ∧ expected_mode e = Some m
  end.

(** ** New directories *)
Fixpoint mkdirs (ds : list (list text)) (t t' : tree) : Prop :=
  match ds with
  | [] => t' = t
  | d :: ds => t !! d = None ∧ ∃ id, mkdirs ds (<[d := Directory id]> t) t'
  end.
Lemma mkdirs_app ds ds' t t1 t2 : mkdirs ds t t1 → mkdirs ds' t1 t2 → mkdirs (ds ++ ds') t t2.
Proof.
  revert t. induction ds as [|d ds IH]; cbn; intros t; [by intros ->|].
  intros (? & id & ?) ?. split; [done|]. exists id. by apply IH.
Qed.

(** Only planned directories are made, and each is recorded. *)
Definition grown (creation : option (list text)) (w w' : World) : Prop :=
  ∃ ds, mkdirs ds (nodes w) (nodes w') ∧ created w' = created w ++ (join_slash <$> ds) ∧
    Forall (λ d, ∃ planned, creation = Some planned ∧ join_slash d ∈ planned) ds ∧
    process w' = process w ∧ next_temp w' = next_temp w.
#[export] Instance grown_preorder creation : PreOrder (grown creation).
Proof.
  split.
  - intros w. exists []. split_and!; [done|by rewrite app_nil_r|constructor|done|done].
  - intros w1 w2 w3 (ds & Hm & Hc & Hp & Hpr & Ht) (ds' & Hm' & Hc' & Hp' & Hpr' & Ht').
    exists (ds ++ ds'). split_and!; [by eapply mkdirs_app| |by apply Forall_app|congruence|congruence].
    by rewrite Hc', Hc, fmap_app, (assoc app).
Qed.
Lemma same_grown creation w w' : same w w' → grown creation w w'.
Proof. intros [fs ->]. exists []. split_and!; [done|by rewrite app_nil_r|constructor|done|done]. Qed.

Section operations.
Context (errno_text : Errno → text).

Lemma validate_parent_wp h expected w :
  wp (validate_parent_identity errno_text h expected)
    (λ w' _, same w w' ∧ match expected with Some id => dir_identity h = id | None => True end)
    (λ w' _, same w w') w.
Proof.
  unfold validate_parent_identity, directory_identity, fstat_directory. destruct expected as [id|];
    [|wp_step; split; [reflexivity|done]].
  do 2 wp_step. wp_step; [wp_step; apply same_faults|]. cbn. case_bool_decide; cbn; [split; [|done]|]; same_done.
Qed.

Lemma revalidate_wp h n e w :
  wp (revalidate_at errno_text h n e)
    (λ w' _, same w w' ∧ expected_at e (nodes w !! under h n)) (λ w' _, same w w') w.
Proof.
  unfold revalidate_at. wp_step. eapply wp_mono; [apply read_optional_at_wp| |done].
  cbn. intros w' c [Hs Hc]. destruct (_ || _) eqn:Hcond; wp_step; [done|]. split; [done|].
  rewrite !orb_false_iff, !negb_false_iff, !bool_decide_eq_true in Hcond. destruct Hcond as [[Hb Hm] _].
  unfold expected_at. rewrite <- Hb. destruct c as [[b m id]|]; cbn in *; [|done].
  destruct Hc as [Hc _]. unfold content_at in Hc. repeat case_match; simplify_eq. eauto.
Qed.

Lemma open_component_wp creation h c w :
  wp (open_component errno_text creation h c)
    (λ w' h', grown creation w w' ∧ dir h' = under h c) (λ w' _, grown creation w w') w.
Proof.
  unfold open_component. wp_step. eapply wp_mono; [apply open_directory_wp| |].
  { intros w' h' (Hs & Hd & _). split; [by apply same_grown|done]. }
  cbn. intros w1 e [Hs He]. pose proof (same_grown creation _ _ Hs) as Hg.
  destruct e; try exact Hg. destruct creation as [planned|]; [|exact Hg].
  case_bool_decide as Hin; cbn [negb]; [|by wp_step].
  assert (nodes w1 !! under h c = None) as Hnone by (rewrite (same_nodes _ _ Hs); auto).
  wp_step. wp_step. wp_step. unfold mkdirat. wp_step.
  { wp_step. etransitivity; [exact Hg|]. apply same_grown, same_faults. }
  cbn [set_faults nodes]. rewrite Hnone. apply wp_state.
  set (w2 := set_created _ _).
  assert (grown (Some planned) w w2) as Hg2.
  { etransitivity; [exact Hg|]. exists [under h c]. split_and!; try done.
    - cbn. split; [done|]. by eexists.
    - constructor; [|constructor]. eauto. }
  wp_step. eapply wp_mono; [apply open_directory_wp| |].
  - intros w' h' (Hs' & Hd & _). split; [|done]. etransitivity; [exact Hg2|by apply same_grown].
  - intros w' e (Hs' & _). wp_step. etransitivity; [exact Hg2|by apply same_grown].
Qed.

Lemma open_components_wp creation names h w :
  wp (open_components errno_text creation h names)
    (λ w' h', grown creation w w' ∧ dir h' = dir h ++ names) (λ w' _, grown creation w w') w.
Proof.
  revert h w. induction names as [|c names IH]; intros h w; cbn [open_components].
  - wp_step. split; [reflexivity|by rewrite app_nil_r].
  - wp_step. eapply wp_mono; [apply open_component_wp| |done]. intros w1 h1 [Hg Hd].
    eapply wp_mono; [apply IH| |]; cbn.
    + intros w2 h2 [Hg2 Hd2]. split; [by etransitivity|]. rewrite Hd2, Hd. unfold under. by rewrite <- (assoc app).
    + intros w2 e Hg2. by etransitivity.
Qed.

Lemma open_parent_wp creation p w :
  wp (open_parent errno_text p creation)
    (λ w' h, grown creation w w' ∧ dir h = parents p) (λ w' _, grown creation w w') w.
Proof.
  unfold open_parent, clone_root, try_clone. wp_step. wp_step. wp_step; [wp_step; apply same_grown, same_faults|].
  eapply wp_mono; [apply open_components_wp| |]; cbn.
  - intros w1 h [Hg Hd]. split; [|done]. etransitivity; [apply same_grown, same_faults|exact Hg].
  - intros w1 e Hg. etransitivity; [apply same_grown, same_faults|exact Hg].
Qed.
End operations.

(** ** Private temporary files *)
Definition frame (w w' : World) : Prop := created w' = created w ∧ process w' = process w.
#[export] Instance frame_preorder : PreOrder frame.
Proof. split; [done|]. intros w1 w2 w3 [] []. split; congruence. Qed.
Lemma same_frame w w' : same w w' → frame w w'.
Proof. by intros [fs ->]. Qed.
#[export] Hint Resolve same_frame : rsi.

(** A temporary file at a place that was free. *)
Definition holding (path : list text) (t : tree) (w : World) : Prop :=
  t !! path = None ∧ ∃ b m id, nodes w = <[path := Regular b m id]> t.
(** What a failed cleanup leaves. *)
Definition leftover (pid : Z) (t t' : tree) : Prop :=
  t' = t ∨ ∃ d n b m id, t !! (d ++ [temporary_name pid n]) = None ∧
    t' = <[d ++ [temporary_name pid n] := Regular b m id]> t.

Section publishing.
Context (errno_text : Errno → text).

Lemma create_temporary_wp tries h w :
  wp (create_temporary errno_text tries h)
    (λ w' name, frame w w' ∧ (∃ n, name = temporary_name (process w) n) ∧ holding (under h name) (nodes w) w')
    (λ w' _, frame w w' ∧ nodes w' = nodes w) w.
Proof.
  revert w. induction tries as [|tries IH]; intros w; cbn [create_temporary]; [by wp_step|].
  wp_step. change (wp (A := text) (λ w, (bump_temp w, Ok (temporary_name (process w) (next_temp w)))) ?Q ?X w)
    with (Q (bump_temp w) (temporary_name (process w) (next_temp w))). cbv beta.
  set (name := temporary_name _ _). do 3 wp_step. unfold create_file. wp_step; [by wp_step|].
  cbn. destruct (nodes w !! under h name) as [x|] eqn:Hn; cbn.
  - eapply wp_mono; [apply IH| |]; cbn; [|done].
    intros w' name' (Hf & Hname & Hhold). split_and!; [by destruct Hf|done|done].
  - split_and!; [done|by eexists|]. split; [done|]. cbn. eauto.
Qed.

Lemma update_file_wp h n f t b m id w :
  nodes w = <[under h n := Regular b m id]> t →
  wp (update_file h n f)
    (λ w' _, frame w w' ∧ nodes w' = <[under h n := Regular (f b m).1 (f b m).2 id]> t)
    (λ w' _, frame w w' ∧ nodes w' = nodes w) w.
Proof.
  intros Hn. unfold update_file. wp_step; [done|]. cbn. rewrite Hn, lookup_insert_eq.
  destruct (f b m) as [b' m']. cbn. split; [done|]. apply insert_insert_eq.
Qed.

Lemma write_temporary_wp h n content mode t w :
  holding (under h n) t w →
  wp (dbind (write_all h n content) (λ _, dbind (fchmod h n mode) (λ _, use_file)))
    (λ w' _, frame w w' ∧ t !! under h n = None ∧ ∃ id, nodes w' = <[under h n := Regular content mode id]> t)
    (λ w' _, frame w w' ∧ holding (under h n) t w') w.
Proof.
  intros (Hfree & b & m & id & Hn). wp_step.
  eapply wp_mono; [by apply update_file_wp| |]; cbn.
  2: { intros w1 e [Hf Hw]. split; [done|]. split; [done|]. rewrite Hw. eauto. }
  intros w1 _ [Hf1 Hw1]. wp_step. eapply wp_mono; [by apply update_file_wp| |]; cbn.
  2: { intros w2 e [Hf2 Hw2]. split; [by etransitivity|]. split; [done|]. rewrite Hw2. eauto. }
  intros w2 _ [Hf2 Hw2]. unfold use_file. wp_step; cbn.
  - split; [by etransitivity|]. split; [done|]. cbn. eauto.
  - split; [by etransitivity|]. split; [done|]. eauto.
Qed.

Lemma cleanup_wp {A} h n f t w :
  holding (under h (temporary_name (process w) n)) t w →
  wp (cleanup (A := A) h (temporary_name (process w) n) f) (λ _ _, False)
    (λ w' _, frame w w' ∧ leftover (process w) t (nodes w')) w.
Proof.
  intros (Hfree & b & m & id & Hn). unfold cleanup. wp_step. wp_step. unfold unlinkat. wp_step.
  - wp_step. wp_step. split; [done|]. right. exists (dir h), n, b, m, id. done.
  - cbn. rewrite Hn, lookup_insert_eq. cbn. split; [done|]. left. cbn. by rewrite delete_insert_id.
Qed.

(** What a failed or successful write leaves. *)
Definition written (p : SafePath) (e : PathExpectation) (content : Bytes) (mode : Z) (t t' : tree) : Prop :=
  expected_at e (t !! (parents p ++ [name p])) ∧
  ∃ id, t' = <[parents p ++ [name p] := Regular content mode id]> t.

Lemma rename_wp h n p e content mode id t w :
  let target := under h (name p) in let temporary := under h n in
  t !! temporary = None → nodes w = <[temporary := Regular content mode id]> t →
  expected_at e (t !! target) → expected_at e (nodes w !! target) → dir h = parents p →
  wp (renameat h n (name p) (bool_decide (is_Some (expected_bytes e))))
    (λ w' _, frame w w' ∧ written p e content mode t (nodes w'))
    (λ w' _, frame w w' ∧ holding temporary t w') w.
Proof.
  intros target temporary Hfree Hn He He' Hd. unfold renameat.
  assert (holding temporary t w) as Hhold by (split; [done|eauto]).
  assert (target ≠ temporary) as Hne.
  { intros Heq. rewrite Hn, Heq, lookup_insert_eq in He'. rewrite Heq, Hfree in He.
    unfold expected_at in *. destruct (expected_bytes e); [by destruct He as (? & ? & ? & _)|done]. }
  rewrite Hn, lookup_insert_ne in He' by done.
  wp_step; [done|]. cbn. fold target temporary. rewrite Hn, lookup_insert_eq, lookup_insert_ne by done.
  assert (delete temporary (<[temporary := Regular content mode id]> t) = t) as -> by (by rewrite delete_insert_id).
  assert (written p e content mode t (<[target := Regular content mode id]> t)) as Hw.
  { unfold written. rewrite <- Hd. split; [done|by eexists]. }
  unfold expected_at in He. destruct (expected_bytes e) as [b|].
  - destruct He as (m' & id' & -> & _). by rewrite bool_decide_true.
  - rewrite He. by rewrite bool_decide_false by (by intros []).
Qed.

(** ** Publishing and deleting, whatever fails *)
Definition parents_made (creation : option (list text)) (w : World) (t : tree) (w' : World) : Prop :=
  ∃ ds, mkdirs ds (nodes w) t ∧ created w' = created w ++ (join_slash <$> ds) ∧
    Forall (λ d, ∃ planned, creation = Some planned ∧ join_slash d ∈ planned) ds ∧
    process w' = process w.
Lemma parents_made_frame creation w t w' w'' :
  parents_made creation w t w' → frame w' w'' → parents_made creation w t w''.
Proof. intros (ds & ? & ? & ? & ?) []. exists ds. split_and!; congruence. Qed.
Lemma grown_made creation w w' : grown creation w w' → parents_made creation w (nodes w') w'.
Proof. intros (ds & ? & ? & ? & ? & _). by exists ds. Qed.

Lemma atomic_write_wp p e content mode creation w :
  wp (atomic_write errno_text p e content mode creation)
    (λ w' _, ∃ t, parents_made creation w t w' ∧ written p e content mode t (nodes w'))
    (λ w' _, ∃ t, parents_made creation w t w' ∧ leftover (process w) t (nodes w')) w.
Proof.
  unfold atomic_write. generalize 128%nat. intros tries. wp_step. eapply wp_mono; [apply open_parent_wp| |]; cbn.
  2: { intros w1 _ Hg. exists (nodes w1). split; [by apply grown_made|by left]. }
  intros w1 h [Hg Hd]. pose proof (grown_made _ _ _ Hg) as Hm. set (t := nodes w1) in *.
  assert (process w1 = process w) as Hpid by (by destruct Hg as (? & _ & _ & _ & ? & _)).
  assert (∀ w', frame w1 w' → leftover (process w) t (nodes w') →
    ∃ t, parents_made creation w t w' ∧ leftover (process w) t (nodes w')) as Hfail.
  { intros w' Hf Hl. exists t. split; [by eapply parents_made_frame|done]. }
  assert (∀ w', same w1 w' → frame w1 w' ∧ nodes w' = t) as Hsame by (by intros w' [fs ->]).
  wp_step. eapply wp_mono; [apply validate_parent_wp| |]; cbn.
  2: { intros w2 _ []%Hsame. apply Hfail; [done|by left]. }
  intros w2 _ [[Hf2 Hn2]%Hsame _]. wp_step. eapply wp_mono; [apply revalidate_wp| |]; cbn.
  2: { intros w3 _ Hs. apply Hfail; [etransitivity; [done|by apply same_frame]|left]. by rewrite (same_nodes _ _ Hs). }
  intros w3 _ [Hs3 He]. rewrite Hn2 in He. assert (frame w1 w3) as Hf3 by (etransitivity; [done|by apply same_frame]).
  pose proof (same_nodes _ _ Hs3) as Hn3. rewrite Hn2 in Hn3. clear w2 Hf2 Hn2 Hs3.
  wp_step. eapply wp_mono; [apply create_temporary_wp| |]; cbn.
  2: { intros w4 _ [Hf4 Hn4]. apply Hfail; [by etransitivity|left; congruence]. }
  intros w4 temporary (Hf4 & [n ->] & Hhold). rewrite Hn3 in Hhold.
  assert (process w3 = process w) as Hp3 by (destruct Hf3; congruence). rewrite Hp3 in *.
  assert (frame w1 w4) as Hf by (by etransitivity). clear w3 Hf3 Hf4 Hn3 Hp3.
  assert (∀ w5 {A} f, frame w1 w5 → holding (under h (temporary_name (process w) n)) t w5 →
    wp (cleanup (A := A) h (temporary_name (process w) n) f)
      (λ _ _, False) (λ w' _, ∃ t, parents_made creation w t w' ∧ leftover (process w) t (nodes w')) w5) as Hclean.
  { intros w5 A f Hf5 Hh. assert (process w5 = process w) as Hp by (destruct Hf5; congruence).
    rewrite <- Hp in Hh |- * at 1. eapply wp_mono; [by apply cleanup_wp|done|].
    cbn. intros w' _ [Hf' Hl]. rewrite Hp in Hl. apply Hfail; [by etransitivity|done]. }
  wp_step. wp_step. eapply wp_mono; [by apply write_temporary_wp| |]; cbn.
  2: { intros w5 errno [Hf5 Hh]. eapply wp_mono; [apply Hclean; [by etransitivity|done]|done|done]. }
  intros w5 _ (Hf5 & Hfree & id & Hn5). assert (frame w1 w5) as Hf15 by (by etransitivity).
  assert (∀ w', same w5 w' → frame w1 w' ∧ holding (under h (temporary_name (process w) n)) t w') as Hh5.
  { intros w' [fs ->]. split; [done|]. split; [done|]. cbn. rewrite Hn5. eauto. }
  wp_step. wp_step. eapply wp_mono; [apply revalidate_wp| |]; cbn.
  2: { intros w6 f []%Hh5. eapply wp_mono; [by apply Hclean|done|done]. }
  intros w6 _ [Hs6 He6]. pose proof (same_nodes _ _ Hs6) as Hn6. destruct (Hh5 _ Hs6) as [Hf6 Hh6].
  wp_step. eapply wp_mono; [eapply (rename_wp h _ p e content mode id t)| |]; cbn; try done; try congruence.
  - intros w7 _ [Hf7 Hw]. exists t. split; [|done]. eapply parents_made_frame; [done|by etransitivity].
  - intros w7 errno [Hf7 Hh]. eapply wp_mono; [apply Hclean; [by etransitivity|done]|done|done].
Qed.

Lemma grown_none w w' : grown None w w' → nodes w' = nodes w ∧ frame w w'.
Proof.
  intros (ds & Hm & Hc & Hp & Hpr & _). destruct ds as [|d ds].
  - cbn in *. rewrite app_nil_r in Hc. done.
  - apply Forall_cons in Hp as [(? & ? & _) _]. done.
Qed.

Lemma remove_wp p e w :
  wp (remove errno_text p e)
    (λ w' _, frame w w' ∧ is_Some (nodes w !! (parents p ++ [name p])) ∧
       expected_at e (nodes w !! (parents p ++ [name p])) ∧
       nodes w' = delete (parents p ++ [name p]) (nodes w))
    (λ w' _, frame w w' ∧ nodes w' = nodes w) w.
Proof.
  unfold remove. wp_step. eapply wp_mono; [apply open_parent_wp| |]; cbn.
  2: { intros w1 _ []%grown_none. done. }
  intros w1 h [[Hn1 Hf1]%grown_none Hd]. wp_step. eapply wp_mono; [apply validate_parent_wp| |]; cbn.
  2: { intros w2 _ [fs ->]. done. }
  intros w2 _ [[fs2 ->] _]. wp_step. eapply wp_mono; [apply revalidate_wp| |]; cbn.
  2: { intros w3 _ [fs3 ->]. done. }
  intros w3 _ [[fs3 ->] He]. wp_step. unfold unlinkat. wp_step; [by wp_step|].
  cbn. unfold under in *. rewrite Hd, Hn1 in *.
  destruct (nodes w !! (parents p ++ [name p])) as [[]|] eqn:Ht; cbn; try done; split_and!; try done; by eexists.
Qed.
End publishing.
