(* ===== verification/PatchApply.v ===== *)
(** * Applying a patch

    [preflight.rs] and [commit] of [crates/rsi-apply-patch/core/src/patch_engine.rs]: every
    operation is checked against the tree and the effects of the operations in front of it,
    without a change of the tree; then the prepared operations are performed one by one, each
    only if its target is still what the preflight saw, and every change is reported.

    [interfere] is what other processes do to the tree before an operation.  [response_len]
    is the encoded length of a response, [new_file_mode] what [effective_new_file_mode] found.
    The optional evidence of a response is left out. *)

From S2P Require Import Prelude Text PatchCommon PatchUpdate PatchParser PatchDisk.
Local Open Scope disk_scope.

Definition MAXIMUM_PATCH_BYTES : Z := 2000000.
Definition MAXIMUM_PATCH_CONTENT_BYTES_TOTAL : Z := 16 * 1024 * 1024.
Definition MAXIMUM_PATCH_RESPONSE_BYTES : Z := 4 * 1024 * 1024 - 1.
Definition MAXIMUM_EVIDENCE_BYTES : Z := 32 * 1024.
Definition DEFAULT_NEW_FILE_MODE : Z := 420.

#[export] Instance SafePath_eq_dec : EqDecision SafePath.
Proof. solve_decision. Defined.
#[export] Instance SafePath_countable : Countable SafePath.
Proof.
  apply (inj_countable' (λ p, (path_text p, components p)) (λ '(t, c), {| path_text := t; components := c |})).
  by intros [].
Defined.

(** ** Responses *)
Inductive PatchStatus := Applied | Rejected | Partial.
#[export] Instance PatchStatus_eq_dec : EqDecision PatchStatus.
Proof. solve_decision. Defined.
Inductive PatchEffectKind := EffectAdd | EffectUpdate | EffectDelete | MoveWrite | MoveDelete | Mkdir.
#[export] Instance PatchEffectKind_eq_dec : EqDecision PatchEffectKind.
Proof. solve_decision. Defined.
Record PatchEffect := {
  effect_operation : nat;
  effect_kind : PatchEffectKind;
  effect_path : text;
  bytes_before : option Z;
  bytes_after : option Z
}.
Record PatchFailure := {
  failure_operation : option Z;
  failure_hunk : option Z;
  failure_code : text;
  failure_message : text;
  failure_path : option text
}.
Definition failure_response (f : EngineFailure) : PatchFailure :=
  {| failure_operation := Z.of_nat <$> operation f; failure_hunk := Z.of_nat <$> hunk f;
     failure_code := code f; failure_message := message f; failure_path := failed_path f |}.

Record PatchHelperResponse := {
  status : PatchStatus;
  delta_exact : bool;
  response_effects : list PatchEffect;
  response_fuzzy : list PatchFuzzyMatch;
  response_failure : option PatchFailure
}.

(** [PatchHelperResponse::validate] *)
Definition response_validate (r : PatchHelperResponse) : bool :=
  match status r with
  | Applied => bool_decide (response_failure r = None) && negb (bool_decide (response_effects r = []))
  | Rejected => bool_decide (is_Some (response_failure r)) && bool_decide (response_effects r = [])
  | Partial => bool_decide (is_Some (response_failure r)) && negb (bool_decide (response_effects r = []))
  end &&
  negb ((MAXIMUM_PATCH_EFFECTS <? len (response_effects r)) ||
        (MAXIMUM_PATCH_FUZZY_MATCHES <? len (response_fuzzy r))) &&
  negb (existsb (λ e, MAXIMUM_PATCH_PATH_BYTES <? text_len (effect_path e)) (response_effects r) ||
        existsb (λ a, MAXIMUM_PATCH_PATH_BYTES <? text_len (fuzzy_path a)) (response_fuzzy r) ||
        match response_failure r with
        | None => false
        | Some f =>
            (MAXIMUM_PATCH_FAILURE_CODE_BYTES <? text_len (failure_code f)) ||
            (MAXIMUM_PATCH_FAILURE_MESSAGE_BYTES <? text_len (failure_message f)) ||
            match failure_path f with
            | Some p => MAXIMUM_PATCH_PATH_BYTES <? text_len p
            | None => false
            end
        end).

(** ** Prepared operations *)
Inductive PreparedKind := PrepareAdd | PrepareUpdate | PrepareMove (destination_parent : option Identity) | PrepareDelete.
Record PreparedOperation := {
  index : nat;
  path : SafePath;
  expected : option Bytes;
  prepared_mode : option Z;
  prepared_identity : option Identity;
  parent : option Identity;
  publish_mode : option Z;
  content : option Bytes;
  prepared_kind : PreparedKind;
  move_path : option SafePath;
  prospective_directories : list text
}.

(** [projected_effects]; directories are listed once, in the order of their paths. *)
Definition file_effects (o : PreparedOperation) : outcome EngineFailure (list PatchEffect) :=
  let effect k p before after :=
    {| effect_operation := index o; effect_kind := k; effect_path := path_text p;
       bytes_before := before; bytes_after := after |} in
  match prepared_kind o with
  | PrepareAdd => Ok [effect EffectAdd (path o) None (bytes_len <$> content o)]
  | PrepareUpdate =>
      Ok [effect EffectUpdate (path o) (bytes_len <$> expected o) (bytes_len <$> content o)]
  | PrepareMove _ =>
      (let? destination := expect (move_path o) in
       Ok [effect MoveWrite destination None (bytes_len <$> content o);
           effect MoveDelete (path o) (bytes_len <$> expected o) None])%outcome
  | PrepareDelete => Ok [effect EffectDelete (path o) (bytes_len <$> expected o) None]
  end.
Fixpoint text_leb (a b : text) : bool :=
  match a, b with
  | [], _ => true
  | _ :: _, [] => false
  | x :: a, y :: b => (x <? y) || ((x =? y) && text_leb a b)
  end.
Fixpoint insert_directory (d : text) (i : nat) (l : list (text * nat)) : list (text * nat) :=
  match l with
  | [] => [(d, i)]
  | (d', i') :: rest =>
      if bool_decide (d = d') then l
      else if text_leb d d' then (d, i) :: l else (d', i') :: insert_directory d i rest
  end.
Fixpoint project (directories : list (text * nat)) (es : list PatchEffect) (os : list PreparedOperation) :
  outcome EngineFailure (list (text * nat) * list PatchEffect) :=
  match os with
  | [] => Ok (directories, es)
  | o :: rest =>
      (let? fs := file_effects o in
       project (foldl (λ l d, insert_directory d (index o) l) directories (prospective_directories o))
         (es ++ fs) rest)%outcome
  end.
Definition mkdir_effect (operation : nat) (p : text) : PatchEffect :=
  {| effect_operation := operation; effect_kind := Mkdir; effect_path := p;
     bytes_before := None; bytes_after := None |}.
Definition projected_effects (os : list PreparedOperation) : outcome EngineFailure (list PatchEffect) :=
  (let? (directories, es) := project [] [] os in
   let all := es ++ map (λ '(d, i), mkdir_effect i d) directories in
   if MAXIMUM_PATCH_EFFECTS <? len all then Err effect_budget_failure else Ok all)%outcome.

Section apply.
Context (errno_text : Errno → text) (response_len : PatchHelperResponse → Z).

Definition fits_capture (r : PatchHelperResponse) : bool :=
  response_validate r && (response_len r <=? MAXIMUM_PATCH_RESPONSE_BYTES).

(** [validate_response_budget]: the worst response the commit can give. *)
Definition worst_failure : PatchFailure :=
  {| failure_operation := Some usize_max; failure_hunk := Some usize_max;
     failure_code := replicate (Z.to_nat MAXIMUM_PATCH_FAILURE_CODE_BYTES) 0;
     failure_message := replicate (Z.to_nat MAXIMUM_PATCH_FAILURE_MESSAGE_BYTES) 0;
     failure_path := Some (replicate (Z.to_nat MAXIMUM_PATCH_PATH_BYTES) 0) |}.
Definition validate_response_budget (os : list PreparedOperation) (fuzzy : list PatchFuzzyMatch) :
  outcome EngineFailure unit :=
  if MAXIMUM_PATCH_FUZZY_MATCHES <? len fuzzy
  then Err (failure "response_budget"
              (lit "patch may report more than " ++ dec MAXIMUM_PATCH_FUZZY_MATCHES ++ lit " fuzzy matches"))
  else
    (let? es := projected_effects os in
     let r := {| status := Partial; delta_exact := true; response_effects := es; response_fuzzy := fuzzy;
                 response_failure := Some worst_failure |} in
     if negb (fits_capture r) || (MAXIMUM_PATCH_RESPONSE_BYTES <? response_len r + MAXIMUM_EVIDENCE_BYTES)
     then Err (failure "response_budget"
                 (lit "patch effect metadata cannot fit the " ++ dec MAXIMUM_PATCH_RESPONSE_BYTES ++
                  lit "-byte helper response"))
     else Ok tt)%outcome.

(** ** [Preflight] *)
Record Preflight := {
  virtual_files : gmap SafePath (option VirtualContent);
  fuzzy_matches : list PatchFuzzyMatch;
  content_bytes : Z;
  directories : DirectoryBudget
}.
Definition set_virtual (s : Preflight) (m : gmap SafePath (option VirtualContent)) : Preflight :=
  {| virtual_files := m; fuzzy_matches := fuzzy_matches s; content_bytes := content_bytes s;
     directories := directories s |}.
Definition set_fuzzy (s : Preflight) (l : list PatchFuzzyMatch) : Preflight :=
  {| virtual_files := virtual_files s; fuzzy_matches := l; content_bytes := content_bytes s;
     directories := directories s |}.
Definition set_content (s : Preflight) (n : Z) : Preflight :=
  {| virtual_files := virtual_files s; fuzzy_matches := fuzzy_matches s; content_bytes := n;
     directories := directories s |}.
Definition set_directories (s : Preflight) (d : DirectoryBudget) : Preflight :=
  {| virtual_files := virtual_files s; fuzzy_matches := fuzzy_matches s; content_bytes := content_bytes s;
     directories := d |}.

Notation PreflightFailure := (EngineFailure * list PatchFuzzyMatch)%type.
Definition at_path (s : Preflight) (i : nat) (p : SafePath) (f : EngineFailure) : PreflightFailure :=
  (at_ f i p, fuzzy_matches s).
Definition located {A} (s : Preflight) (i : nat) (p : SafePath) (m : disk EngineFailure A) :
  disk PreflightFailure A := dcatch m (λ f, dfail (at_path s i p f)).

Definition virtual_content (s : Preflight) (p : SafePath) (i : nat) :
  disk PreflightFailure (Preflight * option VirtualContent) :=
  match virtual_files s !! p with
  | Some c => dret (s, c)
  | None =>
      let! c := located s i p (read_optional errno_text p) in
      dret (set_virtual s (<[p := c]> (virtual_files s)), c)
  end.
Definition required_content (s : Preflight) (p : SafePath) (i : nat) (missing : string) :
  disk PreflightFailure (Preflight * VirtualContent) :=
  let! (s', c) := virtual_content s p i in
  match c with
  | Some c => dret (s', c)
  | None => dfail (at_path s' i p (failure "not_found" (lit missing)))
  end.

Definition account (total n : Z) : outcome EngineFailure Z :=
  if MAXIMUM_PATCH_FILE_BYTES <? n
  then Err (failure "file_too_large" (lit "file exceeds " ++ dec MAXIMUM_PATCH_FILE_BYTES ++ lit " bytes"))
  else
    (let? total' := ok_or (checked_add usize_max total n) (failure "content_budget" (lit "content budget overflow")) in
     if MAXIMUM_PATCH_CONTENT_BYTES_TOTAL <? total'
     then Err (failure "content_budget"
                 (lit "patch content exceeds " ++ dec MAXIMUM_PATCH_CONTENT_BYTES_TOTAL ++ lit " aggregate bytes"))
     else Ok total')%outcome.
Definition account_content (s : Preflight) (n : Z) (i : nat) (p : SafePath) :
  disk PreflightFailure Preflight :=
  let! total := located s i p (dlift (account (content_bytes s) n)) in dret (set_content s total).

Definition plan_parent (s : Preflight) (p : SafePath) (i : nat) :
  disk PreflightFailure (Preflight * (option Identity * list text)) :=
  let! (d, plan) := located s i p (parent_plan errno_text p (directories s)) in
  dret (set_directories s d, plan).

Definition prepare_add (new_file_mode : Z) (s : Preflight) (i : nat) (p : SafePath) (t : text) :
  disk PreflightFailure (Preflight * PreparedOperation) :=
  let! (s1, c) := virtual_content s p i in
  match c with
  | Some _ => dfail (at_path s1 i p (failure "already_exists" (lit "add target already exists")))
  | None =>
      let! s2 := account_content s1 (text_len t) i p in
      let! (s3, (id, planned)) := plan_parent s2 p i in
      dret (set_virtual s3 (<[p := Some {| bytes := Utf8 t; mode := new_file_mode; identity := None |}]>
                              (virtual_files s3)),
            {| index := i; path := p; expected := None; prepared_mode := None; prepared_identity := None;
               parent := id; publish_mode := Some new_file_mode; content := Some (Utf8 t);
               prepared_kind := PrepareAdd; move_path := None; prospective_directories := planned |})
  end.

Definition prepare_delete (s : Preflight) (i : nat) (p : SafePath) :
  disk PreflightFailure (Preflight * PreparedOperation) :=
  let! (s1, c) := required_content s p i "delete target does not exist" in
  let! s2 := account_content s1 (bytes_len (bytes c)) i p in
  let! id := located s2 i p (parent_identity errno_text p) in
  dret (set_virtual s2 (<[p := None]> (virtual_files s2)),
        {| index := i; path := p; expected := Some (bytes c); prepared_mode := Some (mode c);
           prepared_identity := identity c; parent := id; publish_mode := None; content := None;
           prepared_kind := PrepareDelete; move_path := None; prospective_directories := [] |}).

(** The fuzzy matches [derive_update] leaves when it fails. *)
Fixpoint failed_fuzzy (ls : list text) (op h : nat) (p : SafePath) (chunks : list UpdateChunk)
    (s : progress) : list PatchFuzzyMatch :=
  match chunks with
  | [] => fuzzy s
  | c :: rest =>
      match derive_hunk ls op h p c s with
      | Ok s' => failed_fuzzy ls op (S h) p rest s'
      | _ => match seek_context ls op h p c s with Ok s1 => fuzzy s1 | _ => fuzzy s end
      end
  end.
Definition update_content (s : Preflight) (t : text) (p : SafePath) (chunks : list UpdateChunk) (i : nat) :
  outcome PreflightFailure (text * list PatchFuzzyMatch) :=
  match derive_update t p chunks i (fuzzy_matches s) with
  | Ok r => Ok r
  | Err f =>
      Err (f, failed_fuzzy (map line_text (lines (parse t))) i 0 p chunks
                {| searched := false; line_index := 0; previous_end := 0; replacements := [];
                   fuzzy := fuzzy_matches s |})
  | Panic => Panic
  end.

Definition prepare_update_target (s : Preflight) (i : nat) (p : SafePath) (destination : option SafePath)
    (t : text) (m : Z) : disk PreflightFailure (Preflight * (PreparedKind * list text)) :=
  let published := Some {| bytes := Utf8 t; mode := m; identity := None |} in
  match destination with
  | None => dret (set_virtual s (<[p := published]> (virtual_files s)), (PrepareUpdate, []))
  | Some d =>
      if bool_decide (d = p)
      then dfail (at_path s i p (failure "invalid_move" (lit "move destination must differ from the source")))
      else
        let! (s1, c) := virtual_content s d i in
        match c with
        | Some _ => dfail (at_path s1 i d (failure "already_exists" (lit "move destination already exists")))
        | None =>
            let! (s2, (id, planned)) := plan_parent s1 d i in
            dret (set_virtual s2 (<[d := published]> (<[p := None]> (virtual_files s2))),
                  (PrepareMove id, planned))
        end
  end.

Definition prepare_update (s : Preflight) (i : nat) (p : SafePath) (destination : option SafePath)
    (chunks : list UpdateChunk) : disk PreflightFailure (Preflight * PreparedOperation) :=
  let! (s1, c) := required_content s p i "update target does not exist" in
  let! s2 := account_content s1 (bytes_len (bytes c)) i p in
  match bytes c with
  | Raw _ => dfail (at_path s2 i p (failure "non_utf8_file" (lit "update target is not UTF-8")))
  | Utf8 t =>
      let! (out, fz) := dlift (update_content s2 t p chunks i) in
      let! s3 := account_content (set_fuzzy s2 fz) (text_len out) i p in
      let! id := located s3 i p (parent_identity errno_text p) in
      let! (s4, (k, planned)) := prepare_update_target s3 i p destination out (mode c) in
      dret (s4,
            {| index := i; path := p; expected := Some (bytes c); prepared_mode := Some (mode c);
               prepared_identity := identity c; parent := id; publish_mode := Some (mode c);
               content := Some (Utf8 out); prepared_kind := k; move_path := destination;
               prospective_directories := planned |})
  end.

Definition prepare_operation (new_file_mode : Z) (s : Preflight) (i : nat) (o : ParsedOperation) :
  disk PreflightFailure (Preflight * PreparedOperation) :=
  match o with
  | PAdd p t => prepare_add new_file_mode s i p t
  | PDelete p => prepare_delete s i p
  | PUpdate p destination chunks => prepare_update s i p destination chunks
  end.
Fixpoint prepare_operations (new_file_mode : Z) (s : Preflight) (i : nat) (os : list ParsedOperation) :
  disk PreflightFailure (Preflight * list PreparedOperation) :=
  match os with
  | [] => dret (s, [])
  | o :: rest =>
      let! (s1, prepared) := prepare_operation new_file_mode s i o in
      let! (s2, later) := prepare_operations new_file_mode s1 (S i) rest in
      dret (s2, prepared :: later)
  end.

Definition operation_effects (o : ParsedOperation) : Z :=
  match o with PUpdate _ (Some _) _ => 2 | _ => 1 end.
Definition preflight (new_file_mode : Z) (os : list ParsedOperation) :
  disk PreflightFailure (list PreparedOperation * list PatchFuzzyMatch) :=
  let n := zsum (map operation_effects os) in
  if MAXIMUM_PATCH_EFFECTS <? n then dfail (effect_budget_failure, [])
  else
    let! (s, prepared) :=
      prepare_operations new_file_mode
        {| virtual_files := ∅; fuzzy_matches := []; content_bytes := 0;
           directories := {| effects := n; text_bytes := 0; paths := ∅ |} |} 0 os in
    let! _ := dcatch (dlift (validate_response_budget prepared (fuzzy_matches s))) (λ f, dfail (f, [])) in
    dret (prepared, fuzzy_matches s).

(** ** [commit] *)
Definition expectation (o : PreparedOperation) : PathExpectation :=
  {| expected_bytes := expected o; expected_mode := prepared_mode o;
     expected_identity := prepared_identity o; expected_parent := parent o |}.
Definition absent (destination_parent : option Identity) : PathExpectation :=
  {| expected_bytes := None; expected_mode := None; expected_identity := None;
     expected_parent := destination_parent |}.
Definition or_path (p : SafePath) (f : EngineFailure) : EngineFailure :=
  {| operation := operation f; hunk := hunk f; code := code f; message := message f;
     failed_path := Some (default (path_text p) (failed_path f)) |}.

(** A file is written; the created directories and then the write are effects. *)
Definition publish (o : PreparedOperation) (p : SafePath) (e : PathExpectation) (k : PatchEffectKind)
    (before : option Z) (creation : option (list text)) (w : World) :
  World * list PatchEffect * outcome EngineFailure unit :=
  match content o, publish_mode o with
  | Some c, Some m =>
      let '(w1, r) := atomic_write errno_text p e c m creation (set_created w []) in
      let made := map (mkdir_effect (index o)) (created w1) in
      match r with
      | Ok _ =>
          (w1, made ++ [{| effect_operation := index o; effect_kind := k; effect_path := path_text p;
                           bytes_before := before; bytes_after := Some (bytes_len c) |}], Ok tt)
      | Err f => (w1, made, Err f)
      | Panic => (w1, made, Panic)
      end
  | _, _ => (w, [], Panic)
  end.
Definition removal (o : PreparedOperation) (k : PatchEffectKind) (w : World) :
  World * list PatchEffect * outcome EngineFailure unit :=
  match remove errno_text (path o) (expectation o) w with
  | (w1, Ok _) =>
      (w1, [{| effect_operation := index o; effect_kind := k; effect_path := path_text (path o);
               bytes_before := bytes_len <$> expected o; bytes_after := None |}], Ok tt)
  | (w1, Err f) => (w1, [], Err f)
  | (w1, Panic) => (w1, [], Panic)
  end.
Definition commit_operation (o : PreparedOperation) (w : World) :
  World * list PatchEffect * outcome EngineFailure unit :=
  match prepared_kind o with
  | PrepareAdd => publish o (path o) (expectation o) EffectAdd None (Some (prospective_directories o)) w
  | PrepareUpdate =>
      publish o (path o) (expectation o) EffectUpdate (bytes_len <$> expected o) None w
  | PrepareMove id =>
      match move_path o with
      | None => (w, [], Panic)
      | Some d =>
          match publish o d (absent id) MoveWrite None (Some (prospective_directories o)) w with
          | (w1, es, Ok _) =>
              let '(w2, es', r) := removal o MoveDelete w1 in (w2, es ++ es', r)
          | (w1, es, Err f) => (w1, es, Err (or_path d f))
          | (w1, es, Panic) => (w1, es, Panic)
          end
      end
  | PrepareDelete => removal o EffectDelete w
  end.

Definition respond (st : PatchStatus) (es : list PatchEffect) (fuzzy : list PatchFuzzyMatch)
    (f : option EngineFailure) : PatchHelperResponse :=
  {| status := st; delta_exact := true; response_effects := es; response_fuzzy := fuzzy;
     response_failure := failure_response <$> f |}.
Fixpoint commit_from (interfere : nat → gmap (list text) Node → gmap (list text) Node)
    (fuzzy : list PatchFuzzyMatch) (es : list PatchEffect) (os : list PreparedOperation) (w : World) :
  World * option PatchHelperResponse :=
  match os with
  | [] => (w, Some (respond Applied es fuzzy None))
  | o :: rest =>
      match commit_operation o (set_nodes w (interfere (index o) (nodes w))) with
      | (w1, es1, Ok _) => commit_from interfere fuzzy (es ++ es1) rest w1
      | (w1, es1, Err f) =>
          let f' := or_path (path o) {| operation := Some (index o); hunk := hunk f; code := code f;
                                        message := message f; failed_path := failed_path f |} in
          (w1, Some (respond (if bool_decide (es ++ es1 = []) then Rejected else Partial)
                       (es ++ es1) fuzzy (Some f')))
      | (w1, es1, Panic) => (w1, None)
      end
  end.
Definition commit interfere (fuzzy : list PatchFuzzyMatch) (os : list PreparedOperation) (w : World) :=
  commit_from interfere fuzzy [] os w.

(** ** [apply_patch_with_budget] *)
Definition rejected (f : EngineFailure) (fuzzy : list PatchFuzzyMatch) : PatchHelperResponse :=
  let r := respond Rejected [] fuzzy (Some f) in
  if fits_capture r then r else respond Rejected [] [] (Some f).

Definition validate_patch_text (patch : text) : outcome EngineFailure unit :=
  if MAXIMUM_PATCH_BYTES <? text_len patch
  then Err (failure "patch_too_large" (lit "patch exceeds " ++ dec MAXIMUM_PATCH_BYTES ++ lit " UTF-8 bytes"))
  else if existsb (λ c, ((c <=? 31) && negb ((c =? 9) || (c =? 10) || (c =? 13))) || (c =? 127)) patch
  then Err (failure "invalid_patch_text" (lit "patch contains a disallowed control character"))
  else Ok tt.

Definition open_root : disk EngineFailure unit :=
  described errno_text "open_workspace" "failed to open tool cwd" (attempt (λ w, (w, Ok tt))).
Definition is_add (o : ParsedOperation) : bool := match o with PAdd _ _ => true | _ => false end.

Definition apply_patch (new_file_mode : outcome EngineFailure Z) interfere (patch : text) (w : World) :
  World * option PatchHelperResponse :=
  let prepared :=
    (let! os := dlift (let? _ := validate_patch_text patch in parse_patch patch)%outcome in
     let! _ := open_root in
     let! m := dlift (if existsb is_add os then new_file_mode else Ok DEFAULT_NEW_FILE_MODE) in
     dret (os, m)) w in
  match prepared with
  | (w1, Ok (os, m)) =>
      match preflight m os w1 with
      | (w2, Ok (prepared, fuzzy)) => commit interfere fuzzy prepared w2
      | (w2, Err (f, fuzzy)) => (w2, Some (rejected f fuzzy))
      | (w2, Panic) => (w2, None)
      end
  | (w1, Err f) => (w1, Some (rejected f []))
  | (w1, Panic) => (w1, None)
  end.
End apply.
