(* ===== verification/PatchCommit.v ===== *)
(** * What a commit does

    The changes of a commit are exactly the effects it reports, one operation after the
    other, whatever fails and whatever other processes do in between. *)

From S2P Require Import Prelude Text PatchCommon PatchUpdate PatchParser PatchDisk PatchDiskRules PatchApply.
Local Open Scope disk_scope.

(** ** The ledger of effects *)
Definition place (p : SafePath) : list text := parents p ++ [name p].

(** The size of a regular file. *)
Definition node_len (n : option Node) : option Z :=
  match n with Some (Regular b _ _) => Some (bytes_len b) | _ => None end.

Definition effect_applies (o : PreparedOperation) (e : PatchEffect) (t t' : tree) : Prop :=
  effect_operation e = index o ∧
  match effect_kind e with
  | Mkdir => ∃ d id, effect_path e = join_slash d ∧ effect_path e ∈ prospective_directories o ∧
      t !! d = None ∧ t' = <[d := Directory id]> t
  | EffectAdd | EffectUpdate | MoveWrite => ∃ p c m id,
      (if bool_decide (effect_kind e = MoveWrite) then move_path o = Some p else path o = p) ∧
      effect_path e = path_text p ∧ content o = Some c ∧ publish_mode o = Some m ∧
      (if bool_decide (effect_kind e = EffectUpdate)
       then expected_at (expectation o) (t !! place p) else t !! place p = None) ∧
      t' = <[place p := Regular c m id]> t ∧
      bytes_before e = node_len (t !! place p) ∧ bytes_after e = node_len (t' !! place p)
  | EffectDelete | MoveDelete =>
      effect_path e = path_text (path o) ∧ expected_at (expectation o) (t !! place (path o)) ∧
      is_Some (t !! place (path o)) ∧ t' = delete (place (path o)) t ∧
      bytes_before e = node_len (t !! place (path o)) ∧ bytes_after e = None
  end.

(** The effects of one operation, one after the other; a failed cleanup may leave a private
    temporary file at a place that was free. *)
Inductive performed (pid : Z) (o : PreparedOperation) : list PatchEffect → tree → tree → Prop :=
| performed_end t t' : leftover pid t t' → performed pid o [] t t'
| performed_effect e es t t1 t2 :
    effect_applies o e t t1 → performed pid o es t1 t2 → performed pid o (e :: es) t t2.

(** All operations in order, or up to one that fails; [complete] tells which. *)
Inductive ledger (pid : Z) (interfere : nat → tree → tree) :
  bool → list PreparedOperation → list PatchEffect → tree → tree → Prop :=
| ledger_end t : ledger pid interfere true [] [] t t
| ledger_next complete o os es es' fs t t1 t2 :
    performed pid o (es ++ fs) (interfere (index o) t) t1 → file_effects o = Ok fs →
    Forall (λ e, effect_kind e = Mkdir) es → ledger pid interfere complete os es' t1 t2 →
    ledger pid interfere complete (o :: os) (es ++ fs ++ es') t t2
| ledger_stop o os es t t1 :
    performed pid o es (interfere (index o) t) t1 → ledger pid interfere false (o :: os) es t t1.

(** What the preflight prepares. *)
Definition prepared_ok (o : PreparedOperation) : Prop :=
  match prepared_kind o with
  | PrepareAdd => expected o = None ∧ is_Some (content o) ∧ is_Some (publish_mode o)
  | PrepareUpdate => is_Some (expected o) ∧ is_Some (content o) ∧ is_Some (publish_mode o)
  | PrepareMove _ =>
      is_Some (expected o) ∧ is_Some (content o) ∧ is_Some (publish_mode o) ∧ is_Some (move_path o)
  | PrepareDelete => is_Some (expected o)
  end.

Section commit.
Context (errno_text : Errno → text) (response_len : PatchHelperResponse → Z).

(** A chain of effects without a leftover. *)
Inductive applied (o : PreparedOperation) : list PatchEffect → tree → tree → Prop :=
| applied_end t : applied o [] t t
| applied_effect e es t t1 t2 : effect_applies o e t t1 → applied o es t1 t2 → applied o (e :: es) t t2.

Lemma applied_app o es es' t t1 t2 : applied o es t t1 → applied o es' t1 t2 → applied o (es ++ es') t t2.
Proof. induction 1; cbn; [done|]. intros. econstructor; eauto. Qed.
Lemma applied_performed pid o es t t1 t2 : applied o es t t1 → leftover pid t1 t2 → performed pid o es t t2.
Proof. induction 1; intros; econstructor; eauto. Qed.

Lemma mkdirs_applied o ds t t' :
  mkdirs ds t t' → Forall (λ d, join_slash d ∈ prospective_directories o) ds →
  applied o (map (mkdir_effect (index o)) (join_slash <$> ds)) t t'.
Proof.
  revert t. induction ds as [|d ds IH]; cbn; intros t; [intros ->; constructor|].
  intros [Hd (id & Hm)] [Hp Hps]%Forall_cons. econstructor; [|by apply (IH _ Hm)].
  split; [done|]. cbn. by exists d, id.
Qed.

(** Creating parents and publishing a file. *)
Lemma publish_exact o p e k before creation w c m :
  content o = Some c → publish_mode o = Some m →
  creation = None ∨ creation = Some (prospective_directories o) →
  (∀ t t', written p e c m t t' →
     effect_applies o {| effect_operation := index o; effect_kind := k; effect_path := path_text p;
                         bytes_before := before; bytes_after := Some (bytes_len c) |} t t') →
  ∃ w' es r, publish errno_text o p e k before creation w = (w', es, r) ∧ process w' = process w ∧
    match r with
    | Ok _ => applied o es (nodes w) (nodes w') ∧ ∃ ms, Forall (λ e, effect_kind e = Mkdir) ms ∧
        es = ms ++ [{| effect_operation := index o; effect_kind := k; effect_path := path_text p;
                       bytes_before := before; bytes_after := Some (bytes_len c) |}]
    | Err _ => performed (process w) o es (nodes w) (nodes w')
    | Panic => False
    end.
Proof.
  intros Hc Hm Hcr He. unfold publish. rewrite Hc, Hm.
  pose proof (atomic_write_wp errno_text p e c m creation (set_created w [])) as Hwp. unfold wp in Hwp.
  destruct (atomic_write _ _ _ _ _ _ _) as [w1 [[]|f|]]; [| |done]; destruct Hwp as (t & (ds & Hds & Hcd & Hpl & Hpr) & Ht);
    cbn in Hcd; (assert (applied o (map (mkdir_effect (index o)) (created w1)) (nodes w) t) as Ha
      by (rewrite Hcd; apply mkdirs_applied; [done|]; eapply Forall_impl; [done|];
          intros d (planned & Hpd & ?); destruct Hcr; by simplify_eq)).
  - eexists w1, _, _. split_and!; [done|done|].
    split; [eapply applied_app; [exact Ha|]; econstructor; [by apply He|constructor]|].
    eexists. split; [|done]. apply Forall_map, Forall_true. done.
  - eexists w1, _, _. split_and!; [done|done|]. by eapply applied_performed.
Qed.

Lemma removal_exact o k w :
  is_Some (expected o) → k = EffectDelete ∨ k = MoveDelete →
  ∃ w' es r, removal errno_text o k w = (w', es, r) ∧ process w' = process w ∧
    match r with
    | Ok _ => applied o es (nodes w) (nodes w') ∧
        es = [{| effect_operation := index o; effect_kind := k; effect_path := path_text (path o);
                 bytes_before := bytes_len <$> expected o; bytes_after := None |}]
    | Err _ => es = [] ∧ nodes w' = nodes w
    | Panic => False
    end.
Proof.
  intros [b Hb] Hk. unfold removal.
  pose proof (remove_wp errno_text (path o) (expectation o) w) as Hwp. unfold wp in Hwp.
  destruct (remove _ _ _ w) as [w1 [[]|f|]]; [| |done].
  - destruct Hwp as ([_ Hpr] & Hsome & Hexp & Hn). eexists w1, _, _. split_and!; [done|done|]. split; [|done].
    econstructor; [|constructor]. split; [done|].
    assert (bytes_len <$> expected o = node_len (nodes w !! place (path o))) as Hlen.
    { unfold expected_at in Hexp. cbn in Hexp. rewrite Hb in Hexp |- *.
      destruct Hexp as (m & id & Heq & _). unfold place. by rewrite Heq. }
    destruct Hk as [-> | ->]; cbn; done.
  - destruct Hwp as [[_ Hpr] Hn]. by eexists w1, _, _.
Qed.

Lemma expected_len e n b :
  expected_at e n → expected_bytes e = Some b → node_len n = Some (bytes_len b) ∧ is_Some n.
Proof. unfold expected_at. intros He Hb. rewrite Hb in He. destruct He as (m & id & -> & _). done. Qed.

(** What a written file is as an effect. *)
Lemma written_applies o p e k before c m t t' :
  written p e c m t t' → content o = Some c → publish_mode o = Some m →
  (k = EffectAdd ∧ path o = p ∧ expected_bytes e = None ∧ before = None ∨
   k = MoveWrite ∧ move_path o = Some p ∧ expected_bytes e = None ∧ before = None ∨
   k = EffectUpdate ∧ path o = p ∧ e = expectation o ∧ is_Some (expected o) ∧ before = bytes_len <$> expected o) →
  effect_applies o {| effect_operation := index o; effect_kind := k; effect_path := path_text p;
                      bytes_before := before; bytes_after := Some (bytes_len c) |} t t'.
Proof.
  intros [He [id ->]] Hc Hm Hk. split; [done|]. fold (place p) in *.
  assert (node_len (<[place p:=Regular c m id]> t !! place p) = Some (bytes_len c)) as Hlen
    by by rewrite lookup_insert_eq.
  destruct Hk as [(-> & Hp & Hn & ->)|[(-> & Hp & Hn & ->)|(-> & Hp & -> & [b Hb] & ->)]]; cbn; exists p, c, m, id;
    unfold expected_at in He.
  - rewrite Hn in He. by rewrite He, Hlen.
  - rewrite Hn in He. by rewrite He, Hlen.
  - destruct (expected_len (expectation o) _ b He Hb) as [-> _]. rewrite Hlen, Hb. split_and!; try done.
Qed.

Lemma commit_operation_exact o w :
  prepared_ok o →
  ∃ w' es r, commit_operation errno_text o w = (w', es, r) ∧ process w' = process w ∧
    performed (process w) o es (nodes w) (nodes w') ∧
    match r with
    | Ok _ => ∃ ms fs, es = ms ++ fs ∧ Forall (λ e, effect_kind e = Mkdir) ms ∧ file_effects o = Ok fs
    | Err _ => True
    | Panic => False
    end.
Proof.
  unfold prepared_ok, commit_operation, file_effects.
  assert (∀ es t t', applied o es t t' → performed (process w) o es t t') as Hperf
    by (intros; eapply applied_performed; [done|by left]).
  destruct (prepared_kind o) as [| |id|].
  - intros (He & [c Hc] & [m Hm]).
    destruct (publish_exact o (path o) (expectation o) EffectAdd None (Some (prospective_directories o)) w c m Hc Hm)
      as (w' & es & r & Hr & Hp & Hx); [by right| |].
    { intros t t' Hw. eapply written_applies; [done|done|done|]. by left. }
    exists w', es, r. destruct r as [u|f|]; [|by split_and!|done].
    destruct Hx as (Ha & ms & Hms & ->). split_and!; auto. rewrite Hc. by eexists ms, _.
  - intros (He & [c Hc] & [m Hm]).
    destruct (publish_exact o (path o) (expectation o) EffectUpdate (bytes_len <$> expected o) None w c m Hc Hm)
      as (w' & es & r & Hr & Hp & Hx); [by left| |].
    { intros t t' Hw. eapply written_applies; [done|done|done|]. right. right. done. }
    exists w', es, r. destruct r as [u|f|]; [|by split_and!|done].
    destruct Hx as (Ha & ms & Hms & ->). split_and!; auto. rewrite Hc. by eexists ms, _.
  - intros (He & [c Hc] & [m Hm] & [d Hd]). rewrite Hd.
    destruct (publish_exact o d (absent id) MoveWrite None (Some (prospective_directories o)) w c m Hc Hm)
      as (w' & es & r & Hr & Hp & Hx); [by right| |].
    { intros t t' Hw. eapply written_applies; [done|done|done|]. right. by left. }
    rewrite Hr. destruct r as [u|f|]; [|by exists w', es, (Err (or_path d f))|done].
    destruct Hx as (Ha & ms & Hms & ->).
    destruct (removal_exact o MoveDelete w' He) as (w2 & es2 & r2 & -> & Hp2 & Hx2); [by right|].
    eexists w2, _, r2. split; [done|]. split; [congruence|]. destruct r2 as [u2|f2|]; [| |done].
    + destruct Hx2 as [Ha2 ->]. split; [apply Hperf; by eapply applied_app|].
      rewrite Hc. cbn [expect obind fmap option_fmap option_map]. eexists ms, _. split; [by rewrite <- (assoc app)|done].
    + destruct Hx2 as [-> Hn]. split; [|done]. rewrite app_nil_r, Hn. by apply Hperf.
  - intros He. destruct (removal_exact o EffectDelete w He) as (w2 & es2 & r2 & -> & Hp2 & Hx2); [by left|].
    eexists w2, es2, r2. split_and!; [done|done| |].
    + destruct r2 as [u2|f2|]; [|destruct Hx2 as [-> ->]; apply Hperf; constructor|done]. apply Hperf, Hx2.
    + destruct r2 as [u2|f2|]; [|done|done]. eexists [], _. split_and!; [apply Hx2|constructor|done].
Qed.

Lemma commit_from_exact interfere fuzzy es0 os w :
  Forall prepared_ok os →
  ∃ w' r es complete, commit_from errno_text interfere fuzzy es0 os w = (w', Some r) ∧
    response_effects r = es0 ++ es ∧ response_fuzzy r = fuzzy ∧
    status r = (if complete : bool then Applied else if bool_decide (es0 ++ es = []) then Rejected else Partial) ∧
    (response_failure r = None ↔ complete = true) ∧
    ledger (process w) interfere complete os es (nodes w) (nodes w').
Proof.
  intros Hok. revert es0 w. induction Hok as [|o os Ho Hok IH]; intros es0 w; cbn [commit_from].
  - eexists w, _, [], true. split_and!; [done|by rewrite app_nil_r|done|done|done|constructor].
  - destruct (commit_operation_exact o (set_nodes w (interfere (index o) (nodes w))) Ho)
      as (w1 & es1 & r1 & -> & Hp & Hperf & Hr).
    destruct r1 as [u|f|]; [| |done].
    + destruct Hr as (ms & fs & -> & Hms & Hfs).
      destruct (IH (es0 ++ ms ++ fs) w1) as (w2 & r & es & complete & -> & He & Hfz & Hst & Hfail & Hl).
      cbn in Hp. rewrite Hp in Hl.
      exists w2, r, (ms ++ fs ++ es), complete. 
      assert ((es0 ++ ms ++ fs) ++ es = es0 ++ ms ++ fs ++ es) as Happ by by rewrite <- !(assoc app).
      rewrite Happ in He, Hst.
      split_and!; [done|done|done|done|done|]. by econstructor.
    + eexists w1, _, es1, false. split_and!; [done|done|done|done|done|]. econstructor. exact Hperf.
Qed.
End commit.
