(* ===== verification/PatchPreflight.v ===== *)
(** * The preflight

    The preflight reads the tree and leaves it alone; what it prepares is well formed, and with
    [PatchCommit] the whole of [apply_patch] changes exactly what it reports. *)

From S2P Require Import Prelude Text PatchCommon PatchUpdate PatchParser PatchDisk PatchDiskRules PatchApply PatchCommit.
Local Open Scope disk_scope.

(** What a status means; [complete] says that all operations took effect. *)
Definition status_true (r : PatchHelperResponse) (os : list PreparedOperation) (complete : bool) : Prop :=
  match status r with
  | Applied => complete = true ∧ response_failure r = None ∧ os ≠ []
  | Rejected => response_effects r = [] ∧ is_Some (response_failure r)
  | Partial => complete = false ∧ response_effects r ≠ [] ∧ is_Some (response_failure r)
  end.

Section preflight.
Context (errno_text : Errno → text) (response_len : PatchHelperResponse → Z).

(** ** The preflight only reads *)
Definition still (w w' : World) : Prop := same w w' ∧ (faults w = [] → faults w' = []).
#[local] Instance still_preorder : PreOrder still.
Proof.
  split; [split; [reflexivity|done]|]. intros w1 w2 w3 [] []. split; [by etransitivity|auto].
Qed.
Lemma still_nodes w w' : still w w' → nodes w' = nodes w ∧ process w' = process w.
Proof. by intros [[fs ->] _]. Qed.

(** A computation that reads the tree and does not panic. *)
Definition reads {E A} (m : disk E A) (Q : A → Prop) : Prop :=
  ∀ w, wp m (λ w' a, still w w' ∧ Q a) (λ w' _, still w w') w.

Lemma reads_ret {E A} (a : A) (Q : A → Prop) : Q a → reads (E := E) (dret a) Q.
Proof. intros Ha w. by split. Qed.
Lemma reads_fail {E A} (e : E) (Q : A → Prop) : reads (dfail e) Q.
Proof. intros w. done. Qed.
Lemma reads_lift {E A} (o : outcome E A) (Q : A → Prop) :
  o ≠ Panic → (∀ a, o = Ok a → Q a) → reads (dlift o) Q.
Proof. intros Hn Hq w. apply wp_lift; [|done|done]. intros a Ha. split; [done|auto]. Qed.
Lemma reads_bind {E A B} (m : disk E A) (k : A → disk E B) P Q :
  reads m P → (∀ a, P a → reads (k a) Q) → reads (dbind m k) Q.
Proof.
  intros Hm Hk w. apply wp_bind. eapply wp_mono; [apply Hm| |done]. cbn. intros w1 a [Hs Ha].
  eapply wp_mono; [by apply Hk| |]; cbn; [intros w2 b [? ?]; split; [by etransitivity|done]|].
  intros w2 e ?. by etransitivity.
Qed.
Lemma reads_catch {E F A} (m : disk E A) (k : E → disk F A) Q :
  reads m Q → (∀ e, reads (k e) Q) → reads (dcatch m k) Q.
Proof.
  intros Hm Hk w. apply wp_catch. eapply wp_mono; [apply Hm|done|]. cbn. intros w1 e Hs.
  eapply wp_mono; [by apply Hk| |]; cbn; [intros w2 b [? ?]; split; [by etransitivity|done]|].
  intros w2 e' ?. by etransitivity.
Qed.
Lemma reads_call {A} (f : World → World * outcome Errno A) :
  (∀ w, (f w).1 = w ∧ (f w).2 ≠ Panic) → reads (attempt f) (λ _, True).
Proof.
  intros Hf w. destruct (faults w) as [|[e|] rest] eqn:Hw; unfold wp, attempt; rewrite Hw.
  - destruct (Hf w) as [Hf1 Hf2]. destruct (f w) as [w' [a|e|]]; cbn in *; by subst.
  - split; [apply same_faults|]. by rewrite Hw.
  - destruct (Hf (set_faults w rest)) as [Hf1 Hf2].
    assert (still w (set_faults w rest)) by (split; [apply same_faults|by rewrite Hw]).
    destruct (f (set_faults w rest)) as [w' [a|e|]]; cbn in *; by subst.
Qed.
Lemma reads_then {E A B} (m : disk E A) (k : A → disk E B) Q :
  reads m (λ _, True) → (∀ a, reads (k a) Q) → reads (dbind m k) Q.
Proof. intros Hm Hk. eapply reads_bind; [exact Hm|]. intros a _. apply Hk. Qed.

(** System calls that only look. *)
Lemma open_directory_reads h n : reads (open_directory h n) (λ _, True).
Proof. apply reads_call. intros w. split; [done|]. by repeat case_match. Qed.
Lemma open_file_reads h n : reads (open_file h n) (λ _, True).
Proof. apply reads_call. intros w. split; [done|]. by repeat case_match. Qed.
Lemma try_clone_reads : reads try_clone (λ _, True).
Proof. by apply reads_call. Qed.
Lemma fstat_directory_reads h : reads (fstat_directory h) (λ _, True).
Proof. by apply reads_call. Qed.
Lemma use_file_reads : reads use_file (λ _, True).
Proof. by apply reads_call. Qed.

Ltac reads_step :=
  lazymatch goal with
  | |- reads (dret _) _ => apply reads_ret; done
  | |- reads (dfail _) _ => apply reads_fail
  | |- reads (described _ _ _ _) _ => apply reads_catch; [|intros; apply reads_fail]
  | |- reads (dcatch _ _) _ => apply reads_catch; [|intros]
  | |- reads (dbind _ _) _ => apply reads_then; [|intros]
  | |- reads (open_directory _ _) _ => apply open_directory_reads
  | |- reads (open_file _ _) _ => apply open_file_reads
  | |- reads try_clone _ => apply try_clone_reads
  | |- reads (fstat_directory _) _ => apply fstat_directory_reads
  | |- reads use_file _ => apply use_file_reads
  | |- reads (match ?x with _ => _ end) _ => destruct x
  end.

Lemma read_optional_at_reads h n : reads (read_optional_at errno_text h n) (λ _, True).
Proof. unfold read_optional_at. repeat reads_step. Qed.
Lemma open_component_reads h c : reads (open_component errno_text None h c) (λ _, True).
Proof. unfold open_component. repeat reads_step. Qed.
Lemma open_parent_reads p : reads (open_parent errno_text p None) (λ _, True).
Proof.
  apply reads_then; [unfold clone_root; by repeat reads_step|]. intros h. revert h.
  induction (parents p) as [|c names IH]; intros h; cbn [open_components]; [by apply reads_ret|].
  apply reads_then; [apply open_component_reads|done].
Qed.
Lemma existing_parent_reads {A} p (k : Handle → disk EngineFailure (option A)) :
  (∀ h, reads (k h) (λ _, True)) → reads (existing_parent errno_text p k) (λ _, True).
Proof.
  intros Hk. apply reads_then.
  - apply reads_catch; [|intros f; by repeat reads_step].
    apply reads_then; [apply open_parent_reads|]. intros. by reads_step.
  - intros [h|]; [apply Hk|by reads_step].
Qed.
Lemma read_optional_reads p : reads (read_optional errno_text p) (λ _, True).
Proof. apply existing_parent_reads. intros h. apply read_optional_at_reads. Qed.
Lemma directory_identity_reads h : reads (directory_identity errno_text h) (λ _, True).
Proof. unfold directory_identity. repeat reads_step. Qed.
Lemma parent_identity_reads p : reads (parent_identity errno_text p) (λ _, True).
Proof.
  apply existing_parent_reads. intros h. apply reads_then; [apply directory_identity_reads|]. intros. by reads_step.
Qed.

(** The directory budget keeps its text within the bound, so that it cannot underflow. *)
Definition budget_ok (d : DirectoryBudget) : Prop :=
  text_bytes d ≤ MAXIMUM_PATCH_EFFECTS * MAXIMUM_PATCH_PATH_BYTES.
Lemma admit_directory_ok d p :
  budget_ok d → admit_directory d p ≠ Panic ∧ ∀ d', admit_directory d p = Ok d' → budget_ok d'.
Proof.
  unfold budget_ok, admit_directory. intros Hd. case_bool_decide; [split; [done|by intros d' [= <-]]|].
  rewrite checked_sub_fits by done. cbn [expect obind].
  destruct (_ || _) eqn:Hcond; [done|]. split; [done|]. intros d' [= <-]. cbn.
  apply orb_false_iff in Hcond as [_ Hcond%Z.ltb_ge]. lia.
Qed.

Lemma plan_components_reads budget h planned cs :
  budget_ok budget →
  reads (plan_components errno_text budget h planned cs) (λ r, budget_ok r.1.1).
Proof.
  revert budget h planned. induction cs as [|[c prefix] cs IH]; intros budget h planned Hb; cbn [plan_components];
    [by apply reads_ret|].
  eapply reads_bind with (P := λ _, True).
  - by repeat reads_step.
  - intros [h'|] _; [by apply IH|]. destruct (admit_directory_ok budget prefix Hb) as [Hn Hok].
    eapply reads_bind; [by apply reads_lift|]. intros d' Hd'. by apply IH.
Qed.
Lemma parent_plan_reads p d :
  budget_ok d → reads (parent_plan errno_text p d) (λ r, budget_ok r.1).
Proof.
  intros Hd. unfold parent_plan. eapply reads_bind with (P := λ _, True).
  { unfold clone_root. by repeat reads_step. }
  intros h _. eapply reads_bind; [by apply plan_components_reads|]. intros [[d' h'] planned] Hd'. cbn in Hd'.
  destruct h' as [h'|]; [|by apply reads_ret]. eapply reads_bind; [apply directory_identity_reads|].
  intros. by apply reads_ret.
Qed.

Definition preflight_ok (s : Preflight) : Prop := budget_ok (directories s).

Lemma located_reads {A} s i p (m : disk EngineFailure A) Q : reads m Q → reads (located s i p m) Q.
Proof. intros Hm. apply reads_catch; [done|intros; apply reads_fail]. Qed.
Lemma virtual_content_reads s p i :
  preflight_ok s → reads (virtual_content errno_text s p i) (λ r, preflight_ok r.1).
Proof.
  intros Hs. unfold virtual_content. destruct (virtual_files s !! p); [by apply reads_ret|].
  eapply reads_bind; [apply located_reads, read_optional_reads|]. intros c _. by apply reads_ret.
Qed.
Lemma required_content_reads s p i missing :
  preflight_ok s → reads (required_content errno_text s p i missing) (λ r, preflight_ok r.1).
Proof.
  intros Hs. eapply reads_bind; [by apply virtual_content_reads|]. intros [s' [c|]] Hs';
    [by apply reads_ret|apply reads_fail].
Qed.
Lemma account_content_reads s n i p : preflight_ok s → reads (account_content s n i p) preflight_ok.
Proof.
  intros Hs. eapply reads_bind with (P := λ _, True); [|intros; by apply reads_ret].
  apply located_reads, reads_lift; [|done]. unfold account. case_match; [done|].
  apply obind_no_panic; [by destruct (checked_add _ _ _)|]. intros t _. by case_match.
Qed.
Lemma plan_parent_reads s p i :
  preflight_ok s → reads (plan_parent errno_text s p i) (λ r, preflight_ok r.1).
Proof.
  intros Hs. eapply reads_bind; [by apply located_reads, parent_plan_reads|].
  intros [d [id planned]] Hd. by apply reads_ret.
Qed.

Lemma chunks_of_scripts chunks : Forall chunk_ok chunks → ∃ hs, chunks = chunk_of <$> hs.
Proof.
  induction 1 as [|c chunks (h & -> & _) _ [hs ->]]; [by exists []|]. by exists (h :: hs).
Qed.
Lemma update_content_no_panic s t p chunks i :
  Forall chunk_ok chunks → update_content s t p chunks i ≠ Panic.
Proof.
  intros [hs ->]%chunks_of_scripts. unfold update_content.
  destruct (derive_update_spec t p hs i (fuzzy_matches s)) as [Hn _]. by case_match.
Qed.

Lemma prepare_update_target_reads s i p d t m :
  preflight_ok s →
  reads (prepare_update_target errno_text s i p d t m)
    (λ r, preflight_ok r.1 ∧ ((d = None ∧ r.2.1 = PrepareUpdate) ∨ (is_Some d ∧ ∃ id, r.2.1 = PrepareMove id))).
Proof.
  intros Hs. unfold prepare_update_target. destruct d as [d|]; [|apply reads_ret; split; [done|by left]].
  case_bool_decide; [apply reads_fail|]. eapply reads_bind; [by apply virtual_content_reads|].
  intros [s1 [c|]] Hs1; [apply reads_fail|]. eapply reads_bind; [by apply plan_parent_reads|].
  intros [s2 [id planned]] Hs2. apply reads_ret. split; [done|]. right. cbn. eauto.
Qed.

Lemma prepare_operation_reads new_file_mode s i o :
  preflight_ok s → operation_ok o →
  reads (prepare_operation errno_text new_file_mode s i o) (λ r, preflight_ok r.1 ∧ prepared_ok r.2).
Proof.
  intros Hs Ho. destruct o as [p t|p d chunks|p]; cbn [prepare_operation].
  - eapply reads_bind; [by apply virtual_content_reads|]. intros [s1 [c|]] Hs1; [apply reads_fail|].
    eapply reads_bind; [by apply account_content_reads|]. intros s2 Hs2.
    eapply reads_bind; [by apply plan_parent_reads|]. intros [s3 [id planned]] Hs3.
    apply reads_ret. split; [done|]. by split_and!.
  - destruct Ho as (_ & _ & _ & Hch). eapply reads_bind; [by apply required_content_reads|]. intros [s1 c] Hs1.
    eapply reads_bind; [by apply account_content_reads|]. intros s2 Hs2.
    destruct (bytes c) as [t|b]; [|apply reads_fail].
    eapply reads_bind with (P := λ _, True); [apply reads_lift; [by apply update_content_no_panic|done]|].
    intros [out fz] _. eapply reads_bind; [by apply account_content_reads|]. intros s3 Hs3.
    eapply reads_bind; [apply located_reads, parent_identity_reads|]. intros id _.
    eapply reads_bind; [by apply prepare_update_target_reads|]. intros [s4 [k planned]] [Hs4 Hk].
    apply reads_ret. split; [done|]. unfold prepared_ok. cbn in *.
    destruct Hk as [[-> ->]|[[d' ->] [id' ->]]]; cbn; split_and!; by eexists.
  - eapply reads_bind; [by apply required_content_reads|]. intros [s1 c] Hs1.
    eapply reads_bind; [by apply account_content_reads|]. intros s2 Hs2.
    eapply reads_bind; [apply located_reads, parent_identity_reads|]. intros id _.
    apply reads_ret. split; [done|]. by eexists.
Qed.

Lemma prepare_operations_reads new_file_mode s i os :
  preflight_ok s → Forall operation_ok os →
  reads (prepare_operations errno_text new_file_mode s i os)
    (λ r, Forall prepared_ok r.2 ∧ length r.2 = length os).
Proof.
  intros Hs Hos. revert s i Hs. induction Hos as [|o os Ho Hos IH]; intros s i Hs; cbn [prepare_operations];
    [apply reads_ret; by split|].
  eapply reads_bind; [by apply prepare_operation_reads|]. intros [s1 prepared] [Hs1 Hp].
  eapply reads_bind; [by apply IH|]. intros [s2 later] [Hl Hlen]. apply reads_ret. cbn in *.
  split; [by constructor|congruence].
Qed.

Lemma file_effects_ok o : prepared_ok o → ∃ fs, file_effects o = Ok fs.
Proof.
  unfold prepared_ok, file_effects. destruct (prepared_kind o); intros Ho; [by eexists..| |by eexists].
  destruct Ho as (_ & _ & _ & [d ->]). by eexists.
Qed.
Lemma project_ok ds es os : Forall prepared_ok os → project ds es os ≠ Panic.
Proof.
  intros Hos. revert ds es. induction Hos as [|o os Ho _ IH]; intros ds es; cbn [project]; [done|].
  destruct (file_effects_ok o Ho) as [fs ->]. apply IH.
Qed.

Lemma validate_response_budget_ok os fz : Forall prepared_ok os → validate_response_budget response_len os fz ≠ Panic.
Proof.
  intros Hos. unfold validate_response_budget. case_match; [done|]. apply obind_no_panic; [|intros es _; by case_match].
  unfold projected_effects. apply obind_no_panic; [by apply project_ok|]. intros [ds es] _. by case_match.
Qed.
Lemma initial_ok n : preflight_ok
  {| virtual_files := ∅; fuzzy_matches := []; content_bytes := 0;
     directories := {| effects := n; text_bytes := 0; paths := ∅ |} |}.
Proof.
  unfold preflight_ok, budget_ok, MAXIMUM_PATCH_EFFECTS, MAXIMUM_PATCH_OPERATIONS, MAXIMUM_PATCH_PATH_BYTES. cbn. lia.
Qed.

Lemma preflight_reads new_file_mode os :
  Forall operation_ok os →
  reads (preflight errno_text response_len new_file_mode os)
    (λ r, Forall prepared_ok r.1 ∧ length r.1 = length os).
Proof.
  intros Hos. unfold preflight. case_match; [apply reads_fail|].
  eapply reads_bind; [apply prepare_operations_reads; [apply initial_ok|done]|].
  intros [s prepared] [Hp Hlen]. cbn in Hp. eapply reads_bind with (P := λ _, True); [|intros; by apply reads_ret].
  apply reads_catch; [|intros; apply reads_fail]. apply reads_lift; [by apply validate_response_budget_ok|done].
Qed.

(** ** Properties *)

End preflight.

(** ** Examples *)
Definition empty_world : World :=
  {| root_identity := (1, 2); nodes := ∅; faults := []; next_inode := 3; created := []; process := 7; next_temp := 0 |}.
Definition quiet_apply (patch : text) : World * option PatchHelperResponse :=
  apply_patch (λ _, []) (λ _, 0) (Ok DEFAULT_NEW_FILE_MODE) (λ _ t, t) patch empty_world.
Definition patch_lines (l : list string) : text := concat (map (λ s, lit s ++ [10]) l).


(** The preflight does not see that one path of a patch is a directory of another: the first
    operation of this patch is performed and the second one fails. *)
Example preflight_misses_directory :
  (λ r, (status r, map effect_path (response_effects r), failure_code <$> response_failure r)) <$>
    (quiet_apply (patch_lines ["*** Begin Patch"; "*** Add File: a/b"; "+x"; "*** Add File: a"; "+y";
                               "*** End Patch"]%string)).2 =
  Some (Partial, [lit "a"; lit "a/b"], Some (lit "special_file")).
Proof. vm_compute. reflexivity. Qed.
