(* ===== verification/PatchQuiet.v ===== *)
(** * The operations of a workspace that is left alone

    Where no system call fails by itself, publishing and deleting succeed if the target is what
    the preflight saw and its directories are there or planned; what the tree is afterwards. *)

From S2P Require Import Prelude Text PatchCommon PatchUpdate PatchParser PatchDisk PatchDiskRules PatchApply.
From S2P Require Import PatchCommit PatchPreflight.
Local Open Scope disk_scope.

(** ** Paths *)
Lemma safe_components p :
  safe p → components p ≠ [] ∧ path_text p = join_slash (components p) ∧
  Forall (λ n, SLASH ∉ n) (components p).
Proof.
  intros [t (? & Hc & ? & _)%safe_path_parse_confined]. split_and!; [done|done|].
  eapply Forall_impl; [exact Hc|]. by intros n (_ & _ & _ & ? & _).
Qed.
Lemma safe_inj p q : safe p → safe q → components p = components q → p = q.
Proof.
  intros (_ & Hp & _)%safe_components (_ & Hq & _)%safe_components Heq.
  destruct p, q. cbn in *. congruence.
Qed.
Lemma components_snoc p : components p ≠ [] → components p = parents p ++ [name p].
Proof.
  intros Hp. unfold parents, name. destruct (components p) as [|c cs] using rev_ind; [done|].
  rewrite removelast_last, last_snoc. done.
Qed.
Lemma place_components p : safe p → place p = components p.
Proof. intros (? & _)%safe_components. symmetry. by apply components_snoc. Qed.

Lemma join_slash_snoc q n :
  join_slash (q ++ [n]) = if bool_decide (q = []) then n else join_slash q ++ SLASH :: n.
Proof.
  induction q as [|c q IH]; [done|]. cbn [app].
  destruct q as [|d q]; [done|]. rewrite !bool_decide_false in * by done.
  change (join_slash (c :: (d :: q) ++ [n])) with (c ++ SLASH :: join_slash ((d :: q) ++ [n])).
  rewrite IH. cbn [join_slash]. by rewrite <- (assoc app).
Qed.

Lemma slash_prefixes_app seen a t :
  SLASH ∉ a → slash_prefixes seen (a ++ t) = slash_prefixes (seen ++ a) t.
Proof.
  revert seen. induction a as [|c a IH]; intros seen Ha; cbn; [by rewrite app_nil_r|].
  apply not_elem_of_cons in Ha as [Hc Ha]. destruct (Z.eqb_spec c SLASH); [congruence|].
  rewrite IH by done. by rewrite <- (assoc app).
Qed.

(** The proper prefixes of a path with their last component. *)
Fixpoint steps (q names : list text) : list (text * text) :=
  match names with
  | [] => []
  | n :: names => if bool_decide (names = []) then [] else (n, join_slash (q ++ [n])) :: steps (q ++ [n]) names
  end.
Definition opening (q : list text) : text := if bool_decide (q = []) then [] else join_slash q ++ [SLASH].

Lemma steps_spec q names :
  Forall (λ n, SLASH ∉ n) names → names ≠ [] →
  zip (removelast names) (slash_prefixes (opening q) (join_slash names)) = steps q names.
Proof.
  intros Hs. revert q. induction Hs as [|n names Hn Hs IH]; intros q Hne; [done|].
  assert (opening q ++ n = join_slash (q ++ [n])) as Hopen.
  { rewrite join_slash_snoc. unfold opening. case_bool_decide; [done|]. by rewrite <- (assoc app). }
  destruct names as [|m names].
  - done.
  - change (removelast (n :: m :: names)) with (n :: removelast (m :: names)).
    change (join_slash (n :: m :: names)) with (n ++ SLASH :: join_slash (m :: names)).
    rewrite slash_prefixes_app by done. cbn [slash_prefixes]. rewrite Z.eqb_refl.
    change (steps q (n :: m :: names)) with ((n, join_slash (q ++ [n])) :: steps (q ++ [n]) (m :: names)).
    rewrite Hopen. cbn [zip_with]. f_equal. rewrite <- IH by done. f_equal. f_equal.
    unfold opening. rewrite bool_decide_false; [done|]. by intros [_ ?]%app_nil.
Qed.
Lemma zip_parents p :
  safe p → zip (parents p) (slash_prefixes [] (path_text p)) = steps [] (components p).
Proof.
  intros (Hne & -> & Hs)%safe_components. unfold parents. by rewrite <- (steps_spec [] (components p)).
Qed.

(** ** Trees *)
Definition tree_ok (t : tree) : Prop :=
  ∀ d n x, t !! (d ++ [n]) = Some x → d ≠ [] → ∃ id, t !! d = Some (Directory id).

Lemma tree_ok_missing t d l : tree_ok t → d ≠ [] → t !! d = None → t !! (d ++ l) = None.
Proof.
  intros Ht Hd Hn. induction l as [|x l IH] using rev_ind; [by rewrite app_nil_r|].
  rewrite (assoc app). apply eq_None_not_Some. intros [y Hy].
  destruct (Ht (d ++ l) x y Hy) as [id Hid]; [by intros [? _]%app_nil|congruence].
Qed.

(** The identity of a directory. *)
Definition identity_of (w : World) (d : list text) : option Identity :=
  match d with
  | [] => Some (root_identity w)
  | _ => match nodes w !! d with Some (Directory id) => Some id | _ => None end
  end.

(** Every directory on the way is there, or missing and planned. *)
Definition ready (creation : option (list text)) (t : tree) (ds : list text) : Prop :=
  ∀ r l, ds = r ++ l → r ≠ [] →
    (∃ id, t !! r = Some (Directory id)) ∨
    (t !! r = None ∧ ∃ planned, creation = Some planned ∧ join_slash r ∈ planned).

(** ** Reading a quiet workspace *)
Section quiet.
Context (errno_text : Errno → text).

Lemma attempt_quiet {A} (f : World → World * outcome Errno A) w : faults w = [] → attempt f w = f w.
Proof. intros Hw. unfold attempt. by rewrite Hw. Qed.
Lemma wp_quiet {A} (f : World → World * outcome Errno A) Q X w : faults w = [] → wp f Q X w → wp (attempt f) Q X w.
Proof. intros Hw Hf. unfold wp. by rewrite attempt_quiet. Qed.

(** A target that is what the preflight saw. *)
Definition matches (e : PathExpectation) (n : option Node) : Prop :=
  match expected_bytes e with
  | None => n = None ∧ expected_mode e = None ∧ expected_identity e = None
  | Some b => ∃ m id, n = Some (Regular b m id) ∧ expected_mode e = Some m ∧
      (expected_identity e = None ∨ expected_identity e = Some id) ∧ bytes_len b ≤ MAXIMUM_PATCH_FILE_BYTES
  end.

Lemma revalidate_quiet h n e w :
  faults w = [] → matches e (nodes w !! under h n) →
  wp (revalidate_at errno_text h n e) (λ w' _, w' = w) (λ _ _, False) w.
Proof.
  intros Hw Hm. unfold revalidate_at, read_optional_at, open_file, use_file.
  do 4 wp_step. apply wp_quiet; [done|]. unfold matches in Hm. unfold wp at 1. destruct (expected_bytes e) as [b|].
  - destruct Hm as (m & id & -> & -> & Hid & Hlen). do 3 wp_step. apply wp_quiet; [done|]. unfold wp at 1.
    replace (MAXIMUM_PATCH_FILE_BYTES <? bytes_len b) with false by lia.
    do 2 wp_step. apply wp_quiet; [done|]. unfold wp at 1. wp_step. cbn [fmap option_fmap option_map bytes mode].
    rewrite !bool_decide_true by done. destruct Hid as [-> | ->]; cbn; [done|]. by rewrite bool_decide_true.
  - destruct Hm as (-> & -> & ->). do 2 wp_step. done.
Qed.

Lemma validate_parent_quiet h e w :
  faults w = [] → (∀ id, e = Some id → dir_identity h = id) →
  wp (validate_parent_identity errno_text h e) (λ w' _, w' = w) (λ _ _, False) w.
Proof.
  intros Hw He. unfold validate_parent_identity. destruct e as [id|]; [|done].
  wp_step. unfold directory_identity, fstat_directory. wp_step. apply wp_quiet; [done|]. unfold wp at 1.
  rewrite (He id) by done. by rewrite bool_decide_true.
Qed.

(** The tree after the missing parents of a path have been made. *)
Definition grown_at (base names : list text) (t t' : tree) : Prop :=
  ∀ q, t' !! q = t !! q ∨
    (t !! q = None ∧ (∃ id, t' !! q = Some (Directory id)) ∧
     ∃ r l, q = base ++ r ∧ names = r ++ l ∧ r ≠ []).

Definition quiet_as (w w' : World) : Prop :=
  faults w' = [] ∧ process w' = process w ∧ root_identity w' = root_identity w.

#[local] Instance quiet_as_transitive : Transitive quiet_as.
Proof. intros w1 w2 w3 (? & ? & ?) (? & ? & ?). split_and!; congruence. Qed.

Lemma open_component_quiet creation h c w :
  faults w = [] →
  (∃ id, nodes w !! under h c = Some (Directory id)) ∨
  (nodes w !! under h c = None ∧ ∃ planned, creation = Some planned ∧ join_slash (under h c) ∈ planned) →
  wp (open_component errno_text creation h c)
    (λ w' h', quiet_as w w' ∧ dir h' = under h c ∧
       nodes w' !! under h c = Some (Directory (dir_identity h')) ∧
       (nodes w' = nodes w ∨ nodes w !! under h c = None ∧ ∃ id, nodes w' = <[under h c := Directory id]> (nodes w)))
    (λ _ _, False) w.
Proof.
  intros Hw Hn. unfold open_component, open_directory. wp_step. apply wp_quiet; [done|]. unfold wp at 1.
  destruct Hn as [[id ->]|(Hnone & planned & -> & Hin)].
  - cbn. split_and!; auto. done.
  - rewrite Hnone, bool_decide_true by done. cbn [negb].
    do 3 wp_step. unfold mkdirat. apply wp_quiet; [done|]. unfold wp at 1. rewrite Hnone.
    apply wp_state. wp_step. apply wp_quiet; [done|]. unfold wp. cbn.
    rewrite lookup_insert_eq. cbn. split_and!; try done. right. eauto.
Qed.

Lemma open_components_quiet creation names h w :
  faults w = [] →
  (∀ r l, names = r ++ l → r ≠ [] →
    (∃ id, nodes w !! (dir h ++ r) = Some (Directory id)) ∨
    (nodes w !! (dir h ++ r) = None ∧ ∃ planned, creation = Some planned ∧ join_slash (dir h ++ r) ∈ planned)) →
  wp (open_components errno_text creation h names)
    (λ w' h', quiet_as w w' ∧ dir h' = dir h ++ names ∧ grown_at (dir h) names (nodes w) (nodes w') ∧
       (∀ r l, names = r ++ l → r ≠ [] → ∃ id, nodes w' !! (dir h ++ r) = Some (Directory id)) ∧
       (if bool_decide (names = []) then h' = h else nodes w' !! dir h' = Some (Directory (dir_identity h'))))
    (λ _ _, False) w.
Proof.
  revert h w. induction names as [|c names IH]; intros h w Hw Hn; cbn [open_components].
  - wp_step. split_and!; [done|by rewrite app_nil_r|by left|by intros [] ? [=] ?|done].
  - wp_step. eapply wp_mono; [apply (open_component_quiet creation h c w Hw)| |done].
    { apply (Hn [c] names); done. }
    intros w1 h1 (Hw1 & Hd1 & Hn1 & Ht1). cbn.
    assert (∀ q, q ≠ under h c → nodes w1 !! q = nodes w !! q) as Hother.
    { intros q Hq. destruct Ht1 as [-> | (_ & id & ->)]; [done|]. by rewrite lookup_insert_ne. }
    assert (∀ r, dir h1 ++ r = dir h ++ c :: r) as Hdir by (intros r; rewrite Hd1; unfold under; by rewrite <- (assoc app)).
    eapply wp_mono; [apply (IH h1 w1 (proj1 Hw1))| |done].
    { intros r l -> Hr. rewrite Hdir, Hother; [by apply (Hn (c :: r) l)|].
      unfold under. intros [=]%(inj _). done. }
    intros w2 h2 (Hw2 & Hd2 & Hg2 & Hall2 & Hid2). split_and!; [by etransitivity| | | |].
    + by rewrite Hd2, Hdir.
    + intros q. destruct (Hg2 q) as [Hq|(Hq & Hid & r & l & -> & -> & Hr)].
      * destruct (decide (q = under h c)) as [->|Hne]; [|left; by rewrite Hq, Hother].
        destruct Ht1 as [Heq|(Hnone & id & _)]; [left; congruence|]. right. split; [done|].
        rewrite Hq, Hn1. split; [by eexists|]. by exists [c], names.
      * right. rewrite Hdir in *. rewrite <- Hother; [|unfold under; by intros [=]%(inj _)].
        split_and!; [done|done|]. by exists (c :: r), l.
    + intros r l Heq Hr. destruct r as [|c' r]; [done|]. injection Heq as <- ->. destruct r as [|c' r]; [|rewrite <- Hdir; by apply (Hall2 (c' :: r) l)].
      destruct (Hg2 (dir h ++ [c])) as [->|(_ & ? & _)]; [|done]. by eexists.
    + case_bool_decide as Hnil; [|done]. subst h2.
      destruct (Hg2 (dir h1)) as [->|(_ & ? & r & l & _ & ? & ?)]; [by rewrite Hd1|].
      subst names. by destruct r.
Qed.

Lemma open_parent_quiet creation p w :
  faults w = [] → ready creation (nodes w) (parents p) →
  wp (open_parent errno_text p creation)
    (λ w' h, quiet_as w w' ∧ dir h = parents p ∧ grown_at [] (parents p) (nodes w) (nodes w') ∧
       ready None (nodes w') (parents p) ∧ identity_of w' (parents p) = Some (dir_identity h))
    (λ _ _, False) w.
Proof.
  intros Hw Hr. unfold open_parent, clone_root, try_clone. wp_step. wp_step. apply wp_quiet; [done|].
  unfold wp at 1. 
  eapply wp_mono; [apply (open_components_quiet creation (parents p) {| dir := []; dir_identity := root_identity w |} w Hw Hr)| |done].
  cbn [dir app]. intros w' h (Hq & Hd & Hg & Hall & Hid). split_and!; [done|done|done| |].
  - intros r l Heq Hne. left. by eapply Hall.
  - unfold identity_of. rewrite <- Hd. rewrite <- Hd in Hid. case_bool_decide as Hnil.
    + subst h. cbn. destruct Hq as (_ & _ & ->). done.
    + rewrite Hid. by destruct (dir h).
Qed.

(** Temporary names are free. *)
Definition clean (pid : Z) (t : tree) : Prop := ∀ d n, t !! (d ++ [temporary_name pid n]) = None.

Lemma create_temporary_quiet tries h w :
  faults w = [] → clean (process w) (nodes w) →
  wp (create_temporary errno_text (S tries) h)
    (λ w' name, quiet_as w w' ∧ (∃ n, name = temporary_name (process w) n) ∧
       holding (under h name) (nodes w) w') (λ _ _, False) w.
Proof.
  intros Hw Hc. cbn [create_temporary]. wp_step.
  change (wp (A := text) (λ w, (bump_temp w, Ok (temporary_name (process w) (next_temp w)))) ?Q ?X w)
    with (Q (bump_temp w) (temporary_name (process w) (next_temp w))). cbv beta.
  do 3 wp_step. unfold create_file. apply wp_quiet; [done|]. unfold wp at 1.
  cbn [nodes bump_temp]. unfold under at 1. rewrite Hc. do 2 wp_step. split_and!; [done|by eexists|]. split; [apply Hc|].
  by eexists _, _, _.
Qed.

Lemma update_file_quiet h n f t b m id w :
  faults w = [] → nodes w = <[under h n := Regular b m id]> t →
  wp (update_file h n f)
    (λ w' _, quiet_as w w' ∧ nodes w' = <[under h n := Regular (f b m).1 (f b m).2 id]> t) (λ _ _, False) w.
Proof.
  intros Hw Hn. apply wp_quiet; [done|]. unfold wp. rewrite Hn, lookup_insert_eq. destruct (f b m) as [b' m'].
  cbn. split; [done|]. apply insert_insert_eq.
Qed.

Lemma grown_identity ds w w' d id :
  grown_at [] ds (nodes w) (nodes w') → quiet_as w w' → identity_of w d = Some id → identity_of w' d = Some id.
Proof.
  intros Hg (_ & _ & Hr). unfold identity_of. destruct d as [|n d]; [by rewrite Hr|].
  destruct (Hg (n :: d)) as [->|[-> _]]; done.
Qed.
Lemma grown_clean pid ds t t' :
  grown_at [] ds t t' → Forall (λ n, ∀ i, n ≠ temporary_name pid i) ds → clean pid t → clean pid t'.
Proof.
  intros Hg Hds Hc d n. destruct (Hg (d ++ [temporary_name pid n])) as [->|(_ & _ & r & l & Hq & -> & _)]; [done|].
  cbn in Hq. subst r. rewrite !Forall_app, Forall_singleton in Hds. by destruct Hds as [[_ []%(λ H, H n eq_refl)] _].
Qed.
Lemma grown_place p t t' : grown_at [] (parents p) t t' → t' !! place p = t !! place p.
Proof.
  intros Hg. destruct (Hg (place p)) as [->|(_ & _ & r & l & Hq & Hl & _)]; [done|].
  unfold place in Hq. rewrite Hl in Hq. cbn in Hq. apply (f_equal length) in Hq. rewrite !length_app in Hq. cbn in Hq. lia.
Qed.

Lemma rename_quiet h from to (replace : bool) content mode id t w :
  faults w = [] → t !! under h from = None → nodes w = <[under h from := Regular content mode id]> t →
  from ≠ to → (if replace then ∃ b m i, t !! under h to = Some (Regular b m i) else t !! under h to = None) →
  wp (renameat h from to replace)
    (λ w' _, quiet_as w w' ∧ nodes w' = <[under h to := Regular content mode id]> t) (λ _ _, False) w.
Proof.
  intros Hw Hfree Hn Hne Hto. apply wp_quiet; [done|]. unfold wp.
  rewrite Hn, lookup_insert_eq, lookup_insert_ne by (by intros [=]%(inj _)). rewrite delete_insert_id by done.
  destruct replace.
  - destruct Hto as (b & m & i & ->). done.
  - rewrite Hto. done.
Qed.

Lemma write_temporary_quiet h n content mode t w :
  faults w = [] → holding (under h n) t w →
  wp (dbind (write_all h n content) (λ _, dbind (fchmod h n mode) (λ _, use_file)))
    (λ w' _, quiet_as w w' ∧ t !! under h n = None ∧ ∃ id, nodes w' = <[under h n := Regular content mode id]> t)
    (λ _ _, False) w.
Proof.
  intros Hw (Hfree & b & m & id & Hn). wp_step. eapply wp_mono; [by apply update_file_quiet| |done].
  cbn. intros w1 _ [Hq1 Hn1]. wp_step. eapply wp_mono; [apply update_file_quiet; [apply Hq1|done]| |done].
  cbn. intros w2 _ [Hq2 Hn2]. apply wp_quiet; [apply Hq2|]. unfold wp. split; [by etransitivity|]. split; [done|]. eauto.
Qed.

Lemma atomic_write_quiet p e content mode creation w :
  faults w = [] → ready creation (nodes w) (parents p) → clean (process w) (nodes w) →
  Forall (λ n, ∀ i, n ≠ temporary_name (process w) i) (place p) →
  (∀ id, expected_parent e = Some id → identity_of w (parents p) = Some id) →
  matches e (nodes w !! place p) →
  wp (atomic_write errno_text p e content mode creation)
    (λ w' _, quiet_as w w' ∧ ∃ t id, grown_at [] (parents p) (nodes w) t ∧ ready None t (parents p) ∧
       nodes w' = <[place p := Regular content mode id]> t)
    (λ _ _, False) w.
Proof.
  intros Hw Hr Hc [Hp [Hname _]%Forall_cons]%Forall_app He Hm. unfold atomic_write. wp_step.
  eapply wp_mono; [by apply open_parent_quiet| |done]. cbn -[create_temporary]. intros w1 h (Hq1 & Hd & Hg & Hr1 & Hid).
  assert (under h (name p) = place p) as Hplace by (unfold under, place; by rewrite Hd).
  rewrite <- (grown_place p _ _ Hg), <- Hplace in Hm.
  wp_step. eapply wp_mono; [apply validate_parent_quiet; [apply Hq1|]| |done].
  { intros id Hx%He. pose proof (grown_identity _ _ _ _ _ Hg Hq1 Hx). congruence. }
  intros ? _ ->. wp_step. eapply wp_mono; [apply revalidate_quiet; [apply Hq1|done]| |done].
  intros ? _ ->. wp_step. change 128%nat with (S 127). generalize 127%nat. intros tries.
  assert (process w1 = process w) as Hpid by apply Hq1.
  eapply wp_mono; [apply create_temporary_quiet; [apply Hq1|]| |done].
  { rewrite Hpid. by eapply grown_clean. }
  cbn. intros w2 temporary (Hq2 & [n ->] & Hhold). rewrite Hpid in *.
  assert (name p ≠ temporary_name (process w) n) as Hne by apply Hname.
  wp_step. wp_step. eapply wp_mono; [apply write_temporary_quiet; [apply Hq2|done]| |done].
  cbn. intros w3 _ (Hq3 & Hfree & id & Hn3). wp_step. wp_step.
  eapply wp_mono; [apply revalidate_quiet; [apply Hq3|]| |done].
  { rewrite Hn3, lookup_insert_ne; [done|]. intros [=]%(inj _). congruence. }
  intros ? _ ->. wp_step. eapply wp_mono; [eapply rename_quiet; [apply Hq3|done|done|done|]| |done].
  { unfold matches in Hm. destruct (expected_bytes e).
    - rewrite bool_decide_true by done. destruct Hm as (m & i & -> & _). eauto.
    - rewrite bool_decide_false by (by intros []). by destruct Hm. }
  cbn. intros w4 _ [Hq4 Hn4]. split; [do 3 (etransitivity; [done|]); done|].
  exists (nodes w1), id. rewrite <- Hplace. done.
Qed.

Lemma remove_quiet p e w :
  faults w = [] → ready None (nodes w) (parents p) →
  (∀ id, expected_parent e = Some id → identity_of w (parents p) = Some id) →
  matches e (nodes w !! place p) → is_Some (expected_bytes e) →
  wp (remove errno_text p e) (λ w' _, quiet_as w w' ∧ nodes w' = delete (place p) (nodes w)) (λ _ _, False) w.
Proof.
  intros Hw Hr He Hm [b Hb]. unfold remove. wp_step.
  eapply wp_mono; [by apply open_parent_quiet| |done]. cbn. intros w1 h (Hq1 & Hd & Hg & Hr1 & Hid).
  assert (under h (name p) = place p) as Hplace by (unfold under, place; by rewrite Hd).
  assert (nodes w1 = nodes w) as Hn.
  { apply map_eq. intros q. destruct (Hg q) as [|(Hq & _ & r & l & -> & Heq & Hne)]; [done|].
    destruct (Hr r l Heq Hne) as [[i Hi]|(_ & ? & ? & _)]; [|done]. cbn in *. congruence. }
  rewrite <- Hn, <- Hplace in Hm.
  wp_step. eapply wp_mono; [apply validate_parent_quiet; [apply Hq1|]| |done].
  { intros id Hx%He. pose proof (grown_identity _ _ _ _ _ Hg Hq1 Hx). congruence. }
  intros ? _ ->. wp_step. eapply wp_mono; [apply revalidate_quiet; [apply Hq1|done]| |done].
  intros ? _ ->. unfold matches in Hm. rewrite Hb in Hm. destruct Hm as (m & i & Hm & _).
  wp_step. unfold unlinkat. apply wp_quiet; [apply Hq1|]. unfold wp at 1. rewrite Hm. cbn.
  split; [done|]. by rewrite Hn, Hplace.
Qed.
End quiet.
