(* ===== verification/PatchReads.v ===== *)
(** * What the preflight knows about the tree

    The reads of the preflight tell the truth about the tree they find, and what is planned
    for a path are exactly the directories that miss. *)

From S2P Require Import Prelude Text PatchCommon PatchUpdate PatchParser PatchDisk PatchDiskRules PatchApply.
From S2P Require Import PatchCommit PatchPreflight PatchQuiet.
Local Open Scope disk_scope.

Section reads.
Context (errno_text : Errno → text) (w0 : World).

(** A computation that leaves the tree [nodes w0] alone. *)
Definition sees {E A} (m : disk E A) (Q : A → Prop) (X : E → Prop) : Prop :=
  ∀ w, same w0 w → wp m (λ w' a, same w0 w' ∧ Q a) (λ w' e, same w0 w' ∧ X e) w.

Lemma sees_ret {E A} (a : A) (Q : A → Prop) (X : E → Prop) : Q a → sees (dret a) Q X.
Proof. intros Ha w Hw. by split. Qed.
Lemma sees_fail {E A} (e : E) (Q : A → Prop) (X : E → Prop) : X e → sees (dfail e) Q X.
Proof. intros He w Hw. by split. Qed.
Lemma sees_bind {E A B} (m : disk E A) (k : A → disk E B) P Q X :
  sees m P X → (∀ a, P a → sees (k a) Q X) → sees (dbind m k) Q X.
Proof.
  intros Hm Hk w Hw. apply wp_bind. eapply wp_mono; [by apply Hm| |done]. intros w' a [Hw' Ha]. by apply Hk.
Qed.
Lemma sees_catch {E F A} (m : disk E A) (k : E → disk F A) Q X Y :
  sees m Q Y → (∀ e, Y e → sees (k e) Q X) → sees (dcatch m k) Q X.
Proof.
  intros Hm Hk w Hw. apply wp_catch. eapply wp_mono; [by apply Hm|done|]. intros w' e [Hw' He]. by apply Hk.
Qed.
Lemma sees_mono {E A} (m : disk E A) (Q Q' : A → Prop) (X X' : E → Prop) :
  sees m Q X → (∀ a, Q a → Q' a) → (∀ e, X e → X' e) → sees m Q' X'.
Proof. intros Hm HQ HX w Hw. eapply wp_mono; [by apply Hm| |]; naive_solver. Qed.
Lemma sees_same {E A} (m : disk E A) (Q : A → Prop) (X : E → Prop) :
  (∀ w, wp m (λ w' a, same w w' ∧ (nodes w = nodes w0 → Q a)) (λ w' e, same w w' ∧ (nodes w = nodes w0 → X e)) w) →
  sees m Q X.
Proof.
  intros Hm w Hw. pose proof (same_nodes _ _ Hw) as Hn.
  eapply wp_mono; [apply Hm| |]; intros w' a [Hs Ha]; (split; [by etransitivity|auto]).
Qed.
(** Calls that only look at the tree. *)
Lemma sees_quiet_call {A} (m : disk Errno A) : reads m (λ _, True) → sees m (λ _, True) (λ _, True).
Proof.
  intros Hm. apply sees_same. intros w. eapply wp_mono; [apply Hm| |]; cbn; [intros w' a [[] _]; done|intros w' e []; done].
Qed.

Definition handle_ok (h : Handle) : Prop := identity_of w0 (dir h) = Some (dir_identity h).
Definition absent_code (f : EngineFailure) : Prop := code f = lit "not_found".

Lemma code_failure c m : code (failure c m) = truncate_utf8 (lit c) MAXIMUM_PATCH_FAILURE_CODE_BYTES.
Proof. done. Qed.
Ltac not_absent := unfold absent_code, io_failure; rewrite code_failure; vm_compute; discriminate.

Lemma try_clone_sees :
  sees try_clone (λ h, h = {| dir := []; dir_identity := root_identity w0 |}) (λ _, True).
Proof.
  intros w Hw. unfold try_clone. wp_step; [split; [same_done|done]|]. split; [same_done|]. cbn. by destruct Hw as [? ->].
Qed.
Lemma clone_root_sees :
  sees (clone_root errno_text) (λ h, h = {| dir := []; dir_identity := root_identity w0 |})
    (λ f, ¬ absent_code f).
Proof. eapply sees_catch; [apply try_clone_sees|]. intros e _. apply sees_fail. not_absent. Qed.

Lemma fstat_sees h : sees (fstat_directory h) (λ id, id = dir_identity h) (λ _, True).
Proof. intros w Hw. unfold fstat_directory. wp_step; [split; [same_done|done]|]. split; [same_done|done]. Qed.
Lemma directory_identity_sees h :
  sees (directory_identity errno_text h) (λ id, id = dir_identity h) (λ _, True).
Proof. eapply sees_catch; [apply fstat_sees|]. intros e _. by apply sees_fail. Qed.

Lemma open_directory_sees h n :
  sees (open_directory h n)
    (λ h', dir h' = under h n ∧ nodes w0 !! under h n = Some (Directory (dir_identity h')) ∧ handle_ok h')
    (λ e, e = NOENT → nodes w0 !! under h n = None).
Proof.
  apply sees_same. intros w. eapply wp_mono; [apply open_directory_wp| |]; cbn.
  - intros w' h' (Hs & Hd & Hn). split; [done|]. intros Heq. rewrite Heq in Hn. split_and!; [done|done|].
    unfold handle_ok, identity_of. rewrite Hd, Hn. unfold under. by destruct (dir h).
  - intros w' e [Hs He]. split; [done|]. intros Heq. by rewrite <- Heq.
Qed.

Lemma open_component_sees h c :
  sees (open_component errno_text None h c)
    (λ h', dir h' = under h c ∧ nodes w0 !! under h c = Some (Directory (dir_identity h')) ∧ handle_ok h')
    (λ f, absent_code f → nodes w0 !! under h c = None).
Proof.
  eapply sees_catch; [apply open_directory_sees|].
  intros e He. destruct e; apply sees_fail; intros Hf; try (by apply He); exfalso; revert Hf; not_absent.
Qed.

Lemma open_components_sees names h :
  handle_ok h →
  sees (open_components errno_text None h names)
    (λ h', dir h' = dir h ++ names ∧ handle_ok h')
    (λ f, absent_code f → ∃ r l, names = r ++ l ∧ r ≠ [] ∧ nodes w0 !! (dir h ++ r) = None).
Proof.
  revert h. induction names as [|c names IH]; intros h Hh; cbn [open_components].
  - apply sees_ret. by rewrite app_nil_r.
  - eapply sees_bind.
    + eapply sees_mono; [apply open_component_sees|intros h' Hh'; exact Hh'|].
      intros f Hf Hc. exists [c], names. split_and!; [done|done|]. by apply Hf.
    + intros h' (Hd & _ & Hh'). eapply sees_mono; [by apply IH| |].
      * intros h'' [Hd' Hh'']. split; [|done]. rewrite Hd', Hd. unfold under. by rewrite <- (assoc app).
      * intros f Hf Hc. destruct (Hf Hc) as (r & l & -> & _ & Hn). exists (c :: r), l. split_and!; [done|done|].
        rewrite Hd in Hn. unfold under in Hn. by rewrite <- (assoc app) in Hn.
Qed.
Lemma open_parent_sees p :
  sees (open_parent errno_text p None)
    (λ h, dir h = parents p ∧ handle_ok h)
    (λ f, absent_code f → ∃ r l, parents p = r ++ l ∧ r ≠ [] ∧ nodes w0 !! r = None).
Proof.
  eapply sees_bind.
  - eapply sees_mono; [apply clone_root_sees|intros h Hh; exact Hh|]. by intros f.
  - intros h ->. eapply sees_mono; [by apply open_components_sees| |]; by cbn.
Qed.

(** Reading a file or the identity of a parent that may be missing. *)
Lemma existing_parent_sees {A} p (k : Handle → disk EngineFailure (option A)) (Q : option A → Prop) :
  (∀ h, dir h = parents p → handle_ok h → sees (k h) Q (λ _, True)) →
  ((∃ r l, parents p = r ++ l ∧ r ≠ [] ∧ nodes w0 !! r = None) → Q None) →
  sees (existing_parent errno_text p k) Q (λ _, True).
Proof.
  intros Hk Hn. eapply sees_bind with (P := λ o, match o with
    | Some h => dir h = parents p ∧ handle_ok h
    | None => ∃ r l, parents p = r ++ l ∧ r ≠ [] ∧ nodes w0 !! r = None end).
  - eapply sees_catch.
    + eapply sees_bind; [apply open_parent_sees|]. intros h Hh. by apply sees_ret.
    + intros f Hf. case_bool_decide; [apply sees_ret; auto|by apply sees_fail].
  - intros [h|] Hh; [by apply Hk; apply Hh|]. apply sees_ret. auto.
Qed.

Definition reads_node (c : option VirtualContent) (n : option Node) : Prop :=
  match c with
  | None => n = None
  | Some v => content_at n = Some v ∧ bytes_len (bytes v) ≤ MAXIMUM_PATCH_FILE_BYTES
  end.

Lemma read_optional_sees p :
  tree_ok (nodes w0) →
  sees (read_optional errno_text p) (λ c, reads_node c (nodes w0 !! place p)) (λ _, True).
Proof.
  intros Ht. apply existing_parent_sees.
  - intros h Hd _. apply sees_same. intros w. eapply wp_mono; [apply read_optional_at_wp| |]; cbn; [|done].
    intros w' c [Hs Hc]. split; [done|]. intros <-. unfold under in Hc. rewrite Hd in Hc. by destruct c.
  - intros (r & l & Heq & Hr & Hn). unfold reads_node, place. rewrite Heq, <- (assoc app). by apply tree_ok_missing.
Qed.
Lemma parent_identity_sees p :
  sees (parent_identity errno_text p) (λ o, ∀ id, o = Some id → identity_of w0 (parents p) = Some id) (λ _, True).
Proof.
  apply existing_parent_sees; [|done]. intros h Hd Hh. eapply sees_bind; [apply directory_identity_sees|].
  intros id ->. apply sees_ret. intros id [= <-]. by rewrite <- Hd.
Qed.

(** ** Planning directories *)
Lemma admit_sees budget p :
  budget_ok budget → sees (dlift (admit_directory budget p)) budget_ok (λ _, True).
Proof.
  intros Hb w Hw. destruct (admit_directory_ok budget p Hb) as [Hn Hok]. apply wp_lift; auto.
Qed.

(** The directories of a path with a missing one in front. *)
Lemma plan_missing budget planned base names :
  budget_ok budget →
  sees (plan_components errno_text budget None planned (steps base names))
    (λ r, budget_ok r.1.1 ∧ r.1.2 = None ∧ planned ⊆ r.2 ∧
       ∀ q l, names = q ++ l → q ≠ [] → l ≠ [] → join_slash (base ++ q) ∈ r.2) (λ _, True).
Proof.
  revert budget planned base. induction names as [|n names IH]; intros budget planned base Hb; cbn [steps].
  - apply sees_ret. split_and!; [done|done|done|]. by intros [] ? [=] ?.
  - case_bool_decide as Hnil; cbn [plan_components].
    + apply sees_ret. split_and!; [done|done|done|]. intros q l Heq Hq Hl. destruct q as [|n' q]; [done|].
      injection Heq as <- Heq. subst names. by apply eq_sym, app_eq_nil in Heq as [-> ->].
    + eapply sees_bind; [by apply (sees_ret (E := EngineFailure) None (λ o, o = None))|]. intros ? ->.
      eapply sees_bind; [by apply admit_sees|]. intros b' Hb'.
      eapply sees_mono; [by apply IH| |done]. intros [[b h] pl] (Hb2 & Hh & Hsub & Hall). cbn in *.
      split_and!; [done|done|set_solver|]. intros q l Heq Hq Hl. destruct q as [|n' q]; [done|]. injection Heq as <- ->. 
      destruct q as [|m q]; [apply Hsub; set_solver|].
      specialize (Hall (m :: q) l eq_refl). rewrite <- (assoc app) in Hall. by apply Hall.
Qed.

Lemma plan_components_sees budget h planned names :
  budget_ok budget → handle_ok h → tree_ok (nodes w0) →
  sees (plan_components errno_text budget (Some h) planned (steps (dir h) names))
    (λ r, budget_ok r.1.1 ∧ planned ⊆ r.2 ∧
       (∀ h', r.1.2 = Some h' → names ≠ [] → dir h' = dir h ++ removelast names ∧ handle_ok h') ∧
       ∀ q l, names = q ++ l → q ≠ [] → l ≠ [] →
         (∃ id, nodes w0 !! (dir h ++ q) = Some (Directory id)) ∨
         (nodes w0 !! (dir h ++ q) = None ∧ join_slash (dir h ++ q) ∈ r.2)) (λ _, True).
Proof.
  intros Hb Hh Ht. revert budget h planned Hb Hh.
  induction names as [|n names IH]; intros budget h planned Hb Hh; cbn [steps].
  - apply sees_ret. split_and!; [done|done|done|]. by intros [] ? [=] ?.
  - case_bool_decide as Hnil; cbn [plan_components].
    + subst names. apply sees_ret. split_and!; [done|done| |].
      * intros h' [= <-] _. cbn. by rewrite app_nil_r.
      * intros q l Heq Hq Hl. destruct q as [|n' q]; [done|].
        injection Heq as <- Heq. by apply eq_sym, app_eq_nil in Heq as [-> ->].
    + eapply sees_bind with (P := λ o, match o with
        | Some h' => dir h' = under h n ∧ nodes w0 !! under h n = Some (Directory (dir_identity h')) ∧ handle_ok h'
        | None => nodes w0 !! under h n = None end).
      { eapply sees_catch.
        - eapply sees_bind; [apply open_directory_sees|]. intros h' Hh'. by apply sees_ret.
        - intros e He. destruct e; try by apply sees_fail. apply sees_ret. auto. }
      intros [h'|] Ho.
      * destruct Ho as (Hd & Hn & Hh'). change (dir h ++ [n]) with (under h n). rewrite <- Hd.
        eapply sees_mono; [by apply IH| |done]. intros [[b h2] pl] (Hb2 & Hsub & Hid & Hall). cbn in *.
        assert (∀ q, dir h' ++ q = dir h ++ n :: q) as Hdir by (intros q; rewrite Hd; unfold under; by rewrite <- (assoc app)).
        split_and!; [done|done| |].
        -- intros h3 -> _. destruct (Hid h3 eq_refl Hnil) as [-> ?]. rewrite Hdir. by destruct names.
        -- intros q l Heq Hq Hl. destruct q as [|n' q]; [done|]. injection Heq as <- ->. rewrite <- Hdir. destruct q as [|m q]; [|by apply (Hall (m :: q) l)].
           left. rewrite app_nil_r, Hd. by eexists.
      * eapply sees_bind; [by apply admit_sees|]. intros b' Hb'.
        eapply sees_mono; [by apply plan_missing| |done]. intros [[b h2] pl] (Hb2 & -> & Hsub & Hall). cbn in *.
        split_and!; [done|set_solver|done|]. intros q l Heq Hq Hl. destruct q as [|n' q]; [done|]. injection Heq as <- ->. right.
        change (dir h ++ n :: q) with (dir h ++ [n] ++ q). rewrite (assoc app). split.
        -- apply tree_ok_missing; [done| |exact Ho]. unfold under. by destruct (dir h).
        -- destruct q as [|m q]; [rewrite app_nil_r; apply Hsub; set_solver|]. by apply (Hall (m :: q) l).
Qed.

Lemma parent_plan_sees p d :
  safe p → budget_ok d → tree_ok (nodes w0) →
  sees (parent_plan errno_text p d)
    (λ r, budget_ok r.1 ∧ (∀ id, r.2.1 = Some id → identity_of w0 (parents p) = Some id) ∧
       ready (Some r.2.2) (nodes w0) (parents p)) (λ _, True).
Proof.
  intros Hp Hb Ht. unfold parent_plan.
  eapply sees_bind; [eapply sees_mono; [apply clone_root_sees|intros h Hh; exact Hh|done]|]. intros h ->.
  rewrite zip_parents by done. eapply sees_bind; [by apply (plan_components_sees d {| dir := []; dir_identity := _ |})|].
  intros [[d' h'] planned] (Hb' & _ & Hid & Hall). cbn in *.
  destruct (safe_components p Hp) as (Hne & _ & _).
  assert (ready (Some planned) (nodes w0) (parents p)) as Hready.
  { intros r l Heq Hr. destruct (Hall r (l ++ [name p])) as [Hr'|[Hn Hin]]; [|done| |by left|right; eauto].
    - rewrite (components_snoc p Hne), Heq. by rewrite <- (assoc app).
    - by destruct l. }
  destruct h' as [h'|]; [|by apply sees_ret]. destruct (Hid h' eq_refl Hne) as [Hd Hh].
  eapply sees_bind; [apply directory_identity_sees|]. intros id ->. apply sees_ret. split_and!; [done| |done].
  intros id [= <-]. cbn in Hd. unfold parents. by rewrite <- Hd.
Qed.
End reads.
