(* ===== verification/PatchSuccess.v ===== *)
(** * A patch on a workspace that is left alone

    Without failing calls and other processes, a patch that passes its preflight is applied
    completely and does to the files what its operations say, provided that no path of the
    patch is a directory of another one. *)

From S2P Require Import Prelude Text PatchCommon PatchUpdate PatchParser PatchDisk PatchDiskRules PatchApply.
From S2P Require Import PatchCommit PatchPreflight PatchQuiet PatchReads.
Local Open Scope disk_scope.

(** ** What the operations of a patch mean *)
Notation files := (gmap (list text) (Bytes * Z)).
Definition file_of (n : Node) : option (Bytes * Z) :=
  match n with Regular b m _ => Some (b, m) | _ => None end.
Definition files_of (t : tree) : files := omap file_of t.

Definition run_operation (new_mode : Z) (fz : list PatchFuzzyMatch) (i : nat) (o : ParsedOperation) (f : files) :
  option (files * list PatchFuzzyMatch) :=
  match o with
  | PAdd p t =>
      match f !! components p with
      | None => Some (<[components p := (Utf8 t, new_mode)]> f, fz)
      | Some _ => None
      end
  | PDelete p =>
      match f !! components p with
      | Some _ => Some (delete (components p) f, fz)
      | None => None
      end
  | PUpdate p destination chunks =>
      match f !! components p with
      | Some (Utf8 t, m) =>
          match derive_update t p chunks i fz, destination with
          | Ok (out, fz'), None => Some (<[components p := (Utf8 out, m)]> f, fz')
          | Ok (out, fz'), Some d =>
              match f !! components d with
              | None => Some (<[components d := (Utf8 out, m)]> (delete (components p) f), fz')
              | Some _ => None
              end
          | _, _ => None
          end
      | _ => None
      end
  end.
Fixpoint run_operations (new_mode : Z) (fz : list PatchFuzzyMatch) (i : nat) (os : list ParsedOperation) (f : files) :
  option (files * list PatchFuzzyMatch) :=
  match os with
  | [] => Some (f, fz)
  | o :: rest =>
      match run_operation new_mode fz i o f with
      | Some (f', fz') => run_operations new_mode fz' (S i) rest f'
      | None => None
      end
  end.

(** The paths of an operation, and when those of a patch do not meet. *)
Definition paths_of (o : ParsedOperation) : list SafePath :=
  match o with
  | PAdd p _ | PDelete p | PUpdate p None _ => [p]
  | PUpdate p (Some d) _ => [p; d]
  end.
Definition independent (ps : list SafePath) : Prop :=
  ∀ p q l, p ∈ ps → q ∈ ps → components q = components p ++ l → l = [].
(** No name is that of a temporary file. *)
Definition no_temporary (pid : Z) (ps : list SafePath) : Prop :=
  ∀ p n i, p ∈ ps → n ∈ components p → n ≠ temporary_name pid i.

Lemma files_of_lookup t q : files_of t !! q = t !! q ≫= file_of.
Proof. apply lookup_omap. Qed.
Lemma files_of_insert t q b m id : files_of (<[q := Regular b m id]> t) = <[q := (b, m)]> (files_of t).
Proof. by apply omap_insert_Some. Qed.
Lemma files_of_delete t q : files_of (delete q t) = delete q (files_of t).
Proof. apply omap_delete. Qed.
Lemma files_of_grown ds t t' : grown_at [] ds t t' → files_of t' = files_of t.
Proof.
  intros Hg. apply map_eq. intros q. rewrite !files_of_lookup. destruct (Hg q) as [->|(-> & [id ->] & _)]; done.
Qed.

Section success.
Context (errno_text : Errno → text) (response_len : PatchHelperResponse → Z).
Context (w0 : World) (ps : list SafePath).
Context (Hsafe : Forall safe ps) (Hindep : independent ps) (Htemp : no_temporary (process w0) ps).
Context (Htree : tree_ok (nodes w0)).

(** ** What the preflight believes and what the tree is *)
Definition shows (c : option VirtualContent) (n : option Node) : Prop :=
  match c with
  | None => n = None
  | Some v => ∃ id, n = Some (Regular (bytes v) (mode v) id) ∧
      (identity v = None ∨ identity v = Some id) ∧ bytes_len (bytes v) ≤ MAXIMUM_PATCH_FILE_BYTES
  end.
Notation virtuals := (gmap SafePath (option VirtualContent)).

Record agrees (v : virtuals) (w : World) : Prop := {
  agrees_quiet : quiet_as w0 w;
  agrees_tree : tree_ok (nodes w);
  agrees_clean : clean (process w0) (nodes w);
  agrees_directory d id : nodes w0 !! d = Some (Directory id) → nodes w !! d = Some (Directory id);
  agrees_content p : p ∈ ps →
    match v !! p with Some c => shows c (nodes w !! place p) | None => nodes w !! place p = nodes w0 !! place p end;
  agrees_parents p r l : p ∈ ps → parents p = r ++ l → r ≠ [] →
    nodes w !! r = nodes w0 !! r ∨ (nodes w0 !! r = None ∧ ∃ id, nodes w !! r = Some (Directory id))
}.

Lemma place_in p : p ∈ ps → place p = components p.
Proof. intros Hp. apply place_components. by apply (proj1 (Forall_forall _ _) Hsafe). Qed.
Lemma place_inj p q : p ∈ ps → q ∈ ps → place p = place q → p = q.
Proof.
  intros Hp Hq. rewrite !place_in by done. apply safe_inj; by apply (proj1 (Forall_forall _ _) Hsafe).
Qed.
(** No path is a directory of a path. *)
Lemma place_parent p q r l : p ∈ ps → q ∈ ps → parents q = r ++ l → r ≠ place p.
Proof.
  intros Hp Hq Heq ->. assert (l ++ [name q] = []) as [_ ?]%app_eq_nil; [|done].
  apply (Hindep p q); [done|done|]. rewrite <- !place_in by done. unfold place at 1. by rewrite Heq, <- (assoc app).
Qed.
Lemma place_names p : p ∈ ps → Forall (λ n, ∀ i, n ≠ temporary_name (process w0) i) (place p).
Proof. intros Hp. apply Forall_forall. intros n Hn i. rewrite place_in in Hn by done. by eapply Htemp. Qed.

(** ** Trees *)
Lemma grown_tree ds t t' : grown_at [] ds t t' → ready None t' ds → tree_ok t → tree_ok t'.
Proof.
  intros Hg Hr Ht d n x Hx Hd. destruct (Hg (d ++ [n])) as [Heq|(_ & _ & r & l & Hq & -> & _)].
  - rewrite Heq in Hx. destruct (Ht d n x Hx Hd) as [id Hid].
    destruct (Hg d) as [->|(Hn & _)]; [by eexists|congruence].
  - cbn in Hq. subst r. destruct (Hr d ([n] ++ l)) as [?|(_ & ? & ? & _)]; [by rewrite (assoc app)|done|done|done].
Qed.
Lemma insert_tree t p x :
  tree_ok t → ready None t (parents p) → (∀ id, t !! place p ≠ Some (Directory id)) →
  tree_ok (<[place p := x]> t).
Proof.
  intros Ht Hr Hp d n y Hy Hd. destruct (decide (d = place p)) as [->|Hne].
  - exfalso. rewrite lookup_insert_ne in Hy 
      by (intros Heq%(f_equal length); rewrite length_app in Heq; cbn in Heq; lia).
    destruct (Ht _ _ _ Hy) as [id Hid]; [|by eapply Hp]. unfold place. by intros [_ ?]%app_eq_nil.
  - rewrite lookup_insert_ne by done. destruct (decide (d ++ [n] = place p)) as [Heq|Hne'].
    + unfold place in Heq. apply app_inj_tail in Heq as [-> _].
      destruct (Hr (parents p) []) as [?|(_ & ? & ? & _)]; [by rewrite app_nil_r|done|done|done].
    + rewrite lookup_insert_ne in Hy by done. by eapply Ht.
Qed.
Lemma delete_tree t p b m id : tree_ok t → t !! place p = Some (Regular b m id) → tree_ok (delete (place p) t).
Proof.
  intros Ht Hp d n x Hx Hd. apply lookup_delete_Some in Hx as [Hne Hx]. destruct (Ht d n x Hx Hd) as [i Hi].
  exists i. rewrite lookup_delete_ne; [done|]. intros <-. congruence.
Qed.

(** ** The agreement after a write and after a deletion *)
Lemma agrees_write v w w' p c m id t :
  agrees v w → p ∈ ps → quiet_as w w' → grown_at [] (parents p) (nodes w) t → ready None t (parents p) →
  nodes w' = <[place p := Regular c m id]> t → bytes_len c ≤ MAXIMUM_PATCH_FILE_BYTES →
  (∀ i, nodes w !! place p ≠ Some (Directory i)) →
  agrees (<[p := Some {| bytes := c; mode := m; identity := None |}]> v) w'.
Proof.
  intros [Hq Ht Hc Hd Hv Hpar] Hp Hq' Hg Hr Hn Hlen Hnd.
  assert (∀ q, q ∈ ps → t !! place q = nodes w !! place q) as Hplace.
  { intros q Hin. destruct (Hg (place q)) as [?|(_ & _ & r & l & Heq & Hl & _)]; [done|].
    cbn in Heq. subst r. by destruct (place_parent q p (place q) l Hin Hp Hl). }
  split; rewrite ?Hn.
  - destruct Hq as (? & ? & ?), Hq' as (? & ? & ?). split_and!; congruence.
  - apply insert_tree; [by eapply grown_tree|done|]. intros i. rewrite Hplace by done. apply Hnd.
  - intros d n. pose proof (place_names p Hp) as [Hnames [Hname _]%Forall_cons]%Forall_app.
    rewrite lookup_insert_ne; [by eapply grown_clean|]. intros [_ Heq]%app_inj_tail. by apply (Hname n).
  - intros d i Hi%Hd. rewrite lookup_insert_ne by (intros <-; by eapply Hnd).
    destruct (Hg d) as [->|[? _]]; [done|congruence].
  - intros q Hin. destruct (decide (p = q)) as [<-|Hne].
    + rewrite !lookup_insert_eq. exists id. split_and!; [done|by left|done].
    + rewrite !lookup_insert_ne by (done || (intros Hx; by apply place_inj in Hx)). rewrite Hplace by done. by apply Hv.
  - intros q r l Hin Heq Hne. rewrite lookup_insert_ne by (apply not_eq_sym; by eapply (place_parent p q r l)).
    destruct (Hpar q r l Hin Heq Hne) as [Hx|[Hx [i Hi]]];
      destruct (Hg r) as [Hy|(Hy & Hz & _)]; rewrite ?Hy; try (by left); try (right; split; [|by eauto]); congruence.
Qed.

Lemma agrees_delete v w w' p b m id :
  agrees v w → p ∈ ps → quiet_as w w' → nodes w !! place p = Some (Regular b m id) →
  nodes w' = delete (place p) (nodes w) → agrees (<[p := None]> v) w'.
Proof.
  intros [Hq Ht Hc Hd Hv Hpar] Hp Hq' Hx Hn. split; rewrite ?Hn.
  - destruct Hq as (? & ? & ?), Hq' as (? & ? & ?). split_and!; congruence.
  - by eapply delete_tree.
  - intros d n. apply lookup_delete_None. right. apply Hc.
  - intros d i Hi%Hd. rewrite lookup_delete_ne; [done|]. intros <-. congruence.
  - intros q Hin. destruct (decide (p = q)) as [<-|Hne].
    + by rewrite lookup_insert_eq, lookup_delete_eq.
    + rewrite lookup_insert_ne, lookup_delete_ne by (done || (intros Hy; by apply place_inj in Hy)). by apply Hv.
  - intros q r l Hin Heq Hne. rewrite lookup_delete_ne by (apply not_eq_sym; by eapply (place_parent p q r l)). by eapply Hpar.
Qed.

(** ** What is prepared *)
Definition learns (v : virtuals) (p : SafePath) (c : option VirtualContent) (v' : virtuals) : Prop :=
  (v !! p = Some c ∧ v' = v) ∨ (v !! p = None ∧ v' = <[p := c]> v ∧ reads_node c (nodes w0 !! place p)).
Definition parent_known (p : SafePath) (o : option Identity) : Prop :=
  ∀ id, o = Some id → identity_of w0 (parents p) = Some id.
Definition published (t : text) (m : Z) : option VirtualContent :=
  Some {| bytes := Utf8 t; mode := m; identity := None |}.

Inductive prepares (new_mode : Z) (i : nat) (v : virtuals) (fz : list PatchFuzzyMatch) :
  ParsedOperation → virtuals → list PatchFuzzyMatch → PreparedOperation → Prop :=
| prepares_add p t v1 id planned :
    learns v p None v1 → text_len t ≤ MAXIMUM_PATCH_FILE_BYTES → parent_known p id →
    ready (Some planned) (nodes w0) (parents p) →
    prepares new_mode i v fz (PAdd p t) (<[p := published t new_mode]> v1) fz
      {| index := i; path := p; expected := None; prepared_mode := None; prepared_identity := None;
         parent := id; publish_mode := Some new_mode; content := Some (Utf8 t);
         prepared_kind := PrepareAdd; move_path := None; prospective_directories := planned |}
| prepares_delete p c v1 id :
    learns v p (Some c) v1 → parent_known p id →
    prepares new_mode i v fz (PDelete p) (<[p := None]> v1) fz
      {| index := i; path := p; expected := Some (bytes c); prepared_mode := Some (mode c);
         prepared_identity := identity c; parent := id; publish_mode := None; content := None;
         prepared_kind := PrepareDelete; move_path := None; prospective_directories := [] |}
| prepares_update p chunks c t out fz' v1 id :
    learns v p (Some c) v1 → bytes c = Utf8 t → derive_update t p chunks i fz = Ok (out, fz') →
    text_len out ≤ MAXIMUM_PATCH_FILE_BYTES → parent_known p id →
    prepares new_mode i v fz (PUpdate p None chunks) (<[p := published out (mode c)]> v1) fz'
      {| index := i; path := p; expected := Some (bytes c); prepared_mode := Some (mode c);
         prepared_identity := identity c; parent := id; publish_mode := Some (mode c);
         content := Some (Utf8 out); prepared_kind := PrepareUpdate; move_path := None;
         prospective_directories := [] |}
| prepares_move p d chunks c t out fz' v1 v2 id id' planned :
    learns v p (Some c) v1 → bytes c = Utf8 t → derive_update t p chunks i fz = Ok (out, fz') →
    text_len out ≤ MAXIMUM_PATCH_FILE_BYTES → parent_known p id → d ≠ p → learns v1 d None v2 →
    parent_known d id' → ready (Some planned) (nodes w0) (parents d) →
    prepares new_mode i v fz (PUpdate p (Some d) chunks) (<[d := published out (mode c)]> (<[p := None]> v2)) fz'
      {| index := i; path := p; expected := Some (bytes c); prepared_mode := Some (mode c);
         prepared_identity := identity c; parent := id; publish_mode := Some (mode c);
         content := Some (Utf8 out); prepared_kind := PrepareMove id'; move_path := Some d;
         prospective_directories := planned |}.

Inductive prepares_all (new_mode : Z) : nat → virtuals → list PatchFuzzyMatch → list ParsedOperation →
  list PatchFuzzyMatch → list PreparedOperation → Prop :=
| prepares_nil i v fz : prepares_all new_mode i v fz [] fz []
| prepares_cons i v fz o os v1 fz1 fz2 r rs :
    prepares new_mode i v fz o v1 fz1 r → prepares_all new_mode (S i) v1 fz1 os fz2 rs →
    prepares_all new_mode i v fz (o :: os) fz2 (r :: rs).

Lemma learns_agrees v p c v' w :
  p ∈ ps → agrees v w → learns v p c v' → agrees v' w ∧ shows c (nodes w !! place p).
Proof.
  intros Hp Ha [[Hv ->]|(Hv & -> & Hc)].
  - split; [done|]. pose proof (agrees_content _ _ Ha p Hp) as Hx. by rewrite Hv in Hx.
  - pose proof (agrees_content _ _ Ha p Hp) as Hx. rewrite Hv in Hx.
    assert (shows c (nodes w !! place p)) as Hs.
    { rewrite Hx. destruct c as [[b m o]|]; cbn in *; [|done]. destruct Hc as [Hc Hlen].
      unfold content_at in Hc. repeat case_match; simplify_eq. exists id. auto. }
    split; [|done]. destruct Ha as [H1 H2 H3 H4 H5 H6]. split; try done. intros q Hq.
    destruct (decide (p = q)) as [<-|Hne]; [by rewrite lookup_insert_eq|]. rewrite lookup_insert_ne by done. by apply H5.
Qed.
Lemma parent_known_now v w p o :
  agrees v w → parent_known p o → ∀ id, o = Some id → identity_of w (parents p) = Some id.
Proof.
  intros Ha Hk id Hid%Hk. destruct (agrees_quiet _ _ Ha) as (_ & _ & Hr). unfold identity_of in *.
  destruct (parents p) as [|n ns]; [by rewrite Hr|]. destruct (nodes w0 !! (n :: ns)) as [[i| | |]|] eqn:Hx; simplify_eq.
  by rewrite (agrees_directory _ _ Ha (n :: ns) id).
Qed.
Lemma ready_now v w p planned :
  p ∈ ps → agrees v w → ready (Some planned) (nodes w0) (parents p) → ready (Some planned) (nodes w) (parents p).
Proof.
  intros Hp Ha Hr r l Heq Hne. destruct (agrees_parents _ _ Ha p r l Hp Heq Hne) as [->|[_ ?]]; [by eapply Hr|by left].
Qed.
Lemma tree_ok_prefix t r l x :
  tree_ok t → t !! (r ++ l) = Some x → r ≠ [] → l ≠ [] → ∃ id, t !! r = Some (Directory id).
Proof.
  intros Ht. revert x. induction l as [|n l IH] using rev_ind; intros x Hx Hr Hl; [done|].
  rewrite (assoc app) in Hx. destruct (Ht _ _ _ Hx) as [id Hid]; [by destruct r|].
  destruct (decide (l = [])) as [->|Hne]; [rewrite app_nil_r in Hid; by eexists|by eapply IH].
Qed.
Lemma ready_present t p b m id : tree_ok t → t !! place p = Some (Regular b m id) → ready None t (parents p).
Proof.
  intros Ht Hp r l Heq Hne. left. apply (tree_ok_prefix t r (l ++ [name p]) (Regular b m id)); [done| |done|by destruct l].
  unfold place in Hp. by rewrite Heq, <- (assoc app) in Hp.
Qed.

(** ** Performing a prepared operation *)
Lemma publish_quiet o p e k before creation v w c m :
  agrees v w → p ∈ ps → content o = Some c → publish_mode o = Some m → bytes_len c ≤ MAXIMUM_PATCH_FILE_BYTES →
  ready creation (nodes w) (parents p) →
  (∀ id, expected_parent e = Some id → identity_of w (parents p) = Some id) →
  matches e (nodes w !! place p) →
  ∃ w' es, publish errno_text o p e k before creation w = (w', es, Ok tt) ∧
    agrees (<[p := Some {| bytes := c; mode := m; identity := None |}]> v) w' ∧
    files_of (nodes w') = <[components p := (c, m)]> (files_of (nodes w)).
Proof.
  intros Ha Hp Hc Hm Hlen Hr He Hx. unfold publish. rewrite Hc, Hm.
  pose proof (agrees_quiet _ _ Ha) as (Hf & Hpid & Hroot).
  pose proof (atomic_write_quiet errno_text p e c m creation (set_created w []) Hf Hr) as Hwp.
  cbn in Hwp. rewrite Hpid in Hwp. specialize (Hwp (agrees_clean _ _ Ha) (place_names p Hp) He Hx). unfold wp in Hwp.
  destruct (atomic_write _ _ _ _ _ _ _) as [w' [[]|f|]]; [|done|done].
  destruct Hwp as (Hq & t & id & Hg & Hready & Hn). eexists w', _. split; [done|].
  assert (∀ i, nodes w !! place p ≠ Some (Directory i)) as Hnd.
  { intros i Hi. unfold matches in Hx. destruct (expected_bytes e); [destruct Hx as (? & ? & ? & _)|destruct Hx]; congruence. }
  split; [by eapply agrees_write|].
  rewrite Hn, files_of_insert. by rewrite (files_of_grown _ _ _ Hg), place_in.
Qed.

Lemma shows_matches o c n :
  shows (Some c) n → expected o = Some (bytes c) → prepared_mode o = Some (mode c) →
  prepared_identity o = identity c → matches (expectation o) n.
Proof.
  intros (id & -> & Hid & Hlen) Hb Hm Hi. unfold matches. cbn. rewrite Hb, Hm, Hi. exists (mode c), id. done.
Qed.

Lemma removal_quiet o k v w c :
  agrees v w → path o ∈ ps → v !! path o = Some (Some c) → expected o = Some (bytes c) →
  prepared_mode o = Some (mode c) → prepared_identity o = identity c → parent_known (path o) (parent o) →
  ∃ w' es, removal errno_text o k w = (w', es, Ok tt) ∧ agrees (<[path o := None]> v) w' ∧
    files_of (nodes w') = delete (components (path o)) (files_of (nodes w)).
Proof.
  intros Ha Hp Hv Hb Hm Hi Hk. unfold removal.
  pose proof (agrees_content _ _ Ha _ Hp) as Hs. rewrite Hv in Hs.
  pose proof (shows_matches o c _ Hs Hb Hm Hi) as Hx. destruct Hs as (id & Hn & _).
  pose proof (remove_quiet errno_text (path o) (expectation o) w (proj1 (agrees_quiet _ _ Ha))
    (ready_present _ _ _ _ _ (agrees_tree _ _ Ha) Hn) (parent_known_now _ _ _ _ Ha Hk) Hx (mk_is_Some _ _ Hb)) as Hwp.
  unfold wp in Hwp. destruct (remove _ _ _ w) as [w' [[]|f|]]; [|done|done]. destruct Hwp as [Hq Hn'].
  eexists w', _. split; [done|]. split; [by eapply agrees_delete|].
  by rewrite Hn', files_of_delete, place_in.
Qed.

Lemma absent_matches id n : n = None → matches (absent id) n.
Proof. done. Qed.
Lemma ready_creation creation t p : ready None t (parents p) → ready creation t (parents p).
Proof. intros Hr r l Heq Hne. destruct (Hr r l Heq Hne) as [?|(_ & ? & ? & _)]; [by left|done]. Qed.
Lemma shows_file c n : shows (Some c) n → n ≫= file_of = Some (bytes c, mode c).
Proof. by intros (id & -> & _). Qed.

Lemma commit_operation_quiet new_mode i v fz o v' fz' r w :
  prepares new_mode i v fz o v' fz' r → Forall (λ p, p ∈ ps) (paths_of o) → agrees v w →
  ∃ w' es, commit_operation errno_text r w = (w', es, Ok tt) ∧ agrees v' w' ∧
    run_operation new_mode fz i o (files_of (nodes w)) = Some (files_of (nodes w'), fz').
Proof.
  intros Hprep Hps Ha. destruct Hprep as [p t v1 id planned Hl Hlen Hk Hr|p c v1 id Hl Hk
    |p chunks c t out fz' v1 id Hl Hb Hd Hlen Hk|p d chunks c t out fz' v1 v2 id id' planned Hl Hb Hd Hlen Hk Hne Hl2 Hk2 Hr];
    cbn [paths_of] in Hps; apply Forall_cons in Hps as [Hp Hps]; destruct (learns_agrees _ _ _ _ _ Hp Ha Hl) as [Ha1 Hs];
    match goal with |- context [commit_operation _ ?x _] => set (prep := x) end;
    pose proof (place_in p Hp) as Hplace; cbn [run_operation]; rewrite files_of_lookup, <- Hplace.
  - destruct (publish_quiet prep p (expectation prep) EffectAdd None (Some planned) v1 w (Utf8 t) new_mode)
      as (w' & es & Hpub & Ha' & Hf); try done; [by eapply ready_now|by eapply parent_known_now|].
    exists w', es. split_and!; [exact Hpub|exact Ha'|]. cbn in Hs. by rewrite Hs, Hf, Hplace.
  - assert (v1 !! p = Some (Some c)) as Hv by (destruct Hl as [[? ->]|(_ & -> & _)]; [done|apply lookup_insert_eq]).
    destruct (removal_quiet prep EffectDelete v1 w c) as (w' & es & Hrem & Ha' & Hf); try done.
    exists w', es. split_and!; [exact Hrem|exact Ha'|]. by rewrite (shows_file _ _ Hs), Hf, Hplace.
  - pose proof (shows_matches prep c _ Hs eq_refl eq_refl eq_refl) as Hx.
    destruct Hs as (ident & Hn & Hs).
    destruct (publish_quiet prep p (expectation prep) EffectUpdate (bytes_len <$> expected prep) None v1 w (Utf8 out) (mode c))
      as (w' & es & Hpub & Ha' & Hf); try done;
      [eapply ready_present; [apply (agrees_tree _ _ Ha)|done]|by eapply parent_known_now|].
    exists w', es. split_and!; [exact Hpub|exact Ha'|]. rewrite Hn. cbn. by rewrite Hb, Hd, Hf, Hplace.
  - apply Forall_cons in Hps as [Hpd _]. destruct (learns_agrees _ _ _ _ _ Hpd Ha1 Hl2) as [Ha2 Hs2].
    destruct (publish_quiet prep d (absent id') MoveWrite None (Some planned) v2 w (Utf8 out) (mode c))
      as (w1 & es & Hpub & Ha' & Hf); try done; [by eapply ready_now|by eapply parent_known_now|].
    assert (v2 !! p = Some (Some c)) as Hv.
    { assert (v1 !! p = Some (Some c)) by (destruct Hl as [[? ->]|(_ & -> & _)]; [done|apply lookup_insert_eq]).
      destruct Hl2 as [[? ->]|(_ & -> & _)]; [done|by rewrite lookup_insert_ne]. }
    destruct (removal_quiet prep MoveDelete (<[d := published out (mode c)]> v2) w1 c) as (w2 & es2 & Hrem & Ha2' & Hf2);
      try done; [by cbn; rewrite lookup_insert_ne|].
    exists w2, (es ++ es2). unfold commit_operation.
    change (prepared_kind prep) with (PrepareMove id'). change (move_path prep) with (Some d).
    change (prospective_directories prep) with planned. cbv beta iota.
    rewrite Hpub, Hrem, (insert_insert_ne v2 d p) by done. split_and!; [done|done|].
    rewrite (shows_file _ _ Hs). cbn. rewrite Hb, Hd, files_of_lookup, <- (place_in d), Hs2 by done.
    change (path prep) with p in Hf2. rewrite <- Hplace in Hf2. rewrite Hf2, Hf, <- (place_in d), delete_insert_ne by
      (done || (intros Hx; by apply place_inj in Hx)). done.
Qed.

Lemma commit_from_quiet new_mode i v fz os fz' rs w es fuzzy :
  prepares_all new_mode i v fz os fz' rs → Forall (λ p, p ∈ ps) (os ≫= paths_of) → agrees v w →
  ∃ w' r, commit_from errno_text (λ _ t, t) fuzzy es rs w = (w', Some r) ∧ status r = Applied ∧ response_fuzzy r = fuzzy ∧
    run_operations new_mode fz i os (files_of (nodes w)) = Some (files_of (nodes w'), fz').
Proof.
  intros Hall. revert w es. induction Hall as [|i v fz o os v1 fz1 fz2 r rs Hp Hall IH]; intros w es Hps Ha.
  - by eexists w, _.
  - rewrite bind_cons, Forall_app in Hps. destruct Hps as [Hps Hps'].
    destruct (commit_operation_quiet _ _ _ _ _ _ _ _ w Hp Hps Ha) as (w1 & es1 & Hc & Ha1 & Hrun).
    destruct (IH w1 (es ++ es1) Hps' Ha1) as (w2 & resp & Hc2 & Hst & Hfz & Hrun2).
    exists w2, resp. cbn [commit_from run_operations]. rewrite Hrun.
    assert (set_nodes w (nodes w) = w) as -> by by destruct w. by rewrite Hc.
Qed.

(** ** What the preflight establishes *)
Lemma located_sees {A} s i p (m : disk EngineFailure A) (Q : A → Prop) X :
  sees w0 m Q X → sees w0 (located s i p m) Q (λ _, True).
Proof. intros Hm. eapply sees_catch; [exact Hm|]. intros f _. by apply sees_fail. Qed.

Lemma virtual_content_sees s p i :
  preflight_ok s →
  sees w0 (virtual_content errno_text s p i)
    (λ r, preflight_ok r.1 ∧ fuzzy_matches r.1 = fuzzy_matches s ∧ learns (virtual_files s) p r.2 (virtual_files r.1))
    (λ _, True).
Proof.
  intros Hs. unfold virtual_content. destruct (virtual_files s !! p) as [c|] eqn:Hv.
  - apply sees_ret. split_and!; [done|done|by left].
  - eapply sees_bind; [eapply located_sees; by apply read_optional_sees|]. intros c Hc.
    apply sees_ret. split_and!; [done|done|by right].
Qed.
Lemma required_content_sees s p i missing :
  preflight_ok s →
  sees w0 (required_content errno_text s p i missing)
    (λ r, preflight_ok r.1 ∧ fuzzy_matches r.1 = fuzzy_matches s ∧
       learns (virtual_files s) p (Some r.2) (virtual_files r.1)) (λ _, True).
Proof.
  intros Hs. eapply sees_bind; [by apply virtual_content_sees|]. intros [s1 [c|]] Hr; [by apply sees_ret|by apply sees_fail].
Qed.
Lemma account_content_sees s n i p :
  preflight_ok s →
  sees w0 (account_content s n i p)
    (λ s', preflight_ok s' ∧ fuzzy_matches s' = fuzzy_matches s ∧ virtual_files s' = virtual_files s ∧
       n ≤ MAXIMUM_PATCH_FILE_BYTES) (λ _, True).
Proof.
  intros Hs. eapply sees_bind with (P := λ _, n ≤ MAXIMUM_PATCH_FILE_BYTES); [|intros t Ht; by apply sees_ret].
  eapply located_sees with (X := λ _, True). intros w Hw. unfold account.
  destruct (Z.ltb_spec MAXIMUM_PATCH_FILE_BYTES n); [by split|].
  unfold wp, dlift, obind, ok_or. by repeat case_match.
Qed.
Lemma plan_parent_sees s p i :
  preflight_ok s → safe p →
  sees w0 (plan_parent errno_text s p i)
    (λ r, preflight_ok r.1 ∧ fuzzy_matches r.1 = fuzzy_matches s ∧ virtual_files r.1 = virtual_files s ∧
       parent_known p r.2.1 ∧ ready (Some r.2.2) (nodes w0) (parents p)) (λ _, True).
Proof.
  intros Hs Hp. eapply sees_bind; [eapply located_sees; by apply parent_plan_sees|].
  intros [d [id planned]] (Hd & Hid & Hr). by apply sees_ret.
Qed.
Lemma parent_identity_known s p i :
  sees w0 (located s i p (parent_identity errno_text p)) (parent_known p) (λ _, True).
Proof. eapply located_sees, parent_identity_sees. Qed.

Lemma update_content_sees s t p chunks i :
  Forall chunk_ok chunks →
  sees w0 (dlift (update_content s t p chunks i))
    (λ r, derive_update t p chunks i (fuzzy_matches s) = Ok r) (λ _, True).
Proof.
  intros Hc w Hw. pose proof (update_content_no_panic s t p chunks i Hc) as Hn.
  apply wp_lift; [|done|done]. intros r Hr. unfold update_content in Hr.
  destruct (derive_update t p chunks i (fuzzy_matches s)); simplify_eq. done.
Qed.

Lemma prepare_update_target_sees s i p d out m :
  preflight_ok s → (∀ q, d = Some q → safe q) →
  sees w0 (prepare_update_target errno_text s i p d out m)
    (λ r, preflight_ok r.1 ∧ fuzzy_matches r.1 = fuzzy_matches s ∧
       match d with
       | None => r.2 = (PrepareUpdate, []) ∧ virtual_files r.1 = <[p := published out m]> (virtual_files s)
       | Some q => q ≠ p ∧ ∃ v2 id, learns (virtual_files s) q None v2 ∧ r.2.1 = PrepareMove id ∧
           parent_known q id ∧ ready (Some r.2.2) (nodes w0) (parents q) ∧
           virtual_files r.1 = <[q := published out m]> (<[p := None]> v2)
       end) (λ _, True).
Proof.
  intros Hs Hd. unfold prepare_update_target. destruct d as [q|]; [|by apply sees_ret].
  case_bool_decide as Hne; [by apply sees_fail|].
  eapply sees_bind; [by apply virtual_content_sees|]. intros [s1 [c|]] (Hs1 & Hf1 & Hl); [by apply sees_fail|].
  cbn [fst snd] in *. eapply sees_bind; [apply plan_parent_sees; [done|by apply Hd]|].
  intros [s2 [id planned]] (Hs2 & Hf2 & Hv2 & Hk & Hr). cbn in *. apply sees_ret. cbn. split_and!; [done|congruence|done|].
  exists (virtual_files s1), id. by rewrite Hv2.
Qed.

Lemma prepare_update_sees new_mode s i p d chunks :
  preflight_ok s → operation_ok (PUpdate p d chunks) →
  sees w0 (prepare_update errno_text s i p d chunks)
    (λ r, preflight_ok r.1 ∧ prepares new_mode i (virtual_files s) (fuzzy_matches s) (PUpdate p d chunks)
       (virtual_files r.1) (fuzzy_matches r.1) r.2) (λ _, True).
Proof.
  intros Hs (Hp & Hd & _ & Hch). unfold prepare_update.
  eapply sees_bind; [by apply required_content_sees|]. intros [s1 c] (Hs1 & Hf1 & Hl). cbn [fst snd] in *.
  eapply sees_bind; [by apply account_content_sees|]. intros s2 (Hs2 & Hf2 & Hv2 & _).
  destruct (bytes c) as [t|b] eqn:Hb; [|by apply sees_fail].
  eapply sees_bind; [by apply update_content_sees|]. intros [out fz] Hu. rewrite Hf2, Hf1 in Hu.
  eapply sees_bind; [by apply account_content_sees|]. intros s3 (Hs3 & Hf3 & Hv3 & Hlen). cbn in Hf3, Hv3.
  eapply sees_bind; [apply parent_identity_known|]. intros id Hid.
  eapply sees_bind; [by apply prepare_update_target_sees|]. intros [s4 [k planned]] (Hs4 & Hf4 & Hk).
  apply sees_ret. split; [done|]. cbn [fst snd] in *. rewrite Hf4, Hf3, <- Hb. rewrite Hv3, Hv2 in Hk. destruct d as [q|].
  - destruct Hk as (Hne & v2 & id' & Hl2 & -> & Hk2 & Hr & ->). by eapply prepares_move.
  - destruct Hk as [[= -> ->] ->]. by eapply prepares_update.
Qed.

Lemma prepare_operation_sees new_mode s i o :
  preflight_ok s → operation_ok o →
  sees w0 (prepare_operation errno_text new_mode s i o)
    (λ r, preflight_ok r.1 ∧
       prepares new_mode i (virtual_files s) (fuzzy_matches s) o (virtual_files r.1) (fuzzy_matches r.1) r.2) (λ _, True).
Proof.
  intros Hs Ho. destruct o as [p t|p d chunks|p]; [|by apply prepare_update_sees|]; cbn [prepare_operation].
  - eapply sees_bind; [by apply virtual_content_sees|]. intros [s1 [c|]] (Hs1 & Hf1 & Hl); [by apply sees_fail|].
    eapply sees_bind; [by apply account_content_sees|]. intros s2 (Hs2 & Hf2 & Hv2 & Hlen).
    eapply sees_bind; [apply plan_parent_sees; [done|apply Ho]|]. intros [s3 [id planned]] (Hs3 & Hf3 & Hv3 & Hk & Hr).
    cbn in *. apply sees_ret. split; [done|]. cbn. rewrite Hf3, Hf2, Hf1, Hv3, Hv2. by apply prepares_add.
  - eapply sees_bind; [by apply required_content_sees|]. intros [s1 c] (Hs1 & Hf1 & Hl).
    eapply sees_bind; [by apply account_content_sees|]. intros s2 (Hs2 & Hf2 & Hv2 & _).
    eapply sees_bind; [apply parent_identity_known|]. intros id Hid.
    cbn in *. apply sees_ret. split; [done|]. cbn. rewrite Hf2, Hf1, Hv2. by eapply prepares_delete.
Qed.

Lemma prepare_operations_sees new_mode s i os :
  preflight_ok s → Forall operation_ok os →
  sees w0 (prepare_operations errno_text new_mode s i os)
    (λ r, prepares_all new_mode i (virtual_files s) (fuzzy_matches s) os (fuzzy_matches r.1) r.2) (λ _, True).
Proof.
  intros Hs Hos. revert s i Hs. induction Hos as [|o os Ho Hos IH]; intros s i Hs; cbn [prepare_operations].
  - apply sees_ret. constructor.
  - eapply sees_bind; [by apply prepare_operation_sees|]. intros [s1 r] [Hs1 Hp].
    eapply sees_bind; [by apply IH|]. intros [s2 rs] Hrs. apply sees_ret. cbn in *. by econstructor.
Qed.

Lemma prepares_all_ok new_mode i v fz os fz' rs : prepares_all new_mode i v fz os fz' rs → Forall prepared_ok rs.
Proof.
  induction 1 as [|i v fz o os v1 fz1 fz2 r rs Hp _ IH]; constructor; [|done].
  unfold prepared_ok. destruct Hp; cbn; repeat split; eauto.
Qed.
Lemma preflight_sees new_mode os :
  Forall operation_ok os →
  sees w0 (preflight errno_text response_len new_mode os)
    (λ r, prepares_all new_mode 0 ∅ [] os r.2 r.1) (λ _, True).
Proof.
  intros Hos. unfold preflight. case_match; [by apply sees_fail|].
  eapply sees_bind; [apply prepare_operations_sees; [apply initial_ok|done]|]. intros [s rs] Hrs. cbn in Hrs.
  eapply sees_bind with (P := λ _, True); [|intros _ _; by apply sees_ret].
  eapply sees_catch with (Y := λ _, True); [|intros; by apply sees_fail].
  intros w Hw. apply wp_lift; [done|done|]. eapply validate_response_budget_ok, prepares_all_ok, Hrs.
Qed.
End success.

Lemma paths_safe os : Forall operation_ok os → Forall safe (os ≫= paths_of).
Proof.
  induction 1 as [|o os Ho _ IH]; [constructor|]. rewrite bind_cons, Forall_app. split; [|done].
  destruct o as [p t|p d chunks|p]; cbn in Ho.
  - apply Forall_singleton, Ho.
  - destruct Ho as (Hp & Hd & _). destruct d as [d|]; repeat (apply Forall_cons; split); auto.
  - by apply Forall_singleton.
Qed.
Lemma run_without_add m m' fz i os f :
  existsb is_add os = false → run_operations m fz i os f = run_operations m' fz i os f.
Proof.
  revert fz i f. induction os as [|o os IH]; intros fz i f; [done|]. cbn [existsb run_operations].
  intros [Ho Hos]%orb_false_iff. destruct o as [p t|p d chunks|p]; [done| |]; cbn [run_operation];
    repeat case_match; simplify_eq; auto.
Qed.

Lemma initial_agrees w :
  faults w = [] → tree_ok (nodes w) → clean (process w) (nodes w) → ∀ w1, same w w1 → faults w1 = [] →
  ∀ ps, agrees w ps ∅ w1.
Proof. intros Hf Ht Hc w1 [fs ->] Hf1 ps. split; try done. intros p r l _ _ _. by left. Qed.

Lemma preflight_commit_quiet errno_text response_len new_mode os w :
  Forall operation_ok os → faults w = [] → tree_ok (nodes w) → clean (process w) (nodes w) →
  independent (os ≫= paths_of) → no_temporary (process w) (os ≫= paths_of) →
  match preflight errno_text response_len new_mode os w with
  | (w1, Ok (prepared, fuzzy)) =>
      ∃ w' r, commit errno_text (λ _ t, t) fuzzy prepared w1 = (w', Some r) ∧ status r = Applied ∧
        run_operations new_mode [] 0 os (files_of (nodes w)) = Some (files_of (nodes w'), response_fuzzy r)
  | (w1, Err _) => nodes w1 = nodes w
  | (_, Panic) => False
  end.
Proof.
  intros Hos Hf Ht Hc Hind Htmp.
  pose proof (preflight_reads errno_text response_len new_mode os Hos w) as Hstill.
  pose proof (preflight_sees errno_text response_len w Ht new_mode os Hos w) as Hsees.
  unfold wp in *. destruct (preflight _ _ _ _ _) as [w1 [[prepared fuzzy]|f|]]; [|by apply still_nodes|done].
  destruct Hstill as [[Hs Hf1] _], Hsees as [_ Hall]; [reflexivity|]. cbn in Hall.
  destruct (commit_from_quiet errno_text w (os ≫= paths_of) (paths_safe os Hos) Hind Htmp new_mode 0 ∅ [] os fuzzy prepared
    w1 [] fuzzy Hall) as (w' & r & Hcm & Hst & Hfz & Hrun); [by apply Forall_forall|apply initial_agrees; auto|].
  exists w', r. rewrite Hfz, <- (same_nodes _ _ Hs). done.
Qed.

(** What a patch does to a workspace that is left alone. *)
Definition all_or_nothing (new_mode : Z) (os : list ParsedOperation) (t t' : tree) (r : PatchHelperResponse) : Prop :=
  (status r = Rejected ∧ t' = t) ∨
  (status r = Applied ∧ run_operations new_mode [] 0 os (files_of t) = Some (files_of t', response_fuzzy r)).

(** ** Properties *)

(** C19: on a workspace without failing calls and other processes a patch is applied
    completely or not at all. If no path of the patch is a directory of another one and no
    name is that of a temporary file, then either the patch is rejected and nothing changes,
    or every operation takes effect and the files afterwards, with their modes, are those of
    its operations run one after the other on the files before, updates by the splice of
    their hunks; the reported fuzzy matches are those of the hunks. *)
Theorem apply_patch_all_or_nothing errno_text response_len new_mode patch os w :
  parse_patch patch = Ok os → faults w = [] → tree_ok (nodes w) → clean (process w) (nodes w) →
  independent (os ≫= paths_of) → no_temporary (process w) (os ≫= paths_of) →
  ∃ w' r, apply_patch errno_text response_len (Ok new_mode) (λ _ t, t) patch w = (w', Some r) ∧
    all_or_nothing new_mode os (nodes w) (nodes w') r.
Proof.
  intros Hparse Hf Ht Hc Hind Htmp. unfold apply_patch. rewrite Hparse.
  assert (∀ (w' : World) f fz, nodes w' = nodes w → ∃ w'' r, (w', Some (rejected response_len f fz)) = (w'', Some r) ∧
    all_or_nothing new_mode os (nodes w) (nodes w'') r) as Hrej.
  { intros w' f fz Hn. eexists w', _. split; [done|]. left. split; [|done].
    unfold rejected. cbv zeta. by destruct (fits_capture _ _). }
  unfold dbind at 1, dlift. destruct (validate_patch_text patch) as [[]|f|] eqn:Hv; cbn [obind];
    [|by apply Hrej|by unfold validate_patch_text in Hv; repeat case_match].
  unfold dbind, open_root, described, dcatch. rewrite attempt_quiet by done. cbv beta iota.
  assert (Forall operation_ok os) as Hos by (destruct (parse_patch_accepts patch) as [_ Hok]; by apply Hok).
  assert (∀ m, run_operations m [] 0 os (files_of (nodes w)) = run_operations new_mode [] 0 os (files_of (nodes w)) →
    ∃ w' r, match preflight errno_text response_len m os w with
      | (w2, Ok (prepared, fuzzy)) => commit errno_text (λ _ t, t) fuzzy prepared w2
      | (w2, Err (f, fuzzy)) => (w2, Some (rejected response_len f fuzzy))
      | (w2, Panic) => (w2, None)
      end = (w', Some r) ∧ all_or_nothing new_mode os (nodes w) (nodes w') r) as Hgo.
  { intros m Hm. pose proof (preflight_commit_quiet errno_text response_len m os w Hos Hf Ht Hc Hind Htmp) as Hq.
    destruct (preflight _ _ _ _ _) as [w2 [[prepared fuzzy]|[f fz]|]]; [|by apply Hrej|done].
    destruct Hq as (w' & r & Hcm & Hst & Hrun). exists w', r. split; [done|]. right. by rewrite <- Hm. }
  destruct (existsb is_add os) eqn:Hadd; cbv beta iota delta [dret]; apply Hgo; [done|by apply run_without_add].
Qed.


(** ** An example *)
Definition example_patch : text := patch_lines
  ["*** Begin Patch"; "*** Add File: a/b"; "+x"; "*** Update File: f"; "*** Move to: a/g"; "@@"; "-old"; "+new";
   "*** End Patch"]%string.
Definition example_world : World :=
  {| root_identity := (1, 2);
     nodes := {[ [lit "f"] := Regular (Utf8 (patch_lines ["old"; "kept"]%string)) 384 (1, 9) ]};
     faults := []; next_inode := 10; created := []; process := 7; next_temp := 0 |}.
Definition example_operations : list ParsedOperation :=
  match parse_patch example_patch with Ok os => os | _ => [] end.
Definition example_paths : list SafePath :=
  [{| path_text := lit "a/b"; components := [lit "a"; lit "b"] |};
   {| path_text := lit "f"; components := [lit "f"] |};
   {| path_text := lit "a/g"; components := [lit "a"; lit "g"] |}].

Lemma example_tree : tree_ok (nodes example_world) ∧ clean 7 (nodes example_world).
Proof.
  cbn [nodes example_world]. split.
  - intros d n x Hx Hd. apply lookup_singleton_Some in Hx as [Heq _]. destruct d as [|m d]; [done|]. destruct d; discriminate Heq.
  - intros d n. apply lookup_singleton_None. intros Heq. destruct d as [|m d]; [|destruct d; discriminate Heq].
    cbn in Heq. discriminate Heq.
Qed.
Lemma example_independent : independent example_paths ∧ no_temporary 7 example_paths.
Proof.
  split.
  - intros p q l Hp Hq. unfold example_paths in *. rewrite !elem_of_cons, elem_of_nil in Hp, Hq.
    destruct Hp as [->|[->|[->|[]]]], Hq as [->|[->|[->|[]]]]; cbn; intros Heq; simplify_eq; done.
  - intros p n i Hp Hn ->. unfold example_paths in *. rewrite !elem_of_cons, elem_of_nil in Hp.
    destruct Hp as [->|[->|[->|[]]]]; cbn in Hn; rewrite ?elem_of_cons, elem_of_nil in Hn; naive_solver.
Qed.

Lemma apply_patch_all_or_nothing_witness :
  let run := apply_patch (λ _, []) (λ _, 0) (Ok DEFAULT_NEW_FILE_MODE) (λ _ t, t) example_patch example_world in
  (status <$> run.2, map_to_list (files_of (nodes run.1))) =
    (Some Applied, [([lit "a"; lit "g"], (Utf8 (patch_lines ["new"; "kept"]%string), 384));
                    ([lit "a"; lit "b"], (Utf8 (patch_lines ["x"]%string), 420))]) ∧
  ∃ w' r, run = (w', Some r) ∧
    all_or_nothing DEFAULT_NEW_FILE_MODE example_operations (nodes example_world) (nodes w') r.
Proof.
  intros run. split; [vm_compute; reflexivity|].
  assert (example_operations ≫= paths_of = example_paths) as Hpaths by (vm_compute; reflexivity).
  apply (apply_patch_all_or_nothing (λ _, []) (λ _, 0) DEFAULT_NEW_FILE_MODE example_patch example_operations example_world);
    [vm_compute; reflexivity|reflexivity|apply example_tree|apply example_tree|rewrite Hpaths; apply example_independent
    |rewrite Hpaths; apply example_independent].
Defined.
