(* ===== verification/TextMap.v ===== *)
(** * Ordered maps with text keys

    The model of [BTreeMap<String, V>]: a list of bindings in the order of their keys.
    Strings compare by their UTF-8 bytes, which is the order of their scalars.  The lemmas
    hold on lists with distinct keys, whatever their order. *)

From S2P Require Import Prelude Text.

Abbreviation tmap V := (list (text * V)).

Fixpoint text_ltb (a b : text) : bool :=
  match a, b with
  | _, [] => false
  | [], _ :: _ => true
  | x :: a, y :: b => (x <? y) || ((x =? y) && text_ltb a b)
  end.

Section textmap.
Context {V : Type}.
Implicit Types (m : tmap V) (k j : text) (v w : V).

Fixpoint tm_get k m : option V :=
  match m with
  | [] => None
  | (k', v) :: r => if bool_decide (k = k') then Some v else tm_get k r
  end.

Fixpoint tm_insert k v m : tmap V :=
  match m with
  | [] => [(k, v)]
  | (k', v') :: r =>
      if bool_decide (k = k') then (k, v) :: r
      else if text_ltb k k' then (k, v) :: m
      else (k', v') :: tm_insert k v r
  end.

Definition tm_contains k m : bool := bool_decide (is_Some (tm_get k m)).
Definition tm_remove k m : tmap V := filter (λ e, e.1 ≠ k) m.

(** Rust's [get_mut] followed by an assignment through the reference. *)
Definition tm_alter k (f : V → V) m : tmap V :=
  (λ e, if bool_decide (e.1 = k) then (e.1, f e.2) else e) <$> m.

Lemma tm_get_elem k v m : tm_get k m = Some v → (k, v) ∈ m.
Proof.
  induction m as [|[k' v'] m IH]; simpl; [done|]. case_bool_decide; [|right; auto].
  intros [= ->]. subst. left.
Qed.

Lemma tm_get_None k m : tm_get k m = None ↔ k ∉ m.*1.
Proof.
  induction m as [|[k' v'] m IH]; simpl; [set_solver|]. case_bool_decide; set_solver.
Qed.

Lemma tm_contains_keys k m : tm_contains k m = true ↔ k ∈ m.*1.
Proof.
  unfold tm_contains. rewrite bool_decide_eq_true, <-not_eq_None_Some, tm_get_None.
  destruct (decide (k ∈ m.*1)); tauto.
Qed.

Lemma tm_contains_false k m : tm_contains k m = false ↔ k ∉ m.*1.
Proof. rewrite <-tm_contains_keys. by destruct (tm_contains k m). Qed.

Lemma tm_elem_get k v m : NoDup m.*1 → (k, v) ∈ m → tm_get k m = Some v.
Proof.
  induction m as [|[k' v'] m IH]; simpl; [by intros _ ?%not_elem_of_nil|].
  intros [Hk Hnd]%NoDup_cons [[= -> ->]|Hin]%elem_of_cons.
  - by rewrite bool_decide_eq_true_2.
  - rewrite bool_decide_eq_false_2; [auto|]. intros ->.
    apply Hk. by apply (list_elem_of_fmap_2 fst) in Hin.
Qed.

Lemma tm_insert_perm k v m : tm_get k m = None → tm_insert k v m ≡ₚ (k, v) :: m.
Proof.
  induction m as [|[k' v'] m IH]; simpl; [done|]. case_bool_decide; [done|].
  intros Hn. destruct (text_ltb k k'); [done|]. rewrite IH by done. constructor.
Qed.

Lemma tm_get_insert k j v m :
  tm_get k m = None → tm_get j (tm_insert k v m) = if bool_decide (j = k) then Some v else tm_get j m.
Proof.
  induction m as [|[k' v'] m IH]; simpl; [done|].
  destruct (decide (k = k')) as [->|Hk].
  { by rewrite (bool_decide_eq_true_2 (k' = k')). }
  rewrite (bool_decide_eq_false_2 (k = k')) by done. intros Hn.
  destruct (text_ltb k k'); simpl; [done|]. rewrite IH by done.
  repeat case_bool_decide; by subst.
Qed.

Lemma tm_alter_keys k f m : (tm_alter k f m).*1 = m.*1.
Proof.
  unfold tm_alter. rewrite <-list_fmap_compose. apply list_fmap_ext. intros _ [k' v] _. simpl.
  by case_bool_decide.
Qed.

Lemma tm_get_alter k j f m :
  tm_get j (tm_alter k f m) = if bool_decide (j = k) then f <$> tm_get j m else tm_get j m.
Proof.
  induction m as [|[k' v'] m IH]; simpl; [by case_bool_decide|]. 
  fold (tm_alter k f m). case_bool_decide as E; simpl in *; subst; rewrite IH;
    repeat case_bool_decide; by subst.
Qed.

Lemma tm_get_remove k j m :
  tm_get j (tm_remove k m) = if bool_decide (j = k) then None else tm_get j m.
Proof.
  unfold tm_remove. induction m as [|[k' v'] m IH]; [simpl; by case_bool_decide|].
  rewrite filter_cons. cbn [fst].
  destruct (decide (k' ≠ k)) as [Hk|Hk%dec_stable]; cbn [tm_get]; rewrite IH;
    repeat case_bool_decide; subst; done.
Qed.
End textmap.
