(* ===== verification/ContextMessage.v ===== *)
(** * Messages of a language request

    [Message] and [MessageContent] of [crates/rsi-ai/protocol/src/semantic.rs], the media
    descriptors of [crates/rsi-media/protocol/src/lib.rs] they carry, their validation and
    the relations between Tool calls and Tool results that a language request demands
    ([LanguageRequest::validate_messages]).  An error is the code of the [SemanticError]
    ([MediaError] for a descriptor); the field path and the reason text are left out. *)

From S2P Require Import Prelude Text ToolOrigin.

Definition MAX_REQUEST_BYTES : Z := 16 * 1024 * 1024.
Definition MAX_MESSAGES : Z := 256.
Definition MAX_BLOCKS_PER_MESSAGE : Z := 256.
Definition MAX_LANGUAGE_MEDIA_OCCURRENCES : Z := 256.
Definition MAX_LANGUAGE_MEDIA_BYTES : Z := 256 * 1024 * 1024.

(** [validation::safe_text], whether it accepts. *)
Definition safe_text (value : text) (maximum_bytes : Z) (allow_empty : bool) : bool :=
  negb ((negb allow_empty && bool_decide (value = [])) || (maximum_bytes <? text_len value) ||
        existsb (λ c, (c =? 0) || (c =? 127)) value).

Definition ascii_alphanumeric (c : Z) : bool :=
  ((48 <=? c) && (c <=? 57)) || ((65 <=? c) && (c <=? 90)) || ((97 <=? c) && (c <=? 122)).

(** [validation::tool_name], whether it accepts. *)
Definition tool_name (value : text) : bool :=
  negb (bool_decide (value = []) || (MAX_ID_BYTES <? text_len value) ||
        negb (match value with
              | [] => true
              | c :: rest =>
                  ascii_alphanumeric c &&
                  forallb (λ c, ascii_alphanumeric c || ((c =? 46) || (c =? 95) || (c =? 45))) rest
              end)).

(** ** Media *)
Module Media.
Inductive MediaKind := Image | Audio.
#[global] Instance MediaKind_eq_dec : EqDecision MediaKind.
Proof. solve_decision. Defined.

Definition MAXIMUM_IMAGE_PIXELS : Z := 100000000.
Definition MAXIMUM_IMAGE_DESCRIPTOR_BYTES : Z := 32 * 1024 * 1024.
Definition MAXIMUM_AUDIO_DESCRIPTOR_BYTES : Z := 128 * 1024 * 1024.
Definition MAXIMUM_IMAGE_DIMENSION : Z := 65535.

Record t := {
  kind : MediaKind;
  mime_type : text;
  byte_len : Z;
  sha256 : text;
  width : option Z;
  height : option Z;
  duration_ms : option Z
}.

Definition prefix_of (k : MediaKind) : text :=
  match k with Image => lit "image/" | Audio => lit "audio/" end.

(** [MediaDescriptor::validate] *)
Definition validate (m : t) : outcome string unit :=
  let maximum := match kind m with
                 | Image => MAXIMUM_IMAGE_DESCRIPTOR_BYTES
                 | Audio => MAXIMUM_AUDIO_DESCRIPTOR_BYTES
                 end in
  if (byte_len m =? 0) || (maximum <? byte_len m) then Err "InvalidInput" else
  let prefix := prefix_of (kind m) in
  if (text_len (mime_type m) <=? text_len prefix) || (127 <? text_len (mime_type m)) ||
     negb (bool_decide (take (length prefix) (mime_type m) = prefix)) ||
     negb (forallb (λ c, ((97 <=? c) && (c <=? 122)) || ((48 <=? c) && (c <=? 57)) ||
                         ((c =? 46) || (c =? 43) || (c =? 45)))
             (drop (length prefix) (mime_type m)))
  then Err "InvalidInput" else
  match kind m with
  | Image =>
      let invalid_dimensions :=
        match width m, height m with
        | Some width, Some height =>
            (width =? 0) || (height =? 0) || (MAXIMUM_IMAGE_DIMENSION <? width) ||
            (MAXIMUM_IMAGE_DIMENSION <? height) || (MAXIMUM_IMAGE_PIXELS <? width * height)
        | None, None => false
        | _, _ => true
        end in
      if bool_decide (is_Some (duration_ms m)) || invalid_dimensions then Err "InvalidInput" else Ok tt
  | Audio =>
      if bool_decide (is_Some (width m)) || bool_decide (is_Some (height m)) ||
         bool_decide (duration_ms m = Some 0)
      then Err "InvalidInput" else Ok tt
  end.
End Media.

(** ** Messages *)

(** [FileRef], whose own constructor has checked it. *)
Record FileRef := { file_id : text; file_name : text; file_bytes : Z }.

(** [ProviderExtension]: its value by its encoding. *)
Record ProviderExtension := {
  extension_namespace : text;
  extension_version : Z;
  extension_value : list Z
}.

Record ToolCall := {
  id : text;
  name : text;
  arguments : text;
  kind : ToolCallKind
}.

Inductive MessageRole := System | Developer | User | Assistant | Tool.
#[export] Instance MessageRole_eq_dec : EqDecision MessageRole.
Proof. solve_decision. Defined.

Module MessageContent.
Inductive t :=
| File (file : FileRef) (local_execution : bool)
| Text (text : text)
| Image (media : Media.t)
| Audio (media : Media.t)
| Reasoning (text : text) (evidence : option ProviderExtension)
| ToolCall (call : ToolCall)
| ToolResult (call_id : text) (content : list t) (is_error : bool).
End MessageContent.

Record Message := { role : MessageRole; content : list MessageContent.t }.

Definition message_content_allowed (role : MessageRole) (block : MessageContent.t) : bool :=
  match role, block with
  | (System | Developer), MessageContent.Text _ => true
  | User, (MessageContent.Text _ | MessageContent.Image _ | MessageContent.Audio _
          | MessageContent.File _ _) => true
  | Assistant, (MessageContent.Text _ | MessageContent.Image _ | MessageContent.Audio _
               | MessageContent.Reasoning _ _ | MessageContent.ToolCall _) => true
  | Tool, MessageContent.ToolResult _ _ _ => true
  | _, _ => false
  end.

Definition invalid_content : outcome string unit := Err "message.invalid_content".

Definition require (b : bool) : outcome string unit := if b then Ok tt else invalid_content.

(** [media.kind() != kind] and [media.validate()] of an image or audio block. *)
Definition validate_media (expected : Media.MediaKind) (media : Media.t) : outcome string unit :=
  if negb (bool_decide (Media.kind media = expected)) then invalid_content
  else require (is_ok (Media.validate media)).

Open Scope outcome_scope.

(** [validate_message_content] *)
Fixpoint validate_message_content (role : MessageRole) (block : MessageContent.t)
    {struct block} : outcome string unit :=
  if negb (message_content_allowed role block) then invalid_content else
  match block with
  | MessageContent.File _ _ => Ok tt
  | MessageContent.Text text => require (safe_text text MAX_REQUEST_BYTES false)
  | MessageContent.Reasoning text _ => require (safe_text text MAX_REQUEST_BYTES false)
  | MessageContent.Image media => validate_media Media.Image media
  | MessageContent.Audio media => validate_media Media.Audio media
  | MessageContent.ToolCall call =>
      let? _ := require (ai_identifier (id call)) in
      let? _ := require (tool_name (name call)) in
      require (safe_text (arguments call) MAX_REQUEST_BYTES true)
  | MessageContent.ToolResult call_id content _ =>
      let? _ := require (ai_identifier call_id) in
      if bool_decide (content = []) || (MAX_BLOCKS_PER_MESSAGE <? len content) then invalid_content else
      (fix nested (content : list MessageContent.t) : outcome string unit :=
         match content with
         | [] => Ok tt
         | (MessageContent.Text _ | MessageContent.Image _ | MessageContent.Audio _) as block :: rest =>
             let? _ := validate_message_content User block in nested rest
         | _ :: _ => invalid_content
         end) content
  end.

Fixpoint validate_blocks (role : MessageRole) (blocks : list MessageContent.t) : outcome string unit :=
  match blocks with
  | [] => Ok tt
  | block :: rest => let? _ := validate_message_content role block in validate_blocks role rest
  end.

(** [Message::validate] *)
Definition validate (m : Message) : outcome string unit :=
  if bool_decide (content m = []) || (MAX_BLOCKS_PER_MESSAGE <? len (content m)) then invalid_content
  else if bool_decide (role m = Tool) && negb (len (content m) =? 1) then invalid_content
  else validate_blocks (role m) (content m).

(** [Message::new] and the constructors of the roles. *)
Definition message_new (role : MessageRole) (content : list MessageContent.t) : outcome string Message :=
  let message := {| role := role; content := content |} in
  let? _ := validate message in Ok message.

Definition developer_text (t : text) := message_new Developer [MessageContent.Text t].
Definition user_text (t : text) := message_new User [MessageContent.Text t].
Definition user := message_new User.
Definition assistant := message_new Assistant.
Definition tool_result (call_id : text) (content : list MessageContent.t) (is_error : bool) :=
  message_new Tool [MessageContent.ToolResult call_id content is_error].

(** ** Requests *)

(** [add_block] of [validate_language_media]: the running totals. *)
Fixpoint add_block (block : MessageContent.t) (total : Z * Z) : outcome string (Z * Z) :=
  match block with
  | MessageContent.Image media | MessageContent.Audio media =>
      let? occurrences := ok_or (checked_add usize_max total.1 1) "request.too_many_media" in
      if MAX_LANGUAGE_MEDIA_OCCURRENCES <? occurrences then Err "request.too_many_media" else
      let? declared := ok_or (checked_add u64_max total.2 (Media.byte_len media))
                         "request.media_bytes_exceeded" in
      if MAX_LANGUAGE_MEDIA_BYTES <? declared then Err "request.media_bytes_exceeded"
      else Ok (occurrences, declared)
  | MessageContent.ToolResult _ content _ =>
      (fix nested (content : list MessageContent.t) (total : Z * Z) : outcome string (Z * Z) :=
         match content with
         | [] => Ok total
         | block :: rest => let? total := add_block block total in nested rest total
         end) content total
  | _ => Ok total
  end.

Fixpoint add_blocks (blocks : list MessageContent.t) (total : Z * Z) : outcome string (Z * Z) :=
  match blocks with
  | [] => Ok total
  | block :: rest => let? total := add_block block total in add_blocks rest total
  end.

Definition validate_language_media (messages : list Message) : outcome string unit :=
  let? _ := add_blocks (messages ≫= content) (0, 0) in Ok tt.

(** The calls and results seen so far: one block of [validate_messages]. *)
Definition admit_block (block : MessageContent.t) (seen : list text * list text)
    : outcome string (list text * list text) :=
  let '(calls, results) := seen in
  match block with
  | MessageContent.ToolCall call =>
      if bool_decide (id call ∈ calls) then Err "request.duplicate_tool_call"
      else Ok (id call :: calls, results)
  | MessageContent.ToolResult call_id _ _ =>
      if negb (bool_decide (call_id ∈ calls)) then Err "request.orphan_tool_result"
      else if bool_decide (call_id ∈ results) then Err "request.duplicate_tool_result"
      else Ok (calls, call_id :: results)
  | _ => Ok seen
  end.

Fixpoint admit_blocks (blocks : list MessageContent.t) (seen : list text * list text)
    : outcome string (list text * list text) :=
  match blocks with
  | [] => Ok seen
  | block :: rest => let? seen := admit_block block seen in admit_blocks rest seen
  end.

Fixpoint validate_each (messages : list Message) : outcome string unit :=
  match messages with
  | [] => Ok tt
  | message :: rest => let? _ := validate message in validate_each rest
  end.

(** [LanguageRequest::validate_messages] *)
Definition validate_messages (messages : list Message) : outcome string unit :=
  if bool_decide (messages = []) || (MAX_MESSAGES <? len messages) then Err "request.invalid_messages" else
  let? _ := validate_each messages in
  let? _ := validate_language_media messages in
  let? _ := admit_blocks (messages ≫= content) ([], []) in
  Ok tt.

Open Scope Z_scope.

(** ** Valid results *)
Definition nested_ok (block : MessageContent.t) : Prop :=
  match block with
  | MessageContent.Text t => safe_text t MAX_REQUEST_BYTES false = true
  | MessageContent.Image m => validate_media Media.Image m = Ok tt
  | MessageContent.Audio m => validate_media Media.Audio m = Ok tt
  | _ => False
  end.

Lemma require_ok b : require b = Ok tt ↔ b = true.
Proof. by destruct b. Qed.

Lemma validate_nested block :
  nested_ok block → validate_message_content User block = Ok tt.
Proof. destruct block; simpl; try done. by rewrite require_ok. Qed.

Definition result_message (call_id : text) (l : list MessageContent.t) (e : bool) : Message :=
  {| role := Tool; content := [MessageContent.ToolResult call_id l e] |}.

Lemma validate_result_message call_id l e :
  validate (result_message call_id l e) = Ok tt ↔
    ai_identifier call_id = true ∧ l ≠ [] ∧ len l ≤ MAX_BLOCKS_PER_MESSAGE ∧ Forall nested_ok l.
Proof.
  unfold result_message, validate. simpl. rewrite !obind_unit_ok, require_ok.
  assert (Hn : ∀ l, (fix nested (content : list MessageContent.t) : outcome string unit :=
      match content with
      | [] => Ok tt
      | (MessageContent.Text _ | MessageContent.Image _ | MessageContent.Audio _) as block :: rest =>
          obind (validate_message_content User block) (λ _, nested rest)
      | _ :: _ => invalid_content
      end) l = Ok tt ↔ Forall nested_ok l).
  { clear. induction l as [|b l IH]; [by split; [constructor|]|].
    rewrite Forall_cons.
    destruct b; simpl; try (split; [done|by intros []]);
      rewrite obind_unit_ok, IH, ?require_ok; done. }
  destruct (bool_decide (l = []) || (MAX_BLOCKS_PER_MESSAGE <? len l)) eqn:E; [|rewrite Hn].
  - split; [naive_solver|]. intros (_ & Hl & ? & _). apply orb_true_iff in E as [E|E]; [|lia].
    by apply bool_decide_eq_true in E.
  - apply orb_false_iff in E as [E%bool_decide_eq_false E']. naive_solver lia.
Qed.

Lemma tool_result_ok call_id l e m :
  tool_result call_id l e = Ok m ↔ m = result_message call_id l e ∧ validate m = Ok tt.
Proof.
  unfold tool_result, message_new. fold (result_message call_id l e). rewrite obind_ok.
  split; [intros ([] & ? & [= <-])|intros [-> ?]]; eauto.
Qed.

Lemma validate_nonempty m : validate m = Ok tt → content m ≠ [].
Proof. unfold validate. case_bool_decide; done. Qed.

(** A valid Tool message is one result. *)
Lemma validate_tool_role m :
  validate m = Ok tt → role m = Tool → ∃ c l e, m = result_message c l e.
Proof.
  destruct m as [r l]. unfold validate. simpl. intros H ->.
  rewrite (bool_decide_eq_true_2 (Tool = Tool)) in H by done. simpl in H.
  destruct l as [|b [|b' l]]; [done| |].
  - destruct b; simpl in H; try done. unfold result_message. eauto.
  - destruct (bool_decide _ || _); [done|]. rewrite !len_cons in H.
    replace (1 + (1 + len l) =? 1) with false in H; [done|]. pose proof (len_nonneg l). lia.
Qed.

Lemma validate_other_role m call_id l e :
  validate m = Ok tt → role m ≠ Tool → MessageContent.ToolResult call_id l e ∉ content m.
Proof.
  unfold validate. destruct (_ || _); [done|]. destruct (_ && _); [done|].
  intros H Hr Hin. revert H Hin. generalize (content m) as bs.
  induction bs as [|b bs IH]; simpl.
  - by intros _ ?%not_elem_of_nil.
  - intros (? & Hb & Hbs)%obind_ok [<-|Hin]%elem_of_cons; [|by apply IH].
    simpl in Hb. destruct (role m); done.
Qed.

Lemma safe_text_ok t n :
  safe_text t n false = true ↔ t ≠ [] ∧ text_len t ≤ n ∧ clean t.
Proof.
  unfold safe_text, clean. rewrite negb_true_iff, !orb_false_iff, Z.ltb_ge. simpl.
  rewrite bool_decide_eq_false, Forall_forall.
  assert (existsb (λ c, (c =? 0) || (c =? 127)) t = false ↔ ∀ c, c ∈ t → c ≠ 0 ∧ c ≠ 127) as ->.
  { rewrite <-not_true_iff_false, existsb_exists. setoid_rewrite list_elem_of_In. split.
    - intros Hn c Hc. split; intros ->; apply Hn; by eexists.
    - intros Hf (c & Hc & ?). destruct (Hf _ Hc). lia. }
  tauto.
Qed.

Lemma text_len_bound t : text_len t ≤ 4 * len t.
Proof.
  induction t as [|c t IH]; [done|]. rewrite text_len_cons, len_cons.
  enough (scalar_bytes c ≤ 4) by lia. unfold scalar_bytes. repeat case_match; lia.
Qed.

(** ** Calls of a valid message *)
Lemma validate_block m block :
  validate m = Ok tt → block ∈ content m → validate_message_content (role m) block = Ok tt.
Proof.
  unfold validate. destruct (_ || _); [done|]. destruct (_ && _); [done|].
  generalize (content m) as bs. induction bs as [|b bs IH]; simpl.
  - by intros _ ?%not_elem_of_nil.
  - intros ([] & Hb & Hbs)%obind_ok [->|Hin]%elem_of_cons; [done|by apply IH].
Qed.

Lemma validate_call_id m call :
  validate m = Ok tt → MessageContent.ToolCall call ∈ content m →
  role m = Assistant ∧ ai_identifier (id call) = true.
Proof.
  intros Hv Hin. pose proof (validate_block _ _ Hv Hin) as H. destruct (role m); try done.
  split; [done|]. simpl in H. by apply obind_unit_ok in H as [?%require_ok _].
Qed.

(** ** Validation never panics *)
Lemma require_no_panic b : require b ≠ Panic.
Proof. by destruct b. Qed.
Lemma validate_media_no_panic k m : validate_media k m ≠ Panic.
Proof. unfold validate_media. destruct (negb _); [done|apply require_no_panic]. Qed.

Lemma validate_block_no_panic role block : validate_message_content role block ≠ Panic.
Proof.
  destruct block as [| | | | |call|call_id content e]; simpl;
    destruct (negb _); try done; try apply require_no_panic; try apply validate_media_no_panic.
  - repeat (apply obind_no_panic; [apply require_no_panic|intros _ _]). apply require_no_panic.
  - apply obind_no_panic; [apply require_no_panic|]. intros _ _. destruct (_ || _); [done|].
    induction content as [|b content IH]; [done|].
    destruct b; simpl; try done; apply obind_no_panic; try done;
      first [apply require_no_panic|apply validate_media_no_panic].
Qed.

Lemma validate_no_panic m : validate m ≠ Panic.
Proof.
  unfold validate. destruct (_ || _); [done|]. destruct (_ && _); [done|].
  induction (content m) as [|b bs IH]; simpl; [done|].
  apply obind_no_panic; [apply validate_block_no_panic|done].
Qed.

Lemma message_new_no_panic r l : message_new r l ≠ Panic.
Proof. apply obind_no_panic; [apply validate_no_panic|done]. Qed.

Lemma message_new_ok r l m : message_new r l = Ok m → m = {| role := r; content := l |} ∧ validate m = Ok tt.
Proof. intros ([] & Hv & [= <-])%obind_ok. done. Qed.
