(* ===== verification/ContextPruning.v ===== *)
(** * Pruned views of interaction units

    [crates/rsi-agent/context/src/pruning.rs]: a Turn's messages fall into units (a message
    and the results of its Tool calls), and the view of older complete units keeps only
    the first and last scalars of a long Tool result.  A [BTreeMap<TurnKey, _>] is a [gmap]
    from pairs of identities; a slice at a character index is [take] and [drop] of the
    scalars.  [encoded_message_bytes], the JSON length of a message, is the parameter
    [weight] of [units]. *)

From S2P Require Import Prelude Text ToolOrigin ContextMessage.

Open Scope outcome_scope.

(** [ContextError] of [lib.rs]. *)
Inductive ContextError := Capacity | Invalid (reason : string) | TooLarge.

(** [TurnKey] of [turn_key.rs]: Session and Turn. *)
Abbreviation TurnKey := (text * text)%type.

Definition THRESHOLD : Z := 8192.
Definition HEAD : Z := 4096.
Definition TAIL : Z := 1024.
Definition MARKER : text :=
  [10; 10] ++ lit "[... tool result middle pruned ...]" ++ [10; 10].
#[global] Arguments MARKER : simpl never.

(** ** Units *)
Record UnitShape := { first : nat; count : nat; complete : bool }.
#[export] Instance UnitShape_eq_dec : EqDecision UnitShape.
Proof. solve_decision. Defined.

Definition call_of (block : MessageContent.t) : option text :=
  match block with MessageContent.ToolCall call => Some (id call) | _ => None end.

(** The call ids of a message, in order. *)
Definition calls_of (m : Message) : list text := omap call_of (content m).

(** [matches!(content, MessageContent::ToolResult { call_id, .. } if call_id == call)] for some block *)
Definition answers (call : text) (m : Message) : bool :=
  existsb (λ block, match block with
                    | MessageContent.ToolResult call_id _ _ => bool_decide (call_id = call)
                    | _ => false
                    end) (content m).

Section shapes.
Context (messages : list Message) (allow_incomplete : bool).

(** The loop over the calls of one message: the index behind the results found. *)
Fixpoint match_calls (calls : list text) (index : nat) (complete : bool)
    : outcome ContextError (nat * bool) :=
  match calls with
  | [] => Ok (index, complete)
  | call :: calls =>
      if match messages !! index with Some m => answers call m | None => false end
      then match_calls calls (S index) complete
      else if allow_incomplete then match_calls calls index false
      else Err (Invalid "unfinished or misordered live Tool batch in compaction input")
  end.

(** The [while] loop; every turn of it moves the index, so [length messages] turns are
    enough. *)
Fixpoint shapes_from (fuel : nat) (index : nat) : outcome ContextError (list UnitShape) :=
  match fuel, messages !! index with
  | _, None => Ok []
  | O, Some _ => Panic
  | S fuel, Some message =>
      if bool_decide (role message = Tool)
      then Err (Invalid "orphan Tool result in compaction input") else
      let? (behind, complete) := match_calls (calls_of message) (S index) true in
      let? rest := shapes_from fuel behind in
      Ok ({| first := index; count := behind - index; complete := complete |} :: rest)
  end.

Definition shapes : outcome ContextError (list UnitShape) := shapes_from (length messages) 0.
End shapes.

Record InteractionUnit := {
  turn : TurnKey;
  unit_first : nat;
  unit_count : nat;
  unit_bytes : Z;
  unit_complete : bool
}.

Section units.
Context (encoded_message_bytes : Message → Z).

(** [try_fold] of the encoded lengths. *)
Fixpoint sum_bytes (messages : list Message) (sum : Z) : outcome ContextError Z :=
  match messages with
  | [] => Ok sum
  | message :: rest =>
      let? sum := ok_or (checked_add usize_max sum (encoded_message_bytes message)) TooLarge in
      sum_bytes rest sum
  end.

Fixpoint measure (turn : TurnKey) (messages : list Message) (l : list UnitShape)
    : outcome ContextError (list InteractionUnit) :=
  match l with
  | [] => Ok []
  | shape :: l =>
      let? bytes := sum_bytes (take (count shape) (drop (first shape) messages)) 0 in
      let? rest := measure turn messages l in
      Ok ({| turn := turn; unit_first := first shape; unit_count := count shape;
             unit_bytes := bytes; unit_complete := complete shape |} :: rest)
  end.

Definition units (turn : TurnKey) (messages : list Message) (allow_incomplete : bool)
    : outcome ContextError (list InteractionUnit) :=
  let? l := shapes messages allow_incomplete in measure turn messages l.
End units.

(** ** Pruning one result *)
Definition text_length (block : MessageContent.t) : Z :=
  match block with MessageContent.Text text => len text | _ => 0 end.

(** The text kept of one block that starts at [position] among all the scalars, and whether
    the marker goes into it. *)
Definition retained_head (position length : Z) : Z := Z.min (saturating_sub HEAD position) length.
Definition retained_tail (tail_start position length : Z) : Z :=
  Z.min (saturating_sub (position + length) tail_start) length.

Fixpoint prune_blocks (tail_start position : Z) (marked : bool) (content : list MessageContent.t)
    : list MessageContent.t :=
  match content with
  | [] => []
  | MessageContent.Text text :: rest =>
      let length := len text in
      let head := retained_head position length in
      let tail := retained_tail tail_start position length in
      let mark := (head + tail <? length) && negb marked in
      let retained := take (Z.to_nat head) text ++ (if mark then MARKER else []) ++
                      drop (Z.to_nat (length - tail)) text in
      let rest := prune_blocks tail_start (position + length) (marked || mark) rest in
      if bool_decide (retained = []) then rest else MessageContent.Text retained :: rest
  | block :: rest => block :: prune_blocks tail_start position marked rest
  end.

Definition prune_message (message : Message) : outcome ContextError (option Message) :=
  match content message with
  | [MessageContent.ToolResult call_id content is_error] =>
      let length := zsum (text_length <$> content) in
      if length <=? THRESHOLD then Ok None else
      let tail_start := length - TAIL in
      match tool_result call_id (prune_blocks tail_start 0 false content) is_error with
      | Ok pruned => Ok (Some pruned)
      | Err reason => Err (Invalid reason)
      | Panic => Panic
      end
  | _ => Ok None
  end.

(** ** Projection *)
Abbreviation ProjectedTurns := (gmap TurnKey (list Message)).

(** The first loop of [project]: all units in order, and the borrowed messages. *)
Fixpoint collect (turns : list (TurnKey * list Message)) (projected : ProjectedTurns)
    : outcome ContextError (list (TurnKey * UnitShape) * ProjectedTurns) :=
  match turns with
  | [] => Ok ([], projected)
  | (id, messages) :: turns =>
      let? l := shapes messages true in
      let? (rest, projected) := collect turns (<[id := messages]> projected) in
      Ok ((pair id <$> l) ++ rest, projected)
  end.

(** [all_units.iter().rposition(|(_, unit)| unit.complete)] *)
Definition rposition (all_units : list (TurnKey * UnitShape)) : option nat :=
  last (fst <$> filter (λ e, complete e.2.2 = true) (zip (seq 0 (length all_units)) all_units)).

(** The loop over the indices of one unit. *)
Fixpoint prune_range (count first : nat) (messages : list Message) : outcome ContextError (list Message) :=
  match count with
  | O => Ok messages
  | S count =>
      let? message := expect (messages !! first) in
      let? pruned := prune_message message in
      prune_range count (S first)
        (match pruned with Some pruned => <[first := pruned]> messages | None => messages end)
  end.

Fixpoint prune_units (latest : option nat) (index : nat) (all_units : list (TurnKey * UnitShape))
    (projected : ProjectedTurns) : outcome ContextError ProjectedTurns :=
  match all_units with
  | [] => Ok projected
  | (turn, unit) :: rest =>
      if negb (complete unit) || bool_decide (Some index = latest)
      then prune_units latest (S index) rest projected
      else
        let? messages := expect (projected !! turn) in
        let? messages := prune_range (count unit) (first unit) messages in
        prune_units latest (S index) rest (<[turn := messages]> projected)
  end.

Definition project (turns : list (TurnKey * list Message)) : outcome ContextError ProjectedTurns :=
  let? (all_units, projected) := collect turns ∅ in
  prune_units (rposition all_units) 0 all_units projected.

Open Scope Z_scope.

(** ** What pruning keeps *)

(** All the text of a result, and its other blocks in order. *)
Definition text_of (block : MessageContent.t) : text :=
  match block with MessageContent.Text t => t | _ => [] end.
Definition texts (l : list MessageContent.t) : text := l ≫= text_of.
Definition is_text (block : MessageContent.t) : bool :=
  match block with MessageContent.Text _ => true | _ => false end.
Definition media (l : list MessageContent.t) : list MessageContent.t :=
  filter (λ b, is_text b = false) l.

Lemma text_length_sum l : zsum (text_length <$> l) = len (texts l).
Proof.
  induction l as [|b l IH]; [done|]. rewrite fmap_cons, zsum_cons, IH. unfold texts.
  rewrite bind_cons, len_app. by destruct b.
Qed.

Lemma take_head p (t : text) :
  take (Z.to_nat (retained_head p (len t))) t = take (Z.to_nat (HEAD - p)) t.
Proof.
  unfold retained_head, saturating_sub, len.
  destruct (decide (Z.of_nat (length t) ≤ HEAD - p)).
  - rewrite !take_ge by lia. done.
  - f_equal. lia.
Qed.

Lemma drop_tail s p (t : text) :
  drop (Z.to_nat (len t - retained_tail s p (len t))) t = drop (Z.to_nat (s - p)) t.
Proof.
  unfold retained_tail, saturating_sub, len.
  destruct (decide (Z.of_nat (length t) ≤ s - p)).
  - rewrite !drop_ge by lia. done.
  - f_equal. lia.
Qed.

Lemma texts_cons_text t l : texts (MessageContent.Text t :: l) = t ++ texts l.
Proof. done. Qed.

Lemma prune_text_cons s p marked t l :
  texts (prune_blocks s p marked (MessageContent.Text t :: l)) =
  take (Z.to_nat (HEAD - p)) t ++
  (if (retained_head p (len t) + retained_tail s p (len t) <? len t) && negb marked
   then MARKER else []) ++
  drop (Z.to_nat (s - p)) t ++
  texts (prune_blocks s (p + len t)
    (marked || ((retained_head p (len t) + retained_tail s p (len t) <? len t) && negb marked)) l).
Proof.
  simpl. rewrite take_head, drop_tail. case_bool_decide as E.
  - rewrite !app_assoc. by rewrite <-(app_assoc (take _ _)), E.
  - rewrite texts_cons_text. by rewrite <-!app_assoc.
Qed.

(** The marker goes into the block in which the scalars behind the head begin. *)
Lemma mark_at s p (t : text) :
  HEAD < s → 0 ≤ p → 
  (HEAD <? p) || ((retained_head p (len t) + retained_tail s p (len t) <? len t) && negb (HEAD <? p))
  = (HEAD <? p + len t).
Proof.
  intros ??. pose proof (len_nonneg t). unfold retained_head, retained_tail, saturating_sub. lia.
Qed.

Lemma prune_blocks_texts s l p :
  HEAD < s → 0 ≤ p →
  texts (prune_blocks s p (HEAD <? p) l) =
  take (Z.to_nat (HEAD - p)) (texts l) ++
  (if (HEAD <? p + len (texts l)) && negb (HEAD <? p) then MARKER else []) ++
  drop (Z.to_nat (s - p)) (texts l).
Proof.
  intros Hs. revert p. induction l as [|b l IH]; intros p Hp.
  { unfold texts. simpl. rewrite take_nil, drop_nil, len_nil, Z.add_0_r.
    by destruct (HEAD <? p). }
  destruct (is_text b) eqn:Eb; [|destruct b; try done; apply IH; done].
  destruct b as [| t | | | | |]; try done. clear Eb.
  rewrite prune_text_cons, mark_at by done. pose proof (len_nonneg t).
  rewrite IH, texts_cons_text, take_app, drop_app, len_app by lia.
  replace (Z.to_nat (HEAD - p) - length t)%nat with (Z.to_nat (HEAD - (p + len t)))
    by (unfold len; lia).
  replace (Z.to_nat (s - p) - length t)%nat with (Z.to_nat (s - (p + len t))) by (unfold len; lia).
  destruct (HEAD <? p) eqn:E1.
  { rewrite !andb_false_r, (proj2 (Z.ltb_lt HEAD (p + len t))) by lia. simpl.
    rewrite andb_false_r. replace (Z.to_nat (HEAD - (p + len t))) with 0%nat by lia.
    replace (Z.to_nat (HEAD - p)) with 0%nat by lia. by rewrite !take_0. }
  pose proof (mark_at s p t Hs Hp) as Hm. rewrite E1, orb_false_l in Hm. rewrite Hm.
  replace (HEAD <? p + (len t + len (texts l))) with (HEAD <? p + len t + len (texts l)) by lia.
  destruct (HEAD <? p + len t) eqn:E2; simpl.
  - pose proof (len_nonneg (texts l)).
    rewrite andb_false_r, (proj2 (Z.ltb_lt HEAD (p + len t + len (texts l)))) by lia.
    replace (Z.to_nat (HEAD - (p + len t))) with 0%nat by lia. rewrite take_0. simpl.
    by rewrite app_nil_r.
  - rewrite (drop_ge t) by (unfold len in *; lia). simpl. by rewrite <-app_assoc.
Qed.

Lemma prune_blocks_media s l p marked : media (prune_blocks s p marked l) = media l.
Proof.
  revert p marked. induction l as [|b l IH]; intros p marked; [done|].
  destruct b; simpl; try case_bool_decide; unfold media in *;
    by rewrite ?filter_cons_False, ?filter_cons_True, ?IH by done.
Qed.

Lemma prune_blocks_length s l p marked : (length (prune_blocks s p marked l) ≤ length l)%nat.
Proof.
  revert p marked. induction l as [|b l IH]; intros p marked; [done|].
  destruct b; simpl; try case_bool_decide; simpl; try apply le_n_S; try apply IH.
  etransitivity; [apply IH|lia].
Qed.

(** ** Pruned results are valid *)
Lemma clean_take n t : clean t → clean (take n t).
Proof. apply Forall_take. Qed.
Lemma clean_drop n t : clean t → clean (drop n t).
Proof. apply Forall_drop. Qed.
Lemma clean_marker : clean MARKER.
Proof. apply (bool_decide_unpack _). by vm_compute. Qed.

Lemma retained_safe (b : bool) s p t :
  clean t → 0 ≤ p → p + len t ≤ s + TAIL →
  let retained := take (Z.to_nat (retained_head p (len t))) t ++ (if b then MARKER else []) ++
                  drop (Z.to_nat (len t - retained_tail s p (len t))) t in
  retained ≠ [] → safe_text retained MAX_REQUEST_BYTES false = true.
Proof.
  intros Hc Hp Hs retained Hne. apply safe_text_ok. split_and!; [done| |].
  - etransitivity; [apply text_len_bound|]. unfold retained. rewrite !len_app.
    assert (len (if b then MARKER else []) ≤ 39) by (by destruct b).
    unfold len. rewrite length_take, length_drop.
    unfold retained_head, retained_tail, saturating_sub, HEAD, TAIL, MAX_REQUEST_BYTES, len in *. lia.
  - unfold retained, clean. rewrite !Forall_app.
    split_and!; [by apply clean_take| |by apply clean_drop].
    destruct b; [apply clean_marker|constructor].
Qed.

Lemma prune_blocks_nested s l p marked :
  Forall nested_ok l → 0 ≤ p → p + len (texts l) ≤ s + TAIL →
  Forall nested_ok (prune_blocks s p marked l).
Proof.
  intros Hl. revert p marked. induction Hl as [|b l Hb Hl IH]; intros p marked Hp Hs; [done|].
  assert (Hlen : len (texts (b :: l)) = text_length b + len (texts l)).
  { unfold texts. rewrite bind_cons, len_app. by destruct b. }
  destruct b as [| t | | | | |]; try done; simpl in *;
    try (constructor; [done|apply IH; lia]).
  pose proof (len_nonneg t). pose proof (len_nonneg (texts l)).
  destruct (bool_decide _) eqn:E; [apply IH; lia|]. apply bool_decide_eq_false in E.
  apply safe_text_ok in Hb as (_ & _ & Hb).
  constructor; [apply retained_safe; [done|done|lia|done]|apply IH; lia].
Qed.

(** The text a result is left with. *)
Definition edges (t : text) : text :=
  take (Z.to_nat HEAD) t ++ MARKER ++ drop (Z.to_nat (len t - TAIL)) t.

Lemma prune_content l :
  THRESHOLD < len (texts l) →
  texts (prune_blocks (len (texts l) - TAIL) 0 false l) = edges (texts l).
Proof.
  intros H. change false with (HEAD <? 0). rewrite prune_blocks_texts by (unfold HEAD, THRESHOLD, TAIL in *; lia).
  unfold edges. rewrite !Z.sub_0_r, Z.add_0_l, (proj2 (Z.ltb_lt HEAD (len (texts l)))); [done|].
  unfold HEAD, THRESHOLD in *; lia.
Qed.

Lemma prune_valid call_id l e :
  validate (result_message call_id l e) = Ok tt → THRESHOLD < len (texts l) →
  validate (result_message call_id (prune_blocks (len (texts l) - TAIL) 0 false l) e) = Ok tt.
Proof.
  intros (Hid & _ & Hlen & Hl)%validate_result_message Ht. apply validate_result_message.
  split_and!; [done| | |].
  - intros E. pose proof (prune_content l Ht) as H. rewrite E in H. symmetry in H.
    apply app_nil in H as [_ H]. by apply app_nil in H as [? _].
  - pose proof (prune_blocks_length (len (texts l) - TAIL) l 0 false). unfold len in *. lia.
  - apply prune_blocks_nested; [done|lia|lia].
Qed.

(** Only a long Tool result is pruned. *)
Definition long_result (m : Message) : option (text * list MessageContent.t * bool) :=
  match content m with
  | [MessageContent.ToolResult call_id l e] =>
      if len (texts l) <=? THRESHOLD then None else Some (call_id, l, e)
  | _ => None
  end.

Lemma prune_message_eq m :
  validate m = Ok tt →
  prune_message m = Ok match long_result m with
                       | Some (c, l, e) =>
                           Some (result_message c (prune_blocks (len (texts l) - TAIL) 0 false l) e)
                       | None => None
                       end.
Proof.
  intros Hv. unfold prune_message, long_result.
  destruct (content m) as [|[] []] eqn:E; try done. rewrite text_length_sum.
  destruct (_ <=? _) eqn:Et; [done|].
  destruct m as [r bs]. simpl in E. subst bs. destruct r; try done.
  apply Z.leb_gt in Et. pose proof (prune_valid _ _ _ Hv Et) as Hp.
  by rewrite (proj2 (tool_result_ok _ _ _ _) (conj eq_refl Hp)).
Qed.

(** C31: pruning a valid message always succeeds and changes only a Tool result of more than
    8192 scalars: however the text is split into blocks, it is replaced by its first 4096
    scalars, the marker and its last 1024 scalars; the call it answers, its error flag and
    its other blocks in their order are kept, and the new message is valid. *)
Theorem prune_keeps_edges m :
  validate m = Ok tt →
  match long_result m with
  | None => prune_message m = Ok None
  | Some (call_id, l, e) =>
      m = result_message call_id l e ∧
      ∃ l', prune_message m = Ok (Some (result_message call_id l' e)) ∧
            validate (result_message call_id l' e) = Ok tt ∧
            texts l' = edges (texts l) ∧ media l' = media l ∧ (length l' ≤ length l)%nat
  end.
Proof.
  intros Hv. pose proof (prune_message_eq m Hv) as Hp.
  destruct (long_result m) as [[[c l] e]|] eqn:E; [|done].
  unfold long_result in E. destruct (content m) as [|[] []] eqn:Em; try done.
  destruct (_ <=? _) eqn:Et; [done|]. simplify_eq. apply Z.leb_gt in Et.
  destruct m as [r bs]. simpl in Em. subst bs. destruct r; try done.
  split; [done|]. eexists. split; [done|]. split_and!.
  - by apply prune_valid.
  - by apply prune_content.
  - apply prune_blocks_media.
  - apply prune_blocks_length.
Qed.

Definition sample_image : Media.t :=
  {| Media.kind := Media.Image; Media.mime_type := lit "image/png"; Media.byte_len := 4;
     Media.sha256 := replicate 64 97; Media.width := None; Media.height := None;
     Media.duration_ms := None |}.
Definition sample_blocks : list MessageContent.t :=
  [MessageContent.Text (replicate (Z.to_nat 4000) 97); MessageContent.Image sample_image;
   MessageContent.Text (replicate (Z.to_nat 5000) 98)].
Definition sample_result : Message := result_message (lit "call") sample_blocks true.

Lemma prune_keeps_edges_witness :
  ∃ l', prune_message sample_result = Ok (Some (result_message (lit "call") l' true)) ∧
        texts l' = edges (texts sample_blocks) ∧ media l' = [MessageContent.Image sample_image].
Proof.
  pose proof (prune_keeps_edges sample_result ltac:(vm_compute; reflexivity)) as H.
  assert (E : long_result sample_result = Some (lit "call", sample_blocks, true))
    by (vm_compute; reflexivity).
  rewrite E in H. destruct H as (_ & l' & ? & _ & ? & Hm & _). exists l'.
  split; [done|]. split; [done|]. rewrite Hm. vm_compute. reflexivity.
Defined.

(** ** The units of a Turn *)

(** Consecutive nonempty units from one index to another. *)
Inductive tiles : nat → list UnitShape → nat → Prop :=
| tiles_nil n : tiles n [] n
| tiles_cons s l n :
    (0 < count s)%nat → tiles (first s + count s) l n → tiles (first s) (s :: l) n.

Section shape_facts.
Context (ms : list Message).

Lemma match_calls_bounds allow calls index c behind c' :
  match_calls ms allow calls index c = Ok (behind, c') → (index ≤ length ms)%nat →
  (index ≤ behind ≤ length ms)%nat.
Proof.
  revert index c. induction calls as [|call calls IH]; intros index c; simpl; [naive_solver lia|].
  destruct (ms !! index) as [m|] eqn:E.
  - apply lookup_lt_Some in E. destruct (answers call m).
    + intros H ?; apply IH in H; lia.
    + destruct allow; [|done]. intros H ?; apply IH in H; lia.
  - destruct allow; [|done]. intros H ?; apply IH in H; lia.
Qed.

Lemma match_calls_allow calls index c :
  ∃ behind c', match_calls ms true calls index c = Ok (behind, c').
Proof.
  revert index c. induction calls as [|call calls IH]; intros index c; simpl; [eauto|].
  destruct (match ms !! index with Some m => _ | None => _ end); apply IH.
Qed.

Lemma match_calls_no_panic allow calls index c : match_calls ms allow calls index c ≠ Panic.
Proof.
  revert index c. induction calls as [|call calls IH]; intros index c; simpl; [done|].
  destruct (match ms !! index with Some m => _ | None => _ end); [apply IH|].
  destruct allow; [apply IH|done].
Qed.

Lemma shapes_from_tiles allow fuel index l :
  shapes_from ms allow fuel index = Ok l → (index ≤ length ms)%nat → tiles index l (length ms).
Proof.
  revert index l. induction fuel as [|fuel IH]; intros index l; simpl.
  - destruct (ms !! index) eqn:E; [done|]. intros [= <-] ?. apply lookup_ge_None in E.
    replace index with (length ms) by lia. constructor.
  - destruct (ms !! index) as [m|] eqn:E; [apply lookup_lt_Some in E|].
    2:{ intros [= <-] ?. apply lookup_ge_None in E.
        replace index with (length ms) by lia. constructor. }
    case_bool_decide; [done|].
    intros ([behind c] & Hm & (rest & Hr & [= <-])%obind_ok)%obind_ok _.
    apply match_calls_bounds in Hm; [|lia]. apply IH in Hr; [|lia].
    apply (tiles_cons {| first := index; count := behind - index; complete := c |});
      simpl; [lia|]. by replace (index + (behind - index))%nat with behind by lia.
Qed.

Lemma shapes_from_total allow fuel index :
  (length ms ≤ index + fuel)%nat → shapes_from ms allow fuel index ≠ Panic.
Proof.
  revert index. induction fuel as [|fuel IH]; intros index Hf; simpl.
  - by rewrite (lookup_ge_None_2 ms index) by lia.
  - destruct (ms !! index) as [m|] eqn:E; [|done]. case_bool_decide; [done|].
    apply obind_no_panic; [apply match_calls_no_panic|]. intros [behind c] Hm.
    apply lookup_lt_Some in E. apply match_calls_bounds in Hm; [|lia].
    apply obind_no_panic; [apply IH; lia|done].
Qed.

Lemma shapes_tiles allow l : shapes ms allow = Ok l → tiles 0 l (length ms).
Proof. intros H. eapply shapes_from_tiles; [exact H|lia]. Qed.

Lemma shapes_total allow : shapes ms allow ≠ Panic.
Proof. apply shapes_from_total. lia. Qed.
End shape_facts.

Definition in_unit (s : UnitShape) (i : nat) : bool :=
  (bool_decide (first s ≤ i) && bool_decide (i < first s + count s))%nat.

Lemma in_unit_spec s i : in_unit s i = true ↔ (first s ≤ i < first s + count s)%nat.
Proof. unfold in_unit. rewrite andb_true_iff, !bool_decide_eq_true. lia. Qed.

Lemma tiles_bounds a l n s : tiles a l n → s ∈ l → (a ≤ first s)%nat ∧ (first s + count s ≤ n)%nat ∧ (0 < count s)%nat.
Proof.
  induction 1 as [n|s' l n Hc Ht IH]; [by intros ?%not_elem_of_nil|].
  assert (∀ a, tiles a l n → (a ≤ n)%nat) as Hle.
  { clear. intros a. induction 1; lia. }
  apply Hle in Ht as Hle'. intros [->|Hs]%elem_of_cons; [lia|]. apply IH in Hs. lia.
Qed.

Lemma tiles_sorted a l n :
  tiles a l n → StronglySorted (λ s s', first s + count s ≤ first s')%nat l.
Proof.
  induction 1 as [|s l n Hc Ht IH]; constructor; [done|].
  apply Forall_forall. intros s' Hs'. by apply (tiles_bounds _ _ _ _ Ht) in Hs' as [? _].
Qed.

(** ** The projection of several Turns *)
Definition pruned (m : Message) : Message :=
  match prune_message m with Ok (Some p) => p | _ => m end.

(** The messages with those of the chosen indices pruned. *)
Definition prune_at (chosen : nat → bool) (ms : list Message) : list Message :=
  imap (λ i m, if chosen i then pruned m else m) ms.

Lemma prune_at_lookup chosen ms i :
  prune_at chosen ms !! i = (λ m, if chosen i then pruned m else m) <$> ms !! i.
Proof. apply list_lookup_imap. Qed.

Lemma prune_at_ext c c' ms : (∀ i, c i = c' i) → prune_at c ms = prune_at c' ms.
Proof. intros H. apply list_eq. intros i. by rewrite !prune_at_lookup, H. Qed.

Lemma prune_range_at n a chosen ms :
  Forall (λ m, validate m = Ok tt) ms → (a + n ≤ length ms)%nat →
  (∀ i, (a ≤ i < a + n)%nat → chosen i = false) →
  prune_range n a (prune_at chosen ms) =
  Ok (prune_at (λ i, chosen i || (bool_decide (a ≤ i)%nat && bool_decide (i < a + n)%nat)) ms).
Proof.
  intros Hv. revert a chosen. induction n as [|n IH]; intros a chosen Hle Hc; simpl.
  { f_equal. apply prune_at_ext. intros i. destruct (chosen i); [done|].
    symmetry. apply andb_false_iff. rewrite !bool_decide_eq_false. lia. }
  destruct (lookup_lt_is_Some_2 ms a) as [m Hm]; [lia|].
  rewrite prune_at_lookup, Hm. simpl. rewrite Hc by lia.
  assert (Hvm : validate m = Ok tt) by by apply (proj1 (Forall_lookup _ _) Hv a).
  pose proof (prune_message_eq m Hvm) as Hp. rewrite Hp. simpl.
  match goal with |- prune_range _ _ ?l = _ => assert (l = prune_at (λ i, chosen i || bool_decide (i = a)) ms) as -> end.
  { apply list_eq. intros i. rewrite (prune_at_lookup (λ i, _)).
    destruct (long_result m) as [[[c l] e]|].
    - destruct (decide (i = a)) as [->|Hi].
      + rewrite list_lookup_insert_eq by (unfold prune_at; rewrite length_imap; lia).
        rewrite Hm, (bool_decide_eq_true_2 (a = a)), orb_true_r by done. simpl.
        unfold pruned. by rewrite Hp.
      + by rewrite list_lookup_insert_ne, prune_at_lookup, (bool_decide_eq_false_2 (i = a)),
          orb_false_r by done.
    - rewrite prune_at_lookup. destruct (decide (i = a)) as [->|Hi].
      + rewrite Hm, Hc, bool_decide_eq_true_2 by lia. simpl. unfold pruned. by rewrite Hp.
      + by rewrite (bool_decide_eq_false_2 (i = a)), orb_false_r by done. }
  rewrite IH; [|lia|].
  - f_equal. apply prune_at_ext. intros i.
    destruct (chosen i); [done|]. simpl. apply eq_bool_prop_intro.
    rewrite !orb_True, !andb_True, !bool_decide_spec. lia.
  - intros i Hi. rewrite Hc, bool_decide_eq_false_2 by lia. done.
Qed.

(** All units, in order. *)
Fixpoint unit_list (turns : list (TurnKey * list Message)) : outcome ContextError (list (TurnKey * UnitShape)) :=
  match turns with
  | [] => Ok []
  | (id, ms) :: turns =>
      let? l := shapes ms true in
      let? rest := unit_list turns in
      Ok ((pair id <$> l) ++ rest)
  end%outcome.

Lemma collect_units turns p :
  NoDup turns.*1 → (∀ k, k ∈ turns.*1 → p !! k = None) →
  collect turns p =
  obind (unit_list turns) (λ all, Ok (all, list_to_map turns ∪ p)).
Proof.
  revert p. induction turns as [|[id ms] turns IH]; intros p; simpl.
  { intros _ _. by rewrite (left_id_L ∅ (∪)). }
  intros [Hid Hnd]%NoDup_cons Hp. destruct (shapes ms true) as [l| |]; simpl; try done.
  rewrite IH.
  - destruct (unit_list turns); simpl; [|done|done]. do 2 f_equal.
    rewrite <-insert_union_r; [by rewrite insert_union_l|].
    by apply not_elem_of_list_to_map_1.
  - done.
  - intros k Hk. rewrite lookup_insert_ne by (intros ->; done). apply Hp. by constructor.
Qed.

Lemma unit_list_total turns : unit_list turns ≠ Panic.
Proof.
  induction turns as [|[id ms] turns IH]; simpl; [done|].
  apply obind_no_panic; [apply shapes_total|]. intros l _. by apply obind_no_panic.
Qed.

Lemma unit_list_err turns e :
  unit_list turns = Err e → ∃ id ms, (id, ms) ∈ turns ∧ shapes ms true = Err e.
Proof.
  induction turns as [|[id ms] turns IH]; simpl; [done|].
  destruct (shapes ms true) as [l| |] eqn:E; simpl; intros H; simplify_eq.
  - destruct (unit_list turns) as [rest| |]; simpl in H; simplify_eq.
    destruct IH as (k & l' & ? & ?); [done|]. exists k, l'. split; [by right|done].
  - exists id, ms. split; [by left|done].
Qed.

Lemma unit_list_elem turns all id s :
  unit_list turns = Ok all → (id, s) ∈ all →
  ∃ ms l, (id, ms) ∈ turns ∧ shapes ms true = Ok l ∧ s ∈ l.
Proof.
  revert all. induction turns as [|[id' ms] turns IH]; simpl; intros all.
  { intros [= <-] ?%not_elem_of_nil. done. }
  intros (l & Hl & (rest & Hr & [= <-])%obind_ok)%obind_ok [(s' & [= -> ->] & Hs)%list_elem_of_fmap|Hin]%elem_of_app.
  - exists ms, l. split; [by left|done].
  - destruct (IH _ Hr Hin) as (ms' & l' & ? & ?). exists ms', l'. split; [by right|done].
Qed.

(** A later unit of the same Turn starts behind an earlier one. *)
Definition apart (e e' : TurnKey * UnitShape) : Prop :=
  e.1 = e'.1 → (first e.2 + count e.2 ≤ first e'.2)%nat.

Lemma unit_list_apart turns all :
  NoDup turns.*1 → unit_list turns = Ok all → StronglySorted apart all.
Proof.
  revert all. induction turns as [|[id ms] turns IH]; simpl; intros all.
  { intros _ [= <-]. constructor. }
  intros [Hid Hnd]%NoDup_cons (l & Hl & (rest & Hr & [= <-])%obind_ok)%obind_ok.
  specialize (IH _ Hnd Hr). apply shapes_tiles, tiles_sorted in Hl.
  induction Hl as [|s l Hl IHl Hs]; [done|]. rewrite fmap_cons. simpl. constructor; [done|].
  apply Forall_app. split.
  - apply Forall_fmap. eapply Forall_impl; [exact Hs|]. intros s' ? _. done.
  - apply Forall_forall. intros [id' s'] Hin Heq. simpl in Heq. subst id'.
    destruct (unit_list_elem _ _ _ _ Hr Hin) as (ms' & _ & Hin' & _).
    destruct Hid. by apply (list_elem_of_fmap_2 fst) in Hin'.
Qed.

Lemma rposition_spec all :
  match rposition all with
  | Some k => ∃ e, all !! k = Some e ∧ last (filter (λ e, complete e.2 = true) all) = Some e
  | None => filter (λ e, complete e.2 = true) all = []
  end.
Proof.
  unfold rposition. induction all as [|e all IH] using rev_ind; [done|].
  rewrite length_app, Nat.add_1_r, seq_S, zip_with_app, !filter_app by (by rewrite length_seq).
  cbn [zip_with]. rewrite !filter_cons. cbn [fst snd].
  destruct (decide (complete e.2 = true)) as [Hc|Hc].
  - rewrite fmap_app. simpl. rewrite !last_snoc. exists e.
    rewrite !filter_nil, last_snoc. split; [|done]. by rewrite lookup_app_r, Nat.sub_diag by lia.
  - rewrite !filter_nil, !app_nil_r. destruct (last _) as [k|]; [|done].
    destruct IH as (e' & Hk & Hl). exists e'. split; [by apply lookup_app_l_Some|done].
Qed.

(** The units the last loop prunes. *)
Definition old_units (all : list (TurnKey * UnitShape)) : list (TurnKey * UnitShape) :=
  filter (λ e, complete e.2 = true ∧ last (filter (λ e, complete e.2 = true) all) ≠ Some e) all.

Definition covered (picked : list (TurnKey * UnitShape)) (id : TurnKey) (i : nat) : bool :=
  existsb (λ e, bool_decide (e.1 = id) && in_unit e.2 i) picked.

Lemma covered_spec picked id i :
  covered picked id i = true ↔ ∃ s, (id, s) ∈ picked ∧ (first s ≤ i < first s + count s)%nat.
Proof.
  unfold covered. rewrite existsb_exists. split.
  - intros ([id' s] & Hin%list_elem_of_In & [Hid%bool_decide_eq_true Hs%in_unit_spec]%andb_true_iff).
    simpl in Hid. subst id'. by exists s.
  - intros (s & Hin%list_elem_of_In & Hs%in_unit_spec). exists (id, s).
    split; [done|]. simpl. by rewrite bool_decide_eq_true_2.
Qed.

Lemma NoDup_fst_functional {K A} (l : list (K * A)) k x y :
  NoDup l.*1 → (k, x) ∈ l → (k, y) ∈ l → x = y.
Proof.
  intros Hnd [i Hi]%list_elem_of_lookup [j Hj]%list_elem_of_lookup.
  assert (i = j); [|naive_solver].
  apply (NoDup_lookup l.*1 i j k); [done| |]; by rewrite list_lookup_fmap, ?Hi, ?Hj.
Qed.

Definition view_of (turns : list (TurnKey * list Message)) (picked : list (TurnKey * UnitShape))
    (p : ProjectedTurns) : Prop :=
  dom p = list_to_set turns.*1 ∧
  ∀ id ms, (id, ms) ∈ turns → p !! id = Some (prune_at (covered picked id) ms).

Section loop.
Context (turns : list (TurnKey * list Message)) (Hnd : NoDup turns.*1).
Context (Hvalid : Forall (λ t, Forall (λ m, validate m = Ok tt) t.2) turns).

Definition unit_in (e : TurnKey * UnitShape) : Prop :=
  ∃ ms, (e.1, ms) ∈ turns ∧ (first e.2 + count e.2 ≤ length ms)%nat.

Lemma prune_unit picked p id s ms :
  view_of turns picked p → (id, ms) ∈ turns → (first s + count s ≤ length ms)%nat →
  Forall (λ e, apart e (id, s)) picked →
  ∃ p', obind (expect (p !! id)) (λ messages, obind (prune_range (count s) (first s) messages)
          (λ messages, Ok (<[id := messages]> p))) = (Ok p' : outcome ContextError ProjectedTurns) ∧
        view_of turns (picked ++ [(id, s)]) p'.
Proof.
  intros [Hd Hp] Hin Hle Hap. rewrite (Hp _ _ Hin). simpl.
  assert (Hvm : Forall (λ m, validate m = Ok tt) ms)
    by exact (proj1 (Forall_forall _ _) Hvalid (id, ms) Hin).
  rewrite prune_range_at; [|done|done|]; simpl.
  2:{ intros i Hi. apply not_true_iff_false. intros (s' & Hs' & ?)%covered_spec.
      pose proof (proj1 (Forall_forall _ _) Hap _ Hs' eq_refl). simpl in *. lia. }
  eexists. split; [done|]. split.
  - rewrite dom_insert_L, Hd. apply subseteq_union_1_L, singleton_subseteq_l.
    apply elem_of_list_to_set. by apply (list_elem_of_fmap_2 fst) in Hin.
  - intros id' ms' Hin'. destruct (decide (id' = id)) as [->|Hne].
    + rewrite lookup_insert_eq. replace ms' with ms by (by eapply NoDup_fst_functional). f_equal.
      apply prune_at_ext. intros i. unfold covered. rewrite existsb_app. simpl.
      by rewrite (bool_decide_eq_true_2 (id = id)), orb_false_r by done.
    + rewrite lookup_insert_ne, (Hp _ _ Hin') by done. f_equal. apply prune_at_ext. intros i.
      unfold covered. rewrite existsb_app. simpl.
      by rewrite (bool_decide_eq_false_2 (id = id')), !orb_false_r by done.
Qed.

Lemma prune_units_view latest rest index picked p :
  view_of turns picked p → Forall unit_in rest → StronglySorted apart rest →
  Forall (λ e, Forall (λ e', apart e e') rest) picked →
  ∃ p', prune_units latest index rest p = Ok p' ∧
        view_of turns (picked ++ (snd <$> filter (λ e, complete e.2.2 = true ∧ Some e.1 ≠ latest)
                                           (zip (seq index (length rest)) rest))) p'.
Proof.
  revert index picked p. induction rest as [|[id s] rest IH]; intros index picked p Hv Hin Hs Hap.
  { exists p. simpl. by rewrite app_nil_r. }
  apply Forall_cons in Hin as [(ms & Hms & Hle) Hin]. apply StronglySorted_inv in Hs as [Hs Hhd].
  assert (Hrest : Forall (λ e, Forall (λ e', apart e e') rest) picked).
  { eapply Forall_impl; [exact Hap|]. intros e He. by apply Forall_cons in He as [_ He]. }
  simpl. rewrite filter_cons. simpl.
  destruct (negb (complete s) || bool_decide (Some index = latest)) eqn:E.
  - rewrite decide_False; [by apply IH|]. apply orb_true_iff in E as [E|E].
    + intros [Hc _]. by rewrite Hc in E.
    + apply bool_decide_eq_true in E. naive_solver.
  - apply orb_false_iff in E as [E1%negb_false_iff E2%bool_decide_eq_false].
    rewrite decide_True by done. rewrite fmap_cons.
    destruct (prune_unit picked p id s ms Hv Hms Hle) as (p1 & Hp1 & Hv1).
    { eapply Forall_impl; [exact Hap|]. intros e He. by apply Forall_cons in He as [He _]. }
    apply obind_ok in Hp1 as (m1 & -> & (m2 & Hm2 & [= <-])%obind_ok). simpl. rewrite Hm2. simpl.
    destruct (IH (S index) (picked ++ [(id, s)]) _ Hv1) as (p2 & Hp2 & Hv2); [done|done| |].
    { apply Forall_app. split; [done|]. by constructor. }
    exists p2. split; [done|]. rewrite <-app_assoc in Hv2. exact Hv2.
Qed.
End loop.

Lemma apart_NoDup turns all : NoDup turns.*1 → unit_list turns = Ok all → NoDup all.
Proof.
  intros Hnd Hu. pose proof (unit_list_apart _ _ Hnd Hu) as Hs.
  assert (Hpos : Forall (λ e, (0 < count e.2)%nat) all).
  { apply Forall_forall. intros [id s] Hin.
    destruct (unit_list_elem _ _ _ _ Hu Hin) as (ms & l & _ & Hl & Hsl).
    apply shapes_tiles in Hl. by destruct (tiles_bounds _ _ _ _ Hl Hsl) as (_ & _ & ?). }
  clear Hu. induction Hs as [|e all Hs IH Ha]; constructor.
  - intros Hin. pose proof (proj1 (Forall_forall _ _) Ha e Hin eq_refl).
    apply Forall_cons in Hpos as [? _]. lia.
  - apply IH. by apply Forall_cons in Hpos as [_ ?].
Qed.

Lemma picked_old all e :
  NoDup all →
  e ∈ snd <$> filter (λ e, complete e.2.2 = true ∧ Some e.1 ≠ rposition all)
                (zip (seq 0 (length all)) all) ↔ e ∈ old_units all.
Proof.
  intros Hnd. pose proof (rposition_spec all) as Hr. unfold old_units.
  rewrite list_elem_of_filter, list_elem_of_fmap. split.
  - intros ([i e'] & -> & [[Hc Hi] (j & Hj)%list_elem_of_lookup]%list_elem_of_filter).
    apply lookup_zip_with_Some in Hj as (? & ? & [= <- <-] & [-> _]%lookup_seq & He).
    simpl in *. split_and!; [done| |by eapply list_elem_of_lookup_2].
    intros Hl. destruct (rposition all) as [k|].
    + destruct Hr as (e2 & Hk & Hl2). rewrite Hl in Hl2. injection Hl2 as <-.
      apply Hi. f_equal. by eapply NoDup_lookup.
    + by rewrite Hr in Hl.
  - intros ([Hc Hl] & (i & Hi)%list_elem_of_lookup). exists (i, e). split; [done|].
    apply list_elem_of_filter. split.
    + split; [done|]. simpl. intros Hk. rewrite <-Hk in Hr. destruct Hr as (e2 & Hi2 & Hl2). congruence.
    + apply list_elem_of_lookup. exists i. apply lookup_zip_with_Some. exists i, e.
      split_and!; [done| |done]. apply lookup_seq. split; [done|]. by eapply lookup_lt_Some.
Qed.

Lemma view_of_ext turns picked picked' p :
  (∀ e, e ∈ picked ↔ e ∈ picked') → view_of turns picked p → view_of turns picked' p.
Proof.
  intros He [Hd Hp]. split; [done|]. intros id ms Hin. rewrite (Hp _ _ Hin). f_equal.
  apply prune_at_ext. intros i. apply eq_bool_prop_intro. rewrite !Is_true_true, !covered_spec.
  by setoid_rewrite He.
Qed.

(** Projecting distinct Turns of valid messages never panics and fails only for a Turn
    whose results are not behind their calls; otherwise the view of a Turn has its messages
    at their places, all of them unchanged except the Tool results inside complete units
    other than the latest complete one, which are pruned. *)
Lemma project_prunes_old_units turns :
  NoDup turns.*1 → Forall (λ t, Forall (λ m, validate m = Ok tt) t.2) turns →
  match project turns with
  | Ok p => ∃ all, unit_list turns = Ok all ∧ view_of turns (old_units all) p
  | Err e => ∃ id ms, (id, ms) ∈ turns ∧ shapes ms true = Err e
  | Panic => False
  end.
Proof.
  intros Hnd Hv. unfold project. rewrite collect_units by (done || set_solver).
  destruct (unit_list turns) as [all|e|] eqn:Hu; simpl;
    [|by apply unit_list_err|by apply unit_list_total in Hu].
  rewrite (right_id_L ∅ (∪)).
  destruct (prune_units_view turns Hnd Hv (rposition all) all 0 [] (list_to_map turns))
    as (p & -> & Hp).
  - split; [apply dom_list_to_map_L|]. intros id ms Hin.
    rewrite (elem_of_list_to_map_1 _ _ ms) by done. f_equal. apply list_eq. intros i.
    rewrite prune_at_lookup. by destruct (ms !! i).
  - apply Forall_forall. intros [id s] Hin.
    destruct (unit_list_elem _ _ _ _ Hu Hin) as (ms & l & Hms & Hl & Hs). exists ms.
    split; [done|]. apply shapes_tiles in Hl. by destruct (tiles_bounds _ _ _ _ Hl Hs) as (_ & ? & _).
  - by eapply unit_list_apart.
  - constructor.
  - exists all. split; [done|]. eapply view_of_ext; [|exact Hp]. intros e.
    apply picked_old. by eapply apart_NoDup.
Qed.
