(* ===== verification/ContextOutcomes.v ===== *)
(** * Outcomes of Tool calls in a context

    [crates/rsi-agent/context/src/outcomes.rs] on the messages of one Turn: the batches of
    model calls, the checks of a batch and of a restored Turn, and the provider view that
    answers every call.  [usize] indices are integers of [Z] as keys of [Batches] and
    positions ([nat]) in the message list.  The weights of [Batches] are left out. *)

From S2P Require Import Prelude BTree Text TextMap ToolOrigin TurnFacts ContextMessage ContextPruning.

Open Scope outcome_scope.

Record ProgramCall := {
  ordinal : Z;
  nested_identity : ToolResultIdentity;
  nested_started : bool
}.

Record ProgramCalls := { last_ordinal : Z; active : tmap ProgramCall }.

Record Call := {
  effect : option text;
  identity : option ToolResultIdentity;
  started : bool;
  settled : bool;
  superseded : bool;
  program : option ProgramCalls
}.

Definition default_call : Call :=
  {| effect := None; identity := None; started := false; settled := false;
     superseded := false; program := None |}.

Record Batch := { source : text; calls : tmap Call }.

(** [invalid()] *)
Definition invalid_provenance : ContextError := Invalid "invalid Tool outcome provenance in context".

Definition batch_values (batches : bmap Batch) : list Batch := snd <$> batches.
Definition any_batch (P : Batch → bool) (batches : bmap Batch) : bool :=
  existsb P (batch_values batches).

(** ** Admission of a model batch *)
Fixpoint insert_calls (batches : bmap Batch) (ids : list text) (calls : tmap Call)
    : outcome ContextError (tmap Call) :=
  match ids with
  | [] => Ok calls
  | id :: ids =>
      if tm_contains id calls || any_batch (λ b, tm_contains id (ContextOutcomes.calls b)) batches
      then Err invalid_provenance
      else insert_calls batches ids (tm_insert id default_call calls)
  end.

Definition prepare_batch (batches : bmap Batch) (index : nat) (source : text) (message : Message)
    : outcome ContextError (option Batch) :=
  let? calls := insert_calls batches (calls_of message) [] in
  if bt_contains (Z.of_nat index) batches ||
     any_batch (λ b, bool_decide (ContextOutcomes.source b = source)) batches
  then Err invalid_provenance
  else Ok (if bool_decide (calls = []) then None else Some {| source := source; calls := calls |}).

(** ** The provider view *)
Inductive ViewMessage :=
| Retained (m : Message)
| Missing (call_id : text) (t : text).

Definition SUPERSEDED_TEXT : text :=
  lit "This tool call was not executed because newer input superseded it.".
Definition UNKNOWN_TEXT : text :=
  lit "No result was durably recorded for this tool call. Its outcome is unknown. Do not assume it had no effects or retry it blindly.".
Definition UNSTARTED_TEXT : text :=
  lit "This tool call was not executed; the turn ended before it was started.".

(** [matches!(m.content(), [MessageContent::ToolResult { call_id, .. }] if call_id == &call.id)] *)
Definition is_result (call : text) (m : Message) : bool :=
  match content m with
  | [MessageContent.ToolResult call_id _ _] => bool_decide (call_id = call)
  | _ => false
  end.

Section view.
Context {A : Type} (messages : list Message) (batches : bmap Batch) (terminal : bool).
Context (emit : ViewMessage → outcome ContextError A).

(** What a call without a result is answered with. *)
Definition missing_text (state : Call) : outcome ContextError text :=
  if superseded state then Ok SUPERSEDED_TEXT
  else if negb terminal then Err (Invalid "unfinished live Tool batch in provider context")
  else if started state then Ok UNKNOWN_TEXT
  else Ok UNSTARTED_TEXT.

(** The loop over the calls of one message: what is emitted and the index behind it. *)
Fixpoint visit_calls (batch : option Batch) (ids : list text) (index : nat)
    : outcome ContextError (list A * nat) :=
  match ids with
  | [] => Ok ([], index)
  | call :: ids =>
      let? state := ok_or (batch ≫= λ b, tm_get call (ContextOutcomes.calls b)) invalid_provenance in
      match (messages !! index) ≫= (λ m, if is_result call m then Some m else None) with
      | Some message =>
          if negb (settled state) then Err invalid_provenance else
          let? out := emit (Retained message) in
          let? (rest, index) := visit_calls batch ids (S index) in
          Ok (out :: rest, index)
      | None =>
          if settled state then Err invalid_provenance else
          let? text := missing_text state in
          let? out := emit (Missing call text) in
          let? (rest, index) := visit_calls batch ids index in
          Ok (out :: rest, index)
      end
  end.

(** The [while] loop; every turn of it moves the index. *)
Fixpoint visit_from (fuel : nat) (index : nat) : outcome ContextError (list A) :=
  match fuel, messages !! index with
  | _, None => Ok []
  | O, Some _ => Panic
  | S fuel, Some message =>
      if bool_decide (role message = Tool) then Err invalid_provenance else
      let? out := emit (Retained message) in
      let? (answers, index') := visit_calls (bt_get (Z.of_nat index) batches) (calls_of message) (S index) in
      let? rest := visit_from fuel index' in
      Ok (out :: answers ++ rest)
  end.

Definition visit_view : outcome ContextError (list A) := visit_from (length messages) 0.
End view.

Definition emit_message (v : ViewMessage) : outcome ContextError Message :=
  match v with
  | Retained message => Ok message
  | Missing call_id text =>
      match tool_result call_id [MessageContent.Text text] true with
      | Ok m => Ok m
      | Err reason => Err (Invalid reason)
      | Panic => Panic
      end
  end.

Definition normalize (messages : list Message) (batches : bmap Batch) (terminal : bool)
    : outcome ContextError (list Message) :=
  visit_view messages batches terminal emit_message.

Definition validate_view (messages : list Message) (batches : bmap Batch) (terminal : bool)
    : outcome ContextError unit :=
  let? _ := visit_view messages batches terminal (λ _, Ok tt) in Ok tt.

(** ** The checks of a restored Turn *)
Record Seen := { sources : gset text; effects : gset text; call_ids : gset text }.

Definition err_if (b : bool) : outcome ContextError unit :=
  if b then Err invalid_provenance else Ok tt.

(** The nested calls of a program: fresh effects, positive distinct ordinals. *)
Fixpoint validate_active (last : Z) (active : tmap ProgramCall) (ordinals : gset Z) (effects : gset text)
    : outcome ContextError (gset text) :=
  match active with
  | [] => Ok effects
  | (effect, nested) :: rest =>
      if (ordinal nested =? 0) || bool_decide (ordinal nested ∈ ordinals) ||
         (last <? ordinal nested) || bool_decide (effect ∈ effects)
      then Err invalid_provenance
      else validate_active last rest ({[ordinal nested]} ∪ ordinals) ({[effect]} ∪ effects)
  end.

Definition validate_program (call : Call) (effects : gset text) : outcome ContextError (gset text) :=
  match program call with
  | None => Ok effects
  | Some p =>
      if bool_decide (effect call = None) || (MAXIMUM_PROGRAM_OUTSTANDING_CALLS <? len (active p)) ||
         (negb (bool_decide (active p = [])) &&
          (negb (started call) || settled call || superseded call))
      then Err invalid_provenance
      else validate_active (last_ordinal p) (active p) ∅ effects
  end.

Definition validate_call (id : text) (call : Call) (seen : Seen) : outcome ContextError Seen :=
  let? _ := err_if (xorb (bool_decide (is_Some (effect call))) (bool_decide (is_Some (identity call))) ||
                    match identity call with
                    | Some i => negb (bool_decide (identity_call_id i = id))
                    | None => false
                    end) in
  let? effects := validate_program call (effects seen) in
  let? _ := err_if (bool_decide (id ∈ call_ids seen)) in
  let? effects :=
    match effect call with
    | None => Ok effects
    | Some e =>
        if bool_decide (e ∈ effects) || (settled call && negb (started call))
        then Err invalid_provenance else Ok ({[e]} ∪ effects)
    end in
  Ok {| sources := sources seen; effects := effects; call_ids := {[id]} ∪ call_ids seen |}.

Fixpoint validate_calls (l : tmap Call) (seen : Seen) : outcome ContextError Seen :=
  match l with
  | [] => Ok seen
  | (id, call) :: l => let? seen := validate_call id call seen in validate_calls l seen
  end.

(** The batch against its message. *)
Definition validate_message (messages : list Message) (index : Z) (batch : Batch)
    : outcome ContextError unit :=
  let? message := ok_or (messages !! Z.to_nat index) invalid_provenance in
  let ids := calls_of message in
  err_if (bool_decide (ids = []) || negb (len ids =? len (calls batch)) ||
          existsb (λ id, negb (tm_contains id (calls batch))) ids ||
          existsb (λ e, (started e.2 && bool_decide (effect e.2 = None)) ||
                        (superseded e.2 && (bool_decide (is_Some (effect e.2)) || settled e.2)))
            (calls batch)).

Fixpoint validate_batches (messages : list Message) (batches : bmap Batch) (seen : Seen)
    : outcome ContextError unit :=
  match batches with
  | [] => Ok tt
  | (index, batch) :: rest =>
      let? _ := err_if (bool_decide (source batch ∈ sources seen)) in
      let seen := {| sources := {[source batch]} ∪ sources seen; effects := effects seen;
                     call_ids := call_ids seen |} in
      let? seen := validate_calls (calls batch) seen in
      let? _ := validate_message messages index batch in
      validate_batches messages rest seen
  end.

(** [outcomes::validate] *)
Definition validate_turn (batches : bmap Batch) (messages : list Message) : outcome ContextError unit :=
  let? _ := validate_batches messages batches {| sources := ∅; effects := ∅; call_ids := ∅ |} in
  let? _ := err_if (existsb (λ e, negb (bool_decide (calls_of e.2 = [])) &&
                                  negb (bt_contains (Z.of_nat e.1) batches))
                      (zip (List.seq 0 (length messages)) messages)) in
  validate_view messages batches true.
