(* ===== verification/ContextFold.v ===== *)
(** * The context fold

    [ContextFold] of [crates/rsi-agent/context/src/lib.rs] and its Tool outcomes
    ([outcomes.rs]): the messages of the Turns as the Facts give them, bounded retention,
    and the messages a request is built from.  The JSON length of a message
    ([encoded_message_bytes]) and of a list of messages is the parameter [weight].

    Left out: the byte credits of a fold (two booleans of [ingest] say whether they were
    granted), Fact digests and checkpoints, claimed inputs and their conversion to messages
    ([InputsPrepared] carries the messages), the assembly of model events ([AttemptSettled]
    carries its result), compaction attempts and installed summaries.  [semantic] says
    whether the fold is in semantic mode, in which retained Turns are never evicted. *)

From S2P Require Import Prelude BTree Text TextMap ToolOrigin TurnFacts.
From S2P Require Import ContextMessage ContextPruning ContextOutcomes.

Open Scope outcome_scope.

Definition MAXIMUM_CONTEXT_MESSAGES : Z := 4096.
Definition MAXIMUM_CONTEXT_BYTES : Z := 32 * 1024 * 1024.

Record ContextLimits := { max_messages : Z; max_bytes : Z }.

Definition limits_new (max_messages max_bytes : Z) : outcome ContextError ContextLimits :=
  if (max_messages =? 0) || (MAXIMUM_CONTEXT_MESSAGES <? max_messages) ||
     (max_bytes =? 0) || (MAXIMUM_CONTEXT_BYTES <? max_bytes)
  then Err (Invalid "context limits are zero or exceed the absolute bounds")
  else Ok {| max_messages := max_messages; max_bytes := max_bytes |}.

Record ProjectedTurn := {
  turn_key : TurnKey;
  messages : list Message;
  message_bytes : Z;
  terminal : bool;
  batches : bmap Batch
}.

Record ActiveAssembler := { assembler_turn : text; assembler_model : ModelRef }.

Record ContextFold := {
  prompt : text;
  persona : option text;
  semantic : bool;
  retention_limits : option ContextLimits;
  system_message : option Message;
  system_message_bytes : Z;
  ingestion_failed : bool;
  omitted_turns : Z;
  turns : list ProjectedTurn;
  base_ordinal : Z;
  turn_index : gmap TurnKey Z;
  assemblers : gmap text ActiveAssembler;
  retained_messages : Z;
  retained_message_bytes : Z
}.

(** ** Facts *)
Module ToolContent.
Inductive t := Text (text : text) | Image (media : MediaRef).
End ToolContent.

(** [ToolResult] of the Tools protocol; its value by its JSON text. *)
Record ToolOutput := {
  output_content : list ToolContent.t;
  output_value : text;
  output_is_error : bool
}.

Module ToolBody.
Inductive t :=
| ToolCallsSuperseded (source_model_effect : text)
| ToolIntent (effect : text) (origin : ToolOrigin) (program_role : ToolProgramRole)
    (identity : ToolResultIdentity)
| ToolRejected (effect : text) (origin : ToolOrigin) (program_role : ToolProgramRole)
    (identity : ToolResultIdentity) (rejection : text)
| ToolStarted (effect : text) (identity : ToolResultIdentity)
| ToolResult (effect : text) (identity : ToolResultIdentity) (result : ToolOutput).
End ToolBody.

Module ContentBlock.
Inductive t := Text (text : text) | Reasoning (text : text) | ToolCall (call : ToolCall).
End ContentBlock.

(** The result of [LanguageAssembler::finish] on the events of an attempt. *)
Inductive Assembly :=
| Finished (content : list ContentBlock.t) (replay : option ProviderExtension)
| Cancelled (content : list ContentBlock.t)
| Incomplete (content : list ContentBlock.t)
| ProviderFailed (content : list ContentBlock.t) (code : text)
| Malformed (reason : string).

Module ContextBody.
Inductive t :=
| Instructions (sections : list text)
| TurnAccepted
| ImageRequested (prompt : text)
| InputsPrepared (messages : list Message)
| ModelIntent (effect : text) (deployment model : text)
| AttemptSettled (effect : text) (assembly : Assembly) (retain_partial : bool)
| Tool (body : ToolBody.t)
| ImageOutput (media : MediaRef)
| TurnTerminal
| Unread.
End ContextBody.

(** ** Messages from Facts *)
Definition lift (r : outcome string Message) : outcome ContextError Message :=
  match r with Ok m => Ok m | Err reason => Err (Invalid reason) | Panic => Panic end.

Definition is_hex_digest (t : text) : bool :=
  (len t =? 64) && forallb (λ c, ((48 <=? c) && (c <=? 57)) || ((97 <=? c) && (c <=? 102))) t.

(** [media_descriptor]: [MediaDescriptor::new] and [with_image_dimensions]. *)
Definition media_descriptor (m : MediaRef) : outcome ContextError Media.t :=
  let plain := {| Media.kind := Media.Image; Media.mime_type := mime m; Media.byte_len := bytes m;
                  Media.sha256 := media_id m; Media.width := None; Media.height := None;
                  Media.duration_ms := None |} in
  let sized := {| Media.kind := Media.Image; Media.mime_type := mime m; Media.byte_len := bytes m;
                  Media.sha256 := media_id m; Media.width := Some (width m);
                  Media.height := Some (height m); Media.duration_ms := None |} in
  if negb (is_hex_digest (media_id m)) then Err (Invalid "InvalidInput") else
  match Media.validate plain with
  | Ok _ => match Media.validate sized with
            | Ok _ => Ok sized
            | Err reason => Err (Invalid reason)
            | Panic => Panic
            end
  | Err reason => Err (Invalid reason)
  | Panic => Panic
  end.

Fixpoint tool_content (l : list ToolContent.t) : outcome ContextError (list MessageContent.t) :=
  match l with
  | [] => Ok []
  | ToolContent.Text t :: l => let? rest := tool_content l in Ok (MessageContent.Text t :: rest)
  | ToolContent.Image m :: l =>
      let? descriptor := media_descriptor m in
      let? rest := tool_content l in Ok (MessageContent.Image descriptor :: rest)
  end.

Definition tool_message (call_id : text) (result : ToolOutput) : outcome ContextError Message :=
  let? content := tool_content (output_content result) in
  lift (tool_result call_id
          (if bool_decide (content = []) then [MessageContent.Text (output_value result)] else content)
          (output_is_error result)).

Definition rejected_tool_message (call_id rejection : text) : outcome ContextError Message :=
  lift (tool_result call_id [MessageContent.Text rejection] true).

Definition is_reasoning (block : ContentBlock.t) : bool :=
  match block with ContentBlock.Reasoning _ => true | _ => false end.

Definition last_reasoning (l : list ContentBlock.t) : option nat :=
  last (fst <$> filter (λ e, is_reasoning e.2 = true) (zip (List.seq 0 (length l)) l)).

Definition assistant_message (content : list ContentBlock.t) (replay : option ProviderExtension)
    : outcome ContextError Message :=
  let last := last_reasoning content in
  lift (assistant (imap (λ index block,
    match block with
    | ContentBlock.Text t => MessageContent.Text t
    | ContentBlock.Reasoning t =>
        MessageContent.Reasoning t (if bool_decide (Some index = last) then replay else None)
    | ContentBlock.ToolCall call => MessageContent.ToolCall call
    end) content)).

(** [instructions.push_str("\n\n")] before all but the first nonempty part. *)
Definition append_section (instructions section : text) : text :=
  (if bool_decide (instructions = []) then [] else instructions ++ [10; 10]) ++ section.

Definition omission_message (omitted : Z) : outcome ContextError Message :=
  lift (developer_text (lit "[Context omitted " ++ dec omitted ++ lit " complete earlier turn(s).]")).

(** ** Setters *)
Definition set_batches (t : ProjectedTurn) (b : bmap Batch) : ProjectedTurn :=
  {| turn_key := turn_key t; messages := messages t; message_bytes := message_bytes t;
     terminal := terminal t; batches := b |}.
Definition set_terminal (t : ProjectedTurn) : ProjectedTurn :=
  {| turn_key := turn_key t; messages := messages t; message_bytes := message_bytes t;
     terminal := true; batches := batches t |}.
Definition set_turns (f : ContextFold) (l : list ProjectedTurn) : ContextFold :=
  {| prompt := prompt f; persona := persona f; semantic := semantic f;
     retention_limits := retention_limits f; system_message := system_message f;
     system_message_bytes := system_message_bytes f; ingestion_failed := ingestion_failed f;
     omitted_turns := omitted_turns f; turns := l; base_ordinal := base_ordinal f;
     turn_index := turn_index f; assemblers := assemblers f;
     retained_messages := retained_messages f; retained_message_bytes := retained_message_bytes f |}.
Definition set_retained (f : ContextFold) (n b : Z) : ContextFold :=
  {| prompt := prompt f; persona := persona f; semantic := semantic f;
     retention_limits := retention_limits f; system_message := system_message f;
     system_message_bytes := system_message_bytes f; ingestion_failed := ingestion_failed f;
     omitted_turns := omitted_turns f; turns := turns f; base_ordinal := base_ordinal f;
     turn_index := turn_index f; assemblers := assemblers f;
     retained_messages := n; retained_message_bytes := b |}.
Definition set_assemblers (f : ContextFold) (a : gmap text ActiveAssembler) : ContextFold :=
  {| prompt := prompt f; persona := persona f; semantic := semantic f;
     retention_limits := retention_limits f; system_message := system_message f;
     system_message_bytes := system_message_bytes f; ingestion_failed := ingestion_failed f;
     omitted_turns := omitted_turns f; turns := turns f; base_ordinal := base_ordinal f;
     turn_index := turn_index f; assemblers := a;
     retained_messages := retained_messages f; retained_message_bytes := retained_message_bytes f |}.
Definition set_index (f : ContextFold) (omitted base : Z) (index : gmap TurnKey Z) : ContextFold :=
  {| prompt := prompt f; persona := persona f; semantic := semantic f;
     retention_limits := retention_limits f; system_message := system_message f;
     system_message_bytes := system_message_bytes f; ingestion_failed := ingestion_failed f;
     omitted_turns := omitted; turns := turns f; base_ordinal := base;
     turn_index := index; assemblers := assemblers f;
     retained_messages := retained_messages f; retained_message_bytes := retained_message_bytes f |}.
Definition set_system (f : ContextFold) (m : option Message) (n : Z) : ContextFold :=
  {| prompt := prompt f; persona := persona f; semantic := semantic f;
     retention_limits := retention_limits f; system_message := m;
     system_message_bytes := n; ingestion_failed := ingestion_failed f;
     omitted_turns := omitted_turns f; turns := turns f; base_ordinal := base_ordinal f;
     turn_index := turn_index f; assemblers := assemblers f;
     retained_messages := retained_messages f; retained_message_bytes := retained_message_bytes f |}.

Definition overflow : ContextError := Invalid "context byte count overflowed".
Definition corrupt : ContextError := Invalid "turn index is corrupt".

(** [encoded_array_bytes] *)
Definition encoded_array_bytes (items item_bytes : Z) : outcome ContextError Z :=
  ok_or (checked_add usize_max item_bytes (saturating_sub items 1)
           ≫= λ n, checked_add usize_max n 2) overflow.

Section fold.
Context (weight : Message → Z).

(** [assembled_system] on the frozen prompt and persona. *)
Definition assembled_system (f : ContextFold) (sections : list text)
    : outcome ContextError (option Message * Z) :=
  let instructions := match persona f with
                      | Some persona => append_section (prompt f) persona
                      | None => prompt f
                      end in
  let instructions := foldl append_section instructions sections in
  if bool_decide (instructions = []) then Ok (None, 0) else
  let? m := lift (message_new System [MessageContent.Text instructions]) in
  Ok (Some m, weight m).

Definition set_step_instructions (f : ContextFold) (sections : list text) : outcome ContextError ContextFold :=
  let? (message, bytes) := assembled_system f sections in Ok (set_system f message bytes).

(** ** Turns *)
Definition relative_index (f : ContextFold) (absolute : Z) : outcome ContextError nat :=
  match checked_sub absolute (base_ordinal f) with
  | Some index => if index <? len (turns f) then Ok (Z.to_nat index) else Err corrupt
  | None => Err corrupt
  end.

Definition turn_ordinal (f : ContextFold) (id : TurnKey) : outcome ContextError Z :=
  ok_or (turn_index f !! id) (Invalid "Fact references an unknown turn").

(** [turn_mut]: the place of a Turn and its value. *)
Definition turn_mut (f : ContextFold) (id : TurnKey) : outcome ContextError (nat * ProjectedTurn) :=
  let? ordinal := turn_ordinal f id in
  let? index := relative_index f ordinal in
  let? turn := ok_or (turns f !! index) corrupt in
  Ok (index, turn).

Definition require_live_turn (f : ContextFold) (id : TurnKey) : outcome ContextError unit :=
  let? ordinal := turn_ordinal f id in
  let? index := relative_index f ordinal in
  let? turn := expect (turns f !! index) in
  if terminal turn then Err (Invalid "Fact references a terminal turn") else Ok tt.

(** ** Retention *)
Definition front_terminal (f : ContextFold) : bool :=
  match turns f with t :: _ => terminal t | [] => false end.

Definition remove_oldest_turn (f : ContextFold) : outcome ContextError ContextFold :=
  let? removed := expect (head (turns f)) in
  let? n := ok_or (checked_sub (retained_messages f) (len (messages removed)))
              (Invalid "context message count underflowed") in
  let? b := ok_or (checked_sub (retained_message_bytes f) (message_bytes removed))
              (Invalid "context byte count underflowed") in
  let? omitted := ok_or (checked_add usize_max (omitted_turns f) 1)
                    (Invalid "omitted turn count overflowed") in
  let? base := ok_or (checked_add usize_max (base_ordinal f) 1) (Invalid "turn ordinal overflowed") in
  Ok (set_index (set_retained (set_turns f (tail (turns f))) n b) omitted base
        (delete (turn_key removed) (turn_index f))).

Fixpoint admit_loop (fuel : nat) (f : ContextFold) (bytes : Z) : outcome ContextError ContextFold :=
  if (MAXIMUM_CONTEXT_MESSAGES <=? retained_messages f) ||
     (saturating_sub MAXIMUM_CONTEXT_BYTES (retained_message_bytes f) <? bytes)
  then
    if semantic f || bool_decide (retention_limits f = None) || negb (front_terminal f)
    then Err TooLarge
    else match fuel with
         | O => Panic
         | S fuel => let? f := remove_oldest_turn f in admit_loop fuel f bytes
         end
  else Ok f.

(** Every turn of the loop removes a Turn. *)
Definition admit_message (f : ContextFold) (bytes : Z) : outcome ContextError ContextFold :=
  admit_loop (length (turns f)) f bytes.

Definition retained_shape_exceeds (f : ContextFold) (limits : ContextLimits) : outcome ContextError bool :=
  let? count := ok_or (checked_add usize_max (Z.b2z (bool_decide (is_Some (system_message f))))
                         (Z.b2z (0 <? omitted_turns f))
                       ≫= λ n, checked_add usize_max n (retained_messages f))
                  (Invalid "context message count overflowed") in
  let? bytes :=
    if 0 <? omitted_turns f then
      let? notice := omission_message (omitted_turns f) in
      ok_or (checked_add usize_max (system_message_bytes f) (weight notice)) overflow
    else Ok (system_message_bytes f) in
  let? bytes := ok_or (checked_add usize_max bytes (retained_message_bytes f)) overflow in
  let? encoded := encoded_array_bytes count bytes in
  Ok ((max_messages limits <? count) || (max_bytes limits <? encoded)).

Fixpoint compact_loop (fuel : nat) (f : ContextFold) (limits : ContextLimits) : outcome ContextError ContextFold :=
  let? exceeds := retained_shape_exceeds f limits in
  if negb exceeds || negb (front_terminal f) then Ok f else
  match fuel with
  | O => Panic
  | S fuel => let? f := remove_oldest_turn f in compact_loop fuel f limits
  end.

Definition compact_retained (f : ContextFold) : outcome ContextError ContextFold :=
  if semantic f then
    if (MAXIMUM_CONTEXT_MESSAGES <? retained_messages f) ||
       (MAXIMUM_CONTEXT_BYTES <? retained_message_bytes f) then Err TooLarge else Ok f
  else match retention_limits f with
       | None => Ok f
       | Some limits => compact_loop (length (turns f)) f limits
       end.

(** ** New Turns and messages *)
Definition duplicate_turn : ContextError := Invalid "turn was accepted more than once".

Definition insert_empty_turn (f : ContextFold) (id : TurnKey) : outcome ContextError ContextFold :=
  if bool_decide (is_Some (turn_index f !! id)) then Err duplicate_turn else
  let? index := ok_or (checked_add usize_max (base_ordinal f) (len (turns f)))
                  (Invalid "turn ordinal overflowed") in
  let turn := {| turn_key := id; messages := []; message_bytes := 0; terminal := false; batches := [] |} in
  Ok (set_index (set_turns f (turns f ++ [turn])) (omitted_turns f) (base_ordinal f)
        (<[id := index]> (turn_index f))).

Definition insert_turn (f : ContextFold) (id : TurnKey) (message : Message) : outcome ContextError ContextFold :=
  if bool_decide (is_Some (turn_index f !! id)) then Err duplicate_turn else
  let message_bytes := weight message in
  let? f := admit_message f message_bytes in
  let? n := ok_or (checked_add usize_max (retained_messages f) 1)
              (Invalid "context message count overflowed") in
  let? b := ok_or (checked_add usize_max (retained_message_bytes f) message_bytes) overflow in
  let? index := ok_or (checked_add usize_max (base_ordinal f) (len (turns f)))
                  (Invalid "turn ordinal overflowed") in
  let turn := {| turn_key := id; messages := [message]; message_bytes := message_bytes;
                 terminal := false; batches := [] |} in
  Ok (set_retained (set_index (set_turns f (turns f ++ [turn])) (omitted_turns f) (base_ordinal f)
                      (<[id := index]> (turn_index f))) n b).

Definition push_turn_message_with (f : ContextFold) (id : TurnKey) (message : Message)
    (commit : ProjectedTurn → outcome ContextError ProjectedTurn) : outcome ContextError ContextFold :=
  let? ordinal := turn_ordinal f id in
  let bytes := weight message in
  let? f := admit_message f bytes in
  let? index := relative_index f ordinal in
  let? n := ok_or (checked_add usize_max (retained_messages f) 1)
              (Invalid "context message count overflowed") in
  let? b := ok_or (checked_add usize_max (retained_message_bytes f) bytes) overflow in
  let? turn := ok_or (turns f !! index) corrupt in
  let? turn_bytes := ok_or (checked_add usize_max (message_bytes turn) bytes) overflow in
  let? turn := commit {| turn_key := turn_key turn; messages := messages turn ++ [message];
                         message_bytes := turn_bytes; terminal := terminal turn;
                         batches := batches turn |} in
  Ok (set_retained (set_turns f (<[index := turn]> (turns f))) n b).

Definition push_turn_message (f : ContextFold) (id : TurnKey) (message : Message)
    : outcome ContextError ContextFold :=
  push_turn_message_with f id message (λ turn, Ok turn).

Fixpoint push_messages (f : ContextFold) (id : TurnKey) (l : list Message) : outcome ContextError ContextFold :=
  match l with
  | [] => Ok f
  | message :: l => let? f := push_turn_message f id message in push_messages f id l
  end.

(** ** Model attempts *)
Definition start_model (f : ContextFold) (id : TurnKey) (effect deployment model : text)
    : outcome ContextError ContextFold :=
  let? _ := require_live_turn f id in
  let? model := match model_ref_new deployment model with
                | Ok m => Ok m
                | Err _ => Err (Invalid "invalid AI contract")
                | Panic => Panic
                end in
  if bool_decide (is_Some (assemblers f !! effect))
  then Err (Invalid "model effect intent was duplicated")
  else Ok (set_assemblers f (<[effect := {| assembler_turn := id.2; assembler_model := model |}]>
                               (assemblers f))).

Definition partial_text (reason : text) : text :=
  [10] ++ lit "[Interrupted model attempt: " ++ reason ++
  lit "; partial output, no tool execution authorized]".

Definition push_partial (f : ContextFold) (id : TurnKey) (content : list ContentBlock.t) (reason : text)
    : outcome ContextError ContextFold :=
  let safe := filter (λ b, match b with ContentBlock.ToolCall _ => false | _ => true end = true) content in
  if bool_decide (safe = []) then Ok f else
  let? message := assistant_message (safe ++ [ContentBlock.Text (partial_text reason)]) None in
  push_turn_message f id message.

(** The end of [apply_model_event]: the whole output of a conversation attempt. *)
Definition complete_model (f : ContextFold) (id : TurnKey) (effect : text)
    (content : list ContentBlock.t) (replay : option ProviderExtension) : outcome ContextError ContextFold :=
  let? message := assistant_message content replay in
  let? (_, turn) := turn_mut f id in
  let index := length (messages turn) in
  let? batch := prepare_batch (batches turn) index effect message in
  push_turn_message_with f id message (λ turn,
    Ok match batch with
       | Some batch => set_batches turn (bt_insert (Z.of_nat index) batch (batches turn))
       | None => turn
       end).

(** [apply_model_event] on the events of a settled attempt. *)
Definition settle_attempt (f : ContextFold) (id : TurnKey) (effect : text) (assembly : Assembly)
    (retain_partial : bool) : outcome ContextError ContextFold :=
  let? active := ok_or (assemblers f !! effect) (Invalid "model event has no matching intent") in
  if negb (bool_decide (assembler_turn active = id.2))
  then Err (Invalid "model event changed its owning turn") else
  let f := set_assemblers f (delete effect (assemblers f)) in
  match assembly with
  | Finished content replay => complete_model f id effect content replay
  | Cancelled content => if retain_partial then push_partial f id content (lit "cancelled") else Ok f
  | Incomplete content => if retain_partial then push_partial f id content (lit "max_tokens") else Ok f
  | ProviderFailed content code => if retain_partial then push_partial f id content code else Ok f
  | Malformed reason => Err (Invalid reason)
  end.

(** ** Tool outcomes *)
Definition all_calls (b : bmap Batch) : list (Z * text * Call) :=
  b ≫= λ e, (λ c, (e.1, c.1, c.2)) <$> calls e.2.

(** [find_call_mut]: the key and the id of the first call that satisfies the predicate. *)
Definition find_call_mut (b : bmap Batch) (P : Batch → text → Call → bool) : option (Z * text * Call) :=
  head (b ≫= λ e, (λ c, (e.1, c.1, c.2)) <$> filter (λ c, P e.2 c.1 c.2 = true) (calls e.2)).

Definition set_calls (b : Batch) (l : tmap Call) : Batch := {| source := source b; calls := l |}.

(** The assignment through the reference that [find_call_mut] gives. *)
Definition put_call (b : bmap Batch) (key : Z) (id : text) (f : Call → Call) : bmap Batch :=
  bt_update key (λ batch, set_calls batch (tm_alter id f (calls batch))) b.

Definition set_program (p : option ProgramCalls) (c : Call) : Call :=
  {| effect := effect c; identity := identity c; started := started c; settled := settled c;
     superseded := superseded c; program := p |}.
Definition set_started (c : Call) : Call :=
  {| effect := effect c; identity := identity c; started := true; settled := settled c;
     superseded := superseded c; program := program c |}.
Definition set_settled (c : Call) : Call :=
  {| effect := effect c; identity := identity c; started := started c; settled := true;
     superseded := superseded c; program := program c |}.
Definition set_superseded (c : Call) : Call :=
  {| effect := effect c; identity := identity c; started := started c; settled := settled c;
     superseded := true; program := program c |}.
Definition set_intent (e : text) (i : ToolResultIdentity) (p : option ProgramCalls) (c : Call) : Call :=
  {| effect := Some e; identity := Some i; started := started c; settled := settled c;
     superseded := superseded c; program := p |}.

(** The order check of [settle_tool_call]: no call behind this one is settled. *)
Fixpoint later_settled (batch : Batch) (call_id : text) (past_call : bool) (ids : list text)
    : outcome ContextError unit :=
  match ids with
  | [] => Ok tt
  | id :: ids =>
      if past_call then
        let? call := expect (tm_get id (calls batch)) in
        if settled call then Err invalid_provenance
        else later_settled batch call_id (past_call || bool_decide (id = call_id)) ids
      else later_settled batch call_id (past_call || bool_decide (id = call_id)) ids
  end.

Definition settled_count (batch : Batch) : Z :=
  len (filter (λ c, settled c.2 = true) (calls batch)).

(** [settle_tool_call] *)
Definition settle_tool_call (f : ContextFold) (id : TurnKey) (call_id : text) (effect : option text)
    (message : Message) : outcome ContextError ContextFold :=
  let? (_, turn) := turn_mut f id in
  let? (index, _, call) := ok_or (find_call_mut (batches turn) (λ _ i _, bool_decide (i = call_id)))
                             invalid_provenance in
  if settled call || superseded call ||
     match ContextOutcomes.effect call with
     | Some expected => negb (bool_decide (effect = Some expected)) || negb (started call)
     | None => false
     end
  then Err invalid_provenance else
  let? batch := expect (bt_get index (batches turn)) in
  let settled := settled_count batch in
  let? head := expect (messages turn !! Z.to_nat index) in
  let? _ := later_settled batch call_id false (calls_of head) in
  if negb (len (messages turn) =? index + 1 + settled) then Err invalid_provenance else
  push_turn_message_with f id message (λ turn,
    let? batch := expect (bt_get index (batches turn)) in
    let? _ := expect (tm_get call_id (calls batch)) in
    Ok (set_batches turn (put_call (batches turn) index call_id set_settled))).

Definition put_turn (f : ContextFold) (index : nat) (turn : ProjectedTurn) : ContextFold :=
  set_turns f (<[index := turn]> (turns f)).

(** A program's intent ([is_intent]) or rejection under its parent. *)
Definition program_call (b : bmap Batch) (effect parent_effect : text) (n : Z)
    (role : ToolProgramRole) (call : ToolResultIdentity) (is_intent : bool)
    : outcome ContextError (bmap Batch) :=
  let? (key, id, parent) :=
    ok_or (find_call_mut b (λ _ _ c, bool_decide (ContextOutcomes.effect c = Some parent_effect)))
      invalid_provenance in
  if negb (started parent) || settled parent || superseded parent || negb (bool_decide (role = Callable))
  then Err invalid_provenance else
  let? p := ok_or (program parent) invalid_provenance in
  if negb (bool_decide (checked_add u32_max (last_ordinal p) 1 = Some n)) ||
     (MAXIMUM_PROGRAM_OUTSTANDING_CALLS <=? len (active p)) || tm_contains effect (active p)
  then Err invalid_provenance else
  let p := {| last_ordinal := n;
              active := if is_intent
                        then tm_insert effect {| ordinal := n; nested_identity := call;
                                                 nested_started := false |} (active p)
                        else active p |} in
  Ok (put_call b key id (set_program (Some p))).

(** The start ([is_start]) or result of a program's call; [None] when no program has it. *)
Definition program_outcome (b : bmap Batch) (effect : text) (call : ToolResultIdentity) (is_start : bool)
    : outcome ContextError (option (bmap Batch)) :=
  match find_call_mut b (λ _ _ c, match program c with
                                  | Some p => tm_contains effect (active p)
                                  | None => false
                                  end) with
  | Some (key, id, parent) =>
      let? p := ok_or (program parent) invalid_provenance in
      let? nested := ok_or (tm_get effect (active p)) invalid_provenance in
      if negb (bool_decide (nested_identity nested = call)) then Err invalid_provenance else
      if is_start then
        if nested_started nested then Err invalid_provenance else
        let p := {| last_ordinal := last_ordinal p;
                    active := tm_alter effect (λ n, {| ordinal := ordinal n;
                                nested_identity := nested_identity n; nested_started := true |})
                                (active p) |} in
        Ok (Some (put_call b key id (set_program (Some p))))
      else
        if negb (nested_started nested) then Err invalid_provenance else
        let p := {| last_ordinal := last_ordinal p; active := tm_remove effect (active p) |} in
        Ok (Some (put_call b key id (set_program (Some p))))
  | None =>
      if negb is_start &&
         existsb (λ e, bool_decide (ContextOutcomes.effect e.2 = Some effect) &&
                       match program e.2 with Some p => negb (bool_decide (active p = [])) | None => false end)
           (all_calls b)
      then Err invalid_provenance else Ok None
  end.

(** [apply_program_outcome]: whether the Fact belonged to a program. *)
Definition apply_program_outcome (f : ContextFold) (id : TurnKey) (body : ToolBody.t)
    : outcome ContextError (ContextFold * bool) :=
  match body with
  | ToolBody.ToolIntent effect (OriginProgram parent n) role call =>
      let? (index, turn) := turn_mut f id in
      let? b := program_call (batches turn) effect parent n role call true in
      Ok (put_turn f index (set_batches turn b), true)
  | ToolBody.ToolRejected effect (OriginProgram parent n) role call _ =>
      let? (index, turn) := turn_mut f id in
      let? b := program_call (batches turn) effect parent n role call false in
      Ok (put_turn f index (set_batches turn b), true)
  | ToolBody.ToolStarted effect call =>
      let? (index, turn) := turn_mut f id in
      let? b := program_outcome (batches turn) effect call true in
      Ok match b with Some b => (put_turn f index (set_batches turn b), true) | None => (f, false) end
  | ToolBody.ToolResult effect call _ =>
      let? (index, turn) := turn_mut f id in
      let? b := program_outcome (batches turn) effect call false in
      Ok match b with Some b => (put_turn f index (set_batches turn b), true) | None => (f, false) end
  | _ => Ok (f, false)
  end.

Definition supersede_batch (b : bmap Batch) (source : text) : outcome ContextError (bmap Batch) :=
  let? (index, _) :=
    ok_or (head (filter (λ e, ContextOutcomes.source e.2 = source) b))
      (Invalid "Tool supersession has no completed model batch") in
  let? batch := ok_or (bt_get index b) invalid_provenance in
  let open := λ c : Call, bool_decide (effect c = None) && negb (settled c) && negb (superseded c) in
  if negb (existsb (λ c, open c.2) (calls batch))
  then Err (Invalid "Tool supersession has no remaining calls") else
  Ok (bt_update index (λ batch, set_calls batch
        ((λ c, if open c.2 then (c.1, set_superseded c.2) else c) <$> calls batch)) b).

Definition intend_call (b : bmap Batch) (source effect : text) (call : ToolResultIdentity)
    (role : ToolProgramRole) : outcome ContextError (bmap Batch) :=
  let? (key, id, state) :=
    ok_or (find_call_mut b (λ batch i _, bool_decide (ContextOutcomes.source batch = source) &&
                                         bool_decide (i = identity_call_id call)))
      (Invalid "Tool intent has no model call") in
  if bool_decide (is_Some (ContextOutcomes.effect state)) || settled state || superseded state
  then Err (Invalid "Tool call was already consumed") else
  let p := if bool_decide (role = Coordinator) then Some {| last_ordinal := 0; active := [] |} else None in
  Ok (put_call b key id (set_intent effect call p)).

Definition start_call (b : bmap Batch) (effect : text) (call : ToolResultIdentity)
    : outcome ContextError (bmap Batch) :=
  let? (key, id, state) :=
    ok_or (find_call_mut b (λ _ i c, bool_decide (i = identity_call_id call) &&
                                     bool_decide (ContextOutcomes.effect c = Some effect)))
      (Invalid "Tool start has no intent") in
  if negb (bool_decide (identity state = Some call)) || started state || settled state || superseded state
  then Err (Invalid "Tool call cannot start again") else
  Ok (put_call b key id set_started).

(** [apply_tool_outcome] *)
Definition apply_tool_outcome (f : ContextFold) (id : TurnKey) (body : ToolBody.t)
    : outcome ContextError ContextFold :=
  let? _ := require_live_turn f id in
  let? (f, handled) := apply_program_outcome f id body in
  if handled then Ok f else
  match body with
  | ToolBody.ToolCallsSuperseded source =>
      let? (index, turn) := turn_mut f id in
      let? b := supersede_batch (batches turn) source in
      Ok (put_turn f index (set_batches turn b))
  | ToolBody.ToolIntent effect (OriginModel source) role call =>
      let? (index, turn) := turn_mut f id in
      let? b := intend_call (batches turn) source effect call role in
      Ok (put_turn f index (set_batches turn b))
  | ToolBody.ToolStarted effect call =>
      let? (index, turn) := turn_mut f id in
      let? b := start_call (batches turn) effect call in
      Ok (put_turn f index (set_batches turn b))
  | ToolBody.ToolRejected _ (OriginModel source) _ call rejection =>
      let? (_, turn) := turn_mut f id in
      if negb (any_batch (λ b, bool_decide (ContextOutcomes.source b = source) &&
                               tm_contains (identity_call_id call) (calls b)) (batches turn))
      then Err invalid_provenance else
      let? message := rejected_tool_message (identity_call_id call) rejection in
      settle_tool_call f id (identity_call_id call) None message
  | ToolBody.ToolResult effect call result =>
      let? (_, turn) := turn_mut f id in
      let exact := existsb (λ b, match tm_get (identity_call_id call) (calls b) with
                                 | Some c => bool_decide (ContextOutcomes.effect c = Some effect) &&
                                             bool_decide (identity c = Some call)
                                 | None => false
                                 end) (batch_values (batches turn)) in
      if negb exact then Err invalid_provenance else
      let? message := tool_message (identity_call_id call) result in
      settle_tool_call f id (identity_call_id call) (Some effect) message
  | _ => Panic
  end.

(** ** Facts *)

(** [apply_body_inner]; [id] is the key of the Fact's Turn. *)
Definition apply_body (f : ContextFold) (id : TurnKey) (body : ContextBody.t)
    : outcome ContextError ContextFold :=
  match body with
  | ContextBody.Instructions sections => set_step_instructions f sections
  | ContextBody.TurnAccepted => insert_empty_turn f id
  | ContextBody.ImageRequested prompt =>
      let? message := lift (user_text prompt) in insert_turn f id message
  | ContextBody.InputsPrepared l =>
      let? _ := turn_mut f id in push_messages f id l
  | ContextBody.ModelIntent effect deployment model => start_model f id effect deployment model
  | ContextBody.AttemptSettled effect assembly retain => settle_attempt f id effect assembly retain
  | ContextBody.Tool body => apply_tool_outcome f id body
  | ContextBody.ImageOutput media =>
      let? descriptor := media_descriptor media in
      let? message := lift (assistant [MessageContent.Image descriptor]) in
      push_turn_message f id message
  | ContextBody.TurnTerminal =>
      let? (index, turn) := turn_mut f id in
      if terminal turn then Err (Invalid "turn received more than one terminal Fact") else
      Ok (set_assemblers (put_turn f index (set_terminal turn))
            (filter (λ e, assembler_turn e.2 ≠ id.2) (assemblers f)))
  | ContextBody.Unread => Ok f
  end.

(** What is left of a fold whose ingestion failed. *)
Definition invalidated (f : ContextFold) : ContextFold :=
  {| prompt := prompt f; persona := persona f; semantic := false;
     retention_limits := retention_limits f; system_message := None; system_message_bytes := 0;
     ingestion_failed := true; omitted_turns := omitted_turns f; turns := [];
     base_ordinal := base_ordinal f; turn_index := ∅; assemblers := ∅;
     retained_messages := 0; retained_message_bytes := 0 |}.

(** One Fact: its Session and Turn, its body, and whether the budget granted its growth
    ([admit_fact]) and the final accounting ([reaccount_fact]). *)
Record ContextFact := {
  fact_key : TurnKey;
  fact_body : ContextBody.t;
  growth_granted : bool;
  weight_granted : bool
}.

Definition apply_inner (f : ContextFold) (fact : ContextFact) : outcome ContextError ContextFold :=
  let? f := apply_body f (fact_key fact) (fact_body fact) in
  let? f := compact_retained f in
  if weight_granted fact then Ok f else Err Capacity.

Definition unusable : ContextError :=
  Invalid "Context cursor was invalidated by failed Fact ingestion; rebuild from authoritative Facts".

(** [ensure_usable] and [apply_admitted_fact]: the fold afterwards and the answer. *)
Definition ingest (f : ContextFold) (fact : ContextFact)
    : outcome ContextError (ContextFold * option ContextError) :=
  if ingestion_failed f then Ok (f, Some unusable)
  else if negb (growth_granted fact) then Ok (f, Some Capacity)
  else match apply_inner f fact with
       | Ok f' => Ok (f', None)
       | Err e => Ok (invalidated f, Some e)
       | Panic => Panic
       end.

(** ** Projection *)
Definition has_unscoped_provider_state (m : Message) : bool :=
  bool_decide (role m = Assistant) &&
  existsb (λ b, match b with MessageContent.Reasoning _ _ => true | _ => false end) (content m).

Definition without_unscoped_provider_message (m : Message) : outcome ContextError (option Message) :=
  if negb (has_unscoped_provider_state m) then Ok (Some m) else
  let content := filter (λ b, match b with MessageContent.Reasoning _ _ => false | _ => true end = true)
                   (content m) in
  if bool_decide (content = []) then Ok None
  else let? m := lift (assistant content) in Ok (Some m).

Fixpoint without_unscoped_provider_state (l : list Message) : outcome ContextError (list Message) :=
  match l with
  | [] => Ok []
  | m :: l =>
      let? m := without_unscoped_provider_message m in
      let? rest := without_unscoped_provider_state l in
      Ok (match m with Some m => m :: rest | None => rest end)
  end.

(** [encoded_bytes] of a whole list of messages, by the lengths of its elements. *)
Definition encoded_messages (l : list Message) : Z :=
  zsum (weight <$> l) + saturating_sub (len l) 1 + 2.

(** [assemble_view] without a summary: the normalized views of all Turns behind the system
    message, provider state removed. *)
Fixpoint normalize_turns (l : list (list Message * bmap Batch * bool)) : outcome ContextError (list Message) :=
  match l with
  | [] => Ok []
  | (messages, batches, terminal) :: l =>
      let? view := normalize messages batches terminal in
      let? rest := normalize_turns l in
      Ok (view ++ rest)
  end.

Fixpoint projected_views (p : ProjectedTurns) (l : list ProjectedTurn)
    : outcome ContextError (list (list Message * bmap Batch * bool)) :=
  match l with
  | [] => Ok []
  | turn :: l =>
      let? messages := expect (p !! turn_key turn) in
      let? rest := projected_views p l in
      Ok ((messages, batches turn, terminal turn) :: rest)
  end.

Definition semantic_messages (f : ContextFold) : outcome ContextError (list Message) :=
  let? p := project ((λ t, (turn_key t, messages t)) <$> turns f) in
  let? views := projected_views p (turns f) in
  let? l := normalize_turns views in
  without_unscoped_provider_state (option_list (system_message f) ++ l).

Record Projection := {
  projected : list Message;
  projected_omitted : Z;
  projected_bytes : Z
}.

Definition semantic_projection (f : ContextFold) (limits : ContextLimits) : outcome ContextError Projection :=
  let? l := semantic_messages f in
  let bytes := encoded_messages l in
  if (max_messages limits <? len l) || (max_bytes limits <? bytes) then Err TooLarge
  else Ok {| projected := l; projected_omitted := 0; projected_bytes := bytes |}.

(** One Turn of the plain projection: its messages, their bytes, whether it has ended. *)
Record TurnView := { view_messages : list Message; view_bytes : Z; view_terminal : bool }.

(** [normalize_with_size]: the retained bytes and those of the synthesized results. *)
Fixpoint add_missing (l : list ViewMessage) (bytes : Z) : outcome ContextError (list Message * Z) :=
  match l with
  | [] => Ok ([], bytes)
  | v :: l =>
      let? m := emit_message v in
      let? bytes := match v with
                    | Retained _ => Ok bytes
                    | Missing _ _ => ok_or (checked_add usize_max bytes (weight m)) TooLarge
                    end in
      let? (rest, bytes) := add_missing l bytes in
      Ok (m :: rest, bytes)
  end.

Definition normalize_with_size (t : ProjectedTurn) : outcome ContextError TurnView :=
  let? l := visit_view (messages t) (batches t) (terminal t) (λ v, let? _ := emit_message v in Ok v) in
  let? (l, bytes) := add_missing l (message_bytes t) in
  Ok {| view_messages := l; view_bytes := bytes; view_terminal := terminal t |}.

Fixpoint turn_views (provider_view : bool) (l : list ProjectedTurn) : outcome ContextError (list TurnView) :=
  match l with
  | [] => Ok []
  | t :: l =>
      let? view := if provider_view then normalize_with_size t
                   else Ok {| view_messages := messages t; view_bytes := message_bytes t;
                              view_terminal := terminal t |} in
      let? rest := turn_views provider_view l in
      Ok (view :: rest)
  end.

(** The loop of [projected_messages]: drop whole terminal Turns until the rest fits. *)
Fixpoint fit_turns (system : option Message) (limits : ContextLimits) (retained bytes omitted : Z)
    (l : list TurnView) : outcome ContextError Projection :=
  let? notice := if 0 <? omitted then let? m := omission_message omitted in Ok (Some m) else Ok None in
  let? count := ok_or (checked_add usize_max retained (Z.b2z (bool_decide (is_Some notice))))
                  (Invalid "context message count overflowed") in
  let? total := ok_or (checked_add usize_max bytes
                         match notice with Some m => weight m | None => 0 end) overflow in
  let drop_turn :=
    match l with
    | [] => Err TooLarge
    | t :: l =>
        if negb (view_terminal t) then Err TooLarge else
        let? retained := ok_or (checked_sub retained (len (view_messages t)))
                           (Invalid "context message count underflowed") in
        let? bytes := ok_or (checked_sub bytes (view_bytes t)) (Invalid "context byte count underflowed") in
        let? omitted := ok_or (checked_add usize_max omitted 1) (Invalid "omitted turn count overflowed") in
        fit_turns system limits retained bytes omitted l
    end in
  if count <=? max_messages limits then
    let? encoded := encoded_array_bytes count total in
    if encoded <=? max_bytes limits
    then Ok {| projected := option_list system ++ option_list notice ++ (l ≫= view_messages);
               projected_omitted := omitted; projected_bytes := encoded |}
    else drop_turn
  else drop_turn.

(** [projected_messages] *)
Definition projected_messages (f : ContextFold) (limits : ContextLimits) (provider_view : bool)
    : outcome ContextError Projection :=
  if ingestion_failed f then Err unusable else
  let? _ := limits_new (max_messages limits) (max_bytes limits) in
  if semantic f then semantic_projection f limits else
  let? views := turn_views provider_view (turns f) in
  let? retained := ok_or (checked_add usize_max (Z.b2z (bool_decide (is_Some (system_message f))))
                            (if provider_view then zsum ((λ v, len (view_messages v)) <$> views)
                             else retained_messages f))
                     (Invalid "context message count overflowed") in
  let? bytes := ok_or (checked_add usize_max (system_message_bytes f)
                         (if provider_view then zsum (view_bytes <$> views)
                          else retained_message_bytes f)) overflow in
  fit_turns (system_message f) limits retained bytes (omitted_turns f) views.

(** [request_messages] *)
Definition request_messages (f : ContextFold) (limits : ContextLimits) (message_byte_budget : Z)
    : outcome ContextError (list Message) :=
  let? limits := limits_new (Z.min (max_messages limits) MAX_MESSAGES)
                   (Z.min (max_bytes limits) message_byte_budget) in
  let? p := projected_messages f limits true in
  without_unscoped_provider_state (projected p).
End fold.
