(* ===== verification/ContextTurn.v ===== *)
(** * Turns of a context

    The shape of a Turn's messages: groups of a message and the results of its settled
    calls, in the order of the calls.  The operations of [ContextFold.v] on a Turn keep it,
    and the provider view of such a Turn answers every call once, directly behind it. *)

From S2P Require Import Prelude BTree Text TextMap ToolOrigin TurnFacts.
From S2P Require Import ContextMessage ContextPruning ContextOutcomes ContextFold.

(** ** Replacing a binding *)
Section btree_replace.
Context {V : Type}.
Implicit Types (m : bmap V) (k : Z) (v w : V).

(** Assigning to an existing key of an ordered map changes one binding in place. *)
Lemma bt_insert_replace k v w m :
  bt_wf m → bt_get k m = Some v →
  bt_insert k w m = (λ e, if bool_decide (e.1 = k) then (k, w) else e) <$> m.
Proof.
  induction m as [|[k' v'] m IH]; simpl; [done|].
  intros Hwf Hk. apply bt_wf_cons in Hwf as [Hlt Hwf].
  destruct (k =? k') eqn:E.
  - assert (k' = k) as -> by lia. rewrite Z.ltb_irrefl, bool_decide_eq_true_2 by done. f_equal.
    symmetry. rewrite <-(list_fmap_id m) at 2. apply list_fmap_ext. intros i e He. simpl.
    rewrite bool_decide_eq_false_2; [done|]. apply list_elem_of_lookup_2 in He.
    rewrite Forall_forall in Hlt. specialize (Hlt _ He). simpl in Hlt. lia.
  - rewrite bool_decide_eq_false_2 by lia.
    apply bt_get_elem in Hk as Hin. rewrite Forall_forall in Hlt. specialize (Hlt _ Hin). simpl in Hlt.
    destruct (k <? k') eqn:E'; [lia|]. f_equal. by apply IH.
Qed.
End btree_replace.

(** ** Groups *)
Definition valid_message (m : Message) : Prop := validate m = Ok tt.

Definition settled_in (batch : Batch) (id : text) : bool :=
  match tm_get id (calls batch) with Some c => settled c | None => false end.

Definition result_of (id : text) (m : Message) : Prop := ∃ l e, m = result_message id l e.

(** A message and the results behind it, under the batch its index has. *)
Definition group_ok (batch : option Batch) (head : Message) (results : list Message) : Prop :=
  role head ≠ Tool ∧
  match batch with
  | None => calls_of head = [] ∧ results = []
  | Some b =>
      calls_of head ≠ [] ∧ (calls b).*1 ≡ₚ calls_of head ∧
      Forall2 result_of (filter (λ id, settled_in b id = true) (calls_of head)) results
  end.

Inductive grouped (b : bmap Batch) : nat → list Message → Prop :=
| grouped_nil i : grouped b i []
| grouped_cons i head results rest :
    group_ok (bt_get (Z.of_nat i) b) head results →
    grouped b (i + S (length results)) rest →
    grouped b i (head :: results ++ rest).

Lemma grouped_app b i ms ms' :
  grouped b i ms → grouped b (i + length ms) ms' → grouped b i (ms ++ ms').
Proof.
  induction 1 as [i|i h rs rest Hg Hr IH]; simpl.
  - by rewrite Nat.add_0_r.
  - intros H. rewrite <-app_assoc. constructor; [done|]. apply IH.
    rewrite length_app in H. by replace (i + S (length rs) + length rest)%nat
      with (i + S (length rs + length rest))%nat by lia.
Qed.

Lemma grouped_single b i h rs :
  group_ok (bt_get (Z.of_nat i) b) h rs → grouped b i (h :: rs).
Proof. intros H. rewrite <-(app_nil_r rs). constructor; [done|constructor]. Qed.

Lemma grouped_impl b b' i ms :
  grouped b i ms →
  (∀ k h rs, (i ≤ k < i + length ms)%nat → group_ok (bt_get (Z.of_nat k) b) h rs →
             group_ok (bt_get (Z.of_nat k) b') h rs) →
  grouped b' i ms.
Proof.
  induction 1 as [i|i h rs rest Hg Hr IH]; intros H; constructor.
  - apply H; [simpl; lia|done].
  - apply IH. intros k h' rs' Hk. apply H. simpl. rewrite length_app. lia.
Qed.

Lemma result_of_role id m : result_of id m → role m = Tool.
Proof. by intros (l & e & ->). Qed.

Lemma group_results_tool ob h rs : group_ok ob h rs → Forall (λ m, role m = Tool) rs.
Proof.
  intros [_ H]. destruct ob as [b|]; [|destruct H as [_ ->]; constructor].
  destruct H as (_ & _ & H). eapply Forall2_Forall_r; [exact H|].
  apply Forall_forall. intros id _ m. apply result_of_role.
Qed.

(** A message that is no result is the head of its group. *)
Lemma grouped_at b i ms k m :
  grouped b i ms → ms !! k = Some m → role m ≠ Tool →
  ∃ pre rs rest, ms = pre ++ m :: rs ++ rest ∧ length pre = k ∧ grouped b i pre ∧
    group_ok (bt_get (Z.of_nat (i + k)) b) m rs ∧ grouped b (i + k + S (length rs)) rest.
Proof.
  intros Hg. revert k. induction Hg as [i|i h rs rest Hg Hr IH]; intros k; [done|].
  destruct k as [|k]; simpl.
  - intros [= ->] _. exists [], rs, rest. rewrite Nat.add_0_r.
    split; [done|]. split; [done|]. split; [constructor|done].
  - intros Hk Hm. destruct (decide (k < length rs)%nat) as [Hlt|Hge].
    { rewrite lookup_app_l in Hk by done. apply group_results_tool in Hg.
      by rewrite (proj1 (Forall_lookup _ _) Hg _ _ Hk) in Hm. }
    rewrite lookup_app_r in Hk by lia.
    destruct (IH _ Hk Hm) as (pre & rs' & rest' & -> & Hl & Hp & Hg' & Hr').
    exists (h :: rs ++ pre), rs', rest'.
    replace (i + S (length rs) + (k - length rs))%nat with (i + S k)%nat in Hg', Hr' by lia.
    split_and!; [by rewrite app_comm_cons, app_assoc| |by constructor|done|done].
    simpl. rewrite length_app. lia.
Qed.

(** ** The view of a grouped Turn *)
Definition message_of (v : ViewMessage) : Message :=
  match v with Retained m => m | Missing id t => result_message id [MessageContent.Text t] true end.

Section views.
Context (terminal : bool).

(** What answers the calls of one message. *)
Inductive answers_of (b : Batch) : list text → list Message → list ViewMessage → Prop :=
| answers_nil : answers_of b [] [] []
| answers_settled id ids r rs vs :
    settled_in b id = true → result_of id r → answers_of b ids rs vs →
    answers_of b (id :: ids) (r :: rs) (Retained r :: vs)
| answers_missing id ids rs vs c t :
    tm_get id (calls b) = Some c → settled c = false → missing_text terminal c = Ok t →
    answers_of b ids rs vs → answers_of b (id :: ids) rs (Missing id t :: vs).

Inductive viewed (b : bmap Batch) : nat → list Message → list ViewMessage → Prop :=
| viewed_nil i : viewed b i [] []
| viewed_cons i head results rest vs vrest :
    group_ok (bt_get (Z.of_nat i) b) head results →
    match bt_get (Z.of_nat i) b with
    | Some batch => answers_of batch (calls_of head) results vs
    | None => calls_of head = [] ∧ results = [] ∧ vs = []
    end →
    viewed b (i + S (length results)) rest vrest →
    viewed b i (head :: results ++ rest) (Retained head :: vs ++ vrest).

(** Whether every call without a result may be answered. *)
Definition answerable (batch : Batch) : Prop :=
  ∀ id c, tm_get id (calls batch) = Some c → settled c = false → terminal = true ∨ superseded c = true.
Definition permitted (b : bmap Batch) : Prop :=
  ∀ k batch, bt_get k b = Some batch → answerable batch.

Lemma missing_text_ok c : terminal = true ∨ superseded c = true ↔ ∃ t, missing_text terminal c = Ok t.
Proof.
  unfold missing_text. split.
  - intros [->|Hs]; [|rewrite Hs; eauto]. simpl. repeat case_match; eauto.
  - intros [t Ht]. destruct (superseded c); [by right|]. left. by destruct terminal.
Qed.

Lemma answers_exist b ids rs :
  Forall (λ id, is_Some (tm_get id (calls b))) ids → answerable b →
  Forall2 result_of (filter (λ id, settled_in b id = true) ids) rs →
  ∃ vs, answers_of b ids rs vs.
Proof.
  intros Hin Ha. revert rs. induction Hin as [|id ids [c Hc] Hin IH]; intros rs.
  { intros ->%Forall2_nil_inv_l. exists []. constructor. }
  rewrite filter_cons. destruct (decide (settled_in b id = true)) as [Hs|Hs].
  - intros (r & rs' & Hr & Hrs & ->)%Forall2_cons_inv_l. destruct (IH _ Hrs) as [vs Hvs].
    exists (Retained r :: vs). by constructor.
  - intros Hrs. destruct (IH _ Hrs) as [vs Hvs]. unfold settled_in in Hs. rewrite Hc in Hs.
    apply not_true_is_false in Hs.
    destruct (proj1 (missing_text_ok c) (Ha _ _ Hc Hs)) as [t Ht].
    exists (Missing id t :: vs). by econstructor.
Qed.

Lemma group_calls b h rs : group_ok (Some b) h rs → Forall (λ id, is_Some (tm_get id (calls b))) (calls_of h).
Proof.
  intros (_ & _ & Hp & _). apply Forall_forall. intros id Hid. rewrite <-Hp in Hid.
  apply not_eq_None_Some. intros Hn%tm_get_None. done.
Qed.

Lemma viewed_exists b i ms : grouped b i ms → permitted b → ∃ vs, viewed b i ms vs.
Proof.
  intros Hg Hp. induction Hg as [i|i h rs rest Hg Hr [vr IH]].
  { exists []. constructor. }
  destruct (bt_get (Z.of_nat i) b) as [batch|] eqn:E.
  - destruct (answers_exist batch (calls_of h) rs) as [vs Hvs].
    + by eapply group_calls.
    + by eapply Hp.
    + by destruct Hg as (_ & _ & _ & ?).
    + exists (Retained h :: vs ++ vr). constructor; rewrite ?E; done.
  - destruct Hg as (Hh & Hc & ->). exists (Retained h :: [] ++ vr).
    apply (viewed_cons b i h [] rest [] vr); rewrite ?E; done.
Qed.
End views.

(** ** The loops of [visit_view] follow the groups *)
Lemma is_result_of id id' m : result_of id m → is_result id' m = bool_decide (id = id').
Proof. by intros (l & e & ->). Qed.

Lemma is_result_head id m : valid_message m → role m ≠ Tool → is_result id m = false.
Proof.
  intros Hv Hr. unfold is_result. destruct (content m) as [|[] []] eqn:E; try done.
  exfalso. eapply (validate_other_role m); [done|done|]. rewrite E. by left.
Qed.

Lemma answers_results terminal b ids rs vs :
  answers_of terminal b ids rs vs → Forall (λ r, ∃ id, id ∈ ids ∧ result_of id r) rs.
Proof.
  assert (Hw : ∀ id ids rs, Forall (λ r, ∃ id, id ∈ ids ∧ result_of id r) rs →
                            Forall (λ r, ∃ id', id' ∈ id :: ids ∧ result_of id' r) rs).
  { intros id ids' rs' Hf. eapply Forall_impl; [exact Hf|]. intros r (id' & ? & ?). exists id'.
    split; [by right|done]. }
  induction 1 as [|id ids r rs vs Hs Hr Ha IH|id ids rs vs c t Hc Hs Ht Ha IH]; auto.
  constructor; [|auto]. exists id. split; [by left|done].
Qed.

Section visit.
Context {A : Type} (terminal : bool) (emit : ViewMessage → outcome ContextError A) (g : ViewMessage → A).

(** The message behind the results of a group is no result. *)
Definition no_result_first (rest : list Message) : Prop :=
  match rest with m :: _ => ∀ id, is_result id m = false | [] => True end.

Lemma visit_calls_view b ids rs vs pre rest :
  answers_of terminal b ids rs vs → NoDup ids → no_result_first rest →
  Forall (λ v, emit v = Ok (g v)) vs →
  visit_calls (pre ++ rs ++ rest) terminal emit (Some b) ids (length pre) =
  Ok (g <$> vs, (length pre + length rs)%nat).
Proof.
  intros Ha. revert pre. induction Ha as [|id ids r rs vs Hs Hr Ha IH|id ids rs vs c t Hc Hs Ht Ha IH];
    intros pre Hnd Hrest He; simpl; [by rewrite Nat.add_0_r| |];
    apply NoDup_cons in Hnd as [Hid Hnd]; apply Forall_cons in He as [Hv He].
  - unfold settled_in in Hs. destruct (tm_get id (calls b)) as [c|]; [|done]. simpl.
    rewrite list_lookup_middle by done. simpl.
    rewrite (is_result_of id id r Hr), bool_decide_eq_true_2, Hs by done. simpl. rewrite Hv. simpl.
    specialize (IH (pre ++ [r]) Hnd Hrest He). rewrite length_app, <-app_assoc in IH. simpl in IH.
    replace (S (length pre)) with (length pre + 1)%nat by lia. rewrite IH. simpl. do 2 f_equal. lia.
  - rewrite Hc. simpl.
    assert (Hn : ((pre ++ rs ++ rest) !! length pre) ≫=
                   (λ m, if is_result id m then Some m else None) = None).
    { rewrite lookup_app_r, Nat.sub_diag by lia. apply answers_results in Ha.
      destruct rs as [|r rs]; simpl.
      - destruct rest as [|m rest]; [done|]. simpl. by rewrite Hrest.
      - apply Forall_cons in Ha as [(id' & Hin & Hr') _]. rewrite (is_result_of id' id r Hr').
        rewrite bool_decide_eq_false_2; [done|]. by intros ->. }
    rewrite Hn, Hs. simpl. rewrite Ht. simpl. rewrite Hv. simpl.
    rewrite (IH pre Hnd Hrest He). done.
Qed.

Context (batches : bmap Batch).
Context (Hdistinct : ∀ k b, bt_get k batches = Some b → NoDup (calls b).*1).

Lemma viewed_heads i ms vs :
  viewed terminal batches i ms vs → Forall valid_message ms → no_result_first ms.
Proof.
  destruct 1 as [|i h rs rest vs vr [Hh _] _]; [done|]. intros [Hv _]%Forall_cons id.
  by apply is_result_head.
Qed.

Lemma visit_from_view i ms vs :
  viewed terminal batches i ms vs → Forall valid_message ms →
  Forall (λ v, emit v = Ok (g v)) vs →
  ∀ pre fuel, length pre = i → (length ms ≤ fuel)%nat →
  visit_from (pre ++ ms) batches terminal emit fuel i = Ok (g <$> vs).
Proof.
  intros Hw. induction Hw as [i|i h rs rest vs vr Hg Ha Hw IH]; intros Hv He pre fuel Hpre Hf.
  { rewrite app_nil_r. destruct fuel; simpl; by rewrite (lookup_ge_None_2 pre i) by lia. }
  apply Forall_cons in Hv as [Hvh Hv]. apply Forall_app in Hv as [Hvr Hv].
  apply Forall_cons in He as [Heh He]. apply Forall_app in He as [Hes He].
  destruct fuel as [|fuel]; [simpl in Hf; lia|]. simpl in *. rewrite length_app in Hf.
  assert (Hmid : (pre ++ h :: rs ++ rest) !! i = Some h) by (subst i; by apply list_lookup_middle).
  rewrite Hmid, bool_decide_eq_false_2 by apply Hg. rewrite Heh. simpl.
  assert (Hc : visit_calls (pre ++ h :: rs ++ rest) terminal emit (bt_get (Z.of_nat i) batches)
                 (calls_of h) (S i) = Ok (g <$> vs, (S i + length rs)%nat)).
  { destruct (bt_get (Z.of_nat i) batches) as [b|] eqn:E.
    - pose proof (visit_calls_view b (calls_of h) rs vs (pre ++ [h]) rest Ha) as Hc.
      rewrite length_app, <-app_assoc in Hc. simpl in Hc.
      replace (length pre + 1)%nat with (S i) in Hc by lia. apply Hc; [|by eapply viewed_heads|done].
      destruct Hg as (_ & _ & Hp & _). rewrite <-Hp. by eapply Hdistinct.
    - destruct Ha as (-> & -> & ->). simpl. by rewrite Nat.add_0_r. }
  rewrite Hc. simpl.
  specialize (IH Hv He (pre ++ h :: rs) fuel).
  rewrite <-app_assoc, length_app in IH. simpl in IH.
  replace (S (i + length rs)) with (i + S (length rs))%nat by lia.
  rewrite IH by lia. simpl. by rewrite fmap_app.
Qed.

Lemma visit_view_viewed ms vs :
  viewed terminal batches 0 ms vs → Forall valid_message ms → Forall (λ v, emit v = Ok (g v)) vs →
  visit_view ms batches terminal emit = Ok (g <$> vs).
Proof. intros Hw Hv He. by apply (visit_from_view 0 ms vs Hw Hv He []). Qed.
End visit.

(** ** When a view fails *)
Section visit_fails.
Context {A : Type} (messages : list Message) (batches : bmap Batch) (terminal : bool).
Context (emit : ViewMessage → outcome ContextError A) (Hemit : ∀ v, emit v ≠ Panic).

Lemma missing_text_no_panic c : missing_text terminal c ≠ Panic.
Proof. unfold missing_text. by repeat case_match. Qed.

Lemma visit_calls_no_panic ob ids index : visit_calls messages terminal emit ob ids index ≠ Panic.
Proof.
  revert index. induction ids as [|id ids IH]; intros index; simpl; [done|].
  apply obind_no_panic; [by destruct (ob ≫= _)|]. intros state _.
  destruct (_ ≫= _) as [m|].
  - destruct (negb _); [done|]. apply obind_no_panic; [done|]. intros out _.
    apply obind_no_panic; [done|]. by intros [].
  - destruct (settled state); [done|]. apply obind_no_panic; [apply missing_text_no_panic|].
    intros t _. apply obind_no_panic; [done|]. intros out _.
    apply obind_no_panic; [done|]. by intros [].
Qed.

Lemma visit_calls_index ob ids index vs index' :
  visit_calls messages terminal emit ob ids index = Ok (vs, index') →
  (index ≤ index')%nat.
Proof.
  revert index vs. induction ids as [|id ids IH]; intros index vs; simpl; [naive_solver lia|].
  intros (state & _ & H)%obind_ok. destruct (_ ≫= _) as [m|].
  - destruct (negb _); [done|]. inv_outcome. repeat case_match; simplify_eq.
    match goal with H : visit_calls _ _ _ _ _ _ = Ok _ |- _ => apply IH in H end. lia.
  - destruct (settled state); [done|]. inv_outcome. repeat case_match; simplify_eq.
    match goal with H : visit_calls _ _ _ _ _ _ = Ok _ |- _ => apply IH in H end. lia.
Qed.

Lemma visit_from_no_panic fuel index :
  (length messages ≤ index + fuel)%nat → visit_from messages batches terminal emit fuel index ≠ Panic.
Proof.
  revert index. induction fuel as [|fuel IH]; intros index Hf; simpl.
  - by rewrite (lookup_ge_None_2 messages index) by lia.
  - destruct (messages !! index) as [m|]; [|done]. case_bool_decide; [done|].
    apply obind_no_panic; [done|]. intros out _.
    apply obind_no_panic; [apply visit_calls_no_panic|]. intros [vs index'] Hc.
    apply visit_calls_index in Hc. apply obind_no_panic; [apply IH; lia|done].
Qed.

Lemma visit_view_no_panic : visit_view messages batches terminal emit ≠ Panic.
Proof. apply visit_from_no_panic. lia. Qed.
End visit_fails.

(** A view that succeeds answers only calls it may answer. *)
Section visit_ok.
Context {A : Type} (terminal : bool) (emit : ViewMessage → outcome ContextError A).

Lemma visit_calls_answerable b ids rs pre rest vs index :
  visit_calls (pre ++ rs ++ rest) terminal emit (Some b) ids (length pre) = Ok (vs, index) →
  NoDup ids → no_result_first rest → Forall (λ id, is_Some (tm_get id (calls b))) ids →
  Forall2 result_of (filter (λ id, settled_in b id = true) ids) rs →
  index = (length pre + length rs)%nat ∧
  ∀ id c, id ∈ ids → tm_get id (calls b) = Some c → settled c = false → terminal = true ∨ superseded c = true.
Proof.
  revert rs pre vs. induction ids as [|id ids IH]; intros rs pre vs; simpl.
  { intros [= _ <-] _ _ _ ->%Forall2_nil_inv_l. simpl. split; [lia|]. by intros ? ? ?%not_elem_of_nil. }
  intros H [Hid Hnd]%NoDup_cons Hrest [[c Hc] Hin]%Forall_cons Hrs.
  rewrite Hc in H. simpl in H. rewrite filter_cons in Hrs.
  destruct (decide (settled_in b id = true)) as [Hs|Hs];
    unfold settled_in in Hs; rewrite Hc in Hs.
  - apply Forall2_cons_inv_l in Hrs as (r & rs' & Hr & Hrs & ->).
    simpl in H. rewrite list_lookup_middle in H by done. simpl in H.
    rewrite (is_result_of id id r Hr), bool_decide_eq_true_2, Hs in H by done. simpl in H.
    apply obind_ok in H as (out & _ & ([vs' i'] & H & [= _ <-])%obind_ok).
    destruct (IH rs' (pre ++ [r]) vs') as [Hi Hall]; [|done|done|done|done|].
    { rewrite length_app, <-app_assoc. simpl. by replace (length pre + 1)%nat with (S (length pre)) by lia. }
    rewrite length_app in Hi. simpl in *. split; [lia|].
    intros id' c' [->|Hin']%elem_of_cons Hc' Hs'; [congruence|by eapply Hall].
  - apply not_true_is_false in Hs.
    destruct (_ ≫= _) as [m|]; rewrite Hs in H; [done|]. simpl in H.
    apply obind_ok in H as (t & Ht & (out & _ & ([vs' i'] & H & [= _ <-])%obind_ok)%obind_ok).
    destruct (IH rs pre vs' H) as [Hi Hall]; [done|done|done|done|]. split; [done|].
    intros id' c' [->|Hin']%elem_of_cons Hc' Hs'; [|by eapply Hall].
    apply missing_text_ok. naive_solver.
Qed.

Context (batches : bmap Batch).
Context (Hdistinct : ∀ k b, bt_get k batches = Some b → NoDup (calls b).*1).

Lemma grouped_heads i ms : grouped batches i ms → Forall valid_message ms → no_result_first ms.
Proof.
  destruct 1 as [|i h rs rest [Hh _] _]; [done|]. intros [Hv _]%Forall_cons id.
  by apply is_result_head.
Qed.

Lemma visit_from_answerable i ms pre fuel out :
  grouped batches i ms → Forall valid_message ms → length pre = i →
  visit_from (pre ++ ms) batches terminal emit fuel i = Ok out →
  ∀ k b, (i ≤ k < i + length ms)%nat → bt_get (Z.of_nat k) batches = Some b →
         (∃ m, ms !! (k - i)%nat = Some m ∧ role m ≠ Tool) → answerable terminal b.
Proof.
  intros Hg. revert pre fuel out. induction Hg as [i|i h rs rest Hg Hr IH];
    intros pre fuel out Hv Hpre Hok k b Hk Hb (m & Hm & Hrole); [simpl in Hk; lia|].
  apply Forall_cons in Hv as [Hvh Hv]. apply Forall_app in Hv as [Hvr Hv].
  assert (Hmid : (pre ++ h :: rs ++ rest) !! i = Some h) by (subst i; by apply list_lookup_middle).
  destruct fuel as [|fuel]; simpl in Hok; rewrite Hmid in Hok; [done|].
  rewrite bool_decide_eq_false_2 in Hok by apply Hg.
  apply obind_ok in Hok as (o & _ & ([vs i'] & Hc & (vr & Hrest & _)%obind_ok)%obind_ok).
  assert (Hi' : i' = (i + S (length rs))%nat ∧
                ∀ b', bt_get (Z.of_nat i) batches = Some b' → answerable terminal b').
  { destruct (bt_get (Z.of_nat i) batches) as [b'|] eqn:E.
    - pose proof (visit_calls_answerable b' (calls_of h) rs (pre ++ [h]) rest vs i') as H.
      rewrite length_app, <-app_assoc in H. simpl in H.
      replace (length pre + 1)%nat with (S i) in H by lia.
      pose proof (group_calls _ _ _ Hg) as Hgc.
      destruct Hg as (_ & _ & Hp & Hrs).
      destruct (H Hc) as [Hi Hall]; [|by eapply grouped_heads|done|done|].
      { rewrite <-Hp. by eapply Hdistinct. }
      split; [lia|]. intros ? [= <-] id c Hid Hs. apply (Hall id c); [|done|done].
      rewrite <-Hp. apply tm_get_elem in Hid. by apply (list_elem_of_fmap_2 fst) in Hid.
    - destruct Hg as (_ & Hn & ->). rewrite Hn in Hc. simpl in Hc. injection Hc as _ <-.
      simpl. split; [lia|done]. }
  destruct Hi' as [-> Hb']. destruct (decide (k = i)) as [->|Hki]; [by apply Hb'|].
  destruct (decide (k < i + S (length rs))%nat) as [Hlt|Hge].
  { replace (k - i)%nat with (S (k - i - 1))%nat in Hm by lia. simpl in Hm.
    rewrite lookup_app_l in Hm by lia. apply group_results_tool in Hg.
    by rewrite (proj1 (Forall_lookup _ _) Hg _ _ Hm) in Hrole. }
  simpl in Hk. rewrite length_app in Hk.
  refine (IH (pre ++ h :: rs) fuel vr Hv _ _ k b _ Hb _); [| |lia|].
  - rewrite length_app. simpl. lia.
  - by rewrite <-app_assoc.
  - exists m. split; [|done]. replace (k - i)%nat with (S (length rs) + (k - (i + S (length rs))))%nat in Hm by lia.
    simpl in Hm. rewrite lookup_app_r in Hm by lia.
    by replace (length rs + (k - (i + S (length rs))) - length rs)%nat
      with (k - (i + S (length rs)))%nat in Hm by lia.
Qed.
End visit_ok.

(** ** Well-formed Turns *)
Definition batch_ids (b : bmap Batch) : list text := batch_values b ≫= λ batch, (calls batch).*1.

Record turn_ok (weight : Message → Z) (t : ProjectedTurn) : Prop := {
  ok_valid : Forall valid_message (messages t);
  ok_grouped : grouped (batches t) 0 (messages t);
  ok_heads k batch : bt_get k (batches t) = Some batch →
    0 ≤ k ∧ ∃ m, messages t !! Z.to_nat k = Some m ∧ role m ≠ Tool;
  ok_calls : NoDup (batch_ids (batches t));
  ok_sources : NoDup (source <$> batch_values (batches t));
  ok_wf : bt_wf (batches t);
  ok_bytes : message_bytes t = zsum (weight <$> messages t)
}.

Lemma batch_ids_get b k batch : bt_get k b = Some batch → ∀ id, id ∈ (calls batch).*1 → id ∈ batch_ids b.
Proof.
  intros H%bt_get_elem id Hid. unfold batch_ids. apply list_elem_of_bind. exists batch.
  split; [done|]. by apply (list_elem_of_fmap_2 snd) in H.
Qed.

Lemma batch_ids_NoDup b k batch : NoDup (batch_ids b) → bt_get k b = Some batch → NoDup (calls batch).*1.
Proof.
  intros Hnd H%bt_get_elem. induction b as [|e b IH]; [by apply not_elem_of_nil in H|].
  unfold batch_ids, batch_values in *. simpl in Hnd. apply NoDup_app in Hnd as (He & _ & Hb).
  apply elem_of_cons in H as [<-|H]; [done|by apply IH].
Qed.

Lemma batch_ids_disjoint b k k' batch batch' id :
  NoDup (batch_ids b) → bt_get k b = Some batch → bt_get k' b = Some batch' →
  id ∈ (calls batch).*1 → id ∈ (calls batch').*1 → k = k'.
Proof.
  intros Hnd Hk%bt_get_elem Hk'%bt_get_elem Hi Hi'. induction b as [|e b IH]; [by apply not_elem_of_nil in Hk|].
  unfold batch_ids, batch_values in *. simpl in Hnd. apply NoDup_app in Hnd as (_ & Hd & Hb).
  assert (Hin : ∀ k batch, (k, batch) ∈ b → id ∈ (calls batch).*1 → id ∈ (snd <$> b) ≫= λ batch, (calls batch).*1).
  { intros j bt Hj Hidj. apply list_elem_of_bind. exists bt. split; [done|].
    by apply (list_elem_of_fmap_2 snd) in Hj. }
  apply elem_of_cons in Hk as [<-|Hk], Hk' as [Hk'|Hk']; simplify_eq/=.
  - done.
  - exfalso. eapply Hd; [exact Hi|by eapply Hin].
  - exfalso. eapply Hd; [exact Hi'|by eapply Hin].
  - by apply IH.
Qed.

Section turn.
Context (weight : Message → Z).
Notation turn_ok := (turn_ok weight).

(** The Turn with a message pushed. *)
Definition push (t : ProjectedTurn) (m : Message) (b : bmap Batch) : ProjectedTurn :=
  {| turn_key := turn_key t; messages := messages t ++ [m];
     message_bytes := message_bytes t + weight m; terminal := terminal t; batches := b |}.

Lemma heads_in_range t k batch : turn_ok t → bt_get k (batches t) = Some batch → 0 ≤ k < len (messages t).
Proof.
  intros Ht Hk. destruct (ok_heads _ _ Ht _ _ Hk) as (Hk0 & m & Hm & _).
  apply lookup_lt_Some in Hm. unfold len. lia.
Qed.

Lemma no_batch_at_end t : turn_ok t → bt_get (len (messages t)) (batches t) = None.
Proof.
  intros Ht. destruct (bt_get _ _) as [batch|] eqn:E; [|done].
  apply heads_in_range in E; [lia|done].
Qed.

Lemma push_plain t m :
  turn_ok t → valid_message m → role m ≠ Tool → calls_of m = [] → turn_ok (push t m (batches t)).
Proof.
  intros Ht Hv Hr Hc. pose proof Ht as [H1 H2 H3 H4 H5 H6 H7]. constructor; simpl; try done.
  - apply Forall_app. split; [done|by constructor].
  - apply grouped_app; [done|]. apply grouped_single. simpl.
    pose proof (no_batch_at_end t Ht) as Hn. unfold len in Hn. by rewrite Hn.
  - intros k batch Hk. destruct (H3 _ _ Hk) as (Hk0 & h & Hh & Hrole). split; [done|].
    exists h. split; [by apply lookup_app_l_Some|done].
  - rewrite fmap_app, zsum_app. simpl. rewrite zsum_cons, zsum_nil. lia.
Qed.

(** *** Batches *)
Lemma insert_calls_ok b ids l l' :
  insert_calls b ids l = Ok l' → NoDup l.*1 →
  NoDup l'.*1 ∧ l'.*1 ≡ₚ ids ++ l.*1 ∧ (∀ id, id ∈ ids → id ∉ batch_ids b) ∧
  (Forall (λ c, c.2 = default_call) l → Forall (λ c, c.2 = default_call) l').
Proof.
  revert l. induction ids as [|id ids IH]; intros l; simpl.
  { intros [= <-] Hl. split_and!; [done|done|by intros ? ?%not_elem_of_nil|done]. }
  destruct (tm_contains id l || _) eqn:E; [done|].
  apply orb_false_iff in E as [E1%tm_contains_false E2]. intros H Hl.
  assert (Hp : tm_insert id default_call l ≡ₚ (id, default_call) :: l)
    by (apply tm_insert_perm; by apply tm_get_None).
  assert (Hk : (tm_insert id default_call l).*1 ≡ₚ id :: l.*1) by (by rewrite Hp).
  destruct (IH _ H) as (Hnd & Hperm & Hids & Hdef).
  { rewrite Hk. by constructor. }
  split_and!; [done| | |].
  - rewrite Hperm, Hk. by rewrite <-Permutation_middle.
  - intros id' [->|Hid']%elem_of_cons; [|by apply Hids]. intros Hin.
    apply not_true_iff_false in E2. apply E2. unfold batch_ids in Hin.
    apply list_elem_of_bind in Hin as (batch & Hc & Hb). apply existsb_exists. exists batch.
    split; [by apply list_elem_of_In|by apply tm_contains_keys].
  - intros Hl'. apply Hdef. rewrite Hp. by constructor.
Qed.

Lemma prepare_batch_ok b index src m ob :
  prepare_batch b index src m = Ok ob →
  match ob with
  | None => calls_of m = []
  | Some batch =>
      calls_of m ≠ [] ∧ source batch = src ∧ NoDup (calls batch).*1 ∧ (calls batch).*1 ≡ₚ calls_of m ∧
      (∀ id, id ∈ calls_of m → id ∉ batch_ids b) ∧ src ∉ (source <$> batch_values b) ∧
      Forall (λ c, c.2 = default_call) (calls batch)
  end.
Proof.
  unfold prepare_batch. intros (l & Hl & H)%obind_ok.
  apply insert_calls_ok in Hl as (Hnd & Hp & Hids & Hdef); [|constructor].
  simpl in Hp. rewrite app_nil_r in Hp.
  destruct (bt_contains _ _ || _) eqn:E; [done|]. apply orb_false_iff in E as [_ E].
  case_bool_decide as El; simplify_eq; simpl.
  - symmetry in Hp. by apply Permutation_nil_r in Hp.
  - split_and!; [|done|done|done|done| |by apply Hdef; constructor].
    + intros Hn. rewrite Hn in Hp. apply Permutation_nil_r in Hp. by destruct l.
    + intros (batch & -> & Hb)%list_elem_of_fmap. apply not_true_iff_false in E. apply E.
      apply existsb_exists. exists batch. split; [by apply list_elem_of_In|by apply bool_decide_eq_true_2].
Qed.

Lemma unsettled_filter batch ids :
  Forall (λ c, c.2 = default_call) (calls batch) → filter (λ id, settled_in batch id = true) ids = [].
Proof.
  intros Hd. induction ids as [|id ids IH]; [done|]. rewrite filter_cons, decide_False; [done|].
  unfold settled_in. destruct (tm_get id (calls batch)) as [c|] eqn:E; [|done].
  apply tm_get_elem in E. rewrite Forall_forall in Hd. specialize (Hd _ E). simpl in Hd. by subst.
Qed.

Lemma batches_below t : turn_ok t → Forall (λ e, e.1 < len (messages t)) (batches t).
Proof.
  intros Ht. apply Forall_forall. intros [k batch] Hin. simpl.
  apply (bt_elem_get _ _ _ (ok_wf _ _ Ht)) in Hin. apply heads_in_range in Hin; [lia|done].
Qed.

Lemma push_batch t m src ob :
  turn_ok t → valid_message m → role m ≠ Tool →
  prepare_batch (batches t) (length (messages t)) src m = Ok ob →
  turn_ok (push t m match ob with
                    | Some batch => bt_insert (Z.of_nat (length (messages t))) batch (batches t)
                    | None => batches t
                    end).
Proof.
  intros Ht Hv Hr Hp%prepare_batch_ok. destruct ob as [batch|]; [|by apply push_plain].
  destruct Hp as (Hne & Hsrc & Hnd & Hperm & Hfresh & Hs & Hdef).
  pose proof (batches_below t Ht) as Hlt. unfold len in Hlt.
  pose proof Ht as [H1 H2 H3 H4 H5 H6 H7].
  assert (Hfree : ∀ k, (k < length (messages t))%nat →
            bt_get (Z.of_nat k) (bt_insert (Z.of_nat (length (messages t))) batch (batches t)) =
            bt_get (Z.of_nat k) (batches t)) by (intros k ?; apply bt_get_insert_ne; lia).
  constructor; simpl; try done.
  - apply Forall_app. split; [done|by constructor].
  - apply grouped_app.
    + eapply grouped_impl; [exact H2|]. intros k h rs Hk. by rewrite Hfree by lia.
    + apply grouped_single. simpl. rewrite bt_get_insert_eq. split; [done|]. split; [done|].
      split; [done|]. by rewrite unsettled_filter.
  - intros k b. rewrite bt_get_insert. destruct (decide (k = Z.of_nat (length (messages t)))) as [->|Hk].
    + intros _. split; [lia|]. exists m. split; [|done].
      by rewrite Nat2Z.id, lookup_app_r, Nat.sub_diag by lia.
    + destruct (_ =? _) eqn:E; [lia|]. intros Hb. destruct (H3 _ _ Hb) as (Hk0 & h & Hh & Hrole).
      split; [done|]. exists h. split; [by apply lookup_app_l_Some|done].
  - rewrite bt_insert_gt by done. unfold batch_ids, batch_values. rewrite fmap_app, bind_app.
    apply NoDup_app. split_and!; [done| |].
    + intros id Hid Hin. simpl in Hin. rewrite app_nil_r, Hperm in Hin. by eapply Hfresh.
    + simpl. by rewrite app_nil_r.
  - rewrite bt_insert_gt by done. unfold batch_values. rewrite !fmap_app. apply NoDup_app.
    split_and!; [done| |apply NoDup_singleton].
    intros s Hin Hs'. simpl in Hs'. rewrite Hsrc in Hs'. by apply list_elem_of_singleton in Hs' as ->.
  - by apply bt_wf_insert.
  - rewrite fmap_app, zsum_app. simpl. rewrite zsum_cons, zsum_nil. lia.
Qed.

(** *** Changes of calls that leave their settlement *)
Definition same_call (c c' : text * Call) : Prop := c.1 = c'.1 ∧ settled c.2 = settled c'.2.
Definition same_batch (e e' : Z * Batch) : Prop :=
  e.1 = e'.1 ∧ source e.2 = source e'.2 ∧ Forall2 same_call (calls e.2) (calls e'.2).

Lemma same_calls_keys l l' : Forall2 same_call l l' → l.*1 = l'.*1.
Proof. induction 1 as [|c c' l l' [H _] _ IH]; [done|]. by rewrite !fmap_cons, H, IH. Qed.

Lemma same_calls_settled l l' s s' id :
  Forall2 same_call l l' →
  settled_in {| source := s; calls := l |} id = settled_in {| source := s'; calls := l' |} id.
Proof.
  unfold settled_in. simpl. induction 1 as [|[k c] [k' c'] l l' [Hk Hs] _ IH]; [done|].
  simpl in *. subst. by case_bool_decide.
Qed.

Lemma same_batches_get b b' k batch' :
  Forall2 same_batch b b' → bt_get k b' = Some batch' →
  ∃ batch, bt_get k b = Some batch ∧ Forall2 same_call (calls batch) (calls batch').
Proof.
  induction 1 as [|[j x] [j' x'] b b' (Hj & _ & Hc) _ IH]; [done|]. simpl in *. subst.
  destruct (k =? j'); [|done]. intros [= <-]. eauto.
Qed.

Lemma same_batches_none b b' k : Forall2 same_batch b b' → bt_get k b = None ↔ bt_get k b' = None.
Proof.
  induction 1 as [|[j x] [j' x'] b b' (Hj & _ & Hc) _ IH]; [done|]. simpl in *. subst.
  by destruct (k =? j').
Qed.

Lemma same_batches_view b b' : Forall2 same_batch b b' →
  b.*1 = b'.*1 ∧ batch_ids b = batch_ids b' ∧ source <$> batch_values b = source <$> batch_values b'.
Proof.
  induction 1 as [|[j x] [j' x'] b b' (Hj & Hs & Hc) _ (IH1 & IH2 & IH3)]; [done|].
  unfold batch_ids, batch_values in *. cbn [fst snd] in *. subst j'.
  rewrite !fmap_cons, !bind_cons. cbn [fst snd].
  by rewrite IH1, IH2, IH3, Hs, (same_calls_keys _ _ Hc).
Qed.

Lemma turn_set_batches t b :
  turn_ok t → Forall2 same_batch (batches t) b → turn_ok (set_batches t b).
Proof.
  intros [H1 H2 H3 H4 H5 H6 H7] Hb. destruct (same_batches_view _ _ Hb) as (Hk & Hi & Hs).
  constructor; simpl; try done.
  - eapply grouped_impl; [exact H2|]. intros k h rs _ [Hh Hg]. split; [done|].
    destruct (bt_get (Z.of_nat k) b) as [batch'|] eqn:E.
    + destruct (same_batches_get _ _ _ _ Hb E) as (batch & E' & Hc). rewrite E' in Hg.
      destruct Hg as (Hn & Hp & Hrs). split; [done|]. rewrite <-(same_calls_keys _ _ Hc).
      split; [done|]. erewrite list_filter_iff; [exact Hrs|]. intros id. simpl.
      destruct batch as [s1 l1], batch' as [s2 l2]. cbn [calls] in Hc.
      by rewrite (same_calls_settled _ _ s1 s2 id Hc).
    + apply (same_batches_none _ _ _ Hb) in E. by rewrite E in Hg.
  - intros k batch' Hk'. destruct (same_batches_get _ _ _ _ Hb Hk') as (batch & E & _). by eapply H3.
  - by rewrite <-Hi.
  - by rewrite <-Hs.
  - unfold bt_wf. by rewrite <-Hk.
Qed.

Lemma same_calls_map (g : text * Call → text * Call) l :
  (∀ c, same_call c (g c)) → Forall2 same_call l (g <$> l).
Proof. intros H. induction l as [|c l IH]; constructor; auto. Qed.

Lemma bt_update_same b k g :
  bt_wf b → (∀ batch, source (g batch) = source batch ∧ Forall2 same_call (calls batch) (calls (g batch))) →
  Forall2 same_batch b (bt_update k g b).
Proof.
  intros Hwf Hg. unfold bt_update.
  assert (Hrefl : ∀ e, same_batch e e).
  { intros e. split; [done|]. split; [done|]. induction (calls e.2); constructor; done. }
  destruct (bt_get k b) as [batch|] eqn:E; [|clear -Hrefl; induction b; by constructor].
  rewrite (bt_insert_replace _ batch) by done.
  assert (Hin : ∀ e, e ∈ b → same_batch e (if bool_decide (e.1 = k) then (k, g batch) else e)).
  { intros [j x] Hj. simpl. case_bool_decide; [subst j|apply Hrefl].
    apply (bt_elem_get _ _ _ Hwf) in Hj. rewrite E in Hj. injection Hj as <-.
    split; [done|]. simpl. destruct (Hg batch). auto. }
  clear -Hin. induction b as [|e b IH]; constructor.
  - apply Hin. by left.
  - apply IH. intros e' He'. apply Hin. by right.
Qed.

Lemma put_call_same b k id g :
  bt_wf b → (∀ c, settled (g c) = settled c) → Forall2 same_batch b (put_call b k id g).
Proof.
  intros Hwf Hg. apply bt_update_same; [done|]. intros batch. split; [done|].
  apply same_calls_map. intros [j c]. simpl. case_bool_decide; [|done]. split; [done|]. simpl. by rewrite Hg.
Qed.

Lemma find_call_ok t P k id c :
  turn_ok t → find_call_mut (batches t) P = Some (k, id, c) →
  ∃ batch, bt_get k (batches t) = Some batch ∧ tm_get id (calls batch) = Some c ∧ P batch id c = true.
Proof.
  intros Ht H. unfold find_call_mut in H. apply head_Some_elem_of in H.
  apply list_elem_of_bind in H as ([j batch] & Hc & Hb). simpl in Hc.
  apply list_elem_of_fmap in Hc as ([i x] & [= -> -> ->] & [HP Hx]%list_elem_of_filter).
  apply (bt_elem_get _ _ _ (ok_wf _ _ Ht)) in Hb. exists batch. split; [done|]. split; [|done].
  apply tm_elem_get; [|done]. eapply batch_ids_NoDup; [apply Ht|exact Hb].
Qed.

(** *** Settlement *)
Lemma later_settled_ok batch id ids :
  later_settled batch id true ids = Ok tt →
  Forall (λ i, settled_in batch i = false) ids.
Proof.
  induction ids as [|i ids IH]; [done|]. unfold later_settled. fold later_settled.
  intros (c & Hc%expect_ok & H)%obind_ok. destruct (settled c) eqn:Es; [done|].
  constructor; [|by apply IH]. unfold settled_in. by rewrite Hc.
Qed.

Lemma later_settled_split batch id ids :
  later_settled batch id false ids = Ok tt → id ∈ ids → NoDup ids →
  ∃ before after, ids = before ++ id :: after ∧ Forall (λ i, settled_in batch i = false) after.
Proof.
  induction ids as [|i ids IH]; [by intros _ ?%not_elem_of_nil|].
  unfold later_settled. fold later_settled. simpl. intros H Hin [Hi Hnd]%NoDup_cons.
  destruct (decide (i = id)) as [->|Hne].
  - rewrite bool_decide_eq_true_2 in H by done. exists [], ids. split; [done|]. by eapply later_settled_ok.
  - rewrite bool_decide_eq_false_2 in H by done. apply elem_of_cons in Hin as [->|Hin]; [done|].
    destruct (IH H Hin Hnd) as (before & after & -> & Ha). by exists (i :: before), after.
Qed.

Lemma settled_count_ids batch ids :
  NoDup (calls batch).*1 → (calls batch).*1 ≡ₚ ids →
  settled_count batch = len (filter (λ id, settled_in batch id = true) ids).
Proof.
  intros Hnd Hp. unfold settled_count, len. f_equal. rewrite <-Hp.
  assert (H : ∀ l, (∀ c, c ∈ l → settled_in batch c.1 = settled c.2) →
            length (filter (λ c : text * Call, settled c.2 = true) l) =
            length (filter (λ id, settled_in batch id = true) l.*1)).
  { induction l as [|c l IH]; intros Hl; [done|]. rewrite fmap_cons, !filter_cons.
    rewrite (Hl c) by (by left). specialize (IH (λ c' H, Hl c' (list_elem_of_further _ _ _ H))).
    destruct (decide (settled c.2 = true)); simpl; by rewrite IH. }
  apply H. intros [i c] Hin. unfold settled_in. simpl. by rewrite (tm_elem_get _ _ _ Hnd Hin).
Qed.

Lemma settled_put batch id i :
  NoDup (calls batch).*1 → is_Some (tm_get id (calls batch)) →
  settled_in (set_calls batch (tm_alter id set_settled (calls batch))) i =
  (bool_decide (i = id) || settled_in batch i).
Proof.
  intros Hnd [c Hc]. unfold settled_in. simpl. rewrite tm_get_alter.
  case_bool_decide as E; [subst; by rewrite Hc|done].
Qed.

Lemma filter_settled batch id before after :
  NoDup (before ++ id :: after) → NoDup (calls batch).*1 → is_Some (tm_get id (calls batch)) →
  settled_in batch id = false → Forall (λ i, settled_in batch i = false) after →
  filter (λ i, settled_in (set_calls batch (tm_alter id set_settled (calls batch))) i = true)
    (before ++ id :: after) =
  filter (λ i, settled_in batch i = true) (before ++ id :: after) ++ [id].
Proof.
  intros Hnd Hc Hid Hs Ha. rewrite !filter_app, !filter_cons.
  assert (Hnone : filter (λ i, settled_in batch i = true) after = []).
  { clear -Ha. induction Ha as [|i after Hi Ha IH]; [done|]. rewrite filter_cons, decide_False; [done|].
    by rewrite Hi. }
  assert (Hout : ∀ l : list text, id ∉ l →
    filter (λ i, settled_in (set_calls batch (tm_alter id set_settled (calls batch))) i = true) l =
    filter (λ i, settled_in batch i = true) l).
  { induction l as [|i l IH]; [done|]. intros [Hi Hl]%not_elem_of_cons. rewrite !filter_cons, IH by done.
    rewrite settled_put by done. by rewrite (bool_decide_eq_false_2 (i = id)) by done. }
  apply NoDup_app in Hnd as (_ & Hd & [Hia _]%NoDup_cons).
  rewrite (Hout before), (Hout after) by (done || (intros Hb; eapply Hd; [done|by left])).
  rewrite decide_True by (rewrite settled_put, bool_decide_eq_true_2; done).
  rewrite decide_False by (by rewrite Hs). by rewrite Hnone, !app_nil_r.
Qed.

(** The group of a batch whose results end the Turn. *)
Lemma last_group t k batch head :
  turn_ok t → bt_get k (batches t) = Some batch → messages t !! Z.to_nat k = Some head →
  len (messages t) = k + 1 + settled_count batch →
  ∃ pre rs, messages t = pre ++ head :: rs ∧ Z.of_nat (length pre) = k ∧ grouped (batches t) 0 pre ∧
            group_ok (Some batch) head rs.
Proof.
  intros Ht Hk Hh Hlen. destruct (ok_heads _ _ Ht _ _ Hk) as (Hk0 & h & Hh' & Hrole).
  rewrite Hh in Hh'. injection Hh' as <-.
  destruct (grouped_at _ _ _ _ _ (ok_grouped _ _ Ht) Hh Hrole) as (pre & rs & rest & Hm & Hp & Hg & Hgo & _).
  simpl in Hgo. rewrite Z2Nat.id, Hk in Hgo by done.
  assert (rest = []) as ->.
  { pose proof Hgo as (_ & _ & Hperm & Hrs). apply Forall2_length in Hrs.
    rewrite (settled_count_ids batch (calls_of head)) in Hlen;
      [|eapply batch_ids_NoDup; [apply Ht|exact Hk]|done].
    rewrite Hm, len_app, len_cons, len_app in Hlen. unfold len in Hlen. rewrite Hrs in Hlen.
    destruct rest; [done|]. simpl in Hlen. lia. }
  rewrite app_nil_r in Hm. exists pre, rs. split_and!; [done|lia|done|done].
Qed.

(** The batches after a settlement. *)
Lemma put_settled b k batch id :
  bt_wf b → bt_get k b = Some batch →
  (∀ j, bt_get j (put_call b k id set_settled) =
        if decide (j = k) then Some (set_calls batch (tm_alter id set_settled (calls batch)))
        else bt_get j b) ∧
  batch_ids (put_call b k id set_settled) = batch_ids b ∧
  source <$> batch_values (put_call b k id set_settled) = source <$> batch_values b ∧
  (put_call b k id set_settled).*1 = b.*1.
Proof.
  intros Hwf Hk. split.
  { intros j. unfold put_call, bt_update. rewrite Hk, bt_get_insert.
    destruct (decide _), (_ =? _) eqn:E; done || lia. }
  assert (Hput : put_call b k id set_settled =
                 (λ e, if bool_decide (e.1 = k) then (k, set_calls batch (tm_alter id set_settled (calls batch)))
                       else e) <$> b).
  { unfold put_call, bt_update. rewrite Hk. by rewrite (bt_insert_replace _ batch) by done. }
  rewrite Hput. assert (Hin : ∀ e, e ∈ b → e.1 = k → e.2 = batch).
  { intros [j x] Hj Hjk. simpl in *. subst j. apply (bt_elem_get _ _ _ Hwf) in Hj. congruence. }
  clear -Hin. unfold batch_ids, batch_values. induction b as [|[j x] l IH]; [done|].
  rewrite !fmap_cons, !bind_cons. cbn [fst snd].
  destruct IH as (I1 & I2 & I3). { intros e He. apply Hin. by right. }
  rewrite I1, I2, I3. case_bool_decide as E; [|done]. cbn [fst snd].
  rewrite (Hin (j, x) ltac:(by left) E : x = batch). subst j. cbn [calls set_calls source].
  by rewrite tm_alter_keys.
Qed.

Lemma settle_turn t k batch id call m head :
  turn_ok t → bt_get k (batches t) = Some batch → tm_get id (calls batch) = Some call →
  settled call = false → messages t !! Z.to_nat k = Some head →
  later_settled batch id false (calls_of head) = Ok tt →
  len (messages t) = k + 1 + settled_count batch →
  valid_message m → result_of id m →
  turn_ok (push t m (put_call (batches t) k id set_settled)).
Proof.
  intros Ht Hk Hc Hs Hh Hlater Hlen Hv Hr.
  destruct (last_group t k batch head Ht Hk Hh Hlen) as (pre & rs & Hm & Hp & Hg & Hrole & Hne & Hperm & Hrs).
  pose proof Ht as [H1 H2 H3 H4 H5 H6 H7].
  assert (Hnd : NoDup (calls batch).*1) by (eapply batch_ids_NoDup; [exact H4|exact Hk]).
  destruct (put_settled (batches t) k batch id H6 Hk) as (Hget & Hi1 & Hi2 & Hi3).
  constructor; cbn [messages batches push message_bytes].
  - apply Forall_app. split; [done|by constructor].
  - rewrite Hm, <-app_assoc. apply grouped_app.
    + eapply grouped_impl; [exact Hg|]. intros j h' rs' Hj. rewrite Hget, decide_False by lia. done.
    + simpl. apply grouped_single. rewrite Hp, Hget, decide_True by done.
      split; [done|]. split; [done|]. cbn [calls set_calls]. rewrite tm_alter_keys. split; [done|].
      assert (Hidin : id ∈ calls_of head).
      { rewrite <-Hperm. apply tm_get_elem in Hc. by apply (list_elem_of_fmap_2 fst) in Hc. }
      assert (Hnd' : NoDup (calls_of head)) by (by rewrite <-Hperm).
      destruct (later_settled_split _ _ _ Hlater Hidin Hnd') as (before & after & E & Ha).
      rewrite E in Hrs, Hnd' |- *. rewrite filter_settled; [| |done|by eexists| |done]; [|done|].
      * apply Forall2_app; [done|by repeat constructor].
      * unfold settled_in. by rewrite Hc.
  - intros j b. rewrite Hget. intros Hj.
    assert (Hj' : ∃ b', bt_get j (batches t) = Some b') by (destruct (decide (j = k)); [subst|]; eauto).
    destruct Hj' as [b' Hj']. destruct (H3 _ _ Hj') as (Hj0 & h' & Hh' & Hr'). split; [done|].
    exists h'. split; [by apply lookup_app_l_Some|done].
  - by rewrite Hi1.
  - by rewrite Hi2.
  - unfold bt_wf. by rewrite Hi3.
  - rewrite fmap_app, zsum_app. simpl. rewrite zsum_cons, zsum_nil. lia.
Qed.
End turn.

(** ** The provider view of a well-formed Turn *)
Lemma calls_of_valid m id : valid_message m → id ∈ calls_of m → role m = Assistant ∧ ai_identifier id = true.
Proof.
  intros Hv (block & Hin & Hb)%list_elem_of_omap. destruct block; try done. injection Hb as <-.
  by apply (validate_call_id m).
Qed.

Lemma calls_of_nil m : valid_message m → role m ≠ Assistant → calls_of m = [].
Proof.
  intros Hv Hr. destruct (calls_of m) as [|id l] eqn:E; [done|].
  destruct (calls_of_valid m id Hv) as [? _]; [rewrite E; by left|done].
Qed.

Lemma missing_text_nested terminal c t :
  missing_text terminal c = Ok t → nested_ok (MessageContent.Text t).
Proof. unfold missing_text. repeat case_match; intros [= <-]; by vm_compute. Qed.

Lemma emit_missing id t :
  ai_identifier id = true → nested_ok (MessageContent.Text t) →
  emit_message (Missing id t) = Ok (message_of (Missing id t)) ∧ valid_message (message_of (Missing id t)).
Proof.
  intros Hid Ht.
  assert (Hv : valid_message (message_of (Missing id t))).
  { apply validate_result_message. split; [done|]. split; [done|]. split; [done|]. by constructor. }
  split; [|done]. unfold emit_message.
  by rewrite (proj2 (tool_result_ok id [MessageContent.Text t] true _) (conj eq_refl Hv)).
Qed.

Definition emitted (v : ViewMessage) : Prop :=
  emit_message v = Ok (message_of v) ∧ valid_message (message_of v).

Lemma answers_emitted terminal b ids rs vs :
  answers_of terminal b ids rs vs → Forall valid_message rs → Forall (λ id, ai_identifier id = true) ids →
  Forall emitted vs.
Proof.
  induction 1 as [|id ids r rs vs Hs Hr Ha IH|id ids rs vs c t Hc Hs Ht Ha IH]; [constructor| |].
  - intros [Hv Hvs]%Forall_cons [_ Hids]%Forall_cons. constructor; [by split|auto].
  - intros Hvs [Hid Hids]%Forall_cons. constructor; [|auto].
    apply emit_missing; [done|by eapply missing_text_nested].
Qed.

Lemma viewed_emitted terminal b i ms vs :
  viewed terminal b i ms vs → Forall valid_message ms → Forall emitted vs.
Proof.
  induction 1 as [i|i h rs rest vs vr Hg Ha Hw IH]; [constructor|].
  intros [Hh Hv]%Forall_cons. apply Forall_app in Hv as [Hrs Hv].
  constructor; [by split|]. apply Forall_app. split; [|auto].
  destruct (bt_get (Z.of_nat i) b) as [batch|].
  - eapply answers_emitted; [exact Ha|done|]. apply Forall_forall. intros id Hid.
    by apply (calls_of_valid h).
  - destruct Ha as (_ & _ & ->). constructor.
Qed.

Lemma Forall_fst_emitted vs : Forall emitted vs → Forall (λ v, emit_message v = Ok (message_of v)) vs.
Proof. intros H. eapply Forall_impl; [exact H|]. by intros v [? _]. Qed.

Lemma batches_distinct weight t :
  turn_ok weight t → ∀ k b, bt_get k (batches t) = Some b → NoDup (calls b).*1.
Proof. intros Ht k b Hk. eapply batch_ids_NoDup; [apply Ht|exact Hk]. Qed.

Lemma normalize_viewed weight t vs :
  turn_ok weight t → viewed (terminal t) (batches t) 0 (messages t) vs →
  normalize (messages t) (batches t) (terminal t) = Ok (message_of <$> vs).
Proof.
  intros Ht Hw. apply visit_view_viewed; [by eapply batches_distinct|done|apply Ht|].
  apply Forall_fst_emitted. eapply viewed_emitted; [exact Hw|apply Ht].
Qed.

Lemma emit_message_no_panic v : emit_message v ≠ Panic.
Proof.
  destruct v as [m|id t]; [done|]. unfold emit_message.
  pose proof (message_new_no_panic Tool [MessageContent.ToolResult id [MessageContent.Text t] true]) as H.
  unfold tool_result. by destruct (message_new _ _).
Qed.

(** A view only succeeds when every call without a result may be answered. *)
Lemma view_permitted {A} weight t (emit : ViewMessage → outcome ContextError A) out :
  turn_ok weight t → visit_view (messages t) (batches t) (terminal t) emit = Ok out →
  permitted (terminal t) (batches t).
Proof.
  intros Ht E k b Hk. destruct (ok_heads _ _ Ht _ _ Hk) as (Hk0 & m & Hm & Hr).
  eapply (visit_from_answerable (terminal t) emit (batches t));
    [by eapply batches_distinct|apply Ht|apply Ht|exact (eq_refl (length []))|exact E| |by rewrite Z2Nat.id|].
  - apply lookup_lt_Some in Hm. simpl. lia.
  - exists m. by rewrite Nat.sub_0_r.
Qed.

(** The view exists exactly when every call without a result may be answered. *)
Lemma turn_view weight t :
  turn_ok weight t →
  match normalize (messages t) (batches t) (terminal t) with
  | Ok view => permitted (terminal t) (batches t) ∧
               ∃ vs, viewed (terminal t) (batches t) 0 (messages t) vs ∧ view = message_of <$> vs
  | Err _ => ¬ permitted (terminal t) (batches t)
  | Panic => False
  end.
Proof.
  intros Ht. destruct (normalize _ _ _) as [view|e|] eqn:E.
  - assert (Hp : permitted (terminal t) (batches t)) by by eapply view_permitted.
    split; [done|]. destruct (viewed_exists _ _ _ _ (ok_grouped _ _ Ht) Hp) as [vs Hvs].
    exists vs. split; [done|]. rewrite (normalize_viewed _ _ _ Ht Hvs) in E. by injection E.
  - intros Hp. destruct (viewed_exists _ _ _ _ (ok_grouped _ _ Ht) Hp) as [vs Hvs].
    by rewrite (normalize_viewed _ _ _ Ht Hvs) in E.
  - by eapply visit_view_no_panic; [apply emit_message_no_panic|exact E].
Qed.

(** ** Messages of outcomes *)
Lemma lift_ok r m : lift r = Ok m ↔ r = Ok m.
Proof. destruct r; simpl; naive_solver. Qed.
Lemma lift_no_panic r : r ≠ Panic → lift r ≠ Panic.
Proof. by destruct r. Qed.

Lemma lift_result id l e m : lift (tool_result id l e) = Ok m → valid_message m ∧ result_of id m.
Proof. intros [-> Hv]%lift_ok%tool_result_ok. split; [done|]. by exists l, e. Qed.

Lemma tool_message_ok id r m : tool_message id r = Ok m → valid_message m ∧ result_of id m.
Proof. intros (l & _ & H)%obind_ok. by apply lift_result in H. Qed.

Lemma media_descriptor_no_panic m : media_descriptor m ≠ Panic.
Proof.
  assert (∀ d, Media.validate d ≠ Panic) as H.
  { intros d. unfold Media.validate. by repeat case_match. }
  unfold media_descriptor. destruct (negb _); [done|].
  destruct (Media.validate _) eqn:E; [|done|by apply H in E].
  destruct (Media.validate (Media.Build_t _ _ _ _ (Some _) _ _)) eqn:E'; [done|done|by apply H in E'].
Qed.

Lemma tool_content_no_panic l : tool_content l ≠ Panic.
Proof.
  induction l as [|[t|m] l IH]; simpl; [done|by apply obind_no_panic|].
  apply obind_no_panic; [apply media_descriptor_no_panic|]. intros d _. by apply obind_no_panic.
Qed.

Lemma tool_message_no_panic id r : tool_message id r ≠ Panic.
Proof.
  apply obind_no_panic; [apply tool_content_no_panic|]. intros l _.
  apply lift_no_panic, message_new_no_panic.
Qed.

Lemma assistant_message_ok l replay m :
  assistant_message l replay = Ok m → valid_message m ∧ role m = Assistant.
Proof. intros [-> Hv]%lift_ok%message_new_ok. done. Qed.

Lemma assistant_message_no_panic l replay : assistant_message l replay ≠ Panic.
Proof. apply lift_no_panic, message_new_no_panic. Qed.

Lemma prepare_batch_no_panic b index src m : prepare_batch b index src m ≠ Panic.
Proof.
  apply obind_no_panic.
  - generalize (@nil (text * Call)) as l. induction (calls_of m) as [|id ids IH]; intros l; simpl; [done|].
    by destruct (_ || _).
  - intros l _. by destruct (_ || _).
Qed.
