(* ===== verification/ContextFoldRules.v ===== *)
(** * The invariant of the context fold

    Every operation of [ContextFold.v] keeps a fold consistent: the index points at the
    Turns, the counters are the exact sums over them and within the absolute bounds, every
    Turn is well formed; and no operation panics: the Turn an operation works on is not
    evicted under it. *)

From S2P Require Import Prelude BTree Text TextMap ToolOrigin TurnFacts.
From S2P Require Import ContextMessage ContextPruning ContextOutcomes ContextFold ContextTurn.

(** ** Results *)
Definition safely {A} (P : A → Prop) (r : outcome ContextError A) : Prop :=
  match r with Ok a => P a | Err _ => True | Panic => False end.

Lemma safely_bind {A B} (P : A → Prop) (Q : B → Prop) (m : outcome ContextError A) k :
  safely P m → (∀ a, P a → safely Q (k a)) → safely Q (obind m k).
Proof. destruct m; simpl; auto. Qed.

Lemma safely_impl {A} (P Q : A → Prop) (m : outcome ContextError A) :
  safely P m → (∀ a, P a → Q a) → safely Q m.
Proof. destruct m; simpl; auto. Qed.

Lemma safely_ok_or {A} (o : option A) e (P : A → Prop) : (∀ a, o = Some a → P a) → safely P (ok_or o e).
Proof. destruct o; simpl; auto. Qed.

Lemma safely_total {A} (m : outcome ContextError A) (P : A → Prop) :
  m ≠ Panic → (∀ a, m = Ok a → P a) → safely P m.
Proof. destruct m; simpl; auto. Qed.

Section rules.
Context (weight : Message → Z) (weight_nonneg : ∀ m, 0 ≤ weight m).

(** ** The invariant *)
Record fold_ok (f : ContextFold) : Prop := {
  fo_index key i : turn_index f !! key = Some i ↔
    ∃ n t, turns f !! n = Some t ∧ turn_key t = key ∧ i = base_ordinal f + Z.of_nat n;
  fo_turns : Forall (turn_ok weight) (turns f);
  fo_count : retained_messages f = zsum ((λ t, len (messages t)) <$> turns f);
  fo_bytes : retained_message_bytes f = zsum (message_bytes <$> turns f);
  fo_count_max : retained_messages f ≤ MAXIMUM_CONTEXT_MESSAGES;
  fo_bytes_max : retained_message_bytes f ≤ MAXIMUM_CONTEXT_BYTES;
  fo_base : 0 ≤ base_ordinal f;
  fo_semantic : semantic f = true → base_ordinal f = 0 ∧ omitted_turns f = 0;
  fo_omitted : 0 ≤ omitted_turns f;
  fo_system : match system_message f with
              | Some m => valid_message m ∧ role m = System ∧ system_message_bytes f = weight m
              | None => system_message_bytes f = 0
              end
}.

Lemma message_bytes_nonneg t : turn_ok weight t → 0 ≤ message_bytes t.
Proof.
  intros Ht. rewrite (ok_bytes _ _ Ht). apply zsum_nonneg, Forall_fmap, Forall_forall.
  intros m _. apply weight_nonneg.
Qed.

Lemma fold_turn f n t : fold_ok f → turns f !! n = Some t → turn_ok weight t.
Proof. intros Hf Hn. by apply (proj1 (Forall_lookup _ _) (fo_turns f Hf) n). Qed.

(** Keys are distinct. *)
Lemma fold_key f n n' t t' :
  fold_ok f → turns f !! n = Some t → turns f !! n' = Some t' → turn_key t = turn_key t' → n = n'.
Proof.
  intros Hf Hn Hn' Hk.
  assert (H : turn_index f !! turn_key t = Some (base_ordinal f + Z.of_nat n))
    by (apply (fo_index f Hf); eauto).
  assert (H' : turn_index f !! turn_key t = Some (base_ordinal f + Z.of_nat n'))
    by (apply (fo_index f Hf); eauto).
  rewrite H in H'. injection H'. lia.
Qed.

(** ** Finding a Turn *)
Definition found (f : ContextFold) (id : TurnKey) (n : nat) (t : ProjectedTurn) : Prop :=
  turns f !! n = Some t ∧ turn_key t = id.

Lemma turn_ordinal_safe f id :
  fold_ok f → safely (λ i, ∃ n t, found f id n t ∧ i = base_ordinal f + Z.of_nat n) (turn_ordinal f id).
Proof.
  intros Hf. apply safely_ok_or. intros i (n & t & ? & ? & ?)%(fo_index f Hf).
  exists n, t. split; [by split|done].
Qed.

Lemma relative_index_safe f i :
  safely (λ n, i = base_ordinal f + Z.of_nat n ∧ (n < length (turns f))%nat) (relative_index f i).
Proof.
  unfold relative_index. destruct (checked_sub _ _) as [d|] eqn:E; [|done].
  apply checked_sub_Some in E as [-> Hle]. destruct (_ <? _) eqn:El; [|done].
  unfold len in El. simpl. lia.
Qed.

Lemma turn_mut_safe f id : fold_ok f → safely (λ '(n, t), found f id n t) (turn_mut f id).
Proof.
  intros Hf. eapply safely_bind; [by apply turn_ordinal_safe|]. intros i (n & t & Hn & ->).
  eapply safely_bind; [apply relative_index_safe|]. intros n' [Hi _].
  assert (n' = n) as -> by lia. apply safely_bind with (P := λ t', t' = t).
  - apply safely_ok_or. intros t' Ht'. destruct Hn as [Hn _]. congruence.
  - by intros ? ->.
Qed.

Lemma require_live_safe f id :
  fold_ok f → safely (λ _, ∃ n t, found f id n t ∧ terminal t = false) (require_live_turn f id).
Proof.
  intros Hf. eapply safely_bind; [by apply turn_ordinal_safe|]. intros i (n & t & Hn & ->).
  eapply safely_bind; [apply relative_index_safe|]. intros n' [Hi _].
  assert (n' = n) as -> by lia. destruct Hn as [Hn Hk]. unfold expect. rewrite Hn. simpl.
  destruct (terminal t) eqn:Et; [done|]. simpl. by exists n, t.
Qed.

(** ** Replacing a Turn *)
Lemma fold_replace f n t t' dn db :
  fold_ok f → turns f !! n = Some t → turn_ok weight t' → turn_key t' = turn_key t →
  len (messages t') = len (messages t) + dn → message_bytes t' = message_bytes t + db →
  retained_messages f + dn ≤ MAXIMUM_CONTEXT_MESSAGES →
  retained_message_bytes f + db ≤ MAXIMUM_CONTEXT_BYTES →
  fold_ok (set_retained (set_turns f (<[n := t']> (turns f))) (retained_messages f + dn)
             (retained_message_bytes f + db)).
Proof.
  intros Hf Hn Ht' Hk Hl Hb Hc Hm. pose proof Hf as []. constructor; simpl; try done.
  - intros key i. rewrite fo_index0. split.
    + intros (j & x & Hj & Hx & ->). destruct (decide (j = n)) as [->|Hne].
      * exists n, t'. rewrite list_lookup_insert_eq by (by eapply lookup_lt_Some).
        split_and!; [done|congruence|done].
      * exists j, x. by rewrite list_lookup_insert_ne.
    + intros (j & x & Hj & Hx & ->). destruct (decide (j = n)) as [->|Hne].
      * rewrite list_lookup_insert_eq in Hj by (by eapply lookup_lt_Some). injection Hj as <-.
        exists n, t. split_and!; [done|congruence|done].
      * rewrite list_lookup_insert_ne in Hj by done. by exists j, x.
  - by apply Forall_insert.
  - rewrite (zsum_insert _ _ _ t) by done. lia.
  - rewrite (zsum_insert _ _ _ t) by done. lia.
Qed.

Lemma fold_put f n t t' :
  fold_ok f → turns f !! n = Some t → turn_ok weight t' → turn_key t' = turn_key t →
  messages t' = messages t → message_bytes t' = message_bytes t → fold_ok (put_turn f n t').
Proof.
  intros Hf Hn Ht' Hk Hl Hb. pose proof Hf as [].
  pose proof (fold_replace f n t t' 0 0 Hf Hn Ht' Hk) as H. rewrite Hl, !Z.add_0_r in H.
  exact (H eq_refl Hb fo_count_max0 fo_bytes_max0).
Qed.

Lemma fold_assemblers f a : fold_ok f → fold_ok (set_assemblers f a).
Proof. intros []. by constructor. Qed.

(** ** Eviction *)

(** [f'] is [f] without its [k] oldest Turns, all of them terminal. *)
Definition evicted (f f' : ContextFold) : Prop :=
  ∃ k, turns f' = drop k (turns f) ∧ base_ordinal f' = base_ordinal f + Z.of_nat k ∧
       Forall (λ t, terminal t = true) (take k (turns f)) ∧ (k ≤ length (turns f))%nat ∧
       (semantic f = true → k = 0%nat).

Definition kept (f f' : ContextFold) : Prop :=
  fold_ok f' ∧ evicted f f' ∧ semantic f' = semantic f ∧ ingestion_failed f' = ingestion_failed f.

Lemma kept_refl f : fold_ok f → kept f f.
Proof. intros Hf. split; [done|]. split; [|done]. exists 0%nat. rewrite drop_0, take_0. split_and!; [done|lia|constructor|lia|done]. Qed.

Lemma kept_trans f g h : kept f g → kept g h → kept f h.
Proof.
  intros (Hg & (k & Ek & Bk & Tk & Lk & Sk) & S1 & F1) (Hh & (j & Ej & Bj & Tj & Lj & Sj) & S2 & F2).
  split; [done|]. split; [|split; congruence]. exists (k + j)%nat. rewrite Ek in Ej, Tj, Lj.
  rewrite length_drop in Lj. split_and!.
  - by rewrite Ej, drop_drop.
  - lia.
  - rewrite <-(take_take_drop (turns f) k j). by apply Forall_app.
  - lia.
  - intros Hs. rewrite Sk by done. rewrite Sj by congruence. done.
Qed.

Lemma found_kept f f' id n t :
  kept f f' → fold_ok f → found f id n t → terminal t = false →
  ∃ n', found f' id n' t ∧ base_ordinal f' + Z.of_nat n' = base_ordinal f + Z.of_nat n.
Proof.
  intros (Hf' & (k & Ek & Bk & Tk & Lk & _) & _) Hf [Hn Hk] Hlive.
  destruct (decide (n < k)%nat) as [Hlt|Hge].
  - exfalso. assert (Ht : take k (turns f) !! n = Some t) by (by rewrite lookup_take_lt).
    pose proof (proj1 (Forall_lookup _ _) Tk _ _ Ht) as H. simpl in H. congruence.
  - exists (n - k)%nat. split; [split; [|done]|lia].
    rewrite Ek, lookup_drop. by replace (k + (n - k))%nat with n by lia.
Qed.

Lemma remove_oldest_safe f :
  fold_ok f → front_terminal f = true → semantic f = false →
  safely (λ f', kept f f' ∧ length (turns f) = S (length (turns f'))) (remove_oldest_turn f).
Proof.
  intros Hf Hfront Hsem. unfold remove_oldest_turn, front_terminal in *.
  destruct (turns f) as [|t l] eqn:El; [done|]. simpl.
  eapply safely_bind; [apply safely_ok_or; intros n Hn; exact Hn|]. intros n [-> Hn]%checked_sub_Some.
  eapply safely_bind; [apply safely_ok_or; intros b Hb; exact Hb|]. intros b [-> Hb]%checked_sub_Some.
  eapply safely_bind; [apply safely_ok_or; intros o Ho; exact Ho|]. intros o [-> Ho]%checked_add_Some.
  eapply safely_bind; [apply safely_ok_or; intros c Hc; exact Hc|]. intros c [-> Hc]%checked_add_Some.
  simpl. split; [|done]. pose proof Hf as []. rewrite El in *.
  assert (Ht : turn_ok weight t) by (by apply Forall_cons in fo_turns0 as [? _]).
  split; [|split; [|by split]].
  2:{ exists 1%nat. rewrite El. simpl. split_and!; [by rewrite drop_0|lia|by constructor|lia|].
      rewrite Hsem. done. }
  pose proof (message_bytes_nonneg t Ht). pose proof (len_nonneg (messages t)).
  constructor; simpl; rewrite ?Hsem; try done; try lia.
  - intros key i. rewrite lookup_delete_Some, fo_index0. split.
    + intros (Hne & [|n] & x & Hx & Hk & ->).
      * injection Hx as ->. done.
      * exists n, x. split_and!; [done|done|lia].
    + intros (n & x & Hx & Hk & ->). split.
      * intros Heq. rewrite <-El in *.
        assert (0%nat = S n); [|lia].
        eapply (fold_key f 0 (S n) t x Hf); rewrite ?El; [done|done|congruence].
      * exists (S n), x. split_and!; [done|done|lia].
  - by apply Forall_cons in fo_turns0 as [_ ?].
  - rewrite fo_count0, fmap_cons, zsum_cons. lia.
  - rewrite fo_bytes0, fmap_cons, zsum_cons. lia.
Qed.

Lemma admit_loop_safe fuel f b :
  fold_ok f → (length (turns f) ≤ fuel)%nat →
  safely (λ f', kept f f' ∧ retained_messages f' < MAXIMUM_CONTEXT_MESSAGES ∧
                retained_message_bytes f' + b ≤ MAXIMUM_CONTEXT_BYTES) (admit_loop fuel f b).
Proof.
  revert f. induction fuel as [|fuel IH]; intros f Hf Hl; simpl;
    pose proof Hf as []; unfold saturating_sub;
    (destruct (_ || _) eqn:E1; [destruct (semantic f || bool_decide (retention_limits f = None) || negb (front_terminal f)) eqn:E2; [done|]|split; [by apply kept_refl|lia]]);
    apply orb_false_iff in E2 as [[Hs Hr]%orb_false_iff Ht%negb_false_iff].
  { unfold front_terminal in Ht. destruct (turns f); [done|]. simpl in Hl. lia. }
  eapply safely_bind; [by apply remove_oldest_safe|]. intros f1 [Hk Hlen].
  eapply safely_impl; [apply IH; [apply Hk|lia]|]. intros f2 (Hk2 & ? & ?).
  split; [by eapply kept_trans|done].
Qed.

Lemma admit_safe f b :
  fold_ok f →
  safely (λ f', kept f f' ∧ retained_messages f' < MAXIMUM_CONTEXT_MESSAGES ∧
                retained_message_bytes f' + b ≤ MAXIMUM_CONTEXT_BYTES) (admit_message f b).
Proof. intros Hf. by apply admit_loop_safe. Qed.

Lemma omission_message_ok n m : omission_message n = Ok m → valid_message m ∧ role m = Developer ∧ calls_of m = [].
Proof.
  intros [-> Hv]%lift_ok%message_new_ok. split; [done|]. split; [done|]. by apply calls_of_nil.
Qed.
Lemma omission_no_panic n : omission_message n ≠ Panic.
Proof. apply lift_no_panic, message_new_no_panic. Qed.

Lemma shape_no_panic f limits : retained_shape_exceeds weight f limits ≠ Panic.
Proof.
  unfold retained_shape_exceeds, encoded_array_bytes.
  apply obind_no_panic; [by destruct (_ ≫= _)|]. intros n _.
  apply obind_no_panic.
  { destruct (0 <? _); [|done]. apply obind_no_panic; [apply omission_no_panic|].
    intros m _. by destruct (checked_add _ _ _). }
  intros b _. apply obind_no_panic; [by destruct (checked_add _ _ _)|]. intros b' _.
  apply obind_no_panic; [by destruct (_ ≫= _)|done].
Qed.

Lemma compact_loop_safe fuel f limits :
  fold_ok f → (length (turns f) ≤ fuel)%nat → semantic f = false →
  safely (kept f) (compact_loop weight fuel f limits).
Proof.
  revert f. induction fuel as [|fuel IH]; intros f Hf Hl Hs; simpl;
    (eapply safely_bind with (P := λ _, True);
      [apply safely_total; [apply shape_no_panic|done]|]; intros exceeds _;
     destruct (negb exceeds || negb (front_terminal f)) eqn:E; [by apply kept_refl|]);
    apply orb_false_iff in E as [_ Ht%negb_false_iff].
  { unfold front_terminal in Ht. destruct (turns f); [done|]. simpl in Hl. lia. }
  eapply safely_bind; [by apply remove_oldest_safe|]. intros f1 [Hk Hlen].
  eapply safely_impl; [apply IH; [apply Hk|lia|]|].
  - destruct Hk as (_ & _ & -> & _). done.
  - intros f2 Hk2. by eapply kept_trans.
Qed.

Lemma compact_safe f : fold_ok f → safely (kept f) (compact_retained weight f).
Proof.
  intros Hf. unfold compact_retained. destruct (semantic f) eqn:Hs.
  - destruct (_ || _); [done|by apply kept_refl].
  - destruct (retention_limits f) as [limits|]; [by apply compact_loop_safe|by apply kept_refl].
Qed.

(** ** New Turns and messages *)
Definition empty_turn (id : TurnKey) : ProjectedTurn :=
  {| turn_key := id; messages := []; message_bytes := 0; terminal := false; batches := [] |}.

Lemma empty_turn_ok id : turn_ok weight (empty_turn id).
Proof. constructor; simpl; try done; constructor. Qed.

Lemma fold_append f t n b :
  fold_ok f → turn_ok weight t → turn_index f !! turn_key t = None →
  n = retained_messages f + len (messages t) → b = retained_message_bytes f + message_bytes t →
  n ≤ MAXIMUM_CONTEXT_MESSAGES → b ≤ MAXIMUM_CONTEXT_BYTES →
  fold_ok (set_retained (set_index (set_turns f (turns f ++ [t])) (omitted_turns f) (base_ordinal f)
             (<[turn_key t := base_ordinal f + len (turns f)]> (turn_index f))) n b).
Proof.
  intros Hf Ht Hnew -> -> Hn Hb. pose proof Hf as []. constructor; simpl; try done.
  - intros key i. rewrite lookup_insert_Some, fo_index0. split.
    + intros [[<- <-]|(Hne & j & x & Hx & Hk & ->)].
      * exists (length (turns f)), t. by rewrite lookup_app_r, Nat.sub_diag by lia.
      * exists j, x. split; [by apply lookup_app_l_Some|done].
    + intros (j & x & Hx & Hk & ->). apply lookup_app_Some in Hx as [Hx|[Hj Hx]].
      * right. split; [|by exists j, x]. intros Heq.
        assert (turn_index f !! key = Some (base_ordinal f + Z.of_nat j)) by (apply fo_index0; eauto).
        congruence.
      * apply list_lookup_singleton_Some in Hx as [Hj' ->]. left. unfold len. split; [done|lia].
  - apply Forall_app. split; [done|by constructor].
  - rewrite fmap_app, zsum_app. simpl. rewrite zsum_cons, zsum_nil. lia.
  - rewrite fmap_app, zsum_app. simpl. rewrite zsum_cons, zsum_nil. lia.
Qed.

Lemma insert_empty_safe f id : fold_ok f → safely fold_ok (insert_empty_turn f id).
Proof.
  intros Hf. unfold insert_empty_turn. case_bool_decide as E; [done|].
  eapply safely_bind; [apply safely_ok_or; intros n Hn; exact Hn|]. intros n [-> Hn]%checked_add_Some.
  pose proof Hf as [].
  assert (Hnew : turn_index f !! id = None) by (by apply eq_None_not_Some).
  pose proof (fold_append f (empty_turn id) (retained_messages f + 0) (retained_message_bytes f + 0)
    Hf (empty_turn_ok id) Hnew eq_refl eq_refl) as H. rewrite !Z.add_0_r in H. by apply H.
Qed.

Lemma kept_none f f' id : kept f f' → fold_ok f → turn_index f !! id = None → turn_index f' !! id = None.
Proof.
  intros (Hf' & (k & Ek & Bk & _) & _) Hf Hn. apply eq_None_not_Some. intros [i Hi].
  apply (fo_index f' Hf') in Hi as (n & t & Ht & Hk & ->). rewrite Ek, lookup_drop in Ht.
  assert (turn_index f !! id = Some (base_ordinal f + Z.of_nat (k + n))) as H
    by (apply (fo_index f Hf); eauto). congruence.
Qed.

Lemma single_turn_ok id m :
  valid_message m → role m ≠ Tool → calls_of m = [] →
  turn_ok weight {| turn_key := id; messages := [m]; message_bytes := weight m; terminal := false; batches := [] |}.
Proof.
  intros Hv Hr Hc. pose proof (push_plain weight (empty_turn id) m (empty_turn_ok id) Hv Hr Hc) as H.
  exact H.
Qed.

Lemma insert_turn_safe f id m :
  fold_ok f → valid_message m → role m ≠ Tool → calls_of m = [] → safely fold_ok (insert_turn weight f id m).
Proof.
  intros Hf Hv Hr Hc. unfold insert_turn. case_bool_decide as E; [done|].
  apply eq_None_not_Some in E.
  eapply safely_bind; [by apply admit_safe|]. intros f1 (Hk & Hn & Hb).
  eapply safely_bind; [apply safely_ok_or; intros n Hx; exact Hx|]. intros n [-> _]%checked_add_Some.
  eapply safely_bind; [apply safely_ok_or; intros b Hx; exact Hx|]. intros b [-> _]%checked_add_Some.
  eapply safely_bind; [apply safely_ok_or; intros i Hx; exact Hx|]. intros i [-> _]%checked_add_Some.
  pose proof (kept_none _ _ _ Hk Hf E) as Hnew. destruct Hk as [Hf1 _].
  eapply (fold_append f1 {| turn_key := id; messages := [m]; message_bytes := weight m;
                           terminal := false; batches := [] |}); simpl; try done; [|lia].
  by apply single_turn_ok.
Qed.

Lemma push_with_safe f id m commit :
  fold_ok f →
  (∀ n t, found f id n t →
     safely (λ t', turn_ok weight t' ∧ turn_key t' = id ∧ len (messages t') = len (messages t) + 1 ∧
                   message_bytes t' = message_bytes t + weight m)
       (commit (push weight t m (batches t)))) →
  safely fold_ok (push_turn_message_with weight f id m commit).
Proof.
  intros Hf Hc. unfold push_turn_message_with.
  eapply safely_bind; [by apply turn_ordinal_safe|]. intros i (n & t & Hn & ->).
  eapply safely_bind; [by apply admit_safe|]. intros f1 (Hk & Hcount & Hbytes).
  eapply safely_bind; [apply relative_index_safe|]. intros n' [Hi Hn'].
  eapply safely_bind; [apply safely_ok_or; intros c Hx; exact Hx|]. intros c [-> _]%checked_add_Some.
  eapply safely_bind; [apply safely_ok_or; intros b Hx; exact Hx|]. intros b [-> _]%checked_add_Some.
  assert (Ht : turns f1 !! n' = Some t).
  { destruct Hk as (Hf1 & (k & Ek & Bk & _) & _). rewrite Ek, lookup_drop.
    replace (k + n')%nat with n by lia. apply Hn. }
  rewrite Ht. simpl.
  eapply safely_bind; [apply safely_ok_or; intros b Hx; exact Hx|]. intros b [-> _]%checked_add_Some.
  eapply safely_bind; [apply (Hc n t Hn)|]. intros t' (Hok & Hkey & Hlen & Hb). simpl.
  apply (fold_replace f1 n' t); try done; [apply Hk|by destruct Hn as [_ ->]|lia].
Qed.

Lemma push_message_safe f id m :
  fold_ok f → valid_message m → role m ≠ Tool → calls_of m = [] → safely fold_ok (push_turn_message weight f id m).
Proof.
  intros Hf Hv Hr Hc. apply push_with_safe; [done|]. intros n t [Hn Hk]. simpl.
  pose proof (push_plain weight t m (fold_turn _ _ _ Hf Hn) Hv Hr Hc) as H.
  split_and!; [done|done| |done]. rewrite len_app, len_cons, len_nil. lia.
Qed.

Lemma push_messages_safe f id l :
  fold_ok f → Forall (λ m, valid_message m ∧ (role m = User ∨ role m = Developer)) l →
  safely fold_ok (push_messages weight f id l).
Proof.
  intros Hf Hl. revert f Hf. induction Hl as [|m l [Hv Hr] Hl IH]; intros f Hf; [done|]. simpl.
  eapply safely_bind; [|intros f1 Hf1; by apply IH].
  apply push_message_safe; [done|done| |]; [|apply calls_of_nil; [done|]]; by destruct Hr as [-> | ->].
Qed.

(** ** Model attempts *)
Lemma start_model_safe f id e d m : fold_ok f → safely fold_ok (start_model f id e d m).
Proof.
  intros Hf. eapply safely_bind; [by apply require_live_safe|]. intros [] _.
  eapply safely_bind with (P := λ _, True).
  - apply safely_total; [|done]. unfold model_ref_new. by repeat case_match.
  - intros r _. case_bool_decide; [done|]. by apply fold_assemblers.
Qed.

Lemma omap_imap {A B C} (g : B → option C) (h : A → option C) (f : nat → A → B) l :
  (∀ i x, g (f i x) = h x) → omap g (imap f l) = omap h l.
Proof.
  revert f. induction l as [|x l IH]; intros f H; [done|]. rewrite imap_cons.
  assert (E : omap g (imap (f ∘ S) l) = omap h l) by (apply IH; intros i y; apply H).
  unfold omap in *. simpl. rewrite H. by rewrite E.
Qed.

Definition block_call (b : ContentBlock.t) : option text :=
  match b with ContentBlock.ToolCall call => Some (ContextMessage.id call) | _ => None end.

Lemma assistant_calls l replay m : assistant_message l replay = Ok m → calls_of m = omap block_call l.
Proof. intros [-> _]%lift_ok%message_new_ok. apply omap_imap. by intros i []. Qed.

Lemma push_partial_safe f id l r : fold_ok f → safely fold_ok (push_partial weight f id l r).
Proof.
  intros Hf. unfold push_partial. case_bool_decide; [done|].
  eapply safely_bind with (P := λ m, valid_message m ∧ role m ≠ Tool ∧ calls_of m = []).
  - apply safely_total; [apply assistant_message_no_panic|]. intros m Hm.
    apply assistant_message_ok in Hm as Hv. split; [apply Hv|]. split; [by destruct Hv as [_ ->]|].
    rewrite (assistant_calls _ _ _ Hm). rewrite omap_app. simpl. rewrite app_nil_r.
    clear. induction l as [|b l IH]; [done|]. rewrite filter_cons. by destruct b; simpl.
  - intros m (Hv & Hr & Hc). by apply push_message_safe.
Qed.

Lemma complete_model_safe f id e l replay : fold_ok f → safely fold_ok (complete_model weight f id e l replay).
Proof.
  intros Hf. unfold complete_model.
  eapply safely_bind; [apply safely_total; [apply assistant_message_no_panic|];
    intros m Hm; exact (assistant_message_ok _ _ _ Hm)|]. intros m [Hv Hr].
  eapply safely_bind; [by apply turn_mut_safe|]. intros [n t] [Hn Hk].
  eapply safely_bind; [apply safely_total; [apply prepare_batch_no_panic|]; intros ob Hob; exact Hob|].
  intros ob Hob. apply push_with_safe; [done|]. intros n' t' [Hn' Hk']. 
  assert (n' = n) as -> by (eapply (fold_key f); [done|done|done|congruence]).
  rewrite Hn in Hn'. injection Hn' as <-.
  pose proof (push_batch weight t m e ob (fold_turn _ _ _ Hf Hn) Hv ltac:(by rewrite Hr) Hob) as Hp.
  assert (Hlen : len (messages t ++ [m]) = len (messages t) + 1) by (rewrite len_app, len_cons, len_nil; lia).
  by destruct ob as [batch|]; simpl; split_and!.
Qed.

Lemma settle_attempt_safe f id e a r : fold_ok f → safely fold_ok (settle_attempt weight f id e a r).
Proof.
  intros Hf. unfold settle_attempt.
  eapply safely_bind with (P := λ _, True); [by apply safely_ok_or|]. intros active _.
  destruct (negb _); [done|].
  pose proof (fold_assemblers f (delete e (assemblers f)) Hf) as Hf'.
  destruct a as [l replay|l|l|l code|reason]; try destruct r;
    first [exact Hf'|by apply push_partial_safe|by apply complete_model_safe|done].
Qed.

(** ** Tool outcomes *)

(** New batches of a live Turn. *)
Definition same_turn (t : ProjectedTurn) (b : bmap Batch) : Prop := Forall2 same_batch (batches t) b.

Lemma fold_put_batches f n t b :
  fold_ok f → turns f !! n = Some t → same_turn t b → fold_ok (put_turn f n (set_batches t b)).
Proof.
  intros Hf Hn Hb. apply (fold_put f n t); try done. apply turn_set_batches; [|done].
  by eapply fold_turn.
Qed.

Section on_turn.
Context (t : ProjectedTurn) (Ht : turn_ok weight t).

Lemma found_call P :
  safely (λ '(k, id, c), ∃ batch, bt_get k (batches t) = Some batch ∧ tm_get id (calls batch) = Some c ∧
                                  P batch id c = true)
    (ok_or (find_call_mut (batches t) P) invalid_provenance).
Proof.
  apply safely_ok_or. intros [[k id] c] H. by eapply find_call_ok.
Qed.

Lemma program_call_safe e p n r c i : safely (same_turn t) (program_call (batches t) e p n r c i).
Proof.
  unfold program_call. eapply safely_bind; [apply found_call|]. intros [[k id] parent] _.
  destruct (_ || _); [done|]. eapply safely_bind with (P := λ _, True); [by apply safely_ok_or|].
  intros pr _. destruct (_ || _); [done|]. apply put_call_same; [apply Ht|done].
Qed.

Lemma program_outcome_safe e c s :
  safely (λ b, match b with Some b => same_turn t b | None => True end) (program_outcome (batches t) e c s).
Proof.
  unfold program_outcome. destruct (find_call_mut _ _) as [[[k id] parent]|]; [|by destruct (_ && _)].
  eapply safely_bind with (P := λ _, True); [by apply safely_ok_or|]. intros pr _.
  eapply safely_bind with (P := λ _, True); [by apply safely_ok_or|]. intros nested _.
  destruct (negb _); [done|].
  destruct s, (nested_started nested); simpl; try done; (apply put_call_same; [apply Ht|done]).
Qed.

Lemma supersede_safe s : safely (same_turn t) (supersede_batch (batches t) s).
Proof.
  unfold supersede_batch. eapply safely_bind with (P := λ _, True); [by apply safely_ok_or|]. intros [k b] _.
  eapply safely_bind with (P := λ _, True); [by apply safely_ok_or|]. intros batch _.
  destruct (negb _); [done|]. apply bt_update_same; [apply Ht|]. intros b'. split; [done|].
  apply same_calls_map. intros [i c]. simpl. by destruct (_ && _).
Qed.

Lemma intend_safe s e c r : safely (same_turn t) (intend_call (batches t) s e c r).
Proof.
  unfold intend_call. eapply safely_bind with (P := λ _, True); [by apply safely_ok_or|].
  intros [[k id] call] _. destruct (_ || _); [done|]. apply put_call_same; [apply Ht|done].
Qed.

Lemma start_safe e c : safely (same_turn t) (start_call (batches t) e c).
Proof.
  unfold start_call. eapply safely_bind with (P := λ _, True); [by apply safely_ok_or|].
  intros [[k id] call] _. destruct (_ || _); [done|]. apply put_call_same; [apply Ht|done].
Qed.
End on_turn.

Lemma later_settled_safe batch id past ids :
  Forall (λ i, is_Some (tm_get i (calls batch))) ids → later_settled batch id past ids ≠ Panic.
Proof.
  intros H. revert past. induction H as [|i ids [c Hc] H IH]; intros past; [done|].
  unfold later_settled. fold later_settled. destruct past; [|apply IH].
  rewrite Hc. simpl. destruct (settled c); [done|apply IH].
Qed.

Lemma settle_call_safe f id call_id e m :
  fold_ok f → valid_message m → result_of call_id m →
  safely fold_ok (settle_tool_call weight f id call_id e m).
Proof.
  intros Hf Hv Hr. unfold settle_tool_call.
  eapply safely_bind; [by apply turn_mut_safe|]. intros [n t] [Hn Hk].
  pose proof (fold_turn _ _ _ Hf Hn) as Ht.
  eapply safely_bind; [by apply found_call|]. intros [[k i] call] (batch & Hb & Hc & Hi).
  apply bool_decide_eq_true in Hi as ->.
  destruct (_ || _ || _) eqn:E; [done|]. apply orb_false_iff in E as [[Hs _]%orb_false_iff _].
  rewrite Hb. simpl. destruct (ok_heads _ _ Ht _ _ Hb) as (Hk0 & head & Hh & Hrole). rewrite Hh. simpl.
  assert (Hcalls : Forall (λ i, is_Some (tm_get i (calls batch))) (calls_of head)).
  { destruct (grouped_at _ _ _ _ _ (ok_grouped _ _ Ht) Hh Hrole) as (pre & rs & rest & _ & _ & _ & Hg & _).
    simpl in Hg. rewrite Z2Nat.id, Hb in Hg by done. by eapply group_calls. }
  apply safely_bind with (P := λ _, later_settled batch call_id false (calls_of head) = Ok tt);
    [apply safely_total; [by apply later_settled_safe|by intros []]|].
  intros _ Hlater. destruct (negb _) eqn:El; [done|]. apply negb_false_iff, Z.eqb_eq in El.
  apply push_with_safe; [done|]. intros n' t' [Hn' Hk'].
  assert (n' = n) as -> by (eapply (fold_key f); [done|done|done|congruence]).
  rewrite Hn in Hn'. injection Hn' as <-. simpl. rewrite Hb. simpl. rewrite Hc. simpl.
  split_and!; [|done| |done].
  - by eapply (settle_turn weight t k batch call_id call m head).
  - rewrite len_app, len_cons, len_nil. lia.
Qed.

(** A Fact that is no program's leaves the fold as it is. *)
Lemma program_safe f id body :
  fold_ok f →
  safely (λ '(f', handled), fold_ok f' ∧ (handled = false → f' = f ∧
            match body with
            | ToolBody.ToolIntent _ (OriginProgram _ _) _ _
            | ToolBody.ToolRejected _ (OriginProgram _ _) _ _ _ => False
            | _ => True
            end)) (apply_program_outcome f id body).
Proof.
  intros Hf.
  assert (Hcall : ∀ e p n r c i, safely (λ '(f', handled), fold_ok f' ∧ handled = true)
    (obind (turn_mut f id) (λ '(index, turn), obind (program_call (batches turn) e p n r c i)
       (λ b, Ok (put_turn f index (set_batches turn b), true))))).
  { intros e p n r c i. eapply safely_bind; [by apply turn_mut_safe|]. intros [j t] [Hj _].
    eapply safely_bind; [apply program_call_safe; by eapply fold_turn|]. intros b Hb.
    split; [|done]. by eapply fold_put_batches. }
  assert (Hout : ∀ e c s, safely (λ '(f', handled), fold_ok f' ∧ (handled = false → f' = f))
    (obind (turn_mut f id) (λ '(index, turn), obind (program_outcome (batches turn) e c s)
       (λ b, Ok match b with Some b => (put_turn f index (set_batches turn b), true) | None => (f, false) end)))).
  { intros e c s. eapply safely_bind; [by apply turn_mut_safe|]. intros [j t] [Hj _].
    eapply safely_bind; [apply program_outcome_safe; by eapply fold_turn|]. intros [b|] Hb; [|done].
    split; [|done]. by eapply fold_put_batches. }
  destruct body as [s|e [s|p n] r c|e [s|p n] r c j|e c|e c res]; simpl; try done.
  - eapply safely_impl; [apply Hcall|]. intros [f' h] [? ->]. done.
  - eapply safely_impl; [apply Hcall|]. intros [f' h] [? ->]. done.
  - eapply safely_impl; [apply Hout|]. intros [f' h] [? H]. auto.
  - eapply safely_impl; [apply Hout|]. intros [f' h] [? H]. auto.
Qed.

Lemma put_safe f id (op : bmap Batch → outcome ContextError (bmap Batch)) :
  fold_ok f → (∀ t, turn_ok weight t → safely (same_turn t) (op (batches t))) →
  safely fold_ok (obind (turn_mut f id) (λ '(index, turn),
    obind (op (batches turn)) (λ b, Ok (put_turn f index (set_batches turn b))))).
Proof.
  intros Hf Hop. eapply safely_bind; [by apply turn_mut_safe|]. intros [n t] [Hn _].
  eapply safely_bind; [apply Hop; by eapply fold_turn|]. intros b Hb. by eapply fold_put_batches.
Qed.

Lemma tool_outcome_safe f id body : fold_ok f → safely fold_ok (apply_tool_outcome weight f id body).
Proof.
  intros Hf. unfold apply_tool_outcome. eapply safely_bind; [by apply require_live_safe|]. intros [] _.
  eapply safely_bind; [by apply program_safe|]. intros [f' []] [Hf' H]; [done|].
  destruct (H eq_refl) as [-> Hbody]. clear H.
  destruct body as [s|e [s|p n] r c|e [s|p n] r c j|e c|e c res]; try done.
  - apply (put_safe f id (λ b, supersede_batch b s)); [done|]. intros t Ht. by apply supersede_safe.
  - apply (put_safe f id (λ b, intend_call b s e c r)); [done|]. intros t Ht. by apply intend_safe.
  - eapply safely_bind; [by apply turn_mut_safe|]. intros [n t] _. destruct (negb _); [done|].
    eapply safely_bind; [apply safely_total; [apply lift_no_panic, message_new_no_panic|];
      intros m Hm; exact (lift_result _ _ _ _ Hm)|]. intros m [Hv Hr]. by apply settle_call_safe.
  - apply (put_safe f id (λ b, start_call b e c)); [done|]. intros t Ht. by apply start_safe.
  - eapply safely_bind; [by apply turn_mut_safe|]. intros [n t] _. destruct (negb _); [done|].
    eapply safely_bind; [apply safely_total; [apply tool_message_no_panic|];
      intros m Hm; exact (tool_message_ok _ _ _ Hm)|]. intros m [Hv Hr]. by apply settle_call_safe.
Qed.

(** ** Facts *)

(** Prepared inputs are valid messages of users and developers. *)
Definition body_ok (body : ContextBody.t) : Prop :=
  match body with
  | ContextBody.InputsPrepared l => Forall (λ m, valid_message m ∧ (role m = User ∨ role m = Developer)) l
  | _ => True
  end.

Lemma instructions_safe f l : fold_ok f → safely fold_ok (set_step_instructions weight f l).
Proof.
  intros Hf. unfold set_step_instructions, assembled_system.
  case_bool_decide; [simpl; pose proof Hf as []; by constructor|].
  destruct (lift _) as [m| |] eqn:E; simpl; [|done|by eapply lift_no_panic; [apply message_new_no_panic|exact E]].
  apply lift_ok, message_new_ok in E as [-> Hv]. pose proof Hf as []. by constructor.
Qed.

Lemma turn_terminal_ok t : turn_ok weight t → turn_ok weight (set_terminal t).
Proof. intros []. by constructor. Qed.

Lemma apply_body_safe f id body : fold_ok f → body_ok body → safely fold_ok (apply_body weight f id body).
Proof.
  intros Hf Hb. destruct body as [l| |p|l|e d m|e a r|b|media| |]; simpl.
  - by apply instructions_safe.
  - by apply insert_empty_safe.
  - eapply safely_bind; [apply safely_total; [apply lift_no_panic, message_new_no_panic|]; intros m Hm; pattern m in Hm; exact Hm|].
    intros m [-> Hv]%lift_ok%message_new_ok. by apply insert_turn_safe.
  - eapply safely_bind; [by apply turn_mut_safe|]. intros _ _. by apply push_messages_safe.
  - by apply start_model_safe.
  - by apply settle_attempt_safe.
  - by apply tool_outcome_safe.
  - eapply safely_bind with (P := λ _, True); [apply safely_total; [apply media_descriptor_no_panic|done]|].
    intros d _.
    eapply safely_bind; [apply safely_total; [apply lift_no_panic, message_new_no_panic|]; intros m Hm; pattern m in Hm; exact Hm|].
    intros m [-> Hv]%lift_ok%message_new_ok. by apply push_message_safe.
  - eapply safely_bind; [by apply turn_mut_safe|]. intros [n t] [Hn Hk]. destruct (terminal t); [done|].
    apply fold_assemblers. apply (fold_put f n t); try done. apply turn_terminal_ok. by eapply fold_turn.
  - done.
Qed.

Lemma invalidated_ok f : fold_ok f → fold_ok (invalidated f).
Proof.
  intros []. constructor; simpl; try done.
  - intros key i. rewrite lookup_empty. split; [done|]. by intros (n & t & Ht & _).
Qed.

Lemma ingest_safe f fact :
  fold_ok f → body_ok (fact_body fact) → safely (λ '(f', _), fold_ok f') (ingest weight f fact).
Proof.
  intros Hf Hb. unfold ingest. destruct (ingestion_failed f); [done|]. destruct (negb _); [done|].
  assert (H : safely fold_ok (apply_inner weight f fact)).
  { unfold apply_inner. eapply safely_bind; [by apply apply_body_safe|]. intros f1 Hf1.
    eapply safely_bind; [by apply compact_safe|]. intros f2 (Hf2 & _). by destruct (weight_granted _). }
  destruct (apply_inner weight f fact); [done|by apply invalidated_ok|done].
Qed.
End rules.
