(* ===== verification/ContextRequest.v ===== *)
(** * Requests from a context

    A fold that has ingested any Facts is consistent ([context_consistent]); in semantic
    mode the messages of a request are exactly the normalized views of its Turns, old Tool
    results pruned, provider state removed, and they satisfy the relations between calls
    and results that a language request demands ([request_answers_calls]). *)

From S2P Require Import Prelude BTree Text TextMap ToolOrigin TurnFacts.
From S2P Require Import ContextMessage ContextPruning ContextOutcomes ContextFold ContextTurn ContextFoldRules.

(** ** Histories *)
Section histories.
Context (weight : Message → Z).

(** [ContextFold::new], [with_limits] (with its limits) and [enable_semantic]. *)
Definition new_fold (prompt : text) (persona : option text) (semantic : bool)
    (limits : option ContextLimits) : outcome ContextError ContextFold :=
  let? _ := match limits with
            | Some l => let? _ := limits_new (max_messages l) (max_bytes l) in Ok tt
            | None => Ok tt
            end in
  set_step_instructions weight
    {| prompt := prompt; persona := persona; semantic := semantic; retention_limits := limits;
       system_message := None; system_message_bytes := 0; ingestion_failed := false;
       omitted_turns := 0; turns := []; base_ordinal := 0; turn_index := ∅; assemblers := ∅;
       retained_messages := 0; retained_message_bytes := 0 |} [].

Fixpoint ingest_all (f : ContextFold) (facts : list ContextFact) : outcome ContextError ContextFold :=
  match facts with
  | [] => Ok f
  | fact :: facts => obind (ingest weight f fact) (λ '(f, _), ingest_all f facts)
  end.
End histories.

(** ** Messages whose calls are answered *)
Inductive answered : list Message → Prop :=
| answered_nil : answered []
| answered_cons head results rest :
    valid_message head → role head ≠ Tool → Forall2 result_of (calls_of head) results →
    answered rest → answered (head :: results ++ rest).

Lemma answered_app l l' : answered l → answered l' → answered (l ++ l').
Proof.
  induction 1 as [|h rs rest Hv Hr Hrs Ha IH]; [done|]. intros Hl'. simpl. rewrite <-app_assoc.
  constructor; auto.
Qed.

Lemma answered_single m : valid_message m → role m ≠ Tool → calls_of m = [] → answered [m].
Proof.
  intros Hv Hr Hc. apply (answered_cons m [] []); [done|done|rewrite Hc; constructor|constructor].
Qed.

Lemma answers_results_of terminal b ids rs vs :
  answers_of terminal b ids rs vs → Forall2 result_of ids (message_of <$> vs).
Proof.
  induction 1 as [|id ids r rs vs Hs Hr Ha IH|id ids rs vs c t Hc Hs Ht Ha IH]; constructor; auto.
  by eexists _, _.
Qed.

Lemma viewed_answered terminal b i ms vs :
  viewed terminal b i ms vs → Forall valid_message ms → answered (message_of <$> vs).
Proof.
  induction 1 as [i|i h rs rest vs vr Hg Ha Hw IH]; [constructor|].
  intros [Hh Hv]%Forall_cons. apply Forall_app in Hv as [_ Hv].
  rewrite fmap_cons, fmap_app. cbn [message_of]. constructor; [done|apply Hg| |auto].
  destruct (bt_get (Z.of_nat i) b) as [batch|].
  - by eapply answers_results_of.
  - destruct Ha as (-> & _ & ->). constructor.
Qed.

(** *** The relations of a request *)
Lemma admit_blocks_app l l' seen :
  admit_blocks (l ++ l') seen = obind (admit_blocks l seen) (admit_blocks l').
Proof.
  revert seen. induction l as [|b l IH]; intros seen; [done|]. simpl.
  destruct (admit_block b seen); simpl; [apply IH|done|done].
Qed.

Definition is_call (block : MessageContent.t) : bool :=
  match block with MessageContent.ToolCall _ => true | _ => false end.
Definition is_tool_result (block : MessageContent.t) : bool :=
  match block with MessageContent.ToolResult _ _ _ => true | _ => false end.

Lemma admit_head l C R :
  Forall (λ b, is_tool_result b = false) l → NoDup (omap call_of l) →
  (∀ id, id ∈ omap call_of l → id ∉ C) →
  ∃ C', admit_blocks l (C, R) = Ok (C', R) ∧ ∀ id, id ∈ C' ↔ id ∈ C ∨ id ∈ omap call_of l.
Proof.
  intros Hl. revert C. induction Hl as [|b l Hb Hl IH]; intros C Hnd Hd.
  { exists C. split; [done|]. intros id. split; [by left|]. by intros [?|?%not_elem_of_nil]. }
  destruct b as [| | | | |call|]; try done; simpl in *; try (by apply IH).
  apply NoDup_cons in Hnd as [Hid Hnd]. rewrite bool_decide_eq_false_2 by (apply Hd; by left). simpl.
  destruct (IH (id call :: C) Hnd) as (C' & HC' & Hiff).
  - intros i Hi [->|Hc]%elem_of_cons; [done|]. by apply (Hd i); [right|].
  - exists C'. split; [done|]. intros i. rewrite Hiff, !elem_of_cons. tauto.
Qed.

Lemma admit_results ids rs C R :
  Forall2 result_of ids rs → NoDup ids → (∀ id, id ∈ ids → id ∈ C ∧ id ∉ R) →
  ∃ R', admit_blocks (rs ≫= content) (C, R) = Ok (C, R') ∧ ∀ id, id ∈ R' ↔ id ∈ R ∨ id ∈ ids.
Proof.
  intros Hrs. revert R. induction Hrs as [|i r ids rs (l & e & ->) Hrs IH]; intros R Hnd Hd.
  { exists R. split; [done|]. intros id. split; [by left|]. by intros [?|?%not_elem_of_nil]. }
  apply NoDup_cons in Hnd as [Hi Hnd]. destruct (Hd i ltac:(by left)) as [HiC HiR]. simpl.
  rewrite bool_decide_eq_true_2 by done. simpl. rewrite bool_decide_eq_false_2 by done. simpl.
  destruct (IH (i :: R) Hnd) as (R' & HR' & Hiff).
  - intros j Hj. destruct (Hd j ltac:(by right)) as [? ?]. split; [done|].
    by intros [->|?]%elem_of_cons.
  - exists R'. split; [done|]. intros j. rewrite Hiff, !elem_of_cons. tauto.
Qed.

Lemma head_blocks m : valid_message m → role m ≠ Tool → Forall (λ b, is_tool_result b = false) (content m).
Proof.
  intros Hv Hr. apply Forall_forall. intros b Hb. destruct b as [| | | | | |c l e]; try done.
  exfalso. by eapply (validate_other_role m c l e).
Qed.

Lemma calls_of_result id m : result_of id m → calls_of m = [].
Proof. by intros (l & e & ->). Qed.

Lemma results_no_calls ids rs : Forall2 result_of ids rs → rs ≫= calls_of = [].
Proof.
  induction 1 as [|i r ids rs Hr Hrs IH]; [done|]. rewrite bind_cons, IH, app_nil_r.
  by eapply calls_of_result.
Qed.

Lemma answered_admitted l C R :
  answered l → NoDup (l ≫= calls_of) → (∀ id, id ∈ l ≫= calls_of → id ∉ C ∧ id ∉ R) →
  ∃ seen, admit_blocks (l ≫= content) (C, R) = Ok seen.
Proof.
  intros Ha. revert C R. induction Ha as [|h rs rest Hv Hr Hrs Ha IH]; intros C R Hnd Hd; [by eexists|].
  rewrite bind_cons, bind_app in Hnd, Hd. rewrite (results_no_calls _ _ Hrs) in Hnd, Hd. simpl in Hnd, Hd.
  apply NoDup_app in Hnd as (Hnh & Hdis & Hnr).
  rewrite bind_cons, bind_app, !admit_blocks_app.
  destruct (admit_head (content h) C R) as (C1 & -> & HC1); [by apply head_blocks|done| |].
  { intros id Hid. apply (Hd id). apply elem_of_app. by left. }
  simpl. rewrite admit_blocks_app. destruct (admit_results (calls_of h) rs C1 R) as (R1 & -> & HR1); [done|done| |].
  { intros id Hid. split; [apply HC1; by right|]. apply (Hd id). apply elem_of_app. by left. }
  simpl. apply IH; [done|]. intros id Hid.
  destruct (Hd id) as [HC HR]; [apply elem_of_app; by right|].
  rewrite HC1, HR1. split; intros [?|Hin]; try done; by apply (Hdis id).
Qed.

(** ** Removing provider state *)
Lemma omap_filter_reasoning (l : list MessageContent.t) :
  omap call_of (filter (λ b, match b with MessageContent.Reasoning _ _ => false | _ => true end = true) l) =
  omap call_of l.
Proof.
  induction l as [|b l IH]; [done|]. rewrite filter_cons.
  destruct b; first [rewrite decide_True by done|rewrite decide_False by done];
    unfold omap in *; simpl; by rewrite IH.
Qed.

Lemma assistant_subset m l :
  valid_message m → role m = Assistant → l ≠ [] → (∀ b, b ∈ l → b ∈ content m) →
  (length l ≤ length (content m))%nat → assistant l = Ok {| role := Assistant; content := l |}.
Proof.
  intros Hv Hr Hne Hsub Hlen.
  assert (Hl : validate {| role := Assistant; content := l |} = Ok tt); [|unfold assistant, message_new; by rewrite Hl].
  pose proof Hv as Hv'. unfold valid_message, validate in Hv'. unfold validate. simpl.
  rewrite bool_decide_eq_false_2 by done. simpl.
  destruct (_ || _) eqn:E in Hv'; [done|]. apply orb_false_iff in E as [_ E].
  replace (MAX_BLOCKS_PER_MESSAGE <? len l) with false by (unfold len in *; lia).
  clear E Hv' Hne Hlen. induction l as [|b l IH]; [done|]. simpl.
  pose proof (validate_block m b Hv (Hsub b ltac:(by left))) as Hb. rewrite Hr in Hb. rewrite Hb. simpl.
  apply IH. intros b' Hb'. apply Hsub. by right.
Qed.

(** A message without its reasoning: gone, or a message with the same calls. *)
Lemma without_message m :
  valid_message m →
  match without_unscoped_provider_message m with
  | Ok None => role m ≠ Tool ∧ calls_of m = []
  | Ok (Some m') => valid_message m' ∧ role m' = role m ∧ calls_of m' = calls_of m ∧ (role m = Tool → m' = m)
  | _ => False
  end.
Proof.
  intros Hv. unfold without_unscoped_provider_message.
  destruct (negb _) eqn:E; [done|]. apply negb_false_iff, andb_true_iff in E as [Hr%bool_decide_eq_true _].
  set (l := filter _ _). case_bool_decide as El.
  - split; [by rewrite Hr|]. unfold calls_of. rewrite <-(omap_filter_reasoning (content m)).
    fold l. by rewrite El.
  - unfold lift. rewrite (assistant_subset m l); try done.
    + simpl. split_and!; [|done| |by rewrite Hr].
      * by apply (message_new_ok Assistant l), (assistant_subset m l); try done;
          [intros b [_ Hb]%list_elem_of_filter|apply length_filter].
      * unfold calls_of. simpl. apply omap_filter_reasoning.
    + intros b [_ Hb]%list_elem_of_filter. done.
    + apply length_filter.
Qed.

Lemma without_state_app l l' :
  without_unscoped_provider_state (l ++ l') =
  obind (without_unscoped_provider_state l) (λ a, obind (without_unscoped_provider_state l') (λ b, Ok (a ++ b))).
Proof.
  induction l as [|m l IH]; simpl; [by destruct (without_unscoped_provider_state l')|].
  destruct (without_unscoped_provider_message m) as [o| |]; simpl; [|done|done]. rewrite IH.
  destruct (without_unscoped_provider_state l) as [a| |]; simpl; [|done|done].
  destruct (without_unscoped_provider_state l') as [b| |]; simpl; [|done|done]. by destruct o.
Qed.

Lemma without_results ids rs :
  Forall2 result_of ids rs → without_unscoped_provider_state rs = Ok rs.
Proof. induction 1 as [|i r ids rs (l & e & ->) Hrs IH]; [done|]. simpl. by rewrite IH. Qed.

Lemma without_state l :
  answered l →
  ∃ l', without_unscoped_provider_state l = Ok l' ∧ answered l' ∧ l' ≫= calls_of = l ≫= calls_of ∧
        (length l' ≤ length l)%nat.
Proof.
  induction 1 as [|h rs rest Hv Hr Hrs Ha (r' & Hr' & Har & Hcr & Hlr)]; [exists []; split; [done|]; split; [constructor|done]|].
  cbn [without_unscoped_provider_state]. rewrite without_state_app, (without_results _ _ Hrs), Hr'. cbn [obind].
  pose proof (without_message h Hv) as Hm.
  destruct (without_unscoped_provider_message h) as [[h'|]| |]; try done; cbn [obind].
  - destruct Hm as (Hv' & Hrole & Hc & _). exists (h' :: rs ++ r'). split; [done|]. split_and!.
    + constructor; [done|by rewrite Hrole|by rewrite Hc|done].
    + by rewrite !bind_cons, !bind_app, Hc, Hcr.
    + simpl. rewrite !length_app. lia.
  - destruct Hm as [_ Hc]. rewrite Hc in Hrs. apply Forall2_nil_inv_l in Hrs as ->.
    exists r'. rewrite bind_cons, Hc. rewrite length_cons. split_and!; [done|done|done|simpl; lia].
Qed.

(** ** Pruned Turns *)
Definition similar (m m' : Message) : Prop :=
  role m = role m' ∧ calls_of m = calls_of m' ∧ ∀ id, result_of id m → result_of id m'.

Lemma prune_similar m : valid_message m → similar m (pruned m) ∧ valid_message (pruned m).
Proof.
  intros Hv. pose proof (prune_message_eq m Hv) as Hp. unfold pruned. rewrite Hp.
  destruct (long_result m) as [[[c l] e]|] eqn:El; [|by repeat split].
  unfold long_result in El. destruct (content m) as [|[] []] eqn:Em; try done.
  destruct (_ <=? _) eqn:Et; [done|]. injection El as -> -> ->. apply Z.leb_gt in Et.
  destruct m as [r bs]. simpl in Em. subst bs. destruct r; try done.
  split; [|by apply prune_valid]. split; [done|]. split; [done|].
  intros id (l' & e' & [= -> -> ->]). by eexists _, _.
Qed.

Lemma prune_at_similar c ms :
  Forall valid_message ms → Forall2 similar ms (prune_at c ms) ∧ Forall valid_message (prune_at c ms).
Proof.
  intros Hv. split.
  - apply Forall2_same_length_lookup_2; [by unfold prune_at; rewrite length_imap|].
    intros i m m' Hm. rewrite prune_at_lookup, Hm. intros [= <-].
    assert (valid_message m) by by apply (proj1 (Forall_lookup _ _) Hv i).
    destruct (c i); [by apply prune_similar|by repeat split].
  - apply Forall_lookup. intros i m. rewrite prune_at_lookup. destruct (ms !! i) as [x|] eqn:E; [|done].
    simpl. intros [= <-]. assert (valid_message x) by by apply (proj1 (Forall_lookup _ _) Hv i).
    destruct (c i); [by apply prune_similar|done].
Qed.

Lemma grouped_similar b i ms ms' : grouped b i ms → Forall2 similar ms ms' → grouped b i ms'.
Proof.
  intros Hg. revert ms'. induction Hg as [i|i h rs rest [Hh Hg] Hr IH]; intros ms'.
  { intros ->%Forall2_nil_inv_l. constructor. }
  intros (h' & l' & (Hrole & Hc & _) & (rs' & rest' & Hrs & Hrest & ->)%Forall2_app_inv_l & ->)%Forall2_cons_inv_l.
  apply Forall2_length in Hrs as Hlen. constructor; [|rewrite <-Hlen; by apply IH].
  split; [by rewrite <-Hrole|]. destruct (bt_get (Z.of_nat i) b) as [batch|].
  - destruct Hg as (Hne & Hp & Hres). rewrite <-Hc. split; [done|]. split; [done|].
    clear -Hres Hrs. revert Hres. generalize (filter (λ id, settled_in batch id = true) (calls_of h)) as ids.
    induction Hrs as [|r r' rs rs' (_ & _ & Hx) Hrs IH]; intros ids Hres.
    + apply Forall2_nil_inv_r in Hres as ->. constructor.
    + apply Forall2_cons_inv_r in Hres as (id & ids' & Hid & Hres & ->). constructor; auto.
  - destruct Hg as [Hn ->]. rewrite <-Hc. split; [done|]. by apply Forall2_nil_inv_l in Hrs.
Qed.

(** *** The units of a grouped Turn *)
Lemma answers_head call m : valid_message m → role m ≠ Tool → answers call m = false.
Proof.
  intros Hv Hr. unfold answers. apply not_true_iff_false. intros (b & Hb & H)%existsb_exists.
  pose proof (head_blocks m Hv Hr) as Hf. rewrite Forall_forall in Hf.
  specialize (Hf b (proj2 (list_elem_of_In _ _) Hb)). by destruct b.
Qed.

Lemma answers_result id call m : result_of id m → answers call m = bool_decide (id = call).
Proof. intros (l & e & ->). unfold answers. simpl. by rewrite orb_false_r. Qed.

Lemma match_group (P : text → Prop) `{∀ i, Decision (P i)} ids rs pre rest c :
  Forall2 result_of (filter P ids) rs → NoDup ids →
  match rest with m :: _ => ∀ id, answers id m = false | [] => True end →
  ∃ c', match_calls (pre ++ rs ++ rest) true ids (length pre) c = Ok ((length pre + length rs)%nat, c').
Proof.
  intros Hrs Hnd Hrest. revert rs pre c Hrs. induction ids as [|i ids IH]; intros rs pre c Hrs; simpl.
  { apply Forall2_nil_inv_l in Hrs as ->. exists c. simpl. by rewrite Nat.add_0_r. }
  apply NoDup_cons in Hnd as [Hi Hnd]. rewrite filter_cons in Hrs. destruct (decide (P i)) as [HP|HP].
  - apply Forall2_cons_inv_l in Hrs as (r & rs' & Hr & Hrs & ->). simpl.
    rewrite list_lookup_middle, (answers_result i i r Hr), bool_decide_eq_true_2 by done.
    destruct (IH Hnd rs' (pre ++ [r]) c Hrs) as [c' Hc']. exists c'.
    rewrite length_app, <-app_assoc in Hc'. simpl in Hc'.
    replace (S (length pre)) with (length pre + 1)%nat by lia. rewrite Hc'. do 2 f_equal. lia.
  - assert (Hn : match (pre ++ rs ++ rest) !! length pre with Some m => answers i m | None => false end = false).
    { rewrite lookup_app_r, Nat.sub_diag by lia. destruct rs as [|r rs]; simpl.
      - destruct rest as [|m rest]; [done|]. simpl. apply Hrest.
      - apply Forall2_cons_inv_r in Hrs as (j & js & Hr & _ & Hj).
        rewrite (answers_result j i r Hr). apply bool_decide_eq_false_2. intros ->.
        apply Hi. assert (Hin : i ∈ filter P ids) by (rewrite Hj; by left).
        by apply list_elem_of_filter in Hin as [_ ?]. }
    rewrite Hn. by apply IH.
Qed.

Lemma shapes_grouped b i ms pre fuel :
  grouped b i ms → (∀ k batch, bt_get k b = Some batch → NoDup (calls batch).*1) →
  Forall valid_message ms → length pre = i → (length ms ≤ fuel)%nat →
  ∃ l, shapes_from (pre ++ ms) true fuel i = Ok l.
Proof.
  intros Hg Hd. revert pre fuel. induction Hg as [i|i h rs rest Hg Hr IH]; intros pre fuel Hv Hpre Hf.
  { exists []. rewrite app_nil_r. destruct fuel; simpl; by rewrite (lookup_ge_None_2 pre i) by lia. }
  apply Forall_cons in Hv as [Hvh Hv]. apply Forall_app in Hv as [_ Hv].
  destruct fuel as [|fuel]; [simpl in Hf; lia|]. simpl in *. rewrite length_app in Hf.
  rewrite (list_lookup_middle pre _ h i), bool_decide_eq_false_2 by (done || apply Hg).
  assert (Hc : ∃ c', match_calls (pre ++ h :: rs ++ rest) true (calls_of h) (S i) true =
                     Ok ((S i + length rs)%nat, c')).
  { assert (Hrest : match rest with m :: _ => ∀ id, answers id m = false | [] => True end).
    { destruct Hr as [|j h' rs' rest' [Hh' _] _]; [done|]. intros id.
      apply Forall_cons in Hv as [Hv' _]. by apply answers_head. }
    destruct Hg as [_ Hg]. destruct (bt_get (Z.of_nat i) b) as [batch|] eqn:Eb.
    - destruct Hg as (_ & Hp & Hres).
      destruct (match_group _ (calls_of h) rs (pre ++ [h]) rest true Hres) as [c' Hc']; [|done|].
      { rewrite <-Hp. by eapply Hd. }
      rewrite length_app, <-app_assoc in Hc'. simpl in Hc'. exists c'.
      by replace (length pre + 1)%nat with (S i) in Hc' by lia.
    - destruct Hg as [-> ->]. exists true. simpl. by rewrite Nat.add_0_r. }
  destruct Hc as [c' Hc']. rewrite Hc'. simpl.
  destruct (IH (pre ++ h :: rs) fuel Hv) as [l Hl]; [rewrite length_app; simpl; lia|lia|].
  rewrite <-app_assoc in Hl. simpl in Hl.
  replace (S (i + length rs)) with (i + S (length rs))%nat by lia. rewrite Hl. simpl. eauto.
Qed.

(** ** The messages of a request *)
Lemma answers_calls terminal b ids rs vs :
  answers_of terminal b ids rs vs → (message_of <$> vs) ≫= calls_of = [].
Proof. intros H%answers_results_of. by eapply results_no_calls. Qed.

Lemma viewed_calls terminal b i ms vs :
  viewed terminal b i ms vs → (message_of <$> vs) ≫= calls_of = ms ≫= calls_of.
Proof.
  induction 1 as [i|i h rs rest vs vr Hg Ha Hw IH]; [done|].
  rewrite fmap_cons, fmap_app, !bind_cons, !bind_app, IH. cbn [message_of]. f_equal.
  destruct Hg as [_ Hg]. destruct (bt_get (Z.of_nat i) b) as [batch|].
  - rewrite (answers_calls _ _ _ _ _ Ha). destruct Hg as (_ & _ & Hrs).
    by rewrite (results_no_calls _ _ Hrs).
  - by destruct Ha as (_ & -> & ->).
Qed.

Lemma similar_calls ms ms' : Forall2 similar ms ms' → ms ≫= calls_of = ms' ≫= calls_of.
Proof. induction 1 as [|m m' ms ms' (_ & H & _) _ IH]; [done|]. by rewrite !bind_cons, H, IH. Qed.

Lemma without_clean m m' :
  without_unscoped_provider_message m = Ok (Some m') → has_unscoped_provider_state m' = false.
Proof.
  unfold without_unscoped_provider_message.
  destruct (negb _) eqn:E; [intros [= <-]; by apply negb_true_iff in E|].
  case_bool_decide; [done|]. intros (x & [-> _]%lift_ok%message_new_ok & [= <-])%obind_ok.
  unfold has_unscoped_provider_state. apply andb_false_iff. right.
  apply not_true_iff_false. intros (b & Hb & Hr)%existsb_exists. simpl in Hb.
  apply list_elem_of_In, list_elem_of_filter in Hb as [Hf _]. by destruct b.
Qed.

Lemma without_twice l l' :
  without_unscoped_provider_state l = Ok l' → without_unscoped_provider_state l' = Ok l'.
Proof.
  revert l'. induction l as [|m l IH]; intros l'; simpl; [by intros [= <-]|].
  intros (o & Ho & (r & Hr & [= <-])%obind_ok)%obind_ok. destruct o as [m'|]; [|by apply IH].
  simpl. unfold without_unscoped_provider_message at 1. rewrite (without_clean _ _ Ho). simpl.
  by rewrite (IH _ Hr).
Qed.

(** The messages of the Turns that the units of all Turns leave for the view. *)
Definition pruned_messages (all : list (TurnKey * UnitShape)) (t : ProjectedTurn) : list Message :=
  prune_at (covered (old_units all) (turn_key t)) (messages t).

(** What a request says: the system message and the views of all Turns over their pruned
    messages, without provider state. *)
Definition request_view (f : ContextFold) (l : list Message) : Prop :=
  ∃ all views,
    unit_list ((λ t, (turn_key t, messages t)) <$> turns f) = Ok all ∧
    Forall2 (λ t vs, viewed (terminal t) (batches t) 0 (pruned_messages all t) vs) (turns f) views ∧
    without_unscoped_provider_state
      (option_list (system_message f) ++ (message_of <$> concat views)) = Ok l.

Section request.
Context (weight : Message → Z) (weight_nonneg : ∀ m, 0 ≤ weight m).

Definition fits (limits : ContextLimits) (l : list Message) : Prop :=
  len l ≤ max_messages limits ∧ encoded_messages weight l ≤ max_bytes limits.

Definition all_permitted (f : ContextFold) : Prop :=
  Forall (λ t, permitted (terminal t) (batches t)) (turns f).

Section semantic.
Context (f : ContextFold) (Hf : fold_ok weight f).

Lemma turn_keys_NoDup : NoDup ((λ t, (turn_key t, messages t)) <$> turns f).*1.
Proof.
  apply NoDup_alt. intros i j key. rewrite <-list_fmap_compose, !list_lookup_fmap.
  intros (t & Hi & ->)%fmap_Some (t' & Hj & Hk)%fmap_Some.
  by eapply (fold_key weight f).
Qed.

Lemma turns_valid :
  Forall (λ t, Forall (λ m, validate m = Ok tt) t.2) ((λ t, (turn_key t, messages t)) <$> turns f).
Proof.
  apply Forall_fmap. eapply Forall_impl; [apply Hf|]. intros t Ht. exact (ok_valid _ _ Ht).
Qed.

(** Pruning always succeeds. *)
Lemma projection_exists :
  ∃ p all, project ((λ t, (turn_key t, messages t)) <$> turns f) = Ok p ∧
    unit_list ((λ t, (turn_key t, messages t)) <$> turns f) = Ok all ∧
    ∀ t, t ∈ turns f → p !! turn_key t = Some (pruned_messages all t).
Proof.
  pose proof (project_prunes_old_units _ turn_keys_NoDup turns_valid) as H.
  destruct (project _) as [p|e|]; [|exfalso|done].
  - destruct H as (all & Hu & _ & Hp). exists p, all. split; [done|]. split; [done|].
    intros t Ht. apply Hp. apply list_elem_of_fmap. by exists t.
  - destruct H as (key & ms & (t & [= -> ->] & Ht)%list_elem_of_fmap & Hs).
    pose proof (proj1 (Forall_forall _ _) (fo_turns _ _ Hf) t Ht) as Hok.
    destruct (shapes_grouped (batches t) 0 (messages t) [] (length (messages t))) as [l Hl];
      [apply Hok|by eapply batches_distinct|apply Hok|done|lia|].
    unfold shapes in Hs. simpl in Hl. congruence.
Qed.

(** A Turn over its pruned messages is still well formed. *)
Lemma pruned_ok all t :
  turn_ok weight t → grouped (batches t) 0 (pruned_messages all t) ∧ Forall valid_message (pruned_messages all t).
Proof.
  intros Ht. destruct (prune_at_similar (covered (old_units all) (turn_key t)) (messages t)) as [Hs Hv];
    [apply Ht|]. split; [|done]. eapply grouped_similar; [apply Ht|done].
Qed.

Lemma pruned_turn_ok all t :
  turn_ok weight t →
  turn_ok weight {| turn_key := turn_key t; messages := pruned_messages all t;
                    message_bytes := zsum (weight <$> pruned_messages all t);
                    terminal := terminal t; batches := batches t |}.
Proof.
  intros Ht. destruct (pruned_ok all t Ht) as [Hg Hv]. pose proof Ht as [? ? _ ? ? ? ?].
  constructor; simpl; try done. intros k batch Hk. destruct (ok_heads _ _ Ht _ _ Hk) as (Hk0 & m & Hm & Hr).
  split; [done|]. destruct (prune_at_similar (covered (old_units all) (turn_key t)) (messages t)) as [Hs _]; [done|].
  destruct (Forall2_lookup_l _ _ _ _ _ Hs Hm) as (m' & Hm' & Hrole & _). exists m'. by rewrite <-Hrole.
Qed.

(** The normalized views of the Turns over their pruned messages. *)
Lemma views_exist all p l :
  (∀ t, t ∈ l → turn_ok weight t ∧ p !! turn_key t = Some (pruned_messages all t)) →
  match obind (projected_views p l) normalize_turns with
  | Ok ms => Forall (λ t, permitted (terminal t) (batches t)) l ∧
             ∃ views, Forall2 (λ t vs, viewed (terminal t) (batches t) 0 (pruned_messages all t) vs) l views ∧
                      ms = message_of <$> concat views
  | Err _ => ¬ Forall (λ t, permitted (terminal t) (batches t)) l
  | Panic => False
  end.
Proof.
  induction l as [|t l IH]; intros Hl; simpl.
  { split; [constructor|]. exists []. split; [constructor|done]. }
  destruct (Hl t ltac:(by left)) as [Ht Hp]. rewrite Hp. simpl.
  specialize (IH (λ t' H, Hl t' (list_elem_of_further _ _ _ H))).
  pose proof (turn_view weight _ (pruned_turn_ok all t Ht)) as Hv. simpl in Hv.
  destruct (projected_views p l) as [vl|e|]; simpl in *.
  - destruct (normalize _ _ _) as [view|e|]; simpl; [|by intros [? _]%Forall_cons|done].
    destruct Hv as (Hpt & vs & Hvs & ->).
    destruct (normalize_turns vl) as [ms|e|]; simpl; [|by intros [_ ?]%Forall_cons|done].
    destruct IH as (Hpl & views & Hviews & ->). split; [by constructor|]. exists (vs :: views).
    split; [by constructor|]. simpl. by rewrite fmap_app.
  - intros [_ H]%Forall_cons. done.
  - done.
Qed.

Lemma views_answered all views :
  Forall2 (λ t vs, viewed (terminal t) (batches t) 0 (pruned_messages all t) vs) (turns f) views →
  answered (message_of <$> concat views) ∧
  (message_of <$> concat views) ≫= calls_of = (turns f) ≫= (λ t, messages t ≫= calls_of).
Proof.
  pose proof (fo_turns _ _ Hf) as Hall. intros Hv.
  induction Hv as [|t vs l views Hvs Hv IH]; [split; [constructor|done]|].
  apply Forall_cons in Hall as [Ht Hall]. destruct (IH Hall) as [Ha Hc].
  destruct (pruned_ok all t Ht) as [_ Hvm]. cbn [concat]. rewrite fmap_app. split.
  - apply answered_app; [by eapply viewed_answered|done].
  - rewrite bind_app, Hc, (viewed_calls _ _ _ _ _ Hvs), bind_cons. f_equal. symmetry.
    apply similar_calls, prune_at_similar, Ht.
Qed.

Lemma system_answered :
  answered (option_list (system_message f)) ∧ option_list (system_message f) ≫= calls_of = [].
Proof.
  pose proof (fo_system _ _ Hf) as H. destruct (system_message f) as [m|]; [|split; [constructor|done]].
  destruct H as (Hv & Hr & _).
  assert (Hc : calls_of m = []) by (apply calls_of_nil; [done|by rewrite Hr]).
  split; [apply answered_single; [done|by rewrite Hr|done]|]. simpl. by rewrite Hc.
Qed.

Lemma view_answered l :
  request_view f l → answered l ∧ l ≫= calls_of = (turns f) ≫= (λ t, messages t ≫= calls_of).
Proof.
  intros (all & views & _ & Hv & Hl). destruct (views_answered _ _ Hv) as [Ha Hc].
  destruct system_answered as [Hs Hsc].
  destruct (without_state _ (answered_app _ _ Hs Ha)) as (l' & Hl' & Ha' & Hc' & _).
  rewrite Hl in Hl'. injection Hl' as <-. split; [done|]. by rewrite Hc', bind_app, Hsc, Hc.
Qed.

Lemma semantic_exact :
  match semantic_messages f with
  | Ok l => all_permitted f ∧ request_view f l
  | Err _ => ¬ all_permitted f
  | Panic => False
  end.
Proof.
  unfold semantic_messages. destruct projection_exists as (p & all & -> & Hu & Hp). simpl.
  assert (Hl : ∀ t, t ∈ turns f → turn_ok weight t ∧ p !! turn_key t = Some (pruned_messages all t)).
  { intros t Ht. split; [|by apply Hp]. exact (proj1 (Forall_forall _ _) (fo_turns _ _ Hf) t Ht). }
  pose proof (views_exist all p (turns f) Hl) as H.
  destruct (projected_views p (turns f)) as [vl|e|]; simpl in *; [|done|done].
  destruct (normalize_turns vl) as [ms|e|]; simpl; [|done|done].
  destruct H as (Hpt & views & Hv & ->). destruct (views_answered _ _ Hv) as [Ha _].
  destruct system_answered as [Hs _].
  destruct (without_state _ (answered_app _ _ Hs Ha)) as (l & Hl' & _). rewrite Hl'.
  split; [done|]. exists all, views. done.
Qed.

Lemma request_exact limits budget lim :
  semantic f = true → ingestion_failed f = false →
  limits_new (Z.min (max_messages limits) MAX_MESSAGES) (Z.min (max_bytes limits) budget) = Ok lim →
  match request_messages weight f limits budget with
  | Ok l => all_permitted f ∧ request_view f l ∧ fits lim l
  | Err e => ¬ all_permitted f ∨ (e = TooLarge ∧ ∃ l, request_view f l ∧ ¬ fits lim l)
  | Panic => False
  end.
Proof.
  intros Hs Hi Hlim. unfold request_messages. rewrite Hlim. simpl. unfold projected_messages.
  assert (Hlim' : limits_new (max_messages lim) (max_bytes lim) = Ok lim).
  { unfold limits_new in *. destruct (_ || _) eqn:E in Hlim; [done|]. injection Hlim as <-. simpl.
    by rewrite E. }
  rewrite Hi, Hlim', Hs. simpl. unfold semantic_projection.
  pose proof semantic_exact as He. destruct (semantic_messages f) as [l|e|]; simpl; [|by left|done].
  destruct He as [Hp Hv]. destruct (_ || _) eqn:E.
  - simpl. right. split; [done|]. exists l. split; [done|]. unfold fits. apply orb_true_iff in E. lia.
  - simpl. apply orb_false_iff in E as [E1 E2].
    pose proof Hv as (all & views & _ & _ & Hw). rewrite (without_twice _ _ Hw). unfold fits. split; [done|].
    split; [done|lia].
Qed.
End semantic.

(** ** Histories *)
Lemma new_fold_ok prompt persona s limits f0 :
  new_fold weight prompt persona s limits = Ok f0 → fold_ok weight f0 ∧ semantic f0 = s ∧ ingestion_failed f0 = false.
Proof.
  unfold new_fold. intros (_ & _ & H)%obind_ok.
  assert (Hf : fold_ok weight {| prompt := prompt; persona := persona; semantic := s; retention_limits := limits;
       system_message := None; system_message_bytes := 0; ingestion_failed := false;
       omitted_turns := 0; turns := []; base_ordinal := 0; turn_index := ∅; assemblers := ∅;
       retained_messages := 0; retained_message_bytes := 0 |}).
  { constructor; simpl; try done. intros key i. rewrite lookup_empty. split; [done|].
    by intros (n & t & Ht & _). }
  pose proof (instructions_safe weight _ [] Hf) as Hs. rewrite H in Hs. split; [done|].
  unfold set_step_instructions in H. apply obind_ok in H as ([m b] & _ & [= <-]). done.
Qed.

Lemma ingest_all_ok f facts :
  fold_ok weight f → Forall (λ fact, body_ok (fact_body fact)) facts →
  ∃ f', ingest_all weight f facts = Ok f' ∧ fold_ok weight f'.
Proof.
  intros Hf Hb. revert f Hf. induction Hb as [|fact facts Hfact Hb IH]; intros f Hf; [by exists f|]. simpl.
  pose proof (ingest_safe weight weight_nonneg f fact Hf Hfact) as H.
  destruct (ingest weight f fact) as [[f1 answer]|e|] eqn:E; simpl in *; [by apply IH| |done].
  unfold ingest in E. destruct (ingestion_failed f); [done|]. destruct (negb _); [done|].
  by destruct (apply_inner _ _ _).
Qed.
End request.

(** C23: whatever Facts a context fold ingests, whether they are refused or not, it never
    panics and stays consistent: the index points at exactly its Turns, its counters are
    the exact sums over them and within the absolute bounds, in every Turn the settled
    results stand directly behind their calls in order and no call id is used twice, and in
    semantic mode no Turn has been evicted. *)
Theorem context_consistent weight prompt persona s limits facts f0 :
  (∀ m, 0 ≤ weight m) →
  new_fold weight prompt persona s limits = Ok f0 →
  Forall (λ fact, body_ok (fact_body fact)) facts →
  ∃ f, ingest_all weight f0 facts = Ok f ∧ fold_ok weight f.
Proof.
  intros Hw Hf Hb. apply new_fold_ok in Hf as (Hf & _). by apply ingest_all_ok.
Qed.


(** ** A history *)
Definition sample_weight (m : Message) : Z := 100.
Definition sample_key : TurnKey := (lit "session", lit "turn").
Definition sample_fact (b : ContextBody.t) : ContextFact :=
  {| fact_key := sample_key; fact_body := b; growth_granted := true; weight_granted := true |}.
Definition sample_tool (i : string) : ContentBlock.t :=
  ContentBlock.ToolCall {| id := lit i; name := lit "read"; arguments := lit "{}"; kind := Function_ |}.
Definition sample_identity : ToolResultIdentity :=
  {| owner_id := lit "owner"; invocation_id := lit "invocation"; identity_call_id := lit "a";
     request_sha256 := lit "00" |}.
Definition sample_output : ToolOutput :=
  {| output_content := [ToolContent.Text (replicate (Z.to_nat 9000) 97)]; output_value := lit "null";
     output_is_error := false |}.

(** Two calls, the first answered by a long result; the Turn ends, so the second is not run. *)
Definition sample_facts : list ContextFact :=
  sample_fact <$>
    [ContextBody.TurnAccepted;
     ContextBody.InputsPrepared [{| role := User; content := [MessageContent.Text (lit "go")] |}];
     ContextBody.ModelIntent (lit "effect") (lit "deployment") (lit "model");
     ContextBody.AttemptSettled (lit "effect")
       (Finished [ContentBlock.Reasoning (lit "hm"); sample_tool "a"; sample_tool "b"] None) true;
     ContextBody.Tool (ToolBody.ToolIntent (lit "tool") (OriginModel (lit "effect")) Unavailable sample_identity);
     ContextBody.Tool (ToolBody.ToolStarted (lit "tool") sample_identity);
     ContextBody.Tool (ToolBody.ToolResult (lit "tool") sample_identity sample_output);
     ContextBody.TurnTerminal].

Definition sample_fold : ContextFold :=
  match new_fold sample_weight (lit "prompt") None true None with
  | Ok f => f
  | _ => {| prompt := []; persona := None; semantic := false; retention_limits := None;
            system_message := None; system_message_bytes := 0; ingestion_failed := true;
            omitted_turns := 0; turns := []; base_ordinal := 0; turn_index := ∅; assemblers := ∅;
            retained_messages := 0; retained_message_bytes := 0 |}
  end.

Definition sample_ingested : ContextFold :=
  match ingest_all sample_weight sample_fold sample_facts with Ok f => f | _ => sample_fold end.

Definition sample_limits : ContextLimits := {| max_messages := 256; max_bytes := 1000000 |}.

Lemma sample_facts_ok : Forall (λ fact, body_ok (fact_body fact)) sample_facts.
Proof.
  unfold sample_facts. apply Forall_fmap.
  apply Forall_cons. split; [done|]. apply Forall_cons. split.
  - apply Forall_singleton. split; [by vm_compute|by left].
  - repeat (apply Forall_cons; split; [done|]). by apply Forall_nil.
Qed.

Lemma context_consistent_witness :
  ∃ f, ingest_all sample_weight sample_fold sample_facts = Ok f ∧ fold_ok sample_weight f.
Proof.
  apply (context_consistent sample_weight (lit "prompt") None true None sample_facts sample_fold).
  - intros m. unfold sample_weight. lia.
  - vm_compute. reflexivity.
  - exact sample_facts_ok.
Defined.

