(* ===== verification/ContextProjection.v ===== *)
(** * The plain projection of a context

    Outside semantic mode [projected_messages] drops whole oldest Turns until the rest
    fits: as few as possible, never a live one, and the omission notice counts them. *)

From S2P Require Import Prelude BTree Text TextMap ToolOrigin TurnFacts.
From S2P Require Import ContextMessage ContextPruning ContextOutcomes ContextFold ContextTurn ContextFoldRules ContextRequest.

(** The notice of omitted Turns. *)
Definition notice_of (omitted : Z) : list Message :=
  if 0 <? omitted
  then [{| role := Developer;
           content := [MessageContent.Text (lit "[Context omitted " ++ dec omitted ++
                                            lit " complete earlier turn(s).]")] |}]
  else [].

Definition assembled (system : option Message) (omitted : Z) (l : list TurnView) : list Message :=
  option_list system ++ notice_of omitted ++ (l ≫= view_messages).

Section projection.
Context (weight : Message → Z) (weight_nonneg : ∀ m, 0 ≤ weight m).

Definition exact_bytes (v : TurnView) : Prop := view_bytes v = zsum (weight <$> view_messages v).

(** The Turns [projected_messages] drops: the fewest oldest ones, all terminal. *)
Definition dropped (system : option Message) (limits : ContextLimits) (omitted : Z) (l : list TurnView)
    (k : nat) : Prop :=
  (k ≤ length l)%nat ∧ Forall (λ v, view_terminal v = true) (take k l) ∧
  ∀ j, (j < k)%nat → ¬ fits weight limits (assembled system (omitted + Z.of_nat j) (drop j l)).

Lemma views_sums (l : list TurnView) :
  len (l ≫= view_messages) = zsum ((λ v, len (view_messages v)) <$> l) ∧
  (Forall exact_bytes l → zsum (weight <$> (l ≫= view_messages)) = zsum (view_bytes <$> l)).
Proof.
  induction l as [|v l [IH1 IH2]]; [done|].
  rewrite bind_cons, !fmap_cons, !zsum_cons, len_app, fmap_app, zsum_app, IH1. split; [done|].
  intros [Hv Hl]%Forall_cons. rewrite (IH2 Hl), Hv. done.
Qed.

Lemma assembled_sums system omitted l :
  Forall exact_bytes l →
  len (assembled system omitted l) =
    len (option_list system) + len (notice_of omitted) + zsum ((λ v, len (view_messages v)) <$> l) ∧
  zsum (weight <$> assembled system omitted l) =
    zsum (weight <$> option_list system) + zsum (weight <$> notice_of omitted) + zsum (view_bytes <$> l).
Proof.
  intros Hl. destruct (views_sums l) as [H1 H2]. unfold assembled.
  rewrite !len_app, !fmap_app, !zsum_app, H1, (H2 Hl). lia.
Qed.

Lemma notice_ok omitted o :
  (if 0 <? omitted then obind (omission_message omitted) (λ m, Ok (Some m)) else Ok None) = Ok o →
  option_list o = notice_of omitted ∧ Forall valid_message (notice_of omitted).
Proof.
  unfold notice_of. destruct (0 <? omitted); [|intros [= <-]; split; [done|constructor]].
  intros (m & [-> Hv]%lift_ok%message_new_ok & [= <-])%obind_ok. split; [done|]. by constructor.
Qed.

Lemma notice_no_panic omitted :
  (if 0 <? omitted then obind (omission_message omitted) (λ m, Ok (Some m)) else Ok None)
  ≠ (Panic : outcome ContextError (option Message)).
Proof. destruct (0 <? omitted); [|done]. apply obind_no_panic; [apply omission_no_panic|done]. Qed.

(** What the loop answers. *)
Definition fit_spec (system : option Message) (limits : ContextLimits) (omitted : Z) (l : list TurnView)
    (r : outcome ContextError Projection) : Prop :=
  match r with
  | Ok p => ∃ k, dropped system limits omitted l k ∧
                 projected p = assembled system (omitted + Z.of_nat k) (drop k l) ∧
                 Forall valid_message (notice_of (omitted + Z.of_nat k)) ∧
                 projected_omitted p = omitted + Z.of_nat k ∧
                 projected_bytes p = encoded_messages weight (projected p) ∧
                 fits weight limits (projected p)
  | Err e => ∃ k, dropped system limits omitted l k ∧
                 let rest := assembled system (omitted + Z.of_nat k) (drop k l) in
                 (e = TooLarge ∧ ¬ fits weight limits rest ∧
                  match drop k l with v :: _ => view_terminal v = false | [] => True end) ∨
                 omission_message (omitted + Z.of_nat k) = Err e ∨
                 usize_max ≤ omitted + Z.of_nat k ∨
                 usize_max < len rest ∨ usize_max < encoded_messages weight rest
  | Panic => False
  end.

Lemma dropped_zero system limits omitted l : dropped system limits omitted l 0.
Proof. split; [lia|]. split; [rewrite take_0; constructor|]. lia. Qed.

Lemma dropped_succ system limits omitted v l k :
  view_terminal v = true → ¬ fits weight limits (assembled system omitted (v :: l)) →
  dropped system limits (omitted + 1) l k → dropped system limits omitted (v :: l) (S k).
Proof.
  intros Ht Hn (Hk & Hd & Hj). split; [simpl; lia|]. split; [by constructor|].
  intros [|j] Hlt; simpl.
  - by rewrite Z.add_0_r.
  - replace (omitted + Z.of_nat (S j)) with (omitted + 1 + Z.of_nat j) by lia. apply Hj. lia.
Qed.

Lemma fit_spec_drop system limits omitted v l r :
  view_terminal v = true → ¬ fits weight limits (assembled system omitted (v :: l)) →
  fit_spec system limits (omitted + 1) l r → fit_spec system limits omitted (v :: l) r.
Proof.
  intros Ht Hn. destruct r as [p|e|]; simpl; [| |done]; intros (k & Hd & H); exists (S k);
    (split; [by apply dropped_succ|]);
    by replace (omitted + Z.of_nat (S k)) with (omitted + 1 + Z.of_nat k) by lia.
Qed.

(** Where the loop stops without an answer. *)
Lemma fit_spec_stop system limits omitted l e :
  (e = TooLarge ∧ ¬ fits weight limits (assembled system omitted l) ∧
   match l with v :: _ => view_terminal v = false | [] => True end) ∨
  omission_message omitted = Err e ∨ usize_max ≤ omitted ∨
  usize_max < len (assembled system omitted l) ∨ usize_max < encoded_messages weight (assembled system omitted l) →
  fit_spec system limits omitted l (Err e).
Proof. intros H. exists 0%nat. split; [apply dropped_zero|]. rewrite Z.add_0_r, drop_0. exact H. Qed.

Lemma array_bytes items bytes :
  match encoded_array_bytes items bytes with
  | Ok n => n = bytes + saturating_sub items 1 + 2
  | Err _ => usize_max < bytes + saturating_sub items 1 + 2
  | Panic => False
  end.
Proof.
  unfold encoded_array_bytes. destruct (checked_add _ bytes _) as [n|] eqn:E; simpl.
  - apply checked_add_Some in E as [-> H]. unfold checked_add. destruct (_ <=? _) eqn:E; simpl; [lia|apply Z.leb_gt in E; lia].
  - unfold checked_add in E. destruct (_ <=? _) eqn:E1 in E; [done|]. apply Z.leb_gt in E1. lia.
Qed.

Lemma views_nonneg l :
  Forall exact_bytes l →
  0 ≤ zsum ((λ v, len (view_messages v)) <$> l) ∧ 0 ≤ zsum (view_bytes <$> l).
Proof.
  intros Hl. split; apply zsum_nonneg, Forall_fmap; [by apply Forall_true; intros; apply len_nonneg|].
  eapply Forall_impl; [exact Hl|]. intros v Hv. cbn. rewrite Hv.
  by apply zsum_nonneg, Forall_fmap, Forall_true.
Qed.

(** One round of the loop, with what it does when the rest does not fit. *)
Lemma fit_round system limits omitted l retained bytes next :
  Forall exact_bytes l →
  retained = len (option_list system) + zsum ((λ v, len (view_messages v)) <$> l) →
  bytes = zsum (weight <$> option_list system) + zsum (view_bytes <$> l) →
  (¬ fits weight limits (assembled system omitted l) → fit_spec system limits omitted l next) →
  fit_spec system limits omitted l
    (let? notice := if 0 <? omitted then let? m := omission_message omitted in Ok (Some m) else Ok None in
     let? count := ok_or (checked_add usize_max retained (Z.b2z (bool_decide (is_Some notice))))
                     (Invalid "context message count overflowed") in
     let? total := ok_or (checked_add usize_max bytes
                            match notice with Some m => weight m | None => 0 end) overflow in
     if count <=? max_messages limits then
       let? encoded := encoded_array_bytes count total in
       if encoded <=? max_bytes limits
       then Ok {| projected := option_list system ++ option_list notice ++ (l ≫= view_messages);
                  projected_omitted := omitted; projected_bytes := encoded |}
       else next
     else next).
Proof.
  intros Hl Hr Hb Hnext. destruct (assembled_sums system omitted l Hl) as [Hc Ht].
  destruct (if 0 <? omitted then _ else Ok None) as [notice|e|] eqn:En; cbn [obind];
    [|apply fit_spec_stop; right; left; revert En; destruct (0 <? omitted), (omission_message omitted); cbn; congruence
     |by apply notice_no_panic in En].
  apply notice_ok in En as [En Hvalid].
  assert (Hn : Z.b2z (bool_decide (is_Some notice)) = len (notice_of omitted)) by (by rewrite <-En; destruct notice).
  assert (Hw : match notice with Some m => weight m | None => 0 end = zsum (weight <$> notice_of omitted))
    by (rewrite <-En; destruct notice; cbn; rewrite ?zsum_cons, ?zsum_nil; lia).
  rewrite Hn, Hw. clear Hn Hw.
  unfold checked_add. destruct (retained + _ <=? usize_max) eqn:E1; cbn [ok_or obind];
    [|apply fit_spec_stop; right; right; right; left; lia].
  destruct (bytes + _ <=? usize_max) eqn:E2; cbn [ok_or obind];
    [|apply fit_spec_stop; right; right; right; right; unfold encoded_messages, saturating_sub; lia].
  assert (Hcount : retained + len (notice_of omitted) = len (assembled system omitted l)) by lia.
  assert (Htotal : bytes + zsum (weight <$> notice_of omitted) = zsum (weight <$> assembled system omitted l)) by lia.
  rewrite Hcount, Htotal. destruct (_ <=? max_messages limits) eqn:Em; [|apply Z.leb_gt in Em; apply Hnext; intros [? _]; lia].
  pose proof (array_bytes (len (assembled system omitted l)) (zsum (weight <$> assembled system omitted l))) as Ha.
  destruct (encoded_array_bytes _ _) as [n|e|]; cbn [obind]; [|by apply fit_spec_stop; right; right; right; right|done].
  destruct (n <=? max_bytes limits) eqn:Eb; [apply Z.leb_le in Eb|apply Z.leb_gt in Eb].
  - exists 0%nat. split; [apply dropped_zero|]. rewrite Z.add_0_r, drop_0, En. cbn.
    split_and!; [done|done|done|exact Ha|]. unfold fits. apply Z.leb_le in Em. split; [done|].
    change (n ≤ max_bytes limits) in Eb. rewrite Ha in Eb. exact Eb.
  - apply Hnext. intros [_ H]. unfold encoded_messages in H. lia.
Qed.

Lemma fit_turns_spec system limits l : ∀ retained bytes omitted,
  Forall exact_bytes l →
  retained = len (option_list system) + zsum ((λ v, len (view_messages v)) <$> l) →
  bytes = zsum (weight <$> option_list system) + zsum (view_bytes <$> l) →
  fit_spec system limits omitted l (fit_turns weight system limits retained bytes omitted l).
Proof.
  induction l as [|v l IH]; intros retained bytes omitted Hl Hr Hb; cbn [fit_turns];
    apply fit_round; [done..| |done|done|done|]; intros Hn.
  { apply fit_spec_stop. left. done. }
  destruct (view_terminal v) eqn:Hv; cbn [negb]; [|apply fit_spec_stop; left; done].
  rewrite !fmap_cons, !zsum_cons in *. apply Forall_cons in Hl as [Hx Hl].
  destruct (views_nonneg l Hl) as [H1 H2].
  assert (Hs : 0 ≤ zsum (weight <$> option_list system)) by by apply zsum_nonneg, Forall_fmap, Forall_true.
  pose proof (len_nonneg (option_list system)).
  rewrite !checked_sub_fits by lia. cbn [ok_or obind].
  unfold checked_add. destruct (omitted + 1 <=? usize_max) eqn:Eo; cbn [ok_or obind];
    [|apply fit_spec_stop; right; right; left; lia].
  apply fit_spec_drop; [done..|]. apply IH; [done|lia..].
Qed.

(** ** The bytes of a Turn's view *)
Definition missing_weight (v : ViewMessage) : Z :=
  match v with Retained _ => 0 | Missing _ _ => weight (message_of v) end.

Lemma answers_weights terminal b ids rs vs :
  answers_of terminal b ids rs vs →
  zsum (weight <$> (message_of <$> vs)) = zsum (weight <$> rs) + zsum (missing_weight <$> vs).
Proof.
  induction 1; [done|..]; rewrite !fmap_cons, !zsum_cons; cbn [message_of missing_weight] in *; lia.
Qed.

Lemma viewed_weights terminal b i ms vs :
  viewed terminal b i ms vs →
  zsum (weight <$> (message_of <$> vs)) = zsum (weight <$> ms) + zsum (missing_weight <$> vs).
Proof.
  induction 1 as [i|i h rs rest vs vr Hg Ha Hw IH]; [done|].
  rewrite !fmap_cons, !fmap_app, !zsum_cons, !zsum_app. cbn [message_of missing_weight].
  assert (Hv : zsum (weight <$> (message_of <$> vs)) = zsum (weight <$> rs) + zsum (missing_weight <$> vs)).
  { destruct (bt_get (Z.of_nat i) b); [by eapply answers_weights|]. destruct Ha as (_ & -> & ->). done. }
  lia.
Qed.

Lemma add_missing_ok l : ∀ bytes,
  Forall emitted l →
  match add_missing weight l bytes with
  | Ok (ms, n) => ms = message_of <$> l ∧ n = bytes + zsum (missing_weight <$> l)
  | Err _ => usize_max < bytes + zsum (missing_weight <$> l)
  | Panic => False
  end.
Proof.
  induction l as [|v l IH]; intros bytes Hl; cbn [add_missing]; [split; [done|cbn; rewrite zsum_nil; lia]|].
  apply Forall_cons in Hl as [[Hv _] Hl]. rewrite Hv. cbn [obind].
  assert (Hnn : 0 ≤ zsum (missing_weight <$> l)).
  { apply zsum_nonneg, Forall_fmap, Forall_true. intros [m|id t]; cbn; [done|apply weight_nonneg]. }
  rewrite !fmap_cons, !zsum_cons.
  assert (Hstep : match v with Retained _ => Ok bytes
                  | Missing _ _ => ok_or (checked_add usize_max bytes (weight (message_of v))) TooLarge end
                  = Ok (bytes + missing_weight v) ∨
                  match v with Retained _ => Ok bytes
                  | Missing _ _ => ok_or (checked_add usize_max bytes (weight (message_of v))) TooLarge end
                  = Err TooLarge ∧ usize_max < bytes + missing_weight v).
  { destruct v as [m|id t]; cbn [missing_weight]; [left; by rewrite Z.add_0_r|].
    unfold checked_add. destruct (_ <=? _) eqn:E; [by left|right; split; [done|apply Z.leb_gt in E; lia]]. }
  destruct Hstep as [->|[-> Hover]]; cbn [obind]; [|lia].
  specialize (IH (bytes + missing_weight v) Hl). destruct (add_missing _ _ _) as [[ms n]|e|]; cbn [obind]; [|lia|done].
  destruct IH as [-> ->]. split; [done|lia].
Qed.

(** The view of a Turn a projection shows: its messages, or with its missing results. *)
Definition view_of (provider_view : bool) (t : ProjectedTurn) (v : TurnView) : Prop :=
  view_terminal v = terminal t ∧ exact_bytes v ∧
  if provider_view then ∃ vs, viewed (terminal t) (batches t) 0 (messages t) vs ∧
                              view_messages v = message_of <$> vs
  else view_messages v = messages t.

(** Why a Turn has no view. *)
Definition no_view (t : ProjectedTurn) : Prop :=
  ¬ permitted (terminal t) (batches t) ∨
  ∃ vs, viewed (terminal t) (batches t) 0 (messages t) vs ∧
        usize_max < zsum (weight <$> (message_of <$> vs)).

Lemma sized_view t :
  turn_ok weight t →
  match normalize_with_size weight t with
  | Ok v => view_of true t v
  | Err _ => no_view t
  | Panic => False
  end.
Proof.
  intros Ht. unfold normalize_with_size.
  set (emit := λ v, let? _ := emit_message v in Ok v).
  assert (He : ∀ v, emit v ≠ Panic) by (intros v; apply obind_no_panic; [apply emit_message_no_panic|done]).
  assert (Hview : ∀ vs, viewed (terminal t) (batches t) 0 (messages t) vs →
                   visit_view (messages t) (batches t) (terminal t) emit = Ok vs ∧ Forall emitted vs).
  { intros vs Hvs. assert (Hem : Forall emitted vs) by (eapply viewed_emitted; [exact Hvs|apply Ht]).
    split; [|done]. rewrite <-(list_fmap_id vs).
    apply visit_view_viewed; [by eapply batches_distinct|done|apply Ht|].
    eapply Forall_impl; [exact Hem|]. intros v [Hv _]. unfold emit. by rewrite Hv. }
  destruct (visit_view _ _ _ emit) as [l|e|] eqn:E; cbn [obind].
  - destruct (viewed_exists _ _ _ _ (ok_grouped _ _ Ht) (view_permitted _ _ _ _ Ht E)) as [vs Hvs].
    destruct (Hview vs Hvs) as [[= ->] Hem].
    pose proof (viewed_weights _ _ _ _ _ Hvs) as Hw. pose proof (add_missing_ok vs (message_bytes t) Hem) as Ha.
    rewrite (ok_bytes _ _ Ht) in Ha |- *. rewrite <-Hw in Ha.
    destruct (add_missing _ _ _) as [[ms n]|e|]; cbn [obind]; [|right; by exists vs|done].
    destruct Ha as [-> ->]. split; [done|]. split; [done|]. by exists vs.
  - left. intros Hp. destruct (viewed_exists _ _ _ _ (ok_grouped _ _ Ht) Hp) as [vs Hvs].
    by destruct (Hview vs Hvs).
  - by apply visit_view_no_panic in E.
Qed.

Lemma turn_views_ok provider_view l :
  Forall (turn_ok weight) l →
  match turn_views weight provider_view l with
  | Ok views => Forall2 (view_of provider_view) l views
  | Err _ => provider_view = true ∧ Exists no_view l
  | Panic => False
  end.
Proof.
  induction 1 as [|t l Ht Hl IH]; cbn [turn_views]; [constructor|].
  assert (Hv : match (if provider_view then normalize_with_size weight t
                      else Ok {| view_messages := messages t; view_bytes := message_bytes t;
                                 view_terminal := terminal t |}) with
               | Ok v => view_of provider_view t v
               | Err _ => provider_view = true ∧ no_view t
               | Panic => False
               end).
  { destruct provider_view.
    - pose proof (sized_view t Ht) as Hs. by destruct (normalize_with_size _ _).
    - split; [done|]. split; [apply Ht|done]. }
  destruct (if provider_view then _ else _) as [v|e|]; cbn [obind]; [|naive_solver|done].
  destruct (turn_views _ _ _) as [views|e|]; cbn [obind]; [by constructor|naive_solver|done].
Qed.

(** What a projection answers. *)
Definition projection_spec (f : ContextFold) (limits : ContextLimits) (provider_view : bool)
    (r : outcome ContextError Projection) : Prop :=
  (∃ views, Forall2 (view_of provider_view) (turns f) views ∧
            fit_spec (system_message f) limits (omitted_turns f) views r) ∨
  (∃ e, r = Err e ∧ provider_view = true ∧ Exists no_view (turns f)).

Lemma projection_exact f limits provider_view :
  fold_ok weight f → semantic f = false → ingestion_failed f = false →
  limits_new (max_messages limits) (max_bytes limits) = Ok limits →
  projection_spec f limits provider_view (projected_messages weight f limits provider_view).
Proof.
  intros Hf Hs Hi Hl. unfold projected_messages. rewrite Hi, Hl, Hs. cbn [obind].
  pose proof (turn_views_ok provider_view (turns f) (fo_turns _ _ Hf)) as Hv.
  destruct (turn_views _ _ _) as [views|e|]; cbn [obind]; [|right; naive_solver|done].
  left. exists views. split; [done|].
  assert (Hex : Forall exact_bytes views).
  { clear -Hv. induction Hv as [|t v l views [_ [Hb _]] _ IH]; by constructor. }
  assert (Hc : (if provider_view then zsum ((λ v, len (view_messages v)) <$> views) else retained_messages f) =
               zsum ((λ v, len (view_messages v)) <$> views)).
  { destruct provider_view; [done|]. rewrite (fo_count _ _ Hf). clear -Hv.
    induction Hv as [|t v l views [_ [_ Hm]] _ IH]; [done|]. cbn in Hm.
    by rewrite !fmap_cons, !zsum_cons, IH, Hm. }
  assert (Hb : (if provider_view then zsum (view_bytes <$> views) else retained_message_bytes f) =
               zsum (view_bytes <$> views)).
  { destruct provider_view; [done|]. pose proof (fo_turns _ _ Hf) as Ht. rewrite (fo_bytes _ _ Hf). clear -Hv Ht.
    induction Hv as [|t v l views (_ & He & Hm) _ IH]; [done|]. apply Forall_cons in Ht as [Ht Hl]. cbn in Hm.
    by rewrite !fmap_cons, !zsum_cons, (IH Hl), He, Hm, (ok_bytes _ _ Ht). }
  assert (Hsc : Z.b2z (bool_decide (is_Some (system_message f))) = len (option_list (system_message f)))
    by (by destruct (system_message f)).
  assert (Hsb : system_message_bytes f = zsum (weight <$> option_list (system_message f))).
  { pose proof (fo_system _ _ Hf) as H. destruct (system_message f); [|done].
    cbn. rewrite zsum_cons, zsum_nil, Z.add_0_r. apply H. }
  rewrite Hc, Hb, Hsc, Hsb. destruct (views_nonneg views Hex) as [Hn1 Hn2].
  destruct (assembled_sums (system_message f) (omitted_turns f) views Hex) as [Ha1 Ha2].
  pose proof (len_nonneg (notice_of (omitted_turns f))).
  assert (0 ≤ zsum (weight <$> notice_of (omitted_turns f))) by by apply zsum_nonneg, Forall_fmap, Forall_true.
  unfold checked_add. destruct (len _ + _ <=? usize_max) eqn:E1; cbn [ok_or obind];
    [|apply Z.leb_gt in E1; apply fit_spec_stop; right; right; right; left; lia].
  destruct (zsum _ + _ <=? usize_max) eqn:E2; cbn [ok_or obind];
    [by apply fit_turns_spec|apply Z.leb_gt in E2; apply fit_spec_stop; right; right; right; right].
  unfold encoded_messages, saturating_sub. lia.
Qed.

(** What the provider view shows answers every call. *)
Lemma view_answers views l f k :
  fold_ok weight f → Forall2 (view_of true) l views → Forall (turn_ok weight) l →
  Forall valid_message (notice_of k) →
  answered (assembled (system_message f) k views).
Proof.
  intros Hf Hv Hl Hk. apply answered_app; [by apply (system_answered weight f Hf)|].
  apply answered_app.
  { unfold notice_of in *. destruct (0 <? k); [|constructor]. apply Forall_cons in Hk as [Hk _].
    by apply answered_single. }
  induction Hv as [|t v l views (_ & _ & vs & Hvs & Hm) _ IH]; [constructor|].
  apply Forall_cons in Hl as [Ht Hl]. rewrite bind_cons, Hm. apply answered_app; [|auto].
  eapply viewed_answered; [exact Hvs|apply Ht].
Qed.
End projection.

(** C30: outside semantic mode, after any Facts, a projection drops whole oldest Turns, the
    fewest after which the rest fits and none that is still live: its messages are the
    system message, the notice counting the Turns omitted in all and the views of the
    others, with the exact encoded size, and in a provider view every call of them is
    answered.  It refuses only when a live Turn has a call that may not be answered yet,
    when a live Turn (or nothing but the system message) still does not fit, or when a
    machine word overflows. *)
Theorem projection_drops_fewest weight prompt persona limits facts f0 f bounds provider_view :
  (∀ m, 0 ≤ weight m) →
  new_fold weight prompt persona false limits = Ok f0 →
  Forall (λ fact, body_ok (fact_body fact)) facts →
  ingest_all weight f0 facts = Ok f → semantic f = false → ingestion_failed f = false →
  limits_new (max_messages bounds) (max_bytes bounds) = Ok bounds →
  projection_spec weight f bounds provider_view (projected_messages weight f bounds provider_view) ∧
  ∀ p, projected_messages weight f bounds provider_view = Ok p →
       provider_view = true → answered (projected p).
Proof.
  intros Hw Hnew Hb Hall Hs Hi Hl. apply new_fold_ok in Hnew as (Hf0 & _).
  destruct (ingest_all_ok weight Hw f0 facts Hf0 Hb) as (f' & Hf' & Hf).
  rewrite Hall in Hf'. injection Hf' as <-.
  pose proof (projection_exact weight Hw f bounds provider_view Hf Hs Hi Hl) as H. split; [done|].
  intros p Hp ->. rewrite Hp in H. destruct H as [(views & Hv & k & Hd & -> & Hn & _)|(e & ? & _)]; [|done].
  eapply (view_answers weight _ (drop k (turns f)));
    [done|by apply Forall2_drop|apply Forall_drop, Hf|done].
Qed.

(** ** A history *)
Definition plain_key : TurnKey := (lit "session", lit "second").
Definition plain_facts : list ContextFact :=
  sample_facts ++
  ((λ b, {| fact_key := plain_key; fact_body := b; growth_granted := true; weight_granted := true |}) <$>
    [ContextBody.TurnAccepted;
     ContextBody.InputsPrepared [{| role := User; content := [MessageContent.Text (lit "next")] |}]]).
Definition plain_fold : ContextFold :=
  match new_fold sample_weight (lit "prompt") None false None with Ok f => f | _ => sample_fold end.
Definition plain_ingested : ContextFold :=
  match ingest_all sample_weight plain_fold plain_facts with Ok f => f | _ => plain_fold end.
Definition plain_limits : ContextLimits := {| max_messages := 4; max_bytes := 1000000 |}.

Lemma plain_facts_ok : Forall (λ fact, body_ok (fact_body fact)) plain_facts.
Proof.
  unfold plain_facts. apply Forall_app. split; [exact sample_facts_ok|]. apply Forall_fmap.
  apply Forall_cons. split; [done|]. apply Forall_singleton.
  apply Forall_singleton. split; [by vm_compute|by left].
Qed.

Lemma projection_drops_fewest_witness :
  ∃ p, projected_messages sample_weight plain_ingested plain_limits true = Ok p ∧
       projected_omitted p = 1 ∧ (role <$> projected p) = [System; Developer; User] ∧
       answered (projected p).
Proof.
  assert (Hn : new_fold sample_weight (lit "prompt") None false None = Ok plain_fold)
    by (vm_compute; reflexivity).
  assert (Hi : ingest_all sample_weight plain_fold plain_facts = Ok plain_ingested)
    by (vm_compute; reflexivity).
  pose proof (projection_drops_fewest sample_weight (lit "prompt") None None plain_facts plain_fold
    plain_ingested plain_limits true
    (λ m, ltac:(unfold sample_weight; lia)) Hn plain_facts_ok Hi
    ltac:(vm_compute; reflexivity) ltac:(vm_compute; reflexivity) ltac:(vm_compute; reflexivity)) as [_ H].
  assert (Hr : match projected_messages sample_weight plain_ingested plain_limits true with
               | Ok p => projected_omitted p = 1 ∧ (role <$> projected p) = [System; Developer; User]
               | _ => False
               end) by (vm_compute; split; reflexivity).
  destruct (projected_messages _ _ _ _) as [p|e|]; [|contradiction|contradiction].
  exists p. split; [reflexivity|]. destruct Hr as [Ho Hl]. split; [exact Ho|]. split; [exact Hl|].
  exact (H p eq_refl eq_refl).
Defined.
