(* ===== verification/SortedSet.v ===== *)
(** * Ordered sets of integers

    A [BTreeSet] or the keys of a [BTreeMap]: strictly increasing lists of [Z]. *)

From S2P Require Import Prelude.

Definition bs_insert (k : Z) (l : list Z) : list Z :=
  filter (λ x, x < k) l ++ k :: filter (λ x, k < x) l.
Definition bs_remove (k : Z) (l : list Z) : list Z := filter (λ x, x ≠ k) l.
Definition bs_wf (l : list Z) : Prop := StronglySorted Z.lt l.

Lemma bs_insert_elem k x l : x ∈ bs_insert k l ↔ x = k ∨ x ∈ l.
Proof.
  unfold bs_insert. rewrite elem_of_app, elem_of_cons, !list_elem_of_filter.
  split; [naive_solver|]. intros [->|Hx]; [by right; left|].
  destruct (decide (x < k)); [by left|]. right. destruct (decide (x = k)); [by left|]. right. split; [lia|done].
Qed.

Lemma bs_remove_elem k x l : x ∈ bs_remove k l ↔ x ≠ k ∧ x ∈ l.
Proof. unfold bs_remove. by rewrite list_elem_of_filter. Qed.

Lemma bs_wf_filter (P : Z → Prop) `{∀ x, Decision (P x)} l : bs_wf l → bs_wf (filter P l).
Proof.
  unfold bs_wf. induction 1 as [|x l Hl IH Hx]; [constructor|]. rewrite filter_cons.
  case_decide; [|done]. constructor; [done|]. by apply Forall_keep.
Qed.

Lemma bs_wf_app l l' : bs_wf l → bs_wf l' → (∀ x y, x ∈ l → y ∈ l' → x < y) → bs_wf (l ++ l').
Proof.
  unfold bs_wf. induction 1 as [|x l Hl IH Hx]; [done|]. intros Hl' Hlt. simpl. constructor.
  - apply IH; [done|]. intros y z Hy Hz. apply Hlt; [by right|done].
  - apply Forall_app. split; [done|]. apply Forall_forall. intros y Hy. apply Hlt; [by left|done].
Qed.

Lemma bs_wf_insert k l : bs_wf l → bs_wf (bs_insert k l).
Proof.
  intros Hl. apply bs_wf_app; [by apply bs_wf_filter| |].
  - constructor; [by apply bs_wf_filter|]. apply Forall_forall. by intros x [? _]%list_elem_of_filter.
  - intros x y [? _]%list_elem_of_filter [->|[? _]%list_elem_of_filter]%elem_of_cons; lia.
Qed.

Lemma bs_wf_remove k l : bs_wf l → bs_wf (bs_remove k l).
Proof. apply bs_wf_filter. Qed.

Lemma bs_wf_NoDup l : bs_wf l → NoDup l.
Proof.
  induction 1 as [|x l Hl IH Hx]; constructor; [|done]. intros Hin.
  rewrite Forall_forall in Hx. specialize (Hx x Hin). lia.
Qed.

Lemma bs_remove_length k l : bs_wf l → k ∈ l → length l = S (length (bs_remove k l)).
Proof.
  unfold bs_remove. induction 1 as [|x l Hl IH Hx]; [by intros ?%not_elem_of_nil|].
  rewrite Forall_forall in Hx. intros [->|Hin]%elem_of_cons; rewrite filter_cons.
  - rewrite decide_False by naive_solver. simpl. f_equal.
    rewrite filter_all; [done|]. apply Forall_forall. intros y Hy ->. specialize (Hx _ Hy). lia.
  - rewrite decide_True by (intros ->; specialize (Hx _ Hin); lia). simpl. by rewrite IH.
Qed.

Lemma bs_remove_absent k l : k ∉ l → bs_remove k l = l.
Proof. intros Hk. apply filter_all, Forall_forall. by intros x Hx ->. Qed.

Lemma bs_insert_length k l : bs_wf l → k ∉ l → length (bs_insert k l) = S (length l).
Proof.
  intros Hl Hk. rewrite (bs_remove_length k (bs_insert k l)).
  - f_equal. unfold bs_remove, bs_insert. rewrite filter_app, filter_cons, decide_False by naive_solver.
    rewrite <-filter_app. rewrite (filter_all _ (_ ++ _)).
    + clear Hl. induction l as [|x l IH]; [done|]. apply not_elem_of_cons in Hk as [Hx Hk].
      rewrite !filter_cons. destruct (Z.lt_trichotomy x k) as [?|[?|?]]; [|by subst|].
      * rewrite decide_True, decide_False by lia. simpl. by rewrite IH.
      * rewrite decide_False, decide_True by lia. rewrite length_app in *. simpl. rewrite <-IH by done. lia.
    + apply Forall_app; split; apply Forall_forall; intros x [? _]%list_elem_of_filter; lia.
  - by apply bs_wf_insert.
  - apply bs_insert_elem. by left.
Qed.

(** The insertions of a loop. *)
Definition bs_insert_all (ks l : list Z) : list Z := foldl (λ l k, bs_insert k l) l ks.

Lemma bs_insert_all_elem ks : ∀ l x, x ∈ bs_insert_all ks l ↔ x ∈ ks ∨ x ∈ l.
Proof.
  induction ks as [|k ks IH]; intros l x; [simpl; rewrite elem_of_nil; naive_solver|].
  simpl. fold (bs_insert_all ks (bs_insert k l)). rewrite IH, bs_insert_elem, elem_of_cons. naive_solver.
Qed.

Lemma bs_wf_insert_all ks : ∀ l, bs_wf l → bs_wf (bs_insert_all ks l).
Proof. induction ks as [|k ks IH]; intros l Hl; [done|]. by apply IH, bs_wf_insert. Qed.

Lemma bs_insert_all_length ks : ∀ l,
  bs_wf l → NoDup ks → (∀ k, k ∈ ks → k ∉ l) → length (bs_insert_all ks l) = (length ks + length l)%nat.
Proof.
  induction ks as [|k ks IH]; intros l Hl Hn Hd; [done|]. apply NoDup_cons in Hn as [Hk Hn].
  simpl. fold (bs_insert_all ks (bs_insert k l)). rewrite IH; [|by apply bs_wf_insert|done|].
  - rewrite bs_insert_length; [lia|done|]. apply Hd. by left.
  - intros x Hx Hin. apply bs_insert_elem in Hin as [->|Hin]; [done|].
    by apply (Hd x); [right|].
Qed.

(** Sorted sets are determined by their elements. *)
Lemma bs_ext l l' : bs_wf l → bs_wf l' → (∀ x, x ∈ l ↔ x ∈ l') → l = l'.
Proof.
  intros Hl. revert l'. induction Hl as [|x l Hl IH Hx]; intros l' Hl' He.
  { destruct l' as [|y l']; [done|]. destruct (not_elem_of_nil y). apply He. by left. }
  destruct Hl' as [|y l' Hl' Hy].
  { destruct (not_elem_of_nil x). apply He. by left. }
  rewrite Forall_forall in Hx, Hy.
  assert (Hxy : x ∈ y :: l') by (apply He; by left).
  assert (Hyx : y ∈ x :: l) by (apply He; by left).
  assert (x = y) as <-.
  { apply elem_of_cons in Hxy as [|Hin]; [done|]. apply elem_of_cons in Hyx as [|Hin']; [done|].
    specialize (Hx _ Hin'). specialize (Hy _ Hin). lia. }
  f_equal. apply IH; [done|]. intros z. specialize (He z). rewrite !elem_of_cons in He.
  split; intros Hz.
  - destruct (proj1 He (or_intror Hz)) as [->|]; [|done]. specialize (Hx _ Hz). lia.
  - destruct (proj2 He (or_intror Hz)) as [->|]; [|done]. specialize (Hy _ Hz). lia.
Qed.
