(* ===== verification/MessageAdmission.v ===== *)
(** * Admission of buffered service messages

    [crates/rsi-meta/core/src/service/message_scheduler.rs], [message_waiter.rs] and
    [message_admission.rs]: senders wait for a slot of their channel and for bytes and
    capabilities of the Runtime.  A channel with a free slot exposes at most
    [READY_WINDOW] of its waiters to the scheduler, which grants them in the order of
    their identities; a waiter that does not fit may be passed over
    [MAXIMUM_BYPASSES] times, then it blocks the waiters behind it.

    Every operation runs under the lock of the state, so a history is a sequence of
    operations.  The waiters and channels are shared ([Arc]): [waiters] and [channels] are
    the store the collections refer to by identity. *)

From S2P Require Import Prelude SortedSet.

Definition MAXIMUM_BYPASSES : Z := 64.
Definition READY_WINDOW : Z := MAXIMUM_BYPASSES + 1.
Definition u8_max : Z := 255.

(** [MetaError], as far as the admission returns it. *)
Inductive MetaError := CapacityExhausted (resource : string).

Record Waiter := {
  waiter_bytes : Z;
  waiter_capabilities : Z;
  waiter_channel : Z;
  bypasses : Z;
  granted : bool
}.

Record ChannelState := {
  capacity : Z;
  available : Z;
  pending : list Z;
  channel_ready : list Z
}.

Record AdmissionState := {
  available_bytes : Z;
  available_capabilities : Z;
  next_waiter : Z;
  ready : list Z;
  waiters : gmap Z Waiter;
  channels : gmap Z ChannelState
}.

(** [AdmissionState::new] *)
Definition admission_new (byte_limit capability_limit : Z) : AdmissionState :=
  {| available_bytes := byte_limit; available_capabilities := capability_limit; next_waiter := 0;
     ready := []; waiters := ∅; channels := ∅ |}.

(** [MessageChannel::new] *)
Definition channel_new (capacity : Z) : ChannelState :=
  {| capacity := capacity; available := capacity; pending := []; channel_ready := [] |}.

(** ** Setters *)
Definition set_budget (s : AdmissionState) (bytes capabilities : Z) : AdmissionState :=
  {| available_bytes := bytes; available_capabilities := capabilities; next_waiter := next_waiter s;
     ready := ready s; waiters := waiters s; channels := channels s |}.
Definition set_ready (s : AdmissionState) (l : list Z) (c : Z) (ch : ChannelState) : AdmissionState :=
  {| available_bytes := available_bytes s; available_capabilities := available_capabilities s;
     next_waiter := next_waiter s; ready := l; waiters := waiters s;
     channels := <[c := ch]> (channels s) |}.
Definition set_waiters (s : AdmissionState) (next : Z) (m : gmap Z Waiter) : AdmissionState :=
  {| available_bytes := available_bytes s; available_capabilities := available_capabilities s;
     next_waiter := next; ready := ready s; waiters := m; channels := channels s |}.
Definition forget (s : AdmissionState) (id : Z) : AdmissionState :=
  set_waiters s (next_waiter s) (delete id (waiters s)).
Definition set_queues (ch : ChannelState) (n : Z) (p r : list Z) : ChannelState :=
  {| capacity := capacity ch; available := n; pending := p; channel_ready := r |}.
Definition set_bypasses (n : Z) (w : Waiter) : Waiter :=
  {| waiter_bytes := waiter_bytes w; waiter_capabilities := waiter_capabilities w;
     waiter_channel := waiter_channel w; bypasses := n; granted := granted w |}.
Definition set_granted (w : Waiter) : Waiter :=
  {| waiter_bytes := waiter_bytes w; waiter_capabilities := waiter_capabilities w;
     waiter_channel := waiter_channel w; bypasses := bypasses w; granted := true |}.

Open Scope outcome_scope.
Abbreviation result := (outcome MetaError).

(** ** The scheduler *)
Definition next_waiter_id (s : AdmissionState) : option Z := checked_add u64_max (next_waiter s) 1.

Definition blocked_resources (s : AdmissionState) (bytes capabilities : Z) : bool * bool :=
  (negb (bytes =? 0) && (available_bytes s <? bytes),
   negb (capabilities =? 0) && (available_capabilities s <? capabilities)).

Definition try_take_budget (s : AdmissionState) (bytes capabilities : Z) : option AdmissionState :=
  if negb (bool_decide (ready s = [])) || (available_bytes s <? bytes) ||
     (available_capabilities s <? capabilities)
  then None
  else Some (set_budget s (available_bytes s - bytes) (available_capabilities s - capabilities)).

Definition fits (s : AdmissionState) (w : Waiter) : bool :=
  (waiter_bytes w <=? available_bytes s) && (waiter_capabilities w <=? available_capabilities s).

Definition id_fits (s : AdmissionState) (id : Z) : bool :=
  match waiters s !! id with Some w => fits s w | None => false end.

(** The waiters a channel may still expose. *)
Definition candidates (ch : ChannelState) : list Z :=
  take (Z.to_nat (saturating_sub READY_WINDOW (len (channel_ready ch))))
    (filter (λ id, id ∉ channel_ready ch) (pending ch)).

Definition refill_ready (s : AdmissionState) (c : Z) : AdmissionState * bool :=
  match channels s !! c with
  | None => (s, false)
  | Some ch =>
      if available ch =? 0 then (s, false) else
      let l := candidates ch in
      (set_ready s (bs_insert_all l (ready s)) c
         (set_queues ch (available ch) (pending ch) (bs_insert_all l (channel_ready ch))),
       existsb (id_fits s) l)
  end.

(** [find] over the ready waiters from the last, [l]: the one to displace.  A ready waiter is
    looked up in the pending ones of its channel. *)
Fixpoint find_displaced (s : AdmissionState) (pending l : list Z) : result (option Z) :=
  match l with
  | [] => Ok None
  | id :: l =>
      let? candidate := expect (if bool_decide (id ∈ pending) then waiters s !! id else None) in
      if (bypasses candidate <? MAXIMUM_BYPASSES) && negb (fits s candidate)
      then Ok (Some id) else find_displaced s pending l
  end.

(** The waiter is in the store already. *)
Definition register_waiter (s : AdmissionState) (id : Z) (waiter : Waiter)
    : result (AdmissionState * bool) :=
  let c := waiter_channel waiter in
  let? ch := expect (channels s !! c) in
  let s := set_ready s (ready s) c
             (set_queues ch (available ch) (bs_insert id (pending ch)) (channel_ready ch)) in
  let '(s, exposed) := refill_ready s c in
  if exposed then Ok (s, true) else
  let? ch := expect (channels s !! c) in
  if (available ch =? 0) || (len (channel_ready ch) <? READY_WINDOW) || negb (fits s waiter)
  then Ok (s, false) else
  let? displaced := find_displaced s (pending ch) (reverse (channel_ready ch)) in
  match displaced with
  | None => Ok (s, false)
  | Some displaced =>
      Ok (set_ready s (bs_insert id (bs_remove displaced (ready s))) c
            (set_queues ch (available ch) (pending ch)
               (bs_insert id (bs_remove displaced (channel_ready ch)))), true)
  end.

Definition demote_ready (s : AdmissionState) (c : Z) : AdmissionState :=
  match channels s !! c with
  | None => s
  | Some ch =>
      set_ready s (filter (λ id, id ∉ channel_ready ch) (ready s)) c
        (set_queues ch (available ch) (pending ch) [])
  end.

(** [cancel_waiter]: whether scheduling may have changed. *)
Definition cancel_waiter (s : AdmissionState) (id : Z) (waiter : Waiter)
    : result (AdmissionState * bool) :=
  let removed_fairness_barrier :=
    bool_decide (id ∈ ready s) && (MAXIMUM_BYPASSES <=? bypasses waiter) in
  let c := waiter_channel waiter in
  let? ch := expect (channels s !! c) in
  let s := set_ready s (bs_remove id (ready s)) c
             (set_queues ch (available ch) (bs_remove id (pending ch)) (bs_remove id (channel_ready ch))) in
  let '(s, exposed) := refill_ready s c in
  Ok (s, removed_fairness_barrier || exposed).

Definition return_capacity (s : AdmissionState) (c bytes capabilities : Z) : result AdmissionState :=
  let? b := expect (checked_add usize_max (available_bytes s) bytes) in
  let? k := expect (checked_add usize_max (available_capabilities s) capabilities) in
  let s := set_budget s b k in
  let? ch := expect (channels s !! c) in
  let? n := expect (checked_add usize_max (available ch) 1) in
  if capacity ch <? n then Panic else
  Ok (refill_ready (set_ready s (ready s) c (set_queues ch n (pending ch) (channel_ready ch))) c).1.

(** The first loop of [schedule]: the first ready waiter that fits, unless a waiter that was
    passed over too often comes before it. *)
Fixpoint select (s : AdmissionState) (l : list Z) : result (option Z) :=
  match l with
  | [] => Ok None
  | id :: l =>
      let? waiter := expect (waiters s !! id) in
      if fits s waiter then Ok (Some id)
      else if MAXIMUM_BYPASSES <=? bypasses waiter then Ok None
      else select s l
  end.

(** [range_mut(..selected)]: the ready waiters in front count one more bypass. *)
Definition bypass (m : gmap Z Waiter) (passed : list Z) : gmap Z Waiter :=
  foldl (λ m id, alter (λ w, set_bypasses (saturating_add u8_max (bypasses w) 1) w) id m) m passed.

(** The rest of one round: the selected waiter takes its slot and its budget. *)
Definition grant (s : AdmissionState) (selected : Z) : result AdmissionState :=
  let s := set_waiters s (next_waiter s) (bypass (waiters s) (filter (λ id, id < selected) (ready s))) in
  let? queued := expect (waiters s !! selected) in
  let c := waiter_channel queued in
  let? ch := expect (channels s !! c) in
  if negb (bool_decide (selected ∈ pending ch)) then Panic else
  let? n := expect (checked_sub (available ch) 1) in
  let s := set_ready s (bs_remove selected (ready s)) c
             (set_queues ch n (bs_remove selected (pending ch)) (bs_remove selected (channel_ready ch))) in
  let s := if n =? 0 then demote_ready s c else (refill_ready s c).1 in
  let? b := expect (checked_sub (available_bytes s) (waiter_bytes queued)) in
  let? k := expect (checked_sub (available_capabilities s) (waiter_capabilities queued)) in
  Ok (set_waiters (set_budget s b k) (next_waiter s) (<[selected := set_granted queued]> (waiters s))).

(** One round of [schedule] gives a waiter its permit; the trace has it with the waiters it
    passed over. *)
Definition Round : Type := Z * list Z.

Fixpoint schedule_loop (fuel : nat) (s : AdmissionState) : result (AdmissionState * list Round) :=
  let? selected := select s (ready s) in
  match selected with
  | None => Ok (s, [])
  | Some id =>
      match fuel with
      | O => Panic
      | S fuel =>
          let passed := filter (λ i, i < id) (ready s) in
          let? s := grant s id in
          let? (s, rounds) := schedule_loop fuel s in
          Ok (s, (id, passed) :: rounds)
      end
  end.

(** Every round grants a waiter that was not granted. *)
Definition waiting (s : AdmissionState) : nat :=
  length (filter (λ e, granted e.2 = false) (map_to_list (waiters s))).
Definition schedule (s : AdmissionState) : result (AdmissionState * list Round) :=
  schedule_loop (waiting s) s.

(** ** The admission *)
Record Permit := { permit_channel : Z; permit_bytes : Z; permit_capabilities : Z }.

(** [BufferedMessageAdmission] with the permits that are out. *)
Record Admission := {
  byte_limit : Z;
  capability_limit : Z;
  pending_limit : Z;
  pending_sends : Z;
  state : AdmissionState;
  permits : list Permit
}.

Definition new_admission (byte_limit capability_limit pending_limit : Z) : Admission :=
  {| byte_limit := byte_limit; capability_limit := capability_limit; pending_limit := pending_limit;
     pending_sends := 0; state := admission_new byte_limit capability_limit; permits := [] |}.

Definition set_state (a : Admission) (sends : Z) (s : AdmissionState) (l : list Permit) : Admission :=
  {| byte_limit := byte_limit a; capability_limit := capability_limit a;
     pending_limit := pending_limit a; pending_sends := sends; state := s; permits := l |}.

(** [try_acquire]: the permit it gives. *)
Definition try_acquire (a : Admission) (c bytes capabilities : Z) : result (Admission * option Permit) :=
  let s := state a in
  let? ch := expect (channels s !! c) in
  if available ch =? 0 then Ok (a, None) else
  match try_take_budget s bytes capabilities with
  | None => Ok (a, None)
  | Some s =>
      let p := {| permit_channel := c; permit_bytes := bytes; permit_capabilities := capabilities |} in
      Ok (set_state a (pending_sends a)
            (set_ready s (ready s) c (set_queues ch (available ch - 1) (pending ch) (channel_ready ch)))
            (permits a ++ [p]), Some p)
  end.

(** [register]: the identity of the waiter and the resources it waits for. *)
Definition register (a : Admission) (c bytes capabilities : Z)
    : result (Admission * (Z * (bool * bool)) * list Round) :=
  let? sends := match checked_add usize_max (pending_sends a) 1 with
                | Some n => if pending_limit a <? n then Err (CapacityExhausted "pending message sends") else Ok n
                | None => Err (CapacityExhausted "pending message sends")
                end in
  let s := state a in
  let? id := ok_or (next_waiter_id s) (CapacityExhausted "pending message send identities") in
  let waiter := {| waiter_bytes := bytes; waiter_capabilities := capabilities; waiter_channel := c;
                   bypasses := 0; granted := false |} in
  let s := set_waiters s id (<[id := waiter]> (waiters s)) in
  let blocked := blocked_resources s bytes capabilities in
  let? (s, exposed) := register_waiter s id waiter in
  let? (s, rounds) := if exposed then schedule s else Ok (s, []) in
  Ok (set_state a sends s (permits a), (id, blocked), rounds).

(** [BufferedMessageAdmission::release], the drop of a permit. *)
Definition release (a : Admission) (p : Permit) (rest : list Permit) : result (Admission * list Round) :=
  let? s := return_capacity (state a) (permit_channel p) (permit_bytes p) (permit_capabilities p) in
  if negb ((available_bytes s <=? byte_limit a) && (available_capabilities s <=? capability_limit a))
  then Panic else
  let? (s, rounds) := schedule s in
  Ok (set_state a (pending_sends a) s rest, rounds).

(** [BufferedMessageAdmission::cancel], the drop of a registration that was not claimed; its
    place among the pending sends goes with it.  Nothing reads the waiter any more, so the
    store forgets it at once. *)
Definition cancel (a : Admission) (id : Z) (waiter : Waiter) : result (Admission * list Round) :=
  let s := forget (state a) id in
  let? (s, changed) :=
    if granted waiter then
      let? s := return_capacity s (waiter_channel waiter) (waiter_bytes waiter)
                  (waiter_capabilities waiter) in
      Ok (s, true)
    else cancel_waiter s id waiter in
  let? (s, rounds) := if changed then schedule s else Ok (s, []) in
  Ok (set_state a (pending_sends a - 1) s (permits a), rounds).

(** [WaitRegistration::claim]: the permit has what the waiter asked for. *)
Definition waiter_permit (waiter : Waiter) : Permit :=
  {| permit_channel := waiter_channel waiter; permit_bytes := waiter_bytes waiter;
     permit_capabilities := waiter_capabilities waiter |}.
Definition claim (a : Admission) (id : Z) (waiter : Waiter) : Admission :=
  set_state a (pending_sends a - 1) (forget (state a) id) (permits a ++ [waiter_permit waiter]).

(** ** Histories *)
Inductive Op :=
| OpChannel (c capacity : Z)
| OpTryAcquire (c bytes capabilities : Z)
| OpRegister (c bytes capabilities : Z)
| OpWake (id : Z)
| OpCancel (id : Z)
| OpRelease (n : nat).

(** One operation; what it addresses is there ([acquire] holds the channel and the
    registration, the permit is owned), otherwise nothing happens.  [OpWake] is a turn of the
    loop of [acquire]. *)
Definition do_op (a : Admission) (op : Op) : result (Admission * list Round) :=
  match op with
  | OpChannel c capacity =>
      match channels (state a) !! c with
      | Some _ => Ok (a, [])
      | None => Ok (set_state a (pending_sends a)
                      (set_ready (state a) (ready (state a)) c (channel_new capacity)) (permits a), [])
      end
  | OpTryAcquire c bytes capabilities =>
      if bool_decide (channels (state a) !! c = None) then Ok (a, []) else
      let? (a, _) := try_acquire a c bytes capabilities in Ok (a, [])
  | OpRegister c bytes capabilities =>
      if bool_decide (channels (state a) !! c = None) then Ok (a, []) else
      match register a c bytes capabilities with
      | Ok (a, _, rounds) => Ok (a, rounds)
      | Err _ => Ok (a, [])
      | Panic => Panic
      end
  | OpWake id =>
      match waiters (state a) !! id with
      | Some w => if granted w then Ok (claim a id w, []) else Ok (a, [])
      | None => Ok (a, [])
      end
  | OpCancel id =>
      match waiters (state a) !! id with
      | Some w => cancel a id w
      | None => Ok (a, [])
      end
  | OpRelease n =>
      match permits a !! n with
      | Some p => release a p (delete n (permits a))
      | None => Ok (a, [])
      end
  end.

Fixpoint run (a : Admission) (ops : list Op) : result (Admission * list Round) :=
  match ops with
  | [] => Ok (a, [])
  | op :: ops =>
      let? (a, rounds) := do_op a op in
      let? (a, more) := run a ops in
      Ok (a, rounds ++ more)
  end.

Section samples.
Definition sample_ops : list Op :=
  [OpChannel 1 1; OpTryAcquire 1 5 0; OpTryAcquire 1 1 0; OpRegister 1 7 0; OpRegister 1 2 1; OpRelease 0].
Example sample_run :
  match run (new_admission 10 4 8) sample_ops with
  | Ok (a, rounds) => rounds = [(1, [])] ∧ available_bytes (state a) = 3 ∧ permits a = []
  | _ => False
  end.
Proof. vm_compute. done. Qed.
End samples.
