(* ===== verification/MessageAdmissionRules.v ===== *)
(** * What the operations of the message admission keep

    The queues agree with the waiters, a channel with a free slot exposes as many waiters
    as the window takes, and every round of the scheduler moves a waiter from waiting to
    granted against the budget. *)

From S2P Require Import Prelude SortedSet MessageAdmission.

(** ** Sums over the waiters *)
Definition wsum (f : Waiter → Z) (m : gmap Z Waiter) : Z := zsum ((λ e, f e.2) <$> map_to_list m).

Lemma wsum_insert_new f m id w : m !! id = None → wsum f (<[id := w]> m) = f w + wsum f m.
Proof. intros H. unfold wsum. by rewrite (map_to_list_insert _ _ _ H), fmap_cons, zsum_cons. Qed.

Lemma wsum_delete f m id w : m !! id = Some w → wsum f m = f w + wsum f (delete id m).
Proof. intros H. unfold wsum. by rewrite <-(map_to_list_delete _ _ _ H), fmap_cons, zsum_cons. Qed.

Lemma wsum_update f m id w w' : m !! id = Some w → wsum f (<[id := w']> m) = wsum f m + f w' - f w.
Proof.
  intros H. rewrite <-insert_delete_eq, wsum_insert_new by apply lookup_delete_eq.
  rewrite (wsum_delete f m id w H). lia.
Qed.

Lemma wsum_alter f g m id : (∀ w, f (g w) = f w) → wsum f (alter g id m) = wsum f m.
Proof.
  intros Hg. destruct (m !! id) as [w|] eqn:H.
  - replace (alter g id m) with (<[id := g w]> m).
    + rewrite (wsum_update f m id w _ H), Hg. lia.
    + apply map_eq. intros i. destruct (decide (i = id)) as [->|Hi].
      * by rewrite lookup_insert_eq, lookup_alter_eq, H.
      * by rewrite lookup_insert_ne, lookup_alter_ne.
  - replace (alter g id m) with m; [done|]. apply map_eq. intros i.
    destruct (decide (i = id)) as [->|Hi]; [by rewrite lookup_alter_eq, H|by rewrite lookup_alter_ne].
Qed.

Lemma wsum_nonneg f m : (∀ id w, m !! id = Some w → 0 ≤ f w) → 0 ≤ wsum f m.
Proof.
  intros H. apply zsum_nonneg, Forall_fmap, Forall_forall. intros [id w] Hin.
  apply elem_of_map_to_list in Hin. exact (H _ _ Hin).
Qed.

(** ** The store of waiters *)

(** What the queues see of a waiter. *)
Definition core (w : Waiter) : Z * Z * Z * bool :=
  (waiter_bytes w, waiter_capabilities w, waiter_channel w, granted w).

Lemma bypass_lookup passed : ∀ m id,
  NoDup passed →
  bypass m passed !! id =
    if decide (id ∈ passed)
    then (λ w, set_bypasses (saturating_add u8_max (bypasses w) 1) w) <$> m !! id
    else m !! id.
Proof.
  induction passed as [|p passed IH]; intros m id Hn; [done|]. apply NoDup_cons in Hn as [Hp Hn].
  simpl. fold (bypass (alter (λ w, set_bypasses (saturating_add u8_max (bypasses w) 1) w) p m) passed).
  rewrite IH by done. destruct (decide (id = p)) as [->|Hi].
  - rewrite (decide_False (P := p ∈ passed)) by done. rewrite decide_True by by left.
    by rewrite lookup_alter_eq.
  - rewrite lookup_alter_ne by done.
    destruct (decide (id ∈ passed)); [rewrite decide_True by (by right); done|].
    rewrite decide_False; [done|]. by intros [->|?]%elem_of_cons.
Qed.

Lemma bypass_wsum f passed : ∀ m, (∀ n w, f (set_bypasses n w) = f w) → wsum f (bypass m passed) = wsum f m.
Proof.
  induction passed as [|p passed IH]; intros m Hf; [done|]. simpl.
  fold (bypass (alter (λ w, set_bypasses (saturating_add u8_max (bypasses w) 1) w) p m) passed).
  rewrite IH by done. by apply wsum_alter.
Qed.

Lemma bypass_core m passed id : NoDup passed → core <$> bypass m passed !! id = core <$> m !! id.
Proof. intros H. rewrite bypass_lookup by done. case_decide; [|done]. by destruct (m !! id). Qed.

(** ** The queues *)
Definition waits_on (W : gmap Z Waiter) (c id : Z) : Prop :=
  ∃ w, W !! id = Some w ∧ waiter_channel w = c ∧ granted w = false.

Record queue_ok (W : gmap Z Waiter) (c : Z) (ch : ChannelState) : Prop := {
  q_pending : bs_wf (pending ch);
  q_ready : bs_wf (channel_ready ch);
  q_sub id : id ∈ channel_ready ch → id ∈ pending ch;
  q_waiters id : id ∈ pending ch ↔ waits_on W c id
}.

Record linked (W : gmap Z Waiter) (R : list Z) (C : gmap Z ChannelState) : Prop := {
  lk_ready : bs_wf R;
  lk_exposed id : id ∈ R ↔ ∃ c ch, C !! c = Some ch ∧ id ∈ channel_ready ch;
  lk_queues c ch : C !! c = Some ch → queue_ok W c ch;
  lk_channel id w : W !! id = Some w → is_Some (C !! waiter_channel w)
}.

Lemma waits_on_core W W' c id : core <$> W' !! id = core <$> W !! id → waits_on W c id ↔ waits_on W' c id.
Proof.
  unfold waits_on. intros H. destruct (W' !! id) as [w'|], (W !! id) as [w|]; try done. simpl in H.
  injection H as _ _ Hc Hg. naive_solver congruence.
Qed.

Lemma linked_core W W' R C : (∀ id, core <$> W' !! id = core <$> W !! id) → linked W R C → linked W' R C.
Proof.
  intros Hw [H1 H2 H3 H4]. constructor; [done|done| |].
  - intros c ch Hc. destruct (H3 c ch Hc) as [? ? ? Hq]. constructor; [done|done|done|].
    intros id. rewrite Hq. by apply waits_on_core.
  - intros id w' Hid. specialize (Hw id). rewrite Hid in Hw. simpl in Hw. symmetry in Hw.
    apply fmap_Some in Hw as (w & Hid' & He). injection He as _ _ -> _. by apply (H4 id).
Qed.

Section linked.
Context (W : gmap Z Waiter) (R : list Z) (C : gmap Z ChannelState) (Hl : linked W R C).

Lemma ready_waits c ch id : C !! c = Some ch → id ∈ channel_ready ch → waits_on W c id.
Proof. intros Hc Hid. by apply (q_waiters _ _ _ (lk_queues _ _ _ Hl c ch Hc)), (q_sub _ _ _ (lk_queues _ _ _ Hl c ch Hc)). Qed.

Lemma ready_waiter id : id ∈ R → ∃ w, W !! id = Some w ∧ granted w = false.
Proof.
  intros (c & ch & Hc & Hid)%(lk_exposed _ _ _ Hl). destruct (ready_waits c ch id Hc Hid) as (w & ? & _ & ?).
  by exists w.
Qed.

Lemma ready_elsewhere c ch id :
  C !! c = Some ch → id ∈ R → id ∉ channel_ready ch → ¬ waits_on W c id.
Proof.
  intros Hc (c' & ch' & Hc' & Hid)%(lk_exposed _ _ _ Hl) Hn (w & Hw & Hwc & _).
  destruct (ready_waits c' ch' id Hc' Hid) as (w' & Hw' & Hwc' & _). naive_solver congruence.
Qed.

(** Replaces the queues of one channel. *)
Lemma linked_replace W' R' c ch ch' :
  C !! c = Some ch → bs_wf R' → queue_ok W' c ch' →
  (∀ id, id ∈ R' ↔ id ∈ channel_ready ch' ∨ (id ∈ R ∧ id ∉ channel_ready ch)) →
  (∀ c' id, c' ≠ c → waits_on W' c' id ↔ waits_on W c' id) →
  (∀ id w, W' !! id = Some w → waiter_channel w = c ∨ is_Some (C !! waiter_channel w)) →
  linked W' R' (<[c := ch']> C).
Proof.
  intros Hc HR Hq Hr Hw Hch. constructor; [done| | |].
  - intros id. rewrite Hr. split.
    + intros [Hid|[Hid Hn]].
      * exists c, ch'. by rewrite lookup_insert_eq.
      * apply (lk_exposed _ _ _ Hl) in Hid as (c' & chc & Hc' & Hid).
        exists c', chc. rewrite lookup_insert_ne; [done|]. intros ->. naive_solver.
    + intros (c' & chc & Hc' & Hid). destruct (decide (c = c')) as [->|Hne].
      * rewrite lookup_insert_eq in Hc'. injection Hc' as ->. by left.
      * rewrite lookup_insert_ne in Hc' by done. right. split; [apply (lk_exposed _ _ _ Hl); eauto|].
        intros Hid'. destruct (ready_waits c ch id Hc Hid') as (w & Hw1 & Hw2 & _).
        destruct (ready_waits c' chc id Hc' Hid) as (w' & Hw1' & Hw2' & _). congruence.
  - intros c' chc Hc'. destruct (decide (c = c')) as [->|Hne].
    + rewrite lookup_insert_eq in Hc'. by injection Hc' as ->.
    + rewrite lookup_insert_ne in Hc' by done. destruct (lk_queues _ _ _ Hl c' chc Hc') as [? ? ? Hqw].
      constructor; [done|done|done|]. intros id. rewrite Hqw. symmetry. by apply Hw.
  - intros id w Hid. destruct (decide (c = waiter_channel w)) as [->|Hne]; [by rewrite lookup_insert_eq|].
    rewrite lookup_insert_ne by done. destruct (Hch id w Hid); [by subst|done].
Qed.
End linked.

(** ** Refilling the window *)
Definition full (ch : ChannelState) : Prop :=
  0 ≤ available ch ≤ capacity ch ∧ 0 < capacity ch ∧
  if available ch =? 0 then channel_ready ch = []
  else length (channel_ready ch) = (65 `min` length (pending ch))%nat.

Lemma unexposed_length (p r : list Z) :
  NoDup p → NoDup r → (∀ id, id ∈ r → id ∈ p) →
  length (filter (λ id, id ∉ r) p) = (length p - length r)%nat.
Proof.
  intros Hp Hr Hs. assert (H : p ≡ₚ r ++ filter (λ id, id ∉ r) p).
  { apply NoDup_Permutation; [done| |].
    - apply NoDup_app. split; [done|]. split; [|by apply NoDup_filter].
      intros id Hid [? _]%list_elem_of_filter. done.
    - intros id. rewrite elem_of_app, list_elem_of_filter. destruct (decide (id ∈ r)); naive_solver. }
  apply Permutation_length in H. rewrite length_app in H. lia.
Qed.

Lemma candidates_spec W c ch :
  queue_ok W c ch →
  NoDup (candidates ch) ∧
  (∀ id, id ∈ candidates ch → id ∈ pending ch ∧ id ∉ channel_ready ch) ∧
  length (candidates ch) =
    ((65 - length (channel_ready ch)) `min` (length (pending ch) - length (channel_ready ch)))%nat.
Proof.
  intros [Hp Hr Hs _]. unfold candidates. split_and!.
  - eapply sublist_NoDup; [|apply sublist_take]. by apply NoDup_filter, bs_wf_NoDup.
  - intros id Hid. eapply elem_of_sublist in Hid; [|apply sublist_take].
    apply list_elem_of_filter in Hid. naive_solver.
  - rewrite length_take, unexposed_length by (try apply bs_wf_NoDup; done).
    unfold saturating_sub, READY_WINDOW, MAXIMUM_BYPASSES, len. f_equal. lia.
Qed.

(** Whether a channel keeps its bounds before it is refilled. *)
Definition slots_ok (ch : ChannelState) : Prop :=
  0 ≤ available ch ≤ capacity ch ∧ 0 < capacity ch ∧
  (available ch = 0 → channel_ready ch = []) ∧ (length (channel_ready ch) ≤ 65)%nat.

Lemma full_slots ch : full ch → slots_ok ch.
Proof.
  intros (Ha & Hc & Hr). split; [done|]. split; [done|].
  destruct (available ch =? 0) eqn:E; [|split; lia]. rewrite Hr. split; [done|cbn; lia].
Qed.

Lemma set_ready_id s c ch : channels s !! c = Some ch → set_ready s (ready s) c ch = s.
Proof. intros H. destruct s; unfold set_ready; simpl in *. by rewrite insert_id. Qed.

Lemma refill_spec W s c ch :
  channels s !! c = Some ch → linked W (ready s) (channels s) → slots_ok ch →
  ∃ R ch', (refill_ready s c).1 = set_ready s R c ch' ∧
           linked W R (<[c := ch']> (channels s)) ∧ full ch' ∧
           capacity ch' = capacity ch ∧ available ch' = available ch ∧ pending ch' = pending ch ∧
           (∀ id, id ∈ ready s → id ∈ R) ∧
           ((refill_ready s c).2 = false → ∀ id, id ∈ R → id ∉ ready s → id_fits s id = false).
Proof.
  intros Hc Hl (Ha & Hcap & Hz & Hlen). unfold refill_ready. rewrite Hc.
  pose proof (lk_queues _ _ _ Hl c ch Hc) as Hq. destruct (available ch =? 0) eqn:E.
  { exists (ready s), ch. cbn [fst snd]. rewrite set_ready_id, insert_id by done. split_and!; try done.
    unfold full. rewrite E. split; [done|]. split; [done|]. apply Hz. lia. }
  destruct (candidates_spec W c ch Hq) as (Hn & Hin & Hlc).
  eexists _, _. cbn [fst snd]. split; [done|].
  assert (Hrl : length (bs_insert_all (candidates ch) (channel_ready ch)) =
                (length (candidates ch) + length (channel_ready ch))%nat).
  { apply bs_insert_all_length; [apply Hq|done|]. intros k Hk. by apply Hin. }
  split_and!; cbn [set_queues capacity available pending channel_ready]; try done.
  - eapply linked_replace; [done|done|apply bs_wf_insert_all, Hl| | |done|].
    + constructor; cbn [set_queues pending channel_ready]; [apply Hq|apply bs_wf_insert_all, Hq| |apply Hq].
      intros id [Hid|Hid]%bs_insert_all_elem; [by apply Hin|by apply (q_sub _ _ _ Hq)].
    + intros id. cbn [set_queues channel_ready]. rewrite !bs_insert_all_elem. destruct (decide (id ∈ channel_ready ch)) as [Hid|Hid]; [|naive_solver].
      assert (id ∈ ready s) by (apply (lk_exposed _ _ _ Hl); eauto). naive_solver.
    + intros id w Hid. right. by apply (lk_channel _ _ _ Hl id).
  - unfold full. cbn [set_queues capacity available pending channel_ready]. rewrite E, Hrl, Hlc. split; [done|]. split; [done|].
    assert (length (channel_ready ch) ≤ length (pending ch))%nat; [|lia].
    apply submseteq_length, NoDup_submseteq; [apply bs_wf_NoDup, Hq|]. intros id. apply (q_sub _ _ _ Hq).
  - intros id Hid. apply bs_insert_all_elem. by right.
  - intros Hf id Hid Hn'. apply bs_insert_all_elem in Hid as [Hid|]; [|done].
    destruct (id_fits s id) eqn:Ef; [|done]. assert (existsb (id_fits s) (candidates ch) = true); [|congruence].
    apply existsb_exists. exists id. by rewrite <-list_elem_of_In.
Qed.

(** ** Stability: no ready waiter can be granted *)
Definition exhausted (s : AdmissionState) (id : Z) : Prop :=
  ∃ w, waiters s !! id = Some w ∧ fits s w = false ∧ MAXIMUM_BYPASSES ≤ bypasses w.

Definition stable (s : AdmissionState) : Prop :=
  ∀ id, id ∈ ready s → id_fits s id = true → ∃ b, b ∈ ready s ∧ b < id ∧ exhausted s b.

(** The waiters in front of the selected one do not fit and may be passed over. *)
Lemma select_spec s l :
  bs_wf l → (∀ id, id ∈ l → is_Some (waiters s !! id)) →
  match select s l with
  | Ok None => ∀ id, id ∈ l → id_fits s id = true → ∃ b, b ∈ l ∧ b < id ∧ exhausted s b
  | Ok (Some id) =>
      id ∈ l ∧ id_fits s id = true ∧
      ∀ b, b ∈ l → b < id → ∃ w, waiters s !! b = Some w ∧ fits s w = false ∧ bypasses w < MAXIMUM_BYPASSES
  | _ => False
  end.
Proof.
  induction 1 as [|x l Hl IH Hx]; intros Hw; simpl; [by intros id ?%not_elem_of_nil|].
  rewrite Forall_forall in Hx. destruct (Hw x ltac:(by left)) as [w Hxw]. rewrite Hxw. simpl.
  destruct (fits s w) eqn:Ef.
  { split; [by left|]. split; [unfold id_fits; by rewrite Hxw|].
    intros b [->|Hb]%elem_of_cons Hlt; [lia|]. specialize (Hx _ Hb). lia. }
  assert (Hnf : id_fits s x = false) by (unfold id_fits; by rewrite Hxw).
  destruct (MAXIMUM_BYPASSES <=? bypasses w) eqn:Eb.
  { intros id [->|Hid]%elem_of_cons Hfit; [congruence|]. exists x. split; [by left|]. split; [by apply Hx|].
    exists w. split; [done|]. split; [done|lia]. }
  specialize (IH (λ id H, Hw id (list_elem_of_further _ _ _ H))). destruct (select s l) as [[id|]|e|]; [| |done|done].
  - destruct IH as (Hid & Hfit & Hb). split; [by right|]. split; [done|].
    intros b [->|Hin]%elem_of_cons Hlt; [|by apply Hb]. exists w. split; [done|]. split; [done|lia].
  - intros id [->|Hid]%elem_of_cons Hfit; [congruence|]. destruct (IH id Hid Hfit) as (b & Hb & ? & ?).
    exists b. split; [by right|done].
Qed.

(** ** States between operations *)
Definition waiter_ok (s : AdmissionState) (id : Z) (w : Waiter) : Prop :=
  0 < id ≤ next_waiter s ∧ 0 ≤ waiter_bytes w ∧ 0 ≤ waiter_capabilities w ∧
  0 ≤ bypasses w ≤ MAXIMUM_BYPASSES.

Record state_ok (s : AdmissionState) : Prop := {
  so_linked : linked (waiters s) (ready s) (channels s);
  so_full c ch : channels s !! c = Some ch → full ch;
  so_waiters id w : waiters s !! id = Some w → waiter_ok s id w;
  so_bytes : 0 ≤ available_bytes s;
  so_capabilities : 0 ≤ available_capabilities s
}.

(** What a waiter holds once it is granted. *)
Definition held (f : Waiter → Z) (w : Waiter) : Z := if granted w then f w else 0.
Definition on_channel (c : Z) (w : Waiter) : Z := if waiter_channel w =? c then 1 else 0.

Definition total_bytes (s : AdmissionState) : Z := available_bytes s + wsum (held waiter_bytes) (waiters s).
Definition total_capabilities (s : AdmissionState) : Z :=
  available_capabilities s + wsum (held waiter_capabilities) (waiters s).
Definition total_slots (s : AdmissionState) (c : Z) : Z :=
  match channels s !! c with Some ch => available ch | None => 0 end +
  wsum (held (on_channel c)) (waiters s).

(** How often a waiter is passed over in a trace. *)
Definition times_passed (id : Z) (rounds : list Round) : Z :=
  len (filter (λ r : Round, id ∈ r.2) rounds).

Lemma times_passed_app id l l' : times_passed id (l ++ l') = times_passed id l + times_passed id l'.
Proof. unfold times_passed. by rewrite filter_app, len_app. Qed.
Lemma times_passed_nil id : times_passed id [] = 0.
Proof. done. Qed.
Lemma times_passed_one id g l : times_passed id [(g, l)] = if decide (id ∈ l) then 1 else 0.
Proof. unfold times_passed. rewrite filter_cons. simpl. by case_decide. Qed.

(** What happened to one waiter. *)
Definition waiter_evolves (rounds : list Round) (id : Z) (ow ow' : option Waiter) : Prop :=
  match ow, ow' with
  | Some w, Some w' =>
      waiter_bytes w' = waiter_bytes w ∧ waiter_capabilities w' = waiter_capabilities w ∧
      waiter_channel w' = waiter_channel w ∧ (granted w = true → granted w' = true) ∧
      bypasses w' = bypasses w + times_passed id rounds
  | None, None => times_passed id rounds = 0
  | _, _ => False
  end.

(** Scheduling moves budget to granted waiters and counts whom it passes over. *)
Record evolves (s : AdmissionState) (rounds : list Round) (s' : AdmissionState) : Prop := {
  ev_next : next_waiter s' = next_waiter s;
  ev_bytes : total_bytes s' = total_bytes s;
  ev_capabilities : total_capabilities s' = total_capabilities s;
  ev_slots c : total_slots s' c = total_slots s c;
  ev_channels c : capacity <$> channels s' !! c = capacity <$> channels s !! c;
  ev_waiters id : waiter_evolves rounds id (waiters s !! id) (waiters s' !! id)
}.

Lemma rounds_refl s : evolves s [] s.
Proof.
  constructor; try done. intros id. unfold waiter_evolves. rewrite times_passed_nil.
  destruct (waiters s !! id); [|done]. split_and!; try done. lia.
Qed.

Lemma rounds_trans s1 s2 s3 l l' : evolves s1 l s2 → evolves s2 l' s3 → evolves s1 (l ++ l') s3.
Proof.
  intros [H1 H2 H3 H4 H5 H6] [K1 K2 K3 K4 K5 K6]. constructor;
    [by rewrite K1|by rewrite K2|by rewrite K3|intros c; by rewrite K4|intros c; by rewrite K5|].
  - intros id. specialize (H6 id). specialize (K6 id). unfold waiter_evolves in *.
    rewrite times_passed_app. destruct (waiters s1 !! id), (waiters s2 !! id), (waiters s3 !! id); try done; [|lia].
    naive_solver lia.
Qed.

Lemma waiting_sum s : Z.of_nat (waiting s) = wsum (λ w, if granted w then 0 else 1) (waiters s).
Proof.
  unfold waiting, wsum. induction (map_to_list (waiters s)) as [|[i w] l IH]; [done|].
  rewrite filter_cons, fmap_cons, zsum_cons, <-IH. cbn [snd]. destruct (granted w);
    [rewrite decide_False by done|rewrite decide_True by done]; cbn [length]; lia.
Qed.

Lemma ready_known s id : state_ok s → id ∈ ready s → is_Some (waiters s !! id).
Proof. intros Hs Hid. destruct (ready_waiter _ _ _ (so_linked s Hs) id Hid) as (w & Hw & _). by exists w. Qed.

(** ** One round *)

(** A channel whose queues lost a waiter is refilled or demoted. *)
Lemma settle_channel W s c ch :
  channels s !! c = Some ch → linked W (ready s) (channels s) → 0 ≤ available ch ≤ capacity ch →
  0 < capacity ch → (length (channel_ready ch) ≤ 65)%nat →
  ∃ R ch', (if available ch =? 0 then demote_ready s c else (refill_ready s c).1) = set_ready s R c ch' ∧
           linked W R (<[c := ch']> (channels s)) ∧ full ch' ∧
           capacity ch' = capacity ch ∧ available ch' = available ch.
Proof.
  intros Hc Hl Ha Hcap Hlen. destruct (available ch =? 0) eqn:E.
  - unfold demote_ready. rewrite Hc. eexists _, _. split; [done|]. split_and!; try done.
    + pose proof (lk_queues _ _ _ Hl c ch Hc) as Hq.
      eapply linked_replace; [done|done|apply bs_wf_filter, Hl| | |done|].
      * constructor; simpl; [apply Hq|constructor|by intros id ?%not_elem_of_nil|apply Hq].
      * intros id. simpl. rewrite list_elem_of_filter, elem_of_nil. naive_solver.
      * intros id w Hid. right. by apply (lk_channel _ _ _ Hl id).
    + unfold full. simpl. by rewrite E.
  - destruct (refill_spec W s c ch Hc Hl) as (R & ch' & -> & Hl' & Hf & Hc1 & Ha1 & _).
    { split; [done|]. split; [done|]. split; [lia|done]. }
    by exists R, ch'.
Qed.

(** Taking a waiter out of its queues. *)
Lemma linked_take W W' R C c ch n id :
  linked W R C → C !! c = Some ch →
  (∀ i, i ≠ id → core <$> W' !! i = core <$> W !! i) →
  (∀ c', waits_on W c' id → c' = c) →
  (∀ w, W' !! id = Some w → granted w = true ∧ waiter_channel w = c) →
  linked W' (bs_remove id R)
    (<[c := set_queues ch n (bs_remove id (pending ch)) (bs_remove id (channel_ready ch))]> C).
Proof.
  intros Hl Hc Hother Hown Hid. pose proof (lk_queues _ _ _ Hl c ch Hc) as Hq.
  assert (Hwo : ∀ c' i, waits_on W' c' i ↔ i ≠ id ∧ waits_on W c' i).
  { intros c' i. destruct (decide (i = id)) as [->|Hi].
    - split; [|naive_solver]. intros (w & Hw & _ & Hg). destruct (Hid w Hw). congruence.
    - rewrite <-(waits_on_core W W' c' i) by by apply Hother. naive_solver. }
  eapply linked_replace; [done|done|apply bs_wf_remove, Hl| | | |].
  - constructor; cbn [set_queues pending channel_ready]; [apply bs_wf_remove, Hq|apply bs_wf_remove, Hq| |].
    + intros i [? Hi]%bs_remove_elem. apply bs_remove_elem. split; [done|]. by apply (q_sub _ _ _ Hq).
    + intros i. by rewrite bs_remove_elem, Hwo, (q_waiters _ _ _ Hq).
  - intros i. cbn [set_queues channel_ready]. rewrite !bs_remove_elem. split.
    + intros [Hi Hr]. destruct (decide (i ∈ channel_ready ch)); naive_solver.
    + intros [[Hi Hr]|[Hr Hn]]; [split; [done|apply (lk_exposed _ _ _ Hl); eauto]|].
      split; [|done]. intros ->. apply Hn.
      destruct (proj1 (lk_exposed _ _ _ Hl id) Hr) as (c' & ch' & Hc' & Hin).
      pose proof (Hown c' (ready_waits _ _ _ Hl c' ch' id Hc' Hin)) as ->. congruence.
  - intros c' i Hne. rewrite Hwo. split; [naive_solver|]. intros Hw. split; [|done].
    intros ->. by apply Hne, Hown.
  - intros i w Hw. destruct (decide (i = id)) as [->|Hi]; [left; by apply (Hid w)|right].
    specialize (Hother i Hi). rewrite Hw in Hother. simpl in Hother. symmetry in Hother.
    apply fmap_Some in Hother as (w0 & Hw0 & He). injection He as _ _ -> _. by apply (lk_channel _ _ _ Hl i).
Qed.

(** The waiter a round selects and what it finds. *)
Lemma selected_spec s id :
  state_ok s → id ∈ ready s →
  ∃ w ch, waiters s !! id = Some w ∧ granted w = false ∧ channels s !! waiter_channel w = Some ch ∧
          id ∈ pending ch ∧ id ∈ channel_ready ch ∧ 0 < available ch.
Proof.
  intros Hs (c & ch & Hc & Hid)%(lk_exposed _ _ _ (so_linked s Hs)).
  destruct (ready_waits _ _ _ (so_linked s Hs) c ch id Hc Hid) as (w & Hw & <- & Hg).
  exists w, ch. split_and!; try done.
  - by apply (q_sub _ _ _ (lk_queues _ _ _ (so_linked s Hs) _ _ Hc)).
  - destruct (so_full s Hs _ _ Hc) as ([Ha _] & _ & Hf). destruct (available ch =? 0) eqn:E; [|lia].
    rewrite Hf in Hid. by apply not_elem_of_nil in Hid.
Qed.

Lemma passed_NoDup s id : state_ok s → NoDup (filter (λ i, i < id) (ready s)).
Proof. intros Hs. apply NoDup_filter, bs_wf_NoDup, Hs. Qed.

Lemma bypass_ok s id :
  state_ok s → select s (ready s) = Ok (Some id) →
  ∀ i w, bypass (waiters s) (filter (λ i, i < id) (ready s)) !! i = Some w →
  ∃ w0, waiters s !! i = Some w0 ∧ core w = core w0 ∧ waiter_ok s i w ∧
        bypasses w = bypasses w0 + times_passed i [(id, filter (λ i, i < id) (ready s))].
Proof.
  intros Hs Hsel i w. rewrite bypass_lookup by by apply passed_NoDup.
  pose proof (select_spec s (ready s) (lk_ready _ _ _ (so_linked s Hs)) (λ i H, ready_known s i Hs H)) as Hspec.
  rewrite Hsel in Hspec. destruct Hspec as (_ & _ & Hpass). rewrite times_passed_one.
  destruct (decide (i ∈ _)) as [Hin|Hin].
  - intros (w0 & Hw0 & ->)%fmap_Some. exists w0. apply list_elem_of_filter in Hin as [Hlt Hin].
    destruct (Hpass i Hin Hlt) as (w1 & Hw1 & _ & Hb). simplify_eq. unfold waiter_ok.
    destruct (so_waiters s Hs i w0 Hw0) as (H1 & H2 & H3 & H4). unfold saturating_add, u8_max.
    unfold MAXIMUM_BYPASSES in *. split_and!; cbn [set_bypasses waiter_bytes waiter_capabilities bypasses];
      try done; lia.
  - intros Hw. exists w. split_and!; try done; [by apply (so_waiters s Hs)|lia].
Qed.

(** The state behind a round, once the queues of the channel are settled. *)
Definition granted_state (s : AdmissionState) (id : Z) (w : Waiter) (passed R : list Z) (ch : ChannelState)
    : AdmissionState :=
  {| available_bytes := available_bytes s - waiter_bytes w;
     available_capabilities := available_capabilities s - waiter_capabilities w;
     next_waiter := next_waiter s; ready := R;
     waiters := <[id := set_granted w]> (bypass (waiters s) passed);
     channels := <[waiter_channel w := ch]> (channels s) |}.

Section granted.
Context (s : AdmissionState) (id : Z) (w : Waiter) (ch ch' : ChannelState) (R : list Z).
Context (Hs : state_ok s) (Hsel : select s (ready s) = Ok (Some id)).
Context (Hw : waiters s !! id = Some w) (Hg : granted w = false) (Hfit : fits s w = true).
Context (Hc : channels s !! waiter_channel w = Some ch).
Context (Hcap : capacity ch' = capacity ch) (Hav : available ch' = available ch - 1).

Let passed := filter (λ i, i < id) (ready s).
Let s' := granted_state s id w passed R ch'.

Lemma granted_known : bypass (waiters s) passed !! id = Some w.
Proof.
  rewrite bypass_lookup by by apply passed_NoDup. rewrite decide_False; [done|].
  intros [Hlt _]%list_elem_of_filter. lia.
Qed.

Lemma granted_wsum f : (∀ n v, f (set_bypasses n v) = f v) →
  wsum f (waiters s') = wsum f (waiters s) + f (set_granted w) - f w.
Proof. intros Hf. simpl. rewrite (wsum_update _ _ _ _ _ granted_known). by rewrite bypass_wsum. Qed.

Lemma granted_evolves : evolves s [(id, passed)] s'.
Proof.
  constructor; [done| | | | |].
  - unfold total_bytes. rewrite granted_wsum by done. unfold held. rewrite Hg. simpl. lia.
  - unfold total_capabilities. rewrite granted_wsum by done. unfold held. rewrite Hg. simpl. lia.
  - intros c. unfold total_slots. rewrite granted_wsum by done. unfold held. rewrite Hg. simpl.
    unfold on_channel. simpl. destruct (decide (waiter_channel w = c)) as [<-|Hne].
    + rewrite lookup_insert_eq, Hc, Z.eqb_refl. lia.
    + rewrite lookup_insert_ne by done. rewrite (proj2 (Z.eqb_neq _ _)) by done. lia.
  - intros c. simpl. destruct (decide (waiter_channel w = c)) as [<-|Hne].
    + rewrite lookup_insert_eq, Hc. simpl. by rewrite Hcap.
    + by rewrite lookup_insert_ne.
  - intros i. simpl. unfold waiter_evolves. destruct (decide (i = id)) as [->|Hi].
    + rewrite lookup_insert_eq, Hw.
      destruct (bypass_ok s id Hs Hsel id w granted_known) as (w0 & Hw0 & _ & _ & Hb). simplify_eq.
      split_and!; done.
    + rewrite lookup_insert_ne by done. destruct (bypass _ _ !! i) as [wi|] eqn:Hwi.
      * destruct (bypass_ok s id Hs Hsel i wi Hwi) as (w0 & -> & He & _ & Hb).
        injection He as -> -> -> ->. done.
      * pose proof Hwi as Hn. rewrite bypass_lookup in Hn by by apply passed_NoDup. rewrite times_passed_one.
        case_decide as Hin; [|by rewrite Hn].
        apply list_elem_of_filter in Hin as [_ Hin]. destruct (ready_known s i Hs Hin) as [w0 Hw0].
        by rewrite Hw0 in Hn.
Qed.

Lemma granted_waiting : (waiting s' < waiting s)%nat.
Proof.
  assert (Z.of_nat (waiting s') < Z.of_nat (waiting s)); [|lia].
  rewrite !waiting_sum, granted_wsum by done. simpl. rewrite Hg. lia.
Qed.

Lemma granted_ok : linked (waiters s') R (channels s') → full ch' → state_ok s'.
Proof.
  intros Hl Hf. unfold fits in Hfit. apply andb_true_iff in Hfit as [Hb Hk].
  constructor; [exact Hl| | |simpl; lia|simpl; lia].
  - intros c chc. simpl. destruct (decide (waiter_channel w = c)) as [<-|Hne].
    + rewrite lookup_insert_eq. by intros [= <-].
    + rewrite lookup_insert_ne by done. by apply (so_full s Hs).
  - intros i wi. simpl. destruct (decide (i = id)) as [->|Hi].
    + rewrite lookup_insert_eq. intros [= <-]. exact (so_waiters s Hs id w Hw).
    + rewrite lookup_insert_ne by done. intros Hwi.
      by destruct (bypass_ok s id Hs Hsel i wi Hwi) as (_ & _ & _ & ? & _).
Qed.
End granted.

Lemma grant_spec s id :
  state_ok s → select s (ready s) = Ok (Some id) →
  ∃ s', grant s id = Ok s' ∧ state_ok s' ∧ (waiting s' < waiting s)%nat ∧
        evolves s [(id, filter (λ i, i < id) (ready s))] s'.
Proof.
  intros Hs Hsel.
  pose proof (select_spec s (ready s) (lk_ready _ _ _ (so_linked s Hs)) (λ i H, ready_known s i Hs H)) as Hspec.
  rewrite Hsel in Hspec. destruct Hspec as (Hid & Hfit & _).
  destruct (selected_spec s id Hs Hid) as (w & ch & Hw & Hg & Hc & Hp & Hr & Ha).
  unfold id_fits in Hfit. rewrite Hw in Hfit. pose proof Hfit as [Hfb Hfk]%andb_true_iff.
  pose proof (granted_known s id w Hs Hw Hg Hfit) as HW.
  unfold grant. cbn [set_waiters waiters next_waiter channels ready]. rewrite HW. cbn [expect obind].
  rewrite Hc. cbn [expect obind].
  rewrite bool_decide_eq_true_2 by done. cbn [negb]. rewrite checked_sub_fits by lia. cbn [expect obind].
  set (ch1 := set_queues ch (available ch - 1) (bs_remove id (pending ch)) (bs_remove id (channel_ready ch))).
  set (s1 := set_ready _ _ _ _).
  destruct (so_full s Hs _ _ Hc) as (Hav & Hcap & Hwin). destruct (available ch =? 0) eqn:E in Hwin; [lia|].
  destruct (settle_channel (<[id := set_granted w]> (bypass (waiters s) (filter (λ i, i < id) (ready s))))
              s1 (waiter_channel w) ch1) as (R & ch' & Hset & Hl & Hf & Hcap' & Hav').
  { simpl. by rewrite lookup_insert_eq. }
  { apply (linked_take (waiters s)); [apply Hs|done| | |].
    - intros i Hi. rewrite lookup_insert_ne by done. apply bypass_core. by apply passed_NoDup.
    - intros c' (w' & Hw' & <- & _). congruence.
    - intros w'. rewrite lookup_insert_eq. by intros [= <-]. }
  { simpl. lia. }
  { done. }
  { cbn [ch1 set_queues channel_ready]. rewrite (bs_remove_length id) in Hwin; [lia| |done].
    by apply (lk_queues _ _ _ (so_linked s Hs) _ _ Hc). }
  change (available ch1) with (available ch - 1) in Hset, Hav'. rewrite Hset.
  cbn [set_ready s1 available_bytes available_capabilities set_waiters]. rewrite !checked_sub_fits by lia.
  cbn [expect obind set_budget set_ready set_waiters next_waiter waiters channels ready s1] in *.
  rewrite insert_insert_eq in *.
  exists (granted_state s id w (filter (λ i, i < id) (ready s)) R ch').
  split; [unfold granted_state, set_ready; simpl; by rewrite insert_insert_eq|]. split_and!.
  - eapply granted_ok; done.
  - by apply granted_waiting.
  - by eapply granted_evolves.
Qed.

(** ** The whole schedule *)
Lemma schedule_loop_spec fuel : ∀ s,
  state_ok s → (waiting s ≤ fuel)%nat →
  ∃ s' rounds, schedule_loop fuel s = Ok (s', rounds) ∧ state_ok s' ∧ stable s' ∧ evolves s rounds s'.
Proof.
  induction fuel as [|fuel IH]; intros s Hs Hf; cbn [schedule_loop];
    pose proof (select_spec s (ready s) (lk_ready _ _ _ (so_linked s Hs)) (λ i H, ready_known s i Hs H)) as Hspec;
    destruct (select s (ready s)) as [[id|]|e|] eqn:Hsel; try done; cbn [obind].
  1: { destruct (grant_spec s id Hs Hsel) as (s' & _ & _ & Hlt & _). lia. }
  1,3: exists s, []; split_and!; [done|done|exact Hspec|apply rounds_refl].
  destruct (grant_spec s id Hs Hsel) as (s1 & -> & Hs1 & Hlt & He). cbn [obind].
  destruct (IH s1 Hs1 ltac:(lia)) as (s2 & rounds & -> & Hs2 & Hst & He2). cbn [obind].
  eexists _, _. split_and!; [done|done|done|]. exact (rounds_trans _ _ _ [_] _ He He2).
Qed.

Lemma schedule_spec s :
  state_ok s → ∃ s' rounds, schedule s = Ok (s', rounds) ∧ state_ok s' ∧ stable s' ∧ evolves s rounds s'.
Proof. intros Hs. by apply schedule_loop_spec. Qed.

(** Scheduling a stable state does nothing. *)
Lemma schedule_stable s : state_ok s → stable s → schedule s = Ok (s, []).
Proof.
  intros Hs Hst. unfold schedule. destruct (waiting s) as [|n] eqn:Hn; cbn [schedule_loop];
    pose proof (select_spec s (ready s) (lk_ready _ _ _ (so_linked s Hs)) (λ i H, ready_known s i Hs H)) as Hspec;
    destruct (select s (ready s)) as [[id|]|e|]; try done; exfalso; destruct Hspec as (Hid & Hfit & Hb);
    destruct (Hst id Hid Hfit) as (b & Hbr & Hlt & wb & Hwb & _ & Hx);
    destruct (Hb b Hbr Hlt) as (w & Hw & _ & Hx'); simplify_eq; lia.
Qed.

(** The decision of an operation to schedule or not. *)
Lemma maybe_schedule (flag : bool) s :
  state_ok s → (flag = false → stable s) →
  ∃ s' rounds, (if flag then schedule s else Ok (s, [])) = Ok (s', rounds) ∧
               state_ok s' ∧ stable s' ∧ evolves s rounds s'.
Proof.
  intros Hs Hst. destruct flag; [by apply schedule_spec|]. exists s, [].
  split_and!; [done|done|by apply Hst|apply rounds_refl].
Qed.

(** Stability only looks at the ready waiters and the budget. *)
Lemma stable_grow s s' :
  stable s → available_bytes s' = available_bytes s → available_capabilities s' = available_capabilities s →
  (∀ id, id ∈ ready s → id ∈ ready s' ∧ waiters s' !! id = waiters s !! id) →
  (∀ id, id ∈ ready s' → id ∉ ready s → id_fits s' id = false) →
  stable s'.
Proof.
  intros Hst Hb Hk Hold Hnew id Hid Hfit.
  assert (Hf : ∀ w, fits s' w = fits s w) by (intros w; unfold fits; by rewrite Hb, Hk).
  destruct (decide (id ∈ ready s)) as [Hin|Hn]; [|by rewrite Hnew in Hfit].
  assert (Hfit' : id_fits s id = true).
  { unfold id_fits in *. rewrite <-(proj2 (Hold id Hin)). destruct (waiters s' !! id); [by rewrite <-Hf|done]. }
  destruct (Hst id Hin Hfit') as (b & Hbr & Hlt & w & Hw & Hx & Hy). exists b.
  split; [by apply Hold|]. split; [done|]. exists w. rewrite (proj2 (Hold b Hbr)), Hf. done.
Qed.

Lemma stable_same s s' :
  stable s → available_bytes s' = available_bytes s → available_capabilities s' = available_capabilities s →
  ready s' = ready s → (∀ id, id ∈ ready s → waiters s' !! id = waiters s !! id) → stable s'.
Proof.
  intros Hst Hb Hk Hr Hw. eapply stable_grow; [done|done|done| |]; rewrite Hr; [|done].
  intros id Hid. split; [done|by apply Hw].
Qed.
