(* ===== verification/MessageAdmissionSafety.v ===== *)
(** * The message admission over whole histories

    The budget is conserved, nothing is waiting that could be granted, no waiter is passed
    over more often than the limit, and when everything is given back nobody waits. *)

From S2P Require Import Prelude SortedSet MessageAdmission MessageAdmissionRules.

(** ** Operations on the scheduler's state *)
Lemma linked_forget W R C id : linked W R C → (∀ c, ¬ waits_on W c id) → linked (delete id W) R C.
Proof.
  intros [H1 H2 H3 H4] Hn. constructor; [done|done| |].
  - intros c ch Hc. destruct (H3 c ch Hc) as [? ? ? Hq]. constructor; [done|done|done|].
    intros i. rewrite Hq. unfold waits_on. destruct (decide (i = id)) as [->|Hi].
    + split; [intros H; destruct (Hn c H)|]. rewrite lookup_delete_eq. naive_solver.
    + by rewrite lookup_delete_ne.
  - intros i w [_ Hi]%lookup_delete_Some. by apply (H4 i).
Qed.

Lemma state_ok_requeue s R c ch :
  state_ok s → linked (waiters s) R (<[c := ch]> (channels s)) → full ch → state_ok (set_ready s R c ch).
Proof.
  intros Hs Hl Hf. constructor; [exact Hl| | | |]; try apply Hs.
  intros c' ch'. simpl. destruct (decide (c = c')) as [<-|Hne].
  - rewrite lookup_insert_eq. by intros [= <-].
  - rewrite lookup_insert_ne by done. by apply (so_full s Hs).
Qed.

(** The totals when only the queues of a channel change. *)
Lemma requeue_slots s R c ch ch' c' :
  channels s !! c = Some ch →
  total_slots (set_ready s R c ch') c' = total_slots s c' + (if decide (c' = c) then available ch' - available ch else 0).
Proof.
  intros Hc. unfold total_slots. simpl. destruct (decide (c' = c)) as [->|Hne].
  - rewrite lookup_insert_eq, Hc. lia.
  - rewrite lookup_insert_ne by done. lia.
Qed.

Lemma requeue_capacity s R c ch ch' c' :
  channels s !! c = Some ch → capacity ch' = capacity ch →
  capacity <$> channels (set_ready s R c ch') !! c' = capacity <$> channels s !! c'.
Proof.
  intros Hc Hcap. simpl. destruct (decide (c' = c)) as [->|Hne].
  - rewrite lookup_insert_eq, Hc. simpl. by rewrite Hcap.
  - by rewrite lookup_insert_ne.
Qed.

Lemma set_ready_twice s R c ch R' ch' : set_ready (set_ready s R c ch) R' c ch' = set_ready s R' c ch'.
Proof. unfold set_ready. simpl. by rewrite insert_insert_eq. Qed.

Lemma state_ok_budget s b k : state_ok s → 0 ≤ b → 0 ≤ k → state_ok (set_budget s b k).
Proof. intros [? ? ? ? ?] Hb Hk. by constructor. Qed.

(** Refilling a channel whose queues stayed the same or only lost a slot or gained one. *)
Lemma linked_slots s c ch n :
  state_ok s → channels s !! c = Some ch →
  linked (waiters s) (ready s) (<[c := set_queues ch n (pending ch) (channel_ready ch)]> (channels s)).
Proof.
  intros Hs Hc. pose proof (lk_queues _ _ _ (so_linked s Hs) c ch Hc) as [? ? ? ?].
  eapply (linked_replace (waiters s) (ready s)); [apply Hs|exact Hc|apply Hs|by constructor| |done|].
  - intros id. cbn [set_queues channel_ready]. destruct (decide (id ∈ channel_ready ch)); [|naive_solver].
    assert (id ∈ ready s); [|naive_solver]. apply (lk_exposed _ _ _ (so_linked s Hs)). eauto.
  - intros id w Hid. right. by apply (lk_channel _ _ _ (so_linked s Hs) id).
Qed.

(** Giving budget and a slot back. *)
Record returned (s : AdmissionState) (c bytes capabilities : Z) (s' : AdmissionState) : Prop := {
  rt_waiters : waiters s' = waiters s;
  rt_next : next_waiter s' = next_waiter s;
  rt_bytes : available_bytes s' = available_bytes s + bytes;
  rt_capabilities : available_capabilities s' = available_capabilities s + capabilities;
  rt_slots c' : total_slots s' c' = total_slots s c' + (if decide (c' = c) then 1 else 0);
  rt_channels c' : capacity <$> channels s' !! c' = capacity <$> channels s !! c'
}.

Lemma return_capacity_spec s c ch bytes capabilities :
  state_ok s → channels s !! c = Some ch → 0 ≤ bytes → 0 ≤ capabilities →
  available_bytes s + bytes ≤ usize_max → available_capabilities s + capabilities ≤ usize_max →
  available ch + 1 ≤ capacity ch → capacity ch ≤ usize_max →
  ∃ s', return_capacity s c bytes capabilities = Ok s' ∧ state_ok s' ∧ returned s c bytes capabilities s'.
Proof.
  intros Hs Hc Hb Hk Hub Huk Hn Hcap. unfold return_capacity.
  rewrite !checked_add_fits by done. cbn [expect obind]. set (s0 := set_budget s _ _).
  change (channels s0) with (channels s). rewrite Hc. cbn [expect obind].
  rewrite checked_add_fits by lia. cbn [expect obind]. rewrite (proj2 (Z.ltb_ge _ _)) by lia.
  set (ch1 := set_queues ch _ _ _).
  assert (Hs0 : state_ok s0).
  { pose proof (so_bytes s Hs). pose proof (so_capabilities s Hs).
    apply state_ok_budget; [done|lia..]. }
  pose proof (so_full s Hs c ch Hc) as Hf. pose proof (full_slots ch Hf) as (Ha & Hcp & Hz & Hlen).
  destruct (refill_spec (waiters s) (set_ready s0 (ready s0) c ch1) c ch1) as
    (R & ch' & -> & Hl & Hf' & Hcap' & Hav' & _).
  { simpl. by rewrite lookup_insert_eq. }
  { exact (linked_slots s0 c ch _ Hs0 Hc). }
  { split; [simpl; lia|]. split; [done|]. split; [simpl; lia|done]. }
  rewrite set_ready_twice. simpl in Hl. rewrite insert_insert_eq in Hl.
  eexists. split; [done|]. split; [by apply state_ok_requeue|]. constructor; try done.
  - intros c'. rewrite (requeue_slots s0 R c ch) by done. rewrite Hav'. cbn [ch1 set_queues available].
    unfold total_slots. simpl. case_decide; lia.
  - intros c'. by rewrite (requeue_capacity s0 R c ch).
Qed.

(** ** A new waiter *)
Lemma find_displaced_spec s p l :
  (∀ id, id ∈ l → is_Some (waiters s !! id) ∧ id ∈ p) →
  ∃ o, find_displaced s p l = Ok o ∧ ∀ d, o = Some d → d ∈ l ∧ id_fits s d = false.
Proof.
  induction l as [|x l IH]; intros Hw; simpl; [by exists None|].
  destruct (Hw x ltac:(by left)) as [[w Hx] Hp]. rewrite bool_decide_eq_true_2, Hx by done. simpl.
  destruct (_ && negb _) eqn:E.
  - exists (Some x). split; [done|]. intros d [= <-]. split; [by left|]. unfold id_fits. rewrite Hx.
    apply andb_true_iff in E as [_ E]. by apply negb_true_iff in E.
  - destruct (IH (λ id H, Hw id (list_elem_of_further _ _ _ H))) as (o & -> & Ho). exists o. split; [done|].
    intros d Hd. destruct (Ho d Hd). split; [by right|done].
Qed.

(** The store with a fresh waiter in the queue of its channel. *)
Lemma linked_enqueue s id w ch :
  state_ok s → waiters s !! id = None → granted w = false → channels s !! waiter_channel w = Some ch →
  linked (<[id := w]> (waiters s)) (ready s)
    (<[waiter_channel w := set_queues ch (available ch) (bs_insert id (pending ch)) (channel_ready ch)]> (channels s)).
Proof.
  intros Hs Hid Hg Hc. pose proof (lk_queues _ _ _ (so_linked s Hs) _ ch Hc) as [Hp Hr Hsub Hq].
  assert (Hw : ∀ c i, waits_on (<[id := w]> (waiters s)) c i ↔
                (i = id ∧ c = waiter_channel w) ∨ waits_on (waiters s) c i).
  { intros c i. unfold waits_on. destruct (decide (i = id)) as [->|Hi].
    - rewrite lookup_insert_eq, Hid. naive_solver.
    - rewrite lookup_insert_ne by done. naive_solver. }
  eapply (linked_replace (waiters s) (ready s)); [apply Hs|exact Hc|apply Hs| | | |].
  - constructor; cbn [set_queues pending channel_ready]; [by apply bs_wf_insert|done| |].
    + intros i Hi. apply bs_insert_elem. right. by apply Hsub.
    + intros i. rewrite bs_insert_elem, Hw, Hq. naive_solver.
  - intros i. cbn [set_queues channel_ready]. destruct (decide (i ∈ channel_ready ch)); [|naive_solver].
    assert (i ∈ ready s); [|naive_solver]. apply (lk_exposed _ _ _ (so_linked s Hs)). eauto.
  - intros c i Hne. rewrite Hw. naive_solver.
  - intros i wi. destruct (decide (i = id)) as [->|Hi].
    + rewrite lookup_insert_eq. intros [= <-]. by left.
    + rewrite lookup_insert_ne by done. intros Hwi. right. by apply (lk_channel _ _ _ (so_linked s Hs) i).
Qed.

(** The queues change, the waiters and the budget stay. *)
Record requeued (s s' : AdmissionState) : Prop := {
  rq_waiters : waiters s' = waiters s;
  rq_next : next_waiter s' = next_waiter s;
  rq_bytes : available_bytes s' = available_bytes s;
  rq_capabilities : available_capabilities s' = available_capabilities s;
  rq_slots c : total_slots s' c = total_slots s c;
  rq_channels c : capacity <$> channels s' !! c = capacity <$> channels s !! c
}.

Lemma requeued_set s R c ch ch' :
  channels s !! c = Some ch → capacity ch' = capacity ch → available ch' = available ch →
  requeued s (set_ready s R c ch').
Proof.
  intros Hc Hcap Hav. constructor; try done.
  - intros c'. rewrite (requeue_slots s R c ch) by done. case_decide; lia.
  - intros c'. by rewrite (requeue_capacity s R c ch).
Qed.

Definition fresh_waiter (s : AdmissionState) (id : Z) (w : Waiter) : Prop :=
  id = next_waiter s + 1 ∧ 0 ≤ waiter_bytes w ∧ 0 ≤ waiter_capabilities w ∧ bypasses w = 0 ∧ granted w = false.

Section fresh.
Context (s : AdmissionState) (id : Z) (w : Waiter) (ch : ChannelState).
Context (Hs : state_ok s) (Hst : stable s) (Hw : fresh_waiter s id w).
Context (Hnn : 0 ≤ next_waiter s) (Hc : channels s !! waiter_channel w = Some ch).

Let s0 := set_waiters s id (<[id := w]> (waiters s)).

Lemma fresh_unknown : waiters s !! id = None.
Proof.
  destruct (waiters s !! id) as [w'|] eqn:E; [|done]. destruct (so_waiters s Hs id w' E) as (Hid & _).
  destruct Hw as (-> & _). lia.
Qed.

Lemma fresh_ok R ch' :
  linked (waiters s0) R (<[waiter_channel w := ch']> (channels s)) → full ch' →
  state_ok (set_ready s0 R (waiter_channel w) ch').
Proof.
  intros Hl Hf. constructor; [exact Hl| | |apply Hs|apply Hs].
  - intros c chc. simpl. destruct (decide (waiter_channel w = c)) as [<-|Hne].
    + rewrite lookup_insert_eq. by intros [= <-].
    + rewrite lookup_insert_ne by done. by apply (so_full s Hs).
  - destruct Hw as (Hid & Hb & Hk & Hby & Hg). intros i wi. simpl. destruct (decide (i = id)) as [->|Hi].
    + rewrite lookup_insert_eq. intros [= <-]. unfold waiter_ok, MAXIMUM_BYPASSES. simpl. lia.
    + rewrite lookup_insert_ne by done. intros Hwi. destruct (so_waiters s Hs i wi Hwi) as (? & ? & ? & ?).
      unfold waiter_ok. simpl. split_and!; try done; lia.
Qed.

Lemma fresh_ready_waiters i : i ∈ ready s → waiters s0 !! i = waiters s !! i.
Proof.
  intros Hi. destruct (ready_known s i Hs Hi) as [wi Hwi]. simpl. rewrite lookup_insert_ne; [done|].
  intros <-. by rewrite fresh_unknown in Hwi.
Qed.

(** The displaced waiter's place is taken by the new one, which fits. *)
Lemma displaced_ok R ch' d :
  linked (waiters s0) R (<[waiter_channel w := ch']> (channels s)) → full ch' →
  id ∈ pending ch' → id ∉ R → d ∈ channel_ready ch' → available ch' ≠ 0 →
  state_ok (set_ready s0 (bs_insert id (bs_remove d R)) (waiter_channel w)
              (set_queues ch' (available ch') (pending ch') (bs_insert id (bs_remove d (channel_ready ch'))))).
Proof.
  intros Hl Hf Hp Hn Hd Hav.
  assert (Hlc : <[waiter_channel w := ch']> (channels s) !! waiter_channel w = Some ch')
    by by rewrite lookup_insert_eq.
  pose proof (lk_queues _ _ _ Hl _ _ Hlc) as [Hqp Hqr Hqs Hqw].
  assert (Hnr : id ∉ channel_ready ch').
  { intros Hid. apply Hn, (lk_exposed _ _ _ Hl). eauto. }
  apply fresh_ok.
  - rewrite <-(insert_insert_eq (channels s) (waiter_channel w) _ ch').
    eapply (linked_replace (waiters s0) R); [done|done|by apply bs_wf_insert, bs_wf_remove, Hl| | |done|].
    + constructor; cbn [set_queues pending channel_ready]; [done|by apply bs_wf_insert, bs_wf_remove| |done].
      intros i [->|[_ Hi]%bs_remove_elem]%bs_insert_elem; [done|by apply Hqs].
    + intros i. cbn [set_queues channel_ready]. rewrite !bs_insert_elem, !bs_remove_elem.
      assert (i ∈ channel_ready ch' → i ∈ R) by (intros ?; apply (lk_exposed _ _ _ Hl); eauto).
      destruct (decide (i ∈ channel_ready ch')), (decide (i = d)); naive_solver.
    + intros i wi Hi. right. by apply (lk_channel _ _ _ Hl i).
  - destruct Hf as (Ha & Hcap & Hwin). unfold full. cbn [set_queues available capacity pending channel_ready].
    rewrite (proj2 (Z.eqb_neq _ _) Hav) in *. split; [done|]. split; [done|]. rewrite <-Hwin.
    rewrite bs_insert_length; [|by apply bs_wf_remove|].
    + by rewrite (bs_remove_length d (channel_ready ch')).
    + by intros [_ ?]%bs_remove_elem.
Qed.
End fresh.

Lemma register_waiter_spec s id w ch :
  state_ok s → stable s → fresh_waiter s id w → 0 ≤ next_waiter s →
  channels s !! waiter_channel w = Some ch →
  let s0 := set_waiters s id (<[id := w]> (waiters s)) in
  ∃ s' flag, register_waiter s0 id w = Ok (s', flag) ∧ state_ok s' ∧ (flag = false → stable s') ∧ requeued s0 s'.
Proof.
  intros Hs Hst Hw Hnn Hc s0. set (c := waiter_channel w) in *. unfold register_waiter. fold c.
  change (channels s0) with (channels s) at 1. rewrite Hc. cbn [expect obind].
  set (ch1 := set_queues ch _ _ _). pose proof (fresh_unknown s id w Hs Hw) as Hno.
  assert (Hg : granted w = false) by apply Hw.
  pose proof (full_slots ch (so_full s Hs c ch Hc)) as (Ha & Hcap & Hz & Hlen).
  destruct (refill_spec (waiters s0) (set_ready s0 (ready s0) c ch1) c ch1)
    as (R & ch' & Heq & Hl & Hf & Hcap' & Hav' & Hp' & Hkeep & Hnew).
  { simpl. by rewrite lookup_insert_eq. }
  { by apply (linked_enqueue s id w ch). }
  { split; [done|]. split; [done|]. by split. }
  destruct (refill_ready _ c) as [s2 exposed]. cbn [fst snd] in Heq, Hnew. subst s2.
  rewrite set_ready_twice. simpl in Hl. rewrite insert_insert_eq in Hl.
  assert (Hok : state_ok (set_ready s0 R c ch')) by by apply fresh_ok.
  assert (Hrq : requeued s0 (set_ready s0 R c ch')) by by apply (requeued_set s0 R c ch).
  destruct exposed; [by exists (set_ready s0 R c ch'), true|].
  assert (Hstab : stable (set_ready s0 R c ch')).
  { eapply (stable_grow s); [done|done|done| |].
    - intros i Hi. split; [by apply Hkeep|]. by eapply fresh_ready_waiters.
    - intros i Hi Hn. exact (Hnew eq_refl i Hi Hn). }
  cbn [set_ready channels]. rewrite lookup_insert_eq. cbn [expect obind].
  destruct (_ || _) eqn:Egate; [by exists (set_ready s0 R c ch'), false|].
  apply orb_false_iff in Egate as [[Hav0 _]%orb_false_iff Hfit%negb_false_iff].
  assert (HidR : id ∉ R).
  { intros Hid. destruct (decide (id ∈ ready s)) as [Hin|Hn].
    - destruct (ready_known s id Hs Hin) as [w' Hw']. congruence.
    - pose proof (Hnew eq_refl id Hid Hn) as Hnf. unfold id_fits in Hnf. simpl in Hnf.
      rewrite lookup_insert_eq in Hnf. change (fits (set_ready s0 R c ch') w = false) in Hnf. congruence. }
  destruct (find_displaced_spec (set_ready s0 R c ch') (pending ch') (reverse (channel_ready ch')))
    as (o & Ho & Hd).
  { intros i Hi. rewrite elem_of_reverse in Hi.
    assert (Hlc : channels (set_ready s0 R c ch') !! c = Some ch') by (simpl; by rewrite lookup_insert_eq).
    split; [|by apply (q_sub _ _ _ (lk_queues _ _ _ (so_linked _ Hok) c ch' Hlc))].
    apply (ready_known _ i Hok), (lk_exposed _ _ _ (so_linked _ Hok)). by exists c, ch'. }
  cbn [set_ready] in Ho. rewrite Ho. cbn [obind].
  destruct o as [d|]; [|by exists (set_ready s0 R c ch'), false].
  destruct (Hd d eq_refl) as [Hdin _]. rewrite elem_of_reverse in Hdin.
  eexists _, true. split; [done|]. split; [|split; [done|]].
  - change (state_ok (set_ready (set_ready s0 R c ch') (bs_insert id (bs_remove d R)) c
              (set_queues ch' (available ch') (pending ch') (bs_insert id (bs_remove d (channel_ready ch')))))).
    rewrite set_ready_twice. apply displaced_ok; try done; [|lia].
    rewrite Hp'. apply bs_insert_elem. by left.
  - change (requeued s0 (set_ready (set_ready s0 R c ch') (bs_insert id (bs_remove d R)) c
              (set_queues ch' (available ch') (pending ch') (bs_insert id (bs_remove d (channel_ready ch')))))).
    rewrite set_ready_twice. by apply (requeued_set s0 _ c ch).
Qed.

(** ** A waiter that gives up *)
Lemma forget_state_ok s id w :
  state_ok s → waiters s !! id = Some w → granted w = true →
  state_ok (forget s id).
Proof.
  intros Hs Hw Hg. constructor; try apply Hs.
  - apply linked_forget; [apply Hs|]. intros c (w' & Hw' & _ & Hg'). congruence.
  - intros i wi. simpl. intros [_ Hi]%lookup_delete_Some. exact (so_waiters s Hs i wi Hi).
Qed.

Lemma granted_not_ready s id w : state_ok s → waiters s !! id = Some w → granted w = true → id ∉ ready s.
Proof. intros Hs Hw Hg Hid. destruct (ready_waiter _ _ _ (so_linked s Hs) id Hid) as (w' & ? & ?). congruence. Qed.

Lemma forget_stable s id w :
  state_ok s → stable s → waiters s !! id = Some w → granted w = true →
  stable (forget s id).
Proof.
  intros Hs Hst Hw Hg. eapply stable_same; [done|done|done|done|]. intros i Hi. simpl.
  rewrite lookup_delete_ne; [done|]. intros <-. by apply (granted_not_ready s id w).
Qed.

Lemma withdraw_stable s id w s1 :
  stable s → waiters s !! id = Some w →
  bool_decide (id ∈ ready s) && (MAXIMUM_BYPASSES <=? bypasses w) = false →
  available_bytes s1 = available_bytes s → available_capabilities s1 = available_capabilities s →
  ready s1 = bs_remove id (ready s) → (∀ i, i ≠ id → waiters s1 !! i = waiters s !! i) → stable s1.
Proof.
  intros Hst Hw Hbar Hb Hk Hr Hws i Hi Hfit. rewrite Hr in Hi. apply bs_remove_elem in Hi as [Hne Hi].
  assert (Hf : ∀ w, fits s1 w = fits s w) by (intros v; unfold fits; by rewrite Hb, Hk).
  assert (Hfit' : id_fits s i = true).
  { unfold id_fits in *. rewrite <-Hws by done. destruct (waiters s1 !! i); [by rewrite <-Hf|done]. }
  destruct (Hst i Hi Hfit') as (b & Hbr & Hlt & wb & Hwb & Hx & Hy).
  assert (b ≠ id).
  { intros ->. rewrite bool_decide_eq_true_2 in Hbar by done. simplify_eq. simpl in Hbar. lia. }
  exists b. rewrite Hr. split; [by apply bs_remove_elem|]. split; [done|]. exists wb.
  by rewrite Hws, Hf.
Qed.

Lemma cancel_waiter_spec s id w :
  state_ok s → stable s → waiters s !! id = Some w → granted w = false →
  let s0 := forget s id in
  ∃ s' flag, cancel_waiter s0 id w = Ok (s', flag) ∧ state_ok s' ∧ (flag = false → stable s') ∧ requeued s0 s'.
Proof.
  intros Hs Hst Hw Hg s0. set (c := waiter_channel w).
  destruct (lk_channel _ _ _ (so_linked s Hs) id w Hw) as [ch Hc]. fold c in Hc.
  unfold cancel_waiter. fold c. change (channels s0) with (channels s). rewrite Hc. cbn [expect obind].
  change (ready s0) with (ready s). set (ch1 := set_queues ch _ _ _).
  set (s1 := set_ready s0 (bs_remove id (ready s)) c ch1).
  pose proof (full_slots ch (so_full s Hs c ch Hc)) as (Ha & Hcap & Hz & Hlen).
  destruct (refill_spec (waiters s0) s1 c ch1) as (R & ch' & Heq & Hl & Hf & Hcap' & Hav' & _ & Hkeep & Hnew).
  { simpl. by rewrite lookup_insert_eq. }
  { apply (linked_take (waiters s)); [apply Hs|done| | |].
    - intros i Hi. simpl. by rewrite lookup_delete_ne.
    - intros c' (w' & Hw' & <- & _). unfold c. congruence.
    - intros w'. simpl. by rewrite lookup_delete_eq. }
  { split; [done|]. split; [done|]. cbn [ch1 set_queues available channel_ready]. split.
    - intros H0. by rewrite (Hz H0).
    - etrans; [apply length_filter|done]. }
  destruct (refill_ready s1 c) as [s2 exposed]. cbn [fst snd] in Heq, Hnew. subst s2.
  unfold s1 in Hl, Hkeep, Hnew |- *. rewrite set_ready_twice. simpl in Hl. rewrite insert_insert_eq in Hl.
  eexists _, _. split; [done|]. split; [|split; [|by apply (requeued_set s0 R c ch)]].
  - constructor; [exact Hl| | |apply Hs|apply Hs].
    + intros c' chc. simpl. destruct (decide (c = c')) as [<-|Hne].
      * rewrite lookup_insert_eq. by intros [= <-].
      * rewrite lookup_insert_ne by done. by apply (so_full s Hs).
    + intros i wi. simpl. intros [_ Hi]%lookup_delete_Some. exact (so_waiters s Hs i wi Hi).
  - intros [Hbar ->]%orb_false_iff.
    eapply (stable_grow (set_ready s0 (bs_remove id (ready s)) c ch1)); [|done|done| |].
    + eapply (withdraw_stable s id w); try done. intros i Hi. simpl. by rewrite lookup_delete_ne.
    + intros i Hi. split; [by apply Hkeep|done].
    + intros i Hi Hn. exact (Hnew eq_refl i Hi Hn).
Qed.

(** ** The budget and the trace *)
Definition permit_on (c : Z) (p : Permit) : Z := if permit_channel p =? c then 1 else 0.

(** The budget is split between what is available, what granted waiters hold and the
    permits; so are the slots of every channel. *)
Record ledger (bl cl : Z) (s : AdmissionState) (l : list Permit) : Prop := {
  lg_next : 0 ≤ next_waiter s;
  lg_bytes : total_bytes s + zsum (permit_bytes <$> l) = bl;
  lg_capabilities : total_capabilities s + zsum (permit_capabilities <$> l) = cl;
  lg_slots c ch : channels s !! c = Some ch → total_slots s c + zsum (permit_on c <$> l) = capacity ch;
  lg_capacity c ch : channels s !! c = Some ch → capacity ch ≤ usize_max;
  lg_permits : Forall (λ p, 0 ≤ permit_bytes p ∧ 0 ≤ permit_capabilities p ∧
                            is_Some (channels s !! permit_channel p)) l;
  lg_small id w : waiters s !! id = Some w → waiter_bytes w ≤ bl ∧ waiter_capabilities w ≤ cl
}.

Definition demand (w : Waiter) : Z * Z := (waiter_bytes w, waiter_capabilities w).

Record conserves (s s' : AdmissionState) : Prop := {
  cv_next : next_waiter s' = next_waiter s;
  cv_bytes : total_bytes s' = total_bytes s;
  cv_capabilities : total_capabilities s' = total_capabilities s;
  cv_slots c : total_slots s' c = total_slots s c;
  cv_channels c : capacity <$> channels s' !! c = capacity <$> channels s !! c;
  cv_demand id : demand <$> waiters s' !! id = demand <$> waiters s !! id
}.

Lemma evolves_conserves s rounds s' : evolves s rounds s' → conserves s s'.
Proof.
  intros [? ? ? ? ? Hw]. constructor; try done. intros id. specialize (Hw id). unfold waiter_evolves in Hw.
  destruct (waiters s !! id) as [w|], (waiters s' !! id) as [w'|]; try done.
  destruct Hw as (Hb & Hk & _). simpl. unfold demand. by rewrite Hb, Hk.
Qed.

Lemma requeued_conserves s s' : requeued s s' → conserves s s'.
Proof.
  intros [Hw ? Hb Hk ? ?]. constructor; try done; unfold total_bytes, total_capabilities; by rewrite ?Hb, ?Hk, Hw.
Qed.

Lemma conserves_trans s1 s2 s3 : conserves s1 s2 → conserves s2 s3 → conserves s1 s3.
Proof.
  intros [H1 H2 H3 H4 H5 H6] [K1 K2 K3 K4 K5 K6]. constructor;
    [by rewrite K1|by rewrite K2|by rewrite K3|intros c; by rewrite K4|intros c; by rewrite K5|intros id; by rewrite K6].
Qed.

Lemma conserves_channel s s' c ch' :
  conserves s s' → channels s' !! c = Some ch' → ∃ ch, channels s !! c = Some ch ∧ capacity ch' = capacity ch.
Proof.
  intros H Hc. pose proof (cv_channels _ _ H c) as He. rewrite Hc in He. simpl in He. symmetry in He.
  apply fmap_Some in He as (ch & ? & ?). by exists ch.
Qed.

Lemma ledger_conserves bl cl s s' l : ledger bl cl s l → conserves s s' → ledger bl cl s' l.
Proof.
  intros [H1 H2 H3 H4 H5 H6 H7] Hcv. pose proof Hcv as [K1 K2 K3 K4 K5 K6].
  constructor; [by rewrite K1|by rewrite K2|by rewrite K3| | | |].
  - intros c ch' Hc. destruct (conserves_channel _ _ _ _ Hcv Hc) as (ch & Hc0 & ->). rewrite K4. by apply H4.
  - intros c ch' Hc. destruct (conserves_channel _ _ _ _ Hcv Hc) as (ch & Hc0 & ->). by apply (H5 c).
  - eapply Forall_impl; [exact H6|]. intros p (? & ? & [ch Hch]). split; [done|]. split; [done|].
    specialize (K5 (permit_channel p)). rewrite Hch in K5. simpl in K5. apply fmap_Some in K5 as (ch' & ? & _).
    by exists ch'.
  - intros id w' Hid. specialize (K6 id). rewrite Hid in K6. simpl in K6. symmetry in K6.
    apply fmap_Some in K6 as (w & Hw & He). injection He as -> ->. by apply (H7 id).
Qed.

Lemma conserves_size s s' : conserves s s' → size (waiters s') = size (waiters s).
Proof.
  intros H. rewrite <-!size_dom. f_equal. apply set_eq. intros id. rewrite !elem_of_dom.
  pose proof (cv_demand _ _ H id) as He.
  destruct (waiters s' !! id), (waiters s !! id); simpl in He; try done; by rewrite !is_Some_alt.
Qed.

(** The counters are what the trace says. *)
Definition trace_ok (s : AdmissionState) (rounds : list Round) : Prop :=
  ∀ id, match waiters s !! id with
        | Some w => times_passed id rounds = bypasses w
        | None => times_passed id rounds ≤ MAXIMUM_BYPASSES ∧
                  (next_waiter s < id → times_passed id rounds = 0)
        end.

Lemma trace_evolves s log rounds s' : trace_ok s log → evolves s rounds s' → trace_ok s' (log ++ rounds).
Proof.
  intros Ht He id. specialize (Ht id). pose proof (ev_waiters _ _ _ He id) as Hw. unfold waiter_evolves in Hw.
  rewrite times_passed_app, (ev_next _ _ _ He).
  destruct (waiters s !! id), (waiters s' !! id); try done; lia.
Qed.

Lemma trace_requeued s log s' : trace_ok s log → requeued s s' → trace_ok s' log.
Proof. intros Ht [Hw Hn _ _ _ _] id. rewrite Hw, Hn. apply Ht. Qed.

Lemma trace_forget s log id w :
  state_ok s → trace_ok s log → waiters s !! id = Some w →
  trace_ok (forget s id) log.
Proof.
  intros Hs Ht Hw i. specialize (Ht i). simpl. destruct (decide (i = id)) as [->|Hi].
  - rewrite lookup_delete_eq. rewrite Hw in Ht.
    destruct (so_waiters s Hs id w Hw) as (? & _ & _ & ?). lia.
  - by rewrite lookup_delete_ne.
Qed.

Lemma trace_fresh s log id w :
  trace_ok s log → fresh_waiter s id w → waiters s !! id = None →
  trace_ok (set_waiters s id (<[id := w]> (waiters s))) log.
Proof.
  intros Ht (Hid & _ & _ & Hb & _) Hno i. specialize (Ht i). simpl. destruct (decide (i = id)) as [->|Hi].
  - rewrite lookup_insert_eq. rewrite Hno in Ht. rewrite Hb. apply Ht. lia.
  - rewrite lookup_insert_ne by done. destruct (waiters s !! i); [done|]. split; [apply Ht|]. intros ?. apply Ht. lia.
Qed.
