(* ===== verification/MessageAdmissionHistory.v ===== *)
(** * Histories of the message admission

    The invariant between operations: the queues are linked, nothing ready can be granted,
    the ledger balances and the counters are what the trace says.  Every operation keeps it
    and none panics. *)

From S2P Require Import Prelude SortedSet MessageAdmission MessageAdmissionRules MessageAdmissionSafety.

(** ** The ledger, from one owner to another *)
Lemma ledger_perm bl cl s l l' : l ≡ₚ l' → ledger bl cl s l → ledger bl cl s l'.
Proof.
  intros Hp [H1 H2 H3 H4 H5 H6 H7]. constructor; [done| | | |done| |done].
  - by rewrite <-Hp.
  - by rewrite <-Hp.
  - intros c ch Hc. rewrite <-Hp. by apply H4.
  - by rewrite <-Hp.
Qed.

Lemma held_nonneg f s : (∀ id w, waiters s !! id = Some w → 0 ≤ f w) → 0 ≤ wsum (held f) (waiters s).
Proof. intros H. apply wsum_nonneg. intros id w Hw. unfold held. destruct (granted w); [|done]. by apply (H id). Qed.

Lemma zsum_zero l : Forall (λ z, z = 0) l → zsum l = 0.
Proof. induction 1 as [|z l -> _ IH]; [done|]. rewrite zsum_cons. lia. Qed.

Lemma wsum_zero f m : (∀ id w, m !! id = Some w → f w = 0) → wsum f m = 0.
Proof.
  intros H. apply zsum_zero, Forall_fmap, Forall_forall. intros [id w] Hin.
  apply elem_of_map_to_list in Hin. exact (H _ _ Hin).
Qed.

Lemma wsum_empty f : wsum f ∅ = 0.
Proof. apply wsum_zero. intros id w. by rewrite lookup_empty. Qed.

Lemma on_channel_nonneg c w : 0 ≤ on_channel c w.
Proof. unfold on_channel. by case_match. Qed.

Lemma permit_on_nonneg c l : 0 ≤ zsum (permit_on c <$> l).
Proof. apply zsum_nonneg, Forall_fmap, Forall_true. intros p. unfold permit_on. simpl. by case_match. Qed.

(** A granted waiter turns into its permit. *)
Lemma ledger_claim bl cl s l id w :
  state_ok s → waiters s !! id = Some w → granted w = true → ledger bl cl s l →
  ledger bl cl (forget s id) (waiter_permit w :: l).
Proof.
  intros Hs Hw Hg [H1 H2 H3 H4 H5 H6 H7].
  destruct (so_waiters s Hs id w Hw) as (_ & Hb & Hk & _).
  assert (Hd : ∀ f, wsum (held f) (waiters s) = f w + wsum (held f) (delete id (waiters s))).
  { intros f. rewrite (wsum_delete _ _ _ _ Hw). unfold held at 1. by rewrite Hg. }
  constructor; [done| | | |done| |].
  - unfold total_bytes in *. rewrite fmap_cons, zsum_cons. cbn. rewrite Hd in H2. lia.
  - unfold total_capabilities in *. rewrite fmap_cons, zsum_cons. cbn. rewrite Hd in H3. lia.
  - intros c ch Hc. specialize (H4 c ch Hc). unfold total_slots in *. rewrite fmap_cons, zsum_cons. cbn in *.
    rewrite Hd in H4. unfold on_channel in H4 at 1. unfold permit_on at 1. cbn. lia.
  - constructor; [|done]. simpl. split; [done|]. split; [done|]. by apply (lk_channel _ _ _ (so_linked s Hs) id).
  - intros i wi Hi. cbn in Hi. apply lookup_delete_Some in Hi as [_ Hi]. by apply (H7 i).
Qed.

(** A waiter that holds nothing may come and go. *)
Lemma ledger_waiters bl cl s l next m :
  (∀ f, wsum (held f) m = wsum (held f) (waiters s)) → 0 ≤ next →
  (∀ id w, m !! id = Some w → waiter_bytes w ≤ bl ∧ waiter_capabilities w ≤ cl) →
  ledger bl cl s l → ledger bl cl (set_waiters s next m) l.
Proof.
  intros Hm Hn Hsmall [H1 H2 H3 H4 H5 H6 H7]. constructor; [done| | | |done|done|done].
  - unfold total_bytes in *. simpl. by rewrite Hm.
  - unfold total_capabilities in *. simpl. by rewrite Hm.
  - intros c ch Hc. unfold total_slots in *. simpl. rewrite Hm. by apply H4.
Qed.

Lemma ledger_forget bl cl s l id w :
  waiters s !! id = Some w → granted w = false → ledger bl cl s l → ledger bl cl (forget s id) l.
Proof.
  intros Hw Hg Hl. apply ledger_waiters; [|apply Hl| |done].
  - intros f. rewrite (wsum_delete (held f) (waiters s) id w Hw). unfold held at 2. by rewrite Hg.
  - intros i wi Hi. cbn in Hi. apply lookup_delete_Some in Hi as [_ Hi]. by apply (lg_small _ _ _ _ Hl i).
Qed.

Lemma ledger_fresh bl cl s l id w :
  fresh_waiter s id w → waiters s !! id = None → waiter_bytes w ≤ bl → waiter_capabilities w ≤ cl →
  ledger bl cl s l → ledger bl cl (set_waiters s id (<[id := w]> (waiters s))) l.
Proof.
  intros (Hid & _ & _ & _ & Hg) Hno Hb Hk Hl. pose proof (lg_next _ _ _ _ Hl).
  apply ledger_waiters; [|lia| |done].
  - intros f. rewrite wsum_insert_new by done. unfold held at 1. by rewrite Hg.
  - intros i wi. destruct (decide (i = id)) as [->|Hi].
    + rewrite lookup_insert_eq. by intros [= <-].
    + rewrite lookup_insert_ne by done. by apply (lg_small _ _ _ _ Hl i).
Qed.

(** Giving a permit back moves its budget and its slot to what is available. *)
Lemma ledger_return bl cl s p l :
  state_ok s → ledger bl cl s (p :: l) → bl ≤ usize_max → cl ≤ usize_max →
  ∃ s', return_capacity s (permit_channel p) (permit_bytes p) (permit_capabilities p) = Ok s' ∧
        state_ok s' ∧ ledger bl cl s' l ∧ waiters s' = waiters s ∧ next_waiter s' = next_waiter s ∧
        available_bytes s' ≤ bl ∧ available_capabilities s' ≤ cl.
Proof.
  intros Hs [H1 H2 H3 H4 H5 H6 H7] Hbl Hcl. apply Forall_cons in H6 as [(Hb & Hk & [ch Hc]) H6].
  rewrite fmap_cons, zsum_cons in H2, H3.
  assert (0 ≤ wsum (held waiter_bytes) (waiters s)) by (apply held_nonneg; intros i w Hi; by apply (so_waiters s Hs i w Hi)).
  assert (0 ≤ wsum (held waiter_capabilities) (waiters s)) by (apply held_nonneg; intros i w Hi; by apply (so_waiters s Hs i w Hi)).
  assert (0 ≤ zsum (permit_bytes <$> l)) by (apply zsum_nonneg, Forall_fmap; eapply Forall_impl; [exact H6|by intros ? []]).
  assert (0 ≤ zsum (permit_capabilities <$> l)).
  { apply zsum_nonneg, Forall_fmap. eapply Forall_impl; [exact H6|by intros ? (? & ? & _)]. }
  unfold total_bytes, total_capabilities in *. pose proof (H4 _ _ Hc) as Hslots. unfold total_slots in Hslots.
  rewrite Hc, fmap_cons, zsum_cons in Hslots. unfold permit_on in Hslots at 1. rewrite Z.eqb_refl in Hslots.
  assert (0 ≤ wsum (held (on_channel (permit_channel p))) (waiters s))
    by (apply held_nonneg; intros; apply on_channel_nonneg).
  pose proof (permit_on_nonneg (permit_channel p) l).
  destruct (return_capacity_spec s _ ch (permit_bytes p) (permit_capabilities p) Hs Hc Hb Hk)
    as (s' & He & Hs' & [Hw Hn Hb' Hk' Hsl Hch]); [lia|lia|lia|by apply (H5 _ _ Hc)|].
  exists s'. split_and!; try done; try lia. constructor; unfold total_bytes, total_capabilities; rewrite ?Hw; [lia|lia|lia| | | |done].
  - intros c ch' Hc'. specialize (Hch c). rewrite Hc' in Hch. symmetry in Hch.
    apply fmap_Some in Hch as (ch0 & Hc0 & ->). rewrite Hsl. specialize (H4 _ _ Hc0).
    rewrite fmap_cons, zsum_cons in H4. unfold permit_on in H4 at 1.
    destruct (decide (c = permit_channel p)) as [->|Hne]; [rewrite Z.eqb_refl in H4; lia|].
    rewrite (proj2 (Z.eqb_neq _ _)) in H4 by done. lia.
  - intros c ch' Hc'. specialize (Hch c). rewrite Hc' in Hch. symmetry in Hch.
    apply fmap_Some in Hch as (ch0 & Hc0 & ->). by apply (H5 c).
  - eapply Forall_impl; [exact H6|]. intros q (? & ? & [ch0 Hq]). split; [done|]. split; [done|].
    specialize (Hch (permit_channel q)). rewrite Hq in Hch. apply fmap_Some in Hch as (ch' & ? & _). by exists ch'.
Qed.

(** ** The invariant between operations *)
Record admission_ok (a : Admission) (log : list Round) : Prop := {
  ao_state : state_ok (state a);
  ao_stable : stable (state a);
  ao_ledger : ledger (byte_limit a) (capability_limit a) (state a) (permits a);
  ao_sends : pending_sends a = Z.of_nat (size (waiters (state a)));
  ao_trace : trace_ok (state a) log;
  ao_limits : 0 ≤ byte_limit a ≤ usize_max ∧ 0 ≤ capability_limit a ≤ usize_max
}.

(** What the callers keep to: a channel has room and a message fits the Runtime. *)
Definition op_ok (bl cl : Z) (op : Op) : Prop :=
  match op with
  | OpChannel _ capacity => 0 < capacity ≤ usize_max
  | OpTryAcquire _ bytes capabilities | OpRegister _ bytes capabilities =>
      0 ≤ bytes ≤ bl ∧ 0 ≤ capabilities ≤ cl
  | _ => True
  end.

(** An operation ends by scheduling where it may have made room. *)
Lemma settle_schedule a sends (flag : bool) s l log :
  state_ok s → (flag = false → stable s) → ledger (byte_limit a) (capability_limit a) s l →
  sends = Z.of_nat (size (waiters s)) → trace_ok s log →
  0 ≤ byte_limit a ≤ usize_max ∧ 0 ≤ capability_limit a ≤ usize_max →
  ∃ s' rounds, (if flag then schedule s else Ok (s, [])) = Ok (s', rounds) ∧
               admission_ok (set_state a sends s' l) (log ++ rounds) ∧ size (waiters s') = size (waiters s).
Proof.
  intros Hs Hst Hl Hn Ht Hlim. destruct (maybe_schedule flag s Hs Hst) as (s' & rounds & -> & Hs' & Hst' & He).
  pose proof (evolves_conserves _ _ _ He) as Hcv. exists s', rounds. split; [done|].
  split; [|by apply conserves_size]. constructor; simpl; [done|done| | | |done].
  - by eapply ledger_conserves.
  - by rewrite (conserves_size _ _ Hcv).
  - by eapply trace_evolves.
Qed.

Lemma forget_size s id w :
  waiters s !! id = Some w → Z.of_nat (size (waiters (forget s id))) = Z.of_nat (size (waiters s)) - 1.
Proof.
  intros Hw. rewrite <-(insert_delete_id (waiters s) id w Hw), map_size_insert_None by apply lookup_delete_eq.
  simpl. lia.
Qed.

Section operations.
Context (a : Admission) (log : list Round) (Ha : admission_ok a log).
Let s := state a.

Lemma channel_kept c capacity :
  channels s !! c = None → 0 < capacity ≤ usize_max →
  admission_ok (set_state a (pending_sends a) (set_ready s (ready s) c (channel_new capacity)) (permits a)) log.
Proof.
  intros Hc Hcap. destruct Ha as [Hs Hst Hl Hn Ht Hlim]. fold s in Hs, Hst, Hl, Hn, Ht.
  assert (Hnc : ∀ id w, waiters s !! id = Some w → waiter_channel w ≠ c).
  { intros id w Hw <-. destruct (lk_channel _ _ _ (so_linked s Hs) id w Hw). congruence. }
  assert (Hnw : ∀ id, ¬ waits_on (waiters s) c id).
  { intros id (w & Hw & Hwc & _). by apply (Hnc id w). }
  constructor; simpl; try done.
  - constructor; try apply Hs.
    + destruct (so_linked s Hs) as [H1 H2 H3 H4]. constructor; [done| | |].
      * intros id. rewrite H2. split; intros (c' & ch & Hc' & Hid).
        -- exists c', ch. simpl. rewrite lookup_insert_ne; [done|]. intros ->. congruence.
        -- simpl in Hc'. destruct (decide (c' = c)) as [->|Hne].
           ++ rewrite lookup_insert_eq in Hc'. injection Hc' as <-. by apply not_elem_of_nil in Hid.
           ++ rewrite lookup_insert_ne in Hc' by done. by exists c', ch.
      * intros c' ch. simpl. destruct (decide (c' = c)) as [->|Hne].
        -- rewrite lookup_insert_eq. intros [= <-]. constructor; simpl; try constructor; try done.
           ++ by intros ?%not_elem_of_nil.
           ++ intros []%Hnw.
        -- rewrite lookup_insert_ne by done. apply H3.
      * intros id w Hw. simpl. apply lookup_insert_is_Some'. right. by apply (H4 id).
    + intros c' ch. simpl. destruct (decide (c' = c)) as [->|Hne].
      * rewrite lookup_insert_eq. intros [= <-]. unfold full. simpl.
        rewrite (proj2 (Z.eqb_neq _ _)) by lia. split; [lia|]. split; [lia|done].
      * rewrite lookup_insert_ne by done. by apply (so_full s Hs).
  - destruct Hl as [H1 H2 H3 H4 H5 H6 H7]. constructor; simpl; try done.
    + intros c' ch. destruct (decide (c' = c)) as [->|Hne].
      * rewrite lookup_insert_eq. intros [= <-]. unfold total_slots. simpl. rewrite lookup_insert_eq. simpl.
        rewrite (wsum_zero (held (on_channel c))).
        -- rewrite (zsum_zero (permit_on c <$> permits a)); [lia|]. apply Forall_fmap.
           eapply Forall_impl; [exact H6|]. intros p (_ & _ & [ch Hp]). unfold permit_on. simpl.
           by rewrite (proj2 (Z.eqb_neq (permit_channel p) c)) by congruence.
        -- intros id w Hw. unfold held, on_channel. rewrite (proj2 (Z.eqb_neq _ _)) by (by apply (Hnc id)).
           by destruct (granted w).
      * rewrite lookup_insert_ne by done. intros Hc'. specialize (H4 _ _ Hc'). unfold total_slots in *.
        simpl. by rewrite lookup_insert_ne.
    + intros c' ch. destruct (decide (c' = c)) as [->|Hne].
      * rewrite lookup_insert_eq. intros [= <-]. simpl. lia.
      * rewrite lookup_insert_ne by done. by apply H5.
    + eapply Forall_impl; [exact H6|]. intros p (? & ? & ?). split; [done|]. split; [done|].
      apply lookup_insert_is_Some'. by right.
Qed.

Lemma try_acquire_kept c ch bytes capabilities :
  channels s !! c = Some ch → 0 ≤ bytes → 0 ≤ capabilities →
  ∃ a' p, try_acquire a c bytes capabilities = Ok (a', p) ∧ admission_ok a' log.
Proof.
  intros Hc Hb Hk. unfold try_acquire. fold s. rewrite Hc. cbn [expect obind].
  destruct (available ch =? 0) eqn:Eav; [by exists a, None|]. unfold try_take_budget.
  destruct (_ || _) eqn:Eb; [by exists a, None|].
  apply orb_false_iff in Eb as [[Er%negb_false_iff%bool_decide_eq_true Eb]%orb_false_iff Ek].
  eexists _, _. split; [done|]. destruct Ha as [Hs Hst Hl Hn Ht Hlim]. fold s in Hs, Hst, Hl, Hn, Ht.
  assert (Hcr : channel_ready ch = []).
  { destruct (channel_ready ch) as [|i r] eqn:E; [done|]. assert (Hi : i ∈ ready s); [|rewrite Er in Hi; by apply not_elem_of_nil in Hi].
    apply (lk_exposed _ _ _ (so_linked s Hs)). exists c, ch. rewrite E. split; [done|by left]. }
  destruct (so_full s Hs c ch Hc) as (Hav & Hcap & Hwin). rewrite Eav in Hwin.
  set (s1 := set_budget s _ _).
  constructor; [| | |exact Hn|exact Ht|exact Hlim].
  - apply (state_ok_requeue s1); [by apply state_ok_budget; [|lia..]|exact (linked_slots s c ch _ Hs Hc)|].
    unfold full. cbn [set_queues available capacity pending channel_ready]. split; [lia|]. split; [done|].
    destruct (available ch - 1 =? 0); [done|exact Hwin].
  - intros id Hid. cbn in Hid. rewrite Er in Hid. by apply not_elem_of_nil in Hid.
  - eapply ledger_perm; [apply Permutation_cons_append|].
    pose proof (λ c', requeue_slots s1 (ready s1) c ch (set_queues ch (available ch - 1) (pending ch) (channel_ready ch)) c' Hc) as Hslots.
    destruct Hl as [H1 H2 H3 H4 H5 H6 H7]. unfold total_bytes, total_capabilities in *.
    constructor; [done| | | | | |done].
    + rewrite fmap_cons, zsum_cons. unfold total_bytes. cbn. lia.
    + rewrite fmap_cons, zsum_cons. unfold total_capabilities. cbn. lia.
    + intros c' ch'. cbn [state set_state]. rewrite Hslots. cbn [set_ready channels set_queues available].
      rewrite fmap_cons, zsum_cons. unfold permit_on at 1. cbn [permit_channel].
      change (total_slots s1 c') with (total_slots s c'). destruct (decide (c' = c)) as [->|Hne].
      * rewrite lookup_insert_eq, Z.eqb_refl. intros [= <-]. cbn. specialize (H4 _ _ Hc). lia.
      * rewrite lookup_insert_ne by done. rewrite (proj2 (Z.eqb_neq c c')) by done.
        intros Hc'. specialize (H4 _ _ Hc'). lia.
    + intros c' ch'. cbn. destruct (decide (c' = c)) as [->|Hne].
      * rewrite lookup_insert_eq. intros [= <-]. exact (H5 c ch Hc).
      * rewrite lookup_insert_ne by done. by apply H5.
    + apply Forall_cons. split.
      * split; [done|]. split; [done|]. cbn. by rewrite lookup_insert_eq.
      * eapply Forall_impl; [exact H6|]. intros p (? & ? & ?). split; [done|]. split; [done|].
        apply lookup_insert_is_Some'. by right.
Qed.

Lemma register_kept c ch bytes capabilities :
  channels s !! c = Some ch → 0 ≤ bytes ≤ byte_limit a → 0 ≤ capabilities ≤ capability_limit a →
  match register a c bytes capabilities with
  | Ok (a', _, rounds) => admission_ok a' (log ++ rounds)
  | Err _ => True
  | Panic => False
  end.
Proof.
  intros Hc Hb Hk. unfold register. destruct (checked_add usize_max (pending_sends a) 1) as [sends|] eqn:Esends; [|done].
  destruct (pending_limit a <? sends); [done|]. cbn [obind]. fold s.
  destruct (next_waiter_id s) as [id|] eqn:Eid; [|done]. cbn [ok_or obind].
  destruct Ha as [Hs Hst Hl Hn Ht Hlim]. fold s in Hs, Hst, Hl, Hn, Ht.
  apply checked_add_Some in Esends as [-> _]. apply checked_add_Some in Eid as [Eid _].
  set (w := {| waiter_bytes := bytes |}). pose proof (lg_next _ _ _ _ Hl) as Hnn.
  assert (Hw : fresh_waiter s id w) by (unfold fresh_waiter, w; cbn; split_and!; first [done|lia]).
  pose proof (fresh_unknown s id w Hs Hw) as Hno.
  destruct (register_waiter_spec s id w ch Hs Hst Hw Hnn Hc) as (s1 & flag & -> & Hs1 & Hst1 & Hrq).
  cbn [obind]. pose proof (requeued_conserves _ _ Hrq) as Hcv.
  destruct (settle_schedule a (pending_sends a + 1) flag s1 (permits a) log) as (s2 & rounds & -> & Hok & _); try done.
  - eapply ledger_conserves; [|exact Hcv]. by apply ledger_fresh; [| |apply Hb|apply Hk|].
  - rewrite (conserves_size _ _ Hcv). simpl. rewrite map_size_insert_None by done. lia.
  - eapply trace_requeued; [|exact Hrq]. by apply trace_fresh.
Qed.

Lemma claim_kept id w :
  waiters s !! id = Some w → granted w = true → admission_ok (claim a id w) log.
Proof.
  intros Hw Hg. destruct Ha as [Hs Hst Hl Hn Ht Hlim]. fold s in Hs, Hst, Hl, Hn, Ht.
  constructor; cbn [claim set_state state permits pending_sends byte_limit capability_limit]; fold s; [| | | | |done].
  - by apply (forget_state_ok s id w).
  - by apply (forget_stable s id w).
  - eapply ledger_perm; [apply Permutation_cons_append|]. by apply ledger_claim.
  - rewrite (forget_size s id w) by done. lia.
  - by apply (trace_forget s log id w).
Qed.

Lemma release_kept n p :
  permits a !! n = Some p →
  ∃ a' rounds, release a p (delete n (permits a)) = Ok (a', rounds) ∧ admission_ok a' (log ++ rounds) ∧
               permits a' = delete n (permits a) ∧ size (waiters (state a')) = size (waiters s).
Proof.
  intros Hp. destruct Ha as [Hs Hst Hl Hn Ht Hlim]. fold s in Hs, Hst, Hl, Hn, Ht. unfold release. fold s.
  destruct (ledger_return (byte_limit a) (capability_limit a) s p (delete n (permits a)) Hs) as (s1 & -> & Hs1 & Hl1 & Hw1 & Hn1 & Hb1 & Hk1).
  { eapply ledger_perm; [|exact Hl]. by apply delete_Permutation. }
  1,2: apply Hlim.
  cbn [obind]. rewrite (proj2 (Z.leb_le _ _) Hb1), (proj2 (Z.leb_le _ _) Hk1). cbn [andb negb].
  destruct (settle_schedule a (pending_sends a) true s1 (delete n (permits a)) log) as (s2 & rounds & -> & Hok & Hsz); try done.
  - by rewrite Hw1.
  - intros id. rewrite Hw1, Hn1. apply Ht.
  - eexists _, _. split; [done|]. split; [exact Hok|]. split; [done|]. simpl. by rewrite Hsz, Hw1.
Qed.

Lemma cancel_kept id w :
  waiters s !! id = Some w →
  ∃ a' rounds, cancel a id w = Ok (a', rounds) ∧ admission_ok a' (log ++ rounds).
Proof.
  intros Hw. destruct Ha as [Hs Hst Hl Hn Ht Hlim]. fold s in Hs, Hst, Hl, Hn, Ht. unfold cancel. fold s.
  pose proof (forget_size s id w Hw) as Hsz. pose proof (trace_forget s log id w Hs Ht Hw) as Htf.
  destruct (granted w) eqn:Hg.
  - destruct (ledger_return (byte_limit a) (capability_limit a) (forget s id) (waiter_permit w) (permits a)) as (s1 & Hrc & Hs1 & Hl1 & Hw1 & Hn1 & _).
    { by apply (forget_state_ok s id w). }
    { by apply ledger_claim. }
    1,2: apply Hlim.
    cbn [waiter_permit permit_channel permit_bytes permit_capabilities] in Hrc. rewrite Hrc. cbn [obind].
    destruct (settle_schedule a (pending_sends a - 1) true s1 (permits a) log) as (s2 & rounds & -> & Hok & _); try done.
    + rewrite Hw1, Hsz. lia.
    + intros i. rewrite Hw1, Hn1. apply Htf.
    + by eexists _, _.
  - destruct (cancel_waiter_spec s id w Hs Hst Hw Hg) as (s1 & flag & -> & Hs1 & Hst1 & Hrq). cbn [obind].
    pose proof (requeued_conserves _ _ Hrq) as Hcv.
    destruct (settle_schedule a (pending_sends a - 1) flag s1 (permits a) log) as (s2 & rounds & -> & Hok & _); try done.
    + eapply ledger_conserves; [|exact Hcv]. by apply (ledger_forget _ _ s _ id w).
    + rewrite (conserves_size _ _ Hcv), Hsz. lia.
    + by eapply trace_requeued.
    + by eexists _, _.
Qed.
End operations.

(** ** Every operation *)
Lemma do_op_kept a log op :
  admission_ok a log → op_ok (byte_limit a) (capability_limit a) op →
  ∃ a' rounds, do_op a op = Ok (a', rounds) ∧ admission_ok a' (log ++ rounds).
Proof.
  intros Ha Hop. destruct op as [c n|c b k|c b k|id|id|n]; cbn [do_op].
  - destruct (channels (state a) !! c) eqn:E; eexists _, _; (split; [done|]); rewrite app_nil_r; [done|].
    by apply channel_kept.
  - destruct (channels (state a) !! c) as [ch|] eqn:E; cbn; [|eexists _, _; by rewrite app_nil_r].
    destruct Hop as [Hb Hk]. destruct (try_acquire_kept a log Ha c ch b k E) as (a' & p & -> & Ha'); [lia..|].
    eexists _, _. by rewrite app_nil_r.
  - destruct (channels (state a) !! c) as [ch|] eqn:E; cbn; [|eexists _, _; by rewrite app_nil_r].
    destruct Hop as [Hb Hk]. pose proof (register_kept a log Ha c ch b k E Hb Hk) as Hr.
    destruct (register a c b k) as [[[a' ?] rounds]|e|]; [by exists a', rounds| |done].
    exists a, []. by rewrite app_nil_r.
  - destruct (waiters (state a) !! id) as [w|] eqn:E; [destruct (granted w) eqn:Eg|];
      eexists _, _; (split; [done|]); rewrite app_nil_r; [|done..]. by apply claim_kept.
  - destruct (waiters (state a) !! id) as [w|] eqn:E; [by apply cancel_kept|].
    exists a, []. by rewrite app_nil_r.
  - destruct (permits a !! n) as [p|] eqn:E.
    + destruct (release_kept a log Ha n p E) as (a' & rounds & ? & ? & _). by exists a', rounds.
    + exists a, []. by rewrite app_nil_r.
Qed.

(** The limits are those of the Runtime. *)
Definition same_limits (a a' : Admission) : Prop :=
  byte_limit a' = byte_limit a ∧ capability_limit a' = capability_limit a.

Lemma release_limits a p l a' rounds : release a p l = Ok (a', rounds) → same_limits a a'.
Proof.
  unfold release. destruct (return_capacity _ _ _ _) as [s|e|]; try done. cbn [obind].
  destruct (negb _); [done|]. destruct (schedule s) as [[s' r]|e|]; [|done..]. by intros [= <- <-].
Qed.

Lemma cancel_limits a id w a' rounds : cancel a id w = Ok (a', rounds) → same_limits a a'.
Proof.
  unfold cancel. destruct (if granted w then _ else _) as [[s flag]|e|]; [|done..]. cbn [obind].
  destruct (if flag then schedule s else _) as [[s' r]|e|]; [|done..]. by intros [= <- <-].
Qed.

Lemma register_limits a c b k a' x rounds : register a c b k = Ok (a', x, rounds) → same_limits a a'.
Proof.
  unfold register. destruct (checked_add usize_max (pending_sends a) 1) as [n|]; [|done].
  destruct (pending_limit a <? n); [done|]. cbn [obind]. destruct (next_waiter_id (state a)) as [id|]; [|done]. cbn [ok_or obind].
  destruct (register_waiter _ _ _) as [[s flag]|e|]; [|done..]. cbn [obind].
  destruct (if flag then schedule s else _) as [[s' r]|e|]; [|done..]. by intros [= <- _ <-].
Qed.

Lemma try_acquire_limits a c b k a' p : try_acquire a c b k = Ok (a', p) → same_limits a a'.
Proof.
  unfold try_acquire. destruct (channels (state a) !! c) as [ch|]; [|done]. cbn [expect obind].
  destruct (available ch =? 0); [by intros [= <- _]|].
  destruct (try_take_budget _ _ _); by intros [= <- _].
Qed.

Lemma do_op_limits a op a' rounds : do_op a op = Ok (a', rounds) → same_limits a a'.
Proof.
  destruct op as [c n|c b k|c b k|id|id|n]; cbn [do_op].
  - case_match; by intros [= <- _].
  - case_bool_decide; [by intros [= <- _]|]. destruct (try_acquire a c b k) as [[a1 p]|e|] eqn:E; [|done..].
    intros [= <- _]. by eapply try_acquire_limits.
  - case_bool_decide; [by intros [= <- _]|]. destruct (register a c b k) as [[[a1 x] r]|e|] eqn:E; [| |done].
    + intros [= <- _]. by eapply register_limits.
    + by intros [= <- _].
  - case_match; [case_match|]; by intros [= <- _].
  - case_match; [apply cancel_limits|by intros [= <- _]].
  - case_match; [apply release_limits|by intros [= <- _]].
Qed.

Lemma run_kept ops : ∀ a log,
  admission_ok a log → Forall (op_ok (byte_limit a) (capability_limit a)) ops →
  ∃ a' rounds, run a ops = Ok (a', rounds) ∧ admission_ok a' (log ++ rounds) ∧ same_limits a a'.
Proof.
  induction ops as [|op ops IH]; intros a log Ha Hops; cbn [run].
  { exists a, []. by rewrite app_nil_r. }
  apply Forall_cons in Hops as [Hop Hops]. destruct (do_op_kept a log op Ha Hop) as (a1 & r1 & E & Ha1).
  rewrite E. cbn [obind]. destruct (do_op_limits _ _ _ _ E) as [Hb Hk]. rewrite <-Hb, <-Hk in Hops.
  destruct (IH a1 _ Ha1 Hops) as (a2 & r2 & -> & Ha2 & Hb2 & Hk2). cbn [obind].
  exists a2, (r1 ++ r2). split; [done|]. split; [by rewrite app_assoc|]. split; congruence.
Qed.

Definition limit_ok (n : Z) : Prop := 0 ≤ n ≤ usize_max.

Lemma new_admission_ok bl cl pl : limit_ok bl → limit_ok cl → admission_ok (new_admission bl cl pl) [].
Proof.
  intros Hbl Hcl. constructor; simpl; [| | |done| |done].
  - constructor; simpl; [|done|done|apply Hbl|apply Hcl]. constructor; simpl; [constructor| |done|done].
    intros id. split; [by intros ?%not_elem_of_nil|]. intros (c & ch & Hc & _). done.
  - by intros id ?%not_elem_of_nil.
  - constructor; simpl; try done.
    + unfold total_bytes. simpl. rewrite wsum_empty, zsum_nil. lia.
    + unfold total_capabilities. simpl. rewrite wsum_empty, zsum_nil. lia.
  - intros id. simpl. rewrite lookup_empty, times_passed_nil. unfold MAXIMUM_BYPASSES. split; [lia|done].
Qed.

Lemma history_ok bl cl pl ops :
  limit_ok bl → limit_ok cl → Forall (op_ok bl cl) ops →
  ∃ a log, run (new_admission bl cl pl) ops = Ok (a, log) ∧ admission_ok a log ∧
           byte_limit a = bl ∧ capability_limit a = cl.
Proof.
  intros Hbl Hcl Hops.
  destruct (run_kept ops _ _ (new_admission_ok bl cl pl Hbl Hcl) Hops) as (a & log & -> & Ha & Hb & Hk).
  by exists a, log.
Qed.

(** A waiter its channel does not expose waits behind a full window. *)
Lemma window_full W c ch id :
  queue_ok W c ch → length (channel_ready ch) = (65 `min` length (pending ch))%nat →
  waits_on W c id → id ∉ channel_ready ch → len (channel_ready ch) = READY_WINDOW.
Proof.
  intros [Hp Hr Hsub Hq] Hwin Hw Hn.
  assert (length (channel_ready ch) < length (pending ch))%nat.
  { assert (Hs : channel_ready ch ⊆+ bs_remove id (pending ch)).
    { apply NoDup_submseteq; [by apply bs_wf_NoDup|]. intros i Hi. apply bs_remove_elem.
      split; [by intros ->|by apply Hsub]. }
    apply submseteq_length in Hs. rewrite (bs_remove_length id (pending ch)); [lia|done|by apply Hq]. }
  unfold len, READY_WINDOW, MAXIMUM_BYPASSES. lia.
Qed.

(** ** What every history keeps *)

(** C16: the budget of buffered messages is conserved: after any history of sends, claims,
    cancellations and returned permits, none of which panics, the bytes and the capabilities
    of the Runtime and the slots of every channel are split exactly between what is available
    (never negative), what granted waiters hold until they claim it, and the permits that are
    out; and exactly the waiters count as pending sends. *)
Theorem admission_conserves_budget bl cl pl ops :
  limit_ok bl → limit_ok cl → Forall (op_ok bl cl) ops →
  ∃ a log, run (new_admission bl cl pl) ops = Ok (a, log) ∧
    let s := state a in
    available_bytes s + wsum (held waiter_bytes) (waiters s) + zsum (permit_bytes <$> permits a) = bl ∧
    available_capabilities s + wsum (held waiter_capabilities) (waiters s)
      + zsum (permit_capabilities <$> permits a) = cl ∧
    (∀ c ch, channels s !! c = Some ch →
       available ch + wsum (held (on_channel c)) (waiters s) + zsum (permit_on c <$> permits a) = capacity ch
       ∧ 0 ≤ available ch) ∧
    0 ≤ available_bytes s ∧ 0 ≤ available_capabilities s ∧ pending_sends a = Z.of_nat (size (waiters s)).
Proof.
  intros Hbl Hcl Hops. destruct (history_ok bl cl pl ops Hbl Hcl Hops) as (a & log & Hr & Ha & Hb & Hk).
  exists a, log. split; [done|]. destruct Ha as [Hs _ Hl Hn _ _]. rewrite Hb, Hk in Hl. cbv zeta.
  split_and!; try done; [apply Hl|apply Hl| |apply Hs|apply Hs].
  intros c ch Hc. pose proof (lg_slots _ _ _ _ Hl c ch Hc) as Hsl. unfold total_slots in Hsl. rewrite Hc in Hsl.
  split; [done|]. apply (so_full _ Hs c ch Hc).
Qed.

(** C14: no wake-up is lost: the operations that skip the scheduler never skip a grant.  After
    any history, running the scheduler once more grants nobody; and a waiter whose message
    fits waits for a slot of its channel, behind a full window of its channel, or behind an
    older waiter that was passed over as often as allowed. *)
Theorem no_lost_wakeup bl cl pl ops :
  limit_ok bl → limit_ok cl → Forall (op_ok bl cl) ops →
  ∃ a log, run (new_admission bl cl pl) ops = Ok (a, log) ∧
    let s := state a in
    schedule s = Ok (s, []) ∧
    ∀ id w, waiters s !! id = Some w → granted w = false → fits s w = true →
      ∃ ch, channels s !! waiter_channel w = Some ch ∧
        (available ch = 0 ∨ (id ∉ ready s ∧ len (channel_ready ch) = READY_WINDOW) ∨
         ∃ b, b ∈ ready s ∧ b < id ∧ exhausted s b).
Proof.
  intros Hbl Hcl Hops. destruct (history_ok bl cl pl ops Hbl Hcl Hops) as (a & log & Hr & Ha & _).
  exists a, log. split; [done|]. destruct Ha as [Hs Hst _ _ _ _]. cbv zeta. split; [by apply schedule_stable|].
  intros id w Hw Hg Hfit. destruct (lk_channel _ _ _ (so_linked _ Hs) id w Hw) as [ch Hc]. exists ch. split; [done|].
  destruct (decide (id ∈ ready (state a))) as [Hid|Hid].
  { right. right. apply Hst; [done|]. unfold id_fits. by rewrite Hw. }
  destruct (so_full _ Hs _ ch Hc) as (Hav & _ & Hwin). destruct (available ch =? 0) eqn:E; [left; lia|].
  right. left. split; [done|]. apply (window_full (waiters (state a)) (waiter_channel w) ch id); [by apply Hs|done|by exists w|].
  intros Hin. apply Hid, (lk_exposed _ _ _ (so_linked _ Hs)). eauto.
Qed.

(** C15: overtaking is bounded: in no history is a waiter passed over more than
    [MAXIMUM_BYPASSES] times, over all the rounds of the scheduler since it registered, and
    while it waits its counter is exactly that number: it never saturates. *)
Theorem bypass_bounded bl cl pl ops :
  limit_ok bl → limit_ok cl → Forall (op_ok bl cl) ops →
  ∃ a log, run (new_admission bl cl pl) ops = Ok (a, log) ∧
    ∀ id, times_passed id log ≤ MAXIMUM_BYPASSES ∧
          ∀ w, waiters (state a) !! id = Some w → bypasses w = times_passed id log.
Proof.
  intros Hbl Hcl Hops. destruct (history_ok bl cl pl ops Hbl Hcl Hops) as (a & log & Hr & Ha & _).
  exists a, log. split; [done|]. intros id. pose proof (ao_trace _ _ Ha id) as Ht.
  destruct (waiters (state a) !! id) as [w|] eqn:Hw; [|by split; [apply Ht|]].
  split; [|by intros w' [= <-]]. rewrite Ht. by apply (so_waiters _ (ao_state _ _ Ha) id w).
Qed.

Section samples.
(** A large message waits while a smaller one of another sender passes it. *)
Definition bypass_ops : list Op :=
  [OpChannel 1 3; OpTryAcquire 1 8 1; OpRegister 1 7 0; OpRegister 1 2 1; OpWake 2].
Example bypass_sample :
  match run (new_admission 10 4 8) bypass_ops with
  | Ok (a, rounds) => rounds = [(2, [1])] ∧ len (permits a) = 2 ∧ ready (state a) = [1]
  | _ => False
  end.
Proof. vm_compute. done. Qed.

Lemma bypass_ops_ok : Forall (op_ok 10 4) bypass_ops.
Proof. repeat constructor; cbn; unfold usize_max, u64_max; lia. Qed.
Lemma small_limit n : 0 ≤ n ≤ 10 → limit_ok n.
Proof. unfold limit_ok, usize_max, u64_max. lia. Qed.
End samples.

Lemma admission_conserves_budget_witness :
  ∃ a log, run (new_admission 10 4 8) bypass_ops = Ok (a, log) ∧
           available_bytes (state a) + wsum (held waiter_bytes) (waiters (state a))
             + zsum (permit_bytes <$> permits a) = 10.
Proof.
  destruct (admission_conserves_budget 10 4 8 bypass_ops) as (a & log & Hr & Hb & _);
    [apply small_limit; lia|apply small_limit; lia|apply bypass_ops_ok|]. exists a, log. exact (conj Hr Hb).
Defined.

Lemma no_lost_wakeup_witness :
  ∃ a log, run (new_admission 10 4 8) bypass_ops = Ok (a, log) ∧ schedule (state a) = Ok (state a, []).
Proof.
  destruct (no_lost_wakeup 10 4 8 bypass_ops) as (a & log & Hr & Hs & _);
    [apply small_limit; lia|apply small_limit; lia|apply bypass_ops_ok|]. exists a, log. exact (conj Hr Hs).
Defined.

Lemma bypass_bounded_witness :
  ∃ a log, run (new_admission 10 4 8) bypass_ops = Ok (a, log) ∧ times_passed 1 log ≤ MAXIMUM_BYPASSES.
Proof.
  destruct (bypass_bounded 10 4 8 bypass_ops) as (a & log & Hr & Hb);
    [apply small_limit; lia|apply small_limit; lia|apply bypass_ops_ok|]. exists a, log.
  exact (conj Hr (proj1 (Hb 1))).
Defined.
