(* ===== verification/MessageAdmissionProgress.v ===== *)
(** * Every send is served

    Once nobody cancels and the owners claim what they are granted and give their permits
    back, every waiter is granted, in whatever order the owners act. *)

From S2P Require Import Prelude SortedSet MessageAdmission MessageAdmissionRules MessageAdmissionSafety MessageAdmissionHistory.

(** What an owner does next: a granted sender takes its permit, or a permit is dropped. *)
Inductive owner_step (a : Admission) : Op → Admission → Prop :=
| owner_claims id w rounds a' :
    waiters (state a) !! id = Some w → granted w = true →
    do_op a (OpWake id) = Ok (a', rounds) → owner_step a (OpWake id) a'
| owner_releases n p rounds a' :
    permits a !! n = Some p → do_op a (OpRelease n) = Ok (a', rounds) → owner_step a (OpRelease n) a'.

Inductive owners : Admission → list Op → Admission → Prop :=
| owners_rest a : owners a [] a
| owners_act a op a1 ops a2 : owner_step a op a1 → owners a1 ops a2 → owners a (op :: ops) a2.

(** A waiter has two steps before it, a permit one. *)
Definition outstanding (a : Admission) : nat := 2 * size (waiters (state a)) + length (permits a).

Lemma owner_step_spec a log op a' :
  admission_ok a log → owner_step a op a' →
  ∃ log', admission_ok a' log' ∧ outstanding a = S (outstanding a') ∧ same_limits a a'.
Proof.
  intros Ha Hstep. destruct Hstep as [id w rounds a' Hw Hg Hop|n p rounds a' Hp Hop];
    pose proof (do_op_limits _ _ _ _ Hop) as Hlim; cbn [do_op] in Hop.
  - rewrite Hw, Hg in Hop. injection Hop as <- _. exists log. split; [by apply claim_kept|]. split; [|done].
    pose proof (forget_size (state a) id w Hw) as Hsz. unfold outstanding. cbn [claim set_state state permits].
    rewrite length_app. cbn [length]. lia.
  - rewrite Hp in Hop. destruct (release_kept a log Ha n p Hp) as (a1 & r & He & Ha1 & Hl & Hsz).
    rewrite He in Hop. injection Hop as <- _. exists (log ++ r). split; [done|]. split; [|done].
    unfold outstanding. rewrite Hsz, Hl, length_delete by done. apply lookup_lt_Some in Hp. lia.
Qed.

(** ** Somebody can always act *)

(** With all the budget available, everything fits. *)
Lemma idle_fits a log :
  admission_ok a log → permits a = [] → (∀ id w, waiters (state a) !! id = Some w → granted w = false) →
  available_bytes (state a) = byte_limit a ∧ available_capabilities (state a) = capability_limit a ∧
  (∀ c ch, channels (state a) !! c = Some ch → available ch = capacity ch) ∧
  ∀ id w, waiters (state a) !! id = Some w → fits (state a) w = true.
Proof.
  intros [Hs _ Hl _ _ _] Hp Hg. rewrite Hp in Hl. destruct Hl as [_ Hb Hk Hsl _ _ Hsmall].
  assert (Hz : ∀ f, wsum (held f) (waiters (state a)) = 0).
  { intros f. apply wsum_zero. intros id w Hw. unfold held. by rewrite (Hg id w Hw). }
  unfold total_bytes, total_capabilities in *. rewrite Hz in *. cbn [fmap list_fmap] in *. rewrite zsum_nil in *.
  split; [lia|]. split; [lia|]. split.
  - intros c ch Hc. specialize (Hsl c ch Hc). unfold total_slots in Hsl. rewrite Hc, Hz in Hsl. lia.
  - intros id w Hw. destruct (Hsmall id w Hw). unfold fits. apply andb_true_iff. split; apply Z.leb_le; lia.
Qed.

(** Nobody waits when nobody holds anything. *)
Lemma idle_empty a log :
  admission_ok a log → permits a = [] → (∀ id w, waiters (state a) !! id = Some w → granted w = false) →
  waiters (state a) = ∅.
Proof.
  intros Ha Hp Hg. destruct (idle_fits a log Ha Hp Hg) as (_ & _ & Hfree & Hfit). destruct Ha as [Hs Hst _ _ _ _].
  apply map_empty. intros id. destruct (waiters (state a) !! id) as [w|] eqn:Hw; [|done]. exfalso.
  destruct (lk_channel _ _ _ (so_linked _ Hs) id w Hw) as [ch Hc].
  destruct (so_full _ Hs _ ch Hc) as (_ & Hcap & Hwin). rewrite (Hfree _ ch Hc) in Hwin.
  rewrite (proj2 (Z.eqb_neq (capacity ch) 0)) in Hwin by lia.
  assert (Hpend : id ∈ pending ch).
  { apply (q_waiters _ _ _ (lk_queues _ _ _ (so_linked _ Hs) _ ch Hc)). exists w. split_and!; try done. by apply (Hg id). }
  destruct (channel_ready ch) as [|r rest] eqn:Er.
  { destruct (pending ch); [by apply not_elem_of_nil in Hpend|]. cbn in Hwin. lia. }
  assert (Hr : r ∈ ready (state a)).
  { apply (lk_exposed _ _ _ (so_linked _ Hs)). exists (waiter_channel w), ch. rewrite Er. split; [done|by left]. }
  destruct (ready_known _ r Hs Hr) as [wr Hwr].
  destruct (Hst r Hr) as (b & _ & _ & wb & Hwb & Hnf & _).
  - unfold id_fits. rewrite Hwr. by apply (Hfit r).
  - rewrite (Hfit b wb Hwb) in Hnf. done.
Qed.

Lemma owner_progress a log :
  admission_ok a log → outstanding a ≠ 0%nat → ∃ op a', owner_step a op a'.
Proof.
  intros Ha Hn. destruct (permits a) as [|p l] eqn:Hp.
  - destruct (decide (Exists (λ e : Z * Waiter, granted e.2 = true) (map_to_list (waiters (state a))))) as [He|He].
    + apply Exists_exists in He as ([id w] & Hw%elem_of_map_to_list & Hg). cbn in Hg.
      exists (OpWake id). eexists. eapply owner_claims; [done|done|]. cbn [do_op]. by rewrite Hw, Hg.
    + assert (Hw : waiters (state a) = ∅).
      { apply (idle_empty a log Ha Hp). intros id w Hw. destruct (granted w) eqn:Hg; [|done].
        destruct He. apply Exists_exists. exists (id, w). by rewrite elem_of_map_to_list. }
      unfold outstanding in Hn. rewrite Hw, Hp in Hn. by rewrite map_size_empty in Hn.
  - assert (Hp0 : permits a !! 0%nat = Some p) by by rewrite Hp.
    destruct (release_kept a log Ha 0 p Hp0) as (a' & r & Hr & _). exists (OpRelease 0), a'.
    eapply owner_releases; [done|]. cbn [do_op]. rewrite Hp0. exact Hr.
Qed.

Lemma owners_spec a ops a' :
  owners a ops a' → ∀ log, admission_ok a log →
  ∃ log', admission_ok a' log' ∧ outstanding a = (length ops + outstanding a')%nat ∧ same_limits a a'.
Proof.
  induction 1 as [a|a op a1 ops a2 Hstep _ IH]; intros log Ha; [by exists log|].
  destruct (owner_step_spec a log op a1 Ha Hstep) as (l1 & Ha1 & Hn1 & Hb1 & Hk1).
  destruct (IH l1 Ha1) as (l2 & Ha2 & Hn2 & Hb2 & Hk2). exists l2. split; [done|]. cbn [length].
  split; [lia|]. split; congruence.
Qed.

Lemma owners_finish n : ∀ a log,
  admission_ok a log → outstanding a = n → ∃ ops a', owners a ops a' ∧ outstanding a' = 0%nat.
Proof.
  induction n as [|n IH]; intros a log Ha Hn; [by exists [], a; split; [constructor|]|].
  destruct (owner_progress a log Ha) as (op & a1 & Hstep); [lia|].
  destruct (owner_step_spec a log op a1 Ha Hstep) as (l1 & Ha1 & Hn1 & _).
  destruct (IH a1 l1 Ha1) as (ops & a2 & Hops & H2); [lia|]. exists (op :: ops), a2. by split; [econstructor|].
Qed.

(** C13: every send is served: from any state a history reaches, in whatever order the granted
    senders claim and the permits are dropped, the owners can go on, they stop after exactly
    two steps for every waiter and one for every permit, and then nobody waits, no permit is
    out and the whole budget and every slot are available again. *)
Theorem every_send_served bl cl pl ops a log acts a1 :
  limit_ok bl → limit_ok cl → Forall (op_ok bl cl) ops →
  run (new_admission bl cl pl) ops = Ok (a, log) → owners a acts a1 →
  ∃ more a2, owners a1 more a2 ∧ (length acts + length more)%nat = outstanding a ∧
    waiters (state a2) = ∅ ∧ permits a2 = [] ∧
    available_bytes (state a2) = bl ∧ available_capabilities (state a2) = cl ∧
    ∀ c ch, channels (state a2) !! c = Some ch → available ch = capacity ch.
Proof.
  intros Hbl Hcl Hops Hrun Hacts. destruct (history_ok bl cl pl ops Hbl Hcl Hops) as (a' & log' & Hr & Ha & Hb & Hk).
  rewrite Hrun in Hr. injection Hr as <- <-. destruct (owners_spec _ _ _ Hacts _ Ha) as (l1 & Ha1 & Hn1 & Hb1 & Hk1).
  destruct (owners_finish _ a1 l1 Ha1 eq_refl) as (more & a2 & Hmore & H2). exists more, a2. split; [done|].
  destruct (owners_spec _ _ _ Hmore _ Ha1) as (l2 & Ha2 & Hn2 & Hb2 & Hk2). split; [lia|].
  unfold outstanding in H2. assert (Hp : permits a2 = []) by (destruct (permits a2); [done|cbn in H2; lia]).
  assert (Hw : waiters (state a2) = ∅) by (apply map_size_empty_inv; lia).
  destruct (idle_fits a2 l2 Ha2 Hp) as (Hab & Hak & Hfree & _); [by rewrite Hw|].
  split_and!; [done|done|congruence|congruence|done].
Qed.

Lemma every_send_served_witness :
  ∃ a log more a2, run (new_admission 10 4 8) bypass_ops = Ok (a, log) ∧ owners a more a2 ∧
    outstanding a = 4%nat ∧ length more = 4%nat ∧ waiters (state a2) = ∅ ∧ available_bytes (state a2) = 10.
Proof.
  destruct (history_ok 10 4 8 bypass_ops) as (a & log & Hr & _);
    [apply small_limit; lia|apply small_limit; lia|apply bypass_ops_ok|].
  assert (Hn : outstanding a = 4%nat).
  { assert (He : (λ o, match o with Ok (b, _) => outstanding b | _ => 0%nat end)
                   (run (new_admission 10 4 8) bypass_ops) = 4%nat) by (vm_compute; reflexivity).
    rewrite Hr in He. exact He. }
  destruct (every_send_served 10 4 8 bypass_ops a log [] a) as (more & a2 & Hm & Hl & Hw & _ & Hb & _);
    [apply small_limit; lia|apply small_limit; lia|apply bypass_ops_ok|done|constructor|].
  exists a, log, more, a2. cbn [length plus] in Hl. rewrite Hn in Hl.
  exact (conj Hr (conj Hm (conj Hn (conj Hl (conj Hw Hb))))).
Defined.
