(* ===== verification/HostLedger.v ===== *)
(** * Ledgers of the native plug-in loader

    [crates/rsi-meta/native-loader/src/catalog_resources.rs]: the counters of host
    capabilities and outputs, shared by every table of a catalog, and the ledger of the
    artifact cache and of private staging files.  A reservation gives back what it holds
    when it is dropped.  Each operation on an atomic is one step. *)

From S2P Require Import Prelude.

Inductive LoaderError := InvalidInput (why : string) | CapacityExhausted (resource : string) (limit : Z).

Definition wrapping_add (w a b : Z) : Z := (a + b) mod (w + 1).
Definition wrapping_sub (w a b : Z) : Z := (a - b) mod (w + 1).

(** ** Counters *)

(** [current], [peak] and [rejected] atomics of one resource. *)
Record Counter := { current : Z; peak : Z; rejected : Z }.
Definition counter_new : Counter := {| current := 0; peak := 0; rejected := 0 |}.
Definition set_current (c : Counter) (n : Z) : Counter :=
  {| current := n; peak := peak c; rejected := rejected c |}.

(** [reserve_usize] is [reserve] of 1 at [usize], [reserve_u64] at [u64]. *)
Definition reserve (w : Z) (c : Counter) (limit amount : Z) : Counter * bool :=
  match checked_add w (current c) amount with
  | Some next =>
      if next <=? limit
      then ({| current := next; peak := Z.max (peak c) next; rejected := rejected c |}, true)
      else ({| current := current c; peak := peak c; rejected := wrapping_add u64_max (rejected c) 1 |}, false)
  | None => ({| current := current c; peak := peak c; rejected := wrapping_add u64_max (rejected c) 1 |}, false)
  end.
Definition reserve_usize (c : Counter) (limit : Z) (resource : string) : Counter * outcome LoaderError unit :=
  let '(c, done) := reserve usize_max c limit 1 in
  (c, if done then Ok () else Err (CapacityExhausted resource (Z.min limit u64_max))).
Definition reserve_u64 (c : Counter) (limit amount : Z) : Counter * bool := reserve u64_max c limit amount.

(** [fetch_sub] *)
Definition give_back (w : Z) (c : Counter) (amount : Z) : Counter :=
  set_current c (wrapping_sub w (current c) amount).

(** ** [HostResourceLedger] *)
Record NativeCatalogLimits := {
  maximum_cache_bytes : Z;
  maximum_cache_artifacts : Z;
  maximum_staging_bytes : Z;
  maximum_host_capabilities : Z;
  maximum_host_outputs : Z;
  maximum_host_output_bytes : Z
}.

Record HostResourceLedger := {
  limits : NativeCatalogLimits;
  capabilities : Counter;
  outputs : Counter;
  output_bytes : Counter;
  retained_failed_finalizations : Z
}.

Definition host_ledger_new (limits : NativeCatalogLimits) : HostResourceLedger :=
  {| limits := limits; capabilities := counter_new; outputs := counter_new; output_bytes := counter_new;
     retained_failed_finalizations := 0 |}.

Definition set_capabilities (l : HostResourceLedger) (c : Counter) : HostResourceLedger :=
  {| limits := limits l; capabilities := c; outputs := outputs l; output_bytes := output_bytes l;
     retained_failed_finalizations := retained_failed_finalizations l |}.
Definition set_outputs (l : HostResourceLedger) (c b : Counter) : HostResourceLedger :=
  {| limits := limits l; capabilities := capabilities l; outputs := c; output_bytes := b;
     retained_failed_finalizations := retained_failed_finalizations l |}.

Definition reserve_capability (l : HostResourceLedger) : HostResourceLedger * outcome LoaderError unit :=
  let '(c, r) := reserve_usize (capabilities l) (maximum_host_capabilities (limits l)) "host capabilities" in
  (set_capabilities l c, r).

(** The drop of a [HostCapabilityReservation]. *)
Definition drop_capability (l : HostResourceLedger) : HostResourceLedger :=
  set_capabilities l (give_back usize_max (capabilities l) 1).

Definition reserve_output (l : HostResourceLedger) (bytes : Z) : HostResourceLedger * outcome LoaderError unit :=
  let '(c, r) := reserve_usize (outputs l) (maximum_host_outputs (limits l)) "host outputs" in
  match r with
  | Ok _ =>
      let '(b, done) := reserve_u64 (output_bytes l) (maximum_host_output_bytes (limits l)) bytes in
      if done then (set_outputs l c b, Ok ())
      else (set_outputs l (give_back usize_max c 1) b,
            Err (CapacityExhausted "host output bytes" (maximum_host_output_bytes (limits l))))
  | Err e => (set_outputs l c (output_bytes l), Err e)
  | Panic => (set_outputs l c (output_bytes l), Panic)
  end.

(** The drop of a [HostOutputReservation]. *)
Definition drop_output (l : HostResourceLedger) (bytes : Z) : HostResourceLedger :=
  set_outputs l (give_back usize_max (outputs l) 1) (give_back u64_max (output_bytes l) bytes).

Definition retain_failed_finalization (l : HostResourceLedger) : HostResourceLedger :=
  {| limits := limits l; capabilities := capabilities l; outputs := outputs l; output_bytes := output_bytes l;
     retained_failed_finalizations := saturating_add usize_max (retained_failed_finalizations l) 1 |}.
Definition has_retained_failed_finalization (l : HostResourceLedger) : bool :=
  negb (retained_failed_finalizations l =? 0).

(** ** [CatalogLedger] *)
Definition Digest : Type := list Z.

Record CatalogLedger := {
  catalog_limits : NativeCatalogLimits;
  cache_entries : gmap Digest Z;
  cache_bytes : Z;
  peak_cache_bytes : Z;
  peak_cache_artifacts : Z;
  staging_bytes : Z;
  peak_staging_bytes : Z;
  rejected_cache_admissions : Z;
  rejected_staging_admissions : Z
}.

Definition artifacts (m : gmap Digest Z) : Z := Z.of_nat (size m).
Definition entry_bytes (m : gmap Digest Z) : Z := zsum (snd <$> map_to_list m).

(** [CatalogLedger::new]: what the disk scan found; its sum is a plain addition. *)
Definition catalog_ledger_new (limits : NativeCatalogLimits) (entries : gmap Digest Z) : option CatalogLedger :=
  if u64_max <? entry_bytes entries then None else
  Some {| catalog_limits := limits; cache_entries := entries; cache_bytes := entry_bytes entries;
          peak_cache_bytes := entry_bytes entries; peak_cache_artifacts := artifacts entries;
          staging_bytes := 0; peak_staging_bytes := 0; rejected_cache_admissions := 0;
          rejected_staging_admissions := 0 |}.

Definition set_cache (l : CatalogLedger) (m : gmap Digest Z) (bytes : Z) : CatalogLedger :=
  {| catalog_limits := catalog_limits l; cache_entries := m; cache_bytes := bytes;
     peak_cache_bytes := peak_cache_bytes l; peak_cache_artifacts := peak_cache_artifacts l;
     staging_bytes := staging_bytes l; peak_staging_bytes := peak_staging_bytes l;
     rejected_cache_admissions := rejected_cache_admissions l;
     rejected_staging_admissions := rejected_staging_admissions l |}.
Definition raise_peaks (l : CatalogLedger) (bytes artifacts : Z) : CatalogLedger :=
  {| catalog_limits := catalog_limits l; cache_entries := cache_entries l; cache_bytes := cache_bytes l;
     peak_cache_bytes := Z.max (peak_cache_bytes l) bytes;
     peak_cache_artifacts := Z.max (peak_cache_artifacts l) artifacts;
     staging_bytes := staging_bytes l; peak_staging_bytes := peak_staging_bytes l;
     rejected_cache_admissions := rejected_cache_admissions l;
     rejected_staging_admissions := rejected_staging_admissions l |}.
Definition set_staging (l : CatalogLedger) (bytes peak : Z) : CatalogLedger :=
  {| catalog_limits := catalog_limits l; cache_entries := cache_entries l; cache_bytes := cache_bytes l;
     peak_cache_bytes := peak_cache_bytes l; peak_cache_artifacts := peak_cache_artifacts l;
     staging_bytes := bytes; peak_staging_bytes := peak;
     rejected_cache_admissions := rejected_cache_admissions l;
     rejected_staging_admissions := rejected_staging_admissions l |}.
Definition count_rejections (l : CatalogLedger) (cache staging : Z) : CatalogLedger :=
  {| catalog_limits := catalog_limits l; cache_entries := cache_entries l; cache_bytes := cache_bytes l;
     peak_cache_bytes := peak_cache_bytes l; peak_cache_artifacts := peak_cache_artifacts l;
     staging_bytes := staging_bytes l; peak_staging_bytes := peak_staging_bytes l;
     rejected_cache_admissions := wrapping_add u64_max (rejected_cache_admissions l) cache;
     rejected_staging_admissions := wrapping_add u64_max (rejected_staging_admissions l) staging |}.

Definition reserve_cache (l : CatalogLedger) (digest : Digest) (bytes : Z) : CatalogLedger * outcome LoaderError unit :=
  match cache_entries l !! digest with
  | Some _ => (l, Err (InvalidInput "durable cache changed while its catalog lock was held"))
  | None =>
      let next_artifacts := saturating_add usize_max (artifacts (cache_entries l)) 1 in
      let limit := maximum_cache_artifacts (catalog_limits l) in
      if limit <? next_artifacts
      then (count_rejections l 1 0, Err (CapacityExhausted "cache artifacts" (Z.min limit u64_max))) else
      let limit := maximum_cache_bytes (catalog_limits l) in
      match checked_add u64_max (cache_bytes l) bytes with
      | None => (count_rejections l 1 0, Err (CapacityExhausted "cache bytes" limit))
      | Some next_bytes =>
          if limit <? next_bytes
          then (count_rejections l 1 0, Err (CapacityExhausted "cache bytes" limit))
          else (raise_peaks (set_cache l (<[digest := bytes]> (cache_entries l)) next_bytes)
                  next_bytes next_artifacts, Ok ())
      end
  end.

(** The drop of a [CacheReservation] that was not committed. *)
Definition drop_cache (l : CatalogLedger) (digest : Digest) (bytes : Z) : outcome LoaderError CatalogLedger :=
  match cache_entries l !! digest with
  | None => Panic
  | Some removed =>
      if negb (removed =? bytes) then Panic else
      match checked_sub (cache_bytes l) bytes with
      | Some total => Ok (set_cache l (delete digest (cache_entries l)) total)
      | None => Panic
      end
  end.

(** [StagingReservation]: [held] is what it holds. *)
Definition grow_to (l : CatalogLedger) (held bytes : Z) : CatalogLedger * outcome LoaderError Z :=
  match checked_sub bytes held with
  | None => (l, Err (InvalidInput "staging reservation cannot shrink"))
  | Some additional =>
      let limit := maximum_staging_bytes (catalog_limits l) in
      match checked_add u64_max (staging_bytes l) additional with
      | None => (count_rejections l 0 1, Err (CapacityExhausted "staging bytes" limit))
      | Some total =>
          if limit <? total then (count_rejections l 0 1, Err (CapacityExhausted "staging bytes" limit))
          else (set_staging l total (Z.max (peak_staging_bytes l) total), Ok bytes)
      end
  end.
Definition shrink_to (l : CatalogLedger) (held bytes : Z) : outcome LoaderError (CatalogLedger * Z) :=
  match checked_sub held bytes with
  | None => Panic
  | Some released =>
      match checked_sub (staging_bytes l) released with
      | Some total => Ok (set_staging l total (peak_staging_bytes l), bytes)
      | None => Panic
      end
  end.
(** The drop of a [StagingReservation]. *)
Definition drop_staging (l : CatalogLedger) (held : Z) : outcome LoaderError CatalogLedger :=
  match checked_sub (staging_bytes l) held with
  | Some total => Ok (set_staging l total (peak_staging_bytes l))
  | None => Panic
  end.
