(* ===== verification/CatalogHistory.v ===== *)
(** * Histories of the catalog ledger

    Reservations of cache entries and of staging files come and go; the ledger is exactly the
    sum of what is committed and what is held, never above its limits. *)

From S2P Require Import Prelude HostLedger.

(** The ledger with the reservations that are held: new cache entries and staging files. *)
Record Catalog := { ledger : CatalogLedger; held_entries : list (Digest * Z); held_files : list Z }.

Inductive CatalogOp :=
| ReserveCache (digest : Digest) (bytes : Z)
| CommitCache (n : nat)
| DropCache (n : nat)
| ReserveStaging
| GrowTo (n : nat) (bytes : Z)
| ShrinkTo (n : nat) (bytes : Z)
| DropStaging (n : nat).

Definition set_files (c : Catalog) (l : CatalogLedger) (files : list Z) : Catalog :=
  {| ledger := l; held_entries := held_entries c; held_files := files |}.
Definition set_entries (c : Catalog) (l : CatalogLedger) (entries : list (Digest * Z)) : Catalog :=
  {| ledger := l; held_entries := entries; held_files := held_files c |}.

(** One call on a reservation that is held; [None] is a panic.  A file is only shrunk to less
    than it holds. *)
Definition catalog_op (c : Catalog) (op : CatalogOp) : option Catalog :=
  let l := ledger c in
  match op with
  | ReserveCache digest bytes =>
      match reserve_cache l digest bytes with
      | (l, Ok _) => Some (set_entries c l (held_entries c ++ [(digest, bytes)]))
      | (l, Err _) => Some (set_entries c l (held_entries c))
      | (_, Panic) => None
      end
  | CommitCache n => Some (set_entries c l (delete n (held_entries c)))
  | DropCache n =>
      match held_entries c !! n with
      | None => Some c
      | Some (digest, bytes) =>
          match drop_cache l digest bytes with
          | Ok l => Some (set_entries c l (delete n (held_entries c)))
          | _ => None
          end
      end
  | ReserveStaging => Some (set_files c l (held_files c ++ [0]))
  | GrowTo n bytes =>
      match held_files c !! n with
      | None => Some c
      | Some held =>
          match grow_to l held bytes with
          | (l, Ok held) => Some (set_files c l (<[n := held]> (held_files c)))
          | (l, Err _) => Some (set_files c l (held_files c))
          | (_, Panic) => None
          end
      end
  | ShrinkTo n bytes =>
      match held_files c !! n with
      | None => Some c
      | Some held =>
          if held <? bytes then Some c else
          match shrink_to l held bytes with
          | Ok (l, held) => Some (set_files c l (<[n := held]> (held_files c)))
          | _ => None
          end
      end
  | DropStaging n =>
      match held_files c !! n with
      | None => Some c
      | Some held =>
          match drop_staging l held with
          | Ok l => Some (set_files c l (delete n (held_files c)))
          | _ => None
          end
      end
  end.

Fixpoint catalog_run (c : Catalog) (ops : list CatalogOp) : option Catalog :=
  match ops with
  | [] => Some c
  | op :: ops => match catalog_op c op with Some c => catalog_run c ops | None => None end
  end.

(** ** Sums over the entries *)
Lemma entry_bytes_insert m d b : m !! d = None → entry_bytes (<[d := b]> m) = b + entry_bytes m.
Proof. intros H. unfold entry_bytes. by rewrite (map_to_list_insert _ _ _ H), fmap_cons, zsum_cons. Qed.

Lemma entry_bytes_delete m d b : m !! d = Some b → entry_bytes m = b + entry_bytes (delete d m).
Proof. intros H. unfold entry_bytes. by rewrite <-(map_to_list_delete _ _ _ H), fmap_cons, zsum_cons. Qed.

Lemma entry_bytes_nonneg m : map_Forall (λ _ b, 0 ≤ b) m → 0 ≤ entry_bytes m.
Proof.
  intros H. apply zsum_nonneg, Forall_fmap, Forall_forall. intros [d b] Hin. apply elem_of_map_to_list in Hin.
  exact (H d b Hin).
Qed.

Lemma zsum_delete (l : list Z) n x : l !! n = Some x → zsum (delete n l) = zsum l - x.
Proof. intros H. rewrite (delete_Permutation l n x H) at 2. rewrite zsum_cons. lia. Qed.

(** ** The invariant *)

(** [bytes0] and [artifacts0] are what the scan of the cache found. *)
Record catalog_ok (bytes0 artifacts0 : Z) (c : Catalog) : Prop := {
  ct_bytes : cache_bytes (ledger c) = entry_bytes (cache_entries (ledger c));
  ct_entries : map_Forall (λ _ b, 0 ≤ b) (cache_entries (ledger c));
  ct_held : Forall (λ e, cache_entries (ledger c) !! e.1 = Some e.2) (held_entries c);
  ct_unique : NoDup (held_entries c).*1;
  ct_limit : cache_bytes (ledger c) ≤ Z.max bytes0 (maximum_cache_bytes (catalog_limits (ledger c)));
  ct_artifacts : artifacts (cache_entries (ledger c)) ≤
                 Z.max artifacts0 (maximum_cache_artifacts (catalog_limits (ledger c)));
  ct_staging : staging_bytes (ledger c) = zsum (held_files c);
  ct_files : Forall (λ b, 0 ≤ b) (held_files c);
  ct_staging_limit : staging_bytes (ledger c) ≤ maximum_staging_bytes (catalog_limits (ledger c));
  ct_max : maximum_cache_artifacts (catalog_limits (ledger c)) < usize_max;
  ct_peaks : cache_bytes (ledger c) ≤ peak_cache_bytes (ledger c) ∧
             artifacts (cache_entries (ledger c)) ≤ peak_cache_artifacts (ledger c) ∧
             staging_bytes (ledger c) ≤ peak_staging_bytes (ledger c)
}.

Definition catalog_op_ok (op : CatalogOp) : Prop :=
  match op with ReserveCache _ bytes | GrowTo _ bytes | ShrinkTo _ bytes => 0 ≤ bytes | _ => True end.

Section steps.
Context (b0 a0 : Z) (c : Catalog) (Hc : catalog_ok b0 a0 c).
Let l := ledger c.

Lemma counted_ok n k : catalog_ok b0 a0 (set_entries c (count_rejections l n k) (held_entries c)).
Proof. destruct Hc. by constructor. Qed.

Lemma reserve_cache_ok digest bytes :
  0 ≤ bytes → ∃ c', catalog_op c (ReserveCache digest bytes) = Some c' ∧ catalog_ok b0 a0 c'.
Proof.
  intros Hb. cbn [catalog_op]. fold l. unfold reserve_cache.
  destruct (cache_entries l !! digest) as [x|] eqn:Ed; [eexists; split; [done|]; destruct Hc; by constructor|].
  destruct (_ <? saturating_add _ _ _) eqn:Ea; [eexists; split; [done|apply counted_ok]|].
  destruct (checked_add u64_max (cache_bytes l) bytes) as [n|] eqn:En; [|eexists; split; [done|apply counted_ok]].
  destruct (_ <? n) eqn:El; [eexists; split; [done|apply counted_ok]|]. apply checked_add_Some in En as [-> _].
  eexists. split; [done|]. destruct Hc as [H1 H2 H3 H4 H5 H6 H7 H8 H9 Hmax (P1 & P2 & P3)].
  fold l in H1, H2, H3, H5, H6, H7, H9, Hmax, P1, P2, P3.
  assert (Hsize : artifacts (<[digest := bytes]> (cache_entries l)) = artifacts (cache_entries l) + 1).
  { unfold artifacts. rewrite map_size_insert_None by done. lia. }
  assert (Hn : digest ∉ (held_entries c).*1).
  { intros ([d x] & -> & Hin)%list_elem_of_fmap. rewrite Forall_forall in H3. specialize (H3 _ Hin). simpl in *. congruence. }
  unfold saturating_add in Ea.
  constructor; cbn [ledger held_entries held_files set_entries raise_peaks set_cache cache_bytes cache_entries
    catalog_limits staging_bytes peak_cache_bytes peak_cache_artifacts peak_staging_bytes]; try done.
  - rewrite entry_bytes_insert by done. lia.
  - by apply map_Forall_insert_2.
  - apply Forall_app. split; [|constructor; [by rewrite lookup_insert_eq|done]].
    apply Forall_forall. intros [d x] Hin. rewrite Forall_forall in H3. specialize (H3 _ Hin). simpl in *.
    rewrite lookup_insert_ne; [done|]. intros ->. congruence.
  - rewrite fmap_app. apply NoDup_app. split; [done|]. split; [|by apply NoDup_singleton].
    intros d Hd [->|[]%not_elem_of_nil]%elem_of_cons. done.
  - lia.
  - rewrite Hsize. lia.
  - unfold saturating_add. lia.
Qed.

Lemma drop_cache_ok n : ∃ c', catalog_op c (DropCache n) = Some c' ∧ catalog_ok b0 a0 c'.
Proof.
  cbn [catalog_op]. fold l. destruct (held_entries c !! n) as [[d b]|] eqn:Hn; [|by exists c].
  destruct Hc as [H1 H2 H3 H4 H5 H6 H7 H8 H9 Hmax (P1 & P2 & P3)].
  fold l in H1, H2, H3, H5, H6, H7, H9, Hmax, P1, P2, P3.
  pose proof (delete_Permutation _ _ _ Hn) as Hp. rewrite Hp in H3, H4. apply Forall_cons in H3 as [Hd H3].
  apply NoDup_cons in H4 as [Hnot H4]. cbn [fst snd] in Hd, Hnot. unfold drop_cache. rewrite Hd, Z.eqb_refl. cbn [negb].
  pose proof (entry_bytes_delete _ _ _ Hd) as He.
  assert (H2' : map_Forall (λ _ b, 0 ≤ b) (delete d (cache_entries l))) by by apply map_Forall_delete.
  pose proof (entry_bytes_nonneg _ H2') as Hnn. rewrite checked_sub_fits by lia. eexists. split; [done|].
  assert (Hsize : artifacts (delete d (cache_entries l)) ≤ artifacts (cache_entries l)).
  { unfold artifacts. rewrite map_size_delete, Hd. lia. }
  pose proof (H2 d b Hd) as Hb. cbn beta in Hb.
  constructor; cbn [ledger held_entries held_files set_entries set_cache cache_bytes cache_entries
    catalog_limits staging_bytes peak_cache_bytes peak_cache_artifacts peak_staging_bytes]; try done; try lia.
  apply Forall_forall. intros [d' b'] Hin. rewrite Forall_forall in H3. specialize (H3 _ Hin). simpl in *.
  rewrite lookup_delete_ne; [done|]. intros ->. apply Hnot. by apply (list_elem_of_fmap_2 fst _ (d', b')).
Qed.

Lemma commit_cache_ok n : ∃ c', catalog_op c (CommitCache n) = Some c' ∧ catalog_ok b0 a0 c'.
Proof.
  eexists. split; [done|]. destruct (held_entries c !! n) as [e|] eqn:Hn.
  - destruct Hc as [H1 H2 H3 H4 H5 H6 H7 H8 H9 Hmax P]. pose proof (delete_Permutation _ _ _ Hn) as Hp.
    rewrite Hp in H3, H4. apply Forall_cons in H3 as [_ H3]. apply NoDup_cons in H4 as [_ H4]. by constructor.
  - apply lookup_ge_None_1 in Hn. rewrite delete_take_drop, take_ge, drop_ge, app_nil_r by lia.
    destruct Hc; by constructor.
Qed.

(** The files change and the ledger with them. *)
Lemma files_ok total peak files :
  total = zsum files → Forall (λ b, 0 ≤ b) files → total ≤ maximum_staging_bytes (catalog_limits l) → total ≤ peak →
  catalog_ok b0 a0 (set_files c (set_staging l total peak) files).
Proof.
  intros Ht Hf Hm Hp. destruct Hc as [H1 H2 H3 H4 H5 H6 H7 H8 H9 Hmax (P1 & P2 & P3)].
  by constructor.
Qed.

Lemma staging_ok op :
  match op with ReserveStaging | GrowTo _ _ | ShrinkTo _ _ | DropStaging _ => True | _ => False end →
  catalog_op_ok op → ∃ c', catalog_op c op = Some c' ∧ catalog_ok b0 a0 c'.
Proof.
  pose proof (ct_staging _ _ _ Hc) as Hs. pose proof (ct_files _ _ _ Hc) as Hf. pose proof (ct_staging_limit _ _ _ Hc) as Hm.
  pose proof (ct_peaks _ _ _ Hc) as (_ & _ & Hp). fold l in Hs, Hm, Hp.
  assert (Hin : ∀ n x, held_files c !! n = Some x → 0 ≤ x ≤ zsum (held_files c)).
  { intros n x Hn. rewrite (delete_Permutation _ _ _ Hn) in Hf |- *. apply Forall_cons in Hf as [Hx Hf].
    rewrite zsum_cons. pose proof (zsum_nonneg _ Hf). lia. }
  destruct op as [| | | |n bytes|n bytes|n]; intros Hop Hb; try done; cbn [catalog_op]; fold l.
  - eexists. split; [done|]. replace l with (set_staging l (staging_bytes l) (peak_staging_bytes l)) by by destruct l.
    apply files_ok; [rewrite zsum_app, zsum_cons, zsum_nil; lia|apply Forall_app; split; [done|by constructor]|done|done].
  - destruct (held_files c !! n) as [held|] eqn:Hn; [|by exists c]. unfold grow_to.
    assert (Hkeep : ∀ k, catalog_ok b0 a0 (set_files c (count_rejections l 0 k) (held_files c))) by (intros k; destruct Hc; by constructor).
    destruct (checked_sub bytes held) as [add|] eqn:E1; [|eexists; split; [done|destruct Hc; by constructor]].
    apply checked_sub_Some in E1 as [-> Hle].
    destruct (checked_add u64_max (staging_bytes l) (bytes - held)) as [total|] eqn:E2; [|by eexists].
    apply checked_add_Some in E2 as [-> _]. destruct (_ <? _) eqn:E3; [by eexists|]. eexists. split; [done|].
    pose proof (zsum_insert (λ x, x) (held_files c) n held bytes Hn) as Hz. rewrite !list_fmap_id in Hz.
    apply files_ok; [lia|by apply Forall_insert|lia|lia].
  - destruct (held_files c !! n) as [held|] eqn:Hn; [|by exists c]. destruct (held <? bytes) eqn:E0; [by exists c|].
    destruct (Hin n held Hn). unfold shrink_to. rewrite !checked_sub_fits by (rewrite ?checked_sub_fits; lia).
    cbn in Hb. rewrite checked_sub_fits by lia. eexists. split; [done|].
    pose proof (zsum_insert (λ x, x) (held_files c) n held bytes Hn) as Hz. rewrite !list_fmap_id in Hz.
    apply files_ok; [lia|by apply Forall_insert|lia|lia].
  - destruct (held_files c !! n) as [held|] eqn:Hn; [|by exists c]. destruct (Hin n held Hn). unfold drop_staging.
    rewrite checked_sub_fits by lia. eexists. split; [done|].
    apply files_ok; [rewrite (zsum_delete _ _ _ Hn); lia| |lia|lia].
    rewrite (delete_Permutation _ _ _ Hn) in Hf. by apply Forall_cons in Hf as [_ Hf].
Qed.

Lemma catalog_op_kept op : catalog_op_ok op → ∃ c', catalog_op c op = Some c' ∧ catalog_ok b0 a0 c'.
Proof.
  intros Hop. destruct op as [d b|n|n| |n b|n b|n]; [by apply reserve_cache_ok|apply commit_cache_ok|apply drop_cache_ok|..];
    by apply staging_ok.
Qed.
End steps.

(** The catalog ledger is exact: starting from what the scan of the cache found, after any
    history of reservations, none of which panics, the bytes of the cache are the sum of its
    entries and those of staging the sum of what the files hold; every reservation that is
    held has its entry; a reservation never takes either over its limit; and the peaks cover
    what is there. *)
Lemma catalog_ledger_exact limits entries ops :
  map_Forall (λ _ b, 0 ≤ b) entries → entry_bytes entries ≤ u64_max → 0 ≤ maximum_staging_bytes limits →
  maximum_cache_artifacts limits < usize_max → Forall catalog_op_ok ops →
  ∃ l0 c, catalog_ledger_new limits entries = Some l0 ∧
    catalog_run {| ledger := l0; held_entries := []; held_files := [] |} ops = Some c ∧
    let l := ledger c in
    cache_bytes l = entry_bytes (cache_entries l) ∧ staging_bytes l = zsum (held_files c) ∧
    Forall (λ e, cache_entries l !! e.1 = Some e.2) (held_entries c) ∧
    cache_bytes l ≤ Z.max (entry_bytes entries) (maximum_cache_bytes (catalog_limits l)) ∧
    artifacts (cache_entries l) ≤ Z.max (artifacts entries) (maximum_cache_artifacts (catalog_limits l)) ∧
    staging_bytes l ≤ maximum_staging_bytes (catalog_limits l) ∧
    cache_bytes l ≤ peak_cache_bytes l ∧ artifacts (cache_entries l) ≤ peak_cache_artifacts l ∧
    staging_bytes l ≤ peak_staging_bytes l.
Proof.
  intros He Hu Hs Ha Hops. unfold catalog_ledger_new. rewrite (proj2 (Z.ltb_ge _ _) Hu). eexists.
  assert (Hrun : ∀ ops c, catalog_ok (entry_bytes entries) (artifacts entries) c → Forall catalog_op_ok ops →
                          ∃ c', catalog_run c ops = Some c' ∧ catalog_ok (entry_bytes entries) (artifacts entries) c').
  { clear ops Hops. induction ops as [|op ops IH]; intros c Hc Hops; [by exists c|]. apply Forall_cons in Hops as [Hop Hops].
    destruct (catalog_op_kept _ _ c Hc op Hop) as (c' & E & Hc'). cbn [catalog_run]. rewrite E. by apply IH. }
  edestruct (Hrun ops) as (c & E & [? ? ? ? ? ? ? ? ? ? (? & ? & ?)]); [|done|exists c; split; [done|]; split; [exact E|by split_and!]].
  constructor; cbn; try done; try lia. constructor.
Qed.

Section samples.
Definition catalog_sample_limits : NativeCatalogLimits :=
  {| maximum_cache_bytes := 100; maximum_cache_artifacts := 2; maximum_staging_bytes := 50;
     maximum_host_capabilities := 0; maximum_host_outputs := 0; maximum_host_output_bytes := 0 |}.
Definition catalog_sample_ops : list CatalogOp :=
  [ReserveStaging; GrowTo 0 40; GrowTo 0 60; ReserveCache [1] 40; ReserveCache [2] 70; CommitCache 0;
   ShrinkTo 0 10; ReserveCache [3] 20; DropCache 0; DropStaging 0].
Lemma catalog_sample_ok : Forall catalog_op_ok catalog_sample_ops.
Proof. unfold catalog_sample_ops. repeat (apply Forall_cons; split); done. Qed.
End samples.

Lemma catalog_ledger_exact_witness :
  ∃ l0 c, catalog_ledger_new catalog_sample_limits ∅ = Some l0 ∧
    catalog_run {| ledger := l0; held_entries := []; held_files := [] |} catalog_sample_ops = Some c ∧
    cache_bytes (ledger c) = entry_bytes (cache_entries (ledger c)).
Proof.
  destruct (catalog_ledger_exact catalog_sample_limits ∅ catalog_sample_ops) as (l0 & c & H0 & Hr & H & _);
    [apply map_Forall_empty|done|done|done|apply catalog_sample_ok|].
  exists l0, c. exact (conj H0 (conj Hr H)).
Defined.
