(* ===== verification/CapTable.v ===== *)
(** * The table of host-issued capabilities

    [crates/rsi-meta/native-loader/src/native/cap_table.rs] with [slot_allocator.rs] and the
    [CapId] of [rsi-meta/native/src/wire.rs]: a native plug-in names a host object by slot and
    epoch; a slot is reused under a new epoch, so an old name never resolves to a new object.
    Every call runs under the lock of the table; the ledger is shared with other tables. *)

From S2P Require Import Prelude HostLedger.

Definition RIGHT_RETAIN : Z := 1.
(** The six rights. *)
Definition KNOWN_RIGHTS : Z := 63.

Record CapId := { issuer : Z; slot : Z; epoch : Z; kind : Z; rights : Z }.

Definition is_structurally_valid (id : CapId) : bool :=
  negb (issuer id =? 0) && negb (slot id =? 0) && negb (epoch id =? 0) && negb (kind id =? 0) &&
  negb (rights id =? 0) && (Z.ldiff (rights id) KNOWN_RIGHTS =? 0).

Inductive CapError := Invalid | Stale | Protocol | Wrong | NotRetainable | RefcountExhausted.

Definition retains (rights : Z) : bool := negb (Z.land rights RIGHT_RETAIN =? 0).

Section table.
Context {V : Type}.

(** A slot; [charged]: it holds a reservation of the ledger. *)
Record Slot := {
  slot_epoch : Z;
  last_consumed_epoch : option Z;
  reserved : bool;
  slot_kind : Z;
  slot_rights : Z;
  references : Z;
  value : option V;
  charged : bool
}.

(** [CapReservation], a reserved slot its owner fills or drops. *)
Record Reservation := {
  reserved_index : nat;
  reserved_epoch : Z;
  reserved_kind : Z;
  reserved_rights : Z
}.

(** [CapTable]; [free] has the top of the stack first. *)
Record Table := {
  table_issuer : Z;
  maximum_slots : Z;
  resources : HostResourceLedger;
  slots : list Slot;
  free : list nat
}.

Definition table_new (issuer maximum_slots : Z) (resources : HostResourceLedger) : Table :=
  {| table_issuer := issuer; maximum_slots := maximum_slots; resources := resources; slots := []; free := [] |}.

Definition set_resources (t : Table) (l : HostResourceLedger) : Table :=
  {| table_issuer := table_issuer t; maximum_slots := maximum_slots t; resources := l;
     slots := slots t; free := free t |}.
Definition set_slots (t : Table) (l : list Slot) (f : list nat) : Table :=
  {| table_issuer := table_issuer t; maximum_slots := maximum_slots t; resources := resources t;
     slots := l; free := f |}.

(** A slot that was just reserved. *)
Definition reserved_slot (epoch : Z) (last : option Z) (v : option V) : Slot :=
  {| slot_epoch := epoch; last_consumed_epoch := last; reserved := true; slot_kind := 0; slot_rights := 0;
     references := 0; value := v; charged := true |}.
Definition set_references (s : Slot) (n : Z) : Slot :=
  {| slot_epoch := slot_epoch s; last_consumed_epoch := last_consumed_epoch s; reserved := reserved s;
     slot_kind := slot_kind s; slot_rights := slot_rights s; references := n; value := value s;
     charged := charged s |}.
(** A slot whose value and reservation are taken. *)
Definition vacated (s : Slot) (last : option Z) (references : Z) : Slot :=
  {| slot_epoch := slot_epoch s; last_consumed_epoch := last; reserved := false;
     slot_kind := slot_kind s; slot_rights := slot_rights s; references := references; value := None;
     charged := false |}.

(** [free.release], unless the epochs of the slot are exhausted. *)
Definition free_release (f : list nat) (index : nat) (s : Slot) : list nat :=
  if slot_epoch s =? u64_max then f else index :: f.
(** Drops the reservation a slot held. *)
Definition discharge (l : HostResourceLedger) (s : Slot) : HostResourceLedger :=
  if charged s then drop_capability l else l.

(** [CapTable::reserve] *)
Definition cap_reserve (t : Table) (kind rights : Z) : Table * outcome LoaderError Reservation :=
  if (kind =? 0) || (rights =? 0) then (t, Err (InvalidInput "host capability metadata is empty")) else
  match reserve_capability (resources t) with
  | (l, Ok _) =>
      let t := set_resources t l in
      match free t with
      | index :: f =>
          match slots t !! index with
          | None => (t, Panic)
          | Some s =>
              if reserved s || negb (match value s with None => true | Some _ => false end)
                 || (slot_epoch s =? u64_max)
              then (t, Panic)
              else
                let epoch := slot_epoch s + 1 in
                (set_slots t (<[index := reserved_slot epoch (last_consumed_epoch s) (value s)]> (slots t)) f,
                 Ok {| reserved_index := index; reserved_epoch := epoch; reserved_kind := kind;
                       reserved_rights := rights |})
          end
      | [] =>
          if maximum_slots t <=? len (slots t)
          then (set_resources t (drop_capability l),
                Err (CapacityExhausted "host capability slots" (Z.min (maximum_slots t) u64_max)))
          else match checked_add u64_max (len (slots t)) 1 with
               | None => (set_resources t (drop_capability l),
                          Err (CapacityExhausted "host capability slots" u64_max))
               | Some _ =>
                   (set_slots t (slots t ++ [reserved_slot 1 None None]) (free t),
                    Ok {| reserved_index := length (slots t); reserved_epoch := 1; reserved_kind := kind;
                          reserved_rights := rights |})
               end
      end
  | (l, Err e) => (set_resources t l, Err e)
  | (l, Panic) => (set_resources t l, Panic)
  end.

Definition id_of (t : Table) (index : nat) (s : Slot) : CapId :=
  {| issuer := table_issuer t; slot := Z.of_nat index + 1; epoch := slot_epoch s; kind := slot_kind s;
     rights := slot_rights s |}.

(** [CapReservation::fill] *)
Definition fill (t : Table) (r : Reservation) (v : V) : outcome LoaderError (Table * CapId) :=
  match slots t !! reserved_index r with
  | None => Panic
  | Some s =>
      if negb (reserved s && (slot_epoch s =? reserved_epoch r) &&
               match value s with None => true | Some _ => false end) then Panic else
      let s := {| slot_epoch := slot_epoch s; last_consumed_epoch := last_consumed_epoch s; reserved := false;
                  slot_kind := reserved_kind r; slot_rights := reserved_rights r; references := 1;
                  value := Some v; charged := charged s |} in
      Ok (set_slots t (<[reserved_index r := s]> (slots t)) (free t), id_of t (reserved_index r) s)
  end.

(** The drop of a reservation that was not filled. *)
Definition drop_reservation (t : Table) (r : Reservation) : outcome LoaderError Table :=
  match slots t !! reserved_index r with
  | None => Panic
  | Some s =>
      if negb (reserved s) || negb (slot_epoch s =? reserved_epoch r) ||
         negb (match value s with None => true | Some _ => false end) then Ok t else
      let s' := vacated s (last_consumed_epoch s) (references s) in
      Ok (set_resources
            (set_slots t (<[reserved_index r := s']> (slots t)) (free_release (free t) (reserved_index r) s))
            (discharge (resources t) s))
  end.

(** [CapTable::insert]: a value that finds no slot is handed back by the caller's [Err]. *)
Definition insert (t : Table) (kind rights : Z) (v : V) : Table * outcome LoaderError CapId :=
  match cap_reserve t kind rights with
  | (t, Ok r) =>
      match fill t r v with
      | Ok (t, id) => (t, Ok id)
      | Err e => (t, Err e)
      | Panic => (t, Panic)
      end
  | (t, Err e) => (t, Err e)
  | (t, Panic) => (t, Panic)
  end.

Open Scope outcome_scope.

Definition validate_id (issuer' : Z) (id : CapId) : outcome CapError unit :=
  if negb (is_structurally_valid id) then Err Invalid
  else if negb (issuer id =? issuer') then Err Stale
  else Ok ().

Definition exact_metadata (id : CapId) (s : Slot) (kind' rights' : Z) : outcome CapError unit :=
  if negb (kind id =? slot_kind s) || negb (rights id =? slot_rights s) ||
     negb (slot_kind s =? kind') || negb (slot_rights s =? rights')
  then Err Wrong else Ok ().

(** [slot], [slot_mut]: the live slot of an identity. *)
Definition live_slot (t : Table) (id : CapId) : outcome CapError (nat * Slot) :=
  let? _ := validate_id (table_issuer t) id in
  let index := Z.to_nat (slot id - 1) in
  let? s := ok_or (slots t !! index) Stale in
  if reserved s || match value s with None => true | Some _ => false end || negb (slot_epoch s =? epoch id)
  then Err Stale else Ok (index, s).

Definition slot_index (t : Table) (id : CapId) : outcome CapError nat :=
  let? _ := validate_id (table_issuer t) id in
  let index := Z.to_nat (slot id - 1) in
  let? s := ok_or (slots t !! index) Stale in
  if negb (slot_epoch s =? epoch id) then Err Stale else Ok index.

Definition get_exact (t : Table) (id : CapId) (kind rights : Z) : outcome CapError V :=
  let? (_, s) := live_slot t id in
  let? _ := exact_metadata id s kind rights in
  expect (value s).

Fixpoint get_many_exact (t : Table) (ids : list CapId) (kind rights : Z) : outcome CapError (list V) :=
  match ids with
  | [] => Ok []
  | id :: ids =>
      let? v := get_exact t id kind rights in
      let? vs := get_many_exact t ids kind rights in
      Ok (v :: vs)
  end.

Definition retain (t : Table) (id : CapId) : outcome CapError Table :=
  let? (index, s) := live_slot t id in
  let? _ := exact_metadata id s (slot_kind s) (slot_rights s) in
  if negb (retains (slot_rights s)) then Err NotRetainable else
  let? n := ok_or (checked_add u64_max (references s) 1) RefcountExhausted in
  Ok (set_slots t (<[index := set_references s n]> (slots t)) (free t)).

(** [CapTable::release]: the value once its last reference is gone. *)
Definition release (t : Table) (id : CapId) : outcome CapError (Table * option V) :=
  let? index := slot_index t id in
  let? s := expect (slots t !! index) in
  if reserved s then Err Stale else
  match value s with
  | None =>
      if negb (bool_decide (last_consumed_epoch s = Some (epoch id))) then Err Stale else
      let? _ := exact_metadata id s (slot_kind s) (slot_rights s) in
      Err Protocol
  | Some v =>
      let? _ := exact_metadata id s (slot_kind s) (slot_rights s) in
      if negb (retains (slot_rights s)) then Err NotRetainable else
      let? n := ok_or (checked_sub (references s) 1) Invalid in
      if negb (n =? 0)
      then Ok (set_slots t (<[index := set_references s n]> (slots t)) (free t), None)
      else
        Ok (set_resources
              (set_slots t (<[index := vacated s (Some (epoch id)) n]> (slots t)) (free_release (free t) index s))
              (discharge (resources t) s), Some v)
  end.

(** [CapTable::seal]: the end of a callback takes its borrowed capability back. *)
Definition seal (t : Table) (id : CapId) : outcome CapError (Table * V) :=
  let? index := slot_index t id in
  let? s := expect (slots t !! index) in
  if reserved s then Err Stale else
  match value s with
  | None => Err Stale
  | Some v =>
      let? _ := exact_metadata id s (slot_kind s) (slot_rights s) in
      if retains (slot_rights s) || negb (references s =? 1) then Err Wrong else
      Ok (set_resources
            (set_slots t (<[index := vacated s (last_consumed_epoch s) (references s)]> (slots t))
               (free_release (free t) index s))
            (discharge (resources t) s), v)
  end.

(** The drop of the table: the values and the reservations it still holds. *)
Definition drop_table (t : Table) : HostResourceLedger * list V :=
  (foldl discharge (resources t) (slots t), omap value (slots t)).
End table.

Arguments Slot V : clear implicits.
Arguments Table V : clear implicits.

(** ** Histories *)

(** What a plug-in, a callback or the host does; [n] picks one of the reservations that are
    held.  Other tables of the catalog use the same ledger. *)
Inductive Op (V : Type) :=
| OpReserve (kind rights : Z)
| OpFill (n : nat) (v : V)
| OpDropReservation (n : nat)
| OpGet (ids : list CapId) (kind rights : Z)
| OpRetain (id : CapId)
| OpRelease (id : CapId)
| OpSeal (id : CapId)
| OpElsewhere (take : bool).
Arguments OpReserve {V} kind rights.
Arguments OpFill {V} n v.
Arguments OpDropReservation {V} n.
Arguments OpGet {V} ids kind rights.
Arguments OpRetain {V} id.
Arguments OpRelease {V} id.
Arguments OpSeal {V} id.
Arguments OpElsewhere {V} take.

(** What the caller sees. *)
Inductive Answer (V : Type) :=
| Quiet
| Refused (e : LoaderError)
| Issued (id : CapId)
| Values (l : list V)
| Failed (e : CapError)
| Retained
| Released (v : option V).
Arguments Quiet {V}.
Arguments Refused {V} e.
Arguments Issued {V} id.
Arguments Values {V} l.
Arguments Failed {V} e.
Arguments Retained {V}.
Arguments Released {V} v.

Section histories.
Context {V : Type}.

(** The table, the reservations that are held and those of other tables. *)
Record World := { table : Table V; pending : list Reservation; elsewhere : Z }.
Definition world_new (t : Table V) : World :=
  {| table := t; pending := []; elsewhere := current (capabilities (resources t)) |}.
Definition set_table (w : World) (t : Table V) (l : list Reservation) : World :=
  {| table := t; pending := l; elsewhere := elsewhere w |}.

(** One call; a panic is [None]. *)
Definition do_op (w : World) (op : Op V) : option (World * Answer V) :=
  let t := table w in
  match op with
  | OpReserve kind rights =>
      match cap_reserve t kind rights with
      | (t, Ok r) => Some (set_table w t (pending w ++ [r]), Quiet)
      | (t, Err e) => Some (set_table w t (pending w), Refused e)
      | (_, Panic) => None
      end
  | OpFill n v =>
      match pending w !! n with
      | None => Some (w, Quiet)
      | Some r =>
          match fill t r v with
          | Ok (t, id) => Some (set_table w t (delete n (pending w)), Issued id)
          | _ => None
          end
      end
  | OpDropReservation n =>
      match pending w !! n with
      | None => Some (w, Quiet)
      | Some r =>
          match drop_reservation t r with
          | Ok t => Some (set_table w t (delete n (pending w)), Quiet)
          | _ => None
          end
      end
  | OpGet ids kind rights =>
      match get_many_exact t ids kind rights with
      | Ok l => Some (w, Values l)
      | Err e => Some (w, Failed e)
      | Panic => None
      end
  | OpRetain id =>
      match retain t id with
      | Ok t => Some (set_table w t (pending w), Retained)
      | Err e => Some (w, Failed e)
      | Panic => None
      end
  | OpRelease id =>
      match release t id with
      | Ok (t, v) => Some (set_table w t (pending w), Released v)
      | Err e => Some (w, Failed e)
      | Panic => None
      end
  | OpSeal id =>
      match seal t id with
      | Ok (t, v) => Some (set_table w t (pending w), Released (Some v))
      | Err e => Some (w, Failed e)
      | Panic => None
      end
  | OpElsewhere true =>
      match reserve_capability (resources t) with
      | (l, Ok _) => Some ({| table := set_resources t l; pending := pending w; elsewhere := elsewhere w + 1 |}, Quiet)
      | (l, _) => Some (set_table w (set_resources t l) (pending w), Quiet)
      end
  | OpElsewhere false =>
      if elsewhere w =? 0 then Some (w, Quiet) else
      Some ({| table := set_resources t (drop_capability (resources t)); pending := pending w;
               elsewhere := elsewhere w - 1 |}, Quiet)
  end.

Fixpoint run (w : World) (ops : list (Op V)) : option (World * list (Answer V)) :=
  match ops with
  | [] => Some (w, [])
  | op :: ops =>
      match do_op w op with
      | Some (w, a) => match run w ops with Some (w, l) => Some (w, a :: l) | None => None end
      | None => None
      end
  end.
End histories.
Arguments World V : clear implicits.
