(* ===== verification/CapTableRules.v ===== *)
(** * What the capability table keeps

    Every slot is live, reserved, free or out of epochs; the ledger has one unit for each of
    the first two; a name that was issued never names anything else. *)

From S2P Require Import Prelude HostLedger CapTable.

Lemma insert_lookup_cases {A} (l : list A) i j x y :
  <[i := x]> l !! j = Some y → (j = i ∧ y = x ∧ (i < length l)%nat) ∨ (j ≠ i ∧ l !! j = Some y).
Proof.
  intros H. destruct (decide (i = j)) as [->|Hne].
  - assert (Hlt : (j < length l)%nat) by (apply lookup_lt_Some in H; by rewrite length_insert in H).
    rewrite list_lookup_insert_eq in H by done. left. naive_solver.
  - rewrite list_lookup_insert_ne in H by done. right. naive_solver.
Qed.

Section rules.
Context {V : Type}.
Implicit Types (t : Table V) (s : Slot V) (w : World V).

Definition charge (s : Slot V) : Z := if charged s then 1 else 0.
Definition charges t : Z := zsum (charge <$> slots t).

(** ** One slot *)
Definition vacant (s : Slot V) : Prop := reserved s = false ∧ value s = None.

Record slot_ok (s : Slot V) : Prop := {
  sl_epoch : 1 ≤ slot_epoch s ≤ u64_max;
  sl_reserved : reserved s = true → value s = None ∧ charged s = true;
  sl_live v : value s = Some v →
    charged s = true ∧ 1 ≤ references s ≤ u64_max ∧ (retains (slot_rights s) = false → references s = 1);
  sl_vacant : vacant s → charged s = false
}.

(** ** The table and its world *)
Record table_ok (t : Table V) : Prop := {
  tb_slots i s : slots t !! i = Some s → slot_ok s;
  tb_unique : NoDup (free t);
  tb_free i : i ∈ free t ↔ ∃ s, slots t !! i = Some s ∧ vacant s ∧ slot_epoch s ≠ u64_max;
  tb_bound : len (slots t) ≤ maximum_slots t ≤ usize_max
}.

Definition reserved_by (t : Table V) (r : Reservation) : Prop :=
  ∃ s, slots t !! reserved_index r = Some s ∧ reserved s = true ∧ slot_epoch s = reserved_epoch r.

Definition promise (s : Slot V) : Z := if reserved s then 1 else 0.
Definition promises t : Z := zsum (promise <$> slots t).

Record world_ok (w : World V) : Prop := {
  wd_table : table_ok (table w);
  wd_pending : Forall (reserved_by (table w)) (pending w);
  wd_unique : NoDup (reserved_index <$> pending w);
  wd_all i s : slots (table w) !! i = Some s → reserved s = true → i ∈ reserved_index <$> pending w;
  wd_count : promises (table w) = len (pending w);
  wd_ledger : current (capabilities (resources (table w))) = charges (table w) + elsewhere w;
  wd_limit : current (capabilities (resources (table w))) ≤
             maximum_host_capabilities (limits (resources (table w))) ≤ usize_max;
  wd_elsewhere : 0 ≤ elsewhere w
}.

Lemma slot_charges_nonneg t : 0 ≤ charges t.
Proof. apply zsum_nonneg, Forall_fmap, Forall_true. intros s. unfold charge. simpl. by case_match. Qed.

Lemma charges_update t i s s' f :
  slots t !! i = Some s → charges (set_slots t (<[i := s']> (slots t)) f) = charges t - charge s + charge s'.
Proof. intros H. unfold charges. simpl. by apply zsum_insert. Qed.

(** Replaces one slot, keeping the stack of free slots in step. *)
Lemma table_ok_update t i s s' f :
  table_ok t → slots t !! i = Some s → slot_ok s' → NoDup f →
  (∀ j, j ∈ f ↔ (j = i ∧ vacant s' ∧ slot_epoch s' ≠ u64_max) ∨ (j ≠ i ∧ j ∈ free t)) →
  table_ok (set_slots t (<[i := s']> (slots t)) f).
Proof.
  intros [H1 H2 H3 H4] Hi Hs' Hf Hj. constructor; [|done| |].
  - intros j sj [(-> & -> & _)|[_ Hl]]%insert_lookup_cases; [done|by apply (H1 j)].
  - intros j. simpl. rewrite Hj, H3. assert (Hlt : (i < length (slots t))%nat) by by apply lookup_lt_Some in Hi.
    destruct (decide (j = i)) as [->|Hne].
    + rewrite list_lookup_insert_eq by done. naive_solver.
    + rewrite list_lookup_insert_ne by done. naive_solver.
  - simpl. unfold len in *. by rewrite length_insert.
Qed.

Lemma not_free_kept t i s s' j :
  table_ok t → slots t !! i = Some s → ¬ vacant s → ¬ vacant s' →
  j ∈ free t ↔ (j = i ∧ vacant s' ∧ slot_epoch s' ≠ u64_max) ∨ (j ≠ i ∧ j ∈ free t).
Proof.
  intros Ht Hi Hv Hv'. split; [|naive_solver]. intros Hj. right. split; [|done]. intros ->.
  apply (tb_free _ Ht) in Hj as (s0 & Hs0 & ? & _). naive_solver congruence.
Qed.

Lemma released_free t i s s' :
  table_ok t → slots t !! i = Some s → ¬ vacant s → vacant s' → slot_epoch s' = slot_epoch s →
  NoDup (free_release (free t) i s) ∧
  ∀ j, j ∈ free_release (free t) i s ↔
       (j = i ∧ vacant s' ∧ slot_epoch s' ≠ u64_max) ∨ (j ≠ i ∧ j ∈ free t).
Proof.
  intros Ht Hi Hv Hv' He. assert (Hn : i ∉ free t).
  { intros (s0 & Hs0 & ? & _)%(tb_free _ Ht). naive_solver congruence. }
  unfold free_release. destruct (slot_epoch s =? u64_max) eqn:E.
  - split; [apply Ht|]. intros j. split; [|intros [(-> & _ & Hx)|[_ Hj]]; [lia|done]].
    intros Hj. right. split; [by intros ->|done].
  - split; [constructor; [done|apply Ht]|]. intros j. rewrite elem_of_cons. split.
    + intros [->|Hj]; [left; split_and!; [done|done|lia]|right; split; [by intros ->|done]].
    + intros [(-> & _)|[_ Hj]]; [by left|by right].
Qed.

(** ** The ledger *)
Lemma reserve_capability_spec (l : HostResourceLedger) :
  maximum_host_capabilities (limits l) ≤ usize_max →
  let c := current (capabilities l) in
  match reserve_capability l with
  | (l', Ok _) => current (capabilities l') = c + 1 ∧ c + 1 ≤ maximum_host_capabilities (limits l) ∧
                  limits l' = limits l
  | (l', Err _) => current (capabilities l') = c ∧ limits l' = limits l ∧ maximum_host_capabilities (limits l) < c + 1
  | (_, Panic) => False
  end.
Proof.
  intros Hlim c. unfold reserve_capability, reserve_usize, reserve.
  destruct (checked_add usize_max (current (capabilities l)) 1) as [n|] eqn:E.
  - apply checked_add_Some in E as [-> _]. destruct (_ <=? _) eqn:El; simpl; unfold c; split_and!; first [done|lia].
  - unfold checked_add in E. case_match; [done|]. simpl. unfold c. split_and!; first [done|lia].
Qed.

Lemma drop_capability_spec (l : HostResourceLedger) :
  1 ≤ current (capabilities l) ≤ usize_max →
  current (capabilities (drop_capability l)) = current (capabilities l) - 1 ∧
  limits (drop_capability l) = limits l.
Proof.
  intros H. split; [|done]. simpl. unfold wrapping_sub. apply Z.mod_small. lia.
Qed.

Lemma discharge_spec (l : HostResourceLedger) s :
  charge s ≤ current (capabilities l) ≤ usize_max →
  current (capabilities (discharge l s)) = current (capabilities l) - charge s ∧
  limits (discharge l s) = limits l.
Proof.
  unfold charge, discharge. destruct (charged s); [apply drop_capability_spec|]. intros _. split; [lia|done].
Qed.

(** ** How a slot may change *)

(** Within one epoch a reserved slot is filled or given up, a live one is given up, and a
    vacant one stays vacant. *)
Definition slot_advances (s s' : Slot V) : Prop :=
  slot_epoch s < slot_epoch s' ∨
  (slot_epoch s = slot_epoch s' ∧
   (reserved s = false → reserved s' = false ∧ (value s = None → value s' = None))).

Definition advances (t t' : Table V) : Prop :=
  table_issuer t' = table_issuer t ∧
  ∀ i s, slots t !! i = Some s → ∃ s', slots t' !! i = Some s' ∧ slot_advances s s'.

Lemma advances_refl t t' : table_issuer t' = table_issuer t → slots t' = slots t → advances t t'.
Proof. intros Hi Hs. split; [done|]. intros i s H. exists s. rewrite Hs. split; [done|]. right. naive_solver. Qed.

Lemma advances_trans t1 t2 t3 : advances t1 t2 → advances t2 t3 → advances t1 t3.
Proof.
  intros [Hi H] [Hi' H']. split; [congruence|]. intros i s Hs. destruct (H i s Hs) as (s' & Hs' & Ha).
  destruct (H' i s' Hs') as (s'' & Hs'' & Ha'). exists s''. split; [done|]. unfold slot_advances in *.
  destruct Ha as [?|[? Ha]], Ha' as [?|[? Ha']]; [left; lia..|]. right. split; [lia|]. naive_solver.
Qed.

Lemma advances_update t i s s' f l :
  slots t !! i = Some s → slot_advances s s' → advances t (set_resources (set_slots t (<[i := s']> (slots t)) f) l).
Proof.
  intros Hi Ha. split; [done|]. intros j sj Hj. simpl.
  assert (Hlt : (i < length (slots t))%nat) by by apply lookup_lt_Some in Hi.
  destruct (decide (j = i)) as [->|Hne].
  - rewrite list_lookup_insert_eq by done. exists s'. split; [done|]. congruence.
  - rewrite list_lookup_insert_ne by done. exists sj. split; [done|]. right. naive_solver.
Qed.

(** ** Changing the world *)

(** One slot that stays reserved or not changes, with the units the ledger has for it. *)
Lemma world_ok_update w i s s' f l :
  world_ok w → slots (table w) !! i = Some s → slot_ok s' →
  NoDup f →
  (∀ j, j ∈ f ↔ (j = i ∧ vacant s' ∧ slot_epoch s' ≠ u64_max) ∨ (j ≠ i ∧ j ∈ free (table w))) →
  reserved s = false → reserved s' = false →
  current (capabilities l) = current (capabilities (resources (table w))) - charge s + charge s' →
  charge s' ≤ charge s → limits l = limits (resources (table w)) →
  world_ok (set_table w (set_resources (set_slots (table w) (<[i := s']> (slots (table w))) f) l) (pending w)).
Proof.
  intros [H1 H2 H3 H4 H0 H5 H6 H7] Hi Hs' Hf Hj Hr Hr' Hc Hle Hlim. constructor; cbn [table set_table pending elsewhere].
  - pose proof (table_ok_update (table w) i s s' f H1 Hi Hs' Hf Hj) as [? ? ? ?]. by constructor.
  - eapply Forall_impl; [exact H2|]. intros r (sr & Hsr & ? & ?). exists sr. split; [|done]. simpl.
    rewrite list_lookup_insert_ne; [done|]. intros ->. congruence.
  - done.
  - intros j sj [(-> & -> & _)|[_ Hl]]%insert_lookup_cases Hrj; [congruence|by eapply H4].
  - rewrite <-H0. unfold promises. simpl. rewrite (zsum_insert promise _ _ _ _ Hi). unfold promise. rewrite Hr, Hr'. lia.
  - cbn [resources set_resources]. rewrite Hc, H5.
    pose proof (charges_update (table w) i s s' f Hi) as Hch. unfold charges in *. cbn [slots set_resources set_slots] in *. lia.
  - cbn [resources set_resources]. rewrite Hlim. lia.
  - done.
Qed.
End rules.
