(* ===== verification/CapTableSpec.v ===== *)
(** * What the names of capabilities mean

    The specification of the table: a map from the names in use to their objects and the
    number of leases that are out, and what every call answers in terms of it. *)

From S2P Require Import Prelude HostLedger CapTable CapTableRules.

(** ** The specification *)
Section spec.
Context {V : Type}.

Record Entry := { entry_kind : Z; entry_rights : Z; leases : Z; object : V }.

(** A name without its metadata. *)
Definition id_key (id : CapId) : Z * Z := (slot id, epoch id).

Implicit Types (look : Z * Z → option Entry).
Open Scope outcome_scope.

Definition named (e : Entry) (id : CapId) : bool := (kind id =? entry_kind e) && (rights id =? entry_rights e).

(** The entry a well-formed name of the table resolves to. *)
Definition spec_find (iss : Z) look (id : CapId) : outcome CapError Entry :=
  let? _ := validate_id iss id in
  let? e := ok_or (look (id_key id)) Stale in
  if named e id then Ok e else Err Wrong.

Definition spec_get (iss : Z) look (id : CapId) (kind rights : Z) : outcome CapError V :=
  let? e := spec_find iss look id in
  if (entry_kind e =? kind) && (entry_rights e =? rights) then Ok (object e) else Err Wrong.

Definition spec_retain (iss : Z) look (id : CapId) : outcome CapError unit :=
  let? e := spec_find iss look id in
  if negb (retains (entry_rights e)) then Err NotRetainable
  else if leases e =? u64_max then Err RefcountExhausted else Ok ().

(** A name that no longer resolves is [Stale] or, repeated at once, [Protocol] misuse. *)
Definition spec_release (iss : Z) look (id : CapId) (answer : outcome CapError (option V)) : Prop :=
  match spec_find iss look id with
  | Err Stale => answer = Err Stale ∨ answer = Err Protocol ∨ answer = Err Wrong
  | Err e => answer = Err e
  | Panic => False
  | Ok e =>
      answer = if negb (retains (entry_rights e)) then Err NotRetainable
               else if leases e =? 1 then Ok (Some (object e)) else Ok None
  end.

Definition spec_seal (iss : Z) look (id : CapId) : outcome CapError V :=
  let? e := spec_find iss look id in
  if retains (entry_rights e) then Err Wrong else Ok (object e).

Definition set_leases (n : Z) (e : Entry) : Entry :=
  {| entry_kind := entry_kind e; entry_rights := entry_rights e; leases := n; object := object e |}.

(** What the holders know from the calls and their answers alone. *)
Definition hold_step (m : gmap (Z * Z) Entry) (call : Op V * Answer V) : gmap (Z * Z) Entry :=
  match call with
  | (OpFill _ v, Issued id) =>
      <[id_key id := {| entry_kind := kind id; entry_rights := rights id; leases := 1; object := v |}]> m
  | (OpRetain id, Retained) => alter (λ e, set_leases (leases e + 1) e) (id_key id) m
  | (OpRelease id, Released None) => alter (λ e, set_leases (leases e - 1) e) (id_key id) m
  | (OpRelease id, Released (Some _)) | (OpSeal id, Released (Some _)) => delete (id_key id) m
  | _ => m
  end.
Definition holdings (ops : list (Op V)) (answers : list (Answer V)) : gmap (Z * Z) Entry :=
  foldl hold_step ∅ (zip ops answers).
End spec.
Arguments Entry V : clear implicits.

Section table_entries.
Context {V : Type}.
Implicit Types (t : Table V) (s : Slot V) (w : World V).

(** ** The entries of a table *)
Definition entry_of (s : Slot V) : option (Entry V) :=
  match value s with
  | Some v => Some {| entry_kind := slot_kind s; entry_rights := slot_rights s; leases := references s; object := v |}
  | None => None
  end.
Definition entry_at (t : Table V) (key : Z * Z) : option (Entry V) :=
  if key.1 <? 1 then None else
  match slots t !! Z.to_nat (key.1 - 1) with
  | Some s => if slot_epoch s =? key.2 then entry_of s else None
  | None => None
  end.

Lemma entry_at_slot t i s : slots t !! i = Some s → entry_at t (Z.of_nat i + 1, slot_epoch s) = entry_of s.
Proof.
  intros Hi. unfold entry_at. simpl. rewrite (proj2 (Z.ltb_ge _ _)) by lia.
  replace (Z.to_nat (Z.of_nat i + 1 - 1)) with i by lia. by rewrite Hi, Z.eqb_refl.
Qed.

(** A slot changes within its epoch. *)
Lemma entry_at_update t i s s' f l key :
  slots t !! i = Some s → slot_epoch s' = slot_epoch s →
  entry_at (set_resources (set_slots t (<[i := s']> (slots t)) f) l) key =
    if decide (key = (Z.of_nat i + 1, slot_epoch s)) then entry_of s' else entry_at t key.
Proof.
  intros Hi He. assert (Hlt : (i < length (slots t))%nat) by by apply lookup_lt_Some in Hi.
  destruct (decide (key = _)) as [->|Hne].
  - rewrite <-He. apply entry_at_slot. simpl. by rewrite list_lookup_insert_eq.
  - destruct key as [sl ep]. unfold entry_at. simpl. destruct (sl <? 1) eqn:E; [done|].
    destruct (decide (i = Z.to_nat (sl - 1))) as [->|Hj].
    + rewrite list_lookup_insert_eq, Hi, He by done. destruct (slot_epoch s =? ep) eqn:Ee; [|done].
      destruct Hne. f_equal; lia.
    + by rewrite list_lookup_insert_ne.
Qed.

(** A vacant slot is reserved under a new epoch. *)
Lemma entry_at_reserved t i s s' f l key :
  slots t !! i = Some s → value s = None → value s' = None →
  entry_at (set_resources (set_slots t (<[i := s']> (slots t)) f) l) key = entry_at t key.
Proof.
  intros Hi Hv Hv'. assert (Hlt : (i < length (slots t))%nat) by by apply lookup_lt_Some in Hi.
  destruct key as [sl ep]. unfold entry_at. simpl. destruct (sl <? 1) eqn:E; [done|].
  destruct (decide (i = Z.to_nat (sl - 1))) as [->|Hj].
  - rewrite list_lookup_insert_eq, Hi by done. unfold entry_of. rewrite Hv, Hv'. by destruct (_ =? _), (_ =? _).
  - by rewrite list_lookup_insert_ne.
Qed.

Lemma entry_at_pushed t s f l key :
  value s = None → entry_at (set_resources (set_slots t (slots t ++ [s]) f) l) key = entry_at t key.
Proof.
  intros Hv. destruct key as [sl ep]. unfold entry_at. simpl. destruct (sl <? 1) eqn:E; [done|].
  destruct (slots t !! Z.to_nat (sl - 1)) as [s0|] eqn:Hs; [by rewrite (lookup_app_l_Some _ _ _ _ Hs)|].
  destruct ((slots t ++ [s]) !! Z.to_nat (sl - 1)) as [s1|] eqn:Hs1; [|done].
  apply lookup_app_Some in Hs1 as [Hs1|[_ Hs1]]; [congruence|]. apply list_lookup_singleton_Some in Hs1 as [_ <-].
  unfold entry_of. rewrite Hv. by destruct (_ =? _).
Qed.

(** ** The calls in terms of the entries *)
Context (t : Table V) (Ht : table_ok t).

Lemma live_slot_spec id :
  0 ≤ slot id →
  match live_slot t id with
  | Ok (i, s) => ∃ v, i = Z.to_nat (slot id - 1) ∧ 1 ≤ slot id ∧ slots t !! i = Some s ∧ reserved s = false ∧
                      value s = Some v ∧ slot_epoch s = epoch id ∧
                      validate_id (table_issuer t) id = Ok () ∧ entry_at t (id_key id) = entry_of s
  | Err e => validate_id (table_issuer t) id = Err e ∨
             (e = Stale ∧ validate_id (table_issuer t) id = Ok () ∧ entry_at t (id_key id) = None)
  | Panic => False
  end.
Proof.
  intros Hid. unfold live_slot. destruct (validate_id (table_issuer t) id) as [[]|e|] eqn:Ev; cbn [obind]; [|by left|].
  2: { unfold validate_id in Ev. repeat case_match; done. }
  assert (Hs1 : 1 ≤ slot id).
  { unfold validate_id, is_structurally_valid in Ev. destruct (slot id =? 0) eqn:E; [|lia].
    rewrite !andb_false_r in Ev. done. }
  unfold entry_at, id_key. cbn [fst snd]. rewrite (proj2 (Z.ltb_ge _ _)) by lia.
  destruct (slots t !! Z.to_nat (slot id - 1)) as [s|] eqn:Hs; cbn [ok_or obind]; [|by right].
  destruct (value s) as [v|] eqn:Hv; cbn [andb orb].
  - pose proof (tb_slots _ Ht _ s Hs) as Hok. destruct (reserved s) eqn:Hr.
    { destruct (sl_reserved _ Hok Hr). congruence. }
    cbn [orb]. destruct (slot_epoch s =? epoch id) eqn:E; cbn [negb]; [|by right].
    exists v. split_and!; try done. lia.
  - rewrite orb_true_r. cbn [orb]. right. split_and!; try done. unfold entry_of. rewrite Hv. by case_match.
Qed.

Lemma spec_find_live id s v :
  validate_id (table_issuer t) id = Ok () → entry_at t (id_key id) = entry_of s → value s = Some v →
  spec_find (table_issuer t) (entry_at t) id =
    if (kind id =? slot_kind s) && (rights id =? slot_rights s)
    then Ok {| entry_kind := slot_kind s; entry_rights := slot_rights s; leases := references s; object := v |}
    else Err Wrong.
Proof. intros Hv He Hs. unfold spec_find, entry_of in *. rewrite Hv, He, Hs. done. Qed.

Lemma spec_find_dead id e :
  validate_id (table_issuer t) id = Err e ∨
    (e = Stale ∧ validate_id (table_issuer t) id = Ok () ∧ entry_at t (id_key id) = None) →
  spec_find (table_issuer t) (entry_at t) id = Err e.
Proof. intros [Hv|(-> & Hv & He)]; unfold spec_find; rewrite Hv; [done|]. by rewrite He. Qed.

Lemma exact_own id s :
  exact_metadata id s (slot_kind s) (slot_rights s) =
    if (kind id =? slot_kind s) && (rights id =? slot_rights s) then Ok () else Err Wrong.
Proof. unfold exact_metadata. rewrite !Z.eqb_refl. by destruct (kind id =? _), (rights id =? _). Qed.

Lemma get_exact_spec id k r :
  0 ≤ slot id → get_exact t id k r = spec_get (table_issuer t) (entry_at t) id k r.
Proof.
  intros Hid. pose proof (live_slot_spec id Hid) as H. unfold get_exact, spec_get.
  destruct (live_slot t id) as [[i s]|e|]; [|by rewrite (spec_find_dead id e H)|done].
  destruct H as (v & _ & _ & _ & _ & Hv & _ & Hval & He). cbn [obind].
  rewrite (spec_find_live id s v Hval He Hv). unfold exact_metadata.
  destruct (kind id =? slot_kind s), (rights id =? slot_rights s); try done. cbn [andb negb orb obind].
  cbn [entry_kind entry_rights object]. destruct (slot_kind s =? k), (slot_rights s =? r); try done.
  cbn. by rewrite Hv.
Qed.

Lemma slot_index_spec id :
  0 ≤ slot id →
  match slot_index t id with
  | Ok i => ∃ s, i = Z.to_nat (slot id - 1) ∧ 1 ≤ slot id ∧ slots t !! i = Some s ∧ slot_epoch s = epoch id ∧
                 validate_id (table_issuer t) id = Ok () ∧ entry_at t (id_key id) = entry_of s
  | Err e => validate_id (table_issuer t) id = Err e ∨
             (e = Stale ∧ validate_id (table_issuer t) id = Ok () ∧ entry_at t (id_key id) = None)
  | Panic => False
  end.
Proof.
  intros Hid. unfold slot_index. destruct (validate_id (table_issuer t) id) as [[]|e|] eqn:Ev; cbn [obind]; [|by left|].
  2: { unfold validate_id in Ev. repeat case_match; done. }
  assert (Hs1 : 1 ≤ slot id).
  { unfold validate_id, is_structurally_valid in Ev. destruct (slot id =? 0) eqn:E; [|lia].
    rewrite !andb_false_r in Ev. done. }
  unfold entry_at, id_key. cbn [fst snd]. rewrite (proj2 (Z.ltb_ge _ _)) by lia.
  destruct (slots t !! Z.to_nat (slot id - 1)) as [s|] eqn:Hs; cbn [ok_or obind]; [|by right].
  destruct (slot_epoch s =? epoch id) eqn:E; cbn [negb]; [|by right]. exists s. split_and!; try done. lia.
Qed.

(** A slot that is given up: the same for a last release and a seal. *)
Lemma vacated_ok s last refs v : slot_ok s → value s = Some v → slot_ok (vacated s last refs).
Proof. intros [? ? ? ?] Hv. by constructor. Qed.

Lemma live_not_vacant s v : value s = Some v → ¬ vacant s.
Proof. intros Hv [_ ?]. congruence. Qed.
End table_entries.

(** ** What the calls do *)
Section calls.
Context {V : Type} (w : World V) (Hw : world_ok w).
Implicit Types (s : Slot V).
Let t := table w.
Let Ht : table_ok t := wd_table _ Hw.

Lemma charge_bound i s : slots t !! i = Some s → charge s ≤ current (capabilities (resources t)) ≤ usize_max.
Proof.
  intros Hi. pose proof (wd_limit _ Hw) as Hl. pose proof (wd_ledger _ Hw) as Hled. fold t in Hl, Hled.
  split; [|lia]. rewrite Hled. pose proof (wd_elsewhere _ Hw).
  pose proof (slot_charges_nonneg (set_slots t (<[i := vacated s None 0]> (slots t)) (free t))) as Hn.
  rewrite (charges_update t i s _ _ Hi) in Hn. unfold charge in Hn at 2. simpl in Hn. fold t. lia.
Qed.

(** Gives a live slot up. *)
Lemma vacate_ok i s v last refs :
  slots t !! i = Some s → value s = Some v → reserved s = false →
  let t' := set_resources (set_slots t (<[i := vacated s last refs]> (slots t)) (free_release (free t) i s))
              (discharge (resources t) s) in
  world_ok (set_table w t' (pending w)) ∧ advances t t' ∧
  ∀ key, entry_at t' key = if decide (key = (Z.of_nat i + 1, slot_epoch s)) then None else entry_at t key.
Proof.
  intros Hi Hv Hr. cbv zeta. pose proof (tb_slots _ Ht i s Hi) as Hok.
  destruct (released_free t i s (vacated s last refs) Ht Hi) as [Hn Hj]; [by eapply live_not_vacant|done|done|].
  destruct (discharge_spec (resources t) s (charge_bound i s Hi)) as [Hc Hl]. split_and!.
  - apply (world_ok_update w i s (vacated s last refs)); try done; [by eapply vacated_ok|simpl in *|].
    + unfold charge at 2. simpl. fold t. lia.
    + unfold charge. simpl. case_match; lia.
  - apply (advances_update t i s); [done|]. right. naive_solver.
  - intros key. by rewrite (entry_at_update t i s).
Qed.

(** Counts the leases of a live slot. *)
Lemma recount_ok i s v n :
  slots t !! i = Some s → value s = Some v → reserved s = false → 1 ≤ n ≤ u64_max → retains (slot_rights s) = true →
  let t' := set_slots t (<[i := set_references s n]> (slots t)) (free t) in
  world_ok (set_table w t' (pending w)) ∧ advances t t' ∧
  ∀ key, entry_at t' key = if decide (key = (Z.of_nat i + 1, slot_epoch s))
                           then set_leases n <$> entry_at t key else entry_at t key.
Proof.
  intros Hi Hv Hr Hn Hret. cbv zeta. pose proof (tb_slots _ Ht i s Hi) as Hok. split_and!.
  - apply (world_ok_update w i s (set_references s n)); try done.
    + destruct Hok as [? ? Hlive ?]. constructor; try done. intros v' Hv'. simpl in *.
      destruct (Hlive v' Hv') as (? & _ & _). split; [done|]. split; [done|]. rewrite Hret. done.
    + apply Ht.
    + intros j. eapply not_free_kept; [exact Ht|exact Hi|by eapply live_not_vacant|by intros [_ ?]; simpl in *; congruence].
    + unfold charge at 2. simpl. unfold charge. fold t. lia.
  - apply (advances_update t i s _ (free t) (resources t)); [done|]. right. naive_solver.
  - intros key. etrans; [apply (entry_at_update t i s (set_references s n) (free t) (resources t) key Hi eq_refl)|].
    destruct (decide _) as [->|]; [|done]. rewrite (entry_at_slot t i s Hi). unfold entry_of. simpl. by rewrite Hv.
Qed.

Lemma retain_calls id :
  0 ≤ slot id →
  match retain t id with
  | Ok t' => spec_retain (table_issuer t) (entry_at t) id = Ok () ∧ world_ok (set_table w t' (pending w)) ∧
             advances t t' ∧
             ∀ key, entry_at t' key = if decide (key = id_key id)
                                      then (λ e, set_leases (leases e + 1) e) <$> entry_at t key else entry_at t key
  | Err e => spec_retain (table_issuer t) (entry_at t) id = Err e
  | Panic => False
  end.
Proof.
  intros Hid. pose proof (live_slot_spec t Ht id Hid) as H. unfold retain, spec_retain.
  destruct (live_slot t id) as [[i s]|e|]; [|by rewrite (spec_find_dead t id e H)|done].
  destruct H as (v & -> & Hs1 & Hi & Hr & Hv & Hep & Hval & He). cbn [obind].
  rewrite exact_own, (spec_find_live t id s v Hval He Hv). destruct (_ && _); [|done]. cbn [obind entry_rights leases].
  destruct (retains (slot_rights s)) eqn:Hret; cbn [negb]; [|done].
  destruct (sl_live _ (tb_slots _ Ht _ s Hi) v Hv) as (_ & Hrefs & _).
  destruct (references s =? u64_max) eqn:Emax.
  { unfold checked_add. rewrite (proj2 (Z.leb_gt _ _)) by lia. done. }
  rewrite checked_add_fits by lia. cbn [ok_or obind].
  destruct (recount_ok _ s v (references s + 1) Hi Hv Hr) as (Hok & Hadv & Hent); [lia|done|].
  split_and!; try done. intros key. rewrite Hent.
  replace (Z.of_nat (Z.to_nat (slot id - 1)) + 1, slot_epoch s) with (id_key id) by (unfold id_key; f_equal; lia).
  destruct (decide _) as [->|]; [|done]. rewrite He. unfold entry_of. by rewrite Hv.
Qed.

Lemma release_calls id :
  0 ≤ slot id →
  match release t id with
  | Ok (t', o) =>
      spec_release (table_issuer t) (entry_at t) id (Ok o) ∧ world_ok (set_table w t' (pending w)) ∧
      advances t t' ∧
      ∀ key, entry_at t' key =
        if decide (key = id_key id)
        then match o with Some _ => None | None => (λ e, set_leases (leases e - 1) e) <$> entry_at t key end
        else entry_at t key
  | Err e => spec_release (table_issuer t) (entry_at t) id (Err e)
  | Panic => False
  end.
Proof.
  intros Hid. pose proof (slot_index_spec t id Hid) as H. unfold release, spec_release.
  destruct (slot_index t id) as [i|e|] eqn:Ei; [| |done].
  2: { cbn [obind]. rewrite (spec_find_dead t id e H). destruct e; naive_solver. }
  destruct H as (s & -> & Hs1 & Hi & Hep & Hval & He). cbn [obind]. rewrite Hi. cbn [expect obind].
  pose proof (tb_slots _ Ht _ s Hi) as Hok. destruct (reserved s) eqn:Hr.
  { rewrite (spec_find_dead t id Stale); [naive_solver|]. right. split_and!; try done. rewrite He. unfold entry_of.
    by rewrite (proj1 (sl_reserved _ Hok Hr)). }
  destruct (value s) as [v|] eqn:Hv.
  2: { rewrite (spec_find_dead t id Stale).
       - destruct (negb _); [naive_solver|]. rewrite exact_own. destruct (_ && _); naive_solver.
       - right. split_and!; try done. rewrite He. unfold entry_of. by rewrite Hv. }
  rewrite exact_own, (spec_find_live t id s v Hval He Hv). destruct (_ && _); [|done].
  cbn [obind entry_rights leases object].
  destruct (retains (slot_rights s)) eqn:Hret; cbn [negb]; [|done].
  destruct (sl_live _ Hok v Hv) as (_ & Hrefs & _). rewrite checked_sub_fits by lia. cbn [ok_or obind].
  assert (Hkey : (Z.of_nat (Z.to_nat (slot id - 1)) + 1, slot_epoch s) = id_key id) by (unfold id_key; f_equal; lia).
  destruct (references s =? 1) eqn:E1.
  - rewrite (proj2 (Z.eqb_eq (references s - 1) 0)) by lia. cbn [negb].
    destruct (vacate_ok _ s v (Some (epoch id)) (references s - 1) Hi Hv Hr) as (Hok' & Hadv & Hent).
    split_and!; try done. intros key. rewrite Hent, Hkey. done.
  - rewrite (proj2 (Z.eqb_neq (references s - 1) 0)) by lia. cbn [negb].
    destruct (recount_ok _ s v (references s - 1) Hi Hv Hr) as (Hok' & Hadv & Hent); [lia|done|].
    split_and!; try done. intros key. rewrite Hent, Hkey. destruct (decide _) as [->|]; [|done].
    rewrite He. unfold entry_of. by rewrite Hv.
Qed.

Lemma seal_calls id :
  0 ≤ slot id →
  match seal t id with
  | Ok (t', v) =>
      spec_seal (table_issuer t) (entry_at t) id = Ok v ∧ world_ok (set_table w t' (pending w)) ∧ advances t t' ∧
      ∀ key, entry_at t' key = if decide (key = id_key id) then None else entry_at t key
  | Err e => spec_seal (table_issuer t) (entry_at t) id = Err e
  | Panic => False
  end.
Proof.
  intros Hid. pose proof (slot_index_spec t id Hid) as H. unfold seal, spec_seal.
  destruct (slot_index t id) as [i|e|] eqn:Ei; [|by rewrite (spec_find_dead t id e H)|done].
  destruct H as (s & -> & Hs1 & Hi & Hep & Hval & He). cbn [obind]. rewrite Hi. cbn [expect obind].
  pose proof (tb_slots _ Ht _ s Hi) as Hok. destruct (reserved s) eqn:Hr.
  { rewrite (spec_find_dead t id Stale); [done|]. right. split_and!; try done. rewrite He. unfold entry_of.
    by rewrite (proj1 (sl_reserved _ Hok Hr)). }
  destruct (value s) as [v|] eqn:Hv.
  2: { rewrite (spec_find_dead t id Stale); [done|]. right. split_and!; try done. rewrite He. unfold entry_of. by rewrite Hv. }
  rewrite exact_own, (spec_find_live t id s v Hval He Hv). destruct (_ && _); [|done].
  cbn [obind entry_rights object]. destruct (retains (slot_rights s)) eqn:Hret; cbn [orb]; [done|].
  destruct (sl_live _ Hok v Hv) as (_ & _ & Href). rewrite (Href Hret). cbn [negb].
  destruct (vacate_ok _ s v (last_consumed_epoch s) (references s) Hi Hv Hr) as (Hok' & Hadv & Hent).
  rewrite (Href Hret) in *. split_and!; try done. intros key. rewrite Hent.
  replace (Z.of_nat (Z.to_nat (slot id - 1)) + 1, slot_epoch s) with (id_key id) by (unfold id_key; f_equal; lia).
  done.
Qed.
End calls.
