(* ===== verification/CapTableSlots.v ===== *)
(** * The life of a slot

    Reserving, filling and giving up slots keep the table and its ledger in step, and a
    reservation is refused only when the ledger or the table is full. *)

From S2P Require Import Prelude HostLedger CapTable CapTableRules CapTableSpec.

Section reservations.
Context {V : Type} (w : World V) (Hw : world_ok w).
Implicit Types (s : Slot V).
Let t := table w.
Let Ht : table_ok t := wd_table _ Hw.

Lemma pending_delete (l : list Reservation) n r :
  l !! n = Some r → NoDup (reserved_index <$> l) →
  NoDup (reserved_index <$> delete n l) ∧
  (∀ r', r' ∈ delete n l → r' ∈ l ∧ reserved_index r' ≠ reserved_index r) ∧
  (∀ i, i ∈ reserved_index <$> l → i ≠ reserved_index r → i ∈ reserved_index <$> delete n l).
Proof.
  intros Hn Hd. pose proof (delete_Permutation l n r Hn) as Hp.
  assert (Hf : reserved_index <$> l ≡ₚ reserved_index r :: (reserved_index <$> delete n l)) by (by rewrite Hp at 1).
  rewrite Hf in Hd. apply NoDup_cons in Hd as [Hnot Hd]. split; [done|]. split.
  - intros r' Hr'. split; [rewrite Hp; by right|]. intros He. apply Hnot. rewrite <-He.
    by apply list_elem_of_fmap_2.
  - intros i Hi Hne. rewrite Hf in Hi. apply elem_of_cons in Hi as [|]; done.
Qed.

(** A reservation ends: its slot is filled or given up. *)
Lemma resolve_ok n r s s' f l :
  pending w !! n = Some r → slots t !! reserved_index r = Some s → reserved s = true → slot_ok s' → NoDup f →
  (∀ j, j ∈ f ↔ (j = reserved_index r ∧ vacant s' ∧ slot_epoch s' ≠ u64_max) ∨ (j ≠ reserved_index r ∧ j ∈ free t)) →
  reserved s' = false →
  current (capabilities l) = current (capabilities (resources t)) - charge s + charge s' →
  charge s' ≤ charge s → limits l = limits (resources t) →
  world_ok (set_table w (set_resources (set_slots t (<[reserved_index r := s']> (slots t))  f) l) (delete n (pending w))).
Proof.
  intros Hn Hi Hr Hs' Hf Hj Hr' Hc Hle Hlim. pose proof Hw as [H1 H2 H3 H4 H0 H5 H6 H7]. fold t in H1, H2, H4, H0, H5, H6.
  destruct (pending_delete (pending w) n r Hn H3) as (Hd & Hin & Hout).
  constructor; cbn [table set_table pending elsewhere]; [| |done| | | | |done].
  - pose proof (table_ok_update t _ s s' f H1 Hi Hs' Hf Hj) as [? ? ? ?]. by constructor.
  - apply Forall_forall. intros r' Hr2. destruct (Hin r' Hr2) as [Hr1 Hne]. rewrite Forall_forall in H2.
    destruct (H2 r' Hr1) as (sr & Hsr & ? & ?). exists sr. split; [|done]. simpl.
    by rewrite list_lookup_insert_ne.
  - intros j sj [(-> & -> & _)|[Hne Hl]]%insert_lookup_cases Hrj; [congruence|].
    apply Hout; [by eapply H4|done].
  - unfold promises in *. simpl. rewrite (zsum_insert promise _ _ _ _ Hi), H0. unfold promise, len. rewrite Hr, Hr'.
    rewrite length_delete by done. apply lookup_lt_Some in Hn. lia.
  - cbn [resources set_resources]. rewrite Hc, H5.
    pose proof (charges_update t _ s s' f Hi) as Hch. unfold charges in *. cbn [slots set_resources set_slots] in *. lia.
  - cbn [resources set_resources]. rewrite Hlim. lia.
Qed.

Lemma reserved_pending n r :
  pending w !! n = Some r →
  ∃ s, slots t !! reserved_index r = Some s ∧ reserved s = true ∧ slot_epoch s = reserved_epoch r ∧
       value s = None ∧ charged s = true ∧ slot_ok s.
Proof.
  intros Hn. pose proof (wd_pending _ Hw) as Hp. rewrite Forall_forall in Hp.
  destruct (Hp r (list_elem_of_lookup_2 _ _ _ Hn)) as (s & Hs & Hr & He). fold t in Hs.
  pose proof (tb_slots _ Ht _ s Hs) as Hok. destruct (sl_reserved _ Hok Hr). by exists s.
Qed.

Lemma fill_calls n r v :
  pending w !! n = Some r →
  ∃ t' id, fill t r v = Ok (t', id) ∧ world_ok (set_table w t' (delete n (pending w))) ∧ advances t t' ∧
    issuer id = table_issuer t ∧ slot id = Z.of_nat (reserved_index r) + 1 ∧ epoch id = reserved_epoch r ∧
    ∀ key, entry_at t' key =
      if decide (key = id_key id)
      then Some {| entry_kind := kind id; entry_rights := rights id; leases := 1; object := v |}
      else entry_at t key.
Proof.
  intros Hn. destruct (reserved_pending n r Hn) as (s & Hs & Hr & He & Hv & Hc & Hok).
  unfold fill. rewrite Hs, Hr, Hv, He, Z.eqb_refl. cbn [andb negb]. set (s' := {| slot_epoch := _ |}).
  eexists _, _. split; [done|].
  assert (Hs' : slot_ok s').
  { destruct Hok as [Hep ? ? ?]. constructor; simpl; try done; [by rewrite <-He|].
    by intros [_ ?]. }
  assert (Hnv : ¬ vacant s) by (intros [? _]; congruence).
  split; [|split; [|split_and!; [done|done|done|]]].
  - assert (Hcs : charge s' = charge s) by done.
    apply (resolve_ok n r s s' (free t) (resources t) Hn Hs Hr Hs'); [apply Ht| |done|lia|lia|done].
    intros j. eapply not_free_kept; [exact Ht|exact Hs|done|by intros [_ ?]].
  - apply (advances_update t (reserved_index r) s s' (free t) (resources t)); [done|]. right. simpl. split; [done|]. congruence.
  - intros key. etrans; [apply (entry_at_update t _ s s' (free t) (resources t) key Hs); by simpl|].
    unfold id_key, id_of. cbn [slot epoch s' slot_epoch]. rewrite He. done.
Qed.

Lemma drop_calls n r :
  pending w !! n = Some r →
  ∃ t', drop_reservation t r = Ok t' ∧ world_ok (set_table w t' (delete n (pending w))) ∧ advances t t' ∧
        ∀ key, entry_at t' key = entry_at t key.
Proof.
  intros Hn. destruct (reserved_pending n r Hn) as (s & Hs & Hr & He & Hv & Hc & Hok).
  unfold drop_reservation. rewrite Hs, Hr, Hv, He, Z.eqb_refl. cbn [orb negb]. eexists. split; [done|].
  set (s' := vacated s _ _). assert (Hnv : ¬ vacant s) by (intros [? _]; congruence).
  destruct (released_free t _ s s' Ht Hs Hnv) as [Hnd Hj]; [done|done|].
  destruct (discharge_spec (resources t) s (charge_bound w Hw _ s Hs)) as [Hcur Hlim].
  split; [|split].
  - apply (resolve_ok n r s); try done.
    + destruct Hok. by constructor.
    + unfold charge at 2. simpl. lia.
    + unfold charge. simpl. case_match; lia.
  - apply (advances_update t (reserved_index r) s); [done|]. right. simpl. split; [done|]. by intros.
  - intros key. by apply (entry_at_reserved t (reserved_index r) s).
Qed.

(** Why a reservation is refused. *)
Definition exhausted (kind rights : Z) : Prop :=
  kind = 0 ∨ rights = 0 ∨
  maximum_host_capabilities (limits (resources t)) ≤ current (capabilities (resources t)) ∨
  (free t = [] ∧ maximum_slots t = len (slots t)).

Lemma resources_ok l n :
  current (capabilities l) = charges t + n → current (capabilities l) ≤ maximum_host_capabilities (limits l) →
  limits l = limits (resources t) → 0 ≤ n →
  world_ok {| table := set_resources t l; pending := pending w; elsewhere := n |}.
Proof.
  intros Hc Hm Hl Hn. pose proof Hw as [H1 H2 H3 H4 H0 H5 H6 H7]. fold t in H1, H2, H4, H0, H5, H6.
  constructor; cbn [table pending elsewhere resources set_resources]; try done.
  - destruct H1. by constructor.
  - rewrite Hl in *. lia.
Qed.

Lemma reserved_slot_ok e last : 1 ≤ e ≤ u64_max → slot_ok (reserved_slot (V:=V) e last None).
Proof. intros He. constructor; simpl; try done. by intros [? _]. Qed.

(** The unit of the ledger for a new reservation is taken. *)
Definition one_more (l : HostResourceLedger) : Prop :=
  current (capabilities l) = current (capabilities (resources t)) + 1 ∧
  current (capabilities (resources t)) + 1 ≤ maximum_host_capabilities (limits (resources t)) ∧
  limits l = limits (resources t).

(** Another slot is reserved under an index that nothing holds. *)
Lemma promise_ok t' r :
  table_ok t' → reserved_by t' r →
  (∀ i s, i ≠ reserved_index r → slots t' !! i = Some s ↔ slots t !! i = Some s) →
  (∀ s, slots t !! reserved_index r = Some s → reserved s = false) →
  charges t' = charges t + 1 → promises t' = promises t + 1 → one_more (resources t') →
  world_ok (set_table w t' (pending w ++ [r])).
Proof.
  intros Ht' Hr Hsame Hfree Hch Hpr (Hc & Hm & Hl). pose proof Hw as [H1 H2 H3 H4 H0 H5 H6 H7].
  fold t in H1, H2, H4, H0, H5, H6.
  assert (Hnew : ∀ r', r' ∈ pending w → reserved_index r' ≠ reserved_index r).
  { intros r' Hin He. rewrite Forall_forall in H2. destruct (H2 r' Hin) as (s & Hs & Hres & _).
    rewrite He in Hs. rewrite (Hfree s Hs) in Hres. done. }
  constructor; cbn [table set_table pending elsewhere]; [done| | | | | | |done].
  - apply Forall_app. split; [|by constructor]. apply Forall_forall. intros r' Hin. rewrite Forall_forall in H2.
    destruct (H2 r' Hin) as (s & Hs & ?). exists s. split; [|done]. apply Hsame; [by apply Hnew|done].
  - rewrite fmap_app. apply NoDup_app. split; [done|]. split; [|by apply NoDup_singleton].
    intros i (r' & -> & Hin)%list_elem_of_fmap [He|[]%not_elem_of_nil]%elem_of_cons. by apply (Hnew r').
  - intros i s Hs Hres. rewrite fmap_app. apply elem_of_app. destruct (decide (i = reserved_index r)) as [->|Hne].
    + right. by left.
    + left. eapply H4; [by apply Hsame|done].
  - rewrite Hpr, H0, len_app. done.
  - rewrite Hc, H5, Hch. lia.
  - rewrite Hl. lia.
Qed.

Lemma reuse_ok i f s l kind rights :
  free t = i :: f → slots t !! i = Some s → reserved s = false → value s = None → slot_epoch s ≠ u64_max →
  one_more l →
  world_ok (set_table w
    (set_slots (set_resources t l) (<[i := reserved_slot (slot_epoch s + 1) (last_consumed_epoch s) None]> (slots t)) f)
    (pending w ++ [{| reserved_index := i; reserved_epoch := slot_epoch s + 1; reserved_kind := kind;
                      reserved_rights := rights |}])).
Proof.
  intros Hf Hs Hr Hv Hmax Hl. pose proof (tb_slots _ Ht i s Hs) as Hok. pose proof (sl_epoch _ Hok) as Hep.
  pose proof (sl_vacant _ Hok (conj Hr Hv)) as Hch. pose proof (tb_unique _ Ht) as Hn. rewrite Hf in Hn.
  apply NoDup_cons in Hn as [Hi Hn]. set (s' := reserved_slot _ _ _).
  assert (Hlt : (i < length (slots t))%nat) by by apply lookup_lt_Some in Hs.
  apply promise_ok; cbn [reserved_index]; [| | | | | |exact Hl].
  - destruct (table_ok_update t i s s' f Ht Hs) as [? ? ? ?]; [apply reserved_slot_ok; lia|done| |by constructor].
    intros j. rewrite Hf. split.
    + intros Hj. right. split; [by intros ->|by right].
    + intros [(-> & [? _] & _)|[Hne [|Hj]%elem_of_cons]]; done.
  - exists s'. simpl. by rewrite list_lookup_insert_eq.
  - intros j sj Hne. simpl. by rewrite list_lookup_insert_ne.
  - intros s0. congruence.
  - change (charges (set_slots t (<[i := s']> (slots t)) f) = charges t + 1).
    rewrite (charges_update t i s s' f Hs). unfold charge. rewrite Hch. simpl. lia.
  - unfold promises. simpl. rewrite (zsum_insert promise _ _ _ _ Hs). unfold promise. rewrite Hr. simpl. lia.
Qed.

Lemma push_ok l kind rights :
  len (slots t) < maximum_slots t → free t = [] → one_more l →
  world_ok (set_table w
    (set_slots (set_resources t l) (slots t ++ [reserved_slot 1 None None]) [])
    (pending w ++ [{| reserved_index := length (slots t); reserved_epoch := 1; reserved_kind := kind;
                      reserved_rights := rights |}])).
Proof.
  intros Hlt Hf Hl. set (s' := reserved_slot _ _ _).
  assert (Hs' : (slots t ++ [s']) !! length (slots t) = Some s') by by apply list_lookup_middle.
  apply promise_ok; cbn [reserved_index]; [| | | | | |exact Hl].
  - destruct Ht as [H1 H2 H3 H4]. constructor; cbn [slots free set_slots maximum_slots set_resources].
    + intros i s [Hi|[_ Hi]]%lookup_app_Some; [by apply (H1 i)|]. apply list_lookup_singleton_Some in Hi as [_ <-].
      by apply reserved_slot_ok.
    + constructor.
    + intros i. rewrite <-Hf, H3. split; intros (s & Hs & Hv & He).
      * exists s. split; [by apply lookup_app_l_Some|done].
      * apply lookup_app_Some in Hs as [Hs|[_ Hs]]; [by exists s|].
        apply list_lookup_singleton_Some in Hs as [_ <-]. by destruct Hv.
    + rewrite len_app, len_cons, len_nil. lia.
  - by exists s'.
  - intros i s Hne. cbn [slots set_slots]. split.
    + intros [Hi|[Hle Hi]]%lookup_app_Some; [done|]. apply list_lookup_singleton_Some in Hi as [Hi _]. lia.
    + intros Hi. by apply lookup_app_l_Some.
  - intros s Hs%lookup_lt_Some. lia.
  - unfold charges. simpl. rewrite fmap_app, zsum_app. done.
  - unfold promises. simpl. rewrite fmap_app, zsum_app. done.
Qed.

Lemma reserve_calls kind rights :
  match cap_reserve t kind rights with
  | (t', Ok r) =>
      world_ok (set_table w t' (pending w ++ [r])) ∧ advances t t' ∧ ∀ key, entry_at t' key = entry_at t key
  | (t', Err _) => world_ok (set_table w t' (pending w)) ∧ slots t' = slots t ∧ table_issuer t' = table_issuer t ∧
                   exhausted kind rights
  | (_, Panic) => False
  end.
Proof.
  unfold cap_reserve. destruct (_ || _) eqn:Ez.
  { split; [|split_and!; [done|done|unfold exhausted; lia]]. pose proof Hw as [? ? ? ? ? ? ? ?]. by constructor. }
  pose proof (wd_limit _ Hw) as Hlim. pose proof (wd_ledger _ Hw) as Hled. pose proof (wd_elsewhere _ Hw) as Hel.
  fold t in Hlim, Hled. pose proof (slot_charges_nonneg t) as Hch.
  pose proof (reserve_capability_spec (resources t) ltac:(lia)) as Hres. cbv zeta in Hres.
  destruct (reserve_capability (resources t)) as [l [[]|e|]]; [| |done].
  2: { destruct Hres as (Hc & Hl & Hfull). split; [|split_and!; [done|done|unfold exhausted; lia]].
       apply (resources_ok l (elsewhere w)); [lia|rewrite Hl; lia|done|done]. }
  destruct Hres as (Hc & Hm & Hl). cbn [free set_resources slots maximum_slots].
  destruct (free t) as [|i f] eqn:Ef.
  - destruct (drop_capability_spec l) as [Hd Hdl]; [lia|]. destruct (maximum_slots t <=? len (slots t)) eqn:Ecap.
    { pose proof (tb_bound _ Ht). split; [|split_and!; [done|done|unfold exhausted; right; right; right; split; [done|lia]]].
      apply (resources_ok (drop_capability l) (elsewhere w)); rewrite ?Hdl, ?Hl; [lia|lia|done|done]. }
    pose proof (tb_bound _ Ht) as Hbound. rewrite checked_add_fits by (change u64_max with usize_max; lia).
    split; [|split].
    + apply push_ok; [lia|done|done].
    + split; [done|]. intros j sj Hj. exists sj. split; [by apply lookup_app_l_Some|]. right. naive_solver.
    + intros key. by apply (entry_at_pushed t _ (free t) l).
  - assert (Hi : i ∈ free t) by (rewrite Ef; by left). apply (tb_free _ Ht) in Hi as (s & Hs & [Hr Hv] & Hmax).
    rewrite Hs, Hr, Hv. cbn [negb orb]. rewrite (proj2 (Z.eqb_neq _ _) Hmax).
    split; [|split].
    + by apply reuse_ok.
    + apply (advances_update t i s); [done|]. left. simpl. lia.
    + intros key. by apply (entry_at_reserved t i s).
Qed.
End reservations.
