(* ===== verification/CapTableHistory.v ===== *)
(** * Histories of the capability table

    Whatever plug-ins, callbacks and the host do, a name resolves to exactly the object it
    was issued for, as long as a lease is out, and never to anything else. *)

From S2P Require Import Prelude HostLedger CapTable CapTableRules CapTableSpec CapTableSlots.

Section histories.
Context {V : Type}.
Implicit Types (t : Table V) (w : World V).

(** ** Names that were issued *)
Definition issued (l : list (Answer V)) : list CapId :=
  omap (λ a, match a with Issued id => Some id | _ => None end) l.

(** The epoch of the slot is past the name, or the name is the current one and its slot was
    filled. *)
Definition past t (id : CapId) : Prop :=
  1 ≤ slot id ∧ ∃ s, slots t !! Z.to_nat (slot id - 1) = Some s ∧
    (epoch id < slot_epoch s ∨ (epoch id = slot_epoch s ∧ reserved s = false)).

Lemma past_advances t t' id : past t id → advances t t' → past t' id.
Proof.
  intros (Hid & s & Hs & He) [_ Ha]. split; [done|]. destruct (Ha _ s Hs) as (s' & Hs' & Hadv). exists s'.
  split; [done|]. unfold slot_advances in Hadv. destruct Hadv as [?|[? Hr]], He as [?|[? He]]; [left; lia..|].
  right. split; [lia|]. by apply Hr.
Qed.

(** A name that is gone stays gone. *)
Lemma gone_advances t t' id : past t id → advances t t' → entry_at t (id_key id) = None → entry_at t' (id_key id) = None.
Proof.
  intros (Hid & s & Hs & He) [_ Ha]. destruct (Ha _ s Hs) as (s' & Hs' & Hadv). unfold entry_at, id_key. cbn [fst snd].
  rewrite (proj2 (Z.ltb_ge _ _)) by lia. rewrite Hs, Hs'. intros Hn.
  destruct (slot_epoch s' =? epoch id) eqn:E; [|done]. destruct Hadv as [?|[Hep Hr]]; [lia|].
  destruct He as [?|[? Hres]]; [lia|]. rewrite (proj2 (Z.eqb_eq (slot_epoch s) (epoch id))) in Hn by lia.
  destruct (Hr Hres) as [_ Hv]. unfold entry_of in *. destruct (value s); [done|]. by rewrite Hv.
Qed.

(** ** Between two calls *)
Record calls_ok (w : World V) (iss : Z) (m : gmap (Z * Z) (Entry V)) (ids : list CapId) : Prop := {
  hs_world : world_ok w;
  hs_issuer : table_issuer (table w) = iss;
  hs_match key : m !! key = entry_at (table w) key;
  hs_past : Forall (past (table w)) ids;
  hs_unique : NoDup (id_key <$> ids)
}.

(** Names come over a C interface as unsigned integers. *)
Definition id_ok (id : CapId) : Prop := 0 ≤ slot id.
Definition op_ok (op : Op V) : Prop :=
  match op with
  | OpGet ids _ _ => Forall id_ok ids
  | OpRetain id | OpRelease id | OpSeal id => id_ok id
  | _ => True
  end.

Lemma calls_step w w' iss m m' ids :
  calls_ok w iss m ids → world_ok w' → advances (table w) (table w') →
  (∀ key, m' !! key = entry_at (table w') key) → calls_ok w' iss m' ids.
Proof.
  intros [H1 H2 H3 H4 H5] Hw Ha Hm. constructor; [done| |done| |done].
  - by rewrite <-H2; apply Ha.
  - eapply Forall_impl; [exact H4|]. intros id Hid. by eapply past_advances.
Qed.

Lemma get_many_answers t ids k r : table_ok t → Forall id_ok ids → get_many_exact t ids k r ≠ Panic.
Proof.
  intros Ht. induction 1 as [|id ids Hid _ IH]; [done|]. cbn [get_many_exact].
  rewrite (get_exact_spec t Ht id k r Hid). unfold spec_get, spec_find.
  destruct (validate_id (table_issuer t) id) as [[]|e|] eqn:Ev; [|done|].
  2: { unfold validate_id in Ev. repeat case_match; done. }
  cbn [obind]. destruct (entry_at t (id_key id)) as [e|]; [|done]. cbn [ok_or obind].
  destruct (named e id); [|done]. cbn [obind]. destruct (_ && _); [|done]. cbn [obind].
  by destruct (get_many_exact t ids k r).
Qed.

Section step.
Context (w : World V) (iss : Z) (m : gmap (Z * Z) (Entry V)) (ids : list CapId) (Hh : calls_ok w iss m ids).
Let t := table w.
Let Hw : world_ok w := hs_world _ _ _ _ Hh.

(** What one call establishes. *)
Definition call_ok (op : Op V) : Prop :=
  ∃ w' a, do_op w op = Some (w', a) ∧ calls_ok w' iss (hold_step m (op, a)) (ids ++ issued [a]) ∧
          advances t (table w').

Lemma call_quiet op w' a :
  do_op w op = Some (w', a) → issued [a] = [] → hold_step m (op, a) = m → world_ok w' →
  advances t (table w') → (∀ key, entry_at (table w') key = entry_at t key) → call_ok op.
Proof.
  intros Hd Hi Hm Hw' Ha He. exists w', a. split; [done|]. split; [|done]. rewrite Hi, app_nil_r, Hm.
  apply (calls_step w w' iss m m); [done|done|done|]. intros key. rewrite He. apply Hh.
Qed.

Lemma call_same op a : do_op w op = Some (w, a) → issued [a] = [] → hold_step m (op, a) = m → call_ok op.
Proof. intros Hd Hi Hm. by apply (call_quiet op w a Hd Hi Hm); [|apply advances_refl|]. Qed.

Lemma alter_match (f : Entry V → Entry V) t' id :
  (∀ key, entry_at t' key = if decide (key = id_key id) then f <$> entry_at t key else entry_at t key) →
  ∀ key, alter f (id_key id) m !! key = entry_at t' key.
Proof.
  intros He key. rewrite He. destruct (decide (key = id_key id)) as [->|Hne].
  - rewrite lookup_alter_eq. f_equal. apply Hh.
  - rewrite lookup_alter_ne by done. apply Hh.
Qed.

Lemma delete_match t' id :
  (∀ key, entry_at t' key = if decide (key = id_key id) then None else entry_at t key) →
  ∀ key, delete (id_key id) m !! key = entry_at t' key.
Proof.
  intros He key. rewrite He. destruct (decide (key = id_key id)) as [->|Hne].
  - apply lookup_delete_eq.
  - rewrite lookup_delete_ne by done. apply Hh.
Qed.

Lemma call_change op t' a :
  do_op w op = Some (set_table w t' (pending w), a) → issued [a] = [] → world_ok (set_table w t' (pending w)) →
  advances t t' → (∀ key, hold_step m (op, a) !! key = entry_at t' key) → call_ok op.
Proof.
  intros Hd Hi Hw' Ha He. eexists _, a. split; [done|]. split; [|done]. rewrite Hi, app_nil_r.
  by apply (calls_step w _ iss m).
Qed.

Lemma call_fill n v : call_ok (OpFill n v).
Proof.
  destruct (pending w !! n) as [r|] eqn:Hn.
  2: { apply (call_same _ Quiet); [cbn [do_op]; by rewrite Hn|done|done]. }
  destruct (fill_calls w Hw n r v Hn) as (t' & id & Hf & Hw' & Ha & Hiss & Hslot & Hep & He).
  exists (set_table w t' (delete n (pending w))), (Issued id). split; [cbn [do_op]; rewrite Hn; by rewrite Hf|].
  split; [|done]. change (issued [Issued id]) with [id].
  assert (Hm : ∀ key, hold_step m (OpFill n v, Issued id) !! key = entry_at t' key).
  { intros key. rewrite He. cbn [hold_step]. destruct (decide (key = id_key id)) as [->|Hne].
    - by rewrite lookup_insert_eq.
    - rewrite lookup_insert_ne by done. apply Hh. }
  destruct (calls_step w (set_table w t' (delete n (pending w))) iss m _ ids Hh Hw' Ha Hm) as [? ? ? Hpast ?].
  destruct (reserved_pending w Hw n r Hn) as (s & Hs & Hr & Hes & _).
  constructor; try done.
  - apply Forall_app. split; [done|]. constructor; [|done]. pose proof (He (id_key id)) as Hid.
    rewrite decide_True in Hid by done. cbn [table set_table]. unfold entry_at, id_key in Hid. cbn [fst snd] in Hid.
    destruct (slot id <? 1) eqn:E1; [done|]. split; [lia|].
    destruct (slots t' !! Z.to_nat (slot id - 1)) as [s'|] eqn:Hs'; [|done]. exists s'. split; [done|]. right.
    destruct (slot_epoch s' =? epoch id) eqn:E2; [|done]. split; [lia|].
    destruct (reserved s') eqn:Hr'; [|done]. pose proof (tb_slots _ (wd_table _ Hw') _ s' Hs') as Hok.
    unfold entry_of in Hid. destruct (sl_reserved _ Hok Hr') as [Hv _]. by rewrite Hv in Hid.
  - rewrite fmap_app. apply NoDup_app. split; [done|]. split; [|by apply NoDup_singleton].
    intros k Hk Hk'. apply list_elem_of_singleton in Hk' as ->.
    apply list_elem_of_fmap in Hk as (id0 & Heq & Hin).
    pose proof (hs_past _ _ _ _ Hh) as Hp. rewrite Forall_forall in Hp. destruct (Hp id0 Hin) as (H1 & s0 & Hs0 & Hx).
    injection Heq as Hslot0 Hep0. rewrite <-Hslot0, Hslot in Hs0. fold t in Hs0.
    replace (Z.to_nat (Z.of_nat (reserved_index r) + 1 - 1)) with (reserved_index r) in Hs0 by lia.
    fold t in Hs. rewrite Hs in Hs0. injection Hs0 as <-. destruct Hx as [Hx|[_ Hx]]; [lia|congruence].
Qed.

Lemma call_elsewhere take : call_ok (OpElsewhere take).
Proof.
  pose proof (wd_limit _ Hw) as Hlim. pose proof (wd_ledger _ Hw) as Hled. pose proof (wd_elsewhere _ Hw) as Hel.
  fold t in Hlim, Hled. pose proof (slot_charges_nonneg t) as Hch. destruct take.
  - pose proof (reserve_capability_spec (resources t) ltac:(lia)) as Hres. cbv zeta in Hres.
    destruct (reserve_capability (resources t)) as [l [[]|e|]] eqn:E; [| |done]; destruct Hres as (Hc & H1 & H2).
    + eapply call_quiet; [cbn [do_op]; fold t; by rewrite E|done|done| |by apply advances_refl|done].
      apply (resources_ok w Hw l (elsewhere w + 1)); fold t; rewrite ?H2; first [done|lia].
    + eapply call_quiet; [cbn [do_op]; fold t; by rewrite E|done|done| |by apply advances_refl|done].
      apply (resources_ok w Hw l (elsewhere w)); fold t; rewrite ?H1; first [done|lia].
  - destruct (elsewhere w =? 0) eqn:E0.
    { apply (call_same _ Quiet); [cbn [do_op]; by rewrite E0|done|done]. }
    destruct (drop_capability_spec (resources t)) as [Hd Hdl]; [lia|].
    eapply call_quiet; [cbn [do_op]; by rewrite E0|done|done| |by apply advances_refl|done].
    apply (resources_ok w Hw (drop_capability (resources t)) (elsewhere w - 1)); fold t; rewrite ?Hdl, ?Hd; first [done|lia].
Qed.

Lemma do_call_kept op : op_ok op → call_ok op.
Proof.
  intros Hop. pose proof (wd_table _ Hw) as Ht. destruct op as [k r|n v|n|l k r|id|id|id|take].
  - pose proof (reserve_calls w Hw k r) as Hr. fold t in Hr.
    destruct (cap_reserve t k r) as [t' [res|e|]] eqn:E; [| |done].
    + destruct Hr as (Hw' & Ha & He). eapply call_quiet; try done; [cbn [do_op]; fold t; by rewrite E|done..].
    + destruct Hr as (Hw' & Hs & Hi & _).
      eapply call_quiet; [cbn [do_op]; fold t; by rewrite E|done|done|done|by apply advances_refl|].
      intros key. unfold entry_at. cbn [table set_table]. by rewrite Hs.
  - apply call_fill.
  - destruct (pending w !! n) as [r|] eqn:Hn.
    2: { apply (call_same _ Quiet); [cbn [do_op]; by rewrite Hn|done|done]. }
    destruct (drop_calls w Hw n r Hn) as (t' & Hd & Hw' & Ha & He).
    eapply call_quiet; [cbn [do_op]; rewrite Hn; fold t; fold t in Hd; by rewrite Hd|done|done|done|done|done].
  - pose proof (get_many_answers t l k r Ht Hop) as Hn. destruct (get_many_exact t l k r) as [vs|e|] eqn:E; [| |done].
    + apply (call_same _ (Values vs)); [cbn [do_op]; fold t; by rewrite E|done|done].
    + apply (call_same _ (Failed e)); [cbn [do_op]; fold t; by rewrite E|done|done].
  - pose proof (retain_calls w Hw id Hop) as Hr. fold t in Hr. destruct (retain t id) as [t'|e|] eqn:E; [| |done].
    + destruct Hr as (_ & Hw' & Ha & He). apply (call_change _ t' Retained); try done.
      * cbn [do_op]. fold t. by rewrite E.
      * by apply alter_match.
    + apply (call_same _ (Failed e)); [cbn [do_op]; fold t; by rewrite E|done|done].
  - pose proof (release_calls w Hw id Hop) as Hr. fold t in Hr. destruct (release t id) as [[t' o]|e|] eqn:E; [| |done].
    + destruct Hr as (_ & Hw' & Ha & He). apply (call_change _ t' (Released o)); try done.
      * cbn [do_op]. fold t. by rewrite E.
      * destruct o; [by apply delete_match|by apply alter_match].
    + apply (call_same _ (Failed e)); [cbn [do_op]; fold t; by rewrite E|done|done].
  - pose proof (seal_calls w Hw id Hop) as Hr. fold t in Hr. destruct (seal t id) as [[t' v]|e|] eqn:E; [| |done].
    + destruct Hr as (_ & Hw' & Ha & He). apply (call_change _ t' (Released (Some v))); try done.
      * cbn [do_op]. fold t. by rewrite E.
      * by apply delete_match.
    + apply (call_same _ (Failed e)); [cbn [do_op]; fold t; by rewrite E|done|done].
  - apply call_elsewhere.
Qed.
End step.

(** ** The table and its entries *)
Lemma spec_find_ext iss look look' (id : CapId) :
  (∀ key, look key = look' key) → @spec_find V iss look id = spec_find iss look' id.
Proof. intros H. unfold spec_find. by rewrite H. Qed.

(** A name that is gone fails in every call. *)
Lemma gone_fails w id k r :
  world_ok w → id_ok id → entry_at (table w) (id_key id) = None →
  is_ok (get_exact (table w) id k r) = false ∧ is_ok (retain (table w) id) = false ∧
  is_ok (release (table w) id) = false ∧ is_ok (seal (table w) id) = false.
Proof.
  intros Hw Hid Hg. assert (Hf : ∃ e, spec_find (table_issuer (table w)) (entry_at (table w)) id = Err e).
  { unfold spec_find. destruct (validate_id _ id) as [[]|e|] eqn:Ev; cbn [obind].
    - rewrite Hg. by eexists.
    - by eexists.
    - unfold validate_id in Ev. repeat case_match; done. }
  destruct Hf as [e Hf]. split_and!.
  - rewrite (get_exact_spec _ (wd_table _ Hw) id k r Hid). unfold spec_get. by rewrite Hf.
  - pose proof (retain_calls w Hw id Hid) as H. destruct (retain (table w) id); [|done..].
    destruct H as [H _]. unfold spec_retain in H. by rewrite Hf in H.
  - pose proof (release_calls w Hw id Hid) as H. destruct (release (table w) id) as [[t' o]|x|]; [|done..].
    destruct H as [H _]. unfold spec_release in H. rewrite Hf in H. destruct e; naive_solver.
  - pose proof (seal_calls w Hw id Hid) as H. destruct (seal (table w) id) as [[t' o]|x|]; [|done..].
    destruct H as [H _]. unfold spec_seal in H. by rewrite Hf in H.
Qed.

Lemma charges_split t : table_ok t → charges t = len (omap value (slots t)) + promises t.
Proof.
  intros [H _ _ _]. unfold charges, promises. assert (Hall : Forall slot_ok (slots t)).
  { apply Forall_lookup. exact H. }
  clear H. induction Hall as [|s l Hs _ IH]; [done|]. rewrite !fmap_cons, !zsum_cons, IH. cbn [omap list_omap].
  destruct Hs as [_ Hres Hlive Hvac]. unfold charge, promise, vacant in *. destruct (value s) as [v|] eqn:Hv.
  - destruct (Hlive v eq_refl) as (-> & _). destruct (reserved s); [by destruct (Hres eq_refl)|].
    rewrite len_cons. lia.
  - destruct (reserved s); [destruct (Hres eq_refl) as [_ ->]; lia|]. rewrite Hvac by done. lia.
Qed.

Lemma drop_slots l : ∀ ledger : HostResourceLedger,
  zsum (@charge V <$> l) ≤ current (capabilities ledger) ≤ usize_max →
  current (capabilities (foldl discharge ledger l)) = current (capabilities ledger) - zsum (charge <$> l).
Proof.
  induction l as [|s l IH]; intros ledger; [simpl; rewrite zsum_nil; lia|]. rewrite fmap_cons, zsum_cons. intros Hb.
  assert (0 ≤ zsum (charge <$> l)).
  { apply zsum_nonneg, Forall_fmap, Forall_true. intros x. unfold charge. simpl. by case_match. }
  assert (0 ≤ charge s) by (unfold charge; by case_match).
  destruct (discharge_spec ledger s) as [Hc _]; [lia|]. cbn [foldl]. rewrite IH by lia. lia.
Qed.

Lemma drop_table_ledger w :
  world_ok w → current (capabilities (drop_table (table w)).1) = current (capabilities (resources (table w))) - charges (table w).
Proof.
  intros Hw. pose proof (wd_limit _ Hw). pose proof (wd_ledger _ Hw). pose proof (wd_elsewhere _ Hw).
  unfold drop_table. cbn [fst]. apply drop_slots. unfold charges in *. lia.
Qed.

(** ** Whole histories *)
Lemma run_calls_kept ops : ∀ w iss m ids,
  calls_ok w iss m ids → Forall op_ok ops →
  ∃ w' answers, run w ops = Some (w', answers) ∧ length answers = length ops ∧
    calls_ok w' iss (foldl hold_step m (zip ops answers)) (ids ++ issued answers) ∧
    advances (table w) (table w').
Proof.
  induction ops as [|op ops IH]; intros w iss m ids Hh Hops; cbn [run].
  { exists w, []. split_and!; [done|done| |by apply advances_refl]. simpl. by rewrite app_nil_r. }
  apply Forall_cons in Hops as [Hop Hops]. destruct (do_call_kept w iss m ids Hh op Hop) as (w1 & a & -> & Hh1 & Ha1).
  destruct (IH w1 iss _ _ Hh1 Hops) as (w2 & l & -> & Hlen & Hh2 & Ha2). exists w2, (a :: l).
  split; [done|]. split; [by simpl; f_equal|]. split; [|by eapply advances_trans].
  cbn [zip zip_with foldl]. replace (ids ++ issued (a :: l)) with ((ids ++ issued [a]) ++ issued l); [done|].
  rewrite <-app_assoc. f_equal. change (a :: l) with ([a] ++ l). unfold issued. by rewrite omap_app.
Qed.

(** A new table over the ledger of a catalog. *)
Definition new_ok (iss maximum : Z) (l : HostResourceLedger) : Prop :=
  0 ≤ maximum ≤ usize_max ∧ 0 ≤ current (capabilities l) ≤ maximum_host_capabilities (limits l) ∧
  maximum_host_capabilities (limits l) ≤ usize_max.

Lemma new_calls_ok iss maximum l :
  new_ok iss maximum l → calls_ok (world_new (table_new iss maximum l)) iss ∅ [].
Proof.
  intros (Hmax & Hc & Hl). constructor; [|done| |constructor|constructor].
  - constructor; cbn; [|constructor|constructor|done|done| |lia|lia].
    + constructor; cbn; [done|constructor| |unfold len; simpl; lia].
      intros i. split; [by intros ?%not_elem_of_nil|]. by intros (s & ? & _).
    + unfold charges. simpl. rewrite zsum_nil. lia.
  - intros key. rewrite lookup_empty. unfold entry_at. simpl. by destruct (_ <? _).
Qed.

Definition start (iss maximum : Z) (l : HostResourceLedger) : World V := world_new (table_new iss maximum l).

Lemma calls_kept iss maximum l ops :
  new_ok iss maximum l → Forall op_ok ops →
  ∃ w answers, run (start iss maximum l) ops = Some (w, answers) ∧
               calls_ok w iss (holdings ops answers) (issued answers).
Proof.
  intros Hf Hops. destruct (run_calls_kept ops _ _ _ _ (new_calls_ok iss maximum l Hf) Hops) as (w & a & ? & _ & ? & _).
  by exists w, a.
Qed.

(** The answer of a call without the state behind it. *)
Definition answer {E A B} (f : A → B) (o : outcome E A) : outcome E B :=
  match o with Ok a => Ok (f a) | Err e => Err e | Panic => Panic end.

(** C11: a name resolves exactly to what it was issued for: after any history of calls, none
    of which panics, every lookup, lease, release and seal of any name, forged ones included,
    answers as the names in use and the leases that the previous calls and answers left out
    say: the object only under the slot, epoch, kind and rights it was issued with, a lease
    only where the rights allow it, the object back with the last lease and not before. *)
Theorem names_resolve_exactly iss maximum l ops :
  new_ok iss maximum l → Forall op_ok ops →
  ∃ w answers, run (start iss maximum l) ops = Some (w, answers) ∧
    let look key := holdings ops answers !! key in
    ∀ id, id_ok id →
      (∀ k r, get_exact (table w) id k r = spec_get iss look id k r) ∧
      answer (λ _, ()) (retain (table w) id) = spec_retain iss look id ∧
      spec_release iss look id (answer snd (release (table w) id)) ∧
      answer snd (seal (table w) id) = spec_seal iss look id.
Proof.
  intros Hf Hops. destruct (calls_kept iss maximum l ops Hf Hops) as (w & a & Hr & Hh). exists w, a. split; [done|].
  destruct Hh as [Hw Hi Hm _ _]. cbv zeta. intros id Hid. pose proof (wd_table _ Hw) as Ht.
  unfold spec_get, spec_retain, spec_release, spec_seal. rewrite (spec_find_ext _ _ _ id Hm), <-Hi. split_and!.
  - intros k r. rewrite (get_exact_spec _ Ht id k r Hid). done.
  - pose proof (retain_calls w Hw id Hid) as H. destruct (retain (table w) id); [|done..]. by destruct H as [H _].
  - pose proof (release_calls w Hw id Hid) as H. destruct (release (table w) id) as [[t' o]|e|]; [|done..]. by destruct H.
  - pose proof (seal_calls w Hw id Hid) as H. destruct (seal (table w) id) as [[t' v]|e|]; [|done..]. by destruct H as [H _].
Qed.

(** C12: names are never reused: over any history all names that were issued differ in slot or
    epoch, and once a name is given up no later call resolves it, whatever slots are reused,
    whatever the kind and rights it is asked under. *)
Theorem names_never_reused iss maximum l ops ops' :
  new_ok iss maximum l → Forall op_ok ops → Forall op_ok ops' →
  ∃ w answers w' answers', run (start iss maximum l) ops = Some (w, answers) ∧ run w ops' = Some (w', answers') ∧
    NoDup (id_key <$> issued (answers ++ answers')) ∧
    ∀ id k r, id ∈ issued answers → holdings ops answers !! id_key id = None →
      is_ok (get_exact (table w') id k r) = false ∧ is_ok (retain (table w') id) = false ∧
      is_ok (release (table w') id) = false ∧ is_ok (seal (table w') id) = false.
Proof.
  intros Hf Hops Hops'. destruct (calls_kept iss maximum l ops Hf Hops) as (w & a & Hr & Hh).
  destruct (run_calls_kept ops' w _ _ _ Hh Hops') as (w' & a' & Hr' & _ & Hh' & Ha). exists w, a, w', a'.
  split; [done|]. split; [done|]. split; [unfold issued; rewrite omap_app; apply Hh'|].
  intros id k r Hin Hgone. pose proof (hs_past _ _ _ _ Hh) as Hp. rewrite Forall_forall in Hp. specialize (Hp id Hin).
  rewrite (hs_match _ _ _ _ Hh) in Hgone. pose proof (gone_advances _ _ _ Hp Ha Hgone) as Hg.
  pose proof (hs_world _ _ _ _ Hh') as Hw. assert (Hid : id_ok id) by (destruct Hp; unfold id_ok; lia).
  apply gone_fails; done.
Qed.

(** C17: no slot and no unit of the ledger is lost: after any history the ledger counts exactly
    the live slots, the reservations that are held and those of other tables, within the
    limit; every slot is live, reserved by a reservation that is held, free, or out of epochs;
    a reservation is refused only when the ledger or the table is full; and dropping the
    table when nothing is reserved gives every unit back. *)
Theorem slots_accounted iss maximum l ops :
  new_ok iss maximum l → Forall op_ok ops →
  ∃ w answers, run (start iss maximum l) ops = Some (w, answers) ∧
    let t := table w in let c := current (capabilities (resources t)) in
    c = len (omap value (slots t)) + len (pending w) + elsewhere w ∧
    c ≤ maximum_host_capabilities (limits (resources t)) ∧ len (slots t) ≤ maximum_slots t ∧
    (∀ i s, slots t !! i = Some s →
       is_Some (value s) ∨ i ∈ reserved_index <$> pending w ∨ i ∈ free t ∨ slot_epoch s = u64_max) ∧
    (∀ k r t' e, cap_reserve t k r = (t', Err e) → exhausted w k r) ∧
    (pending w = [] → current (capabilities (drop_table t).1) = elsewhere w).
Proof.
  intros Hf Hops. destruct (calls_kept iss maximum l ops Hf Hops) as (w & a & Hr & Hh). exists w, a. split; [done|].
  pose proof (hs_world _ _ _ _ Hh) as Hw. cbv zeta. pose proof (wd_ledger _ Hw) as Hled.
  pose proof (charges_split _ (wd_table _ Hw)) as Hsplit. rewrite (wd_count _ Hw) in Hsplit.
  split; [lia|]. split; [apply Hw|]. split; [apply (wd_table _ Hw)|]. split; [|split].
  - intros i s Hs. destruct (value s) as [v|] eqn:Hv; [by left; exists v|]. right.
    destruct (reserved s) eqn:Hres; [left; by eapply wd_all|]. right.
    destruct (decide (slot_epoch s = u64_max)); [by right|]. left. apply (tb_free _ (wd_table _ Hw)). by exists s.
  - intros k r t' e He. pose proof (reserve_calls w Hw k r) as H. rewrite He in H. by destruct H as (_ & _ & _ & ?).
  - intros Hp. rewrite (drop_table_ledger w Hw). lia.
Qed.
End histories.

(** ** A history *)
Section samples.
Definition sample_limits : NativeCatalogLimits :=
  {| maximum_cache_bytes := 0; maximum_cache_artifacts := 0; maximum_staging_bytes := 0;
     maximum_host_capabilities := 2; maximum_host_outputs := 0; maximum_host_output_bytes := 0 |}.
Definition sample_name (ep : Z) : CapId := {| issuer := 9; slot := 1; epoch := ep; kind := 3; rights := 3 |}.

(** A slot is filled, leased twice, given up twice and reused. *)
Definition sample_calls : list (Op Z) :=
  [OpReserve 3 3; OpFill 0 100; OpRetain (sample_name 1); OpRelease (sample_name 1); OpRelease (sample_name 1);
   OpRelease (sample_name 1); OpReserve 3 3; OpFill 0 200; OpRelease (sample_name 1); OpGet [sample_name 2] 3 3].
Example sample_answers :
  snd <$> run (start 9 2 (host_ledger_new sample_limits)) sample_calls =
    Some [Quiet; Issued (sample_name 1); Retained; Released None; Released (Some 100); Failed Protocol; Quiet;
          Issued (sample_name 2); Failed Stale; Values [200]].
Proof. reflexivity. Qed.

Lemma sample_fresh : new_ok 9 2 (host_ledger_new sample_limits).
Proof. unfold new_ok, usize_max. cbn. lia. Qed.
Lemma sample_calls_ok : Forall (@op_ok Z) sample_calls.
Proof. unfold sample_calls. repeat (apply Forall_cons; split); try done; apply Forall_cons; done. Qed.
End samples.

Lemma names_resolve_exactly_witness :
  ∃ w answers, run (start 9 2 (host_ledger_new sample_limits)) sample_calls = Some (w, answers) ∧
    get_exact (table w) (sample_name 1) 3 3 =
      spec_get 9 (λ key, holdings sample_calls answers !! key) (sample_name 1) 3 3.
Proof.
  destruct (names_resolve_exactly 9 2 _ _ sample_fresh sample_calls_ok) as (w & a & Hr & H).
  exists w, a. exact (conj Hr (proj1 (H (sample_name 1) ltac:(unfold id_ok; simpl; lia)) 3 3)).
Defined.

Lemma names_never_reused_witness :
  ∃ w answers w' answers', run (start 9 2 (host_ledger_new sample_limits)) sample_calls = Some (w, answers) ∧
    run w sample_calls = Some (w', answers') ∧ NoDup (id_key <$> issued (answers ++ answers')).
Proof.
  destruct (names_never_reused 9 2 _ _ _ sample_fresh sample_calls_ok sample_calls_ok)
    as (w & a & w' & a' & Hr & Hr' & Hn & _).
  exists w, a, w', a'. exact (conj Hr (conj Hr' Hn)).
Defined.

Lemma slots_accounted_witness :
  ∃ w answers, run (start 9 2 (host_ledger_new sample_limits)) sample_calls = Some (w, answers) ∧
    current (capabilities (resources (table w))) = len (omap value (slots (table w))) + len (pending w) + elsewhere w.
Proof.
  destruct (slots_accounted 9 2 _ _ sample_fresh sample_calls_ok) as (w & a & Hr & H & _).
  exists w, a. exact (conj Hr H).
Defined.
