(* ===== verification/Editor.v ===== *)
(** * The editor of the terminal

    [crates/rsi/terminal-ui/src/editor.rs] and [editor/journal.rs]: a text with a cursor, and
    a journal of splices for undo and redo that is kept within a budget of bytes.

    A [String] is its scalar values; a position is a byte offset, and slicing at an offset
    that is not a character boundary panics.  The grapheme segmentation of the
    [unicode-segmentation] crate is the parameter [graphemes]; keys are the events of
    [termina] as far as the editor reads them.  [capacity] is the [String::capacity] of the
    text under [reserve_exact]. *)

From S2P Require Import Prelude Text.

Definition MAX_TEXT : Z := 1048576.
Definition MAXIMUM_CHANGES : Z := 128.
Definition MAXIMUM_BYTES : Z := 1048576.

(** ** Byte offsets *)

(** Splits at a byte offset; [None] is a panic. *)
Fixpoint split_at (t : text) (n : Z) : option (text * text) :=
  if n =? 0 then Some ([], t) else
  match t with
  | [] => None
  | c :: t =>
      if n <? scalar_bytes c then None else
      match split_at t (n - scalar_bytes c) with Some (a, b) => Some (c :: a, b) | None => None end
  end.

(** [&text[start..end]] with what is before and behind it. *)
Definition slice (t : text) (start stop : Z) : option (text * text * text) :=
  if stop <? start then None else
  match split_at t start with
  | None => None
  | Some (pre, rest) =>
      match split_at rest (stop - start) with Some (mid, post) => Some (pre, mid, post) | None => None end
  end.

(** [str::find] and [str::rfind] of a line feed. *)
Fixpoint find_line (t : text) : option Z :=
  match t with
  | [] => None
  | c :: t => if c =? 10 then Some 0 else match find_line t with Some n => Some (scalar_bytes c + n) | None => None end
  end.
Fixpoint rfind_line (t : text) : option Z :=
  match t with
  | [] => None
  | c :: t =>
      match rfind_line t with
      | Some n => Some (scalar_bytes c + n)
      | None => if c =? 10 then Some 0 else None
      end
  end.

(** ** The journal *)
Record Change := {
  change_start : Z;
  removed : text;
  inserted : text;
  before : Z;
  after : Z
}.
Definition change_bytes (c : Change) : Z := text_len (removed c) + text_len (inserted c).

(** The newest undo first, the next redo first. *)
Record Journal := { undo : list Change; redo : list Change; journal_bytes : Z }.
Definition journal_default : Journal := {| undo := []; redo := []; journal_bytes := 0 |}.

Open Scope outcome_scope.
Abbreviation result := (outcome string).

(** [pop_front] of the undos, [remove(0)] of the redos: the oldest one. *)
Fixpoint pop_oldest {A} (l : list A) : option (A * list A) :=
  match l with
  | [] => None
  | x :: l => match pop_oldest l with Some (y, l) => Some (y, x :: l) | None => Some (x, []) end
  end.

Definition over_budget (j : Journal) (budget : Z) : bool :=
  (Z.min budget MAXIMUM_BYTES <? journal_bytes j) || (MAXIMUM_CHANGES <? len (undo j) + len (redo j)).

(** One turn of the loop of [Journal::trim]. *)
Definition drop_change (j : Journal) : result Journal :=
  match pop_oldest (undo j) with
  | Some (c, l) =>
      let? n := expect (checked_sub (journal_bytes j) (change_bytes c)) in
      Ok {| undo := l; redo := redo j; journal_bytes := n |}
  | None =>
      let? (c, l) := expect (pop_oldest (redo j)) in
      let? n := expect (checked_sub (journal_bytes j) (change_bytes c)) in
      Ok {| undo := undo j; redo := l; journal_bytes := n |}
  end.

Fixpoint trim_loop (fuel : nat) (j : Journal) (budget : Z) : result Journal :=
  if over_budget j budget then
    match fuel with
    | O => Panic
    | S fuel => let? j := drop_change j in trim_loop fuel j budget
    end
  else Ok j.
(** Every turn drops a change. *)
Definition trim (j : Journal) (budget : Z) : result Journal :=
  trim_loop (length (undo j) + length (redo j)) j budget.

(** [redo.drain(..)] *)
Fixpoint drain (bytes : Z) (l : list Change) : option Z :=
  match l with
  | [] => Some bytes
  | c :: l => match checked_sub bytes (change_bytes c) with Some n => drain n l | None => None end
  end.

(** [Journal::record] *)
Definition record (j : Journal) (c : Change) (budget : Z) : result Journal :=
  let? n := expect (drain (journal_bytes j) (redo j)) in
  trim {| undo := c :: undo j; redo := []; journal_bytes := n + change_bytes c |} budget.

(** ** Keys *)
Inductive KeyCode :=
| Char (c : Z) | Enter | Left | Right | Up | Down | Home | End | Backspace | Delete | OtherKey.
Record Modifiers := { control : bool; alt : bool; shift : bool }.

(** ** The editor *)
Record Editor := {
  content : text;
  cursor : Z;
  limit : Z;
  retention_limit : Z;
  journal : Journal;
  capacity : Z
}.

(** [Editor::with_text]; the capacity is that of the given string. *)
Definition with_text (t : text) (limit capacity : Z) : Editor :=
  {| content := t; cursor := text_len t; limit := limit; retention_limit := MAX_TEXT + MAXIMUM_BYTES;
     journal := journal_default; capacity := capacity |}.
Definition editor_default : Editor := with_text [] MAX_TEXT 0.

Definition set_cursor (e : Editor) (n : Z) : Editor :=
  {| content := content e; cursor := n; limit := limit e; retention_limit := retention_limit e;
     journal := journal e; capacity := capacity e |}.
Definition set_content (e : Editor) (t : text) (n capacity : Z) (j : Journal) : Editor :=
  {| content := t; cursor := n; limit := limit e; retention_limit := retention_limit e;
     journal := j; capacity := capacity |}.

Definition retained_bytes (e : Editor) : Z := capacity e + journal_bytes (journal e).

(** [String::reserve_exact] *)
Definition reserve_exact (e : Editor) (additional : Z) : Z := Z.max (capacity e) (text_len (content e) + additional).

Definition set_retention_limit (e : Editor) (budget : Z) : result Editor :=
  let retention := Z.min budget (MAX_TEXT + MAXIMUM_BYTES) in
  let cap := if retention <? capacity e then text_len (content e) else capacity e in
  let? j := trim (journal e) (saturating_sub retention cap) in
  Ok {| content := content e; cursor := cursor e; limit := limit e; retention_limit := retention; journal := j;
        capacity := cap |}.

Definition forbidden (t : text) : bool := existsb (λ c, (c =? 0) || (c =? 127)) t.
(** [replace("\r\n", "\n").replace('\r', "\n")] *)
Fixpoint normalize (t : text) : text :=
  match t with
  | [] => []
  | c :: t => if c =? 13 then match t with
                              | d :: _ => if d =? 10 then normalize t else 10 :: normalize t
                              | [] => [10]
                              end
              else c :: normalize t
  end.
Definition size_limit (e : Editor) : Z := Z.min (Z.min (limit e) MAX_TEXT) (retention_limit e).

Definition NUL_OR_DEL : string := "Input contains NUL or DEL; nothing was inserted".
Definition TOO_LARGE : string := "Input exceeds its size limit; nothing was inserted".
Definition NOT_ALIGNED : string := "Completion range is not aligned with the input".

Section editor.
Context (graphemes : text → list text).

(** The offsets of [grapheme_indices]. *)
Fixpoint offsets_from (n : Z) (l : list text) : list Z :=
  match l with [] => [] | s :: l => n :: offsets_from (n + text_len s) l end.
Definition offsets (t : text) : list Z := offsets_from 0 (graphemes t).

(** [Editor::replace] *)
Definition replace (e : Editor) (start stop : Z) (value : text) : result Editor :=
  let? (pre, mid, post) := expect (slice (content e) start stop) in
  if bool_decide (mid = value) then Ok e else
  let cap := reserve_exact e (saturating_sub (text_len value) (stop - start)) in
  let t := pre ++ value ++ post in
  let n := match find (λ o, start + text_len value <=? o) (offsets t) with
           | Some o => o
           | None => text_len t
           end in
  let c := {| change_start := start; removed := mid; inserted := value; before := cursor e; after := n |} in
  let? j := record (journal e) c (saturating_sub (retention_limit e) cap) in
  Ok (set_content e t n cap j).

Definition insert (e : Editor) (t : text) : result Editor :=
  if forbidden t then Err NUL_OR_DEL else
  let normalized := normalize t in
  if size_limit e <? saturating_add usize_max (text_len (content e)) (text_len normalized) then Err TOO_LARGE else
  replace e (cursor e) (cursor e) normalized.

Definition replace_text (e : Editor) (t : text) : result Editor :=
  if forbidden t then Err NUL_OR_DEL else
  if size_limit e <? text_len t then Err TOO_LARGE else
  replace e 0 (text_len (content e)) t.

Definition replace_range (e : Editor) (start stop : Z) (t : text) : result Editor :=
  let boundary n := (n =? text_len (content e)) || existsb (λ o, o =? n) (offsets (content e)) in
  if (stop <? start) || (text_len (content e) <? stop) || negb (boundary start) || negb (boundary stop)
  then Err NOT_ALIGNED else
  if forbidden t then Err NUL_OR_DEL else
  if size_limit e <?
     saturating_add usize_max (saturating_sub (text_len (content e)) (stop - start)) (text_len t)
  then Err TOO_LARGE else
  replace e start stop t.

(** [Editor::travel]: [String::replace_range] only needs its range to be on boundaries. *)
Definition travel (e : Editor) (forward : bool) : result Editor :=
  let j := journal e in
  match (if forward then redo j else undo j) with
  | [] => Ok e
  | c :: l =>
      let remove := if forward then text_len (removed c) else text_len (inserted c) in
      let value := if forward then inserted c else removed c in
      let n := if forward then after c else before c in
      let cap := reserve_exact e (saturating_sub (text_len value) remove) in
      let? (pre, _, post) := expect (slice (content e) (change_start c) (change_start c + remove)) in
      let j := if forward
               then {| undo := c :: undo j; redo := l; journal_bytes := journal_bytes j |}
               else {| undo := l; redo := c :: redo j; journal_bytes := journal_bytes j |} in
      let? j := trim j (saturating_sub (retention_limit e) cap) in
      Ok (set_content e (pre ++ value ++ post) n cap j)
  end.

(** [Editor::take]: the text that is submitted. *)
Definition take_text (e : Editor) : Editor * text :=
  (set_content e [] 0 0 journal_default, content e).

Definition previous (e : Editor) : result Z :=
  let? (head, _) := expect (split_at (content e) (cursor e)) in
  Ok (match last (offsets head) with Some i => i | None => 0 end).

Definition next (e : Editor) : result Z :=
  let? (_, tail) := expect (split_at (content e) (cursor e)) in
  Ok (match graphemes tail with s :: _ => cursor e + text_len s | [] => cursor e end).

(** The start of the line of the cursor. *)
Definition line_start (e : Editor) : result Z :=
  let? (head, _) := expect (split_at (content e) (cursor e)) in
  Ok (match rfind_line head with Some i => i + 1 | None => 0 end).

(** The line above or below: its first and last offset. *)
Definition line_above (e : Editor) (start : Z) : result (option (Z * Z)) :=
  match checked_sub start 1 with
  | None => Ok None
  | Some stop =>
      let? (head, _) := expect (split_at (content e) stop) in
      Ok (Some (match rfind_line head with Some i => i + 1 | None => 0 end, stop))
  end.
Definition line_below (e : Editor) : result (option (Z * Z)) :=
  let? (_, tail) := expect (split_at (content e) (cursor e)) in
  match find_line tail with
  | None => Ok None
  | Some offset =>
      let start := cursor e + offset + 1 in
      let? (_, rest) := expect (split_at (content e) start) in
      Ok (Some (start, start + match find_line rest with
                               | Some n => n
                               | None => text_len (content e) - start
                               end))
  end.

Definition vertical (e : Editor) (up : bool) : result Editor :=
  let? start := line_start e in
  let? (_, line, _) := expect (slice (content e) start (cursor e)) in
  let column := length (graphemes line) in
  let? range := if up then line_above e start else line_below e in
  match range with
  | None => Ok e
  | Some (start, stop) =>
      let? (_, line, _) := expect (slice (content e) start stop) in
      Ok (set_cursor e (start + match offsets line !! column with Some o => o | None => stop - start end))
  end.

Definition line_end (e : Editor) : result Z :=
  let? (_, tail) := expect (split_at (content e) (cursor e)) in
  Ok (cursor e + match find_line tail with Some n => n | None => text_len (content e) - cursor e end).

(** [Editor::key]: lower and upper case letters as the terminal sends them. *)
Definition key (e : Editor) (code : KeyCode) (m : Modifiers) : result Editor :=
  let ch c := match code with Char x => x =? c | _ => false end in
  if (ch 122 || ch 90) && (control m || alt m) then travel e (alt m || shift m) else
  if ch 106 && control m then insert e [10] else
  if match code with Enter => shift m | _ => false end then insert e [10] else
  if ch 97 && control m then Ok (set_cursor e 0) else
  if ch 101 && control m then Ok (set_cursor e (text_len (content e))) else
  if ch 117 && control m then replace e 0 (cursor e) [] else
  match code with
  | Left => let? n := previous e in Ok (set_cursor e n)
  | Right => let? n := next e in Ok (set_cursor e n)
  | Up => vertical e true
  | Down => vertical e false
  | Home => let? n := line_start e in Ok (set_cursor e n)
  | End => let? n := line_end e in Ok (set_cursor e n)
  | Backspace => let? n := previous e in replace e n (cursor e) []
  | Delete => let? n := next e in replace e (cursor e) n []
  | Char c => if negb (control m) && negb (alt m) then insert e [c] else Ok e
  | Enter | OtherKey => Ok e
  end.

(** ** Histories *)
Inductive Op :=
| Insert (t : text)
| ReplaceText (t : text)
| ReplaceRange (start stop : Z) (t : text)
| Key (code : KeyCode) (m : Modifiers)
| Take
| Retain (budget : Z).

(** An error leaves the editor as it is. *)
Definition do_op (e : Editor) (op : Op) : option Editor :=
  match match op with
        | Insert t => insert e t
        | ReplaceText t => replace_text e t
        | ReplaceRange start stop t => replace_range e start stop t
        | Key code m => key e code m
        | Take => Ok (take_text e).1
        | Retain budget => set_retention_limit e budget
        end with
  | Ok e' => Some e'
  | Err _ => Some e
  | Panic => None
  end.

Fixpoint run (e : Editor) (ops : list Op) : option Editor :=
  match ops with
  | [] => Some e
  | op :: ops => match do_op e op with Some e => run e ops | None => None end
  end.
End editor.
