(* ===== verification/EditorRules.v ===== *)
(** * Positions and the journal of the editor

    Which offsets are character boundaries, what a slice is, and what trimming keeps. *)

From S2P Require Import Prelude Text Editor.

(** ** Byte offsets *)
Lemma scalar_bytes_pos c : 1 ≤ scalar_bytes c ≤ 4.
Proof. unfold scalar_bytes. repeat case_match; lia. Qed.

Lemma text_len_zero t : text_len t = 0 → t = [].
Proof.
  destruct t as [|c t]; [done|]. rewrite text_len_cons. pose proof (scalar_bytes_pos c).
  pose proof (text_len_nonneg t). lia.
Qed.

(** A position where the text can be cut. *)
Definition boundary (t : text) (n : Z) : Prop := ∃ a b, t = a ++ b ∧ text_len a = n.

Lemma split_at_app a b : split_at (a ++ b) (text_len a) = Some (a, b).
Proof.
  induction a as [|c a IH]; [by destruct b|]. rewrite text_len_cons. pose proof (scalar_bytes_pos c).
  pose proof (text_len_nonneg a). cbn [split_at app]. rewrite (proj2 (Z.eqb_neq _ _)), (proj2 (Z.ltb_ge _ _)) by lia.
  replace (scalar_bytes c + text_len a - scalar_bytes c) with (text_len a) by lia. by rewrite IH.
Qed.

Lemma split_at_Some t : ∀ n a b, split_at t n = Some (a, b) → t = a ++ b ∧ text_len a = n.
Proof.
  induction t as [|c t IH]; intros n a b; cbn [split_at]; destruct (n =? 0) eqn:E.
  - intros [= <- <-]. split; [done|]. change (text_len []) with 0. lia.
  - done.
  - intros [= <- <-]. split; [done|]. change (text_len []) with 0. lia.
  - destruct (n <? scalar_bytes c); [done|]. destruct (split_at t _) as [[a' b']|] eqn:Es; [|done].
    intros [= <- <-]. destruct (IH _ _ _ Es) as [-> Hl]. split; [done|]. rewrite text_len_cons. lia.
Qed.

Lemma split_at_boundary t n : boundary t n → ∃ a b, split_at t n = Some (a, b) ∧ t = a ++ b ∧ text_len a = n.
Proof. intros (a & b & -> & <-). exists a, b. by rewrite split_at_app. Qed.

Lemma boundary_start t : boundary t 0.
Proof. by exists [], t. Qed.
Lemma boundary_stop t : boundary t (text_len t).
Proof. exists t, []. by rewrite app_nil_r. Qed.
Lemma boundary_mid pre post : boundary (pre ++ post) (text_len pre).
Proof. by exists pre, post. Qed.
Lemma boundary_shift pre t n : boundary t n → boundary (pre ++ t) (text_len pre + n).
Proof. intros (a & b & -> & <-). exists (pre ++ a), b. by rewrite text_len_app, <-app_assoc. Qed.
Lemma boundary_prefix t post n : boundary t n → boundary (t ++ post) n.
Proof. intros (a & b & -> & <-). exists a, (b ++ post). by rewrite <-app_assoc. Qed.

Lemma boundary_range t n : boundary t n → 0 ≤ n ≤ text_len t.
Proof.
  intros (a & b & -> & <-). rewrite text_len_app. pose proof (text_len_nonneg a). pose proof (text_len_nonneg b). lia.
Qed.

(** Two cuts in order. *)
Lemma cuts_ordered a b c d :
  a ++ b = c ++ d → text_len a ≤ text_len c → ∃ mid, c = a ++ mid ∧ b = mid ++ d.
Proof.
  intros He Hle. apply app_eq_inv in He as [(k & -> & ->)|(k & -> & ->)]; [|by exists k].
  rewrite text_len_app in Hle. pose proof (text_len_nonneg k).
  rewrite (text_len_zero k) by lia. exists []. by rewrite !app_nil_r.
Qed.

Lemma slice_boundaries t s e :
  boundary t s → boundary t e → s ≤ e →
  ∃ pre mid post, slice t s e = Some (pre, mid, post) ∧ t = pre ++ mid ++ post ∧ text_len pre = s ∧ text_len mid = e - s.
Proof.
  intros (a & b & -> & Ha) (c & d & He & Hc) Hle. destruct (cuts_ordered a b c d He ltac:(lia)) as (mid & -> & ->).
  rewrite text_len_app in Hc. exists a, mid, d. unfold slice. rewrite (proj2 (Z.ltb_ge _ _)) by lia.
  rewrite <-Ha, split_at_app. replace (e - text_len a) with (text_len mid) by lia. rewrite split_at_app.
  split_and!; done.
Qed.

Lemma slice_exact pre mid post :
  slice (pre ++ mid ++ post) (text_len pre) (text_len pre + text_len mid) = Some (pre, mid, post).
Proof.
  unfold slice. pose proof (text_len_nonneg mid). rewrite (proj2 (Z.ltb_ge _ _)), split_at_app by lia.
  replace (text_len pre + text_len mid - text_len pre) with (text_len mid) by lia. by rewrite split_at_app.
Qed.

(** ** Lines *)
Lemma find_line_Some t n : find_line t = Some n → ∃ a b, t = a ++ 10 :: b ∧ text_len a = n.
Proof.
  revert n. induction t as [|c t IH]; intros n; cbn [find_line]; [done|]. destruct (c =? 10) eqn:E.
  - intros [= <-]. apply Z.eqb_eq in E as ->. by exists [], t.
  - destruct (find_line t) as [m|]; [|done]. intros [= <-]. destruct (IH m eq_refl) as (a & b & -> & <-).
    by exists (c :: a), b.
Qed.

Lemma rfind_line_Some t n : rfind_line t = Some n → ∃ a b, t = a ++ 10 :: b ∧ text_len a = n.
Proof.
  revert n. induction t as [|c t IH]; intros n; cbn [rfind_line]; [done|].
  destruct (rfind_line t) as [m|].
  - intros [= <-]. destruct (IH m eq_refl) as (a & b & -> & <-). by exists (c :: a), b.
  - destruct (c =? 10) eqn:E; [|done]. intros [= <-]. apply Z.eqb_eq in E as ->. by exists [], t.
Qed.

(** Behind the last line feed. *)
Lemma line_boundary t :
  boundary t (match rfind_line t with Some i => i + 1 | None => 0 end).
Proof.
  destruct (rfind_line t) as [n|] eqn:E; [|apply boundary_start].
  apply rfind_line_Some in E as (a & b & -> & <-). exists (a ++ [10]), b. rewrite <-app_assoc. split; [done|].
  rewrite text_len_app. done.
Qed.

Section graphemes.
Context (graphemes : text → list text) (Hg : ∀ t, concat (graphemes t) = t).

Lemma offsets_from_boundary l : ∀ n o,
  o ∈ offsets_from n l → ∃ l1 l2, l = l1 ++ l2 ∧ o = n + text_len (concat l1).
Proof.
  induction l as [|s l IH]; intros n o; cbn [offsets_from]; [by intros ?%not_elem_of_nil|].
  intros [->|Ho]%elem_of_cons.
  - exists [], (s :: l). split; [done|]. change (text_len (concat [])) with 0. lia.
  - destruct (IH _ _ Ho) as (l1 & l2 & -> & ->). exists (s :: l1), l2. split; [done|].
    simpl. rewrite text_len_app. lia.
Qed.

Lemma offsets_boundary t o : o ∈ offsets graphemes t → boundary t o.
Proof.
  intros (l1 & l2 & Hl & ->)%offsets_from_boundary. exists (concat l1), (concat l2).
  split; [|lia]. rewrite <-(Hg t) at 1. rewrite Hl. apply concat_app.
Qed.
End graphemes.

(** ** The journal *)
Definition weights (l : list Change) : Z := zsum (change_bytes <$> l).
Definition balanced (j : Journal) : Prop := journal_bytes j = weights (undo j) + weights (redo j).

Lemma change_bytes_nonneg c : 0 ≤ change_bytes c.
Proof. unfold change_bytes. pose proof (text_len_nonneg (removed c)). pose proof (text_len_nonneg (inserted c)). lia. Qed.

Lemma weights_nonneg l : 0 ≤ weights l.
Proof. apply zsum_nonneg, Forall_fmap, Forall_true. apply change_bytes_nonneg. Qed.

Lemma weights_snoc l c : weights (l ++ [c]) = weights l + change_bytes c.
Proof. unfold weights. rewrite fmap_app, zsum_app. change (change_bytes <$> [c]) with [change_bytes c]. rewrite zsum_cons, zsum_nil. lia. Qed.

Lemma weights_cons c l : weights (c :: l) = change_bytes c + weights l.
Proof. done. Qed.

(** The journal without its [d] oldest changes. *)
Definition keep (d : nat) (j : Journal) : Journal :=
  let u := take (length (undo j) - d) (undo j) in
  let r := take (length (redo j) - (d - length (undo j))) (redo j) in
  {| undo := u; redo := r; journal_bytes := weights u + weights r |}.

Lemma keep_none j : balanced j → keep 0 j = j.
Proof.
  intros Hb. destruct j as [u r n]. unfold keep, balanced in *. simpl in *.
  rewrite !take_ge by lia. by rewrite Hb.
Qed.

Lemma pop_oldest_snoc {A} (l : list A) x : pop_oldest (l ++ [x]) = Some (x, l).
Proof. induction l as [|y l IH]; [done|]. cbn [pop_oldest app]. by rewrite IH. Qed.

Lemma take_snoc {A} (l : list A) n : (n < length l)%nat → ∃ x, take (S n) l = take n l ++ [x].
Proof.
  intros H. destruct (lookup_lt_is_Some_2 l n H) as [x Hx]. exists x. by apply take_S_r.
Qed.

Lemma drop_keep d j : (d < length (undo j) + length (redo j))%nat → drop_change (keep d j) = Ok (keep (S d) j).
Proof.
  intros Hd. unfold drop_change, keep. cbn [undo redo journal_bytes].
  destruct (decide (d < length (undo j))%nat) as [Hu|Hu].
  - destruct (take_snoc (undo j) (length (undo j) - S d)) as [x Hx]; [lia|].
    replace (S (length (undo j) - S d)) with (length (undo j) - d)%nat in Hx by lia.
    rewrite Hx, pop_oldest_snoc, weights_snoc. pose proof (weights_nonneg (take (length (undo j) - S d) (undo j))).
    replace (d - length (undo j))%nat with 0%nat by lia. replace (S d - length (undo j))%nat with 0%nat by lia.
    pose proof (weights_nonneg (take (length (redo j) - 0) (redo j))).
    rewrite checked_sub_fits by lia. cbn [expect obind]. f_equal. f_equal. lia.
  - replace (length (undo j) - d)%nat with 0%nat by lia. replace (length (undo j) - S d)%nat with 0%nat by lia.
    rewrite !take_0. cbn [pop_oldest].
    destruct (take_snoc (redo j) (length (redo j) - (S d - length (undo j)))) as [x Hx]; [lia|].
    replace (S (length (redo j) - (S d - length (undo j)))) with (length (redo j) - (d - length (undo j)))%nat in Hx by lia.
    rewrite Hx, pop_oldest_snoc, weights_snoc. cbn [expect obind].
    pose proof (weights_nonneg (take (length (redo j) - (S d - length (undo j))) (redo j))).
    change (weights []) with 0. rewrite checked_sub_fits by lia. cbn [expect obind]. f_equal. f_equal. lia.
Qed.

Lemma keep_all d j : (length (undo j) + length (redo j) ≤ d)%nat → keep d j = journal_default.
Proof.
  intros H. unfold keep. replace (length (undo j) - d)%nat with 0%nat by lia.
  replace (length (redo j) - (d - length (undo j)))%nat with 0%nat by lia. done.
Qed.

Lemma trim_loop_spec fuel j budget : ∀ d,
  0 ≤ budget → (d + fuel = length (undo j) + length (redo j))%nat →
  ∃ n, (d ≤ n)%nat ∧ trim_loop fuel (keep d j) budget = Ok (keep n j) ∧ over_budget (keep n j) budget = false ∧
       ∀ m, (d ≤ m < n)%nat → over_budget (keep m j) budget = true.
Proof.
  induction fuel as [|fuel IH]; intros d Hb Hd; cbn [trim_loop]; destruct (over_budget (keep d j) budget) eqn:E.
  - rewrite keep_all in E by lia. unfold over_budget in E. cbn in E. unfold MAXIMUM_BYTES, MAXIMUM_CHANGES, len in E. simpl in E. lia.
  - exists d. split_and!; [lia|done|done|lia].
  - rewrite drop_keep by lia. cbn [obind]. destruct (IH (S d) Hb) as (n & Hn & -> & Ho & Hm); [lia|].
    exists n. split_and!; [lia|done|done|]. intros m Hmn. destruct (decide (m = d)) as [->|]; [done|]. apply Hm. lia.
  - exists d. split_and!; [lia|done|done|lia].
Qed.

(** Trimming drops the fewest of the oldest changes after which the rest fits. *)
Lemma trim_spec j budget :
  balanced j → 0 ≤ budget →
  ∃ n, trim j budget = Ok (keep n j) ∧ over_budget (keep n j) budget = false ∧
       ∀ m, (m < n)%nat → over_budget (keep m j) budget = true.
Proof.
  intros Hj Hb. destruct (trim_loop_spec (length (undo j) + length (redo j)) j budget 0 Hb eq_refl) as (n & _ & He & Ho & Hm).
  rewrite keep_none in He by done. exists n. split; [exact He|]. split; [done|]. intros m Hlt. apply Hm. lia.
Qed.

Lemma drain_spec l : ∀ bytes, weights l ≤ bytes → drain bytes l = Some (bytes - weights l).
Proof.
  induction l as [|c l IH]; intros bytes; cbn [drain].
  - intros _. f_equal. change (weights []) with 0. lia.
  - rewrite weights_cons. pose proof (weights_nonneg l). intros Hle. rewrite checked_sub_fits by lia. rewrite IH by lia.
    f_equal. lia.
Qed.

Lemma record_spec j c budget :
  balanced j → 0 ≤ budget →
  let j1 := {| undo := c :: undo j; redo := []; journal_bytes := weights (c :: undo j) |} in
  ∃ n, record j c budget = Ok (keep n j1) ∧ over_budget (keep n j1) budget = false ∧
       ∀ m, (m < n)%nat → over_budget (keep m j1) budget = true.
Proof.
  intros Hj Hb j1. unfold record. unfold balanced in Hj. pose proof (weights_nonneg (undo j)).
  rewrite drain_spec by lia. cbn [expect obind].
  replace (journal_bytes j - weights (redo j) + change_bytes c) with (weights (c :: undo j)) by (rewrite weights_cons; lia).
  apply (trim_spec j1); [|done]. unfold balanced, j1. simpl. change (weights []) with 0. lia.
Qed.
