(* ===== verification/EditorHistory.v ===== *)
(** * Histories of the editor

    The journal of splices stands for the versions of the text, with their cursors, that are
    still on record: an undo gives back the version before the newest edit exactly, a redo
    the one after the edit that was undone. *)

From S2P Require Import Prelude Text Editor EditorRules.

(** ** Versions *)

(** The text and the cursor in front of an edit and behind it. *)
Record Version := { earlier : text * Z; later : text * Z }.

(** The edits that can be undone and redone, the nearest first. *)
Definition Zipper : Type := list Version * list Version.

Definition view (e : Editor) : text * Z := (content e, cursor e).

(** The edit an operation made, if it made one. *)
Definition edited (e e' : Editor) (z : Zipper) : Zipper :=
  if bool_decide (content e' = content e) then z
  else ({| earlier := view e; later := view e' |} :: z.1, []).

(** The journal may have dropped the oldest. *)
Definition on_record (e : Editor) (z : Zipper) : Zipper :=
  (take (length (undo (journal e))) z.1, take (length (redo (journal e))) z.2).

(** Undo and redo keys. *)
Definition travels (op : Op) : option bool :=
  match op with
  | Key (Char c) m => if ((c =? 122) || (c =? 90)) && (control m || alt m) then Some (alt m || shift m) else None
  | _ => None
  end.

(** The versions on record behind an operation: what an observer of the texts would write. *)
Definition versions_next (op : Op) (e e' : Editor) (z : Zipper) : Zipper :=
  on_record e'
    (match travels op with
     | Some false => match z.1 with [] => z | v :: u => (u, v :: z.2) end
     | Some true => match z.2 with [] => z | v :: r => (v :: z.1, r) end
     | None => edited e e' z
     end).

Section history.
Context (graphemes : text → list text) (Hg : ∀ t, concat (graphemes t) = t).

Fixpoint run_versions (e : Editor) (z : Zipper) (ops : list Op) : option (Editor * Zipper) :=
  match ops with
  | [] => Some (e, z)
  | op :: ops =>
      match do_op graphemes e op with
      | Some e' => run_versions e' (versions_next op e e' z) ops
      | None => None
      end
  end.

(** ** The invariant *)

(** A change is the difference of two versions. *)
Record explains (c : Change) (v : Version) : Prop := {
  ex_splice : ∃ pre post, (earlier v).1 = pre ++ removed c ++ post ∧ (later v).1 = pre ++ inserted c ++ post ∧
                          text_len pre = change_start c;
  ex_before : (earlier v).2 = before c;
  ex_after : (later v).2 = after c;
  ex_earlier : boundary (earlier v).1 (earlier v).2;
  ex_later : boundary (later v).1 (later v).2
}.

Fixpoint past (t : text) (u : list Version) : Prop :=
  match u with [] => True | v :: u => (later v).1 = t ∧ past (earlier v).1 u end.
Fixpoint future (t : text) (r : list Version) : Prop :=
  match r with [] => True | v :: r => (earlier v).1 = t ∧ future (later v).1 r end.

Definition small (B : Z) (v : Version) : Prop := text_len (earlier v).1 ≤ B ∧ text_len (later v).1 ≤ B.

Record editor_ok (B : Z) (e : Editor) (z : Zipper) : Prop := {
  ed_cursor : boundary (content e) (cursor e);
  ed_undo : Forall2 explains (undo (journal e)) z.1;
  ed_redo : Forall2 explains (redo (journal e)) z.2;
  ed_past : past (content e) z.1;
  ed_future : future (content e) z.2;
  ed_balanced : balanced (journal e);
  ed_budget : over_budget (journal e) (saturating_sub (retention_limit e) (capacity e)) = false;
  ed_capacity : text_len (content e) ≤ capacity e;
  ed_size : text_len (content e) ≤ B;
  ed_sizes : Forall (small B) z.1 ∧ Forall (small B) z.2;
  ed_bound : Z.min (limit e) MAX_TEXT ≤ B
}.

Lemma past_take t u n : past t u → past t (take n u).
Proof.
  revert t n. induction u as [|v u IH]; intros t [|n]; try done. intros [Hv Hp]. split; [done|]. by apply IH.
Qed.
Lemma future_take t r n : future t r → future t (take n r).
Proof.
  revert t n. induction r as [|v r IH]; intros t [|n]; try done. intros [Hv Hp]. split; [done|]. by apply IH.
Qed.

(** A text, a cursor and a journal that was trimmed. *)
Lemma trimmed_ok B e t n cap j z k :
  boundary t n → Forall2 explains (undo j) z.1 → Forall2 explains (redo j) z.2 → past t z.1 → future t z.2 →
  text_len t ≤ cap → text_len t ≤ B → Forall (small B) z.1 → Forall (small B) z.2 → Z.min (limit e) MAX_TEXT ≤ B →
  over_budget (keep k j) (saturating_sub (retention_limit e) cap) = false →
  let e' := set_content e t n cap (keep k j) in editor_ok B e' (on_record e' z).
Proof.
  intros Hn Hu Hr Hp Hf Hcap Hb Hs1 Hs2 Hlim Hover e'.
  pose proof (Forall2_length _ _ _ Hu) as Hlu. pose proof (Forall2_length _ _ _ Hr) as Hlr.
  constructor; cbn [e' set_content content cursor journal capacity limit retention_limit on_record fst snd keep undo redo];
    rewrite ?length_take; try done.
  - rewrite Nat.min_l by lia. by apply Forall2_take.
  - rewrite Nat.min_l by lia. by apply Forall2_take.
  - by apply past_take.
  - by apply future_take.
  - split; by apply Forall_take.
Qed.

Lemma on_record_same B e z : editor_ok B e z → on_record e z = z.
Proof.
  intros H. unfold on_record. rewrite (Forall2_length _ _ _ (ed_undo _ _ _ H)), (Forall2_length _ _ _ (ed_redo _ _ _ H)).
  rewrite !firstn_all. by destruct z.
Qed.

Section step.
Context (B : Z) (e : Editor) (z : Zipper) (He : editor_ok B e z).

Lemma move_ok n : boundary (content e) n → editor_ok B (set_cursor e n) (on_record (set_cursor e n) (edited e (set_cursor e n) z)).
Proof.
  intros Hn. unfold edited. rewrite bool_decide_eq_true_2 by done.
  change (on_record (set_cursor e n) z) with (on_record e z). rewrite (on_record_same B) by done.
  destruct He. by constructor.
Qed.

Lemma same_ok : editor_ok B e (on_record e (edited e e z)).
Proof. unfold edited. rewrite bool_decide_eq_true_2 by done. by rewrite (on_record_same B). Qed.

(** What an operation has to establish. *)
Definition settles (o : result Editor) : Prop :=
  match o with
  | Ok e' => editor_ok B e' (on_record e' (edited e e' z))
  | Err _ => True
  | Panic => False
  end.

Lemma find_boundary t n : boundary t (match find (λ o, n <=? o) (offsets graphemes t) with Some o => o | None => text_len t end).
Proof.
  destruct (find _ _) as [o|] eqn:E; [|apply boundary_stop]. apply find_some in E as [Hin _].
  apply (offsets_boundary graphemes Hg). by apply list_elem_of_In.
Qed.

Lemma replace_ok start stop value :
  boundary (content e) start → boundary (content e) stop → start ≤ stop →
  text_len (content e) - (stop - start) + text_len value ≤ Z.max (text_len (content e)) (Z.min (limit e) MAX_TEXT) →
  settles (replace graphemes e start stop value).
Proof.
  intros Hs Ht Hle Hsize. destruct (slice_boundaries _ _ _ Hs Ht Hle) as (pre & mid & post & Hslice & Hc & Hpre & Hmid).
  unfold replace. rewrite Hslice. cbn [expect obind]. destruct (bool_decide (mid = value)) eqn:Em; [exact same_ok|].
  apply bool_decide_eq_false in Em. pose proof (ed_balanced _ _ _ He) as Hbal.
  set (t := pre ++ value ++ post). set (n := match find _ _ with Some o => o | None => _ end).
  set (cap := reserve_exact _ _). set (c := {| change_start := start |}).
  assert (Hlen : text_len t = text_len (content e) - (stop - start) + text_len value).
  { unfold t. rewrite Hc, !text_len_app. lia. }
  pose proof (ed_capacity _ _ _ He) as Hcap0. pose proof (ed_size _ _ _ He) as Hsz. pose proof (ed_bound _ _ _ He) as Hbd.
  assert (Hcap : text_len t ≤ cap) by (unfold cap, reserve_exact, saturating_sub; lia).
  destruct (record_spec (journal e) c (saturating_sub (retention_limit e) cap) Hbal) as (k & -> & Hover & _);
    [unfold saturating_sub; lia|]. cbn [obind settles].
  assert (HB : text_len t ≤ B) by (rewrite Hlen; etrans; [exact Hsize|by apply Z.max_lub]).
  assert (Hnb : boundary t n) by apply find_boundary.
  assert (Hne : content (set_content e t n cap (keep k {| undo := c :: undo (journal e); redo := [];
                  journal_bytes := weights (c :: undo (journal e)) |})) ≠ content e).
  { cbn [set_content content]. unfold t. rewrite Hc. intros Heq%app_inv_head%app_inv_tail. by apply Em. }
  unfold edited. rewrite bool_decide_eq_false_2 by exact Hne.
  apply (trimmed_ok B e t n cap _ ({| earlier := view e; later := (t, n) |} :: z.1, []) k); cbn [undo redo fst snd past future]; try done.
  - constructor; [|apply He]. constructor; cbn [earlier later fst snd c change_start removed inserted before after view]; try done.
    + exists pre, post. by rewrite Hc.
    + apply He.
  - split; [done|apply He].
  - constructor; [by split|apply He].
Qed.

(** ** Undo and redo *)
Lemma travel_ok (forward : bool) :
  ∃ e', travel e forward = Ok e' ∧
    let z' := if forward then match z.2 with [] => z | v :: r => (v :: z.1, r) end
              else match z.1 with [] => z | v :: u => (u, v :: z.2) end in
    editor_ok B e' (on_record e' z') ∧
    view e' = match (if forward then z.2 else z.1) with
              | [] => view e
              | v :: _ => if forward then later v else earlier v
              end.
Proof.
  unfold travel. pose proof (ed_undo _ _ _ He) as Hu. pose proof (ed_redo _ _ _ He) as Hr.
  pose proof (ed_balanced _ _ _ He) as Hbal. pose proof (ed_past _ _ _ He) as Hp. pose proof (ed_future _ _ _ He) as Hf.
  pose proof (ed_capacity _ _ _ He) as Hcap0. pose proof (ed_sizes _ _ _ He) as [Hs1 Hs2].
  pose proof (ed_bound _ _ _ He) as Hbd.
  unfold balanced in Hbal. destruct z as [zu zr]. cbn [fst snd] in *. destruct forward.
  - destruct Hr as [|c v l r Hcv Hr].
    { exists e. split; [done|]. split; [|done]. by rewrite (on_record_same B). }
    pose proof Hcv as [(pre & post & H1 & H2 & H3) Hb Ha Hbe Hbl]. destruct Hf as [Hv Hf]. rewrite H1 in Hv.
    rewrite <-Hv, <-H3, slice_exact. cbn [expect obind]. set (cap := reserve_exact _ _).
    set (j := {| undo := c :: undo (journal e) |}).
    assert (Hj : balanced j).
    { unfold balanced, j. cbn [undo redo journal_bytes]. rewrite Hbal, !weights_cons. lia. }
    destruct (trim_spec j (saturating_sub (retention_limit e) cap) Hj) as (k & -> & Hover & _); [unfold saturating_sub; lia|].
    cbn [obind]. eexists. split; [done|]. apply Forall_cons in Hs2 as [[Hse Hsl] Hs2]. split.
    + apply (trimmed_ok B e _ _ cap j (v :: zu, r) k); cbn [undo redo j fst snd past future]; try done.
      * rewrite <-H2, <-Ha. exact Hbl.
      * by constructor.
      * split; [done|]. by rewrite H1, Hv.
      * by rewrite <-H2.
      * unfold cap, reserve_exact, saturating_sub. rewrite <-Hv, !text_len_app in *. lia.
      * by rewrite <-H2.
      * by constructor.
    + unfold view. cbn [set_content content cursor]. rewrite <-H2, <-Ha. by destruct (later v).
  - destruct Hu as [|c v l u Hcv Hu].
    { exists e. split; [done|]. split; [|done]. by rewrite (on_record_same B). }
    pose proof Hcv as [(pre & post & H1 & H2 & H3) Hb Ha Hbe Hbl]. destruct Hp as [Hv Hp]. rewrite H2 in Hv.
    rewrite <-Hv, <-H3, slice_exact. cbn [expect obind]. set (cap := reserve_exact _ _).
    set (j := {| undo := l |}).
    assert (Hj : balanced j).
    { unfold balanced, j. cbn [undo redo journal_bytes]. rewrite Hbal, !weights_cons. lia. }
    destruct (trim_spec j (saturating_sub (retention_limit e) cap) Hj) as (k & -> & Hover & _); [unfold saturating_sub; lia|].
    cbn [obind]. eexists. split; [done|]. apply Forall_cons in Hs1 as [[Hse Hsl] Hs1]. split.
    + apply (trimmed_ok B e _ _ cap j (u, v :: zr) k); cbn [undo redo j fst snd past future]; try done.
      * rewrite <-H1, <-Hb. exact Hbe.
      * by constructor.
      * by rewrite <-H1.
      * split; [done|]. by rewrite H2, Hv.
      * unfold cap, reserve_exact, saturating_sub. rewrite <-Hv, !text_len_app in *. lia.
      * by rewrite <-H1.
      * by constructor.
    + unfold view. cbn [set_content content cursor]. rewrite <-H1, <-Hb. by destruct (earlier v).
Qed.

(** ** Every operation *)
Lemma cursor_cut : ∃ head tail, split_at (content e) (cursor e) = Some (head, tail) ∧ content e = head ++ tail ∧ text_len head = cursor e.
Proof. apply split_at_boundary, He. Qed.

Lemma insert_settles t : settles (insert graphemes e t).
Proof.
  unfold insert. destruct (forbidden t); [done|]. destruct (_ <? _) eqn:E; [done|].
  apply replace_ok; [apply He|apply He|lia|]. unfold size_limit, saturating_add, usize_max, MAX_TEXT in *. lia.
Qed.

Lemma replace_text_settles t : settles (replace_text graphemes e t).
Proof.
  unfold replace_text. destruct (forbidden t); [done|]. destruct (_ <? _) eqn:E; [done|].
  pose proof (text_len_nonneg (content e)).
  apply replace_ok; [apply boundary_start|apply boundary_stop|lia|]. unfold size_limit in *. lia.
Qed.

Lemma boundary_test n :
  (n =? text_len (content e)) || existsb (λ o, o =? n) (offsets graphemes (content e)) = true → boundary (content e) n.
Proof.
  intros [->%Z.eqb_eq|H]%orb_true_iff; [apply boundary_stop|]. apply existsb_exists in H as (o & Hin & ->%Z.eqb_eq).
  apply (offsets_boundary graphemes Hg). by apply list_elem_of_In.
Qed.

Lemma replace_range_settles start stop t : settles (replace_range graphemes e start stop t).
Proof.
  unfold replace_range. cbv zeta. destruct (_ || _ || _ || _) eqn:Eg; [done|].
  apply orb_false_iff in Eg as [[[E1 E2]%orb_false_iff E3%negb_false_iff]%orb_false_iff E4%negb_false_iff].
  destruct (forbidden t); [done|]. destruct (size_limit e <? _) eqn:E; [done|].
  pose proof (boundary_test _ E3) as Hs. pose proof (boundary_test _ E4) as Ht.
  apply boundary_range in Hs as Hs'. apply boundary_range in Ht as Ht'.
  apply replace_ok; [done|done|lia|]. unfold size_limit, saturating_add, saturating_sub, usize_max, MAX_TEXT in *. lia.
Qed.

Lemma previous_spec : ∃ n, previous graphemes e = Ok n ∧ boundary (content e) n ∧ n ≤ cursor e.
Proof.
  destruct cursor_cut as (head & tail & Hs & Hc & Hl). unfold previous. rewrite Hs. cbn [expect obind].
  eexists. split; [done|]. rewrite Hc, <-Hl. destruct (last (offsets graphemes head)) as [o|] eqn:El.
  - apply last_Some_elem_of in El. apply (offsets_boundary graphemes Hg) in El.
    split; [by apply boundary_prefix|]. apply boundary_range in El. apply El.
  - split; [apply boundary_start|]. apply text_len_nonneg.
Qed.

Lemma next_spec : ∃ n, next graphemes e = Ok n ∧ boundary (content e) n ∧ cursor e ≤ n.
Proof.
  destruct cursor_cut as (head & tail & Hs & Hc & Hl). unfold next. rewrite Hs. cbn [expect obind].
  eexists. split; [done|]. rewrite Hc, <-Hl. destruct (graphemes tail) as [|s l] eqn:Et.
  - split; [apply boundary_mid|lia].
  - rewrite <-(Hg tail), Et. simpl. pose proof (text_len_nonneg s). split; [|lia].
    apply boundary_shift. apply boundary_mid.
Qed.

Lemma line_start_spec : ∃ n, line_start e = Ok n ∧ boundary (content e) n ∧ n ≤ cursor e.
Proof.
  destruct cursor_cut as (head & tail & Hs & Hc & Hl). unfold line_start. rewrite Hs. cbn [expect obind].
  eexists. split; [done|]. pose proof (line_boundary head) as Hb. rewrite Hc, <-Hl.
  split; [by apply boundary_prefix|]. apply boundary_range in Hb. apply Hb.
Qed.

Lemma line_end_spec : ∃ n, line_end e = Ok n ∧ boundary (content e) n.
Proof.
  destruct cursor_cut as (head & tail & Hs & Hc & Hl). unfold line_end. rewrite Hs. cbn [expect obind].
  eexists. split; [done|]. destruct (find_line tail) as [n|] eqn:Ef.
  - apply find_line_Some in Ef as (a & b & -> & <-). rewrite Hc, <-Hl. apply boundary_shift, boundary_mid.
  - replace (cursor e + (text_len (content e) - cursor e)) with (text_len (content e)) by lia. apply boundary_stop.
Qed.

(** A whole line inside the text. *)
Definition line_ok (o : result (option (Z * Z))) : Prop :=
  match o with
  | Ok (Some (start, stop)) => boundary (content e) start ∧ boundary (content e) stop ∧ start ≤ stop
  | Ok None => True
  | _ => False
  end.

Lemma line_above_spec start : line_start e = Ok start → line_ok (line_above e start).
Proof.
  destruct cursor_cut as (head & tail & Hs & Hc & Hl). unfold line_start. rewrite Hs. cbn [expect obind].
  intros [= <-]. unfold line_above. destruct (rfind_line head) as [n|] eqn:Er; [|done].
  apply rfind_line_Some in Er as (a & b & -> & <-). pose proof (text_len_nonneg a).
  rewrite checked_sub_fits by lia. replace (text_len a + 1 - 1) with (text_len a) by lia.
  assert (He' : content e = a ++ (10 :: b) ++ tail) by (by rewrite Hc, <-app_assoc).
  rewrite He', split_at_app. cbn [expect obind line_ok]. rewrite He'.
  pose proof (line_boundary a) as Hb. split; [by apply boundary_prefix|]. split; [apply boundary_mid|].
  apply boundary_range in Hb. apply Hb.
Qed.

Lemma line_below_spec : line_ok (line_below e).
Proof.
  destruct cursor_cut as (head & tail & Hs & Hc & Hl). unfold line_below. rewrite Hs. cbn [expect obind].
  destruct (find_line tail) as [n|] eqn:Ef; [|done]. apply find_line_Some in Ef as (a & b & -> & <-).
  assert (He' : content e = (head ++ a ++ [10]) ++ b) by (by rewrite Hc, <-!app_assoc).
  assert (Hstart : text_len (head ++ a ++ [10]) = cursor e + text_len a + 1).
  { rewrite !text_len_app, Hl. change (text_len [10]) with 1. lia. }
  rewrite <-Hstart, He', split_at_app. cbn [expect obind line_ok]. rewrite ?He'. pose proof (text_len_nonneg b).
  split; [apply boundary_mid|]. destruct (find_line b) as [n|] eqn:Eb.
  - apply find_line_Some in Eb as (c & d & -> & <-). pose proof (text_len_nonneg c).
    split; [apply boundary_shift, boundary_mid|lia].
  - set (h := head ++ a ++ [10]) in *. clearbody h.
    replace (text_len h + (text_len (h ++ b) - text_len h)) with (text_len (h ++ b)) by lia.
    split; [apply boundary_stop|]. rewrite text_len_app. lia.
Qed.

Lemma vertical_settles up : settles (vertical graphemes e up).
Proof.
  destruct line_start_spec as (n & Hn & Hb & Hle). unfold vertical. rewrite Hn. cbn [obind].
  destruct (slice_boundaries (content e) n (cursor e) Hb (ed_cursor _ _ _ He) Hle) as (p1 & line & p2 & -> & _).
  cbn [expect obind].
  assert (Hrange : line_ok (if up then line_above e n else line_below e)).
  { destruct up; [by apply line_above_spec|apply line_below_spec]. }
  destruct (if up then _ else _) as [[[start stop]|]|x|]; [|exact same_ok|done..].
  destruct Hrange as (Hs & Ht & Hst). cbn [obind].
  destruct (slice_boundaries (content e) start stop Hs Ht Hst) as (pre & l & post & -> & Hc & Hpre & Hmid).
  cbn [expect obind settles]. apply move_ok. destruct (offsets graphemes l !! _) as [o|] eqn:Eo.
  - apply list_elem_of_lookup_2, (offsets_boundary graphemes Hg) in Eo. rewrite Hc, <-Hpre.
    by apply boundary_shift, boundary_prefix.
  - by replace (start + (stop - start)) with stop by lia.
Qed.

Lemma erase_size start stop : start ≤ stop →
  text_len (content e) - (stop - start) + text_len [] ≤ Z.max (text_len (content e)) (Z.min (limit e) MAX_TEXT).
Proof. change (text_len []) with 0. lia. Qed.

(** The next test of [key]. *)
Ltac settle_case E := match goal with |- settles (if ?b then _ else _) => destruct b eqn:E end.

(** A key that does not travel. *)
Lemma key_settles code m : travels (Key code m) = None → settles (key graphemes e code m).
Proof.
  intros Ht. unfold key. cbv zeta. settle_case E1.
  { exfalso. destruct code; try done. cbn [travels] in Ht. by rewrite E1 in Ht. }
  settle_case E2; [apply insert_settles|]. settle_case E3; [apply insert_settles|].
  settle_case E4; [apply move_ok, boundary_start|]. settle_case E5; [apply move_ok, boundary_stop|].
  settle_case E6.
  { pose proof (boundary_range _ _ (ed_cursor _ _ _ He)).
    apply replace_ok; [apply boundary_start|apply He|lia|apply erase_size; lia]. }
  clear E1 E2 E3 E4 E5 E6 Ht.
  destruct code; try exact same_ok; try apply vertical_settles.
  - settle_case E; [apply insert_settles|exact same_ok].
  - destruct previous_spec as (n & -> & Hb & _). by apply move_ok.
  - destruct next_spec as (n & -> & Hb & _). by apply move_ok.
  - destruct line_start_spec as (n & -> & Hb & _). by apply move_ok.
  - destruct line_end_spec as (n & -> & Hb). by apply move_ok.
  - destruct previous_spec as (n & -> & Hb & Hle). apply replace_ok; [done|apply He|done|by apply erase_size].
  - destruct next_spec as (n & -> & Hb & Hle). apply replace_ok; [apply He|done|done|by apply erase_size].
Qed.

Lemma key_travels c m :
  ((c =? 122) || (c =? 90)) && (control m || alt m) = true →
  key graphemes e (Char c) m = travel e (alt m || shift m).
Proof. intros H. unfold key. cbv zeta. by rewrite H. Qed.

Lemma take_settles : settles (Ok (take_text e).1).
Proof.
  cbn [settles take_text fst]. set (e' := set_content _ _ _ _ _).
  assert (Hz : on_record e' (edited e e' z) = ([], [])) by (unfold on_record; by rewrite !take_0).
  rewrite Hz. destruct He as [? ? ? ? ? ? ? ? Hs ? ?]. pose proof (text_len_nonneg (content e)).
  constructor; cbn; try done; [apply boundary_start| |change (text_len []) with 0; lia].
  unfold over_budget. cbn. unfold MAXIMUM_BYTES, MAXIMUM_CHANGES, len, saturating_sub. simpl. lia.
Qed.

Lemma retain_settles budget : settles (set_retention_limit e budget).
Proof.
  unfold set_retention_limit. cbv zeta. set (r := Z.min _ _). set (cap := if r <? capacity e then _ else _).
  destruct (trim_spec (journal e) (saturating_sub r cap) (ed_balanced _ _ _ He)) as (k & -> & Hover & _);
    [unfold saturating_sub; lia|]. cbn [obind settles]. set (e' := {| content := content e |}).
  unfold edited. rewrite bool_decide_eq_true_2 by done.
  pose (e1 := {| content := content e; cursor := cursor e; limit := limit e; retention_limit := r;
                 journal := journal e; capacity := cap |}).
  apply (trimmed_ok B e1 (content e) (cursor e) cap (journal e) z k); try apply He; try done.
  unfold cap. pose proof (ed_capacity _ _ _ He). case_match; lia.
Qed.

Lemma do_op_settles op :
  ∃ e', do_op graphemes e op = Some e' ∧ editor_ok B e' (versions_next op e e' z) ∧
    match travels op with
    | Some forward => view e' = match (if forward then z.2 else z.1) with
                                | [] => view e
                                | v :: _ => if forward then later v else earlier v
                                end
    | None => True
    end.
Proof.
  destruct (travels op) as [forward|] eqn:Et.
  - destruct op as [| | |code m| |]; try done. destruct code as [c| | | | | | | | | |]; try done.
    cbn [travels] in Et. destruct (_ && _) eqn:Ek; [|done]. injection Et as <-.
    destruct (travel_ok (alt m || shift m)) as (e' & Hd & Hok & Hv). exists e'.
    unfold do_op. rewrite (key_travels c m Ek), Hd. split; [done|]. split; [|exact Hv].
    unfold versions_next. cbn [travels]. rewrite Ek. by destruct (alt m || shift m).
  - assert (Hs : settles (match op with
        | Insert t => insert graphemes e t
        | ReplaceText t => replace_text graphemes e t
        | ReplaceRange start stop t => replace_range graphemes e start stop t
        | Key code m => key graphemes e code m
        | Take => Ok (take_text e).1
        | Retain budget => set_retention_limit e budget
        end)).
    { destruct op; [apply insert_settles|apply replace_text_settles|apply replace_range_settles|by apply key_settles|
                    exact take_settles|apply retain_settles]. }
    unfold do_op, versions_next. rewrite Et. destruct (match op with Insert _ => _ | _ => _ end) as [e'|x|]; [| |done].
    + exists e'. by split_and!.
    + exists e. split_and!; [done|exact same_ok|done].
Qed.
End step.

Lemma run_versions_ok B ops : ∀ e z,
  editor_ok B e z → ∃ e' z', run_versions e z ops = Some (e', z') ∧ run graphemes e ops = Some e' ∧ editor_ok B e' z'.
Proof.
  induction ops as [|op ops IH]; intros e z He; cbn [run_versions run]; [by exists e, z|].
  destruct (do_op_settles B e z He op) as (e1 & -> & He1 & _). by apply IH.
Qed.

Definition text_bound (t : text) (limit : Z) : Z := Z.max (text_len t) (Z.min limit MAX_TEXT).

Lemma with_text_ok t limit capacity :
  text_len t ≤ capacity → editor_ok (text_bound t limit) (with_text t limit capacity) ([], []).
Proof.
  intros Hc. unfold text_bound. constructor; cbn; try done; [apply boundary_stop| |lia|lia].
  unfold over_budget. cbn. unfold MAXIMUM_BYTES, MAXIMUM_CHANGES, len, saturating_sub. simpl. lia.
Qed.

(** C21: undo is exact: after any history of edits, keys, submissions and budget changes, none
    of which panics, the undo key gives back exactly the text and the cursor in front of the
    newest edit on record, the redo key those behind the edit that was undone last; without
    one nothing changes.  The versions are those an observer of the texts writes down, and
    the journal has exactly as many splices. *)
Theorem undo_exact t limit capacity ops m :
  text_len t ≤ capacity → control m = true → alt m = false →
  ∃ e z, run_versions (with_text t limit capacity) ([], []) ops = Some (e, z) ∧
    run graphemes (with_text t limit capacity) ops = Some e ∧
    length (undo (journal e)) = length z.1 ∧ length (redo (journal e)) = length z.2 ∧
    ∃ e', do_op graphemes e (Key (Char 122) m) = Some e' ∧
      view e' = if shift m then match z.2 with [] => view e | v :: _ => later v end
                else match z.1 with [] => view e | v :: _ => earlier v end.
Proof.
  intros Hc Hm1 Hm2. destruct (run_versions_ok _ ops _ _ (with_text_ok t limit capacity Hc)) as (e & z & Hr & Hr' & He).
  exists e, z. split; [done|]. split; [done|]. split; [by eapply Forall2_length, He|]. split; [by eapply Forall2_length, He|].
  destruct (do_op_settles _ e z He (Key (Char 122) m)) as (e' & Hd & _ & Hv). exists e'. split; [done|].
  cbn [travels] in Hv. rewrite Hm1, Hm2 in Hv. cbn in Hv. by destruct (shift m).
Qed.

(** C35: the editor stays within its bounds: after any history the cursor is on a character
    boundary, the text is no longer than the larger of its first text and its limit, the
    journal counts exactly the bytes of its changes, has at most [MAXIMUM_CHANGES] of them
    and at most [MAXIMUM_BYTES] bytes, and text and journal together retain no more than
    the retention limit, or the text's own capacity where that is already more. *)
Theorem editor_bounded t limit capacity ops :
  text_len t ≤ capacity →
  ∃ e, run graphemes (with_text t limit capacity) ops = Some e ∧ boundary (content e) (cursor e) ∧
    text_len (content e) ≤ text_bound t limit ∧
    journal_bytes (journal e) = weights (undo (journal e)) + weights (redo (journal e)) ∧
    len (undo (journal e)) + len (redo (journal e)) ≤ MAXIMUM_CHANGES ∧ journal_bytes (journal e) ≤ MAXIMUM_BYTES ∧
    retained_bytes e ≤ Z.max (Editor.capacity e) (retention_limit e).
Proof.
  intros Hc. destruct (run_versions_ok _ ops _ _ (with_text_ok t limit capacity Hc)) as (e & z & _ & Hr & He).
  exists e. pose proof (ed_budget _ _ _ He) as Ho. apply orb_false_iff in Ho as [Ho1 Ho2].
  split; [done|]. split; [apply He|]. split; [apply He|]. split; [apply He|]. unfold retained_bytes, saturating_sub in *. lia.
Qed.
End history.

(** ** A history *)
Section samples.
(** Every scalar value is its own grapheme. *)
Definition scalars (t : text) : list text := (λ c, [c]) <$> t.
Lemma scalars_concat t : concat (scalars t) = t.
Proof. unfold scalars. induction t as [|c t IH]; [done|]. simpl. f_equal. exact IH. Qed.

Definition ctrl : Modifiers := {| control := true; alt := false; shift := false |}.
Definition plain : Modifiers := {| control := false; alt := false; shift := false |}.
Definition sample_keys : list Op :=
  [Insert [104; 233; 10; 121]; Key Up plain; Key Delete plain; Key (Char 122) ctrl; Key (Char 120) plain; Key (Char 122) ctrl].
Example sample_text :
  view <$> run scalars editor_default sample_keys = Some ([104; 233; 10; 121], 1).
Proof. vm_compute. done. Qed.
End samples.

Lemma undo_exact_witness :
  ∃ e z e', run_versions scalars (with_text [] MAX_TEXT 0) ([], []) sample_keys = Some (e, z) ∧
    do_op scalars e (Key (Char 122) ctrl) = Some e' ∧
    view e' = match z.1 with [] => view e | v :: _ => earlier v end.
Proof.
  destruct (undo_exact scalars scalars_concat [] MAX_TEXT 0 sample_keys ctrl) as (e & z & Hr & _ & _ & _ & e' & Hd & Hv);
    [done|done|done|].
  exists e, z, e'. exact (conj Hr (conj Hd Hv)).
Defined.

Lemma editor_bounded_witness :
  ∃ e, run scalars (with_text [] MAX_TEXT 0) sample_keys = Some e ∧ boundary (content e) (cursor e).
Proof.
  destruct (editor_bounded scalars scalars_concat [] MAX_TEXT 0 sample_keys) as (e & Hr & Hb & _); [done|].
  exists e. exact (conj Hr Hb).
Defined.
